(* ===== verification/_CoqProject ===== *)
-Q . S2P
Prelude.v
GoStrings.v
Calendar.v
Decimal.v
TxType.v
Posting.v
GroupState.v
Grouping.v
Exact.v
Trade.v
Deposit.v
Charge.v
Engine.v
Neighbourhood.v
Diff.v
DateRange.v
Coverage.v
PriceStore.v
Residual.v
Ledger.v
Instruments.v
Weigh.v
Transfer.v
Derivative.v
Splits.v
Declarations.v
Reconcile.v
Identity.v
Resolve.v
Validate.v
Books.v
Candidates.v
Ingest.v
PluginUtil.v
PriceFetch.v
EventFetch.v
Inflation.v
Views.v
Valuation.v
GroupCycle.v
Jobs.v
Imports.v
Recovery.v
Exports.v
