(* ===== verification/Prelude.v ===== *)
(** * PortfolioDB: a verification library of the server's core

    PortfolioDB keeps a user's brokerage postings as a double-entry ledger.  An upload
    states postings; each is weighed, stored and put in a group that must sum to zero;
    a grouping engine decides which postings are legs of one event; what a group is left
    short of is routed to a clearing or imbalance account; the two sides of a transfer
    are linked afterwards; and prices are fetched for the days a holding exists and no
    provider has answered for.  What a posting is about is an instrument, identified from
    what the source stated with the help of plugins, under names that hold for a time and
    that splits restate; and a user may declare what was held on a date, which an opening
    posting, the pad, then makes true.  The library models those parts of the Go server,
    one file per part, and proves what makes them correct.  The models are executable, and
    each definition is a translation of the function or SQL statement of the same name.

    ** The files

    - [Prelude] (this file): tactics and hints, comparisons with laws, Go's sorting
      ([go_sort], a stable insertion sort; [go_sort_unique] says when any other sort
      returns the same), maps of slices, 64-bit wrap-around, lemmas on lists.
    - [GoStrings], [Calendar]: what is used of Go's packages strings (on ASCII text) and
      time (dates as days from 1970-01-01).  [Decimal]: the interface of the decimal
      package, a parameter of everything that computes with amounts, with the laws it
      documents; the rationals are an instance.
    - [TxType], server/txtype: the tree of transaction types and declared sets.
    - [Posting], [GroupState], [Grouping], server/grouping/grouping.go and db.go: the
      evidence a posting carries; the partition under construction, a union-find with
      path compression; [Partition], which runs rules in order.
    - [Exact], [Trade], [Deposit], [Charge], [Engine]: the rules, server/grouping/exact.go,
      attaches.go, trade.go, deposit.go, charge.go, and their shipped order, engine.go.
    - [Neighbourhood], [Diff]: which stored postings a rule may need, server/grouping/
      neighbourhood.go over db/postgres/grouping.go, and where the engine disagrees with
      what is stored, diff.go.
    - [Residual], [Ledger], [Weigh]: server/residual; the tables and every write of them,
      db/postgres/txs.go and grouping_apply.go; what a posting weighs,
      service/ingestion/balance.go.
    - [Transfer], server/transfermatch and db/postgres/transfer_matches.go.
    - [DateRange], [Coverage], [PriceStore]: db/daterange.go; the coverage tables and the
      gap queries of db/postgres/coverage.go and price_cache.go, and computeMissingIntervals
      of corporateevents/worker.go; the price writes.
    - [Derivative], server/derivative: option symbols.
    - [Instruments], db/postgres/instruments.go: instruments, the names they are known by
      and for how long, and [EnsureInstrument], which finds, completes, merges or creates.
    - [Splits], db/postgres/corporate_events.go and corporateevents/option_splits.go: the
      table of splits, the cumulative factor, and the restatement of options.
    - [Declarations], [Reconcile]: db/postgres/declarations.go, service/api/declarations.go
      and recalc.go: declared holdings, the pads that make them true, the handlers and the
      recalculation after an upload.
    - [Identity], [Resolve]: server/identifier and service/identification/resolve.go: the
      vocabulary of identifiers and the comparison of answers; the resolution of an
      identity against the store and the identification plugins.
    - [Validate], [Candidates], [Ingest], server/service/ingestion: the checks of an
      upload, the pre-pass that asks the candidate plugins, and the batch, which resolves,
      checks, weighs and stores; [Books]: what of each row a write of the ledger keeps.
    - [PluginUtil], [PriceFetch], [EventFetch], [Inflation]: server/pluginutil; one cycle
      of the price fetcher, server/pricefetcher, of the corporate event fetcher,
      server/corporateevents/worker.go with the dividends and blocks of
      db/postgres/corporate_events.go, and of the inflation fetcher,
      server/inflationfetcher/worker.go with db/postgres/inflation.go.
    - [Views], [Valuation]: db/postgres/holdings.go, external_flows.go and
      residual_balances.go with the views they read; the query of db/postgres/valuation.go,
      a definition for each of its common table expressions.
    - [GroupCycle], server/grouping/worker.go and shadow.go: a cycle of the grouping worker
      over the groups a missing leg would explain, and the comparison it reports.
    - [Jobs], [Imports], [Recovery]: the import jobs.  db/postgres/jobs.go, the reporter of
      server/archiveimport and the queue of cmd/portfoliodb/main.go; what a worker does
      with an upload and a user archive and the requests that create them,
      service/ingestion/worker.go, user_import.go, tx_import.go and server.go,
      service/api/user_archive.go; and jobs over crashes and restarts, a run being the
      list of the states it committed.
    - [Exports], service/api/user_archive.go and txs_export.go: the export of a user's
      archive over the reads of db/postgres/txs.go and declarations.go, with the name a
      file gives an instrument, identifier_priority.go.

    State is a record, tables are lists of rows or maps by key, and an operation that can
    fail returns an option whose [None] is the error, which in a database transaction
    leaves the state as it was.  Interfaces between components are classes, or records of
    operations: [GroupStore]
    and [EngineStore] are what rules and engine ask of the state, implemented by the
    union-find and by the abstract map it refines; [GroupingReader] is what growing a
    neighbourhood asks of the store; [SettlerLaws] is what the ledger asks of whatever
    regroups, and [engine_settler] discharges it with the engine; [JobTables] is what
    reporting on a job asks of the state that holds its tables; [DecimalLaws] is what
    arithmetic asks of decimals.

    ** What is proved

    - The engine: its result is a partition of its input, does not depend on the order of
      the input, gives each posting a type its declared set admits, never undoes a claim;
      the union-find refines the obvious map; each rule claims exactly what its comment
      says (a stable matching for trades, runs for deposits, smallest explaining sets for
      charges); a neighbourhood is the least fixpoint of the reads and is reached.
    - The ledger: after any sequence of writes every group sums to zero in every commodity
      with at most one residual leg each; a period replace replaces exactly the period;
      stored weights do not depend on which declared type turns out to be meant; a trade's
      two legs cancel.
    - The grouping worker: a cycle keeps the books balanced, completes, and moves and
      retypes postings without changing any; what its comparison reports is true.
    - Transfers: links are sound, each side is in at most one, a strictly nearest pair is
      found, order does not matter, and the store keeps links unique.
    - Prices: range lists behave as sets of days; gaps are exactly the held days nobody
      answered for; every stored price is covered.
    - Types and symbols: resolution terminates on declared sets, and diverges on others;
      option symbols round-trip and never overflow their fields.
    - Instruments: however a set of identifiers is settled, they find one instrument
      afterwards; a merge keeps every name and every balance; restating an option gives it
      one name on every day, once, with its strike rounded once; factors compose.
    - Declarations: over any sequence of requests and recalculations the earliest
      declaration of each holding is what its postings and pad add up to.
    - Identification: whatever plugins answer, the store keeps its constraints; what was
      stated outranks what was proposed; merged names never contradict the chosen answer;
      a guess identifies nothing on its own word.
    - Ingestion: validation reports exactly the rows that may not be uploaded; whatever a
      batch holds and the plugins answer, it leaves balanced books whose postings are of
      instruments that exist, and writes all of its rows or none; each key of a batch is
      resolved once.
    - Jobs: every state an import commits has whole books, and a resumed archive leaves
      what was finished alone; processing a job always ends it, and one that fails says
      why; over any requests, crashes and restarts no job is lost, and an open one keeps
      its document.
    - Exports: the declarations of a user come back from their archive; its windows hold
      what was stated in the period and nothing else, one for each broker.
    - Fetching: whatever the data providers answer, a cycle asks only for days a holding
      needs and nobody has answered for, of plugins past every filter; it claims the days
      that were answered, blocks what was refused for good, and passes over no day: each
      is claimed, or every eligible plugin was asked for it in vain.  An inflation cycle
      asks from the first month missing where the driver gives dates in UTC, and anew from
      the start month where it does not, and stores at most one answer per currency.
    - Reading: the valuation query returns what its definition says for every day and
      commodity, and names exactly the positions its totals leave out, unless arithmetic
      of a day it values raises, as a display rate of zero does; what a portfolio values
      and what flows across its boundary are complementary.

    ** Fuel

    Loops that are not structural carry fuel, with a theorem that it is enough: four
    steps for the type tree ([under_loop_total], [resolve_total]); one more than the ids
    known for the union-find's climb ([find_loop_spec]); one round more than the user has postings for growing a
    neighbourhood ([neighbourhood_fixpoint]); and resolving an identity goes down
    [MaxResolveDepth] levels, as the code does.  Where the code itself does not return,
    [None] for every fuel says so ([resolve_diverges]).

    ** Not modelled

    Third-party and external code (the decimal package, uuid parsing, the database's
    numeric division and generated ids, identification plugins and data providers) is a
    parameter with named hypotheses.  Left out because they change no state of their own
    or only move data: RPC conversion, paging and filtered reads, archive streams and the
    export of a system archive, telemetry, logging, the worker loops around the modelled
    cycles, authentication, the HTTP clients inside plugins, start-up but for the jobs it
    takes up again, the import of a system archive (rows converted to the store calls of
    [PriceStore], [Instruments], [Splits] and [Inflation]) and the conversion of a
    provider's answer into bars and events. *)

From Stdlib Require Import ZArith.
From stdpp Require Export prelude gmap strings list sorting.

(** ** Scopes, hint databases and tactics *)

Declare Scope go_scope.
Delimit Scope go_scope with go.

Create HintDb go discriminated.

(** Case analysis on the booleans and options a goal is stuck on. *)
Ltac break_match :=
  match goal with
  | |- context [match ?x with _ => _ end] => destruct x eqn:?
  end.

Ltac break_match_in H :=
  match type of H with
  | context [match ?x with _ => _ end] => destruct x eqn:?
  end.

(** ** Three-way comparisons

    Every [less] function the Go code hands to [sort.Slice] is a lexicographic
    order on a key.  A key's order is given once, as a three-way comparison with
    its laws, and [less_of] reads the Go [less] off it. *)

Class Lawful {A} (cmp : A → A → comparison) : Prop := {
  cmp_antisym x y : cmp y x = CompOpp (cmp x y);
  cmp_lt_trans x y z : cmp x y = Lt → cmp y z = Lt → cmp x z = Lt;
  cmp_eq_l x y z : cmp x y = Eq → cmp x z = cmp y z;
}.

Arguments cmp_antisym {_} cmp {_} x y.
Arguments cmp_lt_trans {_} cmp {_} x y z.
Arguments cmp_eq_l {_} cmp {_} x y z.

Definition less_of {A} (cmp : A → A → comparison) (x y : A) : bool :=
  match cmp x y with Lt => true | _ => false end.

(** The lexicographic order of two comparisons, and a comparison on a key. *)
Definition cmp_lex {A B} (c1 : A → A → comparison) (c2 : B → B → comparison)
    (x y : A * B) : comparison :=
  match c1 x.1 y.1 with Eq => c2 x.2 y.2 | r => r end.

Definition cmp_on {A B} (f : A → B) (c : B → B → comparison) (x y : A) : comparison :=
  c (f x) (f y).

(** A comparison that puts [true] before [false]. *)
Definition cmp_bool (x y : bool) : comparison :=
  match x, y with true, false => Lt | false, true => Gt | _, _ => Eq end.

Section lawful.
Context {A : Type} (cmp : A → A → comparison) `{!Lawful cmp}.

Lemma cmp_refl x : cmp x x = Eq.
Proof. pose proof (cmp_antisym cmp x x) as H. by destruct (cmp x x). Qed.

Lemma cmp_eq_r x y z : cmp x y = Eq → cmp z x = cmp z y.
Proof. intros H. rewrite (cmp_antisym cmp x z), (cmp_antisym cmp y z). by erewrite cmp_eq_l. Qed.

Lemma cmp_eq_sym x y : cmp x y = Eq → cmp y x = Eq.
Proof. intros H. by rewrite cmp_antisym, H. Qed.

Lemma cmp_gt_lt x y : cmp x y = Gt ↔ cmp y x = Lt.
Proof. rewrite (cmp_antisym cmp x y). destruct (cmp x y); naive_solver. Qed.

Lemma cmp_le_trans x y z : cmp x y ≠ Gt → cmp y z ≠ Gt → cmp x z ≠ Gt.
Proof.
  destruct (cmp x y) eqn:E1; [| |done]; intros _.
  - by rewrite (cmp_eq_l cmp _ _ _ E1).
  - destruct (cmp y z) eqn:E2; [| |done]; intros _.
    + by rewrite <- (cmp_eq_r _ _ _ E2), E1.
    + by rewrite (cmp_lt_trans cmp _ _ _ E1 E2).
Qed.

Lemma less_of_irrefl x : less_of cmp x x = false.
Proof. unfold less_of. by rewrite cmp_refl. Qed.
End lawful.

Global Instance cmp_lex_lawful {A B} (c1 : A → A → comparison) (c2 : B → B → comparison) :
  Lawful c1 → Lawful c2 → Lawful (cmp_lex c1 c2).
Proof.
  intros L1 L2. unfold cmp_lex. split.
  - intros [a b] [a' b']; simpl. rewrite (cmp_antisym c1 a a').
    destruct (c1 a a'); simpl; try done. apply (cmp_antisym c2).
  - intros [a1 b1] [a2 b2] [a3 b3]; simpl.
    destruct (c1 a1 a2) eqn:E1, (c1 a2 a3) eqn:E2; try done.
    + rewrite (cmp_eq_l c1 _ _ _ E1), E2. apply (cmp_lt_trans c2).
    + by rewrite (cmp_eq_l c1 _ _ _ E1), E2.
    + by rewrite <- (cmp_eq_r c1 _ _ _ E2), E1.
    + by rewrite (cmp_lt_trans c1 _ _ _ E1 E2).
  - intros [a1 b1] [a2 b2] [a3 b3]; simpl.
    destruct (c1 a1 a2) eqn:E1; try done. intros E2.
    rewrite (cmp_eq_l c1 _ _ _ E1). destruct (c1 a2 a3); try done. by apply (cmp_eq_l c2).
Qed.

Global Instance cmp_on_lawful {A B} (f : A → B) (c : B → B → comparison) :
  Lawful c → Lawful (cmp_on f c).
Proof.
  intros L. unfold cmp_on. split; intros *.
  - apply (cmp_antisym c).
  - apply (cmp_lt_trans c).
  - apply (cmp_eq_l c).
Qed.

Global Instance cmp_bool_lawful : Lawful cmp_bool.
Proof. split; intros; repeat match goal with x : bool |- _ => destruct x end; done. Qed.

Global Instance Z_compare_lawful : Lawful Z.compare.
Proof.
  split.
  - intros x y. apply Z.compare_antisym.
  - intros x y z. rewrite !Z.compare_lt_iff. lia.
  - intros x y z ->%Z.compare_eq. done.
Qed.

Global Instance nat_compare_lawful : Lawful Nat.compare.
Proof.
  split.
  - intros x y. apply Nat.compare_antisym.
  - intros x y z. rewrite !Nat.compare_lt_iff. lia.
  - intros x y z ->%Nat.compare_eq. done.
Qed.

(** Go compares strings bytewise and lexicographically, as [String.compare]. *)
Lemma ascii_compare_lt_trans a b c :
  Ascii.compare a b = Lt → Ascii.compare b c = Lt → Ascii.compare a c = Lt.
Proof. unfold Ascii.compare. rewrite !N.compare_lt_iff. lia. Qed.

Lemma string_compare_lt_trans x y z :
  String.compare x y = Lt → String.compare y z = Lt → String.compare x z = Lt.
Proof.
  revert y z. induction x as [|a x IH]; intros [|b y] [|c z]; simpl; try done.
  destruct (Ascii.compare a b) eqn:E1; [|intros _|done].
  - apply Ascii.compare_eq_iff in E1 as ->.
    destruct (Ascii.compare b c) eqn:E2; [|done|done]. apply IH.
  - destruct (Ascii.compare b c) eqn:E2; [intros _| |done].
    + apply Ascii.compare_eq_iff in E2 as ->. by rewrite E1.
    + intros _. by rewrite (ascii_compare_lt_trans _ _ _ E1 E2).
Qed.

Global Instance string_compare_lawful : Lawful String.compare.
Proof.
  split.
  - intros x y. rewrite String.compare_antisym. by destruct (String.compare y x).
  - intros x y z. apply string_compare_lt_trans.
  - intros x y z ->%String.compare_eq_iff. done.
Qed.

Notation "s <? t" := (String.ltb s t) : go_scope.

Lemma string_ltb_less_of s t : String.ltb s t = less_of String.compare s t.
Proof. unfold String.ltb, less_of. by destruct (String.compare s t). Qed.

Lemma string_ltb_lt s t : String.ltb s t = true ↔ String.compare s t = Lt.
Proof. unfold String.ltb. destruct (String.compare s t); naive_solver. Qed.

Lemma string_ltb_irrefl s : String.ltb s s = false.
Proof. rewrite string_ltb_less_of. apply less_of_irrefl, _. Qed.

Lemma string_ltb_trans s t u :
  String.ltb s t = true → String.ltb t u = true → String.ltb s u = true.
Proof. rewrite !string_ltb_lt. apply string_compare_lt_trans. Qed.

Lemma string_ltb_asym s t : String.ltb s t = true → String.ltb t s = false.
Proof.
  intros H. destruct (String.ltb t s) eqn:E; [|done].
  pose proof (string_ltb_trans _ _ _ H E) as H'. by rewrite string_ltb_irrefl in H'.
Qed.

Lemma string_ltb_total s t : s ≠ t → String.ltb s t = false → String.ltb t s = true.
Proof.
  intros Hne. rewrite string_ltb_lt. unfold String.ltb. rewrite (cmp_antisym String.compare s t).
  destruct (String.compare s t) eqn:E; try done.
  by apply String.compare_eq_iff in E.
Qed.

(** ** Sorting

    [sort.Slice], [sort.SliceStable] and [sort.Strings].  [go_sort] is a stable
    insertion sort; [go_sort_unique] says that wherever no two elements tie, any
    other sorting routine, stable or not, returns the same list. *)

Fixpoint go_insert {A} (less : A → A → bool) (x : A) (l : list A) : list A :=
  match l with
  | [] => [x]
  | y :: l' => if less y x then y :: go_insert less x l' else x :: l
  end.

Definition go_sort {A} (less : A → A → bool) (l : list A) : list A :=
  foldr (go_insert less) [] l.

Definition sort_strings : list string → list string := go_sort String.ltb.

Section sorting.
Context {A : Type} (less : A → A → bool).

Lemma go_insert_perm x l : go_insert less x l ≡ₚ x :: l.
Proof.
  induction l as [|y l IH]; simpl; [done|].
  destruct (less y x); [|done]. rewrite IH. constructor.
Qed.

Lemma go_sort_perm l : go_sort less l ≡ₚ l.
Proof. induction l as [|x l IH]; simpl; [done|]. by rewrite go_insert_perm, IH. Qed.

Lemma elem_of_go_sort x l : x ∈ go_sort less l ↔ x ∈ l.
Proof. by rewrite go_sort_perm. Qed.

Context (cmp : A → A → comparison) `{!Lawful cmp}.
Hypothesis less_cmp : ∀ x y, less x y = less_of cmp x y.

Lemma go_insert_sorted x l :
  StronglySorted (λ x y, cmp x y ≠ Gt) l →
  StronglySorted (λ x y, cmp x y ≠ Gt) (go_insert less x l).
Proof.
  induction 1 as [|y l Hl IH Hy]; simpl; [repeat constructor|].
  rewrite less_cmp. unfold less_of. destruct (cmp y x) eqn:E.
  all: repeat (constructor; try done).
  - by rewrite (cmp_eq_sym cmp _ _ E).
  - rewrite Forall_forall in Hy |- *. intros z Hz.
    rewrite <- (cmp_eq_l cmp _ _ _ E). by apply Hy.
  - rewrite Forall_forall in Hy |- *. intros z.
    rewrite go_insert_perm. intros [->|Hz]%elem_of_cons; [congruence|by apply Hy].
  - by rewrite (proj1 (cmp_gt_lt cmp _ _) E).
  - rewrite Forall_forall in Hy |- *. intros z Hz.
    apply (cmp_le_trans cmp _ y); [|by apply Hy].
    by rewrite (proj1 (cmp_gt_lt cmp _ _) E).
Qed.

Lemma go_sort_sorted l : StronglySorted (λ x y, cmp x y ≠ Gt) (go_sort less l).
Proof. induction l as [|x l IH]; simpl; [constructor|]. by apply go_insert_sorted. Qed.

(** A list sorted by the same key and holding the same elements is the one
    [go_sort] returns, as long as elements that tie are equal. *)
Lemma go_sort_unique_sorted l l' :
  (∀ x y, x ∈ l → y ∈ l → cmp x y = Eq → x = y) →
  StronglySorted (λ x y, cmp x y ≠ Gt) l' → l' ≡ₚ l → l' = go_sort less l.
Proof.
  intros Htie Hsorted Hp.
  eapply (StronglySorted_unique_strong (λ x y, cmp x y ≠ Gt)); eauto using go_sort_sorted.
  - intros x y Hx Hy H1 H2. rewrite Hp in Hx. rewrite elem_of_go_sort in Hy.
    apply Htie; [done|done|]. rewrite (cmp_antisym cmp x y) in H2.
    by destruct (cmp x y).
  - by rewrite go_sort_perm.
Qed.

Lemma go_sort_unique l l' :
  (∀ x y, x ∈ l → y ∈ l → cmp x y = Eq → x = y) →
  l ≡ₚ l' → go_sort less l = go_sort less l'.
Proof.
  intros Htie Hp. symmetry. apply go_sort_unique_sorted; [done|apply go_sort_sorted|].
  by rewrite go_sort_perm.
Qed.

Lemma go_sort_id l :
  StronglySorted (λ x y, cmp x y ≠ Gt) l → go_sort less l = l.
Proof.
  induction 1 as [|x l Hl IH Hx]; simpl; [done|]. rewrite IH.
  destruct l as [|y l]; simpl; [done|]. rewrite less_cmp. unfold less_of.
  rewrite (cmp_antisym cmp x y). apply Forall_cons in Hx as [Hx _].
  by destruct (cmp x y).
Qed.
End sorting.

Lemma sort_strings_perm l : sort_strings l ≡ₚ l.
Proof. apply go_sort_perm. Qed.

Lemma sort_strings_unique l l' : l ≡ₚ l' → sort_strings l = sort_strings l'.
Proof.
  apply (go_sort_unique _ String.compare string_ltb_less_of).
  intros x y _ _. apply String.compare_eq_iff.
Qed.

Lemma sort_strings_idemp l : sort_strings (sort_strings l) = sort_strings l.
Proof. apply sort_strings_unique, sort_strings_perm. Qed.

(** ** Maps of slices

    The Go idiom [m[k] = append(m[k], v)] over a sequence of (key, value) pairs,
    and the read [m[k]], whose value for an absent key is the empty slice. *)

Definition index_by {K A} `{Countable K} (l : list (K * A)) : gmap K (list A) :=
  foldl (λ m ka, <[ka.1 := default [] (m !! ka.1) ++ [ka.2]]> m) ∅ l.

Definition at_key {K A} `{Countable K} (m : gmap K (list A)) (k : K) : list A :=
  default [] (m !! k).

Definition sel {K A} `{EqDecision K} (k : K) (l : list (K * A)) : list A :=
  (filter (λ ka, ka.1 = k) l).*2.

Section index_by.
Context {K A : Type} `{Countable K}.
Implicit Types (l : list (K * A)) (m : gmap K (list A)).

Lemma sel_app k l1 l2 : sel k (l1 ++ l2) = sel k l1 ++ sel k l2.
Proof. unfold sel. by rewrite filter_app, fmap_app. Qed.

Lemma sel_cons k ka l :
  sel k (ka :: l) = (if decide (ka.1 = k) then [ka.2] else []) ++ sel k l.
Proof. unfold sel. rewrite filter_cons. by case_decide. Qed.

Lemma elem_of_sel k a l : a ∈ sel k l ↔ (k, a) ∈ l.
Proof.
  unfold sel. rewrite list_elem_of_fmap. split.
  - intros ([k' a'] & -> & [Hk Hin]%list_elem_of_filter). simpl in *. by subst.
  - intros Hin. exists (k, a). split; [done|]. by apply list_elem_of_filter.
Qed.

Lemma sel_perm k l1 l2 : l1 ≡ₚ l2 → sel k l1 ≡ₚ sel k l2.
Proof. intros Hp. unfold sel. by rewrite Hp. Qed.

Lemma foldl_index_lookup l m k :
  at_key (foldl (λ m ka, <[ka.1 := default [] (m !! ka.1) ++ [ka.2]]> m) m l) k
  = at_key m k ++ sel k l.
Proof.
  revert m. induction l as [|[k' a] l IH]; intros m; simpl.
  { unfold sel. simpl. by rewrite app_nil_r. }
  rewrite IH, sel_cons. simpl. unfold at_key at 1. rewrite lookup_insert.
  case_decide as Hk; simpl; [subst; by rewrite <-app_assoc|done].
Qed.

(** Reading the index at a key returns the values filed under it, in order. *)
Lemma at_key_index_by l k : at_key (index_by l) k = sel k l.
Proof. unfold index_by. rewrite foldl_index_lookup. unfold at_key. by rewrite lookup_empty. Qed.

Lemma dom_index_by l : dom (index_by l) = list_to_set l.*1.
Proof.
  unfold index_by.
  cut (∀ m, dom (foldl (λ m ka, <[ka.1 := default [] (m !! ka.1) ++ [ka.2]]> m) m l)
    = dom m ∪ list_to_set l.*1).
  { intros ->. rewrite dom_empty_L. set_solver. }
  induction l as [|[k a] l IH]; intros m; simpl; [set_solver|].
  rewrite IH, dom_insert_L. set_solver.
Qed.

Definition keys_of (m : gmap K (list A)) : list K := (map_to_list m).*1.

Lemma elem_of_keys_index_by l k : k ∈ keys_of (index_by l) ↔ k ∈ l.*1.
Proof.
  unfold keys_of. rewrite <- (elem_of_list_to_set (C:=gset K) _ l.*1), <- dom_index_by.
  rewrite elem_of_dom, list_elem_of_fmap. split.
  - intros ([k' v] & -> & Hin%elem_of_map_to_list). by exists v.
  - intros [v Hv]. exists (k, v). by rewrite elem_of_map_to_list.
Qed.

Lemma NoDup_keys_of m : NoDup (keys_of m).
Proof. apply NoDup_fst_map_to_list. Qed.

Lemma keys_index_by_perm l1 l2 :
  l1 ≡ₚ l2 → keys_of (index_by l1) ≡ₚ keys_of (index_by l2).
Proof.
  intros Hp. apply NoDup_Permutation; [apply NoDup_keys_of..|].
  intros k. by rewrite !elem_of_keys_index_by, Hp.
Qed.
End index_by.

(** ** Machine integers

    [int64] arithmetic wraps around two's complement. *)

Definition wrap64 (z : Z) : Z := (z + 2 ^ 63) `mod` 2 ^ 64 - 2 ^ 63.
Definition max_int64 : Z := 2 ^ 63 - 1.
Definition min_int64 : Z := - 2 ^ 63.
Definition in_int64 (z : Z) : Prop := (min_int64 ≤ z ≤ max_int64)%Z.

Lemma wrap64_id z : in_int64 z → wrap64 z = z.
Proof.
  unfold in_int64, wrap64, min_int64, max_int64. intros Hz.
  rewrite Z.mod_small; lia.
Qed.

Lemma wrap64_range z : in_int64 (wrap64 z).
Proof.
  unfold in_int64, wrap64, min_int64, max_int64.
  pose proof (Z.mod_pos_bound (z + 2 ^ 63) (2 ^ 64)) as H. lia.
Qed.

(** ** Lists *)

(** A left fold of two related step functions from related states. *)
Lemma foldl_rel {A S T} (R : S → T → Prop) (f : S → A → S) (g : T → A → T) l s t :
  R s t → (∀ s t a, a ∈ l → R s t → R (f s a) (g t a)) →
  R (foldl f s l) (foldl g t l).
Proof.
  revert s t. induction l as [|a l IH]; intros s t HR Hstep; simpl; [done|].
  apply IH; [apply Hstep; [left|done]|]. intros. apply Hstep; [by right|done].
Qed.

(** A left fold preserves what each step preserves. *)
Lemma foldl_inv {A S} (P : S → Prop) (f : S → A → S) l s :
  P s → (∀ s a, a ∈ l → P s → P (f s a)) → P (foldl f s l).
Proof.
  intros Hs Hstep. apply (foldl_rel (λ s (_ : unit), P s) f (λ t _, t) l s tt); auto.
Qed.

Lemma foldl_ext_in {A S} (f g : S → A → S) l s :
  (∀ s a, a ∈ l → f s a = g s a) → foldl f s l = foldl g s l.
Proof.
  revert s. induction l as [|a l IH]; intros s Hfg; simpl; [done|].
  rewrite (Hfg s a) by left. apply IH. intros. apply Hfg. by right.
Qed.

(** Elements with distinct keys are determined by their key. *)
Lemma NoDup_fmap_inj_in {A B} (f : A → B) l x y :
  NoDup (f <$> l) → x ∈ l → y ∈ l → f x = f y → x = y.
Proof.
  intros Hnd (i & Hi)%list_elem_of_lookup (j & Hj)%list_elem_of_lookup Hf.
  assert (i = j) as ->; [|congruence].
  eapply NoDup_lookup; [exact Hnd|..]; rewrite list_lookup_fmap.
  - by rewrite Hi.
  - by rewrite Hj, Hf.
Qed.

Lemma filter_ext_in {A} (P Q : A → Prop) `{∀ x, Decision (P x), ∀ x, Decision (Q x)} (l : list A) :
  (∀ x, x ∈ l → P x ↔ Q x) → filter P l = filter Q l.
Proof.
  induction l as [|x l IH]; intros Hl; [done|].
  rewrite !filter_cons. rewrite IH by (intros; apply Hl; by right).
  pose proof (Hl x ltac:(left)). by repeat case_decide; naive_solver.
Qed.

Lemma Permutation_omap {A B} (f : A → option B) l l' : l ≡ₚ l' → omap f l ≡ₚ omap f l'.
Proof. induction 1; simpl; repeat case_match; eauto using Permutation. Qed.

(** The comprehension the nested loops of the code build their candidates with. *)
Lemma elem_of_bind {A B} (f : A → list B) l y : y ∈ l ≫= f ↔ ∃ x, y ∈ f x ∧ x ∈ l.
Proof. apply list_elem_of_bind. Qed.

Lemma bind_perm {A B} (f g : A → list B) l l' :
  (∀ x, x ∈ l → f x ≡ₚ g x) → l ≡ₚ l' → l ≫= f ≡ₚ l' ≫= g.
Proof.
  intros Hfg Hp. transitivity (l ≫= g).
  - clear Hp. induction l as [|x l IH]; csimpl; [done|].
    rewrite (Hfg x) by left. rewrite IH; [done|]. intros. apply Hfg. by right.
  - by rewrite Hp.
Qed.

Lemma existsb_perm {A} (f : A → bool) l l' : l ≡ₚ l' → existsb f l = existsb f l'.
Proof.
  induction 1 as [|x l l' _ IH|x y l|l1 l2 l3 _ IH1 _ IH2]; simpl; [done|by rewrite IH| |congruence].
  by destruct (f x), (f y).
Qed.

Lemma existsb_False {A} (f : A → bool) l : existsb f l = false ↔ ∀ x, x ∈ l → f x ≠ true.
Proof.
  rewrite <- not_true_iff_false, existsb_exists. setoid_rewrite <- list_elem_of_In. naive_solver.
Qed.

Lemma forallb_pointwise {A} (f g : A → bool) l :
  (∀ x, x ∈ l → f x = g x) → forallb f l = forallb g l.
Proof.
  induction l as [|x l IH]; intros Hfg; simpl; [done|].
  rewrite (Hfg x) by left. rewrite IH; [done|]. intros. apply Hfg. by right.
Qed.

Lemma forallb_elem {A} (f : A → bool) l x : forallb f l = true → x ∈ l → f x = true.
Proof. rewrite forallb_forall. intros Hf Hx%list_elem_of_In. auto. Qed.

Lemma forallb_intro {A} (f : A → bool) l : (∀ x, x ∈ l → f x = true) → forallb f l = true.
Proof. intros Hf. apply forallb_forall. intros x Hx%list_elem_of_In. auto. Qed.

Lemma bind_app_perm {A B} (f g : A → list B) l :
  l ≫= (λ x, f x ++ g x) ≡ₚ (l ≫= f) ++ (l ≫= g).
Proof.
  induction l as [|x l IH]; csimpl; [done|]. rewrite IH.
  rewrite <- !app_assoc. apply Permutation_app_head.
  rewrite !app_assoc. apply Permutation_app_tail. apply Permutation_app_comm.
Qed.

Lemma bind_singleton_at {K A} `{EqDecision K} (k : K) (v : A) ks :
  NoDup ks → k ∈ ks → ks ≫= (λ k', if decide (k = k') then [v] else []) = [v].
Proof.
  induction 1 as [|k' ks Hk' Hnd IH]; [by intros ?%elem_of_nil|]. csimpl.
  intros [->|Hin]%elem_of_cons.
  - rewrite decide_True by done. simpl. f_equal.
    clear -Hk'. induction ks as [|k ks IH]; csimpl; [done|].
    rewrite decide_False by set_solver. simpl. apply IH. set_solver.
  - rewrite decide_False by set_solver. auto.
Qed.

(** Every value filed in an index is in exactly one of its slices. *)
Lemma bind_sel_perm {K A} `{EqDecision K} (ks : list K) (l : list (K * A)) :
  NoDup ks → (∀ ka, ka ∈ l → ka.1 ∈ ks) → ks ≫= (λ k, sel k l) ≡ₚ l.*2.
Proof.
  intros Hks. induction l as [|[k v] l IH]; intros Hin; simpl.
  - clear. by induction ks.
  - rewrite (bind_perm _ (λ k', (if decide (k = k') then [v] else []) ++ sel k' l) ks ks); [|intros x _|done].
    + rewrite bind_app_perm, bind_singleton_at; [|done|by apply (Hin (k, v)); left].
      simpl. constructor. apply IH. intros. apply Hin. by right.
    + unfold sel. rewrite filter_cons. simpl. by case_decide.
Qed.

Lemma bind_fmap {A B C} (f : A → B) (g : B → list C) l : (f <$> l) ≫= g = l ≫= (g ∘ f).
Proof. induction l as [|x l IH]; csimpl; [done|]. by rewrite IH. Qed.

(** ** Choosing the best of a list

    The loop that keeps the best element seen so far finds the head of the sorted
    list. *)

Section argmin.
Context {A : Type} (less : A → A → bool) (cmp : A → A → comparison) `{!Lawful cmp}.
Hypothesis less_cmp : ∀ x y, less x y = less_of cmp x y.

Lemma head_go_sort_cons x l :
  head (go_sort less (x :: l)) =
  Some (match head (go_sort less l) with Some y => if less y x then y else x | None => x end).
Proof.
  change (go_sort less (x :: l)) with (go_insert less x (go_sort less l)).
  destruct (go_sort less l) as [|y l']; simpl; [done|]. by destruct (less y x).
Qed.

Lemma less_cmp_trans x y z : less x y = true → less y z = true → less x z = true.
Proof.
  rewrite !less_cmp. unfold less_of.
  destruct (cmp x y) eqn:E1; try done. destruct (cmp y z) eqn:E2; try done.
  by rewrite (cmp_lt_trans cmp _ _ _ E1 E2).
Qed.

Lemma less_cmp_ge_trans x y z : less x y = false → less y z = false → less x z = false.
Proof.
  rewrite !less_cmp. unfold less_of. intros H1 H2.
  assert (cmp z x ≠ Gt) as Hzx.
  { apply (cmp_le_trans cmp _ y); rewrite (cmp_antisym cmp); [by destruct (cmp y z)|by destruct (cmp x y)]. }
  rewrite (cmp_antisym cmp) in Hzx. by destruct (cmp x z).
Qed.

Lemma argmin_fold (e : A → bool) l b0 :
  foldl (λ best m,
    if negb (e m) then best
    else match best with None => Some m | Some b => if less m b then Some m else best end) b0 l
  = head (go_sort less (option_list b0 ++ filter (λ m, e m = true) l)).
Proof.
  revert b0. induction l as [|m l IH]; intros b0.
  { rewrite filter_nil, app_nil_r. by destruct b0. }
  simpl foldl. rewrite IH, filter_cons. destruct (e m) eqn:Em; simpl negb.
  2: { by rewrite decide_False. }
  rewrite decide_True by done. destruct b0 as [b|]; [|done].
  destruct (less m b) eqn:Emb; simpl option_list; simpl app.
  all: rewrite !head_go_sort_cons; set (F := filter _ l);
    destruct (head (go_sort less F)) as [y|]; simpl.
  - destruct (less y m) eqn:Eym; [by rewrite (less_cmp_trans _ _ _ Eym Emb)|by rewrite Emb].
  - by rewrite Emb.
  - destruct (less y m) eqn:Eym; [done|]. by rewrite Emb, (less_cmp_ge_trans _ _ _ Eym Emb).
  - by rewrite Emb.
Qed.

(** The head of a sorted list is a least element. *)
Lemma head_go_sort_least l x y :
  head (go_sort less l) = Some x → y ∈ l → x ∈ l ∧ cmp x y ≠ Gt.
Proof.
  intros Hx Hy. pose proof (go_sort_sorted less cmp less_cmp l) as Hs.
  rewrite <- (elem_of_go_sort less) in Hy.
  destruct (go_sort less l) as [|z l'] eqn:E; [done|]. injection Hx as ->. split.
  - rewrite <- (elem_of_go_sort less), E. left.
  - apply elem_of_cons in Hy as [->|Hy]; [by rewrite (cmp_refl cmp)|].
    apply StronglySorted_inv in Hs as [_ Hall]. rewrite Forall_forall in Hall. by apply Hall.
Qed.

Lemma head_go_sort_None l : head (go_sort less l) = None ↔ l = [].
Proof.
  split; [|by intros ->]. intros Hh. destruct l as [|x l]; [done|].
  by rewrite head_go_sort_cons in Hh.
Qed.
End argmin.

Lemma elem_of_sublist {A} (l k : list A) x : l `sublist_of` k → x ∈ l → x ∈ k.
Proof. induction 1; set_solver. Qed.

(** In a concatenation without repeats an element comes from one of the lists. *)
Lemma NoDup_bind_inj {A B} (f : A → list B) l x y z :
  NoDup (l ≫= f) → x ∈ l → y ∈ l → z ∈ f x → z ∈ f y → x = y.
Proof.
  induction l as [|w l IH]; csimpl; [by intros _ ?%elem_of_nil|].
  intros (_ & Hdis & Hnd)%NoDup_app. rewrite !elem_of_cons.
  assert (∀ v, v ∈ l → z ∈ f v → z ∈ l ≫= f) as Hin by (intros; apply elem_of_bind; eauto).
  intros [->|Hx] [->|Hy] Hzx Hzy; [done| | |by apply IH]; exfalso; eapply Hdis; eauto.
Qed.
