(* ===== verification/GoStrings.v ===== *)
(** * Strings

    What the sources use of Go's package strings, on bytes.  Case mapping and white
    space are those of ASCII text, which is what currency codes, tickers and option
    symbols are written in; a byte outside ASCII is left as it is. *)

From S2P Require Import Prelude.
From Stdlib Require Import Ascii.

Module GoStrings.
Local Open Scope nat_scope.

Definition between (lo hi : nat) (a : ascii) : bool := (lo <=? nat_of_ascii a) && (nat_of_ascii a <=? hi).

Definition is_lower (a : ascii) : bool := between 97 122 a.
Definition is_upper (a : ascii) : bool := between 65 90 a.
Definition is_digit (a : ascii) : bool := between 48 57 a.

(** Tab, line feed, vertical tab, form feed, carriage return and space. *)
Definition is_space (a : ascii) : bool := between 9 13 a || (nat_of_ascii a =? 32).

Definition upper (a : ascii) : ascii := if is_lower a then ascii_of_nat (nat_of_ascii a - 32) else a.
Definition lower (a : ascii) : ascii := if is_upper a then ascii_of_nat (nat_of_ascii a + 32) else a.

Fixpoint smap (f : ascii → ascii) (s : string) : string :=
  match s with EmptyString => EmptyString | String a s' => String (f a) (smap f s') end.

Fixpoint sforall (f : ascii → bool) (s : string) : bool :=
  match s with EmptyString => true | String a s' => f a && sforall f s' end.

Definition ToUpper (s : string) : string := smap upper s.
Definition ToLower (s : string) : string := smap lower s.

Fixpoint trim_left (s : string) : string :=
  match s with
  | EmptyString => EmptyString
  | String a s' => if is_space a then trim_left s' else s
  end.

Fixpoint trim_right (s : string) : string :=
  match s with
  | EmptyString => EmptyString
  | String a s' =>
      match trim_right s' with
      | EmptyString => if is_space a then EmptyString else String a EmptyString
      | r => String a r
      end
  end.

Definition TrimSpace (s : string) : string := trim_right (trim_left s).

Definition EqualFold (s t : string) : bool := String.eqb (ToLower s) (ToLower t).

(** [s[i:j]] where the bounds are known to hold. *)
Fixpoint sdrop (n : nat) (s : string) : string :=
  match n, s with
  | O, _ => s
  | S n, EmptyString => EmptyString
  | S n, String _ s' => sdrop n s'
  end.

Fixpoint stake (n : nat) (s : string) : string :=
  match n, s with
  | O, _ => EmptyString
  | S n, EmptyString => EmptyString
  | S n, String a s' => String a (stake n s')
  end.

Definition slice (i j : nat) (s : string) : string := stake (j - i) (sdrop i s).

(** ** Facts *)

(** A property of every byte, by inspection of the 256 of them. *)
Lemma ascii_all (f : ascii → bool) : forallb (f ∘ ascii_of_nat) (seq 0 256) = true → ∀ a, f a = true.
Proof.
  intros Hf a. rewrite <- (ascii_nat_embedding a).
  apply (forallb_elem _ _ _ Hf), elem_of_seq. pose proof (nat_ascii_bounded a). lia.
Qed.

Ltac by_bytes f := apply (ascii_all f); vm_compute; reflexivity.

Lemma upper_upper a : upper (upper a) = upper a.
Proof.
  apply Ascii.eqb_eq. revert a. by_bytes (λ a, Ascii.eqb (upper (upper a)) (upper a)).
Qed.

Lemma ToUpper_idemp s : ToUpper (ToUpper s) = ToUpper s.
Proof. unfold ToUpper. induction s as [|a s IH]; [done|]. cbn. by rewrite upper_upper, IH. Qed.

Lemma string_app_cons a s t : String a s +:+ t = String a (s +:+ t).
Proof. reflexivity. Qed.

Lemma string_app_assoc s t u : (s +:+ t) +:+ u = s +:+ (t +:+ u).
Proof. induction s as [|a s IH]; [done|]. by rewrite !string_app_cons, IH. Qed.

Lemma string_length_app s t : String.length (s +:+ t) = String.length s + String.length t.
Proof. induction s as [|a s IH]; [done|]. rewrite string_app_cons. simpl. by rewrite IH. Qed.

Lemma sforall_app f s t : sforall f (s +:+ t) = sforall f s && sforall f t.
Proof. induction s as [|a s IH]; [done|]. rewrite string_app_cons. simpl. by rewrite IH, andb_assoc. Qed.

Lemma string_app_empty s : s +:+ EmptyString = s.
Proof. induction s as [|a s IH]; [done|]. by rewrite !string_app_cons, IH. Qed.

Lemma stake_app n s t : String.length s = n → stake n (s +:+ t) = s.
Proof. revert n. induction s as [|a s IH]; intros n <-; [done|]. rewrite string_app_cons. simpl. by rewrite IH. Qed.

Lemma sdrop_app n s t : String.length s = n → sdrop n (s +:+ t) = t.
Proof. revert n. induction s as [|a s IH]; intros n <-; [done|]. rewrite string_app_cons. simpl. by rewrite IH. Qed.

Lemma stake_length n s : n ≤ String.length s → String.length (stake n s) = n.
Proof. revert s. induction n as [|n IH]; intros [|a s]; cbn; try lia. intros ?. rewrite IH; lia. Qed.

Lemma stake_sdrop n s : stake n s +:+ sdrop n s = s.
Proof. revert s. induction n as [|n IH]; intros [|a s]; [done..|]. simpl. by rewrite string_app_cons, IH. Qed.

(** White space at neither end is nothing to trim. *)
Lemma trim_left_id s : (∀ a s', s = String a s' → is_space a = false) → trim_left s = s.
Proof. destruct s as [|a s]; [done|]. intros Ha. cbn. by rewrite (Ha a s eq_refl). Qed.

Lemma trim_right_id s : sforall (negb ∘ is_space) s = true → trim_right s = s.
Proof.
  induction s as [|a s IH]; [done|]. cbn. intros [Ha Hs]%andb_true_iff. rewrite (IH Hs).
  destruct s; [|done]. by destruct (is_space a).
Qed.

Lemma TrimSpace_id s : sforall (negb ∘ is_space) s = true → TrimSpace s = s.
Proof.
  intros Hs. unfold TrimSpace. rewrite trim_left_id; [by apply trim_right_id|].
  intros a s' ->. cbn in Hs. apply andb_true_iff in Hs as [Ha _]. by destruct (is_space a).
Qed.
End GoStrings.
