(* ===== verification/Calendar.v ===== *)
(** * The civil calendar

    What the sources use of Go's package time on dates: [time.Date], which normalises a
    month or a day out of range, and [Year], [Month] and [Day].  A date is a day counted
    from 1970-01-01 in UTC, as everywhere in the development. *)

From S2P Require Import Prelude.

Module Calendar.
Local Open Scope Z_scope.

(** The day of a year, month and day of the proleptic Gregorian calendar; the year is
    counted from March, so that the leap day is its last.  A day out of range runs on
    into the months around it. *)
Definition days_from_civil (y m d : Z) : Z :=
  let y' := if m <=? 2 then y - 1 else y in
  let era := y' `div` 400 in
  let yoe := y' - era * 400 in
  let mp := (m + 9) `mod` 12 in
  let doy := (153 * mp + 2) `div` 5 + d - 1 in
  let doe := yoe * 365 + yoe `div` 4 - yoe `div` 100 + doy in
  era * 146097 + doe - 719468.

(** [time.Date(y, m, d, 0, 0, 0, 0, time.UTC)] *)
Definition Date (y m d : Z) : Z :=
  days_from_civil (y + (m - 1) `div` 12) ((m - 1) `mod` 12 + 1) d.

(** [t.Date()], the year, month and day of a day. *)
Definition civil (z : Z) : Z * Z * Z :=
  let z := z + 719468 in
  let era := z `div` 146097 in
  let doe := z - era * 146097 in
  let yoe := (doe - doe `div` 1460 + doe `div` 36524 - doe `div` 146096) `div` 365 in
  let doy := doe - (365 * yoe + yoe `div` 4 - yoe `div` 100) in
  let mp := (5 * doy + 2) `div` 153 in
  let d := doy - (153 * mp + 2) `div` 5 + 1 in
  let m := if mp <? 10 then mp + 3 else mp - 9 in
  (yoe + era * 400 + (if m <=? 2 then 1 else 0), m, d).

Definition Year (z : Z) : Z := (civil z).1.1.
Definition Month (z : Z) : Z := (civil z).1.2.
Definition Day (z : Z) : Z := (civil z).2.

(** [time.Time{}], the first of January of the year 1. *)
Definition zero_time : Z := days_from_civil 1 1 1.

Lemma zero_time_value : zero_time = -719162.
Proof. reflexivity. Qed.

Lemma zero_time_year : Year zero_time = 1.
Proof. reflexivity. Qed.

(** ** Reading a date back *)

Ltac div_lia := Z.to_euclidean_division_equations; lia.

(** The year of the era, the day of the year and the month of a day of the era. *)
Lemma yoe_bounds doe : 0 ≤ doe < 146097 →
  0 ≤ (doe - doe `div` 1460 + doe `div` 36524 - doe `div` 146096) `div` 365 < 400.
Proof. intros. div_lia. Qed.

Lemma doy_bounds doe : 0 ≤ doe < 146097 →
  let yoe := (doe - doe `div` 1460 + doe `div` 36524 - doe `div` 146096) `div` 365 in
  0 ≤ doe - (365 * yoe + yoe `div` 4 - yoe `div` 100) ≤ 365.
Proof. intros Hd yoe. unfold yoe. div_lia. Qed.

Lemma month_day_bounds doy : 0 ≤ doy ≤ 365 →
  let mp := (5 * doy + 2) `div` 153 in 0 ≤ mp ≤ 11 ∧ 1 ≤ doy - (153 * mp + 2) `div` 5 + 1 ≤ 31.
Proof. intros Hd mp. unfold mp. div_lia. Qed.

(** The date of a day is a date of the calendar and gives the day back. *)
Lemma civil_correct z :
  let '(y, m, d) := civil z in days_from_civil y m d = z ∧ 1 ≤ m ≤ 12 ∧ 1 ≤ d ≤ 31.
Proof.
  unfold civil. set (era := (z + 719468) `div` 146097). set (doe := z + 719468 - era * 146097).
  assert (0 ≤ doe < 146097) as Hdoe by (unfold doe, era; div_lia).
  assert (z = era * 146097 + doe - 719468) as Ez by (unfold doe; lia). clearbody era doe.
  pose proof (yoe_bounds doe Hdoe) as Hyoe. pose proof (doy_bounds doe Hdoe) as Hdoy. cbn zeta in Hdoy.
  set (yoe := (doe - doe `div` 1460 + doe `div` 36524 - doe `div` 146096) `div` 365) in *. clearbody yoe.
  set (doy := doe - (365 * yoe + yoe `div` 4 - yoe `div` 100)) in *.
  pose proof (month_day_bounds doy Hdoy) as [Hmp Hd].
  set (mp := (5 * doy + 2) `div` 153) in *. clearbody mp. cbn zeta.
  set (m := if mp <? 10 then mp + 3 else mp - 9).
  assert ((m + 9) `mod` 12 = mp ∧ 1 ≤ m ≤ 12) as [Hm Hmb].
  { unfold m. destruct (Z.ltb_spec mp 10); div_lia. }
  split; [|split; [done|exact Hd]]. unfold days_from_civil. rewrite Hm.
  assert ((if m <=? 2 then yoe + era * 400 + (if m <=? 2 then 1 else 0) - 1
    else yoe + era * 400 + (if m <=? 2 then 1 else 0)) = yoe + era * 400) as -> by (destruct (m <=? 2); lia).
  rewrite Z.div_add, (Z.div_small yoe 400) by lia.
  replace (yoe + era * 400 - (0 + era) * 400) with yoe by lia. rewrite Ez. unfold doy. lia.
Qed.

Lemma date_civil z : Date (Year z) (Month z) (Day z) = z.
Proof.
  unfold Date, Year, Month, Day. pose proof (civil_correct z) as Hc. destruct (civil z) as [[y m] d]. simpl.
  destruct Hc as (Hz & Hm & _). rewrite Z.div_small, Z.mod_small by lia. rewrite Z.add_0_r.
  by replace (m - 1 + 1) with m by lia.
Qed.

Lemma month_bounds z : 1 ≤ Month z ≤ 12.
Proof. unfold Month. pose proof (civil_correct z) as Hc. destruct (civil z) as [[y m] d]. naive_solver. Qed.

Lemma day_bounds z : 1 ≤ Day z ≤ 31.
Proof. unfold Day. pose proof (civil_correct z) as Hc. destruct (civil z) as [[y m] d]. naive_solver. Qed.
End Calendar.
