(* ===== verification/Decimal.v ===== *)
(** * Exact decimals

    The server computes on [decimal.Decimal] of the third-party package
    github.com/shopspring/decimal.  Its code is not part of the repository, so it
    is a parameter of the model: [Decimal] lists the operations the sources call
    and [DecimalLaws] the documented behaviour they rely on.  A decimal denotes a
    number, [dval], and the laws say which number each operation returns; nothing
    is said about the representation, so two decimals may denote one number and
    still differ, and everything built on them has to respect [≡], which is
    equality of numbers.

    [QDecimal] instantiates the interface with the rationals, for the concrete
    inputs of the witnesses. *)

From Stdlib Require Import ZArith QArith Qabs Qround Qpower Lqa.
From S2P Require Import Prelude.

Local Open Scope Q_scope.

(** ** The interface *)

Class Decimal (D : Type) := {
  dval : D → Q;
  dec_new : Z → Z → D;
  dec_add : D → D → D;
  dec_sub : D → D → D;
  dec_mul : D → D → D;
  dec_neg : D → D;
  dec_abs : D → D;
  dec_div : D → D → D;
  dec_div_round : D → D → Z → D;
  dec_shift : D → Z → D;
  dec_round : D → Z → D;
  dec_int_part : D → Z;
  dec_cmp : D → D → comparison;
}.

(** Rounding to [p] places, half away from zero, which is how the package
    documents [Round] and [DivRound]. *)
Definition q_round (q : Q) (p : Z) : Q :=
  let s := q * Qpower 10 p in
  let m := Qfloor (Qabs s + (1 # 2)) in
  inject_Z (Z.sgn (Qnum s) * m) * Qpower 10 (- p).

(** Truncation toward zero. *)
Definition q_trunc (q : Q) : Z := (Z.sgn (Qnum q) * Qfloor (Qabs q))%Z.

Class DecimalLaws (D : Type) `{Decimal D} : Prop := {
  dval_new v e : dval (dec_new v e) == inject_Z v * Qpower 10 e;
  dval_add x y : dval (dec_add x y) == dval x + dval y;
  dval_sub x y : dval (dec_sub x y) == dval x - dval y;
  dval_mul x y : dval (dec_mul x y) == dval x * dval y;
  dval_neg x : dval (dec_neg x) == - dval x;
  dval_abs x : dval (dec_abs x) == Qabs (dval x);
  (** [Div] keeps sixteen digits after the point. *)
  dval_div x y : ¬ dval y == 0 →
    Qabs (dval (dec_div x y) - dval x / dval y) <= Qpower 10 (-16);
  (** [Div] is a function of the numbers its arguments denote. *)
  dval_div_proper x x' y y' : dval x == dval x' → dval y == dval y' →
    dval (dec_div x y) == dval (dec_div x' y');
  dval_div_round x y p : ¬ dval y == 0 →
    dval (dec_div_round x y p) == q_round (dval x / dval y) p;
  dval_shift x n : dval (dec_shift x n) == dval x * Qpower 10 n;
  dval_round x p : dval (dec_round x p) == q_round (dval x) p;
  dec_int_part_spec x : in_int64 (q_trunc (dval x)) → dec_int_part x = q_trunc (dval x);
  dec_cmp_spec x y : dec_cmp x y = (dval x ?= dval y);
}.

(** ** The comparisons of the package, read off [Cmp] *)

Section derived.
Context {D : Type} `{Decimal D}.

Definition dec_zero : D := dec_new 0 1.
Definition dec_of_int (n : Z) : D := dec_new n 0.

Definition dec_ltb (x y : D) : bool := match dec_cmp x y with Lt => true | _ => false end.
Definition dec_leb (x y : D) : bool := match dec_cmp x y with Gt => false | _ => true end.
Definition dec_gtb (x y : D) : bool := dec_ltb y x.
Definition dec_geb (x y : D) : bool := dec_leb y x.
Definition dec_eqb (x y : D) : bool := match dec_cmp x y with Eq => true | _ => false end.
Definition is_zero (x : D) : bool := dec_eqb x dec_zero.
Definition is_pos (x : D) : bool := dec_gtb x dec_zero.
Definition is_neg (x : D) : bool := dec_ltb x dec_zero.

(** [SUM] of a query, and a loop that adds up. *)
Definition dec_sum (l : list D) : D := foldr dec_add dec_zero l.

Global Instance dec_equiv : Equiv D := λ x y, dval x == dval y.

Global Instance dec_equivalence : Equivalence (≡@{D}).
Proof.
  split; unfold equiv, dec_equiv.
  - intros x. reflexivity.
  - intros x y. by symmetry.
  - intros x y z. by transitivity (dval y).
Qed.
End derived.

(** ** What the laws give *)

Section laws.
Context {D : Type} `{DecimalLaws D}.
Implicit Types x y z : D.

Global Instance dval_proper : Proper ((≡@{D}) ==> Qeq) dval.
Proof. by intros x y. Qed.

Lemma dval_zero : dval (dec_zero (D:=D)) == 0.
Proof. unfold dec_zero. rewrite dval_new. reflexivity. Qed.

Lemma dval_of_int n : dval (dec_of_int (D:=D) n) == inject_Z n.
Proof. unfold dec_of_int. rewrite dval_new. simpl. ring. Qed.

Global Instance dec_add_proper : Proper ((≡@{D}) ==> (≡) ==> (≡)) dec_add.
Proof. intros x x' Hx y y' Hy. unfold equiv, dec_equiv in *. by rewrite !dval_add, Hx, Hy. Qed.
Global Instance dec_sub_proper : Proper ((≡@{D}) ==> (≡) ==> (≡)) dec_sub.
Proof. intros x x' Hx y y' Hy. unfold equiv, dec_equiv in *. by rewrite !dval_sub, Hx, Hy. Qed.
Global Instance dec_mul_proper : Proper ((≡@{D}) ==> (≡) ==> (≡)) dec_mul.
Proof. intros x x' Hx y y' Hy. unfold equiv, dec_equiv in *. by rewrite !dval_mul, Hx, Hy. Qed.
Global Instance dec_neg_proper : Proper ((≡@{D}) ==> (≡)) dec_neg.
Proof. intros x x' Hx. unfold equiv, dec_equiv in *. by rewrite !dval_neg, Hx. Qed.
Global Instance dec_abs_proper : Proper ((≡@{D}) ==> (≡)) dec_abs.
Proof. intros x x' Hx. unfold equiv, dec_equiv in *. by rewrite !dval_abs, Hx. Qed.
Global Instance dec_div_proper : Proper ((≡@{D}) ==> (≡) ==> (≡)) dec_div.
Proof. intros x x' Hx y y' Hy. by apply dval_div_proper. Qed.

Global Instance dec_cmp_proper : Proper ((≡@{D}) ==> (≡) ==> (=)) dec_cmp.
Proof.
  intros x x' Hx y y' Hy. unfold equiv, dec_equiv in *.
  by rewrite !dec_cmp_spec, Hx, Hy.
Qed.

Global Instance dec_ltb_proper : Proper ((≡@{D}) ==> (≡) ==> (=)) dec_ltb.
Proof. intros x x' Hx y y' Hy. unfold dec_ltb. by rewrite Hx, Hy. Qed.
Global Instance dec_leb_proper : Proper ((≡@{D}) ==> (≡) ==> (=)) dec_leb.
Proof. intros x x' Hx y y' Hy. unfold dec_leb. by rewrite Hx, Hy. Qed.
Global Instance dec_gtb_proper : Proper ((≡@{D}) ==> (≡) ==> (=)) dec_gtb.
Proof. intros x x' Hx y y' Hy. unfold dec_gtb. by rewrite Hx, Hy. Qed.
Global Instance is_pos_proper : Proper ((≡@{D}) ==> (=)) is_pos.
Proof. intros x x' Hx. unfold is_pos. by rewrite Hx. Qed.

Lemma dec_ltb_lt x y : dec_ltb x y = true ↔ dval x < dval y.
Proof. unfold dec_ltb. rewrite dec_cmp_spec, Qlt_alt. destruct (_ ?= _); naive_solver. Qed.

Lemma dec_ltb_ge x y : dec_ltb x y = false ↔ dval y <= dval x.
Proof.
  rewrite <- not_true_iff_false, dec_ltb_lt. split; [apply Qnot_lt_le|apply Qle_not_lt].
Qed.

Lemma dec_leb_le x y : dec_leb x y = true ↔ dval x <= dval y.
Proof. unfold dec_leb. rewrite dec_cmp_spec, Qle_alt. destruct (_ ?= _); naive_solver. Qed.

Lemma dec_leb_gt x y : dec_leb x y = false ↔ dval y < dval x.
Proof.
  rewrite <- not_true_iff_false, dec_leb_le. split; [apply Qnot_le_lt|apply Qlt_not_le].
Qed.

Lemma dec_eqb_eq x y : dec_eqb x y = true ↔ dval x == dval y.
Proof. unfold dec_eqb. rewrite dec_cmp_spec, Qeq_alt. destruct (_ ?= _); naive_solver. Qed.

Lemma is_zero_eq x : is_zero x = true ↔ dval x == 0.
Proof. unfold is_zero. by rewrite dec_eqb_eq, dval_zero. Qed.

Lemma dec_sum_app (l k : list D) : dval (dec_sum (l ++ k)) == dval (dec_sum l) + dval (dec_sum k).
Proof.
  induction l as [|a l IH]; simpl; [rewrite dval_zero; lra|]. rewrite !dval_add, IH. lra.
Qed.

Lemma dec_sum_perm (l k : list D) : l ≡ₚ k → dval (dec_sum l) == dval (dec_sum k).
Proof.
  induction 1 as [|a l k Hl IH|a b l|l k m ? IH1 ? IH2]; simpl; [reflexivity| | |].
  - rewrite !dval_add, IH. reflexivity.
  - rewrite !dval_add. ring.
  - rewrite IH1. exact IH2.
Qed.

Lemma dec_sum_nil : dval (dec_sum (D:=D) []) == 0.
Proof. apply dval_zero. Qed.

Lemma dec_sum_singleton x : dval (dec_sum [x]) == dval x.
Proof. simpl. rewrite dval_add, dval_zero. ring. Qed.

Lemma is_pos_lt x : is_pos x = true ↔ 0 < dval x.
Proof. unfold is_pos, dec_gtb. by rewrite dec_ltb_lt, dval_zero. Qed.

Lemma is_neg_lt x : is_neg x = true ↔ dval x < 0.
Proof. unfold is_neg. by rewrite dec_ltb_lt, dval_zero. Qed.
End laws.

#[export] Hint Rewrite @dval_add @dval_sub @dval_mul @dval_neg @dval_abs @dval_new
  @dval_zero @dval_of_int @dval_shift @dval_round using typeclasses eauto : dval.

(** ** An instance *)

Module QDecimal.

Definition q_decimal : Decimal Q := {|
  dval q := q;
  dec_new v e := inject_Z v * Qpower 10 e;
  dec_add := Qplus;
  dec_sub := Qminus;
  dec_mul := Qmult;
  dec_neg := Qopp;
  dec_abs := Qabs;
  dec_div x y := Qred (x / y);
  dec_div_round x y p := q_round (x / y) p;
  dec_shift x n := x * Qpower 10 n;
  dec_round x p := q_round x p;
  dec_int_part := q_trunc;
  dec_cmp := Qcompare;
|}.

Lemma q_decimal_laws : @DecimalLaws Q q_decimal.
Proof.
  split; intros; try (simpl; reflexivity).
  - change (Qabs (Qred (x / y) - x / y) <= Qpower 10 (-16)).
    rewrite (Qred_correct (x / y)). assert (x / y - x / y == 0) as -> by ring.
    vm_compute. congruence.
  - change (Qred (x / y) == Qred (x' / y')). change (x == x') in H.
    change (y == y') in H0. by rewrite !Qred_correct, H, H0.
Qed.
End QDecimal.
