(* ===== verification/TxType.v ===== *)
(** * The transaction type hierarchy

    server/txtype/txtype.go: which [TxType] is under which, what a declared set of
    candidates means, and how a set resolves to one value.  The enum is the one of
    proto/type/v1/type.proto.  Proto enums are open on the wire, so a value outside
    the vocabulary is a member of the Go type; it is [TxType_unrecognized] here.

    The package's two loops climb the tree.  They are written with fuel, [None]
    meaning "still running": [under_loop_total] shows that [under] always returns,
    and [resolve_total] and [resolve_diverges] say on which sets [Resolve] does. *)

From stdpp Require Import pretty.
From S2P Require Import Prelude.

Module TxType.

Inductive TxType :=
  | TX_TYPE_UNSPECIFIED
  | TRADE | TRADE_ASSET | TRADE_CASH
  | INCOME | DIVIDEND | INTEREST | RETURN_OF_CAPITAL
  | EXPENSE | TRANSACTION_COST | HOLDING_COST | FINANCING_COST
  | TRANSFER | TRANSFER_INTERNAL | TRANSFER_EXTERNAL
  | AMBIGUOUS
  | TxType_unrecognized (n : Z).

#[export] Instance TxType_eq_dec : EqDecision TxType.
Proof. solve_decision. Defined.

(** The [parent] map and its read: a value the map does not hold reads as
    [TX_TYPE_UNSPECIFIED]. *)
Definition parent (t : TxType) : TxType :=
  match t with
  | TRADE | INCOME | EXPENSE | TRANSFER => AMBIGUOUS
  | TRADE_ASSET | TRADE_CASH => TRADE
  | DIVIDEND | INTEREST | RETURN_OF_CAPITAL => INCOME
  | TRANSACTION_COST | HOLDING_COST | FINANCING_COST => EXPENSE
  | TRANSFER_INTERNAL | TRANSFER_EXTERNAL => TRANSFER
  | AMBIGUOUS | TX_TYPE_UNSPECIFIED | TxType_unrecognized _ => TX_TYPE_UNSPECIFIED
  end.

Definition Parent (t : TxType) : TxType := parent t.

Fixpoint under_loop (fuel : nat) (t x : TxType) : option bool :=
  match fuel with
  | O => None
  | S n =>
      if decide (t = TX_TYPE_UNSPECIFIED) then Some false
      else if decide (t = x) then Some true
      else under_loop n (parent t) x
  end.

(** The tree is three levels deep, so four tests of the loop head are enough. *)
Definition under (t x : TxType) : bool := default false (under_loop 4 t x).

Definition MustBe (set xs : list TxType) : bool :=
  match set with
  | [] => false
  | _ => forallb (λ t, existsb (under t) xs) set
  end.

Definition MayBe (set xs : list TxType) : bool :=
  existsb (λ t, existsb (λ x, under t x || under x t) xs) set.

Definition ResolvedMustBe (t : TxType) (xs : list TxType) : bool := MustBe [t] xs.

Definition ResolvedMayBe (t : TxType) (xs : list TxType) : bool := MayBe [t] xs.

(** [for !under(t, anc) { anc = parent[anc] }] *)
Fixpoint climb (fuel : nat) (t anc : TxType) : option TxType :=
  match fuel with
  | O => None
  | S n => if under t anc then Some anc else climb n t (parent anc)
  end.

Definition resolve_loop (fuel : nat) (set : list TxType) : option TxType :=
  match set with
  | [] => Some TX_TYPE_UNSPECIFIED
  | a :: rest => foldl (λ acc t, anc ← acc; climb fuel t anc) (Some a) rest
  end.

(** [Resolve] on the sets it returns on; see [resolve_total] and
    [resolve_diverges]. *)
Definition Resolve (set : list TxType) : TxType :=
  default TX_TYPE_UNSPECIFIED (resolve_loop 4 set).

Fixpoint antichain_from (i : nat) (set l : list TxType) : bool :=
  match l with
  | [] => true
  | a :: l' =>
      forallb (λ jb, negb (negb (bool_decide (i = jb.1)) && under jb.2 a)) (imap pair set)
      && antichain_from (S i) set l'
  end.

Definition Antichain (set : list TxType) : bool := antichain_from 0 set set.

(** The stored spelling of a type, server/db/db.go. *)
Definition TxType_String (t : TxType) : string :=
  match t with
  | TX_TYPE_UNSPECIFIED => "TX_TYPE_UNSPECIFIED"
  | TRADE => "TRADE" | TRADE_ASSET => "TRADE_ASSET" | TRADE_CASH => "TRADE_CASH"
  | INCOME => "INCOME" | DIVIDEND => "DIVIDEND" | INTEREST => "INTEREST"
  | RETURN_OF_CAPITAL => "RETURN_OF_CAPITAL"
  | EXPENSE => "EXPENSE" | TRANSACTION_COST => "TRANSACTION_COST"
  | HOLDING_COST => "HOLDING_COST" | FINANCING_COST => "FINANCING_COST"
  | TRANSFER => "TRANSFER" | TRANSFER_INTERNAL => "TRANSFER_INTERNAL"
  | TRANSFER_EXTERNAL => "TRANSFER_EXTERNAL"
  | AMBIGUOUS => "AMBIGUOUS"
  | TxType_unrecognized n => pretty n
  end.

Definition all_types : list TxType :=
  [TX_TYPE_UNSPECIFIED; TRADE; TRADE_ASSET; TRADE_CASH; INCOME; DIVIDEND; INTEREST;
   RETURN_OF_CAPITAL; EXPENSE; TRANSACTION_COST; HOLDING_COST; FINANCING_COST;
   TRANSFER; TRANSFER_INTERNAL; TRANSFER_EXTERNAL; AMBIGUOUS].

Definition TxTypeToStr (t : TxType) : option string :=
  if decide (t = TX_TYPE_UNSPECIFIED) then None
  else if decide (TxType_String t = "TX_TYPE_UNSPECIFIED") then None
  else Some (TxType_String t).

Definition StrToTxType (s : string) : TxType :=
  default TX_TYPE_UNSPECIFIED (list_find (λ t, TxType_String t = s) all_types ≫= λ '(_, t), Some t).

Definition TxTypesToStrs (ts : list TxType) : option (list string) :=
  match ts with [] => None | _ => mapM TxTypeToStr ts end.

Definition StrsToTxTypes (strs : list string) : list TxType := StrToTxType <$> strs.

(** ** The tree order *)

(** A value of the tree: what the vocabulary defines, the zero value aside. *)
Definition in_tree (t : TxType) : bool :=
  match t with TX_TYPE_UNSPECIFIED | TxType_unrecognized _ => false | _ => true end.

(** [x] is [t] or lies above it. *)
Inductive ancestor (x : TxType) : TxType → Prop :=
  | ancestor_refl : x ≠ TX_TYPE_UNSPECIFIED → ancestor x x
  | ancestor_up t : t ≠ TX_TYPE_UNSPECIFIED → ancestor x (parent t) → ancestor x t.

Lemma under_loop_total n t x : 4 ≤ n → under_loop n t x = Some (under t x).
Proof.
  intros Hn. do 4 (destruct n as [|n]; [lia|]). clear Hn. unfold under.
  destruct t; simpl; repeat case_decide; try done; simplify_eq.
Qed.

Lemma under_step t x :
  under t x = if decide (t = TX_TYPE_UNSPECIFIED) then false
              else if decide (t = x) then true else under (parent t) x.
Proof.
  pose proof (under_loop_total 5 t x ltac:(lia)) as H5. simpl in H5.
  case_decide; [congruence|]. case_decide; [congruence|].
  pose proof (under_loop_total 4 (parent t) x ltac:(lia)) as H4. simpl in H4.
  congruence.
Qed.

Lemma under_loop_ancestor n t x : under_loop n t x = Some true → ancestor x t.
Proof.
  revert t. induction n as [|n IH]; intros t; simpl; [done|].
  repeat case_decide; try done; intros Hu.
  - subst. by constructor.
  - apply ancestor_up; auto.
Qed.

(** [under] decides ancestry. *)
Lemma under_ancestor t x : under t x = true ↔ ancestor x t.
Proof.
  split.
  - intros H. apply (under_loop_ancestor 4). by rewrite under_loop_total, H.
  - induction 1 as [|t Ht _ IH]; rewrite under_step; repeat case_decide; done.
Qed.

Lemma under_refl t : t ≠ TX_TYPE_UNSPECIFIED → under t t = true.
Proof. intros. apply under_ancestor. by constructor. Qed.

Lemma ancestor_trans x y t : ancestor y t → ancestor x y → ancestor x t.
Proof. induction 1; eauto using ancestor. Qed.

Lemma under_trans t y x : under t y = true → under y x = true → under t x = true.
Proof. rewrite !under_ancestor. eauto using ancestor_trans. Qed.

(** How many steps the root is above a type. *)
Definition depth (t : TxType) : nat :=
  match t with
  | TX_TYPE_UNSPECIFIED => 0
  | AMBIGUOUS | TxType_unrecognized _ => 1
  | TRADE | INCOME | EXPENSE | TRANSFER => 2
  | _ => 3
  end.

Lemma ancestor_depth x t : ancestor x t → x = t ∨ depth x < depth t.
Proof.
  induction 1 as [|t Ht _ IH]; [by left|]. right.
  assert (depth (parent t) < depth t) by (destruct t; simpl; done || lia).
  destruct IH as [->|]; lia.
Qed.

Lemma under_antisym t x : under t x = true → under x t = true → t = x.
Proof.
  rewrite !under_ancestor. intros H1%ancestor_depth H2%ancestor_depth.
  destruct H1 as [|H1], H2 as [|H2]; congruence || lia.
Qed.

Lemma under_in_tree t x : in_tree t = true → under t x = true → in_tree x = true.
Proof.
  rewrite under_ancestor. intros Ht H. induction H as [|t Hne Hx IH]; [done|].
  destruct (decide (t = AMBIGUOUS)) as [->|]; [by inversion Hx|].
  apply IH. by destruct t.
Qed.

Lemma under_root t : in_tree t = true → under t AMBIGUOUS = true.
Proof. by destruct t. Qed.

(** The ancestors of a type form a chain. *)
Lemma under_chain t x y :
  under t x = true → under t y = true → under x y = true ∨ under y x = true.
Proof.
  rewrite !under_ancestor. induction 1 as [Hx|t Ht Hx IH]; intros Hy; [by left|].
  inversion Hy as [Hy0|? _ Hy']; subst; [|by apply IH].
  right. by apply ancestor_up.
Qed.

(** ** Resolution *)

(** A set a source may declare: members of the tree, and at least one. *)
Definition declared (set : list TxType) : Prop := set ≠ [] ∧ Forall (λ t, in_tree t = true) set.

Lemma climb_spec n t anc r :
  in_tree t = true → in_tree anc = true → climb n t anc = Some r →
  under anc r = true ∧ under t r = true ∧ in_tree r = true ∧
  ∀ y, under anc y = true → under t y = true → under r y = true.
Proof.
  revert anc r. induction n as [|n IH]; intros anc r Ht Hanc; simpl; [done|].
  destruct (under t anc) eqn:Hu.
  { intros [= <-]. split_and!; try done. apply under_refl. by destruct anc. }
  intros Hr. destruct (decide (anc = AMBIGUOUS)) as [->|Hroot].
  { by rewrite under_root in Hu. }
  assert (in_tree (parent anc) = true) as Hp by (by destruct anc).
  assert (anc ≠ TX_TYPE_UNSPECIFIED) by (by destruct anc).
  destruct (IH (parent anc) r Ht Hp Hr) as (H1 & H2 & H3 & H4). split_and!; try done.
  - rewrite under_step. repeat case_decide; done.
  - intros y Hy Hty. apply H4; [|done]. rewrite under_step in Hy.
    repeat case_decide; simplify_eq; congruence.
Qed.

Lemma climb_mono n m t anc r : n ≤ m → climb n t anc = Some r → climb m t anc = Some r.
Proof.
  revert m anc. induction n as [|n IH]; intros m anc Hle; simpl; [done|].
  destruct m as [|m]; [lia|]. simpl. destruct (under t anc); [done|]. apply IH. lia.
Qed.

Lemma climb_total n t anc :
  4 ≤ n → in_tree t = true → in_tree anc = true → is_Some (climb n t anc).
Proof.
  intros Hle Ht Hanc. assert (is_Some (climb 4 t anc)) as [r Hr].
  { destruct t, anc; vm_compute; eauto; done. }
  exists r. by apply (climb_mono 4).
Qed.

Lemma resolve_fold_spec n rest a :
  4 ≤ n → in_tree a = true → Forall (λ t, in_tree t = true) rest →
  ∃ r, foldl (λ acc t, anc ← acc; climb n t anc) (Some a) rest = Some r ∧
    in_tree r = true ∧ under a r = true ∧
    (∀ t, t ∈ rest → under t r = true) ∧
    ∀ y, under a y = true → (∀ t, t ∈ rest → under t y = true) → under r y = true.
Proof.
  intros Hn. revert a. induction rest as [|t rest IH]; intros a Ha Hrest; simpl.
  { exists a. split_and!; try done; [by apply under_refl; destruct a|].
    intros t Ht. by apply elem_of_nil in Ht. }
  apply Forall_cons in Hrest as [Ht Hrest].
  destruct (climb_total n t a Hn Ht Ha) as [anc Hanc]. rewrite Hanc.
  destruct (climb_spec _ _ _ _ Ht Ha Hanc) as (Ha' & Ht' & Htree & Hleast).
  destruct (IH anc Htree Hrest) as (r & -> & Hr & Har & Hall & Hl). exists r. split_and!; try done.
  - eauto using under_trans.
  - intros u [->|Hu]%elem_of_cons; eauto using under_trans.
  - intros y Hy Hys. apply Hl; [apply Hleast; [done|]; apply Hys; left|].
    intros u Hu. apply Hys. by right.
Qed.

Lemma resolve_loop_mono n m set r :
  n ≤ m → resolve_loop n set = Some r → resolve_loop m set = Some r.
Proof.
  intros Hle. destruct set as [|a rest]; simpl; [done|].
  generalize (Some a). induction rest as [|t rest IH]; intros [anc|]; simpl; try done.
  - destruct (climb n t anc) as [anc'|] eqn:E.
    + rewrite (climb_mono _ _ _ _ _ Hle E). apply IH.
    + clear. intros H. exfalso. revert H.
      assert (foldl (λ acc t, anc ← acc; climb n t anc) None rest = None) as ->; [|done].
      by induction rest.
  - intros H. by rewrite IH.
Qed.

(** ** Properties *)

Lemma resolve_lca set :
  declared set →
  ∃ r, resolve_loop 4 set = Some r ∧ Resolve set = r ∧ in_tree r = true ∧
    (∀ t, t ∈ set → under t r = true) ∧
    ∀ y, (∀ t, t ∈ set → under t y = true) → under r y = true.
Proof.
  intros [Hne Hall]. destruct set as [|a rest]; [done|]. apply Forall_cons in Hall as [Ha Hrest].
  destruct (resolve_fold_spec 4 rest a ltac:(done) Ha Hrest) as (r & Hr & Htree & Har & Hin & Hl).
  exists r. split_and!; try done.
  - unfold Resolve, resolve_loop. by rewrite Hr.
  - intros t [->|Ht]%elem_of_cons; auto.
  - intros y Hy. apply Hl; [apply Hy; left|]. intros t Ht. apply Hy. by right.
Qed.

(** C24: [Resolve] returns on every declared set, and returns its nearest common
    ancestor: every member is under the result, and the result is under everything
    every member is under.  More fuel changes nothing. *)
Theorem resolve_total set :
  declared set →
  ∃ r, (∀ fuel, 4 ≤ fuel → resolve_loop fuel set = Some r) ∧ Resolve set = r ∧
    in_tree r = true ∧ (∀ t, t ∈ set → under t r = true) ∧
    ∀ y, (∀ t, t ∈ set → under t y = true) → under r y = true.
Proof.
  intros (r & Hloop & Hrest)%resolve_lca. exists r. split; [|done].
  intros fuel Hle. by apply (resolve_loop_mono 4).
Qed.

Lemma resolve_total_witness :
  ∃ r, (∀ fuel, 4 ≤ fuel → resolve_loop fuel [DIVIDEND; INTEREST] = Some r) ∧
    Resolve [DIVIDEND; INTEREST] = r ∧ in_tree r = true ∧
    (∀ t, t ∈ [DIVIDEND; INTEREST] → under t r = true) ∧
    ∀ y, (∀ t, t ∈ [DIVIDEND; INTEREST] → under t y = true) → under r y = true.
Proof. apply resolve_total. split; [done|]. by repeat constructor. Defined.

(** A value outside the tree is under nothing but itself. *)
Lemma under_out_of_tree t x : in_tree t = false → under t x = true → x = t.
Proof.
  rewrite under_ancestor. intros Ht H. inversion H as [|? Hne Hp]; subst; [done|].
  assert (parent t = TX_TYPE_UNSPECIFIED) as Hpt by (by destruct t).
  rewrite Hpt in Hp. by inversion Hp.
Qed.

Lemma climb_unspecified fuel anc : climb fuel TX_TYPE_UNSPECIFIED anc = None.
Proof. revert anc. induction fuel as [|n IH]; intros anc; [done|]. apply IH. Qed.

Lemma climb_out_of_tree fuel t anc :
  in_tree t = false → t ≠ anc ∨ t = TX_TYPE_UNSPECIFIED → climb fuel t anc = None.
Proof.
  intros Ht. revert anc. induction fuel as [|n IH]; intros anc Hne; [done|].
  destruct Hne as [Hne| ->]; [|apply climb_unspecified].
  simpl. destruct (under t anc) eqn:Hu; [by apply under_out_of_tree in Hu|].
  apply IH. destruct (decide (t = parent anc)) as [->|]; [|by left]. right. by destruct anc.
Qed.

(** The climb never lands on a value outside the tree it did not start from. *)
Lemma climb_lands fuel t anc anc' u :
  in_tree u = false → u ≠ anc ∨ u = TX_TYPE_UNSPECIFIED → climb fuel t anc = Some anc' →
  u ≠ anc' ∨ u = TX_TYPE_UNSPECIFIED.
Proof.
  intros Hu. revert anc. induction fuel as [|n IH]; intros anc Hne; simpl; [done|].
  destruct (under t anc); [congruence|]. apply IH.
  destruct Hne as [Hne| ->]; [|by right].
  destruct (decide (u = parent anc)) as [->|]; [|by left]. right. by destruct anc.
Qed.

(** [Resolve] never returns on a set holding, past its first member, a value
    outside the tree: the unset value, or a number the vocabulary does not define.
    Its inner loop climbs past the root and stays there. *)
Theorem resolve_diverges a rest t :
  t ∈ rest → in_tree t = false → t ≠ a → ∀ fuel, resolve_loop fuel (a :: rest) = None.
Proof.
  intros Hin Ht Hne fuel. unfold resolve_loop.
  assert (t ≠ a ∨ t = TX_TYPE_UNSPECIFIED) as Hacc by (by left). clear Hne. revert a Hacc Hin.
  assert (foldl (λ acc t, anc ← acc; climb fuel t anc) None rest = None) as Hnone.
  { clear. by induction rest. }
  induction rest as [|u rest IH]; intros a Hacc Hin; [by apply elem_of_nil in Hin|].
  simpl in *. apply elem_of_cons in Hin as [->|Hin].
  { by rewrite climb_out_of_tree. }
  destruct (climb fuel u a) as [anc|] eqn:Hc; [|done].
  apply IH; [done| |done]. by eapply climb_lands.
Qed.

Lemma resolve_diverges_witness :
  resolve_loop 1000 [TRADE; TxType_unrecognized 99] = None.
Proof. apply (resolve_diverges TRADE _ (TxType_unrecognized 99)); [by left|done..]. Defined.

(** ** The two predicates and the resolved value *)

Lemma existsb_true_iff {A} (f : A → bool) l : existsb f l = true ↔ ∃ x, x ∈ l ∧ f x = true.
Proof. rewrite existsb_exists. by setoid_rewrite list_elem_of_In. Qed.

Lemma forallb_true_iff {A} (f : A → bool) l : forallb f l = true ↔ ∀ x, x ∈ l → f x = true.
Proof. rewrite forallb_forall. by setoid_rewrite list_elem_of_In. Qed.

Lemma must_be_iff set xs :
  MustBe set xs = true ↔ set ≠ [] ∧ ∀ t, t ∈ set → ∃ x, x ∈ xs ∧ under t x = true.
Proof.
  unfold MustBe. destruct set as [|a rest]; [naive_solver|].
  rewrite forallb_true_iff. setoid_rewrite existsb_true_iff. naive_solver.
Qed.

Lemma may_be_iff set xs :
  MayBe set xs = true ↔
  ∃ t x, t ∈ set ∧ x ∈ xs ∧ (under t x = true ∨ under x t = true).
Proof.
  unfold MayBe. rewrite existsb_true_iff. setoid_rewrite existsb_true_iff.
  setoid_rewrite orb_true_iff. naive_solver.
Qed.

(** On a declared set the resolved value answers the must-be question exactly as
    the set does, and may-be of the set implies may-be of the resolved value: what a
    consumer reads off [resolved_tx_type] never loses a reading the source left open
    and never asserts one it did not. *)
Theorem resolved_predicates set x :
  declared set →
  ResolvedMustBe (Resolve set) [x] = MustBe set [x] ∧
  (MayBe set [x] = true → ResolvedMayBe (Resolve set) [x] = true).
Proof.
  intros Hd. destruct (resolve_lca set Hd) as (r & _ & -> & Htree & Hin & Hl).
  destruct Hd as [Hne Hall]. split.
  - apply eq_iff_eq_true. unfold ResolvedMustBe. rewrite !must_be_iff. split.
    + intros [_ Hr]. split; [done|]. intros t Ht.
      destruct (Hr r ltac:(left)) as (y & ->%list_elem_of_singleton & Hy).
      exists x. split; [by left|]. eauto using under_trans.
    + intros [_ Hset]. split; [done|]. intros t ->%list_elem_of_singleton.
      exists x. split; [by left|]. apply Hl. intros u Hu.
      destruct (Hset u Hu) as (y & ->%list_elem_of_singleton & Hy). done.
  - unfold ResolvedMayBe. rewrite !may_be_iff.
    intros (t & y & Ht & ->%list_elem_of_singleton & Hor). exists r, x.
    split; [by left|]. split; [by left|]. pose proof (Hin t Ht) as Hr.
    destruct Hor as [Htx|Hxt]; [by eapply under_chain|].
    right. eauto using under_trans.
Qed.

Lemma resolved_predicates_witness :
  ResolvedMustBe (Resolve [DIVIDEND; INTEREST]) [INCOME] = MustBe [DIVIDEND; INTEREST] [INCOME] ∧
  (MayBe [DIVIDEND; INTEREST] [INCOME] = true →
   ResolvedMayBe (Resolve [DIVIDEND; INTEREST]) [INCOME] = true).
Proof. apply resolved_predicates. split; [done|]. by repeat constructor. Defined.

(** A set admitted by both predicates: must-be is the stronger one. *)
Lemma must_be_may_be set xs : MustBe set xs = true → MayBe set xs = true.
Proof.
  rewrite must_be_iff, may_be_iff. intros [Hne Hall]. destruct set as [|t set]; [done|].
  destruct (Hall t ltac:(left)) as (x & Hx & Hu). exists t, x. split; [left|]. by auto.
Qed.

(** ** Spellings *)

(** A type and its stored spelling round-trip: what [TxTypeToStr] writes for a
    value of the tree [StrToTxType] reads back, and distinct types are spelled
    apart. *)
Theorem tx_type_str_roundtrip t s : in_tree t = true → TxTypeToStr t = Some s → StrToTxType s = t.
Proof. intros Ht. destruct t; try done; by intros [= <-]. Qed.

Lemma tx_type_str_roundtrip_witness : StrToTxType "TRADE_CASH" = TRADE_CASH.
Proof. by apply (tx_type_str_roundtrip TRADE_CASH). Defined.

End TxType.
