(* ===== verification/Posting.v ===== *)
(** * Postings and their evidence

    The shapes the grouping engine, the transfer matcher and the store share:
    [db.Correlation] and [db.GroupingPosting] of server/db/db.go, and the [Broker]
    enum of proto/type/v1/type.proto.

    A [time.Time] is the instant it names, in nanoseconds from the Unix epoch; the
    code reads no location off one, only UTC. *)

From stdpp Require Import pretty.
From S2P Require Import Prelude TxType.

(** ** Time *)

Definition day_ns : Z := 86400 * 1000000000.

(** The UTC calendar day of an instant, counted from the epoch, and the instant a
    day starts at. *)
Definition day_of (t : Z) : Z := t `div` day_ns.
Definition day_start (d : Z) : Z := d * day_ns.

Lemma day_of_bounds t : (day_start (day_of t) ≤ t < day_start (day_of t + 1))%Z.
Proof.
  unfold day_start, day_of, day_ns. change (86400 * 1000000000)%Z with 86400000000000%Z.
  pose proof (Z.div_mod t 86400000000000 ltac:(lia)).
  pose proof (Z.mod_pos_bound t 86400000000000 ltac:(lia)). lia.
Qed.

Lemma day_of_unique t d : (day_start d ≤ t < day_start (d + 1))%Z → day_of t = d.
Proof.
  unfold day_start, day_of, day_ns.
  change (86400 * 1000000000)%Z with 86400000000000%Z. intros Hd. symmetry.
  apply (Z.div_unique_pos t _ d (t - d * 86400000000000)); lia.
Qed.

Module Posting.
Import TxType.

(** ** Brokers *)

Inductive Broker :=
  | BROKER_UNSPECIFIED | IBKR | SCHB | FIDELITY
  | Broker_unrecognized (n : Z).

#[export] Instance Broker_eq_dec : EqDecision Broker.
Proof. solve_decision. Defined.

Definition Broker_String (b : Broker) : string :=
  match b with
  | BROKER_UNSPECIFIED => "BROKER_UNSPECIFIED"
  | IBKR => "IBKR" | SCHB => "SCHB" | FIDELITY => "FIDELITY"
  | Broker_unrecognized n => pretty n
  end.

(** ** Correlations *)

Definition MatchExact : string := "EXACT".
Definition MatchOrdinal : string := "ORDINAL".
Definition MatchAccount : string := "ACCOUNT".
Definition MatchAttaches : string := "ATTACHES".

Definition ScopeFile : string := "FILE".
Definition ScopeAccount : string := "ACCOUNT".
Definition ScopeBroker : string := "BROKER".

Record Correlation := {
  Label : string;
  Token : string;
  Ordinal : option Z;
  Scope : string;
  Match : list string;
  OrdinalSpan : option Z;
  CorrJobID : string;
}.

#[export] Instance Correlation_eq_dec : EqDecision Correlation.
Proof. solve_decision. Defined.

Definition Declares (c : Correlation) (m : string) : bool := bool_decide (m ∈ Match c).

(** ** Postings *)

Record GroupingPosting {D : Type} := {
  ID : string;
  UserID : string;
  PBroker : Broker;
  Account : string;
  OrderDate : Z;
  InstrumentID : string;
  Quantity : D;
  UnitPrice : option D;
  SettlementAmount : option D;
  Declared : list TxType;
  JobID : string;
  GroupID : string;
  Resolved : string;
  Correlations : list Correlation;
}.
#[global] Arguments GroupingPosting : clear implicits.

(** The postings of a neighbourhood have distinct ids. *)
Definition distinct_ids {D} (ps : list (GroupingPosting D)) : Prop := NoDup (ID <$> ps).

Lemma distinct_ids_perm {D} (ps ps' : list (GroupingPosting D)) :
  ps ≡ₚ ps' → distinct_ids ps → distinct_ids ps'.
Proof. unfold distinct_ids. intros Hp. by rewrite Hp. Qed.

Lemma distinct_ids_inj {D} (ps : list (GroupingPosting D)) p q :
  distinct_ids ps → p ∈ ps → q ∈ ps → ID p = ID q → p = q.
Proof. apply NoDup_fmap_inj_in. Qed.

Lemma distinct_ids_sub {D} (ps qs : list (GroupingPosting D)) :
  ps `sublist_of` qs → distinct_ids qs → distinct_ids ps.
Proof. unfold distinct_ids. intros Hs Hq. eapply sublist_NoDup; [done|]. by rewrite Hs. Qed.

(** [sort.Slice(ps, ... ps[i].ID < ps[j].ID)] *)
Definition sort_by_id {D} (ps : list (GroupingPosting D)) : list (GroupingPosting D) :=
  go_sort (λ p q, String.ltb (ID p) (ID q)) ps.

Lemma sort_by_id_perm {D} (ps : list (GroupingPosting D)) : sort_by_id ps ≡ₚ ps.
Proof. apply go_sort_perm. Qed.

Lemma sort_by_id_unique {D} (ps ps' : list (GroupingPosting D)) :
  distinct_ids ps → ps ≡ₚ ps' → sort_by_id ps = sort_by_id ps'.
Proof.
  intros Hnd. apply (go_sort_unique _ (cmp_on ID String.compare)).
  - intros p q. apply string_ltb_less_of.
  - intros p q Hp Hq Heq%String.compare_eq_iff. by apply (distinct_ids_inj ps).
Qed.

(** A posting with no prices, evidence or stored group, for the concrete inputs the
    theorems are run on. *)
Definition plain {D} (id account : string) (date : Z) (qty : D) (declared : list TxType)
    : GroupingPosting D := {|
  ID := id; UserID := "u"; PBroker := FIDELITY; Account := account; OrderDate := date;
  InstrumentID := "i"; Quantity := qty; UnitPrice := None; SettlementAmount := None;
  Declared := declared; JobID := "j"; GroupID := id; Resolved := "TRADE"; Correlations := [] |}.
End Posting.
