(* ===== verification/GroupState.v ===== *)
(** * The partition under construction

    [State] of server/grouping/grouping.go: a union-find structure over posting
    ids, with what each posting resolved to and which ones have been claimed.

    - [State] and its operations translate the Go type, path halving and map
      writes included; [find] is a loop, run with one more step than the state has
      ids, which [find_spec] shows is enough.
    - [PState] is what the type promises: a map from each id to the name of its
      group, which is the lowest id in it.
    - [GroupStore] is what a rule may do with a state and [EngineStore] what the
      engine may; both states implement them, and [GroupSim] is the simulation
      between two implementations that the rules are proved against.  [state_sim]
      is the refinement: [State] implements [PState].
    - [step] is one write to a state; what holds of every reachable state is proved
      by induction on its sequences. *)

From stdpp Require Import relations.
From S2P Require Import Prelude TxType Posting.

Module GroupState.
Import TxType Posting.

(** ** Members and groups *)

Record Member := { MemberID : string; MemberResolved : TxType }.
Record Group := { Members : list Member }.

#[export] Instance Member_eq_dec : EqDecision Member.
Proof. solve_decision. Defined.

#[export] Instance Group_eq_dec : EqDecision Group.
Proof. solve_decision. Defined.

(** ** The union-find state *)

Record State := {
  st_parent : gmap string string;
  st_resolved : gmap string TxType;
  st_claimed : gset string;
}.

(** [s.parent[id]]: an absent key reads as the empty string. *)
Definition pget (m : gmap string string) (id : string) : string :=
  default EmptyString (m !! id).

Definition newState {D} (ps : list (GroupingPosting D)) : State := {|
  st_parent := foldl (λ m p, <[ID p := ID p]> m) ∅ ps;
  st_resolved := ∅;
  st_claimed := ∅;
|}.

Fixpoint find_loop (fuel : nat) (m : gmap string string) (id : string)
    : gmap string string * string :=
  match fuel with
  | O => (m, id)
  | S n =>
      if decide (pget m id = id) then (m, id)
      else
        let m' := <[id := pget m (pget m id)]> m in
        find_loop n m' (pget m' id)
  end.

Definition with_parent (s : State) (m : gmap string string) : State :=
  {| st_parent := m; st_resolved := st_resolved s; st_claimed := st_claimed s |}.

Definition find (s : State) (id : string) : State * string :=
  let '(m, r) := find_loop (S (size (st_parent s))) (st_parent s) id in
  (with_parent s m, r).

Definition union (s : State) (a b : string) : State :=
  let '(s1, ra) := find s a in
  let '(s2, rb) := find s1 b in
  if decide (ra = rb) then s2
  else
    let '(lo, hi) := if String.ltb rb ra then (rb, ra) else (ra, rb) in
    with_parent s2 (<[hi := lo]> (st_parent s2)).

Definition Taken (s : State) (id : string) : bool := bool_decide (id ∈ st_claimed s).

Definition known (s : State) (id : string) : bool := bool_decide (is_Some (st_parent s !! id)).

Definition State_Group (s : State) (id : string) : State * string :=
  if known s id then find s id else (s, EmptyString).

(** The body of the loop [Claim] and [Attach] share: give a posting its role and
    put it in the group of [to]. *)
Definition take (to : string) (s : State) (m : Member) : State :=
  union {| st_parent := st_parent s;
           st_resolved := <[MemberID m := MemberResolved m]> (st_resolved s);
           st_claimed := {[MemberID m]} ∪ st_claimed s |} to (MemberID m).

Definition Claim (s : State) (ms : list Member) : State * bool :=
  match ms with
  | m0 :: _ :: _ =>
      if forallb (λ m, known s (MemberID m) && negb (Taken s (MemberID m))) ms
      then (foldl (take (MemberID m0)) s ms, true)
      else (s, false)
  | _ => (s, false)
  end.

Definition Attach (s : State) (anchorID : string) (ms : list Member) : State * bool :=
  match ms with
  | [] => (s, false)
  | _ =>
      if known s anchorID &&
         forallb (λ m, known s (MemberID m)
           && negb (bool_decide (MemberID m = anchorID) || Taken s (MemberID m))) ms
      then (foldl (take anchorID) s ms, true)
      else (s, false)
  end.

(** ** What the rules and the engine may do with a state *)

Class GroupStore (S : Type) := {
  gs_taken : S → string → bool;
  gs_group : S → string → S * string;
  gs_claim : S → list Member → S * bool;
  gs_attach : S → string → list Member → S * bool;
}.

Class EngineStore (S : Type) := {
  es_rules :: GroupStore S;
  es_new : list string → S;
  es_resolved : S → string → option TxType;
  es_find : S → string → S * string;
}.

#[export] Instance state_store : GroupStore State := {|
  gs_taken := Taken;
  gs_group := State_Group;
  gs_claim := Claim;
  gs_attach := Attach;
|}.

Definition new_of_ids (ids : list string) : State := {|
  st_parent := foldl (λ m id, <[id := id]> m) ∅ ids;
  st_resolved := ∅;
  st_claimed := ∅;
|}.

#[export] Instance state_engine : EngineStore State := {|
  es_new := new_of_ids;
  es_resolved s id := st_resolved s !! id;
  es_find := find;
|}.

Lemma newState_ids {D} (ps : list (GroupingPosting D)) : newState ps = new_of_ids (ID <$> ps).
Proof.
  unfold newState, new_of_ids. f_equal. generalize (∅ : gmap string string).
  induction ps as [|p ps IH]; intros m; simpl; [done|apply IH].
Qed.

(** [(s *State) groups]: read the partition out. *)
Definition resolved_or_declared {S D} `{EngineStore S} (s : S) (p : GroupingPosting D) : TxType :=
  match es_resolved s (ID p) with Some r => r | None => Resolve (Declared p) end.

Definition by_root {S D} `{EngineStore S} (s : S) (ps : list (GroupingPosting D))
    : S * gmap string (list Member) :=
  foldl (λ acc p,
    let '(s, m) := acc in
    let mem := {| MemberID := ID p; MemberResolved := resolved_or_declared s p |} in
    let '(s', root) := es_find s (ID p) in
    (s', <[root := at_key m root ++ [mem]]> m)) (s, ∅) ps.

Definition member_less (a b : Member) : bool := String.ltb (MemberID a) (MemberID b).

Definition groups {S D} `{EngineStore S} (s : S) (ps : list (GroupingPosting D)) : list Group :=
  let byRoot := (by_root s ps).2 in
  let roots := sort_strings (keys_of byRoot) in
  (λ root, {| Members := go_sort member_less (at_key byRoot root) |}) <$> roots.

(** ** The abstract state: each id and the name of its group *)

Record PState := {
  ps_rep : gmap string string;
  ps_resolved : gmap string TxType;
  ps_claimed : gset string;
}.

Definition prep (s : PState) (id : string) : string := default EmptyString (ps_rep s !! id).

(** Merging two groups renames the one with the higher name. *)
Definition relabel (lo hi : string) (m : gmap string string) : gmap string string :=
  (λ r, if decide (r = hi) then lo else r) <$> m.

Definition punion (m : gmap string string) (a b : string) : gmap string string :=
  let ra := pget m a in
  let rb := pget m b in
  if String.ltb rb ra then relabel rb ra m else relabel ra rb m.

Definition pknown (s : PState) (id : string) : bool := bool_decide (is_Some (ps_rep s !! id)).

Definition ptake (to : string) (s : PState) (m : Member) : PState := {|
  ps_rep := punion (ps_rep s) to (MemberID m);
  ps_resolved := <[MemberID m := MemberResolved m]> (ps_resolved s);
  ps_claimed := {[MemberID m]} ∪ ps_claimed s;
|}.

Definition ptaken (s : PState) (id : string) : bool := bool_decide (id ∈ ps_claimed s).

Definition pclaim (s : PState) (ms : list Member) : PState * bool :=
  match ms with
  | m0 :: _ :: _ =>
      if forallb (λ m, pknown s (MemberID m) && negb (ptaken s (MemberID m))) ms
      then (foldl (ptake (MemberID m0)) s ms, true)
      else (s, false)
  | _ => (s, false)
  end.

Definition pattach (s : PState) (anchorID : string) (ms : list Member) : PState * bool :=
  match ms with
  | [] => (s, false)
  | _ =>
      if pknown s anchorID &&
         forallb (λ m, pknown s (MemberID m)
           && negb (bool_decide (MemberID m = anchorID) || ptaken s (MemberID m))) ms
      then (foldl (ptake anchorID) s ms, true)
      else (s, false)
  end.

#[export] Instance pstate_store : GroupStore PState := {|
  gs_taken := ptaken;
  gs_group s id := (s, prep s id);
  gs_claim := pclaim;
  gs_attach := pattach;
|}.

Definition pnew (ids : list string) : PState := {|
  ps_rep := foldl (λ m id, <[id := id]> m) ∅ ids;
  ps_resolved := ∅;
  ps_claimed := ∅;
|}.

#[export] Instance pstate_engine : EngineStore PState := {|
  es_new := pnew;
  es_resolved s id := ps_resolved s !! id;
  es_find s id := (s, prep s id);
|}.

(** ** Chains of parents

    [Root m k r]: following parents from [k] arrives at [r], which is its own. *)

Inductive Root (m : gmap string string) : string → string → Prop :=
  | root_here k : m !! k = Some k → Root m k k
  | root_step k p r : m !! k = Some p → p ≠ k → Root m p r → Root m k r.

(** A parent is a known id no higher than its child: the representation invariant
    of the union-find state. *)
Definition forest (m : gmap string string) : Prop :=
  ∀ k p, m !! k = Some p → is_Some (m !! p) ∧ (p = k ∨ String.ltb p k = true).

Lemma root_det m k r r' : Root m k r → Root m k r' → r = r'.
Proof.
  intros H. revert r'. induction H as [k Hk|k p r Hk Hne _ IH]; intros r'; inversion 1; subst;
    try congruence.
  apply IH. congruence.
Qed.

Lemma root_dom m k r : Root m k r → is_Some (m !! k) ∧ m !! r = Some r.
Proof. induction 1; naive_solver. Qed.

Lemma root_le m k r : forest m → Root m k r → r = k ∨ String.ltb r k = true.
Proof.
  intros Hf. induction 1 as [|k p r Hk Hne _ IH]; [by left|].
  destruct (Hf _ _ Hk) as [_ [?|?]]; [done|].
  destruct IH as [->|IH]; right; [done|]. by eapply string_ltb_trans.
Qed.

(** Path halving keeps the forest and every root. *)
Lemma halve_forest m id p gp :
  forest m → m !! id = Some p → m !! p = Some gp → forest (<[id := gp]> m).
Proof.
  intros Hf Hid Hp k q. rewrite !lookup_insert_Some.
  destruct (Hf _ _ Hid) as [_ Hle1], (Hf _ _ Hp) as [Hd Hle2].
  intros [[<- <-]|[Hne Hk]].
  - split.
    + rewrite lookup_insert_is_Some'. by right.
    + destruct Hle1 as [->|?], Hle2 as [->|?]; eauto using string_ltb_trans.
  - destruct (Hf _ _ Hk) as [Hq Hle]. split; [|done].
    rewrite lookup_insert_is_Some'. by right.
Qed.

Lemma halve_root m id p gp k r :
  forest m → m !! id = Some p → p ≠ id → m !! p = Some gp →
  Root m k r → Root (<[id := gp]> m) k r.
Proof.
  intros Hf Hid Hne Hp. induction 1 as [k Hk|k q r Hk Hqk Hr IH].
  - apply root_here. rewrite lookup_insert_ne; [done|congruence].
  - destruct (decide (k = id)) as [->|Hkid].
    + assert (q = p) as -> by congruence.
      assert (gp ≠ id) as Hgp.
      { intros ->. destruct (Hf _ _ Hid) as [_ [?|H1]]; [done|].
        destruct (Hf _ _ Hp) as [_ [?|H2]]; [done|].
        apply string_ltb_asym in H1. congruence. }
      eapply (root_step _ _ gp); [by rewrite lookup_insert_eq|done|].
      destruct (decide (gp = p)) as [->|]; [done|].
      inversion IH as [? Hl|? ? ? Hl ? ?]; subst; rewrite lookup_insert_ne in Hl by done; congruence.
    + eapply (root_step _ _ q); [|done|done]. by rewrite lookup_insert_ne.
Qed.

(** Hanging one root under a lower one keeps the forest and merges the two. *)
Lemma link_forest m lo hi :
  forest m → m !! lo = Some lo → String.ltb lo hi = true → forest (<[hi := lo]> m).
Proof.
  intros Hf Hlo Hlt k q. rewrite !lookup_insert_Some. intros [[<- <-]|[Hne Hk]].
  - rewrite lookup_insert_is_Some'. eauto.
  - destruct (Hf _ _ Hk) as [Hq Hle]. rewrite lookup_insert_is_Some'. eauto.
Qed.

Lemma link_root m lo hi k r :
  m !! lo = Some lo → m !! hi = Some hi → lo ≠ hi →
  Root m k r → Root (<[hi := lo]> m) k (if decide (r = hi) then lo else r).
Proof.
  intros Hlo Hhi Hne.
  assert (Root (<[hi := lo]> m) lo lo) as Hroot.
  { apply root_here. by rewrite lookup_insert_ne. }
  induction 1 as [k Hk|k q r Hk Hqk Hr IH].
  - case_decide; subst.
    + eapply root_step; [by rewrite lookup_insert_eq|done|done].
    + apply root_here. by rewrite lookup_insert_ne.
  - eapply root_step; [|done|done]. rewrite lookup_insert_ne; [done|congruence].
Qed.

(** ** [find] *)

Definition below (m : gmap string string) (id : string) : gset string :=
  filter (λ k, String.ltb k id = true) (dom m).

Lemma below_lt m m' id p :
  dom m' = dom m → p ∈ dom m → String.ltb p id = true → size (below m' p) < size (below m id).
Proof.
  intros Hd Hp Hlt. apply subset_size. split.
  - intros k. unfold below. rewrite !elem_of_filter, Hd. intros [? ?].
    split; [by eapply string_ltb_trans|done].
  - intros Hsub. assert (p ∈ below m' p) as Hin.
    { apply Hsub. apply elem_of_filter. done. }
    unfold below in Hin. rewrite elem_of_filter, string_ltb_irrefl in Hin. by destruct Hin.
Qed.

Lemma find_loop_spec fuel m id r :
  forest m → Root m id r → size (below m id) < fuel →
  ∃ m', find_loop fuel m id = (m', r) ∧ forest m' ∧ dom m' = dom m ∧
    ∀ k r', Root m k r' → Root m' k r'.
Proof.
  revert m id. induction fuel as [|n IH]; intros m id Hf Hr Hlt; [lia|].
  simpl. case_decide as Hid.
  - exists m. split_and!; try done. f_equal. inversion Hr as [|? p]; subst; [done|].
    unfold pget in Hid. by simplify_map_eq.
  - destruct (root_dom _ _ _ Hr) as [[p Hp] _].
    unfold pget in Hid. rewrite Hp in Hid. simpl in Hid.
    destruct (Hf _ _ Hp) as [[gp Hgp] [?|Hlt1]]; [done|].
    unfold pget. rewrite Hp. simpl. rewrite Hgp. simpl. rewrite lookup_insert_eq. simpl.
    assert (dom (<[id := gp]> m) = dom m) as Hdom.
    { rewrite dom_insert_L. assert (id ∈ dom m) by by apply elem_of_dom. set_solver. }
    assert (Hroot : ∀ k r', Root m k r' → Root (<[id := gp]> m) k r')
      by eauto using halve_root.
    destruct (Hf _ _ Hgp) as [Hdgp Hle2].
    assert (String.ltb gp id = true) as Hlt2.
    { destruct Hle2 as [->|?]; eauto using string_ltb_trans. }
    destruct (IH (<[id := gp]> m) gp) as (m' & -> & Hf' & Hd' & Hk').
    + by eapply halve_forest.
    + apply Hroot. inversion Hr as [|? q]; subst; [by simplify_map_eq|].
      assert (q = p) as -> by congruence.
      match goal with H : Root m p r |- _ => inversion H as [|? q']; subst end.
      * by assert (gp = r) as -> by congruence.
      * by assert (q' = gp) as -> by congruence.
    + assert (gp ∈ dom m) as Hin by by apply elem_of_dom.
      pose proof (below_lt m _ id gp Hdom Hin Hlt2). lia.
    + exists m'. split_and!; [done|done|congruence|]. auto.
Qed.

Lemma find_spec s id r :
  forest (st_parent s) → Root (st_parent s) id r →
  ∃ m', find s id = (with_parent s m', r) ∧ forest m' ∧ dom m' = dom (st_parent s) ∧
    ∀ k r', Root (st_parent s) k r' → Root m' k r'.
Proof.
  intros Hf Hr. destruct (find_loop_spec (S (size (st_parent s))) _ id r Hf Hr) as (m' & E & ?).
  - unfold below. pose proof (subseteq_size (filter (λ k, String.ltb k id = true)
      (dom (st_parent s))) (dom (st_parent s))) as Hs.
    rewrite size_dom in Hs. assert (size (st_parent s) < S (size (st_parent s))) by lia.
    enough (size (filter (λ k, String.ltb k id = true) (dom (st_parent s))) ≤ size (st_parent s)) by lia.
    apply Hs. set_solver.
  - exists m'. unfold find. by rewrite E.
Qed.

(** ** [union] and [take] *)

Definition lower (a b : string) : string := if String.ltb b a then b else a.
Definition higher (a b : string) : string := if String.ltb b a then a else b.

(** What merging the groups named [ra] and [rb] does to the name of a group. *)
Definition merged (ra rb r : string) : string :=
  if decide (r = higher ra rb) then lower ra rb else r.

Lemma merged_same ra rb : merged ra rb ra = merged ra rb rb.
Proof.
  unfold merged, higher, lower. destruct (String.ltb rb ra); repeat case_decide; congruence.
Qed.

Lemma merged_refl ra r : merged ra ra r = r.
Proof. unfold merged, higher, lower. rewrite string_ltb_irrefl. case_decide; congruence. Qed.

Lemma with_parent_eta s m : st_resolved (with_parent s m) = st_resolved s
  ∧ st_claimed (with_parent s m) = st_claimed s ∧ st_parent (with_parent s m) = m.
Proof. done. Qed.

Lemma union_spec s a b ra rb :
  forest (st_parent s) → Root (st_parent s) a ra → Root (st_parent s) b rb →
  ∃ m', union s a b = with_parent s m' ∧ forest m' ∧ dom m' = dom (st_parent s) ∧
    ∀ k r, Root (st_parent s) k r → Root m' k (merged ra rb r).
Proof.
  intros Hf Ha Hb. unfold union.
  destruct (find_spec s a ra Hf Ha) as (m1 & -> & Hf1 & Hd1 & Hr1).
  destruct (find_spec (with_parent s m1) b rb) as (m2 & -> & Hf2 & Hd2 & Hr2); simpl; auto.
  simpl in Hd2. case_decide as Heq.
  { subst rb. exists m2. split_and!; [done|done|congruence|].
    intros k r Hk. rewrite merged_refl. auto. }
  assert (m2 !! ra = Some ra) as Hra by (eapply root_dom, Hr2, Hr1, Ha).
  assert (m2 !! rb = Some rb) as Hrb by (eapply root_dom, Hr2, Hr1, Hb).
  assert (m2 !! lower ra rb = Some (lower ra rb) ∧ m2 !! higher ra rb = Some (higher ra rb)
    ∧ String.ltb (lower ra rb) (higher ra rb) = true) as (Hlo & Hhi & Hlt).
  { unfold lower, higher. destruct (String.ltb rb ra) eqn:E; split_and!; try done.
    by apply string_ltb_total. }
  exists (<[higher ra rb := lower ra rb]> m2). split_and!.
  - unfold lower, higher. by destruct (String.ltb rb ra).
  - by apply link_forest.
  - rewrite dom_insert_L, Hd2, Hd1. apply (elem_of_dom_2 (D:=gset string)) in Hhi.
    rewrite Hd2, Hd1 in Hhi. set_solver.
  - intros k r Hk. apply link_root; auto.
    intros E. by rewrite E, string_ltb_irrefl in Hlt.
Qed.

Lemma punion_spec m a b ra rb k r :
  m !! a = Some ra → m !! b = Some rb → m !! k = Some r →
  punion m a b !! k = Some (merged ra rb r).
Proof.
  intros Ha Hb Hk. unfold punion, pget. rewrite Ha, Hb. simpl.
  unfold merged, lower, higher. destruct (String.ltb rb ra);
    unfold relabel; rewrite lookup_fmap, Hk; done.
Qed.

Lemma punion_dom m a b : dom (punion m a b) = dom m.
Proof. unfold punion. case_match; unfold relabel; apply dom_fmap_L. Qed.

(** ** Refinement

    A union-find state implements an abstract one over the ids [X] when every id's
    root is the name of its abstract group. *)

Record refines (X : gset string) (s : State) (t : PState) : Prop := {
  ref_forest : forest (st_parent s);
  ref_dom : dom (st_parent s) = X;
  ref_pdom : dom (ps_rep t) = X;
  ref_root k r : ps_rep t !! k = Some r → Root (st_parent s) k r;
  ref_resolved : st_resolved s = ps_resolved t;
  ref_claimed : st_claimed s = ps_claimed t;
}.

Class GroupSim {S T} `{GroupStore S, GroupStore T} (R : S → T → Prop) : Prop := {
  sim_taken s t id : R s t → gs_taken s id = gs_taken t id;
  sim_group s t id : R s t →
    R (gs_group s id).1 (gs_group t id).1 ∧ (gs_group s id).2 = (gs_group t id).2;
  sim_claim s t ms : R s t →
    R (gs_claim s ms).1 (gs_claim t ms).1 ∧ (gs_claim s ms).2 = (gs_claim t ms).2;
  sim_attach s t a ms : R s t →
    R (gs_attach s a ms).1 (gs_attach t a ms).1 ∧ (gs_attach s a ms).2 = (gs_attach t a ms).2;
}.

Section sim.
Context {S T : Type} `{GroupStore S, GroupStore T} (R : S → T → Prop) `{!GroupSim R}.

Lemma sim_claim_state s t ms : R s t → R (gs_claim s ms).1 (gs_claim t ms).1.
Proof. intros HR. by destruct (sim_claim s t ms HR). Qed.

Lemma sim_attach_state s t a ms : R s t → R (gs_attach s a ms).1 (gs_attach t a ms).1.
Proof. intros HR. by destruct (sim_attach s t a ms HR). Qed.

Lemma sim_claims {A} (f : A → list Member) l s t :
  R s t → R (foldl (λ st x, (gs_claim st (f x)).1) s l) (foldl (λ st x, (gs_claim st (f x)).1) t l).
Proof. intros HR. apply foldl_rel; [done|]. intros. by apply sim_claim_state. Qed.

Lemma sim_free {A} (f : A → string) (l : list A) s t :
  R s t → filter (λ x, gs_taken s (f x) = false) l = filter (λ x, gs_taken t (f x) = false) l.
Proof. intros HR. apply filter_ext_in. intros x _. by rewrite (sim_taken _ _ _ HR). Qed.
End sim.

Section refinement.
Context (X : gset string).

Lemma refines_lookup s t id :
  refines X s t → is_Some (st_parent s !! id) ↔ is_Some (ps_rep t !! id).
Proof. intros []. by rewrite <- !elem_of_dom, ref_dom0, ref_pdom0. Qed.

Lemma refines_known s t id : refines X s t → known s id = pknown t id.
Proof. intros Hr. apply bool_decide_ext. by apply refines_lookup. Qed.

Lemma refines_taken s t id : refines X s t → Taken s id = ptaken t id.
Proof. intros []. unfold Taken, ptaken. by rewrite ref_claimed0. Qed.

Lemma known_is_Some s id : known s id = true ↔ is_Some (st_parent s !! id).
Proof. apply bool_decide_eq_true. Qed.

Lemma refines_find s t id :
  refines X s t → known s id = true →
  refines X (find s id).1 t ∧ (find s id).2 = prep t id.
Proof.
  intros Hr Hk. pose proof Hr as [].
  apply known_is_Some, (refines_lookup _ _ _ Hr) in Hk as [r Hk].
  destruct (find_spec s id r) as (m' & -> & Hf & Hd & Hm); [done|auto|].
  simpl. unfold prep. rewrite Hk. split; [|done].
  split; simpl; try done; [congruence|auto].
Qed.

Lemma refines_take s t to m :
  refines X s t → known s to = true → known s (MemberID m) = true →
  refines X (take to s m) (ptake to t m).
Proof.
  intros Hr Hto Hm. pose proof Hr as [].
  apply known_is_Some, (refines_lookup _ _ _ Hr) in Hto as [ra Ha].
  apply known_is_Some, (refines_lookup _ _ _ Hr) in Hm as [rb Hb].
  unfold take. destruct (union_spec
    {| st_parent := st_parent s; st_resolved := <[MemberID m := MemberResolved m]> (st_resolved s);
       st_claimed := {[MemberID m]} ∪ st_claimed s |} to (MemberID m) ra rb)
    as (m' & -> & Hf & Hd & Hroot); simpl; [done|auto..|].
  split; simpl in *; [done|congruence|by rewrite punion_dom| | |]; [|congruence..].
  intros k r Hk. assert (k ∈ dom (ps_rep t)) as [r0 Hr0]%elem_of_dom.
  { rewrite <- (punion_dom (ps_rep t) to (MemberID m)). by eapply elem_of_dom_2. }
  rewrite (punion_spec _ _ _ _ _ _ _ Ha Hb Hr0) in Hk. injection Hk as <-. auto.
Qed.

Lemma known_dom s id : known s id = bool_decide (id ∈ dom (st_parent s)).
Proof. apply bool_decide_ext. by rewrite elem_of_dom. Qed.

Lemma refines_known_dom s t s' t' id :
  refines X s t → refines X s' t' → known s id = known s' id.
Proof. intros H1 H2. by rewrite !known_dom, (ref_dom X s t H1), (ref_dom X s' t' H2). Qed.

Lemma refines_takes s t to ms :
  refines X s t → known s to = true → forallb (λ m, known s (MemberID m)) ms = true →
  refines X (foldl (take to) s ms) (foldl (ptake to) t ms).
Proof.
  revert s t. induction ms as [|m ms IH]; intros s t Hr Hto Hms; simpl in *; [done|].
  apply andb_true_iff in Hms as [Hm Hms].
  pose proof (refines_take _ _ _ _ Hr Hto Hm) as Hr'.
  apply IH; [done|by rewrite <- (refines_known_dom _ _ _ _ _ Hr Hr')|].
  rewrite forallb_forall in Hms |- *. intros x Hx.
  rewrite <- (refines_known_dom _ _ _ _ _ Hr Hr'). auto.
Qed.

#[export] Instance state_sim : GroupSim (refines X).
Proof.
  split.
  - intros s t id. apply refines_taken.
  - intros s t id Hr. simpl. unfold State_Group. destruct (known s id) eqn:Hk.
    + destruct (refines_find _ _ id Hr Hk) as [? ?]. by destruct (find s id).
    + simpl. split; [done|]. rewrite (refines_known s t) in Hk by done.
      unfold pknown, prep in *. apply bool_decide_eq_false, eq_None_not_Some in Hk. by rewrite Hk.
  - intros s t [|m0 [|m1 ms]] Hr; cbn [gs_claim state_store pstate_store]; [done..|]. unfold Claim, pclaim.
    rewrite (forallb_pointwise (λ m, known s (MemberID m) && negb (Taken s (MemberID m)))
      (λ m, pknown t (MemberID m) && negb (ptaken t (MemberID m)))).
    2: { intros m _. by rewrite (refines_known s t), (refines_taken s t). }
    destruct (forallb _ _) eqn:E; [|done]. split; [|done].
    assert (∀ m, m ∈ m0 :: m1 :: ms → known s (MemberID m) = true) as Hk.
    { intros m Hm. rewrite (refines_known s t) by done.
      apply (forallb_elem _ _ _ E), andb_true_iff in Hm. tauto. }
    apply refines_takes; [done|apply Hk; left|by apply forallb_intro].
  - intros s t a ms Hr. cbn [gs_attach state_store pstate_store]. unfold Attach, pattach. destruct ms as [|m0 ms]; [done|].
    rewrite (refines_known s t a Hr).
    rewrite (forallb_pointwise (λ m, known s (MemberID m)
      && negb (bool_decide (MemberID m = a) || Taken s (MemberID m))) (λ m, pknown t (MemberID m)
      && negb (bool_decide (MemberID m = a) || ptaken t (MemberID m)))).
    2: { intros m _. by rewrite (refines_known s t), (refines_taken s t). }
    destruct (pknown t a && _) eqn:E; [|done]. split; [|done]. cbn [fst].
    apply andb_true_iff in E as [Ha E]. rewrite <- (refines_known s t) in Ha by done.
    apply refines_takes; [done|done|].
    apply forallb_intro. intros m Hm. rewrite (refines_known s t) by done.
    apply (forallb_elem _ _ _ E), andb_true_iff in Hm. tauto.
Qed.
End refinement.

(** ** Where a run starts, and what is read out of it *)

Lemma lookup_new ids (m : gmap string string) k :
  foldl (λ m id, <[id := id]> m) m ids !! k = if decide (k ∈ ids) then Some k else m !! k.
Proof.
  revert m. induction ids as [|id ids IH]; intros m; simpl; [done|].
  rewrite IH. destruct (decide (k ∈ ids)).
  - rewrite decide_True; [done|by right].
  - rewrite lookup_insert. repeat case_decide; set_solver.
Qed.

Lemma dom_new ids : dom (foldl (λ m id, <[id := id]> m) (∅ : gmap string string) ids) = list_to_set ids.
Proof.
  apply set_eq. intros k. rewrite elem_of_dom, lookup_new, elem_of_list_to_set, lookup_empty.
  case_decide; split; done.
Qed.

Lemma refines_new ids : refines (list_to_set ids) (new_of_ids ids) (pnew ids).
Proof.
  split; simpl; try done; try apply dom_new; intros k r.
  - rewrite lookup_new, lookup_empty. case_decide; [|done]. intros [= <-].
    rewrite lookup_new, decide_True by done. eauto.
  - rewrite lookup_new, lookup_empty. case_decide; [|done]. intros [= <-].
    apply root_here. by rewrite lookup_new, decide_True.
Qed.

(** The abstract names: a group is called after its lowest member. *)
Lemma refines_name X s t k r :
  refines X s t → ps_rep t !! k = Some r →
  ps_rep t !! r = Some r ∧ (r = k ∨ String.ltb r k = true).
Proof.
  intros Hr Hk. pose proof (ref_root _ _ _ Hr _ _ Hk) as Hroot. split.
  - destruct (root_dom _ _ _ Hroot) as [_ Hrr].
    assert (r ∈ dom (ps_rep t)) as [r' Hr']%elem_of_dom.
    { rewrite (ref_pdom _ _ _ Hr), <- (ref_dom _ _ _ Hr). by eapply elem_of_dom_2. }
    rewrite Hr'. f_equal. apply (root_det (st_parent s) r); [by eapply ref_root|by apply root_here].
  - by eapply root_le; [eapply ref_forest|].
Qed.

Definition member_of {S D} `{EngineStore S} (s : S) (p : GroupingPosting D) : Member :=
  {| MemberID := ID p; MemberResolved := resolved_or_declared s p |}.

Section readout.
Context {D : Type}.
Implicit Types (ps : list (GroupingPosting D)) (t : PState).

Lemma by_root_abstract t ps :
  by_root t ps = (t, index_by ((λ p, (prep t (ID p), member_of t p)) <$> ps)).
Proof.
  unfold by_root, index_by. simpl. generalize (∅ : gmap string (list Member)).
  induction ps as [|p ps IH]; intros m; simpl; [done|]. by rewrite IH.
Qed.

Lemma groups_refines X s t ps :
  refines X s t → (∀ p, p ∈ ps → ID p ∈ X) → groups s ps = groups t ps.
Proof.
  intros Hr Hps. unfold groups. enough ((by_root s ps).2 = (by_root t ps).2) as -> by done.
  unfold by_root.
  apply (foldl_rel (λ a b, refines X a.1 b.1 ∧ a.2 = b.2)); [done|].
  clear s t Hr. intros [s m] [t m'] p Hp [Hr Hm]. simpl in *. subst m'.
  assert (known s (ID p) = true) as Hk.
  { rewrite known_dom, (ref_dom _ _ _ Hr). apply bool_decide_eq_true. auto. }
  destruct (refines_find _ _ _ _ Hr Hk) as [Hr' E].
  unfold resolved_or_declared. simpl. rewrite (ref_resolved _ _ _ Hr).
  destruct (find s (ID p)) as [s' root]. simpl in *. by subst root.
Qed.

(** The groups read out of an abstract state do not depend on the order the
    postings are in. *)
Lemma groups_perm t ps ps' :
  distinct_ids ps → ps ≡ₚ ps' → groups t ps = groups t ps'.
Proof.
  intros Hnd Hp. unfold groups. rewrite !by_root_abstract. simpl.
  rewrite (sort_strings_unique _ (keys_of (index_by
    ((λ p, (prep t (ID p), member_of t p)) <$> ps')))) by (apply keys_index_by_perm; by rewrite Hp).
  apply list_fmap_ext. intros _ root _. f_equal. rewrite !at_key_index_by.
  apply (go_sort_unique _ (cmp_on MemberID String.compare)).
  - intros x y. apply string_ltb_less_of.
  - intros x y Hx Hy Heq%String.compare_eq_iff.
    apply elem_of_sel, list_elem_of_fmap in Hx as (p & [= _ ->] & Hx), Hy as (q & [= _ ->] & Hy).
    simpl in Heq. by rewrite (distinct_ids_inj ps p q).
  - apply sel_perm. by rewrite Hp.
Qed.
End readout.

Section readout_shape.
Context {D : Type}.
Implicit Types (ps : list (GroupingPosting D)) (t : PState).

Lemma sel_groups t ps root :
  sel root ((λ p, (prep t (ID p), member_of t p)) <$> ps)
  = member_of t <$> filter (λ q, prep t (ID q) = root) ps.
Proof.
  unfold sel. induction ps as [|p ps IH]; csimpl; [done|].
  rewrite !filter_cons. simpl. case_decide; csimpl; by rewrite IH.
Qed.

(** A group that is read out is the postings sharing a name. *)
Lemma elem_of_groups t ps g :
  g ∈ groups t ps ↔ ∃ p, p ∈ ps ∧ Members g =
    go_sort member_less (member_of t <$> filter (λ q, prep t (ID q) = prep t (ID p)) ps).
Proof.
  unfold groups. rewrite by_root_abstract, list_elem_of_fmap. simpl.
  setoid_rewrite sort_strings_perm. setoid_rewrite elem_of_keys_index_by.
  rewrite <- list_fmap_compose. split.
  - intros (root & -> & (p & -> & Hp)%list_elem_of_fmap). exists p. simpl.
    by rewrite at_key_index_by, sel_groups.
  - intros (p & Hp & Hg). exists (prep t (ID p)). split.
    + destruct g as [ms]. simpl in *. by rewrite Hg, at_key_index_by, sel_groups.
    + apply list_elem_of_fmap. eauto.
Qed.

Lemma groups_concat t ps : (groups t ps ≫= Members) ≡ₚ member_of t <$> ps.
Proof.
  unfold groups. rewrite by_root_abstract. simpl.
  set (l := (λ p, (prep t (ID p), member_of t p)) <$> ps).
  rewrite bind_fmap.
  transitivity (keys_of (index_by l) ≫= λ k, sel k l).
  - apply bind_perm; [|apply sort_strings_perm].
    intros k _. simpl. by rewrite go_sort_perm, at_key_index_by.
  - rewrite bind_sel_perm; [|apply NoDup_keys_of|].
    + unfold l. by rewrite <- list_fmap_compose.
    + intros ka Hka. apply elem_of_keys_index_by. by apply list_elem_of_fmap_2.
Qed.

Lemma groups_members_sorted t ps g :
  distinct_ids ps → g ∈ groups t ps →
  StronglySorted (λ a b, String.ltb a b = true) (MemberID <$> Members g).
Proof.
  intros Hnd (p & Hp & Hg)%elem_of_groups.
  assert (NoDup (MemberID <$> Members g)) as Hnd'.
  { rewrite Hg, go_sort_perm, <- list_fmap_compose.
    change (distinct_ids (filter (λ q, prep t (ID q) = prep t (ID p)) ps)).
    eapply distinct_ids_sub; [apply sublist_filter|done]. }
  pose proof (go_sort_sorted member_less (cmp_on MemberID String.compare)
    (λ x y, string_ltb_less_of _ _)
    (member_of t <$> filter (λ q, prep t (ID q) = prep t (ID p)) ps)) as Hs.
  rewrite <- Hg in Hs. clear Hg. revert Hnd' Hs. generalize (Members g). intros l Hnd' Hs.
  induction Hs as [|m ms Hms IH Hm]; simpl in *; [constructor|].
  apply NoDup_cons in Hnd' as [Hnin Hnd']. constructor; [auto|].
  rewrite Forall_forall in Hm. apply Forall_forall. intros id (m' & -> & Hm')%list_elem_of_fmap.
  specialize (Hm _ Hm'). unfold cmp_on in Hm.
  destruct (String.ltb (MemberID m) (MemberID m')) eqn:E; [done|].
  destruct (decide (MemberID m = MemberID m')) as [Heq|Hne].
  - destruct Hnin. rewrite Heq. by apply list_elem_of_fmap_2.
  - apply string_ltb_total, string_ltb_lt in E; [|done].
    by rewrite (cmp_antisym String.compare (MemberID m') (MemberID m)), E in Hm.
Qed.
End readout_shape.

(** ** What a claim and an attachment do to the groups *)

Definition same_group (s : State) (a b : string) : Prop :=
  ∃ r, Root (st_parent s) a r ∧ Root (st_parent s) b r.

(** Every id of the state has a root. *)
Definition valid (s : State) : Prop :=
  forest (st_parent s) ∧ ∀ k, is_Some (st_parent s !! k) → ∃ r, Root (st_parent s) k r.

(** The ids whose group one of [l] is in. *)
Definition touched (s : State) (l : list string) (a : string) : Prop :=
  ∃ y, y ∈ l ∧ same_group s a y.

Lemma merged_eq ra rb r1 r2 :
  merged ra rb r1 = merged ra rb r2 ↔
  r1 = r2 ∨ ((r1 = ra ∨ r1 = rb) ∧ (r2 = ra ∨ r2 = rb)).
Proof.
  unfold merged, lower, higher.
  destruct (String.ltb rb ra) eqn:E; repeat case_decide; naive_solver.
Qed.

Lemma same_group_sym s a b : same_group s a b → same_group s b a.
Proof. intros (r & ? & ?). by exists r. Qed.

Lemma same_group_trans s a b c : same_group s a b → same_group s b c → same_group s a c.
Proof. intros (r & Ha & Hb) (r' & Hb' & Hc). exists r. by rewrite (root_det _ _ _ _ Hb Hb') in *. Qed.

Lemma same_group_refl s a : valid s → known s a = true → same_group s a a.
Proof. intros [_ Hv] Hk%known_is_Some. destruct (Hv _ Hk) as [r Hr]. by exists r. Qed.

(** One step of the shared loop: the role is given, the two groups become one and
    no other pair of ids is joined. *)
Lemma take_spec s to m :
  valid s → known s to = true → known s (MemberID m) = true →
  let s' := take to s m in
  valid s' ∧ dom (st_parent s') = dom (st_parent s) ∧
  st_resolved s' = <[MemberID m := MemberResolved m]> (st_resolved s) ∧
  st_claimed s' = {[MemberID m]} ∪ st_claimed s ∧
  ∀ a b, same_group s' a b ↔
    same_group s a b ∨ (touched s [to; MemberID m] a ∧ touched s [to; MemberID m] b).
Proof.
  intros [Hf Hv] Hto%known_is_Some Hm%known_is_Some s'. unfold s', take. clear s'.
  destruct (Hv _ Hto) as [ra Ha], (Hv _ Hm) as [rb Hb].
  destruct (union_spec
    {| st_parent := st_parent s; st_resolved := <[MemberID m := MemberResolved m]> (st_resolved s);
       st_claimed := {[MemberID m]} ∪ st_claimed s |} to (MemberID m) ra rb)
    as (m' & -> & Hf' & Hd & Hroot); simpl in *; [done..|].
  assert (Hback : ∀ k r', Root m' k r' → ∃ r, Root (st_parent s) k r ∧ r' = merged ra rb r).
  { intros k r' Hk. destruct (Hv k) as [r Hr].
    - apply elem_of_dom. rewrite <- Hd. apply elem_of_dom. by eapply root_dom.
    - exists r. split; [done|]. eapply root_det; [done|]. by apply Hroot. }
  assert (Htouch : ∀ k, touched s [to; MemberID m] k ↔
      ∃ r, Root (st_parent s) k r ∧ (r = ra ∨ r = rb)).
  { intros k. unfold touched, same_group. split.
    - intros (y & Hy & r & Hk & Hyr). exists r. split; [done|].
      apply elem_of_cons in Hy as [->|Hy%list_elem_of_singleton]; [left|right; subst];
        by eapply root_det.
    - intros (r & Hk & [->| ->]); [exists to|exists (MemberID m)]; (split; [set_solver|eauto]). }
  split_and!; try done.
  - split; [done|]. simpl. intros k Hk.
    destruct (Hv k) as [r Hr]; [|eauto].
    apply elem_of_dom. rewrite <- Hd. by apply elem_of_dom.
  - intros a b. rewrite !Htouch. unfold same_group. simpl. split.
    + intros (r & (r1 & H1 & ->)%Hback & (r2 & H2 & E)%Hback).
      apply merged_eq in E as [->|[? ?]]; eauto 10.
    + intros [(r & H1 & H2)|[(r1 & H1 & E1) (r2 & H2 & E2)]]; [eauto|].
      exists (merged ra rb r1). split; [eauto|].
      rewrite (proj2 (merged_eq ra rb r1 r2)); eauto.
Qed.

Lemma takes_spec s to ms :
  valid s → known s to = true → (∀ m, m ∈ ms → known s (MemberID m) = true) →
  let s' := foldl (take to) s ms in
  valid s' ∧ dom (st_parent s') = dom (st_parent s) ∧
  (∀ id, st_resolved s' !! id = match last (filter (λ m, MemberID m = id) ms) with
    | Some m => Some (MemberResolved m) | None => st_resolved s !! id end) ∧
  st_claimed s' = list_to_set (MemberID <$> ms) ∪ st_claimed s ∧
  ∀ a b, same_group s' a b ↔ same_group s a b ∨
    (touched s (to :: (MemberID <$> ms)) a ∧ touched s (to :: (MemberID <$> ms)) b).
Proof.
  revert s. induction ms as [|m ms IH]; intros s Hv Hto Hms; simpl.
  - split_and!; try done; [set_solver|]. intros a b. split; [by left|].
    intros [?|[(y & Hy & Ha) (y' & Hy' & Hb)]]; [done|].
    apply list_elem_of_singleton in Hy as ->, Hy' as ->.
    eauto using same_group_trans, same_group_sym.
  - assert (known s (MemberID m) = true) as Hm by (apply Hms; left).
    destruct (take_spec s to m Hv Hto Hm) as (Hv1 & Hd1 & Hr1 & Hc1 & Hg1).
    assert (Hk : ∀ a, known (take to s m) a = known s a) by (intros; by rewrite !known_dom, Hd1).
    destruct (IH (take to s m)) as (Hv2 & Hd2 & Hr2 & Hc2 & Hg2); [done|by rewrite Hk| |].
    { intros m' Hm'. rewrite Hk. apply Hms. by right. }
    split_and!; [done|congruence| | |].
    + intros id. rewrite Hr2, Hr1, filter_cons. case_decide as Hid; [|].
      * rewrite last_cons. destruct (last _) eqn:E; [done|]. subst id. by rewrite lookup_insert_eq.
      * destruct (last _); [done|]. by rewrite lookup_insert_ne.
    + rewrite Hc2, Hc1. set_solver.
    + intros a b. rewrite Hg2, Hg1.
      assert (Ht : ∀ x, touched (take to s m) (to :: (MemberID <$> ms)) x ↔
        touched s (to :: MemberID m :: (MemberID <$> ms)) x).
      { intros x. unfold touched at 1. setoid_rewrite Hg1. split.
        - intros (y & Hy & [Hs|[(z & Hz & Hxz) _]]); [exists y|exists z]; (split; [set_solver|done]).
        - intros (y & Hy & Hs). apply elem_of_cons in Hy as [->|[->|Hy]%elem_of_cons].
          + exists to. split; [set_solver|by left].
          + exists to. split; [set_solver|right]. split; [exists (MemberID m); split; [set_solver|done]|].
            exists to. split; [set_solver|]. by apply same_group_refl.
          + exists y. split; [set_solver|by left]. }
      rewrite !Ht. split; [|tauto].
      intros [[?|[(y & Hy & Ha) (y' & Hy' & Hb)]]|?]; [by left| |by right].
      right. split; [exists y|exists y']; (split; [set_solver|done]).
Qed.

(** ** Steps

    Everything a run does to its state: look a group up, which shortens paths,
    claim, and attach. *)

Inductive step : State → State → Prop :=
  | step_find s id : step s (State_Group s id).1
  | step_claim s ms : step s (Claim s ms).1
  | step_attach s a ms : step s (Attach s a ms).1.

Lemma claim_cases s ms :
  (Claim s ms = (s, false)) ∨
  (∃ m0 m1 ms', ms = m0 :: m1 :: ms' ∧
    (∀ m, m ∈ ms → known s (MemberID m) = true ∧ Taken s (MemberID m) = false) ∧
    Claim s ms = (foldl (take (MemberID m0)) s ms, true)).
Proof.
  destruct ms as [|m0 [|m1 ms]]; [by left..|]. unfold Claim.
  destruct (forallb _ _) eqn:E; [right|by left]. exists m0, m1, ms. split_and!; [done| |done].
  intros m Hm. apply (forallb_elem _ _ _ E), andb_true_iff in Hm as [? ?%negb_true_iff]. done.
Qed.

Lemma attach_cases s a ms :
  (Attach s a ms = (s, false)) ∨
  (ms ≠ [] ∧ known s a = true ∧
    (∀ m, m ∈ ms → known s (MemberID m) = true ∧ MemberID m ≠ a ∧ Taken s (MemberID m) = false) ∧
    Attach s a ms = (foldl (take a) s ms, true)).
Proof.
  destruct ms as [|m0 ms]; [by left|]. unfold Attach.
  destruct (_ && _) eqn:E; [right|by left]. apply andb_true_iff in E as [Ha E].
  split_and!; [done|done| |done]. intros m Hm.
  apply (forallb_elem _ _ _ E), andb_true_iff in Hm as [? [Hne ?]%negb_true_iff%orb_false_iff].
  by apply bool_decide_eq_false in Hne.
Qed.

Lemma find_valid s id :
  valid s → valid (State_Group s id).1 ∧
  st_resolved (State_Group s id).1 = st_resolved s ∧
  st_claimed (State_Group s id).1 = st_claimed s ∧
  dom (st_parent (State_Group s id).1) = dom (st_parent s) ∧
  ∀ a b, same_group s a b ↔ same_group (State_Group s id).1 a b.
Proof.
  intros [Hf Hv]. unfold State_Group. destruct (known s id) eqn:Hk; [|done].
  apply known_is_Some, Hv in Hk as [r Hr].
  destruct (find_spec s id r Hf Hr) as (m' & -> & Hf' & Hd & Hm). simpl.
  assert (Hv' : ∀ k, is_Some (m' !! k) → ∃ r', Root (st_parent s) k r').
  { intros k Hk%elem_of_dom. apply Hv, elem_of_dom. by rewrite <- Hd. }
  split_and!; try done.
  - split; [done|]. intros k [r' ?]%Hv'. eauto.
  - intros a b. unfold same_group. simpl. split; [naive_solver|].
    intros (r' & Ha & Hb). destruct (root_dom _ _ _ Ha) as [[ra Hra]%Hv' _].
    destruct (root_dom _ _ _ Hb) as [[rb Hrb]%Hv' _].
    assert (ra = r') by eauto using root_det. assert (rb = r') by eauto using root_det.
    subst. eauto.
Qed.

(** What a step can never undo. *)
Record extends (s s' : State) : Prop := {
  ext_dom : dom (st_parent s') = dom (st_parent s);
  ext_claimed : st_claimed s ⊆ st_claimed s';
  ext_resolved id : id ∈ st_claimed s → st_resolved s' !! id = st_resolved s !! id;
  ext_groups a b : same_group s a b → same_group s' a b;
}.

Lemma extends_refl s : extends s s.
Proof. by split. Qed.

Lemma extends_trans s s1 s2 : extends s s1 → extends s1 s2 → extends s s2.
Proof.
  intros [] []. split; [congruence|set_solver| |auto].
  intros id Hid. rewrite ext_resolved1; [auto|]. by apply ext_claimed0.
Qed.

Lemma takes_extends s to ms :
  valid s → known s to = true →
  (∀ m, m ∈ ms → known s (MemberID m) = true ∧ Taken s (MemberID m) = false) →
  valid (foldl (take to) s ms) ∧ extends s (foldl (take to) s ms).
Proof.
  intros Hv Hto Hms.
  destruct (takes_spec s to ms Hv Hto) as (Hv' & Hd & Hr & Hc & Hg); [naive_solver|].
  split; [done|]. split; [done|rewrite Hc; set_solver| |].
  - intros id Hid. rewrite Hr. destruct (last _) as [m|] eqn:E; [|done].
    apply last_Some_elem_of, list_elem_of_filter in E as [<- Hm%Hms].
    destruct Hm as [_ Hm%bool_decide_eq_false]. done.
  - intros a b ?. apply Hg. by left.
Qed.

Lemma step_extends s s' : valid s → step s s' → valid s' ∧ extends s s'.
Proof.
  intros Hv. inversion 1 as [? id|? ms|? a ms]; subst.
  - destruct (find_valid s id Hv) as (? & Hr & Hc & Hd & Hg). split; [done|].
    split; [done|by rewrite Hc|by rewrite Hr|]. intros. by apply Hg.
  - destruct (claim_cases s ms) as [->|(m0 & m1 & ms' & -> & Hms & ->)]; [by split; [|apply extends_refl]|].
    apply takes_extends; [done|apply Hms; left|done].
  - destruct (attach_cases s a ms) as [->|(_ & Ha & Hms & ->)]; [by split; [|apply extends_refl]|].
    apply takes_extends; [done|done|naive_solver].
Qed.

Lemma new_valid ids : valid (new_of_ids ids).
Proof.
  pose proof (refines_new ids) as Hr. split; [by eapply ref_forest|].
  intros k Hk. apply (refines_lookup _ _ _ _ Hr) in Hk as [r Hk]. eauto using ref_root.
Qed.

Lemma steps_extend s s' : valid s → rtc step s s' → valid s' ∧ extends s s'.
Proof.
  intros Hv Hsteps. induction Hsteps as [s|s s1 s2 Hstep _ IH]; [by split; [|apply extends_refl]|].
  destruct (step_extends _ _ Hv Hstep) as [Hv1 H1]. destruct (IH Hv1) as [Hv2 H2].
  split; [done|]. by eapply extends_trans.
Qed.

(** Every reachable state implements an abstract one. *)
Lemma steps_refine X s s' t :
  refines X s t → rtc step s s' → ∃ t', refines X s' t'.
Proof.
  intros Hr Hs. revert t Hr. induction Hs as [s|s s1 s2 Hstep _ IH]; intros t Hr; [by exists t|].
  inversion Hstep as [? id|? ms|? a ms]; subst.
  - destruct (sim_group _ _ id Hr) as [Hr' _]. eapply IH, Hr'.
  - destruct (sim_claim _ _ ms Hr) as [Hr' _]. eapply IH, Hr'.
  - destruct (sim_attach _ _ a ms Hr) as [Hr' _]. eapply IH, Hr'.
Qed.

(** A decision is irrevocable.  However a run goes on from a state it reached,
    a claimed posting stays claimed, keeps the type it was resolved to, and stays
    with every posting it shares a group with: groups only ever grow. *)
Theorem irrevocable {D} (ps : list (GroupingPosting D)) s s' :
  rtc step (newState ps) s → rtc step s s' →
  st_claimed s ⊆ st_claimed s' ∧
  (∀ id, id ∈ st_claimed s → st_resolved s' !! id = st_resolved s !! id) ∧
  (∀ a b, same_group s a b → same_group s' a b).
Proof.
  rewrite newState_ids. intros H1 H2.
  destruct (steps_extend _ _ (new_valid _) H1) as [Hv _].
  destruct (steps_extend _ _ Hv H2) as [_ []]. done.
Qed.

Definition mem (id : string) (t : TxType) : Member := {| MemberID := id; MemberResolved := t |}.

Definition posting3 : list (GroupingPosting unit) :=
  (λ id, {| ID := id; UserID := "u"; PBroker := IBKR; Account := "acc"; OrderDate := 0;
    InstrumentID := "i"; Quantity := tt; UnitPrice := None; SettlementAmount := None;
    Declared := [TRADE]; JobID := "j"; GroupID := id; Resolved := "TRADE";
    Correlations := [] |}) <$> ["a"; "b"; "c"].

Lemma irrevocable_witness :
  let s := (Claim (newState posting3) [mem "b" TRADE_ASSET; mem "c" TRADE_CASH]).1 in
  let s' := (Attach s "c" [mem "a" EXPENSE]).1 in
  st_claimed s ⊆ st_claimed s' ∧ st_resolved s' !! "c" = Some TRADE_CASH.
Proof.
  intros s s'.
  destruct (irrevocable posting3 s s') as (Hc & Hr & _).
  - apply rtc_once, step_claim.
  - apply rtc_once, step_attach.
  - split; [exact Hc|]. rewrite Hr; [reflexivity|]. vm_compute. done.
Defined.

(** [Claim] is all or nothing.  In a reachable state it answers yes exactly for
    two or more members, all known and none of them taken.  Refusing, it changes
    nothing; accepting, it marks exactly its members, leaves every other posting's
    resolution alone, and joins exactly the groups its members were in. *)
Theorem claim_all_or_nothing {D} (ps : list (GroupingPosting D)) s ms s' ok :
  rtc step (newState ps) s → Claim s ms = (s', ok) →
  (ok = true ↔ 2 ≤ length ms ∧
    ∀ m, m ∈ ms → known s (MemberID m) = true ∧ Taken s (MemberID m) = false) ∧
  (ok = false → s' = s) ∧
  (ok = true →
    st_claimed s' = list_to_set (MemberID <$> ms) ∪ st_claimed s ∧
    (∀ id, id ∉ MemberID <$> ms → st_resolved s' !! id = st_resolved s !! id) ∧
    (∀ a b, same_group s' a b ↔ same_group s a b ∨
      (touched s (MemberID <$> ms) a ∧ touched s (MemberID <$> ms) b))).
Proof.
  rewrite newState_ids. intros [Hv _]%steps_extend Hc; [|apply new_valid].
  destruct (claim_cases s ms) as [E|(m0 & m1 & ms' & -> & Hms & E)];
    rewrite E in Hc; injection Hc as <- <-.
  - split_and!; [|done|done]. split; [done|]. intros [Hlen Hms].
    destruct ms as [|m0 [|m1 ms]]; simpl in Hlen; [lia..|]. unfold Claim in E.
    rewrite forallb_intro in E; [done|]. intros m [-> ->]%Hms. done.
  - destruct (takes_spec s (MemberID m0) (m0 :: m1 :: ms') Hv) as (_ & _ & Hr & Hcl & Hg).
    + apply Hms. left.
    + naive_solver.
    + split_and!; [|done|]; [split; [intros _; split; [simpl; lia|done]|done]|].
      intros _. split_and!; [done| |].
      * intros id Hid. rewrite Hr. destruct (last _) as [m|] eqn:El; [|done].
        apply last_Some_elem_of, list_elem_of_filter in El as [<- Hm].
        destruct Hid. by apply list_elem_of_fmap_2.
      * intros a b. rewrite Hg.
        assert (∀ x, touched s (MemberID m0 :: (MemberID <$> m0 :: m1 :: ms')) x ↔
          touched s (MemberID <$> m0 :: m1 :: ms') x) as Ht; [|by rewrite !Ht].
        intros x. split; intros (y & Hy & ?); exists y; (split; [set_solver|done]).
Qed.

Lemma claim_all_or_nothing_witness :
  let s := newState posting3 in
  let s' := (Claim s [mem "b" TRADE_ASSET; mem "c" TRADE_CASH]).1 in
  Taken s' "b" = true ∧ Taken s' "a" = false ∧ same_group s' "b" "c".
Proof.
  intros s s'.
  destruct (claim_all_or_nothing posting3 s [mem "b" TRADE_ASSET; mem "c" TRADE_CASH] s' true
    ltac:(apply rtc_refl) eq_refl) as (_ & _ & H).
  destruct (H eq_refl) as (_ & _ & Hg). split_and!; [vm_compute; reflexivity..|].
  apply Hg. right. split.
  - exists "b". split; [left|]. apply same_group_refl; [|reflexivity].
    unfold s. rewrite newState_ids. apply new_valid.
  - exists "c". split; [right; left|]. apply same_group_refl; [|reflexivity].
    unfold s. rewrite newState_ids. apply new_valid.
Defined.

(** [Attach] adds to a group without disturbing it.  In a reachable state it
    answers yes exactly when the anchor is known and the contributors are known,
    free and not the anchor.  Refusing, it changes nothing; accepting, the anchor's
    role and resolution come out unchanged and the contributors' groups join its
    group, no other two postings meeting. *)
Theorem attach_adds_to_the_anchor {D} (ps : list (GroupingPosting D)) s anchor ms s' ok :
  rtc step (newState ps) s → Attach s anchor ms = (s', ok) →
  (ok = true ↔ ms ≠ [] ∧ known s anchor = true ∧
    ∀ m, m ∈ ms → known s (MemberID m) = true ∧ MemberID m ≠ anchor ∧ Taken s (MemberID m) = false) ∧
  (ok = false → s' = s) ∧
  (ok = true →
    Taken s' anchor = Taken s anchor ∧ st_resolved s' !! anchor = st_resolved s !! anchor ∧
    st_claimed s' = list_to_set (MemberID <$> ms) ∪ st_claimed s ∧
    (∀ a b, same_group s' a b ↔ same_group s a b ∨
      (touched s (anchor :: (MemberID <$> ms)) a ∧ touched s (anchor :: (MemberID <$> ms)) b))).
Proof.
  rewrite newState_ids. intros [Hv _]%steps_extend Hc; [|apply new_valid].
  destruct (attach_cases s anchor ms) as [E|(Hne & Ha & Hms & E)];
    rewrite E in Hc; injection Hc as <- <-.
  - split_and!; [|done|done]. split; [done|]. intros (Hne & Ha & Hms).
    unfold Attach in E. destruct ms as [|m0 ms]; [done|].
    rewrite Ha, forallb_intro in E; [done|]. intros m (-> & Hm & ->)%Hms.
    by rewrite bool_decide_eq_false_2.
  - destruct (takes_spec s anchor ms Hv Ha) as (_ & _ & Hr & Hcl & Hg); [naive_solver|].
    assert (anchor ∉ MemberID <$> ms) as Hnin.
    { intros (m & -> & Hm)%list_elem_of_fmap. by apply Hms in Hm as (_ & ? & _). }
    split_and!; [done|done|]. intros _. split_and!; [| |done|done].
    + apply bool_decide_ext. rewrite Hcl. set_solver.
    + rewrite Hr. destruct (last _) as [m|] eqn:El; [|done].
      apply last_Some_elem_of, list_elem_of_filter in El as [<- Hm].
      destruct Hnin. by apply list_elem_of_fmap_2.
Qed.

Lemma attach_adds_to_the_anchor_witness :
  let s := (Claim (newState posting3) [mem "b" TRADE_ASSET; mem "c" TRADE_CASH]).1 in
  let s' := (Attach s "c" [mem "a" EXPENSE]).1 in
  st_resolved s' !! "c" = Some TRADE_CASH ∧ st_claimed s' = {["a"]} ∪ st_claimed s.
Proof.
  intros s s'.
  destruct (attach_adds_to_the_anchor posting3 s "c" [mem "a" EXPENSE] s' true
    ltac:(apply rtc_once, step_claim) eq_refl) as (_ & _ & H).
  destruct (H eq_refl) as (_ & Hr & Hc & _). split.
  - exact Hr.
  - rewrite Hc. simpl. set_solver.
Defined.

(** ** Runs of operations *)

Inductive op :=
  | OpTaken (id : string)
  | OpGroup (id : string)
  | OpClaim (ms : list Member)
  | OpAttach (anchor : string) (ms : list Member).

Definition run_op {S} `{GroupStore S} (o : op) (s : S) : S * (bool + string) :=
  match o with
  | OpTaken id => (s, inl (gs_taken s id))
  | OpGroup id => let '(s', g) := gs_group s id in (s', inr g)
  | OpClaim ms => let '(s', ok) := gs_claim s ms in (s', inl ok)
  | OpAttach a ms => let '(s', ok) := gs_attach s a ms in (s', inl ok)
  end.

Fixpoint run {S} `{GroupStore S} (os : list op) (s : S) : S * list (bool + string) :=
  match os with
  | [] => (s, [])
  | o :: os' =>
      let '(s1, a) := run_op o s in
      let '(s2, l) := run os' s1 in
      (s2, a :: l)
  end.

Lemma run_sim {S T} `{GroupStore S, GroupStore T} (R : S → T → Prop) `{!GroupSim R} os s t :
  R s t → R (run os s).1 (run os t).1 ∧ (run os s).2 = (run os t).2.
Proof.
  revert s t. induction os as [|o os IH]; intros s t HR; simpl; [done|].
  assert (R (run_op o s).1 (run_op o t).1 ∧ (run_op o s).2 = (run_op o t).2) as [HR' E].
  { destruct o; simpl.
    - by rewrite (sim_taken _ _ _ HR).
    - pose proof (sim_group _ _ id HR). destruct (gs_group s id), (gs_group t id). naive_solver.
    - pose proof (sim_claim _ _ ms HR). destruct (gs_claim s ms), (gs_claim t ms). naive_solver.
    - pose proof (sim_attach _ _ anchor ms HR).
      destruct (gs_attach s anchor ms), (gs_attach t anchor ms). naive_solver. }
  destruct (run_op o s), (run_op o t). simpl in *. subst.
  specialize (IH _ _ HR'). destruct (run os _), (run os _). naive_solver.
Qed.

(** C12: the union-find structure implements its specification.  Whatever sequence
    of queries, claims and attachments is put to the state of a neighbourhood, it
    answers as the map from each posting to the lowest id of its group does, and
    the groups read out at the end are that map's. *)
Theorem union_find_refines {D} (ps : list (GroupingPosting D)) os :
  (run os (newState ps)).2 = (run os (pnew (ID <$> ps))).2 ∧
  groups (run os (newState ps)).1 ps = groups (run os (pnew (ID <$> ps))).1 ps.
Proof.
  rewrite newState_ids.
  destruct (run_sim (refines (list_to_set (ID <$> ps))) os _ _ (refines_new (ID <$> ps))) as [HR E].
  split; [done|]. eapply groups_refines; [done|].
  intros p Hp. apply elem_of_list_to_set. by apply list_elem_of_fmap_2.
Qed.
End GroupState.
