(* ===== verification/Grouping.v ===== *)
(** * The grouping engine's interfaces and [Partition]

    server/grouping/grouping.go: the [Rule] interface, [Opts], [Partition] and
    [distinct]; and the reads a rule may make, [TokenQuery], [DateQuery],
    [OrdinalQuery] and [GroupingReader] of server/db/db.go.

    A rule is a record: its name, its precedence, [Expand], which asks a reader, and
    [Apply], which is written against [GroupStore] so that it can only look at a
    state and claim from it.  [RuleSim] and [RuleOrder] are what the engine needs of
    a rule; each rule's file proves them of it, and [partition_perm] and
    [partition_ids] follow here for any list of such rules. *)

From S2P Require Import Prelude Decimal TxType Posting GroupState.

Module Grouping.
Import TxType Posting GroupState.

Record Opts {D : Type} := { Money : D; ConsiderationBand : D }.
#[global] Arguments Opts : clear implicits.

Definition DefaultOpts {D} `{Decimal D} : Opts D := {|
  Money := dec_new 5 (-3);
  ConsiderationBand := dec_new 75 (-4);
|}.

(** ** Reads *)

Record TokenQuery := {
  tq_Broker : Broker;
  tq_Account : string;
  tq_AnyAccount : bool;
  tq_Label : string;
  tq_Token : string;
}.

Record DateQuery := {
  dq_Broker : Broker;
  dq_Account : string;
  dq_From : Z;
  dq_Before : Z;
}.

Record OrdinalQuery := {
  oq_Broker : Broker;
  oq_Account : string;
  oq_Label : string;
  oq_Low : Z;
  oq_High : Z;
}.

#[export] Instance TokenQuery_eq_dec : EqDecision TokenQuery.
Proof. solve_decision. Defined.
#[export] Instance DateQuery_eq_dec : EqDecision DateQuery.
Proof. solve_decision. Defined.
#[export] Instance OrdinalQuery_eq_dec : EqDecision OrdinalQuery.
Proof. solve_decision. Defined.

(** A read that fails returns [None]. *)
Record GroupingReader {D : Type} := {
  PostingsByToken : string → list TokenQuery → list string → option (list (GroupingPosting D));
  PostingsByDates : string → list DateQuery → list string → option (list (GroupingPosting D));
  PostingsByOrdinals : string → list OrdinalQuery → list string → option (list (GroupingPosting D));
}.
#[global] Arguments GroupingReader : clear implicits.

(** [distinct]: the first occurrence of each value, in order. *)
Fixpoint distinct_loop {T} `{EqDecision T} (seen : list T) (l : list T) : list T :=
  match l with
  | [] => []
  | v :: l' => if decide (v ∈ seen) then distinct_loop seen l' else v :: distinct_loop (v :: seen) l'
  end.

Definition distinct {T} `{EqDecision T} (l : list T) : list T := distinct_loop [] l.

Lemma elem_of_distinct_loop {T} `{EqDecision T} (seen l : list T) x :
  x ∈ distinct_loop seen l ↔ x ∈ l ∧ x ∉ seen.
Proof.
  revert seen. induction l as [|v l IH]; intros seen; simpl; [set_solver|].
  case_decide; [rewrite IH; set_solver|].
  rewrite elem_of_cons, IH. destruct (decide (x = v)); set_solver.
Qed.

Lemma elem_of_distinct {T} `{EqDecision T} (l : list T) x : x ∈ distinct l ↔ x ∈ l.
Proof. unfold distinct. rewrite elem_of_distinct_loop. set_solver. Qed.

Lemma NoDup_distinct {T} `{EqDecision T} (l : list T) : NoDup (distinct l).
Proof.
  unfold distinct. generalize (@nil T). induction l as [|v l IH]; intros seen; simpl; [constructor|].
  case_decide; [apply IH|]. constructor; [|apply IH]. rewrite elem_of_distinct_loop. set_solver.
Qed.

(** ** Rules *)

Record Rule {D : Type} := {
  Name : string;
  Precedence : Z;
  Expand : string → list (GroupingPosting D) → GroupingReader D → list string →
    option (list (GroupingPosting D));
  Apply : ∀ {S} `{GroupStore S}, list (GroupingPosting D) → S → Opts D → S;
}.
#[global] Arguments Rule : clear implicits.
#[global] Arguments Apply {_} _ {_ _}.

Definition rule_less {D} (a b : Rule D) : bool :=
  if negb (Precedence a =? Precedence b)%Z then (Precedence b <? Precedence a)%Z
  else String.ltb (Name a) (Name b).

(** [Partition], against any store; the server runs it on [State]. *)
Definition partition_on {S D} `{EngineStore S} (ps : list (GroupingPosting D))
    (rules : list (Rule D)) (opts : Opts D) : list Group :=
  let ordered := go_sort rule_less rules in
  let st := foldl (λ st r, Apply r ps st opts) (es_new (S:=S) (ID <$> ps)) ordered in
  groups st ps.

Definition Partition {D} (ps : list (GroupingPosting D)) (rules : list (Rule D))
    (opts : Opts D) : list Group := partition_on (S:=State) ps rules opts.

(** ** What the engine asks of a rule *)

(** A rule that only uses the operations of the interface cannot tell two stores
    apart that answer alike. *)
Definition RuleSim {D} (r : Rule D) : Prop :=
  ∀ S T `(GroupStore S) `(GroupStore T) (R : S → T → Prop) `(!GroupSim R) ps opts s t,
    R s t → R (Apply r ps s opts) (Apply r ps t opts).

(** Ids are the store's, and never empty. *)
Definition named {D} (ps : list (GroupingPosting D)) : Prop := ∀ p, p ∈ ps → ID p ≠ EmptyString.

Lemma named_perm {D} (ps ps' : list (GroupingPosting D)) : ps ≡ₚ ps' → named ps → named ps'.
Proof. intros Hp Hn p. rewrite <- Hp. apply Hn. Qed.

(** A rule claims the same whatever order the postings are in. *)
Definition RuleOrder {D} (r : Rule D) : Prop :=
  ∀ (ps ps' : list (GroupingPosting D)) opts (t : PState),
    distinct_ids ps → named ps → ps ≡ₚ ps' → Apply r ps t opts = Apply r ps' t opts.

Section partition.
Context {D : Type}.
Implicit Types (ps : list (GroupingPosting D)) (rules : list (Rule D)).

Lemma apply_all_sim {S T} `{GroupStore S, GroupStore T} (R : S → T → Prop) `{!GroupSim R}
    rules ps opts s t :
  (∀ r, r ∈ rules → RuleSim r) → R s t →
  R (foldl (λ st r, Apply r ps st opts) s rules) (foldl (λ st r, Apply r ps st opts) t rules).
Proof.
  intros Hsim HR. apply foldl_rel; [done|]. intros s' t' r Hr HR'. by apply Hsim.
Qed.

Definition run_rules {S} `{EngineStore S} ps rules (opts : Opts D) : S :=
  foldl (λ st r, Apply r ps st opts) (es_new (ID <$> ps)) (go_sort rule_less rules).

Lemma run_rules_refines rules ps opts :
  (∀ r, r ∈ rules → RuleSim r) →
  refines (list_to_set (ID <$> ps)) (run_rules ps rules opts) (run_rules ps rules opts).
Proof.
  intros Hsim. apply (apply_all_sim (refines (list_to_set (ID <$> ps)))); [|apply refines_new].
  intros r. rewrite elem_of_go_sort. apply Hsim.
Qed.

(** [Partition] computes what the abstract state computes. *)
Lemma partition_refines rules ps opts :
  (∀ r, r ∈ rules → RuleSim r) →
  Partition ps rules opts = partition_on (S:=PState) ps rules opts.
Proof.
  intros Hsim. unfold Partition, partition_on.
  eapply groups_refines; [by apply run_rules_refines|].
  intros p Hp. apply elem_of_list_to_set. by apply list_elem_of_fmap_2.
Qed.

Lemma pnew_perm ids ids' : ids ≡ₚ ids' → pnew ids = pnew ids'.
Proof.
  intros Hp. unfold pnew. f_equal. apply map_eq. intros k. rewrite !lookup_new.
  destruct (decide (k ∈ ids)) as [Hk|Hk]; rewrite Hp in Hk;
    [by rewrite decide_True|by rewrite decide_False].
Qed.

Lemma partition_perm rules ps ps' opts :
  (∀ r, r ∈ rules → RuleSim r ∧ RuleOrder r) → distinct_ids ps → named ps → ps ≡ₚ ps' →
  Partition ps rules opts = Partition ps' rules opts.
Proof.
  intros Hrules Hnd Hn Hp. rewrite !partition_refines by naive_solver.
  unfold partition_on. cbn [es_new pstate_engine].
  rewrite (pnew_perm (ID <$> ps) (ID <$> ps')) by (by rewrite Hp).
  rewrite <- (groups_perm _ ps ps') by done. f_equal.
  apply foldl_ext_in. intros t r Hr. rewrite elem_of_go_sort in Hr.
  apply Hrules in Hr as [_ Hr]. by apply Hr.
Qed.

(** Every posting is in exactly one derived group, and there is nothing else in one. *)
Lemma partition_ids rules ps opts :
  (∀ r, r ∈ rules → RuleSim r) →
  (MemberID <$> (Partition ps rules opts ≫= Members)) ≡ₚ (ID <$> ps).
Proof.
  intros Hsim. rewrite partition_refines by done. unfold partition_on.
  rewrite groups_concat. by rewrite <- list_fmap_compose.
Qed.

Lemma partition_nonempty rules ps opts g :
  (∀ r, r ∈ rules → RuleSim r) → g ∈ Partition ps rules opts → Members g ≠ [].
Proof.
  intros Hsim. rewrite partition_refines by done.
  intros (p & Hp & Hg)%elem_of_groups E. rewrite E in Hg.
  apply (not_elem_of_nil (member_of (run_rules ps rules opts) p)).
  rewrite Hg, elem_of_go_sort. apply list_elem_of_fmap_2, list_elem_of_filter. done.
Qed.

Lemma partition_sorted rules ps opts g :
  (∀ r, r ∈ rules → RuleSim r) → distinct_ids ps → g ∈ Partition ps rules opts →
  StronglySorted (λ a b, String.ltb a b = true) (MemberID <$> Members g).
Proof.
  intros Hsim Hnd. rewrite partition_refines by done. by apply groups_members_sorted.
Qed.
End partition.

(** ** What a rule can do to the state it runs on

    A rule sees only the interface, so what every step preserves every rule
    preserves: its run is a sequence of steps. *)

Definition tracked (s0 s t : State) : Prop := s = t ∧ rtc step s0 s.

#[export] Instance tracked_sim s0 : GroupSim (tracked s0).
Proof.
  split; unfold tracked.
  - by intros s t id [-> _].
  - intros s t id [-> Hs]. split; [split; [done|]|done].
    eapply rtc_r; [done|]. apply step_find.
  - intros s t ms [-> Hs]. split; [split; [done|]|done].
    eapply rtc_r; [done|]. apply step_claim.
  - intros s t a ms [-> Hs]. split; [split; [done|]|done].
    eapply rtc_r; [done|]. apply step_attach.
Qed.

Lemma rule_steps {D} (r : Rule D) ps opts (s : State) : RuleSim r → rtc step s (Apply r ps s opts).
Proof.
  intros Hr. destruct (Hr _ _ _ _ (tracked s) _ ps opts s s) as [_ H]; [|done].
  split; [done|apply rtc_refl].
Qed.

Lemma rules_steps {D} (rules : list (Rule D)) ps opts (s : State) :
  (∀ r, r ∈ rules → RuleSim r) → rtc step s (foldl (λ st r, Apply r ps st opts) s rules).
Proof.
  intros Hr. apply (foldl_inv (λ s', rtc step s s')); [apply rtc_refl|].
  intros s' r Hin Hs. etransitivity; [done|]. by apply rule_steps, Hr.
Qed.

Lemma rule_extends {D} (r : Rule D) ps opts (s : State) :
  RuleSim r → valid s → valid (Apply r ps s opts) ∧ extends s (Apply r ps s opts).
Proof. intros Hr Hv. apply steps_extend; [done|]. by apply rule_steps. Qed.

(** Two postings are together in what is read out of a state exactly when they are
    together in the state. *)
Lemma read_out_together {D} X s t (ps : list (GroupingPosting D)) p q :
  refines X s t → (∀ x, x ∈ ps → ID x ∈ X) → distinct_ids ps → p ∈ ps → q ∈ ps →
  same_group s (ID p) (ID q) ↔
  ∃ g, g ∈ groups s ps ∧ ID p ∈ MemberID <$> Members g ∧ ID q ∈ MemberID <$> Members g.
Proof.
  intros Hr HX Hnd Hp Hq. rewrite (groups_refines X s t ps Hr HX).
  assert (Hmem : ∀ x y, x ∈ ps → y ∈ ps → ID y ∈ MemberID <$> go_sort member_less
      (member_of t <$> filter (λ z, prep t (ID z) = prep t (ID x)) ps) ↔
      prep t (ID y) = prep t (ID x)).
  { intros x y Hx Hy. rewrite go_sort_perm, <- list_fmap_compose, list_elem_of_fmap. simpl.
    setoid_rewrite list_elem_of_filter. split; [|eauto].
    intros (z & E & Hz & Hzin). by rewrite (distinct_ids_inj ps y z). }
  assert (Hname : ∀ x, x ∈ ps → Root (st_parent s) (ID x) (prep t (ID x))).
  { intros x Hx. pose proof (HX x Hx) as Hin. rewrite <- (ref_pdom _ _ _ Hr) in Hin.
    apply elem_of_dom in Hin as [r H1]. unfold prep. rewrite H1. by eapply ref_root. }
  split.
  - intros (r & Hrp & Hrq). exists {| Members := go_sort member_less (member_of t <$>
      filter (λ x, prep t (ID x) = prep t (ID p)) ps) |}. split_and!.
    + apply elem_of_groups. eauto.
    + simpl. by apply Hmem.
    + simpl. apply Hmem; [done..|]. rewrite <- (root_det _ _ _ _ Hrp (Hname p Hp)).
      symmetry. by eapply root_det, Hname.
  - intros (g & (x & Hx & Hg)%elem_of_groups & H1 & H2). rewrite Hg in H1, H2.
    apply Hmem in H1, H2; [|done..]. exists (prep t (ID x)).
    split; [rewrite <- H1|rewrite <- H2]; auto.
Qed.
End Grouping.
