(* ===== verification/Exact.v ===== *)
(** * Rules that compare tokens

    server/grouping/exact.go and server/grouping/attaches.go: [Exact] groups the
    postings that carry one token, [Attaches] adds a posting to the group of the
    posting its source named.  [tokenKey] and [keyFor] say what is comparable and
    are shared by the two. *)

From S2P Require Import Prelude Decimal TxType Posting GroupState Grouping.

Module Exact.
Import TxType Posting GroupState Grouping.

Definition ExactPrecedence : Z := 1000.

(** ** Comparability *)

Record tokenKey := {
  tk_label : string;
  tk_token : string;
  tk_scope : string;
  tk_within : string;
}.

#[export] Instance tokenKey_eq_dec : EqDecision tokenKey.
Proof. solve_decision. Defined.

Definition tk_tuple (k : tokenKey) : string * (string * (string * string)) :=
  (tk_label k, (tk_token k, (tk_scope k, tk_within k))).

Definition tk_of (t : string * (string * (string * string))) : tokenKey :=
  {| tk_label := t.1; tk_token := t.2.1; tk_scope := t.2.2.1; tk_within := t.2.2.2 |}.

Lemma tk_of_tuple k : tk_of (tk_tuple k) = k.
Proof. by destruct k. Qed.

#[export] Instance tokenKey_countable : Countable tokenKey := inj_countable' tk_tuple tk_of tk_of_tuple.

Definition tokenKey_less (k o : tokenKey) : bool :=
  if negb (bool_decide (tk_label k = tk_label o)) then String.ltb (tk_label k) (tk_label o)
  else if negb (bool_decide (tk_token k = tk_token o)) then String.ltb (tk_token k) (tk_token o)
  else if negb (bool_decide (tk_scope k = tk_scope o)) then String.ltb (tk_scope k) (tk_scope o)
  else String.ltb (tk_within k) (tk_within o).

Definition brokerKey (b : Broker) : string := Broker_String b.

Definition nul : string := String Ascii.zero EmptyString.

Definition keyFor {D} (p : GroupingPosting D) (label token scope : string) : tokenKey := {|
  tk_label := label;
  tk_token := token;
  tk_scope := scope;
  tk_within :=
    if decide (scope = ScopeFile) then JobID p
    else if decide (scope = ScopeAccount) then brokerKey (PBroker p) +:+ nul +:+ Account p
    else if decide (scope = ScopeBroker) then brokerKey (PBroker p)
    else EmptyString;
|}.

Definition corr_key {D} (p : GroupingPosting D) (c : Correlation) : tokenKey :=
  keyFor p (Label c) (Token c) (Scope c).

(** ** [Exact] *)

Fixpoint dedupe_loop {D} (seen : list string) (ps : list (GroupingPosting D))
    : list (GroupingPosting D) :=
  match ps with
  | [] => []
  | p :: ps' =>
      if decide (ID p ∈ seen) then dedupe_loop seen ps'
      else p :: dedupe_loop (ID p :: seen) ps'
  end.

Definition dedupe {D} (ps : list (GroupingPosting D)) : list (GroupingPosting D) :=
  sort_by_id (dedupe_loop [] ps).

(** The queries [Exact] and [Attaches] make: who carries each token declared under
    the match kind [kind]. *)
Definition posting_token_queries {D} (kind : string) (p : GroupingPosting D) : list TokenQuery :=
  (λ c, {| tq_Broker := PBroker p; tq_Account := Account p;
           tq_AnyAccount := negb (bool_decide (Scope c = ScopeAccount));
           tq_Label := Label c; tq_Token := Token c |})
  <$> filter (λ c, Declares c kind = true) (Correlations p).

Definition token_queries {D} (kind : string) (ps : list (GroupingPosting D)) : list TokenQuery :=
  ps ≫= posting_token_queries kind.

Definition expand_by_token {D} (kind : string) (userID : string) (ps : list (GroupingPosting D))
    (r : GroupingReader D) (held : list string) : option (list (GroupingPosting D)) :=
  match token_queries kind ps with
  | [] => Some []
  | qs => PostingsByToken r userID (distinct qs) held
  end.

Definition Exact_Expand {D} := @expand_by_token D MatchExact.

(** The (key, posting) pairs the first loop of [Apply] files. *)
Definition token_pairs {S D} `{GroupStore S} (st : S) (ps : list (GroupingPosting D))
    : list (tokenKey * GroupingPosting D) :=
  ps ≫= λ p,
    if gs_taken st (ID p) then []
    else (λ c, (corr_key p c, p)) <$> filter (λ c, Declares c MatchExact = true) (Correlations p).

Definition declared_member {D} (p : GroupingPosting D) : Member :=
  {| MemberID := ID p; MemberResolved := Resolve (Declared p) |}.

Definition Exact_Apply {D S} `{GroupStore S} (ps : list (GroupingPosting D)) (st : S)
    (_ : Opts D) : S :=
  let byToken := index_by (token_pairs st ps) in
  let keys := go_sort tokenKey_less (keys_of byToken) in
  foldl (λ st k,
    let group := dedupe (at_key byToken k) in
    if (length group <? 2)%nat then st
    else (gs_claim st (declared_member <$> group)).1) st keys.

Definition Exact {D} : Rule D := {|
  Name := "exact";
  Precedence := ExactPrecedence;
  Expand := Exact_Expand;
  Apply := @Exact_Apply D;
|}.

(** ** [Attaches] *)

Definition AttachesPrecedence : Z := 500.

Definition Attaches_Expand {D} := @expand_by_token D MatchAttaches.

Fixpoint anchor_loop {S} `{GroupStore S} (st : S) (ids : list string)
    (bearerID anchor group : string) : S * option string :=
  match ids with
  | [] => (st, if decide (anchor = EmptyString) then None else Some anchor)
  | id :: ids' =>
      if decide (id = bearerID) then anchor_loop st ids' bearerID anchor group
      else
        let '(st', g) := gs_group st id in
        if decide (anchor = EmptyString) then anchor_loop st' ids' bearerID id g
        else if decide (g ≠ group) then (st', None)
        else if String.ltb id anchor then anchor_loop st' ids' bearerID id group
        else anchor_loop st' ids' bearerID anchor group
  end.

Definition anchorOf {S} `{GroupStore S} (carrierIDs : list string) (bearerID : string) (st : S)
    : S * option string := anchor_loop st carrierIDs bearerID EmptyString EmptyString.

Definition carrier_pairs {D} (ps : list (GroupingPosting D)) : list (tokenKey * string) :=
  ps ≫= λ p,
    (λ c, (corr_key p c, ID p)) <$> filter (λ c, Declares c MatchExact = true) (Correlations p).

(** The inner loop over a bearer's correlations, left at the first attachment
    that is taken. *)
Fixpoint attach_loop {S D} `{GroupStore S} (carriers : gmap tokenKey (list string))
    (p : GroupingPosting D) (cs : list Correlation) (st : S) : S :=
  match cs with
  | [] => st
  | c :: cs' =>
      if negb (Declares c MatchAttaches) then attach_loop carriers p cs' st
      else
        match anchorOf (at_key carriers (corr_key p c)) (ID p) st with
        | (st1, None) => attach_loop carriers p cs' st1
        | (st1, Some anchor) =>
            let '(st2, ok) := gs_attach st1 anchor [declared_member p] in
            if ok then st2 else attach_loop carriers p cs' st2
        end
  end.

Definition Attaches_Apply {D S} `{GroupStore S} (ps : list (GroupingPosting D)) (st : S)
    (_ : Opts D) : S :=
  let carriers := index_by (carrier_pairs ps) in
  let bearers := sort_by_id (filter (λ p, gs_taken st (ID p) = false) ps) in
  foldl (λ st p, attach_loop carriers p (Correlations p) st) st bearers.

Definition Attaches {D} : Rule D := {|
  Name := "attaches";
  Precedence := AttachesPrecedence;
  Expand := Attaches_Expand;
  Apply := @Attaches_Apply D;
|}.

(** ** Order *)

Definition tokenKey_cmp : tokenKey → tokenKey → comparison :=
  cmp_on tk_tuple (cmp_lex String.compare (cmp_lex String.compare
    (cmp_lex String.compare String.compare))).

Lemma ltb_lex a b (c : comparison) (rest : bool) :
  rest = match c with Lt => true | _ => false end →
  (if negb (bool_decide (a = b)) then String.ltb a b else rest)
  = match match String.compare a b with Eq => c | r => r end with Lt => true | _ => false end.
Proof.
  intros ->. unfold String.ltb. case_bool_decide as Hab; simpl.
  - subst. by rewrite (cmp_refl String.compare).
  - destruct (String.compare a b) eqn:E; try done. by apply String.compare_eq_iff in E.
Qed.

Lemma tokenKey_less_cmp k o : tokenKey_less k o = less_of tokenKey_cmp k o.
Proof.
  unfold tokenKey_less, less_of, tokenKey_cmp, cmp_on, cmp_lex, tk_tuple. simpl.
  repeat apply ltb_lex. apply string_ltb_less_of.
Qed.

Lemma tokenKey_cmp_eq k o : tokenKey_cmp k o = Eq → k = o.
Proof.
  unfold tokenKey_cmp, cmp_on, cmp_lex, tk_tuple. destruct k as [a b c d], o as [a' b' c' d'].
  cbn [tk_label tk_token tk_scope tk_within fst snd].
  destruct (String.compare a a') eqn:Ea; [|done..].
  destruct (String.compare b b') eqn:Eb; [|done..].
  destruct (String.compare c c') eqn:Ec; [|done..].
  intros Ed. apply String.compare_eq_iff in Ea, Eb, Ec, Ed. by subst.
Qed.

Section dedupe.
Context {D : Type}.
Implicit Types (ps : list (GroupingPosting D)).

(** Postings drawn, perhaps repeatedly, from ones with distinct ids. *)
Definition id_inj ps : Prop := ∀ p q, p ∈ ps → q ∈ ps → ID p = ID q → p = q.

Lemma elem_of_dedupe_loop seen ps p :
  id_inj ps → p ∈ dedupe_loop seen ps ↔ p ∈ ps ∧ ID p ∉ seen.
Proof.
  revert seen. induction ps as [|q ps IH]; intros seen Hinj; simpl; [set_solver|].
  assert (id_inj ps) as Hinj' by (intros x y Hx Hy; apply Hinj; by right).
  case_decide as Hq.
  - rewrite IH by done. set_solver.
  - rewrite !elem_of_cons, IH, not_elem_of_cons by done. split; [naive_solver|].
    intros [[->|Hp] Hseen]; [by left|].
    destruct (decide (ID p = ID q)) as [E|]; [|naive_solver].
    left. apply Hinj; [by right|by left|done].
Qed.

Lemma NoDup_dedupe_loop seen ps :
  NoDup (ID <$> dedupe_loop seen ps) ∧ ∀ id, id ∈ ID <$> dedupe_loop seen ps → id ∉ seen.
Proof.
  revert seen. induction ps as [|q ps IH]; intros seen; simpl; [split; [constructor|set_solver]|].
  case_decide as Hq; [apply IH|]. destruct (IH (ID q :: seen)) as [Hnd Hseen]. csimpl. split.
  - constructor; [|done]. intros Hin%Hseen. set_solver.
  - intros id. rewrite elem_of_cons. intros [->|Hin%Hseen]; set_solver.
Qed.

Lemma elem_of_dedupe ps p : id_inj ps → p ∈ dedupe ps ↔ p ∈ ps.
Proof.
  intros. unfold dedupe. rewrite sort_by_id_perm, elem_of_dedupe_loop by done. set_solver.
Qed.

Lemma dedupe_distinct ps : distinct_ids (dedupe ps).
Proof.
  unfold distinct_ids, dedupe. rewrite sort_by_id_perm. apply NoDup_dedupe_loop.
Qed.

Lemma dedupe_perm ps ps' : id_inj ps → ps ≡ₚ ps' → dedupe ps = dedupe ps'.
Proof.
  intros Hinj Hp. assert (id_inj ps') as Hinj' by (intros x y; rewrite <- Hp; apply Hinj).
  unfold dedupe. apply sort_by_id_unique; [apply NoDup_dedupe_loop|].
  apply NoDup_Permutation.
  - eapply NoDup_fmap_1, NoDup_dedupe_loop.
  - eapply NoDup_fmap_1, NoDup_dedupe_loop.
  - intros p. by rewrite !elem_of_dedupe_loop, Hp.
Qed.

Lemma id_inj_sub ps ps' : distinct_ids ps → (∀ p, p ∈ ps' → p ∈ ps) → id_inj ps'.
Proof. intros Hnd Hsub p q Hp Hq. apply (distinct_ids_inj ps); auto. Qed.
End dedupe.

(** ** [Exact]: simulation and order *)

Section exact.
Context {D : Type}.
Implicit Types (ps : list (GroupingPosting D)).

Lemma elem_of_token_pairs {S} `{GroupStore S} (st : S) ps k p :
  (k, p) ∈ token_pairs st ps ↔ p ∈ ps ∧ gs_taken st (ID p) = false ∧
    ∃ c, c ∈ Correlations p ∧ Declares c MatchExact = true ∧ k = corr_key p c.
Proof.
  unfold token_pairs. rewrite elem_of_bind. split.
  - intros (q & Hin & Hq). destruct (gs_taken st (ID q)) eqn:E; [by apply elem_of_nil in Hin|].
    apply list_elem_of_fmap in Hin as (c & [= -> ->] & [? ?]%list_elem_of_filter). eauto 6.
  - intros (Hp & E & c & Hc & Hd & ->). exists p. rewrite E. split; [|done].
    apply list_elem_of_fmap. exists c. split; [done|]. by apply list_elem_of_filter.
Qed.

Lemma token_group_inj {S} `{GroupStore S} (st : S) ps k :
  distinct_ids ps → id_inj (sel k (token_pairs st ps)).
Proof.
  intros Hnd. apply (id_inj_sub ps); [done|].
  intros p Hp%elem_of_sel%elem_of_token_pairs. tauto.
Qed.

Lemma token_pairs_sim {S T} `{GroupStore S, GroupStore T} (R : S → T → Prop) `{!GroupSim R} ps s t :
  R s t → token_pairs s ps = token_pairs t ps.
Proof.
  intros HR. apply list_bind_ext; [|done]. intros p. by rewrite (sim_taken _ _ _ HR).
Qed.

Lemma exact_sim : RuleSim (@Exact D).
Proof.
  intros S T ? ? R HS ps opts s t HR. simpl. unfold Exact_Apply.
  rewrite (token_pairs_sim R ps s t HR).
  apply foldl_rel; [done|]. intros s' t' k _ HR'. case_match; [done|].
  by apply (sim_claim_state R).
Qed.

Lemma exact_order : RuleOrder (@Exact D).
Proof.
  intros ps ps' opts t Hnd Hn Hp. simpl. unfold Exact_Apply.
  assert (token_pairs t ps ≡ₚ token_pairs t ps') as Hpairs by (apply bind_perm; done).
  rewrite (go_sort_unique _ tokenKey_cmp tokenKey_less_cmp
    (keys_of (index_by (token_pairs t ps))) (keys_of (index_by (token_pairs t ps')))).
  - apply foldl_ext_in. intros st k _. rewrite !at_key_index_by.
    rewrite (dedupe_perm _ (sel k (token_pairs t ps'))); [done| |by apply sel_perm].
    by apply token_group_inj.
  - intros x y _ _. apply tokenKey_cmp_eq.
  - by apply keys_index_by_perm.
Qed.
End exact.

(** ** [Attaches]: simulation and order *)

Section attaches.
Context {D : Type}.
Implicit Types (ps : list (GroupingPosting D)).

Lemma anchor_loop_sim {S T} `{GroupStore S, GroupStore T} (R : S → T → Prop) `{!GroupSim R}
    ids b a g s t :
  R s t → R (anchor_loop s ids b a g).1 (anchor_loop t ids b a g).1 ∧
    (anchor_loop s ids b a g).2 = (anchor_loop t ids b a g).2.
Proof.
  revert a g s t. induction ids as [|id ids IH]; intros a g s t HR; simpl; [done|].
  case_decide; [auto|]. pose proof (sim_group _ _ id HR) as HG.
  destruct (gs_group s id) as [s' g1], (gs_group t id) as [t' g2]. simpl in HG.
  destruct HG as [HR' ->]. repeat case_match; auto.
Qed.

Lemma attach_loop_sim {S T} `{GroupStore S, GroupStore T} (R : S → T → Prop) `{!GroupSim R}
    carriers (p : GroupingPosting D) cs s t :
  R s t → R (attach_loop carriers p cs s) (attach_loop carriers p cs t).
Proof.
  revert s t. induction cs as [|c cs IH]; intros s t HR; simpl; [done|].
  destruct (negb _); [auto|]. unfold anchorOf.
  pose proof (anchor_loop_sim R (at_key carriers (corr_key p c)) (ID p) EmptyString EmptyString s t HR)
    as HA.
  destruct (anchor_loop s _ _ _ _) as [s1 o1], (anchor_loop t _ _ _ _) as [t1 o2]. simpl in HA.
  destruct HA as [HR' ->]. destruct o2 as [anchor|]; [|auto].
  pose proof (sim_attach _ _ anchor [declared_member p] HR') as HA.
  destruct (gs_attach s1 _ _) as [s2 ok1], (gs_attach t1 _ _) as [t2 ok2]. simpl in HA.
  destruct HA as [HR'' ->]. destruct ok2; auto.
Qed.

Lemma attaches_sim : RuleSim (@Attaches D).
Proof.
  intros S T ? ? R HS ps opts s t HR. simpl. unfold Attaches_Apply.
  rewrite (sim_free R ID ps s t HR).
  apply foldl_rel; [done|]. intros s' t' p _ HR'. by apply attach_loop_sim.
Qed.

(** The anchor an unambiguous pointer names: the lowest of the carriers, all of
    them in one group. *)
Definition anchor_good (t : PState) (F : list string) (a : string) : Prop :=
  a ∈ F ∧ ∀ x, x ∈ F → prep t x = prep t a ∧ (x = a ∨ String.ltb a x = true).

Lemma anchor_good_drop t F a0 x a :
  prep t x = prep t a0 → a0 = x ∨ String.ltb a0 x = true →
  anchor_good t (a0 :: F) a ↔ anchor_good t (a0 :: x :: F) a.
Proof.
  intros Hg Hle. unfold anchor_good. split.
  - intros [Ha Hall]. split; [set_solver|].
    intros y [->|[->|Hy]%elem_of_cons]%elem_of_cons; [by apply Hall; left| |by apply Hall; right].
    destruct (Hall a0) as [H1 H2]; [left|]. rewrite Hg. split; [done|].
    destruct H2 as [->|H2]; destruct Hle as [->|Hle]; eauto using string_ltb_trans.
  - intros [Ha Hall]. split; [|intros y Hy; apply Hall; set_solver].
    destruct (Hall a0) as [_ H2]; [left|].
    apply elem_of_cons in Ha as [->|[->|Ha]%elem_of_cons]; [left| |by right].
    destruct H2 as [->|H2]; [left|]. destruct Hle as [->|Hle]; [left|].
    apply string_ltb_asym in H2. congruence.
Qed.

Lemma anchor_good_perm t F F' a : F ≡ₚ F' → anchor_good t F a ↔ anchor_good t F' a.
Proof. intros Hp. unfold anchor_good. by setoid_rewrite Hp. Qed.

Lemma anchor_loop_good t ids b a0 g0 :
  a0 ≠ EmptyString → g0 = prep t a0 → (∀ id, id ∈ ids → id ≠ EmptyString) →
  (anchor_loop t ids b a0 g0).1 = t ∧
  ∀ a, (anchor_loop t ids b a0 g0).2 = Some a ↔ anchor_good t (a0 :: filter (λ id, id ≠ b) ids) a.
Proof.
  intros Ha0 Hg0 Hne. subst g0. revert a0 Ha0. induction ids as [|id ids IH]; intros a0 Ha0; simpl.
  - rewrite decide_False by done. split; [done|]. intros a. split.
    + intros [= <-]. split; [left|]. intros x ->%list_elem_of_singleton. by split; [|left].
    + intros [->%list_elem_of_singleton _]. done.
  - assert (id ≠ EmptyString) as Hid by (apply Hne; left).
    specialize (IH (λ x H, Hne x (list_elem_of_further _ _ _ H))).
    rewrite filter_cons. case_decide as Hb.
    { rewrite decide_False by tauto. auto. }
    rewrite (decide_True (P:=id ≠ b)) by done. rewrite (decide_False (P:=a0 = EmptyString)) by done.
    case_decide as Hg.
    { split; [done|]. intros a. split; [done|]. intros [_ Hall].
      destruct (Hall a0) as [H1 _]; [left|]. destruct (Hall id) as [H2 _]; [right; left|]. congruence. }
    destruct (String.ltb id a0) eqn:Hlt.
    + rewrite <- Hg. destruct (IH id Hid) as [-> HIH]. split; [done|]. intros a. rewrite HIH.
      rewrite (anchor_good_perm _ (a0 :: id :: _) (id :: a0 :: filter (λ id, id ≠ b) ids)) by constructor.
      apply anchor_good_drop; [done|by right].
    + destruct (IH a0 Ha0) as [-> HIH]. split; [done|]. intros a. rewrite HIH.
      apply anchor_good_drop; [done|].
      destruct (decide (a0 = id)); [by left|right]. by apply string_ltb_total.
Qed.

Lemma option_ext {A} (o o' : option A) : (∀ a, o = Some a ↔ o' = Some a) → o = o'.
Proof. intros H. destruct o as [a|]; [symmetry; by apply H|]. destruct o' as [a|]; naive_solver. Qed.

(** Which anchor is found does not depend on the order of the carriers. *)
Lemma anchorOf_spec t ids b :
  (∀ id, id ∈ ids → id ≠ EmptyString) →
  (anchorOf ids b t).1 = t ∧
  ∀ a, (anchorOf ids b t).2 = Some a ↔ anchor_good t (filter (λ id, id ≠ b) ids) a.
Proof.
  intros Hne. unfold anchorOf. induction ids as [|id ids IH]; simpl.
  - split; [done|]. intros a. split; [done|]. intros [?%elem_of_nil _]. done.
  - rewrite filter_cons. case_decide as Hb.
    + rewrite decide_False by tauto. apply IH. intros. apply Hne. by right.
    + rewrite decide_True by done. apply anchor_loop_good; [apply Hne; left|done|].
      intros. apply Hne. by right.
Qed.

Lemma anchorOf_perm t ids ids' b :
  (∀ id, id ∈ ids → id ≠ EmptyString) → ids ≡ₚ ids' → anchorOf ids b t = anchorOf ids' b t.
Proof.
  intros Hne Hp. destruct (anchorOf_spec t ids b Hne) as [E1 H1].
  destruct (anchorOf_spec t ids' b) as [E2 H2]; [intros id; rewrite <- Hp; apply Hne|].
  destruct (anchorOf ids b t) as [s1 o1], (anchorOf ids' b t) as [s2 o2]. simpl in *. subst.
  f_equal. apply option_ext. intros a. rewrite H1, H2. apply anchor_good_perm. by rewrite Hp.
Qed.

Lemma attach_loop_ext carriers carriers' (p : GroupingPosting D) cs (t : PState) :
  (∀ k b (t : PState), anchorOf (at_key carriers k) b t = anchorOf (at_key carriers' k) b t) →
  attach_loop carriers p cs t = attach_loop carriers' p cs t.
Proof.
  intros Hc. revert t. induction cs as [|c cs IH]; intros t; cbn [attach_loop]; [done|].
  destruct (negb _); [auto|]. rewrite Hc.
  destruct (anchorOf _ _ t) as [t1 [anchor|]]; [|auto].
  destruct (gs_attach t1 _ _) as [t2 []]; auto.
Qed.

Lemma attaches_order : RuleOrder (@Attaches D).
Proof.
  intros ps ps' opts t Hnd Hn Hp. simpl. unfold Attaches_Apply.
  rewrite (sort_by_id_unique (filter (λ p, gs_taken t (ID p) = false) ps)
    (filter (λ p, gs_taken t (ID p) = false) ps')).
  - apply foldl_ext_in. intros st p _. apply attach_loop_ext. intros k b t'.
    rewrite !at_key_index_by. apply anchorOf_perm.
    + intros id Hid%elem_of_sel. unfold carrier_pairs in Hid.
      apply elem_of_bind in Hid as (q & Hin & Hq).
      apply list_elem_of_fmap in Hin as (c & [= _ ->] & _). by apply Hn.
    + apply sel_perm, bind_perm; done.
  - eapply distinct_ids_sub; [apply sublist_filter|done].
  - by rewrite Hp.
Qed.
End attaches.

(** ** What [Exact] groups *)

Section exact_complete.
Context {D : Type}.
Implicit Types (ps : list (GroupingPosting D)).

(** The keys a posting's own correlations file it under. *)
Definition exact_keys (p : GroupingPosting D) : list tokenKey :=
  corr_key p <$> filter (λ c, Declares c MatchExact = true) (Correlations p).

(** No posting is filed under two different keys. *)
Definition one_key ps : Prop :=
  ∀ p k k', p ∈ ps → k ∈ exact_keys p → k' ∈ exact_keys p → k = k'.

Lemma elem_of_exact_keys (p : GroupingPosting D) k :
  k ∈ exact_keys p ↔ ∃ c, c ∈ Correlations p ∧ Declares c MatchExact = true ∧ k = corr_key p c.
Proof.
  unfold exact_keys. rewrite list_elem_of_fmap. setoid_rewrite list_elem_of_filter. naive_solver.
Qed.

Lemma elem_of_token_group (st : State) ps k p :
  distinct_ids ps →
  p ∈ dedupe (at_key (index_by (token_pairs st ps)) k) ↔
  p ∈ ps ∧ Taken st (ID p) = false ∧ k ∈ exact_keys p.
Proof.
  intros Hnd. rewrite at_key_index_by, elem_of_dedupe by by apply token_group_inj.
  by rewrite elem_of_sel, elem_of_token_pairs, elem_of_exact_keys.
Qed.

Definition exact_claim (byToken : gmap tokenKey (list (GroupingPosting D))) (st : State)
    (k : tokenKey) : State :=
  let group := dedupe (at_key byToken k) in
  if (length group <? 2)%nat then st else (gs_claim st (declared_member <$> group)).1.

Lemma exact_claims_steps byToken keys st : rtc step st (foldl (exact_claim byToken) st keys).
Proof.
  apply (foldl_inv (λ s', rtc step st s')); [apply rtc_refl|].
  intros s' k _ Hs. unfold exact_claim. case_match; [done|].
  eapply rtc_r; [done|]. apply step_claim.
Qed.

Lemma exact_claim_claimed byToken st k id :
  valid st → id ∈ st_claimed (exact_claim byToken st k) →
  id ∈ st_claimed st ∨ id ∈ ID <$> dedupe (at_key byToken k).
Proof.
  intros Hv. unfold exact_claim. case_match; [by left|]. cbn [gs_claim state_store].
  destruct (claim_cases st (declared_member <$> dedupe (at_key byToken k)))
    as [->|(m0 & m1 & ms & E & Hms & ->)]; [by left|].
  destruct (takes_spec st (MemberID m0) (declared_member <$> dedupe (at_key byToken k)) Hv)
    as (_ & _ & _ & Hc & _); [apply Hms; rewrite E; left|naive_solver|].
  cbn [fst]. rewrite Hc, elem_of_union, elem_of_list_to_set, <- list_fmap_compose.
  intros [Hin|?]; [by right|by left].
Qed.

Lemma exact_claims_claimed byToken keys st id :
  valid st → id ∈ st_claimed (foldl (exact_claim byToken) st keys) →
  id ∈ st_claimed st ∨ ∃ k, k ∈ keys ∧ id ∈ ID <$> dedupe (at_key byToken k).
Proof.
  revert st. induction keys as [|k keys IH]; intros st Hv; simpl; [by left|].
  assert (valid (exact_claim byToken st k)) as Hv'.
  { apply (steps_extend st _ Hv). apply (exact_claims_steps byToken [k]). }
  intros [Hin|(k' & Hk' & Hin)]%(IH _ Hv').
  - apply exact_claim_claimed in Hin as [?|?]; [by left| |done]. right. exists k. split; [left|done].
  - right. exists k'. split; [by right|done].
Qed.

Lemma exact_claim_joins byToken st k p q :
  valid st → p ∈ dedupe (at_key byToken k) → q ∈ dedupe (at_key byToken k) → ID p ≠ ID q →
  (∀ x, x ∈ dedupe (at_key byToken k) → known st (ID x) = true ∧ Taken st (ID x) = false) →
  same_group (exact_claim byToken st k) (ID p) (ID q).
Proof.
  intros Hv Hp Hq Hne Hfree. unfold exact_claim.
  set (g := dedupe (at_key byToken k)) in *.
  assert (2 ≤ length g) as Hlen.
  { destruct g as [|x [|y g]]; simpl; [by apply elem_of_nil in Hp| |lia].
    apply list_elem_of_singleton in Hp, Hq. congruence. }
  destruct (length g <? 2) eqn:E; [apply Nat.ltb_lt in E; lia|]. cbn [gs_claim state_store].
  destruct (claim_cases st (declared_member <$> g)) as [Hc|(m0 & m1 & ms & E' & Hms & ->)].
  - exfalso. destruct g as [|x [|y g']]; simpl in Hlen; [lia..|].
    unfold Claim in Hc. cbn [fmap list_fmap] in Hc. rewrite forallb_intro in Hc; [done|].
    intros m (z & -> & Hz)%(list_elem_of_fmap declared_member (x :: y :: g')).
    destruct (Hfree z Hz) as [H1 H2]. simpl. by rewrite H1, H2.
  - destruct (takes_spec st (MemberID m0) (declared_member <$> g) Hv) as (_ & _ & _ & _ & Hg);
      [apply Hms; rewrite E'; left|naive_solver|].
    cbn [fst]. apply Hg. right.
    split; [exists (ID p)|exists (ID q)]; rewrite <- list_fmap_compose;
      (split; [right; by apply (list_elem_of_fmap_2 ID)|]); apply same_group_refl; naive_solver.
Qed.

(** On a fresh state [Exact] puts together any two postings that share a key, as
    long as no posting carries two. *)
Lemma exact_joins ps opts p q k :
  distinct_ids ps → one_key ps → p ∈ ps → q ∈ ps → k ∈ exact_keys p → k ∈ exact_keys q →
  same_group (Exact_Apply ps (newState ps) opts) (ID p) (ID q).
Proof.
  intros Hnd Hone Hp Hq Hkp Hkq. rewrite newState_ids. set (st := new_of_ids (ID <$> ps)).
  assert (valid st) as Hv by apply new_valid.
  assert (known st (ID p) = true ∧ known st (ID q) = true) as [Hknp Hknq].
  { rewrite !known_dom. unfold st, new_of_ids. cbn [st_parent]. rewrite dom_new.
    split; apply bool_decide_eq_true, elem_of_list_to_set; by apply list_elem_of_fmap_2. }
  destruct (steps_extend st (Exact_Apply ps st opts) Hv) as [_ Hext].
  { apply (exact_claims_steps (index_by (token_pairs st ps))). }
  destruct (decide (ID p = ID q)) as [<-|Hne].
  { apply (ext_groups _ _ Hext). by apply same_group_refl. }
  unfold Exact_Apply. set (byToken := index_by (token_pairs st ps)).
  change (same_group (foldl (exact_claim byToken) st
    (go_sort tokenKey_less (keys_of byToken))) (ID p) (ID q)).
  assert (Hgrp : ∀ x k', x ∈ dedupe (at_key byToken k') ↔ x ∈ ps ∧ k' ∈ exact_keys x).
  { intros x k'. unfold byToken. rewrite elem_of_token_group by done. unfold Taken, st. simpl.
    rewrite bool_decide_eq_false. set_solver. }
  assert (Hnd' : NoDup (go_sort tokenKey_less (keys_of byToken)))
    by (rewrite go_sort_perm; apply NoDup_keys_of).
  assert (k ∈ go_sort tokenKey_less (keys_of byToken)) as (k1 & k2 & E)%list_elem_of_split.
  { rewrite elem_of_go_sort. unfold byToken. rewrite elem_of_keys_index_by, list_elem_of_fmap.
    exists (k, p). split; [done|]. rewrite elem_of_token_pairs, <- elem_of_exact_keys.
    split_and!; [done| |done]. simpl. by apply bool_decide_eq_false. }
  rewrite E in Hnd' |- *. rewrite foldl_app. cbn [foldl].
  set (s1 := foldl (exact_claim byToken) st k1).
  destruct (steps_extend st s1 Hv) as [Hv1 Hext1]; [apply exact_claims_steps|].
  destruct (steps_extend (exact_claim byToken s1 k)
    (foldl (exact_claim byToken) (exact_claim byToken s1 k) k2)) as [_ Hext2].
  { apply (steps_extend s1 _ Hv1). apply (exact_claims_steps byToken [k]). }
  { apply exact_claims_steps. }
  apply (ext_groups _ _ Hext2).
  apply exact_claim_joins; [done|by apply Hgrp..|done|].
  intros x [Hx Hkx]%Hgrp. split.
  - rewrite known_dom, (ext_dom _ _ Hext1). unfold st, new_of_ids. cbn [st_parent]. rewrite dom_new.
    apply bool_decide_eq_true, elem_of_list_to_set. by apply list_elem_of_fmap_2.
  - apply bool_decide_eq_false. intros Hin.
    apply exact_claims_claimed in Hin as [?|(k' & Hk' & Hin)]; [set_solver| |done].
    apply list_elem_of_fmap in Hin as (y & Exy & [Hy Hky]%Hgrp).
    assert (x = y) as <- by by apply (distinct_ids_inj ps).
    assert (k' = k) as -> by eauto. apply NoDup_app in Hnd' as (_ & Hdis & _).
    apply (Hdis k Hk'). left.
Qed.
End exact_complete.
End Exact.
