(* ===== verification/Trade.v ===== *)
(** * The trade rules

    server/grouping/trade.go: [Disposal] and [Acquisition] pair an asset leg with
    the cash leg that settles it, [CashTrade] pairs the two halves of a movement of
    the account's own cash.  All three rank their candidates over the whole
    neighbourhood and claim best first; [claim_pairs] is the loop they share.

    [bucket] is the pair the Go string is built from: the account and the UTC day,
    separated by a NUL the date does not contain, so two buckets are equal as
    strings exactly when they are equal as pairs. *)

From Stdlib Require Import QArith Qabs Lqa.
From S2P Require Import Prelude Decimal TxType Posting GroupState Grouping.

Local Open Scope nat_scope.

Module Trade.
Import TxType Posting GroupState Grouping.

Definition DisposalPrecedence : Z := 900.
Definition AcquisitionPrecedence : Z := 800.
Definition CashTradePrecedence : Z := 700.

Definition isMoney {D} (p : GroupingPosting D) : bool := negb (MayBe (Declared p) [TRADE_ASSET]).

Definition bucket {D} (p : GroupingPosting D) : string * Z := (Account p, day_of (OrderDate p)).

(** [expandByDay] *)
Definition day_query {D} (p : GroupingPosting D) : DateQuery :=
  let day := day_start (day_of (OrderDate p)) in
  {| dq_Broker := PBroker p; dq_Account := Account p;
     dq_From := day; dq_Before := (day + day_ns)%Z |}.

Definition day_queries {D} (ps : list (GroupingPosting D)) : list DateQuery := day_query <$> ps.

Definition expandByDay {D} (userID : string) (ps : list (GroupingPosting D))
    (r : GroupingReader D) (held : list string) : option (list (GroupingPosting D)) :=
  match day_queries ps with
  | [] => Some []
  | qs => PostingsByDates r userID (distinct qs) held
  end.

(** ** Distance between references *)

Definition noOrdinal : Z := max_int64.

(** The absolute difference as [int64] computes it. *)
Definition ordinal_gap (oa ob : Z) : Z :=
  let d := wrap64 (oa - ob) in if (d <? 0)%Z then wrap64 (- d) else d.

Definition ordinals {D} (p : GroupingPosting D) : list (string * Z) :=
  omap (λ c, if Declares c MatchOrdinal then (λ o, (Label c, o)) <$> Ordinal c else None)
    (Correlations p).

Definition ordinalDistance {D} (a b : GroupingPosting D) : Z :=
  foldl (λ best ca, foldl (λ best cb,
    if decide (cb.1 ≠ ca.1) then best
    else let d := ordinal_gap ca.2 cb.2 in if (d <? best)%Z then d else best)
    best (ordinals b)) noOrdinal (ordinals a).

(** ** Candidates *)

Record candidate := { assetID : string; cashID : string; distance : Z }.

#[export] Instance candidate_eq_dec : EqDecision candidate.
Proof. solve_decision. Defined.

Definition betterThan (c o : candidate) : bool :=
  if negb (distance c =? distance o)%Z then (distance c <? distance o)%Z
  else if negb (bool_decide (assetID c = assetID o)) then String.ltb (assetID c) (assetID o)
  else String.ltb (cashID c) (cashID o).

(** The claiming loop of the three rules: best first, a claim that names a posting
    that has gone being refused by [Claim]. *)
Definition claim_pairs {S} `{GroupStore S} (ra rc : TxType) (st : S) (cands : list candidate) : S :=
  foldl (λ st c, (gs_claim st
    [{| MemberID := assetID c; MemberResolved := ra |};
     {| MemberID := cashID c; MemberResolved := rc |}]).1) st cands.

(** Every pairing of [xs] with [ys] that [ok] admits. *)
Definition pairings {D} (ok : GroupingPosting D → GroupingPosting D → bool)
    (xs ys : list (GroupingPosting D)) : list candidate :=
  xs ≫= λ a, ys ≫= λ c,
    if ok a c then [{| assetID := ID a; cashID := ID c; distance := ordinalDistance a c |}] else [].

Section rules.
Context {D : Type} `{Decimal D}.
Implicit Types (p a c : GroupingPosting D) (opts : Opts D).

(** ** [trade] *)

Definition isAssetLeg (acquiring : bool) p : bool :=
  if isMoney p then false
  else match SettlementAmount p with
  | None => false
  | Some _ =>
      if negb (MayBe (Declared p) [TRADE_ASSET]) then false
      else Bool.eqb (is_pos (Quantity p)) acquiring && negb (is_zero (Quantity p))
  end.

Definition isCashLeg (acquiring : bool) p : bool :=
  if negb (isMoney p) then false
  else if negb (MayBe (Declared p) [TRADE_CASH]) then false
  else Bool.eqb (is_neg (Quantity p)) acquiring && negb (is_zero (Quantity p)).

(** The asset leg has a settlement amount: [isAssetLeg] is what admits one here. *)
Definition amountsAgree (acquiring : bool) a c opts : bool :=
  match SettlementAmount a with
  | None => false
  | Some amount =>
      let stated := dec_abs amount in
      let paid := dec_abs (Quantity c) in
      if acquiring then dec_gtb (dec_sub stated paid) (dec_neg (Money opts))
      else dec_ltb (dec_abs (dec_sub stated paid)) (Money opts)
  end.

Definition consistent a c opts : bool :=
  match UnitPrice a with
  | None => true
  | Some price =>
      let expected := dec_abs (dec_mul (Quantity a) price) in
      if is_zero expected then true
      else dec_leb (dec_div (dec_abs (dec_sub (dec_abs (Quantity c)) expected)) expected)
             (ConsiderationBand opts)
  end.

Definition trade_ok (acquiring : bool) opts a c : bool :=
  bool_decide (bucket a = bucket c) && amountsAgree acquiring a c opts && consistent a c opts.

Definition trade_cands {S} `{GroupStore S} (acquiring : bool) (ps : list (GroupingPosting D))
    (st : S) opts : list candidate :=
  let free := filter (λ p, gs_taken st (ID p) = false) ps in
  let assets := filter (λ p, isAssetLeg acquiring p = true) free in
  let cash := filter (λ p, isAssetLeg acquiring p = false ∧ isCashLeg acquiring p = true) free in
  pairings (trade_ok acquiring opts) assets cash.

Definition trade_Apply (acquiring : bool) {S} `{GroupStore S} (ps : list (GroupingPosting D))
    (st : S) opts : S :=
  claim_pairs TRADE_ASSET TRADE_CASH st (go_sort betterThan (trade_cands acquiring ps st opts)).

Definition Disposal : Rule D := {|
  Name := "disposal";
  Precedence := DisposalPrecedence;
  Expand := expandByDay;
  Apply := @trade_Apply false;
|}.

Definition Acquisition : Rule D := {|
  Name := "acquisition";
  Precedence := AcquisitionPrecedence;
  Expand := expandByDay;
  Apply := @trade_Apply true;
|}.

(** ** [cashTrade] *)

Definition cash_trade_leg p : bool :=
  if negb (isMoney p) || is_zero (Quantity p) then false
  else MustBe (Declared p) [TRADE_CASH].

Definition cash_trade_ok a c : bool :=
  bool_decide (bucket a = bucket c) && is_zero (dec_add (Quantity a) (Quantity c)).

Definition cash_trade_cands {S} `{GroupStore S} (ps : list (GroupingPosting D)) (st : S)
    : list candidate :=
  let free := filter (λ p, gs_taken st (ID p) = false) ps in
  let legs := filter (λ p, cash_trade_leg p = true) free in
  let out := filter (λ p, is_neg (Quantity p) = true) legs in
  let into := filter (λ p, is_neg (Quantity p) = false) legs in
  pairings cash_trade_ok out into.

Definition cashTrade_Apply {S} `{GroupStore S} (ps : list (GroupingPosting D)) (st : S)
    (_ : Opts D) : S :=
  claim_pairs TRADE_CASH TRADE_CASH st (go_sort betterThan (cash_trade_cands ps st)).

Definition CashTrade : Rule D := {|
  Name := "cash_trade";
  Precedence := CashTradePrecedence;
  Expand := expandByDay;
  Apply := @cashTrade_Apply;
|}.
End rules.

(** ** Ranking *)

Definition candidate_cmp : candidate → candidate → comparison :=
  cmp_on (λ c, (distance c, (assetID c, cashID c)))
    (cmp_lex Z.compare (cmp_lex String.compare String.compare)).

Lemma betterThan_cmp c o : betterThan c o = less_of candidate_cmp c o.
Proof.
  unfold betterThan, less_of, candidate_cmp, cmp_on, cmp_lex. cbn [fst snd].
  destruct (Z.compare_spec (distance c) (distance o)) as [E|E|E].
  - rewrite E, Z.eqb_refl. cbn [negb]. case_bool_decide as Ea; cbn [negb].
    + rewrite Ea, (cmp_refl String.compare). apply string_ltb_less_of.
    + rewrite string_ltb_less_of. unfold less_of.
      destruct (String.compare (assetID c) (assetID o)) eqn:Ec; try done.
      by apply String.compare_eq_iff in Ec.
  - rewrite (proj2 (Z.eqb_neq _ _)) by lia. cbn [negb]. by apply Z.ltb_lt.
  - rewrite (proj2 (Z.eqb_neq _ _)) by lia. cbn [negb]. apply Z.ltb_ge. lia.
Qed.

Lemma candidate_cmp_eq c o : candidate_cmp c o = Eq → c = o.
Proof.
  unfold candidate_cmp, cmp_on, cmp_lex. destruct c as [a b d], o as [a' b' d'].
  cbn [fst snd assetID cashID distance].
  destruct (Z.compare d d') eqn:Ed; [|done..].
  destruct (String.compare a a') eqn:Ea; [|done..].
  intros Eb. apply String.compare_eq_iff in Ea, Eb. apply Z.compare_eq in Ed. by subst.
Qed.

Lemma sort_candidates_unique cs cs' :
  cs ≡ₚ cs' → go_sort betterThan cs = go_sort betterThan cs'.
Proof.
  apply (go_sort_unique _ candidate_cmp betterThan_cmp). intros x y _ _. apply candidate_cmp_eq.
Qed.

Lemma pairings_perm {D} (ok : GroupingPosting D → GroupingPosting D → bool) xs xs' ys ys' :
  xs ≡ₚ xs' → ys ≡ₚ ys' → pairings ok xs ys ≡ₚ pairings ok xs' ys'.
Proof. intros Hx Hy. apply bind_perm; [|done]. intros a _. by apply bind_perm. Qed.

Lemma elem_of_pairings {D} (ok : GroupingPosting D → GroupingPosting D → bool) xs ys k :
  k ∈ pairings ok xs ys ↔ ∃ a c, a ∈ xs ∧ c ∈ ys ∧ ok a c = true ∧
    k = {| assetID := ID a; cashID := ID c; distance := ordinalDistance a c |}.
Proof.
  unfold pairings. rewrite elem_of_bind. setoid_rewrite elem_of_bind. split.
  - intros (a & (c & Hk & Hc) & Ha). exists a, c. destruct (ok a c); [|by apply elem_of_nil in Hk].
    apply list_elem_of_singleton in Hk. done.
  - intros (a & c & Ha & Hc & E & ->). exists a. split; [|done]. exists c. rewrite E.
    split; [by apply list_elem_of_singleton|done].
Qed.

(** ** Simulation and order *)

Section laws.
Context {D : Type} `{Decimal D}.

Lemma trade_sim_at acquiring S T `{GroupStore S, GroupStore T} (R : S → T → Prop) `{!GroupSim R}
    (ps : list (GroupingPosting D)) opts s t :
  R s t → R (trade_Apply acquiring ps s opts) (trade_Apply acquiring ps t opts).
Proof.
  intros HR. unfold trade_Apply, trade_cands. rewrite (sim_free R ID ps s t HR).
  by apply (sim_claims R).
Qed.

Lemma disposal_sim : RuleSim (@Disposal D _).
Proof. intros S T ? ? R HS ps opts s t HR. exact (trade_sim_at false S T R ps opts s t HR). Qed.

Lemma acquisition_sim : RuleSim (@Acquisition D _).
Proof. intros S T ? ? R HS ps opts s t HR. exact (trade_sim_at true S T R ps opts s t HR). Qed.

Lemma cash_trade_sim : RuleSim (@CashTrade D _).
Proof.
  intros S T ? ? R HS ps opts s t HR. simpl. unfold cashTrade_Apply, cash_trade_cands.
  rewrite (sim_free R ID ps s t HR). by apply (sim_claims R).
Qed.

Lemma trade_order_at acquiring (ps ps' : list (GroupingPosting D)) opts (t : PState) :
  ps ≡ₚ ps' → trade_Apply acquiring ps t opts = trade_Apply acquiring ps' t opts.
Proof.
  intros Hp. unfold trade_Apply, trade_cands. f_equal. apply sort_candidates_unique.
  apply pairings_perm; by rewrite Hp.
Qed.

Lemma disposal_order : RuleOrder (@Disposal D _).
Proof. intros ps ps' opts t _ _ Hp. exact (trade_order_at false ps ps' opts t Hp). Qed.

Lemma acquisition_order : RuleOrder (@Acquisition D _).
Proof. intros ps ps' opts t _ _ Hp. exact (trade_order_at true ps ps' opts t Hp). Qed.

Lemma cash_trade_order : RuleOrder (@CashTrade D _).
Proof.
  intros ps ps' opts t _ _ Hp. simpl. unfold cashTrade_Apply, cash_trade_cands. f_equal.
  apply sort_candidates_unique, pairings_perm; by rewrite Hp.
Qed.
End laws.

(** ** What the claiming loop chooses *)

Definition pair_ids (cs : list candidate) : list string := cs ≫= λ c, [assetID c; cashID c].

(** Two candidates compete for a posting. *)
Definition shares (c o : candidate) : Prop :=
  assetID c = assetID o ∨ assetID c = cashID o ∨ cashID c = assetID o ∨ cashID c = cashID o.

(** What [claim_pairs] leaves behind: pairs no two of which share a posting, made of
    postings that were free, joined and resolved as the rule says; and every
    candidate that was passed over lost a posting to one that ranks before it. *)
Record chosen_from (Rel : relation candidate) (ra rc : TxType) (cands : list candidate)
    (s s' : State) (chosen : list candidate) : Prop := {
  ch_sub c : c ∈ chosen → c ∈ cands;
  ch_nodup : NoDup (pair_ids chosen);
  ch_free id : id ∈ pair_ids chosen → id ∉ st_claimed s;
  ch_claimed : st_claimed s' = list_to_set (pair_ids chosen) ∪ st_claimed s;
  ch_pair c : c ∈ chosen → same_group s' (assetID c) (cashID c) ∧
    st_resolved s' !! assetID c = Some ra ∧ st_resolved s' !! cashID c = Some rc;
  ch_lost c : c ∈ cands → c ∉ chosen → assetID c ∉ st_claimed s → cashID c ∉ st_claimed s →
    ∃ c', c' ∈ chosen ∧ shares c' c ∧ Rel c' c;
}.

Lemma claim_pair_cases s ra rc c :
  valid s → known s (assetID c) = true → known s (cashID c) = true → assetID c ≠ cashID c →
  let ms := [{| MemberID := assetID c; MemberResolved := ra |};
             {| MemberID := cashID c; MemberResolved := rc |}] in
  let s' := (Claim s ms).1 in
  (s' = s ∧ (assetID c ∈ st_claimed s ∨ cashID c ∈ st_claimed s)) ∨
  (assetID c ∉ st_claimed s ∧ cashID c ∉ st_claimed s ∧ valid s' ∧ extends s s' ∧
   st_claimed s' = {[assetID c; cashID c]} ∪ st_claimed s ∧
   same_group s' (assetID c) (cashID c) ∧
   st_resolved s' !! assetID c = Some ra ∧ st_resolved s' !! cashID c = Some rc).
Proof.
  intros Hv Hka Hkc Hne ms s'. unfold s', Claim, ms. cbn [forallb MemberID].
  rewrite Hka, Hkc. unfold Taken.
  destruct (decide (assetID c ∈ st_claimed s)) as [Ha|Ha].
  { left. rewrite bool_decide_eq_true_2 by done. auto. }
  destruct (decide (cashID c ∈ st_claimed s)) as [Hc|Hc].
  { left. rewrite (bool_decide_eq_false_2 _ Ha), bool_decide_eq_true_2 by done. auto. }
  right. rewrite !bool_decide_eq_false_2 by done. cbn [negb andb fst].
  fold ms. destruct (takes_extends s (assetID c) ms Hv Hka) as [Hv' Hext].
  { intros m [->|[->|[]%elem_of_nil]%elem_of_cons]%elem_of_cons; unfold Taken; simpl;
      by rewrite bool_decide_eq_false_2. }
  destruct (takes_spec s (assetID c) ms Hv Hka) as (_ & _ & Hr & Hcl & Hg).
  { intros m [->|[->|[]%elem_of_nil]%elem_of_cons]%elem_of_cons; done. }
  split_and!; [done..| | | |].
  - rewrite Hcl. simpl. set_solver.
  - apply Hg. right. split; [exists (assetID c)|exists (cashID c)];
      (split; [simpl; set_solver|by apply same_group_refl]).
  - rewrite Hr. unfold ms. rewrite !filter_cons, filter_nil. cbn [MemberID].
    rewrite decide_True, decide_False by congruence. done.
  - rewrite Hr. unfold ms. rewrite !filter_cons, filter_nil. cbn [MemberID].
    rewrite decide_False, decide_True by congruence. done.
Qed.

Lemma claim_pairs_chooses Rel ra rc cands s :
  valid s → StronglySorted Rel cands →
  (∀ c, c ∈ cands → known s (assetID c) = true ∧ known s (cashID c) = true ∧ assetID c ≠ cashID c) →
  let s' := claim_pairs ra rc s cands in
  valid s' ∧ extends s s' ∧ ∃ chosen, chosen_from Rel ra rc cands s s' chosen.
Proof.
  intros Hv Hsort. revert s Hv. induction Hsort as [|c cands Hs IH HRel]; intros s Hv Hk s'.
  - split_and!; [done|apply extends_refl|]. exists []. split; try set_solver; constructor.
  - unfold s', claim_pairs. cbn [foldl gs_claim state_store].
    set (s1 := (Claim s _).1).
    destruct (Hk c) as (Hka & Hkc & Hne); [left|].
    destruct (claim_pair_cases s ra rc c Hv Hka Hkc Hne)
      as [[E Hgone]|(Hfa & Hfc & Hv1 & He1 & Hc1 & Hg1 & Hra & Hrc)].
    + fold s1 in E. rewrite E. destruct (IH s Hv) as (Hv2 & He2 & ch & Hch).
      { intros o Ho. apply Hk. by right. }
      split_and!; [done..|]. exists ch. destruct Hch. split; [|done..|].
      * intros o Ho. right. auto.
      * intros o [->|Ho]%elem_of_cons; [tauto|auto].
    + fold s1 in Hv1, He1, Hc1, Hg1, Hra, Hrc.
      destruct (IH s1 Hv1) as (Hv2 & He2 & ch & Hch).
      { intros o Ho. rewrite !known_dom, (ext_dom _ _ He1), <- !known_dom. apply Hk. by right. }
      fold (claim_pairs ra rc s1 cands).
      split_and!; [done| |].
      { eapply (steps_extend s); [done|]. unfold claim_pairs. apply (foldl_inv (rtc step s)).
        - apply rtc_once. unfold s1. apply step_claim.
        - intros s2 o _ H2. eapply rtc_r; [done|]. apply step_claim. }
      exists (c :: ch). rewrite Forall_forall in HRel.
      destruct Hch as [Hsub Hnd Hfree Hcl Hpair Hlost]. split.
      * intros o [->|Ho]%elem_of_cons; [left|right; auto].
      * csimpl. rewrite Hc1 in Hfree.
        apply NoDup_cons. split; [|apply NoDup_cons; split; [|done]].
        -- intros [?|Hin]%elem_of_cons; [done|]. apply Hfree in Hin. set_solver.
        -- intros Hin%Hfree. set_solver.
      * csimpl. intros id. rewrite !elem_of_cons. intros [->|[->|Hin%Hfree]]; [done..|].
        rewrite Hc1 in Hin. set_solver.
      * transitivity (list_to_set (pair_ids ch) ∪ st_claimed s1); [exact Hcl|].
        rewrite Hc1. csimpl. set_solver.
      * intros o [->|Ho]%elem_of_cons; [|auto]. split_and!.
        -- by apply (ext_groups _ _ He2).
        -- rewrite (ext_resolved _ _ He2); [done|]. rewrite Hc1. set_solver.
        -- rewrite (ext_resolved _ _ He2); [done|]. rewrite Hc1. set_solver.
      * intros o Ho Hno Hoa Hoc. apply not_elem_of_cons in Hno as [Hno1 Hno2].
        apply elem_of_cons in Ho as [->|Ho]; [done|].
        destruct (decide (assetID o ∈ st_claimed s1 ∨ cashID o ∈ st_claimed s1)) as [Hin|Hout].
        -- exists c. split_and!; [left| |by apply HRel]. unfold shares. rewrite Hc1 in Hin. set_solver.
        -- destruct (Hlost o) as (c' & ? & ? & ?); [done|done|tauto|tauto|].
           exists c'. split_and!; [by right|done|done].
Qed.

(** ** The matchings the rules make *)

Definition cand_of {D} (a c : GroupingPosting D) : candidate :=
  {| assetID := ID a; cashID := ID c; distance := ordinalDistance a c |}.

Section matching.
Context {D : Type} `{DecimalLaws D}.
Implicit Types (ps : list (GroupingPosting D)) (a c : GroupingPosting D).

(** Sorting and claiming a list of pairings of free postings of [ps]. *)
Lemma claim_pairings ra rc ok xs ys ps s :
  valid s → distinct_ids ps → (∀ p, p ∈ ps → known s (ID p) = true) →
  (∀ x, x ∈ xs → x ∈ ps) → (∀ y, y ∈ ys → y ∈ ps) → (∀ x, x ∈ xs → x ∉ ys) →
  ∃ chosen, chosen_from (λ k' k, betterThan k' k = true) ra rc (pairings ok xs ys) s
    (claim_pairs ra rc s (go_sort betterThan (pairings ok xs ys))) chosen.
Proof.
  intros Hv Hnd Hkn Hxs Hys Hdis.
  destruct (claim_pairs_chooses (λ k' k, candidate_cmp k' k ≠ Gt) ra rc
    (go_sort betterThan (pairings ok xs ys)) s Hv) as (_ & _ & ch & Hch).
  - apply (go_sort_sorted _ candidate_cmp betterThan_cmp).
  - intros k. rewrite elem_of_go_sort, elem_of_pairings. intros (a & c & Ha & Hc & _ & ->).
    cbn [assetID cashID]. split_and!; [auto..|]. intros E.
    apply (Hdis a Ha). rewrite (distinct_ids_inj ps a c); auto.
  - exists ch. destruct Hch as [Hsub ? ? ? ? Hlost]. split; try done.
    + intros k Hk%Hsub. by rewrite elem_of_go_sort in Hk.
    + intros k Hk Hno Ha Hc. destruct (Hlost k) as (k' & Hk' & Hs & Hcmp); try done.
      { by rewrite elem_of_go_sort. }
      exists k'. split_and!; [done|done|]. rewrite betterThan_cmp. unfold less_of.
      destruct (candidate_cmp k' k) eqn:E; try done.
      apply candidate_cmp_eq in E. by subst.
Qed.

(** The two legs could make a trade of this direction, and nothing has them. *)
Definition admissible (acquiring : bool) (opts : Opts D) (s : State) a c : Prop :=
  Taken s (ID a) = false ∧ Taken s (ID c) = false ∧
  isAssetLeg acquiring a = true ∧ isCashLeg acquiring c = true ∧
  trade_ok acquiring opts a c = true.

(** What an admissible pairing states about the two postings. *)
Definition settles (acquiring : bool) (opts : Opts D) a c : Prop :=
  MayBe (Declared a) [TRADE_ASSET] = true ∧ MayBe (Declared c) [TRADE_CASH] = true ∧
  Account a = Account c ∧ day_of (OrderDate a) = day_of (OrderDate c) ∧
  (if acquiring then 0 < dval (Quantity a) ∧ dval (Quantity c) < 0
   else dval (Quantity a) < 0 ∧ 0 < dval (Quantity c))%Q ∧
  ∃ amount, SettlementAmount a = Some amount ∧
    (if acquiring then - dval (Money opts) < Qabs (dval amount) - Qabs (dval (Quantity c))
     else Qabs (Qabs (dval amount) - Qabs (dval (Quantity c))) < dval (Money opts))%Q.

Lemma sign_of_pos acquiring x :
  Bool.eqb (is_pos x) acquiring && negb (is_zero x) = true →
  (if acquiring then 0 < dval x else dval x < 0)%Q.
Proof.
  intros [Hp%eqb_prop Hz%negb_true_iff]%andb_true_iff. destruct acquiring.
  - by apply is_pos_lt.
  - destruct (Q_dec (dval x) 0) as [[?|Hgt]|Heq]; [done| |].
    + apply is_pos_lt in Hgt. congruence.
    + apply is_zero_eq in Heq. congruence.
Qed.

Lemma sign_of_neg acquiring x :
  Bool.eqb (is_neg x) acquiring && negb (is_zero x) = true →
  (if acquiring then dval x < 0 else 0 < dval x)%Q.
Proof.
  intros [Hp%eqb_prop Hz%negb_true_iff]%andb_true_iff. destruct acquiring.
  - by apply is_neg_lt.
  - destruct (Q_dec (dval x) 0) as [[Hlt|?]|Heq]; [|done|].
    + apply is_neg_lt in Hlt. congruence.
    + apply is_zero_eq in Heq. congruence.
Qed.

Lemma admissible_settles acquiring opts s a c :
  admissible acquiring opts s a c → settles acquiring opts a c.
Proof.
  intros (_ & _ & Ha & Hc & Hok). unfold isAssetLeg in Ha. unfold isCashLeg in Hc.
  destruct (isMoney a) eqn:Ema; [done|]. destruct (SettlementAmount a) as [amount|] eqn:Es; [|done].
  destruct (negb (MayBe (Declared a) [TRADE_ASSET])) eqn:Ea; [done|].
  destruct (negb (isMoney c)); [done|].
  destruct (negb (MayBe (Declared c) [TRADE_CASH])) eqn:Ec; [done|].
  apply negb_false_iff in Ea, Ec. apply sign_of_pos in Ha. apply sign_of_neg in Hc.
  unfold trade_ok in Hok. apply andb_true_iff in Hok as [[Hb Hamt]%andb_true_iff _].
  apply bool_decide_eq_true in Hb. unfold bucket in Hb. injection Hb as Hacc Hday.
  unfold amountsAgree in Hamt. rewrite Es in Hamt.
  split_and!; try done; [by destruct acquiring|]. exists amount. split; [done|].
  destruct acquiring.
  - apply dec_ltb_lt in Hamt. by autorewrite with dval in Hamt.
  - apply dec_ltb_lt in Hamt. by autorewrite with dval in Hamt.
Qed.

Lemma elem_of_trade_cands acquiring ps (s : State) opts k :
  k ∈ trade_cands acquiring ps s opts ↔
  ∃ a c, a ∈ ps ∧ c ∈ ps ∧ admissible acquiring opts s a c ∧ k = cand_of a c.
Proof.
  unfold trade_cands. rewrite elem_of_pairings. setoid_rewrite list_elem_of_filter.
  setoid_rewrite list_elem_of_filter. unfold admissible. cbn [gs_taken state_store]. split.
  - intros (a & c & (? & ? & ?) & ((? & ?) & ? & ?) & ? & ->). by exists a, c.
  - intros (a & c & ? & ? & (? & ? & ? & Hc & ?) & ->). exists a, c. split_and!; try done.
    unfold isAssetLeg. unfold isCashLeg in Hc. by destruct (isMoney c).
Qed.
End matching.

Section theorems.
Context {D : Type} `{DecimalLaws D}.
Implicit Types (ps : list (GroupingPosting D)).

Lemma reachable_known ps s p :
  rtc step (newState ps) s → p ∈ ps → valid s ∧ known s (ID p) = true.
Proof.
  rewrite newState_ids. intros [Hv Hext]%steps_extend Hp; [|apply new_valid]. split; [done|].
  rewrite known_dom, (ext_dom _ _ Hext). cbn [new_of_ids st_parent]. rewrite dom_new.
  apply bool_decide_eq_true, elem_of_list_to_set. by apply list_elem_of_fmap_2.
Qed.

Lemma reachable_valid ps s : rtc step (newState ps) s → valid s.
Proof. rewrite newState_ids. intros [Hv _]%steps_extend; [done|apply new_valid]. Qed.

(** C13: the trade rules make a stable matching.  From any reachable state, a rule
    claims pairs of postings no two of which share one; each pair is an asset leg
    and a cash leg of one account and day, moving opposite ways in the rule's
    direction, whose amounts agree (to within [Money] for a disposal, the cash not
    exceeding the stated total by [Money] for an acquisition), joined and resolved to
    TRADE_ASSET and TRADE_CASH; and a free admissible pair is left unclaimed only if
    a better ranked pair took one of its legs. *)
Theorem trade_matching acquiring ps opts s :
  rtc step (newState ps) s → distinct_ids ps →
  let s' := trade_Apply acquiring ps s opts in
  ∃ chosen,
    (∀ k, k ∈ chosen → ∃ a c, a ∈ ps ∧ c ∈ ps ∧ k = cand_of a c ∧ settles acquiring opts a c ∧
      same_group s' (ID a) (ID c) ∧
      st_resolved s' !! ID a = Some TRADE_ASSET ∧ st_resolved s' !! ID c = Some TRADE_CASH) ∧
    NoDup (pair_ids chosen) ∧
    (∀ id, id ∈ pair_ids chosen → Taken s id = false) ∧
    st_claimed s' = list_to_set (pair_ids chosen) ∪ st_claimed s ∧
    (∀ a c, a ∈ ps → c ∈ ps → admissible acquiring opts s a c →
      cand_of a c ∈ chosen ∨
      ∃ k, k ∈ chosen ∧ shares k (cand_of a c) ∧ betterThan k (cand_of a c) = true).
Proof.
  intros Hs Hnd s'.
  edestruct (claim_pairings TRADE_ASSET TRADE_CASH (trade_ok acquiring opts)
    (filter (λ p, isAssetLeg acquiring p = true) (filter (λ p, gs_taken s (ID p) = false) ps))
    (filter (λ p, isAssetLeg acquiring p = false ∧ isCashLeg acquiring p = true)
      (filter (λ p, gs_taken s (ID p) = false) ps)) ps s) as [chosen Hch].
  - by eapply reachable_valid.
  - done.
  - intros p Hp. by eapply reachable_known.
  - intros x Hx. rewrite !list_elem_of_filter in Hx. tauto.
  - intros x Hx. rewrite !list_elem_of_filter in Hx. tauto.
  - intros x Hx Hy. rewrite !list_elem_of_filter in Hx, Hy. naive_solver congruence.
  - change (chosen_from (λ k' k, betterThan k' k = true) TRADE_ASSET TRADE_CASH
      (trade_cands acquiring ps s opts) s s' chosen) in Hch.
    destruct Hch as [Hsub Hnod Hfree Hcl Hpair Hlost]. exists chosen. split_and!; try done.
    + intros k Hk. destruct (Hpair k Hk) as (? & ? & ?).
      apply Hsub, elem_of_trade_cands in Hk as (a & c & Ha & Hc & Hadm & ->).
      exists a, c. split_and!; try done. by eapply admissible_settles.
    + intros id Hid%Hfree. by apply bool_decide_eq_false.
    + intros a c Ha Hc Hadm. destruct (decide (cand_of a c ∈ chosen)) as [?|Hno]; [by left|right].
      pose proof Hadm as (Hta & Htc & _). apply bool_decide_eq_false in Hta, Htc.
      apply Hlost; [|done..]. apply elem_of_trade_cands. eauto 6.
Qed.

(** [CashTrade] pairs equal and opposite movements.  From any reachable state it
    claims pairs of postings no two of which share one; each pair is money out and
    money in of one account and day that sum to exactly zero, both declared as a
    trade's cash leg under every reading; and two free postings that would make such a
    pair are left apart only if a better ranked pair took one of them. *)
Theorem cash_trade_matching ps opts s :
  rtc step (newState ps) s → distinct_ids ps →
  let s' := cashTrade_Apply ps s opts in
  ∃ chosen,
    (∀ k, k ∈ chosen → ∃ a c, a ∈ ps ∧ c ∈ ps ∧ k = cand_of a c ∧
      Account a = Account c ∧ day_of (OrderDate a) = day_of (OrderDate c) ∧
      (dval (Quantity a) + dval (Quantity c) == 0)%Q ∧
      MustBe (Declared a) [TRADE_CASH] = true ∧ MustBe (Declared c) [TRADE_CASH] = true ∧
      same_group s' (ID a) (ID c)) ∧
    NoDup (pair_ids chosen) ∧
    st_claimed s' = list_to_set (pair_ids chosen) ∪ st_claimed s ∧
    (∀ a c, a ∈ ps → c ∈ ps → Taken s (ID a) = false → Taken s (ID c) = false →
      cash_trade_leg a = true → cash_trade_leg c = true →
      is_neg (Quantity a) = true → is_neg (Quantity c) = false → cash_trade_ok a c = true →
      cand_of a c ∈ chosen ∨
      ∃ k, k ∈ chosen ∧ shares k (cand_of a c) ∧ betterThan k (cand_of a c) = true).
Proof.
  intros Hs Hnd s'.
  set (legs := filter (λ p, cash_trade_leg p = true) (filter (λ p, gs_taken s (ID p) = false) ps)).
  edestruct (claim_pairings TRADE_CASH TRADE_CASH cash_trade_ok
    (filter (λ p, is_neg (Quantity p) = true) legs)
    (filter (λ p, is_neg (Quantity p) = false) legs) ps s) as [chosen Hch].
  - by eapply reachable_valid.
  - done.
  - intros p Hp. by eapply reachable_known.
  - intros x Hx. unfold legs in Hx. rewrite !list_elem_of_filter in Hx. tauto.
  - intros x Hx. unfold legs in Hx. rewrite !list_elem_of_filter in Hx. tauto.
  - intros x Hx Hy. rewrite list_elem_of_filter in Hx, Hy. naive_solver congruence.
  - change (chosen_from (λ k' k, betterThan k' k = true) TRADE_CASH TRADE_CASH
      (cash_trade_cands ps s) s s' chosen) in Hch.
    destruct Hch as [Hsub Hnod Hfree Hcl Hpair Hlost]. exists chosen.
    assert (Hleg : ∀ x, cash_trade_leg x = true → MustBe (Declared x) [TRADE_CASH] = true).
    { intros x. unfold cash_trade_leg. by destruct (_ || _). }
    split_and!; try done.
    + intros k Hk. destruct (Hpair k Hk) as (Hg & _).
      apply Hsub, elem_of_pairings in Hk as (a & c & Ha & Hc & Hok & ->).
      rewrite !list_elem_of_filter in Ha, Hc. destruct Ha as (_ & ? & _ & ?), Hc as (_ & ? & _ & ?).
      apply andb_true_iff in Hok as [Hb%bool_decide_eq_true Hz%is_zero_eq].
      unfold bucket in Hb. injection Hb as ? ?. rewrite dval_add in Hz.
      exists a, c. split_and!; auto.
    + intros a c Ha Hc Hta Htc Hla Hlc Hna Hnc Hok.
      destruct (decide (cand_of a c ∈ chosen)) as [?|Hno]; [by left|right].
      pose proof Hta as Hta'. pose proof Htc as Htc'. apply bool_decide_eq_false in Hta', Htc'.
      apply Hlost; [|done..]. apply elem_of_pairings. exists a, c.
      unfold legs. rewrite !list_elem_of_filter. done.
Qed.
End theorems.

(** ** A purchase and a movement of cash *)

Section witnesses.
#[local] Existing Instances QDecimal.q_decimal QDecimal.q_decimal_laws.

Definition sample_buy : GroupingPosting Q := {|
  ID := "p1"; UserID := "u"; PBroker := FIDELITY; Account := "isa"; OrderDate := 0;
  InstrumentID := "i"; Quantity := 100%Q; UnitPrice := Some (738 # 10)%Q;
  SettlementAmount := Some (739019 # 100)%Q; Declared := [TRADE_ASSET]; JobID := "j";
  GroupID := "g1"; Resolved := "TRADE_ASSET"; Correlations := [] |}.

Definition sample_cash : GroupingPosting Q := plain "p2" "isa" 3600 (- (738019 # 100))%Q [TRADE_CASH].
Definition sample_cash_in : GroupingPosting Q := plain "p3" "isa" 7200 (738019 # 100)%Q [TRADE_CASH].

Lemma trade_matching_witness :
  let ps := [sample_buy; sample_cash] in
  let s' := trade_Apply true ps (newState ps) DefaultOpts in
  Taken s' "p1" = true ∧
  ∃ chosen, NoDup (pair_ids chosen) ∧ st_claimed s' = list_to_set (pair_ids chosen) ∪ ∅.
Proof.
  intros ps s'. split; [vm_compute; reflexivity|].
  destruct (trade_matching true ps DefaultOpts (newState ps)) as (chosen & _ & Hnd & _ & Hcl & _).
  - apply rtc_refl.
  - apply (bool_decide_unpack _). vm_compute. exact I.
  - exists chosen. split; [exact Hnd|exact Hcl].
Defined.

Lemma cash_trade_matching_witness :
  let ps := [sample_cash; sample_cash_in] in
  let s' := cashTrade_Apply ps (newState ps) DefaultOpts in
  Taken s' "p3" = true ∧
  ∃ chosen, NoDup (pair_ids chosen) ∧ st_claimed s' = list_to_set (pair_ids chosen) ∪ ∅.
Proof.
  intros ps s'. split; [vm_compute; reflexivity|].
  destruct (cash_trade_matching ps DefaultOpts (newState ps)) as (chosen & _ & Hnd & Hcl & _).
  - apply rtc_refl.
  - apply (bool_decide_unpack _). vm_compute. exact I.
  - exists chosen. split; [exact Hnd|exact Hcl].
Defined.
End witnesses.
End Trade.
