(* ===== verification/Deposit.v ===== *)
(** * Deposit runs

    server/grouping/deposit.go: the run of money rows a deposit into a product
    account is reported through.  An opener is money arriving that is a transfer
    under every reading; its run is the nearest free row of each direction, by the
    source's own references. *)

From Stdlib Require Import QArith Qabs Lqa.
From S2P Require Import Prelude Decimal TxType Posting GroupState Grouping Exact Trade.

Local Open Scope nat_scope.

Module Deposit.
Import TxType Posting GroupState Grouping Trade.

Definition DepositPrecedence : Z := 600.

(** ** References *)

Definition ordinalSpan {D} (p : GroupingPosting D) : option Z :=
  head (omap (λ c,
    if Declares c MatchOrdinal then
      match Ordinal c, OrdinalSpan c with Some _, Some s => Some s | _, _ => None end
    else None) (Correlations p)).

(** The first pair of references in one series, [a]'s correlations outermost. *)
Definition forwardGap {D} (a b : GroupingPosting D) : option Z :=
  head (ordinals a ≫= λ ca,
    (λ cb, wrap64 (cb.2 - ca.2)) <$> filter (λ cb, cb.1 = ca.1) (ordinals b)).

Definition firstOrdinal {D} (p : GroupingPosting D) : option Z := snd <$> head (ordinals p).

Definition byOrdinal {D} (a b : GroupingPosting D) : bool :=
  match firstOrdinal a, firstOrdinal b with
  | Some oa, Some ob =>
      if negb (oa =? ob)%Z then (oa <? ob)%Z else String.ltb (ID a) (ID b)
  | Some _, None => true
  | None, Some _ => false
  | None, None => String.ltb (ID a) (ID b)
  end.

(** The reads of [Expand]: one span either side of each reference. *)
Definition posting_ordinal_queries {D} (p : GroupingPosting D) : list OrdinalQuery :=
  omap (λ c,
    if Declares c MatchOrdinal then
      match Ordinal c, OrdinalSpan c with
      | Some o, Some s => Some {| oq_Broker := PBroker p; oq_Account := Account p;
          oq_Label := Label c; oq_Low := wrap64 (o - s); oq_High := wrap64 (o + s) |}
      | _, _ => None
      end
    else None) (Correlations p).

Definition ordinal_queries {D} (ps : list (GroupingPosting D)) : list OrdinalQuery :=
  ps ≫= posting_ordinal_queries.

Definition deposit_Expand {D} (userID : string) (ps : list (GroupingPosting D))
    (r : GroupingReader D) (held : list string) : option (list (GroupingPosting D)) :=
  match ordinal_queries ps with
  | [] => Some []
  | qs => PostingsByOrdinals r userID (distinct qs) held
  end.

(** ** The rule *)

Definition member {D} (m : GroupingPosting D) : Member :=
  if MayBe (Declared m) [TRANSFER] then {| MemberID := ID m; MemberResolved := TRANSFER |}
  else {| MemberID := ID m; MemberResolved := Resolve (Declared m) |}.

Section rule.
Context {D : Type} `{Decimal D}.
Implicit Types (o m p : GroupingPosting D) (opts : Opts D).

Definition could_open p : bool := is_pos (Quantity p) && MustBe (Declared p) [TRANSFER].

Definition could_step p : bool :=
  MayBe (Declared p) [TRADE_CASH] || MayBe (Declared p) [TRANSFER].

(** The tests a row passes to be [o]'s step, taken rows apart. *)
Definition step_of o m opts (span : Z) (spending : bool) : bool :=
  if decide (ID m = ID o) then false
  else if negb (bool_decide (Account m = Account o)) || negb (bool_decide (PBroker m = PBroker o))
          || negb (Bool.eqb (is_neg (Quantity m)) spending) then false
  else match forwardGap o m with
  | None => false
  | Some gap =>
      if (gap <=? 0)%Z || (span <? gap)%Z then false
      else negb (dec_geb (dec_abs (dec_sub (dec_abs (Quantity m)) (dec_abs (Quantity o)))) (Money opts))
  end.

Definition nearest {S} `{GroupStore S} o (members : list (GroupingPosting D)) (st : S) opts
    (spending : bool) : option (GroupingPosting D) :=
  match ordinalSpan o with
  | None => None
  | Some span =>
      foldl (λ best m,
        if gs_taken st (ID m) then best
        else if negb (step_of o m opts span spending) then best
        else match best with
             | None => Some m
             | Some b => if byOrdinal m b then Some m else best
             end) None members
  end.

Definition run_of {S} `{GroupStore S} o (members : list (GroupingPosting D)) (st : S) opts
    : list (GroupingPosting D) :=
  option_list (nearest o members st opts true) ++ option_list (nearest o members st opts false).

Definition opener_member o : Member := {| MemberID := ID o; MemberResolved := TRANSFER |}.

Definition open_run {S} `{GroupStore S} (members : list (GroupingPosting D)) opts (st : S) o : S :=
  if gs_taken st (ID o) then st
  else (gs_claim st (opener_member o :: (member <$> run_of o members st opts))).1.

Definition money_rows {S} `{GroupStore S} (st : S) (ps : list (GroupingPosting D))
    : list (GroupingPosting D) :=
  filter (λ p, isMoney p = true ∧ is_zero (Quantity p) = false)
    (filter (λ p, gs_taken st (ID p) = false) ps).

Definition deposit_Apply {S} `{GroupStore S} (ps : list (GroupingPosting D)) (st : S) opts : S :=
  let rows := money_rows st ps in
  let openers := filter (λ p, could_open p = true) rows in
  let members := filter (λ p, could_open p = false ∧ could_step p = true) rows in
  foldl (open_run members opts) st (go_sort byOrdinal openers).

Definition Deposit : Rule D := {|
  Name := "deposit_run";
  Precedence := DepositPrecedence;
  Expand := deposit_Expand;
  Apply := @deposit_Apply;
|}.
End rule.

(** ** Reference order *)

Definition ordinal_cmp {D} : GroupingPosting D → GroupingPosting D → comparison :=
  cmp_on (λ p, (bool_decide (is_Some (firstOrdinal p)), (default 0%Z (firstOrdinal p), ID p)))
    (cmp_lex cmp_bool (cmp_lex Z.compare String.compare)).

Lemma byOrdinal_cmp {D} (a b : GroupingPosting D) : byOrdinal a b = less_of ordinal_cmp a b.
Proof.
  unfold byOrdinal, less_of, ordinal_cmp, cmp_on, cmp_lex. cbn [fst snd].
  destruct (firstOrdinal a) as [oa|], (firstOrdinal b) as [ob|];
    rewrite ?(bool_decide_eq_true_2 (is_Some (Some _))), ?(bool_decide_eq_false_2 (is_Some None))
      by (done || by intros []).
  - cbn [cmp_bool default from_option id]. destruct (Z.compare_spec oa ob) as [E|E|E].
    + rewrite E, Z.eqb_refl. cbn [negb]. apply string_ltb_less_of.
    + rewrite (proj2 (Z.eqb_neq _ _)) by lia. cbn [negb]. by apply Z.ltb_lt.
    + rewrite (proj2 (Z.eqb_neq _ _)) by lia. cbn [negb]. apply Z.ltb_ge. lia.
  - done.
  - done.
  - cbn [cmp_bool default]. simpl. apply string_ltb_less_of.
Qed.

Lemma ordinal_cmp_eq {D} (a b : GroupingPosting D) : ordinal_cmp a b = Eq → ID a = ID b.
Proof.
  unfold ordinal_cmp, cmp_on, cmp_lex. cbn [fst snd].
  destruct (cmp_bool _ _); [|done..]. destruct (Z.compare _ _); [|done..].
  apply String.compare_eq_iff.
Qed.

(** ** [nearest] is the least eligible row *)

Section nearest.
Context {D : Type} `{Decimal D}.
Implicit Types (o m b : GroupingPosting D) (ms : list (GroupingPosting D)).

Definition eligible {S} `{GroupStore S} (st : S) opts o spending m : bool :=
  match ordinalSpan o with
  | None => false
  | Some span => negb (gs_taken st (ID m)) && step_of o m opts span spending
  end.

(** [nearest] is the first eligible row in reference order. *)
Lemma nearest_sorted {S} `{GroupStore S} (st : S) opts o spending ms :
  nearest o ms st opts spending
  = head (go_sort byOrdinal (filter (λ m, eligible st opts o spending m = true) ms)).
Proof.
  unfold nearest, eligible. destruct (ordinalSpan o) as [span|].
  - pose proof (argmin_fold byOrdinal ordinal_cmp byOrdinal_cmp
      (λ m, negb (gs_taken st (ID m)) && step_of o m opts span spending) ms None) as E.
    simpl in E. rewrite <- E. apply foldl_ext_in. intros b m _. by destruct (gs_taken st (ID m)).
  - induction ms as [|m ms IH]; [done|]. by rewrite filter_cons, decide_False.
Qed.

Lemma nearest_perm {S} `{GroupStore S} (st : S) opts o spending ms ms' :
  distinct_ids ms → ms ≡ₚ ms' → nearest o ms st opts spending = nearest o ms' st opts spending.
Proof.
  intros Hnd Hp. rewrite !nearest_sorted. f_equal.
  apply (go_sort_unique _ ordinal_cmp byOrdinal_cmp); [|by rewrite Hp].
  intros x y [_ Hx]%list_elem_of_filter [_ Hy]%list_elem_of_filter E%ordinal_cmp_eq.
  by apply (distinct_ids_inj ms).
Qed.

Lemma nearest_sim {S T} `{GroupStore S, GroupStore T} (R : S → T → Prop) `{!GroupSim R}
    s t opts o spending ms :
  R s t → nearest o ms s opts spending = nearest o ms t opts spending.
Proof.
  intros HR. rewrite !nearest_sorted. do 2 f_equal. apply filter_ext_in. intros m _.
  unfold eligible. by rewrite (sim_taken _ _ _ HR).
Qed.

Lemma deposit_sim : RuleSim (@Deposit D _).
Proof.
  intros S T ? ? R HS ps opts s t HR. simpl. unfold deposit_Apply, money_rows.
  rewrite (sim_free R ID ps s t HR).
  apply foldl_rel; [done|]. intros s' t' o _ HR'. unfold open_run, run_of.
  rewrite (sim_taken _ _ _ HR'), !(nearest_sim R s' t') by done.
  case_match; [done|]. by apply (sim_claim_state R).
Qed.

Lemma deposit_order : RuleOrder (@Deposit D _).
Proof.
  intros ps ps' opts t Hnd _ Hp. simpl. unfold deposit_Apply.
  assert (money_rows t ps ≡ₚ money_rows t ps') as Hrows by (unfold money_rows; by rewrite Hp).
  assert (distinct_ids (money_rows t ps)) as Hnd'.
  { unfold money_rows. eapply distinct_ids_sub; [|exact Hnd].
    etransitivity; apply sublist_filter. }
  rewrite (go_sort_unique byOrdinal ordinal_cmp byOrdinal_cmp
    (filter (λ p, could_open p = true) (money_rows t ps))
    (filter (λ p, could_open p = true) (money_rows t ps'))).
  - apply foldl_ext_in. intros st o _. unfold open_run, run_of. case_match; [done|].
    assert (∀ sp, nearest o (filter (λ p, could_open p = false ∧ could_step p = true)
        (money_rows t ps)) st opts sp
      = nearest o (filter (λ p, could_open p = false ∧ could_step p = true)
        (money_rows t ps')) st opts sp) as E; [|by rewrite !E].
    intros sp. apply nearest_perm; [|by rewrite Hrows].
    eapply distinct_ids_sub; [apply sublist_filter|done].
  - intros x y [_ Hx]%list_elem_of_filter [_ Hy]%list_elem_of_filter E%ordinal_cmp_eq.
    by apply (distinct_ids_inj (money_rows t ps)).
  - by rewrite Hrows.
Qed.
End nearest.

(** ** What a run is *)

Section runs.
Context {D : Type} `{DecimalLaws D}.
Implicit Types (o m : GroupingPosting D) (ms ps : list (GroupingPosting D)).

(** [m] is a step of the run [o] opens: the same account of the same broker, a
    reference after [o]'s within the span [o]'s source states, and the same amount to
    within [Money]. *)
Definition run_step (opts : Opts D) o m : Prop :=
  Account m = Account o ∧ PBroker m = PBroker o ∧
  (∃ span gap, ordinalSpan o = Some span ∧ forwardGap o m = Some gap ∧ (0 < gap ≤ span)%Z) ∧
  (Qabs (Qabs (dval (Quantity m)) - Qabs (dval (Quantity o))) < dval (Money opts))%Q.

Lemma nearest_spec (s : State) opts o ms spending m :
  nearest o ms s opts spending = Some m →
  m ∈ ms ∧ ID m ≠ ID o ∧ is_neg (Quantity m) = spending ∧ Taken s (ID m) = false ∧ run_step opts o m.
Proof.
  rewrite nearest_sorted. intros Hm.
  assert (m ∈ filter (λ m, eligible s opts o spending m = true) ms) as [He Hin]%list_elem_of_filter.
  { rewrite <- (elem_of_go_sort byOrdinal). by apply head_Some_elem_of. }
  unfold eligible in He. destruct (ordinalSpan o) as [span|] eqn:Hspan; [|done].
  apply andb_true_iff in He as [Ht%negb_true_iff He]. unfold step_of in He.
  case_decide as Hid; [done|]. destruct (_ || _) eqn:E in He; [done|].
  apply orb_false_iff in E as [[Ha Hb]%orb_false_iff Hn].
  apply negb_false_iff in Ha, Hb, Hn. apply bool_decide_eq_true in Ha, Hb. apply eqb_prop in Hn.
  destruct (forwardGap o m) as [gap|] eqn:Hgap; [|done].
  destruct (_ || _) eqn:E in He; [done|]. apply orb_false_iff in E as [E1%Z.leb_gt E2%Z.ltb_ge].
  apply negb_true_iff in He. unfold dec_geb in He. apply dec_leb_gt in He.
  autorewrite with dval in He. split_and!; try done. unfold run_step. split_and!; try done.
  exists span, gap. done.
Qed.

Lemma elem_of_run_of (s : State) opts o ms m :
  m ∈ run_of o ms s opts → ∃ spending, nearest o ms s opts spending = Some m.
Proof.
  unfold run_of. destruct (nearest o ms s opts true) as [m1|] eqn:E1,
    (nearest o ms s opts false) as [m2|] eqn:E2; simpl; rewrite ?elem_of_cons; set_solver.
Qed.

Definition run_ids (r : GroupingPosting D * list (GroupingPosting D)) : list string :=
  ID r.1 :: (ID <$> r.2).

(** A run the rule claimed. *)
Definition sound_run (opts : Opts D) (s' : State) ps (r : GroupingPosting D * list (GroupingPosting D))
    : Prop :=
  r.1 ∈ ps ∧ isMoney r.1 = true ∧ could_open r.1 = true ∧
  r.2 ≠ [] ∧ NoDup ((λ m, is_neg (Quantity m)) <$> r.2) ∧
  st_resolved s' !! ID r.1 = Some TRANSFER ∧
  ∀ m, m ∈ r.2 → m ∈ ps ∧ isMoney m = true ∧ could_open m = false ∧ run_step opts r.1 m ∧
    same_group s' (ID r.1) (ID m).

Lemma run_of_spec (s : State) opts o ms :
  distinct_ids ms →
  NoDup (run_ids (o, run_of o ms s opts)) ∧
  NoDup ((λ m, is_neg (Quantity m)) <$> run_of o ms s opts) ∧
  ∀ m, m ∈ run_of o ms s opts → m ∈ ms ∧ run_step opts o m.
Proof.
  intros Hnd. unfold run_of, run_ids.
  destruct (nearest o ms s opts true) as [m1|] eqn:E1, (nearest o ms s opts false) as [m2|] eqn:E2;
    try (apply nearest_spec in E1 as (? & ? & Hn1 & _ & ?));
    try (apply nearest_spec in E2 as (? & ? & Hn2 & _ & ?)); csimpl.
  - assert (ID m1 ≠ ID m2) as Hne.
    { intros Heq. assert (m1 = m2) as -> by by apply (distinct_ids_inj ms). congruence. }
    split_and!; [repeat constructor; set_solver|rewrite Hn1, Hn2; repeat constructor; set_solver|].
    intros m [->|[->|[]%elem_of_nil]%elem_of_cons]%elem_of_cons; done.
  - split_and!; [repeat constructor; set_solver|repeat constructor; set_solver|].
    intros m ->%list_elem_of_singleton. done.
  - split_and!; [repeat constructor; set_solver|repeat constructor; set_solver|].
    intros m ->%list_elem_of_singleton. done.
  - split_and!; [repeat constructor; set_solver|repeat constructor; set_solver|set_solver].
Qed.

Lemma member_id m : MemberID (member m) = ID m.
Proof. unfold member. by case_match. Qed.

Lemma open_run_cases (s : State) opts o ms :
  valid s → distinct_ids ms →
  let s' := open_run ms opts s o in
  let r := (o, run_of o ms s opts) in
  s' = s ∨ (r.2 ≠ [] ∧ valid s' ∧ extends s s' ∧ (∀ id, id ∈ run_ids r → id ∉ st_claimed s) ∧
    st_claimed s' = list_to_set (run_ids r) ∪ st_claimed s ∧
    st_resolved s' !! ID o = Some TRANSFER ∧ ∀ m, m ∈ r.2 → same_group s' (ID o) (ID m)).
Proof.
  intros Hv Hnd s' r. unfold s', open_run. destruct (gs_taken s (ID o)); [by left|].
  cbn [gs_claim state_store]. set (cl := opener_member o :: _).
  destruct (claim_cases s cl) as [->|(m0 & m1 & cl' & E & Hms & ->)]; [by left|right].
  cbn [fst]. assert (m0 = opener_member o) as -> by (unfold cl in E; congruence).
  assert (MemberID <$> cl = run_ids r) as Hids.
  { unfold cl, run_ids, r. csimpl. f_equal. rewrite <- list_fmap_compose.
    apply list_fmap_ext. intros _ m _. apply member_id. }
  destruct (run_of_spec s opts o ms Hnd) as (Hnod & _ & _). fold r in Hnod.
  assert (known s (ID o) = true) as Hko by (apply (Hms (opener_member o)); left).
  destruct (takes_extends s (ID o) cl Hv Hko Hms) as [Hv' He].
  destruct (takes_spec s (ID o) cl Hv Hko) as (_ & _ & Hr & Hc & Hg); [naive_solver|].
  rewrite Hids in Hc, Hg. change (MemberID (opener_member o)) with (ID o).
  split_and!; try done.
  - unfold r. simpl. intros E'. unfold cl in E. by rewrite E' in E.
  - rewrite <- Hids. intros id (m & -> & Hm)%list_elem_of_fmap.
    apply Hms in Hm as [_ Hm]. by apply bool_decide_eq_false in Hm.
  - rewrite Hr. unfold cl. rewrite filter_cons, decide_True by done.
    destruct (filter _ (member <$> _)) as [|m l] eqn:Ef; [done|exfalso].
    assert (m ∈ filter (λ x, MemberID x = ID o) (member <$> run_of o ms s opts))
      as [Heq Hm]%list_elem_of_filter by (rewrite Ef; left).
    apply NoDup_cons in Hnod as [Hno _]. apply Hno. unfold r. cbn [snd fst]. rewrite <- Heq.
    apply list_elem_of_fmap in Hm as (x & -> & Hx). rewrite member_id. by apply list_elem_of_fmap_2.
  - intros m Hm. apply Hg. right. split.
    + exists (ID o). split; [left|]. by apply same_group_refl.
    + exists (ID m). split; [right; right; by apply list_elem_of_fmap_2|].
      apply same_group_refl; [done|].
      destruct (Hms (member m)) as [Hk _]; [|by rewrite member_id in Hk].
      right. by apply list_elem_of_fmap_2.
Qed.

Lemma open_runs_spec opts ps ms openers (s : State) :
  valid s → distinct_ids ms →
  (∀ o, o ∈ openers → o ∈ ps ∧ isMoney o = true ∧ could_open o = true) →
  (∀ m, m ∈ ms → m ∈ ps ∧ isMoney m = true ∧ could_open m = false) →
  let s' := foldl (open_run ms opts) s openers in
  valid s' ∧ extends s s' ∧ ∃ runs,
    (∀ r, r ∈ runs → sound_run opts s' ps r) ∧ NoDup (runs ≫= run_ids) ∧
    (∀ id, id ∈ runs ≫= run_ids → id ∉ st_claimed s) ∧
    st_claimed s' = list_to_set (runs ≫= run_ids) ∪ st_claimed s.
Proof.
  intros Hv Hnd Hop Hms. revert s Hv. induction openers as [|o os IH]; intros s Hv s'.
  { split_and!; [done|apply extends_refl|]. exists []. split_and!; [set_solver|constructor|set_solver..]. }
  specialize (IH (λ x H, Hop x (list_elem_of_further _ _ _ H))).
  unfold s'. cbn [foldl].
  destruct (open_run_cases s opts o ms Hv Hnd) as [->|(Hne & Hv1 & He1 & Hfree & Hc1 & Hr1 & Hg1)];
    [by apply IH|].
  destruct (IH (open_run ms opts s o) Hv1) as (Hv2 & He2 & runs & Hs2 & Hnd2 & Hf2 & Hc2).
  destruct (run_of_spec s opts o ms Hnd) as (Hnod & Hdir & Hsteps).
  set (r := (o, run_of o ms s opts)) in *.
  split_and!; [done|by eapply extends_trans|].
  exists (r :: runs). change ((r :: runs) ≫= run_ids) with (run_ids r ++ (runs ≫= run_ids)).
  rewrite Hc1 in Hf2. split_and!.
  - intros r' [->|Hr']%elem_of_cons; [|auto].
    destruct (Hop o) as (? & ? & ?); [left|]. unfold sound_run, r. cbn [fst snd].
    split_and!; try done.
    + rewrite (ext_resolved _ _ He2); [done|]. rewrite Hc1. unfold run_ids, r. simpl. set_solver.
    + intros m Hm. destruct (Hsteps m Hm) as [Hin Hstep]. destruct (Hms m Hin) as (? & ? & ?).
      split_and!; try done. apply (ext_groups _ _ He2). by apply Hg1.
  - apply NoDup_app. split_and!; [done| |done].
    intros id Hid Hid'%Hf2. apply Hid'. apply elem_of_union_l, elem_of_list_to_set. done.
  - intros id [Hid|Hid%Hf2]%elem_of_app; [auto|]. set_solver.
  - rewrite Hc2, Hc1, list_to_set_app_L. set_solver.
Qed.

(** Deposit runs are what the source reports them as.  From any reachable state
    the rule claims runs no two of which share a posting.  Each is an opener (money
    arriving, a transfer under every reading, resolved to TRANSFER) with at most one
    row of each direction, every row money of the opener's account and broker, with
    a reference strictly after the opener's and within its span and the opener's
    amount to within [Money], and none of them an opener itself. *)
Theorem deposit_runs opts ps s :
  rtc step (newState ps) s → distinct_ids ps →
  let s' := deposit_Apply ps s opts in
  ∃ runs, (∀ r, r ∈ runs → sound_run opts s' ps r) ∧ NoDup (runs ≫= run_ids) ∧
    (∀ id, id ∈ runs ≫= run_ids → Taken s id = false) ∧
    st_claimed s' = list_to_set (runs ≫= run_ids) ∪ st_claimed s.
Proof.
  intros Hs Hnd s'.
  destruct (open_runs_spec opts ps
    (filter (λ p, could_open p = false ∧ could_step p = true) (money_rows s ps))
    (go_sort byOrdinal (filter (λ p, could_open p = true) (money_rows s ps))) s)
    as (_ & _ & runs & H1 & H2 & H3 & H4).
  - by eapply reachable_valid.
  - eapply distinct_ids_sub; [|exact Hnd]. unfold money_rows.
    do 2 (etransitivity; [apply sublist_filter|]). apply sublist_filter.
  - intros o Ho. rewrite elem_of_go_sort in Ho. unfold money_rows in Ho.
    rewrite !list_elem_of_filter in Ho. tauto.
  - intros m Hm. unfold money_rows in Hm. rewrite !list_elem_of_filter in Hm. tauto.
  - exists runs. split_and!; try done. intros id Hid%H3. by apply bool_decide_eq_false.
Qed.
End runs.

(** ** A deposit *)

Section witnesses.
#[local] Existing Instances QDecimal.q_decimal QDecimal.q_decimal_laws.

Definition sample_ref (n : Z) : Correlation := {|
  Label := "ref"; Token := "t"; Ordinal := Some n; Scope := ScopeAccount;
  Match := [MatchOrdinal]; OrdinalSpan := Some 10%Z; CorrJobID := "j" |}.

Definition sample_row (id : string) (date : Z) (qty : Q) (declared : list TxType) (n : Z)
    : GroupingPosting Q := {|
  ID := id; UserID := "u"; PBroker := FIDELITY; Account := "isa"; OrderDate := date;
  InstrumentID := "gbp"; Quantity := qty; UnitPrice := None; SettlementAmount := None;
  Declared := declared; JobID := "j"; GroupID := id; Resolved := "TRANSFER";
  Correlations := [sample_ref n] |}.

Definition sample_run : list (GroupingPosting Q) :=
  [sample_row "d1" 0 500%Q [TRANSFER] 100; sample_row "d2" 0 (-500)%Q [TRADE_CASH] 101;
   sample_row "d3" (3 * day_ns) 500%Q [TRADE_CASH; TRANSFER] 103].

Lemma deposit_runs_witness :
  let s' := deposit_Apply sample_run (newState sample_run) DefaultOpts in
  Taken s' "d1" = true ∧ Taken s' "d3" = true ∧
  ∃ runs, NoDup (runs ≫= run_ids (D:=Q)) ∧ st_claimed s' = list_to_set (runs ≫= run_ids) ∪ ∅.
Proof.
  intros s'. split; [vm_compute; reflexivity|]. split; [vm_compute; reflexivity|].
  destruct (deposit_runs DefaultOpts sample_run (newState sample_run)) as (runs & _ & Hnd & _ & Hc).
  - apply rtc_refl.
  - apply (bool_decide_unpack _). vm_compute. exact I.
  - exists runs. split; [exact Hnd|exact Hc].
Defined.
End witnesses.
End Deposit.
