(* ===== verification/Charge.v ===== *)
(** * Charges

    server/grouping/charge.go: attach a charge to the acquisition whose own figures
    account for it.  [subsetSumming] is the bounded search; [subset_sum_correct]
    shows that it finds a smallest explanation whenever there is one. *)

From Stdlib Require Import QArith Qabs Lqa.
From S2P Require Import Prelude Decimal TxType Posting GroupState Grouping Exact Trade.

Local Open Scope nat_scope.

Module Charge.
Import TxType Posting GroupState Grouping Trade.

Definition ChargePrecedence : Z := 400.
Definition maxChargeSubset : nat := 3.

Definition resolvedOfPosting {D} (ps : list (GroupingPosting D)) (id : string) : TxType :=
  match head (filter (λ p, ID p = id) ps) with
  | Some p => Resolve (Declared p)
  | None => TX_TYPE_UNSPECIFIED
  end.

Record chargeCandidate := { anchorID : string; chargeIDs : list string }.

Definition charge_better (c o : chargeCandidate) : bool :=
  if negb (length (chargeIDs c) =? length (chargeIDs o)) then
    length (chargeIDs c) <? length (chargeIDs o)
  else String.ltb (anchorID c) (anchorID o).

Section rule.
Context {D : Type} `{Decimal D}.
Implicit Types (p m asset : GroupingPosting D).

Definition isCharge p : bool :=
  isMoney p && negb (is_zero (Quantity p)) && MustBe (Declared p) [EXPENSE].

(** What the loop of [unexplained] takes off the gap for one member of the group. *)
Definition explains asset m : bool :=
  if decide (ID m = ID asset) then false
  else isCharge m || (isMoney m && MayBe (Declared m) [TRADE_CASH]).

Definition unexplained asset (group : list (GroupingPosting D)) : D * bool :=
  if isMoney asset then (dec_zero, false)
  else match SettlementAmount asset with
  | None => (dec_zero, false)
  | Some amount =>
      if negb (is_pos (Quantity asset)) then (dec_zero, false)
      else
        let gap := foldl (λ gap m,
          if explains asset m then dec_sub gap (dec_abs (Quantity m)) else gap)
          (dec_abs amount) group in
        (gap, is_pos gap)
  end.

(** The recursive search of [subsetSumming]; [cs] are the charges from [start] on. *)
Fixpoint pick (tol : D) (depth : nat) (cs : list (GroupingPosting D)) (left : D)
    (acc : list string) : option (list string) :=
  if dec_ltb (dec_abs left) tol && (0 <? length acc) then Some acc
  else match depth with
  | O => None
  | S depth' =>
      (fix loop (cs : list (GroupingPosting D)) : option (list string) :=
        match cs with
        | [] => None
        | c :: cs' =>
            let amount := dec_abs (Quantity c) in
            if dec_gtb (dec_sub amount left) tol then loop cs'
            else match pick tol depth' cs' (dec_sub left amount) (acc ++ [ID c]) with
                 | Some got => Some got
                 | None => loop cs'
                 end
        end) cs
  end.

Definition subsetSumming (charges : list (GroupingPosting D)) (gap tol : D) : option (list string) :=
  foldl (λ found size,
    match found with Some got => Some got | None => pick tol size charges gap [] end)
    None (seq 1 maxChargeSubset).

(** The index by current group; the Go assignment looks the group up twice. *)
Definition by_group {S} `{GroupStore S} (ps : list (GroupingPosting D)) (st : S)
    : S * gmap string (list (GroupingPosting D)) :=
  foldl (λ acc p,
    let '(st, m) := acc in
    let '(st1, g1) := gs_group st (ID p) in
    let '(st2, g2) := gs_group st1 (ID p) in
    (st2, <[g1 := at_key m g2 ++ [p]]> m)) (st, ∅) ps.

Definition free_charges {S} `{GroupStore S} (ps : list (GroupingPosting D)) (st : S)
    (b : string * Z) : list (GroupingPosting D) :=
  sort_by_id (at_key (index_by ((λ p, (bucket p, p)) <$>
    filter (λ p, gs_taken st (ID p) = false ∧ isCharge p = true) ps)) b).

Definition charge_cands {S} `{GroupStore S} (ps : list (GroupingPosting D))
    (byGroup : gmap string (list (GroupingPosting D)))
    (free : string * Z → list (GroupingPosting D)) (opts : Opts D) (st : S)
    : S * list chargeCandidate :=
  foldl (λ acc p,
    let '(st, cands) := acc in
    let '(st1, g) := gs_group st (ID p) in
    let '(gap, ok) := unexplained p (at_key byGroup g) in
    if negb ok then (st1, cands)
    else match subsetSumming (free (bucket p)) gap (Money opts) with
         | None => (st1, cands)
         | Some ids => (st1, cands ++ [{| anchorID := ID p; chargeIDs := ids |}])
         end) (st, []) ps.

Definition attach_charges {S} `{GroupStore S} (ps : list (GroupingPosting D)) (st : S)
    (c : chargeCandidate) : S :=
  (gs_attach st (anchorID c)
    ((λ id, {| MemberID := id; MemberResolved := resolvedOfPosting ps id |}) <$> chargeIDs c)).1.

Definition charge_Apply {S} `{GroupStore S} (ps : list (GroupingPosting D)) (st : S)
    (opts : Opts D) : S :=
  let '(st1, byGroup) := by_group ps st in
  let free := free_charges ps st1 in
  let '(st2, cands) := charge_cands ps byGroup free opts st1 in
  foldl (attach_charges ps) st2 (go_sort charge_better cands).

Definition Charge : Rule D := {|
  Name := "charge";
  Precedence := ChargePrecedence;
  Expand := expandByDay;
  Apply := @charge_Apply;
|}.
End rule.

(** ** The search *)

Section subset.
Context {D : Type} `{DecimalLaws D}.
Implicit Types (cs sub : list (GroupingPosting D)) (tol left : D).

Definition charge_sum sub : Q := foldr (λ p q, Qabs (dval (Quantity p)) + q)%Q 0%Q sub.

Lemma charge_sum_nonneg sub : (0 <= charge_sum sub)%Q.
Proof.
  induction sub as [|p sub IH]; simpl; [lra|].
  pose proof (Qabs_nonneg (dval (Quantity p))). lra.
Qed.

Definition within (tol : D) (x : Q) : Prop := (Qabs x < dval tol)%Q.

#[global] Instance within_proper tol : Proper (Qeq ==> iff) (within tol).
Proof. intros x y Hxy. unfold within. by rewrite Hxy. Qed.

Lemma within_dec tol left : dec_ltb (dec_abs left) tol = true ↔ within tol (dval left).
Proof. rewrite dec_ltb_lt. unfold within. by rewrite dval_abs. Qed.

Lemma pick_sound tol depth cs left acc r :
  pick tol depth cs left acc = Some r →
  ∃ sub, sub `sublist_of` cs ∧ length sub ≤ depth ∧ r = acc ++ (ID <$> sub) ∧
    r ≠ [] ∧ within tol (dval left - charge_sum sub).
Proof.
  revert cs left acc. induction depth as [|d IH]; intros cs left acc; simpl.
  all: destruct (dec_ltb (dec_abs left) tol && (0 <? length acc)) eqn:E.
  1, 3: apply andb_true_iff in E as [E1%within_dec E2%Nat.ltb_lt]; intros [= <-];
    exists []; split_and!; [apply sublist_nil_l|simpl; lia|by rewrite app_nil_r| |simpl];
    [by destruct acc; simpl in *; [lia|]|];
    assert (dval left - 0 == dval left)%Q as -> by ring; done.
  - done.
  - induction cs as [|c cs IHcs]; [done|].
    destruct (dec_gtb _ _).
    { intros Hr. destruct (IHcs Hr) as (sub & ? & ?). exists sub. split; [by constructor|done]. }
    destruct (pick tol d cs _ _) as [got|] eqn:Ep.
    + intros [= ->]. apply IH in Ep as (sub & Hsub & Hlen & Hr & Hne & Hw).
      exists (c :: sub). split_and!; [by constructor|simpl; lia| |done|].
      * rewrite Hr, <- app_assoc. done.
      * simpl. rewrite dval_sub, dval_abs in Hw.
        assert (dval left - (Qabs (dval (Quantity c)) + charge_sum sub)
          == dval left - Qabs (dval (Quantity c)) - charge_sum sub)%Q as -> by ring. done.
    + intros Hr. destruct (IHcs Hr) as (sub & ? & ?). exists sub. split; [by constructor|done].
Qed.

Lemma pick_complete tol depth cs left acc sub :
  sub `sublist_of` cs → length sub ≤ depth → (acc ≠ [] ∨ sub ≠ []) →
  within tol (dval left - charge_sum sub) → is_Some (pick tol depth cs left acc).
Proof.
  revert cs left acc sub. induction depth as [|d IH]; intros cs left acc sub Hsub Hlen Hne Hw; simpl.
  all: destruct (dec_ltb (dec_abs left) tol && (0 <? length acc)) eqn:E; [done|].
  all: assert (sub ≠ []) as Hsne by
    (intros ->; apply andb_false_iff in E as [E|E];
     [enough (dec_ltb (dec_abs left) tol = true) by congruence; apply within_dec;
      simpl in Hw; assert (dval left - 0 == dval left)%Q as Heq by ring; by rewrite Heq in Hw
     |apply Nat.ltb_ge in E; destruct acc; simpl in E; [naive_solver|lia]]).
  { destruct sub; simpl in Hlen; [done|lia]. }
  clear Hne E. revert sub Hsub Hlen Hsne Hw. induction cs as [|c cs IHcs]; intros sub Hsub Hlen Hsne Hw.
  { by apply sublist_nil_r in Hsub as ->. }
  assert (Hskip : sub `sublist_of` cs → is_Some ((fix loop (cs : list (GroupingPosting D)) :=
        match cs with
        | [] => None
        | c :: cs' =>
            if dec_gtb (dec_sub (dec_abs (Quantity c)) left) tol then loop cs'
            else match pick tol d cs' (dec_sub left (dec_abs (Quantity c))) (acc ++ [ID c]) with
                 | Some got => Some got
                 | None => loop cs'
                 end
        end) cs)) by eauto.
  inversion Hsub as [|? sub' ? Hsub'|? ? ? Hsub']; subst.
  - assert (within tol (dval (dec_sub left (dec_abs (Quantity c))) - charge_sum sub')) as Hw'.
    { simpl in Hw. rewrite dval_sub, dval_abs.
      assert (dval left - Qabs (dval (Quantity c)) - charge_sum sub' ==
        dval left - (Qabs (dval (Quantity c)) + charge_sum sub'))%Q as -> by ring. done. }
    destruct (dec_gtb _ _) eqn:Eg.
    + exfalso. unfold dec_gtb in Eg. apply dec_ltb_lt in Eg. rewrite dval_sub, dval_abs in Eg.
      unfold within in Hw'. apply Qabs_Qlt_condition in Hw' as [Hlo _].
      rewrite dval_sub, dval_abs in Hlo. pose proof (charge_sum_nonneg sub'). lra.
    + destruct (IH cs (dec_sub left (dec_abs (Quantity c))) (acc ++ [ID c]) sub') as [got ->];
        [done|simpl in Hlen; lia|left; by destruct acc|done|done].
  - destruct (dec_gtb _ _); [by apply Hskip|]. destruct (pick tol d cs _ _); [done|by apply Hskip].
Qed.

Lemma subsetSumming_cases charges gap tol :
  subsetSumming charges gap tol =
  match pick tol 1 charges gap [] with Some r => Some r | None =>
  match pick tol 2 charges gap [] with Some r => Some r | None => pick tol 3 charges gap [] end end.
Proof. unfold subsetSumming. simpl. repeat case_match; congruence. Qed.

(** A non-empty list of charges that accounts for the gap. *)
Definition explanation charges (gap tol : D) sub : Prop :=
  sub `sublist_of` charges ∧ sub ≠ [] ∧ length sub ≤ maxChargeSubset ∧
  within tol (dval gap - charge_sum sub).

Lemma pick_none_no_sub tol d charges gap sub :
  pick tol d charges gap [] = None → explanation charges gap tol sub → d < length sub.
Proof.
  intros Hp (Hs & Hne & _ & Hw). destruct (Nat.le_gt_cases (length sub) d) as [Hle|]; [|done].
  destruct (pick_complete tol d charges gap [] sub) as [r Hr]; [done|done|by right|done|congruence].
Qed.

Lemma pick_explanation tol d charges gap r :
  d ≤ maxChargeSubset → pick tol d charges gap [] = Some r →
  ∃ sub, explanation charges gap tol sub ∧ r = ID <$> sub ∧ length sub ≤ d.
Proof.
  intros Hd (sub & Hs & Hlen & -> & Hne & Hw)%pick_sound. exists sub. split_and!; try done.
  split_and!; try done; [|lia]. by intros ->.
Qed.

(** The charge search is exact.  [subsetSumming] returns charges that account
    for the gap to within the tolerance, as few as any explanation of at most three
    has; and it returns none only when no one, two or three charges account for it. *)
Theorem subset_sum_correct charges gap tol :
  match subsetSumming charges gap tol with
  | Some ids => ∃ sub, explanation charges gap tol sub ∧ ids = ID <$> sub ∧
      ∀ sub', explanation charges gap tol sub' → length sub ≤ length sub'
  | None => ∀ sub', ¬ explanation charges gap tol sub'
  end.
Proof.
  rewrite subsetSumming_cases.
  destruct (pick tol 1 charges gap []) as [r|] eqn:E1.
  { apply pick_explanation in E1 as (sub & He & -> & Hlen); [|unfold maxChargeSubset; lia].
    exists sub. split_and!; [done..|]. intros sub' (_ & Hne & _). destruct sub'; simpl; [done|lia]. }
  destruct (pick tol 2 charges gap []) as [r|] eqn:E2.
  { apply pick_explanation in E2 as (sub & He & -> & Hlen); [|unfold maxChargeSubset; lia].
    exists sub. split_and!; [done..|]. intros sub' He'. apply (pick_none_no_sub _ _ _ _ _ E1) in He'. lia. }
  destruct (pick tol 3 charges gap []) as [r|] eqn:E3.
  { apply pick_explanation in E3 as (sub & He & -> & Hlen); [|unfold maxChargeSubset; lia].
    exists sub. split_and!; [done..|]. intros sub' He'. apply (pick_none_no_sub _ _ _ _ _ E2) in He'. lia. }
  intros sub' He'. pose proof (pick_none_no_sub _ _ _ _ _ E3 He') as Hlt.
  destruct He' as (_ & _ & Hmax & _). unfold maxChargeSubset in Hmax. lia.
Qed.
End subset.

(** ** Simulation *)

Section sim.
Context {D : Type} `{Decimal D}.
Implicit Types (ps : list (GroupingPosting D)).

Lemma by_group_sim {S T} `{GroupStore S, GroupStore T} (R : S → T → Prop) `{!GroupSim R} ps s t :
  R s t → R (by_group ps s).1 (by_group ps t).1 ∧ (by_group ps s).2 = (by_group ps t).2.
Proof.
  intros HR. unfold by_group. apply (foldl_rel (λ a b, R a.1 b.1 ∧ a.2 = b.2)); [done|].
  clear s t HR. intros [s m] [t m'] p _ [HR Hm]. simpl in *. subst m'.
  pose proof (sim_group _ _ (ID p) HR) as HG1.
  destruct (gs_group s (ID p)) as [s1 g1], (gs_group t (ID p)) as [t1 h1]. simpl in HG1.
  destruct HG1 as [HR1 ->]. pose proof (sim_group _ _ (ID p) HR1) as HG2.
  destruct (gs_group s1 (ID p)) as [s2 g2], (gs_group t1 (ID p)) as [t2 h2]. simpl in HG2.
  destruct HG2 as [HR2 ->]. done.
Qed.

Lemma free_charges_sim {S T} `{GroupStore S, GroupStore T} (R : S → T → Prop) `{!GroupSim R} ps s t b :
  R s t → free_charges ps s b = free_charges ps t b.
Proof.
  intros HR. unfold free_charges. do 4 f_equal. apply filter_ext_in. intros p _.
  by rewrite (sim_taken _ _ _ HR).
Qed.

Lemma charge_cands_sim {S T} `{GroupStore S, GroupStore T} (R : S → T → Prop) `{!GroupSim R}
    ps byGroup f f' opts s t :
  (∀ b, f b = f' b) → R s t →
  R (charge_cands ps byGroup f opts s).1 (charge_cands ps byGroup f' opts t).1 ∧
  (charge_cands ps byGroup f opts s).2 = (charge_cands ps byGroup f' opts t).2.
Proof.
  intros Hf HR. unfold charge_cands. apply (foldl_rel (λ a b, R a.1 b.1 ∧ a.2 = b.2)); [done|].
  clear s t HR. intros [s m] [t m'] p _ [HR Hm]. simpl in *. subst m'.
  pose proof (sim_group _ _ (ID p) HR) as HG1.
  destruct (gs_group s (ID p)) as [s1 g1], (gs_group t (ID p)) as [t1 h1]. simpl in HG1.
  destruct HG1 as [HR1 ->]. rewrite Hf.
  destruct (unexplained p (at_key byGroup h1)) as [gap ok].
  destruct (negb ok); [done|]. by destruct (subsetSumming _ _ _).
Qed.

Lemma charge_sim : RuleSim (@Charge D _).
Proof.
  intros S T ? ? R HS ps opts s t HR. simpl. unfold charge_Apply.
  pose proof (by_group_sim R ps s t HR) as HG1.
  destruct (by_group ps s) as [s1 m], (by_group ps t) as [t1 m']. simpl in HG1.
  destruct HG1 as [HR1 ->].
  pose proof (charge_cands_sim R ps m' (free_charges ps s1) (free_charges ps t1) opts s1 t1
    (λ b, free_charges_sim R ps s1 t1 b HR1) HR1) as HG2.
  destruct (charge_cands ps m' (free_charges ps s1) opts s1) as [s2 c],
    (charge_cands ps m' (free_charges ps t1) opts t1) as [t2 c']. simpl in HG2.
  destruct HG2 as [HR2 ->]. apply foldl_rel; [done|].
  intros s' t' k _ HR'. unfold attach_charges. by apply (sim_attach_state R).
Qed.
End sim.

(** ** Order *)

Section order.
Context {D : Type} `{DecimalLaws D}.
Implicit Types (ps : list (GroupingPosting D)) (t : PState).

Lemma by_group_abstract ps t :
  by_group ps t = (t, index_by ((λ p, (prep t (ID p), p)) <$> ps)).
Proof.
  unfold by_group, index_by. simpl. generalize (∅ : gmap string (list (GroupingPosting D))).
  induction ps as [|p ps IH]; intros m; simpl; [done|]. by rewrite IH.
Qed.

(** The candidate one posting yields, if any. *)
Definition cand_at ps t opts (p : GroupingPosting D) : option chargeCandidate :=
  let '(gap, ok) := unexplained p (filter (λ q, prep t (ID q) = prep t (ID p)) ps) in
  if negb ok then None
  else (λ ids, {| anchorID := ID p; chargeIDs := ids |}) <$>
    subsetSumming (free_charges ps t (bucket p)) gap (Money opts).

Lemma sel_by_group ps t g :
  sel g ((λ p, (prep t (ID p), p)) <$> ps) = filter (λ q, prep t (ID q) = g) ps.
Proof.
  unfold sel. induction ps as [|p ps IH]; csimpl; [done|].
  rewrite !filter_cons. simpl. case_decide; csimpl; by rewrite IH.
Qed.

Lemma charge_cands_abstract ps t opts l :
  charge_cands l (index_by ((λ p, (prep t (ID p), p)) <$> ps)) (free_charges ps t) opts t
  = (t, omap (cand_at ps t opts) l).
Proof.
  unfold charge_cands. match goal with |- foldl ?f _ _ = _ =>
    enough (∀ cs, foldl f (t, cs) l = (t, cs ++ omap (cand_at ps t opts) l)) as E by apply E end.
  induction l as [|p l IH]; intros cs.
  { simpl. by rewrite app_nil_r. }
  cbn [foldl gs_group pstate_store]. rewrite at_key_index_by, sel_by_group.
  assert (omap (cand_at ps t opts) (p :: l) = option_list (cand_at ps t opts p) ++ omap (cand_at ps t opts) l)
    as -> by (csimpl; by destruct (cand_at ps t opts p)).
  rewrite app_assoc, <- IH. f_equal. unfold cand_at.
  destruct (unexplained p _) as [gap ok]. destruct (negb ok); simpl; [by rewrite app_nil_r|].
  destruct (subsetSumming _ _ _); simpl; [done|by rewrite app_nil_r].
Qed.

Lemma charge_Apply_abstract ps t opts :
  charge_Apply ps t opts
  = foldl (attach_charges ps) t (go_sort charge_better (omap (cand_at ps t opts) ps)).
Proof. unfold charge_Apply. by rewrite by_group_abstract, charge_cands_abstract. Qed.

(** The gap does not depend on the order the group's postings are in, as a number. *)
Lemma gap_value (f : GroupingPosting D → bool) (g0 : D) l :
  (dval (foldl (λ gap m, if f m then dec_sub gap (dec_abs (Quantity m)) else gap) g0 l)
   == dval g0 - charge_sum (filter (λ m, f m = true) l))%Q.
Proof.
  revert g0. induction l as [|m l IH]; intros g0; simpl; [ring|].
  rewrite IH, filter_cons. destruct (f m) eqn:E.
  - rewrite decide_True by done. simpl. rewrite dval_sub, dval_abs. ring.
  - by rewrite decide_False.
Qed.

Lemma charge_sum_perm (l l' : list (GroupingPosting D)) : l ≡ₚ l' → (charge_sum l == charge_sum l')%Q.
Proof. induction 1; simpl; try lra. Qed.

Lemma unexplained_perm p (l l' : list (GroupingPosting D)) :
  l ≡ₚ l' → (unexplained p l).1 ≡ (unexplained p l').1 ∧ (unexplained p l).2 = (unexplained p l').2.
Proof.
  intros Hp. unfold unexplained. destruct (isMoney p); [done|].
  destruct (SettlementAmount p) as [amount|]; [|done]. destruct (negb _); [done|]. simpl.
  set (g := foldl _ _ l). set (g' := foldl _ _ l').
  assert (g ≡ g') as Hg.
  { unfold g, g', equiv, dec_equiv. rewrite !gap_value.
    rewrite (charge_sum_perm (filter _ l) (filter (λ m, explains p m = true) l')); [done|by rewrite Hp]. }
  split; [done|]. by rewrite Hg.
Qed.

Lemma pick_proper tol d cs (left left' : D) acc :
  left ≡ left' → pick tol d cs left acc = pick tol d cs left' acc.
Proof.
  revert cs left left' acc. induction d as [|d IH]; intros cs left left' acc Hl; simpl; rewrite Hl; [done|].
  destruct (_ && _); [done|]. induction cs as [|c cs IHcs]; [done|].
  rewrite Hl, (IH cs _ (dec_sub left' (dec_abs (Quantity c)))) by (by rewrite Hl).
  by rewrite IHcs.
Qed.

Lemma subsetSumming_proper cs (gap gap' tol : D) :
  gap ≡ gap' → subsetSumming cs gap tol = subsetSumming cs gap' tol.
Proof. intros Hg. rewrite !subsetSumming_cases. by rewrite !(pick_proper tol _ cs gap gap'). Qed.

Definition charge_cmp : chargeCandidate → chargeCandidate → comparison :=
  cmp_on (λ c, (length (chargeIDs c), anchorID c)) (cmp_lex Nat.compare String.compare).

Lemma charge_better_cmp c o : charge_better c o = less_of charge_cmp c o.
Proof.
  unfold charge_better, less_of, charge_cmp, cmp_on, cmp_lex. cbn [fst snd].
  destruct (Nat.compare_spec (length (chargeIDs c)) (length (chargeIDs o))) as [E|E|E].
  - rewrite E, Nat.eqb_refl. cbn [negb]. apply string_ltb_less_of.
  - rewrite (proj2 (Nat.eqb_neq _ _)) by lia. cbn [negb]. by apply Nat.ltb_lt.
  - rewrite (proj2 (Nat.eqb_neq _ _)) by lia. cbn [negb]. apply Nat.ltb_ge. lia.
Qed.

Lemma charge_cmp_anchor c o : charge_cmp c o = Eq → anchorID c = anchorID o.
Proof.
  unfold charge_cmp, cmp_on, cmp_lex. cbn [fst snd]. destruct (Nat.compare _ _); [|done..].
  apply String.compare_eq_iff.
Qed.

Lemma cand_at_anchor ps t opts p c : cand_at ps t opts p = Some c → anchorID c = ID p.
Proof.
  unfold cand_at. destruct (unexplained _ _) as [gap ok]. destruct (negb ok); [done|].
  destruct (subsetSumming _ _ _); [|done]. by intros [= <-].
Qed.

Lemma free_charges_perm ps ps' t b :
  distinct_ids ps → ps ≡ₚ ps' → free_charges ps t b = free_charges ps' t b.
Proof.
  intros Hnd Hp. unfold free_charges. rewrite !at_key_index_by.
  apply sort_by_id_unique; [|apply sel_perm; by rewrite Hp].
  unfold distinct_ids, sel. eapply sublist_NoDup; [exact Hnd|].
  apply fmap_sublist. etransitivity; [apply fmap_sublist, sublist_filter|].
  rewrite <- list_fmap_compose. unfold compose. simpl. rewrite list_fmap_id. apply sublist_filter.
Qed.

Lemma filter_id_unique ps p :
  distinct_ids ps → p ∈ ps → filter (λ q, ID q = ID p) ps = [p].
Proof.
  intros Hnd Hp. induction ps as [|q ps IH]; [by apply elem_of_nil in Hp|].
  apply NoDup_cons in Hnd as [Hq Hnd]. rewrite filter_cons. case_decide as E.
  - assert (filter (λ x, ID x = ID p) ps = []) as ->.
    { destruct (filter _ ps) as [|x l] eqn:Ef; [done|exfalso].
      assert (x ∈ filter (λ x, ID x = ID p) ps) as [Hx Hin]%list_elem_of_filter by (rewrite Ef; left).
      apply Hq. change (ID q ∈ ID <$> ps). rewrite E, <- Hx. by apply list_elem_of_fmap_2. }
    apply elem_of_cons in Hp as [->|Hp]; [done|]. exfalso. apply Hq.
    change (ID q ∈ ID <$> ps). rewrite E. by apply list_elem_of_fmap_2.
  - apply elem_of_cons in Hp as [->|Hp]; [done|]. by apply IH.
Qed.

Lemma resolvedOfPosting_perm ps ps' id :
  distinct_ids ps → ps ≡ₚ ps' → resolvedOfPosting ps id = resolvedOfPosting ps' id.
Proof.
  intros Hnd Hp. unfold resolvedOfPosting.
  assert (filter (λ p, ID p = id) ps ≡ₚ filter (λ p, ID p = id) ps') as Hf by by rewrite Hp.
  destruct (filter (λ p, ID p = id) ps) as [|p l] eqn:E.
  - apply Permutation_nil in Hf. by rewrite Hf.
  - assert (p ∈ filter (λ p, ID p = id) ps) as [<- Hin]%list_elem_of_filter by (rewrite E; left).
    rewrite (filter_id_unique ps p Hnd Hin) in E. injection E as <-.
    rewrite (filter_id_unique ps' p); [done|by eapply distinct_ids_perm|by rewrite <- Hp].
Qed.

Lemma cand_at_perm ps ps' t opts p :
  distinct_ids ps → ps ≡ₚ ps' → cand_at ps t opts p = cand_at ps' t opts p.
Proof.
  intros Hnd Hp. unfold cand_at. rewrite (free_charges_perm ps ps') by done.
  destruct (unexplained_perm p (filter (λ q, prep t (ID q) = prep t (ID p)) ps)
    (filter (λ q, prep t (ID q) = prep t (ID p)) ps')) as [Hg Hok]; [by rewrite Hp|].
  destruct (unexplained p (filter _ ps)) as [gap ok], (unexplained p (filter _ ps')) as [gap' ok'].
  simpl in *. subst ok'. destruct (negb ok); [done|]. by rewrite (subsetSumming_proper _ gap gap').
Qed.

Lemma charge_order : RuleOrder (@Charge D _).
Proof.
  intros ps ps' opts t Hnd _ Hp. simpl. rewrite !charge_Apply_abstract.
  rewrite (go_sort_unique charge_better charge_cmp charge_better_cmp
    (omap (cand_at ps t opts) ps) (omap (cand_at ps' t opts) ps')).
  - apply foldl_ext_in. intros st c _. unfold attach_charges. do 2 f_equal.
    apply list_fmap_ext. intros _ id _. f_equal. by apply resolvedOfPosting_perm.
  - intros x y (p & Hpin & Hx)%list_elem_of_omap (q & Hqin & Hy)%list_elem_of_omap E%charge_cmp_anchor.
    rewrite (cand_at_anchor _ _ _ _ _ Hx), (cand_at_anchor _ _ _ _ _ Hy) in E.
    assert (p = q) as -> by by apply (distinct_ids_inj ps). congruence.
  - rewrite (Permutation_omap _ _ _ Hp). 
    rewrite (list_omap_ext (cand_at ps t opts) (cand_at ps' t opts) ps' ps'); [done|].
    apply Forall2_same_length_lookup_2; [done|].
    intros i x y Hx Hy. rewrite Hx in Hy. injection Hy as <-. by apply cand_at_perm.
Qed.
End order.

(** ** What the rule attaches *)

Lemma refines_same_group X s t a b :
  refines X s t → a ∈ X → b ∈ X → same_group s a b ↔ prep t a = prep t b.
Proof.
  intros Hr Ha Hb. rewrite <- (ref_pdom _ _ _ Hr) in Ha, Hb.
  apply elem_of_dom in Ha as [ra Ha], Hb as [rb Hb]. unfold prep. rewrite Ha, Hb. simpl.
  pose proof (ref_root _ _ _ Hr _ _ Ha) as Hra. pose proof (ref_root _ _ _ Hr _ _ Hb) as Hrb.
  split.
  - intros (r & H1 & H2). rewrite (root_det _ _ _ _ Hra H1). symmetry. by eapply root_det.
  - intros <-. by exists ra.
Qed.

Section attachments.
Context {D : Type} `{DecimalLaws D}.
Implicit Types (ps : list (GroupingPosting D)) (a c : GroupingPosting D).

Lemma subsetSumming_explains charges (gap tol : D) ids :
  subsetSumming charges gap tol = Some ids →
  ∃ sub, explanation charges gap tol sub ∧ ids = ID <$> sub.
Proof.
  rewrite subsetSumming_cases. intros Hs.
  destruct (pick tol 1 charges gap []) eqn:E1;
    [|destruct (pick tol 2 charges gap []) eqn:E2; [|destruct (pick tol 3 charges gap []) eqn:E3; [|done]]];
    injection Hs as <-.
  all: match goal with E : pick _ _ _ _ _ = Some _ |- _ =>
    apply pick_explanation in E as (sub & ? & -> & _); [by exists sub|unfold maxChargeSubset; lia] end.
Qed.

(** The postings sharing [a]'s group in the state. *)
Definition group_of (s : State) ps a (group : list (GroupingPosting D)) : Prop :=
  group `sublist_of` ps ∧ ∀ q, q ∈ ps → q ∈ group ↔ same_group s (ID q) (ID a).

(** An acquisition [a], and charges [cs] of its account and day that the source's own
    figures account for: the stated total, less the cash and the charges the group
    already holds, is what they come to, within [Money]. *)
Definition explained (opts : Opts D) (s : State) ps a (cs : list (GroupingPosting D)) : Prop :=
  a ∈ ps ∧ isMoney a = false ∧ (0 < dval (Quantity a))%Q ∧
  cs ≠ [] ∧ length cs ≤ maxChargeSubset ∧
  (∀ c, c ∈ cs → c ∈ ps ∧ isCharge c = true ∧ bucket c = bucket a) ∧
  ∃ amount group, SettlementAmount a = Some amount ∧ group_of s ps a group ∧
    within (Money opts) (Qabs (dval amount)
      - charge_sum (filter (λ m, explains a m = true) group) - charge_sum cs).

Lemma elem_of_free_charges ps (t : PState) b c :
  c ∈ free_charges ps t b ↔ c ∈ ps ∧ ptaken t (ID c) = false ∧ isCharge c = true ∧ bucket c = b.
Proof.
  unfold free_charges. rewrite sort_by_id_perm, at_key_index_by, elem_of_sel, list_elem_of_fmap.
  setoid_rewrite list_elem_of_filter. simpl. naive_solver.
Qed.

Lemma free_charges_distinct ps (t : PState) b : distinct_ids ps → distinct_ids (free_charges ps t b).
Proof.
  intros Hnd. unfold free_charges. eapply distinct_ids_perm; [symmetry; apply sort_by_id_perm|].
  rewrite at_key_index_by. eapply distinct_ids_sub; [|exact Hnd]. unfold sel.
  etransitivity; [apply fmap_sublist, sublist_filter|].
  rewrite <- list_fmap_compose. unfold compose. simpl. rewrite list_fmap_id. apply sublist_filter.
Qed.

(** Every candidate is an explained acquisition. *)
Lemma cand_at_explained ps opts s t p k :
  refines (list_to_set (ID <$> ps)) s t → distinct_ids ps → p ∈ ps →
  cand_at ps t opts p = Some k →
  ∃ cs, chargeIDs k = ID <$> cs ∧ explained opts s ps p cs ∧
    distinct_ids cs ∧ ID p ∉ chargeIDs k.
Proof.
  intros Hr Hnd Hp. unfold cand_at.
  destruct (unexplained p _) as [gap ok] eqn:Eu. destruct ok; [|done]. cbn [negb].
  destruct (subsetSumming _ _ _) as [ids|] eqn:Es; [|done]. intros [= <-]. cbn [chargeIDs].
  apply subsetSumming_explains in Es as (cs & (Hsub & Hne & Hlen & Hw) & ->).
  assert (Hcs : ∀ c, c ∈ cs → c ∈ ps ∧ isCharge c = true ∧ bucket c = bucket p).
  { intros c Hc. apply (elem_of_sublist _ _ _ Hsub) in Hc.
    apply elem_of_free_charges in Hc. tauto. }
  unfold unexplained in Eu. destruct (isMoney p) eqn:Em; [done|].
  destruct (SettlementAmount p) as [amount|] eqn:Ea; [|done].
  destruct (is_pos (Quantity p)) eqn:Eq; [|done]. cbn [negb] in Eu. injection Eu as Hgap _.
  exists cs. split_and!; [done| | |].
  - split_and!; try done; [by apply is_pos_lt|].
    exists amount, (filter (λ q, prep t (ID q) = prep t (ID p)) ps). split_and!; [done| |].
    + split; [apply sublist_filter|]. intros q Hq. rewrite list_elem_of_filter.
      rewrite (refines_same_group _ _ _ _ _ Hr);
        [naive_solver|apply elem_of_list_to_set; by apply list_elem_of_fmap_2..].
    + rewrite <- Hgap, gap_value, dval_abs in Hw. done.
  - eapply distinct_ids_sub; [exact Hsub|]. by apply free_charges_distinct.
  - intros (c & Eid & Hc)%list_elem_of_fmap. apply Hcs in Hc as (Hc & Hch & _).
    assert (p = c) as -> by by apply (distinct_ids_inj ps).
    unfold isCharge in Hch. by rewrite Em in Hch.
Qed.

Lemma attach_charges_cases (s : State) ps k :
  valid s →
  attach_charges ps s k = s ∨
  (valid (attach_charges ps s k) ∧ extends s (attach_charges ps s k) ∧
   (∀ id, id ∈ chargeIDs k → id ∉ st_claimed s) ∧
   st_claimed (attach_charges ps s k) = list_to_set (chargeIDs k) ∪ st_claimed s ∧
   ∀ id, id ∈ chargeIDs k → same_group (attach_charges ps s k) (anchorID k) id).
Proof.
  intros Hv. unfold attach_charges. cbn [gs_attach state_store]. set (ms := _ <$> chargeIDs k).
  assert (MemberID <$> ms = chargeIDs k) as Hids.
  { unfold ms. rewrite <- list_fmap_compose. apply list_fmap_id. }
  destruct (attach_cases s (anchorID k) ms) as [->|(_ & Ha & Hms & ->)]; [by left|right]. cbn [fst].
  destruct (takes_extends s (anchorID k) ms Hv Ha) as [Hv' He]; [naive_solver|].
  destruct (takes_spec s (anchorID k) ms Hv Ha) as (_ & _ & _ & Hc & Hg); [naive_solver|].
  rewrite Hids in Hc, Hg. rewrite <- Hids. split_and!; try done; [|by rewrite Hids|].
  - intros id (m & -> & (_ & _ & Hm%bool_decide_eq_false)%Hms)%list_elem_of_fmap. done.
  - intros id Hid. apply Hg. right. split.
    + exists (anchorID k). split; [left|]. by apply same_group_refl.
    + exists id. split; [right; by rewrite <- Hids|].
      apply list_elem_of_fmap in Hid as (m & -> & (Hm & _)%Hms). by apply same_group_refl.
Qed.

Lemma attach_all (s : State) ps ks :
  valid s → (∀ k, k ∈ ks → NoDup (chargeIDs k)) →
  let s' := foldl (attach_charges ps) s ks in
  valid s' ∧ extends s s' ∧ ∃ done,
    (∀ k, k ∈ done → k ∈ ks ∧ ∀ id, id ∈ chargeIDs k → same_group s' (anchorID k) id) ∧
    NoDup (done ≫= chargeIDs) ∧ (∀ id, id ∈ done ≫= chargeIDs → id ∉ st_claimed s) ∧
    st_claimed s' = list_to_set (done ≫= chargeIDs) ∪ st_claimed s.
Proof.
  revert s. induction ks as [|k ks IH]; intros s Hv Hnd s'.
  { split_and!; [done|apply extends_refl|]. exists []. split_and!; [set_solver|constructor|set_solver..]. }
  unfold s'. cbn [foldl]. assert (∀ k, k ∈ ks → NoDup (chargeIDs k)) as Hnd'.
  { intros x Hx. apply Hnd. by right. }
  destruct (attach_charges_cases s ps k Hv) as [->|(Hv1 & He1 & Hfree & Hc1 & Hg1)].
  { destruct (IH s Hv Hnd') as (? & ? & dn & Hdn & ?). split_and!; try done. exists dn.
    split; [|done]. intros x Hx. destruct (Hdn x Hx). split; [by right|done]. }
  destruct (IH _ Hv1 Hnd') as (Hv2 & He2 & dn & Hdn & Hnod & Hf2 & Hc2).
  split_and!; [done|by eapply extends_trans|]. exists (k :: dn).
  change ((k :: dn) ≫= chargeIDs) with (chargeIDs k ++ (dn ≫= chargeIDs)). rewrite Hc1 in Hf2.
  split_and!.
  - intros x [->|Hx]%elem_of_cons.
    + split; [left|]. intros id Hid. apply (ext_groups _ _ He2). auto.
    + destruct (Hdn x Hx). split; [by right|done].
  - apply NoDup_app. split_and!; [apply Hnd; left| |done].
    intros id Hid Hid'%Hf2. apply Hid', elem_of_union_l, elem_of_list_to_set. done.
  - intros id [Hid|Hid%Hf2]%elem_of_app; [auto|]. set_solver.
  - rewrite Hc2, Hc1, list_to_set_app_L. set_solver.
Qed.

(** The reads of the first loops leave the groups as they are. *)
Lemma charge_Apply_reads (s : State) ps opts t :
  refines (list_to_set (ID <$> ps)) s t →
  ∃ s2, refines (list_to_set (ID <$> ps)) s2 t ∧
    charge_Apply ps s opts
    = foldl (attach_charges ps) s2 (go_sort charge_better (omap (cand_at ps t opts) ps)).
Proof.
  intros Hr. set (X := list_to_set (ID <$> ps)) in *. unfold charge_Apply.
  pose proof (by_group_sim (refines X) ps s t Hr) as H1. rewrite by_group_abstract in H1.
  destruct (by_group ps s) as [s1 m]. simpl in H1. destruct H1 as [Hr1 ->].
  pose proof (charge_cands_sim (refines X) ps (index_by ((λ p, (prep t (ID p), p)) <$> ps))
    (free_charges ps s1) (free_charges ps t) opts s1 t
    (λ b, free_charges_sim (refines X) ps s1 t b Hr1) Hr1) as H2.
  rewrite charge_cands_abstract in H2. destruct (charge_cands ps _ _ opts s1) as [s2 cands].
  simpl in H2. destruct H2 as [Hr2 ->]. by exists s2.
Qed.

(** A charge is attached only where the source's own figures account for it.
    From any reachable state the rule attaches free charges, each to one acquisition
    and no charge twice; the charges given to an acquisition are at most three, of
    its account and day, and come to what its stated total leaves once the cash and
    the charges already in its group are taken off, within [Money]. *)
Theorem charge_attachments ps opts s :
  rtc step (newState ps) s → distinct_ids ps →
  let s' := charge_Apply ps s opts in
  ∃ atts : list (GroupingPosting D * list (GroupingPosting D)),
    (∀ a cs, (a, cs) ∈ atts → explained opts s ps a cs ∧
      ∀ c, c ∈ cs → same_group s' (ID a) (ID c)) ∧
    NoDup (atts ≫= λ ac, ID <$> ac.2) ∧
    (∀ id, id ∈ (atts ≫= λ ac, ID <$> ac.2) → Taken s id = false) ∧
    st_claimed s' = list_to_set (atts ≫= λ ac, ID <$> ac.2) ∪ st_claimed s.
Proof.
  intros Hs Hnd s'. pose proof Hs as Hs0. rewrite newState_ids in Hs.
  destruct (steps_refine _ _ _ _ (refines_new (ID <$> ps)) Hs) as [t Hr].
  destruct (charge_Apply_reads s ps opts t Hr) as (s2 & Hr2 & E).
  set (ks := go_sort charge_better (omap (cand_at ps t opts) ps)) in E.
  assert (Hks : ∀ k, k ∈ ks → ∃ p cs, p ∈ ps ∧ anchorID k = ID p ∧ chargeIDs k = ID <$> cs ∧
    explained opts s ps p cs ∧ NoDup (chargeIDs k)).
  { intros k Hk. unfold ks in Hk. rewrite elem_of_go_sort in Hk.
    apply list_elem_of_omap in Hk as (p & Hp & Hk).
    destruct (cand_at_explained ps opts s t p k Hr Hnd Hp Hk) as (cs & Hcs & He & Hd & _).
    exists p, cs. rewrite (cand_at_anchor _ _ _ _ _ Hk), Hcs. done. }
  assert (valid s2) as Hv2.
  { split; [by eapply ref_forest|]. intros x Hx. apply (refines_lookup _ _ _ _ Hr2) in Hx as [r Hx].
    exists r. by eapply ref_root. }
  destruct (attach_all s2 ps ks Hv2) as (_ & _ & dn & Hdn & Hnod & Hf & Hc).
  { intros k (p & cs & _ & _ & _ & _ & ?)%Hks. done. }
  rewrite (ref_claimed _ _ _ Hr2), <- (ref_claimed _ _ _ Hr) in Hc, Hf.
  unfold s'. rewrite E.
  assert (∃ atts, (∀ a cs, (a, cs) ∈ atts → explained opts s ps a cs ∧
      ∀ c, c ∈ cs → same_group (foldl (attach_charges ps) s2 ks) (ID a) (ID c)) ∧
    (atts ≫= λ ac, ID <$> ac.2) = (dn ≫= chargeIDs)) as (atts & Hatts & Eids).
  { clear -Hdn Hks. induction dn as [|k dn IH]; [exists []; split; [set_solver|done]|].
    destruct IH as (atts & Hatts & Eids); [intros x Hx; apply Hdn; by right|].
    destruct (Hdn k) as [Hk Hg]; [left|].
    destruct (Hks k Hk) as (p & cs & Hp & Ha & Hcs & He & _).
    exists ((p, cs) :: atts). split; [|csimpl; by rewrite Hcs, Eids].
    intros a cs' [[= -> ->]|Hin]%elem_of_cons; [|by apply Hatts]. split; [done|].
    intros c Hc. rewrite <- Ha. apply Hg. rewrite Hcs. by apply list_elem_of_fmap_2. }
  exists atts. rewrite Eids. split_and!; try done.
  intros id Hid%Hf. by apply bool_decide_eq_false.
Qed.
End attachments.

(** ** A purchase with a dealing fee *)

Section witnesses.
#[local] Existing Instances QDecimal.q_decimal QDecimal.q_decimal_laws.

Definition sample_fee : GroupingPosting Q := plain "p4" "isa" 60 (-(10))%Q [TRANSACTION_COST].
Definition sample_levy : GroupingPosting Q := plain "p5" "isa" 60 (-(7))%Q [TRANSACTION_COST].

Lemma subset_sum_correct_witness :
  subsetSumming [sample_levy; sample_fee] 10%Q (5 # 1000)%Q = Some ["p4"] ∧
  ∃ sub, explanation [sample_levy; sample_fee] 10%Q (5 # 1000)%Q sub ∧ ["p4"] = ID <$> sub.
Proof.
  split; [vm_compute; reflexivity|].
  pose proof (subset_sum_correct [sample_levy; sample_fee] 10%Q (5 # 1000)%Q) as Hsub.
  replace (subsetSumming [sample_levy; sample_fee] 10%Q (5 # 1000)%Q) with (Some ["p4"]) in Hsub
    by (vm_compute; reflexivity).
  destruct Hsub as (sub & He & E & _). exists sub. split; [exact He|exact E].
Defined.

Lemma charge_attachments_witness :
  let ps := [sample_buy; sample_cash; sample_fee; sample_levy] in
  let s := trade_Apply true ps (newState ps) DefaultOpts in
  let s' := charge_Apply ps s DefaultOpts in
  Taken s' "p4" = true ∧ Taken s' "p5" = false ∧
  ∃ atts : list (GroupingPosting Q * list (GroupingPosting Q)),
    st_claimed s' = list_to_set (atts ≫= λ ac, ID <$> ac.2) ∪ st_claimed s.
Proof.
  intros ps s s'. split; [vm_compute; reflexivity|]. split; [vm_compute; reflexivity|].
  destruct (charge_attachments ps DefaultOpts s) as (atts & _ & _ & _ & Hc).
  - apply (rule_steps Acquisition ps DefaultOpts (newState ps)). apply acquisition_sim.
  - apply (bool_decide_unpack _). vm_compute. exact I.
  - exists atts. exact Hc.
Defined.
End witnesses.
End Charge.
