(* ===== verification/Engine.v ===== *)
(** * The default rules and what they partition into

    [DefaultRules] of server/grouping/grouping.go, and the properties of [Partition]
    under rules drawn from it: it is a function of the set of postings and not of
    their order, it is a partition, no posting is given a type its source ruled out,
    and a token a source stated is kept together. *)

From stdpp Require Import relations.
From Stdlib Require Import QArith.
From S2P Require Import Prelude Decimal TxType Posting GroupState Grouping Exact Trade Deposit Charge.

Local Open Scope nat_scope.

Module Engine.
Import TxType Posting GroupState Grouping Exact Trade Deposit Charge.

Definition DefaultRules {D} `{Decimal D} : list (Rule D) :=
  [Exact; Disposal; Acquisition; CashTrade; Deposit; Attaches; Charge].

(** ** Admissible steps

    A claim or an attachment each of whose members resolves a posting of [ps] to
    what its own declaration narrows to, or to a type the declaration admits. *)

Definition admits {D} (ps : list (GroupingPosting D)) (m : Member) : Prop :=
  ∃ p, p ∈ ps ∧ ID p = MemberID m ∧
    (MemberResolved m = Resolve (Declared p) ∨ MayBe (Declared p) [MemberResolved m] = true).

Inductive adm_step {D} (ps : list (GroupingPosting D)) : State → State → Prop :=
  | adm_find s id : adm_step ps s (State_Group s id).1
  | adm_claim s ms : (∀ m, m ∈ ms → admits ps m) → adm_step ps s (Claim s ms).1
  | adm_attach s a ms : (∀ m, m ∈ ms → admits ps m) → adm_step ps s (Attach s a ms).1.

Definition resolved_ok {D} (ps : list (GroupingPosting D)) (s : State) : Prop :=
  ∀ id r, st_resolved s !! id = Some r → admits ps {| MemberID := id; MemberResolved := r |}.

Lemma takes_resolved_ok {D} (ps : list (GroupingPosting D)) s to ms :
  valid s → known s to = true → (∀ m, m ∈ ms → known s (MemberID m) = true) →
  (∀ m, m ∈ ms → admits ps m) → resolved_ok ps s → resolved_ok ps (foldl (take to) s ms).
Proof.
  intros Hv Hto Hkn Hms Hok id r.
  destruct (takes_spec s to ms Hv Hto Hkn) as (_ & _ & Hr & _). rewrite Hr.
  destruct (last _) as [m|] eqn:E; [|apply Hok].
  apply last_Some_elem_of, list_elem_of_filter in E as [<- Hm]. intros [= <-].
  apply Hms in Hm. by destruct m.
Qed.

Lemma adm_step_ok {D} (ps : list (GroupingPosting D)) s s' :
  adm_step ps s s' → valid s → resolved_ok ps s → valid s' ∧ resolved_ok ps s'.
Proof.
  intros Hstep Hv Hok. inversion Hstep as [? id|? ms Hms|? a ms Hms]; subst.
  - destruct (find_valid s id Hv) as (? & Hr & _). split; [done|]. intros i r. rewrite Hr. apply Hok.
  - split; [by apply (step_extends s), step_claim|].
    destruct (claim_cases s ms) as [->|(m0 & m1 & ms' & -> & Hkn & ->)]; [done|].
    apply takes_resolved_ok; try done; [apply Hkn; left|naive_solver].
  - split; [by apply (step_extends s), step_attach|].
    destruct (attach_cases s a ms) as [->|(_ & Ha & Hkn & ->)]; [done|].
    apply takes_resolved_ok; try done. naive_solver.
Qed.

Lemma adm_steps_ok {D} (ps : list (GroupingPosting D)) s s' :
  rtc (adm_step ps) s s' → valid s → resolved_ok ps s → valid s' ∧ resolved_ok ps s'.
Proof.
  induction 1 as [|s s1 s2 Hstep _ IH]; intros Hv Hok; [done|].
  destruct (adm_step_ok ps s s1 Hstep Hv Hok). auto.
Qed.

(** What a rule's run has to be. *)
Definition RuleAdm {D} (r : Rule D) : Prop :=
  ∀ (ps : list (GroupingPosting D)) opts (s : State), rtc (adm_step ps) s (Apply r ps s opts).

Lemma fold_adm {D A} (ps : list (GroupingPosting D)) (f : State → A → State) l s :
  (∀ s x, x ∈ l → rtc (adm_step ps) s (f s x)) → rtc (adm_step ps) s (foldl f s l).
Proof.
  intros Hf. apply (foldl_inv (λ s', rtc (adm_step ps) s s')); [apply rtc_refl|].
  intros s' x Hx Hs. etransitivity; [done|auto].
Qed.

Section adm.
Context {D : Type} `{DecimalLaws D}.
Implicit Types (ps : list (GroupingPosting D)).

Lemma declared_member_admits ps p : p ∈ ps → admits ps (declared_member p).
Proof. intros Hp. exists p. split_and!; [done|done|by left]. Qed.

Lemma elem_of_dedupe_loop_sub seen ps p : p ∈ dedupe_loop seen ps → p ∈ ps.
Proof.
  revert seen. induction ps as [|q ps IH]; intros seen; simpl; [done|].
  case_decide; [intros ?; right; eauto|]. intros [->|?]%elem_of_cons; [left|right; eauto].
Qed.

Lemma exact_adm : RuleAdm (@Exact D).
Proof.
  intros ps opts s. simpl. unfold Exact_Apply. apply fold_adm. intros s' k _.
  case_match; [apply rtc_refl|]. apply rtc_once, adm_claim.
  intros m (p & -> & Hp)%list_elem_of_fmap. apply declared_member_admits.
  unfold dedupe in Hp. rewrite sort_by_id_perm in Hp. apply elem_of_dedupe_loop_sub in Hp.
  rewrite at_key_index_by in Hp. apply elem_of_sel, elem_of_token_pairs in Hp. tauto.
Qed.

Lemma pairs_adm ps ra rc cands s :
  (∀ k, k ∈ cands → admits ps {| MemberID := assetID k; MemberResolved := ra |} ∧
    admits ps {| MemberID := cashID k; MemberResolved := rc |}) →
  rtc (adm_step ps) s (claim_pairs ra rc s (go_sort betterThan cands)).
Proof.
  intros Hc. unfold claim_pairs. apply fold_adm. intros s' k Hk.
  rewrite elem_of_go_sort in Hk. apply rtc_once, adm_claim.
  intros m [->|[->|[]%elem_of_nil]%elem_of_cons]%elem_of_cons; by apply Hc.
Qed.

Lemma trade_adm_at acquiring ps opts s : rtc (adm_step ps) s (trade_Apply acquiring ps s opts).
Proof.
  apply pairs_adm. intros k (a & c & Ha & Hc & Hadm & ->)%elem_of_trade_cands.
  apply admissible_settles in Hadm as (Hma & Hmc & _).
  split; [exists a|exists c]; split_and!; auto.
Qed.

Lemma cash_trade_adm : RuleAdm (@CashTrade D _).
Proof.
  intros ps opts s. apply pairs_adm.
  intros k (a & c & Ha & Hc & _ & ->)%elem_of_pairings. rewrite !list_elem_of_filter in Ha, Hc.
  assert (Hleg : ∀ x : GroupingPosting D, cash_trade_leg x = true → MayBe (Declared x) [TRADE_CASH] = true).
  { intros x. unfold cash_trade_leg. destruct (_ || _); [done|]. apply must_be_may_be. }
  destruct Ha as (_ & ? & _ & ?), Hc as (_ & ? & _ & ?).
  split; [exists a|exists c]; split_and!; auto.
Qed.

Lemma deposit_adm : RuleAdm (@Deposit D _).
Proof.
  intros ps opts s. simpl. unfold deposit_Apply. apply fold_adm. intros s' o Ho.
  unfold open_run. case_match; [apply rtc_refl|]. apply rtc_once, adm_claim.
  rewrite elem_of_go_sort, list_elem_of_filter in Ho. unfold money_rows in Ho.
  rewrite !list_elem_of_filter in Ho. destruct Ho as (Hopen & _ & _ & Hin).
  intros m [->|Hm]%elem_of_cons.
  - exists o. split_and!; [done|done|right]. apply must_be_may_be.
    by apply andb_true_iff in Hopen as [_ ?].
  - apply list_elem_of_fmap in Hm as (x & -> & Hx). exists x. rewrite member_id.
    assert (x ∈ ps) as Hxin.
    { apply elem_of_run_of in Hx as (sp & (Hx & _)%nearest_spec). unfold money_rows in Hx.
      rewrite !list_elem_of_filter in Hx. tauto. }
    split_and!; [done|done|]. unfold member.
    destruct (MayBe (Declared x) [TRANSFER]) eqn:E; [by right|by left].
Qed.

Lemma anchor_loop_adm ps ids b a g s : rtc (adm_step ps) s (anchor_loop s ids b a g).1.
Proof.
  revert a g s. induction ids as [|id ids IH]; intros a g s; simpl; [apply rtc_refl|].
  case_decide; [apply IH|]. destruct (State_Group s id) as [s1 g1] eqn:E.
  assert (adm_step ps s s1) as Hs by (change s1 with (s1, g1).1; rewrite <- E; apply adm_find).
  repeat case_match; simpl; try (eapply rtc_l; [done|apply IH]). by apply rtc_once.
Qed.

Lemma attaches_adm : RuleAdm (@Attaches D).
Proof.
  intros ps opts s. simpl. unfold Attaches_Apply. apply fold_adm. intros s' p Hp.
  rewrite sort_by_id_perm, list_elem_of_filter in Hp. destruct Hp as [_ Hp].
  generalize (Correlations p). intros cs. revert s'.
  induction cs as [|c cs IH]; intros s'; cbn [attach_loop]; [apply rtc_refl|].
  destruct (negb _); [apply IH|]. set (l := at_key _ _).
  pose proof (anchor_loop_adm ps l (ID p) EmptyString EmptyString s') as H1.
  unfold anchorOf. destruct (anchor_loop s' l _ _ _) as [s1 [anchor|]]; simpl in H1;
    [|etransitivity; [exact H1|apply IH]].
  assert (adm_step ps s1 (Attach s1 anchor [declared_member p]).1) as H2.
  { apply adm_attach. intros m ->%list_elem_of_singleton. by apply declared_member_admits. }
  cbn [gs_attach state_store].
  destruct (Attach s1 anchor [declared_member p]) as [s2 ok]. simpl in H2.
  destruct ok; [by eapply rtc_r|]. etransitivity; [by eapply rtc_r|apply IH].
Qed.

Lemma find_adm ps s id : rtc (adm_step ps) s (State_Group s id).1.
Proof. apply rtc_once, adm_find. Qed.

Lemma by_group_adm ps (l : list (GroupingPosting D)) s : rtc (adm_step ps) s (by_group l s).1.
Proof.
  unfold by_group.
  apply (foldl_inv (λ a, rtc (adm_step ps) s a.1)); [apply rtc_refl|].
  intros [s1 m] p _ Hs. simpl in *.
  pose proof (find_adm ps s1 (ID p)) as H1. destruct (State_Group s1 (ID p)) as [s2 g1]. simpl in H1.
  pose proof (find_adm ps s2 (ID p)) as H2. destruct (State_Group s2 (ID p)) as [s3 g2]. simpl in *.
  by do 2 (etransitivity; [eassumption|]).
Qed.

Lemma free_charges_sub ps (s : State) b c : c ∈ free_charges ps s b → c ∈ ps.
Proof.
  unfold free_charges. rewrite sort_by_id_perm, at_key_index_by, elem_of_sel, list_elem_of_fmap.
  intros (p & [= _ ->] & [_ ?]%list_elem_of_filter). done.
Qed.

Lemma charge_cands_adm ps (l : list (GroupingPosting D)) byGroup (s0 : State) opts s :
  rtc (adm_step ps) s (charge_cands l byGroup (free_charges ps s0) opts s).1 ∧
  ∀ k id, k ∈ (charge_cands l byGroup (free_charges ps s0) opts s).2 → id ∈ chargeIDs k →
    id ∈ ID <$> ps.
Proof.
  unfold charge_cands.
  apply (foldl_inv (λ a, rtc (adm_step ps) s a.1 ∧
    ∀ k id, k ∈ a.2 → id ∈ chargeIDs k → id ∈ ID <$> ps)); [split; [apply rtc_refl|set_solver]|].
  intros [s1 cs] p _ [Hs Hcs]. simpl in *.
  pose proof (find_adm ps s1 (ID p)) as H1. destruct (State_Group s1 (ID p)) as [s2 g]. simpl in H1.
  assert (rtc (adm_step ps) s s2) by (by etransitivity).
  destruct (unexplained _ _) as [gap ok]. destruct (negb ok); [done|].
  destruct (subsetSumming _ _ _) as [ids|] eqn:E; [|done]. split; [done|].
  intros k id [Hk|Hk]%elem_of_app; [by apply Hcs|]. apply list_elem_of_singleton in Hk as ->. simpl.
  apply subsetSumming_explains in E as (sub & (Hsub & _) & ->).
  intros (c & -> & Hc)%list_elem_of_fmap. apply list_elem_of_fmap_2.
  eapply free_charges_sub, elem_of_sublist; eauto.
Qed.

Lemma resolvedOfPosting_admits ps id :
  id ∈ ID <$> ps → admits ps {| MemberID := id; MemberResolved := resolvedOfPosting ps id |}.
Proof.
  intros (p & -> & Hp)%list_elem_of_fmap. unfold resolvedOfPosting.
  destruct (head (filter (λ q, ID q = ID p) ps)) as [q|] eqn:E.
  - apply head_Some_elem_of, list_elem_of_filter in E as [Hid Hq]. exists q. by auto.
  - exfalso. assert (p ∈ filter (λ q, ID q = ID p) ps) as Hin by by apply list_elem_of_filter.
    destruct (filter _ ps); [by apply elem_of_nil in Hin|done].
Qed.

Lemma charge_adm : RuleAdm (@Charge D _).
Proof.
  intros ps opts s. simpl. unfold charge_Apply.
  pose proof (by_group_adm ps ps s) as H1. destruct (by_group ps s) as [s1 m]. simpl in H1.
  destruct (charge_cands_adm ps ps m s1 opts s1) as [H2 Hids].
  destruct (charge_cands ps m (free_charges ps s1) opts s1) as [s2 cands]. simpl in H2, Hids.
  etransitivity; [exact H1|]. etransitivity; [exact H2|]. apply fold_adm. intros s' k Hk.
  rewrite elem_of_go_sort in Hk. apply rtc_once, adm_attach.
  intros x (id & -> & Hid)%list_elem_of_fmap. by eapply resolvedOfPosting_admits, Hids.
Qed.

(** Everything the engine needs of the rules it ships. *)
Lemma default_rules_laws (r : Rule D) :
  r ∈ (DefaultRules : list (Rule D)) → RuleSim r ∧ RuleOrder r ∧ RuleAdm r.
Proof.
  unfold DefaultRules. rewrite !elem_of_cons, elem_of_nil.
  intros [->|[->|[->|[->|[->|[->|[->|[]]]]]]]].
  - split_and!; [apply exact_sim|apply exact_order|apply exact_adm].
  - split_and!; [apply disposal_sim|apply disposal_order|intros ps opts s; apply (trade_adm_at false)].
  - split_and!; [apply acquisition_sim|apply acquisition_order|intros ps opts s; apply (trade_adm_at true)].
  - split_and!; [apply cash_trade_sim|apply cash_trade_order|apply cash_trade_adm].
  - split_and!; [apply deposit_sim|apply deposit_order|apply deposit_adm].
  - split_and!; [apply attaches_sim|apply attaches_order|apply attaches_adm].
  - split_and!; [apply charge_sim|apply charge_order|apply charge_adm].
Qed.

Lemma default_rules_sim (rules : list (Rule D)) :
  (∀ r, r ∈ rules → r ∈ (DefaultRules : list (Rule D))) → ∀ r, r ∈ rules → RuleSim r.
Proof. intros Hr r Hin. by apply default_rules_laws, Hr. Qed.
End adm.

(** ** Properties of [Partition] *)

Section properties.
Context {D : Type} `{DecimalLaws D}.
Implicit Types (ps : list (GroupingPosting D)) (rules : list (Rule D)).

(** C2: the partition does not depend on the order the postings are read in.  For
    any rules drawn from the shipped ones, the same postings in any order yield
    the same groups, members, types and order included. *)
Theorem partition_order_invariant rules ps ps' opts :
  (∀ r, r ∈ rules → r ∈ (DefaultRules : list (Rule D))) →
  distinct_ids ps → named ps → ps ≡ₚ ps' →
  Partition ps rules opts = Partition ps' rules opts.
Proof.
  intros Hr. apply partition_perm. intros r Hin.
  destruct (default_rules_laws r (Hr r Hin)) as (? & ? & _). done.
Qed.

(** C5: what [Partition] returns is a partition.  Every posting is a member of
    exactly one group and nothing else is; no group is empty, its members are in
    strictly ascending order of id, and two postings share a group of the answer
    exactly when the run put them together. *)
Theorem partition_is_partition rules ps opts :
  (∀ r, r ∈ rules → r ∈ (DefaultRules : list (Rule D))) → distinct_ids ps →
  let gs := Partition ps rules opts in
  (MemberID <$> (gs ≫= Members)) ≡ₚ (ID <$> ps) ∧
  (∀ g, g ∈ gs → Members g ≠ [] ∧
    StronglySorted (λ a b, String.ltb a b = true) (MemberID <$> Members g)) ∧
  (∀ p q, p ∈ ps → q ∈ ps →
    (∃ g, g ∈ gs ∧ ID p ∈ MemberID <$> Members g ∧ ID q ∈ MemberID <$> Members g) ↔
    same_group (run_rules ps rules opts) (ID p) (ID q)).
Proof.
  intros Hr Hnd gs. pose proof (default_rules_sim rules Hr) as Hsim. split_and!.
  - by apply partition_ids.
  - intros g Hg. split; [by eapply partition_nonempty|by eapply partition_sorted].
  - intros p q Hp Hq. symmetry.
    apply (read_out_together (list_to_set (ID <$> ps)) _ (run_rules ps rules opts));
      [by apply run_rules_refines| |done..].
    intros x Hx. apply elem_of_list_to_set. by apply list_elem_of_fmap_2.
Qed.

Lemma run_rules_adm rules ps opts :
  (∀ r, r ∈ rules → r ∈ (DefaultRules : list (Rule D))) →
  valid (run_rules ps rules opts) ∧ resolved_ok ps (run_rules ps rules opts).
Proof.
  intros Hr. apply (adm_steps_ok ps (new_of_ids (ID <$> ps))).
  - unfold run_rules. apply fold_adm. intros s r Hin. rewrite elem_of_go_sort in Hin.
    by apply default_rules_laws, Hr.
  - apply new_valid.
  - intros id r. simpl. by rewrite lookup_empty.
Qed.

Lemma resolve_admissible set : declared set → MayBe set [Resolve set] = true.
Proof.
  intros Hd. destruct (resolve_lca set Hd) as (r & _ & -> & _ & Hin & _). destruct Hd as [Hne _].
  destruct set as [|t set]; [done|]. apply may_be_iff. exists t, r. split_and!; [left|left|left].
  apply Hin. left.
Qed.

(** C23: no posting is typed as something its source ruled out.  Whatever rules of
    the shipped ones run, the type a group gives a member is one the posting's
    declared set admits. *)
Theorem partition_admissible rules ps opts g m p :
  (∀ r, r ∈ rules → r ∈ (DefaultRules : list (Rule D))) → distinct_ids ps →
  g ∈ Partition ps rules opts → m ∈ Members g → p ∈ ps → ID p = MemberID m →
  declared (Declared p) →
  MayBe (Declared p) [MemberResolved m] = true.
Proof.
  intros Hr Hnd Hg Hm Hp Hid Hd.
  destruct (run_rules_adm rules ps opts Hr) as [_ Hok].
  pose proof (run_rules_refines rules ps opts (default_rules_sim rules Hr)) as Href.
  rewrite partition_refines in Hg by by apply default_rules_sim.
  apply elem_of_groups in Hg as (x & _ & Hg). rewrite Hg in Hm.
  rewrite elem_of_go_sort in Hm. apply list_elem_of_fmap in Hm as (q & -> & [_ Hq]%list_elem_of_filter).
  assert (p = q) as <- by by apply (distinct_ids_inj ps).
  unfold member_of, resolved_or_declared. cbn [MemberResolved es_resolved pstate_engine].
  change (foldl _ _ _) with (run_rules (S:=PState) ps rules opts).
  rewrite <- (ref_resolved _ _ _ Href).
  destruct (st_resolved _ !! ID p) as [r|] eqn:E; [|by apply resolve_admissible].
  apply Hok in E as (q & Hq' & Eq & Hadm). assert (q = p) as -> by by apply (distinct_ids_inj ps).
  simpl in Hadm. destruct Hadm as [->|?]; [by apply resolve_admissible|done].
Qed.

(** A stated token is kept.  Under the shipped rules, two postings that carry
    the same EXACT token in one comparability partition are in one group, as long
    as no posting carries two different ones. *)
Theorem exact_tokens_kept ps opts p q k :
  distinct_ids ps → one_key ps → p ∈ ps → q ∈ ps → k ∈ exact_keys p → k ∈ exact_keys q →
  ∃ g, g ∈ Partition ps DefaultRules opts ∧
    ID p ∈ MemberID <$> Members g ∧ ID q ∈ MemberID <$> Members g.
Proof.
  intros Hnd Hone Hp Hq Hkp Hkq.
  assert (Hsim : ∀ r, r ∈ (DefaultRules : list (Rule D)) → RuleSim r) by by apply default_rules_sim.
  apply (read_out_together (list_to_set (ID <$> ps)) _ (run_rules ps DefaultRules opts));
    [by apply run_rules_refines| |done..|].
  { intros x Hx. apply elem_of_list_to_set. by apply list_elem_of_fmap_2. }
  assert (go_sort rule_less DefaultRules = (DefaultRules : list (Rule D))) as -> by reflexivity.
  pose proof (exact_joins ps opts p q k Hnd Hone Hp Hq Hkp Hkq) as Hj. rewrite newState_ids in Hj.
  unfold DefaultRules at 1. cbn [foldl]. change (Apply Exact ps ?s opts) with (Exact_Apply ps s opts).
  set (s1 := Exact_Apply ps (es_new (ID <$> ps)) opts).
  destruct (steps_extend s1 (foldl (λ st r, Apply r ps st opts) s1 (tail DefaultRules))) as [_ He].
  - apply (rule_extends Exact ps opts (new_of_ids (ID <$> ps))); [apply exact_sim|apply new_valid].
  - apply rules_steps. intros r Hr. apply Hsim. unfold DefaultRules in *. by right.
  - apply (ext_groups _ _ He). exact Hj.
Qed.
End properties.

(** ** Concrete neighbourhoods *)

Section witnesses.
#[local] Existing Instances QDecimal.q_decimal QDecimal.q_decimal_laws.

(** A purchase, the cash that settled it, its dealing fee and an unrelated levy. *)
Definition sample_day : list (GroupingPosting Q) := [sample_buy; sample_cash; sample_fee; sample_levy].

Lemma sample_day_distinct : distinct_ids sample_day.
Proof. apply (bool_decide_unpack _). vm_compute. exact I. Qed.

Lemma sample_day_named : named sample_day.
Proof.
  intros p Hp. unfold sample_day in Hp. rewrite !elem_of_cons, elem_of_nil in Hp.
  by destruct Hp as [->|[->|[->|[->|[]]]]].
Qed.

(** The engine puts the purchase, its cash and its fee together and leaves the levy. *)
Lemma sample_day_partition :
  (λ g, MemberID <$> Members g) <$> Partition sample_day DefaultRules DefaultOpts
  = [["p1"; "p2"; "p4"]; ["p5"]].
Proof. vm_compute. reflexivity. Qed.

Lemma partition_order_invariant_witness :
  Partition (reverse sample_day) DefaultRules DefaultOpts
  = Partition sample_day DefaultRules DefaultOpts.
Proof.
  symmetry. apply (partition_order_invariant DefaultRules sample_day (reverse sample_day) DefaultOpts).
  - done.
  - apply sample_day_distinct.
  - apply sample_day_named.
  - symmetry. apply reverse_Permutation.
Defined.

Lemma partition_is_partition_witness :
  (MemberID <$> (Partition sample_day DefaultRules DefaultOpts ≫= Members)) ≡ₚ (ID <$> sample_day).
Proof.
  apply (partition_is_partition DefaultRules sample_day DefaultOpts); [done|apply sample_day_distinct].
Defined.

Lemma partition_admissible_witness :
  ∃ g m, g ∈ Partition sample_day DefaultRules DefaultOpts ∧ m ∈ Members g ∧
    MemberID m = "p1" ∧ MayBe (Declared sample_buy) [MemberResolved m] = true.
Proof.
  set (g := {| Members := [mem "p1" TRADE_ASSET; mem "p2" TRADE_CASH; mem "p4" TRANSACTION_COST] |}).
  assert (g ∈ Partition sample_day DefaultRules DefaultOpts) as Hg
    by (apply (bool_decide_unpack _); vm_compute; exact I).
  exists g, (mem "p1" TRADE_ASSET). split; [exact Hg|]. split; [left|]. split; [reflexivity|].
  apply (partition_admissible DefaultRules sample_day DefaultOpts g (mem "p1" TRADE_ASSET) sample_buy).
  - done.
  - apply sample_day_distinct.
  - exact Hg.
  - left.
  - left.
  - reflexivity.
  - split; [done|]. by repeat constructor.
Defined.

Definition sample_token (t : string) : Correlation := {|
  Label := "fitid"; Token := t; Ordinal := None; Scope := ScopeAccount;
  Match := [MatchExact]; OrdinalSpan := None; CorrJobID := "j" |}.

Definition sample_stated (id : string) (tokens : list string) : GroupingPosting Q := {|
  ID := id; UserID := "u"; PBroker := IBKR; Account := "acc"; OrderDate := 0;
  InstrumentID := "i"; Quantity := 1%Q; UnitPrice := None; SettlementAmount := None;
  Declared := [DIVIDEND]; JobID := "j"; GroupID := id; Resolved := "DIVIDEND";
  Correlations := sample_token <$> tokens |}.

Lemma exact_tokens_kept_witness :
  let ps := [sample_stated "x" ["t1"]; sample_stated "y" ["t1"]] in
  ∃ g, g ∈ Partition ps DefaultRules DefaultOpts ∧
    "x" ∈ MemberID <$> Members g ∧ "y" ∈ MemberID <$> Members g.
Proof.
  intros ps.
  apply (exact_tokens_kept ps DefaultOpts (sample_stated "x" ["t1"]) (sample_stated "y" ["t1"])
    (corr_key (sample_stated "x" ["t1"]) (sample_token "t1"))).
  - apply (bool_decide_unpack _). vm_compute. exact I.
  - intros p k k' Hp. unfold ps in Hp. rewrite !elem_of_cons, elem_of_nil in Hp.
    destruct Hp as [->|[->|[]]]; vm_compute exact_keys;
      rewrite !list_elem_of_singleton; congruence.
  - left.
  - right; left.
  - apply (bool_decide_unpack _). vm_compute. exact I.
  - apply (bool_decide_unpack _). vm_compute. exact I.
Defined.

(** The sets of postings sharing a token are disjoint only while no posting carries
    two.  Here "y" carries both tokens: the set of the first is claimed, the set of
    the second is refused whole, and "z" is left on its own. *)
Lemma two_tokens_strand :
  (λ g, MemberID <$> Members g) <$>
    Partition [sample_stated "x" ["t1"]; sample_stated "y" ["t1"; "t2"]; sample_stated "z" ["t2"]]
      DefaultRules DefaultOpts
  = [["x"; "y"]; ["z"]].
Proof. vm_compute. reflexivity. Qed.
End witnesses.
End Engine.
