(* ===== verification/Neighbourhood.v ===== *)
(** * Neighbourhoods

    server/grouping/neighbourhood.go: the region a partition is computed over, grown
    from a seed until no rule reaches anything new; and the reads it is grown
    through, server/db/postgres/grouping.go, as filters over the stored rows.

    The loop runs with fuel, [None] meaning "still growing": [neighbourhood_fixpoint]
    shows that one round more than the user has postings is enough, and that what is
    returned is exactly what the rules' candidate relations reach from the seed.

    A row is a posting with its [synthetic_purpose]; its broker column holds the
    spelling [BrokerToStr] gives the posting's broker.  [uuid_ok] stands for
    [uuid.Parse] of the third-party uuid package: whether a user id parses. *)

From stdpp Require Import relations.
From Stdlib Require Import QArith.
From S2P Require Import Prelude Decimal TxType Posting GroupState Grouping Exact Trade Deposit Charge Engine.

Local Open Scope nat_scope.

Module Neighbourhood.
Import TxType Posting GroupState Grouping Exact Trade Deposit Charge Engine.

(** ** The loop *)

Section loop.
Context {D : Type}.
Implicit Types (held : gmap string (GroupingPosting D)) (ps : list (GroupingPosting D)).

(** [ids]: the keys of [held], sorted. *)
Definition ids held : list string := sort_strings (map_to_list held).*1.

(** The innermost loop: keep what is not held yet. *)
Definition add_found (acc : gmap string (GroupingPosting D) * list (GroupingPosting D))
    (p : GroupingPosting D) : gmap string (GroupingPosting D) * list (GroupingPosting D) :=
  let '(held, fresh) := acc in
  match held !! ID p with
  | Some _ => acc
  | None => (<[ID p := p]> held, fresh ++ [p])
  end.

(** One round: every rule expands the frontier.  [None]: a read failed. *)
Definition round (userID : string) (r : GroupingReader D) (rules : list (Rule D)) held frontier
    : option (gmap string (GroupingPosting D) * list (GroupingPosting D)) :=
  foldl (λ acc rule,
    '(held, fresh) ← acc;
    found ← Expand rule userID frontier r (ids held);
    Some (foldl add_found (held, fresh) found)) (Some (held, [])) rules.

Inductive outcome :=
  | Failed
  | Grown (held : gmap string (GroupingPosting D)).

Fixpoint grow (fuel : nat) (userID : string) (r : GroupingReader D) (rules : list (Rule D))
    held frontier : option outcome :=
  match frontier with
  | [] => Some (Grown held)
  | _ =>
      match fuel with
      | O => None
      | S n =>
          match round userID r rules held frontier with
          | None => Some Failed
          | Some (held', fresh) => grow n userID r rules held' fresh
          end
      end
  end.

Definition hold_seed (seed : list (GroupingPosting D)) : gmap string (GroupingPosting D) :=
  foldl (λ m p, <[ID p := p]> m) ∅ seed.

(** The outer [option] is the fuel's, the inner one the error's. *)
Definition Neighbourhood (fuel : nat) (userID : string) (seed : list (GroupingPosting D))
    (rules : list (Rule D)) (r : GroupingReader D) : option (option (list (GroupingPosting D))) :=
  o ← grow fuel userID r rules (hold_seed seed) seed;
  Some (match o with
        | Failed => None
        | Grown held => Some (sort_by_id (map_to_list held).*2)
        end).
End loop.

(** ** The reads *)

Definition BrokerToStr (b : Broker) : string :=
  match b with
  | BROKER_UNSPECIFIED | Broker_unrecognized _ => EmptyString
  | _ => Broker_String b
  end.

Definition StrToBroker (s : string) : Broker :=
  if decide (s = "IBKR") then IBKR
  else if decide (s = "SCHB") then SCHB
  else if decide (s = "FIDELITY") then FIDELITY
  else BROKER_UNSPECIFIED.

Definition InitializePurpose : string := "INITIALIZE".

Record row {D : Type} := {
  row_posting : GroupingPosting D;
  row_purpose : option string;
}.
#[global] Arguments row : clear implicits.

Section reader.
Context {D : Type} (uuid_ok : string → bool) (store : list (row D)).

(** [transcribedPostings]: the user's rows that transcribe something, in groups that
    hold no declaration's pad. *)
Definition padded (group : string) : bool :=
  existsb (λ s, bool_decide (GroupID (row_posting s) = group)
    && bool_decide (row_purpose s = Some InitializePurpose)) store.

Definition transcribed (userID : string) : list (GroupingPosting D) :=
  row_posting <$> filter (λ r, UserID (row_posting r) = userID ∧ row_purpose r = None ∧
    padded (GroupID (row_posting r)) = false) store.

Definition matches_token (t : GroupingPosting D) (q : TokenQuery) : bool :=
  existsb (λ c, bool_decide (Label c = tq_Label q) && bool_decide (Token c = tq_Token q)) (Correlations t)
  && bool_decide (BrokerToStr (PBroker t) = BrokerToStr (tq_Broker q))
  && (tq_AnyAccount q || bool_decide (Account t = tq_Account q)).

Definition matches_date (t : GroupingPosting D) (q : DateQuery) : bool :=
  bool_decide (BrokerToStr (PBroker t) = BrokerToStr (dq_Broker q))
  && bool_decide (Account t = dq_Account q)
  && (dq_From q <=? OrderDate t)%Z && (OrderDate t <? dq_Before q)%Z.

Definition matches_ordinal (t : GroupingPosting D) (q : OrdinalQuery) : bool :=
  existsb (λ c, bool_decide (Label c = oq_Label q) &&
    match Ordinal c with
    | Some o => (oq_Low q <=? o)%Z && (o <=? oq_High q)%Z
    | None => false
    end) (Correlations t)
  && bool_decide (BrokerToStr (PBroker t) = BrokerToStr (oq_Broker q))
  && bool_decide (Account t = oq_Account q).

(** The shape of the three reads: the user's transcribed postings one of the queries
    matches, those already held left out, ordered by id. *)
Definition read {Q} (matches : GroupingPosting D → Q → bool) (userID : string) (qs : list Q)
    (held : list string) : option (list (GroupingPosting D)) :=
  if negb (uuid_ok userID) then None
  else match qs with
  | [] => Some []
  | _ => Some (sort_by_id (filter (λ t, existsb (matches t) qs = true ∧ ID t ∉ held)
           (transcribed userID)))
  end.

Definition store_reader : GroupingReader D := {|
  PostingsByToken := read matches_token;
  PostingsByDates := read matches_date;
  PostingsByOrdinals := read matches_ordinal;
|}.
End reader.

(** ** The fixpoint

    What the loop needs: a universe of postings with distinct ids, and rules each of
    which, asked about a frontier, finds exactly the postings not held that it links
    some posting of the frontier to. *)

Section fixpoint.
Context {D : Type} (userID : string) (rd : GroupingReader D) (rules : list (Rule D)).
Context (U : list (GroupingPosting D)) (links : Rule D → GroupingPosting D → GroupingPosting D → Prop).
Hypothesis U_distinct : distinct_ids U.

Definition expands_to (rule : Rule D) : Prop := ∀ frontier held, ∃ found,
  Expand rule userID frontier rd held = Some found ∧
  ∀ q, q ∈ found ↔ q ∈ U ∧ ID q ∉ held ∧ ∃ p, p ∈ frontier ∧ links rule p q.

Implicit Types (held : gmap string (GroupingPosting D)) (frontier : list (GroupingPosting D)).

Definition holds held q : Prop := held !! ID q = Some q.

Definition held_ok held : Prop := ∀ id p, held !! id = Some p → ID p = id ∧ p ∈ U.

Lemma elem_of_ids held id : id ∈ ids held ↔ is_Some (held !! id).
Proof.
  unfold ids. rewrite sort_strings_perm, list_elem_of_fmap. split.
  - intros ([i p] & -> & Hp%elem_of_map_to_list). by exists p.
  - intros [p Hp]. exists (id, p). by rewrite elem_of_map_to_list.
Qed.

Lemma holds_dec held q : q ∈ U → held_ok held → holds held q ∨ held !! ID q = None.
Proof.
  intros Hq Hok. unfold holds. destruct (held !! ID q) as [p|] eqn:E; [left|by right].
  destruct (Hok _ _ E) as [Hid Hp]. by rewrite (distinct_ids_inj U p q).
Qed.

Lemma add_all held fresh found :
  held_ok held → (∀ q, q ∈ found → q ∈ U) →
  let '(held', fresh') := foldl add_found (held, fresh) found in
  held_ok held' ∧
  (∀ q, holds held' q ↔ holds held q ∨ (q ∈ found ∧ held !! ID q = None)) ∧
  (∀ q, q ∈ fresh' ↔ q ∈ fresh ∨ (q ∈ found ∧ held !! ID q = None)) ∧
  size held' + length fresh = size held + length fresh'.
Proof.
  revert held fresh. induction found as [|p found IH]; intros held fresh Hok HU; simpl.
  { split_and!; try done; intros q; rewrite elem_of_nil; tauto. }
  assert (p ∈ U) as Hp by (apply HU; left).
  assert (∀ q, q ∈ found → q ∈ U) as HU' by (intros q Hq; apply HU; by right).
  destruct (held !! ID p) as [p'|] eqn:E.
  - specialize (IH held fresh Hok HU'). destruct (foldl add_found _ found) as [held' fresh'].
    destruct IH as (Hok' & Hh & Hf & Hs). split_and!; try done; intros q.
    + rewrite Hh, elem_of_cons. split; [tauto|]. intros [?|[[->|?] ?]]; [tauto|congruence|tauto].
    + rewrite Hf, elem_of_cons. split; [tauto|]. intros [?|[[->|?] ?]]; [tauto|congruence|tauto].
  - assert (held_ok (<[ID p := p]> held)) as Hok1.
    { intros id q. rewrite lookup_insert_Some. intros [[<- <-]|[_ ?]]; [done|by apply Hok]. }
    specialize (IH (<[ID p := p]> held) (fresh ++ [p]) Hok1 HU').
    destruct (foldl add_found _ found) as [held' fresh'].
    destruct IH as (Hok' & Hh & Hf & Hs). split_and!; try done.
    + intros q. rewrite Hh, elem_of_cons. unfold holds. rewrite lookup_insert_Some, lookup_insert_None.
      split.
      * intros [[[? ->]|[? ?]]|(? & ? & ?)]; [right|left|right]; tauto.
      * intros [Hq|[[->|Hq] Hn]]; [|tauto|].
        -- left. right. split; [congruence|done].
        -- destruct (decide (ID p = ID q)) as [Eid|]; [|tauto].
           left. left. split; [done|]. symmetry. apply (distinct_ids_inj U); auto.
    + intros q. rewrite Hf, elem_of_app, !elem_of_cons, elem_of_nil, lookup_insert_None.
      split; [naive_solver|].
      intros [Hq|[[->|Hq] Hn]]; [tauto|tauto|].
      destruct (decide (ID p = ID q)) as [Eid|]; [|tauto].
      left. right. left. symmetry. apply (distinct_ids_inj U); auto.
    + rewrite map_size_insert_None in Hs by done. rewrite length_app in Hs. simpl in Hs. lia.
Qed.

Definition reach_by (rs : list (Rule D)) (p q : GroupingPosting D) : Prop :=
  ∃ rule, rule ∈ rs ∧ links rule p q.

Definition expand_all (rs : list (Rule D)) frontier held0 fresh0 :=
  foldl (λ acc rule,
    '(held, fresh) ← acc;
    found ← Expand rule userID frontier rd (ids held);
    Some (foldl add_found (held, fresh) found)) (Some (held0, fresh0)) rs.

(** A round adds exactly what the rules link the frontier to. *)
Lemma expand_all_spec rs frontier held0 fresh0 :
  held_ok held0 → (∀ rule, rule ∈ rs → expands_to rule) →
  ∃ held' fresh, expand_all rs frontier held0 fresh0 = Some (held', fresh) ∧ held_ok held' ∧
    (∀ q, holds held' q ↔ holds held0 q ∨ (q ∈ U ∧ ∃ p, p ∈ frontier ∧ reach_by rs p q)) ∧
    (∀ q, q ∈ fresh → q ∈ fresh0 ∨ (holds held' q ∧ ∃ p, p ∈ frontier ∧ reach_by rs p q)) ∧
    (∀ q, q ∈ fresh0 → q ∈ fresh) ∧
    (∀ q, holds held' q → holds held0 q ∨ q ∈ fresh) ∧
    size held' + length fresh0 = size held0 + length fresh.
Proof.
  revert held0 fresh0. unfold expand_all, reach_by.
  induction rs as [|rule rs IH]; intros held0 fresh0 Hok He; simpl.
  { exists held0, fresh0. split_and!; try done; [|by left|by left].
    intros q. split; [by left|]. intros [?|(_ & p & _ & rule & ?%elem_of_nil & _)]; done. }
  destruct (He rule ltac:(left) frontier (ids held0)) as (found & -> & Hfound). simpl.
  pose proof (add_all held0 fresh0 found Hok ltac:(naive_solver)) as Hadd.
  destruct (foldl add_found (held0, fresh0) found) as [held1 fresh1].
  destruct Hadd as (Hok1 & Hh1 & Hf1 & Hs1).
  destruct (IH held1 fresh1 Hok1) as (held' & fresh & -> & Hok' & Hh & Hf & Hsub & Hnew & Hs).
  { intros r Hr. apply He. by right. }
  assert (Hids : ∀ q : GroupingPosting D, ID q ∉ ids held0 ↔ held0 !! ID q = None).
  { intros q. rewrite elem_of_ids, eq_None_not_Some. done. }
  exists held', fresh. split_and!; try done.
  - intros q. rewrite Hh, Hh1. split.
    + intros [[?|[Hq _]]|(Hq & p & Hp & r & Hr & ?)]; [by left| |].
      * apply Hfound in Hq as (Hq & _ & p & Hp & ?). right. split; [done|]. exists p.
        split; [done|]. exists rule. split; [left|done].
      * right. split; [done|]. exists p. split; [done|]. exists r. split; [by right|done].
    + intros [?|(Hq & p & Hp & r & Hr & Hl)]; [by left; left|].
      apply elem_of_cons in Hr as [->|Hr]; [|right; eauto 6].
      destruct (holds_dec held0 q Hq Hok) as [?|Hn]; [by left; left|].
      left. right. split; [|done]. apply Hfound. split_and!; [done|by apply Hids|eauto].
  - intros q Hq. apply Hf in Hq as [Hq|(Hq & p & Hp & r & Hr & ?)].
    + apply Hf1 in Hq as [?|[Hq Hn]]; [by left|right]. split.
      * apply Hh. left. apply Hh1. by right.
      * apply Hfound in Hq as (_ & _ & p & Hp & ?). exists p. split; [done|]. exists rule.
        split; [left|done].
    + right. split; [done|]. exists p. split; [done|]. exists r. split; [by right|done].
  - intros q Hq. apply Hsub, Hf1. by left.
  - intros q Hq. apply Hnew in Hq as [Hq|Hq]; [|by right].
    apply Hh1 in Hq as [?|?]; [by left|right]. apply Hsub, Hf1. by right.
  - lia.
Qed.

Hypothesis expands : ∀ rule, rule ∈ rules → expands_to rule.
Hypothesis links_U : ∀ rule p q, rule ∈ rules → links rule p q → q ∈ U.

Definition reach : relation (GroupingPosting D) := reach_by rules.

Lemma reach_U p q : reach p q → q ∈ U.
Proof. intros (rule & Hr & Hl). by eapply links_U. Qed.

(** The invariant of the loop: what is held was reached from the seed, the frontier
    is held, and what is held and not in the frontier has nothing left to reach. *)
Record growing (seed : list (GroupingPosting D)) held frontier : Prop := {
  gr_ok : held_ok held;
  gr_seed p : p ∈ seed → holds held p;
  gr_reached q : holds held q → ∃ p, p ∈ seed ∧ rtc reach p q;
  gr_frontier p : p ∈ frontier → holds held p;
  gr_closed p q : holds held p → p ∉ frontier → reach p q → holds held q;
}.

Lemma round_growing seed held frontier :
  growing seed held frontier →
  ∃ held' fresh, round userID rd rules held frontier = Some (held', fresh) ∧
    growing seed held' fresh ∧ size held' = size held + length fresh.
Proof.
  intros [Hok Hseed Hreached Hfr Hclosed].
  destruct (expand_all_spec rules frontier held [] Hok expands)
    as (held' & fresh & E & Hok' & Hh & Hf & _ & Hnew & Hs).
  exists held', fresh. split_and!; [exact E| |simpl in Hs; lia]. split; [done| | | |].
  - intros p Hp. apply Hh. left. auto.
  - intros q Hq. apply Hh in Hq as [?|(_ & p & Hp & Hr)]; [auto|].
    destruct (Hreached p) as (p0 & Hp0 & Hrtc); [auto|]. exists p0. split; [done|]. by eapply rtc_r.
  - intros p Hp. apply Hf in Hp as [?%elem_of_nil|[? _]]; done.
  - intros p q Hp Hnf Hr. apply Hh. apply Hnew in Hp as [Hp|?]; [|done].
    destruct (decide (ID p ∈ ID <$> frontier)) as [Hin|Hout].
    + apply list_elem_of_fmap in Hin as (p' & Eid & Hp'). pose proof (Hfr p' Hp') as Hh'.
      unfold holds in Hp, Hh'. rewrite <- Eid, Hp in Hh'. injection Hh' as ->.
      right. split; [by eapply reach_U|]. eauto.
    + left. eapply Hclosed; [done| |done]. intros Hpf. apply Hout. by apply list_elem_of_fmap_2.
Qed.

Lemma held_size held : held_ok held → size held ≤ length U.
Proof.
  intros Hok. rewrite <- (size_dom (D:=gset string)), <- (length_fmap ID U).
  rewrite <- (size_list_to_set (C:=gset string) (ID <$> U)) by done.
  apply subseteq_size. intros id [p Hp]%elem_of_dom. apply Hok in Hp as [<- Hp].
  apply elem_of_list_to_set. by apply list_elem_of_fmap_2.
Qed.

Lemma grow_spec fuel seed held frontier :
  growing seed held frontier → (frontier ≠ [] → length U < fuel + size held) →
  ∃ held', grow fuel userID rd rules held frontier = Some (Grown held') ∧ growing seed held' [].
Proof.
  revert held frontier. induction fuel as [|n IH]; intros held frontier Hg Hfuel.
  - destruct frontier as [|p frontier]; [by exists held|].
    pose proof (held_size held (gr_ok _ _ _ Hg)). specialize (Hfuel ltac:(done)). lia.
  - destruct frontier as [|p frontier]; [by exists held|]. cbn [grow].
    destruct (round_growing seed held (p :: frontier) Hg) as (held' & fresh & -> & Hg' & Hs).
    apply IH; [done|]. intros Hne. specialize (Hfuel ltac:(done)).
    destruct fresh; [done|]. simpl in Hs. lia.
Qed.

Lemma hold_seed_lookup seed id p :
  (∀ x, x ∈ seed → x ∈ U) → hold_seed seed !! id = Some p ↔ p ∈ seed ∧ ID p = id.
Proof.
  unfold hold_seed. intros HU.
  enough (∀ m : gmap string (GroupingPosting D), foldl (λ m p, <[ID p := p]> m) m seed !! id = Some p ↔
    (p ∈ seed ∧ ID p = id) ∨ (id ∉ ID <$> seed ∧ m !! id = Some p)) as Hgen.
  { rewrite Hgen, lookup_empty. naive_solver. }
  induction seed as [|x seed IH]; intros m; simpl; [set_solver|].
  rewrite IH by (intros; apply HU; by right). rewrite lookup_insert_Some, elem_of_cons, not_elem_of_cons.
  split.
  - intros [[? ?]|[Hn [[? ?]|[? ?]]]]; [left; auto|left; subst; auto|right].
    split; [split; [congruence|done]|done].
  - intros [[[->|Hp] Hid]|[[Hne Hn] Hm]]; [|auto|right; auto].
    destruct (decide (id ∈ ID <$> seed)) as [Hin|Hout]; [left|right; auto].
    apply list_elem_of_fmap in Hin as (y & -> & Hy). split; [|done].
    rewrite (distinct_ids_inj U x y); [done|done|apply HU; left|apply HU; by right|done].
Qed.

Lemma seed_growing seed : (∀ x, x ∈ seed → x ∈ U) → growing seed (hold_seed seed) seed.
Proof.
  intros HU. assert (Hh : ∀ q, holds (hold_seed seed) q ↔ q ∈ seed).
  { intros q. unfold holds. rewrite hold_seed_lookup by done. naive_solver. }
  split.
  - intros id p Hp%hold_seed_lookup; [|done]. naive_solver.
  - intros p. by rewrite Hh.
  - intros q Hq%Hh. exists q. split; [done|apply rtc_refl].
  - intros p. by rewrite Hh.
  - intros p q Hp%Hh Hnp. done.
Qed.

(** With one round more than there are postings the loop returns, and it returns what
    the rules reach from the seed. *)
Lemma neighbourhood_spec fuel seed :
  (∀ x, x ∈ seed → x ∈ U) → length U < fuel →
  ∃ out, Neighbourhood fuel userID seed rules rd = Some (Some out) ∧ distinct_ids out ∧
    out = sort_by_id out ∧ ∀ q, q ∈ out ↔ ∃ p, p ∈ seed ∧ rtc reach p q.
Proof.
  intros HU Hfuel.
  destruct (grow_spec fuel seed (hold_seed seed) seed) as (held & Eg & [Hok Hseed Hreached _ Hclosed]).
  { by apply seed_growing. }
  { intros _. lia. }
  exists (sort_by_id (map_to_list held).*2). unfold Neighbourhood. rewrite Eg.
  assert (Hin : ∀ q, q ∈ (map_to_list held).*2 ↔ holds held q).
  { intros q. unfold holds. rewrite list_elem_of_fmap. split.
    - intros ([id p] & -> & Hp%elem_of_map_to_list). simpl. by destruct (Hok _ _ Hp) as [-> _].
    - intros Hq. exists (ID q, q). by rewrite elem_of_map_to_list. }
  assert (distinct_ids (map_to_list held).*2) as Hd.
  { unfold distinct_ids. rewrite <- list_fmap_compose.
    replace ((ID ∘ snd) <$> map_to_list held) with (map_to_list held).*1.
    - apply NoDup_fst_map_to_list.
    - apply list_fmap_ext. intros i [id p] Hl. simpl.
      apply list_elem_of_lookup_2, elem_of_map_to_list, Hok in Hl as [-> _]. done. }
  split_and!; [done| | |].
  - eapply distinct_ids_perm; [symmetry; apply sort_by_id_perm|done].
  - apply sort_by_id_unique; [|symmetry; apply sort_by_id_perm]. done.
  - intros q. rewrite sort_by_id_perm, Hin. split; [auto|].
    intros (p & Hp%Hseed & Hr). induction Hr as [p|p p1 p2 Hr _ IH]; [done|].
    apply IH. by eapply Hclosed; [exact Hp|apply not_elem_of_nil|].
Qed.
End fixpoint.

(** ** The store's reads *)

Section store.
Context {D : Type} `{Decimal D} (uuid_ok : string → bool) (store : list (row D)) (userID : string).
Hypothesis user_ok : uuid_ok userID = true.

Notation rd := (store_reader uuid_ok store).

(** What a rule links a posting to: what it reads for it alone, holding nothing. *)
Definition links (rule : Rule D) (p q : GroupingPosting D) : Prop :=
  ∃ found, Expand rule userID [p] rd [] = Some found ∧ q ∈ found.

(** A rule whose reads are the queries of each posting of the frontier. *)
Definition reads_by {Q} `{EqDecision Q} (queries : GroupingPosting D → list Q)
    (matches : GroupingPosting D → Q → bool) (rule : Rule D) : Prop :=
  ∀ ps held, Expand rule userID ps rd held =
    match ps ≫= queries with
    | [] => Some []
    | qs => read uuid_ok store matches userID (distinct qs) held
    end.

Lemma read_spec {Q} `{EqDecision Q} (queries : GroupingPosting D → list Q) matches rule ps held :
  reads_by queries matches rule →
  ∃ found, Expand rule userID ps rd held = Some found ∧
    ∀ q, q ∈ found ↔ q ∈ transcribed store userID ∧ ID q ∉ held ∧
      ∃ p, p ∈ ps ∧ ∃ x, x ∈ queries p ∧ matches q x = true.
Proof.
  intros Hr. rewrite Hr. destruct (ps ≫= queries) as [|x xs] eqn:E.
  - exists []. split; [done|]. intros q. split; [by intros ?%elem_of_nil|].
    intros (_ & _ & p & Hp & x & Hx & _). assert (x ∈ ps ≫= queries) as Hin by (apply elem_of_bind; eauto).
    rewrite E in Hin. by apply elem_of_nil in Hin.
  - rewrite <- E. unfold read. rewrite user_ok. cbn [negb].
    assert (∃ y ys, distinct (ps ≫= queries) = y :: ys) as (y & ys & Ed).
    { rewrite E. destruct (distinct (x :: xs)) as [|y ys] eqn:Ed; [|eauto].
      exfalso. apply (not_elem_of_nil x). rewrite <- Ed. apply elem_of_distinct. left. }
    rewrite Ed. eexists. split; [done|]. intros q.
    rewrite sort_by_id_perm, list_elem_of_filter, existsb_true_iff, <- Ed.
    setoid_rewrite elem_of_distinct. setoid_rewrite elem_of_bind. naive_solver.
Qed.

Lemma reads_by_expands {Q} `{EqDecision Q} (queries : GroupingPosting D → list Q) matches rule :
  reads_by queries matches rule →
  expands_to userID rd (transcribed store userID) links rule ∧
  ∀ p q, links rule p q → q ∈ transcribed store userID.
Proof.
  intros Hr.
  assert (Hl : ∀ p q, links rule p q ↔ q ∈ transcribed store userID ∧
    ∃ x, x ∈ queries p ∧ matches q x = true).
  { intros p q. unfold links. destruct (read_spec queries matches rule [p] [] Hr) as (found & E & Hf).
    split.
    - intros (f & Ef & Hq). assert (f = found) as -> by congruence.
      apply Hf in Hq as (? & _ & p' & ->%list_elem_of_singleton & ?). done.
    - intros (Hq & x & Hx). exists found. split; [done|]. apply Hf. split_and!; [done|apply not_elem_of_nil|].
      exists p. split; [left|eauto]. }
  split; [|intros p q Hpq%Hl; tauto].
  intros ps held. destruct (read_spec queries matches rule ps held Hr) as (found & E & Hf).
  exists found. split; [done|]. intros q. rewrite Hf. setoid_rewrite Hl. naive_solver.
Qed.

Lemma fmap_bind_one {A B} (f : A → B) l : f <$> l = l ≫= λ x, [f x].
Proof. induction l as [|x l IH]; csimpl; [done|]. by rewrite IH. Qed.

Lemma by_day_reads rule :
  Expand rule = @expandByDay D → reads_by (λ p, [day_query p]) matches_date rule.
Proof.
  intros E ps held. rewrite E. unfold expandByDay, day_queries. by rewrite fmap_bind_one.
Qed.

Lemma default_rules_expand rule :
  rule ∈ (DefaultRules : list (Rule D)) →
  expands_to userID rd (transcribed store userID) links rule ∧
  ∀ p q, links rule p q → q ∈ transcribed store userID.
Proof.
  unfold DefaultRules. rewrite !elem_of_cons, elem_of_nil.
  intros [->|[->|[->|[->|[->|[->|[->|[]]]]]]]].
  2, 3, 4, 7: by eapply reads_by_expands, by_day_reads.
  - by apply (reads_by_expands (posting_token_queries MatchExact) matches_token).
  - by apply (reads_by_expands posting_ordinal_queries matches_ordinal).
  - by apply (reads_by_expands (posting_token_queries MatchAttaches) matches_token).
Qed.

Lemma links_matches {Q} `{EqDecision Q} (queries : GroupingPosting D → list Q) matches rule p q :
  reads_by queries matches rule → links rule p q → ∃ x, x ∈ queries p ∧ matches q x = true.
Proof.
  intros Hr (f & Ef & Hq). destruct (read_spec queries matches rule [p] [] Hr) as (found & E & Hf).
  assert (f = found) as -> by congruence.
  apply Hf in Hq as (_ & _ & p' & ->%list_elem_of_singleton & ?). done.
Qed.

(** No read crosses from one broker to another. *)
Lemma links_broker rule p q :
  rule ∈ (DefaultRules : list (Rule D)) → links rule p q →
  BrokerToStr (PBroker q) = BrokerToStr (PBroker p).
Proof.
  assert (Htok : ∀ kind, (∃ x, x ∈ posting_token_queries kind p ∧ matches_token q x = true) →
    BrokerToStr (PBroker q) = BrokerToStr (PBroker p)).
  { intros kind (x & (c & -> & _)%list_elem_of_fmap & Hm). unfold matches_token in Hm.
    rewrite !andb_true_iff, !bool_decide_eq_true in Hm. tauto. }
  assert (Hday : ∀ rule, Expand rule = @expandByDay D → links rule p q →
    BrokerToStr (PBroker q) = BrokerToStr (PBroker p)).
  { intros r Hr Hl. apply (links_matches _ _ _ _ _ (by_day_reads r Hr)) in Hl
      as (x & ->%list_elem_of_singleton & Hm).
    unfold matches_date in Hm. rewrite !andb_true_iff, !bool_decide_eq_true in Hm. tauto. }
  unfold DefaultRules. rewrite !elem_of_cons, elem_of_nil.
  intros [->|[->|[->|[->|[->|[->|[->|[]]]]]]]].
  2, 3, 4, 7: by apply Hday.
  - intros Hl. apply (links_matches (posting_token_queries MatchExact) matches_token) in Hl; [|done].
    by apply (Htok MatchExact).
  - intros Hl. apply (links_matches posting_ordinal_queries matches_ordinal) in Hl as (x & Hx & Hm); [|done].
    unfold posting_ordinal_queries in Hx. apply list_elem_of_omap in Hx as (c & _ & Hx).
    destruct (Declares c MatchOrdinal), (Ordinal c), (OrdinalSpan c); simplify_eq.
    unfold matches_ordinal in Hm. rewrite !andb_true_iff, !bool_decide_eq_true in Hm. tauto.
  - intros Hl. apply (links_matches (posting_token_queries MatchAttaches) matches_token) in Hl; [|done].
    by apply (Htok MatchAttaches).
Qed.

(** A neighbourhood is one broker's.  Everything grown from a posting is of its
    broker, which is what lets the trade rules bucket on the account and the day
    alone. *)
Theorem neighbourhood_one_broker fuel p out :
  distinct_ids (transcribed store userID) → p ∈ transcribed store userID →
  length (transcribed store userID) < fuel →
  Neighbourhood fuel userID [p] DefaultRules rd = Some (Some out) →
  ∀ q, q ∈ out → BrokerToStr (PBroker q) = BrokerToStr (PBroker p).
Proof.
  intros Hd Hp Hfuel Hn q Hq.
  destruct (neighbourhood_spec userID rd DefaultRules (transcribed store userID) links Hd
    (λ rule Hr, proj1 (default_rules_expand rule Hr))
    (λ rule p q Hr, proj2 (default_rules_expand rule Hr) p q)
    fuel [p]) as (out' & E & _ & _ & Hr); [by intros x ->%list_elem_of_singleton|done|].
  assert (out' = out) as -> by congruence.
  apply Hr in Hq as (p' & ->%list_elem_of_singleton & Hrtc).
  clear -Hrtc user_ok. induction Hrtc as [|x y z (rule & Hrule & Hl) _ IH]; [done|].
  rewrite IH. by eapply links_broker.
Qed.

(** C14: a neighbourhood is a fixpoint, and it is always reached.  Read through the
    store, growing a seed of the user's transcribed postings under the shipped rules
    returns after at most one round more than the user has such postings; and it
    returns, in order of id and each once, exactly the postings the rules' own
    candidate relations reach from the seed. *)
Theorem neighbourhood_fixpoint fuel seed :
  distinct_ids (transcribed store userID) →
  (∀ p, p ∈ seed → p ∈ transcribed store userID) → length (transcribed store userID) < fuel →
  ∃ out, Neighbourhood fuel userID seed DefaultRules rd = Some (Some out) ∧ distinct_ids out ∧
    out = sort_by_id out ∧
    ∀ q, q ∈ out ↔ ∃ p, p ∈ seed ∧
      rtc (λ x y, ∃ rule, rule ∈ (DefaultRules : list (Rule D)) ∧ links rule x y) p q.
Proof.
  intros Hd Hseed Hfuel.
  apply (neighbourhood_spec userID rd DefaultRules (transcribed store userID) links); try done.
  - intros rule Hr. by apply default_rules_expand.
  - intros rule p q Hr. by apply default_rules_expand.
Qed.
End store.

(** The reads are wide enough for the rules that use them.  The day a trade or
    charge rule reads for a posting covers exactly the postings of the same broker
    and account that share its bucket. *)
Theorem day_read_is_bucket {D} (p q : GroupingPosting D) :
  matches_date q (day_query p) = true ↔
  BrokerToStr (PBroker q) = BrokerToStr (PBroker p) ∧ bucket q = bucket p.
Proof.
  unfold matches_date, day_query, bucket. cbn [dq_Broker dq_Account dq_From dq_Before].
  rewrite !andb_true_iff, !bool_decide_eq_true, Z.leb_le, Z.ltb_lt.
  assert (day_start (day_of (OrderDate p)) + day_ns = day_start (day_of (OrderDate p) + 1))%Z as ->
    by (unfold day_start; lia).
  split.
  - intros [[[-> ->] H1] H2]. split; [done|]. f_equal. by apply day_of_unique.
  - intros [-> [= -> Ed]]. pose proof (day_of_bounds (OrderDate q)) as Hb. rewrite Ed in Hb. tauto.
Qed.

(** ** A store *)

Section witnesses.
#[local] Existing Instances QDecimal.q_decimal QDecimal.q_decimal_laws.

Definition sample_store : list (row Q) :=
  (λ p, {| row_posting := p; row_purpose := None |}) <$> sample_day.

Lemma neighbourhood_fixpoint_witness :
  ∃ out, Neighbourhood 5 "u" [sample_buy] DefaultRules (store_reader (λ _, true) sample_store)
      = Some (Some out) ∧ distinct_ids out.
Proof.
  destruct (neighbourhood_fixpoint (λ _, true) sample_store "u" eq_refl 5 [sample_buy])
    as (out & E & Hd & _).
  - apply (bool_decide_unpack _). vm_compute. exact I.
  - intros p ->%list_elem_of_singleton. left.
  - vm_compute. lia.
  - exists out. split; [exact E|exact Hd].
Defined.

Lemma neighbourhood_one_broker_witness : BrokerToStr (PBroker sample_fee) = "FIDELITY".
Proof.
  apply (neighbourhood_one_broker (λ _, true) sample_store "u" eq_refl 5 sample_buy (sort_by_id sample_day)).
  - apply (bool_decide_unpack _). vm_compute. exact I.
  - left.
  - vm_compute. lia.
  - vm_compute. reflexivity.
  - right; right; left.
Defined.

(** The purchase's whole day is reached from it. *)
Lemma sample_neighbourhood :
  option_map (option_map (map ID))
    (Neighbourhood 5 "u" [sample_buy] DefaultRules (store_reader (λ _, true) sample_store))
  = Some (Some ["p1"; "p2"; "p4"; "p5"]).
Proof. vm_compute. reflexivity. Qed.
End witnesses.
End Neighbourhood.
