(* ===== verification/Diff.v ===== *)
(** * Where the engine disagrees with what is stored

    server/grouping/diff.go ([Diff]) and server/grouping/engine.go ([Engine.Settle]): a
    derived partition measured against the one the postings sit in.

    [ids[0]] of a group with no members would panic; [Diff] returns [None] there,
    and [diff_reports_disagreements] shows that on the groups [Partition] derives it
    never does. *)

From stdpp Require Import relations.
From Stdlib Require Import QArith.
From S2P Require Import Prelude Decimal TxType Posting GroupState Grouping Exact Trade Deposit Charge Engine Neighbourhood.

Local Open Scope nat_scope.

Module Diff.
Import TxType Posting GroupState Grouping Exact Trade Deposit Charge Engine Neighbourhood.

Record GroupMemberChange := {
  gmc_ID : string;
  gmc_FromGroupID : string;
  gmc_Resolved : string;
  gmc_Moving : bool;
}.

Record GroupChange := { gc_Members : list GroupMemberChange }.

Definition resolvedStr (t : TxType) : string := default EmptyString (TxTypeToStr t).

Fixpoint same (a b : list string) : bool :=
  match a, b with
  | [], [] => true
  | x :: a', y :: b' => bool_decide (x = y) && same a' b'
  | _, _ => false
  end.

Section diff.
Context {D : Type}.
Implicit Types (ps : list (GroupingPosting D)).

(** [stored], each list sorted. *)
Definition stored_ids ps (group : string) : list string :=
  sort_strings (at_key (index_by ((λ p, (GroupID p, ID p)) <$> ps)) group).

(** [storedOf] and [resolvedOfStored]: the last posting of an id wins. *)
Definition last_of ps (f : GroupingPosting D → string) : gmap string string :=
  foldl (λ m p, <[ID p := f p]> m) ∅ ps.

Definition storedOf ps (id : string) : string := pget (last_of ps GroupID) id.
Definition resolvedOfStored ps (id : string) : string := pget (last_of ps Resolved) id.

Definition member_change_less (a b : GroupMemberChange) : bool := String.ltb (gmc_ID a) (gmc_ID b).

(** The body of the loop: the change for one derived group, if there is one. *)
Definition diff_group ps (g : Group) : option (option GroupChange) :=
  let ids := sort_strings (MemberID <$> Members g) in
  match ids with
  | [] => None
  | id0 :: _ =>
      Some (
        if same (stored_ids ps (storedOf ps id0)) ids then
          let ms := omap (λ m,
            if decide (resolvedOfStored ps (MemberID m) = resolvedStr (MemberResolved m)) then None
            else Some {| gmc_ID := MemberID m; gmc_FromGroupID := EmptyString;
                         gmc_Resolved := resolvedStr (MemberResolved m); gmc_Moving := false |})
            (Members g) in
          match ms with [] => None | _ => Some {| gc_Members := ms |} end
        else
          Some {| gc_Members := go_sort member_change_less
            ((λ m, {| gmc_ID := MemberID m; gmc_FromGroupID := storedOf ps (MemberID m);
                      gmc_Resolved := resolvedStr (MemberResolved m); gmc_Moving := true |})
             <$> Members g) |})
  end.

Fixpoint Diff ps (gs : list Group) : option (list GroupChange) :=
  match gs with
  | [] => Some []
  | g :: gs' =>
      c ← diff_group ps g;
      rest ← Diff ps gs';
      Some (option_list c ++ rest)
  end.

(** ** [Settle] *)

(** [None]: a neighbourhood still growing or a group with no members; [Some None]: a
    read failed. *)
Definition settle_seed (fuel : nat) (userID : string) (rules : list (Rule D)) (opts : Opts D)
    (r : GroupingReader D) (acc : gset string * list GroupChange) (s : GroupingPosting D)
    : option (option (gset string * list GroupChange)) :=
  let '(done, out) := acc in
  if decide (ID s ∈ done) then Some (Some acc)
  else
    n ← Neighbourhood fuel userID [s] rules r;
    match n with
    | None => Some None
    | Some ps =>
        cs ← Diff ps (Partition ps rules opts);
        Some (Some (list_to_set (ID <$> ps) ∪ done, out ++ cs))
    end.

Fixpoint settle_loop (fuel : nat) (userID : string) (rules : list (Rule D)) (opts : Opts D)
    (r : GroupingReader D) (acc : gset string * list GroupChange) (seed : list (GroupingPosting D))
    : option (option (list GroupChange)) :=
  match seed with
  | [] => Some (Some acc.2)
  | s :: seed' =>
      o ← settle_seed fuel userID rules opts r acc s;
      match o with
      | None => Some None
      | Some acc' => settle_loop fuel userID rules opts r acc' seed'
      end
  end.

Definition Settle `{Decimal D} (fuel : nat) (rules : list (Rule D)) (opts : Opts D)
    (userID : string) (seed : list (GroupingPosting D)) (r : GroupingReader D)
    : option (option (list GroupChange)) :=
  let rules := match rules with [] => DefaultRules | _ => rules end in
  settle_loop fuel userID rules opts r (∅, []) seed.
End diff.

(** ** Lemmas *)

Lemma same_eq a b : same a b = true ↔ a = b.
Proof.
  revert b. induction a as [|x a IH]; intros [|y b]; simpl; try done.
  rewrite andb_true_iff, bool_decide_eq_true, IH. naive_solver.
Qed.

Section lemmas.
Context {D : Type}.
Implicit Types (ps : list (GroupingPosting D)) (p q : GroupingPosting D).

Lemma last_of_lookup ps f p : distinct_ids ps → p ∈ ps → pget (last_of ps f) (ID p) = f p.
Proof.
  intros Hnd Hp. unfold pget, last_of.
  enough (∀ m : gmap string string, foldl (λ m p, <[ID p := f p]> m) m ps !! ID p = Some (f p)) as -> by done.
  induction ps as [|q ps IH]; [by apply elem_of_nil in Hp|]. intros m. simpl.
  apply NoDup_cons in Hnd as [Hq Hnd]. apply elem_of_cons in Hp as [->|Hp]; [|by apply IH].
  clear IH Hnd. assert (∀ m : gmap string string, m !! ID q = Some (f q) →
    foldl (λ m p, <[ID p := f p]> m) m ps !! ID q = Some (f q)) as Hgen.
  { induction ps as [|x ps IH]; intros m' Hm; simpl; [done|]. simpl in Hq.
    apply IH; [set_solver|]. rewrite lookup_insert_ne; [done|]. set_solver. }
  apply Hgen. by rewrite lookup_insert_eq.
Qed.

Lemma elem_of_stored_ids ps g id :
  id ∈ stored_ids ps g ↔ ∃ p, p ∈ ps ∧ GroupID p = g ∧ ID p = id.
Proof.
  unfold stored_ids. rewrite sort_strings_perm, at_key_index_by, elem_of_sel, list_elem_of_fmap.
  naive_solver.
Qed.

Lemma NoDup_stored_ids ps g : distinct_ids ps → NoDup (stored_ids ps g).
Proof.
  intros Hnd. unfold stored_ids. rewrite sort_strings_perm, at_key_index_by. unfold sel.
  eapply sublist_NoDup; [exact Hnd|]. etransitivity; [apply fmap_sublist, sublist_filter|].
  by rewrite <- list_fmap_compose.
Qed.

(** Two sorted lists without repeats are equal when they have the same elements. *)
Lemma sorted_ids_eq (a b : list string) :
  NoDup a → NoDup b → (∀ x, x ∈ a ↔ x ∈ b) → sort_strings a = sort_strings b.
Proof. intros Ha Hb Hab. apply sort_strings_unique. by apply NoDup_Permutation. Qed.

(** The postings of a derived group are exactly the postings stored in one group. *)
Definition stored_as ps (g : Group) : Prop :=
  ∃ gid, ∀ p, p ∈ ps → ID p ∈ MemberID <$> Members g ↔ GroupID p = gid.

(** What [Diff] needs of the groups: a partition of the postings. *)
Record derived ps (gs : list Group) : Prop := {
  dv_distinct : distinct_ids ps;
  dv_nonempty g : g ∈ gs → Members g ≠ [];
  dv_members g m : g ∈ gs → m ∈ Members g → ∃ p, p ∈ ps ∧ ID p = MemberID m;
  dv_nodup : NoDup (MemberID <$> (gs ≫= Members));
}.

Lemma derived_cons ps g gs : derived ps (g :: gs) → derived ps gs.
Proof.
  intros [H1 H2 H3 H4]. split; [done| | |].
  - intros x Hx. apply H2. by right.
  - intros x m Hx. apply H3. by right.
  - csimpl in H4. rewrite fmap_app in H4. by apply NoDup_app in H4 as (_ & _ & ?).
Qed.

Lemma derived_group_nodup ps gs g : derived ps gs → g ∈ gs → NoDup (MemberID <$> Members g).
Proof.
  intros Hd. revert Hd. induction gs as [|x gs IH]; intros Hd Hg; [by apply elem_of_nil in Hg|].
  apply elem_of_cons in Hg as [->|Hg]; [|by apply IH; [eapply derived_cons|]].
  pose proof (dv_nodup _ _ Hd) as Hn. csimpl in Hn. rewrite fmap_app in Hn.
  by apply NoDup_app in Hn as (? & _ & _).
Qed.

(** The test [Diff] makes is whether the membership is stored. *)
Lemma same_stored ps gs g id0 rest :
  derived ps gs → g ∈ gs → sort_strings (MemberID <$> Members g) = id0 :: rest →
  same (stored_ids ps (storedOf ps id0)) (id0 :: rest) = true ↔ stored_as ps g.
Proof.
  intros Hd Hg E. rewrite same_eq, <- E.
  pose proof (derived_group_nodup _ _ _ Hd Hg) as Hnd. destruct Hd as [Hdis Hne Hmem _].
  assert (id0 ∈ MemberID <$> Members g) as Hid0.
  { rewrite <- (sort_strings_perm (MemberID <$> Members g)), E. left. }
  apply list_elem_of_fmap in Hid0 as (m0 & -> & Hm0).
  destruct (Hmem g m0 Hg Hm0) as (p0 & Hp0 & Ep0).
  assert (storedOf ps (MemberID m0) = GroupID p0) as ->.
  { unfold storedOf. rewrite <- Ep0. by apply last_of_lookup. }
  assert (Hin0 : ID p0 ∈ MemberID <$> Members g) by (rewrite Ep0; by apply list_elem_of_fmap_2).
  split.
  - intros Heq. exists (GroupID p0). intros p Hp.
    rewrite <- (sort_strings_perm (MemberID <$> Members g)), <- Heq, elem_of_stored_ids. split.
    + intros (q & Hq & Hgq & Eq). by rewrite <- (distinct_ids_inj ps q p).
    + eauto.
  - intros [gid Hgid]. assert (gid = GroupID p0) as -> by (symmetry; by apply Hgid).
    unfold stored_ids. apply sorted_ids_eq; [|done|].
    + pose proof (NoDup_stored_ids ps (GroupID p0) Hdis) as Hn. unfold stored_ids in Hn.
      by rewrite sort_strings_perm in Hn.
    + intros id. transitivity (id ∈ stored_ids ps (GroupID p0)).
      { unfold stored_ids. by rewrite sort_strings_perm. }
      rewrite elem_of_stored_ids. split.
      * intros (p & Hp & Hpg & <-). by apply Hgid.
      * intros (m & -> & Hm)%list_elem_of_fmap. destruct (Hmem g m Hg Hm) as (p & Hp & Ep).
        exists p. split_and!; [done| |done]. apply Hgid; [done|]. rewrite Ep. by apply list_elem_of_fmap_2.
Qed.
End lemmas.

(** ** What is reported *)

Section reported.
Context {D : Type}.
Implicit Types (ps : list (GroupingPosting D)) (p : GroupingPosting D) (m : Member).

Definition moving_change ps m : GroupMemberChange := {|
  gmc_ID := MemberID m; gmc_FromGroupID := storedOf ps (MemberID m);
  gmc_Resolved := resolvedStr (MemberResolved m); gmc_Moving := true |}.

Definition retype_change m : GroupMemberChange := {|
  gmc_ID := MemberID m; gmc_FromGroupID := EmptyString;
  gmc_Resolved := resolvedStr (MemberResolved m); gmc_Moving := false |}.

(** The change a member of a derived group is reported with. *)
Definition reported ps (g : Group) m (mc : GroupMemberChange) : Prop :=
  (¬ stored_as ps g ∧ mc = moving_change ps m) ∨
  (stored_as ps g ∧ resolvedOfStored ps (MemberID m) ≠ resolvedStr (MemberResolved m) ∧
   mc = retype_change m).

Lemma diff_group_spec ps gs g :
  derived ps gs → g ∈ gs →
  ∃ oc, diff_group ps g = Some oc ∧ (∀ c, oc = Some c → gc_Members c ≠ []) ∧
    ∀ mc, (∃ c, oc = Some c ∧ mc ∈ gc_Members c) ↔ ∃ m, m ∈ Members g ∧ reported ps g m mc.
Proof.
  intros Hd Hg. unfold diff_group.
  destruct (sort_strings (MemberID <$> Members g)) as [|id0 rest] eqn:E.
  { exfalso. pose proof (sort_strings_perm (MemberID <$> Members g)) as Hp. rewrite E in Hp.
    apply Permutation_nil, fmap_nil_inv in Hp. by apply (dv_nonempty _ _ Hd g). }
  eexists. split; [done|]. pose proof (same_stored ps gs g id0 rest Hd Hg E) as Hsame.
  unfold reported. destruct (same _ _).
  - assert (stored_as ps g) as Hst by by apply Hsame. clear Hsame. set (ms := omap _ _).
    assert (∀ mc, mc ∈ ms ↔ ∃ m, m ∈ Members g ∧
      resolvedOfStored ps (MemberID m) ≠ resolvedStr (MemberResolved m) ∧ mc = retype_change m) as Hms.
    { intros mc. unfold ms. rewrite list_elem_of_omap. split.
      - intros (m & Hm & Hc). case_decide; simplify_eq. eauto.
      - intros (m & Hm & Hne & ->). exists m. by rewrite decide_False. }
    destruct ms as [|mc0 ms']; (split; [naive_solver|]); intros mc.
    + split; [by intros (c & ? & _)|]. intros (m & Hm & [[? _]|(_ & Hne & ->)]); [done|].
      exfalso. apply (not_elem_of_nil (retype_change m)). apply Hms. eauto.
    + split.
      * intros (c & [= <-] & Hmc). apply Hms in Hmc as (m & ? & ? & ?). exists m. auto.
      * intros (m & Hm & [[? _]|(_ & Hne & ->)]); [done|]. eexists. split; [done|].
        apply Hms. eauto.
  - assert (¬ stored_as ps g) as Hst by (intros Hst; by apply Hsame in Hst). split.
    + intros c [= <-]. cbn [gc_Members]. intros Hnil. apply (dv_nonempty _ _ Hd g Hg).
      pose proof (go_sort_perm member_change_less (moving_change ps <$> Members g)) as Hp.
      unfold moving_change in Hp. rewrite Hnil in Hp. by apply Permutation_nil, fmap_nil_inv in Hp.
    + intros mc. split.
      * intros (c & [= <-] & Hmc). cbn [gc_Members] in Hmc. rewrite elem_of_go_sort in Hmc.
        apply list_elem_of_fmap in Hmc as (m & -> & Hm). exists m. auto.
      * intros (m & Hm & [[_ ->]|[? _]]); [|done]. eexists. split; [done|]. cbn [gc_Members].
        rewrite elem_of_go_sort. by apply (list_elem_of_fmap_2 (moving_change ps)).
Qed.

Lemma diff_spec ps gs :
  derived ps gs →
  ∃ cs, Diff ps gs = Some cs ∧ (∀ c, c ∈ cs → gc_Members c ≠ []) ∧
    ∀ mc, (∃ c, c ∈ cs ∧ mc ∈ gc_Members c) ↔
      ∃ g m, g ∈ gs ∧ m ∈ Members g ∧ reported ps g m mc.
Proof.
  induction gs as [|g gs IH]; intros Hd; cbn [Diff].
  { exists []. split_and!; [done|set_solver|]. intros mc. split; [set_solver|].
    intros (g & m & ?%elem_of_nil & _). done. }
  destruct (IH (derived_cons _ _ _ Hd)) as (cs & -> & Hne & Hcs).
  destruct (diff_group_spec ps (g :: gs) g Hd ltac:(left)) as (oc & -> & Hoc & Hmc). simpl.
  exists (option_list oc ++ cs). split_and!; [done| |].
  - intros c [Hc|Hc]%elem_of_app; [|auto]. destruct oc; [|by apply elem_of_nil in Hc].
    apply list_elem_of_singleton in Hc as ->. auto.
  - intros mc. setoid_rewrite elem_of_app. split.
    + intros (c & [Hc|Hc] & Hin).
      * destruct oc as [c'|]; [|by apply elem_of_nil in Hc]. apply list_elem_of_singleton in Hc as ->.
        destruct (proj1 (Hmc mc)) as (m & ? & ?); [eauto|]. exists g, m. split_and!; [left|done..].
      * destruct (proj1 (Hcs mc)) as (g' & m & ? & ? & ?); [eauto|]. exists g', m.
        split_and!; [by right|done..].
    + intros (g' & m & [->|Hg']%elem_of_cons & Hm & Hr).
      * destruct (proj2 (Hmc mc)) as (c & -> & Hin); [eauto|]. exists c. split; [left; left|done].
      * destruct (proj2 (Hcs mc)) as (c & Hc & Hin); [eauto|]. exists c. split; [by right|done].
Qed.
End reported.

Section theorems.
Context {D : Type} `{DecimalLaws D}.
Implicit Types (ps : list (GroupingPosting D)) (rules : list (Rule D)).

Lemma partition_derived rules ps opts :
  (∀ r, r ∈ rules → r ∈ (DefaultRules : list (Rule D))) → distinct_ids ps →
  derived ps (Partition ps rules opts).
Proof.
  intros Hr Hnd. pose proof (default_rules_sim rules Hr) as Hsim.
  pose proof (partition_ids rules ps opts Hsim) as Hids. split; [done| | |].
  - intros g Hg. by eapply partition_nonempty.
  - intros g m Hg Hm. assert (MemberID m ∈ ID <$> ps) as (p & Ep & Hp)%list_elem_of_fmap; [|eauto].
    rewrite <- Hids. apply list_elem_of_fmap_2, elem_of_bind. eauto.
  - by rewrite Hids.
Qed.

(** [Diff] reports exactly the disagreements.  Against the partition derived from
    the postings themselves it always answers, with no empty change; a posting is
    reported as moving, from the group it sits in, exactly when its derived group is
    not stored as it stands, as retyped where it stands exactly when the membership
    is stored and the type is not, and otherwise not at all. *)
Theorem diff_reports_disagreements rules ps opts :
  (∀ r, r ∈ rules → r ∈ (DefaultRules : list (Rule D))) → distinct_ids ps →
  let gs := Partition ps rules opts in
  ∃ cs, Diff ps gs = Some cs ∧ (∀ c, c ∈ cs → gc_Members c ≠ []) ∧
    ∀ p g m mc, p ∈ ps → g ∈ gs → m ∈ Members g → MemberID m = ID p → gmc_ID mc = ID p →
      (∃ c, c ∈ cs ∧ mc ∈ gc_Members c) ↔
      (¬ stored_as ps g ∧ mc = {| gmc_ID := ID p; gmc_FromGroupID := GroupID p;
        gmc_Resolved := resolvedStr (MemberResolved m); gmc_Moving := true |}) ∨
      (stored_as ps g ∧ Resolved p ≠ resolvedStr (MemberResolved m) ∧
       mc = {| gmc_ID := ID p; gmc_FromGroupID := EmptyString;
        gmc_Resolved := resolvedStr (MemberResolved m); gmc_Moving := false |}).
Proof.
  intros Hr Hnd gs. pose proof (partition_derived rules ps opts Hr Hnd) as Hd.
  destruct (diff_spec ps gs Hd) as (cs & E & Hne & Hcs). exists cs. split_and!; [done..|].
  intros p g m mc Hp Hg Hm Em Emc. rewrite Hcs.
  assert (Huniq : ∀ g' m', g' ∈ gs → m' ∈ Members g' → MemberID m' = ID p → g' = g ∧ m' = m).
  { intros g' m' Hg' Hm' Em'. assert (m' = m) as ->.
    { apply (NoDup_fmap_inj_in MemberID (gs ≫= Members)); [apply (dv_nodup _ _ Hd)|..|congruence];
        apply elem_of_bind; eauto. }
    split; [|done]. eapply (NoDup_bind_inj Members gs _ _ m); try done.
    eapply NoDup_fmap_1, (dv_nodup _ _ Hd). }
  assert (storedOf ps (MemberID m) = GroupID p ∧ resolvedOfStored ps (MemberID m) = Resolved p)
    as [Hst Hrs] by (rewrite Em; unfold storedOf, resolvedOfStored; by rewrite !last_of_lookup).
  assert (Hrep : reported ps g m mc ↔
    (¬ stored_as ps g ∧ mc = {| gmc_ID := ID p; gmc_FromGroupID := GroupID p;
      gmc_Resolved := resolvedStr (MemberResolved m); gmc_Moving := true |}) ∨
    (stored_as ps g ∧ Resolved p ≠ resolvedStr (MemberResolved m) ∧
     mc = {| gmc_ID := ID p; gmc_FromGroupID := EmptyString;
      gmc_Resolved := resolvedStr (MemberResolved m); gmc_Moving := false |})).
  { unfold reported, moving_change, retype_change. by rewrite Hst, Hrs, Em. }
  rewrite <- Hrep. split; [|eauto].
  intros (g' & m' & Hg' & Hm' & Hr'). destruct (Huniq g' m') as [-> ->]; try done.
  destruct Hr' as [[_ ->]|(_ & _ & ->)]; done.
Qed.

(** A partition that is stored as it was derived costs nothing.  [Diff] is empty
    exactly when every derived group is stored with the same members and every posting
    carries the type it was given. *)
Theorem diff_empty_iff rules ps opts :
  (∀ r, r ∈ rules → r ∈ (DefaultRules : list (Rule D))) → distinct_ids ps →
  let gs := Partition ps rules opts in
  Diff ps gs = Some [] ↔
  ∀ g, g ∈ gs → stored_as ps g ∧
    ∀ p m, p ∈ ps → m ∈ Members g → MemberID m = ID p → Resolved p = resolvedStr (MemberResolved m).
Proof.
  intros Hr Hnd gs. pose proof (partition_derived rules ps opts Hr Hnd) as Hd. fold gs in Hd.
  destruct (diff_spec ps gs Hd) as (cs & -> & Hne & Hcs).
  assert (Hrs : ∀ g m p, g ∈ gs → m ∈ Members g → p ∈ ps → MemberID m = ID p →
    resolvedOfStored ps (MemberID m) = Resolved p).
  { intros g m p _ _ Hp ->. unfold resolvedOfStored. by rewrite last_of_lookup. }
  split.
  - intros [= ->] g Hg. assert (Hno : ∀ m mc, m ∈ Members g → ¬ reported ps g m mc).
    { intros m mc Hm Hrep. destruct (proj2 (Hcs mc)) as (c & ?%elem_of_nil & _); [eauto|done]. }
    destruct (Members g) as [|m0 ms] eqn:Em; [by destruct (dv_nonempty _ _ Hd g)|].
    assert (stored_as ps g) as Hst.
    { destruct (diff_group_spec ps gs g Hd Hg) as (oc & Eg & _ & _). unfold diff_group in Eg.
      destruct (sort_strings (MemberID <$> Members g)) as [|id0 rest] eqn:Es; [done|].
      apply (same_stored ps gs g id0 rest Hd Hg Es). destruct (same _ _) eqn:E; [done|].
      exfalso. apply (Hno m0 (moving_change ps m0)); [left|]. left. split; [|done].
      intros Hst. apply (same_stored ps gs g id0 rest Hd Hg Es) in Hst. congruence. }
    split; [done|]. intros p m Hp Hm Eid. rewrite <- (Hrs g m p); [|done|by rewrite Em|done|done].
    apply dec_stable. intros Hneq. apply (Hno m (retype_change m) Hm). by right.
  - intros Hall. f_equal. destruct cs as [|c cs]; [done|exfalso].
    destruct (gc_Members c) as [|mc ms] eqn:Ec; [by apply (Hne c ltac:(left))|].
    destruct (proj1 (Hcs mc)) as (g & m & Hg & Hm & Hrep).
    { exists c. split; [left|]. rewrite Ec. left. }
    destruct (Hall g Hg) as [Hst Hty]. destruct (dv_members _ _ Hd g m Hg Hm) as (p & Hp & Ep).
    destruct Hrep as [[? _]|(_ & Hneq & _)]; [done|]. apply Hneq.
    rewrite (Hrs g m p) by done. by apply Hty.
Qed.
End theorems.

(** ** [Settle] *)

Section settle.
Context {D : Type} `{DecimalLaws D} (uuid_ok : string → bool) (store : list (row D)) (userID : string).
Hypothesis user_ok : uuid_ok userID = true.
Hypothesis store_distinct : distinct_ids (transcribed store userID).
Context (fuel : nat) (fuel_enough : length (transcribed store userID) < fuel) (opts : Opts D).

Notation rd := (store_reader uuid_ok store).

(** The neighbourhood of one seed, and the change list it yields. *)
Definition region (s : GroupingPosting D) (ps : list (GroupingPosting D)) (cs : list GroupChange) : Prop :=
  Neighbourhood fuel userID [s] DefaultRules rd = Some (Some ps) ∧ s ∈ ps ∧
  Diff ps (Partition ps DefaultRules opts) = Some cs.

Lemma region_exists s : s ∈ transcribed store userID → ∃ ps cs, region s ps cs.
Proof.
  intros Hs.
  destruct (neighbourhood_spec userID rd DefaultRules (transcribed store userID)
    (links uuid_ok store userID) store_distinct
    (λ rule Hr, proj1 (default_rules_expand uuid_ok store userID user_ok rule Hr))
    (λ rule p q Hr, proj2 (default_rules_expand uuid_ok store userID user_ok rule Hr) p q)
    fuel [s]) as (ps & E & Hd & _ & Hin); [by intros x ->%list_elem_of_singleton|done|].
  destruct (diff_spec ps (Partition ps DefaultRules opts)) as (cs & Ec & _).
  { by apply partition_derived. }
  exists ps, cs. split_and!; [done| |done]. apply Hin. exists s. split; [left|apply rtc_refl].
Qed.

Lemma settle_loop_spec seed done out :
  (∀ s, s ∈ seed → s ∈ transcribed store userID) →
  ∃ cs, settle_loop fuel userID DefaultRules opts rd (done, out) seed = Some (Some (out ++ cs)) ∧
    (∀ c, c ∈ cs → ∃ s ps ds, s ∈ seed ∧ region s ps ds ∧ c ∈ ds) ∧
    (∀ s, s ∈ seed → ID s ∈ done ∨ ∃ s' ps ds, s' ∈ seed ∧ region s' ps ds ∧
      ID s ∈ ID <$> ps ∧ ∀ c, c ∈ ds → c ∈ cs).
Proof.
  revert done out. induction seed as [|s seed IH]; intros done out Hseed; cbn [settle_loop].
  { exists []. rewrite app_nil_r. split_and!; [done|set_solver|set_solver]. }
  assert (∀ s, s ∈ seed → s ∈ transcribed store userID) as Hseed' by (intros; apply Hseed; by right).
  unfold settle_seed. case_decide as Hdone.
  - cbn [mbind option_bind].
    destruct (IH done out Hseed') as (cs & -> & Hcs & Hcov). exists cs. split_and!; [done| |].
    + intros c Hc. destruct (Hcs c Hc) as (s' & ps & ds & ? & ?). exists s', ps, ds. split; [by right|done].
    + intros x [->|Hx]%elem_of_cons; [by left|]. destruct (Hcov x Hx) as [?|(s' & ps & ds & ? & ?)]; [by left|].
      right. exists s', ps, ds. split; [by right|done].
  - destruct (region_exists s) as (ps & ds & Hreg); [apply Hseed; left|].
    pose proof Hreg as (-> & Hin & Ed). cbn [mbind option_bind]. rewrite Ed.
    cbn [mbind option_bind].
    destruct (IH (list_to_set (ID <$> ps) ∪ done) (out ++ ds) Hseed') as (cs & -> & Hcs & Hcov).
    exists (ds ++ cs). rewrite app_assoc. split_and!; [done| |].
    + intros c [Hc|Hc]%elem_of_app; [exists s, ps, ds; split; [left|done]|].
      destruct (Hcs c Hc) as (s' & ps' & ds' & ? & ?). exists s', ps', ds'. split; [by right|done].
    + assert (Hself : ∀ x, x ∈ ID <$> ps → ∃ s' ps' ds', s' ∈ s :: seed ∧ region s' ps' ds' ∧
        x ∈ ID <$> ps' ∧ ∀ c, c ∈ ds' → c ∈ ds ++ cs).
      { intros x Hx. exists s, ps, ds. split_and!; [left|done|done|]. intros. apply elem_of_app. by left. }
      intros x [->|Hx]%elem_of_cons; [right; apply Hself; by apply list_elem_of_fmap_2|].
      destruct (Hcov x Hx) as [Hd|(s' & ps' & ds' & ? & ? & ? & Hsub)].
      * apply elem_of_union in Hd as [Hd%elem_of_list_to_set|?]; [right; by apply Hself|by left].
      * right. exists s', ps', ds'. split_and!; [by right|done|done|].
        intros. apply elem_of_app. right. auto.
Qed.

Lemma region_inside s ps cs :
  s ∈ transcribed store userID → region s ps cs →
  distinct_ids ps ∧ ∀ p, p ∈ ps → p ∈ transcribed store userID.
Proof.
  intros Hs (E & _ & _).
  pose (U := transcribed store userID).
  assert (∀ rule p q, rule ∈ DefaultRules → links uuid_ok store userID rule p q → q ∈ U) as HU.
  { intros rule p q Hr. apply (proj2 (default_rules_expand uuid_ok store userID user_ok rule Hr)). }
  destruct (neighbourhood_spec userID rd DefaultRules U (links uuid_ok store userID) store_distinct
    (λ rule Hr, proj1 (default_rules_expand uuid_ok store userID user_ok rule Hr)) HU fuel [s])
    as (out & E' & Hd & _ & Hin); [by intros x ->%list_elem_of_singleton|done|].
  assert (out = ps) as -> by congruence. split; [done|].
  intros p (p0 & ->%list_elem_of_singleton & Hr)%Hin. clear -Hr Hs HU.
  induction Hr as [|x y z (rule & Hrule & Hl) _ IH]; [done|]. apply IH. by eapply HU.
Qed.

(** The changes name the group each posting they move is stored in. *)
Lemma settle_moves seed :
  (∀ s, s ∈ seed → s ∈ transcribed store userID) →
  ∃ cs, Settle fuel [] opts userID seed rd = Some (Some cs) ∧
    ∀ c m, c ∈ cs → m ∈ gc_Members c → gmc_Moving m = true →
      ∃ p, p ∈ transcribed store userID ∧ ID p = gmc_ID m ∧ GroupID p = gmc_FromGroupID m.
Proof.
  intros Hseed. destruct (settle_loop_spec seed ∅ [] Hseed) as (cs & E & Hcs & _).
  exists cs. split; [exact E|]. intros c m Hc Hm Hmv.
  destruct (Hcs c Hc) as (s & ps & ds & Hs & Hreg & Hds).
  destruct (region_inside s ps ds (Hseed s Hs) Hreg) as [Hd Hin]. destruct Hreg as (_ & _ & Ed).
  pose proof (partition_derived DefaultRules ps opts (λ r Hr, Hr) Hd) as Hder.
  destruct (diff_spec ps _ Hder) as (ds' & Ed' & _ & Hrep). rewrite Ed in Ed'. injection Ed' as <-.
  destruct (proj1 (Hrep m) (ex_intro _ c (conj Hds Hm))) as (g & m0 & Hg & Hm0 & [[_ ->]|(_ & _ & ->)]); [|done].
  destruct (dv_members _ _ Hder g m0 Hg Hm0) as (p & Hp & Ep). exists p. split_and!; [by apply Hin|by rewrite Ep|].
  simpl. unfold storedOf. rewrite <- Ep. by rewrite last_of_lookup.
Qed.

(** Settling an upload always answers.  Given seeds among the user's transcribed
    postings, [Settle] returns; every change it returns is a disagreement about the
    neighbourhood of some seed, and every seed is in a neighbourhood all of whose
    disagreements are returned. *)
Theorem settle_covers_the_seeds seed :
  (∀ s, s ∈ seed → s ∈ transcribed store userID) →
  ∃ cs, Settle fuel [] opts userID seed rd = Some (Some cs) ∧
    (∀ c, c ∈ cs → ∃ s ps ds, s ∈ seed ∧ region s ps ds ∧ c ∈ ds) ∧
    (∀ s, s ∈ seed → ∃ s' ps ds, s' ∈ seed ∧ region s' ps ds ∧
      ID s ∈ ID <$> ps ∧ ∀ c, c ∈ ds → c ∈ cs).
Proof.
  intros Hseed. destruct (settle_loop_spec seed ∅ [] Hseed) as (cs & E & Hcs & Hcov).
  exists cs. split_and!; [exact E|done|]. intros s Hs. destruct (Hcov s Hs) as [?|?]; [set_solver|done].
Qed.
End settle.

(** ** Concrete neighbourhoods *)

Section witnesses.
#[local] Existing Instances QDecimal.q_decimal QDecimal.q_decimal_laws.

Lemma diff_reports_disagreements_witness :
  ∃ cs, Diff sample_day (Partition sample_day DefaultRules DefaultOpts) = Some cs ∧
    ∀ c, c ∈ cs → gc_Members c ≠ [].
Proof.
  destruct (diff_reports_disagreements DefaultRules sample_day DefaultOpts) as (cs & E & Hne & _).
  - done.
  - apply sample_day_distinct.
  - exists cs. split; [exact E|exact Hne].
Defined.

Lemma diff_empty_iff_witness :
  Diff [sample_levy] (Partition [sample_levy] DefaultRules DefaultOpts) ≠ Some [].
Proof.
  rewrite (diff_empty_iff DefaultRules [sample_levy] DefaultOpts).
  - intros Hall. destruct (Hall {| Members := [mem "p5" TRANSACTION_COST] |}) as [_ Hty].
    + apply (bool_decide_unpack _). vm_compute. exact I.
    + specialize (Hty sample_levy (mem "p5" TRANSACTION_COST) ltac:(left) ltac:(left) eq_refl).
      discriminate Hty.
  - done.
  - apply (bool_decide_unpack _). vm_compute. exact I.
Defined.

Lemma settle_covers_the_seeds_witness :
  ∃ cs, Settle 5 [] DefaultOpts "u" [sample_buy; sample_levy] (store_reader (λ _, true) sample_store)
    = Some (Some cs).
Proof.
  destruct (settle_covers_the_seeds (λ _, true) sample_store "u" eq_refl
    ltac:(apply (bool_decide_unpack _); vm_compute; exact I) 5 ltac:(vm_compute; lia) DefaultOpts
    [sample_buy; sample_levy]) as (cs & E & _).
  - intros s Hs. apply (elem_of_sublist [sample_buy; sample_levy]); [|exact Hs].
    change (transcribed sample_store "u") with sample_day. unfold sample_day. repeat constructor.
  - exists cs. exact E.
Defined.

(** The store looks a token up whatever the correlation that carries it declares, so
    a posting that carries a token reaches the postings pointing at it: the region
    grown from the target "z" holds both pointers, and settling the three seeds is one
    group however they are ordered. *)
Definition sample_pointer (kind : string) : Correlation := {|
  Label := "ref"; Token := "t"; Ordinal := None; Scope := ScopeAccount;
  Match := [kind]; OrdinalSpan := None; CorrJobID := "j" |}.

Definition sample_pointing (id kind : string) (day : Z) (t : TxType) : GroupingPosting Q := {|
  ID := id; UserID := "u"; PBroker := IBKR; Account := "acc"; OrderDate := day_start day;
  InstrumentID := "i"; Quantity := 1%Q; UnitPrice := None; SettlementAmount := None;
  Declared := [t]; JobID := "j"; GroupID := id; Resolved := "INCOME";
  Correlations := [sample_pointer kind] |}.

Definition sample_pointers : list (GroupingPosting Q) :=
  [sample_pointing "a" MatchAttaches 0 TRANSACTION_COST;
   sample_pointing "b" MatchAttaches 1 TRANSACTION_COST;
   sample_pointing "z" MatchExact 2 DIVIDEND].

Definition pointer_store : list (row Q) :=
  (λ p, {| row_posting := p; row_purpose := None |}) <$> sample_pointers.

Lemma target_reaches_pointers :
  option_map (option_map (map ID))
    (Neighbourhood 4 "u" [sample_pointing "z" MatchExact 2 DIVIDEND] DefaultRules
      (store_reader (λ _, true) pointer_store))
  = Some (Some ["a"; "b"; "z"]) ∧
  option_map (option_map (map (λ c, map gmc_ID (gc_Members c))))
    (Settle 4 [] DefaultOpts "u" sample_pointers (store_reader (λ _, true) pointer_store))
  = Some (Some [["a"; "b"; "z"]]).
Proof. vm_compute. split; reflexivity. Qed.
End witnesses.
End Diff.
