(* ===== verification/DateRange.v ===== *)
(** * Date ranges

    Half-open ranges of days: [MergeRanges] and [SubtractRanges] of
    server/db/daterange.go.

    A list of ranges denotes the set of instants it covers.  [canonical] is what the
    routines hand each other: in order, none empty, with a gap before each. *)

From S2P Require Import Prelude.

Local Open Scope Z_scope.

Module DateRange.

Record DateRange := { From : Z; Before : Z }.

#[export] Instance DateRange_eq_dec : EqDecision DateRange.
Proof. solve_decision. Defined.

Definition covers (l : list DateRange) (x : Z) : Prop := ∃ r, r ∈ l ∧ From r ≤ x < Before r.

Definition from_less (a b : DateRange) : bool := From a <? From b.

(** ** [MergeRanges]

    The loop over [sorted[1:]]; [merged] is kept with its last element apart, as the
    code updates that element in place. *)
Fixpoint merge_loop (merged : list DateRange) (lst : DateRange) (rest : list DateRange)
    : list DateRange :=
  match rest with
  | [] => merged ++ [lst]
  | r :: rest' =>
      if From r <=? Before lst then
        merge_loop merged
          (if Before lst <? Before r then {| From := From lst; Before := Before r |} else lst) rest'
      else merge_loop (merged ++ [lst]) r rest'
  end.

Definition MergeRanges (ranges : list DateRange) : list DateRange :=
  if (length ranges <=? 1)%nat then ranges
  else match go_sort from_less ranges with
  | [] => []
  | r :: rest => merge_loop [] r rest
  end.

(** ** [SubtractRanges]

    [cached] from index [ci] on; the index only moves forward, for every needed range. *)
Fixpoint skip_before (x : Z) (cached : list DateRange) : list DateRange :=
  match cached with
  | c :: cached' => if Before c <=? x then skip_before x cached' else cached
  | [] => []
  end.

(** The loop over [j]: the gaps of one needed range and where [cur] ends up. *)
Fixpoint gap_loop (cur : Z) (before : Z) (cached : list DateRange) : list DateRange * Z :=
  match cached with
  | c :: cached' =>
      if From c <? before then
        let gap := if cur <? From c then
            [{| From := cur; Before := if From c <? before then From c else before |}] else [] in
        let cur' := if cur <? Before c then Before c else cur in
        let '(gaps, cur'') := gap_loop cur' before cached' in
        (gap ++ gaps, cur'')
      else ([], cur)
  | [] => ([], cur)
  end.

Fixpoint subtract_loop (needed cached : list DateRange) : list DateRange :=
  match needed with
  | [] => []
  | n :: needed' =>
      let cached' := skip_before (From n) cached in
      let '(gaps, cur) := gap_loop (From n) (Before n) cached' in
      gaps ++ (if cur <? Before n then [{| From := cur; Before := Before n |}] else [])
        ++ subtract_loop needed' cached'
  end.

Definition SubtractRanges (needed cached : list DateRange) : list DateRange :=
  match cached with
  | [] => needed
  | _ => subtract_loop needed cached
  end.

(** ** Canonical lists *)

Definition nonempty (r : DateRange) : Prop := From r < Before r.

Inductive canonical : list DateRange → Prop :=
  | can_nil : canonical []
  | can_one r : nonempty r → canonical [r]
  | can_cons r r' l : nonempty r → Before r < From r' → canonical (r' :: l) → canonical (r :: r' :: l).

Lemma canonical_tail r l : canonical (r :: l) → canonical l.
Proof. inversion 1; subst; [constructor|done]. Qed.

Lemma canonical_head r l : canonical (r :: l) → nonempty r.
Proof. by inversion 1. Qed.

(** Everything after the head starts after the head ends. *)
Lemma canonical_after r l r' : canonical (r :: l) → r' ∈ l → Before r < From r'.
Proof.
  revert r. induction l as [|s l IH]; intros r Hc Hr'; [by apply elem_of_nil in Hr'|].
  inversion Hc as [| |? ? ? Hr Hlt Hs]; subst. apply elem_of_cons in Hr' as [->|Hr']; [done|].
  specialize (IH s Hs Hr'). apply canonical_head in Hs. unfold nonempty in Hs. lia.
Qed.

Lemma covers_nil x : ¬ covers [] x.
Proof. by intros (r & ?%elem_of_nil & _). Qed.

Lemma covers_cons r l x : covers (r :: l) x ↔ From r ≤ x < Before r ∨ covers l x.
Proof.
  unfold covers. setoid_rewrite elem_of_cons. split.
  - intros (r' & [->|?] & ?); eauto.
  - intros [?|(r' & ? & ?)]; eauto.
Qed.

Lemma covers_app l1 l2 x : covers (l1 ++ l2) x ↔ covers l1 x ∨ covers l2 x.
Proof.
  unfold covers. setoid_rewrite elem_of_app. naive_solver.
Qed.

Lemma covers_perm l l' x : l ≡ₚ l' → covers l x ↔ covers l' x.
Proof. intros Hp. unfold covers. by setoid_rewrite Hp. Qed.

(** A set of instants has at most one canonical list. *)
Lemma canonical_unique l l' :
  canonical l → canonical l' → (∀ x, covers l x ↔ covers l' x) → l = l'.
Proof.
  revert l'. induction l as [|r l IH]; intros [|r' l'] Hc Hc' Heq.
  - done.
  - apply canonical_head in Hc'. exfalso. apply (covers_nil (From r')). apply Heq, covers_cons.
    unfold nonempty in Hc'. lia.
  - apply canonical_head in Hc. exfalso. apply (covers_nil (From r)). apply Heq, covers_cons.
    unfold nonempty in Hc. lia.
  - pose proof (canonical_head _ _ Hc) as Hr. pose proof (canonical_head _ _ Hc') as Hr'.
    unfold nonempty in Hr, Hr'.
    assert (Hge : ∀ r l x, canonical (r :: l) → covers (r :: l) x → From r ≤ x).
    { intros s k x Hsk [?|(t & Ht & ?)]%covers_cons; [lia|].
      pose proof (canonical_after _ _ _ Hsk Ht). apply canonical_head in Hsk. unfold nonempty in Hsk. lia. }
    assert (From r = From r') as EF.
    { assert (From r' ≤ From r); [|assert (From r ≤ From r'); [|lia]].
      - apply (Hge r' l'); [done|]. apply Heq, covers_cons. lia.
      - apply (Hge r l); [done|]. apply Heq, covers_cons. lia. }
    assert (Hedge : ∀ r l x, canonical (r :: l) → From r ≤ x → ¬ covers (r :: l) x → Before r ≤ x).
    { intros s k x _ Hx Hn. rewrite covers_cons in Hn. lia. }
    assert (Hout : ∀ r l, canonical (r :: l) → ¬ covers (r :: l) (Before r)).
    { intros s k Hsk [?|(t & Ht & ?)]%covers_cons; [lia|]. pose proof (canonical_after _ _ _ Hsk Ht). lia. }
    assert (Before r = Before r') as EB.
    { assert (Before r' ≤ Before r); [|assert (Before r ≤ Before r'); [|lia]].
      - apply (Hedge r' l'); [done|lia|]. rewrite <- Heq. by apply Hout.
      - apply (Hedge r l); [done|lia|]. rewrite Heq. by apply Hout. }
    destruct r as [f b], r' as [f' b']. simpl in *. subst. f_equal.
    apply IH; [by eapply canonical_tail|by eapply canonical_tail|].
    assert (Hrest : ∀ k x, canonical ({| From := f'; Before := b' |} :: k) →
      covers k x ↔ covers ({| From := f'; Before := b' |} :: k) x ∧ b' ≤ x).
    { intros k x Hk. rewrite covers_cons. simpl. split; [|intros [[?|?] ?]; [lia|done]].
      intros Hcov. split; [by right|]. destruct Hcov as (t & Ht & ?).
      pose proof (canonical_after _ _ _ Hk Ht). simpl in *. lia. }
    intros x. rewrite (Hrest l x Hc), (Hrest l' x Hc'), Heq. done.
Qed.

Lemma canonical_app l1 l2 :
  canonical l1 → canonical l2 → (∀ a b, a ∈ l1 → b ∈ l2 → Before a < From b) → canonical (l1 ++ l2).
Proof.
  induction l1 as [|r l1 IH]; intros H1 H2 Hlt; [done|].
  assert (canonical (l1 ++ l2)) as Happ.
  { apply IH; [by eapply canonical_tail|done|]. intros a b Ha. apply Hlt. by right. }
  pose proof (canonical_head _ _ H1) as Hr. destruct l1 as [|s l1]; simpl in *.
  - destruct l2 as [|s l2]; [by constructor|]. constructor; [done| |done]. apply Hlt; left.
  - constructor; [done| |done]. apply (canonical_after _ _ _ H1). left.
Qed.

Lemma canonical_nonempty l r : canonical l → r ∈ l → nonempty r.
Proof.
  induction 1 as [|s Hs|s s' l Hs _ Hc IH]; intros Hr; [by apply elem_of_nil in Hr| |].
  - by apply list_elem_of_singleton in Hr as ->.
  - apply elem_of_cons in Hr as [->|Hr]; [done|auto].
Qed.

(** ** Merging *)

Lemma merge_loop_spec merged lst rest :
  StronglySorted (λ a b, From a ≤ From b) (lst :: rest) →
  (∀ x, covers (merge_loop merged lst rest) x ↔ covers (merged ++ lst :: rest) x) ∧
  (canonical (merged ++ [lst]) → (∀ r, r ∈ rest → nonempty r) →
   canonical (merge_loop merged lst rest)).
Proof.
  revert merged lst. induction rest as [|r rest IH]; intros merged lst Hs; simpl; [done|].
  apply StronglySorted_inv in Hs as [Hs Hlst]. rewrite Forall_forall in Hlst.
  apply StronglySorted_inv in Hs as [Hs Hr].
  assert (From lst ≤ From r) as Hle by (apply Hlst; left).
  destruct (Z.leb_spec (From r) (Before lst)) as [Ht|Ht].
  - set (lst' := if Before lst <? Before r then _ else _).
    assert (From lst' = From lst ∧ Before lst' = Z.max (Before lst) (Before r)) as [EF EB].
    { unfold lst'. destruct (Z.ltb_spec (Before lst) (Before r)); simpl; lia. }
    destruct (IH merged lst') as [Hcov Hcan].
    { constructor; [done|]. apply Forall_forall. intros y Hy. rewrite EF. apply Hlst. by right. }
    split.
    + intros x. rewrite Hcov, !covers_app, !covers_cons, EF, EB.
      destruct (Z.lt_ge_cases x (From r)), (Z.lt_ge_cases x (Before lst)); intuition lia.
    + intros Hc Hne. apply Hcan; [|intros y Hy; apply Hne; by right].
      assert (nonempty lst) as Hn by (eapply canonical_nonempty; [done|set_solver]).
      apply canonical_app; [clear -Hc|constructor; unfold nonempty in *; lia|].
      * induction merged as [|m merged IH]; [constructor|].
        simpl in Hc. pose proof (canonical_head _ _ Hc). specialize (IH (canonical_tail _ _ Hc)).
        destruct merged as [|m' merged]; [by constructor|]. constructor; [done| |done].
        apply (canonical_after _ _ _ Hc). left.
      * intros a b Ha ->%list_elem_of_singleton. rewrite EF. clear -Hc Ha.
        induction merged as [|m merged IH]; [by apply elem_of_nil in Ha|].
        apply elem_of_cons in Ha as [->|Ha]; [|apply IH; [by eapply canonical_tail|done]].
        apply (canonical_after _ _ _ Hc). set_solver.
  - destruct (IH (merged ++ [lst]) r) as [Hcov Hcan]; [by constructor|]. split.
    + intros x. by rewrite Hcov, <- app_assoc.
    + intros Hc Hne. apply Hcan; [|intros y Hy; apply Hne; by right].
      apply canonical_app; [done|constructor; apply Hne; left|].
      intros a b Ha ->%list_elem_of_singleton. apply elem_of_app in Ha as [Ha|Ha].
      * assert (Before a < From lst ∧ nonempty lst) as [? ?]; [|unfold nonempty in *; lia].
        split; [|eapply canonical_nonempty; [done|set_solver]]. clear -Hc Ha.
        induction merged as [|m merged IH]; [by apply elem_of_nil in Ha|].
        apply elem_of_cons in Ha as [->|Ha]; [|apply IH; [by eapply canonical_tail|done]].
        apply (canonical_after _ _ _ Hc). set_solver.
      * by apply list_elem_of_singleton in Ha as ->.
Qed.

Lemma from_less_cmp a b : from_less a b = less_of (cmp_on From Z.compare) a b.
Proof. unfold from_less, less_of, cmp_on, Z.ltb. by destruct (_ ?= _)%Z. Qed.

Lemma sorted_by_from l : StronglySorted (λ a b, From a ≤ From b) (go_sort from_less l).
Proof.
  pose proof (go_sort_sorted from_less (cmp_on From Z.compare) from_less_cmp l) as Hs.
  induction Hs as [|a l' _ IH Ha]; constructor; [done|].
  eapply Forall_impl; [exact Ha|]. intros b Hb. unfold cmp_on in Hb.
  destruct (Z.compare_spec (From a) (From b)); [lia|lia|done].
Qed.

Lemma merge_covers l x : covers (MergeRanges l) x ↔ covers l x.
Proof.
  unfold MergeRanges. case_match; [done|].
  pose proof (go_sort_perm from_less l) as Hp. pose proof (sorted_by_from l) as Hs.
  destruct (go_sort from_less l) as [|r rest]; [by rewrite (covers_perm _ _ x Hp)|].
  destruct (merge_loop_spec [] r rest Hs) as [Hcov _]. by rewrite Hcov, (covers_perm _ _ x Hp).
Qed.

Lemma merge_canonical l : (∀ r, r ∈ l → nonempty r) → canonical (MergeRanges l).
Proof.
  intros Hne. unfold MergeRanges. destruct (length l <=? 1)%nat eqn:E.
  { apply Nat.leb_le in E. destruct l as [|r [|r' l]]; simpl in E; [constructor| |lia].
    constructor. apply Hne. left. }
  pose proof (go_sort_perm from_less l) as Hp. pose proof (sorted_by_from l) as Hs.
  destruct (go_sort from_less l) as [|r rest]; [constructor|].
  destruct (merge_loop_spec [] r rest Hs) as [_ Hcan]. apply Hcan.
  - constructor. apply Hne. rewrite <- Hp. left.
  - intros s Hs'. apply Hne. rewrite <- Hp. by right.
Qed.

(** Merging keeps the instants and makes them canonical.  [MergeRanges] covers
    exactly what its input covers; when no range is empty its result is in order,
    with a gap before each range, and it is the one such list: any other order of the
    input, and any other way of sorting ranges that start together, gives the same. *)
Theorem merge_ranges_correct l l' :
  (∀ r, r ∈ l → nonempty r) → l ≡ₚ l' →
  (∀ x, covers (MergeRanges l) x ↔ covers l x) ∧ canonical (MergeRanges l) ∧
  MergeRanges l' = MergeRanges l ∧
  ∀ k, canonical k → (∀ x, covers k x ↔ covers l x) → k = MergeRanges l.
Proof.
  intros Hne Hp. assert (∀ r, r ∈ l' → nonempty r) as Hne' by (intros r; rewrite <- Hp; apply Hne).
  split_and!; [apply merge_covers|by apply merge_canonical| |].
  - apply canonical_unique; [by apply merge_canonical..|].
    intros x. by rewrite !merge_covers, (covers_perm _ _ _ Hp).
  - intros k Hk Hcov. apply canonical_unique; [done|by apply merge_canonical|].
    intros x. by rewrite merge_covers.
Qed.

Definition rng (f b : Z) : DateRange := {| From := f; Before := b |}.

Lemma merge_ranges_correct_witness :
  MergeRanges [rng 5 8; rng 0 3; rng 3 4] = [rng 0 4; rng 5 8] ∧
  MergeRanges [rng 3 4; rng 0 3; rng 5 8] = MergeRanges [rng 5 8; rng 0 3; rng 3 4].
Proof.
  split; [reflexivity|].
  destruct (merge_ranges_correct [rng 5 8; rng 0 3; rng 3 4] [rng 3 4; rng 0 3; rng 5 8])
    as (_ & _ & E & _); [| |exact E].
  - intros r Hr. rewrite !elem_of_cons, elem_of_nil in Hr.
    destruct Hr as [->|[->|[->|[]]]]; unfold nonempty; simpl; lia.
  - apply (Permutation_rev [rng 5 8; rng 0 3; rng 3 4]).
Defined.

(** ** Subtracting *)

Lemma skip_before_covers x0 cached x :
  canonical cached → x0 ≤ x → covers (skip_before x0 cached) x ↔ covers cached x.
Proof.
  intros Hc Hx. induction cached as [|c cached IH]; simpl; [done|].
  destruct (Z.leb_spec (Before c) x0); [|done].
  rewrite IH by by eapply canonical_tail. rewrite covers_cons. intuition lia.
Qed.

Lemma skip_before_canonical x0 cached : canonical cached → canonical (skip_before x0 cached).
Proof.
  induction cached as [|c cached IH]; intros Hc; simpl; [done|].
  case_match; [|done]. apply IH. by eapply canonical_tail.
Qed.

Lemma covers_after c cached x : canonical (c :: cached) → covers cached x → Before c < x.
Proof. intros Hc (r & Hr & ?). pose proof (canonical_after _ _ _ Hc Hr). lia. Qed.

Lemma gap_loop_spec cur before cached gaps cur' :
  canonical cached → gap_loop cur before cached = (gaps, cur') →
  (∀ x, covers gaps x ∨ cur' ≤ x < before ↔ cur ≤ x < before ∧ ¬ covers cached x) ∧
  canonical gaps ∧ cur ≤ cur' ∧
  ∀ g, g ∈ gaps → cur ≤ From g ∧ Before g < cur' ∧ Before g < before.
Proof.
  revert cur gaps cur'. induction cached as [|c cached IH]; intros cur gaps cur' Hc; simpl.
  { intros [= <- <-]. split_and!; [|constructor|lia|set_solver].
    intros x. pose proof (covers_nil x). tauto. }
  pose proof (canonical_head _ _ Hc) as Hne. unfold nonempty in Hne.
  destruct (Z.ltb_spec (From c) before) as [Hcb|Hcb].
  - set (cur1 := if cur <? Before c then Before c else cur).
    assert (cur1 = Z.max cur (Before c)) as Ecur1 by (unfold cur1; destruct (Z.ltb_spec cur (Before c)); lia).
    destruct (gap_loop cur1 before cached) as [gaps' cur''] eqn:Eg. intros [= <- <-].
    destruct (IH _ _ _ (canonical_tail _ _ Hc) Eg) as (Hcov & Hcan & Hle & Hin).
    set (gap := if cur <? From c then _ else _).
    assert (Hgap : ∀ x, covers gap x ↔ cur ≤ x < From c).
    { intros x. unfold gap. destruct (Z.ltb_spec cur (From c)).
      - rewrite covers_cons. simpl. pose proof (covers_nil x). tauto.
      - split; [by intros ?%covers_nil|lia]. }
    assert (Hgin : ∀ g, g ∈ gap → From g = cur ∧ Before g = From c ∧ cur < From c).
    { intros g. unfold gap. destruct (Z.ltb_spec cur (From c)); [|by intros ?%elem_of_nil].
      by intros ->%list_elem_of_singleton. }
    split_and!.
    + intros x. rewrite covers_app, Hgap, covers_cons.
      assert (covers gaps' x ∨ cur'' ≤ x < before ↔ cur1 ≤ x < before ∧ ¬ covers cached x) as Hx by apply Hcov.
      assert (covers cached x → Before c < x) as Haf by by eapply covers_after.
      destruct (Z.lt_ge_cases x cur1) as [Hlt|Hge].
      * assert (¬ (covers gaps' x ∨ cur'' ≤ x < before)) as Hn by (rewrite Hx; lia).
        destruct (Z.lt_ge_cases x (From c)).
        { assert (¬ covers cached x) by (intros ?%Haf; lia). split; [|intros [? _]; left; left; lia].
          intros [[?|?]|?]; [|tauto..]. split; [lia|]. intros [?|?]; [lia|tauto]. }
        split; [intros [[?|?]|?]; [lia|tauto..]|]. intros [? []]. left. lia.
      * assert (¬ (cur ≤ x < From c)) by lia. assert (¬ (From c ≤ x < Before c)) by lia.
        assert (cur ≤ x) by lia. tauto.
    + apply canonical_app; [|done|].
      * unfold gap. destruct (Z.ltb_spec cur (From c)); [|constructor].
        constructor. unfold nonempty. simpl. lia.
      * intros a b Ha Hb. apply Hgin in Ha. apply Hin in Hb. lia.
    + lia.
    + intros g [Hg|Hg]%elem_of_app; [apply Hgin in Hg|apply Hin in Hg]; lia.
  - intros [= <- <-]. split_and!; [|constructor|lia|set_solver].
    intros x. rewrite covers_cons. pose proof (covers_nil x).
    assert (covers cached x → Before c < x) as Haf by by eapply covers_after. intuition lia.
Qed.

Lemma subtract_loop_spec needed cached :
  canonical needed → canonical cached →
  (∀ x, covers (subtract_loop needed cached) x ↔ covers needed x ∧ ¬ covers cached x) ∧
  canonical (subtract_loop needed cached) ∧
  ∀ g, g ∈ subtract_loop needed cached → ∃ n, n ∈ needed ∧ From n ≤ From g ∧ Before g ≤ Before n.
Proof.
  intros Hn. revert cached. induction needed as [|n needed IH]; intros cached Hc; simpl.
  { split_and!; [|constructor|set_solver]. intros x. pose proof (covers_nil x). tauto. }
  set (cached' := skip_before (From n) cached).
  assert (canonical cached') as Hc' by by apply skip_before_canonical.
  destruct (gap_loop (From n) (Before n) cached') as [gaps cur] eqn:Eg.
  destruct (gap_loop_spec _ _ _ _ _ Hc' Eg) as (Hcov & Hcan & Hle & Hin).
  destruct (IH (canonical_tail _ _ Hn) cached' Hc') as (Hcov' & Hcan' & Hin').
  set (tail := if cur <? Before n then _ else _).
  assert (Htail : ∀ x, covers tail x ↔ cur ≤ x < Before n).
  { intros x. unfold tail. destruct (Z.ltb_spec cur (Before n)).
    - rewrite covers_cons. simpl. pose proof (covers_nil x). tauto.
    - split; [by intros ?%covers_nil|lia]. }
  assert (Htin : ∀ g, g ∈ tail → From g = cur ∧ Before g = Before n ∧ cur < Before n).
  { intros g. unfold tail. destruct (Z.ltb_spec cur (Before n)); [|by intros ?%elem_of_nil].
    by intros ->%list_elem_of_singleton. }
  assert (Hskip : ∀ x, From n ≤ x → covers cached' x ↔ covers cached x).
  { intros. by apply skip_before_covers. }
  split_and!.
  - intros x. rewrite !covers_app, Htail, Hcov', covers_cons.
    assert (covers gaps x ∨ cur ≤ x < Before n ↔ From n ≤ x < Before n ∧ ¬ covers cached' x) as Hx by apply Hcov.
    assert (covers needed x → Before n < x) as Haf by by eapply covers_after.
    pose proof (canonical_head _ _ Hn) as Hne. unfold nonempty in Hne.
    destruct (Z.lt_ge_cases x (From n)) as [Hlt|Hge]; [intuition lia|].
    rewrite (Hskip x Hge) in *. tauto.
  - apply canonical_app; [done| |].
    + apply canonical_app; [|done|].
      * unfold tail. destruct (Z.ltb_spec cur (Before n)); [|constructor].
        constructor. unfold nonempty. simpl. lia.
      * intros a b Ha Hb. apply Htin in Ha. apply Hin' in Hb as (n' & Hn' & ? & _).
        pose proof (canonical_after _ _ _ Hn Hn'). lia.
    + intros a b Ha Hb. apply Hin in Ha. apply elem_of_app in Hb as [Hb|Hb].
      * apply Htin in Hb. lia.
      * apply Hin' in Hb as (n' & Hn' & ? & _). pose proof (canonical_after _ _ _ Hn Hn'). lia.
  - intros g Hg. rewrite !elem_of_app in Hg. destruct Hg as [Hg|[Hg|Hg]].
    + apply Hin in Hg. exists n. split; [left|lia].
    + apply Htin in Hg. exists n. split; [left|lia].
    + apply Hin' in Hg as (n' & ? & ?). exists n'. split; [by right|done].
Qed.

Lemma subtract_spec needed cached :
  canonical needed → canonical cached →
  (∀ x, covers (SubtractRanges needed cached) x ↔ covers needed x ∧ ¬ covers cached x) ∧
  canonical (SubtractRanges needed cached).
Proof.
  intros Hn Hc. unfold SubtractRanges. destruct cached as [|c cached].
  - split; [|done]. intros x. pose proof (covers_nil x). tauto.
  - destruct (subtract_loop_spec needed (c :: cached) Hn Hc) as (? & ? & _). done.
Qed.

(** Subtraction is set difference.  On lists as [MergeRanges] returns them,
    [SubtractRanges] covers exactly the instants that are needed and not cached, and
    its result is canonical again. *)
Theorem subtract_ranges_correct needed cached :
  canonical needed → canonical cached →
  (∀ x, covers (SubtractRanges needed cached) x ↔ covers needed x ∧ ¬ covers cached x) ∧
  canonical (SubtractRanges needed cached).
Proof. apply subtract_spec. Qed.

Lemma subtract_ranges_correct_witness :
  SubtractRanges [rng 0 10] [rng 2 4; rng 6 20] = [rng 0 2; rng 4 6] ∧
  canonical (SubtractRanges [rng 0 10] [rng 2 4; rng 6 20]).
Proof.
  split; [reflexivity|].
  destruct (subtract_ranges_correct [rng 0 10] [rng 2 4; rng 6 20]) as [_ Hc]; [| |exact Hc].
  - constructor. unfold nonempty. simpl. lia.
  - repeat constructor; unfold nonempty; simpl; lia.
Defined.
End DateRange.
