(* ===== verification/Coverage.v ===== *)
(** * Coverage and gaps

    What the price and corporate-event stores remember of the ranges already asked
    for, and what is therefore left to ask: [upsertCoverageSpan] of
    server/db/postgres/coverage.go, [HeldRanges], [PriceCoverage], [PriceGaps],
    [FXGaps], [UpsertPrices] and [UpsertPricesForRange] of
    server/db/postgres/price_cache.go, and [computeMissingIntervals] of
    server/corporateevents/worker.go.

    Dates are day numbers.  An instrument id is the text of its UUID, whose order is
    the order of the column; [parse_uuid] stands for the third-party [uuid.Parse] and
    returns the canonical text.  Tables are lists of rows and the statements are read
    off the SQL the functions send. *)

From Stdlib Require Import QArith Lqa.
From S2P Require Import Prelude Decimal DateRange.
Import DateRange.

Local Open Scope Z_scope.

Module Coverage.

(** ** Coverage tables *)

Record row := {
  cv_instrument : string;
  cv_plugin : string;
  cv_range : DateRange;
  cv_fetched : Z;
}.

Inductive upsert_error := EmptySpan | BadInstrument.

Section coverage.
Context (parse_uuid : string → option string).

Definition of_pair (id plugin : string) (s : row) : bool :=
  String.eqb (cv_instrument s) id && String.eqb (cv_plugin s) plugin.

(** The [touching] clause the three statements share. *)
Definition touching (id plugin : string) (from before : Z) (s : row) : bool :=
  of_pair id plugin s && (From (cv_range s) <=? before) && (from <=? Before (cv_range s)).

(** [now] is the clock of the transaction. *)
Definition upsertCoverageSpan (now : Z) (table : list row) (instrumentID pluginID : string)
    (from before : Z) (lastFetchedAt : option Z) : upsert_error + list row :=
  if negb (from <? before) then inl EmptySpan
  else match parse_uuid instrumentID with
  | None => inl BadInstrument
  | Some id =>
      let hit := filter (λ s, touching id pluginID from before s = true) table in
      let newFrom := foldr (λ s, Z.min (From (cv_range s))) from hit in
      let newBefore := foldr (λ s, Z.max (Before (cv_range s))) before hit in
      let newFetched := foldr (λ s, Z.min (cv_fetched s)) (default now lastFetchedAt) hit in
      inr (filter (λ s, touching id pluginID from before s = false) table
        ++ [{| cv_instrument := id; cv_plugin := pluginID;
               cv_range := {| From := newFrom; Before := newBefore |};
               cv_fetched := newFetched |}])
  end.
End coverage.

(** The spans one plugin holds for an instrument, and those of all plugins. *)
Definition spans_of (id plugin : string) (table : list row) : list DateRange :=
  cv_range <$> filter (λ s, of_pair id plugin s = true) table.

Definition instrument_spans (id : string) (table : list row) : list DateRange :=
  cv_range <$> filter (λ s, cv_instrument s = id) table.

(** The view [merged_price_coverage]: [range_agg] over the rows of one instrument. *)
Definition merged_price_coverage (table : list row) (id : string) : list DateRange :=
  MergeRanges (instrument_spans id table).

Record InstrumentDateRanges := { InstrumentID : string; Ranges : list DateRange }.

(** [PriceCoverage]: the rows of the view for the ids asked for, by instrument; an
    empty filter asks for every instrument.  Instruments with no row are absent. *)
Definition PriceCoverage (table : list row) (instrumentIDs : list string)
    : list InstrumentDateRanges :=
  let ids := sort_strings (remove_dups (cv_instrument <$> table)) in
  let asked := filter (λ id, instrumentIDs = [] ∨ id ∈ instrumentIDs) ids in
  (λ id, {| InstrumentID := id; Ranges := merged_price_coverage table id |}) <$> asked.

(** [coverageByInst], the index of it both gap routines build. *)
Definition coverageByInst (coverage : list InstrumentDateRanges) : gmap string (list DateRange) :=
  foldl (λ m c, <[InstrumentID c := Ranges c]> m) ∅ coverage.

Definition gaps_of (needed : list InstrumentDateRanges) (cached : gmap string (list DateRange))
    : list InstrumentDateRanges :=
  needed ≫= λ h,
    let gaps := SubtractRanges (Ranges h) (default [] (cached !! InstrumentID h)) in
    if (0 <? length gaps)%nat then [{| InstrumentID := InstrumentID h; Ranges := gaps |}] else [].

(** [computeMissingIntervals]; a coverage row is read for its two bounds only. *)
Definition computeMissingIntervals (earliestTxDate endBefore : Z) (coverage : list row)
    : list DateRange :=
  if negb (earliestTxDate <? endBefore) then []
  else SubtractRanges [{| From := earliestTxDate; Before := endBefore |}]
    (MergeRanges (cv_range <$> coverage)).

(** ** Held ranges *)

Section held.
Context {D : Type} `{Decimal D}.

(** The columns of [txs] the query reads; [tx_user] is [account_type = 'USER']. *)
Record tx := {
  tx_instrument : option string;
  tx_user : bool;
  tx_day : Z;
  tx_quantity : D;
}.

Definition held_of (i : string) (t : tx) : bool :=
  match tx_instrument t with Some j => String.eqb i j && tx_user t | None => false end.

Definition date_less (a b : Z) : bool := a <? b.

Definition held_instruments (txs : list tx) : list string :=
  sort_strings (remove_dups (omap (λ t, if tx_user t then tx_instrument t else None) txs)).

Definition tx_dates (txs : list tx) (i : string) : list Z :=
  go_sort date_less (remove_dups (tx_day <$> filter (λ t, held_of i t = true) txs)).

(** [daily_net] of one instrument, and the window sum over it. *)
Definition day_qty (txs : list tx) (i : string) (d : Z) : D :=
  dec_sum (tx_quantity <$> filter (λ t, held_of i t = true ∧ tx_day t = d) txs).

Definition eod_pos (txs : list tx) (i : string) (d : Z) : D :=
  dec_sum (day_qty txs i <$> filter (λ d', d' ≤ d) (tx_dates txs i)).

Definition held_rows (txs : list tx) : list (string * Z * D) :=
  held_instruments txs ≫= λ i, (λ d, (i, d, eod_pos txs i d)) <$> tx_dates txs i.

(** The locals of the scan. *)
Record scan := {
  s_result : list InstrumentDateRanges;
  s_curInst : string;
  s_ranges : list DateRange;
  s_rangeStart : Z;
  s_inRange : bool;
}.

Definition uuid_nil : string := "00000000-0000-0000-0000-000000000000".

Definition scan_init : scan :=
  {| s_result := []; s_curInst := uuid_nil; s_ranges := []; s_rangeStart := 0; s_inRange := false |}.

(** How an open range is closed when the rows of its instrument end. *)
Definition open_before (today : Z) (extendToToday : bool) (rangeStart : Z) : Z :=
  if extendToToday then today + 1 else rangeStart + 1.

Definition close_open (today : Z) (extendToToday : bool) (s : scan) : scan :=
  if s_inRange s then
    {| s_result := s_result s; s_curInst := s_curInst s;
       s_ranges := s_ranges s ++
         [{| From := s_rangeStart s; Before := open_before today extendToToday (s_rangeStart s) |}];
       s_rangeStart := s_rangeStart s; s_inRange := false |}
  else s.

Definition flush (s : scan) : list InstrumentDateRanges :=
  match s_ranges s with
  | [] => s_result s
  | _ => s_result s ++ [{| InstrumentID := s_curInst s; Ranges := s_ranges s |}]
  end.

(** The body of the loop over the rows. *)
Definition scan_step (today : Z) (extendToToday : bool) (s : scan) (r : string * Z * D) : scan :=
  let '(instID, txDate, eodPos) := r in
  let s := if String.eqb instID (s_curInst s) then s
    else let s' := close_open today extendToToday s in
      {| s_result := flush s'; s_curInst := instID; s_ranges := [];
         s_rangeStart := s_rangeStart s'; s_inRange := s_inRange s' |} in
  if negb (is_zero eodPos) && negb (s_inRange s) then
    {| s_result := s_result s; s_curInst := s_curInst s; s_ranges := s_ranges s;
       s_rangeStart := txDate; s_inRange := true |}
  else if is_zero eodPos && s_inRange s then
    {| s_result := s_result s; s_curInst := s_curInst s;
       s_ranges := s_ranges s ++ [{| From := s_rangeStart s; Before := txDate |}];
       s_rangeStart := s_rangeStart s; s_inRange := false |}
  else s.

Definition HeldRanges (today : Z) (extendToToday : bool) (txs : list tx) : list InstrumentDateRanges :=
  flush (close_open today extendToToday
    (foldl (scan_step today extendToToday) scan_init (held_rows txs))).

(** ** Gaps *)

Definition PriceGaps (today : Z) (extendToToday : bool) (txs : list tx) (table : list row)
    : list InstrumentDateRanges :=
  let held := HeldRanges today extendToToday txs in
  match held with
  | [] => []
  | _ => gaps_of held (coverageByInst (PriceCoverage table (InstrumentID <$> held)))
  end.

(** ** [FXGaps]

    The columns of [instruments], [instrument_identifiers] and [users] it reads. *)
Record instrument := { in_id : string; in_currency : option string }.

Record identifier := {
  ii_instrument : string;
  ii_type : string;
  ii_value : string;
  ii_valid_before : option Z;
}.

Definition current_pair (value : string) (ii : identifier) : bool :=
  String.eqb (ii_type ii) "FX_PAIR" && String.eqb (ii_value ii) value
  && match ii_valid_before ii with None => true | Some _ => false end.

(** The rows (held id, currency, FX instrument) of the currency lookup. *)
Definition fx_rows (instruments : list instrument) (identifiers : list identifier)
    (heldIDs : list string) : list (string * string * string) :=
  instruments ≫= λ i,
    match in_currency i with
    | Some c =>
        if bool_decide (in_id i ∈ heldIDs) && negb (String.eqb c "USD") then
          (λ ii, (in_id i, c, ii_instrument ii))
            <$> filter (λ ii, current_pair (c +:+ "USD") ii = true) identifiers
        else []
    | None => []
    end.

Definition heldToFX (rows : list (string * string * string)) : gmap string string :=
  foldl (λ m r, <[r.1.1 := r.2]> m) ∅ rows.

Definition heldToCurrency (rows : list (string * string * string)) : gmap string string :=
  foldl (λ m r, <[r.1.1 := r.1.2]> m) ∅ rows.

Definition append_ranges (m : gmap string (list DateRange)) (k : string) (rs : list DateRange)
    : gmap string (list DateRange) :=
  <[k := default [] (m !! k) ++ rs]> m.

Definition addDisplayCurrencyNeeds (identifiers : list identifier) (user_currencies : list string)
    (held : list InstrumentDateRanges) (toCurrency : gmap string string)
    (fxNeeded : gmap string (list DateRange)) : gmap string (list DateRange) :=
  let displayCurrencies := remove_dups (filter (λ c, c ≠ "USD") user_currencies) in
  let values := (λ c, c +:+ "USD") <$> displayCurrencies in
  let dcFXMap : gmap string string :=
    foldl (λ m ii, <[ii_value ii := ii_instrument ii]> m) ∅
      (filter (λ ii, existsb (λ v, current_pair v ii) values = true) identifiers) in
  foldl (λ m dc,
    match dcFXMap !! (dc +:+ "USD") with
    | None => m
    | Some fxInstID =>
        foldl (λ m h,
          if bool_decide (toCurrency !! InstrumentID h = Some dc) then m
          else append_ranges m fxInstID (Ranges h)) m held
    end) fxNeeded displayCurrencies.

Definition fx_needed (instruments : list instrument) (identifiers : list identifier)
    (user_currencies : list string) (held : list InstrumentDateRanges)
    : gmap string (list DateRange) :=
  let rows := fx_rows instruments identifiers (InstrumentID <$> held) in
  let fxNeeded := foldl (λ m h,
    match heldToFX rows !! InstrumentID h with
    | None => m
    | Some fxID => append_ranges m fxID (Ranges h)
    end) ∅ held in
  addDisplayCurrencyNeeds identifiers user_currencies held (heldToCurrency rows) fxNeeded.

Definition FXGaps (today : Z) (extendToToday : bool) (txs : list tx) (instruments : list instrument)
    (identifiers : list identifier) (user_currencies : list string) (table : list row)
    : list InstrumentDateRanges :=
  let held := HeldRanges today extendToToday txs in
  match held with
  | [] => []
  | _ =>
      let needed := map_to_list (MergeRanges <$> fx_needed instruments identifiers user_currencies held) in
      match needed with
      | [] => []
      | _ =>
          let needed := (λ '(fxID, rs), {| InstrumentID := fxID; Ranges := rs |}) <$> needed in
          gaps_of needed (coverageByInst (PriceCoverage table (InstrumentID <$> needed)))
      end
  end.

End held.

Arguments tx D : clear implicits.

(** ** Writing a coverage span *)

Definition apart (a b : DateRange) : Prop := Before a < From b ∨ Before b < From a.

(** What the table keeps: no span is empty, and no two of one (instrument, plugin)
    overlap or abut. *)
Definition same_pair (s s' : row) : Prop :=
  cv_instrument s = cv_instrument s' ∧ cv_plugin s = cv_plugin s'.

Definition well_kept (table : list row) : Prop :=
  (∀ s, s ∈ table → nonempty (cv_range s)) ∧
  ForallOrdPairs (λ s s', same_pair s s' → apart (cv_range s) (cv_range s')) table.

Lemma ForallOrdPairs_filter {A} (R : A → A → Prop) (P : A → Prop) `{∀ x, Decision (P x)} l :
  ForallOrdPairs R l → ForallOrdPairs R (filter P l).
Proof.
  induction 1 as [|a l Ha Hl IH]; [constructor|]. rewrite filter_cons. case_decide; [|done].
  constructor; [|done]. rewrite Forall_forall in Ha |- *. intros x [_ Hx]%list_elem_of_filter.
  by apply Ha.
Qed.

Lemma ForallOrdPairs_snoc {A} (R : A → A → Prop) l a :
  ForallOrdPairs R l → (∀ x, x ∈ l → R x a) → ForallOrdPairs R (l ++ [a]).
Proof.
  induction 1 as [|b l Hb Hl IH]; intros Ha; simpl.
  { constructor; [done|constructor]. }
  constructor; [|apply IH; intros x Hx; apply Ha; by right].
  apply Forall_app. split; [done|]. constructor; [|done]. apply Ha. left.
Qed.

Lemma ForallOrdPairs_in {A} (R : A → A → Prop) l x y :
  ForallOrdPairs R l → x ∈ l → y ∈ l → x = y ∨ R x y ∨ R y x.
Proof.
  intros Hl Hx Hy. rewrite list_elem_of_In in Hx, Hy.
  by apply (ForallOrdPairs_In Hl).
Qed.

Lemma of_pair_spec id plugin s :
  of_pair id plugin s = true ↔ cv_instrument s = id ∧ cv_plugin s = plugin.
Proof. unfold of_pair. by rewrite andb_true_iff, !String.eqb_eq. Qed.

Lemma touching_spec id plugin from before s :
  touching id plugin from before s = true ↔
  of_pair id plugin s = true ∧ From (cv_range s) ≤ before ∧ from ≤ Before (cv_range s).
Proof. unfold touching. rewrite !andb_true_iff, !Z.leb_le. tauto. Qed.

Lemma fold_min_spec {A} (f : A → Z) z l m :
  m = foldr (λ s, Z.min (f s)) z l →
  m ≤ z ∧ (∀ s, s ∈ l → m ≤ f s) ∧ (m = z ∨ ∃ s, s ∈ l ∧ m = f s).
Proof.
  revert m. induction l as [|a l IH]; intros m ->; simpl.
  { split_and!; [done|intros s ?%elem_of_nil; done|by left]. }
  destruct (IH _ eq_refl) as (Hz & Hl & He). split_and!; [lia| |].
  - intros s [->|Hs]%elem_of_cons; [lia|]. specialize (Hl s Hs). lia.
  - destruct (Z.min_spec (f a) (foldr (λ s, Z.min (f s)) z l)) as [[_ ->]|[_ ->]].
    + right. exists a. split; [left|done].
    + destruct He as [He|(s & ? & ?)]; [by left|right; exists s; split; [by right|done]].
Qed.

Lemma fold_max_spec {A} (f : A → Z) z l m :
  m = foldr (λ s, Z.max (f s)) z l →
  z ≤ m ∧ (∀ s, s ∈ l → f s ≤ m) ∧ (m = z ∨ ∃ s, s ∈ l ∧ m = f s).
Proof.
  intros ->. destruct (fold_min_spec (λ s, - f s) (- z) l _ eq_refl) as (Hz & Hl & He).
  assert (foldr (λ s, Z.min (- f s)) (- z) l = - foldr (λ s, Z.max (f s)) z l) as E.
  { clear. induction l as [|a l IH]; simpl; [done|]. rewrite IH. lia. }
  rewrite E in *. split_and!; [lia|intros s Hs; specialize (Hl s Hs); lia|].
  destruct He as [He|(s & ? & ?)]; [left; lia|right; exists s; split; [done|lia]].
Qed.

Section upsert.
Context (parse_uuid : string → option string).

(** What a span that is taken does to the table. *)
Lemma upsert_inv now table inst plugin from before fetched table' :
  upsertCoverageSpan parse_uuid now table inst plugin from before fetched = inr table' →
  ∃ id nr, parse_uuid inst = Some id ∧ from < before ∧
    table' = filter (λ s, touching id plugin from before s = false) table ++ [nr] ∧
    of_pair id plugin nr = true ∧
    (∀ m, m = From (cv_range nr) →
      m ≤ from ∧ (∀ s, s ∈ table → touching id plugin from before s = true → m ≤ From (cv_range s)) ∧
      (m = from ∨ ∃ s, s ∈ table ∧ touching id plugin from before s = true ∧ m = From (cv_range s))) ∧
    (∀ m, m = Before (cv_range nr) →
      before ≤ m ∧ (∀ s, s ∈ table → touching id plugin from before s = true → Before (cv_range s) ≤ m) ∧
      (m = before ∨ ∃ s, s ∈ table ∧ touching id plugin from before s = true ∧ m = Before (cv_range s))) ∧
    (∀ m, m = cv_fetched nr →
      m ≤ default now fetched ∧
      (∀ s, s ∈ table → touching id plugin from before s = true → m ≤ cv_fetched s) ∧
      (m = default now fetched ∨
       ∃ s, s ∈ table ∧ touching id plugin from before s = true ∧ m = cv_fetched s)).
Proof.
  unfold upsertCoverageSpan. destruct (Z.ltb_spec from before) as [Hlt|]; simpl; [|done].
  destruct (parse_uuid inst) as [id|]; [|done]. intros [= <-].
  eexists id, _. split_and!; [done|done|reflexivity|by apply of_pair_spec|..].
  - intros m Hm. simpl in Hm. destruct (fold_min_spec (λ s, From (cv_range s)) _ _ _ Hm) as (? & Hl & He).
    split_and!; [done|intros s ??; apply Hl; by apply list_elem_of_filter|].
    destruct He as [?|(s & [??]%list_elem_of_filter & ?)]; [by left|right; by exists s].
  - intros m Hm. simpl in Hm. destruct (fold_max_spec (λ s, Before (cv_range s)) _ _ _ Hm) as (? & Hl & He).
    split_and!; [done|intros s ??; apply Hl; by apply list_elem_of_filter|].
    destruct He as [?|(s & [??]%list_elem_of_filter & ?)]; [by left|right; by exists s].
  - intros m Hm. simpl in Hm. destruct (fold_min_spec cv_fetched _ _ _ Hm) as (? & Hl & He).
    split_and!; [done|intros s ??; apply Hl; by apply list_elem_of_filter|].
    destruct He as [?|(s & [??]%list_elem_of_filter & ?)]; [by left|right; by exists s].
Qed.

Lemma upsert_well_kept now table inst plugin from before fetched table' :
  well_kept table →
  upsertCoverageSpan parse_uuid now table inst plugin from before fetched = inr table' →
  well_kept table'.
Proof.
  intros [Hne Hp] (id & nr & _ & Hlt & -> & Hnr & Hf & Hb & _)%upsert_inv.
  specialize (Hf _ eq_refl) as (Hf1 & Hf2 & Hf3). specialize (Hb _ eq_refl) as (Hb1 & Hb2 & Hb3).
  split.
  { intros s [[_ Hs]%list_elem_of_filter| ->%list_elem_of_singleton]%elem_of_app; [by apply Hne|].
    unfold nonempty. lia. }
  apply ForallOrdPairs_snoc; [by apply ForallOrdPairs_filter|].
  intros s [Ht Hs]%list_elem_of_filter [E1 E2]. specialize (Hne s Hs) as Hnes. unfold nonempty in Hnes.
  apply of_pair_spec in Hnr as [<- <-].
  assert (of_pair (cv_instrument nr) (cv_plugin nr) s = true) as Hop by by apply of_pair_spec.
  assert (Hsep : Before (cv_range s) < from ∨ before < From (cv_range s)).
  { rewrite <- not_true_iff_false, touching_spec in Ht. destruct (Z.lt_ge_cases (Before (cv_range s)) from); [by left|].
    right. apply Z.nle_gt. intros ?. apply Ht. split_and!; [done|lia..]. }
  assert (Hhit : ∀ h, h ∈ table → touching (cv_instrument nr) (cv_plugin nr) from before h = true →
    apart (cv_range s) (cv_range h) ∧ From (cv_range h) ≤ before ∧ from ≤ Before (cv_range h)).
  { intros h Hh Hth. pose proof Hth as (Hoh & ? & ?)%touching_spec. split; [|done].
    apply of_pair_spec in Hoh as [??].
    destruct (ForallOrdPairs_in _ _ s h Hp Hs Hh) as [->|[HR|HR]]; [congruence|apply HR; split; congruence|].
    destruct HR as [?|?]; [split; congruence|by right|by left]. }
  unfold apart in *. destruct Hsep as [Hl|Hr]; [left|right].
  - destruct Hf3 as [->|(h & Hh & Hth & ->)]; [done|]. destruct (Hhit h Hh Hth) as ([?|?] & ? & ?); lia.
  - destruct Hb3 as [->|(h & Hh & Hth & ->)]; [done|]. destruct (Hhit h Hh Hth) as ([?|?] & ? & ?); [|lia].
    specialize (Hne h Hh). unfold nonempty in Hne. lia.
Qed.

Lemma covers_spans_of id plugin table x :
  covers (spans_of id plugin table) x ↔
  ∃ s, s ∈ table ∧ of_pair id plugin s = true ∧ From (cv_range s) ≤ x < Before (cv_range s).
Proof.
  unfold covers, spans_of. split.
  - intros (r & (s & -> & [Hop Hs]%list_elem_of_filter)%list_elem_of_fmap & ?). by exists s.
  - intros (s & ? & ? & ?). exists (cv_range s). split; [|done]. apply list_elem_of_fmap.
    exists s. split; [done|]. by apply list_elem_of_filter.
Qed.

Lemma upsert_covers now table inst plugin from before fetched table' id plugin' x :
  upsertCoverageSpan parse_uuid now table inst plugin from before fetched = inr table' →
  covers (spans_of id plugin' table') x ↔
  covers (spans_of id plugin' table) x ∨
  (parse_uuid inst = Some id ∧ plugin' = plugin ∧ from ≤ x < before).
Proof.
  intros (id0 & nr & Hid & Hlt & -> & Hnr & Hf & Hb & _)%upsert_inv.
  specialize (Hf _ eq_refl) as (Hf1 & Hf2 & Hf3). specialize (Hb _ eq_refl) as (Hb1 & Hb2 & Hb3).
  pose proof Hnr as [Ei Ep]%of_pair_spec. rewrite !covers_spans_of. split.
  - intros (s & [[Ht Hs]%list_elem_of_filter| ->%list_elem_of_singleton]%elem_of_app & Hop & Hx).
    { left. by exists s. }
    apply of_pair_spec in Hop as [<- <-]. rewrite Ei, Ep.
    destruct (Z.lt_ge_cases x from).
    { destruct Hf3 as [?|(h & Hh & (? & ? & ?)%touching_spec & ?)]; [lia|]. left. exists h. split_and!; [done..|lia|lia]. }
    destruct (Z.lt_ge_cases x before).
    { right. split_and!; [congruence|congruence|lia|lia]. }
    destruct Hb3 as [?|(h & Hh & (? & ? & ?)%touching_spec & ?)]; [lia|]. left. exists h. split_and!; [done..|lia|lia].
  - intros [(s & Hs & Hop & Hx)|(Hp' & -> & Hx)].
    + destruct (touching id0 plugin from before s) eqn:Ht.
      * exists nr. split; [apply elem_of_app; right; by apply list_elem_of_singleton|].
        pose proof Ht as (Hop' & _)%touching_spec.
        apply of_pair_spec in Hop as [<- <-]. apply of_pair_spec in Hop' as [Hi Hpl].
        split; [apply of_pair_spec; split; congruence|]. specialize (Hf2 s Hs Ht). specialize (Hb2 s Hs Ht). lia.
      * exists s. split; [|done]. apply elem_of_app. left. by apply list_elem_of_filter.
    + exists nr. split; [apply elem_of_app; right; by apply list_elem_of_singleton|].
      split; [apply of_pair_spec; split; congruence|lia].
Qed.

(** Writing a coverage span.  The call is refused exactly when the span is empty
    or the id does not parse.  Otherwise the table keeps no overlapping and no
    abutting spans of one (instrument, plugin), the plugin covers exactly what it did
    and the new span, nobody else's coverage changes, and the row that holds the span
    was fetched no later than anything merged into it. *)
Theorem upsert_coverage_span now table inst plugin from before fetched :
  well_kept table →
  match upsertCoverageSpan parse_uuid now table inst plugin from before fetched with
  | inl EmptySpan => before ≤ from
  | inl BadInstrument => from < before ∧ parse_uuid inst = None
  | inr table' =>
      from < before ∧ well_kept table' ∧
      (∀ id plugin' x, covers (spans_of id plugin' table') x ↔
        covers (spans_of id plugin' table) x ∨
        (parse_uuid inst = Some id ∧ plugin' = plugin ∧ from ≤ x < before)) ∧
      ∃ id s, parse_uuid inst = Some id ∧ s ∈ table' ∧ of_pair id plugin s = true ∧
        From (cv_range s) ≤ from ∧ before ≤ Before (cv_range s) ∧
        cv_fetched s ≤ default now fetched ∧
        ∀ s', s' ∈ table → of_pair id plugin s' = true →
          From (cv_range s') ≤ before → from ≤ Before (cv_range s') → cv_fetched s ≤ cv_fetched s'
  end.
Proof.
  intros Hw. destruct (upsertCoverageSpan _ _ _ _ _ _ _ _) as [e|table'] eqn:E.
  - unfold upsertCoverageSpan in E. destruct (Z.ltb_spec from before); simpl in E; [|by inversion E; subst].
    destruct (parse_uuid inst); [done|]. by inversion E; subst.
  - pose proof E as (id & nr & Hid & Hlt & -> & Hnr & Hf & Hb & Ht)%upsert_inv.
    split_and!; [done|by eapply upsert_well_kept|intros; by eapply upsert_covers|].
    destruct (Hf _ eq_refl) as (? & _ & _). destruct (Hb _ eq_refl) as (? & _ & _).
    destruct (Ht _ eq_refl) as (? & Ht2 & _).
    exists id, nr. split_and!; [done|apply elem_of_app; right; by apply list_elem_of_singleton|done..|].
    intros s' Hs' Hop ??. apply Ht2; [done|]. by apply touching_spec.
Qed.
End upsert.

(** ** Positions and the days they are held *)

Section held_proofs.
Context {D : Type} `{DecimalLaws D}.
Implicit Types txs : list (tx D).

(** What is held at the end of day [x]: everything transacted up to it. *)
Definition position txs (i : string) (x : Z) : D :=
  dec_sum (tx_quantity <$> filter (λ t, held_of i t = true ∧ tx_day t ≤ x) txs).

Definition held txs (i : string) (x : Z) : Prop := ¬ (dval (position txs i x) == 0)%Q.

(** Summing day by day. *)
Lemma sum_by_day txs (P : tx D → Prop) `{∀ t, Decision (P t)} ds :
  NoDup ds →
  (dval (dec_sum ((λ d, dec_sum (tx_quantity <$> filter (λ t, P t ∧ tx_day t = d) txs)) <$> ds)) ==
   dval (dec_sum (tx_quantity <$> filter (λ t, P t ∧ tx_day t ∈ ds) txs)))%Q.
Proof.
  induction 1 as [|d ds Hd _ IH]; simpl.
  { rewrite (filter_ext_in _ (λ _, False) txs); [|set_solver].
    assert (filter (λ _ : tx D, False) txs = []) as -> by (induction txs; done). reflexivity. }
  rewrite dval_add, IH, <- dec_sum_app, <- fmap_app. apply dec_sum_perm. apply fmap_Permutation.
  clear IH. induction txs as [|t txs IH]; [done|]. rewrite !filter_cons.
  destruct (decide (P t ∧ tx_day t = d)) as [[HP Ht]|N1].
  - rewrite (decide_False (P:=P t ∧ tx_day t ∈ ds)) by (rewrite Ht; tauto).
    rewrite (decide_True (P:=P t ∧ tx_day t ∈ d :: ds)) by (split; [done|rewrite Ht; left]).
    simpl. by rewrite IH.
  - destruct (decide (P t ∧ tx_day t ∈ ds)) as [[HP Ht]|N2].
    + rewrite decide_True by (split; [done|by right]). by rewrite <- Permutation_middle, IH.
    + rewrite decide_False; [done|]. intros [HP [?|?]%elem_of_cons]; tauto.
Qed.

#[local] Instance date_cmp_lawful : Lawful Z.compare.
Proof.
  split.
  - intros x y. apply Z.compare_antisym.
  - intros x y z. rewrite !Z.compare_lt_iff. lia.
  - by intros x y z ->%Z.compare_eq.
Qed.

Lemma elem_of_tx_dates txs i d :
  d ∈ tx_dates txs i ↔ ∃ t, t ∈ txs ∧ held_of i t = true ∧ tx_day t = d.
Proof.
  unfold tx_dates. rewrite elem_of_go_sort, elem_of_remove_dups, list_elem_of_fmap. split.
  - intros (t & -> & [??]%list_elem_of_filter). by exists t.
  - intros (t & ? & ? & <-). exists t. split; [done|]. by apply list_elem_of_filter.
Qed.

Lemma tx_dates_sorted txs i : StronglySorted Z.lt (tx_dates txs i).
Proof.
  unfold tx_dates. set (l := remove_dups _).
  assert (NoDup (go_sort date_less l)) as Hnd by (rewrite go_sort_perm; apply NoDup_remove_dups).
  assert (StronglySorted (λ x y, Z.compare x y ≠ Gt) (go_sort date_less l)) as Hs.
  { apply (go_sort_sorted date_less Z.compare). reflexivity. }
  revert Hnd Hs. generalize (go_sort date_less l). induction l0 as [|a l0 IH]; intros Hnd Hs; [constructor|].
  apply NoDup_cons in Hnd as [Ha Hnd]. inversion Hs as [|?? Hs' Hf]; subst.
  constructor; [by apply IH|]. rewrite Forall_forall in Hf |- *. intros x Hx. specialize (Hf x Hx).
  change (a ≤ x) in Hf. assert (a ≠ x) by (intros ->; done). lia.
Qed.

(** The window sum is the position. *)
Lemma eod_pos_position txs i d : (dval (eod_pos txs i d) == dval (position txs i d))%Q.
Proof.
  unfold eod_pos, position, day_qty. rewrite (sum_by_day txs (λ t, held_of i t = true)).
  - rewrite (filter_ext_in _ (λ t, held_of i t = true ∧ tx_day t ≤ d) txs); [reflexivity|].
    intros t Ht. rewrite list_elem_of_filter, elem_of_tx_dates. naive_solver.
  - apply NoDup_filter. unfold tx_dates. rewrite go_sort_perm. apply NoDup_remove_dups.
Qed.

(** *** The scan

    [scan_ranges] is what the loop makes of the rows of one instrument. *)
Fixpoint scan_ranges (close : Z → Z) (start : option Z) (rows : list (Z * D)) : list DateRange :=
  match rows with
  | [] => match start with Some s => [{| From := s; Before := close s |}] | None => [] end
  | (d, p) :: rows' =>
      match start with
      | None => if is_zero p then scan_ranges close None rows' else scan_ranges close (Some d) rows'
      | Some s =>
          if is_zero p then {| From := s; Before := d |} :: scan_ranges close None rows'
          else scan_ranges close (Some s) rows'
      end
  end.

Definition entry (i : string) (rs : list DateRange) : list InstrumentDateRanges :=
  match rs with [] => [] | _ => [{| InstrumentID := i; Ranges := rs |}] end.

Definition start_of (s : scan) : option Z := if s_inRange s then Some (s_rangeStart s) else None.

Definition finish today ext (s : scan) : list InstrumentDateRanges := flush (close_open today ext s).

Lemma finish_entry today ext s :
  finish today ext s = s_result s ++
    entry (s_curInst s) (s_ranges s ++ scan_ranges (open_before today ext) (start_of s) []).
Proof.
  unfold finish, close_open, flush, entry, start_of. destruct s as [res cur rs st []]; simpl.
  - destruct rs; done.
  - rewrite app_nil_r. destruct rs; [by rewrite app_nil_r|done].
Qed.

(** The rows of the current instrument. *)
Lemma scan_same today ext i (rows : list (Z * D)) s :
  s_curInst s = i →
  finish today ext (foldl (scan_step today ext) s ((λ '(d, p), (i, d, p)) <$> rows)) =
    s_result s ++ entry i (s_ranges s ++ scan_ranges (open_before today ext) (start_of s) rows) ∧
  s_curInst (foldl (scan_step today ext) s ((λ '(d, p), (i, d, p)) <$> rows)) = i.
Proof.
  revert s. induction rows as [|[d p] rows IH]; intros s Hi.
  { simpl. split; [|done]. rewrite finish_entry. by rewrite Hi. }
  rewrite fmap_cons. cbn [foldl].
  set (s' := scan_step today ext s (i, d, p)).
  assert (s_curInst s' = i ∧ s_result s' = s_result s ∧
    s_ranges s' ++ scan_ranges (open_before today ext) (start_of s') rows =
    s_ranges s ++ scan_ranges (open_before today ext) (start_of s) ((d, p) :: rows)) as (Hi' & Hr & E).
  { unfold s', scan_step. rewrite Hi, String.eqb_refl. destruct s as [res cur rs st inr]. simpl in Hi. subst cur.
    destruct (is_zero p) eqn:Ez, inr; simpl; rewrite ?Ez, <- ?app_assoc; done. }
  destruct (IH s' Hi') as [E1 E2]. split; [|done]. by rewrite E1, Hr, E.
Qed.

(** The rows of another instrument: the one before is written out. *)
Lemma scan_other today ext i d (p : D) s :
  s_curInst s ≠ i →
  scan_step today ext s (i, d, p) = scan_step today ext
    {| s_result := finish today ext s; s_curInst := i; s_ranges := [];
       s_rangeStart := s_rangeStart s; s_inRange := false |} (i, d, p).
Proof.
  intros Hi. unfold scan_step. rewrite String.eqb_refl.
  assert (String.eqb i (s_curInst s) = false) as -> by (apply String.eqb_neq; congruence).
  unfold finish, close_open. destruct s as [res cur rs st []]; reflexivity.
Qed.

Lemma scan_group today ext i (rows : list (Z * D)) s :
  rows ≠ [] → s_curInst s ≠ i ∨ (s = scan_init) →
  finish today ext (foldl (scan_step today ext) s ((λ '(d, p), (i, d, p)) <$> rows)) =
    finish today ext s ++ entry i (scan_ranges (open_before today ext) None rows) ∧
  s_curInst (foldl (scan_step today ext) s ((λ '(d, p), (i, d, p)) <$> rows)) = i.
Proof.
  intros Hr Hs. destruct (decide (s_curInst s = i)) as [Hi|Hi].
  { destruct Hs as [?| ->]; [done|]. apply (scan_same today ext i rows _ Hi). }
  destruct rows as [|[d p] rows]; [done|]. rewrite fmap_cons. cbn [foldl].
  rewrite (scan_other today ext i d p s Hi). set (s0 := Build_scan _ _ _ _ _).
  apply (scan_same today ext i ((d, p) :: rows) s0 eq_refl).
Qed.

Lemma scan_groups today ext (f : string → list (Z * D)) ids s :
  NoDup ids → (∀ i, i ∈ ids → f i ≠ []) → s_curInst s ∉ ids ∨ s = scan_init →
  finish today ext (foldl (scan_step today ext) s (ids ≫= λ i, (λ '(d, p), (i, d, p)) <$> f i)) =
    finish today ext s ++ (ids ≫= λ i, entry i (scan_ranges (open_before today ext) None (f i))).
Proof.
  revert s. induction ids as [|i ids IH]; intros s Hnd Hf Hs; [by rewrite app_nil_r|].
  apply NoDup_cons in Hnd as [Hi Hnd]. cbn. rewrite foldl_app.
  destruct (scan_group today ext i (f i) s) as [E1 E2].
  { apply Hf. left. } { destruct Hs as [Hs| ->]; [left|by right]. intros <-. apply Hs. left. }
  rewrite IH; [|done|intros; apply Hf; by right|left; by rewrite E2].
  rewrite E1. by rewrite <- app_assoc.
Qed.

Lemma elem_of_held_instruments txs i :
  i ∈ held_instruments txs ↔ ∃ t, t ∈ txs ∧ held_of i t = true.
Proof.
  unfold held_instruments. rewrite sort_strings_perm, elem_of_remove_dups, list_elem_of_omap.
  unfold held_of. split; intros (t & Ht & E); exists t; (split; [done|]).
  - destruct (tx_user t); [|done]. rewrite E, String.eqb_refl. done.
  - destruct (tx_instrument t) as [j|]; [|done]. apply andb_true_iff in E as [->%String.eqb_eq ->]. done.
Qed.

Definition dated_rows txs (i : string) : list (Z * D) := (λ d, (d, eod_pos txs i d)) <$> tx_dates txs i.

Lemma held_ranges_eq today ext txs :
  HeldRanges today ext txs =
  held_instruments txs ≫= λ i, entry i (scan_ranges (open_before today ext) None (dated_rows txs i)).
Proof.
  unfold HeldRanges. change (flush (close_open today ext ?s)) with (finish today ext s).
  assert (held_rows txs = held_instruments txs ≫= λ i, (λ '(d, p), (i, d, p)) <$> dated_rows txs i) as ->.
  { apply list_bind_ext; [|done]. intros i. unfold dated_rows. by rewrite <- list_fmap_compose. }
  rewrite scan_groups; [done| |intros i Hi|by right].
  - unfold held_instruments. rewrite sort_strings_perm. apply NoDup_remove_dups.
  - apply elem_of_held_instruments in Hi as (t & Ht & Hh). unfold dated_rows. intros E%fmap_nil_inv.
    assert (tx_day t ∈ tx_dates txs i) as Hin by (apply elem_of_tx_dates; by exists t).
    rewrite E in Hin. by apply elem_of_nil in Hin.
Qed.

(** *** Which days the scan covers *)

(** Whether the last row up to day [x] has a position; [b] is what held before. *)
Fixpoint last_on (b : bool) (rows : list (Z * D)) (x : Z) : bool :=
  match rows with
  | [] => b
  | (d, p) :: rows' => if d <=? x then last_on (negb (is_zero p)) rows' x else b
  end.

Definition dated (rows : list (Z * D)) : Prop := StronglySorted Z.lt rows.*1.

Lemma dated_cons d p rows : dated ((d, p) :: rows) → dated rows ∧ ∀ r, r ∈ rows → d < r.1.
Proof.
  inversion 1 as [|?? Hs Hf]; subst. split; [done|]. intros r Hr. rewrite Forall_forall in Hf.
  apply Hf. apply list_elem_of_fmap. by exists r.
Qed.

Lemma last_on_before b rows x : (∀ r, r ∈ rows → x < r.1) → last_on b rows x = b.
Proof.
  destruct rows as [|[d p] rows]; [done|]. intros Hx. simpl.
  assert (x < d) by (apply (Hx (d, p)); left). by rewrite (proj2 (Z.leb_gt d x)) by lia.
Qed.

Lemma scan_covers today rows start x :
  dated rows → (∀ r, r ∈ rows → r.1 ≤ today) → (∀ s r, start = Some s → r ∈ rows → s < r.1) →
  covers (scan_ranges (open_before today true) start rows) x ↔
  x ≤ today ∧ match start with
    | Some s => s ≤ x ∧ last_on true rows x = true
    | None => last_on false rows x = true
    end.
Proof.
  revert start. induction rows as [|[d p] rows IH]; intros start Hd Ht Hs.
  { destruct start as [s|]; simpl.
    - rewrite covers_cons. simpl. pose proof (covers_nil x). intuition lia.
    - split; [by intros ?%covers_nil|]. by intros [_ ?]. }
  apply dated_cons in Hd as [Hd Hlt].
  assert (Ht' : ∀ r, r ∈ rows → r.1 ≤ today) by (intros; apply Ht; by right).
  assert (Hdt : d ≤ today) by (apply (Ht (d, p)); left).
  destruct start as [s|]; cbn [scan_ranges last_on].
  - assert (s < d) by (apply (Hs s (d, p)); [done|left]).
    destruct (is_zero p) eqn:Ez; simpl.
    + rewrite covers_cons, IH by done. simpl. destruct (Z.leb_spec d x).
      * split; [intros [?|[??]]; [lia|split; [done|split; [lia|done]]]|]. intros (? & ? & ?). by right.
      * rewrite last_on_before by (intros r Hr; specialize (Hlt r Hr); lia).
        split; [intros [?|[??]]; [split; [lia|split; [lia|done]]|done]|]. intros (? & ? & ?). left. lia.
    + rewrite IH; [|done|done|].
      2: { intros ? r [= <-] Hr. specialize (Hlt r Hr). lia. }
      destruct (Z.leb_spec d x); [done|].
      by rewrite last_on_before by (intros r Hr; specialize (Hlt r Hr); lia).
  - destruct (is_zero p) eqn:Ez; simpl.
    + rewrite IH by done. destruct (Z.leb_spec d x); [done|].
      by rewrite last_on_before by (intros r Hr; specialize (Hlt r Hr); lia).
    + rewrite IH; [|done|done|].
      2: { intros ? r [= <-] Hr. by apply Hlt. }
      destruct (Z.leb_spec d x); [intuition|]. split; [|by intros [_ ?]]. intros (_ & ? & _). lia.
Qed.

Lemma scan_canonical today rows start :
  dated rows → (∀ r, r ∈ rows → r.1 ≤ today) → (∀ s r, start = Some s → r ∈ rows → s < r.1) →
  (∀ s, start = Some s → s ≤ today) →
  canonical (scan_ranges (open_before today true) start rows) ∧
  ∀ g, g ∈ scan_ranges (open_before today true) start rows →
    match start with Some s => s ≤ From g | None => ∃ r, r ∈ rows ∧ r.1 ≤ From g end.
Proof.
  revert start. induction rows as [|[d p] rows IH]; intros start Hd Ht Hs Hst.
  { destruct start as [s|]; simpl; [|split; [constructor|set_solver]].
    specialize (Hst s eq_refl). split; [constructor; unfold nonempty; simpl; lia|].
    intros g ->%list_elem_of_singleton. done. }
  apply dated_cons in Hd as [Hd Hlt].
  assert (Ht' : ∀ r, r ∈ rows → r.1 ≤ today) by (intros; apply Ht; by right).
  assert (Hdt : d ≤ today) by (apply (Ht (d, p)); left).
  destruct start as [s|]; cbn [scan_ranges].
  - assert (s < d) by (apply (Hs s (d, p)); [done|left]).
    destruct (is_zero p).
    + destruct (IH None) as [Hc Hg]; [done..|].
      split.
      * apply (canonical_app [_]); [by constructor|done|].
        intros a b ->%list_elem_of_singleton Hb. apply Hg in Hb as (r & Hr & ?). specialize (Hlt r Hr). simpl. lia.
      * intros g [->|Hin]%elem_of_cons; [done|]. apply Hg in Hin as (r & Hr & ?). specialize (Hlt r Hr). lia.
    + apply IH; [done|done| |done]. intros ? r [= <-] Hr. specialize (Hlt r Hr). lia.
  - destruct (is_zero p).
    + destruct (IH None) as [Hc Hg]; [done..|]. split; [done|]. intros g (r & ? & ?)%Hg. exists r. split; [by right|done].
    + destruct (IH (Some d)) as [Hc Hg]; [done|done| | |].
      { intros ? r [= <-] Hr. by apply Hlt. } { by intros ? [= <-]. }
      split; [done|]. intros g Hin. exists (d, p). split; [left|]. by apply Hg.
Qed.

Lemma last_on_greatest b rows x :
  dated rows →
  (last_on b rows x = b ∧ ∀ r, r ∈ rows → x < r.1) ∨
  ∃ r, r ∈ rows ∧ r.1 ≤ x ∧ (∀ r', r' ∈ rows → r'.1 ≤ x → r'.1 ≤ r.1) ∧
    last_on b rows x = negb (is_zero r.2).
Proof.
  revert b. induction rows as [|[d p] rows IH]; intros b Hd; simpl.
  { left. split; [done|]. by intros r ?%elem_of_nil. }
  apply dated_cons in Hd as [Hd Hlt]. destruct (Z.leb_spec d x).
  - right. destruct (IH (negb (is_zero p)) Hd) as [[E Hx]|(r & Hr & ? & Hmax & E)].
    + exists (d, p). split_and!; [left|done| |done].
      intros r' [->|Hr']%elem_of_cons ?; [done|]. specialize (Hx r' Hr'). lia.
    + exists r. split_and!; [by right|done| |done].
      intros r' [->|Hr']%elem_of_cons ?; [|by apply Hmax]. specialize (Hlt r Hr). simpl. lia.
  - left. split; [done|]. intros r [->|Hr]%elem_of_cons; [done|]. specialize (Hlt r Hr). lia.
Qed.

Lemma dated_dated_rows txs i : dated (dated_rows txs i).
Proof.
  unfold dated, dated_rows. rewrite <- list_fmap_compose.
  assert (fst ∘ (λ d, (d, eod_pos txs i d)) <$> tx_dates txs i = tx_dates txs i) as ->.
  { by rewrite list_fmap_id. }
  apply tx_dates_sorted.
Qed.

Lemma elem_of_dated_rows txs i r :
  r ∈ dated_rows txs i ↔ r.1 ∈ tx_dates txs i ∧ r.2 = eod_pos txs i r.1.
Proof.
  unfold dated_rows. rewrite list_elem_of_fmap. split; [by intros (d & -> & ?)|].
  intros [? E]. exists r.1. destruct r; simpl in *. by subst.
Qed.

Lemma position_same txs i x y :
  x ≤ y → (∀ d, d ∈ tx_dates txs i → d ≤ y → d ≤ x) → position txs i x = position txs i y.
Proof.
  intros Hxy Hd. unfold position. do 2 f_equal. apply filter_ext_in. intros t Ht.
  split; intros [Hh ?]; (split; [done|]); [lia|]. apply Hd; [|done]. apply elem_of_tx_dates. by exists t.
Qed.

(** The last row up to a day says whether the instrument is held on it. *)
Lemma last_on_held txs i x : last_on false (dated_rows txs i) x = true ↔ held txs i x.
Proof.
  unfold held. destruct (last_on_greatest false _ x (dated_dated_rows txs i))
    as [[-> Hx]|(r & [Hr E2]%elem_of_dated_rows & Hle & Hmax & ->)].
  - assert (position txs i x = dec_zero) as ->.
    { unfold position. rewrite (filter_ext_in _ (λ _, False) txs).
      - by assert (filter (λ _ : tx D, False) txs = []) as -> by (clear; induction txs; done).
      - intros t Ht. split; [|done]. intros [Hh ?].
        assert (x < tx_day t); [|lia]. apply (Hx (tx_day t, eod_pos txs i (tx_day t))).
        apply elem_of_dated_rows. split; [|done]. apply elem_of_tx_dates. by exists t. }
    rewrite dval_zero. split; [done|]. intros []. reflexivity.
  - rewrite <- (position_same txs i r.1 x Hle).
    + rewrite <- eod_pos_position, <- E2, negb_true_iff, <- not_true_iff_false, is_zero_eq. done.
    + intros d Hd Hdx. apply (Hmax (d, eod_pos txs i d)); [|done]. by apply elem_of_dated_rows.
Qed.

(** The ranges a result gives an instrument. *)
Definition ranges_for (l : list InstrumentDateRanges) (i : string) (x : Z) : Prop :=
  ∃ e, e ∈ l ∧ InstrumentID e = i ∧ covers (Ranges e) x.

Lemma elem_of_entry e i rs : e ∈ entry i rs ↔ rs ≠ [] ∧ e = {| InstrumentID := i; Ranges := rs |}.
Proof.
  destruct rs; simpl; [rewrite elem_of_nil; naive_solver|]. rewrite list_elem_of_singleton. naive_solver.
Qed.

Definition dated_by (today : Z) txs : Prop := ∀ t, t ∈ txs → tx_day t ≤ today.

Lemma dated_rows_by today txs i r : dated_by today txs → r ∈ dated_rows txs i → r.1 ≤ today.
Proof. intros Ht [(t & ? & _ & <-)%elem_of_tx_dates _]%elem_of_dated_rows. by apply Ht. Qed.

Lemma held_ranges_spec today txs i x :
  dated_by today txs →
  ranges_for (HeldRanges today true txs) i x ↔ x ≤ today ∧ held txs i x.
Proof.
  intros Ht. rewrite held_ranges_eq, <- last_on_held.
  pose proof (scan_covers today (dated_rows txs i) None x (dated_dated_rows txs i)
    (λ r, dated_rows_by today txs i r Ht) ltac:(done)) as Hcov. simpl in Hcov.
  rewrite <- Hcov. split.
  - intros (e & (j & [_ ->]%elem_of_entry & _)%elem_of_bind & <- & Hc). done.
  - intros Hc. exists {| InstrumentID := i; Ranges := scan_ranges (open_before today true) None (dated_rows txs i) |}.
    split; [|done]. apply elem_of_bind. exists i. split; [apply elem_of_entry; split; [|done]|].
    + intros E. rewrite E in Hc. by apply covers_nil in Hc.
    + apply elem_of_held_instruments. apply Hcov in Hc as [_ Hc].
      destruct (last_on_greatest false _ x (dated_dated_rows txs i))
        as [[E _]|(r & [(t & ? & ? & _)%elem_of_tx_dates _]%elem_of_dated_rows & _)]; [congruence|].
      by exists t.
Qed.

Lemma held_ranges_canonical today txs e :
  dated_by today txs → e ∈ HeldRanges today true txs → canonical (Ranges e) ∧ Ranges e ≠ [].
Proof.
  intros Ht. rewrite held_ranges_eq. intros (i & [Hne ->]%elem_of_entry & _)%elem_of_bind.
  split; [|done]. apply scan_canonical; [apply dated_dated_rows| |done|done].
  intros r. by apply dated_rows_by.
Qed.

Lemma held_ranges_ids today ext txs : NoDup (InstrumentID <$> HeldRanges today ext txs).
Proof.
  rewrite held_ranges_eq.
  assert (NoDup (held_instruments txs)) as Hnd.
  { unfold held_instruments. rewrite sort_strings_perm. apply NoDup_remove_dups. }
  revert Hnd. generalize (held_instruments txs). induction l as [|i l IH]; intros Hnd; [constructor|].
  apply NoDup_cons in Hnd as [Hi Hnd]. cbn. rewrite fmap_app. apply NoDup_app. split_and!.
  - unfold entry. case_match; [constructor|]. apply NoDup_singleton.
  - intros j (e & -> & [_ ->]%elem_of_entry)%list_elem_of_fmap
      (e' & E & (k & [_ ->]%elem_of_entry & Hk)%elem_of_bind)%list_elem_of_fmap.
    simpl in E. by subst k.
  - by apply IH.
Qed.
End held_proofs.

(** ** Gaps *)

Lemma foldl_insert_lookup {A V} (k : A → string) (v : A → V) l (m : gmap string V) i :
  NoDup (k <$> l) →
  foldl (λ m a, <[k a := v a]> m) m l !! i =
  match list_find (λ a, k a = i) l with Some (_, a) => Some (v a) | None => m !! i end.
Proof.
  revert m. induction l as [|a l IH]; intros m Hnd; [done|].
  rewrite fmap_cons in Hnd. apply NoDup_cons in Hnd as [Ha Hnd]. simpl. rewrite IH by done.
  destruct (decide (k a = i)) as [<-|Hi].
  - destruct (list_find _ l) as [[j b]|] eqn:E; simpl.
    + apply list_find_Some in E as (Hb & Eb & _). apply list_elem_of_lookup_2 in Hb.
      destruct Ha. apply list_elem_of_fmap. by exists b.
    + by rewrite lookup_insert_eq.
  - rewrite lookup_insert_ne by done. destruct (list_find _ l) as [[j b]|]; done.
Qed.

Lemma covers_instrument_spans_nil id table x :
  id ∉ (cv_instrument <$> table) → ¬ covers (instrument_spans id table) x.
Proof.
  intros Hn (r & (s & _ & [<- Hs]%list_elem_of_filter)%list_elem_of_fmap & _).
  apply Hn. apply list_elem_of_fmap. by exists s.
Qed.

Section gaps.
Context (table : list row).
Hypothesis nonempty_rows : ∀ s, s ∈ table → nonempty (cv_range s).

Lemma instrument_spans_nonempty id r : r ∈ instrument_spans id table → nonempty r.
Proof. intros (s & -> & [_ Hs]%list_elem_of_filter)%list_elem_of_fmap. by apply nonempty_rows. Qed.

(** What the index answers for an id that was asked for. *)
Lemma coverage_lookup ids id :
  id ∈ ids →
  let cached := default [] (coverageByInst (PriceCoverage table ids) !! id) in
  canonical cached ∧ ∀ x, covers cached x ↔ covers (instrument_spans id table) x.
Proof.
  intros Hid. unfold coverageByInst. rewrite (foldl_insert_lookup InstrumentID Ranges).
  - unfold PriceCoverage.
    destruct (list_find _ _) as [[j c]|] eqn:E; simpl.
    + apply list_find_Some in E as (Hc & <- & _). apply list_elem_of_lookup_2 in Hc.
      apply list_elem_of_fmap in Hc as (k & -> & _). simpl. unfold merged_price_coverage.
      split; [|apply merge_covers]. apply merge_canonical. apply instrument_spans_nonempty.
    + rewrite lookup_empty. split; [constructor|]. intros x. split; [by intros ?%covers_nil|].
      intros Hc. exfalso. revert Hc. apply covers_instrument_spans_nil. intros Hin.
      apply list_find_None in E. rewrite Forall_forall in E.
      apply (E {| InstrumentID := id; Ranges := merged_price_coverage table id |}); [|done].
      apply list_elem_of_fmap. exists id. split; [done|]. apply list_elem_of_filter. split; [by right|].
      by rewrite sort_strings_perm, elem_of_remove_dups.
  - unfold PriceCoverage. rewrite <- list_fmap_compose.
    assert (∀ l, InstrumentID ∘ (λ id, {| InstrumentID := id; Ranges := merged_price_coverage table id |}) <$> l = l) as ->.
    { intros l. by rewrite list_fmap_id. }
    apply NoDup_filter. rewrite sort_strings_perm. apply NoDup_remove_dups.
Qed.

Lemma gaps_of_spec needed cached i x :
  (∀ e, e ∈ needed → canonical (Ranges e) ∧ canonical (default [] (cached !! InstrumentID e))) →
  (ranges_for (gaps_of needed cached) i x ↔
   ranges_for needed i x ∧ ¬ covers (default [] (cached !! i)) x) ∧
  ∀ e, e ∈ gaps_of needed cached → canonical (Ranges e) ∧ Ranges e ≠ [].
Proof.
  intros Hc. unfold gaps_of. split; [split|].
  - intros (e & (h & Hin & Hh)%elem_of_bind & <- & Hx). destruct (Hc h Hh) as [Hc1 Hc2].
    destruct (subtract_spec _ _ Hc1 Hc2) as [Hcov _].
    simpl in Hin. destruct (_ <? _)%nat; [|by apply elem_of_nil in Hin].
    apply list_elem_of_singleton in Hin as ->. simpl in *. apply Hcov in Hx as [? ?]. split; [by exists h|done].
  - intros [(h & Hh & <- & Hx) Hn]. destruct (Hc h Hh) as [Hc1 Hc2].
    destruct (subtract_spec _ _ Hc1 Hc2) as [Hcov _].
    pose proof (proj2 (Hcov x) (conj Hx Hn)) as Hg.
    exists {| InstrumentID := InstrumentID h; Ranges := SubtractRanges (Ranges h) (default [] (cached !! InstrumentID h)) |}.
    split; [|done]. apply elem_of_bind. exists h. split; [|done]. simpl.
    destruct (SubtractRanges _ _) as [|g gs]; [by apply covers_nil in Hg|]. by left.
  - intros e (h & Hin & Hh)%elem_of_bind. destruct (Hc h Hh) as [Hc1 Hc2]. simpl in Hin.
    destruct (SubtractRanges _ _) as [|g gs] eqn:E; [by apply elem_of_nil in Hin|].
    apply list_elem_of_singleton in Hin as ->. simpl. rewrite <- E. split; [by apply subtract_spec|].
    by rewrite E.
Qed.

(** Gaps against the coverage read for the ids that need something. *)
Lemma coverage_gaps_spec needed i x :
  (∀ e, e ∈ needed → canonical (Ranges e)) →
  let gaps := gaps_of needed (coverageByInst (PriceCoverage table (InstrumentID <$> needed))) in
  (ranges_for gaps i x ↔ ranges_for needed i x ∧ ¬ covers (instrument_spans i table) x) ∧
  ∀ e, e ∈ gaps → canonical (Ranges e) ∧ Ranges e ≠ [].
Proof.
  intros Hc gaps. destruct (gaps_of_spec needed (coverageByInst (PriceCoverage table (InstrumentID <$> needed))) i x)
    as [Hg Hn].
  { intros e He. split; [by apply Hc|]. apply coverage_lookup. apply list_elem_of_fmap. by exists e. }
  split; [|done]. unfold gaps. rewrite Hg.
  split; intros [Hx Hno]; (split; [done|]); destruct Hx as (e & He & <- & _).
  all: rewrite (proj2 (coverage_lookup (InstrumentID <$> needed) (InstrumentID e)
    ltac:(apply list_elem_of_fmap; by exists e)) x) in *; done.
Qed.
End gaps.

(** ** Demand for FX rates *)

Lemma foldl_insert_Some {A V} (k : A → string) (v : A → V) l (m : gmap string V) i w :
  foldl (λ m a, <[k a := v a]> m) m l !! i = Some w →
  m !! i = Some w ∨ ∃ a, a ∈ l ∧ k a = i ∧ v a = w.
Proof.
  revert m. induction l as [|a l IH]; intros m; simpl; [by left|]. intros [E|(b & ? & ? & ?)]%IH.
  - destruct (decide (k a = i)) as [<-|?].
    + rewrite lookup_insert_eq in E. injection E as <-. right. exists a. split; [left|done].
    + rewrite lookup_insert_ne in E by done. by left.
  - right. exists b. split; [by right|done].
Qed.

Lemma foldl_insert_is_Some {A V} (k : A → string) (v : A → V) l (m : gmap string V) i :
  is_Some (m !! i) ∨ (∃ a, a ∈ l ∧ k a = i) → is_Some (foldl (λ m a, <[k a := v a]> m) m l !! i).
Proof.
  revert m. induction l as [|a l IH]; intros m; simpl; [by intros [?|(a & ?%elem_of_nil & _)]|].
  intros Hd. apply IH. destruct (decide (k a = i)) as [<-|?].
  - left. rewrite lookup_insert_eq. by eexists.
  - rewrite lookup_insert_ne by done. destruct Hd as [?|(b & [->|?]%elem_of_cons & ?)]; [by left|done|].
    right. by exists b.
Qed.

Definition in_map (m : gmap string (list DateRange)) (i : string) (r : DateRange) : Prop :=
  r ∈ default [] (m !! i).

Lemma in_map_append m k rs i r : in_map (append_ranges m k rs) i r ↔ in_map m i r ∨ (i = k ∧ r ∈ rs).
Proof.
  unfold in_map, append_ranges. destruct (decide (i = k)) as [->|?].
  - rewrite lookup_insert_eq. simpl. rewrite elem_of_app. tauto.
  - rewrite lookup_insert_ne by done. tauto.
Qed.

Lemma in_map_fold {A} (step : gmap string (list DateRange) → A → gmap string (list DateRange))
    (P : A → Prop) i r l m :
  (∀ m a, a ∈ l → in_map (step m a) i r ↔ in_map m i r ∨ P a) →
  in_map (foldl step m l) i r ↔ in_map m i r ∨ ∃ a, a ∈ l ∧ P a.
Proof.
  revert m. induction l as [|a l IH]; intros m Hs; simpl.
  { split; [by left|]. by intros [?|(a & ?%elem_of_nil & _)]. }
  rewrite IH by (intros; apply Hs; by right). rewrite Hs by left. split.
  - intros [[?|?]|(b & ? & ?)]; [by left|right; exists a; split; [left|done]|right; exists b; split; [by right|done]].
  - intros [?|(b & [->|?]%elem_of_cons & ?)]; [by left; left|by left; right|right; by exists b].
Qed.

Section fx.
Context (instruments : list instrument) (identifiers : list identifier) (user_currencies : list string).

(** The keys of the two tables: one row per instrument, one current FX pair per value. *)
Definition fx_keys : Prop :=
  NoDup (in_id <$> instruments) ∧
  ∀ v ii ii', ii ∈ identifiers → ii' ∈ identifiers → current_pair v ii = true →
    current_pair v ii' = true → ii_instrument ii = ii_instrument ii'.

(** [pair_of c i]: [i] is the instrument of the rate of [c] against the dollar. *)
Definition pair_of (c i : string) : Prop :=
  ∃ ii, ii ∈ identifiers ∧ current_pair (c +:+ "USD") ii = true ∧ ii_instrument ii = i.

Definition in_currency_of (h c : string) : Prop :=
  ∃ n, n ∈ instruments ∧ in_id n = h ∧ in_currency n = Some c.

Lemma elem_of_fx_rows ids h c i :
  (h, c, i) ∈ fx_rows instruments identifiers ids ↔
  h ∈ ids ∧ c ≠ "USD" ∧ in_currency_of h c ∧ pair_of c i.
Proof.
  unfold fx_rows, in_currency_of, pair_of. rewrite elem_of_bind. split.
  - intros (n & Hin & Hn). destruct (in_currency n) as [c'|] eqn:Ec; [|by apply elem_of_nil in Hin].
    destruct (bool_decide _ && negb _) eqn:Eb; [|by apply elem_of_nil in Hin].
    apply andb_true_iff in Eb as [?%bool_decide_eq_true Hu%negb_true_iff%String.eqb_neq].
    apply list_elem_of_fmap in Hin as (ii & [= -> -> ->] & [? ?]%list_elem_of_filter).
    split_and!; [done..|by exists n|by exists ii].
  - intros (Hh & Hu & (n & Hn & <- & Ec) & (ii & ? & ? & <-)). exists n. split; [|done]. rewrite Ec.
    rewrite bool_decide_true by done. apply String.eqb_neq in Hu. rewrite Hu. simpl.
    apply list_elem_of_fmap. exists ii. split; [done|]. by apply list_elem_of_filter.
Qed.

Hypothesis keys : fx_keys.

Lemma in_currency_unique h c c' : in_currency_of h c → in_currency_of h c' → c = c'.
Proof.
  intros (n & Hn & E & Ec) (n' & Hn' & E' & Ec').
  assert (n = n') as <- by (eapply (NoDup_fmap_inj_in in_id); [apply keys|done..|congruence]). congruence.
Qed.

Lemma pair_unique c i i' : pair_of c i → pair_of c i' → i = i'.
Proof. intros (ii & ? & ? & <-) (ii' & ? & ? & <-). by eapply keys. Qed.

(** What [heldToFX] and [heldToCurrency] answer. *)
Lemma held_to_fx ids h i :
  heldToFX (fx_rows instruments identifiers ids) !! h = Some i
  ↔ ∃ c, (h, c, i) ∈ fx_rows instruments identifiers ids.
Proof.
  unfold heldToFX. split.
  - intros [?|([[h' c] i'] & Hr & <- & <-)]%(foldl_insert_Some (λ r : string * string * string, r.1.1) snd); [done|].
    by exists c.
  - intros (c & Hr). destruct (foldl_insert_is_Some (λ r : string * string * string, r.1.1) snd
      (fx_rows instruments identifiers ids) ∅ h) as [i' E]; [right; by eexists|]. rewrite E. f_equal.
    apply (foldl_insert_Some (λ r : string * string * string, r.1.1) snd) in E
      as [?|([[h' c'] i''] & Hr' & E1 & E2)]; [done|]. simpl in *. subst h' i''.
    apply elem_of_fx_rows in Hr as (_ & _ & Hc & Hp). apply elem_of_fx_rows in Hr' as (_ & _ & Hc' & Hp').
    pose proof (in_currency_unique _ _ _ Hc Hc') as <-. by eapply pair_unique.
Qed.

Lemma held_to_currency ids h c :
  heldToCurrency (fx_rows instruments identifiers ids) !! h = Some c
  ↔ ∃ i, (h, c, i) ∈ fx_rows instruments identifiers ids.
Proof.
  unfold heldToCurrency. split.
  - intros [?|([[h' c'] i'] & Hr & <- & <-)]%(foldl_insert_Some (λ r : string * string * string, r.1.1) (λ r, r.1.2)); [done|].
    by exists i'.
  - intros (i & Hr). destruct (foldl_insert_is_Some (λ r : string * string * string, r.1.1) (λ r, r.1.2)
      (fx_rows instruments identifiers ids) ∅ h) as [c' E]; [right; by eexists|]. rewrite E. f_equal.
    apply (foldl_insert_Some (λ r : string * string * string, r.1.1) (λ r, r.1.2)) in E
      as [?|([[h' c''] i''] & Hr' & E1 & E2)]; [done|]. simpl in *. subst h' c''.
    apply elem_of_fx_rows in Hr as (_ & _ & Hc & _). apply elem_of_fx_rows in Hr' as (_ & _ & Hc' & _).
    by eapply in_currency_unique.
Qed.

Lemma current_pair_value v ii : current_pair v ii = true → ii_value ii = v.
Proof. unfold current_pair. rewrite !andb_true_iff. by intros [[_ ?%String.eqb_eq] _]. Qed.

Lemma display_pair values c i :
  (c +:+ "USD") ∈ values →
  foldl (λ (m : gmap string string) ii, <[ii_value ii := ii_instrument ii]> m) ∅
    (filter (λ ii, existsb (λ v, current_pair v ii) values = true) identifiers) !! (c +:+ "USD") = Some i
  ↔ pair_of c i.
Proof.
  intros Hv. assert (Hin : ∀ ii, ii ∈ filter (λ ii, existsb (λ v, current_pair v ii) values = true) identifiers →
    ii_value ii = c +:+ "USD" → ii ∈ identifiers ∧ current_pair (c +:+ "USD") ii = true).
  { intros ii [(v & _ & Hc)%existsb_exists ?]%list_elem_of_filter E.
    pose proof (current_pair_value _ _ Hc). by replace (c +:+ "USD") with v by congruence. }
  assert (Hin' : ∀ ii, ii ∈ identifiers → current_pair (c +:+ "USD") ii = true →
    ii ∈ filter (λ ii, existsb (λ v, current_pair v ii) values = true) identifiers).
  { intros ii ? ?. apply list_elem_of_filter. split; [|done]. apply existsb_exists.
    exists (c +:+ "USD"). split; [by apply list_elem_of_In|done]. }
  split.
  - intros [?|(ii & Hii & E & <-)]%(foldl_insert_Some ii_value ii_instrument); [done|].
    exists ii. destruct (Hin ii Hii E). done.
  - intros (ii & ? & Hc & <-). destruct (foldl_insert_is_Some ii_value ii_instrument
      (filter (λ ii, existsb (λ v, current_pair v ii) values = true) identifiers) ∅ (c +:+ "USD")) as [i' E].
    { right. exists ii. split; [by apply Hin'|]. by apply current_pair_value. }
    rewrite E. f_equal. apply (foldl_insert_Some ii_value ii_instrument) in E as [?|(ii' & Hii' & E' & <-)]; [done|].
    destruct (Hin ii' Hii' E'). by eapply keys.
Qed.

(** Why the rate [i] is wanted while instrument [h] is held: it converts the currency
    of [h], or a user's display currency that is not the currency of [h]. *)
Definition wants (h i : string) : Prop :=
  (∃ c, c ≠ "USD" ∧ in_currency_of h c ∧ pair_of c i) ∨
  (∃ dc, dc ∈ user_currencies ∧ dc ≠ "USD" ∧ pair_of dc i ∧ ¬ in_currency_of h dc).

Lemma fx_needed_spec held i r :
  in_map (fx_needed instruments identifiers user_currencies held) i r ↔
  ∃ h, h ∈ held ∧ r ∈ Ranges h ∧ wants (InstrumentID h) i.
Proof.
  unfold fx_needed, addDisplayCurrencyNeeds.
  set (toFX := heldToFX _). set (toC := heldToCurrency _).
  set (dcs := remove_dups _). set (pairs := foldl _ ∅ (filter _ identifiers)).
  assert (HFX : ∀ h, h ∈ held → toFX !! InstrumentID h = Some i ↔
    ∃ c, c ≠ "USD" ∧ in_currency_of (InstrumentID h) c ∧ pair_of c i).
  { intros h Hh. unfold toFX. rewrite held_to_fx. setoid_rewrite elem_of_fx_rows.
    assert (InstrumentID h ∈ InstrumentID <$> held) by (apply list_elem_of_fmap; by exists h). naive_solver. }
  assert (Hdc : ∀ dc, dc ∈ dcs ↔ dc ∈ user_currencies ∧ dc ≠ "USD").
  { intros dc. unfold dcs. rewrite elem_of_remove_dups, list_elem_of_filter. tauto. }
  assert (HP : ∀ dc, dc ∈ dcs → pairs !! (dc +:+ "USD") = Some i ↔ pair_of dc i).
  { intros dc Hin. apply display_pair. apply list_elem_of_fmap. by exists dc. }
  assert (HC : ∀ h dc, h ∈ held → dc ∈ dcs → pair_of dc i →
    toC !! InstrumentID h = Some dc ↔ in_currency_of (InstrumentID h) dc).
  { intros h dc Hh [_ Hu]%Hdc Hp. unfold toC. rewrite held_to_currency. setoid_rewrite elem_of_fx_rows.
    assert (InstrumentID h ∈ InstrumentID <$> held) by (apply list_elem_of_fmap; by exists h). naive_solver. }
  rewrite (in_map_fold _ (λ dc, pair_of dc i ∧ ∃ h, h ∈ held ∧ r ∈ Ranges h ∧ ¬ in_currency_of (InstrumentID h) dc)).
  2: { intros m dc Hin. destruct (pairs !! (dc +:+ "USD")) as [fx|] eqn:E.
    2: { split; [by left|]. intros [?|[Hp _]]; [done|]. apply HP in Hp; [|done]. congruence. }
    rewrite (in_map_fold _ (λ h, i = fx ∧ r ∈ Ranges h ∧ toC !! InstrumentID h ≠ Some dc)).
    - assert (i = fx ↔ pair_of dc i) as Hfx by (rewrite <- HP, E by done; naive_solver).
      split; (intros [?|Hr]; [by left|right]).
      + destruct Hr as (h & Hh & Hi & ? & Hn). apply Hfx in Hi. split; [done|]. exists h. by rewrite HC in Hn.
      + destruct Hr as (Hp & h & Hh & ? & Hn). exists h. rewrite HC by done. by rewrite Hfx.
    - intros m' h Hh. case_bool_decide; [naive_solver|]. rewrite in_map_append. naive_solver. }
  rewrite (in_map_fold _ (λ h, r ∈ Ranges h ∧ toFX !! InstrumentID h = Some i)).
  2: { intros m h Hh. destruct (toFX !! InstrumentID h) as [fx|]; [|naive_solver].
    rewrite in_map_append. naive_solver. }
  assert (¬ in_map ∅ i r) as He by (unfold in_map; rewrite lookup_empty; apply not_elem_of_nil).
  unfold wants. split.
  - intros [[?|(h & Hh & ? & Hf)]|(dc & [Hu Hn]%Hdc & Hp & h & Hh & ? & ?)]; [done| |].
    + exists h. split_and!; [done..|]. left. by apply HFX.
    + exists h. split_and!; [done..|]. right. by exists dc.
  - intros (h & Hh & Hr & [Hc|(dc & Hu & Hn & Hp & Hc)]).
    + left. right. exists h. split_and!; [done..|]. by apply HFX.
    + right. exists dc. split; [by apply Hdc|]. split; [done|]. by exists h.
Qed.
End fx.

(** ** The properties *)

Section results.
Context {D : Type} `{DecimalLaws D}.
Implicit Types txs : list (tx D).

(** Held ranges.  With positions extended to today and no transaction dated later,
    the ranges [HeldRanges] returns for an instrument cover exactly the days, up to
    today, at whose end the quantities transacted so far do not sum to zero; they are
    in order with a gap between any two, and each instrument appears once. *)
Theorem held_ranges_correct today txs :
  dated_by today txs →
  (∀ i x, ranges_for (HeldRanges today true txs) i x ↔ x ≤ today ∧ held txs i x) ∧
  (∀ e, e ∈ HeldRanges today true txs → canonical (Ranges e) ∧ Ranges e ≠ []) ∧
  NoDup (InstrumentID <$> HeldRanges today true txs).
Proof.
  intros Ht. split_and!.
  - intros i x. by apply held_ranges_spec.
  - intros e. by apply held_ranges_canonical.
  - apply held_ranges_ids.
Qed.

Lemma price_gaps_spec today txs table i x :
  dated_by today txs → (∀ s, s ∈ table → nonempty (cv_range s)) →
  (ranges_for (PriceGaps today true txs table) i x ↔
    (x ≤ today ∧ held txs i x) ∧ ¬ covers (instrument_spans i table) x) ∧
  ∀ e, e ∈ PriceGaps today true txs table → canonical (Ranges e) ∧ Ranges e ≠ [].
Proof.
  intros Ht Hne. rewrite <- held_ranges_spec by done. unfold PriceGaps.
  assert (Hc : ∀ e, e ∈ HeldRanges today true txs → canonical (Ranges e)).
  { intros e He. by eapply held_ranges_canonical. }
  destruct (HeldRanges today true txs) as [|e0 l] eqn:E; [|by apply coverage_gaps_spec].
  split; [|by intros e ?%elem_of_nil]. unfold ranges_for. split.
  - by intros (e & ?%elem_of_nil & _).
  - by intros [(e & ?%elem_of_nil & _) _].
Qed.

(** C4: price gaps.  A day is in the gaps of an instrument exactly when it is held at
    the end of that day and no plugin has answered for it, so a fetch that covers the
    gaps leaves none, and never asks twice. *)
Theorem price_gaps_correct today txs table :
  dated_by today txs → (∀ s, s ∈ table → nonempty (cv_range s)) →
  (∀ i x, ranges_for (PriceGaps today true txs table) i x ↔
    x ≤ today ∧ held txs i x ∧ ¬ ∃ plugin, covers (spans_of i plugin table) x) ∧
  ∀ e, e ∈ PriceGaps today true txs table → canonical (Ranges e) ∧ Ranges e ≠ [].
Proof.
  intros Ht Hne. split; [|apply (price_gaps_spec today txs table EmptyString 0 Ht Hne)].
  intros i x. rewrite (proj1 (price_gaps_spec today txs table i x Ht Hne)).
  assert (covers (instrument_spans i table) x ↔ ∃ plugin, covers (spans_of i plugin table) x) as ->; [|tauto].
  unfold instrument_spans. setoid_rewrite covers_spans_of. split.
  - intros (r & (s & -> & [Hi Hs]%list_elem_of_filter)%list_elem_of_fmap & ?).
    exists (cv_plugin s), s. by rewrite of_pair_spec.
  - intros (p & s & Hs & [Hi _]%of_pair_spec & ?). exists (cv_range s). split; [|done].
    apply list_elem_of_fmap. exists s. split; [done|]. by apply list_elem_of_filter.
Qed.

(** The list [FXGaps] makes of the map of needs, and the days it stands for. *)
Definition needed_list (m : gmap string (list DateRange)) : list InstrumentDateRanges :=
  (λ '(fxID, rs), {| InstrumentID := fxID; Ranges := rs |}) <$> map_to_list (MergeRanges <$> m).

Lemma elem_of_needed_list m e :
  e ∈ needed_list m ↔ ∃ rs, m !! InstrumentID e = Some rs ∧ Ranges e = MergeRanges rs.
Proof.
  destruct e as [j rs]. unfold needed_list. rewrite list_elem_of_fmap. simpl. split.
  - intros ([k rs'] & [= -> ->] & Hin%elem_of_map_to_list). rewrite lookup_fmap in Hin.
    destruct (m !! k) as [rs|]; [|done]. injection Hin as <-. by exists rs.
  - intros (rs' & E & ->). exists (j, MergeRanges rs'). split; [done|].
    apply elem_of_map_to_list. by rewrite lookup_fmap, E.
Qed.

Lemma needed_list_ranges m i x :
  ranges_for (needed_list m) i x ↔ ∃ r, in_map m i r ∧ From r ≤ x < Before r.
Proof.
  split.
  - intros (e & (rs & E & Er)%elem_of_needed_list & <- & Hc). rewrite Er, merge_covers in Hc.
    destruct Hc as (r & Hr & ?). exists r. split; [|done]. unfold in_map. by rewrite E.
  - intros (r & Hr & Hx). unfold in_map in Hr. destruct (m !! i) as [rs|] eqn:E; [|by apply elem_of_nil in Hr].
    exists {| InstrumentID := i; Ranges := MergeRanges rs |}.
    split; [apply elem_of_needed_list; by exists rs|]. split; [done|]. apply merge_covers. by exists r.
Qed.

Lemma needed_list_canonical m :
  (∀ i r, in_map m i r → nonempty r) → ∀ e, e ∈ needed_list m → canonical (Ranges e).
Proof.
  intros Hne e (rs & E & ->)%elem_of_needed_list. apply merge_canonical. intros r Hr.
  apply (Hne (InstrumentID e)). unfold in_map. by rewrite E.
Qed.

Lemma wanted_days today txs instruments identifiers user_currencies i x :
  dated_by today txs → fx_keys instruments identifiers →
  (∃ r, in_map (fx_needed instruments identifiers user_currencies (HeldRanges today true txs)) i r ∧
    From r ≤ x < Before r) ↔
  x ≤ today ∧ ∃ h, held txs h x ∧ wants instruments identifiers user_currencies h i.
Proof.
  intros Ht Hk. split.
  - intros (r & (h & Hh & Hr & Hw)%fx_needed_spec & Hx); [|done].
    assert (ranges_for (HeldRanges today true txs) (InstrumentID h) x) as Hrf
      by (exists h; split; [done|split; [done|by exists r]]).
    apply held_ranges_spec in Hrf as [? ?]; [|done]. split; [done|]. by exists (InstrumentID h).
  - intros (Hx & h & Hh & Hw).
    destruct (proj2 (held_ranges_spec today txs h x Ht) (conj Hx Hh)) as (e & He & <- & r & Hr & ?).
    exists r. split; [|done]. apply fx_needed_spec; [done|]. by exists e.
Qed.

(** FX gaps.  With one row per instrument and one current pair per value, a rate
    is asked for on exactly the days, not yet covered, on which some instrument is
    held that is quoted in the rate's currency, or that is not quoted in a user's
    display currency whose rate it is. *)
Theorem fx_gaps_correct today txs instruments identifiers user_currencies table :
  dated_by today txs → (∀ s, s ∈ table → nonempty (cv_range s)) →
  fx_keys instruments identifiers → ∀ i x,
  ranges_for (FXGaps today true txs instruments identifiers user_currencies table) i x ↔
  x ≤ today ∧ ¬ covers (instrument_spans i table) x ∧
  ∃ h, held txs h x ∧ wants instruments identifiers user_currencies h i.
Proof.
  intros Ht Hne Hk i x. unfold FXGaps. fold (needed_list (fx_needed instruments identifiers user_currencies (HeldRanges today true txs))).
  set (needed := needed_list _).
  assert (Hneed : ranges_for needed i x ↔ x ≤ today ∧ ∃ h, held txs h x ∧ wants instruments identifiers user_currencies h i).
  { unfold needed. rewrite needed_list_ranges. by apply wanted_days. }
  assert (Hcan : ∀ e, e ∈ needed → canonical (Ranges e)).
  { apply needed_list_canonical. intros j r (h & Hh & Hr & _)%fx_needed_spec; [|done].
    apply held_ranges_canonical in Hh as [Hc _]; [|done]. by eapply canonical_nonempty. }
  assert (Hgoal : ranges_for (gaps_of needed (coverageByInst (PriceCoverage table (InstrumentID <$> needed)))) i x ↔
    x ≤ today ∧ ¬ covers (instrument_spans i table) x ∧
    ∃ h, held txs h x ∧ wants instruments identifiers user_currencies h i).
  { rewrite (proj1 (coverage_gaps_spec table Hne needed i x Hcan)), Hneed. tauto. }
  destruct (HeldRanges today true txs) as [|e0 l] eqn:EH.
  { split; [by intros (e & ?%elem_of_nil & _)|]. intros (Hx & _ & h & Hh & _).
    destruct (proj2 (held_ranges_spec today txs h x Ht) (conj Hx Hh)) as (e & He & _).
    rewrite EH in He. by apply elem_of_nil in He. }
  destruct (map_to_list _) eqn:Em; [|done].
  split; [by intros (e & ?%elem_of_nil & _)|]. intros (Hx & _ & Hw). exfalso.
  assert (needed = []) as En by (unfold needed, needed_list; by rewrite Em).
  assert (ranges_for needed i x) as (e & He & _) by by apply Hneed.
  rewrite En in He. by apply elem_of_nil in He.
Qed.
End results.

(** Missing corporate-event intervals.  The intervals left to fetch are exactly the
    days from the first transaction to the end that no coverage row holds, in order and
    with a gap between any two; none when the end is not after the start. *)
Theorem missing_intervals_correct earliest endBefore coverage :
  (∀ s, s ∈ coverage → nonempty (cv_range s)) →
  (∀ x, covers (computeMissingIntervals earliest endBefore coverage) x ↔
    earliest ≤ x < endBefore ∧ ¬ ∃ s, s ∈ coverage ∧ From (cv_range s) ≤ x < Before (cv_range s)) ∧
  canonical (computeMissingIntervals earliest endBefore coverage).
Proof.
  intros Hne. unfold computeMissingIntervals. destruct (Z.ltb_spec earliest endBefore); simpl.
  - destruct (subtract_spec [{| From := earliest; Before := endBefore |}] (MergeRanges (cv_range <$> coverage)))
      as [Hcov Hcan].
    { by constructor. }
    { apply merge_canonical. intros r (s & -> & Hs)%list_elem_of_fmap. by apply Hne. }
    split; [|done]. intros x. rewrite Hcov, merge_covers, covers_cons. simpl.
    pose proof (covers_nil x). split; intros [Hx Hn]; (split; [tauto|]); intros Hc; apply Hn.
    + destruct Hc as (s & ? & ?). exists (cv_range s). split; [|done]. apply list_elem_of_fmap. by exists s.
    + destruct Hc as (r & (s & -> & ?)%list_elem_of_fmap & ?). by exists s.
  - split; [|constructor]. intros x. split; [by intros ?%covers_nil|lia].
Qed.

(** ** Concrete inputs *)

Section witnesses.
#[local] Existing Instances QDecimal.q_decimal QDecimal.q_decimal_laws.

(** Bought on day 1 and sold on day 3; bought again on day 6 and still held. *)
Definition sample_txs : list (tx Q) :=
  [ {| tx_instrument := Some "i"; tx_user := true; tx_day := 1; tx_quantity := 10%Q |};
    {| tx_instrument := Some "i"; tx_user := true; tx_day := 3; tx_quantity := (-10)%Q |};
    {| tx_instrument := Some "i"; tx_user := true; tx_day := 6; tx_quantity := 5%Q |} ].

Definition sample_table : list row :=
  [ {| cv_instrument := "i"; cv_plugin := "p"; cv_range := rng 2 4; cv_fetched := 0 |};
    {| cv_instrument := "i"; cv_plugin := "q"; cv_range := rng 7 9; cv_fetched := 0 |} ].

Lemma sample_dated : dated_by 9 sample_txs.
Proof.
  intros t Ht. unfold sample_txs in Ht. rewrite !elem_of_cons, elem_of_nil in Ht.
  destruct Ht as [->|[->|[->|[]]]]; simpl; lia.
Qed.

Lemma sample_nonempty s : s ∈ sample_table → nonempty (cv_range s).
Proof.
  intros Hs. unfold sample_table in Hs. rewrite !elem_of_cons, elem_of_nil in Hs.
  destruct Hs as [->|[->|[]]]; unfold nonempty; simpl; lia.
Qed.

Lemma sample_well_kept : well_kept sample_table.
Proof.
  split; [apply sample_nonempty|]. repeat constructor.
Qed.

Lemma upsert_coverage_span_witness :
  match upsertCoverageSpan Some 100 sample_table "i" "p" 4 6 None with
  | inr t => spans_of "i" "p" t = [rng 2 6] ∧ well_kept t
  | inl _ => False
  end.
Proof.
  pose proof (upsert_coverage_span Some 100 sample_table "i" "p" 4 6 None sample_well_kept) as Hw.
  vm_compute upsertCoverageSpan in *. split; [reflexivity|]. apply Hw.
Defined.

Lemma held_ranges_correct_witness :
  HeldRanges 9 true sample_txs = [{| InstrumentID := "i"; Ranges := [rng 1 3; rng 6 10] |}] ∧
  (9 ≤ 9 ∧ held sample_txs "i" 9).
Proof.
  split; [vm_compute; reflexivity|]. apply (held_ranges_correct 9 sample_txs sample_dated).
  exists {| InstrumentID := "i"; Ranges := [rng 1 3; rng 6 10] |}. split; [by left|]. split; [done|].
  exists (rng 6 10). split; [right; by left|]. simpl. lia.
Defined.

Lemma price_gaps_correct_witness :
  PriceGaps 9 true sample_txs sample_table =
    [{| InstrumentID := "i"; Ranges := [rng 1 2; rng 6 7; rng 9 10] |}] ∧
  ¬ ∃ plugin, covers (spans_of "i" plugin sample_table) 6.
Proof.
  split; [vm_compute; reflexivity|].
  apply (proj1 (price_gaps_correct 9 sample_txs sample_table sample_dated sample_nonempty) "i" 6).
  exists {| InstrumentID := "i"; Ranges := [rng 1 2; rng 6 7; rng 9 10] |}. split; [by left|]. split; [done|].
  exists (rng 6 7). split; [right; by left|]. simpl. lia.
Defined.

Definition sample_instruments : list instrument := [{| in_id := "i"; in_currency := Some "EUR" |}].

Definition sample_identifiers : list identifier :=
  [ {| ii_instrument := "eurusd"; ii_type := "FX_PAIR"; ii_value := "EURUSD"; ii_valid_before := None |};
    {| ii_instrument := "gbpusd"; ii_type := "FX_PAIR"; ii_value := "GBPUSD"; ii_valid_before := None |} ].

Lemma sample_keys : fx_keys sample_instruments sample_identifiers.
Proof.
  split; [apply (bool_decide_unpack _); vm_compute; exact I|].
  intros v ii ii' Hi Hi' Hc Hc'. apply current_pair_value in Hc, Hc'. subst v.
  unfold sample_identifiers in *. rewrite !elem_of_cons, elem_of_nil in Hi, Hi'.
  destruct Hi as [->|[->|[]]], Hi' as [->|[->|[]]]; done.
Qed.

Lemma fx_gaps_correct_witness :
  FXGaps 9 true sample_txs sample_instruments sample_identifiers ["GBP"; "EUR"; "USD"] [] =
    [{| InstrumentID := "gbpusd"; Ranges := [rng 1 3; rng 6 10] |};
     {| InstrumentID := "eurusd"; Ranges := [rng 1 3; rng 6 10] |}] ∧
  ∃ h, held sample_txs h 2 ∧ wants sample_instruments sample_identifiers ["GBP"; "EUR"; "USD"] h "gbpusd".
Proof.
  split; [vm_compute; reflexivity|].
  apply (fx_gaps_correct 9 sample_txs sample_instruments sample_identifiers ["GBP"; "EUR"; "USD"] []
    sample_dated ltac:(by intros s ?%elem_of_nil) sample_keys "gbpusd" 2).
  exists {| InstrumentID := "gbpusd"; Ranges := [rng 1 3; rng 6 10] |}.
  split; [vm_compute; by left|]. split; [done|].
  exists (rng 1 3). split; [by left|]. simpl. lia.
Defined.

Lemma missing_intervals_correct_witness :
  computeMissingIntervals 0 8 sample_table = [rng 0 2; rng 4 7] ∧
  canonical (computeMissingIntervals 0 8 sample_table).
Proof.
  split; [vm_compute; reflexivity|]. apply (missing_intervals_correct 0 8 sample_table sample_nonempty).
Defined.

(** Without the extension an open position is closed the day after it began, not the
    day after the last transaction that left it open. *)
Lemma held_without_extension :
  HeldRanges 9 false (sample_txs ++
    [{| tx_instrument := Some "i"; tx_user := true; tx_day := 8; tx_quantity := 1%Q |}]) =
    [{| InstrumentID := "i"; Ranges := [rng 1 3; rng 6 7] |}].
Proof. vm_compute. reflexivity. Qed.
End witnesses.
End Coverage.
