(* ===== verification/PriceStore.v ===== *)
(** * The price store

    [UpsertPrices] and [UpsertPricesForRange] of server/db/postgres/price_cache.go over
    the tables [eod_prices] and [price_coverage]: bars and the ranges they answer for
    are written in one transaction, so [None] leaves the state as it was.

    [parse_uuid] is the reading of an instrument id both the driver's [uuid] arrays and
    [uuid.Parse] perform.  A price date is a day number, which is what the columns of
    type [date] keep.  The conditions under which the database refuses a statement are
    an id that is not a UUID and a row that one statement would touch twice; foreign
    keys and lost connections are not modelled, and would roll back likewise. *)

From Stdlib Require Import QArith.
From S2P Require Import Prelude Decimal DateRange Coverage.
Import DateRange.
Import Coverage.

Local Open Scope Z_scope.

Module PriceStore.

Section store.
Context {D : Type}.
Context (parse_uuid : string → option string).

Record EODPrice := {
  InstrumentID : string;
  PriceDate : Z;
  Open : option D;
  High : option D;
  Low : option D;
  Close : D;
  Volume : option Z;
  DataProvider : string;
  AdjustedClose : option D;
  LastFetchedAt : option Z;
  ShareCountBasis : option Z;
}.

(** A row of [eod_prices]: the bar with its two defaulted columns. *)
Record stored := { st_bar : EODPrice; st_fetched : Z; st_basis : Z }.

Record state := {
  prices : gmap (string * Z) stored;
  coverage : list row;
}.

Definition key (pr : EODPrice) : string * Z := (InstrumentID pr, PriceDate pr).

(** [dedupeByInstrumentDate]: [seen] maps a key to its place in [out]. *)
Definition dedupe_step (acc : gmap (string * Z) nat * list EODPrice) (pr : EODPrice)
    : gmap (string * Z) nat * list EODPrice :=
  let '(seen, out) := acc in
  match seen !! key pr with
  | Some i => (seen, <[i := pr]> out)
  | None => (<[key pr := length out]> seen, out ++ [pr])
  end.

Definition dedupeByInstrumentDate (l : list EODPrice) : list EODPrice :=
  (foldl dedupe_step (∅, []) l).2.

(** The row the statement of [upsertPrices] writes for a bar. *)
Definition to_row (now : Z) (pr : EODPrice) : option ((string * Z) * stored) :=
  match parse_uuid (InstrumentID pr) with
  | None => None
  | Some id => Some ((id, PriceDate pr),
      {| st_bar := pr;
         st_fetched := default now (LastFetchedAt pr);
         st_basis := default (PriceDate pr) (ShareCountBasis pr) |})
  end.

Definition upsertPrices (now : Z) (l : list EODPrice) (m : gmap (string * Z) stored)
    : option (gmap (string * Z) stored) :=
  match mapM (to_row now) (dedupeByInstrumentDate l) with
  | None => None
  | Some rows =>
      if decide (NoDup rows.*1) then Some (foldl (λ m r, <[r.1 := r.2]> m) m rows) else None
  end.

Definition upsert_span (now : Z) (id provider : string) (table : option (list row)) (r : DateRange)
    : option (list row) :=
  match table with
  | None => None
  | Some t =>
      match upsertCoverageSpan parse_uuid now t id provider (From r) (Before r) None with
      | inl _ => None
      | inr t' => Some t'
      end
  end.

(** [coverSuppliedDates]; [byKey] is gone through in some order. *)
Definition supplied (pr : EODPrice) : (string * string) * DateRange :=
  ((InstrumentID pr, DataProvider pr), {| From := PriceDate pr; Before := PriceDate pr + 1 |}).

Definition coverSuppliedDates (now : Z) (l : list EODPrice) (table : list row) : option (list row) :=
  let byKey := index_by (supplied <$> l) in
  foldl (λ t k, foldl (upsert_span now k.1 k.2) t (MergeRanges (at_key byKey k)))
    (Some table) (keys_of byKey).

Definition UpsertPrices (now : Z) (l : list EODPrice) (s : state) : option state :=
  match l with
  | [] => Some s
  | _ =>
      match upsertPrices now l (prices s) with
      | None => None
      | Some m =>
          match coverSuppliedDates now l (coverage s) with
          | None => None
          | Some t => Some {| prices := m; coverage := t |}
          end
      end
  end.

Definition for_range (instrumentID provider : string) (fetchedAt : option Z) (b : EODPrice) : EODPrice :=
  {| InstrumentID := instrumentID; PriceDate := PriceDate b; Open := Open b; High := High b;
     Low := Low b; Close := Close b; Volume := Volume b; DataProvider := provider;
     AdjustedClose := AdjustedClose b;
     LastFetchedAt := match LastFetchedAt b with None => fetchedAt | at' => at' end;
     ShareCountBasis := ShareCountBasis b |}.

Definition UpsertPricesForRange (now : Z) (instrumentID provider : string) (bars : list EODPrice)
    (from before : Z) (fetchedAt : option Z) (s : state) : option state :=
  let written := match bars with
    | [] => Some (prices s)
    | _ => upsertPrices now (for_range instrumentID provider fetchedAt <$> bars) (prices s)
    end in
  match written with
  | None => None
  | Some m =>
      match upsertCoverageSpan parse_uuid now (coverage s) instrumentID provider from before fetchedAt with
      | inl _ => None
      | inr t => Some {| prices := m; coverage := t |}
      end
  end.

(** ** Deduplication *)

Definition last_with (k : string * Z) (l : list EODPrice) : option EODPrice :=
  last (filter (λ pr, key pr = k) l).

Lemma last_with_snoc k l pr :
  last_with k (l ++ [pr]) = if decide (key pr = k) then Some pr else last_with k l.
Proof.
  unfold last_with. rewrite filter_app, filter_cons, filter_nil.
  case_decide; [by rewrite last_snoc|by rewrite app_nil_r].
Qed.

Lemma dedupe_inv l :
  let '(seen, out) := foldl dedupe_step (∅, []) l in
  (∀ k i, seen !! k = Some i ↔ ∃ pr, out !! i = Some pr ∧ key pr = k) ∧
  ∀ i pr, out !! i = Some pr → last_with (key pr) l = Some pr.
Proof.
  induction l as [|pr l IH] using rev_ind; simpl.
  { split; [|done]. intros k i. rewrite lookup_empty. split; [done|]. intros (? & ? & _). done. }
  rewrite foldl_app. simpl. destruct (foldl dedupe_step (∅, []) l) as [seen out].
  destruct IH as [Hseen Hlast]. unfold dedupe_step. destruct (seen !! key pr) as [i|] eqn:E.
  - pose proof (proj1 (Hseen _ _) E) as (old & Hold & Ek).
    assert (i < length out)%nat as Hi by by eapply lookup_lt_Some.
    split.
    + intros k j. rewrite Hseen. destruct (decide (i = j)) as [<-|Hij].
      * rewrite list_lookup_insert_eq by done. split; [intros (? & ? & ?); exists pr; split; [done|congruence]|].
        intros (? & [= <-] & <-). by exists old.
      * by rewrite list_lookup_insert_ne.
    + intros j pr'. destruct (decide (i = j)) as [<-|Hij].
      * rewrite list_lookup_insert_eq by done. intros [= <-]. rewrite last_with_snoc. by rewrite decide_True.
      * rewrite list_lookup_insert_ne by done. intros Hj. rewrite last_with_snoc, decide_False; [by eapply Hlast|].
        intros Ek'. assert (seen !! key pr = Some j) by (apply Hseen; by exists pr'). congruence.
  - split.
    + intros k j. destruct (decide (k = key pr)) as [->|Hk].
      * rewrite lookup_insert_eq. split.
        { intros [= <-]. exists pr. by rewrite lookup_app_r, Nat.sub_diag by done. }
        intros (pr' & Hj & Ek). destruct (decide (j < length out)%nat) as [Hlt|Hge].
        { rewrite lookup_app_l in Hj by done. assert (seen !! key pr = Some j) by (apply Hseen; by exists pr'). congruence. }
        rewrite lookup_app_r in Hj by lia. apply list_lookup_singleton_Some in Hj as [? _]. f_equal. lia.
      * rewrite lookup_insert_ne by done. rewrite Hseen. split; intros (pr' & Hj & Ek); exists pr'; (split; [|done]).
        { apply lookup_app_Some. by left. }
        apply lookup_app_Some in Hj as [?|[_ [_ <-]%list_lookup_singleton_Some]]; congruence.
    + intros j pr' Hj. rewrite last_with_snoc. apply lookup_app_Some in Hj as [Hj|[_ [_ <-]%list_lookup_singleton_Some]].
      * rewrite decide_False; [by eapply Hlast|]. intros Ek.
        assert (seen !! key pr = Some j) by (apply Hseen; by exists pr'). congruence.
      * by rewrite decide_True.
Qed.

Lemma dedupe_seen l pr : pr ∈ l → is_Some ((foldl dedupe_step (∅, []) l).1 !! key pr).
Proof.
  induction l as [|x l IH] using rev_ind; [by intros ?%elem_of_nil|].
  rewrite foldl_app. simpl. destruct (foldl dedupe_step (∅, []) l) as [seen out]. simpl in *.
  intros [Hl| ->%list_elem_of_singleton]%elem_of_app.
  - destruct (seen !! key x) eqn:E; simpl; [by apply IH|].
    destruct (decide (key x = key pr)) as [->|?]; [rewrite lookup_insert_eq; by eexists|].
    rewrite lookup_insert_ne by done. by apply IH.
  - destruct (seen !! key x) eqn:E; simpl; [by rewrite E; eexists|]. rewrite lookup_insert_eq. by eexists.
Qed.

Lemma last_with_Some k l pr : last_with k l = Some pr → pr ∈ l ∧ key pr = k.
Proof. unfold last_with. intros [? ?]%last_Some_elem_of%list_elem_of_filter. done. Qed.

Lemma elem_of_dedupe_bars l pr : pr ∈ dedupeByInstrumentDate l ↔ last_with (key pr) l = Some pr.
Proof.
  pose proof (dedupe_inv l) as Hinv. pose proof (dedupe_seen l) as Hseen. unfold dedupeByInstrumentDate.
  destruct (foldl dedupe_step (∅, []) l) as [seen out]. destruct Hinv as [Hs Hl]. simpl in *. split.
  - intros [i Hi]%list_elem_of_lookup. by eapply Hl.
  - intros E. pose proof E as [Hin _]%last_with_Some. destruct (Hseen pr Hin) as [i Hi].
    apply Hs in Hi as (pr' & Hi & Ek). pose proof (Hl _ _ Hi) as E'. rewrite Ek, E in E'. injection E' as <-.
    by eapply list_elem_of_lookup_2.
Qed.

Lemma dedupe_keys l : NoDup (key <$> dedupeByInstrumentDate l).
Proof.
  pose proof (dedupe_inv l) as Hinv. unfold dedupeByInstrumentDate.
  destruct (foldl dedupe_step (∅, []) l) as [seen out]. destruct Hinv as [Hs _]. simpl.
  apply NoDup_alt. intros i j k. rewrite !list_lookup_fmap_Some.
  intros (x & -> & Hx) (y & Hy & Ek).
  assert (seen !! key x = Some i) by (apply Hs; by exists x).
  assert (seen !! key x = Some j) by (apply Hs; by exists y). congruence.
Qed.

(** ** The rows *)

Lemma foldl_rows_lookup (rows : list ((string * Z) * stored)) (m : gmap (string * Z) stored) k v :
  NoDup rows.*1 →
  foldl (λ m r, <[r.1 := r.2]> m) m rows !! k = Some v ↔
  (k, v) ∈ rows ∨ (k ∉ rows.*1 ∧ m !! k = Some v).
Proof.
  revert m. induction rows as [|[k0 v0] rows IH]; intros m Hnd; simpl.
  { rewrite elem_of_nil. split; [|naive_solver]. intros ?. right. split; [apply not_elem_of_nil|done]. }
  rewrite fmap_cons in Hnd. apply NoDup_cons in Hnd as [Hk Hnd]. simpl in Hk. rewrite IH by done.
  rewrite !elem_of_cons. destruct (decide (k0 = k)) as [->|Hne].
  - rewrite lookup_insert_eq. split.
    + intros [?|[? [= ->]]]; [by left; right|left; by left].
    + intros [[[= ->]|?]|[Hn _]]; [by right|by left|]. destruct Hn. by left.
  - rewrite lookup_insert_ne by done. split.
    + intros [?|[? ?]]; [by left; right|]. right. split; [|done]. intros [?|?]; [congruence|done].
    + intros [[[= ? ?]|?]|[Hn ?]]; [congruence|by left|]. right. split; [|done]. intros ?. apply Hn. by right.
Qed.

Lemma to_row_Some now pr r :
  to_row now pr = Some r → parse_uuid (InstrumentID pr) = Some r.1.1 ∧ r.1.2 = PriceDate pr ∧ st_bar r.2 = pr.
Proof. unfold to_row. destruct (parse_uuid _); [|done]. by intros [= <-]. Qed.

(** Whatever is stored afterwards was there or was supplied. *)
Lemma upsert_prices_from now l m m' k v :
  upsertPrices now l m = Some m' → m' !! k = Some v →
  m !! k = Some v ∨ ∃ pr, pr ∈ l ∧ to_row now pr = Some (k, v).
Proof.
  unfold upsertPrices. destruct (mapM _ _) as [rows|] eqn:E; [|done]. case_decide as Hnd; [|done].
  intros [= <-]. rewrite foldl_rows_lookup by done. intros [Hin|[_ ?]]; [right|by left].
  apply mapM_Some in E. apply list_elem_of_lookup in Hin as [n Hn].
  destruct (Forall2_lookup_r _ _ _ _ _ E Hn) as (pr & Hpr%list_elem_of_lookup_2 & Er).
  exists pr. split; [|done]. apply elem_of_dedupe_bars in Hpr. by apply last_with_Some in Hpr as [? _].
Qed.

Definition canonical_id (i : string) : Prop := parse_uuid i = Some i.

Definition row_of (now : Z) (pr : EODPrice) : stored :=
  {| st_bar := pr; st_fetched := default now (LastFetchedAt pr);
     st_basis := default (PriceDate pr) (ShareCountBasis pr) |}.

Lemma upsert_prices_total now l m :
  (∀ pr, pr ∈ l → canonical_id (InstrumentID pr)) →
  ∃ m', upsertPrices now l m = Some m' ∧
    ∀ k, m' !! k = match last_with k l with Some pr => Some (row_of now pr) | None => m !! k end.
Proof.
  intros Hid. unfold upsertPrices.
  assert (mapM (to_row now) (dedupeByInstrumentDate l) =
    Some ((λ pr, (key pr, row_of now pr)) <$> dedupeByInstrumentDate l)) as ->.
  { apply mapM_Some, Forall2_fmap_r, Forall_Forall2_diag, Forall_forall. intros pr Hpr.
    unfold to_row. rewrite Hid; [done|]. apply elem_of_dedupe_bars in Hpr. by apply last_with_Some in Hpr as [? _]. }
  rewrite <- list_fmap_compose. rewrite decide_True by apply dedupe_keys. eexists. split; [done|].
  intros k. apply option_eq. intros v. rewrite foldl_rows_lookup.
  2: { rewrite <- list_fmap_compose. apply dedupe_keys. }
  rewrite <- list_fmap_compose. destruct (last_with k l) as [pr|] eqn:E.
  - pose proof E as [Hin <-]%last_with_Some. apply elem_of_dedupe_bars in E. split.
    + intros [(pr' & Eq & Hpr')%list_elem_of_fmap|[Hn _]].
      * pose proof (f_equal fst Eq) as Ek. pose proof (f_equal snd Eq) as Ev. simpl in Ek, Ev. rewrite Ev.
        do 2 f_equal. apply elem_of_dedupe_bars in E, Hpr'. rewrite <- Ek in Hpr'. congruence.
      * destruct Hn. apply list_elem_of_fmap. by exists pr.
    + intros [= <-]. left. apply list_elem_of_fmap. by exists pr.
  - split.
    + intros [(pr' & Eq & Hpr'%elem_of_dedupe_bars)%list_elem_of_fmap|[_ ?]]; [|done].
      pose proof (f_equal fst Eq) as Ek. simpl in Ek. congruence.
    + intros ?. right. split; [|done]. intros (pr' & -> & Hpr'%elem_of_dedupe_bars)%list_elem_of_fmap.
      simpl in E. congruence.
Qed.

(** ** The coverage *)

Lemma upsert_span_None now id p rs : foldl (upsert_span now id p) None rs = None.
Proof. by induction rs. Qed.

Lemma upsert_spans_spec now id p rs t :
  match foldl (upsert_span now id p) (Some t) rs with
  | None => parse_uuid id = None ∨ ∃ r, r ∈ rs ∧ ¬ nonempty r
  | Some t' =>
      (well_kept t → well_kept t') ∧
      ∀ i q x, covers (spans_of i q t') x ↔
        covers (spans_of i q t) x ∨ (parse_uuid id = Some i ∧ q = p ∧ covers rs x)
  end.
Proof.
  revert t. induction rs as [|r rs IH]; intros t; cbn [foldl].
  { split; [done|]. intros i q x. pose proof (covers_nil x). tauto. }
  unfold upsert_span at 2.
  destruct (upsertCoverageSpan _ _ _ _ _ _ _ _) as [e|t1] eqn:E.
  - rewrite upsert_span_None. unfold upsertCoverageSpan in E.
    destruct (Z.ltb_spec (From r) (Before r)); simpl in E.
    + destruct (parse_uuid id); [done|by left].
    + right. exists r. split; [left|]. unfold nonempty. lia.
  - specialize (IH t1). destruct (foldl _ (Some t1) rs) as [t'|].
    + destruct IH as [Hw Hc]. split; [intros; apply Hw; by eapply upsert_well_kept|].
      intros i q x. rewrite Hc, (upsert_covers parse_uuid _ _ _ _ _ _ _ _ i q x E), covers_cons. tauto.
    + destruct IH as [?|(r' & ? & ?)]; [by left|]. right. exists r'. split; [by right|done].
Qed.

Lemma supplied_covers k l x :
  covers (MergeRanges (sel k (supplied <$> l))) x ↔
  ∃ pr, pr ∈ l ∧ (InstrumentID pr, DataProvider pr) = k ∧ PriceDate pr = x.
Proof.
  rewrite merge_covers. unfold covers. setoid_rewrite elem_of_sel. setoid_rewrite list_elem_of_fmap. split.
  - intros (r & (pr & [= -> ->] & Hpr) & Hx). simpl in Hx. exists pr. split_and!; [done..|lia].
  - intros (pr & Hpr & <- & <-). exists {| From := PriceDate pr; Before := PriceDate pr + 1 |}.
    split; [by exists pr|simpl; lia].
Qed.

Lemma supplied_nonempty k l r : r ∈ MergeRanges (sel k (supplied <$> l)) → nonempty r.
Proof.
  apply canonical_nonempty, merge_canonical. intros r'. rewrite elem_of_sel, list_elem_of_fmap.
  intros (pr & [= _ ->] & _). unfold nonempty. simpl. lia.
Qed.

Lemma cover_keys_spec now l ks t :
  (∀ pr, pr ∈ l → is_Some (parse_uuid (InstrumentID pr))) → (∀ k, k ∈ ks → k ∈ (supplied <$> l).*1) →
  ∃ t', foldl (λ t k, foldl (upsert_span now k.1 k.2) t (MergeRanges (at_key (index_by (supplied <$> l)) k)))
      (Some t) ks = Some t' ∧
    (well_kept t → well_kept t') ∧
    ∀ i q x, covers (spans_of i q t') x ↔ covers (spans_of i q t) x ∨
      ∃ pr, pr ∈ l ∧ (InstrumentID pr, DataProvider pr) ∈ ks ∧
        parse_uuid (InstrumentID pr) = Some i ∧ DataProvider pr = q ∧ PriceDate pr = x.
Proof.
  intros Hid. revert t. induction ks as [|k ks IH]; intros t Hks; cbn [foldl].
  { exists t. split; [done|]. split; [done|]. intros i q x. split; [by left|].
    by intros [?|(pr & _ & ?%elem_of_nil & _)]. }
  rewrite at_key_index_by.
  pose proof (upsert_spans_spec now k.1 k.2 (MergeRanges (sel k (supplied <$> l))) t) as Hs.
  destruct (foldl (upsert_span now k.1 k.2) (Some t) _) as [t1|].
  - destruct Hs as [Hw Hc]. destruct (IH t1) as (t' & E & Hw' & Hc'); [intros; apply Hks; by right|].
    exists t'. split; [done|]. split; [tauto|]. intros i q x. rewrite Hc', Hc, supplied_covers.
    setoid_rewrite elem_of_cons. destruct k as [ki kp]. simpl. split.
    + intros [[?|(? & -> & pr & ? & [= Ei Ep] & ?)]|(pr & ? & ? & ?)]; [by left|right; exists pr; subst; naive_solver|].
      right. exists pr. naive_solver.
    + intros [?|(pr & ? & [[= Ei Ep]|?] & ? & ? & ?)]; [by left; left|left; right; subst; naive_solver|].
      right. by exists pr.
  - exfalso. destruct Hs as [Hn|(r & Hr & Hne)].
    + assert (k ∈ (supplied <$> l).*1) as Hk by (apply Hks; left).
      rewrite <- list_fmap_compose in Hk. apply list_elem_of_fmap in Hk as (pr & -> & Hpr).
      destruct (Hid pr Hpr) as [i Hi]. simpl in Hn. congruence.
    + by apply supplied_nonempty in Hr.
Qed.

Lemma cover_supplied now l t :
  (∀ pr, pr ∈ l → is_Some (parse_uuid (InstrumentID pr))) →
  ∃ t', coverSuppliedDates now l t = Some t' ∧ (well_kept t → well_kept t') ∧
    ∀ i q x, covers (spans_of i q t') x ↔ covers (spans_of i q t) x ∨
      ∃ pr, pr ∈ l ∧ parse_uuid (InstrumentID pr) = Some i ∧ DataProvider pr = q ∧ PriceDate pr = x.
Proof.
  intros Hid. destruct (cover_keys_spec now l (keys_of (index_by (supplied <$> l))) t Hid) as (t' & E & Hw & Hc).
  { intros k. by rewrite elem_of_keys_index_by. }
  exists t'. split; [done|]. split; [done|]. intros i q x. rewrite Hc. split; (intros [?|(pr & Hpr & Hrest)]; [by left|right]).
  - exists pr. tauto.
  - exists pr. split; [done|]. split; [|done]. rewrite elem_of_keys_index_by, <- list_fmap_compose.
    apply list_elem_of_fmap. by exists pr.
Qed.

(** Every id of a batch that was stored parses. *)
Lemma upsert_prices_ids now l m m' pr :
  upsertPrices now l m = Some m' → pr ∈ l → is_Some (parse_uuid (InstrumentID pr)).
Proof.
  unfold upsertPrices. destruct (mapM _ _) as [rows|] eqn:E; [|done]. intros _ Hpr.
  destruct (last_with (key pr) l) as [pr'|] eqn:El.
  - pose proof El as [_ Ek]%last_with_Some. rewrite <- Ek in El. apply elem_of_dedupe_bars in El.
    apply mapM_Some in E. apply list_elem_of_lookup in El as [n Hn].
    destruct (Forall2_lookup_l _ _ _ _ _ E Hn) as (r & _ & [Hr _]%to_row_Some).
    injection Ek as Ei _. rewrite <- Ei. by eexists.
  - unfold last_with in El. apply last_None in El.
    assert (pr ∈ filter (λ p, key p = key pr) l) as Hin by by apply list_elem_of_filter.
    rewrite El in Hin. by apply elem_of_nil in Hin.
Qed.

(** ** The invariant: no price without coverage *)

Definition prices_covered (s : state) : Prop :=
  ∀ i d v, prices s !! (i, d) = Some v → covers (spans_of i (DataProvider (st_bar v)) (coverage s)) d.

Definition store_ok (s : state) : Prop := well_kept (coverage s) ∧ prices_covered s.

Inductive store_step : state → state → Prop :=
  | step_prices now l s s' : UpsertPrices now l s = Some s' → store_step s s'
  | step_range now id provider bars from before fetched s s' :
      (∀ b, b ∈ bars → from ≤ PriceDate b < before) →
      UpsertPricesForRange now id provider bars from before fetched s = Some s' → store_step s s'.

Definition empty_store : state := {| prices := ∅; coverage := [] |}.

Lemma upsert_prices_ok now l s s' : UpsertPrices now l s = Some s' → store_ok s → store_ok s'.
Proof.
  unfold UpsertPrices. destruct l as [|pr0 l0]; [by intros [= <-]|]. set (l := pr0 :: l0) in *.
  destruct (upsertPrices now l (prices s)) as [m|] eqn:Em; [|done].
  destruct (cover_supplied now l (coverage s)) as (t & -> & Hw & Hc).
  { intros pr. by eapply upsert_prices_ids. }
  intros [= <-] [Hk Hp]. split; [by apply Hw|]. intros i d v Hv. simpl in *. apply Hc.
  destruct (upsert_prices_from _ _ _ _ _ _ Em Hv) as [?|(pr & Hpr & (? & ? & Eb)%to_row_Some)]; [left; by eapply Hp|].
  right. exists pr. simpl in *. rewrite Eb. done.
Qed.

Lemma upsert_range_ok now id provider bars from before fetched s s' :
  (∀ b, b ∈ bars → from ≤ PriceDate b < before) →
  UpsertPricesForRange now id provider bars from before fetched s = Some s' → store_ok s → store_ok s'.
Proof.
  intros Hin. unfold UpsertPricesForRange.
  destruct (match bars with [] => _ | _ => _ end) as [m|] eqn:Em; [|done].
  destruct (upsertCoverageSpan _ _ _ _ _ _ _ _) as [e|t] eqn:Et; [done|]. intros [= <-] [Hk Hp].
  split; [by eapply upsert_well_kept|]. intros i d v Hv. simpl in *.
  apply (upsert_covers parse_uuid _ _ _ _ _ _ _ _ i (DataProvider (st_bar v)) d Et).
  assert (prices s !! (i, d) = Some v ∨ ∃ b, b ∈ bars ∧
    to_row now (for_range id provider fetched b) = Some ((i, d), v)) as [?|(b & Hb & (Hi & Hd & Eb)%to_row_Some)].
  { destruct bars as [|b0 bars]; [injection Em as <-; by left|].
    destruct (upsert_prices_from _ _ _ _ _ _ Em Hv) as [?|(pr & (b & -> & Hb)%list_elem_of_fmap & ?)]; [by left|].
    right. by exists b. }
  - left. by eapply Hp.
  - right. simpl in *. rewrite Eb. specialize (Hin b Hb). subst d. done.
Qed.

(** C16: no price without coverage.  However a store is built up from nothing by
    [UpsertPrices] and by [UpsertPricesForRange] on bars of its range, every stored
    price lies in a span its own provider covers, and the spans of one (instrument,
    provider) neither overlap nor abut. *)
Theorem prices_always_covered s : rtc store_step empty_store s → store_ok s.
Proof.
  intros Hr. assert (store_ok empty_store) as H0.
  { split; [split; [by intros ? ?%elem_of_nil|constructor]|]. intros i d v Hv. simpl in Hv.
    by rewrite lookup_empty in Hv. }
  revert H0. induction Hr as [|s s' s'' Hs _ IH]; [done|]. intros Hok. apply IH.
  destruct Hs as [now l s s' Hs|now id p bars from before f s s' Hin Hs];
    [by eapply upsert_prices_ok|by eapply upsert_range_ok].
Qed.

(** A batch of prices.  When the ids are spelled canonically [UpsertPrices]
    succeeds, although a provider may repeat a date: the last bar supplied for an
    (instrument, date) is stored, with its defaults filled in, other rows are left as
    they are, and each provider covers what it did and exactly the dates it supplied. *)
Theorem upsert_prices_last_wins now l s :
  (∀ pr, pr ∈ l → canonical_id (InstrumentID pr)) →
  ∃ s', UpsertPrices now l s = Some s' ∧
    (∀ k, prices s' !! k =
      match last_with k l with Some pr => Some (row_of now pr) | None => prices s !! k end) ∧
    ∀ i q x, covers (spans_of i q (coverage s')) x ↔ covers (spans_of i q (coverage s)) x ∨
      ∃ pr, pr ∈ l ∧ InstrumentID pr = i ∧ DataProvider pr = q ∧ PriceDate pr = x.
Proof.
  intros Hid. unfold UpsertPrices. destruct l as [|pr0 l0].
  { exists s. split; [done|]. split; [done|]. intros i q x. split; [by left|].
    by intros [?|(pr & ?%elem_of_nil & _)]. }
  set (l := pr0 :: l0) in *. destruct (upsert_prices_total now l (prices s) Hid) as (m & -> & Hm).
  destruct (cover_supplied now l (coverage s)) as (t & -> & _ & Hc).
  { intros pr Hpr. rewrite (Hid pr Hpr). by eexists. }
  eexists. split; [done|]. split; [done|]. intros i q x. simpl. rewrite Hc.
  split; (intros [?|(pr & Hpr & Hi & ? & ?)]; [by left|right]); exists pr.
  - pose proof (Hid pr Hpr) as Hcan. unfold canonical_id in Hcan. split_and!; [done|congruence|done..].
  - subst i. split_and!; [done|by apply Hid|done..].
Qed.
End store.

Arguments EODPrice D : clear implicits.
Arguments state D : clear implicits.

Definition bar (i : string) (d : Z) (p : string) (close : Q) : EODPrice Q :=
  {| InstrumentID := i; PriceDate := d; Open := None; High := None; Low := None; Close := close;
     Volume := None; DataProvider := p; AdjustedClose := None; LastFetchedAt := None;
     ShareCountBasis := None |}.

Definition sample_bars : list (EODPrice Q) := [bar "i" 1 "p" 10; bar "i" 2 "p" 11; bar "i" 1 "p" 12].

Lemma upsert_prices_last_wins_witness :
  match UpsertPrices Some 100 sample_bars empty_store with
  | Some s => spans_of "i" "p" (coverage s) = [rng 1 3] ∧
      Close ∘ st_bar <$> prices s !! ("i", 1) = Some 12%Q ∧
      prices s !! ("i", 1) = Some (row_of 100 (bar "i" 1 "p" 12))
  | None => False
  end.
Proof.
  destruct (upsert_prices_last_wins Some 100 sample_bars empty_store) as (s' & E & Hp & _); [done|].
  rewrite E. split; [|split; [|apply Hp]].
  - vm_compute in E. injection E as <-. reflexivity.
  - rewrite Hp. reflexivity.
Defined.

Lemma prices_always_covered_witness :
  match UpsertPricesForRange Some 100 "i" "p" sample_bars 0 5 None empty_store with
  | Some s => store_ok s ∧ size (prices s) = 2%nat
  | None => False
  end.
Proof.
  destruct (UpsertPricesForRange Some 100 "i" "p" sample_bars 0 5 None empty_store) as [s|] eqn:E.
  - split; [|vm_compute in E; injection E as <-; reflexivity].
    apply (prices_always_covered Some). eapply rtc_l; [|apply rtc_refl]. eapply step_range; [|exact E].
    intros b Hb. unfold sample_bars in Hb. rewrite !elem_of_cons, elem_of_nil in Hb.
    destruct Hb as [->|[->|[->|[]]]]; simpl; lia.
  - vm_compute in E. discriminate.
Defined.
End PriceStore.
