(* ===== verification/Residual.v ===== *)
(** * What a group has left over

    server/residual/residual.go: which account a residual, or the other side of a
    one-sided posting, is routed to; and the stored spelling of account types,
    server/db/db.go. *)

From Stdlib Require Import QArith Qabs.
From S2P Require Import Prelude Decimal TxType.

Module Residual.
Import TxType.

(** ** Account types *)

Inductive AccountType :=
  | ACCOUNT_TYPE_UNSPECIFIED | ACCOUNT_TYPE_USER | ACCOUNT_TYPE_EQUITY | ACCOUNT_TYPE_INCOME
  | ACCOUNT_TYPE_EXPENSE | ACCOUNT_TYPE_IMBALANCE | ACCOUNT_TYPE_TRANSFER_CLEARING
  | ACCOUNT_TYPE_SOURCE_ROUNDING
  | AccountType_unrecognized (n : Z).

#[export] Instance AccountType_eq_dec : EqDecision AccountType.
Proof. solve_decision. Defined.

(** The enum's name without its prefix; [None] is the error of an unknown value. *)
Definition AccountTypeToStr (a : AccountType) : option string :=
  match a with
  | ACCOUNT_TYPE_UNSPECIFIED | ACCOUNT_TYPE_USER => Some "USER"
  | ACCOUNT_TYPE_EQUITY => Some "EQUITY"
  | ACCOUNT_TYPE_INCOME => Some "INCOME"
  | ACCOUNT_TYPE_EXPENSE => Some "EXPENSE"
  | ACCOUNT_TYPE_IMBALANCE => Some "IMBALANCE"
  | ACCOUNT_TYPE_TRANSFER_CLEARING => Some "TRANSFER_CLEARING"
  | ACCOUNT_TYPE_SOURCE_ROUNDING => Some "SOURCE_ROUNDING"
  | AccountType_unrecognized _ => None
  end%string.

(** ** Commodities *)

Definition CurrencyPrefix : string := "cur:".
Definition InstrumentPrefix : string := "inst:".
Definition DescriptionPrefix : string := "desc:".

(** [strings.HasPrefix] and [strings.CutPrefix]. *)
Fixpoint cut_prefix (pre s : string) : option string :=
  match pre, s with
  | EmptyString, _ => Some s
  | String a pre', String b s' => if Ascii.eqb a b then cut_prefix pre' s' else None
  | String _ _, EmptyString => None
  end.

Definition has_prefix (pre s : string) : bool := match cut_prefix pre s with Some _ => true | None => false end.

Definition CurrencyOf (commodity : string) : option string := cut_prefix CurrencyPrefix commodity.
Definition InstrumentOf (commodity : string) : option string := cut_prefix InstrumentPrefix commodity.

Lemma cut_prefix_app pre s : cut_prefix pre (pre +:+ s) = Some s.
Proof. induction pre as [|a pre IH]; [done|]. simpl. by rewrite Ascii.eqb_refl. Qed.

Lemma cut_prefix_Some pre s r : cut_prefix pre s = Some r → s = pre +:+ r.
Proof.
  revert s. induction pre as [|a pre IH]; intros s; simpl; [by intros [= ->]|].
  destruct s as [|b s]; [done|]. destruct (Ascii.eqb_spec a b) as [->|]; [|done].
  intros ->%IH. done.
Qed.

(** ** The rules *)

Section rules.
Context {D : Type} `{Decimal D}.

Definition moneyTolerance : D := dec_new 5 (-3).
Definition commodityTolerance : D := dec_new 1 (-6).

Definition PriceScaleFloor : Z := 2.

Definition Tolerance (commodity : string) (priceRounding : D) : D :=
  if negb (has_prefix CurrencyPrefix commodity) then commodityTolerance
  else if is_neg priceRounding then moneyTolerance
  else dec_add moneyTolerance priceRounding.

Definition family (resolved : list TxType) : AccountType :=
  if existsb (λ t, ResolvedMustBe t [TRANSFER]) resolved
  then ACCOUNT_TYPE_TRANSFER_CLEARING else ACCOUNT_TYPE_IMBALANCE.

Definition Type_ (commodity : string) (amount priceRounding : D) (resolved : list TxType) : AccountType :=
  if dec_ltb (dec_abs amount) (Tolerance commodity priceRounding)
  then ACCOUNT_TYPE_SOURCE_ROUNDING else family resolved.

Definition SplitType (resolved : list TxType) : AccountType := family resolved.

Definition Boundary (resolved : TxType) : option AccountType :=
  if ResolvedMustBe resolved [INCOME] then Some ACCOUNT_TYPE_INCOME
  else if ResolvedMustBe resolved [EXPENSE] then Some ACCOUNT_TYPE_EXPENSE
  else None.
End rules.

(** The account types a rule can name are stored. *)
Lemma family_stored resolved : is_Some (AccountTypeToStr (family resolved)).
Proof. unfold family. destruct (existsb _ _); by eexists. Qed.

Lemma family_not_rounding resolved : family resolved ≠ ACCOUNT_TYPE_SOURCE_ROUNDING.
Proof. unfold family. by destruct (existsb _ _). Qed.

Lemma type_stored {D} `{Decimal D} c (a r : D) ts : is_Some (AccountTypeToStr (Type_ c a r ts)).
Proof. unfold Type_. destruct (dec_ltb _ _); [by eexists|apply family_stored]. Qed.

Lemma boundary_stored t a : Boundary t = Some a → is_Some (AccountTypeToStr a).
Proof. unfold Boundary. repeat case_match; intros [= <-]; by eexists. Qed.
End Residual.
