(* ===== verification/Ledger.v ===== *)
(** * The ledger

    The postings, the groups they sit in and the transfer matches between groups, and
    the three ways the server writes them: [ReplaceTxsInPeriod] and [CreateTxGroup] of
    server/db/postgres/txs.go and [ApplyGrouping] of server/db/postgres/grouping_apply.go,
    down to [settle], which posts what a group is owed.

    Tables are lists of rows, or maps by primary key, and the statements are read off
    the SQL the functions send.  Each operation runs in one transaction: [None] is an
    error, which leaves the ledger as it was.

    What is not under src/ is a parameter: [gen_uuid] is the database's
    [gen_random_uuid()], given the ids in use; [uuid_ok] is [uuid.Parse]; [parse_dec] is
    [decimal.NewFromString]; [num_div] and [num_scale] are division and [scale()] of the
    database's numerics.  [currency_instrument] is the table of seeded currencies.  A
    posting's correlations are kept with its row. *)

From stdpp Require Import relations.
From Stdlib Require Import QArith Lqa.
From S2P Require Import Prelude Decimal TxType Posting GroupState Grouping Exact Trade Deposit Charge Engine Neighbourhood Diff Residual.

Local Open Scope nat_scope.

Module Ledger.
Import TxType Posting Grouping Neighbourhood Diff Residual.

Definition RoutedPurpose : string := "RESIDUAL".
Definition BoundaryPurpose : string := "BOUNDARY".

(** ** The tables *)

Record row {D : Type} := {
  r_id : string;
  r_user : string;
  r_broker : string;
  r_account : string;
  r_order_date : Z;
  r_trade_date : Z;
  r_description : string;
  r_broker_types : list string;
  r_resolved : string;
  r_asset_class : option string;
  r_quantity : D;
  r_trading : option string;
  r_settlement : option string;
  r_unit_price : option D;
  r_settlement_amount : option D;
  r_instrument : option string;
  r_share_basis : option Z;
  r_account_type : string;
  r_purpose : option string;
  r_weight : D;
  r_commodity : string;
  r_group : string;
  r_correlations : list Correlation;
}.
#[global] Arguments row : clear implicits.

Record group := { g_user : string; g_timestamp : Z; g_job : option string }.

Record transfer_match := { tm_user : string; tm_from : string; tm_to : string; tm_instrument : string; tm_method : string }.

Record ledger {D : Type} := {
  txs : list (row D);
  tx_groups : gmap string group;
  transfer_matches : list transfer_match;
}.
#[global] Arguments ledger : clear implicits.

(** ** The groups one write touched *)

Record settleSet := { all : gset string; lost : gset string }.

Definition no_groups : settleSet := {| all := ∅; lost := ∅ |}.

Definition settle_add (s : settleSet) (id : string) (lostLegs : bool) : settleSet :=
  {| all := {[ id ]} ∪ all s; lost := if lostLegs then {[ id ]} ∪ lost s else lost s |}.

Definition settle_addAll (s : settleSet) (ids : list string) (lostLegs : bool) : settleSet :=
  foldl (λ s id, settle_add s id lostLegs) s ids.

(** ** What is written *)

(** [db.Weight]. *)
Record Weight {D : Type} := { w_Amount : D; w_Commodity : string }.
#[global] Arguments Weight : clear implicits.

(** A correlation on the wire: [None] is an enum value [ScopeToStr] or [MatchToStr]
    refuses. *)
Record WireCorrelation := {
  wc_Label : string;
  wc_Token : string;
  wc_Ordinal : option Z;
  wc_Scope : option string;
  wc_Match : list (option string);
  wc_OrdinalSpan : option Z;
}.

(** [apiv1.Tx]; a date is [None] when the timestamp is missing or not valid. *)
Record Tx := {
  tx_OrderDate : option Z;
  tx_TradeDate : option Z;
  tx_Account : string;
  tx_AccountType : AccountType;
  tx_InstrumentDescription : string;
  tx_AssetClassHint : string;
  tx_BrokerTxType : list TxType;
  tx_ResolvedTxType : TxType;
  tx_Quantity : string;
  tx_UnitPrice : option string;
  tx_SettlementAmount : option string;
  tx_TradingCurrency : string;
  tx_SettlementCurrency : string;
  tx_SyntheticPurpose : string;
  tx_Correlations : list WireCorrelation;
}.

Definition nullStr (s : string) : option string := if String.eqb s EmptyString then None else Some s.

Section ledger.
Context {D : Type} `{Decimal D}.
Context (gen_uuid : gset string → string) (uuid_ok : string → bool) (parse_dec : string → option D).
Context (num_div : D → D → D) (num_scale : D → Z) (currency_instrument : string → option string).

Definition used (l : ledger D) : gset string := list_to_set (r_id <$> txs l) ∪ dom (tx_groups l).

(** [insertPostingInGroupSQL] *)
Definition insert_row (mk : string → row D) (l : ledger D) : ledger D :=
  {| txs := txs l ++ [mk (gen_uuid (used l))]; tx_groups := tx_groups l;
     transfer_matches := transfer_matches l |}.

(** ** Boundary legs and residuals *)

(** [ORDER BY t.order_date, t.id] *)
Definition row_before (a b : row D) : bool :=
  (r_order_date a <? r_order_date b)%Z
  || ((r_order_date a =? r_order_date b)%Z && String.ltb (r_id a) (r_id b)).

(** A leg of money takes the seeded currency's instrument and code; another carries
    what the leg it balances does. *)
Definition leg_commodity (commodity : string) (instrument : option string) (description : string)
    (trading settlement : option string)
    : option (option string * string * option string * option string) :=
  match CurrencyOf commodity with
  | Some code =>
      match currency_instrument code with
      | None => None
      | Some id => Some (Some id, code, Some code, Some code)
      end
  | None => Some (instrument, description, trading, settlement)
  end.

Definition is_boundary_candidate (ids : gset string) (t : row D) : Prop :=
  r_group t ∈ ids ∧ r_purpose t = None ∧ r_account_type t = "USER" ∧ is_zero (r_weight t) = false.

#[global] Instance is_boundary_candidate_dec ids t : Decision (is_boundary_candidate ids t).
Proof. unfold is_boundary_candidate. apply _. Defined.

(** The body of the loop of [routeBoundaries]. *)
Definition boundary_leg (userUUID : string) (c : row D) (l : ledger D) : option (ledger D) :=
  match Boundary (StrToTxType (r_resolved c)) with
  | None => Some l
  | Some acct =>
      acctType ← AccountTypeToStr acct;
      '(instID, desc, trading, settlement) ←
        leg_commodity (r_commodity c) (r_instrument c) (r_description c) (r_trading c) (r_settlement c);
      Some (insert_row (λ id, {|
        r_id := id; r_user := userUUID; r_broker := r_broker c; r_account := r_account c;
        r_order_date := r_order_date c; r_trade_date := r_trade_date c; r_description := desc;
        r_broker_types := r_broker_types c; r_resolved := r_resolved c; r_asset_class := None;
        r_quantity := dec_neg (r_weight c); r_trading := trading; r_settlement := settlement;
        r_unit_price := None; r_settlement_amount := None; r_instrument := instID;
        r_share_basis := None; r_account_type := acctType; r_purpose := Some BoundaryPurpose;
        r_weight := dec_neg (r_weight c); r_commodity := r_commodity c; r_group := r_group c;
        r_correlations := [] |}) l)
  end.

Definition routeBoundaries (userUUID : string) (ids : gset string) (l : ledger D) : option (ledger D) :=
  foldl (λ acc c, l ← acc; boundary_leg userUUID c l) (Some l)
    (go_sort row_before (filter (is_boundary_candidate ids) (txs l))).

(** [groupResidualsSQL] *)
Definition rows_of (l : ledger D) (g : string) : list (row D) := filter (λ t, r_group t = g) (txs l).

Definition rows_in (l : ledger D) (g c : string) : list (row D) :=
  filter (λ t, r_group t = g ∧ r_commodity t = c) (txs l).

Definition residual_of (l : ledger D) (g c : string) : D := dec_sum (r_weight <$> rows_in l g c).

Definition price_rounding (l : ledger D) (g : string) : D :=
  dec_sum (omap (λ t,
    match r_unit_price t with
    | Some p =>
        if is_zero p || dec_eqb (r_weight t) (r_quantity t) then None
        else Some (dec_mul (dec_mul (dec_abs (num_div (r_weight t) p)) (dec_new 5 (-1)))
          (dec_new 1 (- Z.max (num_scale p) PriceScaleFloor)))
    | None => None
    end) (rows_of l g)).

Definition pair_less (a b : string * string) : bool :=
  String.ltb a.1 b.1 || (String.eqb a.1 b.1 && String.ltb a.2 b.2).

Definition residual_keys (ids : gset string) (l : ledger D) : list (string * string) :=
  go_sort pair_less (filter (λ k, is_zero (residual_of l k.1 k.2) = false)
    (remove_dups ((λ t, (r_group t, r_commodity t)) <$> filter (λ t, r_group t ∈ ids) (txs l)))).

Definition residualRule := string → D → D → list TxType → AccountType.

Definition wholeSource : residualRule := Type_.
Definition legsRemoved : residualRule := λ _ _ _ resolved, SplitType resolved.

(** One row of the query and the body of the loop of [routeResiduals]; [l0] is the
    ledger the query read. *)
Definition residual_leg (userUUID : string) (rule : residualRule) (l0 : ledger D) (k : string * string) (l : ledger D)
    : option (ledger D) :=
  let '(g, commodity) := k in
  match head (go_sort row_before (rows_of l0 g)), head (go_sort row_before (rows_in l0 g commodity)) with
  | Some first, Some own =>
      let amount := dec_neg (residual_of l0 g commodity) in
      acctType ← AccountTypeToStr (rule commodity amount (price_rounding l0 g)
        (StrsToTxTypes (remove_dups (r_resolved <$> rows_of l0 g))));
      '(instID, desc, trading, settlement) ←
        leg_commodity commodity (r_instrument own) (r_description own) (r_trading first) (r_settlement first);
      Some (insert_row (λ id, {|
        r_id := id; r_user := userUUID; r_broker := r_broker first; r_account := r_account first;
        r_order_date := r_order_date first; r_trade_date := r_trade_date first; r_description := desc;
        r_broker_types := r_broker_types first; r_resolved := r_resolved first; r_asset_class := None;
        r_quantity := amount; r_trading := trading; r_settlement := settlement;
        r_unit_price := None; r_settlement_amount := None; r_instrument := instID;
        r_share_basis := None; r_account_type := acctType; r_purpose := Some RoutedPurpose;
        r_weight := amount; r_commodity := commodity; r_group := g;
        r_correlations := [] |}) l)
  | _, _ => Some l
  end.

Definition routeResiduals (userUUID : string) (rule : residualRule) (ids : gset string) (l : ledger D)
    : option (ledger D) :=
  foldl (λ acc k, l' ← acc; residual_leg userUUID rule l k l') (Some l) (residual_keys ids l).

Definition settle (userUUID : string) (rule : residualRule) (ids : gset string) (l : ledger D)
    : option (ledger D) :=
  if decide (ids = ∅) then Some l
  else l' ← routeBoundaries userUUID ids l; routeResiduals userUUID rule ids l'.

Definition settle_groups (userUUID : string) (s : settleSet) (l : ledger D) : option (ledger D) :=
  if decide (set_Forall (λ id, uuid_ok id = true) (all s)) then
    l' ← settle userUUID wholeSource (all s ∖ lost s) l;
    settle userUUID legsRemoved (all s ∩ lost s) l'
  else None.

(** ** Cleaning up after legs have gone *)

Definition routed (t : row D) : bool :=
  match r_purpose t with
  | Some p => String.eqb p RoutedPurpose || String.eqb p BoundaryPurpose
  | None => false
  end.

Definition with_txs (l : ledger D) (ts : list (row D)) : ledger D :=
  {| txs := ts; tx_groups := tx_groups l; transfer_matches := transfer_matches l |}.

(** [dropResidualsSQL] *)
Definition dropResiduals (ids : gset string) (l : ledger D) : ledger D :=
  with_txs l (filter (λ t, ¬ (r_group t ∈ ids ∧ routed t = true)) (txs l)).

(** [deleteEmptiedGroupsSQL] *)
Definition deleteEmptiedGroups (ids : gset string) (l : ledger D) : ledger D :=
  {| txs := txs l;
     tx_groups := filter (λ kg, kg.1 ∉ ids ∨ rows_of l kg.1 ≠ []) (tx_groups l);
     transfer_matches := transfer_matches l |}.

(** [repointGroupTimestampsSQL] *)
Definition first_date (ts : list (row D)) : option Z :=
  match r_order_date <$> ts with
  | [] => None
  | d :: ds => Some (foldr Z.min d ds)
  end.

Definition repointGroupTimestamps (ids : gset string) (l : ledger D) : ledger D :=
  {| txs := txs l;
     tx_groups := map_imap (λ id g,
       Some (if decide (id ∈ ids) then
         match first_date (rows_of l id) with
         | Some d => {| g_user := g_user g; g_timestamp := d; g_job := g_job g |}
         | None => g
         end else g)) (tx_groups l);
     transfer_matches := transfer_matches l |}.

(** [deleteTouchedMatchesSQL] *)
Definition deleteTouchedMatches (ids : gset string) (l : ledger D) : ledger D :=
  {| txs := txs l; tx_groups := tx_groups l;
     transfer_matches := filter (λ m, tm_from m ∉ ids ∧ tm_to m ∉ ids) (transfer_matches l) |}.

(** ** [clearPeriod] *)

Definition replaced (broker : string) (fromT beforeT : Z) (t : row D) : Prop :=
  r_broker t = broker ∧ (fromT <= r_order_date t < beforeT)%Z ∧ r_purpose t = None.

#[global] Instance replaced_dec broker fromT beforeT t : Decision (replaced broker fromT beforeT t).
Proof. unfold replaced. apply _. Defined.

Definition survives (broker : string) (fromT beforeT : Z) (t : row D) : Prop :=
  routed t = false ∧ ¬ replaced broker fromT beforeT t.

#[global] Instance survives_dec broker fromT beforeT t : Decision (survives broker fromT beforeT t).
Proof. unfold survives. apply _. Defined.

Definition touchedGroups (user broker : string) (fromT beforeT : Z) (l : ledger D) : list string :=
  r_group <$> filter (λ t, r_user t = user ∧ replaced broker fromT beforeT t) (txs l).

Definition deleted (user broker : string) (fromT beforeT : Z) (l : ledger D) (t : row D) : Prop :=
  r_group t ∈ touchedGroups user broker fromT beforeT l ∧ ¬ survives broker fromT beforeT t.

#[global] Instance deleted_dec user broker fromT beforeT l t : Decision (deleted user broker fromT beforeT l t).
Proof. unfold deleted. apply _. Defined.

Definition deleteReplacedPostings (user broker : string) (fromT beforeT : Z) (l : ledger D)
    : ledger D * list string :=
  (with_txs l (filter (λ t, ¬ deleted user broker fromT beforeT l t) (txs l)),
   remove_dups (r_group <$> filter (deleted user broker fromT beforeT l) (txs l))).

Definition clearPeriod (user broker : string) (fromT beforeT : Z) (l : ledger D)
    : ledger D * list string :=
  let '(l, touched) := deleteReplacedPostings user broker fromT beforeT l in
  match touched with
  | [] => (l, [])
  | _ =>
      let ids : gset string := list_to_set touched in
      (repointGroupTimestamps ids (deleteTouchedMatches ids (deleteEmptiedGroups ids l)), touched)
  end.

(** ** [insertPostings] *)

(** [parseOptDecimal]: the outer [option] is the error. *)
Definition parseOptDecimal (s : option string) : option (option D) :=
  match s with
  | None => Some None
  | Some s => if String.eqb s EmptyString then Some None else Some <$> parse_dec s
  end.

Definition correlation_row (jobUUID : option string) (c : WireCorrelation) : option Correlation :=
  scope ← wc_Scope c;
  matches ← mapM id (wc_Match c);
  match matches with
  | [] => None
  | _ => Some {| Label := wc_Label c; Token := wc_Token c; Ordinal := wc_Ordinal c; Scope := scope;
                 Match := matches; OrdinalSpan := wc_OrdinalSpan c;
                 CorrJobID := default EmptyString jobUUID |}
  end.

(** The columns of one posting, all but its id and its group. *)
Definition posting_row (user broker account : string) (jobUUID : option string) (t : Tx)
    (instrumentID : string) (weight : option (Weight D)) (basis : option Z)
    : option (string → string → row D) :=
  if negb (uuid_ok instrumentID) then None else
  ordered ← tx_OrderDate t;
  traded ← tx_TradeDate t;
  brokerTypes ← TxTypesToStrs (tx_BrokerTxType t);
  resolvedStr ← TxTypeToStr (tx_ResolvedTxType t);
  acctTypeStr ← AccountTypeToStr (tx_AccountType t);
  qty ← parse_dec (tx_Quantity t);
  price ← parseOptDecimal (tx_UnitPrice t);
  settlement ← parseOptDecimal (tx_SettlementAmount t);
  cs ← mapM (correlation_row jobUUID) (tx_Correlations t);
  let w := default {| w_Amount := qty; w_Commodity := "inst:" +:+ instrumentID |} weight in
  Some (λ id g, {|
    r_id := id; r_user := user; r_broker := broker;
    r_account := if String.eqb account EmptyString then tx_Account t else account;
    r_order_date := ordered; r_trade_date := traded; r_description := tx_InstrumentDescription t;
    r_broker_types := brokerTypes; r_resolved := resolvedStr;
    r_asset_class := nullStr (tx_AssetClassHint t); r_quantity := qty;
    r_trading := nullStr (tx_TradingCurrency t); r_settlement := nullStr (tx_SettlementCurrency t);
    r_unit_price := price; r_settlement_amount := settlement; r_instrument := Some instrumentID;
    r_share_basis := basis; r_account_type := acctTypeStr;
    r_purpose := nullStr (tx_SyntheticPurpose t); r_weight := w_Amount w; r_commodity := w_Commodity w;
    r_group := g; r_correlations := cs |}).

(** [insertPostingSQL]: a posting as the single one of a new group. *)
Definition insert_alone (user : string) (jobUUID : option string) (mk : string → string → row D)
    (l : ledger D) : ledger D * string * string :=
  let g := gen_uuid (used l) in
  let id := gen_uuid ({[ g ]} ∪ used l) in
  let r := mk id g in
  ({| txs := txs l ++ [r];
      tx_groups := <[g := {| g_user := user; g_timestamp := r_order_date r; g_job := jobUUID |}]> (tx_groups l);
      transfer_matches := transfer_matches l |}, id, g).

Record written := { postings : list string; groups : list string }.

Fixpoint insertPostings (user broker account : string) (jobUUID : option string) (ts : list Tx)
    (instrumentIDs : list string) (weights : list (Weight D)) (bases : list (option Z))
    (l : ledger D) (out : written) : option (ledger D * written) :=
  match ts with
  | [] => Some (l, out)
  | t :: ts' =>
      instrumentID ← head instrumentIDs;
      mk ← posting_row user broker account jobUUID t instrumentID (head weights) (mjoin (head bases));
      let '(l', id, g) := insert_alone user jobUUID mk l in
      insertPostings user broker account jobUUID ts' (tail instrumentIDs) (tail weights) (tail bases) l'
        {| postings := postings out ++ [id]; groups := groups out ++ [g] |}
  end.

(** ** [applyChanges] *)

Definition with_group (g resolved : string) (t : row D) : row D :=
  {| r_id := r_id t; r_user := r_user t; r_broker := r_broker t; r_account := r_account t;
     r_order_date := r_order_date t; r_trade_date := r_trade_date t; r_description := r_description t;
     r_broker_types := r_broker_types t; r_resolved := resolved; r_asset_class := r_asset_class t;
     r_quantity := r_quantity t; r_trading := r_trading t; r_settlement := r_settlement t;
     r_unit_price := r_unit_price t; r_settlement_amount := r_settlement_amount t;
     r_instrument := r_instrument t; r_share_basis := r_share_basis t;
     r_account_type := r_account_type t; r_purpose := r_purpose t; r_weight := r_weight t;
     r_commodity := r_commodity t; r_group := g; r_correlations := r_correlations t |}.

(** [resolveOnlySQL] and [moveGroupSQL] *)
Definition resolve_only (resolved : string) (ids : list string) (l : ledger D) : ledger D :=
  with_txs l ((λ t, if decide (r_id t ∈ ids) then with_group (r_group t) resolved t else t) <$> txs l).

Definition move_group (g resolved : string) (ids : list string) (l : ledger D) : ledger D :=
  with_txs l ((λ t, if decide (r_id t ∈ ids) then with_group g resolved t else t) <$> txs l).

(** [stayingByType] and [movingByType], gone through in some order. *)
Definition by_type (moving : bool) (c : GroupChange) : gmap string (list string) :=
  index_by ((λ m, (gmc_Resolved m, gmc_ID m)) <$> filter (λ m, gmc_Moving m = moving) (gc_Members c)).

Definition each_type (f : string → list string → ledger D → ledger D) (m : gmap string (list string))
    (l : ledger D) : ledger D :=
  foldl (λ l k, f k (at_key m k) l) l (keys_of m).

Definition move_ids (c : GroupChange) : list string :=
  gmc_ID <$> filter (λ m, gmc_Moving m = true) (gc_Members c).

(** One change: [None] when the statement that creates its group is refused, there
    being no posting to date it by. *)
Definition apply_change (userUUID : string) (acc : ledger D * settleSet * nat) (c : GroupChange)
    : option (ledger D * settleSet * nat) :=
  let '(l, touched, moved) := acc in
  let l := each_type resolve_only (by_type false c) l in
  let move := move_ids c in
  match move with
  | [] => Some (l, touched, moved)
  | _ =>
      date ← first_date (filter (λ t, r_id t ∈ move) (txs l));
      let g := gen_uuid (used l) in
      let l := {| txs := txs l;
                  tx_groups := <[g := {| g_user := userUUID; g_timestamp := date; g_job := None |}]> (tx_groups l);
                  transfer_matches := transfer_matches l |} in
      let l := each_type (move_group g) (by_type true c) l in
      Some (l, settle_add touched g false, moved + length move)
  end.

Definition touch_members (touched : settleSet) (c : GroupChange) : settleSet :=
  foldl (λ s m, if String.eqb (gmc_FromGroupID m) EmptyString then s
    else settle_add s (gmc_FromGroupID m) (gmc_Moving m)) touched (gc_Members c).

Definition clean_up (ids : gset string) (l : ledger D) : ledger D :=
  deleteTouchedMatches ids (repointGroupTimestamps ids (deleteEmptiedGroups ids (dropResiduals ids l))).

Definition applyChanges (userUUID : string) (changes : list GroupChange) (touched : settleSet)
    (l : ledger D) : option (ledger D * settleSet * nat) :=
  '(l, touched, moved) ← foldl (λ acc c, a ← acc; apply_change userUUID a c)
    (Some (l, foldl touch_members touched changes, 0)) changes;
  Some (clean_up (all touched) l, touched, moved).

Definition ApplyGrouping (userID : string) (changes : list GroupChange) (l : ledger D)
    : option (ledger D * nat) :=
  if negb (uuid_ok userID) then None
  else match changes with
  | [] => Some (l, 0)
  | _ =>
      '(l, touched, moved) ← applyChanges userID changes no_groups l;
      l ← settle_groups userID touched l;
      Some (l, moved)
  end.

(** ** Reading the ledger as the engine does *)

(** [groupingRow.toDomain], with the posting's correlations hung on it. *)
Definition toDomain (l : ledger D) (t : row D) : GroupingPosting D :=
  {| ID := r_id t; UserID := r_user t; PBroker := StrToBroker (r_broker t); Account := r_account t;
     OrderDate := r_order_date t; InstrumentID := default EmptyString (r_instrument t);
     Quantity := r_quantity t; UnitPrice := r_unit_price t; SettlementAmount := r_settlement_amount t;
     Declared := StrsToTxTypes (r_broker_types t);
     JobID := default EmptyString (tx_groups l !! r_group t ≫= g_job);
     GroupID := r_group t; Resolved := r_resolved t;
     Correlations := (λ c, {| Label := Label c; Token := Token c; Ordinal := Ordinal c; Scope := Scope c;
                              Match := Match c; OrdinalSpan := OrdinalSpan c; CorrJobID := EmptyString |})
       <$> r_correlations t |}.

Definition grouping_rows (l : ledger D) : list (Neighbourhood.row D) :=
  (λ t, {| row_posting := toDomain l t; row_purpose := r_purpose t |}) <$> txs l.

(** [groupingPostingsByID] *)
Definition groupingPostingsByID (user : string) (ids : list string) (l : ledger D)
    : list (GroupingPosting D) :=
  sort_by_id (filter (λ p, ID p ∈ ids) (transcribed (grouping_rows l) user)).

(** ** The writes

    [settler] is the store's [Settler], which is given the transaction in progress to
    read from; a store may have none. *)
Context (settler : option (string → list (GroupingPosting D) → ledger D → option (list GroupChange))).

Definition groupWritten (user : string) (postingIDs : list string) (touched : settleSet) (l : ledger D)
    : option (ledger D * settleSet) :=
  match settler, postingIDs with
  | None, _ | _, [] => Some (l, touched)
  | Some settle_, _ =>
      let seed := groupingPostingsByID user postingIDs l in
      match seed with
      | [] => Some (l, touched)
      | _ =>
          changes ← settle_ user seed l;
          match changes with
          | [] => Some (l, touched)
          | _ =>
              '(l, touched, _) ← applyChanges user changes touched l;
              Some (l, touched)
          end
      end
  end.

Definition parseNullUUID (s : string) : option (option string) :=
  if String.eqb s EmptyString then Some None else if uuid_ok s then Some (Some s) else None.

Definition ReplaceTxsInPeriod (userID broker jobID : string) (periodFrom periodBefore : option Z)
    (ts : list Tx) (instrumentIDs : list string) (weights : list (Weight D)) (bases : list (option Z))
    (l : ledger D) : option (ledger D) :=
  if negb (uuid_ok userID) then None else
  jobUUID ← parseNullUUID jobID;
  if negb (length instrumentIDs =? length ts) then None else
  fromT ← periodFrom;
  beforeT ← periodBefore;
  let '(l, cut) := clearPeriod userID broker fromT beforeT l in
  let touched := settle_addAll no_groups cut true in
  '(l, w) ← insertPostings userID broker EmptyString jobUUID ts instrumentIDs weights bases l
    {| postings := []; groups := [] |};
  let touched := settle_addAll touched (groups w) false in
  '(l, touched) ← groupWritten userID (postings w) touched l;
  settle_groups userID touched l.

Definition CreateTxGroup (userID broker account jobID : string) (ts : list Tx)
    (instrumentIDs : list string) (weights : list (Weight D)) (bases : list (option Z))
    (l : ledger D) : option (ledger D) :=
  if negb (uuid_ok userID) then None else
  jobUUID ← parseNullUUID jobID;
  '(l, w) ← insertPostings userID broker account jobUUID ts instrumentIDs weights bases l
    {| postings := []; groups := [] |};
  let touched := settle_addAll no_groups (groups w) false in
  '(l, touched) ← groupWritten userID (postings w) touched l;
  settle_groups userID touched l.

(** ** Balance *)

Context {laws : DecimalLaws D}.

(** The legs of a group sum to zero in every commodity, which is what the deferred
    constraint [check_tx_group_balance] demands of it at commit. *)
Definition balanced (l : ledger D) (g : string) : Prop := ∀ c, (dval (residual_of l g c) == 0)%Q.

(** What a leg says about the balance of its group. *)
Definition leg (t : row D) : D * string * option string := (r_weight t, r_commodity t, r_purpose t).

Lemma residual_of_legs l g c :
  residual_of l g c = dec_sum (omap (λ x : D * string * option string,
    if decide (x.1.2 = c) then Some x.1.1 else None) (leg <$> rows_of l g)).
Proof.
  unfold residual_of, rows_in, rows_of. f_equal. induction (txs l) as [|t ts IH]; [done|].
  rewrite !filter_cons. destruct (decide (r_group t = g)) as [Hg|Hg].
  - destruct (decide (r_commodity t = c)) as [Hc|Hc].
    + rewrite decide_True by done. cbn. rewrite decide_True by done. f_equal. exact IH.
    + rewrite decide_False by tauto. cbn. rewrite decide_False by done. exact IH.
  - rewrite decide_False by tauto. done.
Qed.

Lemma balanced_legs l l' g : leg <$> rows_of l' g = leg <$> rows_of l g → balanced l g → balanced l' g.
Proof. intros E Hb c. by rewrite residual_of_legs, E, <- residual_of_legs. Qed.

(** Rows added, all of them as [P] says, and nothing else changed. *)
Definition appended (P : row D → Prop) (l l' : ledger D) : Prop :=
  ∃ new, txs l' = txs l ++ new ∧ Forall P new ∧
    tx_groups l' = tx_groups l ∧ transfer_matches l' = transfer_matches l.

Lemma appended_refl P l : appended P l l.
Proof. exists []. by rewrite app_nil_r. Qed.

Lemma appended_trans P l1 l2 l3 : appended P l1 l2 → appended P l2 l3 → appended P l1 l3.
Proof.
  intros (n1 & E1 & F1 & G1 & M1) (n2 & E2 & F2 & G2 & M2). exists (n1 ++ n2).
  split_and!; [by rewrite E2, E1, app_assoc|by apply Forall_app|congruence..].
Qed.

Lemma appended_mono (P Q : row D → Prop) l l' : (∀ t, P t → Q t) → appended P l l' → appended Q l l'.
Proof. intros HPQ (n & ? & HF & ? & ?). exists n. split_and!; try done. by eapply Forall_impl. Qed.

Lemma appended_insert P mk l : (∀ id, P (mk id)) → appended P l (insert_row mk l).
Proof. intros HP. exists [mk (gen_uuid (used l))]. split_and!; [done|by constructor|done..]. Qed.

Lemma appended_rows P l l' g :
  appended P l l' → (∀ t, P t → r_group t ≠ g) → rows_of l' g = rows_of l g.
Proof.
  intros (n & E & HF & _) HP. unfold rows_of. rewrite E, filter_app.
  assert (filter (λ t, r_group t = g) n = []) as ->; [|by rewrite app_nil_r].
  clear E. induction HF as [|t n Ht _ IH]; [done|]. rewrite filter_cons, decide_False by by apply HP. done.
Qed.

Lemma foldl_option_appended {A} P (f : A → ledger D → option (ledger D)) l l' xs :
  (∀ x m m', x ∈ xs → f x m = Some m' → appended P m m') →
  foldl (λ acc x, m ← acc; f x m) (Some l) xs = Some l' → appended P l l'.
Proof.
  revert l. induction xs as [|x xs IH]; intros l Hf; simpl; [intros [= ->]; apply appended_refl|].
  destruct (f x l) as [m|] eqn:E.
  - intros Hl. apply (appended_trans _ _ m); [eapply Hf; [left|done]|]. apply IH; [|done].
    intros y m1 m2 Hy. apply Hf. by right.
  - intros Hl. exfalso. clear -Hl. by induction xs.
Qed.

Definition routed_in (purpose : string) (ids : gset string) (t : row D) : Prop :=
  r_group t ∈ ids ∧ r_purpose t = Some purpose.

Lemma route_boundaries_appends user ids l l' :
  routeBoundaries user ids l = Some l' → appended (routed_in BoundaryPurpose ids) l l'.
Proof.
  apply foldl_option_appended. intros c m m' Hc.
  rewrite elem_of_go_sort, list_elem_of_filter in Hc. destruct Hc as [(Hg & _) _]. unfold boundary_leg.
  destruct (Boundary _) as [a|]; [|intros [= <-]; apply appended_refl].
  destruct (AccountTypeToStr a); [|done]. simpl. destruct (leg_commodity _ _ _ _ _) as [[[[i d] tr] st]|]; [|done].
  simpl. intros [= <-]. by apply appended_insert.
Qed.

(** *** Residuals *)

Lemma elem_of_residual_keys ids l g c :
  (g, c) ∈ residual_keys ids l ↔
  g ∈ ids ∧ rows_in l g c ≠ [] ∧ ¬ (dval (residual_of l g c) == 0)%Q.
Proof.
  unfold residual_keys. rewrite elem_of_go_sort, list_elem_of_filter, elem_of_remove_dups, list_elem_of_fmap. simpl.
  rewrite <- not_true_iff_false, is_zero_eq. split.
  - intros [Hz (t & [= -> ->] & [Hg Ht]%list_elem_of_filter)]. split_and!; [done| |done].
    intros E. assert (t ∈ rows_in l (r_group t) (r_commodity t)) as Hin by by apply list_elem_of_filter.
    rewrite E in Hin. by apply elem_of_nil in Hin.
  - intros (Hg & Hr & Hz). split; [done|]. destruct (rows_in l g c) as [|t ts] eqn:E; [done|].
    assert (t ∈ rows_in l g c) as [[? ?] ?]%list_elem_of_filter by (rewrite E; left).
    exists t. split; [congruence|]. apply list_elem_of_filter. split; [congruence|done].
Qed.

Lemma residual_keys_NoDup ids l : NoDup (residual_keys ids l).
Proof. unfold residual_keys. rewrite go_sort_perm. apply NoDup_filter, NoDup_remove_dups. Qed.

Lemma head_go_sort_Some {A} (less : A → A → bool) l : l ≠ [] → ∃ x, head (go_sort less l) = Some x ∧ x ∈ l.
Proof.
  intros Hl. destruct (go_sort less l) as [|x k] eqn:E.
  - pose proof (go_sort_perm less l) as Hp. rewrite E in Hp. exfalso. apply Hl. by apply Permutation_nil_l in Hp.
  - exists x. split; [done|]. rewrite <- (elem_of_go_sort less), E. left.
Qed.

(** The leg posted for a commodity a group does not balance in. *)
Definition balances (l0 : ledger D) (k : string * string) (t : row D) : Prop :=
  (r_group t, r_commodity t) = k ∧ r_weight t = dec_neg (residual_of l0 k.1 k.2) ∧
  r_purpose t = Some RoutedPurpose.

Lemma residual_leg_spec user rule l0 g c l l' :
  rows_in l0 g c ≠ [] → residual_leg user rule l0 (g, c) l = Some l' →
  ∃ t, txs l' = txs l ++ [t] ∧ balances l0 (g, c) t ∧
    tx_groups l' = tx_groups l ∧ transfer_matches l' = transfer_matches l.
Proof.
  intros Hr. unfold residual_leg.
  destruct (head_go_sort_Some row_before (rows_in l0 g c) Hr) as (own & -> & Hown).
  destruct (head_go_sort_Some row_before (rows_of l0 g)) as (first & -> & _).
  { intros E. apply list_elem_of_filter in Hown as [[Hg _] Ht].
    assert (own ∈ rows_of l0 g) as Hin by by apply list_elem_of_filter. rewrite E in Hin. by apply elem_of_nil in Hin. }
  destruct (AccountTypeToStr _); [|done]. simpl. destruct (leg_commodity _ _ _ _ _) as [[[[i d] tr] st]|]; [|done].
  simpl. intros [= <-]. eexists. split; [reflexivity|]. done.
Qed.

Lemma residual_legs_spec user rule l0 ks l l' :
  (∀ k, k ∈ ks → rows_in l0 k.1 k.2 ≠ []) →
  foldl (λ acc k, m ← acc; residual_leg user rule l0 k m) (Some l) ks = Some l' →
  ∃ new, txs l' = txs l ++ new ∧ Forall2 (balances l0) ks new ∧
    tx_groups l' = tx_groups l ∧ transfer_matches l' = transfer_matches l.
Proof.
  revert l. induction ks as [|[g c] ks IH]; intros l Hks; cbn [foldl].
  { intros [= <-]. exists []. by rewrite app_nil_r. }
  cbn [mbind option_bind]. destruct (residual_leg user rule l0 (g, c) l) as [m|] eqn:E.
  - intros Hl. destruct (residual_leg_spec _ _ _ _ _ _ _ (Hks (g, c) ltac:(left)) E) as (t & Et & Hb & Eg & Em).
    destruct (IH m ltac:(intros; apply Hks; by right) Hl) as (new & En & Hf & Eg' & Em').
    exists (t :: new). split_and!; [by rewrite En, Et, <- app_assoc|by constructor|congruence..].
  - intros Hl. exfalso. clear -Hl. by induction ks.
Qed.

Lemma route_residuals_spec user rule ids l l' :
  routeResiduals user rule ids l = Some l' →
  ∃ new, txs l' = txs l ++ new ∧ Forall2 (balances l) (residual_keys ids l) new ∧
    tx_groups l' = tx_groups l ∧ transfer_matches l' = transfer_matches l.
Proof.
  apply residual_legs_spec. intros [g c] (_ & ? & _)%elem_of_residual_keys. done.
Qed.

Lemma balances_keys l0 ks new :
  Forall2 (balances l0) ks new → (λ t, (r_group t, r_commodity t)) <$> new = ks.
Proof. induction 1 as [|k t ks new (E & _) _ IH]; [done|]. rewrite fmap_cons. by rewrite E, IH. Qed.

Lemma balances_filter l0 ks new g c :
  NoDup ks → Forall2 (balances l0) ks new →
  (dval (dec_sum (r_weight <$> filter (λ t, r_group t = g ∧ r_commodity t = c) new)) ==
   if decide ((g, c) ∈ ks) then - dval (residual_of l0 g c) else 0)%Q.
Proof.
  intros Hnd Hf. revert Hnd. induction Hf as [|k t ks new (E & Ew & _) Hf IH]; intros Hnd.
  { rewrite decide_False by apply not_elem_of_nil. apply dec_sum_nil. }
  apply NoDup_cons in Hnd as [Hk Hnd]. specialize (IH Hnd). rewrite filter_cons.
  destruct (decide ((g, c) = k)) as [<-|Hne].
  - rewrite (decide_True (P:=(g, c) ∈ _)) by left. rewrite (decide_False (P:=(g, c) ∈ ks)) in IH by done.
    rewrite decide_True by (injection E as -> ->; done). simpl. rewrite dval_add, IH, Ew, dval_neg. simpl. ring.
  - rewrite decide_False by (intros [<- <-]; congruence). rewrite IH.
    destruct (decide ((g, c) ∈ ks)) as [Hin|Hin].
    + rewrite decide_True by by right. reflexivity.
    + rewrite decide_False by (intros [?|?]%elem_of_cons; congruence || done). reflexivity.
Qed.

Lemma residual_of_app l l' new g c :
  txs l' = txs l ++ new →
  (dval (residual_of l' g c) == dval (residual_of l g c) +
    dval (dec_sum (r_weight <$> filter (λ t, r_group t = g ∧ r_commodity t = c) new)))%Q.
Proof. intros E. unfold residual_of, rows_in. rewrite E, filter_app, fmap_app. apply dec_sum_app. Qed.

Lemma route_residuals_balance user rule ids l l' g :
  routeResiduals user rule ids l = Some l' → g ∈ ids → balanced l' g.
Proof.
  intros (new & E & Hf & _)%route_residuals_spec Hg c.
  rewrite (residual_of_app _ _ _ g c E), (balances_filter _ _ _ _ _ (residual_keys_NoDup ids l) Hf).
  destruct (decide ((g, c) ∈ residual_keys ids l)) as [Hin|Hin]; [ring|].
  rewrite elem_of_residual_keys in Hin. destruct (decide (rows_in l g c = [])) as [En|Hn].
  - unfold residual_of. rewrite En. simpl. rewrite dval_zero. reflexivity.
  - destruct (Qeq_dec (dval (residual_of l g c)) 0) as [->|?]; [ring|tauto].
Qed.

Lemma route_residuals_appends user rule ids l l' :
  routeResiduals user rule ids l = Some l' → appended (routed_in RoutedPurpose ids) l l'.
Proof.
  intros (new & E & Hf & Eg & Em)%route_residuals_spec. exists new. split_and!; try done.
  apply Forall_forall. intros t Ht. apply list_elem_of_lookup in Ht as [i Hi].
  destruct (Forall2_lookup_r _ _ _ _ _ Hf Hi) as ([g c] & Hk%list_elem_of_lookup_2 & ([= Eg' _] & _ & Hp)).
  apply elem_of_residual_keys in Hk as [Hg _]. split; [congruence|done].
Qed.

(** *** [settle] *)

Definition routed_row (ids : gset string) (t : row D) : Prop := r_group t ∈ ids ∧ routed t = true.

Lemma settle_appends user rule ids l l' :
  settle user rule ids l = Some l' → appended (routed_row ids) l l'.
Proof.
  unfold settle. case_decide; [intros [= <-]; apply appended_refl|].
  destruct (routeBoundaries user ids l) as [m|] eqn:E; [|done]. simpl. intros Hr.
  apply (appended_trans _ _ m).
  - apply route_boundaries_appends in E. eapply appended_mono, E. intros t [Hg Hp]. split; [done|].
    unfold routed. by rewrite Hp.
  - apply route_residuals_appends in Hr. eapply appended_mono, Hr. intros t [Hg Hp]. split; [done|].
    unfold routed. by rewrite Hp.
Qed.

Lemma settle_balances_in user rule ids l l' g :
  settle user rule ids l = Some l' → g ∈ ids → balanced l' g.
Proof.
  unfold settle. case_decide as Hids; [set_solver|].
  destruct (routeBoundaries user ids l) as [m|]; [|done]. simpl. apply route_residuals_balance.
Qed.

Lemma appended_stated P l l' :
  appended P l l' → (∀ t, P t → routed t = true) →
  filter (λ t, routed t = false) (txs l') = filter (λ t, routed t = false) (txs l).
Proof.
  intros (n & E & HF & _) HP. rewrite E, filter_app.
  assert (filter (λ t, routed t = false) n = []) as ->; [|by rewrite app_nil_r].
  clear E. induction HF as [|t n Ht _ IH]; [done|]. rewrite filter_cons, decide_False; [done|].
  by rewrite HP.
Qed.

(** It writes what it owes as long as the currencies its legs weigh in are seeded. *)
Definition seeded (ids : gset string) (l : ledger D) : Prop :=
  ∀ t code, t ∈ txs l → r_group t ∈ ids → CurrencyOf (r_commodity t) = Some code →
    is_Some (currency_instrument code).

Definition names_accounts (rule : residualRule) : Prop :=
  ∀ c a r ts, is_Some (AccountTypeToStr (rule c a r ts)).

Lemma leg_commodity_total c i d tr st :
  (∀ code, CurrencyOf c = Some code → is_Some (currency_instrument code)) →
  is_Some (leg_commodity c i d tr st).
Proof.
  intros Hc. unfold leg_commodity. destruct (CurrencyOf c) as [code|]; [|by eexists].
  destruct (Hc code eq_refl) as [id ->]. by eexists.
Qed.

Lemma foldl_option_total {A} (f : A → ledger D → option (ledger D)) l xs :
  (∀ x m, x ∈ xs → is_Some (f x m)) → is_Some (foldl (λ acc x, m ← acc; f x m) (Some l) xs).
Proof.
  revert l. induction xs as [|x xs IH]; intros l Hf; simpl; [by eexists|].
  destruct (Hf x l ltac:(left)) as [m ->]. apply IH. intros y m' Hy. apply Hf. by right.
Qed.

Lemma route_boundaries_total user ids l : seeded ids l → is_Some (routeBoundaries user ids l).
Proof.
  intros Hs. apply foldl_option_total. intros c m Hc. rewrite elem_of_go_sort, list_elem_of_filter in Hc.
  destruct Hc as [(Hg & _) Hc]. unfold boundary_leg. destruct (Boundary _) as [a|] eqn:Ea; [|by eexists].
  destruct (boundary_stored _ _ Ea) as [s ->]. simpl.
  destruct (leg_commodity_total (r_commodity c) (r_instrument c) (r_description c) (r_trading c) (r_settlement c))
    as [[[[i d] tr] st] ->]; [intros code; by apply Hs|]. simpl. by eexists.
Qed.

Lemma route_residuals_total user rule ids l :
  names_accounts rule → seeded ids l → is_Some (routeResiduals user rule ids l).
Proof.
  intros Hr Hs. apply foldl_option_total. intros [g c] m Hk.
  apply elem_of_residual_keys in Hk as (Hg & Hrows & _). unfold residual_leg.
  destruct (head_go_sort_Some row_before (rows_in l g c) Hrows) as (own & -> & Hown).
  destruct (head _) as [first|]; [|by eexists].
  destruct (Hr c (dec_neg (residual_of l g c)) (price_rounding l g)
    (StrsToTxTypes (remove_dups (r_resolved <$> rows_of l g)))) as [s ->]. simpl.
  destruct (leg_commodity_total c (r_instrument own) (r_description own) (r_trading first) (r_settlement first))
    as [[[[i d] tr] st] ->]; [|by eexists].
  intros code. apply list_elem_of_filter in Hown as [[Eg Ec] Ht]. rewrite <- Ec. apply Hs; [done|congruence].
Qed.

Lemma seeded_boundaries user ids l l' : seeded ids l → routeBoundaries user ids l = Some l' → seeded ids l'.
Proof.
  intros Hs. unfold routeBoundaries.
  assert (Hc : ∀ c, c ∈ go_sort row_before (filter (is_boundary_candidate ids) (txs l)) → ∀ code,
    CurrencyOf (r_commodity c) = Some code → is_Some (currency_instrument code)).
  { intros c. rewrite elem_of_go_sort, list_elem_of_filter. intros [(Hg & _) Hc] code. by apply Hs. }
  revert Hc. generalize (go_sort row_before (filter (is_boundary_candidate ids) (txs l))). intros xs. revert l Hs.
  induction xs as [|c xs IH]; intros l Hs Hc; simpl; [by intros [= <-]|].
  destruct (boundary_leg user c l) as [m|] eqn:E.
  - apply IH; [|intros; eapply Hc; [by right|done]].
    unfold boundary_leg in E. destruct (Boundary _); [|injection E as <-; done].
    destruct (AccountTypeToStr _); [|done]. simpl in E.
    destruct (leg_commodity _ _ _ _ _) as [[[[i d] tr] st]|]; [|done]. simpl in E. injection E as <-.
    intros t code [Ht| ->%list_elem_of_singleton]%elem_of_app Hg; [by apply Hs|]. simpl. apply Hc. left.
  - intros Hl. exfalso. clear -Hl. by induction xs.
Qed.

Lemma settle_total user rule ids l :
  names_accounts rule → seeded ids l → is_Some (settle user rule ids l).
Proof.
  intros Hr Hs. unfold settle. case_decide; [by eexists|].
  destruct (route_boundaries_total user ids l Hs) as [m E]. rewrite E. simpl.
  apply route_residuals_total; [done|]. by eapply seeded_boundaries.
Qed.

Lemma settle_groups_spec user s l l' :
  settle_groups user s l = Some l' →
  appended (routed_row (all s)) l l' ∧ ∀ g, g ∈ all s → balanced l' g.
Proof.
  unfold settle_groups. case_decide as Hok; [|done].
  destruct (settle user wholeSource (all s ∖ lost s) l) as [m|] eqn:E1; [|done]. simpl. intros E2.
  pose proof (settle_appends _ _ _ _ _ E1) as A1. pose proof (settle_appends _ _ _ _ _ E2) as A2. split.
  - apply (appended_trans _ _ m); [eapply appended_mono, A1|eapply appended_mono, A2];
      intros t [Hg Hr]; (split; [set_solver|done]).
  - intros g Hg. destruct (decide (g ∈ lost s)) as [Hl|Hl].
    + eapply settle_balances_in; [exact E2|set_solver].
    + apply (balanced_legs m); [|eapply settle_balances_in; [exact E1|set_solver]].
      f_equal. eapply appended_rows; [exact A2|]. intros t [Ht _] <-. set_solver.
Qed.

(** C6: [settle] posts exactly what a group is owed.  When the currencies its legs
    weigh in are seeded it always succeeds; every group it is given then sums to zero
    in every commodity; all it adds are boundary and residual legs of those groups, so
    no stated posting and no other group changes. *)
Theorem settle_balances user rule ids l :
  names_accounts rule → seeded ids l →
  ∃ l', settle user rule ids l = Some l' ∧
    (∀ g, g ∈ ids → balanced l' g) ∧
    (∀ g, g ∉ ids → rows_of l' g = rows_of l g) ∧
    filter (λ t, routed t = false) (txs l') = filter (λ t, routed t = false) (txs l) ∧
    tx_groups l' = tx_groups l ∧ transfer_matches l' = transfer_matches l.
Proof.
  intros Hr Hs. destruct (settle_total user rule ids l Hr Hs) as [l' E]. exists l'.
  pose proof (settle_appends _ _ _ _ _ E) as A.
  pose proof A as (new & _ & _ & Eg & Em). split_and!; [done| | | |done..].
  - intros g. by eapply settle_balances_in.
  - intros g Hg. eapply appended_rows; [exact A|]. intros t [Ht _] <-. done.
  - eapply appended_stated; [exact A|]. by intros t [_ ?].
Qed.

(** ** The invariant of the ledger *)

(** One residual leg at most per group and commodity. *)
Definition one_residual (l : ledger D) (g : string) : Prop := ∀ c,
  length (filter (λ x : D * string * option string, x.1.2 = c ∧ x.2 = Some RoutedPurpose)
    (leg <$> rows_of l g)) ≤ 1.

(** [strict] asks for that too; a merge of two instruments keeps the balance of a group
    and may bring two residual legs of it together. *)
Context (strict : Prop).

Definition settled (l : ledger D) (g : string) : Prop := balanced l g ∧ (strict → one_residual l g).

(** The keys: ids are distinct, every posting is of a group there is, and the groups'
    ids are UUIDs. *)
Definition keyed (l : ledger D) : Prop :=
  NoDup (r_id <$> txs l) ∧
  (∀ t, t ∈ txs l → r_group t ∈ dom (tx_groups l)) ∧
  ∀ g, g ∈ dom (tx_groups l) → uuid_ok g = true.

Definition ledger_ok (l : ledger D) : Prop := keyed l ∧ ∀ g, settled l g.

(** A ledger in which the groups of [s] have been stripped of what was routed to them,
    and the others are settled. *)
Definition stripped (l : ledger D) (ids : gset string) : Prop :=
  ∀ t, t ∈ txs l → r_group t ∈ ids → routed t = false.

Definition settled_but (l : ledger D) (ids : gset string) : Prop := ∀ g, g ∉ ids → settled l g.

Definition ready (l : ledger D) (s : settleSet) : Prop :=
  keyed l ∧ stripped l (all s) ∧ settled_but l (all s).

Lemma settled_legs l l' g : leg <$> rows_of l' g = leg <$> rows_of l g → settled l g → settled l' g.
Proof. intros E [Hb Ho]. split; [by eapply balanced_legs|]. intros Hs c. rewrite E. by apply Ho. Qed.

Hypothesis gen_fresh : ∀ X, gen_uuid X ∉ X.
Hypothesis gen_ok : ∀ X, uuid_ok (gen_uuid X) = true.
Hypothesis empty_not_ok : uuid_ok EmptyString = false.

(** *** Settling *)

Lemma insert_row_keyed mk l :
  (∀ id, r_id (mk id) = id) → (∀ id, r_group (mk id) ∈ dom (tx_groups l)) →
  keyed l → keyed (insert_row mk l).
Proof.
  intros Hid Hg (Hnd & Hfk & Hu). split_and!; [| |done].
  - simpl. rewrite fmap_app. apply NoDup_app. split_and!; [done| |apply NoDup_singleton].
    intros x Hx ->%list_elem_of_singleton. rewrite Hid in Hx. apply (gen_fresh (used l)).
    unfold used. apply elem_of_union_l. by apply elem_of_list_to_set.
  - intros t [?| ->%list_elem_of_singleton]%elem_of_app; [by apply Hfk|apply Hg].
Qed.

Lemma foldl_option_inv {A} (P : ledger D → Prop) (f : A → ledger D → option (ledger D)) l l' xs :
  (∀ x m m', x ∈ xs → P m → f x m = Some m' → P m') →
  foldl (λ acc x, m ← acc; f x m) (Some l) xs = Some l' → P l → P l'.
Proof.
  revert l. induction xs as [|x xs IH]; intros l Hf; simpl; [by intros [= ->]|].
  destruct (f x l) as [m|] eqn:E.
  - intros Hl HP. eapply IH; [|exact Hl|by eapply Hf; [left| |]]. intros y m1 m2 Hy. apply Hf. by right.
  - intros Hl. exfalso. clear -Hl. by induction xs.
Qed.

(** Groups stay as they are while legs are posted. *)
Definition keyed_as (gs : gmap string group) (l : ledger D) : Prop := tx_groups l = gs ∧ keyed l.

Lemma route_boundaries_keyed user ids l l' : routeBoundaries user ids l = Some l' → keyed l → keyed l'.
Proof.
  intros E Hk. assert (keyed_as (tx_groups l) l') as [_ ?]; [|done].
  eapply (foldl_option_inv (keyed_as (tx_groups l))); [|exact E|done].
  intros c m m' Hc [Eg Hm]. rewrite elem_of_go_sort, list_elem_of_filter in Hc. destruct Hc as [_ Hc].
  unfold boundary_leg. destruct (Boundary _); [|intros [= <-]; done].
  destruct (AccountTypeToStr _); [|done]. simpl. destruct (leg_commodity _ _ _ _ _) as [[[[i d] tr] st]|]; [|done].
  simpl. intros [= <-]. split; [done|]. apply insert_row_keyed; [done| |done].
  intros id. simpl. rewrite Eg. by apply Hk.
Qed.

Lemma route_residuals_keyed user rule ids l l' : routeResiduals user rule ids l = Some l' → keyed l → keyed l'.
Proof.
  intros E Hk. assert (keyed_as (tx_groups l) l') as [_ ?]; [|done].
  eapply (foldl_option_inv (keyed_as (tx_groups l))); [|exact E|done].
  intros [g c] m m' (_ & Hr & _)%elem_of_residual_keys [Eg Hm]. unfold residual_leg.
  destruct (head _); [|intros [= <-]; done]. destruct (head _); [|intros [= <-]; done].
  destruct (AccountTypeToStr _); [|done]. simpl. destruct (leg_commodity _ _ _ _ _) as [[[[i d] tr] st]|]; [|done].
  simpl. intros [= <-]. split; [done|]. apply insert_row_keyed; [done| |done].
  intros id. simpl. rewrite Eg. destruct (rows_in l g c) as [|t ts] eqn:Er; [done|].
  assert (t ∈ rows_in l g c) as [[<- _] Ht]%list_elem_of_filter by (rewrite Er; left). by apply Hk.
Qed.

Lemma settle_keyed user rule ids l l' : settle user rule ids l = Some l' → keyed l → keyed l'.
Proof.
  unfold settle. case_decide; [by intros [= <-]|].
  destruct (routeBoundaries user ids l) as [m|] eqn:E; [|done]. simpl. intros E2 Hk.
  eapply route_residuals_keyed; [done|]. by eapply route_boundaries_keyed.
Qed.

Lemma filter_none {A} (P : A → Prop) `{∀ x, Decision (P x)} (l : list A) :
  (∀ x, x ∈ l → ¬ P x) → filter P l = [].
Proof.
  induction l as [|a l IH]; intros Hl; [done|]. rewrite filter_cons, decide_False by (apply Hl; left).
  apply IH. intros x Hx. apply Hl. by right.
Qed.

Lemma filter_all {A} (P : A → Prop) `{∀ x, Decision (P x)} (l : list A) :
  (∀ x, x ∈ l → P x) → filter P l = l.
Proof.
  induction l as [|a l IH]; intros Hl; [done|]. rewrite filter_cons, decide_True by (apply Hl; left).
  f_equal. apply IH. intros x Hx. apply Hl. by right.
Qed.

Lemma filter_leg_rows l g c :
  length (filter (λ x : D * string * option string, x.1.2 = c ∧ x.2 = Some RoutedPurpose) (leg <$> rows_of l g)) =
  length (filter (λ t, r_group t = g ∧ r_commodity t = c ∧ r_purpose t = Some RoutedPurpose) (txs l)).
Proof.
  unfold rows_of. induction (txs l) as [|t ts IH]; [done|]. rewrite !filter_cons.
  destruct (decide (r_group t = g)) as [Hg|Hg].
  - rewrite fmap_cons, filter_cons. destruct (decide ((leg t).1.2 = c ∧ (leg t).2 = Some RoutedPurpose)) as [Hc|Hc];
      simpl in Hc.
    + rewrite decide_True by tauto. simpl. by rewrite IH.
    + rewrite decide_False by tauto. done.
  - rewrite (decide_False (P:=r_group t = g ∧ _)) by tauto. done.
Qed.

Lemma NoDup_filter_key {A K} `{EqDecision K} (f : A → K) (P : A → Prop) `{∀ x, Decision (P x)} (k : K) l :
  NoDup (f <$> l) → (∀ x, P x → f x = k) → length (filter P l) ≤ 1.
Proof.
  intros Hnd HP. induction l as [|a l IH]; [simpl; lia|].
  rewrite fmap_cons in Hnd. apply NoDup_cons in Hnd as [Ha Hnd]. rewrite filter_cons. case_decide as Hp; [|by apply IH].
  rewrite filter_none; [simpl; lia|]. intros x Hx Hpx. apply Ha. rewrite (HP _ Hp), <- (HP _ Hpx).
  apply list_elem_of_fmap. by exists x.
Qed.

Lemma settle_one_residual user rule ids l l' g :
  settle user rule ids l = Some l' → g ∈ ids → stripped l ids → one_residual l' g.
Proof.
  unfold settle. case_decide as Hids; [set_solver|].
  destruct (routeBoundaries user ids l) as [m|] eqn:E; [|done]. simpl.
  intros (new & En & Hf & _)%route_residuals_spec Hg Hs c. rewrite filter_leg_rows, En.
  apply route_boundaries_appends in E as (bs & Eb & HFb & _). rewrite Eb, !filter_app, !length_app.
  rewrite (filter_none _ (txs l)), (filter_none _ bs).
  - simpl. apply (NoDup_filter_key (λ t, (r_group t, r_commodity t)) _ (g, c)).
    + rewrite (balances_keys _ _ _ Hf). apply residual_keys_NoDup.
    + by intros t (-> & -> & _).
  - intros t Ht (_ & _ & Hp). rewrite Forall_forall in HFb. destruct (HFb t Ht) as [_ Hp']. unfold RoutedPurpose, BoundaryPurpose in *. congruence.
  - intros t Ht (<- & _ & Hp). specialize (Hs t Ht Hg). unfold routed in Hs. by rewrite Hp in Hs.
Qed.

Lemma settle_stripped user rule ids ids' l l' :
  settle user rule ids l = Some l' → ids ## ids' → stripped l ids' → stripped l' ids'.
Proof.
  intros (new & En & HF & _)%settle_appends Hd Hs t. rewrite En. intros [Ht|Ht]%elem_of_app Hg; [by apply Hs|].
  rewrite Forall_forall in HF. destruct (HF t Ht). set_solver.
Qed.

(** Settling what is ready makes the ledger whole. *)
Lemma settle_ready user s l l' : ready l s → settle_groups user s l = Some l' → ledger_ok l'.
Proof.
  intros (Hk & Hs & Ho) E. pose proof (settle_groups_spec _ _ _ _ E) as [HA Hb].
  unfold settle_groups in E. case_decide; [|done].
  destruct (settle user wholeSource (all s ∖ lost s) l) as [m|] eqn:E1; [|done]. simpl in E.
  split; [eapply settle_keyed; [exact E|]; by eapply settle_keyed|]. intros g.
  destruct (decide (g ∈ all s)) as [Hg|Hg].
  - split; [by apply Hb|]. intros _. destruct (decide (g ∈ lost s)) as [Hl|Hl].
    + eapply settle_one_residual; [exact E|set_solver|].
      eapply settle_stripped; [exact E1|set_solver|]. intros t Ht Hgt. apply Hs; [done|set_solver].
    + assert (one_residual m g) as Hm.
      { eapply settle_one_residual; [exact E1|set_solver|]. intros t Ht Hgt. apply Hs; [done|set_solver]. }
      apply settle_appends in E. intros c.
      rewrite (appended_rows _ _ _ g E); [apply Hm|]. intros t [Ht _] <-. set_solver.
  - apply (settled_legs l); [|by apply Ho]. f_equal. eapply appended_rows; [exact HA|].
    intros t [Ht _] <-. done.
Qed.

(** *** The statements that clean up *)

Lemma delete_emptied_keyed ids l : keyed l → keyed (deleteEmptiedGroups ids l).
Proof.
  intros (Hnd & Hfk & Hu). split_and!; [done| |].
  - intros t Ht. simpl. specialize (Hfk t Ht). apply elem_of_dom in Hfk as [g Hg]. apply elem_of_dom. exists g.
    apply map_lookup_filter_Some. split; [done|]. right. simpl. intros E.
    assert (t ∈ rows_of l (r_group t)) as Hin by by apply list_elem_of_filter. rewrite E in Hin. by apply elem_of_nil in Hin.
  - intros g [x [Hg _]%map_lookup_filter_Some]%elem_of_dom. apply Hu. by eapply elem_of_dom_2.
Qed.

Lemma repoint_keyed ids l : keyed l → keyed (repointGroupTimestamps ids l).
Proof.
  intros (Hnd & Hfk & Hu).
  assert (Hdom : ∀ g, g ∈ dom (tx_groups (repointGroupTimestamps ids l)) ↔ g ∈ dom (tx_groups l)).
  { intros g. simpl. rewrite !elem_of_dom, map_lookup_imap. destruct (tx_groups l !! g); simpl.
    - split; intros _; by eexists.
    - done. }
  split_and!; [done| |].
  - intros t Ht. apply Hdom. by apply Hfk.
  - intros g Hg%Hdom. by apply Hu.
Qed.

Lemma filter_keyed (P : row D → Prop) `{∀ t, Decision (P t)} l : keyed l → keyed (with_txs l (filter P (txs l))).
Proof.
  intros (Hnd & Hfk & Hu). split_and!; [| |done].
  - simpl. eapply sublist_NoDup; [exact Hnd|]. apply fmap_sublist, sublist_filter.
  - intros t [_ Ht]%list_elem_of_filter. by apply Hfk.
Qed.

Lemma clean_up_keyed ids l : keyed l → keyed (clean_up ids l).
Proof.
  intros Hk. change (keyed (deleteTouchedMatches ids ?x)) with (keyed x).
  apply repoint_keyed, delete_emptied_keyed, filter_keyed, Hk.
Qed.

Lemma clean_up_stripped ids l : stripped (clean_up ids l) ids.
Proof.
  intros t [Hn Ht]%list_elem_of_filter Hg. destruct (routed t); [|done]. by destruct Hn.
Qed.

Lemma filter_filter_imp {A} (P Q : A → Prop) `{∀ x, Decision (P x), ∀ x, Decision (Q x)} (l : list A) :
  (∀ x, x ∈ l → P x → Q x) → filter P (filter Q l) = filter P l.
Proof.
  induction l as [|a l IH]; intros HPQ; [done|]. rewrite !filter_cons.
  destruct (decide (Q a)) as [Hq|Hq].
  - rewrite filter_cons. case_decide; rewrite IH; try done; intros; by apply HPQ; [right|].
  - rewrite decide_False by (intros Hp; apply Hq, HPQ; [left|done]). apply IH. intros x Hx. apply HPQ. by right.
Qed.

Lemma clean_up_rows ids l g : g ∉ ids → rows_of (clean_up ids l) g = rows_of l g.
Proof. intros Hg. unfold rows_of. simpl. apply filter_filter_imp. intros t _ <-. tauto. Qed.

(** *** Moving postings *)

(** [regrouping T l0 l]: the rows of [l] are those of [l0], moved at most between
    groups of [T], and retyped. *)
Definition moved_from (T : gset string) (t0 t : row D) : Prop :=
  (∃ g r, t = with_group g r t0) ∧
  (r_group t = r_group t0 ∨ (r_group t ∈ T ∧ r_group t0 ∈ T)).

Definition regrouping (T : gset string) (l0 l : ledger D) : Prop := Forall2 (moved_from T) (txs l0) (txs l).

Lemma with_group_id t : with_group (r_group t) (r_resolved t) t = t.
Proof. by destruct t. Qed.

Lemma regrouping_refl T l : regrouping T l l.
Proof.
  unfold regrouping. induction (txs l) as [|t ts IH]; constructor; [|done].
  split; [|by left]. exists (r_group t), (r_resolved t). by rewrite with_group_id.
Qed.

Lemma regrouping_mono T T' l0 l : T ⊆ T' → regrouping T l0 l → regrouping T' l0 l.
Proof. intros HT Hr. eapply Forall2_impl; [exact Hr|]. intros t0 t [Hw [?|[??]]]; (split; [done|]); [by left|right; set_solver]. Qed.

Lemma regrouping_map T l0 l (f : row D → row D) :
  (∀ t0 t, t0 ∈ txs l0 → moved_from T t0 t → moved_from T t0 (f t)) →
  regrouping T l0 l → regrouping T l0 (with_txs l (f <$> txs l)).
Proof.
  unfold regrouping. simpl. intros Hf Hr. apply Forall2_fmap_r. revert Hf. induction Hr as [|t0 t ts0 ts Ht Hr IH]; intros Hf; constructor.
  - apply Hf; [left|done].
  - apply IH. intros t1 t2 Ht1. apply Hf. by right.
Qed.

Lemma resolve_only_regroups T l0 l resolved ids :
  regrouping T l0 l → regrouping T l0 (resolve_only resolved ids l).
Proof.
  apply regrouping_map. intros t0 t _ [(g & r & ->) Hg]. case_decide; [|split; [by exists g, r|done]].
  split; [|done]. by exists g, resolved.
Qed.

Lemma move_group_regroups T l0 l g resolved ids :
  g ∈ T → (∀ t, t ∈ txs l0 → r_id t ∈ ids → r_group t ∈ T) →
  regrouping T l0 l → regrouping T l0 (move_group g resolved ids l).
Proof.
  intros Hg Hids. apply regrouping_map. intros t0 t Ht0 [(g' & r & ->) Hgt].
  case_decide as Hid; [|split; [by exists g', r|done]]. simpl in Hid.
  split; [by exists g, resolved|]. right. split; [done|]. by apply Hids.
Qed.

Lemma each_type_inv (P : ledger D → Prop) f (m : gmap string (list string)) l :
  (∀ k l, P l → P (f k (at_key m k) l)) → P l → P (each_type f m l).
Proof. intros Hf HP. unfold each_type. apply foldl_inv; [done|]. intros; by apply Hf. Qed.

Lemma elem_of_by_type moving c k id :
  id ∈ at_key (by_type moving c) k → ∃ m, m ∈ gc_Members c ∧ gmc_Moving m = moving ∧ gmc_ID m = id.
Proof.
  unfold by_type. rewrite at_key_index_by, elem_of_sel, list_elem_of_fmap.
  intros (m & [= -> ->] & [? ?]%list_elem_of_filter). by exists m.
Qed.

(** The engine's changes name the group each posting they move is in. *)
Definition changes_ok (l : ledger D) (changes : list GroupChange) : Prop :=
  ∀ c m t, c ∈ changes → m ∈ gc_Members c → gmc_Moving m = true → t ∈ txs l →
    r_id t = gmc_ID m → gmc_FromGroupID m = r_group t.

Lemma regrouping_ids T l0 l : regrouping T l0 l → r_id <$> txs l = r_id <$> txs l0.
Proof. unfold regrouping. induction 1 as [|t0 t ts0 ts [(g & r & ->) _] _ IH]; [done|]. rewrite !fmap_cons. by rewrite IH. Qed.

Lemma regrouping_rows T l0 l g :
  regrouping T l0 l → g ∉ T → leg <$> rows_of l g = leg <$> rows_of l0 g.
Proof.
  unfold regrouping, rows_of. intros Hr Hg. induction Hr as [|t0 t ts0 ts [(g' & r & ->) Hgt] _ IH]; [done|].
  rewrite !filter_cons. destruct (decide (r_group t0 = g)) as [E0|E0].
  - rewrite decide_True by (destruct Hgt as [?|[? ?]]; congruence || set_solver). rewrite !fmap_cons. by f_equal.
  - rewrite decide_False; [done|]. destruct Hgt as [?|[? ?]]; [congruence|]. intros <-. done.
Qed.

Lemma regrouping_stated T l0 l :
  regrouping T l0 l →
  Forall2 (λ t0 t, ∃ g r, t = with_group g r t0)
    (filter (λ t, routed t = false) (txs l0)) (filter (λ t, routed t = false) (txs l)).
Proof.
  unfold regrouping. induction 1 as [|t0 t ts0 ts [(g & r & ->) _] _ IH]; [constructor|]. rewrite !filter_cons.
  assert (routed (with_group g r t0) = routed t0) as -> by done. case_decide; [|done]. constructor; [|done]. by exists g, r.
Qed.

Lemma map_keyed l (f : row D → row D) :
  (∀ t, r_id (f t) = r_id t) → (∀ t, t ∈ txs l → r_group (f t) ∈ dom (tx_groups l)) →
  keyed l → keyed (with_txs l (f <$> txs l)).
Proof.
  intros Hid Hg (Hnd & Hfk & Hu). split_and!; [| |done].
  - simpl. rewrite <- list_fmap_compose.
    assert (r_id ∘ f <$> txs l = r_id <$> txs l) as -> by (apply list_fmap_ext; intros i t _; apply Hid). done.
  - intros t (t' & -> & Ht)%list_elem_of_fmap. by apply Hg.
Qed.

Lemma resolve_only_keyed resolved ids l : keyed l → keyed (resolve_only resolved ids l).
Proof.
  intros Hk. apply map_keyed; [|intros t Ht|done]; [intros t; by case_decide|].
  destruct Hk as (_ & Hfk & _). case_decide; simpl; by apply Hfk.
Qed.

Lemma move_group_keyed g resolved ids l :
  g ∈ dom (tx_groups l) → keyed l → keyed (move_group g resolved ids l).
Proof.
  intros Hg Hk. apply map_keyed; [|intros t Ht|done]; [intros t; by case_decide|].
  case_decide; [done|]. by apply Hk.
Qed.

(** Every group a posting is moved out of is touched from the start. *)
Lemma touch_members_all changes touched :
  all touched ⊆ all (foldl touch_members touched changes) ∧
  ∀ c m, c ∈ changes → m ∈ gc_Members c → gmc_FromGroupID m ≠ EmptyString →
    gmc_FromGroupID m ∈ all (foldl touch_members touched changes).
Proof.
  assert (Hm : ∀ ms s, all s ⊆ all (foldl (λ s m, if String.eqb (gmc_FromGroupID m) EmptyString then s
    else settle_add s (gmc_FromGroupID m) (gmc_Moving m)) s ms) ∧ ∀ m, m ∈ ms → gmc_FromGroupID m ≠ EmptyString →
    gmc_FromGroupID m ∈ all (foldl (λ s m, if String.eqb (gmc_FromGroupID m) EmptyString then s
    else settle_add s (gmc_FromGroupID m) (gmc_Moving m)) s ms)).
  { induction ms as [|m ms IH]; intros s; simpl; [split; [done|by intros m ?%elem_of_nil]|].
    destruct (String.eqb_spec (gmc_FromGroupID m) EmptyString) as [E|E].
    - destruct (IH s) as [H1 H2]. split; [done|]. intros m' [->|?]%elem_of_cons ?; [done|by apply H2].
    - destruct (IH (settle_add s (gmc_FromGroupID m) (gmc_Moving m))) as [H1 H2]. simpl in H1.
      split; [set_solver|]. intros m' [->|?]%elem_of_cons ?; [set_solver|by apply H2]. }
  revert touched. induction changes as [|c changes IH]; intros touched; simpl.
  { split; [done|]. by intros c m ?%elem_of_nil. }
  destruct (IH (touch_members touched c)) as [H1 H2]. destruct (Hm (gc_Members c) touched) as [H3 H4].
  split; [unfold touch_members in *; set_solver|]. intros c' m [->|Hc]%elem_of_cons Hin Hne; [|by eapply H2].
  apply H1. by apply H4.
Qed.

Lemma apply_change_spec user l0 c l s n l' s' n' :
  keyed l → regrouping (all s) l0 l →
  (∀ t, t ∈ txs l0 → r_id t ∈ move_ids c → r_group t ∈ all s) →
  apply_change user (l, s, n) c = Some (l', s', n') →
  keyed l' ∧ regrouping (all s') l0 l' ∧ all s ⊆ all s'.
Proof.
  intros Hk Hr Hmv. unfold apply_change. set (l1 := each_type resolve_only _ l).
  assert (keyed l1 ∧ regrouping (all s) l0 l1) as [Hk1 Hr1].
  { apply (each_type_inv (λ l, keyed l ∧ regrouping (all s) l0 l)); [|done].
    intros k m [??]. split; [by apply resolve_only_keyed|by apply resolve_only_regroups]. }
  clearbody l1. destruct (move_ids c) as [|i is0] eqn:Em; [by intros [= <- <- <-]|]. rewrite <- Em in *. clear Em i is0.
  destruct (first_date _) as [date|]; [|done]. simpl. intros [= <- <- <-].
  set (g := gen_uuid (used l1)). set (l2 := Build_ledger _ _ _ _).
  assert (keyed l2) as Hk2.
  { destruct Hk1 as (Hnd & Hfk & Hu). split_and!; [done| |]; simpl.
    - intros t Ht. rewrite dom_insert. set_solver.
    - intros g'. rewrite dom_insert. intros [->%elem_of_singleton|?]%elem_of_union; [apply gen_ok|by apply Hu]. }
  assert (regrouping ({[g]} ∪ all s) l0 l2) as Hr2 by (eapply regrouping_mono; [|exact Hr1]; set_solver).
  assert (Hg2 : g ∈ dom (tx_groups l2)) by (simpl; rewrite dom_insert; set_solver).
  clearbody l2. simpl.
  assert (keyed (each_type (move_group g) (by_type true c) l2) ∧
    regrouping ({[g]} ∪ all s) l0 (each_type (move_group g) (by_type true c) l2) ∧
    g ∈ dom (tx_groups (each_type (move_group g) (by_type true c) l2))) as (? & ? & _); [|split_and!; [done..|set_solver]].
  apply (each_type_inv (λ l, keyed l ∧ regrouping ({[g]} ∪ all s) l0 l ∧ g ∈ dom (tx_groups l))); [|done].
  intros k m (? & ? & ?). split_and!; [by apply move_group_keyed| |done].
  apply move_group_regroups; [set_solver| |done].
  intros t Ht (mm & Hin & Hmov & Eid)%elem_of_by_type. apply elem_of_union_r, Hmv; [done|].
  rewrite <- Eid. unfold move_ids. apply list_elem_of_fmap. exists mm. split; [done|]. by apply list_elem_of_filter.
Qed.

Lemma apply_loop_spec user l0 changes l s n l' s' n' :
  keyed l → regrouping (all s) l0 l →
  (∀ c t, c ∈ changes → t ∈ txs l0 → r_id t ∈ move_ids c → r_group t ∈ all s) →
  foldl (λ acc c, a ← acc; apply_change user a c) (Some (l, s, n)) changes = Some (l', s', n') →
  keyed l' ∧ regrouping (all s') l0 l' ∧ all s ⊆ all s'.
Proof.
  revert l s n. induction changes as [|c changes IH]; intros l s n Hk Hr Hmv; cbn [foldl].
  { by intros [= <- <- <-]. }
  cbn [mbind option_bind]. destruct (apply_change user (l, s, n) c) as [[[l1 s1] n1]|] eqn:E.
  - destruct (apply_change_spec user l0 c l s n l1 s1 n1 Hk Hr) as (Hk1 & Hr1 & Hs1); [|done|].
    { intros t. apply Hmv. left. }
    intros Hl. destruct (IH l1 s1 n1 Hk1 Hr1) as (? & ? & ?); [|done|split_and!; [done..|set_solver]].
    intros c' t Hc Ht Hid. apply Hs1. by eapply Hmv; [right| |].
  - intros Hl. exfalso. clear -Hl. by induction changes.
Qed.

(** After the changes are applied everything touched is stripped, everything else is
    as it was, and the stated postings are the same, moved and retyped. *)
Lemma apply_changes_spec user changes touched l l' touched' n :
  keyed l → changes_ok l changes → settled_but l (all touched) →
  applyChanges user changes touched l = Some (l', touched', n) →
  ready l' touched' ∧ all touched ⊆ all touched' ∧
  Forall2 (λ t0 t, ∃ g r, t = with_group g r t0)
    (filter (λ t, routed t = false) (txs l)) (filter (λ t, routed t = false) (txs l')).
Proof.
  intros Hk Hok Hs. unfold applyChanges.
  destruct (foldl _ _ changes) as [[[l1 s1] n1]|] eqn:E; [|done]. simpl. intros [= <- <- <-].
  destruct (touch_members_all changes touched) as [Hsub Hfrom].
  destruct (apply_loop_spec user l changes l (foldl touch_members touched changes) 0 l1 s1 n1 Hk
    (regrouping_refl _ _)) as (Hk1 & Hr1 & Hs1); [|done|].
  { intros c t Hc Ht (m & Eid & [Hmv Hm]%list_elem_of_filter)%list_elem_of_fmap.
    pose proof (Hok c m t Hc Hm Hmv Ht Eid) as Ef. rewrite <- Ef. apply (Hfrom c m Hc Hm).
    rewrite Ef. intros Ee. destruct Hk as (_ & Hfk & Hu). specialize (Hu _ (Hfk t Ht)). rewrite Ee in Hu. congruence. }
  split_and!.
  - split_and!; [by apply clean_up_keyed|apply clean_up_stripped|].
    intros g Hg. apply (settled_legs l); [|apply Hs; set_solver].
    rewrite clean_up_rows by done. by eapply regrouping_rows.
  - set_solver.
  - apply regrouping_stated in Hr1. simpl.
    rewrite (filter_filter_imp (λ t, routed t = false)); [done|]. intros t _ Ht. rewrite Ht. naive_solver.
Qed.

(** *** Replacing a period *)

Lemma clear_period_spec user broker fromT beforeT l l' cut :
  ledger_ok l → clearPeriod user broker fromT beforeT l = (l', cut) →
  keyed l' ∧ stripped l' (list_to_set cut) ∧ settled_but l' (list_to_set cut) ∧
  txs l' = filter (λ t, ¬ deleted user broker fromT beforeT l t) (txs l).
Proof.
  intros [Hk Hs] E. set (P := deleted user broker fromT beforeT l) in *.
  assert (txs l' = filter (λ t, ¬ P t) (txs l) ∧ cut = remove_dups (r_group <$> filter P (txs l)) ∧ keyed l')
    as (Et & Ec & Hk').
  { unfold clearPeriod, deleteReplacedPostings in E. fold P in E.
    assert (keyed (with_txs l (filter (λ t, ¬ P t) (txs l)))) as Hk1 by by apply filter_keyed.
    destruct (remove_dups _) as [|g gs] eqn:Er; injection E as <- <-; (split_and!; [done|done|]); [done|].
    apply repoint_keyed. exact (delete_emptied_keyed (list_to_set (g :: gs)) _ Hk1). }
  assert (Hcut : ∀ g, g ∈ cut ↔ ∃ t, t ∈ txs l ∧ P t ∧ r_group t = g).
  { intros g. rewrite Ec, elem_of_remove_dups, list_elem_of_fmap. split.
    - intros (t & -> & [??]%list_elem_of_filter). by exists t.
    - intros (t & ? & ? & <-). exists t. split; [done|]. by apply list_elem_of_filter. }
  split_and!; [done| | |done].
  - intros t Ht Hg%elem_of_list_to_set. rewrite Et in Ht. apply list_elem_of_filter in Ht as [Hn Ht].
    apply Hcut in Hg as (t' & _ & [Hg' _] & Eg). destruct (routed t) eqn:Er; [|done]. destruct Hn.
    split; [congruence|]. intros [? _]. congruence.
  - intros g Hg. rewrite elem_of_list_to_set, Hcut in Hg. apply (settled_legs l); [|apply Hs].
    f_equal. unfold rows_of. rewrite Et. apply filter_filter_imp. intros t Ht <- Hp. apply Hg. by exists t.
Qed.

(** *** Inserting postings *)

(** A row for what the wire carried. *)
Definition row_for (user broker : string) (t : Tx) (r : row D) : Prop :=
  r_user r = user ∧ r_broker r = broker ∧
  Some (r_order_date r) = tx_OrderDate t ∧ Some (r_trade_date r) = tx_TradeDate t ∧
  parse_dec (tx_Quantity t) = Some (r_quantity r) ∧
  r_description r = tx_InstrumentDescription t ∧ r_purpose r = nullStr (tx_SyntheticPurpose t).

Lemma posting_row_spec user broker account job t inst w b mk :
  posting_row user broker account job t inst w b = Some mk →
  ∀ id g, r_id (mk id g) = id ∧ r_group (mk id g) = g ∧ row_for user broker t (mk id g).
Proof.
  unfold posting_row. destruct (negb _); [done|].
  destruct (tx_OrderDate t) as [o|] eqn:Eo; [|done]. simpl.
  destruct (tx_TradeDate t) as [tr|] eqn:Et; [|done]. simpl.
  destruct (TxTypesToStrs _); [|done]. simpl. destruct (TxTypeToStr _); [|done]. simpl.
  destruct (AccountTypeToStr _); [|done]. simpl. destruct (parse_dec (tx_Quantity t)) eqn:Eq; [|done]. simpl.
  destruct (parseOptDecimal (tx_UnitPrice t)); [|done]. simpl.
  destruct (parseOptDecimal (tx_SettlementAmount t)); [|done]. simpl.
  destruct (mapM _ _); [|done]. simpl. intros [= <-] id g. split_and!; try done.

Qed.

Lemma insert_alone_spec user job mk l l' id g :
  keyed l → (∀ id g, r_id (mk id g) = id ∧ r_group (mk id g) = g) →
  insert_alone user job mk l = (l', id, g) →
  keyed l' ∧ txs l' = txs l ++ [mk id g] ∧ g ∉ dom (tx_groups l) ∧ dom (tx_groups l') = {[g]} ∪ dom (tx_groups l).
Proof.
  intros (Hnd & Hfk & Hu) Hmk. unfold insert_alone. intros [= <- <- <-].
  set (g := gen_uuid (used l)). set (id := gen_uuid ({[g]} ∪ used l)).
  assert (g ∉ dom (tx_groups l)) as Hg.
  { intros Hin. apply (gen_fresh (used l)). unfold used at 2. fold g. set_solver. }
  assert (id ∉ r_id <$> txs l) as Hid.
  { intros Hin. apply (gen_fresh ({[g]} ∪ used l)). fold id. unfold used. rewrite !elem_of_union. right. left.
    by apply elem_of_list_to_set. }
  split_and!; [split_and!|done|done|]; simpl.
  - rewrite fmap_app. apply NoDup_app. split_and!; [done| |apply NoDup_singleton].
    intros x Hx ->%list_elem_of_singleton. rewrite (proj1 (Hmk id g)) in Hx. done.
  - intros t [Ht| ->%list_elem_of_singleton]%elem_of_app; rewrite dom_insert.
    + specialize (Hfk t Ht). set_solver.
    + rewrite (proj2 (Hmk id g)). set_solver.
  - intros g'. rewrite dom_insert. intros [->%elem_of_singleton|?]%elem_of_union; [apply gen_ok|by apply Hu].
  - by rewrite dom_insert_L.
Qed.

Lemma insert_postings_spec user broker account job ts insts ws bs l out l' w :
  keyed l → insertPostings user broker account job ts insts ws bs l out = Some (l', w) →
  ∃ new gs, keyed l' ∧ txs l' = txs l ++ new ∧ groups w = groups out ++ gs ∧
    Forall2 (row_for user broker) ts new ∧ (∀ t, t ∈ new → r_group t ∈ gs) ∧
    (∀ g, g ∈ gs → g ∉ dom (tx_groups l)).
Proof.
  revert insts ws bs l out. induction ts as [|t ts IH]; intros insts ws bs l out Hk; cbn [insertPostings].
  { intros [= <- <-]. exists [], []. rewrite !app_nil_r. split_and!; try done.
    - by intros t ?%elem_of_nil.
    - by intros g ?%elem_of_nil. }
  destruct (head insts) as [inst|]; [|done]. cbn [mbind option_bind].
  destruct (posting_row _ _ _ _ _ _ _ _) as [mk|] eqn:Emk; [|done]. cbn [mbind option_bind].
  destruct (insert_alone user job mk l) as [[l1 id] g] eqn:Ei. intros E.
  pose proof (posting_row_spec _ _ _ _ _ _ _ _ _ Emk) as Hmk.
  destruct (insert_alone_spec _ _ _ _ _ _ _ Hk (λ i h, conj (proj1 (Hmk i h)) (proj1 (proj2 (Hmk i h)))) Ei)
    as (Hk1 & Et1 & Hg & Hd).
  destruct (IH _ _ _ _ _ Hk1 E) as (new & gs & Hk' & Et & Eg & Hf & Hn & Hfr).
  exists (mk id g :: new), (g :: gs). split_and!; [done|by rewrite Et, Et1, <- app_assoc| | | |].
  - rewrite Eg. simpl. by rewrite <- app_assoc.
  - constructor; [by apply Hmk|done].
  - intros t' [->|Ht']%elem_of_cons; [rewrite (proj1 (proj2 (Hmk id g))); left|right; by apply Hn].
  - intros g' [->|Hg']%elem_of_cons; [done|]. specialize (Hfr g' Hg'). rewrite Hd in Hfr. set_solver.
Qed.

Lemma settle_addAll_all s ids b : all (settle_addAll s ids b) = list_to_set ids ∪ all s.
Proof.
  unfold settle_addAll. revert s. induction ids as [|id ids IH]; intros s; simpl; [set_solver|].
  rewrite IH. simpl. set_solver.
Qed.

(** What an upload may carry: nothing the server routes itself. *)
Definition uploads (ts : list Tx) : Prop :=
  ∀ t, t ∈ ts → nullStr (tx_SyntheticPurpose t) ≠ Some RoutedPurpose ∧
    nullStr (tx_SyntheticPurpose t) ≠ Some BoundaryPurpose.

Lemma uploaded_not_routed user broker ts new t :
  uploads ts → Forall2 (row_for user broker) ts new → t ∈ new → routed t = false.
Proof.
  intros Hu Hf Ht. apply list_elem_of_lookup in Ht as [i Hi].
  destruct (Forall2_lookup_r _ _ _ _ _ Hf Hi) as (tx & Htx%list_elem_of_lookup_2 & (_ & _ & _ & _ & _ & _ & Hp)).
  destruct (Hu tx Htx) as [H1 H2]. rewrite <- Hp in H1, H2. unfold routed. destruct (r_purpose t) as [p|]; [|done].
  destruct (String.eqb_spec p RoutedPurpose) as [->|]; [done|].
  by destruct (String.eqb_spec p BoundaryPurpose) as [->|].
Qed.

(** Postings written alone, beside groups that are settled or stripped. *)
Lemma inserted_ready user broker account job ts insts ws bs l s w l' :
  uploads ts → ready l s →
  insertPostings user broker account job ts insts ws bs l {| postings := []; groups := [] |} = Some (l', w) →
  ready l' (settle_addAll s (groups w) false) ∧
  ∃ new, txs l' = txs l ++ new ∧ Forall2 (row_for user broker) ts new.
Proof.
  intros Hu (Hk & Hs & Ho) (new & gs & Hk' & Et & Eg & Hf & Hn & Hfr)%insert_postings_spec; [|done].
  simpl in Eg. split; [|by exists new]. split_and!; [done| |]; rewrite settle_addAll_all, Eg.
  - intros t Ht Hg. rewrite Et in Ht. apply elem_of_app in Ht as [Ht|Ht]; [|by eapply uploaded_not_routed].
    apply Hs; [done|]. apply elem_of_union in Hg as [Hg%elem_of_list_to_set|?]; [|done].
    destruct (Hfr _ Hg). destruct Hk as (_ & Hfk & _). by apply Hfk.
  - intros g [Hg Hs']%not_elem_of_union. rewrite elem_of_list_to_set in Hg. apply (settled_legs l); [|by apply Ho].
    f_equal. unfold rows_of. rewrite Et, filter_app. rewrite (filter_none _ new), app_nil_r; [done|].
    intros t Ht <-. by apply Hg, Hn.
Qed.

(** ** The writes *)

(** What the store relies on its settler for: the changes it returns name the group
    each posting they move is in. *)
Class SettlerLaws (f : string → list (GroupingPosting D) → ledger D → option (list GroupChange)) : Prop :=
  settler_names_groups user seed l changes :
    keyed l → uuid_ok user = true → (∀ p, p ∈ seed → p ∈ transcribed (grouping_rows l) user) →
    f user seed l = Some changes → changes_ok l changes.

Context {settler_lawful : match settler with Some f => SettlerLaws f | None => True end}.

(** Rows moved and retyped, nothing else. *)
Definition restated (ts ts' : list (row D)) : Prop := Forall2 (λ t0 t, ∃ g r, t = with_group g r t0) ts ts'.

Definition stated (l : ledger D) : list (row D) := filter (λ t, routed t = false) (txs l).

Lemma restated_refl ts : restated ts ts.
Proof.
  unfold restated. induction ts as [|t ts IH]; constructor; [|done]. exists (r_group t), (r_resolved t).
  by rewrite with_group_id.
Qed.

Lemma group_written_ready user ids s l l' s' :
  uuid_ok user = true → ready l s → groupWritten user ids s l = Some (l', s') →
  ready l' s' ∧ restated (stated l) (stated l').
Proof.
  intros Hu Hr. pose proof (restated_refl (stated l)) as Hrefl. unfold groupWritten.
  destruct settler as [f|]; [|by intros [= <- <-]]. destruct ids as [|i ids]; [by intros [= <- <-]|].
  destruct (groupingPostingsByID user (i :: ids) l) as [|p ps] eqn:Ep; [by intros [= <- <-]|]. rewrite <- Ep.
  destruct (f user _ l) as [changes|] eqn:Ef; [|done]. cbn [mbind option_bind].
  destruct changes as [|c changes]; [by intros [= <- <-]|].
  destruct (applyChanges _ _ _ _) as [[[l1 s1] n]|] eqn:Ea; [|done]. simpl. intros [= <- <-].
  destruct Hr as (Hk & _ & Ho).
  assert (changes_ok l (c :: changes)) as Hok.
  { eapply settler_names_groups; [done|done| |exact Ef]. intros q Hq. unfold groupingPostingsByID in Hq.
    rewrite sort_by_id_perm in Hq. by apply list_elem_of_filter in Hq as [_ ?]. }
  destruct (apply_changes_spec _ _ _ _ _ _ _ Hk Hok Ho Ea) as (? & _ & ?). done.
Qed.

Lemma stated_settled user s l l' : settle_groups user s l = Some l' → stated l' = stated l.
Proof. intros [A _]%settle_groups_spec. eapply appended_stated; [exact A|]. by intros t [_ ?]. Qed.

(** The groups of a user hold that user's postings. *)
Definition one_user (l : ledger D) : Prop :=
  ∀ t t', t ∈ txs l → t' ∈ txs l → r_group t = r_group t' → r_user t = r_user t'.

Lemma replace_spec userID broker jobID fromT beforeT ts insts ws bs l l' :
  ledger_ok l → uploads ts →
  ReplaceTxsInPeriod userID broker jobID (Some fromT) (Some beforeT) ts insts ws bs l = Some l' →
  ledger_ok l' ∧ ∃ new, Forall2 (row_for userID broker) ts new ∧
    restated (filter (λ t, routed t = false ∧ ¬ deleted userID broker fromT beforeT l t) (txs l) ++ new) (stated l').
Proof.
  intros Hok Hu. unfold ReplaceTxsInPeriod. destruct (uuid_ok userID) eqn:Huser; [|done]. cbn [negb].
  destruct (parseNullUUID jobID) as [job|]; [|done]. cbn [mbind option_bind].
  destruct (negb _); [done|]. destruct (clearPeriod userID broker fromT beforeT l) as [l1 cut] eqn:Ec.
  destruct (clear_period_spec _ _ _ _ _ _ _ Hok Ec) as (Hk1 & Hs1 & Ho1 & Et1).
  assert (ready l1 (settle_addAll no_groups cut true)) as Hr1.
  { unfold ready. rewrite settle_addAll_all. simpl. by rewrite union_empty_r_L. }
  destruct (insertPostings _ _ _ _ _ _ _ _ _ _) as [[l2 w]|] eqn:Ei; [|done]. cbn [mbind option_bind].
  destruct (inserted_ready _ _ _ _ _ _ _ _ _ _ _ _ Hu Hr1 Ei) as (Hr2 & new & Et2 & Hf).
  destruct (groupWritten _ _ _ _) as [[l3 s3]|] eqn:Eg; [|done]. cbn [mbind option_bind]. intros E.
  destruct (group_written_ready _ _ _ _ _ _ Huser Hr2 Eg) as [Hr3 Hst].
  split; [by eapply settle_ready|]. exists new. split; [done|].
  rewrite (stated_settled _ _ _ _ E).
  assert (stated l2 = filter (λ t, routed t = false ∧ ¬ deleted userID broker fromT beforeT l t) (txs l) ++ new) as <-; [|done].
  unfold stated. rewrite Et2, Et1, filter_app, list_filter_filter. f_equal.
  apply filter_all. intros t. by apply (uploaded_not_routed userID broker ts).
Qed.

Lemma create_spec userID broker account jobID ts insts ws bs l l' :
  ledger_ok l → uploads ts →
  CreateTxGroup userID broker account jobID ts insts ws bs l = Some l' →
  ledger_ok l' ∧ ∃ new, Forall2 (row_for userID broker) ts new ∧ restated (stated l ++ new) (stated l').
Proof.
  intros [Hk Ho] Hu. unfold CreateTxGroup. destruct (uuid_ok userID) eqn:Huser; [|done]. cbn [negb].
  destruct (parseNullUUID jobID) as [job|]; [|done]. cbn [mbind option_bind].
  destruct (insertPostings _ _ _ _ _ _ _ _ _ _) as [[l2 w]|] eqn:Ei; [|done]. cbn [mbind option_bind].
  assert (ready l no_groups) as Hr1.
  { split_and!; [done| |intros g _; apply Ho]. intros t _ Hg. simpl in Hg. set_solver. }
  destruct (inserted_ready _ _ _ _ _ _ _ _ _ _ _ _ Hu Hr1 Ei) as (Hr2 & new & Et2 & Hf).
  destruct (groupWritten _ _ _ _) as [[l3 s3]|] eqn:Eg; [|done]. cbn [mbind option_bind]. intros E.
  destruct (group_written_ready _ _ _ _ _ _ Huser Hr2 Eg) as [Hr3 Hst].
  split; [by eapply settle_ready|]. exists new. split; [done|]. rewrite (stated_settled _ _ _ _ E).
  assert (stated l2 = stated l ++ new) as <-; [|done]. unfold stated. rewrite Et2, filter_app. f_equal.
  apply filter_all. intros t. by apply (uploaded_not_routed userID broker ts).
Qed.

Lemma apply_grouping_spec userID changes l l' n :
  ledger_ok l → changes_ok l changes → ApplyGrouping userID changes l = Some (l', n) →
  ledger_ok l' ∧ restated (stated l) (stated l').
Proof.
  intros [Hk Ho] Hc. unfold ApplyGrouping. destruct (negb (uuid_ok userID)); [done|].
  destruct changes as [|c changes]; [intros [= <- <-]; split; [done|apply restated_refl]|].
  destruct (applyChanges _ _ _ _) as [[[l1 s1] n1]|] eqn:Ea; [|done]. cbn [mbind option_bind].
  destruct (settle_groups userID s1 l1) as [l2|] eqn:Es; [|done]. cbn [mbind option_bind]. intros [= <- <-].
  destruct (apply_changes_spec _ _ no_groups _ _ _ _ Hk Hc ltac:(intros g _; apply Ho) Ea) as (Hr & _ & Hst).
  split; [by eapply settle_ready|]. by rewrite (stated_settled _ _ _ _ Es).
Qed.

(** One write of the store. *)
Inductive write : ledger D → ledger D → Prop :=
  | write_replace userID broker jobID from before ts insts ws bs l l' :
      uploads ts → ReplaceTxsInPeriod userID broker jobID from before ts insts ws bs l = Some l' → write l l'
  | write_create userID broker account jobID ts insts ws bs l l' :
      uploads ts → CreateTxGroup userID broker account jobID ts insts ws bs l = Some l' → write l l'
  | write_grouping userID changes l l' n :
      changes_ok l changes → ApplyGrouping userID changes l = Some (l', n) → write l l'.

Definition empty_ledger : ledger D := {| txs := []; tx_groups := ∅; transfer_matches := [] |}.

Lemma empty_ledger_ok : ledger_ok empty_ledger.
Proof using laws.
  split; [split_and!; [constructor|by intros t ?%elem_of_nil|]|].
  - intros g Hg. simpl in Hg. clear -Hg. set_solver.
  - intros g. split; [intros c; apply dec_sum_nil|]. intros _ c. simpl. lia.
Qed.

Lemma replace_needs_a_period userID broker jobID from before ts insts ws bs l l' :
  ReplaceTxsInPeriod userID broker jobID from before ts insts ws bs l = Some l' → from ≠ None ∧ before ≠ None.
Proof.
  unfold ReplaceTxsInPeriod. destruct (negb (uuid_ok userID)); [done|].
  destruct (parseNullUUID jobID); [|done]. cbn [mbind option_bind]. destruct (negb _); [done|].
  destruct from; [|done]. by destruct before.
Qed.

Lemma write_ok l l' : write l l' → ledger_ok l → ledger_ok l'.
Proof.
  intros [user broker job [f|] [b|] ts insts ws bs m m' Hu E|user broker account job ts insts ws bs m m' Hu E|
    user changes m m' n Hc E] Hok.
  - by eapply replace_spec.
  - by apply replace_needs_a_period in E as [_ ?].
  - by apply replace_needs_a_period in E as [? _].
  - by apply replace_needs_a_period in E as [? _].
  - eapply (create_spec user broker account job); done.
  - by eapply apply_grouping_spec.
Qed.

(** C1: the ledger is always balanced.  However it is written, by period replaces,
    manual entries and regroupings in any sequence, every group sums to zero in every
    commodity it weighs in, with one residual leg per commodity at most: the deferred
    balance constraint never has anything to refuse. *)
Theorem ledger_always_balanced l : rtc write empty_ledger l → ledger_ok l.
Proof.
  intros Hr. pose proof empty_ledger_ok as H0. revert H0.
  induction Hr as [|l l1 l2 Hw _ IH]; [done|]. intros Hok. apply IH. by eapply write_ok.
Qed.

(** C17: a period replace replaces exactly the period.  Of what the ledger holds as
    stated postings, those of the user and broker dated in the period go, one is
    written for each uploaded transaction, and every other stays as it was but for the
    group it is in and the type it is read as; the ledger is balanced again. *)
Theorem replace_replaces_the_period userID broker jobID fromT beforeT ts insts ws bs l l' :
  ledger_ok l → one_user l → uploads ts →
  ReplaceTxsInPeriod userID broker jobID (Some fromT) (Some beforeT) ts insts ws bs l = Some l' →
  ledger_ok l' ∧ ∃ new, Forall2 (row_for userID broker) ts new ∧
    restated (filter (λ t, ¬ (r_user t = userID ∧ replaced broker fromT beforeT t)) (stated l) ++ new) (stated l').
Proof.
  intros Hok H1 Hu E. destruct (replace_spec _ _ _ _ _ _ _ _ _ _ _ Hok Hu E) as (? & new & Hf & Hr).
  split; [done|]. exists new. split; [done|].
  assert (filter (λ t, ¬ (r_user t = userID ∧ replaced broker fromT beforeT t)) (stated l) =
    filter (λ t, routed t = false ∧ ¬ deleted userID broker fromT beforeT l t) (txs l)) as ->; [|done].
  unfold stated. rewrite list_filter_filter. apply filter_ext_in. intros t Ht.
  assert (routed t = false → (r_user t = userID ∧ replaced broker fromT beforeT t) ↔ deleted userID broker fromT beforeT l t).
  { intros Hnr. unfold deleted, touchedGroups, survives. split.
    - intros [Hus Hrep]. split; [|tauto]. apply list_elem_of_fmap. exists t. split; [done|]. by apply list_elem_of_filter.
    - intros [(t' & Eg & [[Hus Hrep] Ht']%list_elem_of_filter)%list_elem_of_fmap Hns].
      split; [by rewrite (H1 t t' Ht Ht' Eg)|]. destruct (decide (replaced broker fromT beforeT t)); [done|tauto]. }
  tauto.
Qed.
End ledger.

(** ** The engine as the store's settler

    [Engine.Settle] over the reads of the transaction in progress.  One round more than
    the ledger has rows is fuel enough for any neighbourhood. *)

Section engine.
Context {D : Type} `{DecimalLaws D} (uuid_ok : string → bool) (opts : Opts D).

Definition engine_settler (user : string) (seed : list (GroupingPosting D)) (l : ledger D)
    : option (list GroupChange) :=
  mjoin (Settle (S (length (txs l))) [] opts user seed (store_reader uuid_ok (grouping_rows l))).

Lemma elem_of_transcribed (l : ledger D) user p :
  p ∈ transcribed (grouping_rows l) user → ∃ t, t ∈ txs l ∧ p = toDomain l t.
Proof.
  unfold transcribed, grouping_rows. intros (r & -> & [_ Hr]%list_elem_of_filter)%list_elem_of_fmap.
  apply list_elem_of_fmap in Hr as (t & -> & Ht). by exists t.
Qed.

Lemma transcribed_ids (l : ledger D) user :
  NoDup (r_id <$> txs l) → distinct_ids (transcribed (grouping_rows l) user).
Proof.
  intros Hnd. unfold distinct_ids, transcribed, grouping_rows. eapply sublist_NoDup; [exact Hnd|].
  transitivity (ID <$> (row_posting <$> ((λ t, {| row_posting := toDomain l t; row_purpose := r_purpose t |}) <$> txs l))).
  - apply fmap_sublist, fmap_sublist, sublist_filter.
  - rewrite <- !list_fmap_compose. done.
Qed.

Lemma transcribed_length (l : ledger D) user : length (transcribed (grouping_rows l) user) < S (length (txs l)).
Proof.
  unfold transcribed, grouping_rows. rewrite length_fmap. apply Nat.lt_succ_r.
  etransitivity; [apply length_filter|]. by rewrite length_fmap.
Qed.

(** The engine keeps the settler's promise. *)
#[global] Instance engine_settler_lawful : SettlerLaws uuid_ok engine_settler.
Proof.
  intros user seed l changes (Hnd & _) Hu Hseed E c m t Hc Hm Hmv Ht Eid. unfold engine_settler in E.
  destruct (settle_moves uuid_ok (grouping_rows l) user Hu (transcribed_ids l user Hnd) (S (length (txs l)))
    (transcribed_length l user) opts seed Hseed) as (cs & Es & Hcs).
  rewrite Es in E. injection E as <-. destruct (Hcs c m Hc Hm Hmv) as (p & Hp & Ep & Eg).
  apply elem_of_transcribed in Hp as (t' & Ht' & ->). simpl in Ep, Eg. rewrite <- Eg.
  f_equal. eapply (NoDup_fmap_inj_in r_id); [exact Hnd|done|done|congruence].
Qed.

(** It answers for any postings the store hands it. *)
Lemma engine_settler_total user seed l :
  keyed uuid_ok l → uuid_ok user = true → (∀ p, p ∈ seed → p ∈ transcribed (grouping_rows l) user) →
  is_Some (engine_settler user seed l).
Proof.
  intros (Hnd & _) Hu Hseed. unfold engine_settler.
  destruct (settle_moves uuid_ok (grouping_rows l) user Hu (transcribed_ids l user Hnd) (S (length (txs l)))
    (transcribed_length l user) opts seed Hseed) as (cs & Es & _).
  rewrite Es. by eexists.
Qed.
End engine.

(** ** A ledger *)

Section witnesses.
#[local] Existing Instances QDecimal.q_decimal QDecimal.q_decimal_laws.

(** Ids in use are told apart by their length. *)
Fixpoint ticks (n : nat) : string := match n with O => EmptyString | S n => "u" +:+ ticks n end.

Definition longest (X : gset string) : nat := foldr (λ s, Nat.max (String.length s)) 0 (elements X).

Definition sample_gen (X : gset string) : string := ticks (S (longest X)).

Definition sample_ok (s : string) : bool := negb (String.eqb s EmptyString).

Lemma ticks_length n : String.length (ticks n) = n.
Proof. induction n as [|n IH]; [done|]. exact (f_equal S IH). Qed.

Lemma longest_ge X s : s ∈ X → String.length s ≤ longest X.
Proof.
  intros Hs%elem_of_elements. unfold longest. induction (elements X) as [|x l IH]; [by apply elem_of_nil in Hs|].
  simpl. apply elem_of_cons in Hs as [->|Hs]; [lia|]. specialize (IH Hs). lia.
Qed.

Lemma sample_gen_fresh X : sample_gen X ∉ X.
Proof. intros Hin%longest_ge. unfold sample_gen in Hin. rewrite ticks_length in Hin. lia. Qed.

Lemma sample_gen_ok X : sample_ok (sample_gen X) = true.
Proof. done. Qed.

Definition sample_parse (s : string) : option Q :=
  if String.eqb s "10" then Some 10%Q else if String.eqb s "-100" then Some (-100)%Q
  else if String.eqb s "100" then Some 100%Q else if String.eqb s "7" then Some 7%Q else None.

Definition sample_tx (day : Z) (desc qty : string) (price amount : option string) (t : TxType) : Tx := {|
  tx_OrderDate := Some (day_start day); tx_TradeDate := Some (day_start day); tx_Account := "acc";
  tx_AccountType := ACCOUNT_TYPE_UNSPECIFIED; tx_InstrumentDescription := desc; tx_AssetClassHint := EmptyString;
  tx_BrokerTxType := [t]; tx_ResolvedTxType := t; tx_Quantity := qty; tx_UnitPrice := price;
  tx_SettlementAmount := amount; tx_TradingCurrency := "USD"; tx_SettlementCurrency := "USD";
  tx_SyntheticPurpose := EmptyString; tx_Correlations := [] |}.

(** A purchase with its cash leg, which the engine joins, and a dividend. *)
Definition sample_upload : list Tx :=
  [ sample_tx 3 "ACME" "10" (Some "10") (Some "100") TRADE_ASSET;
    sample_tx 3 "USD" "-100" None None TRADE_CASH;
    sample_tx 5 "USD" "7" None None DIVIDEND ].

Definition sample_weights : list (Weight Q) :=
  [ {| w_Amount := 100%Q; w_Commodity := "cur:USD" |}; {| w_Amount := (-100)%Q; w_Commodity := "cur:USD" |};
    {| w_Amount := 7%Q; w_Commodity := "cur:USD" |} ].

Definition sample_write (l : ledger Q) : option (ledger Q) :=
  ReplaceTxsInPeriod sample_gen sample_ok sample_parse dec_div (λ _, 2%Z) Some
    (Some (engine_settler sample_ok DefaultOpts)) "user" "FIDELITY" "job"
    (Some (day_start 1)) (Some (day_start 9)) sample_upload ["acme"; "usd"; "usd"] sample_weights [] l.

Lemma sample_uploads : uploads sample_upload.
Proof.
  intros t Ht. unfold sample_upload in Ht. rewrite !elem_of_cons, elem_of_nil in Ht.
  destruct Ht as [->|[->|[->|[]]]]; by vm_compute.
Qed.

Definition shape (l : ledger Q) : list (string * string * Q) :=
  (λ t, (r_group t, r_account_type t, r_weight t)) <$> txs l.

(** The purchase and its cash leg come to share a group that needs nothing; the
    dividend is given the income it came from. *)
Lemma sample_shape :
  shape <$> sample_write empty_ledger = Some
    [ ("uuuuuuu", "USER", 100%Q); ("uuuuuuu", "USER", (-100)%Q);
      ("uuuuu", "USER", 7%Q); ("uuuuu", "INCOME", (-7)%Q) ].
Proof. vm_compute. reflexivity. Qed.

(** A group the engine draws has no job, and a posting's job is read off its group: once
    regrouped, a posting no longer says which upload wrote it, which is what its
    correlations of file scope are compared within. *)
Lemma regrouping_forgets_the_job :
  (λ l, (λ t, (r_description t, JobID (toDomain l t))) <$> stated l) <$> sample_write empty_ledger =
  Some [ ("ACME", EmptyString); ("USD", EmptyString); ("USD", "job") ].
Proof. vm_compute. reflexivity. Qed.

Lemma ledger_always_balanced_witness :
  match sample_write empty_ledger with Some l => ledger_ok sample_ok True l | None => False end.
Proof.
  destruct (sample_write empty_ledger) as [l|] eqn:E; [|vm_compute in E; discriminate E].
  apply (ledger_always_balanced sample_gen sample_ok sample_parse dec_div (λ _, 2%Z) Some
    (Some (engine_settler sample_ok DefaultOpts)) True sample_gen_fresh sample_gen_ok eq_refl
    (settler_lawful := engine_settler_lawful sample_ok DefaultOpts)).
  eapply rtc_l; [|apply rtc_refl]. eapply write_replace; [apply sample_uploads|exact E].
Defined.

Lemma replace_replaces_the_period_witness :
  match sample_write empty_ledger with
  | Some l => match sample_write l with Some l' => length (stated l') = 3 ∧ ledger_ok sample_ok True l' | None => False end
  | None => False
  end.
Proof.
  destruct (sample_write empty_ledger) as [l|] eqn:E; [|vm_compute in E; discriminate E].
  destruct (sample_write l) as [l'|] eqn:E'.
  - split.
    + vm_compute in E. injection E as <-. vm_compute in E'. injection E' as <-. reflexivity.
    + apply (replace_replaces_the_period sample_gen sample_ok sample_parse dec_div (λ _, 2%Z) Some
        (Some (engine_settler sample_ok DefaultOpts)) True sample_gen_fresh sample_gen_ok eq_refl
        (settler_lawful := engine_settler_lawful sample_ok DefaultOpts)
        "user" "FIDELITY" "job" (day_start 1) (day_start 9) sample_upload ["acme"; "usd"; "usd"] sample_weights [] l l').
      * eapply (replace_spec sample_gen sample_ok sample_parse dec_div (λ _, 2%Z) Some
          (Some (engine_settler sample_ok DefaultOpts)) True sample_gen_fresh sample_gen_ok eq_refl
          (settler_lawful := engine_settler_lawful sample_ok DefaultOpts));
          [apply empty_ledger_ok|apply sample_uploads|exact E].
        apply _.
      * vm_compute in E. injection E as <-. intros t t' Ht Ht' _. simpl in Ht, Ht'.
        rewrite !elem_of_cons, elem_of_nil in Ht, Ht'.
        destruct Ht as [->|[->|[->|[->|[]]]]], Ht' as [->|[->|[->|[->|[]]]]]; reflexivity.
      * apply sample_uploads.
      * exact E'.
  - vm_compute in E. injection E as <-. vm_compute in E'. discriminate E'.
Defined.

(** One group with a leg of money and nothing against it. *)
Definition sample_open : ledger Q := {|
  txs := [ {| r_id := "t"; r_user := "user"; r_broker := "FIDELITY"; r_account := "acc"; r_order_date := 0;
    r_trade_date := 0; r_description := "USD"; r_broker_types := ["TRANSFER"]; r_resolved := "TRANSFER";
    r_asset_class := None; r_quantity := 7%Q; r_trading := Some "USD"; r_settlement := Some "USD";
    r_unit_price := None; r_settlement_amount := None; r_instrument := Some "usd"; r_share_basis := None;
    r_account_type := "USER"; r_purpose := None; r_weight := 7%Q; r_commodity := "cur:USD"; r_group := "g";
    r_correlations := [] |} ];
  tx_groups := {[ "g" := {| g_user := "user"; g_timestamp := 0; g_job := None |} ]};
  transfer_matches := [] |}.

Lemma settle_balances_witness :
  shape <$> settle sample_gen dec_div (λ _, 2%Z) Some "user" wholeSource {[ "g" ]} sample_open =
    Some [ ("g", "USER", 7%Q); ("g", "TRANSFER_CLEARING", (-7)%Q) ] ∧
  match settle sample_gen dec_div (λ _, 2%Z) Some "user" wholeSource {[ "g" ]} sample_open with
  | Some l => balanced l "g"
  | None => False
  end.
Proof.
  split; [vm_compute; reflexivity|].
  destruct (settle_balances sample_gen sample_ok sample_parse dec_div (λ _, 2%Z) Some "user" wholeSource
    {[ "g" ]} sample_open) as (l & E & Hb & _).
  - intros c a r ts. apply type_stored.
  - intros t code _ _ _. by eexists.
  - rewrite E. apply Hb. set_solver.
Defined.
End witnesses.
End Ledger.
