(* ===== verification/Instruments.v ===== *)
(** * The instrument store

    server/db/postgres/instruments.go: instruments, the names they are known by, the
    lookup of an instrument by name, and [EnsureInstrument], which finds, completes,
    merges or creates.  A name holds over a half-open interval of dates, and one name
    denotes one instrument at a time.

    Statements are read off the SQL and the tables' constraints (server/migrations): a
    write that violates one is an error, and an error anywhere in a transaction loses
    the whole of it, so [None] is an error that changes nothing.  [operating_mic] is the
    table of exchanges; [gen_uuid] and [uuid_ok] are as in [Ledger].  The name column,
    which a trigger derives, is left out, and so are the tables deleted with an
    instrument (prices, splits, dividends, coverage). *)

From Stdlib Require Import QArith Lqa.
From S2P Require Import Prelude Decimal Residual Ledger.

Local Open Scope nat_scope.

Module Instruments.
Import Residual Ledger.

(** ** Data *)

Record InstrumentRef := { ref_Type : string; ref_Value : string; ref_Domain : string }.

#[export] Instance InstrumentRef_eq_dec : EqDecision InstrumentRef.
Proof. solve_decision. Defined.

Record IdentifierInput := {
  ii_Ref : InstrumentRef;
  ii_Canonical : bool;
  ii_ValidFrom : option Z;
  ii_ValidBefore : option Z;
}.

(** A row of instrument_identifiers: who holds the name. *)
Record identifier := { holder : string; naming : IdentifierInput }.

Record instrument {D : Type} := {
  asset_class : option string;
  exchange_mic : option string;
  i_currency : option string;
  cik : option string;
  sic_code : option string;
  underlying_id : option string;
  valid_from : option Z;
  valid_before : option Z;
  strike : option D;
  expiry : option Z;
  put_call : option string;
  contract_multiplier : D;
  created_at : Z;
}.
#[global] Arguments instrument : clear implicits.

(** [declared] is the instruments of the stored holding declarations. *)
Record store {D : Type} := {
  instruments : gmap string (instrument D);
  identifiers : list identifier;
  declared : list string;
  book : ledger D;
}.
#[global] Arguments store : clear implicits.

Record OptionFields {D : Type} := { of_Strike : D; of_Expiry : Z; of_PutCall : string }.
#[global] Arguments OptionFields : clear implicits.

Record InstrumentMerge := {
  im_AssetClass : string;
  im_ExchangeMIC : string;
  im_Currency : string;
  im_CIK : string;
  im_SICCode : string;
  im_ValidFrom : option Z;
  im_ValidBefore : option Z;
  im_Identifiers : list IdentifierInput;
}.

Definition ValidAssetClasses : list string :=
  ["STOCK"; "ETF"; "FIXED_INCOME"; "MUTUAL_FUND"; "OPTION"; "FUTURE"; "CASH"; "FX"; "UNKNOWN"].

(** ** Names over intervals *)

(** A lower bound below an upper one; an absent bound is infinite. *)
Definition below (from before : option Z) : bool :=
  match from, before with Some f, Some b => (f <? b)%Z | _, _ => true end.

(** [chk_instrument_identifiers_interval] *)
Definition interval_ok (i : IdentifierInput) : bool := below (ii_ValidFrom i) (ii_ValidBefore i).

(** [daterange(...) && daterange(...)] of two intervals that are not empty. *)
Definition overlaps (i j : IdentifierInput) : bool :=
  below (ii_ValidFrom i) (ii_ValidBefore j) && below (ii_ValidFrom j) (ii_ValidBefore i).

(** [excl_instrument_identifiers_overlap] *)
Definition clashes (i : IdentifierInput) (r : identifier) : bool :=
  bool_decide (ii_Ref (naming r) = ii_Ref i) && overlaps (naming r) i.

Inductive insert_result := Inserted (ids : list identifier) | Conflict | Refused.

(** [INSERT INTO instrument_identifiers] for an instrument of the table. *)
Definition insert_identifier (id : string) (i : IdentifierInput) (ids : list identifier) : insert_result :=
  if negb (interval_ok i) then Refused
  else if existsb (clashes i) ids then Conflict
  else Inserted (ids ++ [{| holder := id; naming := i |}]).

(** [ORDER BY valid_before IS NULL DESC, valid_before DESC] *)
Definition before_cmp (r r' : identifier) : comparison :=
  match ii_ValidBefore (naming r), ii_ValidBefore (naming r') with
  | None, None => Eq
  | None, Some _ => Lt
  | Some _, None => Gt
  | Some b, Some b' => (b' ?= b)%Z
  end.

Definition FindInstrumentByIdentifier (ref : InstrumentRef) (ids : list identifier) : option string :=
  holder <$> head (go_sort (less_of before_cmp) (filter (λ r, ii_Ref (naming r) = ref) ids)).

Definition FindInstrumentBySourceDescription (source description : string) (ids : list identifier) : option string :=
  FindInstrumentByIdentifier {| ref_Type := "BROKER_DESCRIPTION"; ref_Value := description; ref_Domain := source |} ids.

(** The instrument of every row of that type and value, when they agree. *)
Definition FindInstrumentByTypeAndValue (identifierType value : string) (ids : list identifier) : option string :=
  match filter (λ r, ref_Type (ii_Ref (naming r)) = identifierType ∧ ref_Value (ii_Ref (naming r)) = value) ids with
  | [] => None
  | r :: rs => if forallb (λ r', String.eqb (holder r') (holder r)) rs then Some (holder r) else None
  end.

Definition holdsNoCanonicalIdentifier (id : string) (ids : list identifier) : bool :=
  negb (existsb (λ r, String.eqb (holder r) id && ii_Canonical (naming r)) ids).

Definition FindDescriptionOnlyInstrument (source description : string) (ids : list identifier) : option string :=
  holder <$> head (go_sort (less_of before_cmp) (filter (λ r,
    ii_Ref (naming r) = {| ref_Type := "BROKER_DESCRIPTION"; ref_Value := description; ref_Domain := source |} ∧
    holdsNoCanonicalIdentifier (holder r) ids = true) ids)).

(** ** Rows of instruments *)

Definition in_class (cs : list string) (c : option string) : bool :=
  match c with Some c => bool_decide (c ∈ cs) | None => false end.

Section instruments.
Context {D : Type} `{Decimal D}.
Context (gen_uuid : gset string → string) (uuid_ok : string → bool) (operating_mic : string → option string).
Implicit Types s : store D.

(** The CHECK constraints of the table and its reference to exchanges. *)
Definition row_ok (i : instrument D) : bool :=
  match asset_class i with None => true | Some c => bool_decide (c ∈ ValidAssetClasses) end
  && match put_call i with None => true | Some c => bool_decide (c ∈ ["C"; "P"]) end
  && implb (in_class ["OPTION"; "FUTURE"] (asset_class i)) (bool_decide (is_Some (underlying_id i)))
  && implb (in_class ["OPTION"] (asset_class i))
       (bool_decide (is_Some (strike i)) && bool_decide (is_Some (expiry i)) && bool_decide (is_Some (put_call i)))
  && match exchange_mic i with None => true | Some m => bool_decide (is_Some (operating_mic m)) end.

(** An UPDATE of one row; it does nothing when the row is not there. *)
Definition update_row (id : string) (f : instrument D → instrument D) s : option (store D) :=
  match instruments s !! id with
  | None => Some s
  | Some i =>
      if row_ok (f i) && match underlying_id (f i) with
                         | None => true | Some u => bool_decide (is_Some (instruments s !! u)) end
      then Some {| instruments := <[id := f i]> (instruments s); identifiers := identifiers s;
                   declared := declared s; book := book s |}
      else None
  end.

Definition with_identifiers (ids : list identifier) s : store D :=
  {| instruments := instruments s; identifiers := ids; declared := declared s; book := book s |}.

(** [COALESCE(a, b)] *)
Definition coalesce {A} (a b : option A) : option A := match a with Some _ => a | None => b end.

Definition updateInstrumentOnMatch (id : string) (underlying : option string) (fields : option (OptionFields D)) s
    : option (store D) :=
  update_row id (λ i, {|
    asset_class := asset_class i; exchange_mic := exchange_mic i; i_currency := i_currency i; cik := cik i;
    sic_code := sic_code i; underlying_id := coalesce underlying (underlying_id i);
    valid_from := valid_from i; valid_before := valid_before i;
    strike := match fields with Some f => Some (of_Strike f) | None => strike i end;
    expiry := match fields with Some f => Some (of_Expiry f) | None => expiry i end;
    put_call := match fields with Some f => Some (of_PutCall f) | None => put_call i end;
    contract_multiplier := contract_multiplier i; created_at := created_at i |}) s.

Definition with_strike (x : D) (i : instrument D) : instrument D := {|
  asset_class := asset_class i; exchange_mic := exchange_mic i; i_currency := i_currency i; cik := cik i;
  sic_code := sic_code i; underlying_id := underlying_id i; valid_from := valid_from i; valid_before := valid_before i;
  strike := Some x; expiry := expiry i; put_call := put_call i; contract_multiplier := contract_multiplier i;
  created_at := created_at i |}.

Definition UpdateInstrumentStrike (id : string) (x : D) s : option (store D) :=
  if negb (uuid_ok id) then None else update_row id (with_strike x) s.

Definition SetContractMultiplier (id : string) (m : D) s : option (store D) :=
  if negb (uuid_ok id) then None else update_row id (λ i, {|
    asset_class := asset_class i; exchange_mic := exchange_mic i; i_currency := i_currency i; cik := cik i;
    sic_code := sic_code i; underlying_id := underlying_id i; valid_from := valid_from i;
    valid_before := valid_before i; strike := strike i; expiry := expiry i; put_call := put_call i;
    contract_multiplier := m; created_at := created_at i |}) s.

Definition normalizeToOperatingMIC (mic : string) : string :=
  if String.eqb mic EmptyString then mic else default mic (operating_mic mic).

Definition normalize (i : IdentifierInput) : IdentifierInput :=
  let r := ii_Ref i in
  if String.eqb (ref_Type r) "MIC_TICKER" && negb (String.eqb (ref_Domain r) EmptyString)
  then {| ii_Ref := {| ref_Type := ref_Type r; ref_Value := ref_Value r;
                       ref_Domain := normalizeToOperatingMIC (ref_Domain r) |};
          ii_Canonical := ii_Canonical i; ii_ValidFrom := ii_ValidFrom i; ii_ValidBefore := ii_ValidBefore i |}
  else i.

Definition InsertInstrumentIdentifier (id : string) (i : IdentifierInput) s : option (store D) :=
  if negb (uuid_ok id) || negb (bool_decide (is_Some (instruments s !! id))) then None
  else match insert_identifier id (normalize i) (identifiers s) with
       | Inserted ids => Some (with_identifiers ids s)
       | _ => None
       end.

(** ** Completing an instrument *)

(** [INSERT ... ON CONFLICT DO NOTHING] for each *)
Definition add_missing (id : string) (l : list IdentifierInput) (ids : list identifier) : option (list identifier) :=
  foldl (λ acc i,
    ids ← acc;
    match insert_identifier id i ids with
    | Inserted ids => Some ids
    | Conflict => Some ids
    | Refused => None
    end) (Some ids) l.

Definition fill (m : InstrumentMerge) (i : instrument D) : instrument D := {|
  asset_class := coalesce (asset_class i) (nullStr (im_AssetClass m));
  exchange_mic := coalesce (exchange_mic i) (nullStr (im_ExchangeMIC m));
  i_currency := coalesce (i_currency i) (nullStr (im_Currency m));
  cik := coalesce (cik i) (nullStr (im_CIK m));
  sic_code := coalesce (sic_code i) (nullStr (im_SICCode m));
  underlying_id := underlying_id i;
  valid_from := coalesce (valid_from i) (im_ValidFrom m);
  valid_before := coalesce (valid_before i) (im_ValidBefore m);
  strike := strike i; expiry := expiry i; put_call := put_call i;
  contract_multiplier := contract_multiplier i; created_at := created_at i |}.

(** The guard of the UPDATE only skips rows it would leave as they are. *)
Definition mergeIntoInstrument (id : string) (m : InstrumentMerge) s : option (store D) :=
  if negb (bool_decide (is_Some (instruments s !! id))) && (0 <? length (im_Identifiers m)) then None else
  ids ← add_missing id (im_Identifiers m) (identifiers s);
  update_row id (fill m) (with_identifiers ids s).

Definition MergeInstrumentFromArchive (id : string) (m : InstrumentMerge) s : option (store D) :=
  if negb (uuid_ok id) then None else
  mergeIntoInstrument id {|
    im_AssetClass := im_AssetClass m; im_ExchangeMIC := normalizeToOperatingMIC (im_ExchangeMIC m);
    im_Currency := im_Currency m; im_CIK := im_CIK m; im_SICCode := im_SICCode m;
    im_ValidFrom := im_ValidFrom m; im_ValidBefore := im_ValidBefore m;
    im_Identifiers := normalize <$> im_Identifiers m |} s.

(** ** Merging two instruments *)

Definition moved_row (survivor away : string) (t : row D) : row D :=
  if decide (r_instrument t = Some away) then {|
    r_id := r_id t; r_user := r_user t; r_broker := r_broker t; r_account := r_account t;
    r_order_date := r_order_date t; r_trade_date := r_trade_date t; r_description := r_description t;
    r_broker_types := r_broker_types t; r_resolved := r_resolved t; r_asset_class := r_asset_class t;
    r_quantity := r_quantity t; r_trading := r_trading t; r_settlement := r_settlement t;
    r_unit_price := r_unit_price t; r_settlement_amount := r_settlement_amount t;
    r_instrument := Some survivor; r_share_basis := r_share_basis t; r_account_type := r_account_type t;
    r_purpose := r_purpose t; r_weight := r_weight t;
    r_commodity := if String.eqb (r_commodity t) (InstrumentPrefix +:+ away)
                   then InstrumentPrefix +:+ survivor else r_commodity t;
    r_group := r_group t; r_correlations := r_correlations t |}
  else t.

Definition moved_match (survivor away : string) (m : transfer_match) : transfer_match :=
  if decide (tm_instrument m = away) then {| tm_user := tm_user m; tm_from := tm_from m; tm_to := tm_to m;
    tm_instrument := survivor; tm_method := tm_method m |} else m.

(** [idx_transfer_matches_from] and [idx_transfer_matches_to] *)
Definition match_indexes (ms : list transfer_match) : Prop :=
  NoDup ((λ m, (tm_from m, tm_instrument m)) <$> ms) ∧ NoDup ((λ m, (tm_to m, tm_instrument m)) <$> ms).

Definition moved_underlying (survivor away : string) (i : instrument D) : instrument D :=
  if decide (underlying_id i = Some away) then {|
    asset_class := asset_class i; exchange_mic := exchange_mic i; i_currency := i_currency i; cik := cik i;
    sic_code := sic_code i; underlying_id := Some survivor; valid_from := valid_from i;
    valid_before := valid_before i; strike := strike i; expiry := expiry i; put_call := put_call i;
    contract_multiplier := contract_multiplier i; created_at := created_at i |}
  else i.

(** The re-insertion of the names under their new holder.  The code passes over a
    conflict, but a failed statement has already lost the transaction. *)
Definition reinsert (survivor : string) (l : list IdentifierInput) (ids : list identifier) : option (list identifier) :=
  foldl (λ acc i,
    ids ← acc;
    match insert_identifier survivor i ids with Inserted ids => Some ids | _ => None end) (Some ids) l.

(** The survivor is a row of the table.  The last statement, which deletes the other, is
    refused while a holding declaration refers to it. *)
Definition mergeInstruments (survivor away : string) s : option (store D) :=
  if String.eqb survivor away then Some s else
  if negb (bool_decide (is_Some (instruments s !! survivor))) then None else
  let matches := moved_match survivor away <$> transfer_matches (book s) in
  if negb (bool_decide (match_indexes matches)) then None else
  ids ← reinsert survivor (naming <$> filter (λ r, holder r = away) (identifiers s))
                 (filter (λ r, holder r ≠ away) (identifiers s));
  if bool_decide (away ∈ declared s) then None else
  Some {| instruments := delete away (moved_underlying survivor away <$> instruments s);
          identifiers := ids; declared := declared s;
          book := {| txs := moved_row survivor away <$> txs (book s); tx_groups := tx_groups (book s);
                     transfer_matches := matches |} |}.

(** ** Which instrument survives *)

(** More names first, then the older, then the lower id. *)
Definition survivor_cmp : string * Z * nat → string * Z * nat → comparison :=
  cmp_on (λ c, (c.2, (c.1.2, c.1.1)))
    (cmp_lex (λ n n', Nat.compare n' n) (cmp_lex Z.compare String.compare)).

Definition count_names s (id : string) : nat := length (filter (λ r, holder r = id) (identifiers s)).

Definition pickSurvivor (ids : list string) s : option string :=
  match ids with
  | [] => None
  | [id] => Some id
  | _ =>
      let cands := omap (λ id, (λ i, (id, created_at i, count_names s id)) <$> instruments s !! id) ids in
      (λ c, c.1.1) <$> head (go_sort (less_of survivor_cmp) cands)
  end.

(** ** [EnsureInstrument] *)

(** The instruments the identifiers name, each once, in the order first named. *)
Definition distinct_ids (l : list IdentifierInput) s : list string :=
  foldl (λ acc i, match FindInstrumentByIdentifier (ii_Ref i) (identifiers s) with
                  | Some id => if decide (id ∈ acc) then acc else acc ++ [id]
                  | None => acc
                  end) [] l.

Definition merge_all (survivor : string) (ids : list string) s : option (store D) :=
  foldl (λ acc id, s ← acc; if String.eqb id survivor then Some s else mergeInstruments survivor id s) (Some s) ids.

Definition new_row (assetClass exchangeMIC currency cik sicCode : string) (underlying : option string)
    (validFrom validBefore : option Z) (fields : option (OptionFields D)) (now : Z) : instrument D := {|
  asset_class := nullStr assetClass; exchange_mic := nullStr exchangeMIC; i_currency := nullStr currency;
  cik := nullStr cik; sic_code := nullStr sicCode; underlying_id := underlying;
  valid_from := validFrom; valid_before := validBefore;
  strike := of_Strike <$> fields; expiry := of_Expiry <$> fields; put_call := of_PutCall <$> fields;
  contract_multiplier := dec_of_int 1; created_at := now |}.

(** The insert of a new instrument with its names: an error, or a conflict that a
    concurrent or overlapping name caused. *)
Inductive created := Created (id : string) (s : store D) | Exists_ | Failed.

Fixpoint insert_names (id : string) (l : list IdentifierInput) (ids : list identifier) : insert_result :=
  match l with
  | [] => Inserted ids
  | i :: l => match insert_identifier id i ids with Inserted ids => insert_names id l ids | r => r end
  end.

Definition create_instrument (i : instrument D) (l : list IdentifierInput) s : created :=
  let id := gen_uuid (dom (instruments s)) in
  if negb (row_ok i && match underlying_id i with
                       | None => true | Some u => bool_decide (is_Some (instruments s !! u)) end) then Failed
  else match insert_names id l (identifiers s) with
       | Inserted ids => Created id {| instruments := <[id := i]> (instruments s); identifiers := ids;
                                       declared := declared s; book := book s |}
       | Conflict => Exists_
       | Refused => Failed
       end.

Definition first_found (l : list IdentifierInput) s : option string :=
  head (omap (λ i, FindInstrumentByIdentifier (ii_Ref i) (identifiers s)) l).

Definition EnsureInstrument (assetClass exchangeMIC currency cik sicCode : string) (l : list IdentifierInput)
    (underlyingID : string) (validFrom validBefore : option Z) (fields : option (OptionFields D)) (now : Z) s
    : option (string * store D) :=
  match l with [] => None | _ =>
  if negb (String.eqb assetClass EmptyString) && negb (bool_decide (assetClass ∈ ValidAssetClasses)) then None else
  if bool_decide (assetClass ∈ ["OPTION"; "FUTURE"]) && String.eqb underlyingID EmptyString then None else
  let exchangeMIC := normalizeToOperatingMIC exchangeMIC in
  let l := normalize <$> l in
  underlying ← (if String.eqb underlyingID EmptyString then Some None
                else if uuid_ok underlyingID then Some (Some underlyingID) else None);
  match distinct_ids l s with
  | [] =>
      match create_instrument (new_row assetClass exchangeMIC currency cik sicCode underlying validFrom validBefore
                                 fields now) l s with
      | Created id s => Some (id, s)
      | Exists_ => id ← first_found l s; Some (id, s)
      | Failed => None
      end
  | [id] =>
      if holdsNoCanonicalIdentifier id (identifiers s) then
        s' ← mergeIntoInstrument id {|
          im_AssetClass := assetClass; im_ExchangeMIC := exchangeMIC; im_Currency := currency; im_CIK := cik;
          im_SICCode := sicCode; im_ValidFrom := validFrom; im_ValidBefore := validBefore; im_Identifiers := l |} s;
        s'' ← updateInstrumentOnMatch id underlying fields s';
        Some (id, s'')
      else s' ← updateInstrumentOnMatch id underlying fields s; Some (id, s')
  | ids =>
      survivor ← pickSurvivor ids s;
      s' ← merge_all survivor ids s;
      s'' ← updateInstrumentOnMatch survivor underlying fields s';
      Some (survivor, s'')
  end
  end.
End instruments.

(** ** One name, one instrument at a time *)

#[export] Instance before_cmp_lawful : Lawful before_cmp.
Proof.
  unfold before_cmp. split.
  - intros r r'. destruct (ii_ValidBefore (naming r)), (ii_ValidBefore (naming r')); try done. apply Z.compare_antisym.
  - intros x y z. destruct (ii_ValidBefore (naming x)), (ii_ValidBefore (naming y)), (ii_ValidBefore (naming z)); try done.
    rewrite !Z.compare_lt_iff. lia.
  - intros x y z. destruct (ii_ValidBefore (naming x)), (ii_ValidBefore (naming y)), (ii_ValidBefore (naming z)); try done.
    by intros ->%Z.compare_eq.
Qed.

Definition names_ok (ids : list identifier) : Prop :=
  Forall (λ r, interval_ok (naming r) = true) ids ∧
  ∀ a b r r', ids !! a = Some r → ids !! b = Some r' → clashes (naming r) r' = true → a = b.

Lemma overlaps_sym i j : overlaps i j = overlaps j i.
Proof. unfold overlaps. apply andb_comm. Qed.

Lemma overlaps_self i : interval_ok i = true → overlaps i i = true.
Proof. unfold overlaps, interval_ok. by intros ->. Qed.

Lemma clashes_true i r : clashes i r = true ↔ ii_Ref (naming r) = ii_Ref i ∧ overlaps (naming r) i = true.
Proof. unfold clashes. by rewrite andb_true_iff, bool_decide_eq_true. Qed.

(** Two intervals that end together overlap. *)
Lemma same_end_overlaps i j : interval_ok i = true → interval_ok j = true →
  ii_ValidBefore i = ii_ValidBefore j → overlaps i j = true.
Proof. unfold overlaps, interval_ok. intros Hi Hj E. by rewrite <- E, Hi, E, Hj. Qed.

Lemma names_ok_perm ids ids' : ids ≡ₚ ids' → names_ok ids → names_ok ids'.
Proof.
  intros Hp [Hi Hc]. split; [by rewrite <- Hp|].
  symmetry in Hp. apply Permutation_inj in Hp as (_ & f & Hinj & Hf).
  intros a b r r'. rewrite !Hf. intros Ha Hb Hcl. apply Hinj. by eapply Hc.
Qed.

(** The constraint is about the names, whoever holds them. *)
Lemma names_ok_naming ids ids' : naming <$> ids = naming <$> ids' → names_ok ids → names_ok ids'.
Proof.
  intros E [Hi Hc].
  assert (∀ a r', ids' !! a = Some r' → ∃ r, ids !! a = Some r ∧ naming r = naming r') as Hl.
  { intros a r' Ha. assert ((naming <$> ids) !! a = Some (naming r')) as Hn by (rewrite E, list_lookup_fmap, Ha; done).
    rewrite list_lookup_fmap in Hn. apply fmap_Some in Hn as (r & ? & ?). eauto. }
  split.
  - apply Forall_lookup. intros a r' (r & Ha & <-)%Hl. by eapply Forall_lookup_1 in Hi.
  - intros a b r r' (x & Ha & Ex)%Hl (y & Hb & Ey)%Hl. unfold clashes. rewrite <- Ex, <- Ey. by apply Hc.
Qed.

Lemma names_ok_snoc ids x : names_ok (ids ++ [x]) ↔
  names_ok ids ∧ interval_ok (naming x) = true ∧ existsb (clashes (naming x)) ids = false.
Proof.
  split.
  - intros [Hi Hc]. apply Forall_app in Hi as [Hi Hx]. apply (proj1 (Forall_singleton _ _)) in Hx.
    split; [split; [done|]|split; [done|]].
    + intros a b r r' Ha Hb. apply Hc; by apply lookup_app_l_Some.
    + apply not_true_iff_false. intros (r & Hr%list_elem_of_In & Hcl)%existsb_exists.
      apply list_elem_of_lookup in Hr as [a Ha].
      assert (length ids = a); [|apply lookup_lt_Some in Ha; lia].
      eapply (Hc _ _ x r); [by apply list_lookup_middle|by apply lookup_app_l_Some|done].
  - intros ([Hi Hc] & Hx & Hn). split; [apply Forall_app; split; [done|by apply Forall_singleton]|].
    assert (∀ r, r ∈ ids → clashes (naming x) r = false) as Hfree.
    { intros r Hr. apply not_true_iff_false. intros Hcl. apply not_true_iff_false in Hn. apply Hn.
      apply existsb_exists. exists r. split; [by apply list_elem_of_In|done]. }
    intros a b r r' Ha Hb Hcl. apply lookup_app_Some in Ha as [Ha|[Ha Ha']], Hb as [Hb|[Hb Hb']].
    + by eapply Hc.
    + exfalso. apply list_lookup_singleton_Some in Hb' as [_ <-].
      rewrite clashes_true in Hcl. destruct Hcl as [E Ho].
      assert (clashes (naming x) r = true) as Ht by (apply clashes_true; split; [done|by rewrite overlaps_sym]).
      rewrite Hfree in Ht; [done|]. by eapply list_elem_of_lookup_2.
    + exfalso. apply list_lookup_singleton_Some in Ha' as [_ <-].
      rewrite Hfree in Hcl; [done|]. by eapply list_elem_of_lookup_2.
    + apply list_lookup_singleton_Some in Ha' as [? _], Hb' as [? _]. lia.
Qed.

Lemma insert_inserted id i ids : names_ok (ids ++ [{| holder := id; naming := i |}]) →
  insert_identifier id i ids = Inserted (ids ++ [{| holder := id; naming := i |}]).
Proof. intros (_ & Hi & Hn)%names_ok_snoc. simpl in *. unfold insert_identifier. by rewrite Hi, Hn. Qed.

Lemma insert_names_ok id i ids ids' : names_ok ids → insert_identifier id i ids = Inserted ids' →
  ids' = ids ++ [{| holder := id; naming := i |}] ∧ names_ok ids'.
Proof.
  intros Hok. unfold insert_identifier. destruct (interval_ok i) eqn:Ei; [|done]. cbn [negb].
  destruct (existsb _ _) eqn:Ec; [done|]. intros [= <-]. split; [done|]. by apply names_ok_snoc.
Qed.

(** ** Lookup *)

Lemma find_None ref ids :
  FindInstrumentByIdentifier ref ids = None ↔ ∀ r, r ∈ ids → ii_Ref (naming r) ≠ ref.
Proof.
  unfold FindInstrumentByIdentifier. rewrite fmap_None, head_go_sort_None. split.
  - intros E r Hr Href. assert (r ∈ filter (λ r, ii_Ref (naming r) = ref) ids) as Hin by by apply list_elem_of_filter.
    rewrite E in Hin. by apply elem_of_nil in Hin.
  - intros Hn. destruct (filter _ _) as [|r l] eqn:E; [done|].
    assert (r ∈ filter (λ r, ii_Ref (naming r) = ref) ids) as [? ?]%list_elem_of_filter by (rewrite E; left).
    by destruct (Hn r).
Qed.

(** The name in force, or the last one closed. *)
Lemma find_Some ref ids h : names_ok ids →
  FindInstrumentByIdentifier ref ids = Some h ↔
  ∃ r, r ∈ ids ∧ ii_Ref (naming r) = ref ∧ holder r = h ∧
    ∀ r', r' ∈ ids → ii_Ref (naming r') = ref → before_cmp r r' ≠ Gt.
Proof.
  intros [Hi Hc]. unfold FindInstrumentByIdentifier.
  assert (∀ r, head (go_sort (less_of before_cmp) (filter (λ r, ii_Ref (naming r) = ref) ids)) = Some r →
    r ∈ ids ∧ ii_Ref (naming r) = ref ∧ ∀ r', r' ∈ ids → ii_Ref (naming r') = ref → before_cmp r r' ≠ Gt) as Hhead.
  { intros r Hr. destruct (filter _ ids) as [|x l] eqn:E; [done|].
    assert (∀ y, y ∈ x :: l → r ∈ x :: l ∧ before_cmp r y ≠ Gt) as Hleast
      by (intros y; by apply (head_go_sort_least (less_of before_cmp) before_cmp (λ _ _, eq_refl))).
    assert (∀ y, y ∈ x :: l ↔ ii_Ref (naming y) = ref ∧ y ∈ ids) as Hel by (intros y; by rewrite <- E, list_elem_of_filter).
    destruct (Hleast x ltac:(left)) as [[? ?]%Hel _]. split_and!; [done..|].
    intros r' Hr' Href. by apply Hleast, Hel. }
  rewrite fmap_Some. split.
  - intros (r & (? & ? & ?)%Hhead & ->). exists r. split_and!; done.
  - intros (r & Hr & Href & <- & Hmax).
    destruct (head (go_sort _ _)) as [x|] eqn:E.
    + destruct (Hhead x eq_refl) as (Hx & Hxref & Hxmax). exists x. split; [done|].
      assert (before_cmp r x = Eq) as Heq.
      { specialize (Hmax x Hx Hxref). specialize (Hxmax r Hr Href).
        destruct (before_cmp r x) eqn:Ec; [done| |done]. destruct Hxmax. by apply (cmp_gt_lt before_cmp). }
      apply list_elem_of_lookup in Hr as [a Ha], Hx as [b Hb].
      assert (a = b); [|congruence]. eapply Hc; [done..|]. apply clashes_true. split; [congruence|].
      apply same_end_overlaps; [by eapply Forall_lookup_1 in Hi..|].
      unfold before_cmp in Heq. destruct (ii_ValidBefore (naming r)), (ii_ValidBefore (naming x)); try done.
      apply Z.compare_eq in Heq. by f_equal.
    + apply head_go_sort_None in E. assert (r ∈ filter (λ r, ii_Ref (naming r) = ref) ids) as Hin
        by by apply list_elem_of_filter.
      rewrite E in Hin. by apply elem_of_nil in Hin.
Qed.

(** ** Merging *)

Definition held_by (id : string) (i : IdentifierInput) : identifier := {| holder := id; naming := i |}.

Lemma names_ok_prefix ids k : names_ok (ids ++ k) → names_ok ids.
Proof.
  induction k as [|x k IH] using rev_ind; [by rewrite app_nil_r|].
  rewrite app_assoc. by intros [? _]%names_ok_snoc; apply IH.
Qed.

Lemma reinsert_all id l ids : names_ok (ids ++ (held_by id <$> l)) → reinsert id l ids = Some (ids ++ (held_by id <$> l)).
Proof.
  unfold reinsert. revert ids. induction l as [|i l IH]; intros ids Hok; [by rewrite app_nil_r|].
  rewrite fmap_cons, cons_middle, app_assoc in Hok |- *. cbn [foldl mbind option_bind].
  rewrite insert_inserted; [by apply IH|]. by eapply names_ok_prefix.
Qed.

Lemma insert_names_all id l ids : names_ok (ids ++ (held_by id <$> l)) →
  insert_names id l ids = Inserted (ids ++ (held_by id <$> l)).
Proof.
  revert ids. induction l as [|i l IH]; intros ids Hok; [by rewrite app_nil_r|].
  rewrite fmap_cons, cons_middle, app_assoc in Hok |- *. cbn [insert_names].
  rewrite insert_inserted; [by apply IH|]. by eapply names_ok_prefix.
Qed.

Definition rename (survivor away h : string) : string := if decide (h = away) then survivor else h.

Definition relabel_holder (survivor away : string) (r : identifier) : identifier :=
  {| holder := rename survivor away (holder r); naming := naming r |}.

Lemma merged_names survivor away ids :
  filter (λ r, holder r ≠ away) ids ++ (held_by survivor <$> (naming <$> filter (λ r, holder r = away) ids))
  ≡ₚ relabel_holder survivor away <$> ids.
Proof.
  induction ids as [|r ids IH]; [done|]. rewrite !filter_cons, fmap_cons.
  destruct (decide (holder r = away)) as [E|E].
  - rewrite decide_False by naive_solver. rewrite !fmap_cons, <- Permutation_middle, IH.
    unfold relabel_holder at 2, rename. by rewrite decide_True.
  - rewrite decide_True by done. simpl. rewrite IH.
    assert (relabel_holder survivor away r = r) as ->; [|done].
    unfold relabel_holder, rename. rewrite decide_False by done. by destruct r.
Qed.

Lemma relabel_names_ok survivor away ids ids' :
  names_ok ids → ids' ≡ₚ relabel_holder survivor away <$> ids → names_ok ids'.
Proof.
  intros Hok Hp. eapply names_ok_perm; [symmetry; exact Hp|].
  eapply names_ok_naming; [|exact Hok]. by rewrite <- list_fmap_compose.
Qed.

(** Whatever named the one merged away names the survivor, and nothing else changes. *)
Lemma find_relabel survivor away ids ids' ref :
  names_ok ids → ids' ≡ₚ relabel_holder survivor away <$> ids →
  FindInstrumentByIdentifier ref ids' = rename survivor away <$> FindInstrumentByIdentifier ref ids.
Proof.
  intros Hok Hp. pose proof (relabel_names_ok _ _ _ _ Hok Hp) as Hok'.
  assert (∀ r', r' ∈ ids' ↔ ∃ r, r ∈ ids ∧ r' = relabel_holder survivor away r) as Hin.
  { intros r'. rewrite Hp, list_elem_of_fmap. naive_solver. }
  destruct (FindInstrumentByIdentifier ref ids) as [h|] eqn:E; simpl.
  - apply find_Some in E as (r & Hr & Href & <- & Hmax); [|done]. apply find_Some; [done|].
    exists (relabel_holder survivor away r). split_and!; [apply Hin; eauto|done|done|].
    intros r' (x & Hx & ->)%Hin Hxr. by apply (Hmax x).
  - rewrite find_None in E. apply find_None. intros r' (r & Hr & ->)%Hin. exact (E r Hr).
Qed.

Section ledger.
Context {D : Type} `{DecimalLaws D}.
Implicit Types (l : ledger D) (t : row D).

(** A posting that weighs in an instrument is a posting of that instrument. *)
Definition commodities_ok l : Prop :=
  ∀ t X, t ∈ txs l → r_commodity t = InstrumentPrefix +:+ X → r_instrument t = Some X.

Definition moved_ledger (survivor away : string) l (ms : list transfer_match) : ledger D :=
  {| txs := moved_row survivor away <$> txs l; tx_groups := tx_groups l; transfer_matches := ms |}.

Lemma moved_row_leg survivor away t :
  r_group (moved_row survivor away t) = r_group t ∧ r_weight (moved_row survivor away t) = r_weight t.
Proof. unfold moved_row. by destruct (decide _). Qed.

Lemma moved_commodity survivor away l t : commodities_ok l → t ∈ txs l →
  r_commodity (moved_row survivor away t) =
  if String.eqb (r_commodity t) (InstrumentPrefix +:+ away) then InstrumentPrefix +:+ survivor else r_commodity t.
Proof.
  intros Hc Ht. unfold moved_row. destruct (decide _) as [E|E]; [done|].
  destruct (String.eqb_spec (r_commodity t) (InstrumentPrefix +:+ away)) as [Ec|]; [|done].
  destruct E. by apply (Hc t away).
Qed.

(** What a posting adds to a group's sum in a commodity. *)
Definition share (g c : string) t : Q := if decide (r_group t = g ∧ r_commodity t = c) then dval (r_weight t) else 0%Q.

Lemma residual_shares l g c : (dval (residual_of l g c) == foldr (λ t q, share g c t + q) 0 (txs l))%Q.
Proof.
  unfold residual_of, rows_in. induction (txs l) as [|t ts IH]; [apply dval_zero|].
  rewrite filter_cons. cbn [foldr].
  assert (share g c t = if decide (r_group t = g ∧ r_commodity t = c) then dval (r_weight t) else 0%Q) as -> by done.
  destruct (decide _).
  - rewrite fmap_cons. cbn [dec_sum foldr]. fold (dec_sum (r_weight <$> filter (λ t, r_group t = g ∧ r_commodity t = c) ts)).
    rewrite dval_add, IH. reflexivity.
  - rewrite IH. lra.
Qed.

Lemma moved_share survivor away l t g c : commodities_ok l → t ∈ txs l → survivor ≠ away →
  (share g c (moved_row survivor away t) ==
   if decide (c = InstrumentPrefix +:+ away) then 0
   else if decide (c = InstrumentPrefix +:+ survivor) then share g c t + share g (InstrumentPrefix +:+ away) t
   else share g c t)%Q.
Proof.
  intros Hc Ht Hne. destruct (moved_row_leg survivor away t) as [Hg Hw].
  pose proof (moved_commodity survivor away l t Hc Ht) as Hcom.
  assert (InstrumentPrefix +:+ survivor ≠ InstrumentPrefix +:+ away) as Hpre by by intros ?%(inj (String.append _)).
  unfold share. rewrite Hg, Hw, Hcom.
  destruct (String.eqb_spec (r_commodity t) (InstrumentPrefix +:+ away)) as [Ea|Ea];
    destruct (decide (c = InstrumentPrefix +:+ away)) as [->|Hca].
  - rewrite decide_False by (intros [_ ?]; congruence). reflexivity.
  - rewrite (decide_False (P:=r_group t = g ∧ r_commodity t = c)) by (intros [_ ?]; congruence).
    destruct (decide (c = InstrumentPrefix +:+ survivor)) as [->|Hcs].
    + destruct (decide (r_group t = g)) as [Eg|Eg].
      * rewrite !decide_True by done. lra.
      * rewrite !decide_False by tauto. lra.
    + rewrite decide_False by (intros [_ ?]; congruence). reflexivity.
  - rewrite decide_False by tauto. reflexivity.
  - rewrite (decide_False (P:=r_group t = g ∧ r_commodity t = InstrumentPrefix +:+ away)) by tauto.
    destruct (decide (c = InstrumentPrefix +:+ survivor)); lra.
Qed.

(** Merging two instruments moves each group's weight in one to the other. *)
Lemma moved_residual survivor away l ms g c : commodities_ok l → survivor ≠ away →
  (dval (residual_of (moved_ledger survivor away l ms) g c) ==
   if decide (c = InstrumentPrefix +:+ away) then 0
   else if decide (c = InstrumentPrefix +:+ survivor) then dval (residual_of l g c) + dval (residual_of l g (InstrumentPrefix +:+ away))
   else dval (residual_of l g c))%Q.
Proof.
  intros Hc Hne. rewrite (residual_shares (moved_ledger _ _ _ _)). unfold moved_ledger. cbn [txs].
  pose proof (λ t Ht, moved_share survivor away l t g c Hc Ht Hne) as Hs. clear Hc.
  destruct (decide (c = InstrumentPrefix +:+ away)); [|destruct (decide (c = InstrumentPrefix +:+ survivor))];
    rewrite ?residual_shares; (induction (txs l) as [|t ts IH]; [reflexivity|]);
    rewrite fmap_cons; cbn [foldr]; rewrite (Hs t) by left; rewrite IH by (intros; apply Hs; by right); lra.
Qed.

Lemma moved_balanced survivor away l ms : commodities_ok l → survivor ≠ away →
  (∀ g, balanced l g) → ∀ g, balanced (moved_ledger survivor away l ms) g.
Proof.
  intros Hc Hne Hb g c. rewrite moved_residual by done.
  repeat case_decide; [reflexivity| |apply Hb].
  pose proof (Hb g c) as Hc1. pose proof (Hb g (InstrumentPrefix +:+ away)) as Hc2. rewrite Hc1, Hc2. reflexivity.
Qed.
End ledger.

(** ** Names added to an instrument *)

Lemma find_snoc ref ids x h : names_ok (ids ++ [x]) →
  FindInstrumentByIdentifier ref (ids ++ [x]) = Some h →
  h = holder x ∨ FindInstrumentByIdentifier ref ids = Some h.
Proof.
  intros Hok (r & [Hr| ->%list_elem_of_singleton]%elem_of_app & Href & <- & Hmax)%find_Some; [|by left|done].
  right. apply find_Some; [by apply names_ok_snoc in Hok as [? _]|]. exists r. split_and!; [done..|].
  intros r' Hr'. apply Hmax, elem_of_app. by left.
Qed.

Lemma find_held ref ids : is_Some (FindInstrumentByIdentifier ref ids) ↔ ∃ r, r ∈ ids ∧ ii_Ref (naming r) = ref.
Proof.
  split.
  - intros [h Hh]. destruct (filter (λ r, ii_Ref (naming r) = ref) ids) as [|r k] eqn:E.
    + unfold FindInstrumentByIdentifier in Hh. by rewrite E in Hh.
    + exists r. assert (r ∈ filter (λ r, ii_Ref (naming r) = ref) ids) as [? ?]%list_elem_of_filter by (rewrite E; left).
      done.
  - intros (r & Hr & Href). apply not_eq_None_Some. rewrite find_None. by intros Hn; apply (Hn r).
Qed.

(** [ids'] is [ids] with names of one instrument added. *)
Definition grown (id : string) (ids ids' : list identifier) : Prop :=
  names_ok ids' ∧ ids ⊆ ids' ∧
  (∀ r, r ∈ ids' → r ∈ ids ∨ holder r = id) ∧
  (∀ ref h, FindInstrumentByIdentifier ref ids' = Some h → h = id ∨ FindInstrumentByIdentifier ref ids = Some h).

Lemma grown_refl id ids : names_ok ids → grown id ids ids.
Proof. intros Hok. unfold grown. split_and!; [done|done|by left|by right]. Qed.

Lemma grown_insert id i ids ids' ids'' : grown id ids ids' → insert_identifier id i ids' = Inserted ids'' →
  grown id ids ids'' ∧ held_by id i ∈ ids''.
Proof.
  intros (Hok & Hsub & Hnew & Hfind) [-> Hok'']%insert_names_ok; [|done]. split; [unfold grown; split_and!|].
  - done.
  - set_solver.
  - intros r [Hr| ->%list_elem_of_singleton]%elem_of_app; auto.
  - intros ref h [->|?]%find_snoc; auto.
  - apply elem_of_app. right. by left.
Qed.

Lemma insert_conflict id i ids : insert_identifier id i ids = Conflict → ∃ r, r ∈ ids ∧ ii_Ref (naming r) = ii_Ref i.
Proof.
  unfold insert_identifier. destruct (negb _); [done|]. destruct (existsb _ _) eqn:E; [|done]. intros _.
  apply existsb_exists in E as (r & Hr%list_elem_of_In & [? _]%clashes_true). eauto.
Qed.

(** Every name given is held by someone afterwards. *)
Lemma add_missing_spec id l ids ids' : names_ok ids → add_missing id l ids = Some ids' →
  grown id ids ids' ∧ ∀ i, i ∈ l → ∃ r, r ∈ ids' ∧ ii_Ref (naming r) = ii_Ref i.
Proof.
  intros Hok. unfold add_missing. revert ids'. induction l as [|i l IH] using rev_ind; intros ids'.
  { intros [= <-]. split; [by apply grown_refl|]. set_solver. }
  rewrite foldl_app. cbn [foldl]. destruct (foldl _ _ l) as [ids1|]; [|done]. cbn [mbind option_bind].
  destruct (IH ids1 eq_refl) as [Hg Hl].
  destruct (insert_identifier id i ids1) as [ids2| |] eqn:E; [| |done]; intros [= <-].
  - destruct (grown_insert _ _ _ _ _ Hg E) as [Hg2 Hin]. split; [done|].
    intros j [Hj| ->%list_elem_of_singleton]%elem_of_app; [|by eauto].
    destruct (Hl j Hj) as (r & Hr & ?). exists r. split; [|done].
    apply insert_names_ok in E as [-> _]; [|by destruct Hg]. apply elem_of_app. by left.
  - split; [done|]. intros j [Hj| ->%list_elem_of_singleton]%elem_of_app; [by apply Hl|]. by eapply insert_conflict.
Qed.

Lemma insert_names_spec id l ids0 ids ids' : grown id ids0 ids → insert_names id l ids = Inserted ids' →
  grown id ids0 ids' ∧ ids ⊆ ids' ∧ ∀ i, i ∈ l → held_by id i ∈ ids'.
Proof.
  revert ids. induction l as [|i l IH]; intros ids Hg; cbn [insert_names].
  { intros [= <-]. split_and!; [done|done|set_solver]. }
  destruct (insert_identifier id i ids) as [ids1| |] eqn:E; [|done..]. intros E'.
  destruct (grown_insert _ _ _ _ _ Hg E) as [Hg1 Hin].
  destruct (IH ids1 Hg1 E') as (Hg' & Hsub & Hl). split_and!; [done| |].
  - apply insert_names_ok in E as [-> _]; [|by destruct Hg]. set_solver.
  - intros j [->|Hj]%elem_of_cons; [by apply Hsub|by apply Hl].
Qed.

(** ** What the identifiers of a request name *)

Section requests.
Context {D : Type}.
Implicit Types s : store D.

Lemma distinct_spec (l : list IdentifierInput) s :
  NoDup (distinct_ids l s) ∧
  ∀ id, id ∈ distinct_ids l s ↔ ∃ i, i ∈ l ∧ FindInstrumentByIdentifier (ii_Ref i) (identifiers s) = Some id.
Proof.
  unfold distinct_ids. induction l as [|i l IH] using rev_ind.
  { split; [constructor|]. set_solver. }
  rewrite foldl_app. cbn [foldl]. destruct IH as [Hnd Hin].
  set (acc := foldl _ [] l) in *. clearbody acc.
  destruct (FindInstrumentByIdentifier (ii_Ref i) (identifiers s)) as [h|] eqn:E.
  - destruct (decide (h ∈ acc)) as [Hh|Hh].
    + split; [done|]. intros id. rewrite Hin. split; [naive_solver set_solver|].
      intros (j & [Hj| ->%list_elem_of_singleton]%elem_of_app & Hf); [eauto|].
      apply Hin. congruence.
    + split; [apply NoDup_app; split_and!; [done|set_solver|apply NoDup_singleton]|].
      intros id. rewrite elem_of_app, Hin, list_elem_of_singleton. split.
      * intros [(j & ? & ?)| ->]; [exists j|exists i]; set_solver.
      * intros (j & [Hj| ->%list_elem_of_singleton]%elem_of_app & Hf); [eauto|]. right. congruence.
  - split; [done|]. intros id. rewrite Hin. split; [naive_solver set_solver|].
    intros (j & [Hj| ->%list_elem_of_singleton]%elem_of_app & Hf); [eauto|congruence].
Qed.

Lemma distinct_single (l : list IdentifierInput) s id :
  (∃ i, i ∈ l ∧ FindInstrumentByIdentifier (ii_Ref i) (identifiers s) = Some id) →
  (∀ i h, i ∈ l → FindInstrumentByIdentifier (ii_Ref i) (identifiers s) = Some h → h = id) →
  distinct_ids l s = [id].
Proof.
  intros Hex Hall. destruct (distinct_spec l s) as [Hnd Hin].
  assert (id ∈ distinct_ids l s) as Hid by by apply Hin.
  assert (∀ h, h ∈ distinct_ids l s → h = id) as Hone by (intros h (i & ? & ?)%Hin; eauto).
  destruct (distinct_ids l s) as [|x [|y k]]; [by apply elem_of_nil in Hid| |].
  - f_equal. apply Hone. by left.
  - apply NoDup_cons in Hnd as [Hx _]. destruct Hx.
    rewrite (Hone x) by left. rewrite <- (Hone y) by (right; left). by left.
Qed.
End requests.

(** ** The store's invariant *)

Section stores.
Context {D : Type} `{DecimalLaws D}.
Context (gen_uuid : gset string → string) (uuid_ok : string → bool) (operating_mic : string → option string).
Hypothesis gen_fresh : ∀ X, gen_uuid X ∉ X.
Implicit Types s : store D.

Record store_ok s : Prop := {
  so_names : names_ok (identifiers s);
  so_holders : ∀ r, r ∈ identifiers s → is_Some (instruments s !! holder r);
  so_underlying : ∀ id i u, instruments s !! id = Some i → underlying_id i = Some u → is_Some (instruments s !! u);
  so_rows : ∀ id i, instruments s !! id = Some i → row_ok operating_mic i = true;
}.

Lemma moved_underlying_row survivor away (i : instrument D) :
  row_ok operating_mic (moved_underlying survivor away i) = row_ok operating_mic i.
Proof.
  unfold moved_underlying. destruct (decide _) as [E|E]; [|done]. unfold row_ok. cbn. by rewrite E.
Qed.

Lemma moved_row_instrument survivor away (t : row D) :
  r_instrument (moved_row survivor away t) = rename survivor away <$> r_instrument t.
Proof.
  unfold moved_row, rename. destruct (decide (r_instrument t = Some away)) as [E|E].
  - rewrite E. simpl. by rewrite decide_True.
  - destruct (r_instrument t) as [x|] eqn:Ex; [|done]. simpl. rewrite decide_False by congruence. done.
Qed.

Lemma moved_commodities survivor away (l : ledger D) ms : commodities_ok l →
  commodities_ok (moved_ledger survivor away l ms).
Proof.
  intros Hc t' X (t & -> & Ht)%list_elem_of_fmap. rewrite moved_row_instrument, (moved_commodity _ _ l) by done.
  destruct (String.eqb_spec (r_commodity t) (InstrumentPrefix +:+ away)) as [E|E].
  - intros <-%(inj (String.append _)). rewrite (Hc t away) by done. simpl. unfold rename. by rewrite decide_True.
  - intros Ec. rewrite (Hc t X) by done. simpl. unfold rename. rewrite decide_False; [done|]. intros ->. congruence.
Qed.

(** What a merge does when it succeeds. *)
Lemma merge_spec survivor away s s' : store_ok s → survivor ≠ away → mergeInstruments survivor away s = Some s' →
  store_ok s' ∧ instruments s' !! away = None ∧ is_Some (instruments s' !! survivor) ∧
  (∀ ref, FindInstrumentByIdentifier ref (identifiers s')
          = rename survivor away <$> FindInstrumentByIdentifier ref (identifiers s)) ∧
  ∃ ms, book s' = moved_ledger survivor away (book s) ms.
Proof.
  intros Hok Hne. unfold mergeInstruments. rewrite (proj2 (String.eqb_neq _ _)) by done.
  destruct (bool_decide (is_Some (instruments s !! survivor))) eqn:Es; [|done]. apply bool_decide_eq_true in Es.
  destruct (bool_decide (match_indexes _)); [|done]. cbn [negb].
  pose proof (merged_names survivor away (identifiers s)) as Hp.
  pose proof (relabel_names_ok _ _ _ _ (so_names _ Hok) Hp) as Hnames.
  rewrite reinsert_all by done. cbn [mbind option_bind].
  destruct (bool_decide (away ∈ declared s)); [done|]. intros [= <-]. cbn [instruments identifiers book].
  assert (∀ u, u ≠ away → is_Some (instruments s !! u) →
    is_Some (delete away (moved_underlying survivor away <$> instruments s) !! u)) as Hkeep.
  { intros u Hu [i Hi]. rewrite lookup_delete_ne, lookup_fmap, Hi by done. by eexists. }
  split_and!; [split; cbn [instruments identifiers]|by rewrite lookup_delete_eq|by apply Hkeep| |by eexists].
  - done.
  - intros r Hr. rewrite Hp in Hr. apply list_elem_of_fmap in Hr as (x & -> & Hx). simpl. unfold rename.
    destruct (decide (holder x = away)); [by apply Hkeep|]. apply Hkeep; [done|]. by apply (so_holders _ Hok).
  - intros id i u Hi Hu. apply lookup_delete_Some in Hi as [_ Hi]. rewrite lookup_fmap in Hi.
    apply fmap_Some in Hi as (j & Hj & ->). unfold moved_underlying in Hu. destruct (decide _) as [E|E].
    + injection Hu as <-. by apply Hkeep.
    + apply Hkeep; [congruence|]. by apply (so_underlying _ Hok id j).
  - intros id i Hi. apply lookup_delete_Some in Hi as [_ Hi]. rewrite lookup_fmap in Hi.
    apply fmap_Some in Hi as (j & Hj & ->). rewrite moved_underlying_row. by apply (so_rows _ Hok id).
  - intros ref. by apply find_relabel; [apply so_names|].
Qed.








Lemma update_row_spec id f s s' : store_ok s → update_row operating_mic id f s = Some s' →
  store_ok s' ∧ identifiers s' = identifiers s ∧ book s' = book s ∧
  ∀ u, is_Some (instruments s !! u) → is_Some (instruments s' !! u).
Proof.
  intros Hok. unfold update_row. destruct (instruments s !! id) as [i|] eqn:Ei; [|by intros [= <-]].
  destruct (_ && _) eqn:Eb; [|done]. apply andb_true_iff in Eb as [Hrow Hu]. intros [= <-].
  assert (∀ u, is_Some (instruments s !! u) → is_Some (<[id := f i]> (instruments s) !! u)) as Hkeep.
  { intros u Hex. destruct (decide (id = u)) as [->|]; [rewrite lookup_insert_eq; by eexists|by rewrite lookup_insert_ne]. }
  split_and!; [split; cbn [instruments identifiers]|done|done|done].
  - by apply so_names.
  - intros r Hr. by apply Hkeep, (so_holders _ Hok).
  - intros a j u Hj Hju. destruct (decide (id = a)) as [<-|Hne].
    + rewrite lookup_insert_eq in Hj. injection Hj as <-. rewrite Hju in Hu. by apply Hkeep, (bool_decide_eq_true_1 _ Hu).
    + rewrite lookup_insert_ne in Hj by done. by eapply Hkeep, (so_underlying _ Hok).
  - intros a j Hj. destruct (decide (id = a)) as [<-|Hne].
    + rewrite lookup_insert_eq in Hj. by injection Hj as <-.
    + rewrite lookup_insert_ne in Hj by done. by apply (so_rows _ Hok a).
Qed.

Lemma grown_store id ids' s : store_ok s → grown id (identifiers s) ids' → is_Some (instruments s !! id) →
  store_ok (with_identifiers ids' s).
Proof.
  intros Hok (Hn & _ & Hnew & _) Hid. split; cbn [instruments identifiers with_identifiers].
  - done.
  - intros r [Hr|<-]%Hnew; [by apply (so_holders _ Hok)|done].
  - apply Hok.
  - apply Hok.
Qed.

(** ** The books *)

(** The foreign key of the postings. *)
Definition linked s : Prop := ∀ t i, t ∈ txs (book s) → r_instrument t = Some i → is_Some (instruments s !! i).

(** What of a posting does not depend on its instrument. *)
Definition core (t : row D) : string * string * string * string * Z * string * D * D :=
  (r_id t, r_user t, r_broker t, r_account t, r_order_date t, r_group t, r_quantity t, r_weight t).

(** What the store's writes keep of the ledger. *)
Record books_kept s s' : Prop := {
  bk_balance : commodities_ok (book s) →
    commodities_ok (book s') ∧ ((∀ g, balanced (book s) g) → ∀ g, balanced (book s') g);
  bk_keyed : ∀ ok, keyed ok (book s) → keyed ok (book s');
  bk_linked : linked s → linked s';
  bk_cores : core <$> txs (book s') = core <$> txs (book s);
}.

Lemma books_kept_trans s s' s'' : books_kept s s' → books_kept s' s'' → books_kept s s''.
Proof.
  intros [Hb Hk Hl Hc0] [Hb' Hk' Hl' Hc0']. split; [|auto..|congruence]. intros Hc. destruct (Hb Hc) as [Hc' Hg]. destruct (Hb' Hc') as [? ?]. auto.
Qed.

Lemma books_kept_same s s' : book s' = book s → (∀ u, is_Some (instruments s !! u) → is_Some (instruments s' !! u)) → books_kept s s'.
Proof. intros E Hi. split; rewrite ?E; [done|done| |done]. intros Hl t i. rewrite E. eauto. Qed.

Lemma books_kept_refl s : books_kept s s.
Proof. by apply books_kept_same. Qed.

Lemma merged_rows survivor away s s' : survivor ≠ away → mergeInstruments survivor away s = Some s' →
  instruments s' = delete away (moved_underlying survivor away <$> instruments s).
Proof.
  intros Hne. unfold mergeInstruments. rewrite (proj2 (String.eqb_neq _ _)) by done.
  repeat (destruct (negb _); [done|]). destruct (reinsert _ _ _); [|done]. cbn [mbind option_bind].
  destruct (bool_decide _); [done|]. by intros [= <-].
Qed.

Lemma merge_books_kept survivor away s s' : store_ok s → survivor ≠ away →
  mergeInstruments survivor away s = Some s' → books_kept s s'.
Proof.
  intros Hok Hne E. pose proof (merged_rows _ _ _ _ Hne E) as Ei.
  apply merge_spec in E as (_ & _ & Hs & _ & ms & Hb); [|done..]. split; rewrite ?Hb.
  - intros Hc. split; [by apply moved_commodities|by apply moved_balanced].
  - intros ok (Hnd & Hg & Hu). assert (∀ t : row D, r_id (moved_row survivor away t) = r_id t ∧ r_group (moved_row survivor away t) = r_group t) as Hrow.
    { intros t. unfold moved_row. by destruct (decide _). }
    split_and!; [|intros t (x & -> & Hx)%list_elem_of_fmap; rewrite (proj2 (Hrow x)); by apply Hg|done].
    cbn [moved_ledger txs]. rewrite <- list_fmap_compose. rewrite (list_fmap_ext _ r_id); [done|]. intros ? x _. apply Hrow.
  - intros Hl t i. rewrite Hb, Ei. intros (x & -> & Hx)%list_elem_of_fmap. rewrite moved_row_instrument.
    intros (u & Hu & ->)%fmap_Some. unfold rename. destruct (decide (u = away)) as [->|Hne'].
    + by rewrite <- Ei.
    + rewrite lookup_delete_ne, lookup_fmap by done. destruct (Hl x u Hx Hu) as [j ->]. by eexists.
  - cbn [moved_ledger txs]. rewrite <- list_fmap_compose. apply list_fmap_ext. intros ? x _. simpl. unfold core, moved_row.
    by destruct (decide _).
Qed.

(** ** The branches of [EnsureInstrument] *)

(** What holds when the identifiers [l] have been settled on the instrument [id]. *)
Definition settled (l : list IdentifierInput) (id : string) s s' : Prop :=
  store_ok s' ∧ is_Some (instruments s' !! id) ∧ distinct_ids l s' = [id] ∧ books_kept s s'.

Lemma settled_update l id s s1 id' u fields s2 : settled l id s s1 →
  updateInstrumentOnMatch operating_mic id' u fields s1 = Some s2 → settled l id s s2.
Proof.
  intros (Hok & Hid & Hd & Hb) E. apply update_row_spec in E as (Hok2 & Ei & Eb & Hkeep); [|done].
  split_and!; [done|by apply Hkeep| |eapply books_kept_trans; [exact Hb|by apply books_kept_same]].
  unfold distinct_ids. by rewrite Ei.
Qed.

(** The instruments named are rows of the table. *)
Lemma find_exists ref s h : store_ok s → FindInstrumentByIdentifier ref (identifiers s) = Some h →
  is_Some (instruments s !! h).
Proof. intros Hok (r & Hr & _ & <- & _)%find_Some; [by apply (so_holders _ Hok)|by apply so_names]. Qed.

Lemma settled_found l id s : store_ok s → distinct_ids l s = [id] → settled l id s s.
Proof.
  intros Hok Hd. split_and!; [done| |done|apply books_kept_refl].
  destruct (proj1 (proj2 (distinct_spec l s) id)) as (i & _ & ?); [rewrite Hd; left|]. by eapply find_exists.
Qed.

Lemma settled_complete l id s m s' : store_ok s → distinct_ids l s = [id] → im_Identifiers m = l →
  mergeIntoInstrument operating_mic id m s = Some s' → settled l id s s'.
Proof.
  intros Hok Hd <-. destruct (settled_found _ _ _ Hok Hd) as (_ & Hid & _).
  destruct (proj1 (proj2 (distinct_spec (im_Identifiers m) s) id)) as (i & Hi & _); [rewrite Hd; left|].
  unfold mergeIntoInstrument. rewrite bool_decide_true by done. cbn [negb andb].
  destruct (add_missing _ _ _) as [ids|] eqn:E; [|done]. cbn [mbind option_bind].
  apply add_missing_spec in E as [Hg Hl]; [|by apply so_names].
  intros (Hok' & Ei & Eb & Hkeep)%update_row_spec; [|by eapply grown_store]. cbn in Ei, Eb.
  assert (∀ j h, j ∈ im_Identifiers m → FindInstrumentByIdentifier (ii_Ref j) ids = Some h → h = id) as Hone.
  { intros j h Hj [->|Hf]%(proj2 (proj2 (proj2 Hg))); [done|].
    assert (h ∈ distinct_ids (im_Identifiers m) s) as Hh by (apply distinct_spec; eauto).
    rewrite Hd in Hh. by apply list_elem_of_singleton in Hh. }
  split_and!; [done|by apply Hkeep| |by apply books_kept_same].
  apply distinct_single; rewrite Ei; [|done]. exists i. split; [done|].
  destruct (proj2 (find_held (ii_Ref i) ids) (Hl i Hi)) as [h Hh]. by rewrite <- (Hone i h).
Qed.

Lemma settled_created l i id s s' : store_ok s → l ≠ [] → distinct_ids l s = [] →
  create_instrument gen_uuid operating_mic i l s = Created id s' → settled l id s s'.
Proof.
  intros Hok Hne Hd. unfold create_instrument. destruct (_ && _) eqn:Eb; [|done]. cbn [negb].
  apply andb_true_iff in Eb as [Hrow Hu].
  destruct (insert_names _ _ _) as [ids| |] eqn:E; [|done..]. intros [= <- <-].
  set (id := gen_uuid (dom (instruments s))) in *.
  assert (instruments s !! id = None) as Hfresh by (apply not_elem_of_dom, gen_fresh).
  destruct (insert_names_spec id l (identifiers s) (identifiers s) ids) as (Hg & _ & Hl);
    [by apply grown_refl, so_names|done|].
  assert (∀ u, is_Some (instruments s !! u) → is_Some (<[id := i]> (instruments s) !! u)) as Hkeep.
  { intros u Hex. rewrite lookup_insert_is_Some. destruct (decide (id = u)); auto. }
  split_and!; cbn [instruments book]; [split; cbn [instruments identifiers]| | |by apply books_kept_same].
  - by destruct Hg.
  - intros r [Hr| ->]%(proj1 (proj2 (proj2 Hg))); [by apply Hkeep, (so_holders _ Hok)|].
    rewrite lookup_insert_eq. by eexists.
  - intros a j u Hj Hju. apply lookup_insert_Some in Hj as [[<- <-]|[_ Hj]].
    + rewrite Hju in Hu. by apply Hkeep, (bool_decide_eq_true_1 _ Hu).
    + by eapply Hkeep, (so_underlying _ Hok).
  - intros a j [[<- <-]|[_ Hj]]%lookup_insert_Some; [done|]. by apply (so_rows _ Hok a).
  - rewrite lookup_insert_eq. by eexists.
  - assert (∀ j h, j ∈ l → FindInstrumentByIdentifier (ii_Ref j) ids = Some h → h = id) as Hone.
    { intros j h Hj [->|Hf]%(proj2 (proj2 (proj2 Hg))); [done|].
      assert (h ∈ distinct_ids l s) as Hh by (apply distinct_spec; eauto).
      rewrite Hd in Hh. by apply elem_of_nil in Hh. }
    destruct l as [|j l]; [done|]. apply distinct_single; cbn [identifiers]; [|done]. exists j. split; [left|].
    destruct (proj2 (find_held (ii_Ref j) ids)) as [h Hh]; [exists (held_by id j); split; [apply Hl; left|done]|].
    rewrite Hh. f_equal. eapply Hone; [left|done].
Qed.

(** ** Merging several *)

Lemma merge_all_None survivor (ids : list string) :
  foldl (λ acc id, s ← acc; if String.eqb id survivor then Some s else mergeInstruments survivor id s)
    (None : option (store D)) ids = None.
Proof. by induction ids. Qed.

Definition gathered (survivor : string) (ids : list string) (h : string) : string :=
  if decide (h ∈ ids) then survivor else h.

Lemma merge_all_spec survivor ids s s' : store_ok s → is_Some (instruments s !! survivor) →
  merge_all survivor ids s = Some s' →
  store_ok s' ∧ is_Some (instruments s' !! survivor) ∧ books_kept s s' ∧
  ∀ ref, FindInstrumentByIdentifier ref (identifiers s')
         = gathered survivor ids <$> FindInstrumentByIdentifier ref (identifiers s).
Proof.
  unfold merge_all. revert s. induction ids as [|id ids IH]; intros s Hok Hs; cbn [foldl mbind option_bind].
  { intros [= <-]. split_and!; [done|done|apply books_kept_refl|].
    intros ref. by destruct (FindInstrumentByIdentifier _ _). }
  destruct (String.eqb_spec id survivor) as [->|Hne].
  - intros (? & ? & ? & Hf)%IH; [|done..]. split_and!; [done..|]. intros ref. rewrite Hf.
    destruct (FindInstrumentByIdentifier _ _) as [h|]; [|done]. simpl. f_equal. unfold gathered.
    destruct (decide (h = survivor)) as [->|]; repeat case_decide; set_solver.
  - destruct (mergeInstruments survivor id s) as [s1|] eqn:E; [|by rewrite merge_all_None].
    pose proof (merge_books_kept _ _ _ _ Hok (not_eq_sym Hne) E) as Hb1.
    apply merge_spec in E as (Hok1 & _ & Hs1 & Hf1 & _); [|done..].
    intros (Hok' & Hs' & Hb & Hf)%IH; [|done..]. split_and!; [done..| |].
    + by eapply books_kept_trans.
    + intros ref. rewrite Hf, Hf1. destruct (FindInstrumentByIdentifier _ _) as [h|]; [|done]. simpl. f_equal.
      unfold gathered, rename. repeat case_decide; set_solver.
Qed.

Lemma pickSurvivor_spec ids s x : 1 < length ids → pickSurvivor ids s = Some x →
  x ∈ ids ∧ is_Some (instruments s !! x).
Proof.
  intros Hlen. unfold pickSurvivor. destruct ids as [|a [|b ids]]; [simpl in Hlen; lia..|].
  set (l := a :: b :: ids). clearbody l. intros (c & Hc & ->)%fmap_Some.
  assert (c ∈ go_sort (less_of survivor_cmp)
      (omap (λ id, (λ i, (id, created_at i, count_names s id)) <$> instruments s !! id) l)) as Hin.
  { destruct (go_sort _ _) as [|y k]; [done|]. injection Hc as ->. left. }
  rewrite go_sort_perm, list_elem_of_omap in Hin. destruct Hin as (id & Hid & (i & Hi & ->)%fmap_Some).
  simpl. split; [done|by eexists].
Qed.

Lemma settled_merged l x s s' : store_ok s → 1 < length (distinct_ids l s) →
  pickSurvivor (distinct_ids l s) s = Some x → merge_all x (distinct_ids l s) s = Some s' → settled l x s s'.
Proof.
  intros Hok Hlen [Hx Hs]%pickSurvivor_spec E; [|done].
  apply merge_all_spec in E as (Hok' & Hs' & Hb & Hf); [|done..]. split_and!; [done|done| |done].
  destruct (distinct_spec l s) as [_ Hin]. apply distinct_single.
  - destruct (proj1 (Hin x) Hx) as (i & Hi & Hfi). exists i. split; [done|]. rewrite Hf, Hfi. simpl.
    unfold gathered. by rewrite decide_True.
  - intros i h Hi. rewrite Hf. intros (h' & Hh' & ->)%fmap_Some. unfold gathered.
    rewrite decide_True; [done|]. apply Hin. eauto.
Qed.

(** ** The whole *)

(** A new instrument's names that clash with each other clash with nothing stored, so the
    second look finds nothing. *)
Lemma nothing_found l s : distinct_ids l s = [] → first_found l s = None.
Proof.
  intros Hd. unfold first_found. destruct (omap _ l) as [|h k] eqn:E; [done|].
  assert (h ∈ omap (λ i, FindInstrumentByIdentifier (ii_Ref i) (identifiers s)) l) as Hh by (rewrite E; left).
  apply list_elem_of_omap in Hh as (i & Hi & Hf).
  assert (h ∈ distinct_ids l s) as Hin by (apply distinct_spec; eauto). rewrite Hd in Hin. by apply elem_of_nil in Hin.
Qed.

(** Each branch settles the identifiers. *)
Lemma ensure_spec assetClass exchangeMIC currency cik sicCode l underlyingID validFrom validBefore fields now s id s' :
  store_ok s →
  EnsureInstrument gen_uuid uuid_ok operating_mic assetClass exchangeMIC currency cik sicCode l underlyingID
    validFrom validBefore fields now s = Some (id, s') →
  settled (normalize operating_mic <$> l) id s s'.
Proof.
  intros Hok. unfold EnsureInstrument. destruct (decide (l = [])) as [->|Hne]; [done|].
  assert (normalize operating_mic <$> l ≠ []) as Hne' by (by intros ?%fmap_nil_inv).
  destruct l as [|i0 l0] eqn:El; [done|]. rewrite <- El in *. clear El i0 l0.
  destruct (_ && _); [done|]. destruct (_ && _); [done|].
  set (k := normalize operating_mic <$> l) in *. clearbody k.
  destruct (if String.eqb underlyingID EmptyString then _ else _) as [u|]; [|done]. cbn [mbind option_bind].
  destruct (distinct_ids k s) as [|x [|y ids]] eqn:Ed.
  - destruct (create_instrument _ _ _ _ _) as [x s1| |] eqn:Ec; [| |done].
    + intros [= <- <-]. by eapply settled_created.
    + by rewrite nothing_found.
  - destruct (holdsNoCanonicalIdentifier x (identifiers s)).
    + destruct (mergeIntoInstrument _ _ _ _) as [s1|] eqn:Em; [|done]. cbn [mbind option_bind].
      destruct (updateInstrumentOnMatch _ _ _ _ _) as [s2|] eqn:Eu; [|done]. intros [= <- <-].
      eapply settled_update; [|exact Eu]. eapply settled_complete; [done|done| |exact Em]. done.
    + destruct (updateInstrumentOnMatch _ _ _ _ _) as [s2|] eqn:Eu; [|done]. intros [= <- <-].
      eapply settled_update; [|exact Eu]. by apply settled_found.
  - rewrite <- Ed. destruct (pickSurvivor _ s) as [v|] eqn:Ep; [|done]. cbn [mbind option_bind].
    destruct (merge_all v _ s) as [s1|] eqn:Em; [|done]. cbn [mbind option_bind].
    destruct (updateInstrumentOnMatch _ _ _ _ _) as [s2|] eqn:Eu; [|done]. intros [= <- <-].
    eapply settled_update; [|exact Eu]. eapply settled_merged; [done| |done..]. rewrite Ed. simpl. lia.
Qed.

Lemma ensure_single assetClass exchangeMIC currency cik sicCode l underlyingID validFrom validBefore fields now s id id' s' :
  distinct_ids (normalize operating_mic <$> l) s = [id] →
  EnsureInstrument gen_uuid uuid_ok operating_mic assetClass exchangeMIC currency cik sicCode l underlyingID
    validFrom validBefore fields now s = Some (id', s') → id' = id.
Proof.
  intros Hd. unfold EnsureInstrument. destruct l as [|i l]; [done|]. rewrite Hd.
  destruct (_ && _); [done|]. destruct (_ && _); [done|].
  destruct (if String.eqb underlyingID EmptyString then _ else _) as [u|]; [|done]. cbn [mbind option_bind].
  destruct (holdsNoCanonicalIdentifier id (identifiers s)).
  - destruct (mergeIntoInstrument _ _ _ _); [|done]. cbn [mbind option_bind].
    destruct (updateInstrumentOnMatch _ _ _ _ _); [|done]. by intros [= <- _].
  - destruct (updateInstrumentOnMatch _ _ _ _ _); [|done]. by intros [= <- _].
Qed.

(** C20: [EnsureInstrument] settles a set of identifiers on one instrument.  Whatever it
    did - created a row, completed one known only by a broker's text, left one alone, or
    merged several - the store keeps its constraints, the instrument it returns is a row
    of the table, it is the one instrument the identifiers now find, and every group of
    postings that balanced still balances.  A later call with the same identifiers,
    whatever else it says of them, can only return the same instrument. *)
Theorem ensure_settles assetClass exchangeMIC currency cik sicCode l underlyingID validFrom validBefore fields now s id s' :
  store_ok s →
  EnsureInstrument gen_uuid uuid_ok operating_mic assetClass exchangeMIC currency cik sicCode l underlyingID
    validFrom validBefore fields now s = Some (id, s') →
  settled (normalize operating_mic <$> l) id s s' ∧
  ∀ assetClass' exchangeMIC' currency' cik' sicCode' underlyingID' validFrom' validBefore' fields' now' id' s'',
    EnsureInstrument gen_uuid uuid_ok operating_mic assetClass' exchangeMIC' currency' cik' sicCode' l underlyingID'
      validFrom' validBefore' fields' now' s' = Some (id', s'') → id' = id.
Proof.
  intros Hok E. apply ensure_spec in E as Hs; [|done]. split; [done|].
  intros * E'. eapply ensure_single; [|exact E']. by destruct Hs as (_ & _ & ? & _).
Qed.

(** Names nobody holds make a new instrument, when they do not clash with each other and
    the row is one the table takes. *)
Lemma ensure_creates assetClass exchangeMIC currency cik sicCode l validFrom validBefore fields now s :
  let k := normalize operating_mic <$> l in
  let id := gen_uuid (dom (instruments s)) in
  l ≠ [] → distinct_ids k s = [] → assetClass ∉ ["OPTION"; "FUTURE"] →
  (assetClass = EmptyString ∨ assetClass ∈ ValidAssetClasses) →
  row_ok operating_mic (new_row assetClass (normalizeToOperatingMIC operating_mic exchangeMIC) currency cik sicCode None
    validFrom validBefore fields now) = true →
  names_ok (identifiers s ++ (held_by id <$> k)) →
  ∃ s', EnsureInstrument gen_uuid uuid_ok operating_mic assetClass exchangeMIC currency cik sicCode l EmptyString
          validFrom validBefore fields now s = Some (id, s') ∧
        identifiers s' = identifiers s ++ (held_by id <$> k).
Proof.
  intros k id Hne Hd Hcl Hac Hrow Hok. unfold EnsureInstrument.
  destruct l as [|i0 l0]; [done|]. fold k. rewrite Hd. cbn [String.eqb negb mbind option_bind].
  rewrite (bool_decide_false (assetClass ∈ ["OPTION"; "FUTURE"])) by done. cbn [andb].
  assert (negb (String.eqb assetClass EmptyString) && negb (bool_decide (assetClass ∈ ValidAssetClasses)) = false) as ->.
  { destruct Hac as [->|Hin]; [done|]. rewrite (bool_decide_true (assetClass ∈ ValidAssetClasses)) by done.
    apply andb_false_r. }
  unfold create_instrument. rewrite Hrow. cbn [underlying_id new_row andb negb]. fold id.
  rewrite insert_names_all by exact Hok. by eexists.
Qed.
End stores.

(** ** Concrete stores *)

Section witnesses.
#[local] Existing Instances QDecimal.q_decimal QDecimal.q_decimal_laws.

Definition sample_mic (m : string) : option string :=
  if String.eqb m "XNGS" then Some "XNAS" else if String.eqb m "XNAS" then Some "XNAS" else None.

Definition sample_uuid (X : gset string) : string := fresh X.

Lemma sample_uuid_fresh (X : gset string) : sample_uuid X ∉ X.
Proof. apply is_fresh. Qed.

Definition stock (now : Z) : instrument Q :=
  new_row "STOCK" EmptyString "USD" EmptyString EmptyString None None None None now.

Definition isin (v : string) : IdentifierInput :=
  {| ii_Ref := {| ref_Type := "ISIN"; ref_Value := v; ref_Domain := EmptyString |};
     ii_Canonical := true; ii_ValidFrom := None; ii_ValidBefore := None |}.

Definition ticker (v mic : string) : IdentifierInput :=
  {| ii_Ref := {| ref_Type := "MIC_TICKER"; ref_Value := v; ref_Domain := mic |};
     ii_Canonical := true; ii_ValidFrom := None; ii_ValidBefore := None |}.

Definition broker_text (v : string) : IdentifierInput :=
  {| ii_Ref := {| ref_Type := "BROKER_DESCRIPTION"; ref_Value := v; ref_Domain := "IBKR" |};
     ii_Canonical := false; ii_ValidFrom := None; ii_ValidBefore := None |}.

Definition leg (n : string) (id : string) (q : Q) : row Q := {|
  r_id := n; r_user := "u"; r_broker := "IBKR"; r_account := "a"; r_order_date := 0; r_trade_date := 0;
  r_description := "ACME"; r_broker_types := []; r_resolved := "TRADE"; r_asset_class := None;
  r_quantity := q; r_trading := None; r_settlement := None; r_unit_price := None; r_settlement_amount := None;
  r_instrument := Some id; r_share_basis := None; r_account_type := "USER"; r_purpose := None;
  r_weight := q; r_commodity := InstrumentPrefix +:+ id; r_group := "g"; r_correlations := [] |}.

Definition split_legs : ledger Q :=
  {| txs := [leg "t1" "one" 5; leg "t2" "one" (-5)]; tx_groups := ∅; transfer_matches := [] |}.

(** One security known twice, by its ISIN and by its ticker. *)
Definition twice : store Q := {|
  instruments := <["one" := stock 2]> (<["two" := stock 1]> ∅);
  identifiers := [held_by "one" (isin "US0001"); held_by "two" (ticker "ACME" "XNAS")];
  declared := []; book := split_legs |}.

Lemma twice_ok : store_ok sample_mic twice.
Proof.
  split; cbn [instruments identifiers twice].
  - change (names_ok (([] ++ [held_by "one" (isin "US0001")]) ++ [held_by "two" (ticker "ACME" "XNAS")])).
    rewrite !names_ok_snoc. split_and!; try done; by split; [constructor|].
  - intros r. rewrite !elem_of_cons, elem_of_nil. by intros [->|[->|[]]]; eexists.
  - intros id i u. rewrite !lookup_insert_Some, lookup_empty. naive_solver.
  - intros id i. rewrite !lookup_insert_Some, lookup_empty. intros [[_ <-]|[_ [[_ <-]|[_ [=]]]]]; reflexivity.
Qed.



Definition ensure_both : option (string * store Q) :=
  EnsureInstrument sample_uuid (λ _, true) sample_mic "STOCK" "XNGS" "USD" EmptyString EmptyString
    [isin "US0001"; ticker "ACME" "XNGS"] EmptyString None None None 9 twice.

Lemma ensure_settles_witness :
  match ensure_both with
  | Some (id, s) => id = "two" ∧
      distinct_ids (normalize sample_mic <$> [isin "US0001"; ticker "ACME" "XNGS"]) s = [id]
  | None => False
  end.
Proof.
  destruct ensure_both as [[id s]|] eqn:E; [|by vm_compute in E].
  split; [by vm_compute in E; injection E as <- _|].
  by destruct (ensure_settles sample_uuid (λ _, true) sample_mic sample_uuid_fresh "STOCK" "XNGS" "USD" EmptyString EmptyString
    [isin "US0001"; ticker "ACME" "XNGS"] EmptyString None None None 9 twice id s twice_ok E)
    as [(_ & _ & Hd & _) _].
Defined.

(** ** What the constraints refuse *)

Definition call_fields : option (OptionFields Q) := Some {| of_Strike := 150%Q; of_Expiry := 100%Z; of_PutCall := "C" |}.

(** A store with a stock and an instrument known only by a broker's text. *)
Definition described : store Q := {|
  instruments := <["one" := stock 2]>
    (<["two" := new_row EmptyString EmptyString EmptyString EmptyString EmptyString None None None None 1]> ∅);
  identifiers := [held_by "one" (isin "US0001"); held_by "two" (broker_text "ACME JAN 150 C")];
  declared := []; book := {| txs := []; tx_groups := ∅; transfer_matches := [] |} |}.

Definition occ (v : string) : IdentifierInput :=
  {| ii_Ref := {| ref_Type := "OCC"; ref_Value := v; ref_Domain := EmptyString |};
     ii_Canonical := true; ii_ValidFrom := None; ii_ValidBefore := None |}.

Definition ensure_option (l : list IdentifierInput) : option (string * store Q) :=
  EnsureInstrument sample_uuid (λ _, true) sample_mic "OPTION" EmptyString "USD" EmptyString EmptyString l "one"
    None None call_fields 9 described.

(** An option known only by a broker's text cannot be completed: its class is written
    before its underlying and its strike, and the table refuses the row in between.  The
    same option under a name of its own is created. *)
Lemma option_not_completed :
  ensure_option [occ "ACME  260116C00150000"; broker_text "ACME JAN 150 C"] = None ∧
  is_Some (ensure_option [occ "ACME  260116C00150000"]).
Proof. split; [by vm_compute|]. destruct (ensure_option _) eqn:E; [by eexists|by vm_compute in E]. Qed.

(** An instrument a holding is declared in cannot be merged away. *)
Lemma declared_not_merged :
  mergeInstruments "two" "one" {| instruments := instruments twice; identifiers := identifiers twice;
                                  declared := ["one"]; book := book twice |} = None.
Proof. by vm_compute. Qed.

(** A new name given twice in one request is an error, though nothing else holds it. *)
Lemma name_given_twice :
  EnsureInstrument sample_uuid (λ _, true) sample_mic "STOCK" EmptyString "USD" EmptyString EmptyString
    [isin "US0002"; isin "US0002"] EmptyString None None None 9 twice = None.
Proof. by vm_compute. Qed.
End witnesses.
End Instruments.
