(* ===== verification/Weigh.v ===== *)
(** * What a posting weighs

    server/service/ingestion/balance.go: the amount and the commodity a posting
    contributes to its group's balance, which an upload computes once and stores beside
    the posting ([Ledger.Weight]), and the check that refuses a posting whose declared
    candidates would weigh it differently.

    [parse_dec] is [decimal.NewFromString].  [None] as the result of a function over a
    whole batch is the run-time panic of an index out of range. *)

From Stdlib Require Import QArith Lqa.
From S2P Require Import Prelude GoStrings Decimal TxType Residual Ledger.

Local Open Scope nat_scope.

Module Weigh.
Import GoStrings TxType Residual Ledger.

(** ** Data *)

(** What balancing reads of a [db.InstrumentRow]. *)
Record InstrumentRow {D : Type} := {
  ir_AssetClass : option string;
  ir_Currency : option string;
  ir_ContractMultiplier : D;
}.
#[global] Arguments InstrumentRow : clear implicits.

Record balanceInstrument {D : Type} := { isCurrency : bool; currency : string; contractSize : D }.
#[global] Arguments balanceInstrument : clear implicits.

Record commodity := { c_currency : string; c_instrumentID : string; c_description : string }.

Definition of_currency (c : string) : commodity :=
  {| c_currency := c; c_instrumentID := EmptyString; c_description := EmptyString |}.
Definition of_instrument (i : string) : commodity :=
  {| c_currency := EmptyString; c_instrumentID := i; c_description := EmptyString |}.
Definition of_description (d : string) : commodity :=
  {| c_currency := EmptyString; c_instrumentID := EmptyString; c_description := d |}.

Definition key (c : commodity) : string :=
  if negb (String.eqb (c_currency c) EmptyString) then CurrencyPrefix +:+ c_currency c
  else if negb (String.eqb (c_instrumentID c) EmptyString) then InstrumentPrefix +:+ c_instrumentID c
  else DescriptionPrefix +:+ c_description c.

(** [apiv1.ValidationError]. *)
Record ValidationError := { ve_RowIndex : Z; ve_Field : string; ve_Message : string }.

(** The conversion [int32(n)]. *)
Definition int32 (n : Z) : Z := ((n + 2 ^ 31) `mod` 2 ^ 32 - 2 ^ 31)%Z.

Definition AssetClassCash : string := "CASH".
Definition AssetClassOption : string := "OPTION".

(** ** Operations *)

Definition settleCurrency (t : Tx) : string :=
  let c := ToUpper (TrimSpace (tx_SettlementCurrency t)) in
  if negb (String.eqb c EmptyString) then c else ToUpper (TrimSpace (tx_TradingCurrency t)).

Section weigh.
Context {D : Type} `{Decimal D} (parse_dec : string → option D).

Definition optionContractSize : D := dec_of_int 100.

(** The error is the outer [None]; the inner one is an absent field. *)
Definition parseOptDec (s : option string) : option (option D) :=
  match s with
  | None => Some None
  | Some s => if String.eqb s EmptyString then Some None else Some <$> parse_dec s
  end.

Definition ownCommodity (t : Tx) (instID : string) (inst : balanceInstrument D) : commodity :=
  if isCurrency inst && negb (String.eqb (currency inst) EmptyString) then of_currency (ToUpper (currency inst))
  else if negb (String.eqb instID EmptyString) then of_instrument instID
  else of_description (tx_InstrumentDescription t).

Definition convert (t : Tx) (qty price : D) (inst : balanceInstrument D) : D * commodity :=
  let size := contractSize inst in
  let size := if negb (is_pos size) then dec_of_int 1 else size in
  (dec_mul (dec_mul qty price) size, of_currency (settleCurrency t)).

Definition weightOf (t : Tx) (types : list TxType) (qty : D) (price : option D) (instID : string)
    (inst : balanceInstrument D) : D * commodity :=
  let own := ownCommodity t instID inst in
  let settle := settleCurrency t in
  match price with
  | None => (qty, own)
  | Some price =>
      if String.eqb settle EmptyString then (qty, own)
      else if negb (String.eqb (c_currency own) EmptyString) && String.eqb (c_currency own) settle then (qty, own)
      else if MustBe types [TRADE_ASSET] then convert t qty price inst
      else if negb (String.eqb (c_currency own) EmptyString) && negb (String.eqb (c_currency own) settle)
      then convert t qty price inst
      else (qty, own)
  end.

Definition weighPosting (t : Tx) (instID : string) (inst : balanceInstrument D) : D * commodity * bool :=
  match parse_dec (tx_Quantity t) with
  | None => (dec_zero, ownCommodity t instID inst, false)
  | Some qty =>
      match parseOptDec (tx_UnitPrice t) with
      | None => (dec_zero, ownCommodity t instID inst, false)
      | Some price => (weightOf t (tx_BrokerTxType t) qty price instID inst, true)
      end
  end.

(** The zero value a missing map entry reads as. *)
Definition zero_instrument : balanceInstrument D :=
  {| isCurrency := false; currency := EmptyString; contractSize := dec_zero |}.

Definition instrument_at (instruments : gmap string (balanceInstrument D)) (id : string) : balanceInstrument D :=
  default zero_instrument (instruments !! id).

Definition weighs_alike (x y : D * commodity) : bool := dec_eqb x.1 y.1 && String.eqb (key x.2) (key y.2).

(** The first candidate after the first that weighs the posting differently. *)
Definition dissenter (t : Tx) (qty : D) (price : option D) (instID : string) (inst : balanceInstrument D)
    : option TxType :=
  let first := weightOf t (take 1 (tx_BrokerTxType t)) qty price instID inst in
  snd <$> list_find (λ c, weighs_alike (weightOf t [c] qty price instID inst) first = false)
                    (drop 1 (tx_BrokerTxType t)).

Definition dissent_error (row : Z) (first c : TxType) : ValidationError := {|
  ve_RowIndex := int32 row;
  ve_Field := "broker_tx_type";
  ve_Message := "candidates " +:+ TxType_String first +:+ " and " +:+ TxType_String c +:+
    " weigh the posting differently; a priced row must declare which it is" |}.

(** One turn of the loop: the error it appends, if any. *)
Definition row_error (i : nat) (t : Tx) (rowIdx : list Z) (instrumentIDs : list string)
    (instruments : gmap string (balanceInstrument D)) : option (option ValidationError) :=
  match tx_BrokerTxType t with
  | first :: _ :: _ =>
      match parse_dec (tx_Quantity t), parseOptDec (tx_UnitPrice t) with
      | Some qty, Some price =>
          id ← instrumentIDs !! i;
          match dissenter t qty price id (instrument_at instruments id) with
          | None => Some None
          | Some c => row ← rowIdx !! i; Some (Some (dissent_error row first c))
          end
      | _, _ => Some None
      end
  | _ => Some None
  end.

Definition validateWeightNeutrality (ts : list Tx) (rowIdx : list Z) (instrumentIDs : list string)
    (instruments : gmap string (balanceInstrument D)) : option (list ValidationError) :=
  errs ← mapM (λ '(i, t), row_error i t rowIdx instrumentIDs instruments) (imap pair ts);
  Some (omap id errs).

Definition weights (ts : list Tx) (instrumentIDs : list string)
    (instruments : gmap string (balanceInstrument D)) : option (list (Weight D)) :=
  mapM (λ '(i, t),
    id ← instrumentIDs !! i;
    let '(amount, c, _) := weighPosting t id (instrument_at instruments id) in
    Some {| w_Amount := amount; w_Commodity := key c |}) (imap pair ts).

(** One instrument of [balanceInstruments]. *)
Definition balanceInstrument_of (r : InstrumentRow D) : balanceInstrument D :=
  {| isCurrency := bool_decide (ir_AssetClass r = Some AssetClassCash);
     currency := if decide (ir_AssetClass r = Some AssetClassCash)
                 then from_option ToUpper EmptyString (ir_Currency r) else EmptyString;
     contractSize := if decide (ir_AssetClass r = Some AssetClassOption)
       then let m := ir_ContractMultiplier r in
            dec_mul optionContractSize (if negb (is_pos m) then dec_of_int 1 else m)
       else dec_of_int 1 |}.

Definition balanceInstruments (byID : gmap string (InstrumentRow D)) : gmap string (balanceInstrument D) :=
  balanceInstrument_of <$> byID.
End weigh.

(** ** The weight rule *)

Section facts.
Context {D : Type} `{DecimalLaws D} (parse_dec : string → option D).
Implicit Types inst : balanceInstrument D.

(** The declared set reaches the rule through one question. *)
Lemma weightOf_types t ts ts' (qty : D) price id inst :
  MustBe ts [TRADE_ASSET] = MustBe ts' [TRADE_ASSET] →
  weightOf t ts qty price id inst = weightOf t ts' qty price id inst.
Proof. intros E. unfold weightOf. by rewrite E. Qed.

Lemma must_be_every x y ts xs : MustBe (x :: y :: ts) xs = forallb (λ c, MustBe [c] xs) (x :: y :: ts).
Proof. unfold MustBe. apply forallb_pointwise. intros c _. simpl. by rewrite andb_true_r. Qed.

Lemma weighs_alike_equiv (x y : D * commodity) :
  weighs_alike x y = true ↔ x.1 ≡ y.1 ∧ key x.2 = key y.2.
Proof. unfold weighs_alike. rewrite andb_true_iff, String.eqb_eq. by rewrite dec_eqb_eq. Qed.

(** Two weights a balance cannot tell apart. *)
Definition same_weight (x y : D * commodity) : Prop := x.1 ≡ y.1 ∧ key x.2 = key y.2.

#[local] Instance same_weight_equivalence : Equivalence same_weight.
Proof.
  split; unfold same_weight.
  - done.
  - by intros x y [? ?].
  - intros x y z [? ?] [? ?]. split; by etrans.
Qed.

(** When every candidate weighs the posting as the first does, so does the set. *)
Lemma set_weighs_alike t x y ts (qty : D) price id inst :
  (∀ c, c ∈ x :: y :: ts →
    same_weight (weightOf t [c] qty price id inst) (weightOf t [x] qty price id inst)) →
  same_weight (weightOf t (x :: y :: ts) qty price id inst) (weightOf t [x] qty price id inst).
Proof.
  intros Hall. destruct (MustBe (x :: y :: ts) [TRADE_ASSET]) eqn:E.
  - rewrite (weightOf_types t (x :: y :: ts) [x]); [done|].
    rewrite E. rewrite must_be_every in E. symmetry. apply (forallb_elem _ _ x E). set_solver.
  - assert (∃ c, c ∈ x :: y :: ts ∧ MustBe [c] [TRADE_ASSET] = false) as (c & Hc & Ec).
    { rewrite must_be_every in E. apply not_true_iff_false in E.
      destruct (existsb (λ c, negb (MustBe [c] [TRADE_ASSET])) (x :: y :: ts)) eqn:Ex.
      - apply existsb_exists in Ex as (c & Hc%list_elem_of_In & Ec). exists c. split; [done|]. by apply negb_true_iff.
      - destruct E. apply forallb_intro. intros c Hc. apply negb_false_iff.
        destruct (negb _) eqn:En; [|done]. rewrite <- Ex. symmetry. apply existsb_exists.
        exists c. split; [by apply list_elem_of_In|done]. }
    rewrite (weightOf_types t (x :: y :: ts) [c]); [by apply Hall|]. by rewrite E, Ec.
Qed.

(** Row [i] of a batch, with the instrument it resolved to. *)
Definition row_at (ts : list Tx) (ids : list string) (i : nat) (t : Tx) (id : string) (qty : D) (price : option D) : Prop :=
  ts !! i = Some t ∧ ids !! i = Some id ∧
  parse_dec (tx_Quantity t) = Some qty ∧ parseOptDec parse_dec (tx_UnitPrice t) = Some price.

(** Two readings of the declared set weigh the posting differently. *)
Definition disputed (t : Tx) (qty : D) (price : option D) (id : string) inst : Prop :=
  ∃ c c', c ∈ tx_BrokerTxType t ∧ c' ∈ tx_BrokerTxType t ∧
    ¬ same_weight (weightOf t [c] qty price id inst) (weightOf t [c'] qty price id inst).

Lemma dissenter_None t x y ts (qty : D) price id inst :
  tx_BrokerTxType t = x :: y :: ts →
  dissenter t qty price id inst = None → ¬ disputed t qty price id inst.
Proof.
  intros Et Hd (c & c' & Hc & Hc' & Hne). apply Hne.
  assert (∀ c, c ∈ tx_BrokerTxType t →
    same_weight (weightOf t [c] qty price id inst) (weightOf t [x] qty price id inst)) as Hall.
  { unfold dissenter in Hd. rewrite Et in Hd |- *. apply fmap_None, list_find_None in Hd. simpl in Hd.
    intros d [->|Hd']%elem_of_cons; [reflexivity|].
    rewrite Forall_forall in Hd. apply weighs_alike_equiv, not_false_iff_true, Hd, Hd'. }
  etrans; [by apply Hall|]. symmetry. by apply Hall.
Qed.

Lemma dissenter_Some t x y ts (qty : D) price id inst c :
  tx_BrokerTxType t = x :: y :: ts →
  dissenter t qty price id inst = Some c → disputed t qty price id inst.
Proof.
  intros Et Hd. unfold dissenter in Hd. rewrite Et in Hd.
  apply fmap_Some in Hd as ([j d] & Hf & ->). apply list_find_Some in Hf as (Hl & Hw & _). simpl in *.
  exists d, x. rewrite Et. split_and!; [|set_solver|].
  - apply list_elem_of_lookup_2 in Hl. set_solver.
  - intros Hs%weighs_alike_equiv. congruence.
Qed.

(** A set of fewer than two candidates is never in dispute. *)
Lemma short_not_disputed t (qty : D) price id inst :
  length (tx_BrokerTxType t) < 2 → ¬ disputed t qty price id inst.
Proof.
  destruct (tx_BrokerTxType t) as [|x [|y ts]] eqn:Et; simpl; try lia;
    intros _ (c & c' & Hc & Hc' & Hne); rewrite Et in Hc, Hc'.
  - set_solver.
  - apply Hne. apply list_elem_of_singleton in Hc as ->, Hc' as ->. reflexivity.
Qed.

(** What one turn of the check reports. *)
Lemma row_error_spec i t (rowIdx : list Z) ids insts r id :
  rowIdx !! i = Some r → ids !! i = Some id →
  ∃ e, row_error parse_dec i t rowIdx ids insts = Some e ∧
    (∀ v, e = Some v → ve_RowIndex v = int32 r) ∧
    (is_Some e ↔ ∃ qty price, parse_dec (tx_Quantity t) = Some qty ∧
      parseOptDec parse_dec (tx_UnitPrice t) = Some price ∧
      disputed t qty price id (instrument_at insts id)).
Proof.
  intros Er Ei. unfold row_error.
  assert (∀ e, e = None → (¬ ∃ qty price, parse_dec (tx_Quantity t) = Some qty ∧
      parseOptDec parse_dec (tx_UnitPrice t) = Some price ∧
      disputed t qty price id (instrument_at insts id)) →
    ∃ e', Some e = Some e' ∧ (∀ v, e' = Some v → ve_RowIndex v = int32 r) ∧
    (is_Some e' ↔ ∃ qty price, parse_dec (tx_Quantity t) = Some qty ∧
      parseOptDec parse_dec (tx_UnitPrice t) = Some price ∧
      disputed t qty price id (instrument_at insts id))) as Hnone.
  { intros e -> Hno. exists None. split_and!; [done..|]. split; [by intros [? ?]|done]. }
  destruct (tx_BrokerTxType t) as [|x [|y l]] eqn:Et.
  1, 2: apply Hnone; [done|]; intros (q & p & _ & _ & Hdis); revert Hdis;
    apply short_not_disputed; rewrite Et; simpl; lia.
  destruct (parse_dec (tx_Quantity t)) as [q|] eqn:Eq; [|apply Hnone; [done|]; naive_solver].
  destruct (parseOptDec parse_dec (tx_UnitPrice t)) as [p|] eqn:Ep; [|apply Hnone; [done|]; naive_solver].
  rewrite Ei, Er. simpl. destruct (dissenter _ _ _ _ _) as [c|] eqn:Ed.
  - eexists. split_and!; [done|by intros v [= <-]|]. split; [|by eexists]. intros _. exists q, p.
    split_and!; [done..|]. by eapply dissenter_Some.
  - apply Hnone; [done|]. intros (q' & p' & [= <-] & [= <-] & Hdis). revert Hdis. by eapply dissenter_None.
Qed.

Lemma weighs_as_declared t (qty : D) price id inst c :
  c ∈ tx_BrokerTxType t → ¬ disputed t qty price id inst →
  same_weight (weightOf t (tx_BrokerTxType t) qty price id inst) (weightOf t [c] qty price id inst).
Proof.
  intros Hc Hd. destruct (tx_BrokerTxType t) as [|x [|y l]] eqn:Et; [by apply elem_of_nil in Hc| |].
  - apply list_elem_of_singleton in Hc as ->. reflexivity.
  - assert (∀ a b, a ∈ x :: y :: l → b ∈ x :: y :: l →
      same_weight (weightOf t [a] qty price id inst) (weightOf t [b] qty price id inst)) as Hall.
    { intros a b Ha Hb. unfold same_weight.
      destruct (weighs_alike (weightOf t [a] qty price id inst) (weightOf t [b] qty price id inst)) eqn:E.
      - by apply weighs_alike_equiv.
      - destruct Hd. exists a, b. rewrite Et. split_and!; [done..|]. intros Hs%weighs_alike_equiv. congruence. }
    etrans; [apply set_weighs_alike|]; intros; apply Hall; set_solver.
Qed.
End facts.

(** ** What the batch functions return *)

Section batches.
Context {D : Type} `{DecimalLaws D} (parse_dec : string → option D).

(** A loop with an index whose turns all return. *)
Lemma mapM_imap_total {A B} (f : nat → A → option B) (l : list A) :
  (∀ i a, l !! i = Some a → is_Some (f i a)) →
  ∃ bs, mapM (λ '(i, a), f i a) (imap pair l) = Some bs ∧ length bs = length l ∧
    ∀ i b, bs !! i = Some b ↔ ∃ a, l !! i = Some a ∧ f i a = Some b.
Proof.
  intros Hf. destruct (mapM (λ '(i, a), f i a) (imap pair l)) as [bs|] eqn:E.
  - apply mapM_Some in E. exists bs. split; [done|]. split.
    { by rewrite <- (Forall2_length _ _ _ E), length_imap. }
    intros i b. split.
    + intros Hb. destruct (Forall2_lookup_r _ _ _ _ _ E Hb) as ([j a] & Hl & Hfa).
      rewrite list_lookup_imap in Hl. apply fmap_Some in Hl as (a' & Hl & [= -> ->]). eauto.
    + intros (a & Hl & Hfa).
      destruct (Forall2_lookup_l _ _ _ i (i, a) E) as (b' & Hb & Hfa').
      { by rewrite list_lookup_imap, Hl. }
      rewrite Hb. simpl in Hfa'. congruence.
  - apply mapM_None in E. apply Exists_exists in E as ([i a] & Hin & Hn).
    apply list_elem_of_lookup in Hin as (j & Hj). rewrite list_lookup_imap in Hj.
    apply fmap_Some in Hj as (a' & Hl & [= -> ->]). destruct (Hf _ _ Hl) as [b Hb]. simpl in Hn. congruence.
Qed.

Lemma validate_errors ts (rowIdx : list Z) ids insts :
  length rowIdx = length ts → length ids = length ts →
  ∃ errs, validateWeightNeutrality parse_dec ts rowIdx ids insts = Some errs ∧
    ∀ v, v ∈ errs ↔ ∃ i t, ts !! i = Some t ∧ row_error parse_dec i t rowIdx ids insts = Some (Some v).
Proof.
  intros Hr Hi. unfold validateWeightNeutrality.
  destruct (mapM_imap_total (λ i t, row_error parse_dec i t rowIdx ids insts) ts) as (es & -> & _ & Hes).
  { intros i t Ht. apply lookup_lt_Some in Ht.
    destruct (lookup_lt_is_Some_2 rowIdx i) as [r Er]; [lia|].
    destruct (lookup_lt_is_Some_2 ids i) as [id Ei]; [lia|].
    destruct (row_error_spec parse_dec i t rowIdx ids insts r id Er Ei) as (e & -> & _). by eexists. }
  eexists. split; [done|]. intros v. rewrite list_elem_of_omap. setoid_rewrite list_elem_of_lookup. split.
  - intros (e & (i & Hl) & He). change (e = Some v) in He. subst e. apply Hes in Hl as (t & ? & ?). eauto.
  - intros (i & t & Ht & He). exists (Some v). split; [|done]. exists i. apply Hes. eauto.
Qed.

Lemma weights_spec ts ids (insts : gmap string (balanceInstrument D)) :
  length ids = length ts →
  ∃ ws, weights parse_dec ts ids insts = Some ws ∧ length ws = length ts ∧
    ∀ i t id, ts !! i = Some t → ids !! i = Some id →
      ws !! i = Some (let x := (weighPosting parse_dec t id (instrument_at insts id)).1 in
                      {| w_Amount := x.1; w_Commodity := key x.2 |}).
Proof.
  intros Hi. unfold weights.
  match goal with |- context [mapM (λ '(i, t), @?f i t) (imap pair ts)] =>
    destruct (mapM_imap_total f ts) as (ws & Ew & Hlen & Hws) end.
  { intros i t Ht. apply lookup_lt_Some in Ht. destruct (lookup_lt_is_Some_2 ids i) as [id Eid]; [lia|].
    rewrite Eid. simpl. destruct (weighPosting _ _ _ _) as [[a c] b]. by eexists. }
  exists ws. split; [exact Ew|]. split; [done|]. intros i t id Ht Hid. apply Hws. exists t. split; [done|].
  rewrite Hid. simpl. by destruct (weighPosting _ _ _ _) as [[a c] b].
Qed.

(** C7: The weight-neutrality check returns on every batch and reports exactly the rows
    on which two readings of the declared type set weigh the posting differently; and
    when it reports none, the weight stored with each posting is, in amount and
    commodity, the weight every reading of its set would give it.  So settling a group
    on stored weights never depends on which candidate the posting turns out to be. *)
Theorem weight_neutrality (ts : list Tx) (rowIdx : list Z) (ids : list string)
    (insts : gmap string (balanceInstrument D)) :
  length rowIdx = length ts → length ids = length ts →
  ∃ errs ws,
    validateWeightNeutrality parse_dec ts rowIdx ids insts = Some errs ∧
    weights parse_dec ts ids insts = Some ws ∧
    (∀ n, n ∈ ve_RowIndex <$> errs ↔ ∃ i t id qty price r,
      row_at parse_dec ts ids i t id qty price ∧ rowIdx !! i = Some r ∧ n = int32 r ∧
      disputed t qty price id (instrument_at insts id)) ∧
    (errs = [] → ∀ i t id qty price c,
      row_at parse_dec ts ids i t id qty price → c ∈ tx_BrokerTxType t →
      ∃ w, ws !! i = Some w ∧
        w_Amount w ≡ (weightOf t [c] qty price id (instrument_at insts id)).1 ∧
        w_Commodity w = key (weightOf t [c] qty price id (instrument_at insts id)).2).
Proof.
  intros Hr Hi. destruct (validate_errors ts rowIdx ids insts Hr Hi) as (errs & Ee & Herrs).
  destruct (weights_spec ts ids insts Hi) as (ws & Ew & _ & Hws).
  assert (∀ i t id qty price, row_at parse_dec ts ids i t id qty price → ∃ r, rowIdx !! i = Some r ∧
    (disputed t qty price id (instrument_at insts id) ↔
      ∃ v, v ∈ errs ∧ ve_RowIndex v = int32 r ∧ row_error parse_dec i t rowIdx ids insts = Some (Some v))) as Hrow.
  { intros i t id q p (Ht & Hid & Eq & Ep). pose proof (lookup_lt_Some _ _ _ Ht).
    destruct (lookup_lt_is_Some_2 rowIdx i) as [r Er]; [lia|]. exists r. split; [done|].
    destruct (row_error_spec parse_dec i t rowIdx ids insts r id Er Hid) as (e & Ere & Hv & Hdis). split.
    - intros Hd. assert (is_Some e) as [v ->] by (apply Hdis; eauto).
      exists v. split_and!; [apply Herrs; eauto|by apply Hv|done].
    - intros (v & _ & _ & Hev). assert (is_Some e) as (q' & p' & ? & ? & ?)%Hdis by (simplify_eq; eauto).
      simplify_eq. done. }
  exists errs, ws. split_and!; [done..| |].
  - intros n. rewrite list_elem_of_fmap. split.
    + intros (v & -> & Hv). pose proof Hv as (i & t & Ht & He)%Herrs. pose proof (lookup_lt_Some _ _ _ Ht).
      destruct (lookup_lt_is_Some_2 rowIdx i) as [r Er]; [lia|].
      destruct (lookup_lt_is_Some_2 ids i) as [id Eid]; [lia|].
      destruct (row_error_spec parse_dec i t rowIdx ids insts r id Er Eid) as (e & Ere & Hri & Hdis).
      simplify_eq. destruct Hdis as [(q & p & ? & ? & ?) _]; [by eexists|].
      exists i, t, id, q, p, r. unfold row_at. split_and!; try done. by apply Hri.
    + intros (i & t & id & q & p & r & Hat & Er & -> & Hd).
      destruct (Hrow _ _ _ _ _ Hat) as (r' & Er' & Hiff).
      destruct (proj1 Hiff Hd) as (v & Hv & Hn & _). exists v. split; [congruence|done].
  - intros -> i t id q p c Hat Hc. destruct (Hrow _ _ _ _ _ Hat) as (r & _ & Hd).
    destruct Hat as (Ht & Hid & Eq & Ep). eexists. split; [by apply Hws|].
    destruct (weighs_as_declared parse_dec t q p id (instrument_at insts id) c) as [Ha Hk]; [done| |].
    { intros Hdis. destruct (proj1 Hd Hdis) as (v & Hv & _). by apply elem_of_nil in Hv. }
    unfold weighPosting. by rewrite Eq, Ep.
Qed.
End batches.

(** ** A trade's two legs *)

Section trades.
Context {D : Type} `{DecimalLaws D} (parse_dec : string → option D).

(** Units of the underlying one unit of an instrument delivers. *)
Definition size_of (r : InstrumentRow D) : Q :=
  if decide (ir_AssetClass r = Some AssetClassOption)
  then (100 * (if is_pos (ir_ContractMultiplier r) then dval (ir_ContractMultiplier r) else 1))%Q
  else 1%Q.

Lemma contract_size r : (dval (contractSize (balanceInstrument_of r)) == size_of r)%Q.
Proof.
  unfold balanceInstrument_of, size_of, optionContractSize. simpl. destruct (decide _).
  - rewrite dval_mul, dval_of_int. destruct (is_pos _); simpl; [|rewrite dval_of_int]; reflexivity.
  - apply dval_of_int.
Qed.

Lemma size_of_pos r : (0 < size_of r)%Q.
Proof.
  unfold size_of. destruct (decide _); [|lra]. destruct (is_pos _) eqn:E; [|lra].
  apply is_pos_lt in E. lra.
Qed.

Lemma convert_value t (qty price : D) r :
  (dval (convert t qty price (balanceInstrument_of r)).1 == dval qty * dval price * size_of r)%Q.
Proof.
  assert (is_pos (contractSize (balanceInstrument_of r)) = true) as Hp.
  { apply is_pos_lt. rewrite contract_size. apply size_of_pos. }
  unfold convert. rewrite Hp. cbn [negb fst]. by rewrite !dval_mul, contract_size.
Qed.

Lemma eqb_nonempty s : s ≠ EmptyString → String.eqb s EmptyString = false.
Proof. by rewrite String.eqb_neq. Qed.

Lemma own_of_security t id r :
  ir_AssetClass r ≠ Some AssetClassCash →
  c_currency (ownCommodity t id (balanceInstrument_of r)) = EmptyString.
Proof.
  intros Hc. unfold ownCommodity, balanceInstrument_of. simpl. rewrite bool_decide_false by done.
  simpl. by destruct (negb _).
Qed.

Lemma ToUpper_nonempty s : s ≠ EmptyString → ToUpper s ≠ EmptyString.
Proof. by destruct s. Qed.

Lemma own_of_cash t id r cur :
  ir_AssetClass r = Some AssetClassCash → ir_Currency r = Some cur → cur ≠ EmptyString →
  ownCommodity t id (balanceInstrument_of r) = of_currency (ToUpper cur).
Proof.
  intros Hc Hcur Hne. unfold ownCommodity, balanceInstrument_of. simpl.
  rewrite bool_decide_true, decide_True by done. rewrite Hcur. simpl.
  rewrite eqb_nonempty by by apply ToUpper_nonempty. simpl. by rewrite ToUpper_idemp.
Qed.

Lemma key_of_currency c : c ≠ EmptyString → key (of_currency c) = CurrencyPrefix +:+ c.
Proof. intros Hc. unfold key. simpl. by rewrite eqb_nonempty. Qed.

(** The asset leg of a trade, declared as nothing else and priced, weighs its
    quantity at its price times the contract size (100 per standard option contract, one
    unit otherwise) in the settlement currency; the money leg weighs its own quantity in
    the same commodity.  So the two cancel, exactly, when the money is the
    consideration, and the stored commodity reads back as that currency. *)
Theorem trade_legs_cancel (a b : Tx) (ia ib : string) (byID : gmap string (InstrumentRow D))
    (ra rb : InstrumentRow D) (q p qc : D) (pc : option D) (cur : string) :
  byID !! ia = Some ra → ir_AssetClass ra ≠ Some AssetClassCash →
  byID !! ib = Some rb → ir_AssetClass rb = Some AssetClassCash → ir_Currency rb = Some cur →
  cur ≠ EmptyString →
  MustBe (tx_BrokerTxType a) [TRADE_ASSET] = true →
  parse_dec (tx_Quantity a) = Some q → parseOptDec parse_dec (tx_UnitPrice a) = Some (Some p) →
  parse_dec (tx_Quantity b) = Some qc → parseOptDec parse_dec (tx_UnitPrice b) = Some pc →
  settleCurrency a = ToUpper cur → settleCurrency b = ToUpper cur →
  ∃ wa wb,
    weights parse_dec [a; b] [ia; ib] (balanceInstruments byID) = Some [wa; wb] ∧
    (dval (w_Amount wa) == dval q * dval p * size_of ra)%Q ∧
    (dval (w_Amount wb) == dval qc)%Q ∧
    w_Commodity wa = w_Commodity wb ∧ CurrencyOf (w_Commodity wa) = Some (ToUpper cur) ∧
    ((dval qc == - (dval q * dval p * size_of ra))%Q →
      is_zero (dec_add (w_Amount wa) (w_Amount wb)) = true).
Proof.
  intros Ea Hac Eb Hbc Hcur Hne Hm Eq Ep Eqc Epc Hsa Hsb. pose proof (ToUpper_nonempty _ Hne) as Hup.
  assert (weighPosting parse_dec a ia (instrument_at (balanceInstruments byID) ia)
    = (convert a q p (balanceInstrument_of ra), true)) as Wa.
  { unfold weighPosting, instrument_at, balanceInstruments. rewrite lookup_fmap, Ea, Eq, Ep. simpl.
    unfold weightOf. rewrite Hsa, eqb_nonempty by done.
    rewrite own_of_security by done. simpl. by rewrite Hm. }
  assert (weighPosting parse_dec b ib (instrument_at (balanceInstruments byID) ib)
    = (qc, of_currency (ToUpper cur), true)) as Wb.
  { unfold weighPosting, instrument_at, balanceInstruments. rewrite lookup_fmap, Eb, Eqc, Epc. simpl.
    unfold weightOf. rewrite (own_of_cash _ _ _ cur) by done. destruct pc; [|done].
    rewrite Hsb, eqb_nonempty by done. simpl. rewrite eqb_nonempty, String.eqb_refl by done. done. }
  unfold weights. simpl. rewrite Wa, Wb. simpl. eexists _, _. split; [done|].
  pose proof (convert_value a q p ra) as Hv. unfold convert in Hv |- *. simpl in *.
  rewrite Hsa, key_of_currency by done. split_and!; [done|done|done|apply cut_prefix_app|].
  intros Hz. apply is_zero_eq. rewrite dval_add, Hv, Hz. lra.
Qed.
End trades.

(** ** Concrete inputs *)

Section witnesses.
#[local] Existing Instances QDecimal.q_decimal QDecimal.q_decimal_laws.

Definition sample_rows : gmap string (InstrumentRow Q) :=
  {[ "opt" := {| ir_AssetClass := Some AssetClassOption; ir_Currency := Some "USD"; ir_ContractMultiplier := 1%Q |};
     "usd" := {| ir_AssetClass := Some AssetClassCash; ir_Currency := Some "usd"; ir_ContractMultiplier := 1%Q |} ]}.

Definition sample_dec (s : string) : option Q :=
  if String.eqb s "2" then Some 2%Q else if String.eqb s "1.5" then Some (3 # 2)%Q
  else if String.eqb s "-300" then Some (-300)%Q else None.

Definition sample_leg (desc qty : string) (price : option string) (types : list TxType) : Tx := {|
  tx_OrderDate := None; tx_TradeDate := None; tx_Account := "acc"; tx_AccountType := ACCOUNT_TYPE_UNSPECIFIED;
  tx_InstrumentDescription := desc; tx_AssetClassHint := EmptyString; tx_BrokerTxType := types;
  tx_ResolvedTxType := TX_TYPE_UNSPECIFIED; tx_Quantity := qty; tx_UnitPrice := price; tx_SettlementAmount := None;
  tx_TradingCurrency := EmptyString; tx_SettlementCurrency := " usd "; tx_SyntheticPurpose := EmptyString;
  tx_Correlations := [] |}.

Definition option_leg : Tx := sample_leg "OPT" "2" (Some "1.5") [TRADE_ASSET].
Definition cash_leg : Tx := sample_leg "USD" "-300" None [TRADE_CASH].

(** Two option contracts at 1.50 are worth 300. *)
Lemma trade_legs_cancel_witness :
  ∃ wa wb, weights sample_dec [option_leg; cash_leg] ["opt"; "usd"] (balanceInstruments sample_rows) = Some [wa; wb] ∧
    w_Commodity wb = "cur:USD" ∧ is_zero (dec_add (w_Amount wa) (w_Amount wb)) = true.
Proof.
  destruct (trade_legs_cancel sample_dec option_leg cash_leg "opt" "usd" sample_rows
    {| ir_AssetClass := Some AssetClassOption; ir_Currency := Some "USD"; ir_ContractMultiplier := 1%Q |}
    {| ir_AssetClass := Some AssetClassCash; ir_Currency := Some "usd"; ir_ContractMultiplier := 1%Q |}
    2%Q (3 # 2)%Q (-300)%Q None "usd") as (wa & wb & Hw & _ & _ & Hk & Hcur & Hz); try done.
  exists wa, wb. split_and!; [done| |apply Hz; by vm_compute].
  rewrite <- Hk. by apply cut_prefix_Some in Hcur.
Defined.

(** A priced row that may be a trade or a transfer is reported; an unpriced one may stay
    undecided. *)
Definition torn_leg (price : option string) : Tx := sample_leg "OPT" "2" price [TRADE_ASSET; TRANSFER].

Lemma torn_row_reported :
  fmap (M:=option) (fmap (M:=list) ve_RowIndex)
    (validateWeightNeutrality sample_dec [option_leg; torn_leg (Some "1.5"); torn_leg None] [4; 5; 6]%Z
      ["opt"; "opt"; "opt"] (balanceInstruments sample_rows)) = Some [5]%Z.
Proof. by vm_compute. Qed.

Lemma weight_neutrality_witness :
  ∃ errs ws, validateWeightNeutrality sample_dec [torn_leg None] [6]%Z ["opt"] (balanceInstruments sample_rows) = Some errs ∧
    weights sample_dec [torn_leg None] ["opt"] (balanceInstruments sample_rows) = Some ws ∧
    ∃ w, ws !! 0 = Some w ∧ w_Commodity w = "inst:opt".
Proof.
  destruct (weight_neutrality sample_dec [torn_leg None] [6]%Z ["opt"] (balanceInstruments sample_rows))
    as (errs & ws & He & Hw & _ & Hall); [done..|].
  exists errs, ws. split_and!; [done..|].
  destruct (Hall ltac:(vm_compute in He; by injection He) 0 (torn_leg None) "opt" 2%Q None TRANSFER)
    as (w & Hl & _ & Hk); [done|by right; left|].
  exists w. split; [done|]. rewrite Hk. by vm_compute.
Defined.
End witnesses.
End Weigh.
