(* ===== verification/Transfer.v ===== *)
(** * Pairing the two sides of a transfer

    server/transfermatch/match.go, the pure function [Match] that links the sides of
    transfers, and what server/transfermatch/worker.go does with it: a cycle reads the
    sides no link names, matches them and inserts the links, through
    server/db/postgres/transfer_matches.go.

    A side is an index into the slice of sides, as in the code.  Dates are nanoseconds;
    [time_sub] is [time.Time.Sub], which saturates, and the negation of a duration and
    the difference of two ordinals wrap at 64 bits. *)

From Stdlib Require Import QArith Lqa.
From S2P Require Import Prelude GoStrings Decimal TxType Posting Ledger.

Local Open Scope nat_scope.

Module Transfer.
Import GoStrings Posting.

(** ** Data *)

Record TransferSide {D : Type} := {
  s_UserID : string;
  s_GroupID : string;
  s_Broker : Broker;
  s_Account : string;
  s_InstrumentID : string;
  s_Amount : D;
  s_OrderDate : Z;
  s_Correlations : list Correlation;
}.
#[global] Arguments TransferSide : clear implicits.

(** [db.TransferMatch], the row of Ledger's table of links. *)
Notation TransferMatch := Ledger.transfer_match.

Definition TransferMatchPointer : string := "POINTER".
Definition TransferMatchReference : string := "REFERENCE".

Definition matchWindow : Z := 7 * 24 * 3600 * 1000000000.
Definition refSpan : Z := 64.

Record Opts := { Window : Z; RefSpan : Z }.
Definition DefaultOpts : Opts := {| Window := matchWindow; RefSpan := refSpan |}.

Record candidate := { from : nat; to : nat; refDistance : Z; dateGap : Z }.

#[export] Instance candidate_eq_dec : EqDecision candidate.
Proof. solve_decision. Defined.

Record partitioned := { departures : list nat; arrivals : list nat }.

(** ** The tests *)

Definition time_sub (a b : Z) : Z := Z.max min_int64 (Z.min max_int64 (a - b)).

Definition gap (a b : Z) : Z :=
  let d := time_sub a b in if (d <? 0)%Z then wrap64 (- d) else d.

Definition ordinals (cs : list Correlation) : list Z :=
  omap (λ c, if Declares c MatchOrdinal then Ordinal c else None) cs.

Definition names (cs : list Correlation) (account : string) : bool :=
  existsb (λ c, Declares c MatchAccount && EqualFold (TrimSpace (Token c)) (TrimSpace account)) cs.

(** The inner statement of the two loops of [referenceFeasible]. *)
Definition nearer (nearest x y : Z) : Z :=
  let d := wrap64 (x - y) in
  let d := if (d <? 0)%Z then wrap64 (- d) else d in
  if (nearest <? 0)%Z || (d <? nearest)%Z then d else nearest.

Definition nearest_gap (xs ys : list Z) : Z :=
  foldl (λ n x, foldl (λ n y, nearer n x y) n ys) (-1)%Z xs.

Section matching.
Context {D : Type} `{Decimal D}.
Implicit Types (a b : TransferSide D) (sides : list (TransferSide D)).

Definition pairable a b (opts : Opts) : bool :=
  if negb (is_zero (dec_add (s_Amount a) (s_Amount b))) then false
  else if bool_decide (s_Broker a = s_Broker b) && EqualFold (s_Account a) (s_Account b) then false
  else (gap (s_OrderDate a) (s_OrderDate b) <=? Window opts)%Z.

Definition pointerFeasible a b (_ : Opts) : bool * Z :=
  if negb (bool_decide (s_Broker a = s_Broker b)) then (false, 0%Z)
  else (names (s_Correlations a) (s_Account b) || names (s_Correlations b) (s_Account a), 0%Z).

Definition referenceFeasible a b (opts : Opts) : bool * Z :=
  if negb (bool_decide (s_Broker a = s_Broker b)) then (false, 0%Z)
  else match ordinals (s_Correlations a), ordinals (s_Correlations b) with
       | [], _ | _, [] => (false, 0%Z)
       | xs, ys =>
           let nearest := nearest_gap xs ys in
           if (RefSpan opts <? nearest)%Z then (false, 0%Z) else (true, nearest)
       end.

Definition feasible : Type := TransferSide D → TransferSide D → Opts → bool * Z.

(** ** Candidates *)

Definition zero_side : TransferSide D := {| s_UserID := EmptyString; s_GroupID := EmptyString;
  s_Broker := BROKER_UNSPECIFIED; s_Account := EmptyString; s_InstrumentID := EmptyString;
  s_Amount := dec_zero; s_OrderDate := 0; s_Correlations := [] |}.

(** [sides[i]]; every index the matcher uses is one [partition] took from the slice. *)
Definition side sides (i : nat) : TransferSide D := default zero_side (sides !! i).

Definition betterThan sides (c o : candidate) : bool :=
  if negb (refDistance c =? refDistance o)%Z then (refDistance c <? refDistance o)%Z
  else if negb (dateGap c =? dateGap o)%Z then (dateGap c <? dateGap o)%Z
  else if negb (String.eqb (s_GroupID (side sides (from c))) (s_GroupID (side sides (from o))))
  then String.ltb (s_GroupID (side sides (from c))) (s_GroupID (side sides (from o)))
  else String.ltb (s_GroupID (side sides (to c))) (s_GroupID (side sides (to o))).

Definition ties (c o : candidate) : bool :=
  (refDistance c =? refDistance o)%Z && (dateGap c =? dateGap o)%Z.

Fixpoint ambiguous (rest : list candidate) (best : candidate) (skip : nat → bool) : bool :=
  match rest with
  | [] => false
  | c :: rest =>
      if negb (ties c best) then false
      else if skip (from c) || skip (to c) then ambiguous rest best skip
      else if (from c =? from best) || (to c =? to best) then true
      else ambiguous rest best skip
  end.

Definition side_key (s : TransferSide D) : string := s_UserID s +:+ String Ascii.zero (s_InstrumentID s).

Definition partition_step (acc : gmap string partitioned * list string) (is_ : nat * TransferSide D)
    : gmap string partitioned * list string :=
  let '(byKey, order) := acc in
  let '(i, s) := is_ in
  let key := side_key s in
  let p := default {| departures := []; arrivals := [] |} (byKey !! key) in
  let order := match byKey !! key with None => order ++ [key] | Some _ => order end in
  let p := if is_pos (s_Amount s) then {| departures := departures p ++ [i]; arrivals := arrivals p |}
           else if is_neg (s_Amount s) then {| departures := departures p; arrivals := arrivals p ++ [i] |}
           else p in
  (<[key := p]> byKey, order).

Definition partition sides : list partitioned :=
  let '(byKey, order) := foldl partition_step (∅, []) (imap pair sides) in
  (λ key, default {| departures := []; arrivals := [] |} (byKey !! key)) <$> order.

Definition candidates sides (part : partitioned) (opts : Opts) (taken : gset nat) (extra : feasible)
    : list candidate :=
  f ← departures part;
  if decide (f ∈ taken) then [] else
  t ← arrivals part;
  if decide (t ∈ taken) then [] else
  if negb (pairable (side sides f) (side sides t) opts) then [] else
  let '(ok, distance) := extra (side sides f) (side sides t) opts in
  if negb ok then [] else
  [{| from := f; to := t; refDistance := distance;
      dateGap := gap (s_OrderDate (side sides f)) (s_OrderDate (side sides t)) |}].

(** The loop over the ranked candidates: the pairs taken, and the sides. *)
Fixpoint take_best (cands : list candidate) (taken blocked : gset nat) : list candidate * gset nat :=
  match cands with
  | [] => ([], taken)
  | c :: rest =>
      let skip i := bool_decide (i ∈ taken) || bool_decide (i ∈ blocked) in
      if skip (from c) || skip (to c) then take_best rest taken blocked
      else if ambiguous rest c skip then take_best rest taken ({[ from c; to c ]} ∪ blocked)
      else let '(out, taken) := take_best rest ({[ from c; to c ]} ∪ taken) blocked in (c :: out, taken)
  end.

Definition link sides (method : string) (c : candidate) : TransferMatch := {|
  Ledger.tm_user := s_UserID (side sides (from c));
  Ledger.tm_from := s_GroupID (side sides (from c));
  Ledger.tm_to := s_GroupID (side sides (to c));
  Ledger.tm_instrument := s_InstrumentID (side sides (from c));
  Ledger.tm_method := method |}.

Definition run sides (part : partitioned) (opts : Opts) (taken : gset nat) (method : string) (extra : feasible)
    : list TransferMatch * gset nat :=
  let cands := go_sort (betterThan sides) (candidates sides part opts taken extra) in
  let '(out, taken) := take_best cands taken ∅ in
  (link sides method <$> out, taken).

(** One turn of [Match]'s loop. *)
Definition match_part sides (opts : Opts) (part : partitioned) : list TransferMatch :=
  let '(out1, taken) := run sides part opts ∅ TransferMatchPointer pointerFeasible in
  let '(out2, _) := run sides part opts taken TransferMatchReference referenceFeasible in
  out1 ++ out2.

Definition Match_ sides (opts : Opts) : list TransferMatch :=
  part ← partition sides; match_part sides opts part.
End matching.

(** ** The store of links *)

Section store.
Context {D : Type} `{Decimal D} (uuid_ok : string → bool).

Definition names_side (group instrument : string) (m : TransferMatch) : bool :=
  String.eqb (Ledger.tm_instrument m) instrument
  && (String.eqb (Ledger.tm_from m) group || String.eqb (Ledger.tm_to m) group).

(** [ORDER BY t.user_id, t.instrument_id, t.order_date, t.group_id] *)
Definition side_cmp : TransferSide D → TransferSide D → comparison :=
  cmp_on (λ s, (s_UserID s, (s_InstrumentID s, (s_OrderDate s, s_GroupID s))))
    (cmp_lex String.compare (cmp_lex String.compare (cmp_lex Z.compare String.compare))).

(** [clearing] is the TRANSFER_CLEARING postings in a resolved instrument, each with its
    group's correlations. *)
Definition ListUnmatchedTransferSides (userID : string) (clearing : list (TransferSide D))
    (matches : list TransferMatch) : list (TransferSide D) :=
  go_sort (less_of side_cmp)
    (filter (λ s, (userID = EmptyString ∨ s_UserID s = userID) ∧
                  existsb (names_side (s_GroupID s) (s_InstrumentID s)) matches = false) clearing).

(** [insertTransferMatchSQL]: the guarded insert, the table's CHECK that the groups
    differ and its two unique indexes.  The result is the table and the rows written. *)
Definition insertTransferMatch (matches : list TransferMatch) (m : TransferMatch) : option (list TransferMatch * nat) :=
  if negb (forallb uuid_ok [Ledger.tm_user m; Ledger.tm_from m; Ledger.tm_to m; Ledger.tm_instrument m]) then None
  else if existsb (λ x, names_side (Ledger.tm_from m) (Ledger.tm_instrument m) x
                     || names_side (Ledger.tm_to m) (Ledger.tm_instrument m) x) matches
  then Some (matches, 0)
  else if String.eqb (Ledger.tm_from m) (Ledger.tm_to m) then None
  else Some (matches ++ [m], 1).

Definition CreateTransferMatches (new matches : list TransferMatch) : option (list TransferMatch * nat) :=
  foldl (λ acc m,
    '(ms, written) ← acc;
    '(ms, n) ← insertTransferMatch ms m;
    Some (ms, written + n)) (Some (matches, 0)) new.

(** [runCycle]; an error leaves the table as it was. *)
Definition runCycle (clearing : list (TransferSide D)) (matches : list TransferMatch)
    : option (list TransferMatch * nat) :=
  match ListUnmatchedTransferSides EmptyString clearing matches with
  | [] => Some (matches, 0)
  | sides =>
      match Match_ sides DefaultOpts with
      | [] => Some (matches, 0)
      | new => CreateTransferMatches new matches
      end
  end.
End store.

(** ** Partitions *)

Section partitions.
Context {D : Type} `{Decimal D}.
Implicit Types (s : TransferSide D) (sides : list (TransferSide D)).

(** The indices a partition holds, read off the slice. *)
Definition chosen (P : TransferSide D → bool) (k : string) sides : list nat :=
  omap (λ '(i, s), if decide (side_key s = k) then if P s then Some i else None else None) (imap pair sides).

Definition arrives (s : TransferSide D) : bool := negb (is_pos (s_Amount s)) && is_neg (s_Amount s).
Definition departs (s : TransferSide D) : bool := is_pos (s_Amount s).

Definition part_at sides (k : string) : partitioned :=
  {| departures := chosen departs k sides; arrivals := chosen arrives k sides |}.

Definition order_of sides : list string := (foldl partition_step (∅, []) (imap pair sides)).2.

Lemma chosen_snoc P k sides s :
  chosen P k (sides ++ [s]) =
  chosen P k sides ++ (if decide (side_key s = k) then if P s then [length sides] else [] else []).
Proof.
  unfold chosen. rewrite imap_app, omap_app. f_equal. simpl. rewrite Nat.add_0_r.
  by destruct (decide _), (P s).
Qed.

Lemma partition_inv sides :
  let '(m, o) := foldl partition_step (∅, []) (imap pair sides) in
  NoDup o ∧ (∀ k, k ∈ o ↔ k ∈ side_key <$> sides) ∧ (∀ k, is_Some (m !! k) ↔ k ∈ o) ∧
  ∀ k, default {| departures := []; arrivals := [] |} (m !! k) = part_at sides k.
Proof.
  induction sides as [|s sides IH] using rev_ind.
  { simpl. split_and!; [constructor|set_solver|..]; intros k; rewrite lookup_empty; [|done].
    split; [by intros []|by intros ?%elem_of_nil]. }
  rewrite imap_app, foldl_app. destruct (foldl partition_step _ _) as [m o] eqn:E.
  destruct IH as (Hnd & Ho & Hm & Hp). simpl. rewrite Nat.add_0_r.
  split_and!.
  - destruct (m !! side_key s) eqn:Es; [done|]. apply NoDup_app. split_and!; [done| |apply NoDup_singleton].
    intros k Hk ->%list_elem_of_singleton. apply Hm in Hk as [? ?]. congruence.
  - intros k. rewrite fmap_app, elem_of_app, <- Ho. simpl. rewrite list_elem_of_singleton.
    destruct (m !! side_key s) eqn:Es; [|by rewrite elem_of_app, list_elem_of_singleton].
    split; [by left|]. intros [?| ->]; [done|]. by apply Hm.
  - intros k. destruct (decide (side_key s = k)) as [<-|Hne].
    + rewrite lookup_insert_eq. split; [|by eexists]. intros _.
      destruct (m !! side_key s) eqn:Es; [by apply Hm|]. set_solver.
    + rewrite lookup_insert_ne, Hm by done. destruct (m !! side_key s); [done|]. set_solver.
  - intros k. unfold part_at. rewrite !chosen_snoc. destruct (decide (side_key s = k)) as [<-|Hne].
    + rewrite lookup_insert_eq. simpl. rewrite Hp. unfold arrives, departs.
      destruct (is_pos (s_Amount s)), (is_neg (s_Amount s)); simpl; by rewrite ?app_nil_r.
    + rewrite lookup_insert_ne by done. rewrite Hp. by rewrite !app_nil_r.
Qed.

Lemma partition_parts sides : partition sides = part_at sides <$> order_of sides.
Proof.
  unfold partition, order_of. pose proof (partition_inv sides) as Hi.
  destruct (foldl partition_step _ _) as [m o]. destruct Hi as (_ & _ & _ & Hp). simpl.
  apply list_fmap_ext. intros _ k _. apply Hp.
Qed.

Lemma order_of_NoDup sides : NoDup (order_of sides).
Proof. unfold order_of. pose proof (partition_inv sides) as Hi. destruct (foldl _ _ _). apply Hi. Qed.

Lemma elem_of_order_of sides k : k ∈ order_of sides ↔ k ∈ side_key <$> sides.
Proof.
  unfold order_of. pose proof (partition_inv sides) as Hi. destruct (foldl _ _ _). apply Hi.
Qed.

Lemma elem_of_chosen P k sides i :
  i ∈ chosen P k sides ↔ ∃ s, sides !! i = Some s ∧ side_key s = k ∧ P s = true.
Proof.
  unfold chosen. rewrite list_elem_of_omap. split.
  - intros ([j s] & Hin & Hc). apply elem_of_lookup_imap in Hin as (j' & s' & [= <- <-] & Hl).
    repeat case_match; simplify_eq. eauto.
  - intros (s & Hl & Hk & HP). exists (i, s). split; [apply elem_of_lookup_imap; eauto|].
    rewrite decide_True by done. by rewrite HP.
Qed.

Lemma chosen_NoDup P k sides : NoDup (chosen P k sides).
Proof.
  induction sides as [|s sides IH] using rev_ind; [constructor|]. rewrite chosen_snoc.
  apply NoDup_app. split_and!; [done| |destruct (decide _), (P s); auto using NoDup_nil_2, NoDup_singleton].
  intros i (s' & Hl%lookup_lt_Some & _)%elem_of_chosen Hi. destruct (decide _), (P s); [|by apply elem_of_nil in Hi..].
  apply list_elem_of_singleton in Hi. lia.
Qed.

Lemma side_lookup sides i s : sides !! i = Some s → side sides i = s.
Proof. intros E. unfold side. by rewrite E. Qed.
End partitions.

(** ** The greedy loop *)

Definition ends (cs : list candidate) : list nat := cs ≫= λ c, [from c; to c].

Lemma elem_of_ends cs i : i ∈ ends cs ↔ ∃ c, c ∈ cs ∧ (i = from c ∨ i = to c).
Proof. unfold ends. rewrite elem_of_bind. set_solver. Qed.

Lemma ends_app cs cs' : ends (cs ++ cs') = ends cs ++ ends cs'.
Proof. apply bind_app. Qed.

(** What is taken is some of the candidates, no index twice and none taken before. *)
Lemma take_best_spec cands taken blocked out taken' :
  (∀ c, c ∈ cands → from c ≠ to c) →
  take_best cands taken blocked = (out, taken') →
  (∀ c, c ∈ out → c ∈ cands) ∧ NoDup (ends out) ∧ (∀ i, i ∈ ends out → i ∉ taken) ∧
  (∀ i, i ∈ taken' ↔ i ∈ taken ∨ i ∈ ends out).
Proof.
  revert taken blocked out taken'. induction cands as [|c rest IH]; intros taken blocked out taken' Hne Ht.
  { simpl in Ht. injection Ht as <- <-. split_and!; [done|constructor|set_solver..]. }
  assert (∀ c, c ∈ rest → from c ≠ to c) as Hne' by (intros; apply Hne; set_solver).
  simpl in Ht. destruct (_ || _) eqn:Eskip in Ht.
  { destruct (IH _ _ _ _ Hne' Ht) as (? & ? & ? & ?). split_and!; [set_solver|done..]. }
  destruct (ambiguous rest c _).
  { destruct (IH _ _ _ _ Hne' Ht) as (? & ? & ? & ?). split_and!; [set_solver|done..]. }
  destruct (take_best rest _ blocked) as [out1 t1] eqn:E1. injection Ht as <- <-.
  destruct (IH _ _ _ _ Hne' E1) as (Hin & Hnd & Hfree & Ht).
  rewrite !orb_false_iff, !bool_decide_eq_false in Eskip. destruct Eskip as [[? _] [? _]].
  pose proof (Hne c ltac:(left)). split_and!.
  - set_solver.
  - simpl. constructor; [|constructor; [|done]].
    + rewrite elem_of_cons. intros [?|Hi]; [done|]. apply Hfree in Hi. set_solver.
    + intros Hi%Hfree. set_solver.
  - intros i. simpl. rewrite !elem_of_cons. intros [->|[->|Hi%Hfree]]; [done..|set_solver].
  - intros i. rewrite Ht. simpl. set_solver.
Qed.

(** A candidate strictly better than every other that shares a side with it is taken,
    if its sides are free. *)
Definition rank : candidate → candidate → comparison :=
  cmp_on (λ c, (refDistance c, dateGap c)) (cmp_lex Z.compare Z.compare).

Lemma ties_rank c o : ties c o = true ↔ rank c o = Eq.
Proof.
  unfold ties, rank, cmp_on, cmp_lex. simpl. rewrite andb_true_iff, !Z.eqb_eq.
  destruct (Z.compare_spec (refDistance c) (refDistance o)); rewrite ?Z.compare_eq_iff; naive_solver lia.
Qed.

Definition shares (c o : candidate) : Prop := from c = from o ∨ to c = to o.

Lemma ambiguous_false rest c skip :
  (∀ o, o ∈ rest → shares o c → ties o c = false) → ambiguous rest c skip = false.
Proof.
  induction rest as [|o rest IH]; intros Hs; [done|]. simpl. destruct (ties o c) eqn:Et; [simpl|done].
  assert (ambiguous rest c skip = false) as Hr by (apply IH; intros; apply Hs; set_solver).
  destruct (skip (from o) || skip (to o)); [done|].
  destruct (_ || _) eqn:Esh; [|done]. exfalso. apply orb_true_iff in Esh. rewrite !Nat.eqb_eq in Esh.
  specialize (Hs o ltac:(left) Esh). congruence.
Qed.

Lemma take_best_best cands taken blocked c :
  NoDup cands → c ∈ cands →
  (∀ o o', o ∈ cands → o' ∈ cands → from o ≠ to o') →
  StronglySorted (λ x y, rank x y ≠ Gt) cands →
  (∀ o, o ∈ cands → o ≠ c → shares o c → rank c o = Lt) →
  from c ∉ taken ∪ blocked → to c ∉ taken ∪ blocked →
  c ∈ (take_best cands taken blocked).1.
Proof.
  revert taken blocked. induction cands as [|o rest IH]; intros taken blocked Hnd Hc Hsep Hs Hbest Hf Ht.
  { by apply elem_of_nil in Hc. }
  apply NoDup_cons in Hnd as [Ho Hnd]. apply StronglySorted_inv in Hs as [Hs Hle].
  assert (∀ x, x ∈ rest → x ≠ c → shares x c → rank c x = Lt) as Hbest' by (intros; apply Hbest; set_solver).
  simpl. destruct (decide (o = c)) as [->|Hoc].
  - rewrite !bool_decide_false by set_solver. simpl. rewrite ambiguous_false.
    + destruct (take_best rest _ _). set_solver.
    + intros x Hx Hxc. apply not_true_iff_false. intros Hties%ties_rank.
      assert (x ≠ c) as Hne by congruence. specialize (Hbest' x Hx Hne Hxc).
      apply (cmp_eq_sym rank) in Hties. congruence.
  - assert (c ∈ rest) as Hc' by set_solver.
    assert (¬ shares o c) as Hns.
    { intros Hsh. pose proof (Hbest o ltac:(left) Hoc Hsh) as Hlt.
      rewrite Forall_forall in Hle. apply (Hle c Hc'). by apply (cmp_gt_lt rank). }
    assert (from c ∉ ({[from o; to o]} : gset nat)) as Hff.
    { pose proof (Hsep c o Hc ltac:(left)). unfold shares in Hns. set_solver. }
    assert (to c ∉ ({[from o; to o]} : gset nat)) as Htt.
    { pose proof (Hsep o c ltac:(left) Hc). unfold shares in Hns. set_solver. }
    assert (∀ x y, x ∈ rest → y ∈ rest → from x ≠ to y) as Hsep' by (intros; apply Hsep; by right).
    destruct (_ || _); [by apply IH|]. destruct (ambiguous _ _ _); [apply IH; set_solver|].
    destruct (take_best rest _ _) as [out t] eqn:E. simpl. right.
    change out with (out, t).1. rewrite <- E. apply IH; set_solver.
Qed.

(** ** Gaps and distances *)

Lemma gap_exact a b : in_int64 (a - b) → in_int64 (b - a) → gap a b = Z.abs (a - b).
Proof.
  unfold in_int64, gap, time_sub. intros H1 H2.
  rewrite Z.min_r, Z.max_r by lia. destruct (Z.ltb_spec (a - b) 0); [|lia].
  rewrite wrap64_id; [lia|]. unfold in_int64. lia.
Qed.

(** Sixty-four bits hold the distance of two numbers of one sign. *)
Definition ordinal_ok (x : Z) : Prop := (0 ≤ x ≤ max_int64)%Z.

Lemma nearer_exact n x y : ordinal_ok x → ordinal_ok y →
  nearer n x y = if (n <? 0)%Z then Z.abs (x - y) else Z.min n (Z.abs (x - y)).
Proof.
  unfold ordinal_ok, nearer, max_int64. intros Hx Hy.
  rewrite (wrap64_id (x - y)) by (unfold in_int64, min_int64, max_int64; lia).
  rewrite (wrap64_id (- (x - y))) by (unfold in_int64, min_int64, max_int64; lia).
  assert ((if (x - y <? 0)%Z then (- (x - y))%Z else (x - y)%Z) = Z.abs (x - y)) as ->.
  { destruct (Z.ltb_spec (x - y) 0); lia. }
  destruct (Z.ltb_spec n 0); simpl; [done|]. destruct (Z.ltb_spec (Z.abs (x - y)) n); lia.
Qed.

(** [n] is the least distance seen so far, or negative when there is none. *)
Definition least (ds : list Z) (n : Z) : Prop :=
  match ds with [] => (n < 0)%Z | _ => n ∈ ds ∧ Forall (Z.le n) ds end.

Lemma least_snoc ds n d : (Forall (Z.le 0) ds) → (0 ≤ d)%Z → least ds n →
  least (ds ++ [d]) (if (n <? 0)%Z then d else Z.min n d).
Proof.
  intros Hds Hd. destruct ds as [|d0 ds]; simpl.
  - intros Hn. rewrite (proj2 (Z.ltb_lt n 0)) by lia. split; [left|repeat constructor; lia].
  - intros [Hn Hall]. assert (0 ≤ n)%Z by (rewrite Forall_forall in Hds; by apply Hds).
    rewrite (proj2 (Z.ltb_ge n 0)) by lia. split.
    + destruct (Z.min_spec n d) as [[_ ->]|[_ ->]]; [|set_solver]. set_solver.
    + change (d0 :: ds ++ [d]) with ((d0 :: ds) ++ [d]). rewrite Forall_app, !Forall_forall in *.
      split; intros x Hx; [specialize (Hall x Hx); lia|]. apply list_elem_of_singleton in Hx as ->. lia.
Qed.

Definition distances (xs ys : list Z) : list Z := x ← xs; (λ y, Z.abs (x - y)) <$> ys.

Lemma distances_pos xs ys : Forall (Z.le 0) (distances xs ys).
Proof. apply Forall_forall. intros d. unfold distances. rewrite elem_of_bind. set_solver by lia. Qed.

Lemma nearest_inner x ys ds n :
  ordinal_ok x → Forall ordinal_ok ys → Forall (Z.le 0) ds → least ds n →
  least (ds ++ ((λ y, Z.abs (x - y)) <$> ys)) (foldl (λ n y, nearer n x y) n ys).
Proof.
  intros Hx. revert ds n. induction ys as [|y ys IH]; intros ds n Hys Hds Hn; [by rewrite app_nil_r|].
  apply Forall_cons in Hys as [Hy Hys]. rewrite fmap_cons, cons_middle, app_assoc. cbn [foldl]. apply IH; [done| |].
  - apply Forall_app. split; [done|]. repeat constructor. lia.
  - rewrite nearer_exact by done. by apply least_snoc; [|lia|].
Qed.

Lemma nearest_outer xs ys ds n :
  Forall ordinal_ok xs → Forall ordinal_ok ys → Forall (Z.le 0) ds → least ds n →
  least (ds ++ distances xs ys) (foldl (λ n x, foldl (λ n y, nearer n x y) n ys) n xs).
Proof.
  intros Hxs Hys. revert ds n. induction xs as [|x xs IH]; intros ds n Hds Hn; [by rewrite app_nil_r|].
  apply Forall_cons in Hxs as [Hx Hxs]. simpl. rewrite app_assoc. apply IH; [done| |].
  - apply Forall_app. split; [done|]. apply Forall_forall. intros d (y & -> & _)%list_elem_of_fmap. lia.
  - by apply nearest_inner.
Qed.

(** The two loops compute the least distance between an ordinal of one side and one of
    the other. *)
Lemma nearest_gap_least xs ys :
  Forall ordinal_ok xs → Forall ordinal_ok ys → least (distances xs ys) (nearest_gap xs ys).
Proof. intros. by apply (nearest_outer xs ys []). Qed.

Section sound.
Context {D : Type} `{DecimalLaws D}.
Implicit Types (a b : TransferSide D) (sides : list (TransferSide D)).

(** What each pass takes as evidence. *)
Definition points a b : Prop :=
  s_Broker a = s_Broker b ∧
  (names (s_Correlations a) (s_Account b) = true ∨ names (s_Correlations b) (s_Account a) = true).

Definition near (span : Z) a b : Prop :=
  s_Broker a = s_Broker b ∧ ∃ x y, x ∈ ordinals (s_Correlations a) ∧ y ∈ ordinals (s_Correlations b) ∧
    (Z.abs (x - y) ≤ span)%Z.

Definition ordinals_ok a : Prop := Forall ordinal_ok (ordinals (s_Correlations a)).

Lemma pointer_points a b opts : (pointerFeasible a b opts).1 = true ↔ points a b.
Proof.
  unfold pointerFeasible, points. destruct (decide (s_Broker a = s_Broker b)) as [E|E].
  - rewrite bool_decide_true by done. simpl. rewrite orb_true_iff. naive_solver.
  - rewrite bool_decide_false by done. simpl. naive_solver.
Qed.

(** Either the pair has no evidence, or the distance is the least between their
    ordinals and within the span. *)
Lemma reference_cases a b opts : ordinals_ok a → ordinals_ok b →
  ((referenceFeasible a b opts).1 = false ∧ ¬ near (RefSpan opts) a b) ∨
  (∃ d, referenceFeasible a b opts = (true, d) ∧ near (RefSpan opts) a b ∧ (0 ≤ d ≤ RefSpan opts)%Z ∧
    least (distances (ordinals (s_Correlations a)) (ordinals (s_Correlations b))) d).
Proof.
  unfold ordinals_ok, near, referenceFeasible. intros Ha Hb.
  destruct (decide (s_Broker a = s_Broker b)) as [E|E].
  2: { left. rewrite bool_decide_false by done. naive_solver. }
  rewrite bool_decide_true by done. cbn [negb]. pose proof (nearest_gap_least _ _ Ha Hb) as Hl.
  destruct (ordinals (s_Correlations a)) as [|x xs] eqn:Ea.
  { left. split; [done|]. intros (_ & ? & ? & ?%elem_of_nil & _). done. }
  destruct (ordinals (s_Correlations b)) as [|y ys] eqn:Eb.
  { left. split; [done|]. intros (_ & ? & ? & _ & ?%elem_of_nil & _). done. }
  pose proof (distances_pos (x :: xs) (y :: ys)) as Hpos.
  assert (distances (x :: xs) (y :: ys) = Z.abs (x - y) :: tail (distances (x :: xs) (y :: ys))) as Ed by done.
  set (n := nearest_gap (x :: xs) (y :: ys)) in *. clearbody n.
  assert (n ∈ distances (x :: xs) (y :: ys) ∧ Forall (Z.le n) (distances (x :: xs) (y :: ys))) as [Hin Hmin].
  { rewrite Ed in Hl |- *. exact Hl. }
  assert (0 ≤ n)%Z by (rewrite Forall_forall in Hpos; by apply Hpos).
  destruct (Z.ltb_spec (RefSpan opts) n) as [Hgt|Hle].
  - left. split; [done|]. intros (_ & u & v & Hu & Hv & Huv).
    rewrite Forall_forall in Hmin. enough (n ≤ Z.abs (u - v))%Z by lia. apply Hmin.
    apply elem_of_bind. exists u. split; [|done]. apply list_elem_of_fmap. eauto.
  - right. exists n. split; [done|]. split; [|by split].
    split; [done|]. apply elem_of_bind in Hin as (u & (v & Hd & Hv)%list_elem_of_fmap & Hu). exists u, v.
    split_and!; [done..|]. lia.
Qed.

(** A pair every pass would accept, whatever its evidence. *)
Definition fits (opts : Opts) a b : Prop :=
  (dval (s_Amount a) + dval (s_Amount b) == 0)%Q ∧
  ¬ (s_Broker a = s_Broker b ∧ EqualFold (s_Account a) (s_Account b) = true) ∧
  (Z.abs (s_OrderDate a - s_OrderDate b) ≤ Window opts)%Z.

Definition dates_ok a b : Prop := in_int64 (s_OrderDate a - s_OrderDate b).

Lemma pairable_fits opts a b : dates_ok a b → dates_ok b a → pairable a b opts = true ↔ fits opts a b.
Proof.
  intros H1 H2. unfold pairable, fits. rewrite gap_exact by done.
  rewrite <- dval_add, <- is_zero_eq. destruct (is_zero _); [|naive_solver]. simpl.
  destruct (decide (s_Broker a = s_Broker b)) as [E|E].
  - rewrite bool_decide_true by done. simpl. destruct (EqualFold _ _); [naive_solver|].
    rewrite Z.leb_le. naive_solver.
  - rewrite bool_decide_false by done. simpl. rewrite Z.leb_le. naive_solver.
Qed.

(** ** What the two passes pick *)

Lemma elem_of_candidates sides part opts taken extra c :
  c ∈ candidates sides part opts taken extra ↔
  from c ∈ departures part ∧ from c ∉ taken ∧ to c ∈ arrivals part ∧ to c ∉ taken ∧
  pairable (side sides (from c)) (side sides (to c)) opts = true ∧
  extra (side sides (from c)) (side sides (to c)) opts = (true, refDistance c) ∧
  dateGap c = gap (s_OrderDate (side sides (from c))) (s_OrderDate (side sides (to c))).
Proof.
  unfold candidates. rewrite elem_of_bind. split.
  - intros (f & Hc & Hf). destruct (decide (f ∈ taken)) as [?|Hft]; [by apply elem_of_nil in Hc|].
    apply elem_of_bind in Hc as (t & Hc & Ht). destruct (decide (t ∈ taken)) as [?|Htt]; [by apply elem_of_nil in Hc|].
    destruct (pairable _ _ _) eqn:Ep; [|by apply elem_of_nil in Hc]. cbn [negb] in Hc.
    destruct (extra _ _ _) as [[] d] eqn:Ee; [|by apply elem_of_nil in Hc].
    apply list_elem_of_singleton in Hc as ->. split_and!; done.
  - intros (Hf & Hft & Ht & Htt & Hp & He & Hg). exists (from c). split; [|done].
    rewrite decide_False by done. apply elem_of_bind. exists (to c). split; [|done].
    rewrite decide_False, Hp, He by done. cbn [negb]. rewrite <- Hg. destruct c. set_solver.
Qed.

Definition ranked sides part opts taken extra : list candidate :=
  go_sort (betterThan sides) (candidates sides part opts taken extra).

Definition pass sides (k : string) opts taken (extra : feasible) : list candidate * gset nat :=
  take_best (ranked sides (part_at sides k) opts taken extra) taken ∅.

Definition first_pass sides opts k : list candidate * gset nat := pass sides k opts ∅ pointerFeasible.

Definition second_pass sides opts k : list candidate * gset nat :=
  pass sides k opts (first_pass sides opts k).2 referenceFeasible.

Definition picked sides opts k : list (string * candidate) :=
  (pair TransferMatchPointer <$> (first_pass sides opts k).1)
  ++ (pair TransferMatchReference <$> (second_pass sides opts k).1).

Lemma match_picked sides opts :
  Match_ sides opts = (λ mc, link sides mc.1 mc.2) <$> (order_of sides ≫= picked sides opts).
Proof.
  unfold Match_. rewrite partition_parts, bind_fmap. induction (order_of sides) as [|k ks IH]; [done|].
  rewrite !bind_cons, IH, fmap_app. f_equal. unfold compose, match_part, run, picked, second_pass, first_pass, pass, ranked.
  destruct (take_best (go_sort _ (candidates sides (part_at sides k) opts ∅ pointerFeasible)) ∅ ∅) as [o1 t1].
  simpl. destruct (take_best _ t1 ∅) as [o2 t2]. simpl. by rewrite fmap_app, <- !list_fmap_compose.
Qed.

(** What the matcher relies on in the sides it is given: one per group and commodity,
    user ids free of the byte that separates the parts of a key, and dates and ordinals
    whose differences 64 bits hold. *)
Definition side_id (s : TransferSide D) : string * string := (s_GroupID s, s_InstrumentID s).

Definition no_nul (s : string) : bool := sforall (λ x, negb (Ascii.eqb x Ascii.zero)) s.

Record sides_ok sides : Prop := {
  ok_ids : NoDup (side_id <$> sides);
  ok_users : ∀ s, s ∈ sides → no_nul (s_UserID s) = true;
  ok_dates : ∀ a b, a ∈ sides → b ∈ sides → dates_ok a b;
  ok_ordinals : ∀ s, s ∈ sides → ordinals_ok s;
}.

Lemma key_inj (u u' i i' : string) : no_nul u = true → no_nul u' = true →
  u +:+ String Ascii.zero i = u' +:+ String Ascii.zero i' → u = u' ∧ i = i'.
Proof.
  unfold no_nul. revert u'. induction u as [|x u IH]; intros [|x' u'] Hu Hu' E;
    rewrite ?string_app_cons in E; simpl in Hu, Hu'.
  - by injection E as ->.
  - injection E as <- _. by rewrite Ascii.eqb_refl in Hu'.
  - injection E as -> _. by rewrite Ascii.eqb_refl in Hu.
  - injection E as -> E. apply andb_true_iff in Hu as [_ Hu], Hu' as [_ Hu'].
    by destruct (IH u' Hu Hu' E) as [-> ->].
Qed.

Lemma side_key_inj sides a b : sides_ok sides → a ∈ sides → b ∈ sides →
  side_key a = side_key b → s_UserID a = s_UserID b ∧ s_InstrumentID a = s_InstrumentID b.
Proof. intros Hok Ha Hb. apply key_inj; by apply (ok_users sides). Qed.

Lemma pass_spec sides k opts taken extra out taken' :
  pass sides k opts taken extra = (out, taken') →
  (∀ c, c ∈ out → c ∈ candidates sides (part_at sides k) opts taken extra) ∧
  NoDup (ends out) ∧ (∀ i, i ∈ ends out → i ∉ taken) ∧ (∀ i, i ∈ taken' ↔ i ∈ taken ∨ i ∈ ends out).
Proof.
  intros Hp. unfold pass, ranked in Hp. apply take_best_spec in Hp as (Hin & ? & ? & ?).
  - split_and!; [|done..]. intros c Hc%Hin. by rewrite elem_of_go_sort in Hc.
  - intros c. rewrite elem_of_go_sort, elem_of_candidates. simpl.
    intros ((s & Hs & _ & Hd)%elem_of_chosen & _ & (s' & Hs' & _ & Ha)%elem_of_chosen & _) E.
    rewrite E in Hs. simplify_eq. unfold arrives, departs in *. by rewrite Hd in Ha.
Qed.

(** One pick: two sides of one partition, a departure and an arrival, that fit and have
    the evidence its method names. *)
Definition sound_pick sides (opts : Opts) (k : string) (mc : string * candidate) : Prop :=
  let '(m, c) := mc in ∃ a b,
    sides !! from c = Some a ∧ sides !! to c = Some b ∧ side_key a = k ∧ side_key b = k ∧
    departs a = true ∧ fits opts a b ∧
    ((m = TransferMatchPointer ∧ points a b) ∨ (m = TransferMatchReference ∧ near (RefSpan opts) a b)).

Lemma candidate_sides sides opts k taken extra c :
  sides_ok sides → c ∈ candidates sides (part_at sides k) opts taken extra →
  ∃ a b, sides !! from c = Some a ∧ sides !! to c = Some b ∧ side_key a = k ∧ side_key b = k ∧
    departs a = true ∧ fits opts a b ∧ extra a b opts = (true, refDistance c).
Proof.
  intros Hok (Hf & _ & Ht & _ & Hp & He & _)%elem_of_candidates. simpl in *.
  apply elem_of_chosen in Hf as (a & Ea & Ka & Da), Ht as (b & Eb & Kb & _).
  rewrite (side_lookup _ _ _ Ea), (side_lookup _ _ _ Eb) in *.
  exists a, b. split_and!; try done.
  apply pairable_fits; [by apply (ok_dates sides); [done|eapply list_elem_of_lookup_2..]..|done].
Qed.

Lemma picked_sound sides opts k mc : sides_ok sides → mc ∈ picked sides opts k → sound_pick sides opts k mc.
Proof.
  intros Hok. unfold picked. rewrite elem_of_app, !list_elem_of_fmap.
  intros [(c & -> & Hc)|(c & -> & Hc)]; simpl.
  - unfold first_pass in Hc. destruct (pass _ _ _ _ _) as [o t] eqn:E. apply pass_spec in E as (Hin & _).
    destruct (candidate_sides _ _ _ _ _ _ Hok (Hin c Hc)) as (a & b & ? & ? & ? & ? & ? & ? & He).
    exists a, b. split_and!; [done..|]. left. split; [done|]. apply (pointer_points a b opts). by rewrite He.
  - unfold second_pass in Hc. destruct (pass _ _ _ _ _) as [o t] eqn:E. apply pass_spec in E as (Hin & _).
    destruct (candidate_sides _ _ _ _ _ _ Hok (Hin c Hc)) as (a & b & Ea & Eb & ? & ? & ? & ? & He).
    exists a, b. split_and!; [done..|]. right. split; [done|].
    destruct (reference_cases a b opts) as [[Hf _]|(d & _ & Hn & _)].
    + eapply (ok_ordinals sides), list_elem_of_lookup_2; done.
    + eapply (ok_ordinals sides), list_elem_of_lookup_2; done.
    + by rewrite He in Hf.
    + done.
Qed.

Lemma picked_ends_NoDup sides opts k : NoDup (ends (picked sides opts k).*2).
Proof.
  unfold picked. rewrite fmap_app, <- !list_fmap_compose. unfold compose. simpl. rewrite !list_fmap_id, ends_app.
  unfold second_pass, first_pass.
  destruct (pass sides k opts ∅ pointerFeasible) as [o1 t1] eqn:E1. simpl.
  destruct (pass sides k opts t1 referenceFeasible) as [o2 t2] eqn:E2. simpl.
  apply pass_spec in E1 as (_ & Hn1 & _ & Ht1), E2 as (_ & Hn2 & Hf2 & _).
  apply NoDup_app. split_and!; [done| |done]. intros i Hi Hi2%Hf2. apply Hi2, Ht1. by right.
Qed.

Definition all_picks sides opts : list (string * candidate) := order_of sides ≫= picked sides opts.

Lemma all_picks_sound sides opts mc : sides_ok sides → mc ∈ all_picks sides opts → ∃ k, sound_pick sides opts k mc.
Proof. intros Hok (k & Hmc & _)%elem_of_bind. exists k. by apply picked_sound. Qed.

Lemma ends_bind {A} (f : A → list (string * candidate)) l :
  ends (l ≫= f).*2 = l ≫= λ k, ends (f k).*2.
Proof. induction l as [|k l IH]; [done|]. by rewrite !bind_cons, fmap_app, ends_app, IH. Qed.

Lemma picked_end sides opts k i : sides_ok sides → i ∈ ends (picked sides opts k).*2 →
  ∃ s, sides !! i = Some s ∧ side_key s = k.
Proof.
  intros Hok (c & ([m c'] & -> & Hc)%list_elem_of_fmap & Hi)%elem_of_ends.
  apply picked_sound in Hc as (a & b & ? & ? & ? & ? & _); [|done]. simpl in Hi. destruct Hi as [->| ->]; eauto.
Qed.

Lemma all_ends_NoDup sides opts : sides_ok sides → NoDup (ends (all_picks sides opts).*2).
Proof.
  intros Hok. unfold all_picks. rewrite ends_bind. apply NoDup_bind.
  - intros k k' i _ _ (s & Es & <-)%picked_end (s' & Es' & <-)%picked_end; [congruence|done..].
  - intros k _. apply picked_ends_NoDup.
  - apply order_of_NoDup.
Qed.

(** The two sides a link names. *)
Definition link_sides (m : TransferMatch) : list (string * string) :=
  [(Ledger.tm_from m, Ledger.tm_instrument m); (Ledger.tm_to m, Ledger.tm_instrument m)].

Lemma link_sides_ends sides opts mc : sides_ok sides → mc ∈ all_picks sides opts →
  link_sides (link sides mc.1 mc.2) = (λ i, side_id (side sides i)) <$> [from mc.2; to mc.2].
Proof.
  intros Hok Hmc. destruct (all_picks_sound _ _ _ Hok Hmc) as (k & Hp). destruct mc as [m c].
  destruct Hp as (a & b & Ea & Eb & Ka & Kb & _). simpl.
  unfold link_sides, link, side_id. simpl. rewrite (side_lookup _ _ _ Ea), (side_lookup _ _ _ Eb).
  destruct (side_key_inj sides a b) as [_ ->]; [done|by eapply list_elem_of_lookup_2..|congruence|done].
Qed.

Lemma link_sides_all sides opts : sides_ok sides →
  Match_ sides opts ≫= link_sides = (λ i, side_id (side sides i)) <$> ends (all_picks sides opts).*2.
Proof.
  intros Hok. rewrite match_picked, bind_fmap. fold (all_picks sides opts).
  pose proof (λ mc, link_sides_ends sides opts mc Hok) as Hl.
  induction (all_picks sides opts) as [|mc l IH]; [done|].
  rewrite bind_cons, IH by (intros; apply Hl; by right).
  unfold compose at 1. rewrite (Hl mc) by by left. done.
Qed.

Lemma side_id_inj sides i j a b : sides_ok sides → sides !! i = Some a → sides !! j = Some b →
  side_id a = side_id b → i = j.
Proof.
  intros Hok Ea Eb E. apply (NoDup_lookup (side_id <$> sides) i j (side_id a)).
  - apply (ok_ids _ Hok).
  - by rewrite list_lookup_fmap, Ea.
  - by rewrite list_lookup_fmap, Eb, E.
Qed.

Lemma all_link_sides_NoDup sides opts : sides_ok sides → NoDup (Match_ sides opts ≫= link_sides).
Proof.
  intros Hok. rewrite link_sides_all by done. apply NoDup_fmap_2_strong; [|by apply all_ends_NoDup].
  assert (∀ i, i ∈ ends (all_picks sides opts).*2 → ∃ s, sides !! i = Some s) as Hin.
  { intros i. unfold all_picks. rewrite ends_bind, elem_of_bind.
    intros (k & (s & ? & _)%picked_end & _); [by eexists|done]. }
  intros i j Hi Hj E. destruct (Hin i Hi) as [a Ea], (Hin j Hj) as [b Eb].
  rewrite (side_lookup _ _ _ Ea), (side_lookup _ _ _ Eb) in E. by eapply side_id_inj.
Qed.

(** Every link is between two of the sides, and no side is in two. *)
Lemma match_sides sides opts : sides_ok sides →
  (∀ m, m ∈ Match_ sides opts → ∃ a b, a ∈ sides ∧ b ∈ sides ∧ s_UserID a = Ledger.tm_user m ∧
    side_id a = (Ledger.tm_from m, Ledger.tm_instrument m) ∧ side_id b = (Ledger.tm_to m, Ledger.tm_instrument m)) ∧
  NoDup (Match_ sides opts ≫= link_sides).
Proof.
  intros Hok. split; [|by apply all_link_sides_NoDup]. intros m. rewrite match_picked.
  intros ([me c] & -> & Hmc)%list_elem_of_fmap. pose proof (link_sides_ends _ _ _ Hok Hmc) as El.
  destruct (all_picks_sound _ _ _ Hok Hmc) as (k & a & b & Ea & Eb & _).
  exists a, b. unfold link_sides in El. simpl in El |- *.
  rewrite (side_lookup _ _ _ Ea), (side_lookup _ _ _ Eb) in *.
  split_and!; [by eapply list_elem_of_lookup_2..|done| |]; congruence.
Qed.

(** C3: [Match] never pairs on anything less than it says.  Every link it returns names
    two of the given sides, of one user and one instrument, a departure and an arrival
    whose amounts cancel exactly, in different accounts, dated within the window, with
    evidence: under POINTER one of them names the other's account, under REFERENCE two
    of their ordinals, at the same broker, lie within the span.  And no side is in two
    links. *)
Theorem match_sound sides opts : sides_ok sides →
  (∀ m, m ∈ Match_ sides opts → ∃ a b,
    a ∈ sides ∧ b ∈ sides ∧ s_UserID a = Ledger.tm_user m ∧ s_UserID b = Ledger.tm_user m ∧
    side_id a = (Ledger.tm_from m, Ledger.tm_instrument m) ∧ side_id b = (Ledger.tm_to m, Ledger.tm_instrument m) ∧
    (0 < dval (s_Amount a))%Q ∧ fits opts a b ∧
    ((Ledger.tm_method m = TransferMatchPointer ∧ points a b) ∨
     (Ledger.tm_method m = TransferMatchReference ∧ near (RefSpan opts) a b))) ∧
  NoDup (Match_ sides opts ≫= link_sides).
Proof.
  intros Hok. split; [|by apply all_link_sides_NoDup]. intros m. rewrite match_picked.
  intros ([me c] & -> & Hmc)%list_elem_of_fmap.
  pose proof (link_sides_ends _ _ _ Hok Hmc) as El.
  destruct (all_picks_sound _ _ _ Hok Hmc) as (k & a & b & Ea & Eb & Ka & Kb & Hd & Hf & He).
  pose proof (list_elem_of_lookup_2 _ _ _ Ea). pose proof (list_elem_of_lookup_2 _ _ _ Eb).
  destruct (side_key_inj sides a b) as [Hu Hi]; [done..|congruence|].
  unfold link_sides in El. simpl in El. rewrite (side_lookup _ _ _ Ea), (side_lookup _ _ _ Eb) in El.
  exists a, b. simpl. rewrite (side_lookup _ _ _ Ea), (side_lookup _ _ _ Eb). unfold side_id in *. simpl in *.
  split_and!; try done; try congruence. by apply is_pos_lt.
Qed.
End sound.

(** ** The order of candidates *)

Section ranking.
Context {D : Type} `{DecimalLaws D}.
Implicit Types (a b : TransferSide D) (sides : list (TransferSide D)).

Definition better_cmp sides : candidate → candidate → comparison :=
  cmp_on (λ c, ((refDistance c, dateGap c), (s_GroupID (side sides (from c)), s_GroupID (side sides (to c)))))
    (cmp_lex (cmp_lex Z.compare Z.compare) (cmp_lex String.compare String.compare)).

Lemma string_eqb_compare s t : String.eqb s t = match String.compare s t with Eq => true | _ => false end.
Proof.
  destruct (String.eqb_spec s t) as [->|Hne].
  - by rewrite (cmp_refl String.compare).
  - destruct (String.compare s t) eqn:E; [|done..]. by apply String.compare_eq_iff in E.
Qed.

Lemma transfer_better_cmp sides c o : betterThan sides c o = less_of (better_cmp sides) c o.
Proof.
  unfold betterThan, less_of, better_cmp, cmp_on, cmp_lex. simpl.
  rewrite string_eqb_compare, !string_ltb_less_of. unfold less_of.
  destruct (Z.compare_spec (refDistance c) (refDistance o)) as [->|Hlt|Hgt].
  - rewrite Z.eqb_refl. simpl. destruct (Z.compare_spec (dateGap c) (dateGap o)) as [->|Hlt|Hgt].
    + rewrite Z.eqb_refl. simpl. by destruct (String.compare (s_GroupID (side sides (from c))) _).
    + rewrite (proj2 (Z.eqb_neq _ _)) by lia. simpl. by apply Z.ltb_lt.
    + rewrite (proj2 (Z.eqb_neq _ _)) by lia. simpl. apply Z.ltb_ge. lia.
  - rewrite (proj2 (Z.eqb_neq _ _)) by lia. simpl. by apply Z.ltb_lt.
  - rewrite (proj2 (Z.eqb_neq _ _)) by lia. simpl. apply Z.ltb_ge. lia.
Qed.

Lemma better_rank sides c o : better_cmp sides c o ≠ Gt → rank c o ≠ Gt.
Proof.
  unfold better_cmp, rank, cmp_on. unfold cmp_lex at 1. simpl.
  by destruct (cmp_lex Z.compare Z.compare _ _).
Qed.

Lemma ranked_sorted sides part opts taken extra :
  StronglySorted (λ x y, rank x y ≠ Gt) (ranked sides part opts taken extra).
Proof.
  unfold ranked.
  pose proof (go_sort_sorted (betterThan sides) (better_cmp sides) (transfer_better_cmp sides)
    (candidates sides part opts taken extra)) as Hs.
  induction Hs as [|c l Hl IH Hc]; constructor; [done|].
  eapply Forall_impl; [exact Hc|]. intros o. apply better_rank.
Qed.

Lemma candidates_NoDup sides k opts taken (extra : feasible) :
  NoDup (candidates sides (part_at sides k) opts taken extra).
Proof.
  unfold candidates. apply NoDup_bind; [| |apply chosen_NoDup].
  - assert (∀ f c, c ∈ (if decide (f ∈ taken) then [] else
      t ← arrivals (part_at sides k);
      if decide (t ∈ taken) then [] else
      if negb (pairable (side sides f) (side sides t) opts) then [] else
      let '(ok, distance) := extra (side sides f) (side sides t) opts in
      if negb ok then [] else
      [{| from := f; to := t; refDistance := distance;
          dateGap := gap (s_OrderDate (side sides f)) (s_OrderDate (side sides t)) |}]) → from c = f) as Hfrom.
    { intros f c Hc. destruct (decide _); [by apply elem_of_nil in Hc|]. apply elem_of_bind in Hc as (t & Hc & _).
      destruct (decide _); [by apply elem_of_nil in Hc|]. destruct (pairable _ _ _); [|by apply elem_of_nil in Hc].
      simpl in Hc. destruct (extra _ _ _) as [[] d]; [|by apply elem_of_nil in Hc].
      by apply list_elem_of_singleton in Hc as ->. }
    intros f f' c _ _ Hf%Hfrom Hf'%Hfrom. congruence.
  - intros f _. destruct (decide _); [constructor|]. apply NoDup_bind; [| |apply chosen_NoDup].
    + intros t t' c _ _ Hc Hc'. repeat (destruct (decide _); [by apply elem_of_nil in Hc || apply elem_of_nil in Hc'|]).
      destruct (pairable _ (side sides t) _); [|by apply elem_of_nil in Hc].
      destruct (pairable _ (side sides t') _); [|by apply elem_of_nil in Hc'].
      simpl in *. destruct (extra _ (side sides t) _) as [[] d]; [|by apply elem_of_nil in Hc].
      destruct (extra _ (side sides t') _) as [[] d']; [|by apply elem_of_nil in Hc'].
      simpl in *. apply list_elem_of_singleton in Hc as ->. by apply list_elem_of_singleton in Hc' as [= ->].
    + intros t _. destruct (decide _); [constructor|]. destruct (pairable _ _ _); [|constructor]. simpl.
      destruct (extra _ _ _) as [[] d]; [apply NoDup_singleton|constructor].
Qed.

(** A candidate of a pass that beats every other sharing a side with it is taken. *)
Lemma pass_takes sides k opts taken (extra : feasible) c :
  c ∈ candidates sides (part_at sides k) opts taken extra →
  (∀ o, o ∈ candidates sides (part_at sides k) opts taken extra → o ≠ c → shares o c → rank c o = Lt) →
  c ∈ (pass sides k opts taken extra).1.
Proof.
  intros Hc Hbest. pose proof Hc as (_ & ? & _ & ? & _)%elem_of_candidates. unfold pass. apply take_best_best.
  - unfold ranked. rewrite go_sort_perm. apply candidates_NoDup.
  - unfold ranked. by rewrite elem_of_go_sort.
  - intros o o'. unfold ranked. rewrite !elem_of_go_sort, !elem_of_candidates. simpl.
    intros ((s & Es & _ & Hd)%elem_of_chosen & _) (_ & _ & (s' & Es' & _ & Ha)%elem_of_chosen & _) E.
    rewrite E in Es. simplify_eq. unfold arrives, departs in *. by rewrite Hd in Ha.
  - apply ranked_sorted.
  - intros o. unfold ranked. rewrite elem_of_go_sort. apply Hbest.
  - set_solver.
  - set_solver.
Qed.
End ranking.

(** ** What is found *)

Section found.
Context {D : Type} `{DecimalLaws D}.
Implicit Types (a b : TransferSide D) (sides : list (TransferSide D)).

Definition evidence (method : string) (opts : Opts) a b : Prop :=
  if decide (method = TransferMatchPointer) then points a b else near (RefSpan opts) a b.

(** How far apart the evidence of a method puts two sides: their references, where the
    method compares them, then their dates. *)
Definition apart (method : string) a b : Z * Z :=
  (if decide (method = TransferMatchPointer) then 0%Z
   else nearest_gap (ordinals (s_Correlations a)) (ordinals (s_Correlations b)),
   Z.abs (s_OrderDate a - s_OrderDate b)).

(** Two of the sides that [method] may pair. *)
Definition eligible sides (opts : Opts) (method : string) a b : Prop :=
  a ∈ sides ∧ b ∈ sides ∧ s_UserID a = s_UserID b ∧ s_InstrumentID a = s_InstrumentID b ∧
  (0 < dval (s_Amount a))%Q ∧ fits opts a b ∧ evidence method opts a b.

Definition extra_of (method : string) : feasible :=
  if decide (method = TransferMatchPointer) then pointerFeasible else referenceFeasible (D:=D).

Lemma extra_evidence method opts a b : ordinals_ok a → ordinals_ok b →
  evidence method opts a b → extra_of method a b opts = (true, (apart method a b).1).
Proof.
  unfold evidence, extra_of, apart. intros Ha Hb. destruct (decide _) as [E|E]; simpl.
  - intros Hp%(pointer_points a b opts). unfold pointerFeasible in *. destruct (negb _); [done|]. simpl in *. by rewrite Hp.
  - intros Hn. destruct (reference_cases a b opts Ha Hb) as [[_ ?]|(d & Hd & _)]; [done|].
    rewrite Hd. f_equal. unfold referenceFeasible in Hd. destruct (negb _); [done|].
    destruct (ordinals (s_Correlations a)), (ordinals (s_Correlations b)); try done.
    destruct (_ <? _)%Z; [done|]. by injection Hd.
Qed.

Lemma evidence_extra method opts a b d : ordinals_ok a → ordinals_ok b →
  extra_of method a b opts = (true, d) → evidence method opts a b.
Proof.
  unfold evidence, extra_of. intros Ha Hb. destruct (decide _).
  - intros E. apply (pointer_points a b opts). by rewrite E.
  - intros E. destruct (reference_cases a b opts Ha Hb) as [[Hf ?]|(? & _ & ? & _)]; [by rewrite E in Hf|done].
Qed.

Definition candidate_for (method : string) (i j : nat) a b : candidate :=
  {| from := i; to := j; refDistance := (apart method a b).1; dateGap := (apart method a b).2 |}.

Lemma fits_arrives opts a b : departs a = true → fits opts a b → arrives b = true.
Proof.
  unfold departs, arrives. intros Hd%is_pos_lt [Hs _]. apply andb_true_iff. split.
  - apply negb_true_iff, not_true_iff_false. intros Hp%is_pos_lt. lra.
  - apply is_neg_lt. lra.
Qed.

(** The candidates of a pass are the eligible pairs of free sides. *)
Lemma candidates_eligible sides k opts taken method c : sides_ok sides →
  c ∈ candidates sides (part_at sides k) opts taken (extra_of method) ↔
  ∃ a b, sides !! from c = Some a ∧ sides !! to c = Some b ∧ side_key a = k ∧ side_key b = k ∧
    from c ∉ taken ∧ to c ∉ taken ∧ eligible sides opts method a b ∧
    c = candidate_for method (from c) (to c) a b.
Proof.
  intros Hok.
  assert (∀ i a, sides !! i = Some a → a ∈ sides) as Hin by (intros; by eapply list_elem_of_lookup_2).
  assert (∀ i a, sides !! i = Some a → ordinals_ok a) as Hord by (intros; eapply (ok_ordinals sides); eauto).
  split.
  - intros Hc. pose proof Hc as (_ & Hf & _ & Ht & _ & _ & Hg)%elem_of_candidates.
    destruct (candidate_sides _ _ _ _ _ _ Hok Hc) as (a & b & Ea & Eb & Ka & Kb & Hd & Hfit & He).
    destruct (side_key_inj sides a b) as [Hu Hi]; [eauto..|congruence|].
    assert (evidence method opts a b) as Hev by (eapply evidence_extra; eauto).
    exists a, b. split_and!; try done.
    + unfold eligible. split_and!; eauto. by apply is_pos_lt.
    + rewrite (extra_evidence method opts a b) in He by eauto.
      assert (refDistance c = (apart method a b).1) as Hr by congruence.
      rewrite (side_lookup _ _ _ Ea), (side_lookup _ _ _ Eb), gap_exact in Hg by (apply (ok_dates sides); eauto).
      unfold candidate_for. rewrite <- Hr. destruct c; simpl in *. by rewrite Hg.
  - intros (a & b & Ea & Eb & Ka & Kb & Hf & Ht & (Ha & Hb & _ & _ & Hpos & Hfit & Hev) & Ec).
    apply is_pos_lt in Hpos. apply elem_of_candidates. simpl.
    rewrite (side_lookup _ _ _ Ea), (side_lookup _ _ _ Eb).
    split_and!; try done.
    + apply elem_of_chosen. eauto.
    + apply elem_of_chosen. exists b. split_and!; [done..|]. by eapply fits_arrives.
    + apply pairable_fits; [by apply (ok_dates sides)..|done].
    + rewrite (extra_evidence method opts a b) by eauto. by rewrite Ec.
    + rewrite gap_exact by (apply (ok_dates sides); done). by rewrite Ec.
Qed.

(** The lexicographic order of distances. *)
Definition closer (x y : Z * Z) : Prop := (x.1 < y.1 ∨ (x.1 = y.1 ∧ x.2 < y.2))%Z.

Lemma closer_rank method i j a b i' j' a' b' :
  closer (apart method a b) (apart method a' b') →
  rank (candidate_for method i j a b) (candidate_for method i' j' a' b') = Lt.
Proof.
  unfold closer, rank, cmp_on, cmp_lex. cbn [candidate_for refDistance dateGap fst snd]. intros [Hlt|[-> Hlt]].
  - by rewrite (proj2 (Z.compare_lt_iff _ _)).
  - rewrite Z.compare_refl. by apply Z.compare_lt_iff.
Qed.

(** [a] and [b] are nearer each other than either is to any other side. *)
Definition nearest_pair sides opts method a b : Prop :=
  ∀ a' b', eligible sides opts method a' b' → a' = a ∨ b' = b → (a', b') ≠ (a, b) →
    closer (apart method a b) (apart method a' b').

Lemma pass_finds sides k opts taken method a b i j :
  sides_ok sides → sides !! i = Some a → sides !! j = Some b → side_key a = k → side_key b = k →
  eligible sides opts method a b → nearest_pair sides opts method a b → i ∉ taken → j ∉ taken →
  candidate_for method i j a b ∈ (pass sides k opts taken (extra_of method)).1.
Proof.
  intros Hok Ea Eb Ka Kb He Hn Hi Hj. apply pass_takes.
  - apply candidates_eligible; [done|]. exists a, b. done.
  - intros o Ho Hne Hsh. apply candidates_eligible in Ho as (a' & b' & Ea' & Eb' & _ & _ & _ & _ & He' & Eo); [|done].
    rewrite Eo. apply closer_rank, Hn; [done| |].
    + destruct Hsh as [E|E]; simpl in E; rewrite E in *; [left|right]; congruence.
    + intros [= -> ->]. apply Hne. rewrite Eo.
      rewrite (side_id_inj sides (from o) i a a), (side_id_inj sides (to o) j b b); done.
Qed.

(** [Match] finds what is there to be found.  Two sides that fit and have a method's
    evidence, and that are strictly nearer each other than either is to any other side
    it could be paired with by that method, are linked, under that method: by POINTER
    always, and by REFERENCE when no pointer could have paired either of them. *)
Theorem match_takes_nearest sides opts method a b :
  sides_ok sides → method = TransferMatchPointer ∨ method = TransferMatchReference →
  eligible sides opts method a b → nearest_pair sides opts method a b →
  (method = TransferMatchReference → ∀ a' b', eligible sides opts TransferMatchPointer a' b' → a' ≠ a ∧ b' ≠ b) →
  {| Ledger.tm_user := s_UserID a; Ledger.tm_from := s_GroupID a; Ledger.tm_to := s_GroupID b;
     Ledger.tm_instrument := s_InstrumentID a; Ledger.tm_method := method |} ∈ Match_ sides opts.
Proof.
  intros Hok Hm He Hn Hfree. pose proof He as (Ha & Hb & Hu & Hi & _).
  pose proof Ha as [i Ea]%list_elem_of_lookup. pose proof Hb as [j Eb]%list_elem_of_lookup.
  assert (side_key b = side_key a) as Kb by (unfold side_key; congruence).
  rewrite match_picked. apply list_elem_of_fmap. exists (method, candidate_for method i j a b). split.
  { unfold link. simpl. by rewrite (side_lookup _ _ _ Ea), (side_lookup _ _ _ Eb). }
  apply elem_of_bind. exists (side_key a). split.
  2: { apply elem_of_order_of, list_elem_of_fmap. eauto. }
  unfold picked. rewrite elem_of_app, !list_elem_of_fmap. destruct Hm as [->| ->]; [left|right].
  - eexists. split; [done|]. apply (pass_finds _ _ _ _ TransferMatchPointer); done.
  - eexists. split; [done|]. unfold second_pass.
    destruct (first_pass sides opts (side_key a)) as [o1 t1] eqn:E1. unfold first_pass in E1.
    apply pass_spec in E1 as (Hin & _ & _ & Ht). simpl.
    assert (∀ c, c ∈ o1 → from c ≠ i ∧ to c ≠ j ∧ from c ≠ j ∧ to c ≠ i) as Hout.
    { intros c Hc%Hin. change (@pointerFeasible D) with (extra_of TransferMatchPointer) in Hc.
      apply candidates_eligible in Hc as (a' & b' & Ea' & Eb' & _ & _ & _ & _ & He' & _); [|done].
      destruct (Hfree eq_refl a' b' He') as [Hna Hnb].
      destruct He as (_ & _ & _ & _ & Hp & (Hs & _) & _), He' as (_ & _ & _ & _ & Hp' & (Hs' & _) & _).
      split_and!; intros <-; simplify_eq; first [done|lra]. }
    apply (pass_finds _ _ _ _ TransferMatchReference); try done; intros [?|Hi']%Ht; try set_solver;
      apply elem_of_ends in Hi' as (c & Hc & Hic); apply Hout in Hc; naive_solver.
Qed.
End found.

(** ** The order of the sides does not matter *)

Section relabelling.
Context {D : Type} `{DecimalLaws D} (r : nat → nat) `{!Inj (=) (=) r}.
Implicit Types (sides : list (TransferSide D)) (T B : gset nat).

Definition relabel (c : candidate) : candidate :=
  {| from := r (from c); to := r (to c); refDistance := refDistance c; dateGap := dateGap c |}.

#[local] Instance relabel_inj : Inj (=) (=) relabel.
Proof. intros [f t d g] [f' t' d' g'] [= Hf%(inj r) Ht%(inj r) -> ->]. by subst. Qed.

Definition image T : gset nat := set_map r T.

Lemma elem_of_image T i : r i ∈ image T ↔ i ∈ T.
Proof.
  unfold image. rewrite elem_of_map. split; [|by exists i]. by intros (j & ->%(inj r) & Hj).
Qed.

Lemma image_pair f t T : {[ r f; r t ]} ∪ image T = image ({[ f; t ]} ∪ T).
Proof. unfold image. by rewrite !set_map_union_L, !set_map_singleton_L. Qed.

Lemma ambiguous_relabel rest c (skip skip' : nat → bool) :
  (∀ i, skip' (r i) = skip i) → ambiguous (relabel <$> rest) (relabel c) skip' = ambiguous rest c skip.
Proof.
  intros Hs. induction rest as [|o rest IH]; [done|]. rewrite fmap_cons. simpl.
  change (ties (relabel o) (relabel c)) with (ties o c). rewrite !Hs, IH.
  assert (∀ x y, (r x =? r y) = (x =? y)) as Hr.
  { intros x y. destruct (Nat.eqb_spec x y) as [->|Hne]; [apply Nat.eqb_refl|].
    apply Nat.eqb_neq. by intros ?%(inj r). }
  by rewrite !Hr.
Qed.

Lemma take_best_relabel cands T B :
  take_best (relabel <$> cands) (image T) (image B) =
  (relabel <$> (take_best cands T B).1, image (take_best cands T B).2).
Proof.
  revert T B. induction cands as [|c rest IH]; intros T B; [done|]. rewrite fmap_cons. simpl.
  assert (∀ i, bool_decide (r i ∈ image T) || bool_decide (r i ∈ image B)
             = bool_decide (i ∈ T) || bool_decide (i ∈ B)) as Hskip.
  { intros i. f_equal; apply bool_decide_ext, elem_of_image. }
  rewrite !Hskip, (ambiguous_relabel rest c _ _ Hskip), !image_pair, !IH.
  destruct (_ || _); [done|]. destruct (ambiguous _ _ _); [done|].
  by destruct (take_best rest _ B) as [o t].
Qed.

Context (sides sides' : list (TransferSide D)) (Hok' : sides_ok sides').
Hypothesis Hperm : sides ≡ₚ sides'.
Hypothesis Hr : ∀ i, sides !! i = sides' !! r i.

Lemma side_relabel i : side sides' (r i) = side sides i.
Proof using Hr. unfold side. by rewrite Hr. Qed.

Lemma elem_of_chosen_relabel P k i :
  i ∈ chosen P k sides' ↔ ∃ j, i = r j ∧ j ∈ chosen P k sides.
Proof using Hok' Hperm Hr.
  rewrite elem_of_chosen. split.
  - intros (s & Es & Hk & HP). pose proof (list_elem_of_lookup_2 _ _ _ Es) as Hin. rewrite <- Hperm in Hin.
    apply list_elem_of_lookup in Hin as [j Ej]. exists j. split.
    + rewrite Hr in Ej. by eapply (side_id_inj sides' i (r j) s s).
    + apply elem_of_chosen. eauto.
  - intros (j & -> & (s & Es & Hk & HP)%elem_of_chosen). rewrite Hr in Es. eauto.
Qed.

Lemma candidates_relabel k opts T (extra : feasible) :
  candidates sides' (part_at sides' k) opts (image T) extra
  ≡ₚ relabel <$> candidates sides (part_at sides k) opts T extra.
Proof using H0 Inj0 Hok' Hperm Hr.
  apply NoDup_Permutation.
  - apply candidates_NoDup.
  - apply (NoDup_fmap_2 relabel), candidates_NoDup.
  - intros c. rewrite list_elem_of_fmap. setoid_rewrite elem_of_candidates. simpl.
    rewrite !elem_of_chosen_relabel. split.
    + intros ((f & Ef & Hf) & Hft & (t & Et & Ht) & Htt & Hrest).
      exists {| from := f; to := t; refDistance := refDistance c; dateGap := dateGap c |}. simpl.
      rewrite Ef, Et, !side_relabel in Hrest. rewrite Ef, elem_of_image in Hft. rewrite Et, elem_of_image in Htt.
      split; [destruct c; simpl in *; by subst|done].
    + intros (c' & -> & Hf & Hft & Ht & Htt & Hrest). simpl. rewrite !side_relabel, !elem_of_image. eauto 10.
Qed.

Lemma better_relabel c o : better_cmp sides' (relabel c) (relabel o) = better_cmp sides c o.
Proof using Hr. unfold better_cmp, cmp_on. simpl. by rewrite !side_relabel. Qed.

(** Candidates of one partition that the ranking cannot tell apart are one candidate. *)
Lemma better_ties k opts T (extra : feasible) x y :
  x ∈ candidates sides' (part_at sides' k) opts T extra →
  y ∈ candidates sides' (part_at sides' k) opts T extra →
  better_cmp sides' x y = Eq → x = y.
Proof using H0 Hok' Inj0 r.
  intros (Hxf & _ & Hxt & _ & _ & _ & _)%elem_of_candidates (Hyf & _ & Hyt & _ & _ & _ & _)%elem_of_candidates.
  simpl in *. apply elem_of_chosen in Hxf as (a & Ea & Ka & _), Hxt as (b & Eb & Kb & _),
    Hyf as (a' & Ea' & Ka' & _), Hyt as (b' & Eb' & Kb' & _).
  unfold better_cmp, cmp_on, cmp_lex. cbn [fst snd].
  destruct (refDistance x ?= refDistance y)%Z eqn:E1; [|done..].
  destruct (dateGap x ?= dateGap y)%Z eqn:E2; [|done..].
  rewrite (side_lookup _ _ _ Ea), (side_lookup _ _ _ Eb), (side_lookup _ _ _ Ea'), (side_lookup _ _ _ Eb').
  destruct (String.compare (s_GroupID a) (s_GroupID a')) eqn:E3; [|done..]. intros E4.
  apply Z.compare_eq in E1, E2. apply String.compare_eq_iff in E3, E4.
  assert (∀ i j s s', sides' !! i = Some s → sides' !! j = Some s' → side_key s = k → side_key s' = k →
    s_GroupID s = s_GroupID s' → i = j) as Hsame.
  { intros i j s s' Es Es' Ks Ks' Eg. apply (side_id_inj sides' i j s s'); [done..|].
    destruct (side_key_inj sides' s s') as [_ Ei]; [done|by eapply list_elem_of_lookup_2..|congruence|].
    unfold side_id. congruence. }
  destruct x, y; simpl in *. subst. f_equal; eauto.
Qed.

Lemma ranked_relabel k opts T (extra : feasible) :
  ranked sides' (part_at sides' k) opts (image T) extra = relabel <$> ranked sides (part_at sides k) opts T extra.
Proof using H0 Inj0 Hok' Hperm Hr.
  unfold ranked. symmetry.
  apply (go_sort_unique_sorted (betterThan sides') (better_cmp sides') (transfer_better_cmp sides')).
  - intros x y. apply better_ties.
  - pose proof (go_sort_sorted (betterThan sides) (better_cmp sides) (transfer_better_cmp sides)
      (candidates sides (part_at sides k) opts T extra)) as Hs.
    induction Hs as [|c l Hl IH Hc]; [constructor|]. rewrite fmap_cons. constructor; [done|].
    apply Forall_fmap. eapply Forall_impl; [exact Hc|]. intros o. unfold compose. by rewrite better_relabel.
  - by rewrite candidates_relabel, go_sort_perm.
Qed.

Lemma pass_relabel k opts T (extra : feasible) :
  pass sides' k opts (image T) extra = (relabel <$> (pass sides k opts T extra).1, image (pass sides k opts T extra).2).
Proof using H0 Inj0 Hok' Hperm Hr.
  unfold pass. rewrite ranked_relabel. rewrite <- take_best_relabel. by replace (image ∅) with (∅ : gset nat).
Qed.

Lemma picked_relabel opts k :
  (λ mc, link sides' mc.1 mc.2) <$> picked sides' opts k = (λ mc, link sides mc.1 mc.2) <$> picked sides opts k.
Proof using H0 Inj0 Hok' Hperm Hr.
  assert (first_pass sides' opts k = (relabel <$> (first_pass sides opts k).1, image (first_pass sides opts k).2)) as E1.
  { unfold first_pass. rewrite <- pass_relabel. by replace (image ∅) with (∅ : gset nat). }
  unfold picked, second_pass. rewrite E1. simpl. rewrite pass_relabel. simpl.
  rewrite !fmap_app, <- !list_fmap_compose. f_equal; apply list_fmap_ext; intros _ c _;
    unfold compose, link; simpl; by rewrite !side_relabel.
Qed.
End relabelling.
Lemma bind_fmap_out {A B C} (g : B → C) (f : A → list B) l : l ≫= (λ x, g <$> f x) = g <$> (l ≫= f).
Proof. induction l as [|x l IH]; [done|]. by rewrite !bind_cons, fmap_app, IH. Qed.

Lemma existsb_orb {A} (f g : A → bool) l : existsb (λ x, f x || g x) l = existsb f l || existsb g l.
Proof. induction l as [|x l IH]; [done|]. simpl. rewrite IH. by destruct (f x), (g x), (existsb f l). Qed.

Section results.
Context {D : Type} `{DecimalLaws D} (uuid_ok : string → bool).
Implicit Types (sides : list (TransferSide D)) (ms : list TransferMatch).

Lemma sides_ok_sub sides sides' : sides_ok sides → (∃ k, sides ≡ₚ sides' ++ k) → sides_ok sides'.
Proof.
  intros Hok [k Hk].
  assert (∀ s, s ∈ sides' → s ∈ sides) as Hin by (intros s Hs; rewrite Hk; set_solver).
  split.
  - pose proof (ok_ids _ Hok) as Hn. rewrite Hk, fmap_app in Hn. by apply NoDup_app in Hn as [? _].
  - intros s Hs. by apply (ok_users sides), Hin.
  - intros a b Ha Hb. apply (ok_dates sides); eauto.
  - intros s Hs. by apply (ok_ordinals sides), Hin.
Qed.

Lemma sides_ok_perm sides sides' : sides ≡ₚ sides' → sides_ok sides → sides_ok sides'.
Proof. intros Hp Hok. apply (sides_ok_sub sides); [done|]. exists []. by rewrite app_nil_r. Qed.

(** [Match] is deterministic in its evidence: the same sides in any order give the
    same links.  Neither the order of rows, nor the order partitions are visited in, nor
    the group ids that break a tie in the ranking decide who is paired. *)
Theorem match_order_invariant sides sides' opts :
  sides_ok sides → sides ≡ₚ sides' → Match_ sides opts ≡ₚ Match_ sides' opts.
Proof.
  intros Hok Hp. pose proof (sides_ok_perm _ _ Hp Hok) as Hok'.
  pose proof Hp as (_ & r & Hinj & Hr)%Permutation_inj. rewrite !match_picked.
  rewrite <- !(bind_fmap_out (λ mc, link sides mc.1 mc.2)), <- (bind_fmap_out (λ mc, link sides' mc.1 mc.2)).
  apply bind_perm.
  - intros k _. by rewrite (picked_relabel r sides sides').
  - apply NoDup_Permutation; [apply order_of_NoDup..|]. intros k. by rewrite !elem_of_order_of, Hp.
Qed.

(** ** The table of links *)

(** No side is named twice, in either direction. *)
Definition matches_ok ms : Prop := NoDup (ms ≫= link_sides).

Lemma names_side_elem g i m : names_side g i m = true ↔ (g, i) ∈ link_sides m.
Proof.
  unfold names_side, link_sides. rewrite andb_true_iff, orb_true_iff, !String.eqb_eq, !elem_of_cons, elem_of_nil.
  naive_solver.
Qed.

Lemma unnamed g i ms : existsb (names_side g i) ms = false ↔ (g, i) ∉ ms ≫= link_sides.
Proof.
  rewrite <- not_true_iff_false, existsb_exists, elem_of_bind. setoid_rewrite <- list_elem_of_In.
  setoid_rewrite names_side_elem. naive_solver.
Qed.

Lemma insert_guard m ms :
  existsb (λ x, names_side (Ledger.tm_from m) (Ledger.tm_instrument m) x
    || names_side (Ledger.tm_to m) (Ledger.tm_instrument m) x) ms = false ↔
  ∀ x, x ∈ link_sides m → x ∉ ms ≫= link_sides.
Proof.
  rewrite existsb_orb, orb_false_iff, !unnamed. unfold link_sides at 3. setoid_rewrite elem_of_cons.
  setoid_rewrite list_elem_of_singleton. naive_solver.
Qed.

Lemma matches_ok_snoc m ms : Ledger.tm_from m ≠ Ledger.tm_to m →
  (∀ x, x ∈ link_sides m → x ∉ ms ≫= link_sides) → matches_ok ms → matches_ok (ms ++ [m]).
Proof.
  intros Hne Hg Hms. unfold matches_ok. rewrite bind_app. change ([m] ≫= link_sides) with (link_sides m).
  apply NoDup_app. split_and!; [done|intros x Hx Hm; by apply (Hg x)|].
  constructor; [|apply NoDup_singleton]. rewrite list_elem_of_singleton. congruence.
Qed.

Lemma insert_ok m ms ms' n : matches_ok ms → insertTransferMatch uuid_ok ms m = Some (ms', n) →
  matches_ok ms' ∧ ∃ new, ms' = ms ++ new ∧ length new = n.
Proof.
  intros Hms. unfold insertTransferMatch. destruct (negb (forallb _ _)); [done|].
  destruct (existsb _ ms) eqn:Eg.
  { intros [= <- <-]. split; [done|]. exists []. by rewrite app_nil_r. }
  destruct (String.eqb_spec (Ledger.tm_from m) (Ledger.tm_to m)); [done|]. intros [= <- <-].
  split; [|by eexists]. apply matches_ok_snoc; [done| |done]. by apply insert_guard.
Qed.

(** The links a matcher proposes are all written when none names a side twice or one
    named already. *)
Lemma create_all new ms :
  (∀ m, m ∈ new → forallb uuid_ok [Ledger.tm_user m; Ledger.tm_from m; Ledger.tm_to m; Ledger.tm_instrument m] = true) →
  NoDup ((ms ++ new) ≫= link_sides) →
  CreateTransferMatches uuid_ok new ms = Some (ms ++ new, length new).
Proof.
  unfold CreateTransferMatches. change (length new) with (0 + length new). generalize 0 as n.
  revert ms. induction new as [|m new IH]; intros ms n Hu Hnd; [by rewrite app_nil_r, Nat.add_0_r|].
  cbn [foldl]. unfold insertTransferMatch at 2. rewrite Hu by by left. cbn [negb mbind option_bind].
  pose proof Hnd as Hnd2. rewrite bind_app, bind_cons in Hnd2.
  apply NoDup_app in Hnd2 as (_ & Hdis & Hm). apply NoDup_app in Hm as (Hm & _).
  rewrite (proj2 (insert_guard m ms)) by (intros x Hx Hx'; apply (Hdis x Hx'), elem_of_app; by left).
  destruct (String.eqb_spec (Ledger.tm_from m) (Ledger.tm_to m)) as [E|_].
  { unfold link_sides in Hm. rewrite E in Hm. apply NoDup_cons in Hm as [Hm _]. destruct Hm. by left. }
  simpl. rewrite (cons_middle m ms new), app_assoc, IH.
  - f_equal. f_equal. simpl. lia.
  - intros. apply Hu. by right.
  - by rewrite <- app_assoc.
Qed.

Lemma create_ok new ms ms' n : matches_ok ms → CreateTransferMatches uuid_ok new ms = Some (ms', n) → matches_ok ms'.
Proof.
  intros Hms. unfold CreateTransferMatches.
  assert (∀ acc, (∀ ms' n, acc = Some (ms', n) → matches_ok ms') →
    foldl (λ acc m, '(ms, written) ← acc; '(ms, n) ← insertTransferMatch uuid_ok ms m; Some (ms, written + n)) acc new
      = Some (ms', n) → matches_ok ms') as Hgen.
  { induction new as [|m new IH]; intros acc Hacc; [apply Hacc|]. apply IH. intros ms1 n1.
    destruct acc as [[ms0 n0]|]; [|done]. cbn [mbind option_bind].
    destruct (insertTransferMatch uuid_ok ms0 m) as [[ms2 n2]|] eqn:Ei; [|done].
    intros [= <- _]. apply insert_ok in Ei as [? _]; [done|by eapply Hacc]. }
  apply Hgen. by intros ? ? [= <- _].
Qed.

Lemma matches_ok_filter (P : TransferMatch → Prop) `{∀ m, Decision (P m)} ms :
  matches_ok ms → matches_ok (filter P ms).
Proof.
  unfold matches_ok. induction ms as [|m ms IH]; [done|]. rewrite bind_cons, NoDup_app, filter_cons.
  intros (Hm & Hdis & Hms). destruct (decide (P m)); [|by apply IH].
  rewrite bind_cons. apply NoDup_app. split_and!; [done| |by apply IH].
  intros x Hx Hx2. apply (Hdis x Hx). apply elem_of_bind in Hx2 as (m' & ? & [_ ?]%list_elem_of_filter).
  apply elem_of_bind. eauto.
Qed.

(** How the table changes: a cycle over whatever sides are stored, and the removal of the
    links of groups that changed or went away ([Ledger.deleteTouchedMatches]). *)
Inductive links_step : list TransferMatch → list TransferMatch → Prop :=
  | step_cycle (clearing : list (TransferSide D)) ms ms' n :
      runCycle uuid_ok clearing ms = Some (ms', n) → links_step ms ms'
  | step_delete (ids : gset string) (l : Ledger.ledger D) :
      links_step (Ledger.transfer_matches l) (Ledger.transfer_matches (Ledger.deleteTouchedMatches ids l)).

Lemma cycle_ok (clearing : list (TransferSide D)) ms ms' n :
  matches_ok ms → runCycle uuid_ok clearing ms = Some (ms', n) → matches_ok ms'.
Proof.
  intros Hms. unfold runCycle. destruct (ListUnmatchedTransferSides _ _ _) as [|s sides]; [by intros [= <- _]|].
  destruct (Match_ _ _) as [|m new]; [by intros [= <- _]|]. by apply create_ok.
Qed.

Definition side_uuids (s : TransferSide D) : bool :=
  forallb uuid_ok [s_UserID s; s_GroupID s; s_InstrumentID s].

Lemma unmatched_sides (clearing : list (TransferSide D)) ms : sides_ok clearing →
  sides_ok (ListUnmatchedTransferSides EmptyString clearing ms) ∧
  (∀ s, s ∈ ListUnmatchedTransferSides EmptyString clearing ms ↔ s ∈ clearing ∧ side_id s ∉ ms ≫= link_sides).
Proof.
  intros Hok. unfold ListUnmatchedTransferSides. split.
  - eapply (sides_ok_perm); [symmetry; apply go_sort_perm|]. apply (sides_ok_sub clearing); [done|].
    eexists. symmetry. apply filter_app_complement.
  - intros s. rewrite elem_of_go_sort, list_elem_of_filter, unnamed. unfold side_id. naive_solver.
Qed.

(** C15: However the table of links came about, no side of a transfer is in two of them,
    in either direction; and a cycle over well-formed sides succeeds, keeps every link
    there is and writes every link [Match] proposes for the sides still unmatched: the
    guard of the insert refuses none of them. *)
Theorem transfer_links_unique ms :
  rtc links_step [] ms →
  matches_ok ms ∧
  ∀ clearing : list (TransferSide D), sides_ok clearing → forallb side_uuids clearing = true →
    let new := Match_ (ListUnmatchedTransferSides EmptyString clearing ms) DefaultOpts in
    runCycle uuid_ok clearing ms = Some (ms ++ new, length new) ∧ matches_ok (ms ++ new).
Proof.
  intros Hr. assert (matches_ok ms) as Hms.
  { assert (matches_ok []) as H1 by constructor. clear -Hr H1. induction Hr as [|? ? ? Hs _ IH]; [done|].
    apply IH. destruct Hs; [by eapply cycle_ok|by apply matches_ok_filter]. }
  split; [done|]. intros clearing Hok Hu new.
  destruct (unmatched_sides clearing ms Hok) as [Hok' Hin]. unfold runCycle, new.
  set (sides := ListUnmatchedTransferSides EmptyString clearing ms) in *. clearbody sides.
  pose proof (match_sides sides DefaultOpts Hok') as (Hsound & Hnd).
  assert (NoDup ((ms ++ Match_ sides DefaultOpts) ≫= link_sides)) as Hall.
  { rewrite bind_app. apply NoDup_app. split_and!; [done| |done]. intros x Hx Hx2.
    apply elem_of_bind in Hx2 as (m & Hxm & Hm). destruct (Hsound m Hm) as (a & b & Ha & Hb & _ & Ea & Eb).
    unfold link_sides in Hxm. rewrite <- Ea, <- Eb in Hxm.
    apply Hin in Ha as [_ Ha], Hb as [_ Hb]. rewrite !elem_of_cons, elem_of_nil in Hxm.
    destruct Hxm as [->|[->|[]]]; done. }
  split; [|done].
  assert (CreateTransferMatches uuid_ok (Match_ sides DefaultOpts) ms
    = Some (ms ++ Match_ sides DefaultOpts, length (Match_ sides DefaultOpts))) as Hc.
  { apply create_all; [|done]. intros m Hm. destruct (Hsound m Hm) as (a & b & Ha & Hb & Eu & Ea & Eb).
    apply Hin in Ha as [Ha _], Hb as [Hb _]. apply (forallb_elem _ _ _ Hu) in Ha, Hb.
    unfold side_uuids, side_id in *. injection Ea as Ea1 Ea2. injection Eb as Eb1 Eb2.
    simpl in *. rewrite <- Eu, <- Ea1, <- Eb1, <- Ea2. revert Ha Hb. rewrite !andb_true_iff. naive_solver. }
  destruct sides as [|s sides]; [by rewrite app_nil_r|].
  destruct (Match_ (s :: sides) DefaultOpts) as [|m new']; [by rewrite app_nil_r|exact Hc].
Qed.
End results.

(** ** Concrete inputs *)

Section witnesses.
#[local] Existing Instances QDecimal.q_decimal QDecimal.q_decimal_laws.

Definition sample_side (group account : string) (amount : Q) (ordinal : Z) (pointer : option string) : TransferSide Q := {|
  s_UserID := "user"; s_GroupID := group; s_Broker := FIDELITY; s_Account := account; s_InstrumentID := "usd";
  s_Amount := amount; s_OrderDate := 0;
  s_Correlations :=
    {| Label := "ref"; Token := EmptyString; Ordinal := Some ordinal; Scope := ScopeBroker; Match := [MatchOrdinal];
       OrdinalSpan := None; CorrJobID := EmptyString |}
    :: match pointer with
       | None => []
       | Some p => [ {| Label := "to"; Token := p; Ordinal := None; Scope := ScopeBroker; Match := [MatchAccount];
                        OrdinalSpan := None; CorrJobID := EmptyString |} ]
       end |}.

(** A journal one side of which names the other's account, and one only the references
    tell. *)
Definition sample_sides : list (TransferSide Q) :=
  [ sample_side "g1" "one" 10%Q 100 None; sample_side "g2" "two" (-10)%Q 500 (Some "ONE");
    sample_side "g3" "one" 7%Q 200 None; sample_side "g4" "two" (-7)%Q 203 None ].

Definition sample_link (f t method : string) : TransferMatch := {|
  Ledger.tm_user := "user"; Ledger.tm_from := f; Ledger.tm_to := t; Ledger.tm_instrument := "usd";
  Ledger.tm_method := method |}.

Definition samples_ok (sides : list (TransferSide Q)) : bool :=
  bool_decide (NoDup (side_id <$> sides)) &&
  forallb (λ s, no_nul (s_UserID s) && bool_decide (Forall ordinal_ok (ordinals (s_Correlations s)))
                && (s_OrderDate s =? 0)%Z) sides.

Lemma samples_sides_ok sides : samples_ok sides = true → sides_ok sides.
Proof.
  unfold samples_ok. rewrite andb_true_iff, bool_decide_eq_true. intros [Hnd Hall].
  pose proof (λ s, forallb_elem _ _ s Hall) as Hs. setoid_rewrite andb_true_iff in Hs.
  setoid_rewrite andb_true_iff in Hs. setoid_rewrite bool_decide_eq_true in Hs. setoid_rewrite Z.eqb_eq in Hs.
  split; [done|..].
  - intros s Hin. by apply Hs.
  - intros a b Ha Hb. destruct (Hs a Ha) as [_ Ea], (Hs b Hb) as [_ Eb]. unfold dates_ok. rewrite Ea, Eb. by vm_compute.
  - intros s Hin. by apply Hs.
Qed.

Lemma sample_matches :
  Match_ sample_sides DefaultOpts = [sample_link "g1" "g2" "POINTER"; sample_link "g3" "g4" "REFERENCE"].
Proof. by vm_compute. Qed.

Lemma match_sound_witness :
  NoDup ([sample_link "g1" "g2" "POINTER"; sample_link "g3" "g4" "REFERENCE"] ≫= link_sides).
Proof.
  rewrite <- sample_matches. apply (match_sound sample_sides DefaultOpts). by apply samples_sides_ok.
Defined.

Lemma match_order_invariant_witness :
  Match_ (reverse sample_sides) DefaultOpts ≡ₚ [sample_link "g1" "g2" "POINTER"; sample_link "g3" "g4" "REFERENCE"].
Proof.
  rewrite <- sample_matches. symmetry.
  apply (match_order_invariant sample_sides (reverse sample_sides) DefaultOpts); [by apply samples_sides_ok|].
  by rewrite reverse_Permutation.
Defined.

Lemma match_takes_nearest_witness :
  sample_link "g1" "g2" "POINTER" ∈ Match_ sample_sides DefaultOpts.
Proof.
  apply (match_takes_nearest sample_sides DefaultOpts TransferMatchPointer
    (sample_side "g1" "one" 10%Q 100 None) (sample_side "g2" "two" (-10)%Q 500 (Some "ONE"))).
  - by apply samples_sides_ok.
  - by left.
  - unfold eligible. split_and!; [by left|by right; left|done|done|done| |].
    + unfold fits. split_and!; [done|by intros [_ ?]|done].
    + split; [done|]. by right.
  - intros a b (Ha & Hb & _ & _ & Hp & (Hs & _) & _) Hsh Hne. exfalso. apply Hne. clear Hne.
    unfold sample_sides in Ha, Hb. rewrite !elem_of_cons, elem_of_nil in Ha, Hb.
    destruct Ha as [->|[->|[->|[->|[]]]]], Hb as [->|[->|[->|[->|[]]]]]; try reflexivity;
      exfalso; first [by vm_compute in Hs|by vm_compute in Hp|by destruct Hsh].
  - done.
Defined.

Lemma transfer_links_unique_witness :
  runCycle (λ _, true) sample_sides [sample_link "g3" "g4" "REFERENCE"]
    = Some ([sample_link "g3" "g4" "REFERENCE"; sample_link "g1" "g2" "POINTER"], 1) ∧
  matches_ok [sample_link "g3" "g4" "REFERENCE"; sample_link "g1" "g2" "POINTER"].
Proof.
  assert (runCycle (λ _, true) (drop 2 sample_sides) [] = Some ([sample_link "g3" "g4" "REFERENCE"], 1)) as E1
    by by vm_compute.
  destruct (transfer_links_unique (D:=Q) (λ _, true) [sample_link "g3" "g4" "REFERENCE"]) as [_ Hc].
  { eapply rtc_l; [by eapply step_cycle|apply rtc_refl]. }
  apply (Hc sample_sides); [by apply samples_sides_ok|by vm_compute].
Defined.

(** A second cycle over unchanged data can write a link.  One departure is as near one
    arrival as another and sits out; the tie is broken when the second arrival is paired
    with a departure of its own, and the next cycle no longer sees it. *)
Definition torn_sides : list (TransferSide Q) :=
  [ sample_side "a" "one" 5%Q 10 None; sample_side "b" "three" 5%Q 7 None;
    sample_side "x" "two" (-5)%Q 11 None; sample_side "y" "two" (-5)%Q 9 None ].

Lemma rerun_links_more :
  runCycle (λ _, true) torn_sides [] = Some ([sample_link "b" "y" "REFERENCE"], 1) ∧
  runCycle (λ _, true) torn_sides [sample_link "b" "y" "REFERENCE"]
    = Some ([sample_link "b" "y" "REFERENCE"; sample_link "a" "x" "REFERENCE"], 1).
Proof. by vm_compute. Qed.

(** Two dates more than 292 years apart pass for near ones: the difference saturates at
    the least duration, whose negation is itself. *)
Lemma gap_of_far_dates : gap min_int64 max_int64 = min_int64.
Proof. by vm_compute. Qed.
End witnesses.
End Transfer.
