(* ===== verification/Derivative.v ===== *)
(** * Option symbols

    server/derivative/parse.go: reading the three spellings of an option ticker, building
    an OCC symbol from its parts, its compact and padded forms, and moving a strike by a
    split factor.

    The regular expressions are written out as the matches they are: each is a sequence
    of classes of characters disjoint from what follows, so it matches in one way.
    [parse_dec] is [decimal.NewFromString]. *)

From Stdlib Require Import QArith Qround Qabs Lqa Ascii.
From stdpp Require Import pretty.
From S2P Require Import Prelude GoStrings Calendar Decimal.

Local Open Scope nat_scope.

Module Derivative.
Import GoStrings Calendar.

Definition FormatOCC : string := "OCC".
Definition FormatClassic : string := "Classic".
Definition FormatCompact : string := "Compact".

Record ParsedOption {D : Type} := {
  Format : string;
  Symbol : string;
  ExchangeHint : string;
  Expiry : Z;
  PutCall : string;
  Strike : D;
}.
#[global] Arguments ParsedOption : clear implicits.

Definition StrikeScale : Z := 3.
Definition occSuffixLen : nat := 15.
Definition maxOCCStrike : Z := 99999999.

(** ** Numbers as text *)

Definition digit (d : Z) : ascii := ascii_of_nat (48 + Z.to_nat d).

(** The last [w] digits of a number. *)
Fixpoint digits (w : nat) (n : Z) : string :=
  match w with
  | O => EmptyString
  | S w => digits w (n `div` 10) +:+ String (digit (n `mod` 10)) EmptyString
  end.

(** [fmt.Sprintf("%0wd", n)] *)
Definition pad0 (w : nat) (n : Z) : string :=
  if (n <? 0)%Z then "-" +:+ (if (10 ^ Z.of_nat (w - 1) <=? - n)%Z then pretty (- n)%Z else digits (w - 1) (- n))
  else if (10 ^ Z.of_nat w <=? n)%Z then pretty n else digits w n.

(** [strconv.Atoi] on decimal digits. *)
Fixpoint atoi_loop (acc : Z) (s : string) : option Z :=
  match s with
  | EmptyString => Some acc
  | String a s' => if is_digit a then atoi_loop (10 * acc + (Z.of_nat (nat_of_ascii a) - 48)) s' else None
  end.

Definition Atoi (s : string) : option Z :=
  if String.eqb s EmptyString then None
  else n ← atoi_loop 0 s; if (n <=? max_int64)%Z then Some n else None.

(** ** Expressions *)

(** The class [\s]. *)
Definition re_space (a : ascii) : bool := is_space a && negb (nat_of_ascii a =? 11).

Definition is_cp (a : ascii) : bool := Ascii.eqb a "C" || Ascii.eqb a "P".

(** The class [[A-Z0-9\s]]. *)
Definition root_char (a : ascii) : bool := is_upper a || is_digit a || re_space a.

Fixpoint span (f : ascii → bool) (s : string) : string * string :=
  match s with
  | EmptyString => (EmptyString, EmptyString)
  | String a s' => if f a then let '(x, r) := span f s' in (String a x, r) else (EmptyString, s)
  end.

Definition between_len (lo hi : nat) (s : string) : bool := (lo <=? String.length s) && (String.length s <=? hi).

(** [occRe] *)
Definition occ_match (s : string) : option (string * string * string * string) :=
  if (String.length s =? 21) && sforall root_char (slice 0 6 s) && sforall is_digit (slice 6 12 s)
     && sforall is_cp (slice 12 13 s) && sforall is_digit (slice 13 21 s)
  then Some (slice 0 6 s, slice 6 12 s, slice 12 13 s, slice 13 21 s) else None.

(** [occSuffixRe] *)
Definition occ_suffix_match (s : string) : bool :=
  (String.length s =? 15) && sforall is_digit (slice 0 6 s) && sforall is_cp (slice 6 7 s)
  && sforall is_digit (slice 7 15 s).

(** [(\d+(?:\.\d+)?)$] *)
Definition strike_match (s : string) : bool :=
  let '(whole, r) := span is_digit s in
  (1 <=? String.length whole) &&
  match r with
  | EmptyString => true
  | String "." frac => (1 <=? String.length frac) && sforall is_digit frac
  | _ => false
  end.

(** [classicRe]: the symbol, month, day, year, put or call, and strike. *)
Definition classic_match (s : string) : option (string * string * string * string * string * string) :=
  let '(sym, r) := span is_upper s in
  let '(sp, r) := span re_space r in
  let '(mm, r) := span is_digit r in
  if negb (between_len 1 5 sym && (1 <=? String.length sp) && between_len 1 2 mm) then None else
  match r with
  | String "/" r =>
      let '(dd, r) := span is_digit r in
      if negb (between_len 1 2 dd) then None else
      match r with
      | String "/" r =>
          let '(yy, r) := span is_digit r in
          let '(sp, r) := span re_space r in
          if negb (between_len 2 2 yy && (1 <=? String.length sp)) then None else
          match r with
          | String a r =>
              let '(_, strike) := span re_space r in
              if is_cp a && strike_match strike
              then Some (sym, mm, dd, yy, String a EmptyString, strike) else None
          | EmptyString => None
          end
      | _ => None
      end
  | _ => None
  end.

(** [compactRe]: the symbol, date, put or call, and strike. *)
Definition compact_match (s : string) : option (string * string * string * string) :=
  let '(sym, r) := span is_upper s in
  let '(date, r) := span is_digit r in
  if negb (between_len 1 5 sym && between_len 8 8 date) then None else
  match r with
  | String a strike =>
      if is_cp a && strike_match strike then Some (sym, date, String a EmptyString, strike) else None
  | EmptyString => None
  end.

(** ** Dates *)

Definition valid_month_day (mm dd : Z) : bool :=
  negb ((mm <? 1)%Z || (12 <? mm)%Z || (dd <? 1)%Z || (31 <? dd)%Z).

Definition parseYYMMDD (yymmdd : string) : option Z :=
  if negb (String.length yymmdd =? 6) then None else
  yy ← Atoi (slice 0 2 yymmdd);
  mm ← Atoi (slice 2 4 yymmdd);
  dd ← Atoi (slice 4 6 yymmdd);
  let year := if (50 <=? yy)%Z then (1900 + yy)%Z else (2000 + yy)%Z in
  if valid_month_day mm dd then Some (Date year mm dd) else None.

Definition parseYYYYMMDD (yyyymmdd : string) : option Z :=
  if negb (String.length yyyymmdd =? 8) then None else
  yyyy ← Atoi (slice 0 4 yyyymmdd);
  mm ← Atoi (slice 4 6 yyyymmdd);
  dd ← Atoi (slice 6 8 yyyymmdd);
  if valid_month_day mm dd then Some (Date yyyy mm dd) else None.

(** ** OCC symbols *)

(** [strings.ReplaceAll(s, " ", "")] *)
Fixpoint remove_spaces (s : string) : string :=
  match s with
  | EmptyString => EmptyString
  | String a s' => if Ascii.eqb a " " then remove_spaces s' else String a (remove_spaces s')
  end.

(** [s[:len(s)-occSuffixLen]] and [s[len(s)-occSuffixLen:]] *)
Definition occ_root (s : string) : string := stake (String.length s - occSuffixLen) s.
Definition occ_suffix (s : string) : string := sdrop (String.length s - occSuffixLen) s.

Definition OCCCompact (occ : string) : option string :=
  let compact := remove_spaces (ToUpper (TrimSpace occ)) in
  if (String.length compact <? occSuffixLen + 1) || (occSuffixLen + 6 <? String.length compact) then None
  else if negb (occ_suffix_match (occ_suffix compact)) then None
  else Some compact.

Definition OCCExpiry (occ : string) : option Z :=
  compact ← OCCCompact occ;
  parseYYMMDD (slice 0 6 (occ_suffix compact)).

Fixpoint repeat_space (n : nat) : string :=
  match n with O => EmptyString | S n => String " " (repeat_space n) end.

Definition OCCPadded (occ : string) : option string :=
  compact ← OCCCompact occ;
  let root := occ_root compact in
  Some (root +:+ repeat_space (6 - String.length root) +:+ occ_suffix compact).

Section options.
Context {D : Type} `{Decimal D} (parse_dec : string → option D).

Definition parsed (format symbol : string) (expiry : Z) (putCall : string) (strike : D) : ParsedOption D := {|
  Format := format; Symbol := symbol; ExchangeHint := EmptyString; Expiry := expiry; PutCall := putCall;
  Strike := strike |}.

(** The branch on [occRe]; the outer [None] is no match. *)
Definition parse_padded (upper : string) : option (option (ParsedOption D)) :=
  match occ_match upper with
  | None => None
  | Some (m1, m2, m3, m4) => Some (
      let root := TrimSpace m1 in
      if String.eqb root EmptyString then None else
      expiry ← parseYYMMDD m2;
      strikeCents ← Atoi m4;
      Some (parsed FormatOCC root expiry m3 (dec_new strikeCents (- StrikeScale))))
  end.

(** The branch on [OCCCompact], which falls through when the date does not parse. *)
Definition parse_compact_occ (upper : string) : option (ParsedOption D) :=
  compact ← OCCCompact upper;
  let suffix := occ_suffix compact in
  expiry ← parseYYMMDD (slice 0 6 suffix);
  strikeCents ← Atoi (slice 7 15 suffix);
  Some (parsed FormatOCC (occ_root compact) expiry (slice 6 7 suffix) (dec_new strikeCents (- StrikeScale))).

Definition parse_classic (upper : string) : option (ParsedOption D) :=
  '(m1, m2, m3, m4, m5, m6) ← classic_match upper;
  let month := default 0%Z (Atoi m2) in
  let day := default 0%Z (Atoi m3) in
  let year := match Atoi m4 with
    | Some y => if (0 <=? y)%Z && (y <=? 99)%Z then if (50 <=? y)%Z then (1900 + y)%Z else (2000 + y)%Z else 2000%Z
    | None => 2000%Z
    end in
  Some (parsed FormatClassic m1 (Date year month day) m5 (default dec_zero (parse_dec m6))).

Definition parse_dated (upper : string) : option (ParsedOption D) :=
  '(m1, m2, m3, m4) ← compact_match upper;
  expiry ← parseYYYYMMDD m2;
  Some (parsed FormatCompact m1 expiry m3 (default dec_zero (parse_dec m4))).

Definition ParseOptionTicker (optionTicker : string) : option (ParsedOption D) :=
  let s := TrimSpace optionTicker in
  if String.eqb s EmptyString then None else
  let upper := ToUpper s in
  match parse_padded upper with
  | Some r => r
  | None =>
      match parse_compact_occ upper with
      | Some r => Some r
      | None =>
          match parse_classic upper with
          | Some r => Some r
          | None => parse_dated upper
          end
      end
  end.

Definition AdjustStrike (strike num den : D) : D :=
  if is_zero num then strike else dec_div_round (dec_mul strike den) num StrikeScale.

Definition BuildOCCCompact (symbol : string) (expiry : Z) (putCall : string) (strike : D) : option string :=
  let sym := TrimSpace (ToUpper symbol) in
  if (String.length sym <? 1) || (6 <? String.length sym) then None else
  let pc := ToUpper putCall in
  if negb (String.eqb pc "C") && negb (String.eqb pc "P") then None else
  if (expiry =? zero_time)%Z || is_neg strike then None else
  let strikeCents := dec_int_part (dec_round (dec_shift strike StrikeScale) 0) in
  if (maxOCCStrike <? strikeCents)%Z then None else
  let yy := Z.rem (Year expiry) 100 in
  Some (sym +:+ (pad0 2 yy +:+ pad0 2 (Month expiry) +:+ pad0 2 (Day expiry)) +:+ pc +:+ pad0 8 strikeCents).
End options.

(** ** Numbers *)

#[local] Arguments is_digit : simpl never.
#[local] Arguments digit : simpl never.
#[local] Arguments is_cp : simpl never.
#[local] Arguments is_space : simpl never.
#[local] Arguments upper : simpl never.

Lemma digit_code d : (0 ≤ d < 10)%Z → nat_of_ascii (digit d) = 48 + Z.to_nat d.
Proof. intros Hd. unfold digit. apply nat_ascii_embedding. lia. Qed.

Lemma digit_is_digit d : (0 ≤ d < 10)%Z → is_digit (digit d) = true.
Proof.
  intros Hd. unfold is_digit, between. rewrite digit_code by done.
  apply andb_true_iff. split; apply Nat.leb_le; lia.
Qed.

Lemma digits_length w n : String.length (digits w n) = w.
Proof. revert n. induction w as [|w IH]; intros n; [done|]. cbn [digits]. rewrite string_length_app, IH. cbn [String.length]. lia. Qed.

Lemma digits_are_digits w n : sforall is_digit (digits w n) = true.
Proof.
  revert n. induction w as [|w IH]; intros n; [done|]. cbn [digits]. rewrite sforall_app, IH. cbn [sforall].
  rewrite digit_is_digit; [done|]. apply Z.mod_pos_bound. lia.
Qed.

Lemma atoi_loop_app acc s t : atoi_loop acc (s +:+ t) = atoi_loop acc s ≫= λ a, atoi_loop a t.
Proof.
  revert acc. induction s as [|a s IH]; intros acc; [done|]. rewrite string_app_cons. simpl.
  by destruct (is_digit a).
Qed.

Lemma atoi_loop_digits w n acc : (0 ≤ n < 10 ^ Z.of_nat w)%Z →
  atoi_loop acc (digits w n) = Some (acc * 10 ^ Z.of_nat w + n)%Z.
Proof.
  revert n acc. induction w as [|w IH]; intros n acc Hn.
  { simpl in *. f_equal. lia. }
  cbn [digits]. rewrite atoi_loop_app. rewrite Nat2Z.inj_succ, Z.pow_succ_r in * by lia.
  rewrite IH by div_lia. cbn [mbind option_bind atoi_loop].
  pose proof (Z.mod_pos_bound n 10 ltac:(lia)). pose proof (Z.div_mod n 10 ltac:(lia)).
  rewrite digit_is_digit, digit_code by done. f_equal. rewrite Nat2Z.inj_add, Z2Nat.id by lia. lia.
Qed.

Lemma atoi_digits w n : w ≠ 0 → (0 ≤ n < 10 ^ Z.of_nat w)%Z → (n ≤ max_int64)%Z → Atoi (digits w n) = Some n.
Proof.
  intros Hw Hn Hmax. unfold Atoi. rewrite (proj2 (String.eqb_neq _ _)).
  2: { intros E. pose proof (digits_length w n) as Hl. rewrite E in Hl. simpl in Hl. lia. }
  rewrite atoi_loop_digits by done. cbn [mbind option_bind]. rewrite Z.mul_0_l, Z.add_0_l. by rewrite (proj2 (Z.leb_le n max_int64)).
Qed.

Lemma pad0_digits w n : (0 ≤ n < 10 ^ Z.of_nat w)%Z → pad0 w n = digits w n.
Proof.
  intros Hn. unfold pad0. rewrite (proj2 (Z.ltb_ge n 0)), (proj2 (Z.leb_gt _ n)) by lia. done.
Qed.

(** ** Characters *)

Definition fixed (a : ascii) : bool := Ascii.eqb (upper a) a.
Definition dark (a : ascii) : bool := negb (is_space a).

#[local] Arguments fixed : simpl never.
#[local] Arguments dark : simpl never.

Lemma sforall_impl (f g : ascii → bool) s :
  (∀ a, f a = true → g a = true) → sforall f s = true → sforall g s = true.
Proof.
  intros Hfg. induction s as [|a s IH]; [done|]. simpl. rewrite !andb_true_iff. naive_solver.
Qed.

Lemma byte_impl (f g : ascii → bool) :
  forallb (λ n, implb (f (ascii_of_nat n)) (g (ascii_of_nat n))) (seq 0 256) = true →
  ∀ a, f a = true → g a = true.
Proof.
  intros Hb a. pose proof (ascii_all (λ a, implb (f a) (g a)) Hb a) as Ha. simpl in Ha. by destruct (f a).
Qed.

Lemma digit_fixed a : is_digit a = true → fixed a && dark a = true.
Proof. apply (byte_impl is_digit (λ a, fixed a && dark a)). vm_compute. reflexivity. Qed.

Lemma cp_fixed a : is_cp a = true → fixed a && dark a = true.
Proof. apply (byte_impl is_cp (λ a, fixed a && dark a)). vm_compute. reflexivity. Qed.

Lemma upper_fixed a : fixed (upper a) = true.
Proof. unfold fixed. rewrite upper_upper. apply Ascii.eqb_refl. Qed.

Lemma ToUpper_fixed s : sforall fixed s = true → ToUpper s = s.
Proof.
  unfold ToUpper. induction s as [|a s IH]; [done|]. simpl. intros [Ha Hs]%andb_true_iff.
  rewrite IH by done. unfold fixed in Ha. apply Ascii.eqb_eq in Ha. by rewrite Ha.
Qed.

Lemma ToUpper_all_fixed s : sforall fixed (ToUpper s) = true.
Proof. unfold ToUpper. induction s as [|a s IH]; [done|]. simpl. by rewrite upper_fixed. Qed.

Lemma trim_left_sforall f s : sforall f s = true → sforall f (trim_left s) = true.
Proof.
  induction s as [|a s IH]; [done|]. simpl. intros [Ha Hs]%andb_true_iff.
  destruct (is_space a); [by apply IH|]. simpl. by rewrite Ha.
Qed.

Lemma trim_right_sforall f s : sforall f s = true → sforall f (trim_right s) = true.
Proof.
  induction s as [|a s IH]; [done|]. cbn [sforall trim_right]. intros [Ha Hs]%andb_true_iff.
  specialize (IH Hs). destruct (trim_right s) as [|b r]; [|simpl in *; by rewrite Ha].
  destruct (is_space a); [done|]. simpl. by rewrite Ha.
Qed.

Lemma TrimSpace_sforall f s : sforall f s = true → sforall f (TrimSpace s) = true.
Proof. intros. by apply trim_right_sforall, trim_left_sforall. Qed.

Lemma trim_right_app s t : t ≠ EmptyString → sforall dark t = true → trim_right (s +:+ t) = s +:+ t.
Proof.
  intros Ht Hd. induction s as [|a s IH]; [by apply trim_right_id|].
  rewrite string_app_cons. cbn [trim_right]. rewrite IH. destruct (s +:+ t) eqn:E; [|done].
  destruct s, t; try done; by rewrite ?string_app_cons in E.
Qed.

(** Text that starts and ends in something is not trimmed. *)
Lemma TrimSpace_app s m t : s ≠ EmptyString → t ≠ EmptyString → sforall dark s = true → sforall dark t = true →
  TrimSpace (s +:+ m +:+ t) = s +:+ m +:+ t.
Proof.
  intros Hs Ht Hds Hdt. unfold TrimSpace. rewrite trim_left_id.
  - rewrite <- string_app_assoc. by apply trim_right_app.
  - destruct s as [|a s]; [done|]. intros b s' [= <- _]. simpl in Hds. apply andb_true_iff in Hds as [Ha _].
    unfold dark in Ha. by destruct (is_space a).
Qed.

Lemma remove_spaces_app s t : remove_spaces (s +:+ t) = remove_spaces s +:+ remove_spaces t.
Proof.
  induction s as [|a s IH]; [done|]. rewrite string_app_cons. cbn [remove_spaces].
  destruct (Ascii.eqb a " "); [done|]. by rewrite IH, string_app_cons.
Qed.

Lemma remove_spaces_dark s : sforall dark s = true → remove_spaces s = s.
Proof.
  induction s as [|a s IH]; [done|]. cbn [sforall remove_spaces]. intros [Ha Hs]%andb_true_iff.
  destruct (Ascii.eqb_spec a " ") as [->|]; [done|]. by rewrite IH.
Qed.

Lemma remove_repeat_space k : remove_spaces (repeat_space k) = EmptyString.
Proof. by induction k. Qed.

Lemma repeat_space_length k : String.length (repeat_space k) = k.
Proof. induction k as [|k IH]; [done|]. simpl. by rewrite IH. Qed.

Lemma repeat_space_fixed k : sforall fixed (repeat_space k) = true.
Proof. by induction k. Qed.

(** ** The parts of a symbol *)

Lemma suffix_slices y m d p k :
  String.length y = 2 → String.length m = 2 → String.length d = 2 → String.length p = 1 → String.length k = 8 →
  let s := (y +:+ m +:+ d) +:+ p +:+ k in
  String.length s = 15 ∧ slice 0 6 s = y +:+ m +:+ d ∧ slice 6 7 s = p ∧ slice 7 15 s = k ∧
  slice 0 2 (y +:+ m +:+ d) = y ∧ slice 2 4 (y +:+ m +:+ d) = m ∧ slice 4 6 (y +:+ m +:+ d) = d.
Proof.
  intros Hy Hm Hd Hp Hk.
  destruct y as [|y1 [|y2 [|]]]; [done..| |done]. destruct m as [|m1 [|m2 [|]]]; [done..| |done].
  destruct d as [|d1 [|d2 [|]]]; [done..| |done]. destruct p as [|p1 [|]]; [done| |done].
  destruct k as [|k1 [|k2 [|k3 [|k4 [|k5 [|k6 [|k7 [|k8 [|]]]]]]]]]; [done..| |done].
  split_and!; reflexivity.
Qed.

Lemma slice_app_r s t k i j : String.length s = k → slice (k + i) (k + j) (s +:+ t) = slice i j t.
Proof.
  intros Hk. unfold slice. replace (k + j - (k + i)) with (j - i) by lia. f_equal.
  revert k Hk. induction s as [|a s IH]; intros k <-; [done|]. rewrite string_app_cons. simpl. by apply IH.
Qed.

(** What a suffix built from a date, a side and a strike is made of. *)
Record suffix_parts (S date pc k : string) : Prop := {
  sp_eq : S = date +:+ pc +:+ k;
  sp_len : String.length S = 15;
  sp_date : slice 0 6 S = date;
  sp_pc : slice 6 7 S = pc;
  sp_strike : slice 7 15 S = k;
  sp_match : occ_suffix_match S = true;
  sp_fixed : sforall fixed S = true;
  sp_dark : sforall dark S = true;
}.

Definition date6 (y m d : Z) : string := digits 2 y +:+ digits 2 m +:+ digits 2 d.

Lemma sforall_split f g s : sforall (λ a, f a && g a) s = sforall f s && sforall g s.
Proof.
  induction s as [|a s IH]; [done|]. cbn [sforall]. rewrite IH. by destruct (f a), (g a), (sforall f s).
Qed.

Lemma suffix_ok y m d p n : is_cp p = true →
  suffix_parts (date6 y m d +:+ String p EmptyString +:+ digits 8 n) (date6 y m d) (String p EmptyString) (digits 8 n).
Proof.
  intros Hp. unfold date6.
  destruct (suffix_slices (digits 2 y) (digits 2 m) (digits 2 d) (String p EmptyString) (digits 8 n))
    as (Hl & H1 & H2 & H3 & _); [by rewrite ?digits_length..|].
  assert (sforall is_digit (digits 2 y +:+ digits 2 m +:+ digits 2 d) = true) as Hd.
  { by rewrite !sforall_app, !digits_are_digits. }
  assert (sforall is_cp (String p EmptyString) = true) as Hcp by (cbn [sforall]; by rewrite Hp).
  assert (sforall (λ a, fixed a && dark a)
    ((digits 2 y +:+ digits 2 m +:+ digits 2 d) +:+ String p EmptyString +:+ digits 8 n) = true) as Hall.
  { rewrite sforall_app, (sforall_app _ (String p _)).
    rewrite (sforall_impl _ _ _ digit_fixed Hd), (sforall_impl _ _ _ cp_fixed Hcp).
    by rewrite (sforall_impl _ _ _ digit_fixed (digits_are_digits 8 n)). }
  rewrite sforall_split in Hall. apply andb_true_iff in Hall as [Hf Hk].
  split; try done. unfold occ_suffix_match. rewrite Hl, H1, H2, H3, Hd, Hcp, digits_are_digits. done.
Qed.

Lemma parse_date6 y m d : (0 ≤ y < 100)%Z → (1 ≤ m ≤ 12)%Z → (1 ≤ d ≤ 31)%Z →
  parseYYMMDD (date6 y m d) = Some (Date (if (50 <=? y)%Z then 1900 + y else 2000 + y) m d)%Z.
Proof.
  intros Hy Hm Hd. unfold parseYYMMDD, date6. rewrite !string_length_app, !digits_length. cbn [Nat.add Nat.eqb negb].
  destruct (suffix_slices (digits 2 y) (digits 2 m) (digits 2 d) "C" (digits 8 0))
    as (_ & _ & _ & _ & -> & -> & ->); [by rewrite ?digits_length..|].
  rewrite !atoi_digits by (try done; unfold max_int64; simpl; lia). cbn [mbind option_bind].
  unfold valid_month_day. rewrite !(proj2 (Z.ltb_ge _ _)) by lia. done.
Qed.

Lemma compact_parts sym S date pc strike : suffix_parts S date pc strike →
  occ_root (sym +:+ S) = sym ∧ occ_suffix (sym +:+ S) = S.
Proof.
  intros HS. unfold occ_root, occ_suffix, occSuffixLen. rewrite string_length_app, (sp_len _ _ _ _ HS).
  rewrite stake_app, sdrop_app by lia. done.
Qed.

(** A symbol, padded or not, in front of such a suffix is read by its parts. *)
Section reading.
Context {D : Type} `{DecimalLaws D} (parse_dec : string → option D).
Context (sym S date pc strike : string) (gap : nat).
Hypothesis Hsym : 1 ≤ String.length sym ≤ 6.
Hypothesis Hdark : sforall dark sym = true.
Hypothesis Hfixed : sforall fixed sym = true.
Hypothesis HS : suffix_parts S date pc strike.
Hypothesis Hgap : gap = 0 ∨ String.length sym + gap = 6.

Let text := sym +:+ repeat_space gap +:+ S.

Lemma sym_nonempty : sym ≠ EmptyString.
Proof. intros ->. simpl in Hsym. lia. Qed.

Lemma suffix_nonempty : S ≠ EmptyString.
Proof. intros E. pose proof (sp_len _ _ _ _ HS) as Hl. rewrite E in Hl. done. Qed.

Lemma text_trim : TrimSpace text = text.
Proof.
  apply TrimSpace_app; [apply sym_nonempty|apply suffix_nonempty|done|by eapply sp_dark].
Qed.

Lemma text_upper : ToUpper text = text.
Proof.
  apply ToUpper_fixed. unfold text. rewrite !sforall_app, Hfixed, repeat_space_fixed. by erewrite sp_fixed.
Qed.

Lemma text_compact : OCCCompact text = Some (sym +:+ S).
Proof.
  unfold OCCCompact. rewrite text_trim, text_upper. unfold text. rewrite !remove_spaces_app, remove_repeat_space.
  rewrite !remove_spaces_dark by (try done; by eapply sp_dark).
  change (EmptyString +:+ S) with S. rewrite string_length_app, (sp_len _ _ _ _ HS). unfold occSuffixLen.
  rewrite (proj2 (Nat.ltb_ge _ _)), (proj2 (Nat.ltb_ge _ _)) by lia. cbn [orb].
  unfold occ_suffix, occSuffixLen. rewrite string_length_app, (sp_len _ _ _ _ HS), sdrop_app by lia.
  by rewrite (sp_match _ _ _ _ HS).
Qed.

Lemma root_trim : TrimSpace (sym +:+ repeat_space gap) = sym.
Proof.
  unfold TrimSpace. rewrite trim_left_id.
  - assert (∀ s, sforall dark s = true → trim_right (s +:+ repeat_space gap) = s) as Ht; [|by apply Ht].
    induction s as [|a s IH]; intros Hs.
    + clear. change (EmptyString +:+ repeat_space gap) with (repeat_space gap).
      induction gap as [|g IHg]; [done|]. cbn [repeat_space trim_right]. by rewrite IHg.
    + cbn [sforall] in Hs. apply andb_true_iff in Hs as [Ha Hs]. rewrite string_app_cons. cbn [trim_right].
      rewrite IH by done. destruct s; [|done]. unfold dark in Ha. by destruct (is_space a).
  - intros a s' E. destruct sym as [|b s]; [simpl in Hsym; lia|]. rewrite string_app_cons in E.
    injection E as -> _. cbn [sforall] in Hdark. apply andb_true_iff in Hdark as [Ha _]. unfold dark in Ha.
    by destruct (is_space a).
Qed.

Lemma text_padded expiry n : parseYYMMDD date = Some expiry → Atoi strike = Some n →
  parse_padded text = None ∨
  parse_padded text = Some (Some (parsed FormatOCC sym expiry pc (dec_new (D:=D) n (- StrikeScale)))).
Proof.
  intros Hd Hn. unfold parse_padded. destruct (occ_match text) as [[[[m1 m2] m3] m4]|] eqn:E; [right|by left].
  unfold occ_match in E. destruct (_ && _ && _ && _ && _) eqn:Eb in E; [|done]. injection E as <- <- <- <-.
  rewrite !andb_true_iff, Nat.eqb_eq in Eb. destruct Eb as [[[[Hl _] _] _] _].
  unfold text in *. rewrite !string_length_app, repeat_space_length, (sp_len _ _ _ _ HS) in Hl.
  rewrite <- string_app_assoc.
  assert (String.length (sym +:+ repeat_space gap) = 6) as H6 by (rewrite string_length_app, repeat_space_length; lia).
  assert (slice 0 6 ((sym +:+ repeat_space gap) +:+ S) = sym +:+ repeat_space gap) as -> by by apply stake_app.
  rewrite root_trim, (proj2 (String.eqb_neq _ _)) by apply sym_nonempty.
  rewrite (slice_app_r _ S 6 0 6), (slice_app_r _ S 6 6 7), (slice_app_r _ S 6 7 15) by done.
  rewrite (sp_date _ _ _ _ HS), (sp_pc _ _ _ _ HS), (sp_strike _ _ _ _ HS), Hd, Hn. done.
Qed.

Lemma text_parses expiry n : parseYYMMDD date = Some expiry → Atoi strike = Some n →
  ParseOptionTicker parse_dec text = Some (parsed FormatOCC sym expiry pc (dec_new n (- StrikeScale))).
Proof.
  intros Hd Hn. unfold ParseOptionTicker. rewrite text_trim.
  rewrite (proj2 (String.eqb_neq _ _)).
  2: { intros E. apply sym_nonempty. unfold text in E. destruct sym; [done|]. by rewrite string_app_cons in E. }
  rewrite text_upper. destruct (text_padded expiry n Hd Hn) as [-> | ->]; [|done].
  unfold parse_compact_occ. rewrite text_compact. cbn [mbind option_bind].
  destruct (compact_parts sym _ _ _ _ HS) as [-> ->].
  rewrite (sp_date _ _ _ _ HS), (sp_pc _ _ _ _ HS), (sp_strike _ _ _ _ HS), Hd. cbn [mbind option_bind]. by rewrite Hn.
Qed.
End reading.

(** ** Strikes *)

Section strikes.
Context {D : Type} `{DecimalLaws D}.
Local Open Scope Q_scope.

Lemma qnum_sgn (q r : Q) : q == r → Z.sgn (Qnum q) = Z.sgn (Qnum r).
Proof. unfold Qeq. destruct q as [a b], r as [c d]. simpl. destruct a, c; lia. Qed.

Lemma floor_half_pos q : 0 <= q → (0 ≤ Qfloor (q + (1 # 2)))%Z.
Proof. intros Hq. change 0%Z with (Qfloor 0). apply Qfloor_resp_le. lra. Qed.

Lemma q_trunc_int q m : (0 ≤ m)%Z → q == inject_Z m → q_trunc q = m.
Proof.
  intros Hm Hq. unfold q_trunc. rewrite (qnum_sgn _ _ Hq).
  assert (Qfloor (Qabs q) = m) as ->.
  { rewrite Hq, Qabs_pos; [apply Qfloor_Z|]. unfold Qle, inject_Z. simpl. lia. }
  simpl. lia.
Qed.

Lemma q_round_nonneg q r : q == r → 0 <= r → q_round q 0 == inject_Z (Qfloor (r + (1 # 2))).
Proof.
  intros Hq Hr. unfold q_round. assert (q * Qpower 10 0 == r) as Hs by (rewrite Hq; simpl; ring).
  rewrite (qnum_sgn _ _ Hs). assert (Qfloor (Qabs (q * Qpower 10 0) + (1 # 2)) = Qfloor (r + (1 # 2))) as ->.
  { apply Qfloor_comp. by rewrite Hs, Qabs_pos. }
  assert (Qpower 10 (- 0) == 1) as -> by reflexivity. rewrite Qmult_1_r.
  destruct r as [[|p|p] d]; cbn [Qnum Z.sgn].
  - assert (Qfloor ((0 # d) + (1 # 2)) = 0%Z) as ->; [|reflexivity].
    transitivity (Qfloor (1 # 2)); [apply Qfloor_comp; unfold Qeq; simpl; lia|reflexivity].
  - by rewrite Z.mul_1_l.
  - unfold Qle in Hr. simpl in Hr. lia.
Qed.

(** The strike as [BuildOCCCompact] writes it, in thousandths. *)
Definition thousandths (strike : D) : Z := Qfloor (dval strike * 1000 + (1 # 2)).

Lemma strike_cents strike : 0 <= dval strike → dval strike < 1000000000000000 →
  dec_int_part (dec_round (dec_shift strike StrikeScale) 0) = thousandths strike ∧ (0 ≤ thousandths strike)%Z.
Proof.
  intros H0' H1. assert (dval (dec_shift strike StrikeScale) == dval strike * 1000) as Hs.
  { rewrite dval_shift. reflexivity. }
  assert (0 <= dval strike * 1000) as Hpos by lra.
  assert (dval (dec_round (dec_shift strike StrikeScale) 0) == inject_Z (thousandths strike)) as Hr.
  { rewrite dval_round. by apply q_round_nonneg. }
  assert (0 ≤ thousandths strike)%Z as Hn by by apply floor_half_pos.
  split; [|done]. assert (thousandths strike < 10 ^ 18 + 1)%Z as Hb.
  { unfold thousandths. apply Z.lt_succ_r. change (10 ^ 18)%Z with (Qfloor (1000000000000000000 + (1 # 2))).
    apply Qfloor_resp_le. lra. }
  rewrite dec_int_part_spec; [by apply q_trunc_int|]. rewrite (q_trunc_int _ _ Hn Hr).
  unfold in_int64, min_int64, max_int64. lia.
Qed.

(** A strike of at most three places is its thousandths. *)
Lemma thousandths_exact strike n : dval strike == inject_Z n * (1 # 1000) → thousandths strike = n.
Proof.
  intros Hs. unfold thousandths. assert (dval strike * 1000 + (1 # 2) == inject_Z n + (1 # 2)) as ->.
  { rewrite Hs. field. }
  apply Z.le_antisymm.
  - apply Z.lt_succ_r. assert (inject_Z (Qfloor (inject_Z n + (1 # 2))) <= inject_Z n + (1 # 2)) as Hf by apply Qfloor_le.
    assert (inject_Z (Qfloor (inject_Z n + (1 # 2))) < inject_Z (Z.succ n)) as Hlt.
    { eapply Qle_lt_trans; [exact Hf|]. unfold Z.succ. rewrite inject_Z_plus. change (inject_Z 1) with 1. lra. }
    by rewrite <- Zlt_Qlt in Hlt.
  - rewrite <- (Qfloor_Z n) at 1. apply Qfloor_resp_le. lra.
Qed.
End strikes.

(** ** What is built reads back *)

Section roundtrip.
Context {D : Type} `{DecimalLaws D}.

Definition built_symbol (symbol : string) : string := TrimSpace (ToUpper symbol).

Definition built_suffix (expiry : Z) (p : ascii) (n : Z) : string :=
  date6 (Year expiry `mod` 100) (Month expiry) (Day expiry) +:+ String p EmptyString +:+ digits 8 n.

Lemma put_call_char putCall : ToUpper putCall = "C" ∨ ToUpper putCall = "P" →
  ∃ p, ToUpper putCall = String p EmptyString ∧ is_cp p = true.
Proof. intros [-> | ->]; eauto. Qed.

#[local] Instance Qle_decision (x y : Q) : Decision (x <= y)%Q.
Proof. destruct (Qlt_le_dec y x) as [Hlt|Hle]; [right; by apply Qlt_not_le|by left]. Defined.

(** What [BuildOCCCompact] asks for. *)
Definition buildable (symbol : string) (expiry : Z) (putCall : string) (strike : D) : Prop :=
  1 ≤ String.length (built_symbol symbol) ≤ 6 ∧ (ToUpper putCall = "C" ∨ ToUpper putCall = "P") ∧
  expiry ≠ zero_time ∧ (0 <= dval strike)%Q ∧ (thousandths strike ≤ maxOCCStrike)%Z.

Lemma is_neg_false (x : D) : is_neg x = false ↔ (0 <= dval x)%Q.
Proof. unfold is_neg. by rewrite dec_ltb_ge, dval_zero. Qed.

#[local] Instance buildable_dec symbol expiry putCall strike : Decision (buildable symbol expiry putCall strike).
Proof. unfold buildable. apply _. Defined.

Lemma build_refused symbol expiry putCall (strike : D) : (dval strike < 1000000000000000)%Q →
  ¬ buildable symbol expiry putCall strike → BuildOCCCompact symbol expiry putCall strike = None.
Proof.
  intros Hs Hn. unfold BuildOCCCompact. fold (built_symbol symbol). unfold buildable in Hn.
  destruct (Nat.ltb_spec (String.length (built_symbol symbol)) 1); [done|].
  destruct (Nat.ltb_spec 6 (String.length (built_symbol symbol))); [done|]. cbn [orb].
  destruct (String.eqb_spec (ToUpper putCall) "C"), (String.eqb_spec (ToUpper putCall) "P"); cbn [negb andb]; [..|done].
  all: destruct (Z.eqb_spec expiry zero_time); [done|]; destruct (is_neg strike) eqn:En; [done|]; cbn [orb].
  all: apply is_neg_false in En; destruct (strike_cents strike En Hs) as [-> _].
  all: destruct (Z.ltb_spec maxOCCStrike (thousandths strike)); [done|].
  all: destruct Hn; split_and!; naive_solver lia.
Qed.

Lemma build_made symbol expiry putCall (strike : D) p : (dval strike < 1000000000000000)%Q →
  (0 ≤ Year expiry)%Z → ToUpper putCall = String p EmptyString → buildable symbol expiry putCall strike →
  BuildOCCCompact symbol expiry putCall strike
    = Some (built_symbol symbol +:+ built_suffix expiry p (thousandths strike)).
Proof.
  intros Hs Hy Hp ((? & ?) & Hpc & Hz & H0' & Hmax). unfold BuildOCCCompact. fold (built_symbol symbol).
  rewrite (proj2 (Nat.ltb_ge _ 1)), (proj2 (Nat.ltb_ge 6 _)) by done. cbn [orb].
  assert (negb (String.eqb (ToUpper putCall) "C") && negb (String.eqb (ToUpper putCall) "P") = false) as ->.
  { by destruct Hpc as [-> | ->]. }
  rewrite (proj2 (Z.eqb_neq expiry zero_time)) by done. rewrite (proj2 (is_neg_false strike)) by done. cbn [orb].
  destruct (strike_cents strike H0' Hs) as [-> Hn].
  rewrite (proj2 (Z.ltb_ge maxOCCStrike _)) by done. rewrite Z.rem_mod_nonneg by lia.
  pose proof (Z.mod_pos_bound (Year expiry) 100 ltac:(lia)). pose proof (month_bounds expiry). pose proof (day_bounds expiry).
  unfold maxOCCStrike in Hmax.
  rewrite !pad0_digits by (simpl; lia). by rewrite Hp.
Qed.

Lemma built_symbol_fixed symbol : sforall fixed (built_symbol symbol) = true.
Proof. apply TrimSpace_sforall, ToUpper_all_fixed. Qed.

Lemma year_window y : (1950 ≤ y ≤ 2049)%Z →
  (if (50 <=? y `mod` 100)%Z then 1900 + y `mod` 100 else 2000 + y `mod` 100)%Z = y.
Proof. intros Hy. destruct (Z.leb_spec 50 (y `mod` 100)); div_lia. Qed.

(** C18: An option that an OCC symbol can carry survives being written as one: with an
    underlying of one to six characters, none of them white space, an expiry between
    1950 and 2049 and a strike of whole thousandths up to 99999.999, [BuildOCCCompact]
    makes a symbol that is its own compact form, that [OCCPadded] widens to 21
    characters, and that reads back, in either form, as the same underlying, expiry,
    side and strike. *)
Theorem occ_roundtrip (parse_dec : string → option D) symbol expiry putCall (strike : D) n :
  1 ≤ String.length (built_symbol symbol) ≤ 6 → sforall dark (built_symbol symbol) = true →
  ToUpper putCall = "C" ∨ ToUpper putCall = "P" →
  (1950 ≤ Year expiry ≤ 2049)%Z →
  (0 ≤ n ≤ maxOCCStrike)%Z → (dval strike == inject_Z n * (1 # 1000))%Q →
  ∃ occ padded o,
    BuildOCCCompact symbol expiry putCall strike = Some occ ∧
    OCCCompact occ = Some occ ∧ OCCExpiry occ = Some expiry ∧
    OCCPadded occ = Some padded ∧ String.length padded = 21 ∧ OCCCompact padded = Some occ ∧
    ParseOptionTicker parse_dec occ = Some o ∧ ParseOptionTicker parse_dec padded = Some o ∧
    Format o = FormatOCC ∧ Symbol o = built_symbol symbol ∧ Expiry o = expiry ∧
    PutCall o = ToUpper putCall ∧ Strike o ≡ strike.
Proof.
  intros Hlen Hdark Hpc Hy Hn Hstrike. destruct (put_call_char putCall Hpc) as (p & Hp & Hcp).
  pose proof (thousandths_exact strike n Hstrike) as Ht. unfold maxOCCStrike in Hn.
  assert (0 <= dval strike)%Q as Hpos.
  { rewrite Hstrike. apply Qmult_le_0_compat; [|done]. change 0%Q with (inject_Z 0). rewrite <- Zle_Qle. lia. }
  assert (dval strike < 1000000000000000)%Q as Hlt.
  { rewrite Hstrike. assert (inject_Z n <= inject_Z 99999999)%Q by (rewrite <- Zle_Qle; lia).
    change (inject_Z 99999999) with 99999999%Q in *. lra. }
  set (S := built_suffix expiry p n). set (sym := built_symbol symbol) in *.
  pose proof (suffix_ok (Year expiry `mod` 100) (Month expiry) (Day expiry) p n Hcp) as HS. fold (built_suffix expiry p n) in HS. fold S in HS.
  pose proof (month_bounds expiry) as Hm. pose proof (day_bounds expiry) as Hd.
  assert (parseYYMMDD (date6 (Year expiry `mod` 100) (Month expiry) (Day expiry)) = Some expiry) as Hdate.
  { rewrite parse_date6 by (try done; apply Z.mod_pos_bound; lia). by rewrite year_window, date_civil. }
  assert (Atoi (digits 8 n) = Some n) as Hatoi by (apply atoi_digits; [done|simpl; lia|unfold max_int64; lia]).
  pose proof (built_symbol_fixed symbol) as Hfix. fold sym in Hfix.
  pose proof (λ g Hg, text_compact sym S _ _ _ g Hlen Hdark Hfix HS Hg) as Hcompact.
  pose proof (λ g Hg, text_parses parse_dec sym S _ _ _ g Hlen Hdark Hfix HS Hg expiry n Hdate Hatoi) as Hparse.
  destruct (compact_parts sym S _ _ _ HS) as [Hroot Hsuffix].
  specialize (Hcompact 0) as Hc0. specialize (Hparse 0 ltac:(by left)) as Hp0. cbn [repeat_space] in Hc0, Hp0.
  change (EmptyString +:+ S) with S in *.
  exists (sym +:+ S), (sym +:+ repeat_space (6 - String.length sym) +:+ S),
    (parsed FormatOCC sym expiry (String p EmptyString) (dec_new n (- StrikeScale))).
  split_and!.
  - rewrite (build_made symbol expiry putCall strike p); [by rewrite Ht|done|lia|done|].
    split; [done|]. split; [done|]. split; [intros E; rewrite E, zero_time_year in Hy; lia|].
    split; [done|]. rewrite Ht. unfold maxOCCStrike. lia.
  - by apply Hc0; left.
  - unfold OCCExpiry. rewrite Hc0 by by left. cbn [mbind option_bind]. by rewrite Hsuffix, (sp_date _ _ _ _ HS).
  - unfold OCCPadded. rewrite Hc0 by by left. cbn [mbind option_bind]. by rewrite Hsuffix, Hroot.
  - rewrite !string_length_app, repeat_space_length, (sp_len _ _ _ _ HS). lia.
  - apply Hcompact. right. lia.
  - done.
  - apply Hparse. right. lia.
  - done.
  - done.
  - done.
  - done.
  - simpl. unfold equiv, dec_equiv. by rewrite dval_new, Hstrike.
Qed.

(** What the comment of [BuildOCCCompact] calls a symbol. *)
Definition documented (symbol : string) : Prop :=
  1 ≤ String.length (built_symbol symbol) ≤ 6 ∧ sforall (λ a, is_upper a || is_digit a) (built_symbol symbol) = true.

(** An option its comment admits, with a strike the field has room for. *)
Definition encodable (symbol : string) (expiry : Z) (putCall : string) (strike : D) : Prop :=
  documented symbol ∧ (ToUpper putCall = "C" ∨ ToUpper putCall = "P") ∧ expiry ≠ zero_time ∧
  (0 <= dval strike < 999999995 # 10000)%Q.

(** The strike that is written is the nearest one of whole thousandths. *)
Lemma thousandths_near (strike : D) : (Qabs (dval strike - inject_Z (thousandths strike) * (1 # 1000)) <= 1 # 2000)%Q.
Proof.
  unfold thousandths. set (x := (dval strike * 1000 + (1 # 2))%Q). pose proof (Qfloor_le x) as Hlo. pose proof (Qlt_floor x) as Hhi.
  rewrite inject_Z_plus in Hhi. change (inject_Z 1) with 1%Q in Hhi. assert (dval strike == (x - (1 # 2)) * (1 # 1000))%Q as E by (unfold x; field).
  apply Qabs_Qle_condition. rewrite E. clear E. clearbody x. split; lra.
Qed.

Lemma encodable_buildable symbol expiry putCall (strike : D) : encodable symbol expiry putCall strike → buildable symbol expiry putCall strike.
Proof.
  intros ((Hl & _) & Hpc & Hz & Hs0 & Hs1). split_and!; [lia..|done|done|done|]. apply Z.lt_succ_r. rewrite Zlt_Qlt.
  eapply Qle_lt_trans; [apply Qfloor_le|]. change (inject_Z (Z.succ maxOCCStrike)) with 100000000%Q. lra.
Qed.

(** C25: The fields of an option symbol are never overrun.  For a strike below 10^15 and
    a year that is not negative, what [BuildOCCCompact] makes is the trimmed symbol in
    capitals, of one to six characters, then two digits each for the year within its
    century, the month and the day, one letter C or P, and eight digits for the nearest
    strike of whole thousandths, which is within half a thousandth of the one given.
    And nothing its comment admits is refused but for a strike that rounds above
    99999.999: one to six capital letters or digits, a side of C or P in either case, a
    date, and a strike that is not negative.  The characters of a symbol are not checked,
    so others of that length are made too. *)
Theorem build_occ_bounds symbol expiry putCall (strike : D) :
  (dval strike < 1000000000000000)%Q → (0 ≤ Year expiry)%Z →
  match BuildOCCCompact symbol expiry putCall strike with
  | Some occ => ∃ yy mm dd cents n,
      occ = built_symbol symbol +:+ yy +:+ mm +:+ dd +:+ ToUpper putCall +:+ cents ∧
      1 ≤ String.length (built_symbol symbol) ≤ 6 ∧ (ToUpper putCall = "C" ∨ ToUpper putCall = "P") ∧
      String.length yy = 2 ∧ String.length mm = 2 ∧ String.length dd = 2 ∧ String.length cents = 8 ∧
      Atoi yy = Some (Year expiry `mod` 100)%Z ∧ Atoi mm = Some (Month expiry) ∧ Atoi dd = Some (Day expiry) ∧
      Atoi cents = Some n ∧ (0 <= dval strike)%Q ∧ (Qabs (dval strike - inject_Z n * (1 # 1000)) <= 1 # 2000)%Q
  | None => ¬ encodable symbol expiry putCall strike
  end.
Proof.
  intros Hs Hy. destruct (decide (buildable symbol expiry putCall strike)) as [Hok|Hn].
  - pose proof Hok as (Hlen & Hpc & _ & Hpos & Hmax). destruct (put_call_char putCall Hpc) as (p & Hp & _).
    rewrite (build_made _ _ _ _ p) by done. destruct (strike_cents strike Hpos Hs) as [_ Hn]. unfold maxOCCStrike in Hmax.
    pose proof (month_bounds expiry). pose proof (day_bounds expiry). pose proof (Z.mod_pos_bound (Year expiry) 100 ltac:(lia)).
    exists (digits 2 (Year expiry `mod` 100)), (digits 2 (Month expiry)), (digits 2 (Day expiry)), (digits 8 (thousandths strike)), (thousandths strike).
    rewrite Hp. split_and!; try (by apply digits_length); try (apply atoi_digits; [done|simpl; lia|unfold max_int64; lia]); [|lia..|by rewrite <- Hp|done|apply thousandths_near].
    unfold built_suffix, date6. by rewrite !string_app_assoc.
  - rewrite build_refused by done. intros ?%encodable_buildable. done.
Qed.
End roundtrip.

(** ** Concrete inputs *)

Section witnesses.
#[local] Existing Instances QDecimal.q_decimal QDecimal.q_decimal_laws.

Definition no_text (s : string) : option Q := None.

Definition aapl : option string := BuildOCCCompact "aapl" (Date 2025 1 17) "c" 150%Q.

Lemma aapl_symbol : aapl = Some "AAPL250117C00150000".
Proof. by vm_compute. Qed.

Lemma occ_roundtrip_witness :
  ∃ o, ParseOptionTicker no_text "AAPL250117C00150000" = Some o ∧ Expiry o = Date 2025 1 17 ∧ Strike o ≡ 150%Q.
Proof.
  destruct (occ_roundtrip no_text "aapl" (Date 2025 1 17) "c" 150%Q 150000)
    as (occ & padded & o & Hb & _ & _ & _ & _ & _ & Hp & _ & _ & _ & He & _ & Hs).
  - by vm_compute; lia.
  - by vm_compute.
  - by left.
  - by vm_compute.
  - by vm_compute.
  - by vm_compute.
  - exists o. fold aapl in Hb. rewrite aapl_symbol in Hb. injection Hb as <-. done.
Defined.

(** The dearest strike a symbol carries, and the first that is refused. *)
Lemma build_occ_bounds_witness :
  (∃ yy mm dd cents n, BuildOCCCompact "spx" (Date 2025 1 17) "p" (99999999 # 1000)%Q = Some ("SPX" +:+ yy +:+ mm +:+ dd +:+ "P" +:+ cents) ∧
     Atoi yy = Some 25%Z ∧ Atoi cents = Some n ∧ (Qabs ((99999999 # 1000) - inject_Z n * (1 # 1000)) <= 1 # 2000)%Q) ∧
  ¬ encodable "SPX" (Date 2025 1 17) "P" 100000%Q.
Proof.
  split.
  - unshelve epose proof (build_occ_bounds "spx" (Date 2025 1 17) "p" (99999999 # 1000)%Q _ _) as Hb; [by vm_compute..|].
    assert (is_Some (BuildOCCCompact "spx" (Date 2025 1 17) "p" (99999999 # 1000)%Q)) as [occ E] by (vm_compute; by eexists).
    rewrite E in Hb |- *. destruct Hb as (yy & mm & dd & cents & n & -> & _ & _ & _ & _ & _ & _ & Hy & _ & _ & Hn & _ & Hq).
    exists yy, mm, dd, cents, n. split_and!; [done|exact Hy|exact Hn|exact Hq].
  - unshelve epose proof (build_occ_bounds "SPX" (Date 2025 1 17) "P" 100000%Q _ _) as Hb; [by vm_compute..|].
    assert (BuildOCCCompact "SPX" (Date 2025 1 17) "P" 100000%Q = None) as E by by vm_compute. by rewrite E in Hb.
Defined.

(** Past 2049 the two digits of the year name a year of the last century. *)
Lemma year_2050_reads_1950 :
  (BuildOCCCompact "AAPL" (Date 2050 1 21) "C" 150%Q ≫= OCCExpiry) = Some (Date 1950 1 21).
Proof. by vm_compute. Qed.

(** Thirty-one days are taken for every month, and run on into the next. *)
Lemma february_31st : parseYYMMDD "250231" = Some (Date 2025 3 3).
Proof. by vm_compute. Qed.

(** The characters of an underlying are not checked: a blank inside one is written, and
    lost when it is read. *)
Lemma blank_in_symbol :
  BuildOCCCompact "BRK B" (Date 2025 1 17) "C" 150%Q = Some "BRK B250117C00150000" ∧
  fmap (M:=option) Symbol (ParseOptionTicker no_text "BRK B250117C00150000") = Some "BRKB".
Proof. by vm_compute. Qed.

(** The other two spellings. *)
Lemma other_spellings :
  fmap (M:=option) (λ o, (Format o, Symbol o, Expiry o)) (ParseOptionTicker no_text "IBM 03/20/10 C105")
    = Some (FormatClassic, "IBM", Date 2010 3 20) ∧
  fmap (M:=option) (λ o, (Format o, Symbol o, Expiry o)) (ParseOptionTicker no_text "aapl20250117c200")
    = Some (FormatCompact, "AAPL", Date 2025 1 17).
Proof. by vm_compute. Qed.
End witnesses.
End Derivative.
