(* ===== verification/Splits.v ===== *)
(** * Stock splits

    server/db/postgres/corporate_events.go and server/corporateevents/option_splits.go:
    the splits of a stock, the quantities and prices restated for them, and the pass
    that renames the options on a stock that has split.

    A statement that fails loses its transaction, so [None] is an error that changes
    nothing.  [today] is [CURRENT_DATE]; [first_row] is [LIMIT 1] without an order;
    [pg_div] is division of the database's numerics, whose range is not modelled.  The
    halves of a ratio are numbers: the database writes a NUMERIC as text that reads back
    as the number it is.  What an unhandled event says of itself is left out, and so are
    logging and a failed read. *)

From Stdlib Require Import QArith Qround Lqa.
From S2P Require Import Prelude Calendar Decimal Posting Derivative PriceStore Ledger Instruments.

Local Open Scope nat_scope.

Module Splits.
Import Posting Ledger Instruments.

(** ** Data *)

Record StockSplit {D : Type} := {
  ss_InstrumentID : string;
  ss_ExDate : Z;
  ss_SplitFrom : D;
  ss_SplitTo : D;
  ss_DataProvider : string;
  ss_FirstKnownAt : option Z;
}.
#[global] Arguments StockSplit : clear implicits.

(** A row of [unhandled_corporate_events]. *)
Record UnhandledCorporateEvent := {
  ev_InstrumentID : string;
  ev_EventType : string;
  ev_ExDate : option Z;
  ev_Resolved : bool;
}.

(** The [split_adjusted_*] columns of a posting and of a bar. *)
Record adjusted_tx {D : Type} := { adj_quantity : D; adj_unit_price : option D }.
#[global] Arguments adjusted_tx : clear implicits.

Record adjusted_bar {D : Type} := {
  adj_open : option D; adj_high : option D; adj_low : option D; adj_close : D; adj_volume : option Z }.
#[global] Arguments adjusted_bar : clear implicits.

Record market {D : Type} := {
  shop : store D;
  stock_splits : list (StockSplit D);
  eod_prices : gmap (string * Z) (PriceStore.stored (D:=D));
  adjusted_txs : gmap string (adjusted_tx D);
  adjusted_prices : gmap (string * Z) (adjusted_bar D);
  unhandled : list UnhandledCorporateEvent;
}.
#[global] Arguments market : clear implicits.

(** One name a split gives an option. *)
Record OptionMint {D : Type} := { om_ExDate : Z; om_OCC : IdentifierInput; om_Strike : D }.
#[global] Arguments OptionMint : clear implicits.

Record OptionSplitParams {D : Type} := {
  osp_InstrumentID : string;
  osp_OldOCCValue : string;
  osp_Mints : list (OptionMint D);
}.
#[global] Arguments OptionSplitParams : clear implicits.

(** An option as it was read, with its names in the order they are listed. *)
Record PendingOptionSplits {D : Type} := {
  po_ID : string;
  po_Option : instrument D;
  po_Identifiers : list IdentifierInput;
  po_Splits : list (StockSplit D);
}.
#[global] Arguments PendingOptionSplits : clear implicits.

Definition split_key {D} (s : StockSplit D) : string * Z := (ss_InstrumentID s, ss_ExDate s).

Definition ex_cmp {D} (s s' : StockSplit D) : comparison := (ss_ExDate s ?= ss_ExDate s')%Z.

#[export] Instance UnhandledCorporateEvent_eq_dec : EqDecision UnhandledCorporateEvent.
Proof. solve_decision. Defined.

Section splits.
Context {D : Type} `{Decimal D}.
Context (uuid_ok : string → bool) (operating_mic : string → option string).
Context (parse_dec : string → option D) (pg_div : D → D → D) (first_row : list identifier → option identifier).
Context (today : Z).
Implicit Types (m : market D) (s : StockSplit D).

Definition with_shop (st : store D) m : market D := {|
  shop := st; stock_splits := stock_splits m; eod_prices := eod_prices m; adjusted_txs := adjusted_txs m;
  adjusted_prices := adjusted_prices m; unhandled := unhandled m |}.

Definition with_unhandled (l : list UnhandledCorporateEvent) m : market D := {|
  shop := shop m; stock_splits := stock_splits m; eod_prices := eod_prices m; adjusted_txs := adjusted_txs m;
  adjusted_prices := adjusted_prices m; unhandled := l |}.

(** ** The table of splits *)

(** The row written over a stored one keeps the earlier of the two stamps. *)
Definition restamped (old new : option Z) : option Z :=
  match old, new with Some a, Some b => Some (Z.min a b) | Some a, None => Some a | None, b => b end.

Fixpoint upsert_split s (l : list (StockSplit D)) : list (StockSplit D) :=
  match l with
  | [] => [s]
  | r :: l =>
      if decide (split_key r = split_key s) then
        {| ss_InstrumentID := ss_InstrumentID s; ss_ExDate := ss_ExDate s; ss_SplitFrom := ss_SplitFrom s;
           ss_SplitTo := ss_SplitTo s; ss_DataProvider := ss_DataProvider s;
           ss_FirstKnownAt := restamped (ss_FirstKnownAt r) (ss_FirstKnownAt s) |} :: l
      else r :: upsert_split s l
  end.

Definition stamped (now : Z) s : StockSplit D :=
  {| ss_InstrumentID := ss_InstrumentID s; ss_ExDate := ss_ExDate s; ss_SplitFrom := ss_SplitFrom s;
     ss_SplitTo := ss_SplitTo s; ss_DataProvider := ss_DataProvider s;
     ss_FirstKnownAt := Some (default now (ss_FirstKnownAt s)) |}.

(** One statement, which may not touch a row twice; a ratio has two positive halves. *)
Definition UpsertStockSplits (now : Z) (l : list (StockSplit D)) m : option (market D) :=
  match l with [] => Some m | _ =>
  if negb (forallb (λ s, uuid_ok (ss_InstrumentID s) && bool_decide (is_Some (instruments (shop m) !! ss_InstrumentID s))
                         && is_pos (ss_SplitFrom s) && is_pos (ss_SplitTo s)) l)
     || negb (bool_decide (NoDup (split_key <$> l))) then None
  else Some {| shop := shop m; stock_splits := foldl (λ t s, upsert_split (stamped now s) t) (stock_splits m) l;
               eod_prices := eod_prices m; adjusted_txs := adjusted_txs m; adjusted_prices := adjusted_prices m;
               unhandled := unhandled m |}
  end.

Definition ListStockSplits (id : string) m : option (list (StockSplit D)) :=
  if negb (uuid_ok id) then None
  else Some (go_sort (less_of ex_cmp) (filter (λ s, ss_InstrumentID s = id) (stock_splits m))).

Definition DeleteStockSplit (id : string) (ex : Z) m : option (market D) :=
  if negb (uuid_ok id) then None
  else Some {| shop := shop m; stock_splits := filter (λ s, split_key s ≠ (id, ex)) (stock_splits m);
               eod_prices := eod_prices m; adjusted_txs := adjusted_txs m; adjusted_prices := adjusted_prices m;
               unhandled := unhandled m |}.

(** ** The cumulative factor *)

(** Whether a split is one of an instrument's, or of what it is written on. *)
Definition splits_of (id : string) s m : bool :=
  String.eqb (ss_InstrumentID s) id
  || match instruments (shop m) !! id with
     | Some i => bool_decide (underlying_id i = Some (ss_InstrumentID s))
     | None => false
     end.

(** The splits in effect after a reference date. *)
Definition effective (reference : Z) s : bool := (reference <? ss_ExDate s)%Z && (ss_ExDate s <=? today)%Z.

Definition mul (l : list D) : D := foldl dec_mul (dec_of_int 1) l.

(** The numerator and the denominator; the division is left to the caller. *)
Definition split_factor_at (id : string) (reference : Z) m : D * D :=
  let l := filter (λ s, splits_of id s m && effective reference s = true) (stock_splits m) in
  (mul (ss_SplitTo <$> l), mul (ss_SplitFrom <$> l)).

(** [NUMERIC(38, 12)] *)
Definition to_column (x : D) : D := dec_round x 12.

(** The date a posting's share count was current; the trigger fills it in. *)
Definition basis_of (t : row D) : Z := default (day_of (r_trade_date t)) (r_share_basis t).

Definition adjust_tx (f : D * D) (t : row D) : adjusted_tx D :=
  let '(num, den) := f in
  {| adj_quantity := to_column (pg_div (dec_mul (r_quantity t) num) den);
     adj_unit_price := (λ p, to_column (pg_div (dec_mul p den) num)) <$> r_unit_price t |}.

Definition adjust_price (f : D * D) (b : PriceStore.EODPrice D) : adjusted_bar D :=
  let '(num, den) := f in
  let scale x := to_column (pg_div (dec_mul x den) num) in
  {| adj_open := scale <$> PriceStore.Open b; adj_high := scale <$> PriceStore.High b;
     adj_low := scale <$> PriceStore.Low b; adj_close := scale (PriceStore.Close b);
     adj_volume := (λ v, dec_int_part (dec_round (pg_div (dec_mul (dec_of_int v) num) den) 0)) <$> PriceStore.Volume b |}.

(** Which instruments a call is about. *)
Definition recomputed (instrumentID : string) (id : string) m : bool :=
  if String.eqb instrumentID EmptyString then bool_decide (id ∈ ss_InstrumentID <$> stock_splits m)
  else String.eqb id instrumentID.

Definition adjust_posting (instrumentID : string) m (acc : gmap string (adjusted_tx D)) (t : row D)
    : gmap string (adjusted_tx D) :=
  match r_instrument t with
  | Some id => if recomputed instrumentID id m
               then <[r_id t := adjust_tx (split_factor_at id (basis_of t) m) t]> acc else acc
  | None => acc
  end.

Definition RecomputeSplitAdjustments (instrumentID : string) m : option (market D) :=
  if negb (String.eqb instrumentID EmptyString) && negb (uuid_ok instrumentID) then None else
  Some {| shop := shop m; stock_splits := stock_splits m; eod_prices := eod_prices m;
          adjusted_txs := foldl (adjust_posting instrumentID m) (adjusted_txs m) (txs (book (shop m)));
          adjusted_prices := map_imap (λ k b,
              if recomputed instrumentID k.1 m
              then Some (adjust_price (split_factor_at k.1 (PriceStore.st_basis b) m) (PriceStore.st_bar b))
              else adjusted_prices m !! k) (eod_prices m);
          unhandled := unhandled m |}.

(** ** The names of an option *)

(** The OCC rows of an option still in force. *)
Definition open_occ (id : string) (ids : list identifier) : list identifier :=
  filter (λ r, holder r = id ∧ ref_Type (ii_Ref (naming r)) = "OCC" ∧ ii_ValidBefore (naming r) = None) ids.

(** [ORDER BY ii.valid_from DESC NULLS LAST] *)
Definition from_cmp (r r' : identifier) : comparison :=
  match ii_ValidFrom (naming r), ii_ValidFrom (naming r') with
  | None, None => Eq
  | Some _, None => Lt
  | None, Some _ => Gt
  | Some a, Some b => (b ?= a)%Z
  end.

Definition in_force_from (id : string) (ids : list identifier) : option Z :=
  head (go_sort (less_of from_cmp) (open_occ id ids)) ≫= λ r, ii_ValidFrom (naming r).

(** [SELECT MIN(t.trade_date)::date] *)
Definition first_trade (id : string) (l : ledger D) : option Z :=
  foldr (λ t acc, if decide (r_instrument t = Some id)
                  then Some (match acc with Some b => Z.min (day_of (r_trade_date t)) b | None => day_of (r_trade_date t) end)
                  else acc) None (txs l).

(** The date the name in force is known to have been good from; none is before all. *)
Definition name_floor (id : string) m : option Z :=
  coalesce (in_force_from id (identifiers (shop m))) (first_trade id (book (shop m))).

Definition after (floor : option Z) (d : Z) : bool := match floor with Some f => (f <? d)%Z | None => true end.

Definition pending_splits (id : string) (o : instrument D) m : list (StockSplit D) :=
  if bool_decide (asset_class o = Some "OPTION") then
    go_sort (less_of ex_cmp) (filter (λ s,
      underlying_id o = Some (ss_InstrumentID s) ∧
      (ss_ExDate s <=? today)%Z
      && match expiry o with Some e => (ss_ExDate s <=? e)%Z | None => false end
      && after (name_floor id m) (ss_ExDate s) = true) (stock_splits m))
  else [].

(** The names of an instrument in the order [loadIdentifiers] lists them. *)
Definition names_listed (id : string) (ids : list identifier) : list IdentifierInput :=
  naming <$> go_sort (less_of before_cmp) (filter (λ r, holder r = id) ids).

Definition pending_option (underlyingID : string) m (id : string) : option (PendingOptionSplits D) :=
  o ← instruments (shop m) !! id;
  if String.eqb underlyingID EmptyString || bool_decide (underlying_id o = Some underlyingID) then
    match pending_splits id o m with
    | [] => None
    | l => Some {| po_ID := id; po_Option := o; po_Identifiers := names_listed id (identifiers (shop m)); po_Splits := l |}
    end
  else None.

Definition ListPendingOptionSplits (underlyingID : string) m : option (list (PendingOptionSplits D)) :=
  if negb (String.eqb underlyingID EmptyString) && negb (uuid_ok underlyingID) then None
  else Some (omap (pending_option underlyingID m) (sort_strings (elements (dom (instruments (shop m)))))).

(** ** Restating one option *)

(** A merge, with what goes with the instrument that is deleted. *)
Definition merge_market (survivor away : string) m : option (market D) :=
  st ← mergeInstruments survivor away (shop m);
  Some {| shop := st;
          stock_splits := filter (λ s, ss_InstrumentID s ≠ away) (stock_splits m);
          eod_prices := filter (λ kb, kb.1.1 ≠ away) (eod_prices m);
          adjusted_txs := adjusted_txs m;
          adjusted_prices := filter (λ kb, kb.1.1 ≠ away) (adjusted_prices m);
          unhandled := filter (λ e, ev_InstrumentID e ≠ away) (unhandled m) |}.

(** A range that runs backwards is an error, and an empty one overlaps nothing. *)
Definition identifierHolder (i : IdentifierInput) (ids : list identifier) : option (option string) :=
  match ii_ValidFrom i, ii_ValidBefore i with
  | Some f, Some b =>
      if (b <? f)%Z then None
      else if (f =? b)%Z then Some None
      else Some (holder <$> first_row (filter (λ r, clashes i r = true) ids))
  | _, _ => Some (holder <$> first_row (filter (λ r, clashes i r = true) ids))
  end.

Definition absorbDuplicateHolder (id : string) (i : IdentifierInput) m : option (market D) :=
  found ← identifierHolder i (identifiers (shop m));
  match found with
  | None => Some m
  | Some h => if String.eqb h id then Some m else merge_market id h m
  end.

Definition absorb_all (id : string) (l : list IdentifierInput) m : option (market D) :=
  foldl (λ acc i, m ← acc; absorbDuplicateHolder id i m) (Some m) l.

(** Each name holds until the next is minted. *)
Fixpoint mint_rows (mints : list (OptionMint D)) : list IdentifierInput :=
  match mints with
  | [] => []
  | p :: rest =>
      {| ii_Ref := ii_Ref (om_OCC p); ii_Canonical := ii_Canonical (om_OCC p);
         ii_ValidFrom := Some (om_ExDate p);
         ii_ValidBefore := match rest with q :: _ => Some (om_ExDate q) | [] => ii_ValidBefore (om_OCC p) end |}
      :: mint_rows rest
  end.

(** The rows of an option's history from a date on. *)
Definition in_window (id : string) (from : Z) (r : identifier) : bool :=
  bool_decide (holder r = id ∧ ref_Type (ii_Ref (naming r)) = "OCC")
  && match ii_ValidFrom (naming r) with Some f => (from <=? f)%Z | None => false end.

Definition close_row (id : string) (from : Z) (r : identifier) : identifier :=
  if bool_decide (holder r = id ∧ ref_Type (ii_Ref (naming r)) = "OCC" ∧ ii_ValidBefore (naming r) = None) then
    {| holder := holder r;
       naming := {| ii_Ref := ii_Ref (naming r); ii_Canonical := ii_Canonical (naming r);
                    ii_ValidFrom := ii_ValidFrom (naming r); ii_ValidBefore := Some from |} |}
  else r.

(** The window cleared and what is left in force closed. *)
Definition closed_names (id : string) (from : Z) (ids : list identifier) : list identifier :=
  close_row id from <$> filter (λ r, in_window id from r = false) ids.

Definition ApplyOptionSplit (p : OptionSplitParams D) m : option (market D) :=
  match osp_Mints p with
  | [] => None
  | first :: _ =>
      let id := osp_InstrumentID p in
      if negb (uuid_ok id) then None else
      let rows := mint_rows (osp_Mints p) in
      m ← absorb_all id rows m;
      let ids := closed_names id (om_ExDate first) (identifiers (shop m)) in
      if negb (forallb (interval_ok ∘ naming) ids) || negb (bool_decide (is_Some (instruments (shop m) !! id))) then None else
      match insert_names id rows ids with
      | Inserted ids =>
          st ← UpdateInstrumentStrike uuid_ok operating_mic id
                 (from_option om_Strike (om_Strike first) (last (osp_Mints p))) (with_identifiers ids (shop m));
          RecomputeSplitAdjustments id (with_shop st m)
      | _ => None
      end
  end.

(** ** Unhandled events *)

(** An unresolved event is recorded once. *)
Definition InsertUnhandledCorporateEvent (id type : string) (ex : option Z) m : option (market D) :=
  if negb (uuid_ok id) || negb (bool_decide (is_Some (instruments (shop m) !! id))) then None else
  let e := {| ev_InstrumentID := id; ev_EventType := type; ev_ExDate := ex; ev_Resolved := false |} in
  if bool_decide (is_Some ex) && bool_decide (e ∈ unhandled m) then Some m else Some (with_unhandled (unhandled m ++ [e]) m).

Definition event_type s : string :=
  if dec_ltb (ss_SplitTo s) (ss_SplitFrom s) then "REVERSE_SPLIT" else "NON_WHOLE_SPLIT".

(** A failure is logged and passed over. *)
Definition insertUnhandledSplit (id : string) s m : market D :=
  default m (InsertUnhandledCorporateEvent id (event_type s) (Some (ss_ExDate s)) m).

(** ** The pass *)

Definition IsWholeForwardSplit (splitFrom splitTo : D) : bool :=
  let from := dval splitFrom in
  let to := dval splitTo in
  if Qle_bool from 0 || Qle_bool to 0 then false else
  let ratio := Qred (to / from) in
  (Qden ratio =? 1)%positive && negb (Qle_bool ratio 1).

(** A split and the product of the ratios up to it. *)
Record factor := { f_split : StockSplit D; f_num : D; f_den : D }.

Record blockedSplit := { bl_split : StockSplit D; bl_options : list string }.

Fixpoint block s (opt : string) (l : list blockedSplit) : list blockedSplit :=
  match l with
  | [] => [{| bl_split := s; bl_options := [opt] |}]
  | b :: l => if decide (split_key (bl_split b) = split_key s)
              then {| bl_split := bl_split b; bl_options := bl_options b ++ [opt] |} :: l
              else b :: block s opt l
  end.

Record reading := { rd_num : D; rd_den : D; rd_factors : list factor; rd_unhandled : bool; rd_blocked : list blockedSplit }.

Definition read_split (opt : string) (acc : reading) s : reading :=
  if negb (IsWholeForwardSplit (ss_SplitFrom s) (ss_SplitTo s)) then
    {| rd_num := rd_num acc; rd_den := rd_den acc; rd_factors := rd_factors acc; rd_unhandled := true;
       rd_blocked := block s opt (rd_blocked acc) |}
  else
    let num := dec_mul (rd_num acc) (ss_SplitTo s) in
    let den := dec_mul (rd_den acc) (ss_SplitFrom s) in
    {| rd_num := num; rd_den := den;
       rd_factors := rd_factors acc ++ [{| f_split := s; f_num := num; f_den := den |}];
       rd_unhandled := rd_unhandled acc; rd_blocked := rd_blocked acc |}.

Definition read_splits (opt : string) (l : list (StockSplit D)) (blocked : list blockedSplit) : reading :=
  foldl (read_split opt)
    {| rd_num := dec_of_int 1; rd_den := dec_of_int 1; rd_factors := []; rd_unhandled := false; rd_blocked := blocked |} l.

Definition mint_of (parsed : Derivative.ParsedOption D) (strike : D) (f : factor) : option (OptionMint D) :=
  let strike := Derivative.AdjustStrike strike (f_num f) (f_den f) in
  occ ← Derivative.BuildOCCCompact (Derivative.Symbol parsed) (Derivative.Expiry parsed) (Derivative.PutCall parsed) strike;
  Some {| om_ExDate := ss_ExDate (f_split f);
          om_OCC := {| ii_Ref := {| ref_Type := "OCC"; ref_Value := occ; ref_Domain := EmptyString |};
                       ii_Canonical := true; ii_ValidFrom := None; ii_ValidBefore := None |};
          om_Strike := strike |}.

(** The mints, or the split whose name cannot be built. *)
Fixpoint mint_all (parsed : Derivative.ParsedOption D) (strike : D) (l : list factor) : list (OptionMint D) + StockSplit D :=
  match l with
  | [] => inl []
  | f :: l =>
      match mint_of parsed strike f with
      | None => inr (f_split f)
      | Some p => match mint_all parsed strike l with inl ps => inl (p :: ps) | inr s => inr s end
      end
  end.

Definition current_occ (l : list IdentifierInput) : string :=
  default EmptyString ((λ i, ref_Value (ii_Ref i)) <$>
    head (filter (λ i, ref_Type (ii_Ref i) = "OCC" ∧ ii_ValidBefore i = None) l)).

Definition applyOptionSplits (p : PendingOptionSplits D) (factors : list factor) m : bool * market D :=
  match last factors, strike (po_Option p), expiry (po_Option p), put_call (po_Option p) with
  | Some latest, Some k, Some _, Some _ =>
      let currentOCC := current_occ (po_Identifiers p) in
      if String.eqb currentOCC EmptyString then (false, m) else
      match Derivative.ParseOptionTicker parse_dec currentOCC with
      | None => (false, insertUnhandledSplit (po_ID p) (f_split latest) m)
      | Some parsed =>
          match mint_all parsed k factors with
          | inr s => (false, insertUnhandledSplit (po_ID p) s m)
          | inl mints =>
              match ApplyOptionSplit {| osp_InstrumentID := po_ID p; osp_OldOCCValue := currentOCC; osp_Mints := mints |} m with
              | Some m => (true, m)
              | None => (false, m)
              end
          end
      end
  | _, _, _, _ => (false, m)
  end.

Record passing := { ps_adjusted : list string; ps_blocked : list blockedSplit; ps_market : market D }.

Definition pass_option (acc : passing) (p : PendingOptionSplits D) : passing :=
  let rd := read_splits (po_ID p) (po_Splits p) (ps_blocked acc) in
  if rd_unhandled rd then
    {| ps_adjusted := ps_adjusted acc; ps_blocked := rd_blocked rd; ps_market := ps_market acc |}
  else
    let '(restated, m) := applyOptionSplits p (rd_factors rd) (ps_market acc) in
    {| ps_adjusted := if restated then ps_adjusted acc ++ [po_ID p] else ps_adjusted acc;
       ps_blocked := rd_blocked rd; ps_market := m |}.

(** The options restated, and the state they leave. *)
Definition ProcessPendingOptionSplits (underlyingID : string) m : list string * market D :=
  match ListPendingOptionSplits underlyingID m with
  | None => ([], m)
  | Some pending =>
      let r := foldl pass_option {| ps_adjusted := []; ps_blocked := []; ps_market := m |} pending in
      (ps_adjusted r,
       foldl (λ m b, insertUnhandledSplit (ss_InstrumentID (bl_split b)) (bl_split b) m) (ps_market r) (ps_blocked r))
  end.
End splits.

(** ** Whole splits *)

Section ratios.
Context {D : Type} `{DecimalLaws D}.

Lemma qden_one (q : Q) : Qden (Qred q) = 1%positive ↔ ∃ n, (q == inject_Z n)%Q.
Proof.
  split.
  - intros E. exists (Qnum (Qred q)). rewrite <- (Qred_correct q) at 1. destruct (Qred q) as [a b].
    simpl in *. by subst.
  - intros [n E]. rewrite (Qred_complete _ _ E). unfold inject_Z, Qred.
    pose proof (Z.ggcd_correct_divisors n 1) as Hd. pose proof (Z.ggcd_gcd n 1) as Hg.
    destruct (Z.ggcd n 1) as [g [a b]]. simpl in *. rewrite Z.gcd_1_r in Hg. subst g.
    destruct Hd as [_ Hb]. by replace b with 1%Z by lia.
Qed.

Lemma qle_bool_false (a b : Q) : Qle_bool a b = false ↔ (b < a)%Q.
Proof.
  rewrite <- not_true_iff_false, Qle_bool_iff. split; [apply Qnot_le_lt|apply Qlt_not_le].
Qed.

Lemma whole_split_iff (splitFrom splitTo : D) :
  IsWholeForwardSplit splitFrom splitTo = true ↔
  (0 < dval splitFrom)%Q ∧ ∃ n, (2 ≤ n)%Z ∧ (dval splitTo == inject_Z n * dval splitFrom)%Q.
Proof.
  unfold IsWholeForwardSplit. set (f := dval splitFrom). set (t := dval splitTo). clearbody f t.
  destruct (Qle_bool f 0) eqn:Ef; cbn [orb].
  { apply Qle_bool_iff in Ef. split; [done|]. intros [? _]. exfalso. lra. }
  apply qle_bool_false in Ef.
  assert (∀ n, (t / f == inject_Z n ↔ t == inject_Z n * f)%Q) as Hdiv.
  { intros n. split; intros E; [rewrite <- E|rewrite E]; field; lra. }
  destruct (Qle_bool t 0) eqn:Et.
  { apply Qle_bool_iff in Et. split; [done|]. intros (_ & n & Hn & E). exfalso.
    assert (2 <= inject_Z n)%Q by (change 2%Q with (inject_Z 2); by rewrite <- Zle_Qle). nra. }
  cbv zeta. rewrite andb_true_iff, negb_true_iff, Pos.eqb_eq, qle_bool_false, qden_one.
  pose proof (Qred_correct (t / f)) as Hred. split.
  - intros [[n Hn] Hlt]. split; [done|]. exists n. split; [|by apply Hdiv].
    rewrite Hred, Hn in Hlt. change 1%Q with (inject_Z 1) in Hlt. rewrite <- Zlt_Qlt in Hlt. lia.
  - intros (_ & n & Hn & E%Hdiv). split; [by exists n|]. rewrite Hred, E.
    change 1%Q with (inject_Z 1). rewrite <- Zlt_Qlt. lia.
Qed.

Lemma whole_split_pos (splitFrom splitTo : D) : IsWholeForwardSplit splitFrom splitTo = true →
  (0 < dval splitFrom)%Q ∧ (0 < dval splitTo)%Q.
Proof.
  intros (Hf & n & Hn & E)%whole_split_iff. split; [done|]. rewrite E.
  assert (2 <= inject_Z n)%Q by (change 2%Q with (inject_Z 2); by rewrite <- Zle_Qle). nra.
Qed.

Lemma q_round_proper q r p : (q == r)%Q → (q_round q p == q_round r p)%Q.
Proof.
  intros E. unfold q_round. assert (q * Qpower 10 p == r * Qpower 10 p)%Q as Es by by rewrite E.
  rewrite (Derivative.qnum_sgn _ _ Es). by rewrite Es.
Qed.

(** A split is restated when its two halves are positive and one is a whole multiple,
    at least twice, of the other: two for one and seven for one, also written six for
    three, but not three for two nor one for ten. *)
Theorem whole_forward_split (splitFrom splitTo : D) :
  IsWholeForwardSplit splitFrom splitTo = true ↔
  (0 < dval splitFrom)%Q ∧ ∃ n, (2 ≤ n)%Z ∧ (dval splitTo == inject_Z n * dval splitFrom)%Q.
Proof. apply whole_split_iff. Qed.
End ratios.

(** ** Names minted *)

Section mints.
Context {D : Type}.
Implicit Types (mints : list (OptionMint D)) (ids : list identifier).

Definition mints_ok mints : Prop :=
  StronglySorted (λ p q, (om_ExDate p < om_ExDate q)%Z) mints ∧
  Forall (λ p, ref_Type (ii_Ref (om_OCC p)) = "OCC" ∧ ii_ValidBefore (om_OCC p) = None) mints.

Lemma mint_rows_elem mints i : i ∈ mint_rows mints →
  ∃ p, p ∈ mints ∧ ii_ValidFrom i = Some (om_ExDate p) ∧ ii_Ref i = ii_Ref (om_OCC p).
Proof.
  induction mints as [|p l IH]; cbn [mint_rows]; [by intros ?%elem_of_nil|].
  intros [->|Hi]%elem_of_cons.
  - exists p. split; [left|done].
  - destruct (IH Hi) as (q & ? & ? & ?). exists q. split; [by right|done].
Qed.

Lemma mint_rows_type mints i : mints_ok mints → i ∈ mint_rows mints → ref_Type (ii_Ref i) = "OCC".
Proof.
  intros [_ Hf] (p & Hp & _ & ->)%mint_rows_elem. by eapply Forall_forall in Hf as [? _].
Qed.

Lemma mints_ok_cons p l : mints_ok (p :: l) → mints_ok l.
Proof. intros [Hs Hf]. apply StronglySorted_inv in Hs as [? _]. by apply Forall_cons in Hf as [_ ?]. Qed.

Lemma mints_ok_later p l q : mints_ok (p :: l) → q ∈ l → (om_ExDate p < om_ExDate q)%Z.
Proof. intros [[_ Hs]%StronglySorted_inv _] Hq. by eapply Forall_forall in Hs. Qed.

Lemma mint_rows_interval mints i : mints_ok mints → i ∈ mint_rows mints → interval_ok i = true.
Proof.
  induction mints as [|p l IH]; cbn [mint_rows]; [by intros _ ?%elem_of_nil|].
  intros Hok [->|Hi]%elem_of_cons; [|by apply IH; [eapply mints_ok_cons|]].
  unfold interval_ok. cbn [ii_ValidFrom ii_ValidBefore below]. destruct l as [|q l].
  - destruct Hok as [_ [[_ ->] _]%Forall_cons]. done.
  - apply Z.ltb_lt. apply (mints_ok_later p (q :: l)); [done|left].
Qed.

Lemma mint_rows_disjoint mints : mints_ok mints → StronglySorted (λ i j, overlaps i j = false) (mint_rows mints).
Proof.
  induction mints as [|p l IH]; cbn [mint_rows]; intros Hok; [constructor|].
  pose proof (mints_ok_cons _ _ Hok) as Hl. constructor; [by apply IH|]. apply Forall_forall. intros j Hj.
  unfold overlaps. cbn [ii_ValidBefore]. destruct l as [|q l]; [by apply elem_of_nil in Hj|].
  apply mint_rows_elem in Hj as (r & Hr & -> & _). apply andb_false_iff. right. cbn [below].
  apply Z.ltb_ge. apply elem_of_cons in Hr as [->|Hr]; [lia|].
  pose proof (mints_ok_later q l r Hl Hr). lia.
Qed.

(** ** The names in force on a date *)

Definition holds_on (d : Z) (i : IdentifierInput) : bool :=
  match ii_ValidFrom i with Some f => (f <=? d)%Z | None => true end
  && match ii_ValidBefore i with Some b => (d <? b)%Z | None => true end.

Definition occ_row (id : string) (r : identifier) : bool :=
  String.eqb (holder r) id && String.eqb (ref_Type (ii_Ref (naming r))) "OCC".

Definition occ_on (id : string) (d : Z) ids : list InstrumentRef :=
  (λ r, ii_Ref (naming r)) <$> filter (λ r, occ_row id r && holds_on d (naming r) = true) ids.

(** The last of the names minted by a date. *)
Definition minted_on (d : Z) mints : option InstrumentRef :=
  (λ p, ii_Ref (om_OCC p)) <$> last (filter (λ p, (om_ExDate p <= d)%Z) mints).

Lemma occ_on_app id d l k : occ_on id d (l ++ k) = occ_on id d l ++ occ_on id d k.
Proof. unfold occ_on. by rewrite filter_app, fmap_app. Qed.

Lemma occ_on_cons id d r l :
  occ_on id d (r :: l) = if occ_row id r && holds_on d (naming r) then ii_Ref (naming r) :: occ_on id d l else occ_on id d l.
Proof. unfold occ_on. rewrite filter_cons. by destruct (occ_row id r && holds_on d (naming r)). Qed.

Lemma occ_on_none id d l : (∀ r, r ∈ l → occ_row id r = true → holds_on d (naming r) = false) → occ_on id d l = [].
Proof.
  induction l as [|r l IH]; intros Hn; [done|]. rewrite occ_on_cons.
  rewrite IH by (intros; apply Hn; [by right|done]).
  destruct (occ_row id r) eqn:E; [|done]. by rewrite (Hn r) by (done || left).
Qed.

Lemma filter_none_later d mints : (∀ q, q ∈ mints → (d < om_ExDate q)%Z) → filter (λ p, (om_ExDate p <= d)%Z) mints = [].
Proof.
  induction mints as [|p l IH]; intros Hl; [done|]. rewrite filter_cons, decide_False.
  - apply IH. intros q Hq. apply Hl. by right.
  - pose proof (Hl p ltac:(left)). lia.
Qed.

Lemma occ_on_mints id d mints : mints_ok mints →
  occ_on id d (held_by id <$> mint_rows mints) = option_list (minted_on d mints).
Proof.
  induction mints as [|p l IH]; [done|]. intros Hok. pose proof (mints_ok_cons _ _ Hok) as Hl.
  cbn [mint_rows]. rewrite fmap_cons, occ_on_cons, IH by done.
  assert (occ_row id (held_by id {| ii_Ref := ii_Ref (om_OCC p); ii_Canonical := ii_Canonical (om_OCC p);
    ii_ValidFrom := Some (om_ExDate p);
    ii_ValidBefore := match l with q :: _ => Some (om_ExDate q) | [] => ii_ValidBefore (om_OCC p) end |}) = true) as ->.
  { destruct Hok as [_ [[Ht _] _]%Forall_cons]. unfold occ_row. simpl. by rewrite Ht, !String.eqb_refl. }
  unfold minted_on. rewrite filter_cons. cbn [andb held_by naming ii_Ref]. unfold holds_on. cbn [ii_ValidFrom ii_ValidBefore].
  destruct (decide (om_ExDate p <= d)%Z) as [Hd|Hd].
  - rewrite (proj2 (Z.leb_le _ _)) by done. cbn [andb]. destruct l as [|q l].
    + destruct Hok as [_ [[_ ->] _]%Forall_cons]. done.
    + rewrite filter_cons. destruct (decide (om_ExDate q <= d)%Z) as [Hq|Hq].
      * by rewrite (proj2 (Z.ltb_ge _ _)).
      * rewrite (proj2 (Z.ltb_lt _ _)) by lia. rewrite filter_none_later; [done|].
        intros r Hr. pose proof (mints_ok_later _ _ _ Hl Hr). lia.
  - rewrite (proj2 (Z.leb_gt _ _)) by lia. cbn [andb]. rewrite filter_none_later; [done|].
    intros r Hr. pose proof (mints_ok_later _ _ _ Hok Hr). lia.
Qed.
End mints.

(** ** Clearing the window *)

Lemma names_ok_filter (P : identifier → Prop) `{∀ r, Decision (P r)} ids : names_ok ids → names_ok (filter P ids).
Proof.
  induction ids as [|x ids IH] using rev_ind; [done|].
  rewrite names_ok_snoc, filter_app, filter_cons, filter_nil. intros (Hok & Hi & Hc).
  destruct (decide (P x)); [|rewrite app_nil_r; by apply IH].
  rewrite names_ok_snoc. split_and!; [by apply IH|done|].
  apply not_true_iff_false. intros (r & Hr%list_elem_of_In & Hcl)%existsb_exists.
  apply list_elem_of_filter in Hr as [_ Hr]. apply not_true_iff_false in Hc. apply Hc.
  apply existsb_exists. exists r. split; [by apply list_elem_of_In|done].
Qed.

(** Names whose intervals only shrink stay apart. *)
Lemma names_ok_shrink (f : identifier → identifier) ids : names_ok ids →
  (∀ r, r ∈ ids → ii_Ref (naming (f r)) = ii_Ref (naming r) ∧ interval_ok (naming (f r)) = true) →
  (∀ r r', overlaps (naming (f r)) (naming (f r')) = true → overlaps (naming r) (naming r') = true) →
  names_ok (f <$> ids).
Proof.
  intros [Hi Hc] Hf Ho. split.
  - apply Forall_fmap, Forall_forall. intros r Hr. by apply Hf.
  - intros a b x y. rewrite !list_lookup_fmap. intros (r & Ha & ->)%fmap_Some (r' & Hb & ->)%fmap_Some.
    rewrite clashes_true. intros [E Hov]. apply (Hc a b r r'); [done..|]. apply clashes_true.
    split; [|by apply Ho].
    by rewrite <- (proj1 (Hf r (list_elem_of_lookup_2 _ _ _ Ha))), <- (proj1 (Hf r' (list_elem_of_lookup_2 _ _ _ Hb))).
Qed.

Lemma names_ok_rows id l rows : names_ok l →
  (∀ i, i ∈ rows → interval_ok i = true ∧ ∀ r, r ∈ l → clashes i r = false) →
  StronglySorted (λ i j, overlaps i j = false) rows →
  names_ok (l ++ (held_by id <$> rows)).
Proof.
  revert l. induction rows as [|i rows IH]; intros l Hok Hr Hs; [by rewrite app_nil_r|].
  rewrite fmap_cons, cons_middle, app_assoc. apply StronglySorted_inv in Hs as [Hs Hi]. apply IH; [|intros j Hj; split|done].
  - apply names_ok_snoc. destruct (Hr i ltac:(left)) as [Hii Hc]. split_and!; [done|done|].
    apply not_true_iff_false. intros (r & Hrl%list_elem_of_In & Hcl)%existsb_exists.
    rewrite Hc in Hcl; done.
  - apply Hr. by right.
  - intros r [Hrl| ->%list_elem_of_singleton]%elem_of_app; [apply Hr; [by right|done]|].
    unfold clashes. simpl. eapply Forall_forall in Hi as ->; [|done]. apply andb_false_r.
Qed.

Section windows.
Context (id : string) (from : Z).
Implicit Types (r : identifier) (ids : list identifier).

Lemma in_window_true r : in_window id from r = true ↔
  occ_row id r = true ∧ ∃ f, ii_ValidFrom (naming r) = Some f ∧ (from <= f)%Z.
Proof.
  unfold in_window, occ_row. rewrite !andb_true_iff, bool_decide_eq_true, !String.eqb_eq.
  destruct (ii_ValidFrom (naming r)) as [f|].
  - rewrite Z.leb_le. naive_solver.
  - naive_solver.
Qed.

Lemma in_window_false r : in_window id from r = false ↔
  (occ_row id r = true → ∀ f, ii_ValidFrom (naming r) = Some f → (f < from)%Z).
Proof.
  rewrite <- not_true_iff_false, in_window_true. split.
  - intros Hn Ho f Hf. destruct (decide (f < from)%Z) as [|Hge]; [done|]. destruct Hn. split; [done|].
    exists f. split; [done|lia].
  - intros Hl (Ho & f & Hf & Hge). pose proof (Hl Ho f Hf). lia.
Qed.

Lemma close_row_cases r :
  (occ_row id r = true ∧ ii_ValidBefore (naming r) = None ∧
   close_row id from r = {| holder := holder r;
       naming := {| ii_Ref := ii_Ref (naming r); ii_Canonical := ii_Canonical (naming r);
                    ii_ValidFrom := ii_ValidFrom (naming r); ii_ValidBefore := Some from |} |}) ∨
  ((occ_row id r = false ∨ is_Some (ii_ValidBefore (naming r))) ∧ close_row id from r = r).
Proof.
  unfold close_row, occ_row. rewrite andb_true_iff, !String.eqb_eq.
  destruct (bool_decide _) eqn:E.
  - apply bool_decide_eq_true in E as (? & ? & ?). by left.
  - apply bool_decide_eq_false in E. right. split; [|done].
    destruct (ii_ValidBefore (naming r)); [right; by eexists|]. left.
    apply not_true_iff_false. rewrite andb_true_iff, !String.eqb_eq. naive_solver.
Qed.

Lemma close_row_same r : holder (close_row id from r) = holder r ∧ ii_Ref (naming (close_row id from r)) = ii_Ref (naming r) ∧
  ii_ValidFrom (naming (close_row id from r)) = ii_ValidFrom (naming r).
Proof. by destruct (close_row_cases r) as [(_ & _ & ->)|[_ ->]]. Qed.

Lemma close_row_occ r : occ_row id (close_row id from r) = occ_row id r.
Proof. destruct (close_row_same r) as (Hh & Hr & _). unfold occ_row. by rewrite Hh, Hr. Qed.

Lemma close_row_overlaps r r' :
  overlaps (naming (close_row id from r)) (naming (close_row id from r')) = true → overlaps (naming r) (naming r') = true.
Proof.
  unfold overlaps. destruct (close_row_same r) as (_ & _ & ->), (close_row_same r') as (_ & _ & ->).
  assert (∀ f x, below f (ii_ValidBefore (naming (close_row id from x))) = true →
    below f (ii_ValidBefore (naming x)) = true) as Hb.
  { intros f x. destruct (close_row_cases x) as [(_ & -> & _)|[_ ->]]; [|done]. by destruct f. }
  rewrite !andb_true_iff. intros [? ?]. split; by apply Hb.
Qed.

Lemma close_row_interval r : interval_ok (naming r) = true → in_window id from r = false →
  interval_ok (naming (close_row id from r)) = true.
Proof.
  intros Hi Hw. destruct (close_row_cases r) as [(Ho & _ & ->)|[_ ->]]; [|done].
  unfold interval_ok. cbn [naming ii_ValidFrom ii_ValidBefore]. rewrite in_window_false in Hw.
  destruct (ii_ValidFrom (naming r)) as [f|]; [|done]. cbn [below]. apply Z.ltb_lt. by apply Hw.
Qed.

Lemma closed_names_ok ids : names_ok ids → names_ok (closed_names id from ids).
Proof.
  intros Hok. unfold closed_names.
  pose proof (names_ok_filter (λ r, in_window id from r = false) ids Hok) as Hf.
  apply names_ok_shrink; [done| |by intros; apply close_row_overlaps].
  intros r Hr. split; [apply close_row_same|]. apply close_row_interval; [|by apply list_elem_of_filter in Hr as [? _]].
  destruct Hf as [Hi _]. by eapply Forall_forall in Hi.
Qed.

Lemma closed_names_elem ids x : x ∈ closed_names id from ids ↔ ∃ r, r ∈ ids ∧ in_window id from r = false ∧ x = close_row id from r.
Proof.
  unfold closed_names. rewrite list_elem_of_fmap. split.
  - intros (r & -> & [? ?]%list_elem_of_filter). eauto.
  - intros (r & ? & ? & ->). exists r. by rewrite list_elem_of_filter.
Qed.

Lemma closed_names_checked ids : names_ok ids → forallb (interval_ok ∘ naming) (closed_names id from ids) = true.
Proof.
  intros [Hi _]%closed_names_ok. apply forallb_intro. intros x Hx. by eapply Forall_forall in Hi.
Qed.

(** Before the window every name is as it was. *)
Lemma closed_names_before d ids : (d < from)%Z → occ_on id d (closed_names id from ids) = occ_on id d ids.
Proof.
  intros Hd. unfold closed_names. induction ids as [|r ids IH]; [done|]. rewrite filter_cons.
  destruct (decide (in_window id from r = false)) as [Hw|Hw].
  - rewrite fmap_cons, !occ_on_cons, IH, close_row_occ. destruct (close_row_same r) as (_ & -> & _).
    assert (holds_on d (naming (close_row id from r)) = holds_on d (naming r)) as ->; [|done].
    destruct (close_row_cases r) as [(_ & E & ->)|[_ ->]]; [|done]. unfold holds_on. simpl. rewrite E.
    f_equal. by apply Z.ltb_lt.
  - rewrite IH, occ_on_cons. apply not_false_iff_true, in_window_true in Hw as (-> & f & Hf & Hge).
    unfold holds_on. rewrite Hf, (proj2 (Z.leb_gt _ _)) by lia. done.
Qed.

(** In the window nothing is left, when no closed name reached into it. *)
Lemma closed_names_after d ids : (from <= d)%Z →
  (∀ r b, r ∈ ids → in_window id from r = false → occ_row id r = true → ii_ValidBefore (naming r) = Some b → (b <= from)%Z) →
  occ_on id d (closed_names id from ids) = [].
Proof.
  intros Hd Hb. apply occ_on_none. intros x (r & Hr & Hw & ->)%closed_names_elem Ho. rewrite close_row_occ in Ho.
  unfold holds_on. apply andb_false_iff. right. destruct (close_row_cases r) as [(_ & _ & ->)|[[E|[b E]] ->]]; [| congruence|].
  - simpl. apply Z.ltb_ge. lia.
  - rewrite E. apply Z.ltb_ge. pose proof (Hb r b Hr Hw Ho E). lia.
Qed.

Lemma closed_names_others ids : filter (λ r, occ_row id r = false) (closed_names id from ids) = filter (λ r, occ_row id r = false) ids.
Proof.
  unfold closed_names. induction ids as [|r ids IH]; [done|]. rewrite filter_cons.
  destruct (decide (in_window id from r = false)) as [Hw|Hw].
  - rewrite fmap_cons, !filter_cons, close_row_occ, IH. destruct (decide _) as [E|E]; [|done].
    destruct (close_row_cases r) as [(? & _)|[_ ->]]; [congruence|done].
  - rewrite IH, filter_cons. apply not_false_iff_true, in_window_true in Hw as (Ho & _).
    rewrite decide_False by congruence. done.
Qed.

(** Nothing of the option's is left open. *)
Lemma closed_names_open ids : open_occ id (closed_names id from ids) = [].
Proof.
  unfold open_occ. destruct (filter _ _) as [|x l] eqn:Ex; [done|]. exfalso.
  assert (x ∈ x :: l) as Hx by left. rewrite <- Ex in Hx. clear Ex l.
  apply list_elem_of_filter in Hx as [(Hh & Ht & Hb) (r & Hr & Hw & ->)%closed_names_elem].
  destruct (close_row_cases r) as [(_ & _ & E)|[[Hn|[b Hs]] E]]; rewrite E in *; simpl in *.
  - done.
  - unfold occ_row in Hn. by rewrite Hh, Ht, !String.eqb_refl in Hn.
  - congruence.
Qed.
End windows.

Lemma open_occ_app id l k : open_occ id (l ++ k) = open_occ id l ++ open_occ id k.
Proof. unfold open_occ. apply filter_app. Qed.

(** What is minted leaves one name open, the last. *)
Lemma open_occ_mints {D} id (mints : list (OptionMint D)) :
  Forall (λ p, ref_Type (ii_Ref (om_OCC p)) = "OCC" ∧ ii_ValidBefore (om_OCC p) = None) mints →
  ii_ValidFrom ∘ naming <$> open_occ id (held_by id <$> mint_rows mints) = (λ p, Some (om_ExDate p)) <$> option_list (last mints).
Proof.
  unfold open_occ. induction mints as [|p l IH]; [done|]. intros [[Ht Hb] Hf]%Forall_cons. cbn [mint_rows]. rewrite fmap_cons, filter_cons.
  specialize (IH Hf). destruct l as [|q l].
  - rewrite decide_True; [done|]. simpl. by rewrite Ht, Hb.
  - rewrite decide_False; [|by intros (_ & _ & ?)]. exact IH.
Qed.

(** ** Restating an option *)

Section restating.
Context {D : Type} `{DecimalLaws D}.
Context (uuid_ok : string → bool) (operating_mic : string → option string).
Context (parse_dec : string → option D) (pg_div : D → D → D) (first_row : list identifier → option identifier).
Context (today : Z).
Hypothesis first_row_elem : ∀ l r, first_row l = Some r → r ∈ l.
Implicit Types (m : market D) (s : StockSplit D) (st : store D).

Lemma with_strike_row_ok x (i : instrument D) : row_ok operating_mic i = true → row_ok operating_mic (with_strike x i) = true.
Proof.
  unfold row_ok. cbn [asset_class put_call underlying_id strike expiry exchange_mic with_strike].
  rewrite !andb_true_iff. intros ((((? & ?) & ?) & Ho) & ?). split_and!; try done.
  destruct (in_class ["OPTION"] (asset_class i)); [|done]. cbn [implb] in *.
  rewrite !andb_true_iff in *. naive_solver.
Qed.

Lemma strike_updated id x st : store_ok operating_mic st → uuid_ok id = true →
  UpdateInstrumentStrike uuid_ok operating_mic id x st = Some (match instruments st !! id with
    | None => st
    | Some i => {| instruments := <[id := with_strike x i]> (instruments st); identifiers := identifiers st;
                   declared := declared st; book := book st |} end).
Proof.
  intros Hok Hu. unfold UpdateInstrumentStrike, update_row. rewrite Hu. cbn [negb].
  destruct (instruments st !! id) as [i|] eqn:Ei; [|done].
  rewrite with_strike_row_ok by by apply (so_rows _ _ Hok id). cbn [andb with_strike underlying_id].
  destruct (underlying_id i) as [u|] eqn:Eu; [|done].
  rewrite bool_decide_true by by eapply so_underlying. done.
Qed.

Lemma recompute_some id m : uuid_ok id = true → ∃ m', RecomputeSplitAdjustments uuid_ok pg_div today id m = Some m' ∧
  shop m' = shop m ∧ stock_splits m' = stock_splits m ∧ unhandled m' = unhandled m.
Proof. intros Hu. unfold RecomputeSplitAdjustments. rewrite Hu, andb_false_r. by eexists. Qed.

Lemma holder_of_clash i ids id : interval_ok i = true →
  (∀ r, r ∈ ids → clashes i r = true → holder r = id) →
  identifierHolder first_row i ids = Some None ∨ identifierHolder first_row i ids = Some (Some id).
Proof using first_row_elem.
  intros Hi Hc. unfold identifierHolder.
  assert (holder <$> first_row (filter (λ r, clashes i r = true) ids) = None ∨
          holder <$> first_row (filter (λ r, clashes i r = true) ids) = Some id) as [E|E].
  { destruct (first_row _) as [r|] eqn:E; [|by left]. right. simpl.
    apply first_row_elem, list_elem_of_filter in E as [? ?]. by rewrite Hc. }
  all: rewrite E; unfold interval_ok in Hi;
    destruct (ii_ValidFrom i) as [f|], (ii_ValidBefore i) as [b|]; cbn [below] in Hi; auto;
    apply Z.ltb_lt in Hi; rewrite (proj2 (Z.ltb_ge _ _)), (proj2 (Z.eqb_neq _ _)) by lia; auto.
Qed.

Lemma absorb_none id l m : (∀ i, i ∈ l → interval_ok i = true) →
  (∀ i r, i ∈ l → r ∈ identifiers (shop m) → clashes i r = true → holder r = id) →
  absorb_all first_row id l m = Some m.
Proof using first_row_elem.
  intros Hi Hc. unfold absorb_all. induction l as [|i l IH]; [done|]. cbn [foldl mbind option_bind].
  assert (absorbDuplicateHolder first_row id i m = Some m) as ->.
  { unfold absorbDuplicateHolder. destruct (holder_of_clash i (identifiers (shop m)) id) as [->| ->]; [apply Hi; left| |done|].
    - intros r Hr. by apply Hc; [left|].
    - cbn [mbind option_bind]. by rewrite String.eqb_refl. }
  apply IH; [intros j Hj; apply Hi; by right|]. intros j r Hj. apply Hc. by right.
Qed.

(** The names after the window is cleared and the mints are written. *)
Definition restated_names (id : string) (mints : list (OptionMint D)) (from : Z) (ids : list identifier) : list identifier :=
  closed_names id from ids ++ (held_by id <$> mint_rows mints).

(** No closed name of the option reaches past a date it began before. *)
Definition closed_by (id : string) (from : Z) (ids : list identifier) : Prop :=
  ∀ r b, r ∈ ids → in_window id from r = false → occ_row id r = true → ii_ValidBefore (naming r) = Some b → (b <= from)%Z.

Lemma restated_names_ok id p (l : list (OptionMint D)) ids :
  names_ok ids → mints_ok (p :: l) → closed_by id (om_ExDate p) ids →
  (∀ i r, i ∈ mint_rows (p :: l) → r ∈ ids → clashes i r = true → holder r = id) →
  names_ok (restated_names id (p :: l) (om_ExDate p) ids).
Proof.
  intros Hok Hm Hc Hd. apply names_ok_rows; [by apply closed_names_ok| |by apply mint_rows_disjoint].
  intros i Hi. split; [by eapply mint_rows_interval|]. intros x (r & Hr & Hw & ->)%closed_names_elem.
  apply not_true_iff_false. intros [Href Ho]%clashes_true.
  destruct (close_row_same id (om_ExDate p) r) as (_ & Er & Ef). rewrite Er in Href.
  assert (overlaps (naming r) i = true) as Hov.
  { unfold overlaps in *. rewrite Ef in Ho. apply andb_true_iff in Ho as [-> Hb]. cbn [andb].
    destruct (close_row_cases id (om_ExDate p) r) as [(_ & E & _)|[_ E]]; [|by rewrite E in Hb].
    rewrite E. by destruct (ii_ValidFrom i). }
  assert (holder r = id) as Hh by (apply (Hd i r Hi Hr), clashes_true; done).
  assert (occ_row id r = true) as Hocc.
  { unfold occ_row. by rewrite Hh, Href, (mint_rows_type _ _ Hm Hi), !String.eqb_refl. }
  apply mint_rows_elem in Hi as (q & Hq & Hfrom & _).
  assert (om_ExDate p <= om_ExDate q)%Z as Hle.
  { apply elem_of_cons in Hq as [->|Hq]; [lia|]. pose proof (mints_ok_later _ _ _ Hm Hq). lia. }
  unfold overlaps in Ho. rewrite Hfrom in Ho. apply andb_true_iff in Ho as [_ Ho].
  destruct (close_row_cases id (om_ExDate p) r) as [(_ & _ & E)|[[?|[b Eb]] E]]; [|congruence|]; rewrite E in Ho.
  - simpl in Ho. apply Z.ltb_lt in Ho. lia.
  - rewrite Eb in Ho. simpl in Ho. apply Z.ltb_lt in Ho. pose proof (Hc r b Hr Hw Hocc Eb). lia.
Qed.

Lemma with_identifiers_ok ids st : store_ok operating_mic st → names_ok ids →
  (∀ r, r ∈ ids → is_Some (instruments st !! holder r)) → store_ok operating_mic (with_identifiers ids st).
Proof. intros Hok Hn Hh. split; cbn [instruments identifiers with_identifiers]; [done|done|apply Hok|apply Hok]. Qed.

Lemma minted_some d p (l : list (OptionMint D)) : (om_ExDate p <= d)%Z → is_Some (minted_on d (p :: l)).
Proof.
  intros Hd. unfold minted_on. rewrite filter_cons, decide_True by done. apply fmap_is_Some, last_is_Some. done.
Qed.

Lemma minted_filter id (mints : list (OptionMint D)) : mints_ok mints →
  filter (λ r, occ_row id r = false) (held_by id <$> mint_rows mints) = [].
Proof.
  intros Hm. destruct (filter _ _) as [|x k] eqn:Ex; [done|]. exfalso.
  assert (x ∈ x :: k) as Hx by left. rewrite <- Ex in Hx. clear Ex k.
  apply list_elem_of_filter in Hx as [Ho (j & -> & Hj)%list_elem_of_fmap].
  unfold occ_row in Ho. simpl in Ho. by rewrite (mint_rows_type _ _ Hm Hj), !String.eqb_refl in Ho.
Qed.

(** C21: restating an option.  When no other instrument holds a name about to be minted and
    no closed name of the option reaches past the first split, [ApplyOptionSplit]
    succeeds.  The contract keeps the name it had on every day before that split, has from
    then on the name of the last split in effect - one name on any day, and never none -
    and no other name is touched; the strike is the one of the last name. *)
Theorem restatement_timeline m p (l : list (OptionMint D)) id old i :
  store_ok operating_mic (shop m) → uuid_ok id = true → instruments (shop m) !! id = Some i →
  mints_ok (p :: l) → closed_by id (om_ExDate p) (identifiers (shop m)) →
  (∀ j r, j ∈ mint_rows (p :: l) → r ∈ identifiers (shop m) → clashes j r = true → holder r = id) →
  ∃ m', ApplyOptionSplit uuid_ok operating_mic pg_div first_row today
      {| osp_InstrumentID := id; osp_OldOCCValue := old; osp_Mints := p :: l |} m = Some m' ∧
    store_ok operating_mic (shop m') ∧
    (∀ d, (d < om_ExDate p)%Z → occ_on id d (identifiers (shop m')) = occ_on id d (identifiers (shop m))) ∧
    (∀ d, (om_ExDate p <= d)%Z → ∃ n, minted_on d (p :: l) = Some n ∧ occ_on id d (identifiers (shop m')) = [n]) ∧
    filter (λ r, occ_row id r = false) (identifiers (shop m')) = filter (λ r, occ_row id r = false) (identifiers (shop m)) ∧
    instruments (shop m') !! id = Some (with_strike (from_option om_Strike (om_Strike p) (last (p :: l))) i).
Proof using first_row_elem.
  intros Hok Hu Hi Hm Hc Hd.
  assert (absorb_all first_row id (mint_rows (p :: l)) m = Some m) as Ha.
  { apply absorb_none; [|done]. intros j Hj. by eapply mint_rows_interval. }
  unfold ApplyOptionSplit. cbn [osp_Mints osp_InstrumentID]. rewrite Hu. cbn [negb]. rewrite Ha.
  cbn [mbind option_bind]. rewrite closed_names_checked by by eapply so_names.
  rewrite bool_decide_true by by eexists. cbn [negb orb].
  pose proof (restated_names_ok id p l _ (so_names _ _ Hok) Hm Hc Hd) as Hnames. unfold restated_names in Hnames.
  rewrite insert_names_all by exact Hnames.
  set (ids := closed_names _ _ _ ++ _) in *.
  assert (store_ok operating_mic (with_identifiers ids (shop m))) as Hok'.
  { apply with_identifiers_ok; [done|done|]. intros r [(x & Hx & _ & ->)%closed_names_elem|Hr]%elem_of_app.
    - rewrite (proj1 (close_row_same _ _ x)). by apply (so_holders _ _ Hok).
    - apply list_elem_of_fmap in Hr as (j & -> & _). simpl. by eexists. }
  pose proof (strike_updated id (from_option om_Strike (om_Strike p) (last (p :: l))) _ Hok' Hu) as Es.
  cbn [instruments with_identifiers] in Es. rewrite Hi in Es. rewrite Es. cbn [mbind option_bind].
  destruct (recompute_some id (with_shop {| instruments := <[id := with_strike (from_option om_Strike (om_Strike p) (last (p :: l))) i]> (instruments (shop m));
    identifiers := ids; declared := declared (shop m); book := book (shop m) |} m) Hu) as (m' & Em & Esh & _).
  exists m'. split; [exact Em|]. rewrite Esh. cbn [shop with_shop identifiers instruments]. split_and!.
  - unfold UpdateInstrumentStrike in Es. rewrite Hu in Es. by apply update_row_spec in Es as [? _].
  - intros d Hdl. unfold ids. rewrite occ_on_app, closed_names_before, occ_on_mints by done.
    unfold minted_on. rewrite filter_none_later; [by rewrite app_nil_r|].
    intros q [->|Hq]%elem_of_cons; [done|]. pose proof (mints_ok_later _ _ _ Hm Hq). lia.
  - intros d Hdl. unfold ids. rewrite occ_on_app, closed_names_after, occ_on_mints by done.
    destruct (minted_some d p l Hdl) as [n En]. exists n. by rewrite En.
  - unfold ids. rewrite filter_app, closed_names_others, minted_filter by done. apply app_nil_r.
  - by rewrite lookup_insert_eq.
Qed.
End restating.

(** ** The pass *)

#[export] Instance ex_cmp_lawful {D} : Lawful (@ex_cmp D).
Proof.
  unfold ex_cmp. split.
  - intros s s'. apply Z.compare_antisym.
  - intros s s' s''. rewrite !Z.compare_lt_iff. lia.
  - intros s s' s''. by intros ->%Z.compare_eq.
Qed.

Lemma reinsert_shape id l ids ids' : reinsert id l ids = Some ids' → ids' = ids ++ (held_by id <$> l).
Proof.
  unfold reinsert. revert ids ids'. induction l as [|i l IH] using rev_ind; intros ids ids'.
  { intros [= <-]. by rewrite app_nil_r. }
  rewrite foldl_app. cbn [foldl]. destruct (foldl _ _ l) as [ids1|] eqn:E; [|done]. cbn [mbind option_bind].
  apply IH in E as ->. unfold insert_identifier. destruct (negb _); [done|]. destruct (existsb _ _); [done|].
  intros [= <-]. by rewrite fmap_app, <- app_assoc.
Qed.

Lemma insert_names_shape id l ids ids' : insert_names id l ids = Inserted ids' → ids' = ids ++ (held_by id <$> l).
Proof.
  revert ids. induction l as [|i l IH]; intros ids; cbn [insert_names].
  { intros [= <-]. by rewrite app_nil_r. }
  unfold insert_identifier. destruct (negb _); [done|]. destruct (existsb _ _); [done|]. intros ->%IH.
  by rewrite <- app_assoc.
Qed.

Lemma merge_shape {D} survivor away (st st' : store D) : survivor ≠ away → mergeInstruments survivor away st = Some st' →
  instruments st' = delete away (moved_underlying survivor away <$> instruments st) ∧
  identifiers st' = filter (λ r, holder r ≠ away) (identifiers st)
                    ++ (held_by survivor <$> (naming <$> filter (λ r, holder r = away) (identifiers st))).
Proof.
  intros Hne. unfold mergeInstruments. rewrite (proj2 (String.eqb_neq _ _)) by done.
  destruct (negb _); [done|]. destruct (negb _); [done|].
  destruct (reinsert _ _ _) as [ids|] eqn:E; [|done]. cbn [mbind option_bind].
  destruct (bool_decide _); [done|]. intros [= <-]. by apply reinsert_shape in E as ->.
Qed.

Lemma open_occ_skip id b l : b ≠ id → open_occ b (filter (λ r, occ_row id r = false) l) = open_occ b l.
Proof.
  intros Hne. unfold open_occ. induction l as [|r l IH]; [done|]. rewrite filter_cons.
  destruct (decide (occ_row id r = false)) as [E|E].
  - by rewrite !filter_cons, IH.
  - rewrite IH, filter_cons, decide_False; [done|]. intros (Hh & _).
    apply not_false_iff_true in E. unfold occ_row in E. apply andb_true_iff in E as [E%String.eqb_eq _]. congruence.
Qed.

Lemma open_occ_others id b l : b ≠ id → open_occ b (held_by id <$> l) = [].
Proof.
  intros Hne. unfold open_occ. induction l as [|i l IH]; [done|].
  rewrite fmap_cons, filter_cons, IH, decide_False; [done|]. by intros (? & _).
Qed.

Lemma open_occ_not_away b away l : b ≠ away → open_occ b (filter (λ r, holder r ≠ away) l) = open_occ b l.
Proof.
  intros Hne. unfold open_occ. induction l as [|r l IH]; [done|]. rewrite filter_cons.
  destruct (decide (holder r ≠ away)).
  - by rewrite !filter_cons, IH.
  - rewrite IH, filter_cons, decide_False; [done|]. naive_solver.
Qed.

Lemma sorted_last {A} (R : A → A → Prop) `{!Reflexive R} (l : list A) x z :
  StronglySorted R l → last l = Some z → x ∈ l → R x z.
Proof.
  intros Hs. induction Hs as [|y l Hs IH Hy]; [done|]. intros Hl Hx. destruct l as [|y' l].
  - injection Hl as <-. by apply list_elem_of_singleton in Hx as ->.
  - apply elem_of_cons in Hx as [->|Hx]; [|by apply IH]. rewrite Forall_forall in Hy.
    apply Hy. by apply last_Some_elem_of.
Qed.

Section passes.
Context {D : Type} `{Decimal D}.
Context (uuid_ok : string → bool) (operating_mic : string → option string).
Context (parse_dec : string → option D) (pg_div : D → D → D) (first_row : list identifier → option identifier).
Context (today : Z).
Hypothesis first_row_elem : ∀ l r, first_row l = Some r → r ∈ l.
Context (m0 : market D).
Implicit Types (m : market D) (s : StockSplit D).

Definition underlies (u : string) : Prop := ∃ a i, instruments (shop m0) !! a = Some i ∧ underlying_id i = Some u.

(** What the restatements of one pass leave of the state it began with. *)
Record kept m : Prop := {
  k_splits : ∀ s, s ∈ stock_splits m → s ∈ stock_splits m0;
  k_rows : ∀ a i, instruments (shop m) !! a = Some i →
    ∃ i0, instruments (shop m0) !! a = Some i0 ∧ asset_class i = asset_class i0 ∧ expiry i = expiry i0 ∧
          underlying_id i = underlying_id i0;
  k_bare : ∀ r, r ∈ identifiers (shop m) → ref_Type (ii_Ref (naming r)) = "OCC" → ¬ underlies (holder r);
}.

(** An option every split of whose underlying its name reflects, or none at all. *)
Definition done_with m (b : string) : Prop :=
  instruments (shop m) !! b = None ∨
  ∃ v i0, instruments (shop m0) !! b = Some i0 ∧ in_force_from b (identifiers (shop m)) = Some v ∧
    ∀ s, s ∈ stock_splits m0 → underlying_id i0 = Some (ss_InstrumentID s) → (ss_ExDate s <= today)%Z →
      (∃ e, expiry i0 = Some e ∧ (ss_ExDate s <= e)%Z) → (ss_ExDate s <= v)%Z.

Lemma done_not_pending underlyingID m b : kept m → done_with m b → pending_option today underlyingID m b = None.
Proof.
  intros Hk Hd. unfold pending_option. destruct (instruments (shop m) !! b) as [i|] eqn:Ei; [|done]. cbn [mbind option_bind].
  destruct (_ || _); [|done]. destruct Hd as [?|(v & i0 & Hi0 & Hv & Hs)]; [congruence|].
  destruct (k_rows _ Hk b i Ei) as (i0' & Hi0' & _ & He & Hu). assert (i0' = i0) as -> by congruence. clear Hi0'.
  assert (pending_splits today b i m = []) as ->; [|done]. unfold pending_splits. destruct (bool_decide _); [|done].
  destruct (filter _ (stock_splits m)) as [|s l] eqn:El; [done|]. exfalso.
  assert (s ∈ s :: l) as Hin by left. rewrite <- El in Hin. apply list_elem_of_filter in Hin as [[Hus Hb] Hin].
  rewrite !andb_true_iff, Z.leb_le in Hb. destruct Hb as [[Ht Hx] Ha].
  unfold name_floor in Ha. rewrite Hv in Ha. cbn [coalesce after] in Ha. apply Z.ltb_lt in Ha.
  assert (ss_ExDate s <= v)%Z; [|lia]. apply Hs; [by apply (k_splits _ Hk)|congruence|done|].
  rewrite He in Hx. destruct (expiry i0) as [e|]; [|done]. exists e. split; [done|]. by apply Z.leb_le.
Qed.

(** ** One absorption *)

Lemma merge_kept id away m m' : kept m → ¬ underlies id → ¬ underlies away → id ≠ away →
  merge_market id away m = Some m' → kept m'.
Proof.
  intros Hk Hid Haway Hne. unfold merge_market. destruct (mergeInstruments id away (shop m)) as [st|] eqn:E; [|done].
  cbn [mbind option_bind]. intros [= <-]. apply merge_shape in E as [Ei En]; [|done]. split; cbn [shop stock_splits].
  - intros s [_ Hs]%list_elem_of_filter. by apply (k_splits _ Hk).
  - intros a i. rewrite Ei, lookup_delete_Some, lookup_fmap. intros (_ & (j & Hj & ->)%fmap_Some).
    destruct (k_rows _ Hk a j Hj) as (i0 & Hi0 & Ec & Ee & Eu). exists i0.
    unfold moved_underlying. rewrite decide_False; [done|]. intros Hu. apply Haway. exists a, i0. split; congruence.
  - intros r. rewrite En, elem_of_app. intros [[_ Hr]%list_elem_of_filter|Hr] Ht.
    + by apply (k_bare _ Hk).
    + by apply list_elem_of_fmap in Hr as (j & -> & _).
Qed.

Lemma merge_open id away m m' b : b ≠ id → id ≠ away → merge_market id away m = Some m' →
  instruments (shop m') !! b = None ∨ open_occ b (identifiers (shop m')) = open_occ b (identifiers (shop m)).
Proof.
  intros Hb Hne. unfold merge_market. destruct (mergeInstruments id away (shop m)) as [st|] eqn:E; [|done].
  cbn [mbind option_bind]. intros [= <-]. apply merge_shape in E as [Ei En]; [|done]. cbn [shop].
  destruct (decide (b = away)) as [->|Hba]; [left; by rewrite Ei, lookup_delete_eq|right].
  by rewrite En, open_occ_app, open_occ_others, open_occ_not_away, app_nil_r.
Qed.

Lemma merge_gone id away m m' b : id ≠ away → merge_market id away m = Some m' →
  instruments (shop m) !! b = None → instruments (shop m') !! b = None.
Proof.
  intros Hne. unfold merge_market. destruct (mergeInstruments id away (shop m)) as [st|] eqn:E; [|done].
  cbn [mbind option_bind]. intros [= <-] Hb. apply merge_shape in E as [Ei _]; [|done]. cbn [shop].
  rewrite Ei. apply lookup_delete_None. right. by rewrite lookup_fmap, Hb.
Qed.

Lemma holder_clashes i ids h : identifierHolder first_row i ids = Some (Some h) →
  ∃ r, r ∈ ids ∧ holder r = h ∧ ii_Ref (naming r) = ii_Ref i.
Proof using first_row_elem.
  intros E. assert (holder <$> first_row (filter (λ r, clashes i r = true) ids) = Some h) as Ef.
  { revert E. unfold identifierHolder. destruct (ii_ValidFrom i), (ii_ValidBefore i); try congruence.
    destruct (_ <? _)%Z; [done|]. destruct (_ =? _)%Z; congruence. }
  apply fmap_Some in Ef as (r & Er & ->). apply first_row_elem, list_elem_of_filter in Er as [[? _]%clashes_true ?].
  by exists r.
Qed.

Lemma absorb_all_inv id l m m' (P : market D → Prop) :
  (∀ i, i ∈ l → ref_Type (ii_Ref i) = "OCC") → P m →
  (∀ m1 m2 h r, P m1 → r ∈ identifiers (shop m1) → holder r = h → ref_Type (ii_Ref (naming r)) = "OCC" → id ≠ h →
     merge_market id h m1 = Some m2 → P m2) →
  absorb_all first_row id l m = Some m' → P m'.
Proof using first_row_elem.
  intros Ht Hp Hstep. unfold absorb_all. revert m'. induction l as [|i l IH] using rev_ind; intros m'.
  { by intros [= <-]. }
  rewrite foldl_app. cbn [foldl]. destruct (foldl _ _ l) as [m1|] eqn:E; [|done]. cbn [mbind option_bind].
  assert (P m1) as Hp1 by (apply IH; [intros j Hj; apply Ht, elem_of_app; by left|done]).
  unfold absorbDuplicateHolder. destruct (identifierHolder _ _ _) as [[h|]|] eqn:Eh; [|by intros [= <-]|done].
  cbn [mbind option_bind]. destruct (String.eqb_spec h id) as [->|Hne]; [by intros [= <-]|].
  apply holder_clashes in Eh as (r & Hr & Hh & Href). intros Em. eapply (Hstep m1 m' h r); [done..| |done|done].
  rewrite Href. apply Ht, elem_of_app. right. by left.
Qed.

(** ** One restatement *)

Definition mints_named (mints : list (OptionMint D)) : Prop :=
  Forall (λ p, ref_Type (ii_Ref (om_OCC p)) = "OCC" ∧ ii_ValidBefore (om_OCC p) = None) mints.

Lemma mint_rows_named mints i : mints_named mints → i ∈ mint_rows mints → ref_Type (ii_Ref i) = "OCC".
Proof. intros Hm (p & Hp & _ & ->)%mint_rows_elem. by eapply Forall_forall in Hm as [? _]. Qed.

Lemma recompute_same id m m' : RecomputeSplitAdjustments uuid_ok pg_div today id m = Some m' →
  shop m' = shop m ∧ stock_splits m' = stock_splits m.
Proof. unfold RecomputeSplitAdjustments. destruct (_ && _); [done|]. by intros [= <-]. Qed.

Lemma update_row_shape id f (st st' : store D) : update_row operating_mic id f st = Some st' →
  identifiers st' = identifiers st ∧
  ∀ a i, instruments st' !! a = Some i → ∃ i0, instruments st !! a = Some i0 ∧ (i = i0 ∨ i = f i0).
Proof.
  unfold update_row. destruct (instruments st !! id) as [i|] eqn:Ei; [|intros [= <-]; eauto].
  destruct (_ && _); [|done]. intros [= <-]. split; [done|]. cbn [instruments]. intros a j.
  intros [[<- <-]|[_ ?]]%lookup_insert_Some; eauto.
Qed.

(** The state a restatement writes to, after what it absorbed. *)
Lemma apply_shape p m m' : ApplyOptionSplit uuid_ok operating_mic pg_div first_row today p m = Some m' →
  ∃ first rest m1, osp_Mints p = first :: rest ∧
    absorb_all first_row (osp_InstrumentID p) (mint_rows (osp_Mints p)) m = Some m1 ∧
    stock_splits m' = stock_splits m1 ∧
    identifiers (shop m') = closed_names (osp_InstrumentID p) (om_ExDate first) (identifiers (shop m1))
                            ++ (held_by (osp_InstrumentID p) <$> mint_rows (osp_Mints p)) ∧
    ∀ a i, instruments (shop m') !! a = Some i → ∃ i0, instruments (shop m1) !! a = Some i0 ∧
      (i = i0 ∨ i = with_strike (from_option om_Strike (om_Strike first) (last (osp_Mints p))) i0).
Proof.
  unfold ApplyOptionSplit. destruct (osp_Mints p) as [|first rest] eqn:Em; [done|]. rewrite <- Em.
  destruct (negb (uuid_ok _)); [done|].
  destruct (absorb_all _ _ _ m) as [m1|] eqn:Ea; [|done]. cbn [mbind option_bind].
  destruct (_ || _); [done|]. destruct (insert_names _ _ _) as [ids| |] eqn:Ei; [|done..].
  destruct (UpdateInstrumentStrike _ _ _ _ _) as [st|] eqn:Eu; [|done]. cbn [mbind option_bind].
  intros [Esh Esp]%recompute_same. apply insert_names_shape in Ei as ->.
  unfold UpdateInstrumentStrike in Eu. destruct (negb _); [done|]. apply update_row_shape in Eu as [En Er].
  exists first, rest, m1. rewrite Esh, Esp. cbn [shop with_shop stock_splits]. by rewrite En.
Qed.

Lemma apply_kept p m m' : kept m → ¬ underlies (osp_InstrumentID p) → mints_named (osp_Mints p) →
  ApplyOptionSplit uuid_ok operating_mic pg_div first_row today p m = Some m' → kept m'.
Proof using first_row_elem.
  intros Hk Hid Hm (first & rest & m1 & _ & Ha & Esp & En & Er)%apply_shape.
  assert (kept m1) as Hk1.
  { eapply (absorb_all_inv _ _ _ _ kept); [|exact Hk| |exact Ha]; [intros i; by apply mint_rows_named|].
    intros m2 m3 h r Hk2 Hr Hh Ht Hne. apply merge_kept; try done. rewrite <- Hh. by apply (k_bare _ Hk2). }
  split.
  - rewrite Esp. apply Hk1.
  - intros a i (i1 & Hi1 & Hor)%Er. destruct (k_rows _ Hk1 a i1 Hi1) as (i0 & ? & ? & ? & ?). exists i0.
    by destruct Hor as [->| ->].
  - intros r. rewrite En. intros [(x & Hx & _ & ->)%closed_names_elem|Hr]%elem_of_app Ht.
    + destruct (close_row_same (osp_InstrumentID p) (om_ExDate first) x) as (Hh & Href & _). rewrite Hh.
      apply (k_bare _ Hk1); [done|]. by rewrite <- Href.
    + by apply list_elem_of_fmap in Hr as (j & -> & _).
Qed.

Lemma apply_others p m m' b : b ≠ osp_InstrumentID p → mints_named (osp_Mints p) → done_with m b →
  ApplyOptionSplit uuid_ok operating_mic pg_div first_row today p m = Some m' → done_with m' b.
Proof using first_row_elem.
  intros Hb Hm Hd (first & rest & m1 & _ & Ha & _ & En & Er)%apply_shape.
  assert (done_with m1 b) as [Hd1|(v & i0 & Hi0 & Hv & Hs)].
  { eapply (absorb_all_inv _ _ _ _ (λ m, done_with m b)); [|exact Hd| |exact Ha]; [intros i; by apply mint_rows_named|].
    intros m2 m3 h r Hd2 _ _ _ Hne Em. destruct Hd2 as [Hn|(v & i0 & Hi0 & Hv & Hs)].
    - left. by eapply merge_gone.
    - destruct (merge_open _ _ _ _ b Hb Hne Em) as [?|Ho]; [by left|]. right. exists v, i0.
      split_and!; [done| |done]. unfold in_force_from in *. by rewrite Ho. }
  - left. destruct (instruments (shop m') !! b) as [i|] eqn:Ei; [|done]. apply Er in Ei as (i0 & ? & _). congruence.
  - right. exists v, i0. split_and!; [done| |done]. unfold in_force_from in *.
    by rewrite En, open_occ_app, open_occ_others, app_nil_r, <- (open_occ_skip (osp_InstrumentID p)),
      closed_names_others, open_occ_skip.
Qed.

Lemma apply_in_force p m m' z : mints_named (osp_Mints p) → last (osp_Mints p) = Some z →
  ApplyOptionSplit uuid_ok operating_mic pg_div first_row today p m = Some m' →
  in_force_from (osp_InstrumentID p) (identifiers (shop m')) = Some (om_ExDate z).
Proof.
  intros Hm Hz (first & rest & m1 & _ & _ & _ & En & _)%apply_shape. unfold in_force_from.
  rewrite En, open_occ_app, closed_names_open. cbn [app].
  pose proof (open_occ_mints (osp_InstrumentID p) (osp_Mints p) Hm) as Ho. rewrite Hz in Ho. cbn [option_list fmap list_fmap] in Ho.
  destruct (open_occ _ _) as [|x [|y l]]; [done| |done]. by injection Ho.
Qed.
End passes.

(** ** Reading the splits of an option *)

Section readings.
Context {D : Type} `{DecimalLaws D}.
Context (opt : string).
Implicit Types (s : StockSplit D) (l : list (StockSplit D)).

Definition ratio_product (f : StockSplit D → D) l : Q := foldr (λ s q, dval (f s) * q)%Q 1%Q l.

Lemma ratio_product_snoc f l s : (ratio_product f (l ++ [s]) == ratio_product f l * dval (f s))%Q.
Proof. unfold ratio_product. induction l as [|x l IH]; simpl; [lra|]. rewrite IH. ring. Qed.

Lemma read_splits_snoc l s bl : read_splits opt (l ++ [s]) bl = read_split opt (read_splits opt l bl) s.
Proof. unfold read_splits. by rewrite foldl_app. Qed.

Lemma rd_unhandled_iff l bl : rd_unhandled (read_splits opt l bl) = false ↔
  ∀ s, s ∈ l → IsWholeForwardSplit (ss_SplitFrom s) (ss_SplitTo s) = true.
Proof.
  induction l as [|s l IH] using rev_ind.
  { split; [by intros _ s ?%elem_of_nil|done]. }
  rewrite read_splits_snoc. unfold read_split. destruct (IsWholeForwardSplit _ _) eqn:E; cbn [negb rd_unhandled].
  - rewrite IH. split.
    + intros Hl s' [?| ->%list_elem_of_singleton]%elem_of_app; auto.
    + intros Hl s' ?. apply Hl, elem_of_app. by left.
  - split; [done|]. intros Hl. rewrite Hl in E; [done|]. apply elem_of_app. right. by left.
Qed.

(** Each split with the product of the ratios up to it. *)
Lemma read_factors l bl : (∀ s, s ∈ l → IsWholeForwardSplit (ss_SplitFrom s) (ss_SplitTo s) = true) →
  let rd := read_splits opt l bl in
  f_split <$> rd_factors rd = l ∧
  (dval (rd_num rd) == ratio_product ss_SplitTo l)%Q ∧ (dval (rd_den rd) == ratio_product ss_SplitFrom l)%Q ∧
  ∀ k f, rd_factors rd !! k = Some f →
    (dval (f_num f) == ratio_product ss_SplitTo (take (S k) l))%Q ∧
    (dval (f_den f) == ratio_product ss_SplitFrom (take (S k) l))%Q.
Proof.
  induction l as [|s l IH] using rev_ind; intros Hw rd.
  { split_and!; [done|by apply dval_of_int|by apply dval_of_int|done]. }
  unfold rd. rewrite read_splits_snoc. clear rd. destruct IH as (Hf & Hn & Hd & Hk).
  { intros s' ?. apply Hw, elem_of_app. by left. }
  unfold read_split. rewrite (Hw s) by (apply elem_of_app; right; by left). cbn [negb rd_factors rd_num rd_den].
  set (rd := read_splits opt l bl) in *.
  assert (length (rd_factors rd) = length l) as Hlen by (rewrite <- Hf; by rewrite length_fmap).
  split_and!.
  - by rewrite fmap_app, Hf.
  - by rewrite dval_mul, Hn, ratio_product_snoc.
  - by rewrite dval_mul, Hd, ratio_product_snoc.
  - intros k f [Hlk|[Hge Hlk]]%lookup_app_Some.
    + pose proof (lookup_lt_Some _ _ _ Hlk). rewrite take_app_le by lia. by apply Hk.
    + apply list_lookup_singleton_Some in Hlk as [Hz <-]. cbn [f_num f_den].
      assert (S k = length (l ++ [s])) as -> by (rewrite length_app; simpl; lia). rewrite firstn_all.
      by rewrite !dval_mul, Hn, Hd, !ratio_product_snoc.
Qed.

Lemma mint_all_spec parsed (k : D) fs mints : mint_all parsed k fs = inl mints →
  length mints = length fs ∧
  ∀ n p, mints !! n = Some p → ∃ f, fs !! n = Some f ∧ mint_of parsed k f = Some p.
Proof.
  revert mints. induction fs as [|f fs IH]; intros mints; cbn [mint_all]; [by intros [= <-]|].
  destruct (mint_of parsed k f) as [p|] eqn:E; [|done]. destruct (mint_all parsed k fs) as [ps|]; [|done].
  intros [= <-]. destruct (IH ps eq_refl) as [Hlen Hn]. split; [by simpl; f_equal|].
  intros [|n] q; [|apply Hn]. intros [= <-]. by exists f.
Qed.

Lemma mint_of_spec parsed (k : D) f p : mint_of parsed k f = Some p →
  om_ExDate p = ss_ExDate (f_split f) ∧ om_Strike p = Derivative.AdjustStrike k (f_num f) (f_den f) ∧
  ref_Type (ii_Ref (om_OCC p)) = "OCC" ∧ ii_ValidBefore (om_OCC p) = None ∧
  Derivative.BuildOCCCompact (Derivative.Symbol parsed) (Derivative.Expiry parsed) (Derivative.PutCall parsed) (om_Strike p)
    = Some (ref_Value (ii_Ref (om_OCC p))).
Proof.
  unfold mint_of. destruct (Derivative.BuildOCCCompact _ _ _ _) as [occ|] eqn:E; [|done]. by intros [= <-].
Qed.

Lemma mints_are_named parsed (k : D) fs mints : mint_all parsed k fs = inl mints → mints_named mints.
Proof.
  intros [_ Hn]%mint_all_spec. apply Forall_lookup. intros n p Hp. destruct (Hn n p Hp) as (f & _ & Hf).
  by apply mint_of_spec in Hf as (_ & _ & ? & ? & _).
Qed.

Lemma mints_last parsed (k : D) fs mints f : mint_all parsed k fs = inl mints → last fs = Some f →
  ∃ z, last mints = Some z ∧ om_ExDate z = ss_ExDate (f_split f).
Proof.
  intros [Hlen Hn]%mint_all_spec Hl. rewrite last_lookup in Hl. rewrite last_lookup, Hlen.
  destruct (mints !! pred (length fs)) as [z|] eqn:Ez.
  - destruct (Hn _ _ Ez) as (f' & Hf' & Hm). exists z. split; [done|].
    assert (f' = f) as -> by congruence. by apply mint_of_spec in Hm as [? _].
  - apply lookup_ge_None in Ez. apply lookup_lt_Some in Hl. lia.
Qed.

Lemma whole_product_pos f l : (∀ s, s ∈ l → (0 < dval (f s))%Q) → (0 < ratio_product f l)%Q.
Proof.
  induction l as [|s l IH]; intros Hp; [done|]. simpl.
  pose proof (Hp s ltac:(left)). assert (0 < ratio_product f l)%Q by (apply IH; intros s' ?; apply Hp; by right). nra.
Qed.

(** The strike of each name is one rounding away from the strike on record: the
    stored strike times the product of what the splits up to it are from, divided by the
    product of what they are to, rounded once to a thousandth - never a rounding of the
    name before. *)
Theorem strikes_rounded_once parsed (k : D) l bl mints n p :
  (∀ s, s ∈ l → IsWholeForwardSplit (ss_SplitFrom s) (ss_SplitTo s) = true) →
  mint_all parsed k (rd_factors (read_splits opt l bl)) = inl mints → mints !! n = Some p →
  (∃ s, l !! n = Some s ∧ om_ExDate p = ss_ExDate s) ∧
  (dval (om_Strike p) ==
     q_round (dval k * ratio_product ss_SplitFrom (take (S n) l) / ratio_product ss_SplitTo (take (S n) l)) 3)%Q.
Proof.
  intros Hw Hm Hp. destruct (read_factors l bl Hw) as (Hfs & _ & _ & Hk).
  destruct (mint_all_spec _ _ _ _ Hm) as [_ Hn]. destruct (Hn n p Hp) as (f & Hf & Hof).
  destruct (mint_of_spec _ _ _ _ Hof) as (He & Hs & _). destruct (Hk n f Hf) as [Hnum Hden]. split.
  - exists (f_split f). split; [|done]. by rewrite <- Hfs, list_lookup_fmap, Hf.
  - assert (0 < ratio_product ss_SplitTo (take (S n) l))%Q as Hpos.
    { apply whole_product_pos. intros s Hst. apply elem_of_take in Hst as (j & Hj & _).
      apply list_elem_of_lookup_2, Hw, whole_split_pos in Hj. tauto. }
    rewrite Hs. unfold Derivative.AdjustStrike. destruct (is_zero (f_num f)) eqn:Ez.
    { apply is_zero_eq in Ez. exfalso. rewrite Hnum in Ez. lra. }
    rewrite dval_div_round by (rewrite Hnum; lra). apply q_round_proper. rewrite dval_mul, Hnum, Hden. reflexivity.
Qed.
End readings.

(** ** The whole pass *)

Section whole_pass.
Context {D : Type} `{DecimalLaws D}.
Context (uuid_ok : string → bool) (operating_mic : string → option string).
Context (parse_dec : string → option D) (pg_div : D → D → D) (first_row : list identifier → option identifier).
Context (today : Z).
Hypothesis first_row_elem : ∀ l r, first_row l = Some r → r ∈ l.
Implicit Types (m : market D) (s : StockSplit D).

(** What a security is written on has no option's name. *)
Definition bare_underlyings m : Prop :=
  ∀ r, r ∈ identifiers (shop m) → ref_Type (ii_Ref (naming r)) = "OCC" → ¬ underlies m (holder r).

Lemma kept_refl m : bare_underlyings m → kept m m.
Proof. intros Hb. split; [done| |exact Hb]. intros a i Hi. by exists i. Qed.

Lemma insert_event_same id s m : shop (insertUnhandledSplit uuid_ok id s m) = shop m ∧
  stock_splits (insertUnhandledSplit uuid_ok id s m) = stock_splits m.
Proof.
  unfold insertUnhandledSplit, InsertUnhandledCorporateEvent. destruct (_ || _); [done|]. by destruct (_ && _).
Qed.

Lemma kept_same m0 m m' : shop m' = shop m → stock_splits m' = stock_splits m → kept m0 m → kept m0 m'.
Proof. intros E1 E2 [H1 H2 H3]. split; by rewrite ?E1, ?E2. Qed.

Lemma done_same m0 m m' b : shop m' = shop m → done_with today m0 m b → done_with today m0 m' b.
Proof. intros E. unfold done_with. by rewrite E. Qed.

(** A pending option as it was read. *)
Lemma pending_option_spec u m id p : pending_option today u m id = Some p →
  po_ID p = id ∧ instruments (shop m) !! id = Some (po_Option p) ∧ po_Splits p = pending_splits today id (po_Option p) m ∧
  po_Identifiers p = names_listed id (identifiers (shop m)) ∧ po_Splits p ≠ [].
Proof.
  unfold pending_option. destruct (instruments (shop m) !! id) as [o|]; [|done]. cbn [mbind option_bind].
  destruct (_ || _); [|done]. destruct (pending_splits today id o m) as [|s l] eqn:E; [done|]. by intros [= <-].
Qed.

Lemma current_occ_holder id ids : current_occ (names_listed id ids) ≠ EmptyString →
  ∃ r, r ∈ ids ∧ holder r = id ∧ ref_Type (ii_Ref (naming r)) = "OCC".
Proof.
  unfold current_occ. destruct (filter _ _) as [|i l] eqn:E; [done|]. intros _.
  assert (i ∈ i :: l) as Hi by left. rewrite <- E in Hi. apply list_elem_of_filter in Hi as [[Ht _] Hi].
  apply list_elem_of_fmap in Hi as (r & -> & Hr). rewrite go_sort_perm in Hr.
  apply list_elem_of_filter in Hr as [Hh Hr]. by exists r.
Qed.

#[local] Instance ex_le_refl : Reflexive (λ s s' : StockSplit D, ex_cmp s s' ≠ Gt).
Proof. intros s. by rewrite (cmp_refl ex_cmp). Qed.

(** The splits an option waits for reach as far as any that ought to. *)
Lemma pending_covers m id o z s : last (pending_splits today id o m) = Some z →
  s ∈ stock_splits m → underlying_id o = Some (ss_InstrumentID s) → (ss_ExDate s <= today)%Z →
  (∃ e, expiry o = Some e ∧ (ss_ExDate s <= e)%Z) → (ss_ExDate s <= ss_ExDate z)%Z.
Proof.
  unfold pending_splits. destruct (bool_decide _); [|done].
  set (P := λ s, _ ∧ _). intros Hz Hs Hu Ht (e & He & Hse).
  pose proof (last_Some_elem_of _ _ Hz) as Hin. rewrite elem_of_go_sort in Hin.
  apply list_elem_of_filter in Hin as [[_ Hb] _]. rewrite !andb_true_iff in Hb. destruct Hb as [_ Hfz].
  destruct (after (name_floor id m) (ss_ExDate s)) eqn:Ea.
  - enough (ex_cmp s z ≠ Gt) by (unfold ex_cmp in *; by apply Z.compare_le_iff).
    apply (sorted_last (λ x y, ex_cmp x y ≠ Gt) _ s z) in Hz; [done|by apply (go_sort_sorted _ ex_cmp (λ _ _, eq_refl))|].
    rewrite elem_of_go_sort. apply list_elem_of_filter. split; [|done]. unfold P. split; [done|].
    by rewrite He, Ea, !andb_true_iff, !Z.leb_le.
  - destruct (name_floor id m) as [f|]; [|done]. cbn [after] in *. apply Z.ltb_ge in Ea. apply Z.ltb_lt in Hfz. lia.
Qed.

(** One option of the pass: either nothing but an event is written, or its names now reach
    the last split there is and nothing that was up to date is less so. *)
Lemma apply_option_step m0 m u id p fs b m' :
  bare_underlyings m0 → kept m0 m → pending_option today u m0 id = Some p → f_split <$> fs = po_Splits p →
  applyOptionSplits uuid_ok operating_mic parse_dec pg_div first_row today p fs m = (b, m') →
  kept m0 m' ∧ (b = true → done_with today m0 m' id) ∧ ∀ a, done_with today m0 m a → done_with today m0 m' a.
Proof using first_row_elem.
  intros Hbare Hk Hp Hfs.
  destruct (pending_option_spec _ _ _ _ Hp) as (Hid & Ho & Hspl & Hnames & _).
  assert (∀ s, kept m0 (insertUnhandledSplit uuid_ok (po_ID p) s m) ∧
    ∀ a, done_with today m0 m a → done_with today m0 (insertUnhandledSplit uuid_ok (po_ID p) s m) a) as Hev.
  { intros s. destruct (insert_event_same (po_ID p) s m) as [E1 E2].
    split; [by eapply kept_same|intros a; by apply done_same]. }
  unfold applyOptionSplits. destruct (last fs) as [latest|] eqn:El; [|by intros [= <- <-]].
  destruct (strike (po_Option p)) as [k|]; [|by intros [= <- <-]].
  destruct (expiry (po_Option p)) as [e|] eqn:Ee; [|by intros [= <- <-]].
  destruct (put_call (po_Option p)) as [side|]; [|by intros [= <- <-]].
  destruct (String.eqb_spec (current_occ (po_Identifiers p)) EmptyString) as [|Hocc]; [by intros [= <- <-]|].
  destruct (Derivative.ParseOptionTicker _ _) as [parsed|];
    [|intros [= <- <-]; destruct (Hev (f_split latest)); by split_and!].
  destruct (mint_all parsed k fs) as [mints|s] eqn:Em; [|intros [= <- <-]; destruct (Hev s); by split_and!].
  destruct (ApplyOptionSplit _ _ _ _ _ _ m) as [m1|] eqn:Eap; [|by intros [= <- <-]]. intros [= <- <-].
  rewrite Hnames in Hocc. destruct (current_occ_holder _ _ Hocc) as (r & Hr & Hh & Ht).
  assert (¬ underlies m0 (po_ID p)) as Hnu by (rewrite Hid, <- Hh; by apply Hbare).
  pose proof (mints_are_named _ _ _ _ Em) as Hnamed.
  destruct (mints_last _ _ _ _ _ Em El) as (z & Hz & Hzex).
  assert (done_with today m0 m1 id) as Hdone.
  { right. exists (om_ExDate z), (po_Option p). split_and!; [done| |].
    - rewrite <- Hid. by eapply (apply_in_force _ _ _ _ _ {| osp_InstrumentID := po_ID p |}).
    - rewrite Hzex. intros s Hs Hu Hto Hex.
      assert (last (pending_splits today id (po_Option p) m0) = Some (f_split latest)) as Hlast
        by (rewrite <- Hspl, <- Hfs, fmap_last, El; done).
      by eapply pending_covers. }
  split_and!; [|done|].
  { eapply apply_kept; [exact first_row_elem|exact Hk| | |exact Eap]; done. }
  intros a Ha. destruct (decide (a = po_ID p)) as [->|Hne]; [by rewrite Hid|].
  eapply apply_others; [exact first_row_elem| | |exact Ha|exact Eap]; done.
Qed.

Lemma pass_option_step m0 u id p acc :
  bare_underlyings m0 → pending_option today u m0 id = Some p →
  kept m0 (ps_market acc) ∧ Forall (done_with today m0 (ps_market acc)) (ps_adjusted acc) →
  let acc' := pass_option uuid_ok operating_mic parse_dec pg_div first_row today acc p in
  kept m0 (ps_market acc') ∧ Forall (done_with today m0 (ps_market acc')) (ps_adjusted acc').
Proof using first_row_elem H0.
  intros Hbare Hp [Hk Hd]. unfold pass_option. cbv zeta.
  destruct (rd_unhandled (read_splits (po_ID p) (po_Splits p) (ps_blocked acc))) eqn:Eu; [done|].
  destruct (applyOptionSplits _ _ _ _ _ _ _ _ _) as [b m'] eqn:Ea. cbn [ps_market ps_adjusted].
  destruct (apply_option_step _ _ _ _ _ _ _ _ Hbare Hk Hp (proj1 (read_factors _ _ _ (proj1 (rd_unhandled_iff _ _ _) Eu))) Ea)
    as (Hk' & Hb & Hmore).
  assert (Forall (done_with today m0 m') (ps_adjusted acc)) as Hd' by by eapply Forall_impl.
  split; [done|]. destruct b; [|done]. apply Forall_app. split; [done|]. apply Forall_singleton.
  destruct (pending_option_spec _ _ _ _ Hp) as (-> & _). by apply Hb.
Qed.

(** The pass need run only once.  An option it restated waits for nothing afterwards,
    whichever underlying is asked for, though another option of the same pass absorbed
    instruments or was refused: its name reflects every split that has taken effect, so a
    second pass on the same day restates none of them again.  Options are not themselves
    written on, that is, no security another is written on holds an OCC name. *)
Theorem pass_runs_once m underlyingID adjusted m' :
  bare_underlyings m →
  ProcessPendingOptionSplits uuid_ok operating_mic parse_dec pg_div first_row today underlyingID m = (adjusted, m') →
  ∀ u l p, ListPendingOptionSplits uuid_ok today u m' = Some l → p ∈ l → po_ID p ∉ adjusted.
Proof using first_row_elem H0.
  intros Hbare. unfold ProcessPendingOptionSplits.
  destruct (ListPendingOptionSplits uuid_ok today underlyingID m) as [pending|] eqn:Ep.
  2: { intros [= <- <-] u l p _ _. apply not_elem_of_nil. }
  set (r := foldl _ _ pending). intros [= <- <-] u l p Hl Hp.
  assert (kept m (ps_market r) ∧ Forall (done_with today m (ps_market r)) (ps_adjusted r)) as [Hk Hd].
  { unfold ListPendingOptionSplits in Ep. destruct (_ && _); [done|]. injection Ep as <-. unfold r. clear r Hl l Hp.
    set (ids := sort_strings _). clearbody ids. induction ids as [|id ids IH] using rev_ind.
    { split; [by apply kept_refl|constructor]. }
    rewrite omap_app, foldl_app. cbn [omap list_omap].
    destruct (pending_option today underlyingID m id) as [q|] eqn:Eq; [|done]. cbn [foldl]. by eapply pass_option_step. }
  assert (∀ bl m1, shop (foldl (λ m b, insertUnhandledSplit uuid_ok (ss_InstrumentID (bl_split b)) (bl_split b) m) m1 bl) = shop m1 ∧
    stock_splits (foldl (λ m b, insertUnhandledSplit uuid_ok (ss_InstrumentID (bl_split b)) (bl_split b) m) m1 bl) = stock_splits m1)
    as Hsame.
  { intros bl. induction bl as [|b bl IH]; intros m1; [done|]. cbn [foldl]. destruct (IH (insertUnhandledSplit uuid_ok
      (ss_InstrumentID (bl_split b)) (bl_split b) m1)) as [-> ->]. apply insert_event_same. }
  destruct (Hsame (ps_blocked r) (ps_market r)) as [E1 E2]. intros Hin.
  unfold ListPendingOptionSplits in Hl. destruct (_ && _); [done|]. injection Hl as <-.
  apply list_elem_of_omap in Hp as (id & _ & Hpo). destruct (pending_option_spec _ _ _ _ Hpo) as (Hid & _).
  rewrite (done_not_pending today m) in Hpo; [done|by eapply kept_same|].
  eapply done_same; [exact E1|]. rewrite Hid in Hin. by eapply Forall_forall in Hd.
Qed.
End whole_pass.

(** ** Adjusted quantities and prices *)

Section factors.
Context {D : Type} `{DecimalLaws D} (today : Z).
Implicit Types (m : market D).

Lemma mul_product (f : StockSplit D → D) l : (dval (mul (f <$> l)) == ratio_product f l)%Q.
Proof.
  induction l as [|s l IH] using rev_ind; [by apply dval_of_int|].
  unfold mul in *. rewrite fmap_app, foldl_app. simpl. by rewrite dval_mul, IH, ratio_product_snoc.
Qed.

Lemma product_split (f : StockSplit D → D) (P Q R : StockSplit D → Prop)
    `{∀ s, Decision (P s), ∀ s, Decision (Q s), ∀ s, Decision (R s)} l :
  (∀ s, R s ↔ P s ∨ Q s) → (∀ s, P s → Q s → False) →
  (ratio_product f (filter R l) == ratio_product f (filter P l) * ratio_product f (filter Q l))%Q.
Proof.
  intros HR Hdis. induction l as [|s l IH]; [reflexivity|]. rewrite !filter_cons.
  destruct (decide (R s)) as [Hr|Hr], (decide (P s)) as [Hp|Hp], (decide (Q s)) as [Hq|Hq];
    cbn [ratio_product foldr]; fold (ratio_product f (filter R l)) (ratio_product f (filter P l)) (ratio_product f (filter Q l));
    try (exfalso; specialize (HR s); specialize (Hdis s); tauto); rewrite IH; ring.
Qed.

(** The splits in effect by a date. *)
Definition until (b : Z) m : market D := {|
  shop := shop m; stock_splits := filter (λ s, (ss_ExDate s <= b)%Z) (stock_splits m); eod_prices := eod_prices m;
  adjusted_txs := adjusted_txs m; adjusted_prices := adjusted_prices m; unhandled := unhandled m |}.

(** The factor of a share count is the factor from it to any later date before today
    times the factor from there: a holding restated once from its own basis is one
    restated step by step. *)
Theorem factors_compose m id a b : (a <= b <= today)%Z →
  (dval (split_factor_at today id a m).1
     == dval (split_factor_at today id a (until b m)).1 * dval (split_factor_at today id b m).1)%Q ∧
  (dval (split_factor_at today id a m).2
     == dval (split_factor_at today id a (until b m)).2 * dval (split_factor_at today id b m).2)%Q.
Proof.
  intros [Hab Hb]. unfold split_factor_at. cbn [fst snd stock_splits until]. rewrite !mul_product, !list_filter_filter.
  split; (apply product_split; intros s; unfold splits_of, effective; cbn [shop until];
    rewrite !andb_true_iff, !Z.ltb_lt, !Z.leb_le; [|lia]); destruct (decide (ss_ExDate s <= b)%Z); intuition lia.
Qed.

End factors.

Section adjusting.
Context {D : Type} `{Decimal D}.
Context (uuid_ok : string → bool) (pg_div : D → D → D) (today : Z).
Implicit Types (m : market D) (t : row D).

Lemma adjust_postings id m ts acc :
  NoDup (r_id <$> ts) →
  let adjusted := foldl (adjust_posting pg_div today id m) acc ts in
  (∀ t i, t ∈ ts → r_instrument t = Some i → recomputed id i m = true →
     adjusted !! r_id t = Some (adjust_tx pg_div (split_factor_at today i (basis_of t) m) t)) ∧
  (∀ k, (∀ t i, t ∈ ts → r_instrument t = Some i → recomputed id i m = true → r_id t ≠ k) → adjusted !! k = acc !! k).
Proof.
  induction ts as [|t ts IH] using rev_ind; intros Hnd; [split; [by intros t i ?%elem_of_nil|done]|].
  rewrite fmap_app, NoDup_app in Hnd. destruct Hnd as (Hnd & Hnew & _). destruct (IH Hnd) as [Ht Hk].
  rewrite foldl_app. cbn [foldl]. set (adj := foldl _ acc ts) in *. clearbody adj.
  assert (∀ x, x ∈ ts → r_id x ≠ r_id t) as Hne.
  { intros x Hx E. apply (Hnew (r_id x)); [by apply list_elem_of_fmap_2|]. rewrite E. by left. }
  unfold adjust_posting. destruct (r_instrument t) as [i|] eqn:Ei; [destruct (recomputed id i m) eqn:Er|]; split.
  - intros x j [Hx| ->%list_elem_of_singleton]%elem_of_app Hj Hr.
    + rewrite lookup_insert_ne by (intros E; symmetry in E; by apply (Hne x Hx)). by apply Ht.
    + assert (j = i) as -> by congruence. by rewrite lookup_insert_eq.
  - intros k Hn. rewrite lookup_insert_ne by (apply (Hn t i); [apply elem_of_app; right; by left|done|done]).
    apply Hk. intros x j Hx. apply Hn, elem_of_app. by left.
  - intros x j [Hx| ->%list_elem_of_singleton]%elem_of_app Hj Hr; [by apply Ht|congruence].
  - intros k Hn. apply Hk. intros x j Hx. apply Hn, elem_of_app. by left.
  - intros x j [Hx| ->%list_elem_of_singleton]%elem_of_app Hj Hr; [by apply Ht|congruence].
  - intros k Hn. apply Hk. intros x j Hx. apply Hn, elem_of_app. by left.
Qed.

(** Recomputing the adjusted columns restates every posting of the instrument from its
    stored quantity and price by the factor of its own share count, touches no other
    posting, and done twice is done once. *)
Theorem recompute_from_scratch m id m' : NoDup (r_id <$> txs (book (shop m))) →
  RecomputeSplitAdjustments uuid_ok pg_div today id m = Some m' →
  (∀ t i, t ∈ txs (book (shop m)) → r_instrument t = Some i → recomputed id i m = true →
     adjusted_txs m' !! r_id t = Some (adjust_tx pg_div (split_factor_at today i (basis_of t) m) t)) ∧
  (∀ k, (∀ t i, t ∈ txs (book (shop m)) → r_instrument t = Some i → recomputed id i m = true → r_id t ≠ k) →
     adjusted_txs m' !! k = adjusted_txs m !! k) ∧
  RecomputeSplitAdjustments uuid_ok pg_div today id m' = Some m'.
Proof.
  intros Hnd. unfold RecomputeSplitAdjustments. destruct (_ && _) eqn:Eg; [done|]. intros [= <-].
  cbn [adjusted_txs adjusted_prices shop stock_splits eod_prices unhandled].
  destruct (adjust_postings id m _ (adjusted_txs m) Hnd) as [Ht Hk]. split_and!; [done|done|]. f_equal.
  set (adj := foldl _ (adjusted_txs m) _) in *. f_equal.
  - set (m1 := {| shop := shop m; stock_splits := _; eod_prices := _; adjusted_txs := _; adjusted_prices := _; unhandled := _ |}).
    destruct (adjust_postings id m1 _ adj Hnd) as [Ht1 Hk1]. apply map_eq. intros k.
    destruct (decide (Exists (λ t, r_id t = k ∧
        match r_instrument t with Some i => recomputed id i m | None => false end = true) (txs (book (shop m))))) as [He|Hn].
    + apply Exists_exists in He as (t & Hin & <- & Hr). destruct (r_instrument t) as [i|] eqn:Ei; [|done].
      rewrite (Ht t i) by done. exact (Ht1 t i Hin Ei Hr).
    + apply Hk1. intros t i Hin Hi Hr E. apply Hn, Exists_exists. exists t. split; [done|]. by rewrite Hi.
  - apply map_eq. intros k. rewrite !map_lookup_imap. destruct (eod_prices m !! k) as [b|] eqn:Eb; [|done].
    cbn [option_bind mbind]. change (recomputed id k.1 _) with (recomputed id k.1 m).
    by destruct (recomputed id k.1 m).
Qed.
End adjusting.

(** An option with no OCC name waits for its splits, and the pass says nothing of it. *)
Lemma no_occ_is_silent {D} `{Decimal D} uuid_ok operating_mic parse_dec pg_div first_row today (p : PendingOptionSplits D) fs m :
  current_occ (po_Identifiers p) = EmptyString →
  applyOptionSplits uuid_ok operating_mic parse_dec pg_div first_row today p fs m = (false, m).
Proof.
  intros E. unfold applyOptionSplits. rewrite E.
  by destruct (last fs), (strike (po_Option p)), (expiry (po_Option p)), (put_call (po_Option p)).
Qed.

(** ** Concrete markets *)

Section witnesses.
#[local] Existing Instances QDecimal.q_decimal QDecimal.q_decimal_laws.

Definition day_2024 : Z := Calendar.Date 2024 1 1.
Definition four_for_one : StockSplit Q := {| ss_InstrumentID := "aapl"; ss_ExDate := Calendar.Date 2020 8 31;
  ss_SplitFrom := 1%Q; ss_SplitTo := 4%Q; ss_DataProvider := "import"; ss_FirstKnownAt := None |}.
Definition three_for_one : StockSplit Q := {| ss_InstrumentID := "aapl"; ss_ExDate := Calendar.Date 2022 8 25;
  ss_SplitFrom := 2%Q; ss_SplitTo := 6%Q; ss_DataProvider := "import"; ss_FirstKnownAt := None |}.

Definition call : instrument Q := new_row "OPTION" EmptyString "USD" EmptyString EmptyString (Some "aapl") None None
  (Some {| of_Strike := 100%Q; of_Expiry := Calendar.Date 2025 1 17; of_PutCall := "C" |}) 2.

Definition old_name : IdentifierInput := {|
  ii_Ref := {| ref_Type := "OCC"; ref_Value := "AAPL250117C00100000"; ref_Domain := EmptyString |};
  ii_Canonical := true; ii_ValidFrom := Some (Calendar.Date 2019 5 1); ii_ValidBefore := None |}.

(** A stock that split twice, and a call on it under the name it had before. *)
Definition sample_market : market Q := {|
  shop := {| instruments := <["call" := call]> (<["aapl" := stock 1]> ∅);
             identifiers := [held_by "aapl" (isin "US0378331005"); held_by "call" old_name];
             declared := []; book := {| txs := [leg "t1" "aapl" 10; leg "t2" "call" 1];
                                        tx_groups := ∅; transfer_matches := [] |} |};
  stock_splits := [three_for_one; four_for_one];
  eod_prices := ∅; adjusted_txs := ∅; adjusted_prices := ∅; unhandled := [] |}.

Definition occ_name (v : string) : IdentifierInput := {|
  ii_Ref := {| ref_Type := "OCC"; ref_Value := v; ref_Domain := EmptyString |};
  ii_Canonical := true; ii_ValidFrom := None; ii_ValidBefore := None |}.

Definition first_mint : OptionMint Q :=
  {| om_ExDate := Calendar.Date 2020 8 31; om_OCC := occ_name "AAPL250117C00025000"; om_Strike := 25%Q |}.
Definition second_mint : OptionMint Q :=
  {| om_ExDate := Calendar.Date 2022 8 25; om_OCC := occ_name "AAPL250117C00008333"; om_Strike := (8333 # 1000)%Q |}.

Definition sample_pass (m : market Q) : list string * market Q :=
  ProcessPendingOptionSplits (λ _, true) sample_mic (λ _, None) Qdiv head day_2024 EmptyString m.

Lemma head_elem (l : list identifier) r : head l = Some r → r ∈ l.
Proof. destruct l; [done|]. intros [= ->]. left. Qed.

(** The names the pass leaves, and the adjusted quantities. *)
Example pass_on_sample :
  let '(adjusted, m) := sample_pass sample_market in
  adjusted = ["call"] ∧
  (ref_Value ∘ ii_Ref ∘ naming <$> filter (λ r, holder r = "call") (identifiers (shop m)))
    = ["AAPL250117C00100000"; "AAPL250117C00025000"; "AAPL250117C00008333"] ∧
  (sample_pass m).1 = [].
Proof. by vm_compute. Qed.

Lemma sample_market_ok : store_ok sample_mic (shop sample_market).
Proof.
  split; cbn [instruments identifiers shop sample_market].
  - change (names_ok (([] ++ [held_by "aapl" (isin "US0378331005")]) ++ [held_by "call" old_name])).
    rewrite !names_ok_snoc. split_and!; try done; by split; [constructor|].
  - intros r. rewrite !elem_of_cons, elem_of_nil. by intros [->|[->|[]]]; eexists.
  - intros id i u. rewrite !lookup_insert_Some, lookup_empty.
    intros [[<- <-]|[_ [[<- <-]|[_ [=]]]]]; [|done]. intros [= <-]. by eexists.
  - intros id i. rewrite !lookup_insert_Some, lookup_empty. intros [[_ <-]|[_ [[_ <-]|[_ [=]]]]]; by vm_compute.
Qed.

Lemma whole_forward_split_witness :
  IsWholeForwardSplit 2%Q 6%Q = true ∧ ¬ IsWholeForwardSplit 10%Q 1%Q = true.
Proof.
  split.
  - apply (whole_forward_split 2%Q 6%Q). split; [done|]. exists 3%Z. split; [lia|]. by vm_compute.
  - rewrite (whole_forward_split 10%Q 1%Q). intros (_ & n & Hn & E). change (1 == inject_Z n * 10)%Q in E.
    assert (2 <= inject_Z n)%Q by (change 2%Q with (inject_Z 2); by rewrite <- Zle_Qle). lra.
Defined.

Lemma restatement_timeline_witness :
  match ApplyOptionSplit (λ _, true) sample_mic Qdiv head day_2024
      {| osp_InstrumentID := "call"; osp_OldOCCValue := "AAPL250117C00100000"; osp_Mints := [first_mint; second_mint] |}
      sample_market with
  | Some m => occ_on "call" (Calendar.Date 2020 8 30) (identifiers (shop m)) = [ii_Ref old_name] ∧
              occ_on "call" (Calendar.Date 2021 1 1) (identifiers (shop m)) = [ii_Ref (om_OCC first_mint)]
  | None => False
  end.
Proof.
  destruct (restatement_timeline (λ _, true) sample_mic Qdiv head day_2024 head_elem sample_market first_mint [second_mint]
    "call" "AAPL250117C00100000" call) as (m & E & _ & Hb & Ha & _).
  - exact sample_market_ok.
  - done.
  - done.
  - split; [|repeat constructor]. repeat constructor.
  - intros r b Hr _ _. cbn [identifiers shop sample_market] in Hr. rewrite !elem_of_cons, elem_of_nil in Hr.
    by destruct Hr as [->|[->|[]]].
  - intros j r Hj Hr. cbn [identifiers shop sample_market] in Hr. rewrite !elem_of_cons, elem_of_nil in Hr.
    destruct Hr as [->|[->|[]]]; [|done]. cbn [mint_rows] in Hj. rewrite !elem_of_cons, elem_of_nil in Hj.
    by destruct Hj as [->|[->|[]]].
  - rewrite E. split.
    + by rewrite Hb by (by vm_compute).
    + destruct (Ha (Calendar.Date 2021 1 1)) as (n & Hn & ->); [by vm_compute|]. vm_compute in Hn. by injection Hn as <-.
Defined.

Definition read_twice : reading (D:=Q) := read_splits "call" [four_for_one; three_for_one] [].

Definition call_text : Derivative.ParsedOption Q :=
  Derivative.parsed Derivative.FormatOCC "AAPL" (Calendar.Date 2025 1 17) "C" 100%Q.

Lemma strikes_rounded_once_witness :
  match mint_all call_text 100%Q (rd_factors read_twice) with
  | inl [_; p] => (om_Strike p == q_round (100 * 2 / 24) 3)%Q
  | _ => False
  end.
Proof.
  destruct (mint_all call_text 100%Q (rd_factors read_twice)) as [[|p1 [|p2 [|p3 ps]]]|s] eqn:E; try (by vm_compute in E).
  destruct (strikes_rounded_once "call" call_text 100%Q [four_for_one; three_for_one] [] [p1; p2] 1 p2) as [_ Hs].
  - intros s. rewrite !elem_of_cons, elem_of_nil. by intros [->|[->|[]]].
  - exact E.
  - done.
  - exact Hs.
Defined.

Lemma sample_bare : bare_underlyings sample_market.
Proof.
  intros r Hr Ht (a & i & Hi & Hu). cbn [identifiers shop sample_market] in Hr. rewrite !elem_of_cons, elem_of_nil in Hr.
  destruct Hr as [->|[->|[]]]; [done|]. cbn [held_by holder] in Hu. cbn [instruments shop sample_market] in Hi.
  rewrite !lookup_insert_Some, lookup_empty in Hi. by destruct Hi as [[_ <-]|[_ [[_ <-]|[_ [=]]]]].
Qed.

Lemma pass_runs_once_witness :
  let '(adjusted, m) := sample_pass sample_market in
  ∀ u l p, ListPendingOptionSplits (λ _, true) day_2024 u m = Some l → p ∈ l → po_ID p ∉ adjusted.
Proof.
  destruct (sample_pass sample_market) as [adjusted m] eqn:E.
  exact (pass_runs_once (λ _, true) sample_mic (λ _, None) Qdiv head day_2024 head_elem sample_market EmptyString adjusted m
    sample_bare E).
Defined.

Lemma factors_compose_witness :
  (dval (split_factor_at day_2024 "aapl" (Calendar.Date 2019 5 1) sample_market).1 == 4 * 6)%Q.
Proof.
  destruct (factors_compose (D:=Q) day_2024 sample_market "aapl" (Calendar.Date 2019 5 1) (Calendar.Date 2021 1 1)) as [-> _].
  - split; by vm_compute.
  - by vm_compute.
Defined.

Lemma recompute_from_scratch_witness :
  match RecomputeSplitAdjustments (λ _, true) Qdiv day_2024 "aapl" sample_market with
  | Some m => RecomputeSplitAdjustments (λ _, true) Qdiv day_2024 "aapl" m = Some m ∧ adjusted_txs m !! "t2" = None
  | None => False
  end.
Proof.
  destruct (RecomputeSplitAdjustments (λ _, true) Qdiv day_2024 "aapl" sample_market) as [m|] eqn:E; [|by vm_compute in E].
  destruct (recompute_from_scratch (λ _, true) Qdiv day_2024 sample_market "aapl" m) as (_ & Hk & Hagain).
  - cbn [txs book shop sample_market]. repeat constructor; rewrite ?elem_of_cons, elem_of_nil; by intros [].
  - exact E.
  - split; [exact Hagain|]. rewrite Hk; [done|]. intros t i Ht Hi Hr. cbn [txs book shop sample_market] in Ht.
    rewrite !elem_of_cons, elem_of_nil in Ht. destruct Ht as [->|[->|[]]]; [done|]. injection Hi as <-. by vm_compute in Hr.
Defined.
End witnesses.
End Splits.
