(* ===== verification/Declarations.v ===== *)
(** * Holding declarations

    server/db/postgres/declarations.go, server/service/api/declarations.go and recalc.go:
    what a user states of a holding on a date, the pad - a synthetic opening balance of
    two opposite legs - that makes the earliest statement true, and the check of every
    later one against what the postings add up to.

    A declared quantity is text.  [float_ok] is what [strconv.ParseFloat] accepts,
    [parse_dec] is [decimal.NewFromString], and [numeric_text] is the text a NUMERIC
    column gives back for one written to it, if it takes it.  [map_order] is the order a
    Go map is gone through in, [today] and [pg_div] are as in [Splits], [gen_uuid] and
    [uuid_ok] as in [Ledger].  The table of users and lost connections are not modelled.
    Days are numbers of days and timestamps nanoseconds, both in UTC. *)

From Stdlib Require Import QArith Lqa.
From S2P Require Import Prelude GoStrings Calendar Decimal Posting Residual Ledger Instruments Splits.

Local Open Scope nat_scope.

Module Declarations.
Import GoStrings Calendar Posting Residual Ledger Instruments Splits.

(** ** Data *)

(** Holdings are computed, so there is no id to key them by. *)
Record holding := { hk_user : string; hk_broker : string; hk_account : string; hk_instrument : string }.

#[export] Instance holding_eq_dec : EqDecision holding.
Proof. solve_decision. Defined.

Record declaration := {
  d_ID : string;
  d_holding : holding;
  d_DeclaredQty : string;
  d_AsOfDate : Z;
  d_ShareCountBasis : Z;
}.

#[export] Instance declaration_eq_dec : EqDecision declaration.
Proof. solve_decision. Defined.

Inductive DeclarationKind := KindPad | KindAssert.

Record DeclarationCheck {D : Type} := { dc_ComputedQty : D; dc_PostingCount : nat; dc_InexactBases : nat }.
#[global] Arguments DeclarationCheck : clear implicits.

Record InitializeTx {D : Type} := { init_Timestamp : Z; init_Quantity : D; init_ShareCountBasis : Z }.
#[global] Arguments InitializeTx : clear implicits.

(** The tables; [declared] of the instrument store is read off the declarations. *)
Record state {D : Type} := { mkt : market D; decls : list declaration }.
#[global] Arguments state : clear implicits.

(** What a write of the store answers. *)
Inductive outcome {A : Type} := Done (a : A) | ErrDuplicate | ErrOther.
Arguments outcome : clear implicits.

Definition InitializePurpose : string := "INITIALIZE".

Definition decl_key (d : declaration) : holding * Z := (d_holding d, d_AsOfDate d).

(** [ORDER BY d.broker, d.account, d.instrument_id, d.as_of_date] *)
Definition decl_cmp : declaration → declaration → comparison :=
  cmp_on (λ d, (hk_broker (d_holding d), (hk_account (d_holding d), (hk_instrument (d_holding d), d_AsOfDate d))))
    (cmp_lex String.compare (cmp_lex String.compare (cmp_lex String.compare Z.compare))).

Section declarations.
Context {D : Type} `{Decimal D}.
Context (gen_uuid : gset string → string) (uuid_ok : string → bool).
Context (parse_dec : string → option D) (float_ok : string → bool) (numeric_text : string → option string).
Context (pg_div : D → D → D) (today : Z) (map_order : list holding → list holding).
Implicit Types (s : state D) (t : row D) (h : holding) (d : declaration).

Definition ledger_of s : ledger D := book (shop (mkt s)).

Definition with_book (l : ledger D) s : state D :=
  {| mkt := with_shop {| instruments := instruments (shop (mkt s)); identifiers := identifiers (shop (mkt s));
                         declared := declared (shop (mkt s)); book := l |} (mkt s);
     decls := decls s |}.

Definition with_decls (l : list declaration) s : state D :=
  {| mkt := with_shop {| instruments := instruments (shop (mkt s)); identifiers := identifiers (shop (mkt s));
                         declared := (λ d, hk_instrument (d_holding d)) <$> l; book := book (shop (mkt s)) |} (mkt s);
     decls := l |}.

Definition with_adjusted (m : gmap string (adjusted_tx D)) s : state D :=
  {| mkt := {| shop := shop (mkt s); stock_splits := stock_splits (mkt s); eod_prices := eod_prices (mkt s);
               adjusted_txs := m; adjusted_prices := adjusted_prices (mkt s); unhandled := unhandled (mkt s) |};
     decls := decls s |}.

(** ** What the postings of a holding add up to *)

Definition posting_of h t : bool :=
  String.eqb (r_user t) (hk_user h) && String.eqb (r_broker t) (hk_broker h) && String.eqb (r_account t) (hk_account h)
  && bool_decide (r_instrument t = Some (hk_instrument h)).

Definition counted h (from before : option Z) (include_synthetic : bool) t : bool :=
  posting_of h t && String.eqb (r_account_type t) "USER"
  && (include_synthetic || bool_decide (r_purpose t = None))
  && match from with Some f => (f <=? r_order_date t)%Z | None => true end
  && match before with Some b => (r_order_date t <? b)%Z | None => true end.

(** The quantity of one share count in another; the factors to today are [n / d]. *)
Definition in_basis h (basis : Z) s (b : Z) (q : D) : D :=
  let '(nb, db) := split_factor_at today (hk_instrument h) b (mkt s) in
  let '(nd, dd) := split_factor_at today (hk_instrument h) basis (mkt s) in
  pg_div (dec_mul (dec_mul q nb) dd) (dec_mul db nd).

Definition inexact h (basis : Z) s (b : Z) : bool :=
  let '(nb, db) := split_factor_at today (hk_instrument h) b (mkt s) in
  let '(nd, dd) := split_factor_at today (hk_instrument h) basis (mkt s) in
  negb (dec_eqb (dec_mul nb dd) (dec_mul db nd)).

Definition of_basis (b : Z) (ts : list (row D)) : list (row D) := filter (λ t, basis_of t = b) ts.

Definition holding_qty_in_basis h (from before : option Z) (basis : Z) (include_synthetic : bool) s : DeclarationCheck D :=
  let ts := filter (λ t, counted h from before include_synthetic t = true) (txs (ledger_of s)) in
  let bases := remove_dups (basis_of <$> ts) in
  {| dc_ComputedQty := dec_sum ((λ b, in_basis h basis s b (dec_sum (r_quantity <$> of_basis b ts))) <$> bases);
     dc_PostingCount := length ts;
     dc_InexactBases := length (filter (λ b, inexact h basis s b = true) bases) |}.

(** [declarationVerify] and [declarationKind] *)
Definition verify d s : DeclarationCheck D :=
  holding_qty_in_basis (d_holding d) None (Some (day_start (d_AsOfDate d + 1))) (d_ShareCountBasis d) true s.

Definition kind_of d s : DeclarationKind :=
  if forallb (λ e, implb (bool_decide (d_holding e = d_holding d)) (d_AsOfDate d <=? d_AsOfDate e)%Z) (decls s)
  then KindPad else KindAssert.

Definition ComputeRunningBalance h (from to basis : Z) s : option D :=
  if uuid_ok (hk_user h) && uuid_ok (hk_instrument h)
  then Some (dc_ComputedQty (holding_qty_in_basis h (Some from) (Some to) basis false s)) else None.

Definition GetPortfolioStartDate (user : string) s : option (option Z) :=
  if negb (uuid_ok user) then None else
  Some (first_date (filter (λ t, r_user t = user ∧ r_purpose t = None ∧ r_account_type t = "USER") (txs (ledger_of s)))).

(** ** The table of declarations *)

Definition ListHoldingDeclarations (user : string) s : option (list declaration) :=
  if negb (uuid_ok user) then None
  else Some (go_sort (less_of decl_cmp) (filter (λ d, hk_user (d_holding d) = user) (decls s))).

Definition GetHoldingDeclaration (id : string) s : option declaration :=
  if negb (uuid_ok id) then None else head (filter (λ d, d_ID d = id) (decls s)).

(** The trigger's default. *)
Definition basis_or_date (basis : option Z) (asOf : Z) : Z := default asOf basis.

Definition CreateHoldingDeclaration h (qty : string) (asOf : Z) (basis : option Z) s : outcome (state D * declaration) :=
  if negb (uuid_ok (hk_user h) && uuid_ok (hk_instrument h)) then ErrOther else
  match numeric_text qty with
  | None => ErrOther
  | Some text =>
      if negb (bool_decide (is_Some (instruments (shop (mkt s)) !! hk_instrument h))) then ErrOther else
      if bool_decide ((h, asOf) ∈ decl_key <$> decls s) then ErrDuplicate else
      let d := {| d_ID := gen_uuid (list_to_set (d_ID <$> decls s)); d_holding := h; d_DeclaredQty := text;
                  d_AsOfDate := asOf; d_ShareCountBasis := basis_or_date basis asOf |} in
      Done (with_decls (decls s ++ [d]) s, d)
  end.

Definition UpdateHoldingDeclaration (id qty : string) (asOf : Z) (basis : option Z) s : outcome (state D * declaration) :=
  if negb (uuid_ok id) then ErrOther else
  match numeric_text qty, head (filter (λ d, d_ID d = id) (decls s)) with
  | Some text, Some d =>
      let d' := {| d_ID := id; d_holding := d_holding d; d_DeclaredQty := text; d_AsOfDate := asOf;
                   d_ShareCountBasis := default (d_ShareCountBasis d) basis |} in
      let rest := filter (λ e, d_ID e ≠ id) (decls s) in
      if bool_decide (decl_key d' ∈ decl_key <$> rest) then ErrDuplicate
      else Done (with_decls ((λ e, if decide (d_ID e = id) then d' else e) <$> decls s) s, d')
  | _, _ => ErrOther
  end.

Definition DeleteHoldingDeclaration (id : string) s : option (state D) :=
  if negb (uuid_ok id) then None
  else if bool_decide (id ∈ d_ID <$> decls s) then Some (with_decls (filter (λ d, d_ID d ≠ id) (decls s)) s) else None.

Definition UpsertHoldingDeclaration h (qty : string) (asOf : Z) (basis : option Z) s : option (state D) :=
  if negb (uuid_ok (hk_user h) && uuid_ok (hk_instrument h)) then None else
  text ← numeric_text qty;
  if negb (bool_decide (is_Some (instruments (shop (mkt s)) !! hk_instrument h))) then None else
  if bool_decide ((h, asOf) ∈ decl_key <$> decls s) then
    Some (with_decls ((λ e, if decide (decl_key e = (h, asOf)) then
        {| d_ID := d_ID e; d_holding := h; d_DeclaredQty := text; d_AsOfDate := asOf;
           d_ShareCountBasis := basis_or_date basis asOf |} else e) <$> decls s) s)
  else
    Some (with_decls (decls s ++ [{| d_ID := gen_uuid (list_to_set (d_ID <$> decls s)); d_holding := h;
        d_DeclaredQty := text; d_AsOfDate := asOf; d_ShareCountBasis := basis_or_date basis asOf |}]) s).

(** ** The pad *)

Definition pad_row h (acct : string) t : bool :=
  posting_of h t && bool_decide (r_purpose t = Some InitializePurpose) && String.eqb (r_account_type t) acct.

Definition pad_commodity (id : string) (i : instrument D) : string :=
  match i_currency i with
  | Some c => if bool_decide (asset_class i = Some "CASH") then CurrencyPrefix +:+ ToUpper c else InstrumentPrefix +:+ id
  | None => InstrumentPrefix +:+ id
  end.

Definition new_pad_row h (init : InitializeTx D) (i : instrument D) (g acct : string) (q : D) (id : string) : row D := {|
  r_id := id; r_user := hk_user h; r_broker := hk_broker h; r_account := hk_account h;
  r_order_date := init_Timestamp init; r_trade_date := init_Timestamp init; r_description := InitializePurpose;
  r_broker_types := ["TRANSFER_EXTERNAL"]; r_resolved := "TRANSFER_EXTERNAL"; r_asset_class := None;
  r_quantity := q; r_trading := None; r_settlement := None; r_unit_price := None; r_settlement_amount := None;
  r_instrument := Some (hk_instrument h); r_share_basis := Some (init_ShareCountBasis init); r_account_type := acct;
  r_purpose := Some InitializePurpose; r_weight := q; r_commodity := pad_commodity (hk_instrument h) i;
  r_group := g; r_correlations := [] |}.

Definition moved_pad_row h (init : InitializeTx D) (i : instrument D) (q : D) (t : row D) : row D := {|
  r_id := r_id t; r_user := r_user t; r_broker := r_broker t; r_account := r_account t;
  r_order_date := init_Timestamp init; r_trade_date := init_Timestamp init; r_description := r_description t;
  r_broker_types := r_broker_types t; r_resolved := r_resolved t; r_asset_class := r_asset_class t;
  r_quantity := q; r_trading := r_trading t; r_settlement := r_settlement t; r_unit_price := r_unit_price t;
  r_settlement_amount := r_settlement_amount t; r_instrument := r_instrument t;
  r_share_basis := Some (init_ShareCountBasis init); r_account_type := r_account_type t; r_purpose := r_purpose t;
  r_weight := q; r_commodity := pad_commodity (hk_instrument h) i; r_group := r_group t;
  r_correlations := r_correlations t |}.

(** The trigger on txs: a new row's adjusted quantity is its own, and one whose quantity
    is changed loses its adjustment. *)
Definition seed_adjusted (t : row D) (m : gmap string (adjusted_tx D)) : gmap string (adjusted_tx D) :=
  <[r_id t := {| adj_quantity := to_column (r_quantity t); adj_unit_price := to_column <$> r_unit_price t |}]> m.

Definition reset_adjusted (old new : row D) (m : gmap string (adjusted_tx D)) : gmap string (adjusted_tx D) :=
  if dec_eqb (r_quantity old) (r_quantity new) then m
  else <[r_id new := {| adj_quantity := to_column (r_quantity new);
                        adj_unit_price := match m !! r_id new with Some a => adj_unit_price a | None => None end |}]> m.

(** One leg.  Nothing is inserted for an instrument that is not there. *)
Definition upsert_leg h (init : InitializeTx D) (g acct : string) (q : D) s : state D :=
  match instruments (shop (mkt s)) !! hk_instrument h with
  | None => s
  | Some i =>
      let l := ledger_of s in
      match filter (λ t, pad_row h acct t = true) (txs l) with
      | [] => let t := new_pad_row h init i g acct q (gen_uuid (used l)) in
              with_adjusted (seed_adjusted t (adjusted_txs (mkt s))) (with_book (insert_row gen_uuid (new_pad_row h init i g acct q) l) s)
      | old => with_adjusted (foldl (λ m t, reset_adjusted t (moved_pad_row h init i q t) m) (adjusted_txs (mkt s)) old)
                 (with_book (with_txs l ((λ t, if pad_row h acct t then moved_pad_row h init i q t else t) <$> txs l)) s)
      end
  end.

Definition UpsertInitializeTx h (init : InitializeTx D) s : option (state D) :=
  if negb (uuid_ok (hk_user h) && uuid_ok (hk_instrument h)) then None else
  let l := ledger_of s in
  let '(g, s) := match head (filter (λ t, pad_row h "USER" t = true) (txs l)) with
    | Some t => (r_group t, s)
    | None => let g := gen_uuid (used l) in
        (g, with_book {| txs := txs l;
                         tx_groups := <[g := {| g_user := hk_user h; g_timestamp := init_Timestamp init; g_job := None |}]> (tx_groups l);
                         transfer_matches := transfer_matches l |} s)
    end in
  let s := upsert_leg h init g "USER" (init_Quantity init) s in
  let s := upsert_leg h init g "EQUITY" (dec_neg (init_Quantity init)) s in
  let l := ledger_of s in
  Some (with_book {| txs := txs l;
                     tx_groups := alter (λ x, {| g_user := g_user x; g_timestamp := init_Timestamp init; g_job := g_job x |}) g (tx_groups l);
                     transfer_matches := transfer_matches l |} s).

(** The groups the statement deletes, and what goes with them. *)
Definition pad_groups h (l : ledger D) : gset string :=
  list_to_set (r_group <$> filter (λ t,
    r_broker t = hk_broker h ∧ r_account t = hk_account h ∧ r_instrument t = Some (hk_instrument h) ∧
    r_purpose t = Some InitializePurpose ∧ g_user <$> tx_groups l !! r_group t = Some (hk_user h)) (txs l)).

Definition DeleteInitializeTx h s : option (state D) :=
  if negb (uuid_ok (hk_user h) && uuid_ok (hk_instrument h)) then None else
  let l := ledger_of s in
  let gs := pad_groups h l in
  Some (with_book {| txs := filter (λ t, r_group t ∉ gs) (txs l);
                     tx_groups := filter (λ kg, kg.1 ∉ gs) (tx_groups l);
                     transfer_matches := filter (λ m, tm_from m ∉ gs ∧ tm_to m ∉ gs) (transfer_matches l) |} s).

(** ** Both in one transaction *)

Definition CreateDeclarationWithInitializeTx h (qty : string) (asOf : Z) (basis : option Z) (init : InitializeTx D) s
    : outcome (state D * declaration) :=
  match CreateHoldingDeclaration h qty asOf basis s with
  | Done (s, d) => match UpsertInitializeTx h init s with Some s => Done (s, d) | None => ErrOther end
  | ErrDuplicate => ErrDuplicate
  | ErrOther => ErrOther
  end.

Definition UpdateDeclarationWithInitializeTx (id qty : string) (asOf : Z) (basis : option Z) h (init : InitializeTx D) s
    : outcome (state D * declaration) :=
  match UpdateHoldingDeclaration id qty asOf basis s with
  | Done (s, d) => match UpsertInitializeTx h init s with Some s => Done (s, d) | None => ErrOther end
  | ErrDuplicate => ErrDuplicate
  | ErrOther => ErrOther
  end.

Definition DeleteDeclarationWithInitializeTx (id : string) h (init : option (InitializeTx D)) s : option (state D) :=
  s ← DeleteHoldingDeclaration id s;
  match init with None => DeleteInitializeTx h s | Some init => UpsertInitializeTx h init s end.

(** ** The service *)

(** The earliest declaration. *)
Definition padDeclaration (l : list declaration) : option declaration :=
  foldl (λ pad d, match pad with
                  | None => Some d
                  | Some p => if (d_AsOfDate d <? d_AsOfDate p)%Z then Some d else Some p
                  end) None l.

Definition holdingDeclarations (all : list declaration) h (excludeID : string) : list declaration :=
  filter (λ d, d_holding d = h ∧ d_ID d ≠ excludeID) all.

(** The gap between what was declared and what the real postings come to. *)
Definition computeInitializeValues h (qty : string) (asOf basis startDate : Z) s : option (InitializeTx D) :=
  declared ← parse_dec qty;
  let startDay := day_start (day_of startDate) in
  running ← ComputeRunningBalance h startDay (day_start (asOf + 1)) basis s;
  Some {| init_Timestamp := startDay; init_Quantity := dec_sub declared running; init_ShareCountBasis := basis |}.

(** The outer [None] is an error; the pad and the date it came from are absent together. *)
Definition padAfterWrite h (excludeID : string) (pending : option declaration) (startDate : Z) s
    : option (option (InitializeTx D * Z)) :=
  all ← ListHoldingDeclarations (hk_user h) s;
  match padDeclaration (holdingDeclarations all h excludeID ++ option_list pending) with
  | None => Some None
  | Some pad =>
      init ← computeInitializeValues h (d_DeclaredQty pad) (d_AsOfDate pad) (d_ShareCountBasis pad) startDate s;
      Some (Some (init, d_AsOfDate pad))
  end.

Definition pad_kind (pad : option (InitializeTx D * Z)) (asOf : Z) : DeclarationKind :=
  match pad with Some (_, a) => if (asOf =? a)%Z then KindPad else KindAssert | None => KindAssert end.

Inductive code := InvalidArgument | FailedPrecondition | NotFound | AlreadyExists | Internal.

(** The row a pending write is judged by; it has no id yet. *)
Definition pending_row h (qty : string) (asOf basis : Z) : declaration :=
  {| d_ID := EmptyString; d_holding := h; d_DeclaredQty := qty; d_AsOfDate := asOf; d_ShareCountBasis := basis |}.

(** A zero time is written as NULL. *)
Definition or_null (t : Z) : option Z := if (t =? zero_time)%Z then None else Some t.

Definition handle_Create h (qty : string) (asOf : Z) (basis : option Z) s : code + (state D * declaration * DeclarationKind) :=
  let basis := default asOf basis in
  if negb (float_ok qty) then inl InvalidArgument else
  match GetPortfolioStartDate (hk_user h) s with
  | None => inl Internal
  | Some None => inl FailedPrecondition
  | Some (Some start) =>
      if (asOf <? day_of start)%Z then inl InvalidArgument else
      match padAfterWrite h EmptyString (Some (pending_row h qty asOf basis)) start s with
      | Some (Some (init, from)) =>
          match CreateDeclarationWithInitializeTx h qty asOf (or_null basis) init s with
          | Done (s, d) => inr (s, d, pad_kind (Some (init, from)) (d_AsOfDate d))
          | ErrDuplicate => inl AlreadyExists
          | ErrOther => inl Internal
          end
      | _ => inl Internal
      end
  end.

Definition handle_Update (user id qty : string) (asOf : Z) (basis : option Z) s : code + (state D * declaration * DeclarationKind) :=
  if negb (float_ok qty) then inl InvalidArgument else
  match GetHoldingDeclaration id s with
  | None => inl NotFound
  | Some existing =>
      if negb (String.eqb (hk_user (d_holding existing)) user) then inl NotFound else
      match GetPortfolioStartDate user s with
      | None => inl Internal
      | Some None => inl FailedPrecondition
      | Some (Some start) =>
          if (asOf <? day_of start)%Z then inl InvalidArgument else
          let basis := default (d_ShareCountBasis existing) basis in
          let h := d_holding existing in
          match padAfterWrite h (d_ID existing) (Some (pending_row h qty asOf basis)) start s with
          | Some (Some (init, from)) =>
              match UpdateDeclarationWithInitializeTx id qty asOf (or_null basis) h init s with
              | Done (s, d) => inr (s, d, pad_kind (Some (init, from)) (d_AsOfDate d))
              | ErrDuplicate => inl AlreadyExists
              | ErrOther => inl Internal
              end
          | _ => inl Internal
          end
      end
  end.

Definition handle_Delete (user id : string) s : code + state D :=
  if String.eqb id EmptyString then inl InvalidArgument else
  match GetHoldingDeclaration id s with
  | None => inl NotFound
  | Some existing =>
      if negb (String.eqb (hk_user (d_holding existing)) user) then inl NotFound else
      let h := d_holding existing in
      match GetPortfolioStartDate user s with
      | None => inl Internal
      | Some start =>
          match (match start with
                 | None => Some None
                 | Some start => padAfterWrite h (d_ID existing) None start s
                 end) with
          | None => inl Internal
          | Some pad =>
              match DeleteDeclarationWithInitializeTx id h (fst <$> pad) s with
              | Some s => inr s
              | None => inl Internal
              end
          end
      end
  end.

(** ** A declaration as it is shown *)

Record declaration_view := {
  vw_declaration : declaration;
  vw_Kind : DeclarationKind;
  vw_ComputedQty : D;
  vw_Delta : D;
  vw_Tolerance : D;
  vw_PostingCount : nat;
  vw_Matched : bool;
}.

Definition declarationScale : Z := -12.

(** [None] is a declaration shown without a verdict. *)
Definition declarationToProto d (kind : DeclarationKind) (v : DeclarationCheck D) : option declaration_view :=
  declared ← parse_dec (d_DeclaredQty d);
  let tolerance := dec_new (Z.of_nat (dc_InexactBases v)) declarationScale in
  let delta := dec_sub (dc_ComputedQty v) declared in
  Some {| vw_declaration := d; vw_Kind := kind; vw_ComputedQty := dc_ComputedQty v; vw_Delta := delta;
          vw_Tolerance := tolerance; vw_PostingCount := dc_PostingCount v;
          vw_Matched := match kind with KindPad => true | KindAssert => dec_leb (dec_abs delta) tolerance end |}.
End declarations.

(** ** Writing a pad *)

Lemma filter_everything {A} (P : A → Prop) `{∀ x, Decision (P x)} (l : list A) : (∀ x, x ∈ l → P x) → filter P l = l.
Proof.
  induction l as [|x l IH]; intros Hall; [done|]. rewrite filter_cons, decide_True by (apply Hall; left).
  rewrite IH; [done|]. intros y Hy. apply Hall. by right.
Qed.

Section rows.
Context {D : Type}.
Implicit Types (t : row D) (h : holding) (l : ledger D).

Lemma posting_of_true h t : posting_of h t = true ↔
  r_user t = hk_user h ∧ r_broker t = hk_broker h ∧ r_account t = hk_account h ∧ r_instrument t = Some (hk_instrument h).
Proof. unfold posting_of. rewrite !andb_true_iff, !String.eqb_eq, bool_decide_eq_true. tauto. Qed.

Lemma pad_row_true h acct t : pad_row h acct t = true ↔
  posting_of h t = true ∧ r_purpose t = Some InitializePurpose ∧ r_account_type t = acct.
Proof. unfold pad_row. rewrite !andb_true_iff, String.eqb_eq, bool_decide_eq_true. tauto. Qed.

(** The group of a row is its user's. *)
Definition owned l t : Prop := g_user <$> tx_groups l !! r_group t = Some (r_user t).

Lemma owned_group l t : owned l t → r_group t ∈ dom (tx_groups l).
Proof. unfold owned. intros E. apply elem_of_dom. destruct (tx_groups l !! r_group t); by eauto. Qed.

(** The pads of a ledger: only they are synthetic in a holding, each is one pair of legs
    at most, and a pair has its group to itself. *)
Record pads_ok l : Prop := {
  po_user : ∀ t, t ∈ txs l → r_account_type t = "USER" → r_purpose t = None ∨ r_purpose t = Some InitializePurpose;
  po_legs : ∀ t, t ∈ txs l → r_purpose t = Some InitializePurpose →
    (r_account_type t = "USER" ∨ r_account_type t = "EQUITY") ∧ ∃ h, posting_of h t = true;
  po_one : ∀ h acct, length (filter (λ t, pad_row h acct t = true) (txs l)) ≤ 1;
  po_pair : ∀ h t, t ∈ txs l → pad_row h "EQUITY" t = true →
    ∃ u, u ∈ txs l ∧ pad_row h "USER" u = true ∧ r_group u = r_group t;
  po_group : ∀ h t t', t ∈ txs l → t' ∈ txs l → posting_of h t = true → r_purpose t = Some InitializePurpose →
    r_group t' = r_group t → r_purpose t' = Some InitializePurpose ∧ posting_of h t' = true;
  po_grouped : ∀ t, t ∈ txs l → owned l t;
}.

Lemma pads_ok_none l : (∀ t, t ∈ txs l → r_purpose t = None) → (∀ t, t ∈ txs l → owned l t) → pads_ok l.
Proof.
  intros Hno Hown.
  assert (∀ t, t ∈ txs l → r_purpose t ≠ Some InitializePurpose) as Hne by (intros t Ht; by rewrite Hno).
  split; [by intros t Ht _; left; apply Hno|by intros t Ht Hp; destruct (Hne t Ht)| | | |done].
  - intros h acct. destruct (filter _ (txs l)) as [|x k] eqn:E; [simpl; lia|]. exfalso.
    assert (x ∈ x :: k) as Hx by left. rewrite <- E in Hx. apply list_elem_of_filter in Hx as [(_ & Hp & _)%pad_row_true Hx].
    by apply (Hne x).
  - intros h t Ht (_ & Hp & _)%pad_row_true. by destruct (Hne t Ht).
  - intros h t t' Ht _ _ Hp. by destruct (Hne t Ht).
Qed.

Definition pad_of h t : bool := pad_row h "USER" t || pad_row h "EQUITY" t.

Lemma pad_of_true h t : pad_of h t = true ↔
  posting_of h t = true ∧ r_purpose t = Some InitializePurpose ∧ (r_account_type t = "USER" ∨ r_account_type t = "EQUITY").
Proof. unfold pad_of. rewrite orb_true_iff, !pad_row_true. tauto. Qed.

Lemma pad_row_accounts h acct acct' t : pad_row h acct t = true → acct ≠ acct' → pad_row h acct' t = false.
Proof. rewrite pad_row_true. intros (_ & _ & E) Hne. apply not_true_iff_false. rewrite pad_row_true. naive_solver. Qed.

Lemma posting_of_inj h h' t : posting_of h t = true → posting_of h' t = true → h = h'.
Proof. rewrite !posting_of_true. destruct h, h'. simpl. naive_solver. Qed.

Lemma list_filter_filter_comm {A} (P Q : A → Prop) `{∀ x, Decision (P x), ∀ x, Decision (Q x)} (l : list A) :
  filter P (filter Q l) = filter Q (filter P l).
Proof. rewrite !list_filter_filter. apply list_filter_iff. tauto. Qed.

Lemma filter_pad_of h (ts : list (row D)) :
  filter (λ t, pad_row h "EQUITY" t = false) (filter (λ t, pad_row h "USER" t = false) ts) = filter (λ t, pad_of h t = false) ts.
Proof.
  rewrite list_filter_filter. apply list_filter_iff. intros t. unfold pad_of. rewrite orb_false_iff. tauto.
Qed.

End rows.

Section pads.
Context {D : Type} `{DecimalLaws D}.
Context (gen_uuid : gset string → string) (uuid_ok : string → bool).
Hypothesis gen_fresh : ∀ X, gen_uuid X ∉ X.
Implicit Types (s : state D) (t : row D) (h : holding) (l : ledger D).

(** A leg of the pad of a holding. *)
Record leg_of h (init : InitializeTx D) (i : instrument D) (acct : string) (q : D) t : Prop := {
  lg_pad : pad_row h acct t = true;
  lg_quantity : r_quantity t = q;
  lg_weight : r_weight t = q;
  lg_commodity : r_commodity t = pad_commodity (hk_instrument h) i;
  lg_basis : basis_of t = init_ShareCountBasis init;
  lg_date : r_order_date t = init_Timestamp init;
}.

(** What every write here leaves alone. *)
Definition same_but_txs s s' : Prop :=
  decls s' = decls s ∧ stock_splits (mkt s') = stock_splits (mkt s) ∧
  instruments (shop (mkt s')) = instruments (shop (mkt s)).

Lemma moved_pad_row_pad h init i q acct t : pad_row h acct (moved_pad_row h init i q t) = pad_row h acct t.
Proof. done. Qed.

Lemma moved_leg h init i q acct t : pad_row h acct t = true → leg_of h init i acct q (moved_pad_row h init i q t).
Proof. intros Hp. by split. Qed.

Lemma new_leg h init i g acct q id : leg_of h init i acct q (new_pad_row h init i g acct q id).
Proof.
  split; try done. apply pad_row_true. split; [|done]. by apply posting_of_true.
Qed.

Lemma upsert_leg_spec h (init : InitializeTx D) g acct q s i :
  instruments (shop (mkt s)) !! hk_instrument h = Some i →
  length (filter (λ t, pad_row h acct t = true) (txs (ledger_of s))) ≤ 1 →
  let s' := upsert_leg gen_uuid h init g acct q s in
  same_but_txs s s' ∧ tx_groups (ledger_of s') = tx_groups (ledger_of s) ∧
  ∃ t', leg_of h init i acct q t' ∧
    r_group t' = match filter (λ t, pad_row h acct t = true) (txs (ledger_of s)) with old :: _ => r_group old | [] => g end ∧
    txs (ledger_of s') ≡ₚ t' :: filter (λ t, pad_row h acct t = false) (txs (ledger_of s)) ∧
    filter (λ t, pad_row h acct t = false) (txs (ledger_of s')) = filter (λ t, pad_row h acct t = false) (txs (ledger_of s)).
Proof.
  intros Hi Hone s'. unfold s', upsert_leg. rewrite Hi. clear s'.
  destruct (filter (λ t, pad_row h acct t = true) (txs (ledger_of s))) as [|old rest] eqn:Ef.
  - split; [done|]. split; [done|]. eexists. split; [apply new_leg|]. split; [done|].
    unfold ledger_of. cbn [mkt shop book with_adjusted with_book with_shop insert_row txs].
    split; [|rewrite filter_app, filter_cons, decide_False, filter_nil, app_nil_r; [done|]].
    2: { apply not_false_iff_true, (lg_pad _ _ _ _ _ _ (new_leg h init i g acct q _)). }
    rewrite Permutation_app_comm. cbn [app]. apply Permutation_cons; [done|].
    apply reflexive_eq. symmetry. apply filter_everything. intros t Ht. apply not_true_iff_false. intros Hp.
    assert (t ∈ filter (λ t, pad_row h acct t = true) (txs (ledger_of s))) as Hin by by apply list_elem_of_filter.
    rewrite Ef in Hin. by apply elem_of_nil in Hin.
  - split; [done|]. split; [done|]. exists (moved_pad_row h init i q old).
    assert (pad_row h acct old = true) as Hold.
    { assert (old ∈ old :: rest) as Hin by left. rewrite <- Ef in Hin. by apply list_elem_of_filter in Hin as [? _]. }
    split; [by apply moved_leg|]. split; [done|].
    unfold ledger_of. cbn [mkt shop book with_adjusted with_book with_shop with_txs txs]. split.
    2: { clear. induction (txs (book (shop (mkt s)))) as [|t ts IH]; [done|]. rewrite fmap_cons, !filter_cons, IH.
         destruct (pad_row h acct t) eqn:E; rewrite ?moved_pad_row_pad, ?E; done. }
    assert (rest = []) as -> by (destruct rest; [done|simpl in Hone; lia]).
    clear Hold Hone. revert Ef. unfold ledger_of. induction (txs (book (shop (mkt s)))) as [|t ts IH]; [done|].
    rewrite !filter_cons, fmap_cons. destruct (pad_row h acct t) eqn:Ep; simpl.
    + intros [= -> Er]. apply Permutation_cons; [done|].
      clear IH. induction ts as [|x ts IH]; [done|]. rewrite filter_cons in Er |- *. rewrite fmap_cons.
      destruct (pad_row h acct x) eqn:Ex; [done|]. simpl in *. by apply Permutation_cons, IH.
    + intros Er. rewrite IH by done. apply Permutation_swap.
Qed.

(** A rewritten pad: two opposite legs, and all that was not the pad of the holding. *)
Definition repadded h (init : InitializeTx D) l l' : Prop :=
  ∃ i u e g,
    leg_of h init i "USER" (init_Quantity init) u ∧ leg_of h init i "EQUITY" (dec_neg (init_Quantity init)) e ∧
    r_group u = g ∧ r_group e = g ∧
    txs l' ≡ₚ u :: e :: filter (λ t, pad_of h t = false) (txs l) ∧
    filter (λ t, pad_of h t = false) (txs l') = filter (λ t, pad_of h t = false) (txs l) ∧
    ((∀ t, t ∈ txs l → pad_of h t = false) ∧ g = gen_uuid (used l) ∨
     ∃ t, t ∈ txs l ∧ pad_row h "USER" t = true ∧ r_group t = g).

Lemma same_trans s1 s2 s3 : same_but_txs s1 s2 → same_but_txs s2 s3 → same_but_txs s1 s3.
Proof. intros (? & ? & ?) (? & ? & ?). split_and!; congruence. Qed.

(** Both legs, when the group they are given is the one any stored leg has. *)
Lemma two_legs h (init : InitializeTx D) g s i :
  instruments (shop (mkt s)) !! hk_instrument h = Some i →
  (∀ acct, length (filter (λ t, pad_row h acct t = true) (txs (ledger_of s))) ≤ 1) →
  (∀ t, t ∈ txs (ledger_of s) → pad_of h t = true → r_group t = g) →
  let s' := upsert_leg gen_uuid h init g "EQUITY" (dec_neg (init_Quantity init))
              (upsert_leg gen_uuid h init g "USER" (init_Quantity init) s) in
  same_but_txs s s' ∧ tx_groups (ledger_of s') = tx_groups (ledger_of s) ∧
  ∃ u e, leg_of h init i "USER" (init_Quantity init) u ∧ leg_of h init i "EQUITY" (dec_neg (init_Quantity init)) e ∧
    r_group u = g ∧ r_group e = g ∧ txs (ledger_of s') ≡ₚ u :: e :: filter (λ t, pad_of h t = false) (txs (ledger_of s)) ∧
    filter (λ t, pad_of h t = false) (txs (ledger_of s')) = filter (λ t, pad_of h t = false) (txs (ledger_of s)).
Proof.
  intros Hi Hone Hg s'. unfold s'. clear s'.
  assert (∀ acct (ts : list (row D)), (acct = "USER" ∨ acct = "EQUITY") → (∀ t, t ∈ ts → t ∈ txs (ledger_of s)) →
    match filter (λ t, pad_row h acct t = true) ts with old :: _ => r_group old | [] => g end = g) as Hgroup.
  { intros acct ts Ha Hsub. destruct (filter _ ts) as [|old rest] eqn:E; [done|].
    assert (old ∈ old :: rest) as Hin by left. rewrite <- E in Hin. apply list_elem_of_filter in Hin as [Hp Hin].
    apply Hg; [by apply Hsub|]. unfold pad_of. apply orb_true_iff. destruct Ha as [->| ->]; auto. }
  destruct (upsert_leg_spec h init g "USER" (init_Quantity init) s i Hi (Hone _)) as (Hs1 & Hg1 & u & Hu & Hgu & Hp1 & Hr1).
  set (s1 := upsert_leg gen_uuid h init g "USER" (init_Quantity init) s) in *. clearbody s1.
  rewrite Hgroup in Hgu; [|by left|done].
  pose proof (pad_row_accounts h "USER" "EQUITY" u (lg_pad _ _ _ _ _ _ Hu) ltac:(done)) as Hue.
  assert (filter (λ t, pad_row h "EQUITY" t = true) (txs (ledger_of s1)) ≡ₚ
          filter (λ t, pad_row h "EQUITY" t = true) (filter (λ t, pad_row h "USER" t = false) (txs (ledger_of s)))) as Hpe.
  { rewrite Hp1, filter_cons, decide_False by congruence. done. }
  destruct (upsert_leg_spec h init g "EQUITY" (dec_neg (init_Quantity init)) s1 i) as (Hs2 & Hg2 & e & He & Hge & Hp2 & Hr2).
  { by rewrite (proj2 (proj2 Hs1)). }
  { rewrite Hpe, list_filter_filter_comm. etrans; [apply length_filter|apply (Hone "EQUITY")]. }
  split; [by eapply same_trans|]. split; [congruence|]. exists u, e. split_and!; try done.
  - rewrite Hge. destruct (filter (λ t, pad_row h "EQUITY" t = true) (txs (ledger_of s1))) as [|old rest] eqn:E; [done|].
    assert (old ∈ old :: rest) as Hin by left. rewrite Hpe in Hin.
    apply list_elem_of_filter in Hin as [Hp Hin]. apply list_elem_of_filter in Hin as [_ Hin].
    apply Hg; [done|]. unfold pad_of. apply orb_true_iff. by right.
  - rewrite Hp2, Hp1, filter_cons, decide_True, filter_pad_of by done. apply Permutation_swap.
  - by rewrite <- !filter_pad_of, list_filter_filter_comm, Hr2, list_filter_filter_comm, Hr1.
Qed.

Lemma leg_user h init i acct q t : leg_of h init i acct q t → r_user t = hk_user h.
Proof. intros [((Hu & _)%posting_of_true & _)%pad_row_true _ _ _ _ _]. done. Qed.

(** Moving a group in time leaves it its user's. *)
Lemma owned_alter (ts : list (row D)) gs ms g stamp t : g_user <$> gs !! r_group t = Some (r_user t) →
  owned {| txs := ts; transfer_matches := ms;
           tx_groups := alter (λ x, {| g_user := g_user x; g_timestamp := stamp; g_job := g_job x |}) g gs |} t.
Proof.
  intros Ho. unfold owned. cbn [tx_groups]. destruct (decide (g = r_group t)) as [->|Hne].
  - rewrite lookup_alter_eq, <- option_fmap_compose. exact Ho.
  - by rewrite lookup_alter_ne.
Qed.

Lemma upsert_repadded h (init : InitializeTx D) s i :
  pads_ok (ledger_of s) → uuid_ok (hk_user h) = true → uuid_ok (hk_instrument h) = true →
  instruments (shop (mkt s)) !! hk_instrument h = Some i →
  ∃ s', UpsertInitializeTx gen_uuid uuid_ok h init s = Some s' ∧ same_but_txs s s' ∧
    repadded h init (ledger_of s) (ledger_of s') ∧
    (∀ t, t ∈ txs (ledger_of s') → owned (ledger_of s') t).
Proof.
  intros Hok Hu Hin Hi. unfold UpsertInitializeTx. rewrite Hu, Hin. cbn [andb negb].
  destruct (filter (λ t, pad_row h "USER" t = true) (txs (ledger_of s))) as [|t0 rest] eqn:Ef; cbn [head].
  - set (g := gen_uuid _). set (s0 := with_book _ s).
    assert (∀ t, t ∈ txs (ledger_of s) → pad_row h "USER" t = false) as Hnou.
    { intros t Ht. apply not_true_iff_false. intros Hp.
      assert (t ∈ filter (λ t, pad_row h "USER" t = true) (txs (ledger_of s))) as Hx by by apply list_elem_of_filter.
      rewrite Ef in Hx. by apply elem_of_nil in Hx. }
    assert (∀ t, t ∈ txs (ledger_of s) → pad_of h t = false) as Hno.
    { intros t Ht. unfold pad_of. rewrite Hnou by done. apply not_true_iff_false. intros Hp.
      destruct (po_pair _ Hok h t Ht Hp) as (u & Hux & Hup & _). by rewrite Hnou in Hup. }
    destruct (two_legs h init g s0 i) as (Hs & Hg & u & e & Hul & Hel & Hgu & Hge & Hp & Hr); [done|by apply Hok| |].
    { intros t Ht Hp. by rewrite (Hno t Ht) in Hp. }
    eexists. split; [done|]. split; [exact Hs|]. split.
    + exists i, u, e, g. split_and!; [done..|exact Hp|exact Hr|]. by left.
    + intros t Ht. apply owned_alter. rewrite Hg. unfold ledger_of in Ht at 1. cbn [mkt shop book with_book with_shop txs] in Ht.
      rewrite Hp, !elem_of_cons in Ht. unfold owned, s0, ledger_of. cbn [mkt shop book with_book with_shop tx_groups].
      destruct Ht as [->|[->|[_ Ht]%list_elem_of_filter]];
        [rewrite Hgu, lookup_insert_eq, (leg_user _ _ _ _ _ _ Hul); done|rewrite Hge, lookup_insert_eq, (leg_user _ _ _ _ _ _ Hel); done|].
      rewrite lookup_insert_ne; [by apply (po_grouped _ Hok)|]. intros E.
      apply (gen_fresh (used (ledger_of s))). fold g. rewrite E. unfold used. apply elem_of_union_r.
      by apply owned_group, (po_grouped _ Hok).
  - assert (t0 ∈ filter (λ t, pad_row h "USER" t = true) (txs (ledger_of s))) as Ht0 by (rewrite Ef; left).
    apply list_elem_of_filter in Ht0 as [Hp0 Ht0].
    destruct (two_legs h init (r_group t0) s i) as (Hs & Hg & u & e & Hul & Hel & Hgu & Hge & Hp & Hr); [done|by apply Hok| |].
    { intros t Ht [Hpu|Hpe]%orb_true_iff.
      - assert (t ∈ t0 :: rest) as Hx by (rewrite <- Ef; by apply list_elem_of_filter).
        pose proof (po_one _ Hok h "USER") as H1. rewrite Ef in H1. destruct rest; [|simpl in H1; lia].
        by apply list_elem_of_singleton in Hx as ->.
      - destruct (po_pair _ Hok h t Ht Hpe) as (x & Hxin & Hxp & <-).
        assert (x ∈ t0 :: rest) as Hx by (rewrite <- Ef; by apply list_elem_of_filter).
        pose proof (po_one _ Hok h "USER") as H1. rewrite Ef in H1. destruct rest; [|simpl in H1; lia].
        by apply list_elem_of_singleton in Hx as ->. }
    eexists. split; [done|]. split; [exact Hs|]. split.
    + exists i, u, e, (r_group t0). split_and!; [done..|exact Hp|exact Hr|]. right. by exists t0.
    + intros t Ht. apply owned_alter. rewrite Hg. unfold ledger_of in Ht at 1. cbn [mkt shop book with_book with_shop txs] in Ht.
      rewrite Hp, !elem_of_cons in Ht. pose proof (po_grouped _ Hok t0 Ht0) as Ho.
      apply pad_row_true in Hp0 as ((Hu0 & _)%posting_of_true & _). unfold owned in Ho |- *. rewrite Hu0 in Ho.
      destruct Ht as [->|[->|[_ Ht]%list_elem_of_filter]];
        [by rewrite Hgu, (leg_user _ _ _ _ _ _ Hul)|by rewrite Hge, (leg_user _ _ _ _ _ _ Hel)|by apply (po_grouped _ Hok)].
Qed.

(** Nothing but the pad was in its group. *)
Lemma pad_group_alone h l g t :
  pads_ok l →
  ((∀ t, t ∈ txs l → pad_of h t = false) ∧ g = gen_uuid (used l) ∨
   ∃ t, t ∈ txs l ∧ pad_row h "USER" t = true ∧ r_group t = g) →
  t ∈ txs l → pad_of h t = false → r_group t ≠ g.
Proof.
  intros Hok Hg Ht Hp Eg. subst g. destruct Hg as [[_ E]|(t0 & Ht0 & Hp0 & E)].
  - apply (gen_fresh (used l)). rewrite <- E. unfold used. apply elem_of_union_r. by apply owned_group, (po_grouped _ Hok).
  - apply pad_row_true in Hp0 as (Hpo & Hpu & _). symmetry in E.
    destruct (po_group _ Hok h t0 t Ht0 Ht Hpo Hpu E) as [Hi Hpt].
    destruct (po_legs _ Hok t Ht Hi) as [Ha _]. apply not_true_iff_false in Hp. apply Hp, pad_of_true. done.
Qed.

(** The pads that were of the holding were in that group. *)
Lemma pads_in_group h l g t :
  pads_ok l →
  ((∀ t, t ∈ txs l → pad_of h t = false) ∧ g = gen_uuid (used l) ∨
   ∃ t, t ∈ txs l ∧ pad_row h "USER" t = true ∧ r_group t = g) →
  t ∈ txs l → pad_of h t = true → r_group t = g.
Proof.
  intros Hok [[Hn _]|(t0 & Ht0 & Hp0 & <-)] Ht Hp; [by rewrite Hn in Hp|].
  assert (∀ x, x ∈ txs l → pad_row h "USER" x = true → x = t0) as Huniq.
  { intros x Hx Hpx. pose proof (po_one _ Hok h "USER") as H1.
    assert (x ∈ filter (λ t, pad_row h "USER" t = true) (txs l)) as Hin by by apply list_elem_of_filter.
    assert (t0 ∈ filter (λ t, pad_row h "USER" t = true) (txs l)) as Hin0 by by apply list_elem_of_filter.
    destruct (filter _ _) as [|y [|z k]]; [by apply elem_of_nil in Hin| |simpl in H1; lia].
    apply list_elem_of_singleton in Hin, Hin0. congruence. }
  apply orb_true_iff in Hp as [Hp|Hp]; [by rewrite (Huniq t)|].
  destruct (po_pair _ Hok h t Ht Hp) as (x & Hx & Hpx & <-). by rewrite (Huniq x).
Qed.

Lemma repadded_pads_ok h init l l' : pads_ok l → repadded h init l l' →
  (∀ t, t ∈ txs l' → owned l' t) → pads_ok l'.
Proof.
  intros Hok (i & u & e & g & Hu & He & Hgu & Hge & Hp & _ & Hg) Hgr.
  pose proof (λ t, pad_group_alone h l g t Hok Hg) as Halone.
  destruct (proj1 (pad_row_true _ _ _) (lg_pad _ _ _ _ _ _ Hu)) as (Hu1 & Hu2 & Hu3).
  destruct (proj1 (pad_row_true _ _ _) (lg_pad _ _ _ _ _ _ He)) as (He1 & He2 & He3).
  assert (∀ t, t ∈ txs l' ↔ t = u ∨ t = e ∨ (pad_of h t = false ∧ t ∈ txs l)) as Hin.
  { intros t. by rewrite Hp, !elem_of_cons, list_elem_of_filter. }
  split.
  - intros t [->|[->|[_ Ht]]]%Hin Ha; [by right|congruence|by apply (po_user _ Hok)].
  - intros t [->|[->|[_ Ht]]]%Hin Hpu; [by split; [left|exists h]|by split; [right|exists h]|by apply (po_legs _ Hok)].
  - intros h' acct. rewrite Hp, !filter_cons. destruct (decide (h' = h)) as [->|Hne].
    + assert (filter (λ t, pad_row h acct t = true) (filter (λ t, pad_of h t = false) (txs l)) = []) as ->.
      { destruct (filter _ (filter _ _)) as [|x k] eqn:E; [done|]. exfalso.
        assert (x ∈ x :: k) as Hx by left. rewrite <- E in Hx.
        apply list_elem_of_filter in Hx as [Hpx [Hpf Hxl]%list_elem_of_filter]. apply pad_row_true in Hpx as (? & Hxi & _).
        destruct (po_legs _ Hok x Hxl Hxi) as [Ha _]. apply not_true_iff_false in Hpf. by apply Hpf, pad_of_true. }
      destruct (decide (pad_row h acct u = true)) as [E1|], (decide (pad_row h acct e = true)) as [E2|]; simpl; try lia.
      apply pad_row_true in E1 as (_ & _ & E1), E2 as (_ & _ & E2). congruence.
    + rewrite !decide_False; [|by intros (? & _)%pad_row_true; apply Hne; eapply posting_of_inj..].
      rewrite list_filter_filter_comm. etrans; [apply length_filter|apply (po_one _ Hok)].
  - intros h' t Ht Hpt. destruct (decide (h' = h)) as [->|Hne].
    + exists u. split; [apply Hin; by left|]. split; [apply Hu|]. apply Hin in Ht as [->|[->|[Hpf Ht]]].
      * apply pad_row_true in Hpt as (_ & _ & ?). congruence.
      * congruence.
      * unfold pad_of in Hpf. rewrite Hpt, orb_true_r in Hpf. done.
    + assert (t ∈ txs l) as Htl.
      { apply Hin in Ht as [->|[->|[_ Ht]]]; [| |done]; apply pad_row_true in Hpt as (Hpt & _); exfalso; apply Hne; by eapply posting_of_inj. }
      destruct (po_pair _ Hok h' t Htl Hpt) as (x & Hx & Hpx & Ex). exists x. split; [|done].
      apply Hin. right. right. split; [|done]. apply not_true_iff_false. intros (Hph & _)%pad_of_true.
      apply pad_row_true in Hpx as (Hpx & _). apply Hne. by eapply posting_of_inj.
  - intros h' t t' Ht Ht' Hpo Hpu Eg.
    apply Hin in Ht as [->|[->|[Hpf Ht]]], Ht' as [->|[->|[Hpf' Ht']]]; try (split; [done|]);
      try (assert (h' = h) as -> by (by eapply posting_of_inj); done).
    + exfalso. apply (Halone t'); congruence.
    + exfalso. apply (Halone t'); congruence.
    + exfalso. apply (Halone t); congruence.
    + exfalso. apply (Halone t); congruence.
    + by apply (po_group _ Hok h' t t').
  - exact Hgr.
Qed.

(** A rewritten pad cancels in its group, and no other group hears of it. *)
Lemma repadded_balanced h init l l' : pads_ok l → repadded h init l l' →
  (∀ g, balanced l g) → ∀ g, balanced l' g.
Proof.
  intros Hok (i & u & e & g & Hu & He & Hgu & Hge & Hp & _ & Hg) Hb g' c.
  pose proof (λ t, pad_group_alone h l g t Hok Hg) as Halone.
  unfold residual_of, rows_in. rewrite (dec_sum_perm _ _ (fmap_Permutation _ _ _ (filter_Permutation _ _ _ Hp))).
  rewrite !filter_cons. destruct (decide (g' = g)) as [->|Hne].
  - assert (filter (λ t, r_group t = g ∧ r_commodity t = c) (filter (λ t, pad_of h t = false) (txs l)) = []) as ->.
    { destruct (filter _ (filter _ _)) as [|x k] eqn:E; [done|]. exfalso.
      assert (x ∈ x :: k) as Hx by left. rewrite <- E in Hx.
      apply list_elem_of_filter in Hx as [[Hxg _] [Hpf Hxl]%list_elem_of_filter]. by apply (Halone x). }
    rewrite (lg_commodity _ _ _ _ _ _ Hu), (lg_commodity _ _ _ _ _ _ He).
    destruct (decide (pad_commodity (hk_instrument h) i = c)).
    + rewrite !decide_True by done. cbn [fmap list_fmap dec_sum foldr].
      rewrite !dval_add, (lg_weight _ _ _ _ _ _ Hu), (lg_weight _ _ _ _ _ _ He), dval_neg, dval_zero. lra.
    + rewrite !decide_False by tauto. apply dval_zero.
  - rewrite !decide_False by (intros [? _]; congruence).
    rewrite list_filter_filter_comm, filter_everything; [apply Hb|].
    intros t [[Ht _] Htl]%list_elem_of_filter. apply not_true_iff_false. intros Hpt.
    apply Hne. rewrite <- Ht. by eapply pads_in_group.
Qed.
End pads.

(** ** What a pad makes true *)

Lemma first_date_least {D} (ts : list (row D)) start t : first_date ts = Some start → t ∈ ts → (start <= r_order_date t)%Z.
Proof.
  unfold first_date. destruct ts as [|x ts]; [done|]. cbn [fmap list_fmap]. intros [= <-].
  assert (∀ (l : list Z) a y, y ∈ a :: l → (foldr Z.min a l <= y)%Z) as Hmin.
  { intros l a. induction l as [|b l IH]; intros y; simpl.
    - intros ->%list_elem_of_singleton. lia.
    - rewrite !elem_of_cons. intros [->|[->|Hy]]; [|lia|].
      + pose proof (IH a ltac:(left)). lia.
      + pose proof (IH y ltac:(by right)). lia. }
  intros Ht. apply Hmin. change (r_order_date x :: (r_order_date <$> ts)) with (r_order_date <$> x :: ts).
  by apply list_elem_of_fmap_2.
Qed.

Section totals.
Context {D : Type} `{DecimalLaws D}.
Context (pg_div : D → D → D) (today : Z).
(** Dividing a quantity by what it was just multiplied by gives it back: a quotient has
    as many decimals as its dividend. *)
Hypothesis pg_div_undoes : ∀ q n d, ¬ (dval (dec_mul d n) == 0)%Q →
  (dval (pg_div (dec_mul (dec_mul q n) d) (dec_mul d n)) == dval q)%Q.
Implicit Types (s : state D) (t : row D) (h : holding) (l : ledger D).

Definition splits_positive s : Prop :=
  ∀ x, x ∈ stock_splits (mkt s) → (0 < dval (ss_SplitFrom x))%Q ∧ (0 < dval (ss_SplitTo x))%Q.

Lemma factor_positive id b s : splits_positive s →
  (0 < dval (split_factor_at today id b (mkt s)).1)%Q ∧ (0 < dval (split_factor_at today id b (mkt s)).2)%Q.
Proof.
  intros Hp. unfold split_factor_at. cbn [fst snd]. rewrite !mul_product.
  split; apply whole_product_pos; intros x [_ Hx]%list_elem_of_filter; by apply Hp.
Qed.

Lemma in_basis_self h b s q : splits_positive s → (dval (in_basis pg_div today h b s b q) == dval q)%Q.
Proof using pg_div_undoes H0.
  intros Hp. pose proof (factor_positive (hk_instrument h) b s Hp) as [Hn Hd]. unfold in_basis.
  destruct (split_factor_at _ _ _ _) as [n d]. cbn [fst snd] in *. apply pg_div_undoes. rewrite dval_mul. nra.
Qed.

(** The sum over share counts, taking one apart from the others. *)
Definition others_sum (F : Z → D) (basis : Z) (B : list Z) : D := dec_sum (F <$> filter (λ b, b ≠ basis) B).

Lemma sum_apart (F : Z → D) basis B : NoDup B →
  (dval (dec_sum (F <$> B)) == dval (others_sum F basis B) + (if decide (basis ∈ B) then dval (F basis) else 0))%Q.
Proof.
  unfold others_sum. induction B as [|b B IH]; intros Hnd.
  { rewrite decide_False by apply not_elem_of_nil. cbn. ring. }
  apply NoDup_cons in Hnd as [Hb Hnd]. rewrite filter_cons, fmap_cons. cbn [dec_sum foldr]. fold (dec_sum (F <$> B)).
  rewrite dval_add, (IH Hnd). destruct (decide (b = basis)) as [->|Hne].
  - rewrite (decide_False (P:=basis ≠ basis)) by tauto. rewrite (decide_True (P:=basis ∈ basis :: B)) by left.
    rewrite (decide_False (P:=basis ∈ B)) by done. ring.
  - rewrite (decide_True (P:=b ≠ basis)) by done. rewrite fmap_cons. cbn [dec_sum foldr].
    fold (dec_sum (F <$> filter (λ b, b ≠ basis) B)). rewrite dval_add.
    destruct (decide (basis ∈ B)), (decide (basis ∈ b :: B)) as [Hx|Hx]; try (exfalso; set_solver); ring.
Qed.

Definition total h (basis : Z) s (ts : list (row D)) : D :=
  dec_sum ((λ b, in_basis pg_div today h basis s b (dec_sum (r_quantity <$> of_basis b ts))) <$> remove_dups (basis_of <$> ts)).

Lemma total_apart h basis s ts : splits_positive s →
  (dval (total h basis s ts) ==
     dval (others_sum (λ b, in_basis pg_div today h basis s b (dec_sum (r_quantity <$> of_basis b ts))) basis
             (remove_dups (basis_of <$> ts)))
     + dval (dec_sum (r_quantity <$> of_basis basis ts)))%Q.
Proof using pg_div_undoes H0.
  intros Hp. unfold total. rewrite (sum_apart _ basis) by apply NoDup_remove_dups.
  destruct (decide _) as [Hin|Hin]; [by rewrite in_basis_self|].
  assert (of_basis basis ts = []) as ->; [|by rewrite dval_zero].
  unfold of_basis. destruct (filter _ ts) as [|x k] eqn:E; [done|]. exfalso. apply Hin.
  assert (x ∈ x :: k) as Hx by left. rewrite <- E in Hx. apply list_elem_of_filter in Hx as [<- Hx].
  apply elem_of_remove_dups. by apply list_elem_of_fmap_2.
Qed.

(** One posting more of the share count summed in adds its own quantity. *)
Lemma total_one_more h basis s s' ts ts' u : splits_positive s →
  (∀ b q, in_basis pg_div today h basis s' b q = in_basis pg_div today h basis s b q) →
  ts' ≡ₚ u :: ts → basis_of u = basis → (∀ b, b ≠ basis → of_basis b ts' = of_basis b ts) →
  (dval (total h basis s' ts') == dval (total h basis s ts) + dval (r_quantity u))%Q.
Proof using pg_div_undoes H0.
  intros Hp Hin Hts Hu Hb.
  assert (total h basis s' ts' = total h basis s ts') as ->.
  { unfold total. f_equal. apply list_fmap_ext. intros _ b _. apply Hin. }
  rewrite !total_apart by done.
  assert (dval (others_sum (λ b, in_basis pg_div today h basis s b (dec_sum (r_quantity <$> of_basis b ts'))) basis
             (remove_dups (basis_of <$> ts'))) ==
          dval (others_sum (λ b, in_basis pg_div today h basis s b (dec_sum (r_quantity <$> of_basis b ts))) basis
             (remove_dups (basis_of <$> ts))))%Q as ->.
  { unfold others_sum. rewrite (list_fmap_ext _ (λ b, in_basis pg_div today h basis s b (dec_sum (r_quantity <$> of_basis b ts)))).
    2: { intros j b [Hne _]%list_elem_of_lookup_2%list_elem_of_filter. by rewrite Hb. }
    apply dec_sum_perm, fmap_Permutation, NoDup_Permutation; [apply NoDup_filter, NoDup_remove_dups..|].
    intros b. rewrite !list_elem_of_filter, !elem_of_remove_dups, Hts, fmap_cons, elem_of_cons, Hu. naive_solver. }
  assert (dval (dec_sum (r_quantity <$> of_basis basis ts')) ==
          dval (r_quantity u) + dval (dec_sum (r_quantity <$> of_basis basis ts)))%Q as ->; [|ring].
  assert (of_basis basis ts' ≡ₚ u :: of_basis basis ts) as Hperm.
  { unfold of_basis. rewrite Hts, filter_cons, decide_True by done. done. }
  rewrite (dec_sum_perm _ _ (fmap_Permutation r_quantity _ _ Hperm)). apply dval_add.
Qed.
End totals.

(** ** A pad written from a declaration *)

Section written.
Context {D : Type} `{DecimalLaws D}.
Context (gen_uuid : gset string → string) (uuid_ok : string → bool).
Context (parse_dec : string → option D) (pg_div : D → D → D) (today : Z) (map_order : list holding → list holding).
Hypothesis gen_fresh : ∀ X, gen_uuid X ∉ X.
Hypothesis pg_div_undoes : ∀ q n d, ¬ (dval (dec_mul d n) == 0)%Q →
  (dval (pg_div (dec_mul (dec_mul q n) d) (dec_mul d n)) == dval q)%Q.
Implicit Types (s : state D) (t : row D) (h : holding) (l : ledger D) (d : declaration).

Lemma counted_true h from before inc t : counted h from before inc t = true ↔
  posting_of h t = true ∧ r_account_type t = "USER" ∧ (inc = true ∨ r_purpose t = None) ∧
  (∀ f, from = Some f → (f <= r_order_date t)%Z) ∧ (∀ b, before = Some b → (r_order_date t < b)%Z).
Proof.
  unfold counted. rewrite !andb_true_iff, orb_true_iff, bool_decide_eq_true, String.eqb_eq.
  assert (match from with Some f => (f <=? r_order_date t)%Z | None => true end = true ↔
          ∀ f, from = Some f → (f <= r_order_date t)%Z) as ->
    by (destruct from; [rewrite Z.leb_le|]; naive_solver).
  assert (match before with Some b => (r_order_date t <? b)%Z | None => true end = true ↔
          ∀ b, before = Some b → (r_order_date t < b)%Z) as ->
    by (destruct before; [rewrite Z.ltb_lt|]; naive_solver).
  tauto.
Qed.

(** Another holding's postings are not in a pad. *)
Lemma counted_other h h' init l l' from before inc : repadded gen_uuid h init l l' → h' ≠ h →
  filter (λ t, counted h' from before inc t = true) (txs l') = filter (λ t, counted h' from before inc t = true) (txs l).
Proof.
  intros (i & u & e & g & _ & _ & _ & _ & _ & Hr & _) Hne.
  assert (∀ ts : list (row D), filter (λ t, counted h' from before inc t = true) (filter (λ t, pad_of h t = false) ts) =
                filter (λ t, counted h' from before inc t = true) ts) as Hskip.
  { intros ts. rewrite list_filter_filter. apply list_filter_iff. intros t. split; [tauto|]. intros Hc. split; [done|].
    apply counted_true in Hc as (Hp & _). apply not_true_iff_false. intros (Hp' & _)%pad_of_true.
    apply Hne. by eapply posting_of_inj. }
  by rewrite <- (Hskip (txs l')), Hr, Hskip.
Qed.

(** The holding's own: the pad on top of the real postings. *)
Lemma counted_own h init l l' from before : pads_ok l → repadded gen_uuid h init l l' →
  (init_Timestamp init < before)%Z →
  (∀ t, t ∈ txs l → r_user t = hk_user h → r_purpose t = None → r_account_type t = "USER" → (from <= r_order_date t)%Z) →
  let ts' := filter (λ t, counted h None (Some before) true t = true) (txs l') in
  let ts := filter (λ t, counted h (Some from) (Some before) false t = true) (txs l) in
  ∃ u, ts' ≡ₚ u :: ts ∧ basis_of u = init_ShareCountBasis init ∧ r_quantity u = init_Quantity init ∧
    ∀ b, b ≠ init_ShareCountBasis init → of_basis b ts' = of_basis b ts.
Proof.
  intros Hok (i & u & e & g & Hu & He & _ & _ & Hp & Hr & _) Hdate Hreal ts' ts.
  destruct (proj1 (pad_row_true _ _ _) (lg_pad _ _ _ _ _ _ Hu)) as (Hu1 & Hu2 & Hu3).
  destruct (proj1 (pad_row_true _ _ _) (lg_pad _ _ _ _ _ _ He)) as (He1 & He2 & He3).
  assert (∀ t, t ∈ txs l → pad_of h t = false →
    (counted h None (Some before) true t = true ↔ counted h (Some from) (Some before) false t = true)) as Hsame.
  { intros t Ht Hpf. rewrite !counted_true. split.
    - intros (Hpo & Ha & _ & _ & Hb). assert (r_purpose t = None) as Hpn.
      { destruct (po_user _ Hok t Ht Ha) as [|Hi]; [done|]. exfalso. apply not_true_iff_false in Hpf.
        apply Hpf, pad_of_true. split_and!; [done|done|by left]. }
      split_and!; [done|done|by right| |done]. intros f [= <-]. apply Hreal; try done.
      by apply posting_of_true in Hpo as (? & _).
    - intros (Hpo & Ha & [?|Hn] & _ & Hb); [done|]. split_and!; [done|done|by left|done|done]. }
  assert (ts = filter (λ t, counted h None (Some before) true t = true) (filter (λ t, pad_of h t = false) (txs l))) as Ets.
  { unfold ts. rewrite list_filter_filter. apply filter_ext_in. intros t Ht. split.
    - intros Hc. assert (pad_of h t = false) as Hpf.
      { apply counted_true in Hc as (_ & _ & [?|Hn] & _); [done|]. apply not_true_iff_false. intros (_ & ? & _)%pad_of_true. congruence. }
      split; [by apply Hsame|done].
    - intros [Hc Hpf]. by apply Hsame. }
  exists u. split_and!.
  - unfold ts'. rewrite Hp, !filter_cons, decide_True, decide_False, Ets; [done| |].
    + intros (_ & Ha & _)%counted_true. congruence.
    + apply counted_true. split_and!; [done|done|by left|done|]. intros b [= <-]. by rewrite (lg_date _ _ _ _ _ _ Hu).
  - apply Hu.
  - apply Hu.
  - intros b Hb. rewrite Ets, <- Hr. unfold of_basis, ts'. rewrite !list_filter_filter. apply filter_ext_in.
    intros t Ht. split; [|tauto]. intros [Hbt Hc]. split_and!; [done|done|].
    rewrite Hp, !elem_of_cons in Ht. destruct Ht as [->|[->|[? _]%list_elem_of_filter]]; [| |done].
    + by rewrite (lg_basis _ _ _ _ _ _ Hu) in Hbt.
    + by rewrite (lg_basis _ _ _ _ _ _ He) in Hbt.
Qed.

Lemma in_basis_same h b s s' : stock_splits (mkt s') = stock_splits (mkt s) →
  instruments (shop (mkt s')) = instruments (shop (mkt s)) → ∀ b' q,
  in_basis pg_div today h b s' b' q = in_basis pg_div today h b s b' q.
Proof. intros E1 E2 b' q. unfold in_basis, split_factor_at, splits_of. by rewrite E1, E2. Qed.

Lemma verify_total d s : dc_ComputedQty (verify pg_div today d s) =
  total pg_div today (d_holding d) (d_ShareCountBasis d) s
    (filter (λ t, counted (d_holding d) None (Some (day_start (d_AsOfDate d + 1))) true t = true) (txs (ledger_of s))).
Proof. done. Qed.

Lemma total_same h b s s' ts : stock_splits (mkt s') = stock_splits (mkt s) →
  instruments (shop (mkt s')) = instruments (shop (mkt s)) → total pg_div today h b s' ts = total pg_div today h b s ts.
Proof. intros E1 E2. unfold total. f_equal. apply list_fmap_ext. intros _ x _. by apply in_basis_same. Qed.

(** No real posting of the user is older than the day. *)
Definition starts (user : string) (from : Z) l : Prop :=
  ∀ t, t ∈ txs l → r_user t = user → r_purpose t = None → r_account_type t = "USER" → (day_start from <= r_order_date t)%Z.

(** The real postings, which no pad touches. *)
Definition real l : list (row D) := filter (λ t, r_purpose t = None) (txs l).

Lemma repadded_real h init l l' : repadded gen_uuid h init l l' → real l' = real l.
Proof.
  intros (i & u & e & g & _ & _ & _ & _ & _ & Hr & _). unfold real.
  assert (∀ ts : list (row D), filter (λ t, r_purpose t = None) (filter (λ t, pad_of h t = false) ts) =
                filter (λ t, r_purpose t = None) ts) as Hskip.
  { intros ts. rewrite list_filter_filter. apply list_filter_iff. intros t. split; [tauto|]. intros Hn. split; [done|].
    apply not_true_iff_false. intros (_ & ? & _)%pad_of_true. congruence. }
  by rewrite <- (Hskip (txs l')), Hr, Hskip.
Qed.

Lemma starts_real user from l l' : real l' = real l → starts user from l → starts user from l'.
Proof.
  intros E Hs t Ht Hu Hn Ha. apply Hs; try done.
  assert (t ∈ real l') as Hr by by apply list_elem_of_filter. rewrite E in Hr. by apply list_elem_of_filter in Hr as [_ ?].
Qed.

(** What one step of the recalculation keeps. *)
Record progress s s' : Prop := {
  pr_pads : pads_ok (ledger_of s');
  pr_splits : stock_splits (mkt s') = stock_splits (mkt s);
  pr_instruments : instruments (shop (mkt s')) = instruments (shop (mkt s));
  pr_real : real (ledger_of s') = real (ledger_of s);
  pr_balanced : (∀ g, balanced (ledger_of s) g) → ∀ g, balanced (ledger_of s') g;
}.

Lemma progress_refl s : pads_ok (ledger_of s) → progress s s.
Proof. by split. Qed.

Lemma progress_trans s1 s2 s3 : progress s1 s2 → progress s2 s3 → progress s1 s3.
Proof. intros [] []. split; [done|congruence|congruence|congruence|auto]. Qed.

(** The table of declarations may have changed. *)
Definition redeclared s s1 : Prop :=
  ledger_of s1 = ledger_of s ∧ stock_splits (mkt s1) = stock_splits (mkt s) ∧
  instruments (shop (mkt s1)) = instruments (shop (mkt s)).

(** The pad computed from a declaration makes it true, and every declaration of the
    holding with its date and denomination; no other holding is touched. *)
Lemma pad_written h (qty : string) asOf basis q start s s1 : pads_ok (ledger_of s) → splits_positive s →
  starts (hk_user h) (day_of start) (ledger_of s) → (day_of start <= asOf)%Z →
  uuid_ok (hk_user h) = true → uuid_ok (hk_instrument h) = true →
  is_Some (instruments (shop (mkt s)) !! hk_instrument h) → parse_dec qty = Some q → redeclared s s1 →
  ∃ init s', computeInitializeValues uuid_ok parse_dec pg_div today h qty asOf basis start s = Some init ∧
    UpsertInitializeTx gen_uuid uuid_ok h init s1 = Some s' ∧
    progress s s' ∧ decls s' = decls s1 ∧
    (∀ d, d_holding d = h → d_AsOfDate d = asOf → d_ShareCountBasis d = basis →
       dval (dc_ComputedQty (verify pg_div today d s')) == dval q)%Q ∧
    (∀ d', d_holding d' ≠ h →
       dc_ComputedQty (verify pg_div today d' s') = dc_ComputedQty (verify pg_div today d' s)) ∧
    ∀ t, t ∈ txs (ledger_of s') → pad_of h t = false → t ∈ txs (ledger_of s).
Proof using gen_fresh pg_div_undoes H0.
  intros Hok Hsp Hst Hle Hu Hin [i Hi] Hq (El & Es & Ei).
  unfold computeInitializeValues, ComputeRunningBalance. rewrite Hq, Hu, Hin. cbn [mbind option_bind andb].
  set (running := dc_ComputedQty _). eexists. set (init := {| init_Timestamp := _; init_Quantity := dec_sub q running; init_ShareCountBasis := _ |}).
  destruct (upsert_repadded gen_uuid uuid_ok gen_fresh h init s1 i) as (s' & E & (Hd & Hspl & Hins) & Hr & Hg);
    [by rewrite El|done|done|by rewrite Ei|].
  rewrite El in Hr. rewrite Es in Hspl. rewrite Ei in Hins.
  exists s'. split; [done|]. split; [exact E|]. split_and!.
  - split; [by eapply repadded_pads_ok|done|done|by eapply repadded_real|by eapply repadded_balanced].
  - done.
  - intros d <- <- <-.
    destruct (counted_own (d_holding d) init (ledger_of s) (ledger_of s') (day_start (day_of start)) (day_start (d_AsOfDate d + 1)) Hok Hr)
      as (u & Hp & Hb & Huq & Hothers).
    { unfold init. cbn [init_Timestamp]. unfold day_start. apply Z.mul_lt_mono_pos_r; [done|lia]. }
    { intros t Ht Hut Hn Ha. by apply Hst. }
    rewrite verify_total.
    rewrite (total_one_more pg_div today pg_div_undoes (d_holding d) (d_ShareCountBasis d) s s' _ _ u Hsp (in_basis_same _ _ s s' Hspl Hins) Hp Hb Hothers).
    rewrite Huq. unfold init at 1. cbn [init_Quantity]. rewrite dval_sub. unfold running, holding_qty_in_basis, total.
    cbn [dc_ComputedQty]. ring.
  - intros d' Hne. rewrite !verify_total, (total_same _ _ s s') by done. f_equal. by eapply counted_other.
  - intros t Ht Hp. destruct Hr as (? & ? & ? & ? & _ & _ & _ & _ & _ & Hr & _).
    assert (t ∈ filter (λ t, pad_of h t = false) (txs (ledger_of s'))) as Hx by by apply list_elem_of_filter.
    rewrite Hr in Hx. by apply list_elem_of_filter in Hx as [_ ?].
Qed.
End written.

(** ** Removing a pad *)

Section removed.
Context {D : Type} `{DecimalLaws D}.
Context (uuid_ok : string → bool).
Implicit Types (s : state D) (t : row D) (h : holding) (l : ledger D).

Definition unpadded h l l' : Prop := txs l' = filter (λ t, pad_of h t = false) (txs l).

Lemma in_pad_groups h l t : pads_ok l → t ∈ txs l → r_group t ∈ pad_groups h l ↔ pad_of h t = true.
Proof.
  intros Hok Ht. unfold pad_groups. rewrite elem_of_list_to_set, list_elem_of_fmap. split.
  - intros (x & Eg & [(Hb & Ha & Hi & Hp & Hu) Hx]%list_elem_of_filter).
    rewrite (po_grouped _ Hok x Hx) in Hu. injection Hu as Hu.
    destruct (po_group _ Hok h x t Hx Ht) as [Hpt Hpo]; [by apply posting_of_true|done|done|].
    apply pad_of_true. split; [done|]. split; [done|]. by apply (po_legs _ Hok).
  - intros ((Hu & Hb & Ha & Hi)%posting_of_true & Hp & _)%pad_of_true. exists t. split; [done|].
    apply list_elem_of_filter. split; [|done]. split_and!; try done. rewrite <- Hu. by apply (po_grouped _ Hok).
Qed.

Lemma delete_pad_spec h s : pads_ok (ledger_of s) → uuid_ok (hk_user h) = true → uuid_ok (hk_instrument h) = true →
  ∃ s', DeleteInitializeTx uuid_ok h s = Some s' ∧ same_but_txs s s' ∧ unpadded h (ledger_of s) (ledger_of s') ∧
    ∀ t, t ∈ txs (ledger_of s') → tx_groups (ledger_of s') !! r_group t = tx_groups (ledger_of s) !! r_group t.
Proof.
  intros Hok Hu Hi. unfold DeleteInitializeTx. rewrite Hu, Hi. cbn [andb negb].
  eexists. split; [done|]. split; [done|]. split.
  - unfold unpadded, ledger_of at 1. cbn [mkt shop book with_book with_shop txs]. apply filter_ext_in. intros t Ht.
    rewrite (in_pad_groups h _ t Hok Ht). apply not_true_iff_false.
  - intros t [Hg _]%list_elem_of_filter. unfold ledger_of at 1. cbn [mkt shop book with_book with_shop tx_groups].
    destruct (tx_groups (ledger_of s) !! r_group t) as [x|] eqn:E.
    + by apply map_lookup_filter_Some.
    + apply map_lookup_filter_None. by left.
Qed.

Lemma unpadded_pads_ok h l l' : pads_ok l → unpadded h l l' →
  (∀ t, t ∈ txs l' → tx_groups l' !! r_group t = tx_groups l !! r_group t) → pads_ok l'.
Proof.
  intros Hok Hr Hgr. assert (∀ t, t ∈ txs l' ↔ pad_of h t = false ∧ t ∈ txs l) as Hin.
  { intros t. by rewrite Hr, list_elem_of_filter. }
  split.
  - intros t [_ Ht]%Hin. by apply (po_user _ Hok).
  - intros t [_ Ht]%Hin. by apply (po_legs _ Hok).
  - intros h' acct. rewrite Hr, list_filter_filter_comm. etrans; [apply length_filter|apply (po_one _ Hok)].
  - intros h' t [Hpf Ht]%Hin Hp. destruct (po_pair _ Hok h' t Ht Hp) as (u & Hu & Hpu & Eg). exists u. split; [|done].
    apply Hin. split; [|done]. apply not_true_iff_false. intros (Hph & _)%pad_of_true.
    apply pad_row_true in Hpu as (Hpu & _). assert (h' = h) as -> by (by eapply posting_of_inj).
    unfold pad_of in Hpf. by rewrite Hp, orb_true_r in Hpf.
  - intros h' t t' [_ Ht]%Hin [_ Ht']%Hin. by apply (po_group _ Hok).
  - intros t Ht. unfold owned. rewrite Hgr by done. apply Hin in Ht as [_ Ht]. by apply (po_grouped _ Hok).
Qed.

Lemma unpadded_balanced h l l' : pads_ok l → unpadded h l l' → (∀ g, balanced l g) → ∀ g, balanced l' g.
Proof.
  intros Hok Hr Hb g c. unfold residual_of, rows_in. rewrite Hr, list_filter_filter_comm.
  destruct (decide (g ∈ pad_groups h l)) as [Hg|Hg].
  - assert (filter (λ t, pad_of h t = false) (filter (λ t, r_group t = g ∧ r_commodity t = c) (txs l)) = []) as ->; [|apply dval_zero].
    destruct (filter _ (filter _ _)) as [|y k] eqn:E; [done|]. exfalso.
    assert (y ∈ y :: k) as Hy by left. rewrite <- E in Hy.
    apply list_elem_of_filter in Hy as [Hpf [[Eg _] Hy]%list_elem_of_filter].
    rewrite <- Eg in Hg. apply (in_pad_groups h _ y Hok Hy) in Hg. congruence.
  - rewrite filter_everything; [apply Hb|]. intros t [[Eg _] Ht]%list_elem_of_filter.
    apply not_true_iff_false. intros Hp. apply Hg. rewrite <- Eg. by apply in_pad_groups.
Qed.

Lemma delete_pad_progress h s : pads_ok (ledger_of s) → uuid_ok (hk_user h) = true → uuid_ok (hk_instrument h) = true →
  ∃ s', DeleteInitializeTx uuid_ok h s = Some s' ∧ progress s s' ∧ decls s' = decls s ∧
    (∀ t, t ∈ txs (ledger_of s') → pad_of h t = false) ∧
    (∀ h' from before inc, h' ≠ h →
       filter (λ t, counted h' from before inc t = true) (txs (ledger_of s')) =
       filter (λ t, counted h' from before inc t = true) (txs (ledger_of s))) ∧
    ∀ t, t ∈ txs (ledger_of s') → t ∈ txs (ledger_of s).
Proof.
  intros Hok Hu Hi. destruct (delete_pad_spec h s Hok Hu Hi) as (s' & E & (Hd & Hsp & Hin) & Hr & Hgr).
  exists s'. split; [done|]. split_and!.
  - split; [by eapply unpadded_pads_ok|done|done| |by eapply unpadded_balanced].
    unfold real. rewrite Hr, list_filter_filter. apply list_filter_iff. intros t. split; [tauto|]. intros Hn. split; [done|].
    apply not_true_iff_false. intros (_ & ? & _)%pad_of_true. congruence.
  - done.
  - intros t Ht. rewrite Hr in Ht. by apply list_elem_of_filter in Ht as [? _].
  - intros h' from before inc Hne. rewrite Hr, list_filter_filter. apply list_filter_iff. intros t. split; [tauto|].
    intros Hc. split; [done|]. apply counted_true in Hc as (Hp & _). apply not_true_iff_false. intros (Hp' & _)%pad_of_true.
    apply Hne. by eapply posting_of_inj.
  - intros t Ht. rewrite Hr in Ht. by apply list_elem_of_filter in Ht as [_ ?].
Qed.
End removed.
End Declarations.
