(* ===== verification/Reconcile.v ===== *)
(** * Keeping declarations reconciled

    server/service/api/recalc.go, and what it and the handlers of [Declarations] keep: of
    every holding the earliest declaration is the pad, and the pad makes it true.
    [RecalcAllInitializeTxs] establishes that after an ingestion; creating, updating and
    deleting a declaration preserve it. *)

From Stdlib Require Import QArith Lqa.
From S2P Require Import Prelude GoStrings Calendar Decimal Posting Residual Ledger Instruments Splits Declarations.

Local Open Scope nat_scope.

Module Reconcile.
Import GoStrings Calendar Posting Residual Ledger Instruments Splits Declarations.

Section recalc.
Context {D : Type} `{Decimal D}.
Context (gen_uuid : gset string → string) (uuid_ok : string → bool) (parse_dec : string → option D).
Context (pg_div : D → D → D) (today : Z) (map_order : list holding → list holding).
Implicit Types (s : state D) (h : holding) (d : declaration).

(** A step that may fail, and what was written before it did. *)
Definition then_ (r : bool * state D) (f : state D → bool * state D) : bool * state D :=
  let '(ok, s) := r in if ok then f s else (false, s).

Definition each {A} (f : A → state D → bool * state D) (l : list A) s : bool * state D :=
  foldl (λ r x, then_ r (f x)) (true, s) l.

Definition attempt (f : state D → option (state D)) s : bool * state D :=
  match f s with Some s => (true, s) | None => (false, s) end.

Definition byHolding (l : list declaration) : list holding := map_order (remove_dups (d_holding <$> l)).

Definition pruneBeforeStart (startDay : Z) (l : list declaration) s : bool * state D :=
  each (λ d, attempt (DeleteHoldingDeclaration uuid_ok (d_ID d))) (filter (λ d, (d_AsOfDate d < startDay)%Z) l) s.

Definition recalcHoldingPad (start : Z) d s : bool * state D :=
  attempt (λ s,
    init ← computeInitializeValues uuid_ok parse_dec pg_div today (d_holding d) (d_DeclaredQty d) (d_AsOfDate d)
             (d_ShareCountBasis d) start s;
    UpsertInitializeTx gen_uuid uuid_ok (d_holding d) init s) s.

Definition RecalcAllInitializeTxs (user : string) s : bool * state D :=
  match ListHoldingDeclarations uuid_ok user s with
  | None => (false, s)
  | Some [] => (true, s)
  | Some l =>
      match GetPortfolioStartDate uuid_ok user s with
      | None => (false, s)
      | Some None => each (λ h, attempt (DeleteInitializeTx uuid_ok h)) (byHolding l) s
      | Some (Some start) =>
          let kept := filter (λ d, ¬ (d_AsOfDate d < day_of start)%Z) l in
          then_ (pruneBeforeStart (day_of start) l s) (λ s,
          then_ (each (λ h, if bool_decide (h ∈ d_holding <$> kept) then λ s, (true, s) else attempt (DeleteInitializeTx uuid_ok h))
                   (byHolding l) s) (λ s,
          each (λ h, match padDeclaration (filter (λ d, d_holding d = h) kept) with
                     | Some pad => recalcHoldingPad start pad
                     | None => λ s, (true, s)
                     end) (byHolding kept) s))
      end
  end.
End recalc.

(** ** The pad of a holding *)

Lemma pad_fold_least (l : list declaration) acc p :
  foldl (λ pad d, match pad with
                  | None => Some d
                  | Some p => if (d_AsOfDate d <? d_AsOfDate p)%Z then Some d else Some p
                  end) acc l = Some p →
  p ∈ option_list acc ++ l ∧ ∀ d, d ∈ option_list acc ++ l → (d_AsOfDate p <= d_AsOfDate d)%Z.
Proof.
  revert acc. induction l as [|x l IH]; intros acc.
  - simpl. intros ->. simpl. split; [by left|]. intros d ->%list_elem_of_singleton. lia.
  - cbn [foldl]. intros [Hin Hle]%IH. destruct acc as [a|]; [|done]. cbn [option_list] in *.
    destruct (Z.ltb_spec (d_AsOfDate x) (d_AsOfDate a)); cbn [option_list app] in *; split.
    + set_solver.
    + intros d [->|Hd]%elem_of_cons; [|by apply Hle]. pose proof (Hle x ltac:(left)). lia.
    + set_solver.
    + intros d [->|[->|Hd]%elem_of_cons]%elem_of_cons; [apply Hle; left| |apply Hle; by right].
      pose proof (Hle a ltac:(left)). lia.
Qed.

Lemma padDeclaration_least l p : padDeclaration l = Some p →
  p ∈ l ∧ ∀ d, d ∈ l → (d_AsOfDate p <= d_AsOfDate d)%Z.
Proof. apply (pad_fold_least l None). Qed.

Lemma padDeclaration_some l d : d ∈ l → ∃ p, padDeclaration l = Some p.
Proof.
  destruct l as [|x l]; [by intros ?%elem_of_nil|]. intros _. unfold padDeclaration. cbn [foldl].
  generalize x. induction l as [|y l IH]; intros z; cbn [foldl]; [by eexists|]. destruct (_ <? _)%Z; apply IH.
Qed.

Lemma kind_pad {D} d (s : state D) : kind_of d s = KindPad ↔
  ∀ e, e ∈ decls s → d_holding e = d_holding d → (d_AsOfDate d <= d_AsOfDate e)%Z.
Proof.
  unfold kind_of. destruct (forallb _ _) eqn:E; split; try done.
  - intros _ e He Hh. apply (forallb_elem _ _ e E) in He. rewrite bool_decide_true in He by done. by apply Z.leb_le.
  - intros Hall. exfalso. apply not_true_iff_false in E. apply E, forallb_intro. intros e He.
    destruct (bool_decide_reflect (d_holding e = d_holding d)); [|done]. by apply Z.leb_le, Hall.
Qed.

(** ** The invariant *)

Section history.
Context {D : Type} (uuid_ok : string → bool).
Implicit Types s : state D.

Lemma start_of_real user s s' : real (ledger_of s') = real (ledger_of s) →
  GetPortfolioStartDate uuid_ok user s' = GetPortfolioStartDate uuid_ok user s.
Proof.
  intros E. unfold GetPortfolioStartDate. destruct (uuid_ok user); [|done]. cbn [negb]. do 2 f_equal.
  assert (∀ ts : list (row D), filter (λ t, r_user t = user ∧ r_purpose t = None ∧ r_account_type t = "USER") ts =
    filter (λ t, r_user t = user ∧ r_account_type t = "USER") (filter (λ t, r_purpose t = None) ts)) as Hre.
  { intros ts. rewrite list_filter_filter. apply list_filter_iff. tauto. }
  rewrite !Hre. unfold real in E. by rewrite E.
Qed.

Lemma day_start_of z : (day_start (day_of z) <= z)%Z.
Proof. unfold day_start, day_of. pose proof (Z.mul_div_le z day_ns ltac:(done)). lia. Qed.

Lemma starts_start user s start : GetPortfolioStartDate uuid_ok user s = Some (Some start) →
  uuid_ok user = true ∧ starts user (day_of start) (ledger_of s).
Proof.
  unfold GetPortfolioStartDate. destruct (uuid_ok user); [|done]. cbn [negb]. intros [= E]. split; [done|].
  intros t Ht Hu Hp Ha. etrans; [apply day_start_of|]. eapply first_date_least; [exact E|]. by apply list_elem_of_filter.
Qed.

End history.

Section invariant.
Context {D : Type} `{DecimalLaws D}.
Context (gen_uuid : gset string → string) (uuid_ok : string → bool) (parse_dec : string → option D).
Context (pg_div : D → D → D) (today : Z).
Implicit Types (s : state D) (t : row D) (h : holding) (l : ledger D) (d : declaration).

(** The table of declarations, of the instruments of [s]. *)
Record table_ok s (ds : list declaration) : Prop := {
  tb_ids : NoDup (d_ID <$> ds);
  tb_keys : NoDup (decl_key <$> ds);
  tb_uuids : ∀ d, d ∈ ds → uuid_ok (d_ID d) = true ∧ uuid_ok (hk_user (d_holding d)) = true ∧
    uuid_ok (hk_instrument (d_holding d)) = true;
  tb_known : ∀ d, d ∈ ds → is_Some (instruments (shop (mkt s)) !! hk_instrument (d_holding d));
  tb_parses : ∀ d, d ∈ ds → is_Some (parse_dec (d_DeclaredQty d));
}.

(** No pad of a holding nothing is declared of. *)
Definition no_orphans s : Prop :=
  ∀ t, t ∈ txs (ledger_of s) → r_purpose t = Some InitializePurpose →
  ∃ d, d ∈ decls s ∧ posting_of (d_holding d) t = true.

Record stated s : Prop := {
  sd_pads : pads_ok (ledger_of s);
  sd_splits : splits_positive s;
  sd_table : table_ok s (decls s);
}.

(** A declaration the postings, the pad among them, add up to. *)
Definition holds_exactly d s : Prop :=
  ∃ q, parse_dec (d_DeclaredQty d) = Some q ∧ (dval (dc_ComputedQty (verify pg_div today d s)) == dval q)%Q.

(** Every declaration of a holding is within its user's history, and the one that is
    shown as its pad is true. *)
Definition settled_at h s : Prop :=
  ∀ start, GetPortfolioStartDate uuid_ok (hk_user h) s = Some (Some start) →
  ∀ d, d ∈ decls s → d_holding d = h →
    (day_of start <= d_AsOfDate d)%Z ∧ (kind_of d s = KindPad → holds_exactly d s).

Definition settled (user : string) s : Prop := ∀ h, hk_user h = user → settled_at h s.

(** What every step here keeps. *)
Record kept s s' : Prop := {
  kp_progress : progress s s';
  kp_stated : stated s';
  kp_settled : ∀ user, settled user s → settled user s';
  kp_orphans : no_orphans s → no_orphans s';
}.

(** A declaration that says what another does. *)
Definition same_claim d e : Prop :=
  d_AsOfDate d = d_AsOfDate e ∧ d_ShareCountBasis d = d_ShareCountBasis e ∧
  ∀ q, parse_dec (d_DeclaredQty e) = Some q →
    ∃ q', parse_dec (d_DeclaredQty d) = Some q' ∧ (dval q' == dval q)%Q.

Lemma same_claim_refl d : same_claim d d.
Proof. split_and!; try done. intros q Hq. by exists q. Qed.

(** A step that leaves a holding leaves its declarations true. *)
Lemma settled_at_other h s s' : progress s s' →
  (∀ d, d_holding d = h → d ∈ decls s' ↔ d ∈ decls s) →
  (∀ d, d_holding d = h → dc_ComputedQty (verify pg_div today d s') = dc_ComputedQty (verify pg_div today d s)) →
  settled_at h s → settled_at h s'.
Proof.
  intros Hpr Hds Hv Hset start Hstart d Hd Eh. rewrite (start_of_real uuid_ok _ s) in Hstart by apply Hpr.
  destruct (Hset start Hstart d) as [Hle Hk]; [by apply Hds|done|]. split; [done|]. intros Hpad.
  destruct Hk as (q & Hq & Hval); [|exists q; by rewrite Hv].
  rewrite kind_pad in Hpad |- *. intros e He Hh. apply Hpad; [|done]. apply Hds; [congruence|done].
Qed.

Lemma settled_all h s s' : (∀ h', h' = h ∨ settled_at h' s → settled_at h' s') → ∀ user, settled user s → settled user s'.
Proof. intros Hall user Hset h' Hu. apply Hall. right. by apply Hset. Qed.

Lemma verify_other h s s' : stock_splits (mkt s') = stock_splits (mkt s) →
  instruments (shop (mkt s')) = instruments (shop (mkt s)) →
  (∀ before, filter (λ t, counted h None before true t = true) (txs (ledger_of s')) =
     filter (λ t, counted h None before true t = true) (txs (ledger_of s))) →
  ∀ d, d_holding d = h → dc_ComputedQty (verify pg_div today d s') = dc_ComputedQty (verify pg_div today d s).
Proof.
  intros Es Ei Hc d <-. rewrite !verify_total, (total_same _ _ _ _ s s') by done. f_equal. apply Hc.
Qed.
Lemma orphans_kept h s s' : pads_ok (ledger_of s') → (∀ d, d_holding d ≠ h → d ∈ decls s' ↔ d ∈ decls s) →
  (∀ t, t ∈ txs (ledger_of s') → pad_of h t = true ∨ t ∈ txs (ledger_of s)) →
  (∃ d, d ∈ decls s' ∧ d_holding d = h) ∨ (∀ t, t ∈ txs (ledger_of s') → pad_of h t = false) →
  no_orphans s → no_orphans s'.
Proof.
  intros Hok Hds Hrow Hnone Hno t Ht Hp. destruct (pad_of h t) eqn:Ep.
  - destruct Hnone as [(d & Hd & <-)|Hn]; [|by rewrite Hn in Ep].
    exists d. split; [done|]. by apply pad_of_true in Ep as (? & _).
  - destruct (Hrow t Ht) as [?|Hts]; [congruence|]. destruct (Hno t Hts Hp) as (d & Hd & Hdp). exists d. split; [|done].
    apply Hds; [|done]. intros <-. apply not_true_iff_false in Ep. apply Ep, pad_of_true. split; [done|]. split; [done|].
    by apply (po_legs _ Hok).
Qed.
End invariant.

(** ** Writing the pad of a holding *)

Section writing.
Context {D : Type} `{DecimalLaws D}.
Context (gen_uuid : gset string → string) (uuid_ok : string → bool) (parse_dec : string → option D).
Context (pg_div : D → D → D) (today : Z).
Hypothesis gen_fresh : ∀ X, gen_uuid X ∉ X.
Hypothesis pg_div_undoes : ∀ q n d, ¬ (dval (dec_mul d n) == 0)%Q →
  (dval (pg_div (dec_mul (dec_mul q n) d) (dec_mul d n)) == dval q)%Q.
Implicit Types (s : state D) (t : row D) (h : holding) (l : ledger D) (d : declaration).
#[local] Notation table_ok := (table_ok uuid_ok parse_dec).
#[local] Notation stated := (stated uuid_ok parse_dec).
#[local] Notation settled := (settled uuid_ok parse_dec pg_div today).
#[local] Notation settled_at := (settled_at uuid_ok parse_dec pg_div today).
#[local] Notation kept := (kept uuid_ok parse_dec pg_div today).
#[local] Notation same_claim := (same_claim parse_dec).

Lemma posting_of_no_other h h' t : posting_of h t = true → h' ≠ h → pad_of h' t = false.
Proof. intros Hp Hne. apply not_true_iff_false. intros (Hp' & _)%pad_of_true. apply Hne. by eapply posting_of_inj. Qed.

(** [L] is what the pad is chosen from, [ds] the table it is chosen for. *)
Lemma pad_settles h L pad q start s s1 ds : stated s → table_ok s ds → redeclared s s1 → decls s1 = ds →
  GetPortfolioStartDate uuid_ok (hk_user h) s = Some (Some start) →
  padDeclaration L = Some pad → parse_dec (d_DeclaredQty pad) = Some q → (day_of start <= d_AsOfDate pad)%Z →
  (∀ d, d_holding d ≠ h → d ∈ ds ↔ d ∈ decls s) →
  (∀ e, e ∈ L → ∃ d, d ∈ ds ∧ d_holding d = h ∧ same_claim d e) →
  (∀ d, d ∈ ds → d_holding d = h → ∃ e, e ∈ L ∧ same_claim d e) →
  (∀ e e', e ∈ L → e' ∈ L → d_AsOfDate e = d_AsOfDate e' → e = e') →
  ∃ init s', computeInitializeValues uuid_ok parse_dec pg_div today h (d_DeclaredQty pad) (d_AsOfDate pad) (d_ShareCountBasis pad) start s = Some init ∧
    UpsertInitializeTx gen_uuid uuid_ok h init s1 = Some s' ∧
    progress s s' ∧ decls s' = ds ∧ stated s' ∧ (∀ h', h' = h ∨ settled_at h' s → settled_at h' s') ∧
    (∀ d, d ∈ ds → d_holding d = h → kind_of d s' = KindPad ↔ d_AsOfDate d = d_AsOfDate pad) ∧
    ∀ t, t ∈ txs (ledger_of s') → pad_of h t = true ∨ t ∈ txs (ledger_of s).
Proof using gen_fresh pg_div_undoes H0.
  intros Hst Htb Hre Eds Hstart Hpad Hq Hle Hothers HL Hds Huniq.
  destruct (padDeclaration_least _ _ Hpad) as [HpL Hleast].
  destruct (starts_start uuid_ok _ _ _ Hstart) as [_ Hfrom].
  destruct (HL pad HpL) as (d0 & Hd0 & Eh0 & _).
  destruct (tb_uuids _ _ _ _ Htb d0 Hd0) as (_ & Huu & Hui). pose proof (tb_known _ _ _ _ Htb d0 Hd0) as Hki.
  rewrite Eh0 in Huu, Hui, Hki.
  destruct (pad_written gen_uuid uuid_ok parse_dec pg_div today gen_fresh pg_div_undoes h (d_DeclaredQty pad) (d_AsOfDate pad)
    (d_ShareCountBasis pad) q start s s1) as (init & s' & E1 & E2 & Hpr & Hd & Hown & Hoth & Hrow);
    [apply Hst|apply Hst|done..|].
  rewrite Eds in Hd.
  assert (∀ d, d ∈ ds → d_holding d = h → (d_AsOfDate pad <= d_AsOfDate d)%Z) as Hdle.
  { intros d Hdd Hh. destruct (Hds d Hdd Hh) as (e & He & -> & _). by apply Hleast. }
  assert (∀ d, d ∈ ds → d_holding d = h → kind_of d s' = KindPad ↔ d_AsOfDate d = d_AsOfDate pad) as Hkind.
  { intros d Hdd Hh. rewrite kind_pad, Hd. split.
    - intros Hall. destruct (HL pad HpL) as (d1 & Hd1 & Eh1 & Ea & _).
      pose proof (Hall d1 Hd1 ltac:(congruence)). pose proof (Hdle d Hdd Hh). lia.
    - intros -> e He Hhe. apply Hdle; congruence. }
  exists init, s'. split_and!; try done.
  - split.
    + apply Hpr.
    + intros x. rewrite (pr_splits _ _ Hpr). apply Hst.
    + rewrite Hd. destruct Htb. split; try done. intros d Hdd. rewrite (pr_instruments _ _ Hpr). auto.
  - intros h' Hset. destruct (decide (h' = h)) as [->|Hne].
    2: { destruct Hset as [?|Hset]; [done|]. apply (settled_at_other uuid_ok parse_dec pg_div today h' s s'); try done.
         - intros d Eh. rewrite Hd. apply Hothers. congruence.
         - intros d Eh. apply Hoth. congruence. }
    intros start' Hs' d Hdd Hh. rewrite Hd in Hdd. rewrite (start_of_real uuid_ok _ s) in Hs' by apply Hpr.
    assert (start' = start) as -> by congruence.
    split; [pose proof (Hdle d Hdd Hh); lia|]. intros Hk. apply Hkind in Hk; [|done..].
    destruct (Hds d Hdd Hh) as (e & He & Ea & Eb & Hparse).
    assert (e = pad) as -> by (apply Huniq; congruence).
    destruct (Hparse q Hq) as (q' & Hq' & Eq). exists q'. split; [done|]. rewrite (Hown d Hh Ea Eb). by symmetry.
  - intros t Ht. destruct (pad_of h t) eqn:Ep; [by left|right; auto].
Qed.
End writing.

(** ** The handlers *)

Lemma elem_of_option_list {A} (x : A) o : x ∈ option_list o ↔ o = Some x.
Proof.
  destruct o as [y|]; simpl; split.
  - by intros ->%list_elem_of_singleton.
  - intros [= ->]. by left.
  - by intros ?%elem_of_nil.
  - done.
Qed.

Section siblings.
Context {D : Type} `{DecimalLaws D}.
Context (uuid_ok : string → bool).
Implicit Types (s : state D) (h : holding) (d : declaration).

Lemma siblings h ex s : uuid_ok (hk_user h) = true →
  ∃ all, ListHoldingDeclarations uuid_ok (hk_user h) s = Some all ∧
    ∀ e, e ∈ holdingDeclarations all h ex ↔ e ∈ decls s ∧ d_holding e = h ∧ d_ID e ≠ ex.
Proof.
  intros Hu. unfold ListHoldingDeclarations. rewrite Hu. cbn [negb]. eexists. split; [done|]. intros e.
  unfold holdingDeclarations. rewrite list_elem_of_filter, elem_of_go_sort, list_elem_of_filter. naive_solver.
Qed.

Context (parse_dec : string → option D).

Lemma decl_key_inj s ds d e : table_ok uuid_ok parse_dec s ds → d ∈ ds → e ∈ ds → d_holding d = d_holding e → d_AsOfDate d = d_AsOfDate e → d = e.
Proof.
  intros Htb Hd He Eh Ea. apply (NoDup_fmap_inj_in decl_key ds); [apply Htb|done..|]. unfold decl_key. congruence.
Qed.

End siblings.

Section deleting.
Context {D : Type} `{DecimalLaws D}.
Context (uuid_ok : string → bool) (parse_dec : string → option D) (pg_div : D → D → D) (today : Z).
Implicit Types (s : state D) (t : row D) (h : holding) (d : declaration).
#[local] Notation table_ok := (table_ok uuid_ok parse_dec).
#[local] Notation stated := (stated uuid_ok parse_dec).
#[local] Notation settled := (settled uuid_ok parse_dec pg_div today).
#[local] Notation settled_at := (settled_at uuid_ok parse_dec pg_div today).
#[local] Notation kept := (kept uuid_ok parse_dec pg_div today).

(** A holding nothing is declared of, or one without a history, loses its pad. *)
Lemma delete_settles h s s1 ds : stated s → table_ok s ds → redeclared s s1 → decls s1 = ds →
  uuid_ok (hk_user h) = true → uuid_ok (hk_instrument h) = true →
  (∀ d, d_holding d ≠ h → d ∈ ds ↔ d ∈ decls s) →
  GetPortfolioStartDate uuid_ok (hk_user h) s = Some None ∨ (∀ d, d ∈ ds → d_holding d ≠ h) →
  ∃ s', DeleteInitializeTx uuid_ok h s1 = Some s' ∧ progress s s' ∧ decls s' = ds ∧ stated s' ∧
    (∀ h', h' = h ∨ settled_at h' s → settled_at h' s') ∧
    ∀ t, t ∈ txs (ledger_of s') → pad_of h t = false ∧ t ∈ txs (ledger_of s).
Proof.
  intros Hst Htb (El & Es & Ei) Eds Hu Hi Hoth Hnone.
  destruct (delete_pad_progress uuid_ok h s1) as (s' & E & Hpr1 & Hd & Hno & Hcount & Hsub); [rewrite El; apply Hst|done..|].
  rewrite Eds in Hd. rewrite El in Hsub.
  assert (progress s s') as Hpr.
  { split; [apply Hpr1|rewrite <- Es; apply Hpr1|rewrite <- Ei; apply Hpr1|rewrite <- El; apply Hpr1|rewrite <- El; apply Hpr1]. }
  exists s'. split; [done|]. split; [done|]. split; [done|]. split; [|split; [|by split; auto]].
  - split.
    + apply Hpr.
    + intros x. rewrite (pr_splits _ _ Hpr). apply Hst.
    + rewrite Hd. destruct Htb. split; try done. intros d Hdd. rewrite (pr_instruments _ _ Hpr). auto.
  - intros h' Hset. destruct (decide (h' = h)) as [->|Hne].
    + intros start Hs d Hdd Eh. rewrite Hd in Hdd. rewrite (start_of_real uuid_ok _ s) in Hs by apply Hpr.
      destruct Hnone as [Hn|Hn]; [congruence|]. by destruct (Hn d).
    + destruct Hset as [?|Hset]; [done|]. apply (settled_at_other uuid_ok parse_dec pg_div today h' s s'); try done.
      * intros d Eh. rewrite Hd. apply Hoth. congruence.
      * apply (verify_other pg_div today h' s s'); [apply Hpr..|]. intros before. rewrite Hcount by done. by rewrite El.
Qed.
End deleting.

Section handlers.
Context {D : Type} `{DecimalLaws D}.
Context (gen_uuid : gset string → string) (uuid_ok : string → bool) (parse_dec : string → option D).
Context (pg_div : D → D → D) (today : Z).
Hypothesis gen_fresh : ∀ X, gen_uuid X ∉ X.
Hypothesis pg_div_undoes : ∀ q n d, ¬ (dval (dec_mul d n) == 0)%Q →
  (dval (pg_div (dec_mul (dec_mul q n) d) (dec_mul d n)) == dval q)%Q.
Implicit Types (s : state D) (t : row D) (h : holding) (l : ledger D) (d : declaration).
#[local] Notation table_ok := (table_ok uuid_ok parse_dec).
#[local] Notation stated := (stated uuid_ok parse_dec).
#[local] Notation settled := (settled uuid_ok parse_dec pg_div today).
#[local] Notation settled_at := (settled_at uuid_ok parse_dec pg_div today).
#[local] Notation kept := (kept uuid_ok parse_dec pg_div today).
#[local] Notation same_claim := (same_claim parse_dec).

(** What the pad is worked out from before a write is what the table holds after it. *)
Lemma pad_after_write h ex pending stored start s ds : stated s → settled (hk_user h) s → table_ok s ds →
  GetPortfolioStartDate uuid_ok (hk_user h) s = Some (Some start) →
  match pending, stored with
  | None, None => True
  | Some p, Some d => same_claim d p ∧ d_holding d = h ∧ (day_of start <= d_AsOfDate p)%Z ∧
      is_Some (parse_dec (d_DeclaredQty p)) ∧ (d ∈ decls s → d_ID d = ex)
  | _, _ => False
  end →
  (∀ d, d_holding d ≠ h → d ∈ ds ↔ d ∈ decls s) →
  (∀ d, d_holding d = h → d ∈ ds ↔ (d ∈ decls s ∧ d_ID d ≠ ex) ∨ stored = Some d) →
  (∃ d, d ∈ ds ∧ d_holding d = h) →
  ∃ init from s', padAfterWrite uuid_ok parse_dec pg_div today h ex pending start s = Some (Some (init, from)) ∧
    UpsertInitializeTx gen_uuid uuid_ok h init (with_decls ds s) = Some s' ∧
    kept s s' ∧ decls s' = ds ∧
    (∀ d, d ∈ ds → d_holding d = h → kind_of d s' = KindPad ↔ d_AsOfDate d = from).
Proof using gen_fresh pg_div_undoes H0.
  intros Hst Hset Htb Hstart Hpend Hoth Hown [d0 [Hd0 Eh0]].
  destruct (siblings uuid_ok h ex s) as (all & Hall & Hsib); [by eapply starts_start|].
  set (L := holdingDeclarations all h ex ++ option_list pending).
  assert (∀ e, e ∈ L ↔ (e ∈ decls s ∧ d_holding e = h ∧ d_ID e ≠ ex) ∨ pending = Some e) as HinL.
  { intros e. unfold L. rewrite elem_of_app, Hsib, elem_of_option_list. done. }
  assert (∀ e, e ∈ L → ∃ d, d ∈ ds ∧ d_holding d = h ∧ same_claim d e ∧
    ((d = e ∧ e ∈ decls s ∧ d_ID e ≠ ex) ∨ (pending = Some e ∧ stored = Some d))) as HL.
  { intros e [(He & Eh & Ei)|Ep]%HinL.
    - exists e. split; [by apply Hown; auto|]. split; [done|]. split; [apply same_claim_refl|by left].
    - rewrite Ep in Hpend. destruct stored as [d|]; [|done]. destruct Hpend as (Hsc & Eh & _).
      exists d. split; [by apply Hown; auto|]. split_and!; auto. }
  assert (∀ d, d ∈ ds → d_holding d = h → ∃ e, e ∈ L ∧ same_claim d e) as HdsL.
  { intros d Hd Eh. apply Hown in Hd as [[Hd Ei]|Es]; [| |done].
    - exists d. split; [apply HinL; by left|apply same_claim_refl].
    - rewrite Es in Hpend. destruct pending as [p|]; [|done]. destruct Hpend as (Hsc & _).
      exists p. split; [apply HinL; by right|done]. }
  destruct (HdsL d0 Hd0 Eh0) as (e0 & He0 & _). destruct (padDeclaration_some _ _ He0) as [pad Hpad].
  destruct (padDeclaration_least _ _ Hpad) as [HpL _].
  assert ((day_of start <= d_AsOfDate pad)%Z ∧ is_Some (parse_dec (d_DeclaredQty pad))) as [Hle [q Hq]].
  { apply HinL in HpL as [(He & Eh & _)|Ep].
    - split; [by apply (Hset h eq_refl start Hstart pad He)|by apply (tb_parses _ _ _ _ (sd_table _ _ _ Hst))].
    - rewrite Ep in Hpend. destruct stored; [|done]. tauto. }
  destruct (pad_settles gen_uuid uuid_ok parse_dec pg_div today gen_fresh pg_div_undoes h L pad q start s (with_decls ds s) ds)
    as (init & s' & E1 & E2 & Hpr & Hd' & Hst' & Hset' & Hk & Hrow); try done.
  - intros e He. destruct (HL e He) as (d & ? & ? & ? & _). by exists d.
  - intros e e' He He' Ea. destruct (HL e He) as (d & Hd & Eh & Hsc & Hcase), (HL e' He') as (d' & Hd' & Eh' & Hsc' & Hcase').
    assert (d = d') as ->.
    { apply (decl_key_inj uuid_ok parse_dec s ds); [done..|congruence|]. destruct Hsc as [-> _], Hsc' as [-> _]. done. }
    destruct Hcase as [(-> & He1 & Ei)|[Ep Es]], Hcase' as [(-> & He2 & Ei')|[Ep' Es']]; try congruence.
    + exfalso. rewrite Ep', Es' in Hpend. by apply Ei, Hpend.
    + exfalso. rewrite Ep, Es in Hpend. by apply Ei', Hpend.
  - exists init, (d_AsOfDate pad), s'. split; [|split; [done|split; [|done]]].
    2: { split; [done|done|by apply (settled_all uuid_ok parse_dec pg_div today h)|].
         apply (orphans_kept h); [apply Hpr|by rewrite Hd'|done|]. left. exists d0. by rewrite Hd'. }
    unfold padAfterWrite. rewrite Hall.
    cbn [mbind option_bind]. fold L. rewrite Hpad, E1. done.
Qed.
Context (float_ok : string → bool) (numeric_text : string → option string).
Hypothesis gen_ok : ∀ X, uuid_ok (gen_uuid X) = true.
Hypothesis empty_not_ok : uuid_ok EmptyString = false.
(** A NUMERIC column holds the number that was written to it. *)
Hypothesis numeric_faithful : ∀ qty text q, numeric_text qty = Some text → parse_dec qty = Some q →
  ∃ q', parse_dec text = Some q' ∧ (dval q' == dval q)%Q.
#[local] Notation handle_Create := (handle_Create gen_uuid uuid_ok parse_dec float_ok numeric_text pg_div today).
#[local] Notation handle_Update := (handle_Update gen_uuid uuid_ok parse_dec float_ok numeric_text pg_div today).
#[local] Notation handle_Delete := (handle_Delete gen_uuid uuid_ok parse_dec pg_div today).

(** What a write answers is what the table shows. *)
Lemma pad_kind_shown (init : InitializeTx D) from d s : (kind_of d s = KindPad ↔ d_AsOfDate d = from) →
  pad_kind (Some (init, from)) (d_AsOfDate d) = kind_of d s.
Proof using Type.
  intros Hk. unfold pad_kind. destruct (Z.eqb_spec (d_AsOfDate d) from) as [E|E].
  - symmetry. by apply Hk.
  - destruct (kind_of d s); [|done]. exfalso. apply E. by apply Hk.
Qed.

Lemma basis_kept basis asOf : basis ≠ Some zero_time → basis_or_date (or_null (default asOf basis)) asOf = default asOf basis.
Proof using Type.
  intros Hb. unfold or_null. destruct (Z.eqb_spec (default asOf basis) zero_time) as [E|]; [|done].
  destruct basis as [b|]; cbn in *; [congruence|done].
Qed.

Lemma table_snoc s d : table_ok s (decls s) → d_ID d ∉ d_ID <$> decls s → decl_key d ∉ decl_key <$> decls s →
  uuid_ok (d_ID d) = true → uuid_ok (hk_user (d_holding d)) = true → uuid_ok (hk_instrument (d_holding d)) = true →
  is_Some (instruments (shop (mkt s)) !! hk_instrument (d_holding d)) → is_Some (parse_dec (d_DeclaredQty d)) →
  table_ok s (decls s ++ [d]).
Proof using Type.
  intros [] Hi Hk U1 U2 U3 Hin Hp. split.
  - rewrite fmap_app. apply NoDup_app. split; [done|]. split; [|apply NoDup_singleton].
    intros x Hx ->%list_elem_of_singleton. done.
  - rewrite fmap_app. apply NoDup_app. split; [done|]. split; [|apply NoDup_singleton].
    intros x Hx ->%list_elem_of_singleton. done.
  - intros e [He| ->%list_elem_of_singleton]%elem_of_app; auto.
  - intros e [He| ->%list_elem_of_singleton]%elem_of_app; auto.
  - intros e [He| ->%list_elem_of_singleton]%elem_of_app; auto.
Qed.

Lemma create_step h qty asOf basis s start text q : stated s → settled (hk_user h) s →
  GetPortfolioStartDate uuid_ok (hk_user h) s = Some (Some start) →
  uuid_ok (hk_instrument h) = true → is_Some (instruments (shop (mkt s)) !! hk_instrument h) →
  float_ok qty = true → numeric_text qty = Some text → parse_dec qty = Some q →
  (day_of start <= asOf)%Z → basis ≠ Some zero_time → (h, asOf) ∉ decl_key <$> decls s →
  ∃ s' d, handle_Create h qty asOf basis s = inr (s', d, kind_of d s') ∧
    kept s s' ∧ decls s' = decls s ++ [d] ∧
    d_holding d = h ∧ d_AsOfDate d = asOf ∧ d_DeclaredQty d = text ∧ d_ShareCountBasis d = default asOf basis.
Proof using gen_fresh gen_ok empty_not_ok pg_div_undoes numeric_faithful H0.
  intros Hst Hset Hstart Hui Hin Hf Hnt Hq Hle Hb Hkey.
  destruct (starts_start uuid_ok _ _ _ Hstart) as [Huu _].
  set (d := {| d_ID := gen_uuid (list_to_set (d_ID <$> decls s)); d_holding := h; d_DeclaredQty := text;
               d_AsOfDate := asOf; d_ShareCountBasis := default asOf basis |}).
  assert (d_ID d ∉ d_ID <$> decls s) as Hfresh.
  { intros Hx. apply (gen_fresh (list_to_set (d_ID <$> decls s))). by apply elem_of_list_to_set. }
  destruct (numeric_faithful _ _ _ Hnt Hq) as (q' & Hq' & Eq).
  assert (table_ok s (decls s ++ [d])) as Htb.
  { apply table_snoc; [apply Hst|done|done|apply gen_ok|done|done|done|by eexists]. }
  destruct (pad_after_write h EmptyString
    (Some (pending_row h qty asOf (default asOf basis))) (Some d) start s (decls s ++ [d]))
    as (init & from & s' & E1 & E2 & Hkept & Hd & Hk); [done..| | | | |].
  { split; [|split; [done|split; [done|split]]].
    - split; [done|]. split; [done|]. cbn. intros q0 Hq0. assert (q0 = q) as -> by congruence. by exists q'.
    - by eexists.
    - intros Hx. exfalso. apply Hfresh. by apply list_elem_of_fmap_2. }
  { intros e Hne. rewrite elem_of_app, list_elem_of_singleton. split; [|by left]. intros [| ->]; [done|]. done. }
  { intros e Eh. rewrite elem_of_app, list_elem_of_singleton. split.
    - intros [He| ->]; [left|by right]. split; [done|]. intros Ee.
      pose proof (proj1 (tb_uuids _ _ _ _ (sd_table _ _ _ Hst) e He)) as Hok. rewrite Ee in Hok. congruence.
    - intros [[He _]|[= <-]]; auto. }
  { exists d. split; [|done]. apply elem_of_app. right. by left. }
  exists s', d. split_and!; try done. unfold Declarations.handle_Create. rewrite Hf, Hstart. cbn [negb].
  destruct (Z.ltb_spec asOf (day_of start)); [lia|]. rewrite E1.
  unfold CreateDeclarationWithInitializeTx, CreateHoldingDeclaration. rewrite Huu, Hui, Hnt, basis_kept by done. cbn [andb negb].
  rewrite bool_decide_true by done. cbn [negb]. rewrite bool_decide_false by done. fold d. rewrite E2.
  do 2 f_equal. apply (pad_kind_shown init from d s'). apply Hk; [|done]. apply elem_of_app. right. by left.
Qed.

Lemma get_declaration id s d : GetHoldingDeclaration uuid_ok id s = Some d → uuid_ok id = true ∧ d ∈ decls s ∧ d_ID d = id.
Proof using Type.
  unfold GetHoldingDeclaration. destruct (uuid_ok id); [|done]. cbn [negb]. intros Hh. split; [done|].
  destruct (filter _ (decls s)) as [|x l] eqn:E; [done|]. injection Hh as ->.
  assert (d ∈ d :: l) as Hin by left. rewrite <- E in Hin. by apply list_elem_of_filter in Hin as [? ?].
Qed.

Lemma id_inj s ds d e : table_ok s ds → d ∈ ds → e ∈ ds → d_ID d = d_ID e → d = e.
Proof using Type. intros Htb Hd He E. apply (NoDup_fmap_inj_in d_ID ds); [apply Htb|done..]. Qed.

(** The table with one row rewritten. *)
Definition rewritten id (d' : declaration) (ds : list declaration) : list declaration :=
  (λ e, if decide (d_ID e = id) then d' else e) <$> ds.

Lemma elem_of_rewritten id d' ds e : id ∈ d_ID <$> ds → e ∈ rewritten id d' ds ↔ (e ∈ ds ∧ d_ID e ≠ id) ∨ e = d'.
Proof using Type.
  intros (x & -> & Hx)%list_elem_of_fmap. unfold rewritten. rewrite list_elem_of_fmap. split.
  - intros (y & -> & Hy). destruct (decide (d_ID y = d_ID x)); [by right|by left].
  - intros [[He Hi]| ->].
    + exists e. by rewrite decide_False.
    + exists x. by rewrite decide_True.
Qed.

Lemma table_rewritten s d d' : table_ok s (decls s) → d ∈ decls s → d_ID d' = d_ID d → d_holding d' = d_holding d →
  decl_key d' ∉ decl_key <$> filter (λ e, d_ID e ≠ d_ID d) (decls s) → is_Some (parse_dec (d_DeclaredQty d')) →
  table_ok s (rewritten (d_ID d) d' (decls s)).
Proof using Type.
  intros Htb Hd Ei Eh Hk Hp. assert (d_ID d ∈ d_ID <$> decls s) as Hin by by apply list_elem_of_fmap_2.
  destruct (tb_uuids _ _ _ _ Htb d Hd) as (U1 & U2 & U3). split.
  - assert (d_ID <$> rewritten (d_ID d) d' (decls s) = d_ID <$> decls s) as ->; [|apply Htb].
    unfold rewritten. rewrite <- list_fmap_compose. apply list_fmap_ext. intros _ e _. cbn.
    destruct (decide (d_ID e = d_ID d)); congruence.
  - unfold rewritten. rewrite <- list_fmap_compose. apply NoDup_fmap_2_strong; [|by eapply NoDup_fmap_1, Htb].
    assert (∀ x, x ∈ decls s → d_ID x ≠ d_ID d → decl_key x ≠ decl_key d') as Hne.
    { intros x Hx Hi Ek. apply Hk. rewrite <- Ek. apply list_elem_of_fmap_2. by apply list_elem_of_filter. }
    intros x y Hx Hy. cbn. destruct (decide (d_ID x = d_ID d)), (decide (d_ID y = d_ID d)); intros Ek.
    + apply (id_inj s (decls s)); [done..|congruence].
    + by destruct (Hne y).
    + by destruct (Hne x).
    + apply (NoDup_fmap_inj_in decl_key (decls s)); [apply Htb|done..].
  - intros e [[He _]| ->]%elem_of_rewritten; [by apply Htb| |done]. by rewrite Ei, Eh.
  - intros e [[He _]| ->]%elem_of_rewritten; [by apply Htb| |done]. rewrite Eh. by apply Htb.
  - intros e [[He _]| ->]%elem_of_rewritten; [by apply Htb| |done]. done.
Qed.

Lemma basis_left basis old : basis ≠ Some zero_time → default old (or_null (default old basis)) = default old basis.
Proof using Type.
  intros Hb. unfold or_null. destruct (Z.eqb_spec (default old basis) zero_time) as [E|]; [|done].
  destruct basis as [b|]; cbn in *; [congruence|done].
Qed.

Lemma update_step id qty asOf basis s d start text q :
  let h := d_holding d in
  stated s → settled (hk_user h) s → GetHoldingDeclaration uuid_ok id s = Some d →
  GetPortfolioStartDate uuid_ok (hk_user h) s = Some (Some start) →
  float_ok qty = true → numeric_text qty = Some text → parse_dec qty = Some q →
  (day_of start <= asOf)%Z → basis ≠ Some zero_time → (h, asOf) ∉ decl_key <$> filter (λ e, d_ID e ≠ id) (decls s) →
  let d' := {| d_ID := id; d_holding := h; d_DeclaredQty := text; d_AsOfDate := asOf;
               d_ShareCountBasis := default (d_ShareCountBasis d) basis |} in
  ∃ s', handle_Update (hk_user h) id qty asOf basis s = inr (s', d', kind_of d' s') ∧
    kept s s' ∧ decls s' = rewritten id d' (decls s).
Proof using gen_fresh pg_div_undoes numeric_faithful H0.
  intros h Hst Hset Hget Hstart Hf Hnt Hq Hle Hb Hkey d'.
  destruct (get_declaration _ _ _ Hget) as (Hid & Hd & Ei).
  destruct (numeric_faithful _ _ _ Hnt Hq) as (q' & Hq' & Eq).
  assert (id ∈ d_ID <$> decls s) as Hin by (rewrite <- Ei; by apply list_elem_of_fmap_2).
  assert (table_ok s (rewritten id d' (decls s))) as Htb.
  { rewrite <- Ei. apply table_rewritten; [apply Hst|done|done|done|by rewrite Ei|by exists q']. }
  destruct (pad_after_write h id (Some (pending_row h qty asOf (default (d_ShareCountBasis d) basis))) (Some d') start s
    (rewritten id d' (decls s))) as (init & from & s' & E1 & E2 & Hkept & Hds & Hk); [done..| | | | |].
  { split; [|split; [done|split; [done|split]]].
    - split; [done|]. split; [done|]. cbn. intros q0 Hq0. assert (q0 = q) as -> by congruence. by exists q'.
    - by eexists.
    - done. }
  { intros e Hne. rewrite elem_of_rewritten by done. split.
    - intros [[? _]| ->]; done.
    - intros He. left. split; [done|]. intros Ee. apply Hne. by rewrite (id_inj s (decls s) e d) by (apply Hst || congruence || done). }
  { intros e Eh. rewrite elem_of_rewritten by done. split; [intros [?| ->]; auto|intros [?|[= <-]]; auto]. }
  { exists d'. split; [|done]. apply elem_of_rewritten; auto. }
  exists s'. split; [|done]. unfold Declarations.handle_Update. rewrite Hf, Hget. fold h. rewrite String.eqb_refl, Hstart. cbn [negb].
  destruct (Z.ltb_spec asOf (day_of start)); [lia|]. rewrite Ei, E1.
  unfold UpdateDeclarationWithInitializeTx, UpdateHoldingDeclaration. rewrite Hid, Hnt. cbn [negb].
  unfold GetHoldingDeclaration in Hget. rewrite Hid in Hget. cbn [negb] in Hget. rewrite Hget, basis_left by done.
  fold h. fold d'. rewrite bool_decide_false by done. fold (rewritten id d' (decls s)). rewrite E2.
  do 2 f_equal. apply (pad_kind_shown init from d' s'). apply Hk; [|done]. apply elem_of_rewritten; auto.
Qed.

Lemma table_subset s ds ds' : table_ok s ds → sublist ds' ds → table_ok s ds'.
Proof using Type.
  intros [] Hsub. assert (∀ d, d ∈ ds' → d ∈ ds) as Hin by (intros d; by apply elem_of_sublist).
  split; [by eapply sublist_NoDup; [|by apply fmap_sublist]..|auto|auto|auto].
Qed.

Lemma no_siblings h ex start s : uuid_ok (hk_user h) = true →
  (∀ e, e ∈ decls s → d_holding e = h → ¬ d_ID e ≠ ex) →
  padAfterWrite uuid_ok parse_dec pg_div today h ex None start s = Some None.
Proof using Type.
  intros Hu Hno. unfold padAfterWrite. destruct (siblings uuid_ok h ex s Hu) as (all & -> & Hsib). cbn [mbind option_bind].
  cbn [option_list]. rewrite app_nil_r. destruct (holdingDeclarations all h ex) as [|e l] eqn:E; [done|]. exfalso.
  destruct (proj1 (Hsib e)) as (He & Eh & Ei); [left|]. by apply (Hno e).
Qed.

Lemma delete_step id s d : let h := d_holding d in
  stated s → settled (hk_user h) s → GetHoldingDeclaration uuid_ok id s = Some d →
  ∃ s', handle_Delete (hk_user h) id s = inr s' ∧ kept s s' ∧ decls s' = filter (λ e, d_ID e ≠ id) (decls s).
Proof using gen_fresh empty_not_ok pg_div_undoes H0.
  clear float_ok. intros h Hst Hset Hget. destruct (get_declaration _ _ _ Hget) as (Hid & Hd & Ei).
  destruct (tb_uuids _ _ _ _ (sd_table _ _ _ Hst) d Hd) as (_ & Huu & Hui). fold h in Huu, Hui.
  set (ds := filter (λ e, d_ID e ≠ id) (decls s)).
  assert (∀ e, e ∈ ds ↔ e ∈ decls s ∧ d_ID e ≠ id) as Hds by (intros e; unfold ds; rewrite list_elem_of_filter; tauto).
  assert (table_ok s ds) as Htb by (eapply table_subset; [apply Hst|apply sublist_filter]).
  assert (∀ e, d_holding e ≠ h → e ∈ ds ↔ e ∈ decls s) as Hoth.
  { intros e Hne. rewrite Hds. split; [tauto|]. intros He. split; [done|]. intros Ee. apply Hne.
    by rewrite (id_inj s (decls s) e d) by (apply Hst || congruence || done). }
  assert (DeleteHoldingDeclaration uuid_ok id s = Some (with_decls ds s)) as Edel.
  { unfold DeleteHoldingDeclaration. rewrite Hid. cbn [negb]. rewrite bool_decide_true; [done|].
    rewrite <- Ei. by apply list_elem_of_fmap_2. }
  assert (String.eqb id EmptyString = false) as Ene by (apply String.eqb_neq; congruence).
  unfold Declarations.handle_Delete. rewrite Ene, Hget. fold h. rewrite String.eqb_refl. cbn [negb]. rewrite Ei.
  assert (GetPortfolioStartDate uuid_ok (hk_user h) s = Some None ∨ (∀ e, e ∈ ds → d_holding e ≠ h) →
    ∃ s', DeleteDeclarationWithInitializeTx gen_uuid uuid_ok id h None s = Some s' ∧ kept s s' ∧ decls s' = ds) as Hnone.
  { intros Hn. destruct (delete_settles uuid_ok parse_dec pg_div today h s (with_decls ds s) ds)
      as (s' & E & Hpr & Hdd & Hst' & Hset' & Hrow); [done..|].
    exists s'. split; [|split; [|done]]; [unfold DeleteDeclarationWithInitializeTx; rewrite Edel; exact E|].
    split; [done|done|by apply (settled_all uuid_ok parse_dec pg_div today h)|].
    apply (orphans_kept h); [apply Hpr|by rewrite Hdd| |right]; intros t Ht; [right|]; by apply Hrow. }
  destruct (GetPortfolioStartDate uuid_ok (hk_user h) s) as [[start|]|] eqn:Es.
  - destruct (list_exist_dec (λ e, d_holding e = h) ds _) as [Hex|Hno].
    + destruct (pad_after_write h id None None start s ds) as (init & from & s' & E1 & E2 & Hkept & Hdd & _); [done..| |done|].
      { intros e Eh. rewrite Hds. split; [by left|]. intros [?|?]; done. }
      rewrite E1. cbn [fmap option_fmap option_map fst]. unfold DeleteDeclarationWithInitializeTx. rewrite Edel.
      cbn [mbind option_bind]. rewrite E2. by exists s'.
    + assert (∀ e, e ∈ ds → d_holding e ≠ h) as Hn by (intros e He Eh; apply Hno; by exists e).
      rewrite no_siblings; [|done|intros e He Eh Ee; apply (Hn e); [by apply Hds|done]].
      destruct (Hnone (or_intror Hn)) as (s' & E & ? & ?). cbn [fmap option_fmap option_map]. rewrite E. by exists s'.
  - destruct (Hnone (or_introl eq_refl)) as (s' & E & ? & ?). cbn [fmap option_fmap option_map]. rewrite E. by exists s'.
  - unfold GetPortfolioStartDate in Es. by rewrite Huu in Es.
Qed.
End handlers.

(** ** Recalculation *)

(** Steps that all succeed, tracked by what has been gone through. *)
Lemma each_tracked {D A} (f : A → state D → bool * state D) (P : list A → state D → Prop) l : ∀ s,
  (∀ k x r s, l = k ++ x :: r → P k s → ∃ s', f x s = (true, s') ∧ P (k ++ [x]) s') →
  P [] s → ∃ s', each f l s = (true, s') ∧ P l s'.
Proof.
  unfold each. intros s Hf H0. rewrite <- (rev_involutive l) in *.
  induction (rev l) as [|x k IH]; [by exists s|]. simpl in *.
  destruct IH as (s1 & E & H1).
  - intros k' x' r s1 El HP. apply (Hf k' x' (r ++ [x])); [|done]. rewrite El. by rewrite <- app_assoc.
  - rewrite foldl_app, E. simpl. apply (Hf (rev k) x []); done.
Qed.

Section recalculating.
Context {D : Type} `{DecimalLaws D}.
Context (gen_uuid : gset string → string) (uuid_ok : string → bool) (parse_dec : string → option D).
Context (pg_div : D → D → D) (today : Z).
Implicit Types (s : state D) (t : row D) (h : holding) (d : declaration).
#[local] Notation table_ok := (table_ok uuid_ok parse_dec).
#[local] Notation stated := (stated uuid_ok parse_dec).
#[local] Notation settled := (settled uuid_ok parse_dec pg_div today).
#[local] Notation settled_at := (settled_at uuid_ok parse_dec pg_div today).
#[local] Notation kept := (kept uuid_ok parse_dec pg_div today).

(** Pruning takes those declarations, and nothing else. *)
Lemma prune_spec (day : Z) (l : list declaration) s : table_ok s (decls s) → (∀ d, d ∈ l → d ∈ decls s) → NoDup l →
  ∃ s', pruneBeforeStart uuid_ok day l s = (true, s') ∧ redeclared s s' ∧
    decls s' = filter (λ e, ¬ (e ∈ l ∧ (d_AsOfDate e < day)%Z)) (decls s).
Proof.
  intros Htb Hl Hnd. unfold pruneBeforeStart.
  set (gone := filter (λ d, (d_AsOfDate d < day)%Z) l).
  assert (∀ d, d ∈ gone ↔ d ∈ l ∧ (d_AsOfDate d < day)%Z) as Hgone by (intros d; unfold gone; rewrite list_elem_of_filter; tauto).
  destruct (each_tracked (λ d, attempt (DeleteHoldingDeclaration uuid_ok (d_ID d)))
    (λ k s', redeclared s s' ∧ decls s' = filter (λ e, e ∉ k) (decls s)) gone s) as (s' & E & Hre & Ed).
  - intros k x r s1 Eg [(El & Es & Ei) Ed].
    assert (x ∈ gone) as Hx by (rewrite Eg; apply elem_of_app; right; left).
    assert (x ∈ decls s) as Hxs by (apply Hl; by apply Hgone).
    assert (x ∉ k) as Hxk.
    { intros Hxk. assert (NoDup gone) as Hn by (by apply NoDup_filter). rewrite Eg in Hn.
      apply NoDup_app in Hn as (_ & Hn & _). by apply (Hn x Hxk); left. }
    unfold attempt, DeleteHoldingDeclaration. rewrite (proj1 (tb_uuids _ _ _ _ Htb x Hxs)). cbn [negb].
    rewrite bool_decide_true; [|rewrite Ed; apply list_elem_of_fmap_2; by apply list_elem_of_filter].
    eexists. split; [done|]. split; [done|]. cbn [with_decls decls]. rewrite Ed, list_filter_filter.
    apply filter_ext_in. intros e He. rewrite elem_of_app, list_elem_of_singleton. split; [|intros Hn; split].
    + intros [Hi Hk] [?| ->]; done.
    + intros Ee. apply Hn. right. by apply (id_inj uuid_ok parse_dec s (decls s)).
    + intros Hk. apply Hn. by left.
  - split; [done|]. symmetry. apply filter_everything. intros e _. apply not_elem_of_nil.
  - exists s'. split; [exact E|]. split; [done|]. rewrite Ed. apply filter_ext_in. intros e _. by rewrite Hgone.
Qed.

(** The holdings left without a declaration lose their pads. *)
Lemma unpad_stage (f : holding → state D → bool * state D) (K hs : list holding) s :
  (∀ h s, f h s = if bool_decide (h ∈ K) then (true, s) else attempt (DeleteInitializeTx uuid_ok h) s) →
  stated s →
  (∀ h, h ∈ hs → uuid_ok (hk_user h) = true ∧ uuid_ok (hk_instrument h) = true ∧
     (h ∉ K → GetPortfolioStartDate uuid_ok (hk_user h) s = Some None ∨ ∀ d, d ∈ decls s → d_holding d ≠ h)) →
  ∃ s', each f hs s = (true, s') ∧ progress s s' ∧ stated s' ∧ decls s' = decls s ∧
    (∀ h, settled_at h s → settled_at h s') ∧
    ∀ t, t ∈ txs (ledger_of s') → t ∈ txs (ledger_of s) ∧ ∀ h, h ∈ hs → h ∉ K → pad_of h t = false.
Proof.
  intros Hf Hst Hhs. apply (each_tracked f (λ k s', progress s s' ∧ stated s' ∧ decls s' = decls s ∧
    (∀ h, settled_at h s → settled_at h s') ∧
    ∀ t, t ∈ txs (ledger_of s') → t ∈ txs (ledger_of s) ∧ ∀ h, h ∈ k → h ∉ K → pad_of h t = false)).
  - intros k h r s1 Eh (Hpr & Hst1 & Ed & Hset & Hrow).
    destruct (Hhs h) as (Hu & Hi & Hnone); [rewrite Eh; apply elem_of_app; right; left|].
    rewrite Hf. destruct (bool_decide_reflect (h ∈ K)) as [HK|HK].
    + exists s1. split; [done|]. split_and!; try done. intros t Ht. destruct (Hrow t Ht) as [Hts Hp]. split; [done|].
      intros h' [Hh'| ->%list_elem_of_singleton]%elem_of_app; [by apply Hp|done].
    + destruct (delete_settles uuid_ok parse_dec pg_div today h s1 s1 (decls s1))
        as (s' & E & Hpr' & Hd' & Hst' & Hset' & Hrow'); [done|apply Hst1|done|done|done|done|done| |].
      { rewrite (start_of_real uuid_ok _ s) by apply Hpr. rewrite Ed. by apply Hnone. }
      exists s'. unfold attempt. rewrite E. split; [done|]. split; [by eapply progress_trans|]. split; [done|].
      split; [congruence|]. split; [auto|]. intros t Ht. destruct (Hrow' t Ht) as [Hp Hts1]. destruct (Hrow t Hts1) as [Hts Hk].
      split; [done|]. intros h' [Hh'| ->%list_elem_of_singleton]%elem_of_app; [by apply Hk|done].
  - split_and!; try done; [by apply progress_refl, Hst|]. intros t Ht. split; [done|]. intros h Hh. by apply elem_of_nil in Hh.
Qed.

Hypothesis gen_fresh : ∀ X, gen_uuid X ∉ X.
Hypothesis pg_div_undoes : ∀ q n d : D, ¬ (dval (dec_mul d n) == 0)%Q →
  (dval (pg_div (dec_mul (dec_mul q n) d) (dec_mul d n)) == dval q)%Q.

(** One holding's pad, from what is kept of its declarations. *)
Lemma recalc_holding h start (K : list declaration) s : stated s →
  GetPortfolioStartDate uuid_ok (hk_user h) s = Some (Some start) →
  (∀ d, d_holding d = h → d ∈ K ↔ d ∈ decls s) → (∀ d, d ∈ K → (day_of start <= d_AsOfDate d)%Z) → h ∈ d_holding <$> K →
  ∃ pad s', padDeclaration (filter (λ d, d_holding d = h) K) = Some pad ∧
    recalcHoldingPad gen_uuid uuid_ok parse_dec pg_div today start pad s = (true, s') ∧
    progress s s' ∧ stated s' ∧ decls s' = decls s ∧ (∀ h', h' = h ∨ settled_at h' s → settled_at h' s') ∧
    ∀ t, t ∈ txs (ledger_of s') → pad_of h t = true ∨ t ∈ txs (ledger_of s).
Proof using gen_fresh pg_div_undoes H0.
  intros Hst Hstart HK Hle (d0 & Eh & Hd0)%list_elem_of_fmap.
  set (L := filter (λ d, d_holding d = h) K).
  assert (∀ d, d ∈ L ↔ d ∈ K ∧ d_holding d = h) as HL by (intros d; unfold L; rewrite list_elem_of_filter; tauto).
  destruct (padDeclaration_some L d0) as [pad Hpad]; [by apply HL|].
  destruct (padDeclaration_least _ _ Hpad) as [[HpK Hph]%HL _].
  destruct (tb_parses _ _ _ _ (sd_table _ _ _ Hst) pad) as [q Hq]; [by apply HK|].
  destruct (pad_settles gen_uuid uuid_ok parse_dec pg_div today gen_fresh pg_div_undoes h L pad q start s s (decls s))
    as (init & s' & E1 & E2 & Hpr & Hd & Hst' & Hset & _ & Hrow); try done; [apply Hst|by apply Hle| | | |].
  - intros e [He Eeh]%HL. exists e. split; [by apply HK|]. split; [done|]. apply same_claim_refl.
  - intros d Hd Edh. exists d. split; [apply HL; split; [by apply HK|done]|]. apply same_claim_refl.
  - intros e e' [He Eeh]%HL [He' Eeh']%HL Ea. apply (decl_key_inj uuid_ok parse_dec s (decls s)); [apply Hst|by apply HK..|congruence|done].
  - exists pad, s'. split; [done|]. split; [|by split_and!]. unfold recalcHoldingPad, attempt. rewrite Hph, E1.
    cbn [mbind option_bind]. by rewrite E2.
Qed.

Lemma repad_stage (start : Z) (user : string) (K : list declaration) hs s : stated s →
  GetPortfolioStartDate uuid_ok user s = Some (Some start) →
  (∀ d, d ∈ K ↔ d ∈ decls s ∧ hk_user (d_holding d) = user) → (∀ d, d ∈ K → (day_of start <= d_AsOfDate d)%Z) →
  (∀ h, h ∈ hs → h ∈ d_holding <$> K) →
  ∃ s', each (λ h, match padDeclaration (filter (λ d, d_holding d = h) K) with
      | Some pad => recalcHoldingPad gen_uuid uuid_ok parse_dec pg_div today start pad
      | None => λ s, (true, s)
      end) hs s = (true, s') ∧ progress s s' ∧ stated s' ∧ decls s' = decls s ∧
    (∀ h, h ∈ hs ∨ settled_at h s → settled_at h s') ∧
    ∀ t, t ∈ txs (ledger_of s') → (∃ h, h ∈ hs ∧ pad_of h t = true) ∨ t ∈ txs (ledger_of s).
Proof using gen_fresh pg_div_undoes H0.
  intros Hst Hstart HK Hle Hhs. apply (each_tracked _ (λ k s', progress s s' ∧ stated s' ∧ decls s' = decls s ∧
    (∀ h, h ∈ k ∨ settled_at h s → settled_at h s') ∧
    ∀ t, t ∈ txs (ledger_of s') → (∃ h, h ∈ k ∧ pad_of h t = true) ∨ t ∈ txs (ledger_of s))).
  - intros k h r s1 Eh (Hpr & Hst1 & Ed & Hset & Hrow).
    assert (h ∈ d_holding <$> K) as HhK by (apply Hhs; rewrite Eh; apply elem_of_app; right; left).
    assert (hk_user h = user) as Hu by (apply list_elem_of_fmap in HhK as (d & -> & [_ ?]%HK); done).
    destruct (recalc_holding h start K s1) as (pad & s' & Hpad & E & Hpr' & Hst' & Hd' & Hset' & Hrow'); try done.
    + rewrite Hu, (start_of_real uuid_ok _ s) by apply Hpr. done.
    + intros d Edh. rewrite HK, Ed, Edh. tauto.
    + exists s'. rewrite Hpad. split; [done|]. split; [by eapply progress_trans|]. split; [done|]. split; [congruence|]. split.
      * intros h' [[Hk| ->%list_elem_of_singleton]%elem_of_app|Hs]; auto.
      * intros t Ht. destruct (Hrow' t Ht) as [Hp|Hts].
        -- left. exists h. split; [apply elem_of_app; right; left|done].
        -- destruct (Hrow t Hts) as [(h' & Hh' & Hp)|?]; [|by right]. left. exists h'. split; [|done]. apply elem_of_app. by left.
  - split_and!; try done; [by apply progress_refl, Hst| |by right]. intros h [Hh|?]; [by apply elem_of_nil in Hh|done].
Qed.

Lemma redeclared_progress s s1 : pads_ok (ledger_of s) → redeclared s s1 → progress s s1.
Proof. intros Hok (El & Es & Ei). split; rewrite ?El; done. Qed.

(** What pruning leaves of the table. *)
Definition pruned (user : string) (start : option Z) (ds : list declaration) : list declaration :=
  match start with
  | Some start => filter (λ d, ¬ (hk_user (d_holding d) = user ∧ (d_AsOfDate d < day_of start)%Z)) ds
  | None => ds
  end.

Lemma pruned_stated user start s s1 : stated s → redeclared s s1 → decls s1 = pruned user (Some start) (decls s) →
  stated s1 ∧ progress s s1 ∧ ∀ h, hk_user h ≠ user → settled_at h s → settled_at h s1.
Proof.
  intros Hst Hre Ed. pose proof (redeclared_progress s s1 (sd_pads _ _ _ Hst) Hre) as Hpr. split; [|split; [done|]].
  - destruct Hre as (El & Es & Ei). split.
    + rewrite El. apply Hst.
    + intros x. rewrite Es. apply Hst.
    + destruct (table_subset uuid_ok parse_dec s (decls s) (decls s1)) as [Ha Hb Hc Hd He];
        [apply Hst|rewrite Ed; apply sublist_filter|].
      split; try done. intros d Hdd. rewrite Ei. by apply Hd.
  - intros h Hne. apply (settled_at_other uuid_ok parse_dec pg_div today h s s1); try done.
    + intros d <-. rewrite Ed. unfold pruned. rewrite list_elem_of_filter. tauto.
    + destruct Hre as (El & Es & Ei). apply (verify_other pg_div today); [done..|]. by rewrite El.
Qed.

Lemma listed user s : uuid_ok user = true → ∃ ds, ListHoldingDeclarations uuid_ok user s = Some ds ∧
  (∀ d, d ∈ ds ↔ d ∈ decls s ∧ hk_user (d_holding d) = user) ∧ (NoDup (decls s) → NoDup ds).
Proof.
  intros Hu. unfold ListHoldingDeclarations. rewrite Hu. cbn [negb]. eexists. split; [done|]. split.
  - intros d. rewrite elem_of_go_sort, list_elem_of_filter. tauto.
  - intros Hn. rewrite go_sort_perm. by apply NoDup_filter.
Qed.

Context (map_order : list holding → list holding).
Hypothesis map_order_perm : ∀ hs, map_order hs ≡ₚ hs.

Lemma elem_of_byHolding h (l : list declaration) : h ∈ byHolding map_order l ↔ h ∈ d_holding <$> l.
Proof using map_order_perm. unfold byHolding. by rewrite map_order_perm, elem_of_remove_dups. Qed.
#[local] Notation RecalcAll := (RecalcAllInitializeTxs gen_uuid uuid_ok parse_dec pg_div today map_order).

Lemma recalc_stages user s start (l K : list declaration) : stated s →
  GetPortfolioStartDate uuid_ok user s = Some (Some start) →
  (∀ d, d ∈ l ↔ d ∈ decls s ∧ hk_user (d_holding d) = user) → NoDup l →
  K = filter (λ d, ¬ (d_AsOfDate d < day_of start)%Z) l →
  ∃ s1 s2 s3, pruneBeforeStart uuid_ok (day_of start) l s = (true, s1) ∧
    each (λ h, if bool_decide (h ∈ d_holding <$> K) then λ s, (true, s) else attempt (DeleteInitializeTx uuid_ok h))
      (byHolding map_order l) s1 = (true, s2) ∧
    each (λ h, match padDeclaration (filter (λ d, d_holding d = h) K) with
      | Some pad => recalcHoldingPad gen_uuid uuid_ok parse_dec pg_div today start pad
      | None => λ s, (true, s)
      end) (byHolding map_order K) s2 = (true, s3) ∧
    progress s s3 ∧ stated s3 ∧ decls s3 = pruned user (Some start) (decls s) ∧
    (∀ h, h ∈ d_holding <$> K ∨ hk_user h ≠ user ∧ settled_at h s → settled_at h s3) ∧
    ∀ t, t ∈ txs (ledger_of s3) → (∃ h, h ∈ d_holding <$> K ∧ pad_of h t = true) ∨
      t ∈ txs (ledger_of s) ∧ ∀ h, h ∈ d_holding <$> l → h ∉ d_holding <$> K → pad_of h t = false.
Proof using gen_fresh pg_div_undoes map_order_perm H0.
  intros Hst Hstart Hl Hnd EK. destruct (starts_start uuid_ok _ _ _ Hstart) as [Hu _].
  destruct (prune_spec (day_of start) l s (sd_table _ _ _ Hst)) as (s1 & E1 & Hre1 & Ed1); [by intros d [? _]%Hl|done|].
  assert (decls s1 = pruned user (Some start) (decls s)) as Ep1.
  { rewrite Ed1. apply filter_ext_in. intros e He. rewrite Hl. tauto. }
  destruct (pruned_stated user start s s1 Hst Hre1 Ep1) as (Hst1 & Hpr1 & Hset1).
  assert (∀ d, d ∈ K ↔ d ∈ decls s1 ∧ hk_user (d_holding d) = user) as HK1.
  { intros d. rewrite EK, Ep1. unfold pruned. rewrite !list_elem_of_filter, Hl.
    destruct (Z.lt_decidable (d_AsOfDate d) (day_of start)); tauto. }
  destruct (unpad_stage (λ h, if bool_decide (h ∈ d_holding <$> K) then λ s, (true, s) else attempt (DeleteInitializeTx uuid_ok h))
    (d_holding <$> K) (byHolding map_order l) s1) as (s2 & E2 & Hpr2 & Hst2 & Ed2 & Hset2 & Hrow2); [|done| |].
  { intros h s0. by destruct (bool_decide _). }
  { intros h (d & -> & [Hd Eu]%Hl)%elem_of_byHolding%list_elem_of_fmap.
    destruct (tb_uuids _ _ _ _ (sd_table _ _ _ Hst) d Hd) as (_ & ? & ?). split_and!; try done. intros HhK. right.
    intros d' Hd' Eh. apply HhK. rewrite <- Eh. apply list_elem_of_fmap_2. apply HK1. split; [done|]. by rewrite Eh. }
  destruct (repad_stage start user K (byHolding map_order K) s2) as (s3 & E3 & Hpr3 & Hst3 & Ed3 & Hset3 & Hrow3); try done.
  { by rewrite (start_of_real uuid_ok user s) by (by rewrite (pr_real _ _ Hpr2), (pr_real _ _ Hpr1)). }
  { intros d. by rewrite Ed2. }
  { intros d Hd. rewrite EK in Hd. apply list_elem_of_filter in Hd as [Hd _]. lia. }
  { intros h Hh. by apply elem_of_byHolding. }
  exists s1, s2, s3. split_and!; try done; [|congruence| |].
  - eapply progress_trans; [exact Hpr1|by eapply progress_trans].
  - intros h [HhK|[Hne Hs]]; apply Hset3; [left; by apply elem_of_byHolding|right; apply Hset2; by apply Hset1].
  - intros t Ht. destruct (Hrow3 t Ht) as [(h & Hh%elem_of_byHolding & Hp)|Ht2]; [left; by exists h|right].
    destruct (Hrow2 t Ht2) as [Ht1 Hgone]. split; [destruct Hre1 as (E & _); by rewrite <- E|].
    intros h Hh. apply Hgone. by apply elem_of_byHolding.
Qed.

Lemma recalc_with_history user s start : stated s → GetPortfolioStartDate uuid_ok user s = Some (Some start) →
  ∃ s', RecalcAll user s = (true, s') ∧ kept s s' ∧ decls s' = pruned user (Some start) (decls s) ∧ settled user s'.
Proof using gen_fresh pg_div_undoes map_order_perm H0.
  intros Hst Hstart. destruct (starts_start uuid_ok _ _ _ Hstart) as [Hu _].
  destruct (listed user s Hu) as (l & El & Hl & Hnd).
  assert (NoDup (decls s)) as Hnds by (eapply NoDup_fmap_1, (tb_ids _ _ _ _ (sd_table _ _ _ Hst))).
  unfold RecalcAllInitializeTxs. rewrite El, Hstart. destruct (decide (l = [])) as [->|Hne].
  { assert (∀ d, d ∈ decls s → hk_user (d_holding d) ≠ user) as Hnone by (intros d Hd Eu; by apply (elem_of_nil d), Hl).
    exists s. split; [done|]. split; [|split].
    - split; [by apply progress_refl, Hst|done..].
    - symmetry. apply filter_everything. intros d Hd [? _]. by apply (Hnone d).
    - intros h <- start' _ d Hd Eh. exfalso. apply (Hnone d Hd). by rewrite Eh. }
  set (K := filter (λ d, ¬ (d_AsOfDate d < day_of start)%Z) l).
  destruct (recalc_stages user s start l K Hst Hstart Hl (Hnd Hnds) eq_refl)
    as (s1 & s2 & s3 & E1 & E2 & E3 & Hpr & Hst3 & Ed & Hset3 & Hrow).
  assert (∀ d, d ∈ K ↔ d ∈ decls s3 ∧ hk_user (d_holding d) = user) as HK.
  { intros d. unfold K. rewrite Ed. unfold pruned. rewrite !list_elem_of_filter, Hl.
    destruct (Z.lt_decidable (d_AsOfDate d) (day_of start)); tauto. }
  assert (settled user s3) as Hset.
  { intros h Eh. destruct (decide (h ∈ d_holding <$> K)) as [HhK|HhK]; [by apply Hset3; left|].
    intros start' _ d Hd Edh. exfalso. apply HhK. rewrite <- Edh. apply list_elem_of_fmap_2. apply HK.
    split; [done|by rewrite Edh]. }
  exists s3. split.
  { destruct l as [|d0 l0]; [done|]. fold K. rewrite E1. unfold then_ at 1. rewrite E2. unfold then_. exact E3. }
  split; [|done]. split; [done|done| |].
  - intros u Hs h Eh. destruct (decide (hk_user h = user)) as [Eu|Hneu]; [by apply Hset|].
    apply Hset3. right. split; [done|]. by apply Hs.
  - intros Hno t Ht Hp. destruct (Hrow t Ht) as [(h & Hh & Hpad)|[Hts Hgone]].
    { apply list_elem_of_fmap in Hh as (d & -> & Hd). exists d. split; [by apply HK|by apply pad_of_true in Hpad as (? & _)]. }
    destruct (Hno t Hts Hp) as (d & Hd & Hdp). destruct (decide (hk_user (d_holding d) = user)) as [Eu|Hneu].
    2: { exists d. split; [|done]. rewrite Ed. apply list_elem_of_filter. tauto. }
    destruct (decide (d_holding d ∈ d_holding <$> K)) as [(d' & Edd & Hd')%list_elem_of_fmap|HdK].
    { exists d'. rewrite <- Edd. split; [by apply HK|done]. }
    exfalso. assert (pad_of (d_holding d) t = false) as Hf by (apply Hgone; [apply list_elem_of_fmap_2; by apply Hl|done]).
    apply not_true_iff_false in Hf. apply Hf, pad_of_true. split; [done|]. split; [done|].
    by apply (po_legs _ (sd_pads _ _ _ Hst)).
Qed.

(** With no real posting left there is nothing to anchor a pad to. *)
Lemma recalc_without_history user s : stated s → GetPortfolioStartDate uuid_ok user s = Some None →
  ∃ s', RecalcAll user s = (true, s') ∧ kept s s' ∧ decls s' = decls s ∧ settled user s' ∧
    (no_orphans s → ∀ t, t ∈ txs (ledger_of s') → r_user t = user → r_purpose t ≠ Some InitializePurpose).
Proof using gen_fresh pg_div_undoes map_order_perm H0.
  intros Hst Hstart. assert (uuid_ok user = true) as Hu.
  { unfold GetPortfolioStartDate in Hstart. by destruct (uuid_ok user). }
  destruct (listed user s Hu) as (l & El & Hl & _).
  destruct (unpad_stage (λ h, attempt (DeleteInitializeTx uuid_ok h)) [] (byHolding map_order l) s)
    as (s' & E & Hpr & Hst' & Ed & Hset & Hrow); [done|done| |].
  { intros h (d & -> & [Hd Eu]%Hl)%elem_of_byHolding%list_elem_of_fmap.
    destruct (tb_uuids _ _ _ _ (sd_table _ _ _ Hst) d Hd) as (_ & ? & ?). split_and!; try done. intros _. left. by rewrite Eu. }
  exists s'. split_and!.
  - unfold RecalcAllInitializeTxs. rewrite El, Hstart. destruct l as [|d0 l0]; [|exact E].
    assert (byHolding map_order [] = []) as Enil.
    { apply Permutation_nil. symmetry. unfold byHolding. by rewrite map_order_perm. }
    rewrite Enil in E. exact E.
  - split; [done|done| |].
    + intros u Hs h Eh. by apply Hset, Hs.
    + intros Hno t Ht Hp. rewrite Ed. apply Hno; [by apply Hrow|done].
  - done.
  - intros h <- start Hs. exfalso. rewrite (start_of_real uuid_ok _ s) in Hs by apply Hpr. congruence.
  - intros Hno t Ht Eu Hp. destruct (Hrow t Ht) as [Hts Hgone]. destruct (Hno t Hts Hp) as (d & Hd & Hdp).
    assert (pad_of (d_holding d) t = false) as Hf.
    { apply Hgone; [|apply not_elem_of_nil]. apply elem_of_byHolding, list_elem_of_fmap_2, Hl. split; [done|].
      apply posting_of_true in Hdp as (<- & _). done. }
    apply not_true_iff_false in Hf. apply Hf, pad_of_true. split; [done|]. split; [done|].
    by apply (po_legs _ (sd_pads _ _ _ Hst)).
Qed.
End recalculating.

(** ** The declarations of a running service *)

Section service.
Context {D : Type} `{DecimalLaws D}.
Context (gen_uuid : gset string → string) (uuid_ok : string → bool) (parse_dec : string → option D).
Context (float_ok : string → bool) (numeric_text : string → option string).
Context (pg_div : D → D → D) (today : Z) (map_order : list holding → list holding).
Hypothesis gen_fresh : ∀ X, gen_uuid X ∉ X.
Hypothesis gen_ok : ∀ X, uuid_ok (gen_uuid X) = true.
Hypothesis empty_not_ok : uuid_ok EmptyString = false.
Hypothesis pg_div_undoes : ∀ q n d : D, ¬ (dval (dec_mul d n) == 0)%Q →
  (dval (pg_div (dec_mul (dec_mul q n) d) (dec_mul d n)) == dval q)%Q.
Hypothesis numeric_faithful : ∀ qty text q, numeric_text qty = Some text → parse_dec qty = Some q →
  ∃ q', parse_dec text = Some q' ∧ (dval q' == dval q)%Q.
Hypothesis map_order_perm : ∀ hs, map_order hs ≡ₚ hs.
Implicit Types (s : state D) (h : holding) (d : declaration).
#[local] Notation stated := (stated uuid_ok parse_dec).
#[local] Notation settled := (settled uuid_ok parse_dec pg_div today).
#[local] Notation kept := (kept uuid_ok parse_dec pg_div today).
#[local] Notation handle_Create := (handle_Create gen_uuid uuid_ok parse_dec float_ok numeric_text pg_div today).
#[local] Notation handle_Update := (handle_Update gen_uuid uuid_ok parse_dec float_ok numeric_text pg_div today).
#[local] Notation handle_Delete := (handle_Delete gen_uuid uuid_ok parse_dec pg_div today).
#[local] Notation RecalcAll := (RecalcAllInitializeTxs gen_uuid uuid_ok parse_dec pg_div today map_order).

(** A request that was answered, or a recalculation after an ingestion.  A quantity that
    passed [ParseFloat] and is not a decimal ([NaN]) is left out. *)
Inductive change : state D → state D → Prop :=
  | change_create h qty asOf basis s s' d k : is_Some (parse_dec qty) → basis ≠ Some zero_time →
      handle_Create h qty asOf basis s = inr (s', d, k) → change s s'
  | change_update user id qty asOf basis s s' d k : is_Some (parse_dec qty) → basis ≠ Some zero_time →
      handle_Update user id qty asOf basis s = inr (s', d, k) → change s s'
  | change_delete user id s s' : handle_Delete user id s = inr s' → change s s'
  | change_recalc user s s' : RecalcAll user s = (true, s') → change s s'.

Lemma create_inv h qty asOf basis s s' d k : handle_Create h qty asOf basis s = inr (s', d, k) →
  float_ok qty = true ∧ uuid_ok (hk_instrument h) = true ∧ is_Some (instruments (shop (mkt s)) !! hk_instrument h) ∧
  (h, asOf) ∉ decl_key <$> decls s ∧
  ∃ start text, GetPortfolioStartDate uuid_ok (hk_user h) s = Some (Some start) ∧ numeric_text qty = Some text ∧
    (day_of start <= asOf)%Z.
Proof.
  unfold Declarations.handle_Create, CreateDeclarationWithInitializeTx, CreateHoldingDeclaration. intros E.
  destruct (float_ok qty); [|done]. cbn [negb] in E.
  destruct (GetPortfolioStartDate _ _ _) as [[start|]|]; [|done..].
  destruct (Z.ltb_spec asOf (day_of start)); [done|].
  destruct (padAfterWrite _ _ _ _ _ _ _ _ _) as [[[init from]|]|]; [|done..].
  destruct (uuid_ok (hk_user h) && uuid_ok (hk_instrument h)) eqn:Eu; [|done]. cbn [negb] in E.
  destruct (numeric_text qty) as [text|]; [|done].
  destruct (bool_decide_reflect (is_Some (instruments (shop (mkt s)) !! hk_instrument h))); [|done]. cbn [negb] in E.
  destruct (bool_decide_reflect ((h, asOf) ∈ decl_key <$> decls s)); [done|].
  apply andb_true_iff in Eu as [_ Eu]. split_and!; try done. by exists start, text.
Qed.

Lemma update_inv user id qty asOf basis s s' d k : handle_Update user id qty asOf basis s = inr (s', d, k) →
  ∃ e start text, GetHoldingDeclaration uuid_ok id s = Some e ∧ hk_user (d_holding e) = user ∧ float_ok qty = true ∧
    GetPortfolioStartDate uuid_ok user s = Some (Some start) ∧ numeric_text qty = Some text ∧ (day_of start <= asOf)%Z ∧
    (d_holding e, asOf) ∉ decl_key <$> filter (λ x, d_ID x ≠ id) (decls s).
Proof.
  unfold Declarations.handle_Update, UpdateDeclarationWithInitializeTx, UpdateHoldingDeclaration. intros E.
  destruct (float_ok qty); [|done]. cbn [negb] in E.
  destruct (GetHoldingDeclaration uuid_ok id s) as [e|] eqn:Eg; [|done].
  destruct (String.eqb_spec (hk_user (d_holding e)) user) as [Eu|]; [|done]. cbn [negb] in E.
  destruct (GetPortfolioStartDate _ _ _) as [[start|]|]; [|done..].
  destruct (Z.ltb_spec asOf (day_of start)); [done|].
  destruct (padAfterWrite _ _ _ _ _ _ _ _ _) as [[[init from]|]|]; [|done..].
  destruct (uuid_ok id) eqn:Ei; [|done]. cbn [negb] in E. destruct (numeric_text qty) as [text|]; [|done].
  unfold GetHoldingDeclaration in Eg. rewrite Ei in Eg. cbn [negb] in Eg. rewrite Eg in E. cbn zeta in E.
  case_bool_decide as Hk; [done|]. exists e, start, text. by split_and!.
Qed.

Lemma delete_inv user id s s' : handle_Delete user id s = inr s' →
  ∃ e, GetHoldingDeclaration uuid_ok id s = Some e ∧ hk_user (d_holding e) = user.
Proof.
  unfold Declarations.handle_Delete. destruct (String.eqb id EmptyString); [done|].
  destruct (GetHoldingDeclaration _ _ _) as [e|]; [|done].
  destruct (String.eqb_spec (hk_user (d_holding e)) user); [|done]. intros _. by exists e.
Qed.

Lemma recalc_kept user s s' : RecalcAll user s = (true, s') → stated s → kept s s'.
Proof using gen_fresh pg_div_undoes map_order_perm H0.
  intros E Hst. destruct (GetPortfolioStartDate uuid_ok user s) as [[start|]|] eqn:Es.
  - destruct (recalc_with_history gen_uuid uuid_ok parse_dec pg_div today gen_fresh pg_div_undoes map_order map_order_perm
      user s start Hst Es) as (s1 & E1 & Hk & _). congruence.
  - destruct (recalc_without_history gen_uuid uuid_ok parse_dec pg_div today gen_fresh pg_div_undoes map_order map_order_perm
      user s Hst Es) as (s1 & E1 & Hk & _). congruence.
  - exfalso. unfold RecalcAllInitializeTxs, ListHoldingDeclarations in E. unfold GetPortfolioStartDate in Es.
    by destruct (uuid_ok user).
Qed.

Lemma change_kept s s' : change s s' → stated s → (∀ user, settled user s) → kept s s'.
Proof using gen_fresh gen_ok empty_not_ok pg_div_undoes numeric_faithful map_order_perm H0.
  intros Hch Hst Hset. destruct Hch as [h qty asOf basis s s' d k [q Hq] Hb E|user id qty asOf basis s s' d k [q Hq] Hb E
    |user id s s' E|user s s' E].
  - destruct (create_inv _ _ _ _ _ _ _ _ E) as (? & ? & ? & ? & start & text & ? & ? & ?).
    destruct (create_step gen_uuid uuid_ok parse_dec pg_div today gen_fresh pg_div_undoes float_ok numeric_text gen_ok
      empty_not_ok numeric_faithful h qty asOf basis s start text q) as (s1 & d1 & E1 & Hk & _); try done. congruence.
  - destruct (update_inv _ _ _ _ _ _ _ _ _ E) as (e & start & text & ? & <- & ? & ? & ? & ? & ?).
    destruct (update_step gen_uuid uuid_ok parse_dec pg_div today gen_fresh pg_div_undoes float_ok numeric_text
      numeric_faithful id qty asOf basis s e start text q) as (s1 & E1 & Hk & _); try done. congruence.
  - destruct (delete_inv _ _ _ _ E) as (e & ? & <-).
    destruct (delete_step gen_uuid uuid_ok parse_dec pg_div today gen_fresh pg_div_undoes
      empty_not_ok id s e) as (s1 & E1 & Hk & _); try done. congruence.
  - by apply recalc_kept with user.
Qed.

(** C8: The invariant of the declarations, over any sequence of answered requests and
    recalculations: of each holding the earliest declaration, the one shown as the pad,
    is exactly what the postings with the pad add up to in its own share count; no
    declaration is from before its user's history; no holding has a pad without a
    declaration; every group of postings that cancelled still does; and no real posting
    was touched. *)
Theorem declarations_stay_settled s s' : rtc change s s' →
  stated s → no_orphans s → (∀ user, settled user s) → (∀ g, balanced (ledger_of s) g) →
  stated s' ∧ no_orphans s' ∧ (∀ user, settled user s') ∧ (∀ g, balanced (ledger_of s') g) ∧
  real (ledger_of s') = real (ledger_of s).
Proof using gen_fresh gen_ok empty_not_ok pg_div_undoes numeric_faithful map_order_perm H0.
  induction 1 as [s|s1 s2 s3 Hch _ IH]; intros Hst Hno Hset Hb; [done|].
  pose proof (change_kept _ _ Hch Hst Hset) as Hk. rewrite <- (pr_real _ _ (kp_progress _ _ _ _ _ _ Hk)).
  apply IH; try apply Hk; try done. intros user. by apply Hk.
Qed.

(** C22: Recalculating a user's pads always finishes: it removes the declarations from
    before the history and no other, makes the earliest of every holding true, and leaves
    the other users' and the real postings as they were; without a history the
    declarations stay and the pads go. *)
Theorem recalc_reconciles user s : stated s → no_orphans s → uuid_ok user = true →
  ∃ start s', GetPortfolioStartDate uuid_ok user s = Some start ∧ RecalcAll user s = (true, s') ∧
    decls s' = pruned user start (decls s) ∧ settled user s' ∧ (∀ u, settled u s → settled u s') ∧
    (start = None → ∀ t, t ∈ txs (ledger_of s') → r_user t = user → r_purpose t ≠ Some InitializePurpose) ∧
    real (ledger_of s') = real (ledger_of s) ∧ ((∀ g, balanced (ledger_of s) g) → ∀ g, balanced (ledger_of s') g).
Proof using gen_fresh pg_div_undoes map_order_perm H0.
  intros Hst Hno Hu. destruct (GetPortfolioStartDate uuid_ok user s) as [[start|]|] eqn:Es.
  - destruct (recalc_with_history gen_uuid uuid_ok parse_dec pg_div today gen_fresh pg_div_undoes map_order map_order_perm
      user s start Hst Es) as (s1 & E1 & [Hpr _ Hset _] & Ed & Hs).
    exists (Some start), s1. split_and!; try done; apply Hpr.
  - destruct (recalc_without_history gen_uuid uuid_ok parse_dec pg_div today gen_fresh pg_div_undoes map_order map_order_perm
      user s Hst Es) as (s1 & E1 & [Hpr _ Hset _] & Ed & Hs & Hgone).
    exists None, s1. split_and!; try done; [intros _; by apply Hgone|apply Hpr..].
  - unfold GetPortfolioStartDate in Es. by rewrite Hu in Es.
Qed.
(** A pad can be worked out whenever the texts it may come from are numbers. *)
Lemma pad_computed h ex p start s : stated s → uuid_ok (hk_user h) = true → uuid_ok (hk_instrument h) = true →
  is_Some (parse_dec (d_DeclaredQty p)) →
  ∃ init from, padAfterWrite uuid_ok parse_dec pg_div today h ex (Some p) start s = Some (Some (init, from)).
Proof.
  intros Hst Hu Hi Hp. unfold padAfterWrite. destruct (siblings uuid_ok h ex s Hu) as (all & -> & Hsib).
  cbn [mbind option_bind]. change (option_list (Some p)) with [p].
  destruct (padDeclaration_some (holdingDeclarations all h ex ++ [p]) p) as [pad Hpad]; [apply elem_of_app; right; left|].
  rewrite Hpad. assert (is_Some (parse_dec (d_DeclaredQty pad))) as [q Hq].
  { destruct (padDeclaration_least _ _ Hpad) as [[[He _]%Hsib| ->%list_elem_of_singleton]%elem_of_app _]; [|done].
    by apply (tb_parses _ _ _ _ (sd_table _ _ _ Hst)). }
  unfold computeInitializeValues, ComputeRunningBalance. rewrite Hq, Hu, Hi. cbn [andb mbind option_bind]. by do 2 eexists.
Qed.

(** What creating a declaration answers: an error for a quantity that is no number, for
    a user without postings, for a date before the first of them and for a second
    declaration of a holding on a date - and otherwise the declaration is stored as it was
    asked for, and answered as the kind the table then shows it to be. *)
Theorem create_answers h qty asOf basis s text : stated s → settled (hk_user h) s →
  uuid_ok (hk_user h) = true → uuid_ok (hk_instrument h) = true →
  is_Some (instruments (shop (mkt s)) !! hk_instrument h) →
  numeric_text qty = Some text → is_Some (parse_dec qty) → basis ≠ Some zero_time →
  match GetPortfolioStartDate uuid_ok (hk_user h) s with
  | Some (Some start) =>
      if float_ok qty && (day_of start <=? asOf)%Z then
        if bool_decide ((h, asOf) ∈ decl_key <$> decls s) then handle_Create h qty asOf basis s = inl AlreadyExists
        else ∃ s' d, handle_Create h qty asOf basis s = inr (s', d, kind_of d s') ∧ decls s' = decls s ++ [d] ∧
          d_holding d = h ∧ d_AsOfDate d = asOf ∧ d_DeclaredQty d = text ∧ d_ShareCountBasis d = default asOf basis ∧
          (kind_of d s' = KindPad → holds_exactly parse_dec pg_div today d s')
      else handle_Create h qty asOf basis s = inl InvalidArgument
  | _ => handle_Create h qty asOf basis s = inl (if float_ok qty then FailedPrecondition else InvalidArgument)
  end.
Proof using gen_fresh gen_ok empty_not_ok pg_div_undoes numeric_faithful H0.
  intros Hst Hset Hu Hi Hin Hnt [q Hq] Hb. destruct (GetPortfolioStartDate uuid_ok (hk_user h) s) as [[start|]|] eqn:Es.
  3: { unfold GetPortfolioStartDate in Es. by rewrite Hu in Es. }
  2: { unfold Declarations.handle_Create. rewrite Es. by destruct (float_ok qty). }
  destruct (float_ok qty) eqn:Ef; cbn [andb].
  2: { unfold Declarations.handle_Create. by rewrite Ef. }
  destruct (Z.leb_spec (day_of start) asOf) as [Hle|Hlt].
  2: { unfold Declarations.handle_Create. rewrite Ef, Es. cbn [negb]. by destruct (Z.ltb_spec asOf (day_of start)); [|lia]. }
  destruct (bool_decide_reflect ((h, asOf) ∈ decl_key <$> decls s)) as [Hk|Hk].
  - destruct (pad_computed h EmptyString (pending_row h qty asOf (default asOf basis)) start s Hst Hu Hi) as (init & from & E);
      [by exists q|].
    unfold Declarations.handle_Create. rewrite Ef, Es. cbn [negb]. destruct (Z.ltb_spec asOf (day_of start)); [lia|].
    rewrite E. unfold CreateDeclarationWithInitializeTx, CreateHoldingDeclaration. rewrite Hu, Hi, Hnt. cbn [andb negb].
    by rewrite !bool_decide_true.
  - destruct (create_step gen_uuid uuid_ok parse_dec pg_div today gen_fresh pg_div_undoes float_ok numeric_text gen_ok
      empty_not_ok numeric_faithful h qty asOf basis s start text q) as (s' & d & E & Hkept & Hd & Eh & Ea & Et & Eb); try done.
    exists s', d. split_and!; try done. intros Hpad.
    apply (kp_settled _ _ _ _ _ _ Hkept (hk_user h) Hset h eq_refl start); [| |done|done].
    + by rewrite (start_of_real uuid_ok _ s) by apply Hkept.
    + rewrite Hd. apply elem_of_app. right. by left.
Qed.
End service.

(** ** A user and their declarations *)

Section witnesses.
#[local] Existing Instances QDecimal.q_decimal QDecimal.q_decimal_laws.

Definition posted (n acct : string) (q : Q) : row Q := {|
  r_id := n; r_user := "u"; r_broker := "IBKR"; r_account := "a"; r_order_date := day_start (Calendar.Date 2020 1 10);
  r_trade_date := day_start (Calendar.Date 2020 1 10); r_description := "AAPL"; r_broker_types := []; r_resolved := "TRADE";
  r_asset_class := None; r_quantity := q; r_trading := None; r_settlement := None; r_unit_price := None;
  r_settlement_amount := None; r_instrument := Some "aapl"; r_share_basis := None; r_account_type := acct; r_purpose := None;
  r_weight := q; r_commodity := InstrumentPrefix +:+ "aapl"; r_group := "g"; r_correlations := [] |}.

(** Ten shares received before a four for one split. *)
Definition sample_state : state Q := {|
  mkt := {|
    shop := {| instruments := <["aapl" := stock 1]> ∅; identifiers := []; declared := [];
               book := {| txs := [posted "t1" "USER" 10; posted "t2" "EQUITY" (-10)];
                          tx_groups := <["g" := {| g_user := "u"; g_timestamp := 0; g_job := None |}]> ∅;
                          transfer_matches := [] |} |};
    stock_splits := [four_for_one]; eod_prices := ∅; adjusted_txs := ∅; adjusted_prices := ∅; unhandled := [] |};
  decls := [] |}.

Definition aapl_held : holding := {| hk_user := "u"; hk_broker := "IBKR"; hk_account := "a"; hk_instrument := "aapl" |}.
Definition anything (_ : string) : bool := true.
Definition sample_create (qty : string) (asOf : Z) (s : state Q) :=
  handle_Create sample_gen sample_ok sample_parse anything Some Qdiv day_2024 aapl_held qty asOf None s.
Definition sample_recalc (s : state Q) :=
  RecalcAllInitializeTxs sample_gen sample_ok sample_parse Qdiv day_2024 id "u" s.

Definition after_create (qty : string) (asOf : Z) (s : state Q) : state Q :=
  match sample_create qty asOf s with inr (s', _, _) => s' | inl _ => s end.

(** Seven on the first of February, and a hundred a month later. *)
Definition declared_once : state Q := after_create "7" (Calendar.Date 2020 2 1) sample_state.
Definition declared_twice : state Q := after_create "100" (Calendar.Date 2020 3 1) declared_once.
Definition first_id : string := sample_gen ∅.
Definition promoted : state Q :=
  match handle_Delete sample_gen sample_ok sample_parse Qdiv day_2024 "u" first_id declared_twice with inr s => s | inl _ => declared_twice end.

Definition pads (s : state Q) : list (string * Q) :=
  (λ t, (r_account_type t, Qred (r_quantity t))) <$> filter (λ t, r_purpose t = Some InitializePurpose) (txs (ledger_of s)).
Definition shown (s : state Q) : list (string * DeclarationKind * Q) :=
  (λ d, (d_DeclaredQty d, kind_of d s, Qred (dc_ComputedQty (verify Qdiv day_2024 d s)))) <$> decls s.

(** The assertion of a hundred is off by the pad of the first declaration, until deleting
    that one makes it the pad. *)
Example sample_run :
  (pads declared_twice, shown declared_twice)
    = ([("USER", -3 # 1)%Q; ("EQUITY", 3 # 1)%Q], [("7", KindPad, 7 # 1); ("100", KindAssert, 7 # 1)]%Q) ∧
  (pads promoted, shown promoted) = ([("USER", 90 # 1)%Q; ("EQUITY", -90 # 1)%Q], [("100", KindPad, 100 # 1)]%Q).
Proof. by vm_compute. Qed.

Lemma sample_stated : stated sample_ok sample_parse sample_state.
Proof.
  split.
  - apply pads_ok_none; intros t Ht; unfold ledger_of in Ht; cbn [mkt shop book sample_state txs] in Ht;
      rewrite !elem_of_cons, elem_of_nil in Ht; by destruct Ht as [->|[->|[]]].
  - intros x Hx. cbn [stock_splits mkt sample_state] in Hx. apply list_elem_of_singleton in Hx as ->. by vm_compute.
  - split; cbn [decls sample_state]; try apply NoDup_nil_2; by intros d ?%elem_of_nil.
Qed.

Lemma sample_no_orphans : no_orphans sample_state.
Proof.
  intros t Ht. unfold ledger_of in Ht. cbn [mkt shop book sample_state txs] in Ht.
  rewrite !elem_of_cons, elem_of_nil in Ht. by destruct Ht as [->|[->|[]]].
Qed.

Lemma sample_settled user : settled sample_ok sample_parse Qdiv day_2024 user sample_state.
Proof. intros h _ start _ d Hd. by apply elem_of_nil in Hd. Qed.

Lemma sample_balanced g : balanced (ledger_of sample_state) g.
Proof.
  intros c. unfold residual_of, rows_in, ledger_of. cbn [mkt shop book sample_state txs].
  rewrite !filter_cons. cbn [posted r_group r_commodity]. case_decide; by vm_compute.
Qed.

Lemma qdiv_undoes (q n d : Q) : ¬ (dval (dec_mul d n) == 0)%Q → (dval (Qdiv (dec_mul (dec_mul q n) d) (dec_mul d n)) == dval q)%Q.
Proof.
  change (¬ (d * n == 0) → (q * n) * d / (d * n) == q)%Q. intros Hne. assert (d * n / (d * n) == 1)%Q as E by by apply Qmult_inv_r.
  transitivity (q * (d * n / (d * n)))%Q; [unfold Qdiv; ring|]. rewrite E. ring.
Qed.

Lemma sample_faithful qty text q : Some qty = Some text → sample_parse qty = Some q →
  ∃ q', sample_parse text = Some q' ∧ (dval q' == dval q)%Q.
Proof. intros [= <-] E. by exists q. Qed.

Lemma declarations_stay_settled_witness :
  settled sample_ok sample_parse Qdiv day_2024 "u" promoted ∧ ∀ g, balanced (ledger_of promoted) g.
Proof.
  destruct (declarations_stay_settled sample_gen sample_ok sample_parse anything Some Qdiv day_2024 id sample_gen_fresh
    sample_gen_ok eq_refl qdiv_undoes sample_faithful (λ hs, reflexivity hs) sample_state promoted) as (_ & _ & Hset & Hb & _).
  - eapply rtc_l; [eapply (change_create _ _ _ _ _ _ _ _ aapl_held "7" (Calendar.Date 2020 2 1) None _ declared_once); [by eexists|done|by vm_compute]|].
    eapply rtc_l; [eapply (change_create _ _ _ _ _ _ _ _ aapl_held "100" (Calendar.Date 2020 3 1) None _ declared_twice); [by eexists|done|by vm_compute]|].
    apply rtc_once. apply (change_delete _ _ _ _ _ _ _ _ "u" first_id). by vm_compute.
  - exact sample_stated.
  - exact sample_no_orphans.
  - exact sample_settled.
  - exact sample_balanced.
  - split; [apply Hset|exact Hb].
Defined.

Lemma recalc_reconciles_witness : ∃ s', sample_recalc sample_state = (true, s') ∧ real (ledger_of s') = real (ledger_of sample_state).
Proof.
  destruct (recalc_reconciles sample_gen sample_ok sample_parse Qdiv day_2024 id sample_gen_fresh qdiv_undoes
    (λ hs, reflexivity hs) "u" sample_state sample_stated sample_no_orphans eq_refl) as (start & s' & _ & E & _ & _ & _ & _ & Hr & _).
  by exists s'.
Defined.

Lemma create_answers_witness :
  ∃ s' d, sample_create "7" (Calendar.Date 2020 2 1) sample_state = inr (s', d, kind_of d s') ∧ d_DeclaredQty d = "7".
Proof.
  destruct (create_answers sample_gen sample_ok sample_parse anything Some Qdiv day_2024 sample_gen_fresh sample_gen_ok eq_refl
    qdiv_undoes sample_faithful aapl_held "7" (Calendar.Date 2020 2 1) None sample_state "7") as (s' & d & E & _ & _ & _ & Et & _).
  - exact sample_stated.
  - apply sample_settled.
  - done.
  - done.
  - by eexists.
  - done.
  - by eexists.
  - done.
  - by exists s', d.
Defined.

(** A quantity [ParseFloat] takes and the decimals do not can be asserted, and from the
    day it is the earliest of its holding nothing can be written of that holding and
    the user's recalculation fails, with what it pruned already gone. *)
Definition with_nan : state Q := after_create "NaN" (Calendar.Date 2020 3 1) declared_once.
Definition later_history : state Q :=
  with_book {| txs := (λ t, {| r_id := r_id t; r_user := r_user t; r_broker := r_broker t; r_account := r_account t;
      r_order_date := day_start (Calendar.Date 2020 2 15); r_trade_date := r_trade_date t; r_description := r_description t;
      r_broker_types := r_broker_types t; r_resolved := r_resolved t; r_asset_class := r_asset_class t; r_quantity := r_quantity t;
      r_trading := r_trading t; r_settlement := r_settlement t; r_unit_price := r_unit_price t;
      r_settlement_amount := r_settlement_amount t; r_instrument := r_instrument t; r_share_basis := r_share_basis t;
      r_account_type := r_account_type t; r_purpose := r_purpose t; r_weight := r_weight t; r_commodity := r_commodity t;
      r_group := r_group t; r_correlations := r_correlations t |}) <$> txs (ledger_of with_nan);
    tx_groups := tx_groups (ledger_of with_nan); transfer_matches := [] |} with_nan.

Lemma nan_blocks_a_holding :
  d_DeclaredQty <$> decls with_nan = ["7"; "NaN"] ∧
  handle_Delete sample_gen sample_ok sample_parse Qdiv day_2024 "u" first_id with_nan = inl Internal ∧
  (sample_recalc later_history).1 = false ∧ d_DeclaredQty <$> decls (sample_recalc later_history).2 = ["NaN"].
Proof. by vm_compute. Qed.

(** A pad is stored with its own quantity as the adjusted one, whatever has split since
    its share count, and stays so until the instrument is recomputed. *)
Lemma pad_is_not_adjusted :
  (λ t, adj_quantity <$> adjusted_txs (mkt declared_once) !! r_id t) <$> filter (λ t, pad_of aapl_held t = true) (txs (ledger_of declared_once))
    = [Some (to_column (-3)%Q); Some (to_column 3%Q)] ∧
  (λ m : market Q, (λ t, adj_quantity <$> adjusted_txs m !! r_id t) <$> filter (λ t, pad_of aapl_held t = true) (txs (book (shop m))))
    <$> RecomputeSplitAdjustments sample_ok Qdiv day_2024 "aapl" (mkt declared_once)
    = Some [Some (to_column (-12)%Q); Some (to_column 12%Q)].
Proof. by vm_compute. Qed.
End witnesses.
End Reconcile.
