(* ===== verification/Identity.v ===== *)
(** * Identifiers and what they say

    server/identifier (types.go, idtype.go, hints.go, ticker.go) and the comparisons of
    server/service/identification/resolve.go: the vocabulary of identifier types, what a
    venue permits, and how a provider's answer is compared with what a source stated and
    with another provider's answer.

    Text is bytes and codes are ASCII: [EqualFold] folds ASCII letters.  [normMIC] is the
    lookup of an operating MIC, [countryOf] that of a MIC's country. *)

From Stdlib Require Import Ascii.
From S2P Require Import Prelude GoStrings.

Local Open Scope nat_scope.

Module Identity.
Import GoStrings.

(** ** The vocabulary *)

Inductive Scope := ScopeUnknown | ScopeGlobal | ScopeBroker | ScopeDescription.
Inductive Reassignment := ReassignUnknown | ReassignRare | ReassignRoutine.
Inductive Grain := GrainUnknown | GrainSecurity | GrainListing.

#[export] Instance Grain_eq_dec : EqDecision Grain.
Proof. solve_decision. Defined.
#[export] Instance Reassignment_eq_dec : EqDecision Reassignment.
Proof. solve_decision. Defined.

Record TypeProps := { tp_Scope : Scope; tp_Reassignment : Reassignment; tp_Grain : Grain }.

Definition idTypes : gmap string TypeProps :=
  let p s r g := {| tp_Scope := s; tp_Reassignment := r; tp_Grain := g |} in
  list_to_map [
    ("ISIN", p ScopeGlobal ReassignRare GrainSecurity);
    ("CUSIP", p ScopeGlobal ReassignRare GrainSecurity);
    ("SEDOL", p ScopeGlobal ReassignRare GrainSecurity);
    ("CINS", p ScopeGlobal ReassignRare GrainSecurity);
    ("WERTPAPIER", p ScopeGlobal ReassignRare GrainSecurity);
    ("OPENFIGI_SHARE_CLASS", p ScopeGlobal ReassignRare GrainSecurity);
    ("OPENFIGI_COMPOSITE", p ScopeGlobal ReassignRare GrainSecurity);
    ("MIC_TICKER", p ScopeGlobal ReassignRoutine GrainListing);
    ("OPENFIGI_TICKER", p ScopeGlobal ReassignRoutine GrainListing);
    ("OCC", p ScopeGlobal ReassignRoutine GrainSecurity);
    ("OPRA", p ScopeGlobal ReassignRoutine GrainSecurity);
    ("FUT_OPT", p ScopeGlobal ReassignRoutine GrainSecurity);
    ("CURRENCY", p ScopeGlobal ReassignRoutine GrainSecurity);
    ("FX_PAIR", p ScopeGlobal ReassignRoutine GrainSecurity);
    ("BROKER_DESCRIPTION", p ScopeDescription ReassignRoutine GrainSecurity)].

Definition Props (t : string) : option TypeProps := idTypes !! t.

Definition Known (t : string) : bool := bool_decide (is_Some (idTypes !! t)).

Definition NamesAListing (t : string) : bool :=
  match idTypes !! t with Some p => bool_decide (tp_Grain p = GrainListing) | None => false end.

Definition MayMediate (t : string) (systemOwned : bool) : bool :=
  systemOwned && match idTypes !! t with Some p => bool_decide (tp_Reassignment p = ReassignRare) | None => false end.

(** ** Identifiers and instruments *)

Record Identifier := { id_Type : string; id_Domain : string; id_Value : string }.

#[export] Instance Identifier_eq_dec : EqDecision Identifier.
Proof. solve_decision. Defined.

Definition NUL : string := String Ascii.zero EmptyString.

Definition Key (i : Identifier) : string := id_Type i +:+ NUL +:+ id_Domain i +:+ NUL +:+ id_Value i.

Record ProviderIdentifier := { pi_Provider : string; pi_Type : string; pi_Domain : string; pi_Value : string }.

Record Venue := { MIC : string; Country : string }.

Record Instrument := {
  in_AssetClass : string;
  in_Venue : Venue;
  in_Currency : string;
  in_Name : string;
  in_CIK : string;
  in_SICCode : string;
  in_UnderlyingIdentifiers : list Identifier;
  in_ProviderIdentifiers : list ProviderIdentifier;
  in_ValidFrom : option Z;
  in_ValidBefore : option Z;
}.

Record Hints := { h_Currency : string; h_InstrumentKind : string; h_SecurityTypeHint : string }.

Record Identity := { Stated : list Identifier; Proposed : list Identifier; id_Hints : Hints }.

Record HintDiff := { hd_Field : string; hd_HintValue : string; hd_ResolvedValue : string }.

Definition SecurityTypeHintUnknown : string := "UNKNOWN".

Definition no_hints : Hints :=
  {| h_Currency := EmptyString; h_InstrumentKind := EmptyString; h_SecurityTypeHint := EmptyString |}.

(** ** Venues *)

Definition empty (s : string) : bool := String.eqb s EmptyString.

Definition venue_known (v : Venue) : bool := negb (empty (MIC v)) || negb (empty (Country v)).

Definition Permits (countryOf : string → string) (v : Venue) (mic : string) : bool :=
  if negb (venue_known v) || empty mic then true
  else if negb (empty (MIC v)) then EqualFold (MIC v) mic
  else let c := countryOf mic in
       if empty c then true else EqualFold (Country v) c.

Definition Agrees (countryOf : string → string) (v other : Venue) : bool :=
  if negb (Permits countryOf v (MIC other)) || negb (Permits countryOf other (MIC v)) then false
  else if negb (empty (Country v)) && negb (empty (Country other)) then EqualFold (Country v) (Country other)
  else true.

(** ** Hints *)

Definition UnderlyingSecTypeHint (derivativeAssetClass : string) : string :=
  if String.eqb derivativeAssetClass "OPTION" || String.eqb derivativeAssetClass "FUTURE" then "STOCK" else EmptyString.

(** An absent map is one without keys. *)
Definition ShouldAttemptPlugin (acceptableKinds acceptableTypes : gset string) (kind secType : string) : bool :=
  if negb (bool_decide (acceptableKinds = ∅)) && negb (empty kind) && negb (bool_decide (kind ∈ acceptableKinds)) then false
  else if negb (bool_decide (acceptableTypes = ∅)) && negb (empty secType) && negb (String.eqb secType SecurityTypeHintUnknown)
          && negb (bool_decide (secType ∈ acceptableTypes)) then false
  else true.

Definition is_sep (a : ascii) : bool :=
  Ascii.eqb a "." || Ascii.eqb a "-" || Ascii.eqb a "/" || Ascii.eqb a " ".

(** The separators are ASCII, so mapping runes is mapping bytes. *)
Fixpoint NormalizeSplitTicker (ticker preferredSep : string) : string :=
  match ticker with
  | EmptyString => EmptyString
  | String a s =>
      let s := NormalizeSplitTicker s preferredSep in
      if is_sep a then match preferredSep with EmptyString => s | String p _ => String p s end else String a s
  end.

(** ** Comparing identifiers *)

Section compare.
Context (normMIC : string → string) (countryOf : string → string).
Implicit Types (a b : Identifier) (inst : Instrument).

Definition normalizeVenue (v : Venue) : Venue := {| MIC := normMIC (MIC v); Country := Country v |}.

Definition domainOf (i : Identifier) : string :=
  if String.eqb (id_Type i) "MIC_TICKER" then normMIC (id_Domain i) else id_Domain i.

Definition sameSubject a b : bool := String.eqb (id_Type a) (id_Type b) && EqualFold (domainOf a) (domainOf b).

Definition contradicts a b : bool :=
  if negb (String.eqb (id_Type a) (id_Type b)) then false
  else if NamesAListing (id_Type a) && negb (empty (id_Domain a)) && negb (empty (id_Domain b))
          && negb (EqualFold (domainOf a) (domainOf b)) then true
  else sameSubject a b && negb (String.eqb (id_Value a) (id_Value b)).

(** ** An answer against what was stated *)

Definition states_type (t : string) : bool := negb (empty t) && negb (String.eqb t SecurityTypeHintUnknown).

Definition names_venue (i : Identifier) : bool := String.eqb (id_Type i) "MIC_TICKER" && negb (empty (id_Domain i)).

Definition on_venue inst (i : Identifier) : bool := EqualFold (normMIC (id_Domain i)) (normMIC (MIC (in_Venue inst))).

(** The first stated ticker of another venue, when none is of the instrument's. *)
Definition stated_elsewhere inst (ids : list Identifier) : option Identifier :=
  let ts := filter (λ i, names_venue i = true) ids in
  if existsb (on_venue inst) ts then None else head ts.

(** The resolved identifier a hint is compared with. *)
Definition compared (i : Identifier) (resolvedIDs : list Identifier) : option Identifier :=
  if empty (id_Value i) then None
  else head (filter (λ r, negb (empty (id_Value r)) && sameSubject i r = true) resolvedIDs).

Definition CompareHints (hints : Hints) (identifierHints : list Identifier) inst (resolvedIDs : list Identifier) : list HintDiff :=
  (if negb (empty (h_Currency hints)) && negb (empty (in_Currency inst)) && negb (EqualFold (h_Currency hints) (in_Currency inst))
   then [{| hd_Field := "Currency"; hd_HintValue := h_Currency hints; hd_ResolvedValue := in_Currency inst |}] else [])
  ++ (if states_type (h_SecurityTypeHint hints) && states_type (in_AssetClass inst)
         && negb (EqualFold (h_SecurityTypeHint hints) (in_AssetClass inst))
      then [{| hd_Field := "SecurityType"; hd_HintValue := h_SecurityTypeHint hints; hd_ResolvedValue := in_AssetClass inst |}] else [])
  ++ (if negb (empty (MIC (in_Venue inst)))
      then match stated_elsewhere inst identifierHints with
           | Some i => [{| hd_Field := "Exchange"; hd_HintValue := id_Domain i; hd_ResolvedValue := MIC (in_Venue inst) |}]
           | None => []
           end else [])
  ++ (i ← identifierHints;
      match compared i resolvedIDs with
      | Some r => if String.eqb (id_Value r) (id_Value i) then []
                  else [{| hd_Field := id_Type i; hd_HintValue := id_Value i; hd_ResolvedValue := id_Value r |}]
      | None => []
      end).

(** What an identification plugin answered. *)
Definition resultMatchesHints (hints : Hints) (identifierHints : list Identifier) inst (ids : list Identifier) : bool :=
  match CompareHints hints identifierHints inst ids with
  | _ :: _ => false
  | [] =>
      (negb (empty (h_Currency hints)) && negb (empty (in_Currency inst)))
      || (states_type (h_SecurityTypeHint hints) && states_type (in_AssetClass inst))
      || (negb (empty (MIC (in_Venue inst))) && existsb names_venue identifierHints)
      || existsb (λ i, bool_decide (is_Some (compared i ids))) identifierHints
  end.

Definition confirmedFields (hints : Hints) (stated : list Identifier) inst (resolvedIDs : list Identifier) : list string :=
  (if negb (empty (h_Currency hints)) && negb (empty (in_Currency inst)) && EqualFold (h_Currency hints) (in_Currency inst)
   then ["Currency"] else [])
  ++ (if states_type (h_SecurityTypeHint hints) && states_type (in_AssetClass inst)
         && EqualFold (h_SecurityTypeHint hints) (in_AssetClass inst) then ["SecurityType"] else [])
  ++ (if negb (empty (MIC (in_Venue inst))) && existsb (λ i, names_venue i && on_venue inst i) stated then ["Exchange"] else [])
  ++ (i ← stated;
      if negb (empty (id_Value i)) && existsb (λ r, String.eqb (id_Value r) (id_Value i) && sameSubject i r) resolvedIDs
      then [id_Type i] else []).

(** ** Proposals *)

Inductive proposal_outcome := FieldUnused | FieldUntested | FieldConfirmed | FieldContradicted.

Record ProposalOutcome := { po_Identifier : Identifier; po_Outcome : proposal_outcome }.

(** The last value of a type. *)
Definition by_type (resolvedIDs : list Identifier) : gmap string string :=
  foldl (λ m i, if empty (id_Value i) then m else <[id_Type i := id_Value i]> m) ∅ resolvedIDs.

Definition proposalOutcome (p : Identifier) inst (byType : gmap string string) : proposal_outcome :=
  if String.eqb (id_Type p) "CURRENCY" then
    if empty (in_Currency inst) then FieldUntested
    else if EqualFold (in_Currency inst) (id_Value p) then FieldConfirmed else FieldContradicted
  else
    let resolved := byType !! id_Type p in
    if match resolved with Some v => negb (EqualFold v (id_Value p)) | None => false end then FieldContradicted
    else if negb (empty (id_Domain p)) && negb (empty (MIC (in_Venue inst))) && negb (on_venue inst p) then FieldContradicted
    else match resolved with Some _ => FieldConfirmed | None => FieldUntested end.

Definition proposalOutcomes (proposed : list Identifier) (inst : option Instrument) (resolvedIDs : list Identifier) : list ProposalOutcome :=
  match inst with
  | None => (λ p, {| po_Identifier := p; po_Outcome := FieldUnused |}) <$> proposed
  | Some inst => (λ p, {| po_Identifier := p; po_Outcome := proposalOutcome p inst (by_type resolvedIDs) |}) <$> proposed
  end.

(** ** One answer against another *)

(** The winner names it too, or names nothing that cannot be true beside it. *)
Definition compatible (winner_ids : list Identifier) (o : Identifier) : bool :=
  existsb (λ w, sameSubject w o && String.eqb (id_Value w) (id_Value o)) winner_ids
  || negb (existsb (λ w, contradicts w o) winner_ids).

Definition consistentWith (winner : Instrument) (winner_ids : list Identifier) (other : Instrument) (other_ids : list Identifier) : bool :=
  if negb (empty (in_Currency winner)) && negb (empty (in_Currency other)) && negb (EqualFold (in_Currency winner) (in_Currency other))
  then false
  else if negb (Agrees countryOf (normalizeVenue (in_Venue winner)) (normalizeVenue (in_Venue other))) then false
  else forallb (compatible winner_ids) other_ids.

(** What a consistent answer fills in of the winner's. *)
Definition or_else (s t : string) : string := if empty s then t else s.

Definition fillBlanks (dst src : Instrument) : Instrument :=
  let mic := if empty (MIC (in_Venue dst)) && negb (empty (MIC (in_Venue src)))
                && Permits countryOf (in_Venue dst) (normMIC (MIC (in_Venue src)))
             then MIC (in_Venue src) else MIC (in_Venue dst) in
  {| in_AssetClass := in_AssetClass dst;
     in_Venue := {| MIC := mic; Country := or_else (Country (in_Venue dst)) (Country (in_Venue src)) |};
     in_Currency := if empty (in_Currency dst) && negb (empty (in_Currency src))
                       && (empty mic || EqualFold (normMIC mic) (normMIC (MIC (in_Venue src))))
                    then in_Currency src else in_Currency dst;
     in_Name := or_else (in_Name dst) (in_Name src);
     in_CIK := or_else (in_CIK dst) (in_CIK src);
     in_SICCode := or_else (in_SICCode dst) (in_SICCode src);
     in_UnderlyingIdentifiers := in_UnderlyingIdentifiers dst;
     in_ProviderIdentifiers := in_ProviderIdentifiers dst;
     in_ValidFrom := in_ValidFrom dst;
     in_ValidBefore := in_ValidBefore dst |}.
End compare.
(** ** Laws of the comparisons *)

Lemma EqualFold_refl s : EqualFold s s = true.
Proof. apply String.eqb_refl. Qed.

Lemma EqualFold_sym s t : EqualFold s t = EqualFold t s.
Proof. apply String.eqb_sym. Qed.

Lemma EqualFold_trans s t u : EqualFold s t = true → EqualFold t u = true → EqualFold s u = true.
Proof. unfold EqualFold. by intros ->%String.eqb_eq. Qed.

Lemma EqualFold_left s t u : EqualFold s t = true → EqualFold s u = EqualFold t u.
Proof. unfold EqualFold. by intros ->%String.eqb_eq. Qed.

Lemma empty_true s : empty s = true ↔ s = EmptyString.
Proof. apply String.eqb_eq. Qed.

(** A byte no type or domain contains keeps the parts of a key apart. *)
Definition no_nul (s : string) : bool := sforall (λ a, negb (Ascii.eqb a Ascii.zero)) s.

Lemma nul_split s s' t t' : no_nul s = true → no_nul s' = true → s +:+ NUL +:+ t = s' +:+ NUL +:+ t' → s = s' ∧ t = t'.
Proof.
  revert s'. induction s as [|a s IH]; intros [|b s']; cbn [no_nul sforall].
  - intros _ _ E. injection E as E. split; [done|exact E].
  - intros _ [Hb _]%andb_true_iff E. injection E as <- _. done.
  - intros [Ha _]%andb_true_iff _ E. injection E as -> _. done.
  - intros [_ Hs]%andb_true_iff [_ Hs']%andb_true_iff E. injection E as <- E. destruct (IH s' Hs Hs' E) as [-> ->]. done.
Qed.

Lemma key_injective i j : no_nul (id_Type i) = true → no_nul (id_Domain i) = true →
  no_nul (id_Type j) = true → no_nul (id_Domain j) = true → Key i = Key j → i = j.
Proof.
  destruct i as [t d v], j as [t' d' v']. unfold Key. cbn [id_Type id_Domain id_Value]. intros H1 H2 H3 H4 E.
  apply nul_split in E as [-> E]; [|done..]. by apply nul_split in E as [-> ->].
Qed.

Section laws.
Context (normMIC : string → string) (countryOf : string → string).
Implicit Types (a b : Identifier) (inst : Instrument).
#[local] Notation sameSubject := (sameSubject normMIC).
#[local] Notation contradicts := (contradicts normMIC).
#[local] Notation Permits := (Permits countryOf).
#[local] Notation Agrees := (Agrees countryOf).
#[local] Notation fillBlanks := (fillBlanks normMIC countryOf).

#[export] Instance sameSubject_equivalence : Equivalence (λ a b, sameSubject a b = true).
Proof.
  unfold Identity.sameSubject. split.
  - intros a. by rewrite String.eqb_refl, EqualFold_refl.
  - intros a b. by rewrite String.eqb_sym, EqualFold_sym.
  - intros a b c. rewrite !andb_true_iff, !String.eqb_eq. intros [-> E1] [-> E2].
    split; [done|]. by eapply EqualFold_trans.
Qed.

Lemma sameSubject_sym a b : sameSubject a b = sameSubject b a.
Proof. unfold Identity.sameSubject. by rewrite String.eqb_sym, EqualFold_sym. Qed.

Lemma contradicts_sym a b : contradicts a b = contradicts b a.
Proof.
  unfold Identity.contradicts. rewrite (String.eqb_sym (id_Type b)).
  destruct (String.eqb_spec (id_Type a) (id_Type b)) as [->|]; [|done]. cbn [negb].
  rewrite (EqualFold_sym (domainOf _ b)), (sameSubject_sym b), (String.eqb_sym (id_Value b)).
  destruct (NamesAListing (id_Type b)), (empty (id_Domain a)), (empty (id_Domain b)); done.
Qed.

Lemma Agrees_sym v w : Agrees v w = Agrees w v.
Proof.
  unfold Identity.Agrees. rewrite (EqualFold_sym (Country w)).
  destruct (Permits v (MIC w)), (Permits w (MIC v)), (empty (Country v)), (empty (Country w)); done.
Qed.

(** ** A result that matches what was stated confirmed some of it *)

Lemma bind_nil_iff {A B} (f : A → list B) l : l ≫= f = [] ↔ ∀ x, x ∈ l → f x = [].
Proof.
  split.
  - intros E x Hx. destruct (f x) as [|y k] eqn:Ef; [done|]. exfalso. apply (elem_of_nil y). rewrite <- E.
    apply elem_of_bind. exists x. rewrite Ef. split; [left|done].
  - intros Hall. induction l as [|x l IH]; [done|]. cbn. rewrite Hall by left. apply IH. intros y Hy. apply Hall. by right.
Qed.

Lemma compared_some i ids r : compared normMIC i ids = Some r →
  empty (id_Value i) = false ∧ r ∈ ids ∧ empty (id_Value r) = false ∧ sameSubject i r = true.
Proof.
  unfold compared. destruct (empty (id_Value i)); [done|]. intros Hh.
  destruct (filter _ ids) as [|x k] eqn:E; [done|]. injection Hh as ->.
  assert (r ∈ r :: k) as Hr by left. rewrite <- E in Hr. apply list_elem_of_filter in Hr as [Hr Hin].
  apply andb_true_iff in Hr as [H1%negb_true_iff H2]. done.
Qed.

Lemma compared_exists i ids r : empty (id_Value i) = false → r ∈ ids → empty (id_Value r) = false → sameSubject i r = true →
  is_Some (compared normMIC i ids).
Proof.
  intros Hi Hr Hv Hs. unfold compared. rewrite Hi. destruct (filter _ ids) as [|x k] eqn:E; [|by eexists]. exfalso.
  assert (r ∈ filter (λ r, negb (empty (id_Value r)) && sameSubject i r = true) ids) as Hx.
  { apply list_elem_of_filter. by rewrite Hv, Hs. }
  rewrite E in Hx. by apply elem_of_nil in Hx.
Qed.

Lemma stated_elsewhere_none inst ids : stated_elsewhere normMIC inst ids = None →
  existsb names_venue ids = existsb (λ i, names_venue i && on_venue normMIC inst i) ids.
Proof.
  unfold stated_elsewhere. assert (existsb (λ i, names_venue i && on_venue normMIC inst i) ids =
    existsb (on_venue normMIC inst) (filter (λ i, names_venue i = true) ids)) as ->.
  { induction ids as [|i ids IH]; [done|]. cbn [existsb]. rewrite filter_cons, IH. by destruct (names_venue i). }
  destruct (existsb (on_venue normMIC inst) _) eqn:E; intros Hh.
  - apply existsb_exists in E as (i & Hi & _). apply list_elem_of_In, list_elem_of_filter in Hi as [Hn Hi].
    apply existsb_exists. exists i. split; [by apply list_elem_of_In|done].
  - apply not_true_iff_false. intros (i & Hi & Hn)%existsb_exists.
    assert (i ∈ filter (λ i, names_venue i = true) ids) as Hin by (apply list_elem_of_filter; split; [done|by apply list_elem_of_In]).
    destruct (filter _ ids); [by apply elem_of_nil in Hin|done].
Qed.

Lemma ids_confirmed stated ids :
  (i ← stated; match compared normMIC i ids with
               | Some r => if String.eqb (id_Value r) (id_Value i) then []
                           else [{| hd_Field := id_Type i; hd_HintValue := id_Value i; hd_ResolvedValue := id_Value r |}]
               | None => []
               end) = [] →
  (existsb (λ i, bool_decide (is_Some (compared normMIC i ids))) stated = true ↔
   (i ← stated; if negb (empty (id_Value i)) && existsb (λ r, String.eqb (id_Value r) (id_Value i) && sameSubject i r) ids
                then [id_Type i] else []) ≠ []).
Proof.
  rewrite !bind_nil_iff, existsb_exists. intros Hno. split.
  - intros (i & Hi%list_elem_of_In & [r Hr]%bool_decide_eq_true). specialize (Hno i Hi). rewrite Hr in Hno. intros Hall.
    specialize (Hall i Hi). destruct (String.eqb_spec (id_Value r) (id_Value i)) as [E|]; [|done].
    apply compared_some in Hr as (Hv & Hin & _ & Hs). rewrite Hv in Hall. cbn [negb andb] in Hall.
    assert (existsb (λ r, String.eqb (id_Value r) (id_Value i) && sameSubject i r) ids = true) as Hex.
    { apply existsb_exists. exists r. split; [by apply list_elem_of_In|]. by rewrite E, String.eqb_refl. }
    by rewrite Hex in Hall.
  - intros Hne. assert (∃ i, i ∈ stated ∧ (negb (empty (id_Value i)) && existsb (λ r, String.eqb (id_Value r) (id_Value i) && sameSubject i r) ids) = true)
      as (i & Hi & [Hv%negb_true_iff Hex]%andb_true_iff).
    { destruct (existsb (λ i, negb (empty (id_Value i)) && existsb (λ r, String.eqb (id_Value r) (id_Value i) && sameSubject i r) ids) stated) eqn:E.
      - apply existsb_exists in E as (i & Hi & Hc). exists i. split; [by apply list_elem_of_In|done].
      - exfalso. apply Hne. intros i Hi. apply not_true_iff_false in E. destruct (_ && _) eqn:Ec; [|done]. exfalso. apply E, existsb_exists.
        exists i. split; [by apply list_elem_of_In|done]. }
    apply existsb_exists in Hex as (r & Hr%list_elem_of_In & [Ev%String.eqb_eq Hs]%andb_true_iff).
    exists i. split; [by apply list_elem_of_In|]. apply bool_decide_eq_true. eapply compared_exists; [done|exact Hr|by rewrite Ev|done].
Qed.

Lemma when_nil {A} (b : bool) (x : A) : (if b then [x] else []) = [] ↔ b = false.
Proof. by destruct b. Qed.

(** A plugin's answer takes the stated tier exactly when it contradicts nothing the
    source stated and confirms something of it: matching hints is the absence of every
    difference together with a field that was confirmed, for sparse answers too. *)
Theorem matches_are_confirmed hints stated inst ids :
  resultMatchesHints normMIC hints stated inst ids = true ↔
  CompareHints normMIC hints stated inst ids = [] ∧ confirmedFields normMIC hints stated inst ids ≠ [].
Proof.
  assert (resultMatchesHints normMIC hints stated inst ids = true → CompareHints normMIC hints stated inst ids = []) as Hd.
  { unfold resultMatchesHints. by destruct (CompareHints _ _ _ _ _). }
  destruct (decide (CompareHints normMIC hints stated inst ids = [])) as [E|E]; [|tauto].
  unfold resultMatchesHints. rewrite E. rewrite !orb_true_iff. clear Hd.
  unfold CompareHints in E. apply app_nil in E as [E1 E]. apply app_nil in E as [E2 E]. apply app_nil in E as [E3 E4].
  apply ids_confirmed in E4. rewrite E4. apply when_nil in E1, E2.
  unfold confirmedFields. rewrite !app_nil, !when_nil. set (c4 := mbind _ stated). clearbody c4.
  assert (negb (empty (MIC (in_Venue inst))) && existsb names_venue stated =
          negb (empty (MIC (in_Venue inst))) && existsb (λ i, names_venue i && on_venue normMIC inst i) stated) as ->.
  { destruct (empty (MIC (in_Venue inst))); [done|]. cbn [negb andb] in *. apply stated_elsewhere_none.
    by destruct (stated_elsewhere _ _ _). }
  revert E1 E2. destruct (_ && negb (empty (in_Currency inst))), (EqualFold (h_Currency hints) _),
    (states_type _ && states_type _), (EqualFold (h_SecurityTypeHint hints) _), (negb (empty (MIC _)) && existsb _ _); cbn; try done; intros _ _.
  all: destruct (decide (c4 = [])); try tauto; naive_solver.
Qed.


(** ** What consistent answers fill in *)

(** The first of them that says anything. *)
Definition first_known (l : list string) : string := default EmptyString (head (filter (λ s, s ≠ EmptyString) l)).

Lemma first_known_cons s l : first_known (s :: l) = or_else s (first_known l).
Proof.
  unfold first_known, or_else, empty. rewrite filter_cons. destruct (String.eqb_spec s EmptyString).
  - by rewrite decide_False by tauto.
  - by rewrite decide_True.
Qed.

Lemma or_else_assoc s t u : or_else (or_else s t) u = or_else s (or_else t u).
Proof. unfold or_else. destruct (empty s) eqn:E; [done|]. by rewrite E. Qed.

Definition filled (w : Instrument) (fills : list Instrument) : Instrument := foldl fillBlanks w fills.

Lemma filled_texts (f : Instrument → string) w fills : (∀ dst src, f (fillBlanks dst src) = or_else (f dst) (f src)) →
  f (filled w fills) = first_known (f <$> w :: fills).
Proof.
  intros Hf. unfold filled. revert w. induction fills as [|x fills IH]; intros w; cbn [foldl].
  - cbn. rewrite first_known_cons. unfold or_else. destruct (empty (f w)) eqn:E; [|done]. by apply empty_true in E.
  - rewrite IH, !fmap_cons, !first_known_cons, Hf. apply or_else_assoc.
Qed.

Lemma permits_less w src mic : MIC (in_Venue w) = EmptyString → MIC (in_Venue (fillBlanks w src)) = EmptyString →
  Permits (in_Venue (fillBlanks w src)) mic = true → Permits (in_Venue w) mic = true.
Proof.
  unfold Identity.Permits, venue_known. cbn [fillBlanks in_Venue MIC Country]. intros -> ->. unfold or_else.
  destruct (empty (Country (in_Venue w))) eqn:E; [done|]. by rewrite E.
Qed.

Lemma filled_venue w fills : MIC (in_Venue (filled w fills)) = MIC (in_Venue w) ∨
  ∃ src, src ∈ fills ∧ MIC (in_Venue w) = EmptyString ∧ MIC (in_Venue (filled w fills)) = MIC (in_Venue src) ∧
    Permits (in_Venue w) (normMIC (MIC (in_Venue src))) = true.
Proof.
  unfold filled. revert w. induction fills as [|x fills IH]; intros w; cbn [foldl]; [by left|].
  assert (MIC (in_Venue (fillBlanks w x)) = MIC (in_Venue w) ∨ MIC (in_Venue w) = EmptyString ∧
    MIC (in_Venue (fillBlanks w x)) = MIC (in_Venue x) ∧ Permits (in_Venue w) (normMIC (MIC (in_Venue x))) = true) as Hx.
  { cbn [Identity.fillBlanks in_Venue MIC]. destruct (_ && _) eqn:E; [right|by left].
    apply andb_true_iff in E as [[E1%empty_true _]%andb_true_iff E2]. done. }
  destruct (IH (fillBlanks w x)) as [->|(src & Hs & He & -> & Hp)].
  - destruct Hx as [?|(? & ? & ?)]; [by left|right]. exists x. split; [left|done].
  - destruct Hx as [Hx|(Hw & Hx & _)].
    + right. exists src. split; [by right|]. rewrite He in Hx. split; [done|]. split; [done|]. by eapply permits_less.
    + right. exists src. split; [by right|]. split; [done|]. split; [done|]. by eapply permits_less.
Qed.

Lemma filled_currency w fills : in_Currency (filled w fills) = in_Currency w ∨
  ∃ src, src ∈ fills ∧ in_Currency w = EmptyString ∧ in_Currency (filled w fills) = in_Currency src ∧
    (MIC (in_Venue w) = EmptyString ∨ EqualFold (normMIC (MIC (in_Venue w))) (normMIC (MIC (in_Venue src))) = true).
Proof.
  unfold filled. revert w. induction fills as [|x fills IH]; intros w; cbn [foldl]; [by left|].
  assert (MIC (in_Venue w) = EmptyString ∨ MIC (in_Venue (fillBlanks w x)) = MIC (in_Venue w)) as Hm.
  { cbn [Identity.fillBlanks in_Venue MIC]. destruct (empty (MIC (in_Venue w))) eqn:E; [left; by apply empty_true|by right]. }
  assert (in_Currency (fillBlanks w x) = in_Currency w ∨ in_Currency w = EmptyString ∧ in_Currency (fillBlanks w x) = in_Currency x ∧
    (MIC (in_Venue w) = EmptyString ∨ EqualFold (normMIC (MIC (in_Venue w))) (normMIC (MIC (in_Venue x))) = true)) as Hx.
  { set (mic := MIC (in_Venue (fillBlanks w x))) in Hm.
    change (in_Currency (fillBlanks w x)) with (if empty (in_Currency w) && negb (empty (in_Currency x))
      && (empty mic || EqualFold (normMIC mic) (normMIC (MIC (in_Venue x)))) then in_Currency x else in_Currency w).
    clearbody mic. destruct (_ && _) eqn:E; [right|by left].
    apply andb_true_iff in E as [[E1%empty_true _]%andb_true_iff [E2%empty_true|E2]%orb_true_iff]; split_and!; try done.
    - left. destruct Hm; congruence.
    - destruct Hm as [Hm|Hm]; [by left|right]. congruence. }
  destruct (IH (fillBlanks w x)) as [->|(src & Hs & He & -> & Hp)].
  - destruct Hx as [?|(? & ? & ?)]; [by left|right]. exists x. split; [left|done].
  - right. exists src. split; [by right|]. split; [|split; [done|]].
    + destruct Hx as [Hx|(? & _)]; congruence.
    + destruct Hm as [?|Hm]; [by left|]. by rewrite Hm in Hp.
Qed.

(** The answers that agree with the chosen one fill in only what it left blank.  Its
    class is its own; its name and filing codes are the first anyone knew, itself first;
    a venue is adopted only where it named none and permits it; and where it named a
    venue, a currency is adopted only from an answer naming the same one. *)
Theorem filling_keeps_the_listing w fills :
  let m := filled w fills in
  in_AssetClass m = in_AssetClass w ∧
  in_Name m = first_known (in_Name <$> w :: fills) ∧
  in_CIK m = first_known (in_CIK <$> w :: fills) ∧
  in_SICCode m = first_known (in_SICCode <$> w :: fills) ∧
  Country (in_Venue m) = first_known ((Country ∘ in_Venue) <$> w :: fills) ∧
  (MIC (in_Venue m) = MIC (in_Venue w) ∨
   ∃ src, src ∈ fills ∧ MIC (in_Venue w) = EmptyString ∧ MIC (in_Venue m) = MIC (in_Venue src) ∧
     Permits (in_Venue w) (normMIC (MIC (in_Venue src))) = true) ∧
  (in_Currency m = in_Currency w ∨
   ∃ src, src ∈ fills ∧ in_Currency w = EmptyString ∧ in_Currency m = in_Currency src ∧
     (MIC (in_Venue w) = EmptyString ∨
      EqualFold (normMIC (MIC (in_Venue w))) (normMIC (MIC (in_Venue src))) = true)).
Proof.
  intros m. split_and!; [|apply (filled_texts in_Name); done|apply (filled_texts in_CIK); done|apply (filled_texts in_SICCode); done
    |apply (filled_texts (Country ∘ in_Venue)); done|apply filled_venue|apply filled_currency].
  unfold m, filled. revert w m. induction fills as [|x fills IH]; intros w; [done|]. intros m. cbn [foldl]. by rewrite IH.
Qed.
End laws.

(** Where the chosen answer names neither venue nor currency, the currency of one answer
    and the venue of another meet on the instrument: pounds, on the exchange a third
    answer quotes in dollars. *)
Lemma filling_mixes_listings :
  let answer mic cur := {| in_AssetClass := "STOCK"; in_Venue := {| MIC := mic; Country := EmptyString |}; in_Currency := cur;
    in_Name := EmptyString; in_CIK := EmptyString; in_SICCode := EmptyString; in_UnderlyingIdentifiers := [];
    in_ProviderIdentifiers := []; in_ValidFrom := None; in_ValidBefore := None |} in
  let w := answer EmptyString EmptyString in
  let fills := [answer EmptyString "GBP"; answer "XNAS" "USD"] in
  forallb (λ src, consistentWith id (λ _, EmptyString) w [] src []) fills = true ∧
  (MIC (in_Venue (filled id (λ _, EmptyString) w fills)), in_Currency (filled id (λ _, EmptyString) w fills)) = ("XNAS", "GBP").
Proof. by vm_compute. Qed.
End Identity.
