(* ===== verification/Resolve.v ===== *)
(** * Identifying an instrument

    server/service/identification/resolve.go: how a key - identifiers a source stated, or
    failing those the ones a candidate plugin proposed - becomes an instrument of the
    store.  The store is asked first; then every eligible identification plugin, with one
    retry, and their answers are ranked, compared with the chosen one, merged and handed
    to [EnsureInstrument]; the underlying of a derivative is resolved the same way, to a
    bounded depth; what nothing identifies, or only a guess does, is left to a fallback.

    A plugin is a function from the number of the call and the key to what it answers:
    plugins run concurrently but touch nothing shared, so their order is only that of the
    results.  Configurations, time-outs and the clock stand behind that function and
    [today].  [attempts] is the log a run writes, [saved] the provider identifiers handed
    to the store.  Logging, cancellation and lost connections are not modelled. *)

From Stdlib Require Import QArith.
From S2P Require Import Prelude GoStrings Calendar Decimal Residual Ledger Instruments Derivative Identity.

Local Open Scope nat_scope.

Module Resolve.
Import GoStrings Calendar Residual Ledger Instruments Derivative Identity.

(** ** Data *)

Definition MaxResolveDepth : nat := 2.

Inductive call_error := ErrNotIdentified | DeadlineExceeded | OtherError.

Record answer := {
  an_Instrument : option Instrument;
  an_Identifiers : list Identifier;
  an_Filtered : list Identifier;
  an_Outcome : string;
}.

Record plugin := {
  pg_ID : string;
  pg_Kinds : gset string;
  pg_Types : gset string;
  pg_Identify : nat → string → string → Identity → answer * option call_error;
}.

Record pluginResult := {
  pr_ID : string;
  pr_inst : option Instrument;
  pr_ids : list Identifier;
  pr_filtered : list Identifier;
  pr_outcome : string;
  pr_retries : nat;
  pr_err : option call_error;
}.

Inductive claim_role := ClaimRoleReturned | ClaimRoleFiltered.

#[export] Instance claim_role_eq_dec : EqDecision claim_role.
Proof. solve_decision. Defined.

Record ClaimedIdentifier := { ci_Ref : InstrumentRef; ci_Role : claim_role }.

Definition IdentityClaim : Type := list ClaimedIdentifier.

Record plugin_call := { pc_ID : string; pc_Outcome : string; pc_Retries : nat; pc_Claims : IdentityClaim }.

Record attempt := {
  at_Depth : nat;
  at_SecurityTypeHint : string;
  at_HadIdentifierHints : bool;
  at_Outcome : string;
  at_AssetClass : string;
  at_Calls : list plugin_call;
}.

Record rstate {D : Type} := {
  rs_store : store D;
  saved : list (string * list ProviderIdentifier);
  attempts : list attempt;
}.
#[global] Arguments rstate : clear implicits.

Record ResolveResult := {
  InstrumentID : string;
  HadTimeout : bool;
  HadError : bool;
  Identified : bool;
  HintDiffs : list HintDiff;
  Unconfirmed : bool;
  Confirmed : list string;
  ProposalOutcomes : list ProposalOutcome;
}.

Record ResolvedInstrument := { ri_ID : string; ri_AssetClass : string; ri_Exchange : string; ri_Currency : string }.

(** ** Claims *)

Definition ref_of (i : Identifier) : InstrumentRef :=
  {| ref_Type := id_Type i; ref_Value := id_Value i; ref_Domain := id_Domain i |}.

Definition claimed (role : claim_role) (i : Identifier) : ClaimedIdentifier := {| ci_Ref := ref_of i; ci_Role := role |}.

Definition claim (r : pluginResult) : IdentityClaim :=
  (claimed ClaimRoleReturned <$> pr_ids r) ++ (claimed ClaimRoleFiltered <$> pr_filtered r).

Definition of_ref (r : InstrumentRef) : Identifier :=
  {| id_Type := ref_Type r; id_Domain := ref_Domain r; id_Value := ref_Value r |}.

Definition flatten_one (acc : list Identifier) (c : ClaimedIdentifier) : list Identifier :=
  if negb (bool_decide (ci_Role c = ClaimRoleReturned)) || bool_decide (ref_Type (ci_Ref c) ∈ id_Type <$> acc) then acc
  else acc ++ [of_ref (ci_Ref c)].

Definition flattenClaims (claims : list IdentityClaim) : list Identifier := foldl flatten_one [] (mjoin claims).

(** ** Looking a key up *)

Section lookup.
Context {D : Type}.
Implicit Types s : store D.

(** [FindInstrumentWithMetaByIdentifier] *)
Definition find_with_meta (ref : InstrumentRef) s : option ResolvedInstrument :=
  id ← FindInstrumentByIdentifier ref (identifiers s);
  i ← instruments s !! id;
  Some {| ri_ID := id; ri_AssetClass := default EmptyString (asset_class i);
          ri_Exchange := default EmptyString (exchange_mic i); ri_Currency := default EmptyString (i_currency i) |}.

Definition strip_seps (v : string) : string := NormalizeSplitTicker v EmptyString.

Definition FindInstrumentByTickerIgnoringSeparators (value : string) s : option string :=
  match remove_dups (holder <$> filter (λ r, ref_Type (ii_Ref (naming r)) = "MIC_TICKER" ∧
      strip_seps (ref_Value (ii_Ref (naming r))) = strip_seps value) (identifiers s)) with
  | [id] => Some id
  | _ => None
  end.

Definition stored_value (h : Identifier) : string :=
  if String.eqb (id_Type h) "OCC" then default (id_Value h) (OCCCompact (id_Value h)) else id_Value h.

(** A key with no domain finds any row of its type and value, when they agree. *)
Definition find_any_domain (t value : string) s : option string :=
  match FindInstrumentByTypeAndValue t value (identifiers s) with
  | Some id => Some id
  | None => if String.eqb t "MIC_TICKER" then FindInstrumentByTickerIgnoringSeparators value s else None
  end.

Definition lookup_hint (h : Identifier) s : option ResolvedInstrument :=
  if empty (id_Type h) || empty (id_Value h) then None else
  let value := stored_value h in
  match find_with_meta {| ref_Type := id_Type h; ref_Value := value; ref_Domain := id_Domain h |} s with
  | Some r => Some r
  | None =>
      if empty (id_Domain h) then
        (λ id, {| ri_ID := id; ri_AssetClass := EmptyString; ri_Exchange := EmptyString; ri_Currency := EmptyString |})
          <$> find_any_domain (id_Type h) value s
      else None
  end.

Definition ResolveByHintsDBOnly (hints : list Identifier) s : list ResolvedInstrument :=
  foldl (λ resolved h, match lookup_hint h s with
    | Some r => if bool_decide (ri_ID r ∈ ri_ID <$> resolved) then resolved else resolved ++ [r]
    | None => resolved
    end) [] hints.

Definition lookup_hint_id (h : Identifier) s : option string :=
  if empty (id_Type h) || empty (id_Value h) then None else
  let value := stored_value h in
  match FindInstrumentByIdentifier {| ref_Type := id_Type h; ref_Value := value; ref_Domain := id_Domain h |} (identifiers s) with
  | Some id => Some id
  | None => if empty (id_Domain h) then find_any_domain (id_Type h) value s else None
  end.

Definition ResolveIDsByHintsDBOnly (hints : list Identifier) s : list string :=
  foldl (λ ids h, match lookup_hint_id h s with
    | Some id => if bool_decide (id ∈ ids) then ids else ids ++ [id]
    | None => ids
    end) [] hints.
End lookup.

(** ** Filtering what is proposed *)

Definition FilterIdentifierHints (hints : list Identifier) : list Identifier :=
  filter (λ h, negb (empty (TrimSpace (id_Type h))) && Known (TrimSpace (id_Type h)) = true) hints.

(** [operating_mic] is the exchange table: [None] is a MIC it does not carry. *)
Definition proposal_filter (operating_mic : string → option string) (i : Identifier) : option Identifier :=
  match FilterIdentifierHints [i] with
  | [] => None
  | i :: _ =>
      if negb (names_venue i) then Some i
      else Some {| id_Type := id_Type i; id_Value := id_Value i;
                   id_Domain := match operating_mic (id_Domain i) with
                                | Some op => if empty op then id_Domain i else op
                                | None => EmptyString
                                end |}
  end.

(** ** Calling the plugins *)

Definition callPluginWithRetry (p : plugin) (source desc : string) (ident : Identity) : pluginResult :=
  let result n (x : answer * option call_error) :=
    {| pr_ID := pg_ID p; pr_inst := an_Instrument x.1; pr_ids := an_Identifiers x.1; pr_filtered := an_Filtered x.1;
       pr_outcome := an_Outcome x.1; pr_retries := n; pr_err := x.2 |} in
  let first := pg_Identify p 0 source desc ident in
  match first.2 with
  | None | Some ErrNotIdentified => result 0 first
  | Some _ => result 1 (pg_Identify p 1 source desc ident)
  end.

Definition eligible (configs : list string) (registry : string → option plugin) (hints : Hints) : list plugin :=
  filter (λ p, ShouldAttemptPlugin (pg_Kinds p) (pg_Types p) (h_InstrumentKind hints) (h_SecurityTypeHint hints) = true)
    (omap registry configs).

(** ** Choosing a result *)

(** The instrument of a result that succeeded. *)
Definition success (r : pluginResult) : option Instrument := match pr_err r with None => pr_inst r | Some _ => None end.

(** What a merge of answers says. *)
Record merge := { mg_inst : Instrument; mg_ids : list Identifier; mg_providers : list ProviderIdentifier }.

Section choose.
Context (normMIC : string → string) (countryOf : string → string).

Definition takes (test : Instrument → list Identifier → bool) (r : pluginResult) : bool :=
  match success r with Some i => test i (pr_ids r) | None => false end.

Definition hasStated (hints : Hints) (stated : list Identifier) : bool :=
  negb (empty (h_Currency hints)) || states_type (h_SecurityTypeHint hints) || (0 <? length stated).

Definition in_stated (hints : Hints) (stated : list Identifier) : pluginResult → bool :=
  takes (λ i ids, hasStated hints stated && resultMatchesHints normMIC hints stated i ids).

Definition in_proposed (hints : Hints) (stated proposed : list Identifier) : pluginResult → bool :=
  takes (λ i ids, (0 <? length proposed) && match CompareHints normMIC hints stated i ids with [] => true | _ => false end
                  && resultMatchesHints normMIC no_hints proposed i ids).

Definition succeeded : pluginResult → bool := takes (λ _ _, true).

Definition first_index (f : pluginResult → bool) (rs : list pluginResult) : option nat := fst <$> list_find (λ r, f r = true) rs.

Definition winnerIdx (hints : Hints) (stated proposed : list Identifier) (rs : list pluginResult) : option nat :=
  match first_index (in_stated hints stated) rs with
  | Some i => Some i
  | None => match first_index (in_proposed hints stated proposed) rs with
            | Some i => Some i
            | None => first_index succeeded rs
            end
  end.

Definition hadTimeout (rs : list pluginResult) : bool :=
  existsb (λ r, negb (succeeded r) && match pr_err r with Some DeadlineExceeded => true | _ => false end) rs.

(** A plugin that gives neither an instrument nor an error counts as one in error. *)
Definition hadOtherErr (rs : list pluginResult) : bool :=
  existsb (λ r, negb (succeeded r) && match pr_err r with Some OtherError | None => true | _ => false end) rs.

(** The winner and the successes consistent with it. *)
Definition contributes (w : nat) (winner : Instrument) (winner_ids : list Identifier) (i : nat) (r : pluginResult) : option Instrument :=
  inst ← success r;
  if (i =? w) || consistentWith normMIC countryOf winner winner_ids inst (pr_ids r) then Some inst else None.

Definition contributions (w : nat) (winner : Instrument) (winner_ids : list Identifier) (rs : list pluginResult)
    : list (nat * pluginResult * Instrument) :=
  omap (λ x : nat * pluginResult, (λ inst, (x.1, x.2, inst)) <$> contributes w winner winner_ids x.1 x.2) (imap pair rs).

Definition call_outcome (chosen : option (nat * Instrument * list Identifier)) (i : nat) (r : pluginResult) : string :=
  let own := if String.eqb (pr_outcome r) "identified" then "not_identified" else pr_outcome r in
  match chosen, success r with
  | Some (w, winner, winner_ids), Some inst =>
      if i =? w then "won"
      else if consistentWith normMIC countryOf winner winner_ids inst (pr_ids r) then "superseded" else "discarded_inconsistent"
  | _, _ => own
  end.

Definition calls (chosen : option (nat * Instrument * list Identifier)) (rs : list pluginResult) : list plugin_call :=
  imap (λ i r, {| pc_ID := pr_ID r; pc_Outcome := call_outcome chosen i r; pc_Retries := pr_retries r;
                  pc_Claims := match pr_inst r with Some _ => claim r | None => [] end |}) rs.
Definition merge_answers (w : nat) (winner : Instrument) (winner_ids : list Identifier) (rs : list pluginResult) : merge :=
  let cs := contributions w winner winner_ids rs in
  {| mg_inst := foldl (fillBlanks normMIC countryOf) winner (snd <$> filter (λ c, c.1.1 ≠ w) cs);
     mg_ids := flattenClaims (claim ∘ snd ∘ fst <$> cs);
     mg_providers := c ← cs; in_ProviderIdentifiers c.2 |}.
End choose.

(** ** Resolving *)

Section resolve.
Context {D : Type} `{Decimal D}.
Context (gen_uuid : gset string → string) (uuid_ok : string → bool) (operating_mic : string → option string).
Context (parse_dec : string → option D) (countryOf : string → string).
Context (configs : list string) (registry : string → option plugin) (today now : Z).
Implicit Types (s : store D) (st : rstate D).
#[local] Notation normMIC := (normalizeToOperatingMIC operating_mic).

Definition with_store s st : rstate D := {| rs_store := s; saved := saved st; attempts := attempts st |}.

Definition log (a : attempt) st : rstate D := {| rs_store := rs_store st; saved := saved st; attempts := attempts st ++ [a] |}.

Definition save (id : string) (ids : list ProviderIdentifier) st : rstate D :=
  match ids with [] => st | _ => {| rs_store := rs_store st; saved := saved st ++ [(id, ids)]; attempts := attempts st |} end.

Definition optionFieldsFromIdentifiers (ids : list Identifier) : option (OptionFields D) :=
  head (omap (λ i : Identifier,
    if negb (String.eqb (id_Type i) "OCC") then None else
    padded ← OCCPadded (id_Value i);
    p ← ParseOptionTicker parse_dec padded;
    if negb (is_pos (Strike p)) || (Expiry p =? zero_time)%Z || empty (PutCall p) then None
    else Some {| of_Strike := Strike p; of_Expiry := Expiry p; of_PutCall := PutCall p |}) ids).

(** The key that is queried, and whether it was guessed. *)
Definition guessed (ident : Identity) : bool :=
  match Stated ident, Proposed ident with [], _ :: _ => true | _, _ => false end.

Definition keyed (ident : Identity) : Identity :=
  if guessed ident then {| Stated := Proposed ident; Proposed := []; id_Hints := id_Hints ident |} else ident.

Definition lookupIDs (ident : Identity) : list Identifier :=
  if guessed ident then
    (λ i, if String.eqb (id_Type i) "MIC_TICKER" then {| id_Type := id_Type i; id_Domain := EmptyString; id_Value := id_Value i |} else i)
      <$> Proposed ident
  else Stated ident.

Definition ensured_identifiers (merged : list Identifier) (source desc : string) (bindSourceDescription : bool) (from : Z)
    : list IdentifierInput :=
  ((λ i, {| ii_Ref := ref_of i; ii_Canonical := true; ii_ValidFrom := Some from; ii_ValidBefore := None |}) <$> merged)
  ++ (if bindSourceDescription
         && negb (existsb (λ i, bool_decide (i = {| id_Type := "BROKER_DESCRIPTION"; id_Domain := source; id_Value := desc |})) merged)
      then [{| ii_Ref := {| ref_Type := "BROKER_DESCRIPTION"; ref_Value := desc; ref_Domain := source |};
               ii_Canonical := false; ii_ValidFrom := Some from; ii_ValidBefore := None |}]
      else []).

Definition attempt_row (depth : nat) (ident : Identity) (outcome assetClass : string) (cs : list plugin_call) : attempt := {|
  at_Depth := depth; at_SecurityTypeHint := h_SecurityTypeHint (id_Hints ident);
  at_HadIdentifierHints := 0 <? length (Stated (keyed ident)); at_Outcome := outcome; at_AssetClass := assetClass; at_Calls := cs |}.

Definition short_circuit (depth : nat) (ident : Identity) (r : ResolvedInstrument) st : ResolveResult * rstate D :=
  let inst := {| in_AssetClass := ri_AssetClass r; in_Venue := {| MIC := ri_Exchange r; Country := EmptyString |};
    in_Currency := ri_Currency r; in_Name := EmptyString; in_CIK := EmptyString; in_SICCode := EmptyString;
    in_UnderlyingIdentifiers := []; in_ProviderIdentifiers := []; in_ValidFrom := None; in_ValidBefore := None |} in
  ({| InstrumentID := ri_ID r; HadTimeout := false; HadError := false; Identified := true;
      HintDiffs := CompareHints normMIC (id_Hints ident) (Stated ident) inst []; Unconfirmed := false;
      Confirmed := confirmedFields normMIC (id_Hints ident) (Stated ident) inst [];
      ProposalOutcomes := proposalOutcomes normMIC (Proposed ident) None [] |},
   log (attempt_row depth ident "db_short_circuit" (ri_AssetClass r) []) st).

(** What failed when nothing was identified. *)
Definition failure (inputs : list plugin) (rs : list pluginResult) : string :=
  match inputs with
  | [] => "no_eligible_plugins"
  | _ => if hadTimeout rs then "plugin_timeout" else if hadOtherErr rs then "plugin_error" else "not_identified"
  end.

Definition unresolved (depth : nat) (ident : Identity) (inputs : list plugin) (rs : list pluginResult)
    (fallback : option (store D → option string * store D)) st : option ResolveResult * rstate D :=
  let st := log (attempt_row depth ident (failure inputs rs) EmptyString (calls normMIC countryOf None rs)) st in
  let result id := Some {| InstrumentID := id; HadTimeout := hadTimeout rs; HadError := hadOtherErr rs; Identified := false;
    HintDiffs := []; Unconfirmed := false; Confirmed := []; ProposalOutcomes := proposalOutcomes normMIC (Proposed ident) None [] |} in
  match fallback with
  | None => (result EmptyString, st)
  | Some f => match f (rs_store st) with
              | (Some id, s) => (result id, with_store s st)
              | (None, s) => (None, with_store s st)
              end
  end.

(** The answer chosen: its place, its instrument and its identifiers. *)
Definition chosen (ident : Identity) (rs : list pluginResult) : option (nat * Instrument * list Identifier) :=
  w ← winnerIdx normMIC (id_Hints ident) (Stated ident) (Proposed (keyed ident)) rs;
  r ← rs !! w;
  inst ← success r;
  Some (w, inst, pr_ids r).

(** What becomes of the merged answer: a guess that nothing confirms is left to the
    fallback, anything else is ensured. *)
Definition conclude (depth : nat) (source desc : string) (ident : Identity) (bindSourceDescription : bool)
    (fallback : option (store D → option string * store D)) (from : Z) (m : merge) (underlyingID : string)
    (cs : list plugin_call) st : option ResolveResult * rstate D :=
  let hints := id_Hints ident in
  let inst := mg_inst m in
  let fields := if String.eqb (in_AssetClass inst) "OPTION" then optionFieldsFromIdentifiers (mg_ids m) else None in
  let diffs := CompareHints normMIC hints (Stated ident) inst (mg_ids m) in
  let confirmed := confirmedFields normMIC hints (Stated ident) inst (mg_ids m) in
  let outcomes := proposalOutcomes normMIC (Proposed ident) (Some inst) (mg_ids m) in
  match (if guessed ident then match confirmed with [] => fallback | _ => None end else None) with
  | Some f =>
      match f (rs_store st) with
      | (Some id, s) =>
          (Some {| InstrumentID := id; HadTimeout := false; HadError := false; Identified := false; HintDiffs := diffs;
                   Unconfirmed := true; Confirmed := []; ProposalOutcomes := outcomes |},
           log (attempt_row depth ident "proposal_unconfirmed" EmptyString cs) (with_store s st))
      | (None, s) => (None, with_store s st)
      end
  | None =>
      match EnsureInstrument gen_uuid uuid_ok operating_mic (in_AssetClass inst) (MIC (in_Venue inst)) (in_Currency inst)
              (in_CIK inst) (in_SICCode inst) (ensured_identifiers (mg_ids m) source desc bindSourceDescription from)
              underlyingID (in_ValidFrom inst) (in_ValidBefore inst) fields now (rs_store st) with
      | None => (None, st)
      | Some (id, s) =>
          (Some {| InstrumentID := id; HadTimeout := false; HadError := false; Identified := true; HintDiffs := diffs;
                   Unconfirmed := false; Confirmed := confirmed; ProposalOutcomes := outcomes |},
           log (attempt_row depth ident "identified" (in_AssetClass inst) cs) (save id (mg_providers m) (with_store s st)))
      end
  end.

(** The identity an answer gives the underlying of a derivative. *)
Definition underlying_identity (inst : Instrument) : Identity := {|
  Stated := in_UnderlyingIdentifiers inst; Proposed := [];
  id_Hints := {| h_Currency := EmptyString; h_InstrumentKind := EmptyString;
                 h_SecurityTypeHint := UnderlyingSecTypeHint (in_AssetClass inst) |} |}.

(** [levels] is how much further down it may go: [MaxResolveDepth - depth]. *)
Fixpoint ResolveWithPlugins (levels : nat) (source desc : string) (ident : Identity) (bindSourceDescription : bool)
    (fallback : option (store D → option string * store D)) (hintsValidAt : option Z) st : option ResolveResult * rstate D :=
  let depth := MaxResolveDepth - levels in
  match ResolveByHintsDBOnly (lookupIDs ident) (rs_store st) with
  | [r] => let '(res, st) := short_circuit depth ident r st in (Some res, st)
  | _ =>
      let inputs := eligible configs registry (id_Hints ident) in
      let rs := (λ p, callPluginWithRetry p source desc (keyed ident)) <$> inputs in
      match chosen ident rs with
      | None => unresolved depth ident inputs rs fallback st
      | Some (w, winner, winner_ids) =>
          let m := merge_answers normMIC countryOf w winner winner_ids rs in
          let '(underlyingID, st) := match in_UnderlyingIdentifiers (mg_inst m), levels with
            | _ :: _, S levels =>
                match ResolveWithPlugins levels source EmptyString (underlying_identity (mg_inst m)) false None None st with
                | (Some u, st) => (InstrumentID u, st)
                | (None, st) => (EmptyString, st)
                end
            | _, _ => (EmptyString, st)
            end in
          conclude depth source desc ident bindSourceDescription fallback (default today hintsValidAt) m underlyingID
            (calls normMIC countryOf (Some (w, winner, winner_ids)) rs) st
      end
  end.
End resolve.

(** ** The choice among the results *)

Section chosen.
Context (normMIC : string → string).
Implicit Types (rs : list pluginResult) (r : pluginResult).
#[local] Notation winnerIdx := (winnerIdx normMIC).
#[local] Notation in_stated := (in_stated normMIC).
#[local] Notation in_proposed := (in_proposed normMIC).

Lemma first_index_Some (f : pluginResult → bool) rs w : first_index f rs = Some w ↔
  ∃ r, rs !! w = Some r ∧ f r = true ∧ ∀ j r', j < w → rs !! j = Some r' → f r' = false.
Proof.
  unfold first_index. split.
  - intros ([i r] & (Hr & Hf & Hleast)%list_find_Some & ->)%fmap_Some. exists r. split_and!; try done.
    intros j r' Hj Hr'. apply not_true_iff_false. by apply (Hleast j r').
  - intros (r & Hr & Hf & Hleast). apply fmap_Some. exists (w, r). split; [|done]. apply list_find_Some.
    split_and!; try done. intros j r' Hr' Hj. apply not_true_iff_false. by apply (Hleast j r').
Qed.

Lemma first_index_None (f : pluginResult → bool) rs : first_index f rs = None ↔ ∀ r, r ∈ rs → f r = false.
Proof.
  unfold first_index. split.
  - intros Hn%fmap_None. apply list_find_None in Hn. intros r Hr. rewrite Forall_forall in Hn.
    apply not_true_iff_false. by apply Hn.
  - intros Hall. apply fmap_None, list_find_None, Forall_forall. intros r Hr. by rewrite (Hall r Hr).
Qed.

Lemma takes_succeeded test r : takes test r = true → succeeded r = true.
Proof. unfold succeeded, takes. by destruct (success r). Qed.

(** The choice among the answers.  It is made exactly when some plugin succeeded.  When
    an answer matches what a source stated, the first such answer in order of precedence
    is chosen, whatever was proposed.  Failing that a proposal may lift an answer over
    one of higher precedence, but only an answer that contradicts nothing stated; and
    failing that precedence decides.  So no proposal ever outranks a statement. *)
Theorem proposals_never_outrank hints stated proposed rs :
  match winnerIdx hints stated proposed rs with
  | None => ∀ r, r ∈ rs → success r = None
  | Some w => ∃ r inst, rs !! w = Some r ∧ success r = Some inst ∧
      ((∃ r', r' ∈ rs ∧ in_stated hints stated r' = true) →
         in_stated hints stated r = true ∧ (∀ j r', j < w → rs !! j = Some r' → in_stated hints stated r' = false) ∧
         ∀ proposed', winnerIdx hints stated proposed' rs = Some w) ∧
      ((∀ r', r' ∈ rs → in_stated hints stated r' = false) →
         CompareHints normMIC hints stated inst (pr_ids r) ≠ [] →
         ∀ j r', j < w → rs !! j = Some r' → success r' = None)
  end.
Proof.
  assert (∀ r, succeeded r = false → success r = None) as Hno.
  { intros r. unfold succeeded, takes. by destruct (success r). }
  assert (∀ test r w, rs !! w = Some r → takes test r = true → ∃ inst, success r = Some inst ∧ test inst (pr_ids r) = true) as Hyes.
  { intros test r w _. unfold takes. destruct (success r) as [i|]; [|done]. intros Ht. by exists i. }
  unfold Resolve.winnerIdx. destruct (first_index (in_stated hints stated) rs) as [w|] eqn:Es.
  - apply first_index_Some in Es as (r & Hr & Ht & Hleast). destruct (Hyes _ r w Hr Ht) as (inst & Hi & _).
    exists r, inst. split; [done|]. split; [done|]. split; [by intros _|]. intros Hall. exfalso.
    rewrite Hall in Ht; [done|by eapply list_elem_of_lookup_2].
  - rewrite first_index_None in Es.
    assert (∀ w r inst, rs !! w = Some r → success r = Some inst →
      (∃ r', r' ∈ rs ∧ in_stated hints stated r' = true) → False) as Hfalse.
    { intros w r inst _ _ (r' & Hr' & Ht). by rewrite Es in Ht. }
    destruct (first_index (in_proposed hints stated proposed) rs) as [w|] eqn:Ep.
    + apply first_index_Some in Ep as (r & Hr & Ht & Hleast). destruct (Hyes _ r w Hr Ht) as (inst & Hi & Ht').
      exists r, inst. split; [done|]. split; [done|]. split; [intros Hex; by destruct (Hfalse w r inst)|]. intros _ Hd. exfalso.
      apply andb_true_iff in Ht' as [[_ Ht']%andb_true_iff _]. by destruct (CompareHints _ _ _ _ _).
    + destruct (first_index succeeded rs) as [w|] eqn:Ef.
      * apply first_index_Some in Ef as (r & Hr & Ht & Hleast). destruct (Hyes _ r w Hr Ht) as (inst & Hi & _).
        exists r, inst. split; [done|]. split; [done|]. split; [intros Hex; by destruct (Hfalse w r inst)|].
        intros _ _ j r' Hj Hr'. apply Hno. by eapply Hleast.
      * rewrite first_index_None in Ef. intros r Hr. by apply Hno, Ef.
Qed.

Lemma winner_success hints stated proposed rs w : winnerIdx hints stated proposed rs = Some w →
  ∃ r inst, rs !! w = Some r ∧ success r = Some inst.
Proof.
  intros E. assert (∃ f r, rs !! w = Some r ∧ takes f r = true) as (f & r & Hr & Ht).
  { unfold Resolve.winnerIdx in E. destruct (first_index (in_stated hints stated) rs) as [i|] eqn:E1;
      [|destruct (first_index (in_proposed hints stated proposed) rs) as [i|] eqn:E2; [|rename E into E3]];
      [injection E as ->; apply first_index_Some in E1 as (r & ? & ? & _)
      |injection E as ->; apply first_index_Some in E2 as (r & ? & ? & _)
      |apply first_index_Some in E3 as (r & ? & ? & _)]; by eexists _, r. }
  exists r. unfold takes in Ht. destruct (success r) as [i|]; [|done]. by exists i.
Qed.
(** ** What a merge of answers says *)

Definition add_by_type (acc : list Identifier) (i : Identifier) : list Identifier :=
  if bool_decide (id_Type i ∈ id_Type <$> acc) then acc else acc ++ [i].

Lemma flatten_filtered acc l : foldl flatten_one acc (claimed ClaimRoleFiltered <$> l) = acc.
Proof. revert acc. induction l as [|i l IH]; intros acc; [done|]. apply IH. Qed.

Lemma flatten_returned acc l : foldl flatten_one acc (claimed ClaimRoleReturned <$> l) = foldl add_by_type acc l.
Proof.
  revert acc. induction l as [|[t d v] l IH]; intros acc; [done|]. rewrite fmap_cons. cbn [foldl]. rewrite <- IH. f_equal.
Qed.

(** Only what a plugin returned counts, whatever it set aside. *)
Lemma flatten_claims rs : flattenClaims (claim <$> rs) = foldl add_by_type [] (rs ≫= pr_ids).
Proof.
  unfold flattenClaims. generalize (@nil Identifier). induction rs as [|r rs IH]; intros acc; [done|].
  change (mjoin (claim <$> r :: rs)) with (claim r ++ mjoin (claim <$> rs)).
  unfold claim at 1. rewrite bind_cons, !foldl_app, flatten_returned, flatten_filtered. apply IH.
Qed.

Definition first_of_type (t : string) (ids : list Identifier) : option Identifier := head (filter (λ i, id_Type i = t) ids).

Lemma add_by_type_elem acc l i : i ∈ foldl add_by_type acc l ↔
  i ∈ acc ∨ id_Type i ∉ id_Type <$> acc ∧ first_of_type (id_Type i) l = Some i.
Proof.
  revert acc. induction l as [|j l IH]; intros acc; cbn [foldl]; [naive_solver|]. rewrite IH. clear IH.
  unfold first_of_type, add_by_type. rewrite filter_cons. case_bool_decide as Hj.
  - destruct (decide (id_Type j = id_Type i)) as [E|]; [|done]. rewrite E in Hj. naive_solver.
  - rewrite fmap_app, !elem_of_app. cbn [fmap list_fmap]. rewrite !list_elem_of_singleton.
    destruct (decide (id_Type j = id_Type i)) as [E|E]; cbn [head]; [|naive_solver].
    split; [|naive_solver]. intros [[?| ->]|[Hn _]]; [by left|right; by split|]. destruct Hn. by right.
Qed.

Lemma add_by_type_nodup acc l : NoDup (id_Type <$> acc) → NoDup (id_Type <$> foldl add_by_type acc l).
Proof.
  revert acc. induction l as [|j l IH]; intros acc Hacc; [done|]. apply IH. unfold add_by_type. case_bool_decide as Hj; [done|].
  rewrite fmap_app, NoDup_app. split; [done|]. split; [|apply NoDup_singleton]. by intros t Ht ->%list_elem_of_singleton.
Qed.

Lemma compatible_self ids i : i ∈ ids → compatible normMIC ids i = true.
Proof.
  intros Hi. unfold compatible. apply orb_true_iff. left. apply existsb_exists. exists i. split; [by apply list_elem_of_In|].
  unfold sameSubject. by rewrite !String.eqb_refl, EqualFold_refl.
Qed.

Section merged.
Context (countryOf : string → string).
#[local] Notation contributions := (contributions normMIC countryOf).

Lemma contribution w winner ids rs i r inst : (i, r, inst) ∈ contributions w winner ids rs ↔
  rs !! i = Some r ∧ success r = Some inst ∧ (i = w ∨ consistentWith normMIC countryOf winner ids inst (pr_ids r) = true).
Proof.
  unfold Resolve.contributions, contributes. rewrite list_elem_of_omap. split.
  - intros ([j r'] & (k & r0 & [= <- <-] & Hk)%elem_of_lookup_imap_1 & (inst' & Hc & [= <- <- <-])%fmap_Some).
    cbn [fst snd] in *. split; [done|]. destruct (success r) as [x|]; [|done]. cbn in Hc.
    destruct (_ || _) eqn:E; [|done]. injection Hc as ->. split; [done|].
    by apply orb_true_iff in E as [?%Nat.eqb_eq|?]; [left|right].
  - intros (Hr & Hs & Hc). exists (i, r). split; [by apply elem_of_lookup_imap_2|]. cbn [fst snd]. rewrite Hs. cbn.
    assert ((i =? w) || consistentWith normMIC countryOf winner ids inst (pr_ids r) = true) as ->; [|done].
    apply orb_true_iff. destruct Hc as [->|?]; [left; apply Nat.eqb_refl|by right].
Qed.

(** The names an instrument is ensured with.  They are what the chosen answer and those
    that agree with it returned, one of each type: of several of one type the first in
    order of precedence.  So every type the chosen answer returned is named, and none
    of the names contradicts it: each either is one it gave, or neither gives another
    value for one of its subjects nor puts it on another venue than one it named. *)
Theorem merged_answers_agree w winner r rs :
  rs !! w = Some r → success r = Some winner →
  let said := contributions w winner (pr_ids r) rs in
  let ids := mg_ids (merge_answers normMIC countryOf w winner (pr_ids r) rs) in
  NoDup (id_Type <$> ids) ∧
  (∀ i, i ∈ ids ↔ first_of_type (id_Type i) (said ≫= λ c, pr_ids c.1.2) = Some i) ∧
  (∀ i, i ∈ pr_ids r → id_Type i ∈ id_Type <$> ids) ∧
  (∀ i, i ∈ ids → (∃ k, k ∈ pr_ids r ∧ sameSubject normMIC k i = true ∧ id_Value k = id_Value i) ∨
                  (∀ k, k ∈ pr_ids r → contradicts normMIC k i = false)).
Proof.
  intros Hr Hs said ids.
  assert (ids = foldl add_by_type [] (said ≫= λ c, pr_ids c.1.2)) as ->.
  { unfold ids, merge_answers. cbn [mg_ids]. fold said.
    change (claim ∘ snd ∘ fst <$> said) with (claim ∘ (λ c : nat * pluginResult * Instrument, c.1.2) <$> said).
    rewrite list_fmap_compose, flatten_claims. f_equal.
    clear. induction said as [|c l IH]; [done|]. cbn. by f_equal. }
  assert (∀ i, i ∈ foldl add_by_type [] (said ≫= λ c, pr_ids c.1.2) ↔
    first_of_type (id_Type i) (said ≫= λ c, pr_ids c.1.2) = Some i) as Hel.
  { intros i. rewrite add_by_type_elem. split; [intros [[]%elem_of_nil|[_ ?]]; done|]. right. split; [|done]. by intros ?%elem_of_nil. }
  assert (∀ i, i ∈ said ≫= (λ c, pr_ids c.1.2) → compatible normMIC (pr_ids r) i = true) as Hcompat.
  { intros i ([[j r'] inst] & Hi & (Hj & _ & Hc)%contribution)%elem_of_bind. cbn [fst snd] in Hi.
    destruct Hc as [->|Hc]; [apply compatible_self; congruence|]. unfold consistentWith in Hc.
    destruct (_ && _); [done|]. destruct (negb _); [done|]. rewrite forallb_forall in Hc. by apply Hc, list_elem_of_In. }
  assert (∀ t ids i, first_of_type t ids = Some i → i ∈ ids ∧ id_Type i = t) as Hfirst.
  { intros t ids i Hi. apply head_Some in Hi as [k Hk].
    assert (i ∈ filter (λ i, id_Type i = t) ids) as [? ?]%list_elem_of_filter; [rewrite Hk; left|done]. }
  split_and!; [apply add_by_type_nodup, NoDup_nil_2|done| |].
  - intros i Hi. assert (i ∈ said ≫= λ c, pr_ids c.1.2) as Hin.
    { apply elem_of_bind. exists (w, r, winner). split; [done|]. apply contribution. split_and!; [done..|by left]. }
    destruct (first_of_type (id_Type i) (said ≫= λ c, pr_ids c.1.2)) as [k|] eqn:E.
    + destruct (Hfirst _ _ _ E) as [_ Ht]. apply list_elem_of_fmap. exists k. split; [done|]. apply Hel. by rewrite Ht.
    + exfalso. apply head_None in E. apply (elem_of_nil i). rewrite <- E. by apply list_elem_of_filter.
  - intros i [Hi _]%Hel%Hfirst. apply Hcompat in Hi. apply orb_true_iff in Hi as [Hi|Hi].
    + left. apply existsb_exists in Hi as (k & Hk%list_elem_of_In & [Hsame Hv%String.eqb_eq]%andb_true_iff). by exists k.
    + right. intros k Hk. apply not_true_iff_false. intros Hc. apply negb_true_iff in Hi. apply not_true_iff_false in Hi.
      apply Hi, existsb_exists. exists k. split; [by apply list_elem_of_In|done].
Qed.
End merged.
End chosen.

(** ** Resolution keeps the store *)

Section sound.
Context {D : Type} `{DecimalLaws D}.
Context (gen_uuid : gset string → string) (uuid_ok : string → bool) (operating_mic : string → option string).
Context (parse_dec : string → option D) (countryOf : string → string).
Context (configs : list string) (registry : string → option plugin) (today now : Z).
Hypothesis gen_fresh : ∀ X, gen_uuid X ∉ X.
Implicit Types (s : store D) (st : rstate D).
#[local] Notation store_ok := (store_ok operating_mic).
#[local] Notation ResolveWithPlugins :=
  (ResolveWithPlugins gen_uuid uuid_ok operating_mic parse_dec countryOf configs registry today now).

Definition row_of s (id : string) : Prop := is_Some (instruments s !! id).

(** What a caller's fallback is to do: keep the store, and return a row of it. *)
Definition fallback_ok (f : store D → option string * store D) : Prop := ∀ s, store_ok s →
  let '(r, s') := f s in
  store_ok s' ∧ books_kept s s' ∧ match r with Some id => row_of s' id | None => True end.

(** Whatever a lookup finds is a row. *)
Lemma found_any_domain t v s id : store_ok s → find_any_domain t v s = Some id → row_of s id.
Proof.
  intros Hok. unfold find_any_domain, FindInstrumentByTypeAndValue, FindInstrumentByTickerIgnoringSeparators.
  assert (∀ (P : identifier → Prop) `{∀ x, Decision (P x)} r, r ∈ filter P (identifiers s) → row_of s (holder r)) as Hrow.
  { intros P HP r [_ Hr]%list_elem_of_filter. by apply (so_holders _ _ Hok). }
  destruct (filter _ (identifiers s)) as [|r rs] eqn:E.
  - destruct (String.eqb t "MIC_TICKER"); [|done].
    destruct (remove_dups _) as [|x [|]] eqn:Ed; [done| |done]. intros [= ->].
    assert (id ∈ [id]) as Hin by left. rewrite <- Ed in Hin.
    apply elem_of_remove_dups, list_elem_of_fmap in Hin as (r & -> & Hr). by eapply Hrow.
  - destruct (forallb _ rs); [intros [= <-]; eapply Hrow; rewrite E; left|].
    destruct (String.eqb t "MIC_TICKER"); [|done].
    destruct (remove_dups _) as [|x [|]] eqn:Ed; [done| |done]. intros [= ->].
    assert (id ∈ [id]) as Hin by left. rewrite <- Ed in Hin.
    apply elem_of_remove_dups, list_elem_of_fmap in Hin as (r' & -> & Hr). by eapply Hrow.
Qed.

Lemma found_hint h s r : store_ok s → lookup_hint h s = Some r → row_of s (ri_ID r).
Proof.
  intros Hok. unfold lookup_hint. destruct (_ || _); [done|]. set (v := stored_value h). clearbody v.
  unfold find_with_meta. destruct (FindInstrumentByIdentifier _ _) as [id|] eqn:E; cbn [mbind option_bind].
  - destruct (instruments s !! id) as [i|] eqn:Ei; cbn [mbind option_bind].
    + intros [= <-]. by exists i.
    + apply (find_exists operating_mic) in E as [? ?]; [congruence|done].
  - destruct (empty (id_Domain h)); [|done]. intros (id & Hf & ->)%fmap_Some. by eapply found_any_domain.
Qed.

Lemma found_by_hints hints s r : store_ok s → r ∈ ResolveByHintsDBOnly hints s → row_of s (ri_ID r).
Proof.
  intros Hok. unfold ResolveByHintsDBOnly. assert (∀ acc, (∀ x, x ∈ acc → row_of s (ri_ID x)) → ∀ hs,
    r ∈ foldl (λ resolved h, match lookup_hint h s with
      | Some r => if bool_decide (ri_ID r ∈ ri_ID <$> resolved) then resolved else resolved ++ [r]
      | None => resolved end) acc hs → row_of s (ri_ID r)) as Hall; [|apply Hall; by intros x ?%elem_of_nil].
  intros acc Hacc hs. revert acc Hacc. induction hs as [|h hs IH]; intros acc Hacc; [apply Hacc|]. cbn [foldl]. apply IH.
  destruct (lookup_hint h s) as [x|] eqn:E; [|done]. case_bool_decide; [done|]. intros y [?| ->%list_elem_of_singleton]%elem_of_app; [by apply Hacc|].
  by eapply found_hint.
Qed.
(** What a run leaves behind: the store's constraints and balances, and a log extended by
    one attempt for each level it went down at most. *)
Record kept (levels : nat) st st' : Prop := {
  kp_store : store_ok (rs_store st');
  kp_books : books_kept (rs_store st) (rs_store st');
  kp_log : ∃ new, attempts st' = attempts st ++ new ∧ length new ≤ S levels ∧
           ∀ a, a ∈ new → MaxResolveDepth - levels ≤ at_Depth a ≤ MaxResolveDepth;
}.

(** What an answer means. *)
Record answered (ident : Identity) (fallback : option (store D → option string * store D)) st (r : ResolveResult) st' : Prop := {
  aw_row : InstrumentID r ≠ EmptyString ∨ fallback ≠ None → row_of (rs_store st') (InstrumentID r);
  aw_identified : Identified r = true → row_of (rs_store st') (InstrumentID r) ∧ Unconfirmed r = false;
  aw_unidentified : Identified r = false → fallback = None → InstrumentID r = EmptyString;
  aw_guess : Identified r = true → guessed ident = true → fallback ≠ None → Confirmed r ≠ [] ∨
             ∃ x, ResolveByHintsDBOnly (lookupIDs ident) (rs_store st) = [x] ∧ InstrumentID r = ri_ID x;
  aw_unconfirmed : Unconfirmed r = true → guessed ident = true ∧ fallback ≠ None ∧ Identified r = false ∧ Confirmed r = [];
}.

Lemma kept_store levels st s : store_ok s → books_kept (rs_store st) s → kept levels st (with_store s st).
Proof. intros Hs Hb. split; [done..|]. exists []. rewrite app_nil_r. split_and!; [done|simpl; lia|by intros a ?%elem_of_nil]. Qed.

Lemma kept_log levels st a : store_ok (rs_store st) → at_Depth a = MaxResolveDepth - levels → kept levels st (log a st).
Proof.
  intros Hs Ha. split; [done|apply books_kept_refl|]. exists [a]. split_and!; [done|simpl; lia|].
  intros x ->%list_elem_of_singleton. rewrite Ha. lia.
Qed.

Lemma answered_none ident fallback st r st' : InstrumentID r = EmptyString → Identified r = false → Unconfirmed r = false →
  fallback = None → answered ident fallback st r st'.
Proof. intros Hi Hd Hu ->. split; try congruence. intros [?|?]; congruence. Qed.

Lemma short_circuit_sound depth ident x st levels fallback : store_ok (rs_store st) → depth = MaxResolveDepth - levels →
  ResolveByHintsDBOnly (lookupIDs ident) (rs_store st) = [x] →
  let '(r, st') := short_circuit operating_mic depth ident x st in
  kept levels st st' ∧ answered ident fallback st r st'.
Proof.
  intros Hs Hd Hx. unfold short_circuit. split; [by apply kept_log|].
  assert (row_of (rs_store st) (ri_ID x)) as Hrow by (eapply found_by_hints; [done|rewrite Hx; left]).
  split; cbn [InstrumentID Identified Unconfirmed Confirmed log rs_store]; try done. right. by exists x.
Qed.

Lemma unresolved_sound depth ident inputs rs fallback st levels : store_ok (rs_store st) → depth = MaxResolveDepth - levels →
  (∀ f, fallback = Some f → fallback_ok f) →
  let '(res, st') := unresolved operating_mic countryOf depth ident inputs rs fallback st in
  kept levels st st' ∧ match res with Some r => answered ident fallback st r st' | None => True end.
Proof.
  intros Hs Hd Hf. unfold unresolved. set (a := attempt_row _ _ _ _ _).
  assert (at_Depth a = MaxResolveDepth - levels) as Ha by done. clearbody a.
  pose proof (kept_log levels st a Hs Ha) as Hk. destruct fallback as [f|]; [|split; [done|by apply answered_none]].
  specialize (Hf f eq_refl (rs_store (log a st)) Hs). destruct (f _) as [res s]. destruct Hf as (Hs' & Hb & Hrow).
  assert (kept levels st (with_store s (log a st))) as Hk'.
  { destruct Hk as [_ _ Hl]. by split. }
  destruct res as [id|]; [|done]. split; [done|]. by split.
Qed.

(** The state the underlying's resolution leaves, at its own level. *)
Definition reached levels st st' : Prop :=
  store_ok (rs_store st') ∧ books_kept (rs_store st) (rs_store st') ∧
  ∃ new, attempts st' = attempts st ++ new ∧ length new ≤ levels ∧
    ∀ a, a ∈ new → MaxResolveDepth - levels ≤ at_Depth a ≤ MaxResolveDepth.

Lemma reached_kept levels st st' st'' : levels ≤ MaxResolveDepth → reached levels st st' →
  store_ok (rs_store st'') → books_kept (rs_store st') (rs_store st'') →
  attempts st'' = attempts st' ∨ (∃ a, at_Depth a = MaxResolveDepth - levels ∧ attempts st'' = attempts st' ++ [a]) →
  kept levels st st''.
Proof.
  intros Hl (_ & Hb & new & Hn & Hlen & Hd) Hs'' Hb'' Ha. split; [done|by eapply books_kept_trans|].
  destruct Ha as [->|(a & Ha & ->)].
  - exists new. split_and!; [done|lia|done].
  - exists (new ++ [a]). rewrite Hn, length_app, app_assoc. split_and!; [done|simpl; lia|].
    intros x [Hx| ->%list_elem_of_singleton]%elem_of_app; [by apply Hd|lia].
Qed.

Lemma save_kept id ids st : rs_store (save id ids st) = rs_store st ∧ attempts (save id ids st) = attempts st.
Proof. by destruct ids. Qed.

Lemma conclude_sound depth source desc ident bindSourceDescription fallback from m underlyingID cs st st1 levels :
  levels ≤ MaxResolveDepth → depth = MaxResolveDepth - levels → reached levels st st1 →
  (∀ f, fallback = Some f → fallback_ok f) →
  let '(res, st') := conclude gen_uuid uuid_ok operating_mic parse_dec now depth source desc ident bindSourceDescription fallback
    from m underlyingID cs st1 in
  kept levels st st' ∧ match res with Some r => answered ident fallback st r st' | None => True end.
Proof.
  intros Hl Hd Hr Hf. unfold conclude. cbv zeta.
  set (fields := if String.eqb _ _ then _ else _). clearbody fields.
  set (confirmed := confirmedFields _ _ _ _ _). set (l := ensured_identifiers _ _ _ _ _). clearbody l.
  pose proof Hr as (Hs1 & _).
  assert (∀ s a, store_ok s → books_kept (rs_store st1) s → at_Depth a = MaxResolveDepth - levels → ∀ id ids,
    kept levels st (log a (save id ids (with_store s st1)))) as Hkept.
  { intros s a Hs Hb Ha id ids. destruct (save_kept id ids (with_store s st1)) as [Es Ea].
    eapply reached_kept; [done..| | |]; unfold log; cbn [rs_store attempts]; rewrite ?Es, ?Ea; [done..|]. right. by exists a. }
  destruct (if guessed ident then _ else _) as [f|] eqn:Eg.
  - destruct (guessed ident) eqn:Egu; [|done]. destruct confirmed as [|] eqn:Ec; [|done]. subst fallback.
    specialize (Hf f eq_refl (rs_store st1) Hs1). destruct (f (rs_store st1)) as [[id|] s]; destruct Hf as (Hs & Hb & Hrow).
    + split; [exact (Hkept s (attempt_row depth ident "proposal_unconfirmed" EmptyString cs) Hs Hb Hd EmptyString [])|]. by split.
    + split; [|done]. eapply reached_kept; [done..|by left].
  - destruct (EnsureInstrument _ _ _ _ _ _ _ _ _ _ _ _ _ _ _) as [[id s]|] eqn:E.
    + apply ensure_spec in E as (Hs & Hrow & _ & Hb); [|done..].
      split; [by apply Hkept|]. destruct (save_kept id (mg_providers m) (with_store s st1)) as [Es _].
      split; unfold log; cbn [InstrumentID Identified Unconfirmed Confirmed rs_store]; rewrite ?Es; try done.
      intros _ Hg Hfb. left. rewrite Hg in Eg. by destruct confirmed.
    + split; [|done]. eapply reached_kept; [done..| |by left]. apply books_kept_refl.
Qed.

Lemma resolve_spec levels source desc ident bindSourceDescription fallback hintsValidAt st :
  store_ok (rs_store st) → (∀ f, fallback = Some f → fallback_ok f) → levels ≤ MaxResolveDepth →
  let '(res, st') := ResolveWithPlugins levels source desc ident bindSourceDescription fallback hintsValidAt st in
  kept levels st st' ∧ match res with Some r => answered ident fallback st r st' | None => True end.
Proof.
  revert source desc ident bindSourceDescription fallback hintsValidAt st.
  induction levels as [|levels IH]; intros source desc ident bindSourceDescription fallback hintsValidAt st Hs Hf Hl;
    cbn [Resolve.ResolveWithPlugins].
  all: assert (∀ L, reached L st st) as Hr0
    by (intros L; split_and!; [done|apply books_kept_refl|exists []; rewrite app_nil_r; split_and!; [done|simpl; lia|by intros a ?%elem_of_nil]]).
  all: destruct (ResolveByHintsDBOnly _ _) as [|x [|]] eqn:Ex;
    [|exact (short_circuit_sound _ ident x st _ fallback Hs eq_refl Ex)|].
  all: destruct (chosen _ _ _) as [[[w winner] ids]|]; [|by apply unresolved_sound].
  1,2: destruct (in_UnderlyingIdentifiers _); by apply conclude_sound.
  all: destruct (in_UnderlyingIdentifiers _) eqn:Eu; [by apply conclude_sound|].
  all: match goal with IHl : (∀ s d : string, _), Hok : store_ok (rs_store ?t)
    |- context [Resolve.ResolveWithPlugins _ _ _ _ _ _ _ _ _ ?lv ?s ?d ?i ?b ?f ?h ?t] =>
    pose proof (IHl s d i b f h t Hok ltac:(done) ltac:(lia)) as Hu;
    destruct (Resolve.ResolveWithPlugins _ _ _ _ _ _ _ _ _ lv s d i b f h t) as [u st1] end.
  all: destruct Hu as [[Hs1 Hb (new & Hn & Hlen & Hd)] _].
  all: assert (reached (S levels) st st1) as Hr by (split_and!; [done..|exists new; split_and!; [done|lia|intros a Ha; specialize (Hd a Ha); lia]]).
  all: destruct u as [u|]; by apply conclude_sound.
Qed.

(** C9: Resolving an identity.  Whatever the plugins answer - errors, time-outs, answers
    that disagree - and to whatever depth an underlying is followed, the store keeps its
    constraints and the balance of its groups, and the log gains one attempt a level at
    most, at depths up to [MaxResolveDepth].  An instrument that is answered with is a
    row of the store; without a fallback, what nothing identified is answered with none.
    A key that was only guessed identifies nothing on its own word, where the caller has
    a fallback: either the store already knew the instrument, or the answer agreed with
    something that was stated. *)
Theorem resolve_sound levels source desc ident bindSourceDescription fallback hintsValidAt st :
  store_ok (rs_store st) → (∀ f, fallback = Some f → fallback_ok f) → levels ≤ MaxResolveDepth →
  let '(res, st') := ResolveWithPlugins levels source desc ident bindSourceDescription fallback hintsValidAt st in
  kept levels st st' ∧ match res with Some r => answered ident fallback st r st' | None => True end.
Proof. apply resolve_spec. Qed.
End sound.

(** ** A run *)

Section witnesses.
#[local] Existing Instances QDecimal.q_decimal QDecimal.q_decimal_laws.

Definition sample_country (mic : string) : string := if String.eqb mic "XNAS" then "US" else EmptyString.

Definition no_dec (_ : string) : option Q := None.

Definition named (t d v : string) : Identifier := {| id_Type := t; id_Domain := d; id_Value := v |}.

Definition says (cls mic country cur name : string) : Instrument := {|
  in_AssetClass := cls; in_Venue := {| MIC := mic; Country := country |}; in_Currency := cur; in_Name := name;
  in_CIK := EmptyString; in_SICCode := EmptyString; in_UnderlyingIdentifiers := []; in_ProviderIdentifiers := [];
  in_ValidFrom := None; in_ValidBefore := None |}.

Definition replies (inst : Instrument) (ids : list Identifier) : answer * option call_error :=
  ({| an_Instrument := Some inst; an_Identifiers := ids; an_Filtered := []; an_Outcome := "identified" |}, None).

Definition fails (e : call_error) : answer * option call_error :=
  ({| an_Instrument := None; an_Identifiers := []; an_Filtered := []; an_Outcome := "error" |}, Some e).

(** A composite that names no venue, a listing that names one, a plugin that answers on
    its second call only, with a listing of another venue, and one that never does. *)
Definition sample_plugin (name : string) : option plugin :=
  let make f := Some {| pg_ID := name; pg_Kinds := ∅; pg_Types := ∅; pg_Identify := f |} in
  if String.eqb name "figi" then make (λ _ _ _ _, replies (says "STOCK" EmptyString "US" "USD" "NEWCO")
    [named "ISIN" EmptyString "US0009"; named "MIC_TICKER" EmptyString "NEW"])
  else if String.eqb name "listing" then make (λ _ _ _ _, replies (says "STOCK" "XNAS" "US" "USD" "NewCo Inc")
    [named "MIC_TICKER" "XNAS" "NEW"; named "OPENFIGI_SHARE_CLASS" EmptyString "BBG9"])
  else if String.eqb name "london" then make (λ n _ _ _,
    match n with 0 => fails OtherError | _ => replies (says "STOCK" "XLON" "GB" "GBP" "Newco plc")
      [named "MIC_TICKER" "XLON" "NEW"] end)
  else if String.eqb name "slow" then make (λ _ _ _ _, fails DeadlineExceeded) else None.

Definition sample_ident (stated proposed : list Identifier) (cur : string) : Identity :=
  {| Stated := stated; Proposed := proposed;
     id_Hints := {| h_Currency := cur; h_InstrumentKind := EmptyString; h_SecurityTypeHint := EmptyString |} |}.

Definition known_text : store Q → option string * store Q :=
  λ s, (FindInstrumentByIdentifier {| ref_Type := "ISIN"; ref_Value := "US0001"; ref_Domain := EmptyString |} (identifiers s), s).

Definition start : rstate Q := {| rs_store := twice; saved := []; attempts := [] |}.

Definition sample_run (configs : list string) (ident : Identity) : option ResolveResult * rstate Q :=
  ResolveWithPlugins sample_uuid (λ _, true) sample_mic no_dec sample_country configs sample_plugin 20 9 2
    "broker:one" "NEWCO COM" ident true (Some known_text) None start.

Lemma known_text_ok : fallback_ok sample_mic known_text.
Proof.
  intros s Hs. cbn. split_and!; [done|apply books_kept_refl|]. destruct (FindInstrumentByIdentifier _ _) as [id|] eqn:E; [|done].
  by eapply find_exists.
Qed.

(** What a source stated is identified; nothing guessed is, when nothing confirms it. *)
Lemma resolve_sound_witness :
  let stated := sample_run ["slow"; "london"; "figi"; "listing"] (sample_ident [named "ISIN" EmptyString "US0009"] [] "USD") in
  let guess := sample_run ["figi"] (sample_ident [] [named "MIC_TICKER" "XNAS" "NEW"] EmptyString) in
  match stated, guess with
  | (Some r, st), (Some r', st') =>
      Identified r = true ∧ Confirmed r = ["Currency"; "ISIN"] ∧ row_of (rs_store st) (InstrumentID r) ∧
      (pc_Outcome <$> (attempts st ≫= at_Calls)) = ["error"; "discarded_inconsistent"; "won"; "superseded"] ∧
      Unconfirmed r' = true ∧ InstrumentID r' = "one" ∧ row_of (rs_store st') "one"
  | _, _ => False
  end.
Proof.
  intros stated guess.
  pose proof (λ configs ident, resolve_sound sample_uuid (λ _, true) sample_mic no_dec sample_country configs sample_plugin 20 9
    sample_uuid_fresh 2 "broker:one" "NEWCO COM" ident true (Some known_text) None start twice_ok
    ltac:(intros f [= <-]; exact known_text_ok) (le_n 2)) as Hsound.
  pose proof (Hsound ["slow"; "london"; "figi"; "listing"] (sample_ident [named "ISIN" EmptyString "US0009"] [] "USD")) as H1.
  pose proof (Hsound ["figi"] (sample_ident [] [named "MIC_TICKER" "XNAS" "NEW"] EmptyString)) as H2.
  change (ResolveWithPlugins _ _ _ _ _ _ _ _ _ _ _ _ _ _ _ _ _) with stated in H1.
  change (ResolveWithPlugins _ _ _ _ _ _ _ _ _ _ _ _ _ _ _ _ _) with guess in H2.
  destruct stated as [[r|] st] eqn:E1; [|by vm_compute in E1]. destruct guess as [[r'|] st'] eqn:E2; [|by vm_compute in E2].
  destruct H1 as [_ [_ H1 _ _ _]], H2 as [_ [H2 _ _ _ _]]. vm_compute in E1. vm_compute in E2. injection E1 as <- <-. injection E2 as <- <-.
  split_and!; [done|done|by apply H1|done|done|done|by apply H2; right].
Defined.
Definition sample_results : list pluginResult :=
  (λ p, callPluginWithRetry p "broker:one" "NEWCO COM" (sample_ident [] [] EmptyString))
    <$> eligible ["figi"; "london"; "listing"] sample_plugin no_hints.

Lemma merged_answers_agree_witness :
  match sample_results !! 2 with
  | Some r => match success r with
    | Some winner =>
        let ids := mg_ids (merge_answers id sample_country 2 winner (pr_ids r) sample_results) in
        id_Type <$> ids = ["ISIN"; "MIC_TICKER"; "OPENFIGI_SHARE_CLASS"] ∧ NoDup (id_Type <$> ids)
    | None => False
    end
  | None => False
  end.
Proof.
  destruct (sample_results !! 2) as [r|] eqn:Er; [|by vm_compute in Er].
  destruct (success r) as [winner|] eqn:Ew; [|vm_compute in Er; injection Er as <-; by vm_compute in Ew].
  destruct (merged_answers_agree id sample_country 2 winner r sample_results Er Ew) as [Hd _]. intros ids. split; [|exact Hd].
  vm_compute in Er. injection Er as <-. vm_compute in Ew. injection Ew as <-. by vm_compute.
Defined.

(** An answer that agrees with the chosen one but comes before it has its bare ticker
    taken, and the chosen answer's ticker, which named the venue, is left out. *)
Lemma bare_ticker_displaces :
  match sample_results !! 2 with
  | Some r => match success r with
    | Some winner =>
        let ids := mg_ids (merge_answers id sample_country 2 winner (pr_ids r) sample_results) in
        named "MIC_TICKER" "XNAS" "NEW" ∈ pr_ids r ∧ named "MIC_TICKER" EmptyString "NEW" ∈ ids ∧ named "MIC_TICKER" "XNAS" "NEW" ∉ ids
    | None => False
    end
  | None => False
  end.
Proof. vm_compute. split; [left|]. split; [by right; left|]. intros Hin.
  repeat (apply elem_of_cons in Hin as [Hin|Hin]; [discriminate Hin|]). by apply elem_of_nil in Hin.
Qed.

(** Where the answer is an instrument the store already names canonically, the
    description the caller asked to bind is not stored, and the next upload of the same
    text is not resolved by lookup. *)
Lemma description_not_bound :
  let known (_ : string) := Some {| pg_ID := "known"; pg_Kinds := ∅; pg_Types := ∅; pg_Identify := λ _ _ _ _,
    replies (says "STOCK" EmptyString EmptyString "USD" "ACME") [named "ISIN" EmptyString "US0001"] |} in
  match ResolveWithPlugins sample_uuid (λ _, true) sample_mic no_dec sample_country ["known"] known 20 9 2
    "broker:one" "ACME COM" (sample_ident [] [named "CUSIP" EmptyString "009"] "USD") true (Some known_text) None start with
  | (Some r, st) => Identified r = true ∧ Confirmed r = ["Currency"] ∧ InstrumentID r = "one" ∧
      FindInstrumentBySourceDescription "broker:one" "ACME COM" (identifiers (rs_store st)) = None
  | _ => False
  end.
Proof. by vm_compute. Qed.
End witnesses.
End Resolve.
