(* ===== verification/Validate.v ===== *)
(** * What an upload may say

    server/service/ingestion/validate.go and hints.go, with the compatibility of asset
    classes of server/db/db.go: the checks a posting passes before it is resolved, the
    check of the class it was stated to be against that of the instrument it resolved
    to, and the hints resolution reads off it.

    A timestamp that is missing or not valid is [None], as in [Ledger.Tx]; a class hint
    is its stored spelling, empty when the source made no claim. *)

From stdpp Require Import pretty.
From S2P Require Import Prelude TxType Residual Ledger Weigh Identity.

Local Open Scope nat_scope.

Module Validate.
Import TxType Residual Ledger Weigh Identity.

(** ** Data *)

(** The type of a hint on the wire is [None] when unspecified; otherwise its name. *)
Record WireIdentifier := { wi_Type : option string; wi_Value : string; wi_Domain : string }.

(** [apiv1.Tx] as a source sends it. *)
Record Upload := { u_Tx : Tx; u_IdentifierHints : list WireIdentifier; u_GroupId : string }.

Inductive Broker := BROKER_UNSPECIFIED | IBKR | SCHB | FIDELITY | Broker_unrecognized (n : Z).

#[export] Instance Broker_eq_dec : EqDecision Broker.
Proof. solve_decision. Defined.

Definition problem (row : Z) (field message : string) : ValidationError :=
  {| ve_RowIndex := row; ve_Field := field; ve_Message := message |}.

Definition required_if (missing : bool) (row : Z) (field : string) : list ValidationError :=
  if missing then [problem row field "required"] else [].

(** ** Declared types *)

(** The errors of the loop, [seen] being the members before. *)
Fixpoint member_errors (seen : list TxType) (set : list TxType) (row : Z) : list ValidationError :=
  match set with
  | [] => []
  | t :: set =>
      (if decide (t = TX_TYPE_UNSPECIFIED) then [problem row "broker_tx_type" "member unspecified"]
       else if decide (t = AMBIGUOUS) then [problem row "broker_tx_type" "AMBIGUOUS cannot be declared"]
       else if bool_decide (t ∈ seen) then [problem row "broker_tx_type" ("duplicate member " +:+ TxType_String t)]
       else []) ++ member_errors (t :: seen) set row
  end.

Definition validateBrokerTxType (set : list TxType) (row : Z) : list ValidationError :=
  match set with
  | [] => [problem row "broker_tx_type" "required"]
  | _ => match member_errors [] set row with
         | [] => if Antichain set then []
                 else [problem row "broker_tx_type" "a member is an ancestor of another; state the ancestor alone"]
         | errs => errs
         end
  end.

Definition validateSettlementAmount (t : Tx) (row : Z) : list ValidationError :=
  match tx_SettlementAmount t with
  | None => []
  | Some _ => if MayBe (tx_BrokerTxType t) [TRADE_ASSET] then []
              else [problem row "settlement_amount" "not carried on a money posting, whose quantity is already the amount"]
  end.

(** ** Postings and requests *)

Definition server_derived (s : string) (row : Z) (field : string) : list ValidationError :=
  if String.eqb s EmptyString then [] else [problem row field "server-derived; not accepted on a posting a source supplied"].

Definition ValidateTx (u : option Upload) (row : Z) : list ValidationError :=
  match u with
  | None => [problem row "tx" "transaction is required"]
  | Some u =>
      let t := u_Tx u in
      required_if (bool_decide (tx_OrderDate t = None)) row "order_date"
      ++ required_if (bool_decide (tx_TradeDate t = None)) row "trade_date"
      ++ required_if (String.eqb (tx_InstrumentDescription t) EmptyString) row "instrument_description"
      ++ validateBrokerTxType (tx_BrokerTxType t) row
      ++ validateSettlementAmount t row
      ++ server_derived (tx_SyntheticPurpose t) row "synthetic_purpose"
      ++ server_derived (u_GroupId u) row "group_id"
  end.

Definition ValidateTxs (us : list (option Upload)) : list ValidationError :=
  mjoin (imap (λ i u, ValidateTx u (int32 (Z.of_nat i))) us).

Definition ValidateBroker (b : Broker) : option ValidationError :=
  if decide (b = BROKER_UNSPECIFIED) then Some (problem (-1) "broker" "required")
  else if decide (b ≠ IBKR ∧ b ≠ SCHB ∧ b ≠ FIDELITY) then Some (problem (-1) "broker" "unknown broker")
  else None.

Definition ValidateSource (source : string) : option ValidationError :=
  if String.eqb source EmptyString then Some (problem (-1) "source" "required") else None.

Definition ValidateBulkRequest (periodFrom periodBefore : option Z) : list ValidationError :=
  required_if (bool_decide (periodFrom = None)) (-1) "period_from"
  ++ required_if (bool_decide (periodBefore = None)) (-1) "period_before".

(** ** Classes *)

Definition assetClassEquivalents (implied resolved : string) : bool :=
  bool_decide ((implied, resolved) ∈ [("STOCK", "ETF"); ("ETF", "STOCK"); ("MUTUAL_FUND", "ETF"); ("ETF", "MUTUAL_FUND")]).

Definition AssetClassUnknown : string := "UNKNOWN".

Definition IsAssetClassCompatible (implied resolved : string) : bool :=
  if String.eqb resolved EmptyString || String.eqb resolved AssetClassUnknown then true
  else if String.eqb implied AssetClassUnknown then negb (String.eqb resolved AssetClassCash)
  else if String.eqb implied resolved then true
  else assetClassEquivalents implied resolved.

Section classes.
Context {D : Type}.
Implicit Types (byID : gmap string (InstrumentRow D)).

Definition class_at byID (id : string) : string :=
  default EmptyString (r ← byID !! id; ir_AssetClass r).

Definition class_error byID (row : Z) (t : Tx) (id : string) : option ValidationError :=
  if String.eqb id EmptyString || String.eqb (tx_AssetClassHint t) EmptyString then None
  else let resolved := class_at byID id in
       if IsAssetClassCompatible (tx_AssetClassHint t) resolved then None
       else Some (problem row "asset_class_hint" ("stated asset class " +:+ tx_AssetClassHint t
                    +:+ " but resolved instrument has asset class " +:+ resolved)).

(** [None] is an index out of range. *)
Definition validateAssetClasses (ts : list Tx) (originalIndices : list Z) (instrumentIDs : list string) byID
    : option (list ValidationError) :=
  errs ← mapM (λ '(i, t),
    id ← instrumentIDs !! i;
    match class_error byID 0 t id with
    | None => Some None
    | Some _ => row ← originalIndices !! i; Some (class_error byID (int32 row) t id)
    end) (imap pair ts);
  Some (omap id errs).
End classes.

(** ** The hints of a posting *)

Definition InstrumentKindCash : string := "CASH".
Definition InstrumentKindSecurity : string := "SECURITY".

Definition HintsFromTx (t : Tx) : Hints := {|
  h_Currency := tx_TradingCurrency t;
  h_InstrumentKind := if String.eqb (tx_AssetClassHint t) AssetClassCash then InstrumentKindCash else InstrumentKindSecurity;
  h_SecurityTypeHint := tx_AssetClassHint t |}.

Definition raw_hints (u : Upload) : list Identifier :=
  omap (λ h, match wi_Type h with
    | Some t => if String.eqb (wi_Value h) EmptyString then None
                else Some {| id_Type := t; id_Domain := wi_Domain h; id_Value := wi_Value h |}
    | None => None
    end) (u_IdentifierHints u).

(** ** What passes *)

(** What a source has to say of a posting, and may not. *)
Record acceptable (u : Upload) : Prop := {
  ac_order : is_Some (tx_OrderDate (u_Tx u));
  ac_trade : is_Some (tx_TradeDate (u_Tx u));
  ac_description : tx_InstrumentDescription (u_Tx u) ≠ EmptyString;
  ac_types : tx_BrokerTxType (u_Tx u) ≠ [];
  ac_members : ∀ t, t ∈ tx_BrokerTxType (u_Tx u) → t ≠ TX_TYPE_UNSPECIFIED ∧ t ≠ AMBIGUOUS;
  ac_distinct : NoDup (tx_BrokerTxType (u_Tx u));
  ac_antichain : Antichain (tx_BrokerTxType (u_Tx u)) = true;
  ac_amount : tx_SettlementAmount (u_Tx u) ≠ None → MayBe (tx_BrokerTxType (u_Tx u)) [TRADE_ASSET] = true;
  ac_purpose : tx_SyntheticPurpose (u_Tx u) = EmptyString;
  ac_group : u_GroupId u = EmptyString;
}.

Lemma required_none b row f : required_if b row f = [] ↔ b = false.
Proof. by destruct b. Qed.

Lemma derived_none s row f : server_derived s row f = [] ↔ s = EmptyString.
Proof. unfold server_derived. by destruct (String.eqb_spec s EmptyString). Qed.

Lemma member_errors_none seen set row : member_errors seen set row = [] ↔
  (∀ t, t ∈ set → t ≠ TX_TYPE_UNSPECIFIED ∧ t ≠ AMBIGUOUS ∧ t ∉ seen) ∧ NoDup set.
Proof.
  revert seen. induction set as [|t set IH]; intros seen; cbn [member_errors].
  - split; [|done]. intros _. split; [by intros t ?%elem_of_nil|constructor].
  - rewrite app_nil, IH, NoDup_cons. split.
    + intros [E (Hall & Hnd)]. repeat case_decide; try done. case_bool_decide as Hs; [done|].
      split; [|split; [intros Hin; apply (Hall t Hin); left|done]].
      intros x [->|Hx]%elem_of_cons; [done|]. destruct (Hall x Hx) as (? & ? & Hn). split_and!; [done..|]. intros ?. apply Hn. by right.
    + intros (Hall & Hn & Hnd). destruct (Hall t ltac:(left)) as (? & ? & Hs).
      rewrite !decide_False by done. rewrite bool_decide_false by done. split; [done|]. split; [|done].
      intros x Hx. destruct (Hall x ltac:(by right)) as (? & ? & ?). split_and!; [done..|]. by intros [->|?]%elem_of_cons.
Qed.

Lemma broker_types_none set row : validateBrokerTxType set row = [] ↔
  set ≠ [] ∧ (∀ t, t ∈ set → t ≠ TX_TYPE_UNSPECIFIED ∧ t ≠ AMBIGUOUS) ∧ NoDup set ∧ Antichain set = true.
Proof.
  unfold validateBrokerTxType. destruct set as [|t set]; [naive_solver|]. set (s := t :: set).
  assert (s ≠ []) as Hs by done. clearbody s. destruct (member_errors [] s row) as [|e es] eqn:E.
  - apply member_errors_none in E as [Hall Hnd]. destruct (Antichain s); [|naive_solver].
    split; [|done]. intros _. split_and!; [done| |done|done]. intros x Hx. by destruct (Hall x Hx) as (? & ? & _).
  - split; [done|]. intros (_ & Hall & Hnd & _). assert (member_errors [] s row = []) as Hn; [|by rewrite Hn in E].
    apply member_errors_none. split; [|done]. intros x Hx. destruct (Hall x Hx). split_and!; [done..|apply not_elem_of_nil].
Qed.

Lemma validate_tx_none u row : ValidateTx (Some u) row = [] ↔ acceptable u.
Proof.
  cbn [ValidateTx]. rewrite !app_nil, !required_none, !derived_none, !bool_decide_eq_false, broker_types_none, String.eqb_neq, !not_eq_None_Some.
  assert (validateSettlementAmount (u_Tx u) row = [] ↔
    (tx_SettlementAmount (u_Tx u) ≠ None → MayBe (tx_BrokerTxType (u_Tx u)) [TRADE_ASSET] = true)) as ->.
  { unfold validateSettlementAmount. destruct (tx_SettlementAmount _), (MayBe _ _); naive_solver. }
  split.
  - intros (? & ? & ? & (? & ? & ? & ?) & ? & ? & ?). by split.
  - intros []. split_and!; done.
Qed.

Lemma validate_tx_rows o row e : e ∈ ValidateTx o row → ve_RowIndex e = row.
Proof.
  assert (∀ b f, e ∈ required_if b row f → ve_RowIndex e = row) as Hreq.
  { intros [] f; [by intros ->%list_elem_of_singleton|by intros ?%elem_of_nil]. }
  assert (∀ s f, e ∈ server_derived s row f → ve_RowIndex e = row) as Hder.
  { intros s f. unfold server_derived. destruct (String.eqb _ _); [by intros ?%elem_of_nil|by intros ->%list_elem_of_singleton]. }
  assert (∀ set seen, e ∈ member_errors seen set row → ve_RowIndex e = row) as Hmem.
  { intros set. induction set as [|t set IH]; intros seen; cbn [member_errors]; [by intros ?%elem_of_nil|].
    intros [He|He]%elem_of_app; [|by eapply IH]. repeat case_decide; try case_bool_decide;
      (by apply elem_of_nil in He) || (by apply list_elem_of_singleton in He as ->). }
  destruct o as [u|]; cbn [ValidateTx]; [|by intros ->%list_elem_of_singleton].
  rewrite !elem_of_app. intros [?|[?|[?|[He|[He|[?|?]]]]]]; eauto.
  - unfold validateBrokerTxType in He. destruct (tx_BrokerTxType _) as [|t set]; [by apply list_elem_of_singleton in He as ->|].
    destruct (member_errors [] (t :: set) row) eqn:E; [|by apply (Hmem (t :: set) []); rewrite E].
    destruct (Antichain _); [by apply elem_of_nil in He|by apply list_elem_of_singleton in He as ->].
  - unfold validateSettlementAmount in He. destruct (tx_SettlementAmount _); [|by apply elem_of_nil in He].
    destruct (MayBe _ _); [by apply elem_of_nil in He|by apply list_elem_of_singleton in He as ->].
Qed.

Definition passes (o : option Upload) : Prop := ∃ u, o = Some u ∧ acceptable u.

Lemma passes_iff o row : passes o ↔ ValidateTx o row = [].
Proof.
  destruct o as [u|]; [rewrite validate_tx_none|]; unfold passes; naive_solver.
Qed.

Lemma validate_txs_elem us e : e ∈ ValidateTxs us ↔ ∃ i o, us !! i = Some o ∧ e ∈ ValidateTx o (int32 (Z.of_nat i)).
Proof.
  unfold ValidateTxs. rewrite list_elem_of_join. split.
  - intros (l & He & (i & o & -> & Ho)%elem_of_lookup_imap_1). by exists i, o.
  - intros (i & o & Ho & He). exists (ValidateTx o (int32 (Z.of_nat i))). split; [done|]. by apply (elem_of_lookup_imap_2 (λ i u, ValidateTx u (int32 (Z.of_nat i)))).
Qed.

Lemma validated us : ValidateTxs us = [] → ∀ o, o ∈ us → ∃ u, o = Some u ∧ acceptable u.
Proof.
  intros E o [i Ho]%list_elem_of_lookup. apply (passes_iff _ (int32 (Z.of_nat i))).
  destruct (ValidateTx o _) as [|e es] eqn:Ee; [done|]. exfalso. apply (elem_of_nil e). rewrite <- E. apply validate_txs_elem.
  exists i, o. split; [done|]. rewrite Ee. left.
Qed.

(** Validation reports exactly the rows that may not be uploaded: those without a
    posting, a date, a description or a set of types; with a set that names a type that
    cannot be declared, names one twice or names one beside its ancestor; with a
    settlement amount on what cannot be a trade's asset leg; or with what the server
    derives itself.  So an upload with no error is one whose every row is acceptable. *)
Theorem validation_exact us :
  (∀ n, n ∈ ve_RowIndex <$> ValidateTxs us ↔ ∃ i o, us !! i = Some o ∧ n = int32 (Z.of_nat i) ∧ ¬ passes o) ∧
  (ValidateTxs us = [] ↔ ∀ o, o ∈ us → ∃ u, o = Some u ∧ acceptable u).
Proof.
  assert (∀ n, n ∈ ve_RowIndex <$> ValidateTxs us ↔ ∃ i o, us !! i = Some o ∧ n = int32 (Z.of_nat i) ∧ ¬ passes o) as Hrows.
  { intros n. rewrite list_elem_of_fmap. setoid_rewrite validate_txs_elem. split.
    - intros (e & -> & i & o & Ho & He). exists i, o. split; [done|]. split; [by eapply validate_tx_rows|].
      intros Hp. rewrite (passes_iff _ (int32 (Z.of_nat i))) in Hp. rewrite Hp in He. by apply elem_of_nil in He.
    - intros (i & o & Ho & -> & Hp). rewrite (passes_iff _ (int32 (Z.of_nat i))) in Hp.
      destruct (ValidateTx o _) as [|e es] eqn:E; [done|]. exists e. assert (e ∈ ValidateTx o (int32 (Z.of_nat i))) as He by (rewrite E; left).
      split; [by apply validate_tx_rows in He|]. by exists i, o. }
  split; [exact Hrows|]. split.
  - apply validated.
  - intros Hall. destruct (ValidateTxs us) as [|e es] eqn:E; [done|]. exfalso.
    assert (ve_RowIndex e ∈ ve_RowIndex <$> e :: es) as (i & o & Ho & _ & Hp)%Hrows by left.
    apply Hp, Hall. by eapply list_elem_of_lookup_2.
Qed.

(** What passes resolves, where every member of its set is one the vocabulary defines;
    validation does not look for one that is not, on which resolution never returns. *)
Lemma undefined_type_passes : ∃ u, acceptable u ∧ resolve_loop 4 (tx_BrokerTxType (u_Tx u)) = None ∧
  ∀ fuel, resolve_loop fuel (tx_BrokerTxType (u_Tx u)) = None.
Proof.
  set (t := {| tx_OrderDate := Some 0%Z; tx_TradeDate := Some 0%Z; tx_Account := "A"; tx_AccountType := ACCOUNT_TYPE_UNSPECIFIED;
    tx_InstrumentDescription := "ACME"; tx_AssetClassHint := EmptyString; tx_BrokerTxType := [TRADE; TxType_unrecognized 99];
    tx_ResolvedTxType := TX_TYPE_UNSPECIFIED; tx_Quantity := "1"; tx_UnitPrice := None; tx_SettlementAmount := None;
    tx_TradingCurrency := EmptyString; tx_SettlementCurrency := EmptyString; tx_SyntheticPurpose := EmptyString; tx_Correlations := [] |}).
  exists {| u_Tx := t; u_IdentifierHints := []; u_GroupId := EmptyString |}.
  assert (∀ fuel, resolve_loop fuel (tx_BrokerTxType t) = None) as Hr.
  { intros fuel. cbn. apply climb_out_of_tree; [done|by left]. }
  split; [|split; [apply Hr|exact Hr]]. apply (validate_tx_none _ 0). by vm_compute.
Qed.
End Validate.
