(* ===== verification/Books.v ===== *)
(** * What holds of every posting

    A property of single postings that the ledger's writes keep: it holds of every
    uploaded posting, does not look at group or type, and passes from a leg to the
    counterparty routed against it.  The instance that matters is [linked]: a posting
    that weighs in an instrument is a posting of it, and its instrument is a row of the
    instrument table - the foreign key of txs. *)

From Stdlib Require Import QArith.
From S2P Require Import Prelude Decimal TxType Posting Grouping Neighbourhood Diff Residual Ledger.

Local Open Scope nat_scope.

Module Books.
Import TxType Posting Grouping Neighbourhood Diff Residual Ledger.

Section rows.
Context {D : Type} `{DecimalLaws D}.
Context (gen_uuid : gset string → string) (uuid_ok : string → bool) (parse_dec : string → option D).
Context (num_div : D → D → D) (num_scale : D → Z) (currency_instrument : string → option string).
Context (settler : option (string → list (GroupingPosting D) → ledger D → option (list GroupChange))).
Context (P : row D → Prop).
Implicit Types (l : ledger D) (t : row D).

Hypothesis P_group : ∀ g r t, P t → P (with_group g r t).
Hypothesis P_routed : ∀ t t' desc trading settlement instID desc' trading' settlement', P t →
  leg_commodity currency_instrument (r_commodity t) (r_instrument t) desc trading settlement =
    Some (instID, desc', trading', settlement') →
  r_commodity t' = r_commodity t → r_instrument t' = instID → P t'.

Definition each l : Prop := ∀ t, t ∈ txs l → P t.

Lemma each_txs l l' : (∀ t, t ∈ txs l' → t ∈ txs l) → each l → each l'.
Proof. unfold each. eauto. Qed.

Lemma each_snoc l t l' : txs l' = txs l ++ [t] → each l → P t → each l'.
Proof. intros E Hl Ht x. rewrite E. intros [?| ->%list_elem_of_singleton]%elem_of_app; [by apply Hl|done]. Qed.

Lemma each_fold {A} (f : A → ledger D → option (ledger D)) (xs : list A) :
  (∀ x l l', x ∈ xs → f x l = Some l' → each l → each l') →
  ∀ l l', foldl (λ acc x, l ← acc; f x l) (Some l) xs = Some l' → each l → each l'.
Proof.
  induction xs as [|x xs IH]; intros Hf l l'; cbn [foldl]; [by intros [= ->]|]. cbn [mbind option_bind].
  destruct (f x l) as [m|] eqn:E.
  - intros E' Hl. eapply IH; [|exact E'|by eapply Hf; [left|exact E|]]. intros y ? ? Hy. apply Hf. by right.
  - assert (foldl (λ acc x, l ← acc; f x l) None xs = None) as -> by (clear; induction xs; done). done.
Qed.

Lemma each_boundary user c l l' : P c → boundary_leg gen_uuid currency_instrument user c l = Some l' → each l → each l'.
Proof.
  intros Hc. unfold boundary_leg. destruct (Boundary _) as [acct|]; [|by intros [= ->]].
  destruct (AccountTypeToStr acct); [|done]. cbn [mbind option_bind].
  destruct (leg_commodity _ _ _ _ _ _) as [[[[instID desc] trading] settlement]|] eqn:E; [|done]. cbn [mbind option_bind].
  intros [= <-] Hl. eapply each_snoc; [reflexivity|done|]. by eapply P_routed.
Qed.

Lemma each_boundaries user ids l l' : routeBoundaries gen_uuid currency_instrument user ids l = Some l' → each l → each l'.
Proof.
  intros E Hl. unfold routeBoundaries in E. eapply each_fold; [|exact E|done].
  intros c m m' Hc. apply each_boundary, Hl. apply elem_of_go_sort, list_elem_of_filter in Hc. by destruct Hc.
Qed.

Lemma each_residual user rule l0 k l l' : each l0 →
  residual_leg gen_uuid num_div num_scale currency_instrument user rule l0 k l = Some l' → each l → each l'.
Proof.
  intros H0'. unfold residual_leg. destruct k as [g commodity].
  destruct (head (go_sort row_before (rows_of l0 g))) as [first|]; [|by intros [= ->]].
  destruct (head (go_sort row_before (rows_in l0 g commodity))) as [own|] eqn:Eo; [|by intros [= ->]].
  destruct (AccountTypeToStr _); [|done]. cbn [mbind option_bind].
  assert (own ∈ rows_in l0 g commodity) as Hown.
  { rewrite <- (elem_of_go_sort row_before). destruct (go_sort row_before (rows_in l0 g commodity)); [done|]. injection Eo as ->. left. }
  apply list_elem_of_filter in Hown as [[_ Ec] Hin]. rewrite <- Ec.
  destruct (leg_commodity _ _ _ _ _ _) as [[[[instID desc] trading] settlement]|] eqn:E; [|done]. cbn [mbind option_bind].
  intros [= <-] Hl. eapply each_snoc; [reflexivity|done|]. eapply P_routed; [by apply H0'|exact E|done|done].
Qed.

Lemma each_settle user rule ids l l' :
  settle gen_uuid num_div num_scale currency_instrument user rule ids l = Some l' → each l → each l'.
Proof.
  unfold settle. case_decide; [by intros [= ->]|].
  destruct (routeBoundaries _ _ _ _ _) as [m|] eqn:E; [|done]. cbn [mbind option_bind]. intros E' Hl.
  pose proof (each_boundaries _ _ _ _ E Hl) as Hm. unfold routeResiduals in E'. eapply each_fold; [|exact E'|done].
  intros k x x' _. by apply each_residual.
Qed.

Lemma each_settle_groups user s l l' :
  settle_groups gen_uuid uuid_ok num_div num_scale currency_instrument user s l = Some l' → each l → each l'.
Proof.
  unfold settle_groups. case_decide; [|done]. destruct (settle _ _ _ _ _ _ _ _) as [m|] eqn:E; [|done]. cbn [mbind option_bind].
  intros E' Hl. eapply each_settle; [exact E'|]. by eapply each_settle.
Qed.

Lemma each_clear user broker fromT beforeT l l' cut : clearPeriod user broker fromT beforeT l = (l', cut) → each l → each l'.
Proof.
  unfold clearPeriod, deleteReplacedPostings. set (cut' := remove_dups _). clearbody cut'. intros E. apply each_txs. intros t.
  destruct cut'; injection E as <- <-; cbn; by intros [_ ?]%list_elem_of_filter.
Qed.

(** The uploaded postings. *)
Definition each_upload (user broker account : string) (job : option string) (ts : list Tx) (insts : list string)
    (ws : list (Weight D)) (bs : list (option Z)) : Prop :=
  ∀ i (t : Tx) inst mk id g, ts !! i = Some t → insts !! i = Some inst →
    posting_row uuid_ok parse_dec user broker account job t inst (ws !! i) (mjoin (bs !! i)) = Some mk → P (mk id g).

Lemma each_insert user broker account job ts insts ws bs l out l' w :
  insertPostings gen_uuid uuid_ok parse_dec user broker account job ts insts ws bs l out = Some (l', w) →
  each_upload user broker account job ts insts ws bs → each l → each l'.
Proof.
  revert insts ws bs l out. induction ts as [|t ts IH]; intros insts ws bs l out; cbn [insertPostings]; [by intros [= -> _]|].
  destruct insts as [|inst insts]; [done|]. cbn [head mbind option_bind].
  destruct (posting_row _ _ _ _ _ _ _ _ _ _) as [mk|] eqn:Em; [|done]. cbn [mbind option_bind].
  intros E Hu Hl. eapply IH; [exact E| |].
  - intros i t' inst' mk' id g Ht Hi Hm. apply (Hu (S i) t' inst' mk' id g); [done..|]. rewrite <- Hm. f_equal; by destruct ws, bs, i.
  - eapply each_snoc; [reflexivity|done|]. apply (Hu 0 t inst mk); [done..|]. rewrite <- Em. f_equal; by destruct ws, bs.
Qed.

Lemma each_retyped (f : row D → row D) l : (∀ t, ∃ g r, f t = t ∨ f t = with_group g r t) → each l → each (with_txs l (f <$> txs l)).
Proof.
  intros Hf Hl t (t0 & -> & Ht)%list_elem_of_fmap. destruct (Hf t0) as (g & r & [->| ->]); [by apply Hl|by apply P_group, Hl].
Qed.

Lemma each_by_type (f : string → list string → ledger D → ledger D) m l :
  (∀ k ids l, each l → each (f k ids l)) → each l → each (each_type f m l).
Proof.
  intros Hf. unfold each_type. generalize (keys_of m). intros ks. revert l.
  induction ks as [|k ks IH]; intros l Hl; cbn [foldl]; [done|]. by apply IH, Hf.
Qed.

Lemma each_change user a c a' : apply_change gen_uuid user a c = Some a' → each a.1.1 → each a'.1.1.
Proof.
  destruct a as [[l s] n]. unfold apply_change. set (l1 := each_type resolve_only _ l). intros E Hl. cbn in Hl.
  assert (each l1) as Hl1.
  { apply each_by_type; [|done]. intros k ids x. unfold resolve_only. apply each_retyped. intros t.
    exists (r_group t), k. destruct (decide _); [by right|by left]. }
  clearbody l1. destruct (move_ids c); [by injection E as <-|].
  destruct (first_date _) as [d|]; [|done]. cbn [mbind option_bind] in E. injection E as <-. cbn [fst].
  apply each_by_type; [|exact Hl1]. intros k ids x. unfold move_group. apply each_retyped. intros t.
  eexists _, k. destruct (decide _); [by right|by left].
Qed.

Lemma each_changes user changes s l l' s' n :
  applyChanges gen_uuid user changes s l = Some (l', s', n) → each l → each l'.
Proof.
  unfold applyChanges. destruct (foldl _ _ changes) as [[[m sm] nm]|] eqn:E; [|done]. cbn [mbind option_bind].
  intros [= <- <- <-] Hl. assert (each m) as Hm.
  { revert E Hl. change l with (l, foldl touch_members s changes, 0).1.1 at 2. generalize (l, foldl touch_members s changes, 0).
    clear l s. change m with (m, sm, nm).1.1. generalize (m, sm, nm). intros a'.
    induction changes as [|c changes IH]; intros a; cbn [foldl]; [by intros [= ->]|]. cbn [mbind option_bind].
    destruct (apply_change _ _ a c) as [b|] eqn:Eb.
    - intros E Ha. eapply IH; [exact E|]. by eapply each_change.
    - assert (foldl (λ acc c, a ← acc; apply_change gen_uuid user a c) None changes = None) as -> by (clear; induction changes; done). done. }
  eapply each_txs; [|exact Hm]. unfold clean_up. cbn. by intros t [_ ?]%list_elem_of_filter.
Qed.

Lemma each_grouped user ids s l l' s' : groupWritten gen_uuid settler user ids s l = Some (l', s') → each l → each l'.
Proof.
  unfold groupWritten. destruct settler as [f|]; [|by intros [= -> _]]. destruct ids as [|i ids]; [by intros [= -> _]|].
  destruct (groupingPostingsByID _ _ _) as [|x seed]; [by intros [= -> _]|].
  destruct (f _ _ _) as [[|c changes]|]; [by intros [= -> _]| |done]. cbn [mbind option_bind].
  destruct (applyChanges _ _ _ _ _) as [[[m sm] nm]|] eqn:E; [|done]. cbn [mbind option_bind]. intros [= <- <-]. by eapply each_changes.
Qed.

Lemma each_replace user broker job from before ts insts ws bs l l' :
  ReplaceTxsInPeriod gen_uuid uuid_ok parse_dec num_div num_scale currency_instrument settler user broker job from before ts insts ws bs l
    = Some l' →
  (∀ job', each_upload user broker EmptyString job' ts insts ws bs) → each l → each l'.
Proof.
  unfold ReplaceTxsInPeriod. destruct (negb (uuid_ok user)); [done|]. destruct (parseNullUUID _ _) as [j|]; [|done]. cbn [mbind option_bind].
  destruct (negb _); [done|]. destruct from as [fromT|], before as [beforeT|]; try done. cbn [mbind option_bind].
  destruct (clearPeriod _ _ _ _ l) as [l1 cut] eqn:Ec. destruct (insertPostings _ _ _ _ _ _ _ _ _ _ _ l1 _) as [[l2 w]|] eqn:Ei; [|done].
  cbn [mbind option_bind]. destruct (groupWritten _ _ _ _ _ l2) as [[l3 s3]|] eqn:Eg; [|done]. cbn [mbind option_bind].
  intros Es Hu Hl. eapply each_settle_groups; [exact Es|]. eapply each_grouped; [exact Eg|].
  eapply each_insert; [exact Ei|apply Hu|]. by eapply each_clear.
Qed.

Lemma each_create user broker account job ts insts ws bs l l' :
  CreateTxGroup gen_uuid uuid_ok parse_dec num_div num_scale currency_instrument settler user broker account job ts insts ws bs l = Some l' →
  (∀ job', each_upload user broker account job' ts insts ws bs) → each l → each l'.
Proof.
  unfold CreateTxGroup. destruct (negb (uuid_ok user)); [done|]. destruct (parseNullUUID _ _) as [j|]; [|done]. cbn [mbind option_bind].
  destruct (insertPostings _ _ _ _ _ _ _ _ _ _ _ l _) as [[l2 w]|] eqn:Ei; [|done].
  cbn [mbind option_bind]. destruct (groupWritten _ _ _ _ _ l2) as [[l3 s3]|] eqn:Eg; [|done]. cbn [mbind option_bind].
  intros Es Hu Hl. eapply each_settle_groups; [exact Es|]. eapply each_grouped; [exact Eg|]. eapply each_insert; [exact Ei|apply Hu|done].
Qed.
End rows.
End Books.
