(* ===== verification/Candidates.v ===== *)
(** * What a batch already knows

    server/service/ingestion: the key a posting resolves under (resolve.go), the pre-pass
    that answers keys from the store and puts the others to the candidate plugins
    (worker.go and resolve.go), and the ledger of the keys of a batch
    (resolution_telemetry.go).

    A candidate plugin is a function from the items it is given to what it proposes for
    them by item id, with the outcome it reports; an error is [None].  [hash] is the short
    hash that names an item.  [row_id] gives the ids of telemetry rows by their number;
    without telemetry there is no ledger and a call has no id.  Token counts, durations
    and logging are left out.  Confidences are rationals. *)

From Stdlib Require Import QArith.
From S2P Require Import Prelude GoStrings TxType Residual Ledger Weigh Instruments Identity Resolve Validate.

Local Open Scope nat_scope.

Module Candidates.
Import GoStrings TxType Residual Ledger Weigh Instruments Identity Resolve Validate.

(** ** Keys *)

Definition cacheKey (source instrumentDescription : string) : string := source +:+ NUL +:+ instrumentDescription.

Definition hint_cmp : Identifier → Identifier → comparison :=
  cmp_on (λ h, (id_Type h, id_Value h)) (cmp_lex String.compare String.compare).

Definition cacheKeyWithHints (source instrumentDescription : string) (hints : list Identifier) : string :=
  match hints with
  | [] => cacheKey source instrumentDescription
  | _ => foldl (λ k h, k +:+ NUL +:+ id_Type h +:+ ":" +:+ id_Value h)
           (source +:+ NUL +:+ instrumentDescription) (go_sort (less_of hint_cmp) hints)
  end.

Definition completes (h : Identifier) : bool :=
  bool_decide (id_Type h ∈ ["CURRENCY"; "FX_PAIR"; "OCC"; "OPRA"; "FUT_OPT"; "OPENFIGI_SHARE_CLASS"; "OPENFIGI_COMPOSITE"])
  || (bool_decide (id_Type h ∈ ["MIC_TICKER"; "OPENFIGI_TICKER"]) && negb (empty (TrimSpace (id_Domain h)))).

Definition identityComplete (stated : list Identifier) : bool := existsb completes stated.

Definition hintsByType (hints : list Identifier) (typ : string) : list Identifier := filter (λ h, id_Type h = typ) hints.

Definition identifierHintsFromTx (u : Upload) : list Identifier := FilterIdentifierHints (raw_hints u).

(** ** Candidate plugins *)

Record BatchItem := { bi_ID : string; bi_InstrumentDescription : string; bi_Stated : list Identifier; bi_Hints : Hints }.

Record Proposal := { pp_Field : string; pp_Identifier : Identifier; pp_Confidence : Q }.

Record candidate := {
  cp_ID : string;
  cp_Precedence : Z;
  cp_Kinds : gset string;
  cp_Types : gset string;
  cp_ProposeBatch : string → string → list BatchItem → option (gmap string (list Proposal)) * string;
}.

Record keyProposals := { kp_CallID : string; kp_Proposals : list Proposal }.

(** A row of candidate_plugin_call. *)
Record candidate_call := {
  cc_PluginID : string;
  cc_Precedence : Z;
  cc_BatchSize : nat;
  cc_ItemsCompleted : nat;
  cc_FieldsProposed : nat;
  cc_Outcome : string;
}.

Definition proposedIdentifiers (ps : list Proposal) : list Identifier := pp_Identifier <$> ps.

(** What the filter keeps of an item's proposals. *)
Definition kept_proposals (filt : Identifier → option Identifier) (ps : list Proposal) : list Proposal :=
  omap (λ p, (λ i, {| pp_Field := pp_Field p; pp_Identifier := i; pp_Confidence := pp_Confidence p |}) <$> filt (pp_Identifier p)) ps.

Definition kept_of (filt : Identifier → option Identifier) (proposed : gmap string (list Proposal)) : gmap string (list Proposal) :=
  omap (λ ps, match kept_proposals filt ps with [] => None | k => Some k end) proposed.

Record candidate_run := {
  cr_resolved : gset string;
  cr_attempted : gset string;
  cr_merged : gmap string keyProposals;
  cr_calls : list candidate_call;
}.

Section candidates.
Context (filt : Identifier → option Identifier) (row_id : option (nat → string)).

(** [writeCandidatePluginCall] of the call after [n] others. *)
Definition call_id (n : nat) : string := match row_id with Some f => f n | None => EmptyString end.

Definition record_call (c : candidate_call) (r : candidate_run) : list candidate_call :=
  match row_id with Some _ => cr_calls r ++ [c] | None => cr_calls r end.

Definition candidate_step (broker source : string) (items : list BatchItem) (r : candidate_run) (p : candidate) : candidate_run :=
  let filtered := filter (λ i, bi_ID i ∉ cr_resolved r ∧ ShouldAttemptPlugin (cp_Kinds p) (cp_Types p)
    (h_InstrumentKind (bi_Hints i)) (h_SecurityTypeHint (bi_Hints i)) = true) items in
  let attempted := cr_attempted r ∪ list_to_set (bi_ID <$> filtered) in
  match filtered with
  | [] => {| cr_resolved := cr_resolved r; cr_attempted := attempted; cr_merged := cr_merged r; cr_calls := cr_calls r |}
  | _ =>
      let call done fields outcome := {| cc_PluginID := cp_ID p; cc_Precedence := cp_Precedence p;
        cc_BatchSize := length filtered; cc_ItemsCompleted := done; cc_FieldsProposed := fields; cc_Outcome := outcome |} in
      match cp_ProposeBatch p broker source filtered with
      | (None, outcome) =>
          {| cr_resolved := cr_resolved r; cr_attempted := attempted; cr_merged := cr_merged r;
             cr_calls := record_call (call 0 0 (if empty outcome then "error" else outcome)) r |}
      | (Some proposed, outcome) =>
          let kept := kept_of filt proposed in
          {| cr_resolved := cr_resolved r ∪ dom kept; cr_attempted := attempted;
             cr_merged := ((λ ps, {| kp_CallID := call_id (length (cr_calls r)); kp_Proposals := ps |}) <$> kept) ∪ cr_merged r;
             cr_calls := record_call (call (size kept) (sum_list (length <$> (map_to_list kept).*2)) outcome) r |}
      end
  end.

Definition no_run : candidate_run := {| cr_resolved := ∅; cr_attempted := ∅; cr_merged := ∅; cr_calls := [] |}.

Definition batch_outcome (r : candidate_run) (i : BatchItem) : string :=
  if bool_decide (bi_ID i ∈ cr_resolved r) then "fields_proposed"
  else if bool_decide (bi_ID i ∈ cr_attempted r) then "nothing_proposed"
  else "not_attempted_type_filter".

(** [candidates] are the plugins of the enabled configurations that are registered, in
    order of precedence; [None] is an installation with no registry.  An item named
    twice has the outcome of the last. *)
Definition runCandidatePluginsBatch (candidates : option (list candidate)) (broker source : string) (items : list BatchItem)
    : gmap string keyProposals * gmap string string * list candidate_call :=
  let outcomes f : gmap string string := foldl (λ m i, <[bi_ID i := f i]> m) ∅ items in
  match candidates, items with
  | None, _ | _, [] | Some [], _ => (∅, outcomes (λ _, "not_attempted_no_plugins"), [])
  | Some ps, _ =>
      let r := foldl (candidate_step broker source items) no_run ps in
      (cr_merged r, outcomes (batch_outcome r), cr_calls r)
  end.
End candidates.

(** ** The pre-pass *)

Record IdentificationError := { ie_RowIndex : Z; ie_InstrumentDescription : string; ie_Message : string }.

Record resolveResult := {
  rr_InstrumentID : string;
  rr_IdErr : option IdentificationError;
  rr_FirstRowIndex : Z;
  rr_DBHitOutcome : string;
}.

Definition db_hit (id outcome : string) : resolveResult :=
  {| rr_InstrumentID := id; rr_IdErr := None; rr_FirstRowIndex := 0; rr_DBHitOutcome := outcome |}.

Record prePass := {
  pre_resolved : gmap string resolveResult;
  pre_conflicts : gset string;
  pre_proposed : gmap string keyProposals;
  pre_descOnly : gmap string string;
  pre_outcome : gmap string string;
}.

(** What one key is, as far as the store can tell. *)
Inductive key_state :=
  | Answered (r : resolveResult)
  | Conflicting
  | Declined (descOnly : option string) (outcome : string)
  | Open_ (descOnly : option string).

Section prepass.
Context {D : Type} (completesPartialIdentity : bool) (hash : string → string).
Implicit Types (s : store D) (u : Upload).

Definition key_of (source : string) u : string :=
  cacheKeyWithHints source (tx_InstrumentDescription (u_Tx u)) (identifierHintsFromTx u).

Definition classify (source : string) s u : key_state :=
  let desc := tx_InstrumentDescription (u_Tx u) in
  match identifierHintsFromTx u with
  | [] => match FindInstrumentBySourceDescription source desc (identifiers s) with
          | Some id => Answered (db_hit id "db_source_description")
          | None => Open_ None
          end
  | hints =>
      match ResolveIDsByHintsDBOnly hints s with
      | _ :: _ :: _ => Conflicting
      | [id] => Answered (db_hit id "db_identifier_hints")
      | [] =>
          let descOnly := FindDescriptionOnlyInstrument source desc (identifiers s) in
          if negb completesPartialIdentity then Declined descOnly "not_attempted_run_kind"
          else if identityComplete hints then Declined descOnly "not_attempted_identity_complete"
          else Open_ descOnly
      end
  end.

(** The first posting of each key. *)
Definition first_of_key (source : string) (us : list Upload) : list Upload :=
  foldl (λ acc u, if bool_decide (key_of source u ∈ key_of source <$> acc) then acc else acc ++ [u]) [] us.

Definition item_of (source : string) u : BatchItem := {|
  bi_ID := hash (key_of source u); bi_InstrumentDescription := tx_InstrumentDescription (u_Tx u);
  bi_Stated := identifierHintsFromTx u; bi_Hints := HintsFromTx (u_Tx u) |}.

Definition empty_pre : prePass :=
  {| pre_resolved := ∅; pre_conflicts := ∅; pre_proposed := ∅; pre_descOnly := ∅; pre_outcome := ∅ |}.

Definition with_desc (k : string) (d : option string) (m : gmap string string) : gmap string string :=
  match d with Some id => <[k := id]> m | None => m end.

(** One turn of the loop: what it learns of a key, and the item for the plugins. *)
Definition prepass_step (source : string) s (acc : prePass * list (string * BatchItem)) u : prePass * list (string * BatchItem) :=
  let '(p, items) := acc in
  let k := key_of source u in
  match classify source s u with
  | Answered r =>
      ({| pre_resolved := <[k := r]> (pre_resolved p); pre_conflicts := pre_conflicts p; pre_proposed := pre_proposed p;
          pre_descOnly := pre_descOnly p; pre_outcome := <[k := "not_attempted_db_hit"]> (pre_outcome p) |}, items)
  | Conflicting =>
      ({| pre_resolved := pre_resolved p; pre_conflicts := {[ k ]} ∪ pre_conflicts p; pre_proposed := pre_proposed p;
          pre_descOnly := pre_descOnly p; pre_outcome := <[k := "not_attempted_conflicting_hints"]> (pre_outcome p) |}, items)
  | Declined d o =>
      ({| pre_resolved := pre_resolved p; pre_conflicts := pre_conflicts p; pre_proposed := pre_proposed p;
          pre_descOnly := with_desc k d (pre_descOnly p); pre_outcome := <[k := o]> (pre_outcome p) |}, items)
  | Open_ d =>
      ({| pre_resolved := pre_resolved p; pre_conflicts := pre_conflicts p; pre_proposed := pre_proposed p;
          pre_descOnly := with_desc k d (pre_descOnly p); pre_outcome := pre_outcome p |}, items ++ [(k, item_of source u)])
  end.

Definition proposeCandidates (filt : Identifier → option Identifier) (row_id : option (nat → string))
    (candidates : option (list candidate)) (source broker : string) (us : list Upload) s : prePass * list candidate_call :=
  let '(p, items) := foldl (prepass_step source s) (empty_pre, []) (first_of_key source us) in
  match items with
  | [] => (p, [])
  | _ =>
      let '(proposed, outcomes, calls) := runCandidatePluginsBatch filt row_id candidates broker source items.*2 in
      ({| pre_resolved := pre_resolved p; pre_conflicts := pre_conflicts p;
          pre_proposed := list_to_map (omap (λ x, (λ kp, (x.1, kp)) <$> proposed !! bi_ID x.2) items);
          pre_descOnly := pre_descOnly p;
          pre_outcome := foldl (λ m x, <[x.1 := default EmptyString (outcomes !! bi_ID x.2)]> m) (pre_outcome p) items |}, calls)
  end.
End prepass.

(** ** The ledger of a batch's keys *)

Record key_row := {
  kr_Source : string;
  kr_Description : string;
  kr_TxCount : nat;
  kr_HadIdentifierHints : bool;
  kr_SecurityTypeHint : string;
  kr_InstrumentKind : string;
}.

Record key_stamp := {
  ks_Key : string;
  ks_CandidateOutcome : string;
  ks_Outcome : string;
  ks_Mismatch : string;
  ks_HintDiffs : string;
  ks_InstrumentID : string;
}.

Record field_row := {
  fr_Key : string;
  fr_CallID : string;
  fr_Field : string;
  fr_Value : string;
  fr_Confidence : option Q;
  fr_Outcome : proposal_outcome;
}.

(** [resolutionKeys], with the rows written so far; a row names its key. *)
Record resolutionKeys := {
  rk_candidate : gmap string string;
  rk_proposed : gmap string keyProposals;
  rk_fieldOutcomes : gmap string (list ProposalOutcome);
  rk_mismatched : gmap string string;
  rk_hintDiffs : gmap string string;
  rk_stamped : gset string;
  rk_started : list (string * key_row);
  rk_ended : list key_stamp;
  rk_fields : list field_row;
}.

Definition row_of_key (source key : string) (us : list Upload) (u : Upload) : key_row := {|
  kr_Source := source; kr_Description := tx_InstrumentDescription (u_Tx u);
  kr_TxCount := length (filter (λ u', key_of source u' = key) us);
  kr_HadIdentifierHints := 0 <? length (identifierHintsFromTx u);
  kr_SecurityTypeHint := h_SecurityTypeHint (HintsFromTx (u_Tx u));
  kr_InstrumentKind := h_InstrumentKind (HintsFromTx (u_Tx u)) |}.

Definition newResolutionKeys (telemetry : bool) (source : string) (us : list Upload) (pre : prePass) : option resolutionKeys :=
  if telemetry then
    let firsts := first_of_key source us in
    let keys := key_of source <$> firsts in
    Some {| rk_candidate := list_to_map ((λ k, (k, default EmptyString (pre_outcome pre !! k))) <$> keys);
            rk_proposed := filter (λ x, x.1 ∈ keys) (pre_proposed pre);
            rk_fieldOutcomes := ∅; rk_mismatched := ∅; rk_hintDiffs := ∅; rk_stamped := ∅;
            rk_started := (λ u, (key_of source u, row_of_key source (key_of source u) us u)) <$> firsts;
            rk_ended := []; rk_fields := [] |}
  else None.

Definition keys_mismatch (key which : string) (k : resolutionKeys) : resolutionKeys :=
  if empty which || negb (empty (default EmptyString (rk_mismatched k !! key))) then k
  else {| rk_candidate := rk_candidate k; rk_proposed := rk_proposed k; rk_fieldOutcomes := rk_fieldOutcomes k;
          rk_mismatched := <[key := which]> (rk_mismatched k); rk_hintDiffs := rk_hintDiffs k; rk_stamped := rk_stamped k;
          rk_started := rk_started k; rk_ended := rk_ended k; rk_fields := rk_fields k |}.

Definition keys_hintDiff (key summary : string) (k : resolutionKeys) : resolutionKeys :=
  if empty summary then k
  else {| rk_candidate := rk_candidate k; rk_proposed := rk_proposed k; rk_fieldOutcomes := rk_fieldOutcomes k;
          rk_mismatched := rk_mismatched k; rk_hintDiffs := <[key := summary]> (rk_hintDiffs k); rk_stamped := rk_stamped k;
          rk_started := rk_started k; rk_ended := rk_ended k; rk_fields := rk_fields k |}.

Definition keys_fields (key : string) (outcomes : list ProposalOutcome) (k : resolutionKeys) : resolutionKeys :=
  match outcomes, rk_fieldOutcomes k !! key with
  | [], _ | _, Some _ => k
  | _, None => {| rk_candidate := rk_candidate k; rk_proposed := rk_proposed k;
      rk_fieldOutcomes := <[key := outcomes]> (rk_fieldOutcomes k); rk_mismatched := rk_mismatched k;
      rk_hintDiffs := rk_hintDiffs k; rk_stamped := rk_stamped k; rk_started := rk_started k; rk_ended := rk_ended k;
      rk_fields := rk_fields k |}
  end.

(** The verdict on an identifier is the last reported. *)
Definition verdict (outcomes : list ProposalOutcome) (i : Identifier) : proposal_outcome :=
  default FieldUnused (po_Outcome <$> last (filter (λ o, po_Identifier o = i) outcomes)).

Definition writeFields (key : string) (k : resolutionKeys) : list field_row :=
  match rk_proposed k !! key with
  | Some kp =>
      if empty (kp_CallID kp) then []
      else (λ p, {| fr_Key := key; fr_CallID := kp_CallID kp; fr_Field := pp_Field p; fr_Value := id_Value (pp_Identifier p);
                    fr_Confidence := if Qle_bool (pp_Confidence p) 0 then None else Some (pp_Confidence p);
                    fr_Outcome := verdict (default [] (rk_fieldOutcomes k !! key)) (pp_Identifier p) |}) <$> kp_Proposals kp
  | None => []
  end.

Definition keys_end (key outcome instrumentID : string) (k : resolutionKeys) : resolutionKeys :=
  if bool_decide (key ∈ rk_stamped k) then k
  else {| rk_candidate := rk_candidate k; rk_proposed := rk_proposed k; rk_fieldOutcomes := rk_fieldOutcomes k;
          rk_mismatched := rk_mismatched k; rk_hintDiffs := rk_hintDiffs k; rk_stamped := {[ key ]} ∪ rk_stamped k;
          rk_started := rk_started k;
          rk_ended := rk_ended k ++ [{| ks_Key := key; ks_CandidateOutcome := default EmptyString (rk_candidate k !! key);
            ks_Outcome := outcome; ks_Mismatch := default EmptyString (rk_mismatched k !! key);
            ks_HintDiffs := default EmptyString (rk_hintDiffs k !! key); ks_InstrumentID := instrumentID |}];
          rk_fields := rk_fields k ++ writeFields key k |}.

Definition resolutionOutcome (r : ResolveResult) : string :=
  if Identified r then "identified" else if Unconfirmed r then "proposal_unconfirmed"
  else if HadTimeout r then "plugin_timeout" else if HadError r then "plugin_unavailable" else "broker_description_only".
End Candidates.
