(* ===== verification/Ingest.v ===== *)
(** * Ingesting a batch

    server/service/ingestion: the resolution of one posting (resolve.go), of every posting
    of a batch (worker.go), and [ingestBatch] (ingest.go), which validates, resolves,
    checks, weighs and stores a batch; and the transactions of an archive, which are
    batches in a row (tx_import.go).

    The store, the log of attempts, the cache the pre-pass filled and the ledger of keys
    are threaded as one state.  The pre-pass reads the store once, before anything
    resolves.  [currencyInstrument] is the lookup of a seeded currency the ledger's
    transaction makes.  An error from the database fails the batch after its
    resolutions, which are transactions of their own, have been committed; a posting
    whose instrument is no row any more is such an error, for the foreign key of txs.

    A batch over a set of types on which [txtype.Resolve] never returns is [Hangs], and an
    index out of range would be [Panics]. *)

From Stdlib Require Import QArith.
From S2P Require Import Prelude GoStrings Decimal TxType Posting Grouping Neighbourhood Diff Residual Ledger Instruments Weigh Books Identity Resolve Validate Candidates.

Local Open Scope nat_scope.

Module Ingest.
Import GoStrings TxType Posting Grouping Neighbourhood Diff Residual Ledger Instruments Weigh Books Identity Resolve Validate Candidates.

Definition MsgExtractionFailed : string := "description extraction failed".
Definition MsgBrokerDescriptionOnly : string := "broker description only".
Definition MsgPluginTimeout : string := "plugin timeout".
Definition MsgPluginUnavailable : string := "plugin unavailable".
Definition MsgProposalUnconfirmed : string := "proposed identifier unconfirmed".

Record istate {D : Type} := {
  i_run : rstate D;
  i_cache : gmap string resolveResult;
  i_keys : option resolutionKeys;
}.
#[global] Arguments istate : clear implicits.

(** [currencyInstrumentSQL] *)
Definition currencyInstrument (ids : list identifier) (code : string) : option string :=
  holder <$> head (filter (λ r, ii_Ref (naming r) = {| ref_Type := "CURRENCY"; ref_Value := code; ref_Domain := EmptyString |}) ids).

Definition hintDiffsSummary (diffs : list HintDiff) : string :=
  String.concat ", " ((λ d, hd_Field d +:+ ": " +:+ hd_HintValue d +:+ "->" +:+ hd_ResolvedValue d) <$> diffs).

Definition fallback_message (r : ResolveResult) : string :=
  if Unconfirmed r then MsgProposalUnconfirmed else if HadTimeout r then MsgPluginTimeout
  else if HadError r then MsgPluginUnavailable else MsgBrokerDescriptionOnly.

(** Every row the foreign key of a posting may name is there. *)
Definition instruments_exist {D} (ids : list string) (s : store D) : bool :=
  forallb (λ id, empty id || bool_decide (is_Some (instruments s !! id))) ids.

Record ingestParams := {
  p_UserID : string;
  p_Broker : string;
  p_Source : string;
  p_JobID : string;
  p_Txs : list (option Upload);
  p_ShareCountBasis : list (option Z);
  p_PeriodFrom : option Z;
  p_PeriodBefore : option Z;
  p_ExportedAt : option Z;
  p_RowIndices : option (list Z);
}.

(** What became of a batch.  A failure names the row and the field of the one problem
    reported; its text is the database's. *)
Inductive batch_result :=
  | Stored_ (count : nat) (instrumentIDs : list string)
  | BatchRejected (errs : list ValidationError)
  | BatchFailed (row : Z) (field : string)
  | Panics
  | Hangs.

Section ingest.
Context {D : Type} `{Decimal D}.
Context (gen_uuid : gset string → string) (uuid_ok : string → bool) (operating_mic : string → option string).
Context (parse_dec : string → option D) (countryOf : string → string).
Context (num_div : D → D → D) (num_scale : D → Z).
Context (settler : option (string → list (GroupingPosting D) → ledger D → option (list GroupChange))).
Context (configs : list string) (registry : string → option plugin) (candidates : option (list candidate)).
Context (hash : string → string) (row_id : option (nat → string)) (today now : Z).
Implicit Types (s : store D) (st : istate D).

(** ** Resolving a posting *)

Definition description_input (source desc : string) : IdentifierInput := {|
  ii_Ref := {| ref_Type := "BROKER_DESCRIPTION"; ref_Value := desc; ref_Domain := source |};
  ii_Canonical := false; ii_ValidFrom := None; ii_ValidBefore := None |}.

Definition ensure_description (source desc : string) s : option (string * store D) :=
  EnsureInstrument gen_uuid uuid_ok operating_mic EmptyString EmptyString EmptyString EmptyString EmptyString
    [description_input source desc] EmptyString None None None now s.

(** The fallback handed to [ResolveWithPlugins]. *)
Definition description_fallback (source desc : string) s : option string * store D :=
  match ensure_description source desc s with Some (id, s) => (Some id, s) | None => (None, s) end.

Definition with_run (r : rstate D) st : istate D := {| i_run := r; i_cache := i_cache st; i_keys := i_keys st |}.

Definition with_cache (key : string) (r : resolveResult) st : istate D :=
  {| i_run := i_run st; i_cache := <[key := r]> (i_cache st); i_keys := i_keys st |}.

Definition on_keys (f : resolutionKeys → resolutionKeys) st : istate D :=
  {| i_run := i_run st; i_cache := i_cache st; i_keys := f <$> i_keys st |}.

(** [primary] is the resolution that decides the key; the others are probes, which are
    given no cache. *)
Definition resolveWithIdentifierPlugins (source desc : string) (ident : Identity) (key : string) (rowIndex : Z)
    (bindSourceDescription : bool) (hintsValidAt : option Z) (primary : bool) st : option resolveResult * istate D :=
  match ResolveWithPlugins gen_uuid uuid_ok operating_mic parse_dec countryOf configs registry today now MaxResolveDepth
          source desc ident bindSourceDescription (Some (description_fallback source desc)) hintsValidAt (i_run st) with
  | (None, run) => (None, with_run run st)
  | (Some result, run) =>
      let st := with_run run st in
      let r := {| rr_InstrumentID := InstrumentID result;
                  rr_IdErr := if Identified result then None
                              else Some {| ie_RowIndex := rowIndex; ie_InstrumentDescription := desc;
                                           ie_Message := fallback_message result |};
                  rr_FirstRowIndex := rowIndex; rr_DBHitOutcome := EmptyString |} in
      if primary then
        let st := match HintDiffs result with [] => st | ds => on_keys (keys_hintDiff key (hintDiffsSummary ds)) st end in
        let st := on_keys (keys_fields key (ProposalOutcomes result)) st in
        let st := with_cache key r st in
        (Some r, on_keys (keys_end key (resolutionOutcome result) (rr_InstrumentID r)) st)
      else (Some r, st)
  end.

Definition probe_id (r : option resolveResult) : string := default EmptyString (rr_InstrumentID <$> r).

Definition Resolve (source : string) (pre : prePass) (hintsValidAt : option Z) (rowIndex : Z) (u : Upload) st
    : option resolveResult * istate D :=
  let desc := tx_InstrumentDescription (u_Tx u) in
  let hints := HintsFromTx (u_Tx u) in
  let identifierHints := identifierHintsFromTx u in
  let key := cacheKeyWithHints source desc identifierHints in
  let proposals := match pre_proposed pre !! key with Some kp => proposedIdentifiers (kp_Proposals kp) | None => [] end in
  let ask stated proposed := resolveWithIdentifierPlugins source desc
    {| Stated := stated; Proposed := proposed; id_Hints := hints |} key rowIndex in
  match i_cache st !! key with
  | Some r =>
      (Some r, on_keys (keys_end key (if empty (rr_DBHitOutcome r) then "db_source_description" else rr_DBHitOutcome r)
                          (rr_InstrumentID r)) st)
  | None =>
      match identifierHints with
      | _ :: _ =>
          if bool_decide (key ∈ pre_conflicts pre) then (None, on_keys (keys_end key "conflicting_hints" EmptyString) st)
          else ask identifierHints proposals (bool_decide (is_Some (pre_descOnly pre !! key))) hintsValidAt true st
      | [] =>
          match proposals with
          | [] =>
              match ensure_description source desc (rs_store (i_run st)) with
              | None => (None, st)
              | Some (id, s) =>
                  let r := {| rr_InstrumentID := id;
                    rr_IdErr := Some {| ie_RowIndex := rowIndex; ie_InstrumentDescription := desc; ie_Message := MsgExtractionFailed |};
                    rr_FirstRowIndex := rowIndex; rr_DBHitOutcome := EmptyString |} in
                  (Some r, on_keys (keys_end key "extraction_failed" id) (with_cache key r (with_run (with_store s (i_run st)) st)))
              end
          | _ =>
              let tickers := hintsByType proposals "MIC_TICKER" in
              let figis := hintsByType proposals "OPENFIGI_SHARE_CLASS" in
              match tickers, figis with
              | _ :: _, _ :: _ =>
                  let '(byTicker, st) := ask [] tickers true hintsValidAt false st in
                  let '(byFigi, st) := ask [] figis true hintsValidAt false st in
                  if negb (empty (probe_id byTicker)) && negb (empty (probe_id byFigi))
                     && negb (String.eqb (probe_id byTicker) (probe_id byFigi))
                  then ask [] tickers true hintsValidAt true (on_keys (keys_mismatch key "figi_vs_ticker") st)
                  else ask [] proposals true hintsValidAt true st
              | _, _ => ask [] proposals true hintsValidAt true st
              end
          end
      end
  end.

(** ** Resolving a batch *)

Fixpoint resolve_rows (source : string) (pre : prePass) (exportedAt : option Z) (rows : list (Z * Upload)) (ids : list string) st
    : option (list string) * istate D :=
  match rows with
  | [] => (Some ids, st)
  | (row, u) :: rows =>
      match Resolve source pre exportedAt row u st with
      | (None, st) => (None, st)
      | (Some r, st) => resolve_rows source pre exportedAt rows (ids ++ [rr_InstrumentID r]) st
      end
  end.

(** The instruments of the postings, and the errors left in the cache, in some order. *)
Definition resolveInstruments (source : string) (pre : prePass) (exportedAt : option Z) (rows : list (Z * Upload)) (run : rstate D)
    : option (list string * list IdentificationError) * istate D :=
  let st := {| i_run := run; i_cache := pre_resolved pre;
               i_keys := newResolutionKeys (bool_decide (is_Some row_id)) source rows.*2 pre |} in
  match resolve_rows source pre exportedAt rows [] st with
  | (None, st) => (None, st)
  | (Some ids, st) => (Some (ids, omap rr_IdErr (map_to_list (i_cache st)).*2), st)
  end.

Definition row_of_instrument (i : instrument D) : InstrumentRow D :=
  {| ir_AssetClass := asset_class i; ir_Currency := i_currency i; ir_ContractMultiplier := contract_multiplier i |}.

Definition instrumentsByID (ids : list string) s : gmap string (InstrumentRow D) :=
  row_of_instrument <$> filter (λ x, x.1 ∈ ids ∧ x.1 ≠ EmptyString) (instruments s).

(** ** The batch *)

Definition resolved_types (us : list Upload) : option (list Upload) :=
  mapM (λ u, t ← resolve_loop 4 (tx_BrokerTxType (u_Tx u));
    let x := u_Tx u in
    Some {| u_Tx := {| tx_OrderDate := tx_OrderDate x; tx_TradeDate := tx_TradeDate x; tx_Account := tx_Account x;
              tx_AccountType := tx_AccountType x; tx_InstrumentDescription := tx_InstrumentDescription x;
              tx_AssetClassHint := tx_AssetClassHint x; tx_BrokerTxType := tx_BrokerTxType x; tx_ResolvedTxType := t;
              tx_Quantity := tx_Quantity x; tx_UnitPrice := tx_UnitPrice x; tx_SettlementAmount := tx_SettlementAmount x;
              tx_TradingCurrency := tx_TradingCurrency x; tx_SettlementCurrency := tx_SettlementCurrency x;
              tx_SyntheticPurpose := tx_SyntheticPurpose x; tx_Correlations := tx_Correlations x |};
            u_IdentifierHints := u_IdentifierHints u; u_GroupId := u_GroupId u |}) us.

Definition row_index (p : ingestParams) (i : nat) : Z := default (Z.of_nat i) (l ← p_RowIndices p; l !! i).

Definition replacing (p : ingestParams) : bool := bool_decide (is_Some (p_PeriodFrom p) ∧ is_Some (p_PeriodBefore p)).

(** The write of the ledger, against the instruments as resolution left them. *)
Definition store_postings (p : ingestParams) (ts : list Tx) (ids : list string) (ws : list (Weight D)) s : option (store D) :=
  if negb (instruments_exist ids s) then None else
  let currency := currencyInstrument (identifiers s) in
  l ← (if replacing p then
         ReplaceTxsInPeriod gen_uuid uuid_ok parse_dec num_div num_scale currency settler (p_UserID p) (p_Broker p) (p_JobID p)
           (p_PeriodFrom p) (p_PeriodBefore p) ts ids ws (p_ShareCountBasis p) (book s)
       else
         CreateTxGroup gen_uuid uuid_ok parse_dec num_div num_scale currency settler (p_UserID p) (p_Broker p)
           (default EmptyString (tx_Account <$> head ts)) (p_JobID p) ts ids ws (p_ShareCountBasis p) (book s));
  Some {| instruments := instruments s; identifiers := identifiers s; declared := declared s; book := l |}.

(** [identErrors] is what is appended to the job's identification errors. *)
Record batch_out := { bo_run : rstate D; bo_keys : option resolutionKeys; bo_calls : list candidate_call;
                      bo_identErrors : list IdentificationError }.

Definition untouched (run : rstate D) : batch_out := {| bo_run := run; bo_keys := None; bo_calls := []; bo_identErrors := [] |}.

Definition store_checked (p : ingestParams) (us : list Upload) (ids : list string) (run : rstate D) : batch_result * rstate D :=
  let ts := u_Tx <$> us in
  let rowIdx := imap (λ i _, row_index p i) us in
  let byID := instrumentsByID ids (rs_store run) in
  match validateAssetClasses ts rowIdx ids byID with
  | None => (Panics, run)
  | Some ((_ :: _) as errs) => (BatchRejected errs, run)
  | Some [] =>
      let insts := balanceInstruments byID in
      match validateWeightNeutrality parse_dec ts rowIdx ids insts, weights parse_dec ts ids insts with
      | Some ((_ :: _) as errs), _ => (BatchRejected errs, run)
      | Some [], Some ws =>
          match store_postings p ts ids ws (rs_store run) with
          | None => (BatchFailed (-1) "txs", run)
          | Some s => (Stored_ (length us) ids, with_store s run)
          end
      | _, _ => (Panics, run)
      end
  end.

Definition ingestBatch (completesPartialIdentity : bool) (p : ingestParams) (run : rstate D) : batch_result * batch_out :=
  match ValidateTxs (p_Txs p) with
  | (_ :: _) as errs => (BatchRejected errs, untouched run)
  | [] =>
      match resolved_types (omap id (p_Txs p)) with
      | None => (Hangs, untouched run)
      | Some us =>
          match us with
          | [] =>
              if replacing p then
                match store_postings p [] [] [] (rs_store run) with
                | None => (BatchFailed (-1) "txs", untouched run)
                | Some s => (Stored_ 0 [], untouched (with_store s run))
                end
              else (Stored_ 0 [], untouched run)
          | _ =>
              let '(pre, calls) := proposeCandidates completesPartialIdentity hash (proposal_filter operating_mic) row_id
                candidates (p_Source p) (p_Broker p) us (rs_store run) in
              match resolveInstruments (p_Source p) pre (p_ExportedAt p) (imap (λ i u, (int32 (row_index p i), u)) us) run with
              | (None, st) =>
                  (BatchFailed (-1) "instrument_description",
                   {| bo_run := i_run st; bo_keys := i_keys st; bo_calls := calls; bo_identErrors := [] |})
              | (Some (ids, errs), st) =>
                  let '(res, run) := store_checked p us ids (i_run st) in
                  (res, {| bo_run := run; bo_keys := i_keys st; bo_calls := calls; bo_identErrors := errs |})
              end
          end
      end
  end.

(** ** The transactions of an archive *)

(** A posting of an archive has the text of its share count basis, and neither a resolved
    type, a group nor a purpose of the server's. *)
Record ArchivePosting := {
  ap_OrderDate : option Z;
  ap_TradeDate : option Z;
  ap_InstrumentDescription : string;
  ap_BrokerTxType : list TxType;
  ap_AssetClassHint : string;
  ap_Quantity : string;
  ap_UnitPrice : option string;
  ap_SettlementAmount : option string;
  ap_Account : string;
  ap_AccountType : AccountType;
  ap_TradingCurrency : string;
  ap_SettlementCurrency : string;
  ap_Correlations : list WireCorrelation;
  ap_IdentifierHints : list WireIdentifier;
  ap_ShareCountBasis : string;
}.

Definition archiveTx (p : ArchivePosting) : Upload := {|
  u_Tx := {|
    tx_OrderDate := ap_OrderDate p; tx_TradeDate := ap_TradeDate p; tx_Account := ap_Account p; tx_AccountType := ap_AccountType p;
    tx_InstrumentDescription := ap_InstrumentDescription p; tx_AssetClassHint := ap_AssetClassHint p;
    tx_BrokerTxType := ap_BrokerTxType p; tx_ResolvedTxType := TX_TYPE_UNSPECIFIED;
    tx_Quantity := ap_Quantity p; tx_UnitPrice := ap_UnitPrice p; tx_SettlementAmount := ap_SettlementAmount p;
    tx_TradingCurrency := ap_TradingCurrency p; tx_SettlementCurrency := ap_SettlementCurrency p;
    tx_SyntheticPurpose := EmptyString; tx_Correlations := ap_Correlations p |};
  u_IdentifierHints := ap_IdentifierHints p;
  u_GroupId := EmptyString |}.

Record window := {
  w_Broker : string;
  w_Source : string;
  w_PeriodFrom : option Z;
  w_PeriodBefore : option Z;
  w_Postings : list ArchivePosting;
}.

Context (parse_date : string → option Z).

Definition postingBasis (b : string) : option (option Z) := if empty b then Some None else Some <$> parse_date b.

(** The outer [None] is a basis that is no date. *)
Definition windowTxs (w : window) (offset : nat) : option (list Upload * list (option Z) * list Z) :=
  bases ← mapM (λ x, postingBasis (ap_ShareCountBasis x)) (w_Postings w);
  Some (archiveTx <$> w_Postings w, if forallb (λ b, bool_decide (b = None)) bases then [] else bases,
        Z.of_nat <$> seq offset (length (w_Postings w))).

(** One window after another, up to the first that is not stored: whether anything was,
    and whether all were. *)
Fixpoint importTxPart (userID jobID : string) (asOf : option Z) (offset : nat) (stored : bool) (ws : list window) (run : rstate D)
    : bool * bool * rstate D :=
  match ws with
  | [] => (stored, true, run)
  | w :: ws =>
      if empty (w_Broker w) then (stored, false, run) else
      match windowTxs w offset with
      | None => (stored, false, run)
      | Some (us, bases, rows) =>
          let '(res, out) := ingestBatch false {| p_UserID := userID; p_Broker := w_Broker w; p_Source := w_Source w;
            p_JobID := jobID; p_Txs := Some <$> us; p_ShareCountBasis := bases; p_PeriodFrom := w_PeriodFrom w;
            p_PeriodBefore := w_PeriodBefore w; p_ExportedAt := asOf; p_RowIndices := Some rows |} run in
          match res with
          | Stored_ n _ => importTxPart userID jobID asOf (offset + length us) (stored || (0 <? n)) ws (bo_run out)
          | _ => (stored, false, bo_run out)
          end
      end
  end.
End ingest.

(** ** Resolving keeps the store, and answers each key once *)

(** ** The distinct keys of a batch *)

Lemma first_of_keys source us : let ks := key_of source <$> first_of_key source us in
  NoDup ks ∧ ∀ k, k ∈ ks ↔ k ∈ key_of source <$> us.
Proof.
  unfold first_of_key. assert (∀ acc, NoDup (key_of source <$> acc) →
    let ks := key_of source <$> foldl (λ acc u, if bool_decide (key_of source u ∈ key_of source <$> acc) then acc else acc ++ [u]) acc us in
    NoDup ks ∧ ∀ k, k ∈ ks ↔ k ∈ key_of source <$> acc ∨ k ∈ key_of source <$> us) as Hall.
  { induction us as [|u us IH]; intros acc Hacc; cbn [foldl]; [split; [done|]; intros k; rewrite elem_of_nil; tauto|].
    case_bool_decide as Hu.
    - destruct (IH acc Hacc) as [Hnd Hel]. split; [done|]. intros k. rewrite Hel, fmap_cons, elem_of_cons. naive_solver.
    - destruct (IH (acc ++ [u])) as [Hnd Hel].
      { rewrite fmap_app, NoDup_app. split; [done|]. split; [|apply NoDup_singleton]. by intros k Hk ->%list_elem_of_singleton. }
      split; [done|]. intros k. rewrite Hel, fmap_app, elem_of_app. cbn. rewrite !elem_of_cons, elem_of_nil. tauto. }
  destruct (Hall [] ltac:(constructor)) as [Hnd Hel]. split; [done|]. intros k. rewrite Hel, elem_of_nil. tauto.
Qed.

Lemma sum_of_counts {A} (f : A → string) (l : list A) (ks : list string) : NoDup ks → (∀ x, x ∈ l → f x ∈ ks) →
  sum_list ((λ k, length (filter (λ x, f x = k) l)) <$> ks) = length l.
Proof.
  intros Hnd. induction l as [|x l IH]; intros Hin.
  - clear. induction ks; [done|]. cbn in *. lia.
  - specialize (IH ltac:(intros y Hy; apply Hin; by right)). cbn [length]. rewrite <- IH.
    assert (f x ∈ ks) as Hx by (apply Hin; left). clear IH Hin. induction ks as [|k ks IH]; [by apply elem_of_nil in Hx|].
    apply NoDup_cons in Hnd as [Hk Hnd]. rewrite !fmap_cons. cbn [sum_list_with]. unfold id at 1 3. rewrite filter_cons. destruct (decide (f x = k)) as [E|E].
    + cbn [length]. assert ((λ k, length (filter (λ x, f x = k) (x :: l))) <$> ks = (λ k, length (filter (λ x, f x = k) l)) <$> ks) as ->; [|lia].
      apply list_fmap_ext. intros i k' Hk'%list_elem_of_lookup_2. rewrite filter_cons, decide_False; [done|]. congruence.
    + rewrite (IH Hnd); [lia|]. apply elem_of_cons in Hx as [?|?]; [congruence|done].
Qed.

Section resolving.
Context {D : Type} `{DecimalLaws D}.
Context (gen_uuid : gset string → string) (uuid_ok : string → bool) (operating_mic : string → option string).
Context (parse_dec : string → option D) (countryOf : string → string).
Context (configs : list string) (registry : string → option plugin) (today now : Z).
Hypothesis gen_fresh : ∀ X, gen_uuid X ∉ X.
Implicit Types (s : store D) (st : istate D).
#[local] Notation store_ok := (store_ok operating_mic).
#[local] Notation description_fallback := (description_fallback gen_uuid uuid_ok operating_mic now).
#[local] Notation ask := (resolveWithIdentifierPlugins gen_uuid uuid_ok operating_mic parse_dec countryOf configs registry today now).
#[local] Notation Resolve := (Resolve gen_uuid uuid_ok operating_mic parse_dec countryOf configs registry today now).
#[local] Notation resolve_rows := (resolve_rows gen_uuid uuid_ok operating_mic parse_dec countryOf configs registry today now).

(** The store of a state, and its constraints and books. *)
Definition at_store st : store D := rs_store (i_run st).

Definition advances st st' : Prop := store_ok (at_store st) → store_ok (at_store st') ∧ books_kept (at_store st) (at_store st').

Lemma advances_same st st' : at_store st' = at_store st → advances st st'.
Proof. intros E Hs. rewrite E. split; [done|apply books_kept_refl]. Qed.

Lemma advances_trans st st' st'' : advances st st' → advances st' st'' → advances st st''.
Proof. intros H1 H2 Hs. destruct (H1 Hs) as [Hs' Hb]. destruct (H2 Hs') as [Hs'' Hb']. split; [done|by eapply books_kept_trans]. Qed.

Lemma ensure_description_ok source desc s id s' : store_ok s →
  ensure_description gen_uuid uuid_ok operating_mic now source desc s = Some (id, s') →
  store_ok s' ∧ books_kept s s' ∧ is_Some (instruments s' !! id).
Proof. unfold ensure_description. intros Hs E. by apply ensure_spec in E as (? & ? & _ & ?). Qed.

Lemma description_fallback_ok source desc : fallback_ok operating_mic (description_fallback source desc).
Proof.
  intros s Hs. unfold Ingest.description_fallback. destruct (ensure_description _ _ _ _ _ _ _) as [[id s']|] eqn:E.
  - by eapply ensure_description_ok.
  - split_and!; [done|apply books_kept_refl|done].
Qed.

(** What a resolution leaves of the ledger of keys, but for the findings it holds. *)
Definition same_rows (k k' : resolutionKeys) : Prop :=
  rk_started k' = rk_started k ∧ rk_stamped k' = rk_stamped k ∧ rk_ended k' = rk_ended k.

Definition same_log (k k' : option resolutionKeys) : Prop :=
  match k, k' with Some k, Some k' => same_rows k k' | None, None => True | _, _ => False end.

Lemma same_log_refl k : same_log k k.
Proof. by destruct k. Qed.

Lemma same_log_map (f : resolutionKeys → resolutionKeys) k k' : (∀ x, same_rows x (f x)) → same_log k k' → same_log k (f <$> k').
Proof. intros Hf. destruct k, k'; cbn; try done. intros (E1 & E2 & E3). destruct (Hf r0) as (? & ? & ?). split_and!; congruence. Qed.

Lemma hintDiff_rows key x k : same_rows k (keys_hintDiff key x k).
Proof. unfold keys_hintDiff. by destruct (empty x). Qed.

Lemma fields_rows key x k : same_rows k (keys_fields key x k).
Proof. unfold keys_fields. by destruct x, (rk_fieldOutcomes k !! key). Qed.

Lemma mismatch_rows key x k : same_rows k (keys_mismatch key x k).
Proof. unfold keys_mismatch. by destruct (_ || _). Qed.

(** A key that was answered: from the cache, or now and into it; and stamped. *)
Record answers (key : string) (r : resolveResult) st st' : Prop := {
  an_cache : (i_cache st !! key = Some r ∧ i_cache st' = i_cache st) ∨
             (i_cache st !! key = None ∧ i_cache st' = <[key := r]> (i_cache st));
  an_keys : ∃ ks o, same_log (i_keys st) ks ∧ i_keys st' = keys_end key o (rr_InstrumentID r) <$> ks;
}.

Lemma ask_spec source desc ident key row bind va (primary : bool) st res st' :
  ask source desc ident key row bind va primary st = (res, st') →
  advances st st' ∧ match res with
    | None => True
    | Some r => if primary then i_cache st' = <[key := r]> (i_cache st) ∧
                  ∃ ks o, same_log (i_keys st) ks ∧ i_keys st' = keys_end key o (rr_InstrumentID r) <$> ks
                else i_cache st' = i_cache st ∧ i_keys st' = i_keys st
    end ∧ (primary = false → i_cache st' = i_cache st ∧ i_keys st' = i_keys st).
Proof.
  unfold resolveWithIdentifierPlugins. destruct (ResolveWithPlugins _ _ _ _ _ _ _ _ _ _ _ _ _ _ _ _ _) as [[result|] run] eqn:E; cycle 1.
  { intros [= <- <-]. split_and!; [|done|done]. intros Hs.
    pose proof (resolve_spec gen_uuid uuid_ok operating_mic parse_dec countryOf configs registry today now gen_fresh MaxResolveDepth
      source desc ident bind (Some (description_fallback source desc)) va (i_run st) Hs
      ltac:(intros f [= <-]; apply description_fallback_ok) (le_n _)) as Hr. rewrite E in Hr. by destruct Hr as [[? ? _] _]. }
  intros E'. split.
  - assert (i_run st' = run) as Hrun.
    { destruct primary; [|by injection E' as _ <-]. destruct (HintDiffs result); by injection E' as _ <-. }
    intros Hs.
    pose proof (resolve_spec gen_uuid uuid_ok operating_mic parse_dec countryOf configs registry today now gen_fresh MaxResolveDepth
      source desc ident bind (Some (description_fallback source desc)) va (i_run st) Hs
      ltac:(intros f [= <-]; apply description_fallback_ok) (le_n _)) as Hr. rewrite E in Hr.
    destruct Hr as [[? ? _] _]. unfold at_store. by rewrite Hrun.
  - destruct primary; [|by injection E' as <- <-]. split; [|done].
    destruct (HintDiffs result) as [|d ds]; injection E' as <- <-; (split; [done|]); eexists _, _; (split; [|reflexivity]); cbn;
      repeat (apply same_log_map; [intros; first [apply hintDiff_rows|apply fields_rows]|]); apply same_log_refl.
Qed.

Lemma asked source desc ident key row bind va st0 st res st' : i_cache st0 !! key = None →
  i_cache st = i_cache st0 → same_log (i_keys st0) (i_keys st) → advances st0 st →
  ask source desc ident key row bind va true st = (res, st') →
  advances st0 st' ∧ match res with Some r => answers key r st0 st' | None => True end.
Proof.
  intros Hn Hc Hk Ha E. apply ask_spec in E as (Ha' & E & _). split; [by eapply advances_trans|].
  destruct res as [r|]; [|done]. destruct E as (Ec & ks & o & Hl & Ek). split; [right; by rewrite Ec, Hc|].
  exists ks, o. split; [|done]. destruct (i_keys st0), (i_keys st), ks; cbn in *; try done.
  destruct Hk as (? & ? & ?), Hl as (? & ? & ?). split_and!; congruence.
Qed.

Lemma posting_spec source pre va row u st res st' : Resolve source pre va row u st = (res, st') →
  advances st st' ∧ match res with Some r => answers (key_of source u) r st st' | None => True end.
Proof.
  unfold Ingest.Resolve. fold (key_of source u). set (key := key_of source u). clearbody key.
  destruct (i_cache st !! key) as [r0|] eqn:Ec.
  { intros [= <- <-]. split; [by apply advances_same|]. split; [by left|]. by eexists (i_keys st), _; split; [apply same_log_refl|]. }
  pose proof (same_log_refl (i_keys st)) as Hk. pose proof (advances_same st st eq_refl) as Ha.
  set (props := match _ !! key with Some _ => _ | None => _ end). clearbody props.
  destruct (identifierHintsFromTx u) as [|h hs].
  2: { destruct (bool_decide (key ∈ _)); [intros [= <- <-]; by split|]. by apply asked. }
  destruct props as [|p ps].
  { destruct (ensure_description _ _ _ _ _ _ _) as [[id s']|] eqn:E; [|intros [= <- <-]; by split].
    intros [= <- <-]. split; [intros Hs; unfold at_store; cbn; by eapply ensure_description_ok in E as (? & ? & _)|].
    split; [by right|]. by eexists (i_keys st), _; split. }
  destruct (hintsByType (p :: ps) "MIC_TICKER") as [|t ts]; [by apply asked|].
  destruct (hintsByType (p :: ps) "OPENFIGI_SHARE_CLASS") as [|f fs]; [by apply asked|].
  destruct (ask _ _ _ _ _ _ _ false st) as [byTicker st1] eqn:E1. destruct (ask _ _ _ _ _ _ _ false st1) as [byFigi st2] eqn:E2.
  apply ask_spec in E1 as (Ha1 & _ & Hsame1), E2 as (Ha2 & _ & Hsame2).
  destruct (Hsame1 eq_refl) as [Ec1 Ek1], (Hsame2 eq_refl) as [Ec2 Ek2]. pose proof (advances_trans _ _ _ Ha1 Ha2) as Ha12.
  destruct (_ && _); intros E; (eapply (asked _ _ _ _ _ _ _ st); [exact Ec| | | |exact E]); cbn; try congruence; try exact Ha12.
  rewrite Ek2, Ek1. apply same_log_map; [intros; apply mismatch_rows|apply same_log_refl].
Qed.

(** ** A batch's keys *)

(** The keys answered so far with their instruments: the cache holds them, and each is
    stamped once, with its instrument. *)
Record logged (started : option (list (string * key_row))) (done : list (string * string)) st : Prop := {
  lg_started : rk_started <$> i_keys st = started;
  lg_cache : ∀ k id, (k, id) ∈ done → rr_InstrumentID <$> i_cache st !! k = Some id;
  lg_keys : match i_keys st with
    | None => True
    | Some ks => NoDup (ks_Key <$> rk_ended ks) ∧ rk_stamped ks = list_to_set done.*1 ∧
        (∀ k, k ∈ ks_Key <$> rk_ended ks ↔ k ∈ done.*1) ∧ ∀ x, x ∈ rk_ended ks → (ks_Key x, ks_InstrumentID x) ∈ done
    end;
}.

Lemma answer_unique started done st k id id' : logged started done st → (k, id) ∈ done → (k, id') ∈ done → id = id'.
Proof. intros [_ Hc _] H1%Hc H2%Hc. congruence. Qed.

Lemma logged_step started done st key r st' :
  logged started done st → answers key r st st' → logged started (done ++ [(key, rr_InstrumentID r)]) st'.
Proof.
  intros [Hst0 Hc Hk] [Ha (ks & o & Hl & Ek)].
  assert (∀ k id, (k, id) ∈ done → rr_InstrumentID <$> i_cache st' !! k = Some id) as Hold.
  { intros k id Hin%Hc. destruct Ha as [[_ ->]|[Hn ->]]; [done|]. rewrite lookup_insert_ne; [done|]. intros <-. by rewrite Hn in Hin. }
  assert (rr_InstrumentID <$> i_cache st' !! key = Some (rr_InstrumentID r)) as Hnew.
  { destruct Ha as [[Hr ->]|[_ ->]]; [by rewrite Hr|by rewrite lookup_insert_eq]. }
  split.
  - rewrite Ek, <- Hst0. destruct (i_keys st) as [k0|], ks as [k1|]; cbn in Hl |- *; try done. destruct Hl as (<- & _).
    unfold keys_end. by case_bool_decide.
  - intros k id [Hin|[= -> ->]%list_elem_of_singleton]%elem_of_app; [by apply Hold|done].
  - rewrite Ek. destruct (i_keys st) as [k0|], ks as [k1|]; cbn in Hl |- *; try done. destruct Hl as (_ & Es & Ee).
    destruct Hk as (Hnd & Hst & Hel & Hin). unfold keys_end. rewrite Es, Ee. case_bool_decide as Hb; cbn [rk_ended rk_stamped]; rewrite ?Ee, ?Es.
    + rewrite fmap_app, list_to_set_app_L. rewrite Hst in Hb |- *. apply elem_of_list_to_set in Hb. split_and!; [done| | |].
      * cbn. set_solver.
      * intros k. rewrite Hel, elem_of_app. cbn. split; [by left|]. intros [?| ->%list_elem_of_singleton]; done.
      * intros x Hx. apply elem_of_app. left. by apply Hin.
    + rewrite !fmap_app, list_to_set_app_L. rewrite Hst in Hb |- *. cbn. split_and!.
      * apply NoDup_app. split; [done|]. split; [|apply NoDup_singleton]. intros k Hkk ->%list_elem_of_singleton.
        apply Hb, elem_of_list_to_set. by apply Hel.
      * set_solver.
      * intros k. by rewrite !elem_of_app, Hel.
      * intros x [Hx| ->%list_elem_of_singleton]%elem_of_app; apply elem_of_app; [left; by apply Hin|right; left].
Qed.

Lemma rows_spec source pre va started rows done ids st res st' : resolve_rows source pre va rows ids st = (res, st') →
  ids = done.*2 → logged started done st →
  advances st st' ∧ match res with
    | Some out => ∃ new, out = (done ++ new).*2 ∧ new.*1 = key_of source <$> rows.*2 ∧ logged started (done ++ new) st'
    | None => True
    end.
Proof.
  revert done ids st. induction rows as [|[row u] rows IH]; intros done ids st; cbn [Ingest.resolve_rows].
  - intros [= <- <-] -> Hl. split; [by apply advances_same|]. exists []. by rewrite app_nil_r.
  - destruct (Resolve _ _ _ _ _ _) as [[r|] st1] eqn:E; apply posting_spec in E as [Ha1 Ha]; [|intros [= <- <-]; by split].
    intros E -> Hl. pose proof (logged_step _ _ _ _ _ _ Hl Ha) as Hl1.
    destruct (IH (done ++ [(key_of source u, rr_InstrumentID r)]) _ _ E ltac:(by rewrite fmap_app) Hl1) as [Ha2 Hres].
    split; [by eapply advances_trans|]. destruct res as [out|]; [|done]. destruct Hres as (new & -> & Hkeys & Hlog).
    exists ((key_of source u, rr_InstrumentID r) :: new). rewrite <- app_assoc in *. split_and!; [done|cbn; by rewrite Hkeys|done].
Qed.

Lemma started_log run c b source us pre :
  let st := {| i_run := run; i_cache := c; i_keys := newResolutionKeys b source us pre |} in logged (rk_started <$> i_keys st) [] st.
Proof.
  split; [done|by intros k id ?%elem_of_nil|]. cbn [i_keys]. unfold newResolutionKeys. destruct b; [|done].
  cbn. split_and!; [constructor|done|done|by intros x ?%elem_of_nil].
Qed.

Lemma resolved_batch source pre va rows row_id run res st' :
  resolveInstruments gen_uuid uuid_ok operating_mic parse_dec countryOf configs registry row_id today now source pre va rows run = (res, st') →
  store_ok (rs_store run) → (store_ok (at_store st') ∧ books_kept (rs_store run) (at_store st')) ∧
  match res with Some (ids, _) => length ids = length rows | None => True end.
Proof.
  unfold resolveInstruments. set (st := {| i_run := run; i_cache := _; i_keys := _ |}). intros E Hs.
  destruct (resolve_rows source pre va rows [] st) as [out st1] eqn:Er.
  destruct (rows_spec _ _ _ _ _ [] _ _ _ _ Er eq_refl (started_log _ _ _ _ _ _)) as [Ha Hout].
  assert (st' = st1) as -> by (destruct out; by injection E). split; [by apply Ha|].
  destruct out as [ids|]; [|by injection E as <-]. injection E as <-. destruct Hout as (new & -> & Hk & _).
  cbn. rewrite length_fmap, <- (length_fmap fst new), Hk. by rewrite !length_fmap.
Qed.

(** A batch resolves each of its keys once.  Postings with the same source, text and
    stated identifiers are given the same instrument; and the ledger of keys opens one
    row for each key there is, with the number of postings that share it, and stamps
    each exactly once, with the instrument those postings were given. *)
Theorem keys_answered_once row_id source pre va rows run ids errs st' :
  resolveInstruments gen_uuid uuid_ok operating_mic parse_dec countryOf configs registry row_id today now source pre va rows run
    = (Some (ids, errs), st') →
  length ids = length rows ∧
  (∀ i j u v, rows.*2 !! i = Some u → rows.*2 !! j = Some v → key_of source u = key_of source v → ids !! i = ids !! j) ∧
  match i_keys st' with
  | None => row_id = None
  | Some k =>
      NoDup (rk_started k).*1 ∧ (∀ x, x ∈ (rk_started k).*1 ↔ x ∈ key_of source <$> rows.*2) ∧
      sum_list (kr_TxCount <$> (rk_started k).*2) = length rows ∧
      ks_Key <$> rk_ended k ≡ₚ (rk_started k).*1 ∧
      ∀ x i u, x ∈ rk_ended k → rows.*2 !! i = Some u → key_of source u = ks_Key x → ids !! i = Some (ks_InstrumentID x)
  end.
Proof.
  unfold resolveInstruments. set (st := {| i_run := run; i_cache := _; i_keys := _ |}). set (us := rows.*2).
  destruct (resolve_rows _ _ _ _ _ _) as [[out|] st1] eqn:E; [|done]. intros [= <- _ <-].
  pose proof (started_log run (pre_resolved pre) (bool_decide (is_Some row_id)) source us pre) as Hl. change (logged (rk_started <$> i_keys st) [] st) in Hl.
  destruct (rows_spec _ _ _ _ _ [] _ _ _ _ E eq_refl Hl) as (_ & new & -> & Hkeys & [Hst Hc Hk]). cbn [app] in *.
  assert (∀ i u, us !! i = Some u → ∃ id, new !! i = Some (key_of source u, id)) as Hrow.
  { intros i u Hu. assert (new.*1 !! i = Some (key_of source u)) as Hi by (rewrite Hkeys, list_lookup_fmap; unfold us in Hu; by rewrite Hu).
    rewrite list_lookup_fmap in Hi. apply fmap_Some in Hi as ([k id] & Hi & Ek). exists id. by rewrite Hi, Ek. }
  assert (∀ i k id, new !! i = Some (k, id) → new.*2 !! i = Some id) as Hid by (intros i k id Hi; by rewrite list_lookup_fmap, Hi).
  assert (∀ k id id', (k, id) ∈ new → (k, id') ∈ new → id = id') as Huniq by (intros k id id' H1%Hc H2%Hc; congruence).
  split; [|split].
  - rewrite length_fmap. assert (length new.*1 = length (key_of source <$> rows.*2)) as Hlen by by rewrite Hkeys.
    by rewrite !length_fmap in Hlen.
  - intros i j u v Hu Hv Ek. destruct (Hrow i u Hu) as [id Hi], (Hrow j v Hv) as [id' Hj].
    rewrite (Hid _ _ _ Hi), (Hid _ _ _ Hj). f_equal. apply (Huniq (key_of source u));
      [by eapply list_elem_of_lookup_2|rewrite Ek; by eapply list_elem_of_lookup_2].
  - destruct (i_keys st1) as [k|].
    2: { unfold st in Hst. cbn [i_keys] in Hst. unfold newResolutionKeys in Hst. case_bool_decide as Hb; [done|]. destruct row_id; [|done]. destruct Hb. by eexists. }
    destruct Hk as (Hnd & _ & Hel & Hin). destruct (first_of_keys source us) as [Hfn Hfe].
    assert (rk_started k = (λ u, (key_of source u, row_of_key source (key_of source u) us u)) <$> first_of_key source us) as ->.
    { unfold st in Hst. cbn [i_keys] in Hst. unfold newResolutionKeys in Hst. case_bool_decide; [|done]. cbn in Hst. by injection Hst. }
    rewrite <- !list_fmap_compose. cbn [fst snd compose]. unfold compose. cbn [fst snd kr_TxCount row_of_key].
    split_and!; [exact Hfn|exact Hfe| | |].
    + pose proof (sum_of_counts (key_of source) us _ Hfn ltac:(intros x Hx; apply Hfe, list_elem_of_fmap; by exists x)) as Hsum.
      unfold us in Hsum at 3. rewrite length_fmap in Hsum. rewrite <- Hsum, <- list_fmap_compose. done.
    + apply NoDup_Permutation; [exact Hnd|exact Hfn|]. intros x. rewrite Hel, Hkeys. symmetry. apply Hfe.
    + intros x i u Hx Hu Ek. destruct (Hrow i u Hu) as [id Hi]. rewrite (Hid _ _ _ Hi). f_equal. apply (Huniq (ks_Key x)); [|by apply Hin].
      rewrite <- Ek. by eapply list_elem_of_lookup_2.
Qed.
End resolving.

(** ** A batch keeps the books *)

Section batches.
Context {D : Type} `{DecimalLaws D}.
Context (gen_uuid : gset string → string) (uuid_ok : string → bool) (operating_mic : string → option string).
Context (parse_dec : string → option D) (countryOf : string → string).
Context (num_div : D → D → D) (num_scale : D → Z).
Context (settler : option (string → list (GroupingPosting D) → ledger D → option (list GroupChange))).
Context (configs : list string) (registry : string → option plugin) (candidates : option (list candidate)).
Context (hash : string → string) (row_id : option (nat → string)) (today now : Z).
Hypothesis gen_fresh : ∀ X, gen_uuid X ∉ X.
Hypothesis gen_ok : ∀ X, uuid_ok (gen_uuid X) = true.
Hypothesis empty_not_ok : uuid_ok EmptyString = false.
Context {settler_lawful : match settler with Some f => SettlerLaws uuid_ok f | None => True end}.
Implicit Types (s : store D) (run : rstate D).

(** The store's constraints, and balanced books whose every posting is of a row of the
    instrument table, the one it weighs in if it weighs in one. *)
Record whole s : Prop := {
  wh_store : store_ok operating_mic s;
  wh_ledger : ledger_ok uuid_ok False (book s);
  wh_commodities : commodities_ok (book s);
  wh_linked : linked s;
}.

Lemma whole_kept s s' : whole s → store_ok operating_mic s' → books_kept s s' → whole s'.
Proof.
  intros [_ [Hk Hb] Hc Hl] Hs' [Bb Bk Bl _]. destruct (Bb Hc) as [Hc' Hb']. split; [done| |done|by apply Bl].
  split; [by apply Bk|]. intros g. split; [|done]. apply Hb'. intros g'. apply Hb.
Qed.

Definition fine s (t : row D) : Prop :=
  (∀ X, r_commodity t = InstrumentPrefix +:+ X → r_instrument t = Some X) ∧
  (∀ i, r_instrument t = Some i → is_Some (instruments s !! i)).

Lemma whole_fine s : store_ok operating_mic s →
  whole s ↔ ledger_ok uuid_ok False (book s) ∧ each (fine s) (book s).
Proof.
  intros Hs. split.
  - intros [_ Hl Hc Hlk]. split; [done|]. intros t Ht. split; [intros X; by apply Hc|intros i; by apply Hlk].
  - intros [Hl He]. split; [done|done| |].
    + intros t X Ht. apply (He t Ht).
    + intros t i Ht. apply (He t Ht).
Qed.

Lemma fine_group s g r t : fine s t → fine s (with_group g r t).
Proof. done. Qed.

Lemma cut_currency c code : CurrencyOf c = Some code → ∀ X, c ≠ InstrumentPrefix +:+ X.
Proof. by intros ->%cut_prefix_Some X. Qed.

Lemma fine_routed s t t' desc trading settlement instID desc' trading' settlement' : store_ok operating_mic s → fine s t →
  leg_commodity (currencyInstrument (identifiers s)) (r_commodity t) (r_instrument t) desc trading settlement =
    Some (instID, desc', trading', settlement') →
  r_commodity t' = r_commodity t → r_instrument t' = instID → fine s t'.
Proof.
  intros Hs [Hc Hi] E Ec Ei. unfold leg_commodity in E. unfold fine. rewrite Ec, Ei.
  destruct (CurrencyOf (r_commodity t)) as [code|] eqn:Ecur.
  - destruct (currencyInstrument _ _) as [id|] eqn:Eid; [|done]. injection E as <- _ _ _. split.
    + intros X EX. by destruct (cut_currency _ _ Ecur X).
    + intros i [= <-]. unfold currencyInstrument in Eid. apply fmap_Some in Eid as (r & Hr & ->).
      apply (so_holders _ _ Hs). destruct (filter _ (identifiers s)) as [|x k] eqn:Ef; [done|]. injection Hr as ->.
      assert (r ∈ r :: k) as Hin by left. rewrite <- Ef in Hin. by apply list_elem_of_filter in Hin as [_ ?].
  - injection E as <- _ _ _. by split.
Qed.

(** The commodity a posting is weighed in, if an instrument's, is its own. *)
Lemma weighed_commodity t inst b X :
  key (weighPosting parse_dec t inst b).1.2 = InstrumentPrefix +:+ X → X = inst.
Proof.
  assert (∀ c, key (of_currency c) ≠ InstrumentPrefix +:+ X) as Hcur.
  { intros c. unfold key, of_currency. cbn. by destruct (negb (String.eqb c EmptyString)). }
  assert (key (ownCommodity t inst b) = InstrumentPrefix +:+ X → X = inst) as Hown.
  { unfold ownCommodity. destruct (_ && _); [intros E; by destruct (Hcur _ E)|].
    destruct (negb (String.eqb inst EmptyString)) eqn:En; [|done]. unfold key, of_instrument. cbn [c_currency c_instrumentID]. rewrite En.
    by intros ->%(inj (String.append InstrumentPrefix)). }
  unfold weighPosting. destruct (parse_dec _) as [qty|]; [|exact Hown]. destruct (parseOptDec _ _) as [price|]; [|exact Hown].
  cbn [fst snd]. unfold weightOf, convert. destruct price as [price|]; [|exact Hown].
  destruct (String.eqb (settleCurrency t) EmptyString); [exact Hown|]. destruct (_ && _); [exact Hown|].
  destruct (MustBe _ _); [intros E; by destruct (Hcur _ E)|]. destruct (_ && _); [intros E; by destruct (Hcur _ E)|exact Hown].
Qed.

Lemma uploads_fine s user broker account job ts ids ws bs byID : instruments_exist ids s = true →
  weights parse_dec ts ids byID = Some ws → length ids = length ts →
  each_upload uuid_ok parse_dec (fine s) user broker account job ts ids ws bs.
Proof.
  intros Hex Hw Hlen i t inst mk id g Ht Hi Hm. destruct (weights_spec parse_dec ts ids byID Hlen) as (ws' & Ew & _ & Hws).
  rewrite Hw in Ew. injection Ew as <-. rewrite (Hws i t inst Ht Hi) in Hm.
  unfold posting_row in Hm. destruct (uuid_ok inst) eqn:Hu; [|done]. cbn [negb] in Hm.
  repeat (match type of Hm with (?x ≫= _) = Some _ => destruct x; [|done] end; cbn [mbind option_bind] in Hm).
  injection Hm as <-. split; cbn.
  - intros X EX. f_equal. symmetry. by eapply weighed_commodity.
  - intros x [= <-]. unfold instruments_exist in Hex. rewrite forallb_forall in Hex.
    specialize (Hex inst ltac:(by eapply list_elem_of_In, list_elem_of_lookup_2)). apply orb_true_iff in Hex as [Hex|Hex].
    + apply Identity.empty_true in Hex. congruence.
    + by apply bool_decide_eq_true in Hex.
Qed.

(** What a stored batch did to the ledger: a row for each posting, beside the stated
    postings there were, those of the period gone; rows may change group and type. *)
Definition written_as (p : ingestParams) (ts : list Tx) (l l' : ledger D) : Prop :=
  ∃ new, Forall2 (row_for parse_dec (p_UserID p) (p_Broker p)) ts new ∧
    restated (match p_PeriodFrom p, p_PeriodBefore p with
              | Some fromT, Some beforeT =>
                  filter (λ t, routed t = false ∧ ¬ deleted (p_UserID p) (p_Broker p) fromT beforeT l t) (txs l)
              | _, _ => stated l
              end ++ new) (stated l').

#[local] Notation store_postings := (store_postings gen_uuid uuid_ok parse_dec num_div num_scale settler).
#[local] Notation store_checked := (store_checked gen_uuid uuid_ok parse_dec num_div num_scale settler).
#[local] Notation ingestBatch := (ingestBatch gen_uuid uuid_ok operating_mic parse_dec countryOf num_div num_scale settler
  configs registry candidates hash row_id today now).

Lemma stored_whole p ts ids ws s s' byID : whole s → uploads ts → length ids = length ts → weights parse_dec ts ids byID = Some ws →
  store_postings p ts ids ws s = Some s' → whole s' ∧ written_as p ts (book s) (book s') ∧ instruments s' = instruments s ∧
  instruments_exist ids s = true.
Proof.
  intros Hw Hu Hlen Ew. pose proof (wh_store _ Hw) as Hs. pose proof (proj1 (whole_fine s Hs) Hw) as [Hl He].
  unfold Ingest.store_postings. destruct (instruments_exist ids s) eqn:Hex; [|done]. cbn [negb].
  destruct (if replacing p then _ else _) as [l|] eqn:E; [|done]. cbn [mbind option_bind]. intros [= <-]. cbn [book instruments].
  assert (ledger_ok uuid_ok False l ∧ each (fine s) l ∧ written_as p ts (book s) l) as (Hl' & He' & Hwr).
  { assert (∀ account job, each_upload uuid_ok parse_dec (fine s) (p_UserID p) (p_Broker p) account job ts ids ws (p_ShareCountBasis p)) as Hup
      by (intros account job; by eapply uploads_fine).
    pose proof (λ t t' d tr se i d' tr' se', fine_routed s t t' d tr se i d' tr' se' Hs) as Hrouted.
    unfold replacing in E. unfold written_as. case_bool_decide as Hp.
    - destruct Hp as [[fromT Ef] [beforeT Eb]]. rewrite Ef, Eb in E |- *.
      split_and!; [|eapply each_replace; [apply fine_group|exact Hrouted|exact E|done|done]|];
        destruct (replace_spec (settler_lawful := settler_lawful) _ _ _ _ _ _ _ _ gen_fresh gen_ok empty_not_ok _ _ _ _ _ _ _ _ _ _ _ Hl Hu E) as (? & new & ? & ?);
        [done|by exists new].
    - split_and!; [|eapply each_create; [apply fine_group|exact Hrouted|exact E|done|done]|];
        destruct (create_spec (settler_lawful := settler_lawful) _ _ _ _ _ _ _ _ gen_fresh gen_ok empty_not_ok _ _ _ _ _ _ _ _ _ _ Hl Hu E) as (? & new & ? & Hre);
        [done|]. exists new. split; [done|].
      destruct (p_PeriodFrom p), (p_PeriodBefore p); try exact Hre. destruct Hp. split; by eexists. }
  split; [|done]. apply whole_fine; [|done]. split; cbn [instruments identifiers]; apply Hs.
Qed.

Lemma classes_checked ts rows ids (byID : gmap string (InstrumentRow D)) : length rows = length ts → length ids = length ts →
  is_Some (validateAssetClasses ts rows ids byID).
Proof.
  intros Hr Hi. unfold validateAssetClasses.
  match goal with |- context [mapM (λ '(i, t), @?f i t) (imap pair ts)] => destruct (mapM_imap_total f ts) as (es & -> & _) end; [|by eexists].
  intros i t Ht%lookup_lt_Some. destruct (lookup_lt_is_Some_2 ids i) as [id ->]; [lia|]. cbn.
  destruct (class_error byID 0 t id); [|by eexists]. destruct (lookup_lt_is_Some_2 rows i) as [r ->]; [lia|]. by eexists.
Qed.

Lemma checked_spec p us ids run res run' : whole (rs_store run) → uploads (u_Tx <$> us) → length ids = length us →
  store_checked p us ids run = (res, run') →
  whole (rs_store run') ∧ match res with
    | Stored_ n ids' => n = length us ∧ ids' = ids ∧ written_as p (u_Tx <$> us) (book (rs_store run)) (book (rs_store run')) ∧
        ∀ id, id ∈ ids → id ≠ EmptyString → is_Some (instruments (rs_store run') !! id)
    | Panics | Hangs => False
    | _ => run' = run
    end.
Proof.
  intros Hw Hu Hi. unfold Ingest.store_checked.
  set (rows := imap _ us). assert (length rows = length (u_Tx <$> us)) as Hr by (unfold rows; by rewrite length_imap, length_fmap).
  rewrite <- (length_fmap u_Tx us) in Hi. set (byID := instrumentsByID ids (rs_store run)).
  destruct (classes_checked (u_Tx <$> us) rows ids byID Hr Hi) as [cs ->]. destruct cs as [|c cs]; [|by intros [= <- <-]].
  destruct (validate_errors parse_dec (u_Tx <$> us) rows ids (balanceInstruments byID) Hr Hi) as (es & -> & _).
  destruct (weights_spec parse_dec (u_Tx <$> us) ids (balanceInstruments byID) Hi) as (ws & Ew & _). rewrite Ew.
  destruct es as [|e es]; [|by intros [= <- <-]].
  destruct (store_postings p _ ids ws (rs_store run)) as [s|] eqn:E; [|by intros [= <- <-]]. intros [= <- <-].
  destruct (stored_whole _ _ _ _ _ _ _ Hw Hu Hi Ew E) as (Hw' & Hwr & Ei & Hex). split; [done|]. split_and!; [done|done|done|].
  intros id Hid Hne. cbn [with_store rs_store]. rewrite Ei. unfold instruments_exist in Hex. rewrite forallb_forall in Hex.
  specialize (Hex id ltac:(by apply list_elem_of_In)). apply orb_true_iff in Hex as [Hex|Hex]; [by apply Identity.empty_true in Hex|].
  by apply bool_decide_eq_true in Hex.
Qed.

Lemma resolved_types_spec us us' : resolved_types us = Some us' → length us' = length us ∧
  ∀ u', u' ∈ us' → ∃ u, u ∈ us ∧ tx_SyntheticPurpose (u_Tx u') = tx_SyntheticPurpose (u_Tx u).
Proof.
  unfold resolved_types. intros E%mapM_Some_1. split; [symmetry; by eapply Forall2_length|].
  intros u' [i Hi]%list_elem_of_lookup. destruct (Forall2_lookup_r _ _ _ _ _ E Hi) as (u & Hu%list_elem_of_lookup_2 & Eu).
  exists u. split; [done|].
  destruct (resolve_loop _ _); [|done]. by injection Eu as <-.
Qed.

(** What the validation let through has no purpose of the server's. *)
Lemma validated_uploads us us' : ValidateTxs us = [] → resolved_types (omap id us) = Some us' → uploads (u_Tx <$> us') ∧ length us' = length us.
Proof.
  intros Hv Hr. apply resolved_types_spec in Hr as [Hlen Hr]. pose proof (validated us Hv) as Hall. split.
  - intros t (u' & -> & Hu')%list_elem_of_fmap. destruct (Hr _ Hu') as (u & Hu & Ep).
    apply list_elem_of_omap in Hu as (o & Ho & Eo). destruct (Hall o Ho) as (u1 & -> & Ha). injection Eo as ->.
    rewrite Ep, (ac_purpose _ Ha). by split.
  - rewrite Hlen. clear -Hall. induction us as [|o us IH]; [done|]. destruct (Hall o ltac:(left)) as (u & -> & _). cbn.
    f_equal. apply IH. intros o Ho. apply Hall. by right.
Qed.

(** What a batch leaves of the books. *)
Definition batch_leaves (p : ingestParams) s (res : batch_result) s' : Prop :=
  match res with
  | Stored_ n ids => n = length (p_Txs p) ∧ length ids = n ∧
      (∀ id, id ∈ ids → id ≠ EmptyString → is_Some (instruments s' !! id)) ∧
      ∃ us s1, resolved_types (omap id (p_Txs p)) = Some us ∧ core <$> txs (book s1) = core <$> txs (book s) ∧
        written_as p (u_Tx <$> us) (book s1) (book s')
  | Panics => False
  | BatchRejected _ | BatchFailed _ _ | Hangs => core <$> txs (book s') = core <$> txs (book s)
  end.

Lemma batch_spec cpi p run : whole (rs_store run) → let '(res, out) := ingestBatch cpi p run in
  whole (rs_store (bo_run out)) ∧ batch_leaves p (rs_store run) res (rs_store (bo_run out)).
Proof.
  intros Hw. unfold Ingest.ingestBatch. destruct (ValidateTxs (p_Txs p)) as [|e es] eqn:Hv; [|by split].
  destruct (resolved_types _) as [us|] eqn:Hr; [|by split]. destruct (validated_uploads _ _ Hv Hr) as [Hu Hlen].
  destruct us as [|u us].
  { cbn [length] in Hlen. destruct (replacing p) eqn:Hp.
    - destruct (store_postings _ _ _ _ _) as [s|] eqn:E; [|by split].
      destruct (stored_whole p [] [] [] _ _ ∅ Hw Hu eq_refl eq_refl E) as (Hw' & Hwr & _ & _). split; [exact Hw'|].
      split_and!; [done..|by intros id ?%elem_of_nil|]. by exists [], (rs_store run).
    - split; [done|]. split_and!; [done..|by intros id ?%elem_of_nil|]. exists [], (rs_store run). split_and!; [done..|].
      exists []. split; [done|]. rewrite app_nil_r. unfold replacing in Hp. apply bool_decide_eq_false in Hp.
      destruct (p_PeriodFrom p), (p_PeriodBefore p); try apply restated_refl. destruct Hp. split; by eexists. }
  set (all := u :: us) in *. clearbody all. destruct (proposeCandidates _ _ _ _ _ _ _ _ _) as [pre calls].
  destruct (resolveInstruments _ _ _ _ _ _ _ _ _ _ _ _ _ _ _) as [[[ids errs]|] st] eqn:E.
  - destruct (resolved_batch _ _ _ _ _ _ _ _ _ gen_fresh _ _ _ _ _ _ _ _ E (wh_store _ Hw)) as [[Hs1 Hb1] Hids].
    rewrite length_imap in Hids.
    pose proof (whole_kept _ _ Hw Hs1 Hb1) as Hw1.
    destruct (store_checked _ _ _ _) as [res run'] eqn:Ec.
    destruct (checked_spec _ _ _ _ _ _ Hw1 Hu Hids Ec) as [Hw' Hres]. split; [exact Hw'|]. cbn [bo_run].
    unfold at_store in *. destruct res as [n ids'| | | |]; try done; try (rewrite Hres; apply Hb1).
    destruct Hres as (-> & -> & Hwr & Hin). unfold batch_leaves. rewrite <- Hlen. split_and!; [done|done|done|].
    exists all, (rs_store (i_run st)). split_and!; [done|apply Hb1|done].
  - destruct (resolved_batch _ _ _ _ _ _ _ _ _ gen_fresh _ _ _ _ _ _ _ _ E (wh_store _ Hw)) as [[Hs1 Hb1] _]. split; [by eapply whole_kept|]. apply Hb1.
Qed.

(** C26: A batch, whatever its rows and whatever the plugins and the candidates answer,
    never indexes past a list, and leaves the store's constraints, balanced groups and
    postings that name rows of the instrument table.  A batch that is stored writes one
    posting for each row of the upload, with its types resolved, over the ledger as
    resolution left it, every instrument it names being a row; one that is not stored
    changes no posting but for the instrument a merge moved it to. *)
Theorem ingest_keeps_the_books cpi p run : whole (rs_store run) → let '(res, out) := ingestBatch cpi p run in
  whole (rs_store (bo_run out)) ∧ batch_leaves p (rs_store run) res (rs_store (bo_run out)).
Proof. apply batch_spec. Qed.

(** The batches of an archive, stored or not, keep the books too. *)
Lemma import_whole parse_date user job asOf offset stored ws run : whole (rs_store run) →
  whole (rs_store (importTxPart gen_uuid uuid_ok operating_mic parse_dec countryOf num_div num_scale settler configs registry
    candidates hash row_id today now parse_date user job asOf offset stored ws run).2).
Proof.
  revert offset stored run. induction ws as [|w ws IH]; intros offset stored run Hw; cbn [importTxPart]; [done|].
  destruct (empty (w_Broker w)); [done|]. destruct (windowTxs _ _ _) as [[[us bases] rows]|]; [|done].
  match goal with |- context [Ingest.ingestBatch _ _ _ _ _ _ _ _ _ _ _ _ _ _ _ _ ?p _] =>
    pose proof (batch_spec false p run Hw) as Hb end.
  destruct (ingestBatch _ _ _) as [res out]. destruct Hb as [Hw' _]. destruct res; try exact Hw'. by apply IH.
Qed.
End batches.

Section witnesses.
#[local] Existing Instances QDecimal.q_decimal QDecimal.q_decimal_laws.

(** Two rows of one security, and a seeded currency. *)
Definition currency_row (code : string) : IdentifierInput :=
  {| ii_Ref := {| ref_Type := "CURRENCY"; ref_Value := code; ref_Domain := EmptyString |};
     ii_Canonical := true; ii_ValidFrom := None; ii_ValidBefore := None |}.

Definition seeded : store Q := {|
  instruments := <["one" := stock 2]> (<["two" := stock 1]> (<["usd" := new_row "CASH" EmptyString "USD" EmptyString EmptyString None None None None 0%Z]> ∅));
  identifiers := [held_by "one" (isin "US0001"); held_by "two" (ticker "ACME" "XNAS"); held_by "usd" (currency_row "USD")];
  declared := []; book := empty_ledger |}.

Definition seeded_run : rstate Q := {| rs_store := seeded; saved := []; attempts := [] |}.

Definition hint (t d v : string) : WireIdentifier := {| wi_Type := Some t; wi_Value := v; wi_Domain := d |}.

Definition row_of_upload (t : Tx) (hints : list WireIdentifier) : option Upload :=
  Some {| u_Tx := t; u_IdentifierHints := hints; u_GroupId := EmptyString |}.

Definition sample_batch (rows : list (option Upload)) : ingestParams := {|
  p_UserID := "user"; p_Broker := "FIDELITY"; p_Source := "FIDELITY:csv"; p_JobID := "job"; p_Txs := rows;
  p_ShareCountBasis := []; p_PeriodFrom := Some (day_start 1); p_PeriodBefore := Some (day_start 9);
  p_ExportedAt := None; p_RowIndices := None |}.

Definition run_batch (plugins : list string) (registry : string → option plugin) (candidates : option (list candidate))
    (rows : list (option Upload)) (run : rstate Q) : batch_result * batch_out (D := Q) :=
  ingestBatch sample_gen sample_ok sample_mic sample_parse sample_country dec_div (λ _, 2%Z)
    (Some (engine_settler sample_ok DefaultOpts)) plugins registry candidates (λ x, x) (Some ticks) 20 9 true (sample_batch rows) run.

Definition sample_rows : list (option Upload) :=
  [ row_of_upload (sample_tx 3 "ACME" "10" (Some "10") (Some "100") TRADE_ASSET) [hint "ISIN" EmptyString "US0001"];
    row_of_upload (sample_tx 3 "USD" "-100" None None TRADE_CASH) [hint "CURRENCY" EmptyString "USD"];
    row_of_upload (sample_tx 5 "USD" "7" None None DIVIDEND) [hint "CURRENCY" EmptyString "USD"] ].

Definition acme_row (day : Z) (hints : list WireIdentifier) : option Upload := row_of_upload (sample_tx day "ACME" "10" None None TRANSFER) hints.

Definition joins (_ : string) : option plugin := Some {| pg_ID := "joins"; pg_Kinds := ∅; pg_Types := ∅; pg_Identify := λ _ _ _ _,
  replies (says "STOCK" "XNAS" "US" "USD" "ACME")
    [named "ISIN" EmptyString "US0001"; named "MIC_TICKER" "XNAS" "ACME"; named "CUSIP" EmptyString "009"] |}.

Definition silent (_ : string) : option plugin :=
  Some {| pg_ID := "silent"; pg_Kinds := ∅; pg_Types := ∅; pg_Identify := λ _ _ _ _, fails OtherError |}.

Definition guesses (ps : list Identifier) : candidate := {|
  cp_ID := "guess"; cp_Precedence := 1; cp_Kinds := ∅; cp_Types := ∅;
  cp_ProposeBatch := λ _ _ items, (Some (list_to_map ((λ i, (bi_ID i,
    (λ p, {| pp_Field := id_Type p; pp_Identifier := p; pp_Confidence := 1%Q |}) <$> ps)) <$> items)), "success") |}.

Lemma seeded_whole : whole sample_ok sample_mic seeded.
Proof.
  split.
  - split; cbn [instruments identifiers seeded].
    + change (names_ok ((([] ++ [held_by "one" (isin "US0001")]) ++ [held_by "two" (ticker "ACME" "XNAS")]) ++ [held_by "usd" (currency_row "USD")])).
      rewrite !names_ok_snoc. split_and!; try done; by repeat constructor.
    + intros r. rewrite !elem_of_cons, elem_of_nil. by intros [->|[->|[->|[]]]]; eexists.
    + intros id i u. rewrite !lookup_insert_Some, lookup_empty. naive_solver.
    + intros id i. rewrite !lookup_insert_Some, lookup_empty.
      intros [[_ <-]|[_ [[_ <-]|[_ [[_ <-]|[_ [=]]]]]]]; reflexivity.
  - apply empty_ledger_ok, _.
  - by intros t X ?%elem_of_nil.
  - by intros t i ?%elem_of_nil.
Qed.

(** A purchase, its cash leg and a dividend, stored against the rows they name. *)
Lemma ingest_keeps_the_books_witness :
  match run_batch [] (λ _, None) None sample_rows seeded_run with
  | (Stored_ n ids, out) => n = 3 ∧ ids = ["one"; "usd"; "usd"] ∧
      shape (book (rs_store (bo_run out))) = [("uuuuuuu", "USER", 100%Q); ("uuuuuuu", "USER", (-100)%Q);
        ("uuuuu", "USER", 7%Q); ("uuuuu", "INCOME", (-7)%Q)] ∧
      whole sample_ok sample_mic (rs_store (bo_run out))
  | _ => False
  end.
Proof.
  pose proof (ingest_keeps_the_books sample_gen sample_ok sample_mic sample_parse sample_country dec_div (λ _, 2%Z)
    (Some (engine_settler sample_ok DefaultOpts)) [] (λ _, None) None (λ x, x) (Some ticks) 20 9
    sample_gen_fresh sample_gen_ok eq_refl (settler_lawful := engine_settler_lawful sample_ok DefaultOpts)
    true (sample_batch sample_rows) seeded_run seeded_whole) as Hk.
  change (ingestBatch _ _ _ _ _ _ _ _ _ _ _ _ _ _ _ _ _ _) with (run_batch [] (λ _, None) None sample_rows seeded_run) in Hk.
  destruct (run_batch _ _ _ _ _) as [res out] eqn:E. destruct Hk as [Hw _]. vm_compute in E. injection E as <- <-.
  split_and!; [done|done|by vm_compute|exact Hw].
Defined.

Lemma keys_answered_once_witness :
  match resolveInstruments sample_gen sample_ok sample_mic sample_parse sample_country [] (λ _, None) (Some ticks) 20 9
    "FIDELITY:csv" (proposeCandidates true (λ x, x) (proposal_filter sample_mic) (Some ticks) None "FIDELITY:csv" "FIDELITY"
      (omap id sample_rows) seeded).1 None (imap (λ i u, (Z.of_nat i, u)) (omap id sample_rows)) seeded_run with
  | (Some (ids, _), st) => ids !! 1 = ids !! 2 ∧ ids = ["one"; "usd"; "usd"] ∧
      match i_keys st with Some k => kr_TxCount <$> (rk_started k).*2 = [1; 2] | None => False end
  | _ => False
  end.
Proof.
  destruct (resolveInstruments _ _ _ _ _ _ _ _ _ _ _ _ _ _ _) as [[[ids errs]|] st] eqn:E; [|by vm_compute in E].
  pose proof (keys_answered_once sample_gen sample_ok sample_mic sample_parse sample_country [] (λ _, None) 20 9 sample_gen_fresh _ _ _ _ _ _ _ _ _ E)
    as (_ & Hsame & _).
  split; [by eapply (Hsame 1 2); [vm_compute; reflexivity..|]|]. vm_compute in E. injection E as <- _ <-. by split.
Defined.

(** The key of a posting leaves out the venue of a ticker, so the listings of one text
    on two venues are the one of the first: what Nasdaq's alone is known to be, London's
    is taken for, and what London's is taken for, Nasdaq's is. *)
Lemma cache_key_ignores_venue :
  let nasdaq := acme_row 3 [hint "MIC_TICKER" "XNAS" "ACME"] in
  let london := acme_row 3 [hint "MIC_TICKER" "XLON" "ACME"] in
  let ids rows := match run_batch [] (λ _, None) None rows seeded_run with (Stored_ _ ids, _) => ids | _ => [] end in
  ids [nasdaq] = ["two"] ∧ ids [london] = ["uuuu"] ∧ ids [nasdaq; london] = ["two"; "two"] ∧ ids [london; nasdaq] = ["uuuu"; "uuuu"].
Proof. by vm_compute. Qed.

(** An instrument one row of a batch was given is merged away by the resolution of
    another, and the batch fails on the row that is not there any more. *)
Lemma merged_away_in_batch :
  let rows := [acme_row 3 [hint "ISIN" EmptyString "US0001"]; acme_row 4 [hint "MIC_TICKER" "XNAS" "ACME"];
               acme_row 5 [hint "CUSIP" EmptyString "009"]] in
  let first := run_batch ["joins"] joins None rows seeded_run in
  let again := run_batch ["joins"] joins None rows (bo_run first.2) in
  first.1 = BatchFailed (-1) "txs" ∧ instruments (rs_store (bo_run first.2)) !! "one" = None ∧
  again.1 = Stored_ 3 ["two"; "two"; "two"].
Proof. by vm_compute. Qed.

(** A probe that resolves nothing is not empty: its fallback makes the description an
    instrument.  The ticker's answer is then a mismatch with it, and the next upload of
    the same text is the description's instrument, not the ticker's. *)
Lemma probe_mints_an_instrument :
  let cs := Some [guesses [named "MIC_TICKER" "XNAS" "ACME"; named "OPENFIGI_SHARE_CLASS" EmptyString "BBG000B9XRY4"]] in
  let first := run_batch ["silent"] silent cs [acme_row 3 []] seeded_run in
  let again := run_batch ["silent"] silent cs [acme_row 3 []] (bo_run first.2) in
  first.1 = Stored_ 1 ["two"] ∧ ks_Mismatch <$> default [] (rk_ended <$> bo_keys first.2) = ["figi_vs_ticker"] ∧
  again.1 = Stored_ 1 ["uuuu"].
Proof. by vm_compute. Qed.
End witnesses.
End Ingest.
