(* ===== verification/PluginUtil.v ===== *)
(** * What fetch plugins are offered

    server/pluginutil and the choice of identifiers the fetch workers share: whether a
    plugin takes an instrument, and under which of its names it is asked. *)

From S2P Require Import Prelude GoStrings Instruments Identity.

Module PluginUtil.
Import GoStrings Instruments Identity.

(** The columns of an instrument row the workers read. *)
Record subject := {
  sj_AssetClass : option string;
  sj_ExchangeMIC : option string;
  sj_Currency : option string;
  sj_Identifiers : list IdentifierInput;
  sj_ProviderIdentifiers : list ProviderIdentifier;
}.

(** One filter: an empty set accepts every value, a missing value is accepted by every
    set. *)
Definition accepts_value (set : gset string) (v : option string) : bool :=
  match v with
  | Some x => bool_decide (set = ∅) || empty x || bool_decide (x ∈ set)
  | None => true
  end.

Definition PluginAccepts (ac ex cu : gset string) (inst : subject) : bool :=
  accepts_value ac (sj_AssetClass inst) && accepts_value ex (sj_ExchangeMIC inst)
  && accepts_value cu (ToUpper <$> sj_Currency inst).

Definition FilterIdentifiers (supported : list string) (ids : list IdentifierInput) : list IdentifierInput :=
  filter (λ i, ref_Type (ii_Ref i) ∈ supported) ids.

Definition ToIdentifiers (ids : list IdentifierInput) : list Identifier :=
  (λ i, {| id_Type := ref_Type (ii_Ref i); id_Domain := ref_Domain (ii_Ref i); id_Value := ref_Value (ii_Ref i) |}) <$> ids.

Definition of_provider (p : ProviderIdentifier) : IdentifierInput := {|
  ii_Ref := {| ref_Type := pi_Type p; ref_Value := pi_Value p; ref_Domain := pi_Domain p |};
  ii_Canonical := false; ii_ValidFrom := None; ii_ValidBefore := None |}.

(** The names a plugin is asked by: the instrument's, then the plugin's own. *)
Definition plugin_identifiers (pluginID : string) (supported : list string) (inst : subject) : list IdentifierInput :=
  FilterIdentifiers supported (FilterIdentifiers supported (sj_Identifiers inst)
    ++ (of_provider <$> filter (λ p, pi_Provider p = pluginID) (sj_ProviderIdentifiers inst))).

Lemma filter_identifiers_idemp supported ids :
  FilterIdentifiers supported (FilterIdentifiers supported ids) = FilterIdentifiers supported ids.
Proof.
  unfold FilterIdentifiers. rewrite list_filter_filter. apply list_filter_iff. tauto.
Qed.

Lemma plugin_identifiers_types pluginID supported inst i :
  i ∈ plugin_identifiers pluginID supported inst ↔ ref_Type (ii_Ref i) ∈ supported ∧
    (i ∈ sj_Identifiers inst ∨
     ∃ p, p ∈ sj_ProviderIdentifiers inst ∧ pi_Provider p = pluginID ∧ i = of_provider p).
Proof.
  unfold plugin_identifiers, FilterIdentifiers. rewrite list_elem_of_filter, elem_of_app, list_elem_of_filter, list_elem_of_fmap.
  setoid_rewrite list_elem_of_filter. naive_solver.
Qed.
End PluginUtil.
