(* ===== verification/PriceFetch.v ===== *)
(** * Fetching prices

    server/pricefetcher: one cycle of the worker.  The gaps of the held instruments and
    of the rates they need are put to the enabled plugins in order, range by range; what
    a plugin answers is stored and covered, and a permanent refusal blocks it.

    A plugin is a function of how many calls were made before it and of the request, so
    it may answer one request in several ways.  [today] and [now] are the day and the
    instant of the cycle; the code reads the clock again for each range put to a plugin
    with a limited history, which a cycle across midnight would see.  Deadlines are the
    plugin's answer.  [cancelled] says before which gaps the cycle finds itself
    cancelled.  The database's own failures are those of [PriceStore]. *)

From Stdlib Require Import QArith.
From S2P Require Import Prelude GoStrings Decimal DateRange Coverage PriceStore Instruments Identity PluginUtil.

Local Open Scope Z_scope.

Module PriceFetch.
Import GoStrings DateRange PluginUtil.

Definition gap_filled : string := "filled".
Definition gap_settled_empty : string := "settled_empty".
Definition gap_no_eligible_plugin : string := "no_eligible_plugin".
Definition gap_all_plugins_failed : string := "all_plugins_failed".
Definition gap_instrument_missing : string := "instrument_missing".

Definition call_bars_returned : string := "bars_returned".
Definition call_no_data : string := "no_data".
Definition call_history_limit : string := "history_limit".
Definition call_permanent_block : string := "permanent_block".
Definition call_timeout : string := "timeout".
Definition call_error : string := "error".
Definition call_upsert_failed : string := "upsert_failed".

Inductive ShareCountBasis := AsTraded | AsOfFetch.

(** [TelemetryPricePluginCall], under the place of its gap. *)
Record price_call := {
  cl_PluginID : string;
  cl_Precedence : Z;
  cl_From : Z;
  cl_Before : Z;
  cl_Bars : nat;
  cl_Outcome : string;
}.

Record gap_row := {
  gp_InstrumentID : string;
  gp_IsFX : bool;
  gp_AssetClass : string;
  gp_Currency : string;
  gp_Exchange : string;
  gp_DaysOutstanding : Z;
}.

(** [priceGaps] with the rows it wrote; a gap is known by its place. *)
Record priceGaps := {
  pg_rows : list gap_row;
  pg_calls : list (nat * price_call);
  pg_ends : list (nat * string);
}.

(** A row of price_fetch_blocks, by (instrument, plugin). *)
Record block := { bl_Reason : string; bl_FirstBlockedAt : Z }.

Section fetch.
Context {D : Type}.
Context (parse_uuid : string → option string) (today now : Z).

Record DailyBar := {
  b_Date : Z;
  b_Open : option D;
  b_High : option D;
  b_Low : option D;
  b_Close : D;
  b_Volume : option Z;
  b_AdjustedClose : option D;
}.

(** What [FetchPrices] comes back with: its result, [ErrNoData] itself, an error that
    wraps an [ErrPermanent], one that wraps the deadline's, or another. *)
Inductive answer :=
  | Bars (bars : list DailyBar) (basis : ShareCountBasis)
  | NoData
  | Permanent (reason : string)
  | DeadlineExceeded
  | OtherError.

(** [pluginEntry]: a plugin with its configuration. *)
Record plugin := {
  pl_ID : string;
  pl_Precedence : Z;
  pl_MaxHistoryDays : option Z;
  pl_SupportedIdentifierTypes : list string;
  pl_AcceptableAssetClasses : gset string;
  pl_AcceptableExchanges : gset string;
  pl_AcceptableCurrencies : gset string;
  pl_FetchPrices : nat → list Identity.Identifier → string → Z → Z → answer;
}.

(** A request put to a plugin and its answer. *)
Record ask := { ak_Instrument : string; ak_Plugin : string; ak_Range : DateRange; ak_Answer : answer }.

Record fstate := {
  fs_store : PriceStore.state D;
  fs_blocks : gmap (string * string) block;
  fs_asked : list ask;
  fs_tel : option priceGaps;
}.

Implicit Types (st : fstate) (pe : plugin) (gap : DateRange).

Definition with_prices (s : PriceStore.state D) st : fstate :=
  {| fs_store := s; fs_blocks := fs_blocks st; fs_asked := fs_asked st; fs_tel := fs_tel st |}.

Definition with_ask (a : ask) st : fstate :=
  {| fs_store := fs_store st; fs_blocks := fs_blocks st; fs_asked := fs_asked st ++ [a]; fs_tel := fs_tel st |}.

Definition CreatePriceFetchBlock (id pl reason : string) st : fstate :=
  let first := match fs_blocks st !! (id, pl) with Some b => bl_FirstBlockedAt b | None => now end in
  {| fs_store := fs_store st; fs_blocks := <[(id, pl) := {| bl_Reason := reason; bl_FirstBlockedAt := first |}]> (fs_blocks st);
     fs_asked := fs_asked st; fs_tel := fs_tel st |}.

Definition DeletePriceFetchBlock (id pl : string) st : fstate :=
  {| fs_store := fs_store st; fs_blocks := delete (id, pl) (fs_blocks st); fs_asked := fs_asked st; fs_tel := fs_tel st |}.

(** [UpsertPriceFetchBlocks]: one statement, which may touch no row twice and names rows
    of the instrument table. *)
Definition UpsertPriceFetchBlocks (exists_ : string → bool) (l : list ((string * string) * block)) st : option fstate :=
  if negb (forallb (λ x, exists_ x.1.1) l) || negb (bool_decide (NoDup l.*1)) then None else
  Some {| fs_store := fs_store st;
          fs_blocks := foldl (λ m x, <[x.1 := {| bl_Reason := bl_Reason x.2;
            bl_FirstBlockedAt := match m !! x.1 with Some b => Z.min (bl_FirstBlockedAt b) (bl_FirstBlockedAt x.2) | None => bl_FirstBlockedAt x.2 end |}]> m)
            (fs_blocks st) l;
          fs_asked := fs_asked st; fs_tel := fs_tel st |}.

Definition on_tel (f : priceGaps → priceGaps) st : fstate :=
  {| fs_store := fs_store st; fs_blocks := fs_blocks st; fs_asked := fs_asked st; fs_tel := f <$> fs_tel st |}.

Definition tel_call (i : nat) (c : price_call) : fstate → fstate :=
  on_tel (λ g, {| pg_rows := pg_rows g; pg_calls := pg_calls g ++ [(i, c)]; pg_ends := pg_ends g |}).

Definition tel_end (i : nat) (outcome : string) : fstate → fstate :=
  on_tel (λ g, {| pg_rows := pg_rows g; pg_calls := pg_calls g; pg_ends := pg_ends g ++ [(i, outcome)] |}).

(** [called]: a row was written under the gap; without telemetry none is. *)
Definition called (i : nat) st : bool :=
  match fs_tel st with Some g => existsb (λ c, (c.1 =? i)%nat) (pg_calls g) | None => false end.

Definition priceCall pe (r : DateRange) (bars : nat) (outcome : string) : price_call := {|
  cl_PluginID := pl_ID pe; cl_Precedence := pl_Precedence pe; cl_From := From r; cl_Before := Before r;
  cl_Bars := bars; cl_Outcome := outcome |}.

Definition barsToEODPrices (instrumentID provider : string) (bars : list DailyBar) (basis : ShareCountBasis)
    : list (PriceStore.EODPrice D) :=
  (λ b, {| PriceStore.InstrumentID := instrumentID; PriceStore.PriceDate := b_Date b;
           PriceStore.Open := b_Open b; PriceStore.High := b_High b; PriceStore.Low := b_Low b;
           PriceStore.Close := b_Close b; PriceStore.Volume := b_Volume b; PriceStore.DataProvider := provider;
           PriceStore.AdjustedClose := b_AdjustedClose b; PriceStore.LastFetchedAt := None;
           PriceStore.ShareCountBasis := Some (match basis with AsOfFetch => today | AsTraded => b_Date b end) |}) <$> bars.

(** A failure to record is logged only. *)
Definition coverRange (id pl : string) (r : DateRange) st : fstate :=
  if negb (From r <? Before r) then st else
  match PriceStore.UpsertPricesForRange parse_uuid now id pl [] (From r) (Before r) None (fs_store st) with
  | Some s => with_prices s st
  | None => st
  end.

(** ** One range put to one plugin *)

(** Whether the plugin is asked on, and the bars stored. *)
Definition ask_range (i : nat) (id : string) (inst : subject) pe gap st : bool * nat * fstate :=
  let ids := plugin_identifiers (pl_ID pe) (pl_SupportedIdentifierTypes pe) inst in
  let a := pl_FetchPrices pe (length (fs_asked st)) (ToIdentifiers ids) (default EmptyString (sj_AssetClass inst))
             (From gap) (Before gap) in
  let st := with_ask {| ak_Instrument := id; ak_Plugin := pl_ID pe; ak_Range := gap; ak_Answer := a |} st in
  match a with
  | Permanent reason =>
      (false, 0%nat, tel_call i (priceCall pe gap 0 call_permanent_block) (CreatePriceFetchBlock id (pl_ID pe) reason st))
  | NoData => (true, 0%nat, tel_call i (priceCall pe gap 0 call_no_data) (coverRange id (pl_ID pe) gap st))
  | DeadlineExceeded => (false, 0%nat, tel_call i (priceCall pe gap 0 call_timeout) st)
  | OtherError => (false, 0%nat, tel_call i (priceCall pe gap 0 call_error) st)
  | Bars bars basis =>
      match PriceStore.UpsertPricesForRange parse_uuid now id (pl_ID pe) (barsToEODPrices id (pl_ID pe) bars basis)
              (From gap) (Before gap) None (fs_store st) with
      | None => (false, 0%nat, tel_call i (priceCall pe gap 0 call_upsert_failed) st)
      | Some s => (true, length bars, tel_call i (priceCall pe gap (length bars) call_bars_returned) (with_prices s st))
      end
  end.

(** The first day the plugin reaches back to, if its configuration limits it. *)
Definition cutoff pe : option Z :=
  n ← pl_MaxHistoryDays pe; if 0 <? n then Some (today - n) else None.

Definition fetch_range (i : nat) (id : string) (inst : subject) pe gap st : bool * nat * fstate :=
  let out_of_reach r st := tel_call i (priceCall pe r 0 call_history_limit) (coverRange id (pl_ID pe) r st) in
  match cutoff pe with
  | None => ask_range i id inst pe gap st
  | Some c =>
      if Before gap <=? c then (true, 0%nat, out_of_reach gap st)
      else if From gap <? c then
        ask_range i id inst pe {| From := c; Before := Before gap |} (out_of_reach {| From := From gap; Before := c |} st)
      else ask_range i id inst pe gap st
  end.

Fixpoint fetch_ranges (i : nat) (id : string) (inst : subject) pe (outstanding : list DateRange) (bars : nat) st
    : bool * nat * fstate :=
  match outstanding with
  | [] => (true, bars, st)
  | gap :: rest =>
      match fetch_range i id inst pe gap st with
      | (false, n, st) => (false, (bars + n)%nat, st)
      | (true, n, st) => fetch_ranges i id inst pe rest (bars + n) st
      end
  end.

(** ** One gap *)

(** Past every filter. *)
Definition eligible (blocked : gmap (string * string) block) (id : string) (inst : subject) pe : bool :=
  PluginAccepts (pl_AcceptableAssetClasses pe) (pl_AcceptableExchanges pe) (pl_AcceptableCurrencies pe) inst
  && bool_decide (blocked !! (id, pl_ID pe) = None)
  && negb (bool_decide (plugin_identifiers (pl_ID pe) (pl_SupportedIdentifierTypes pe) inst = [])).

(** [PriceCoverageByPlugin] *)
Definition PriceCoverageByPlugin (table : list Coverage.row) (id pl : string) : list DateRange :=
  go_sort from_less (Coverage.spans_of id pl table).

(** Whether a plugin answered for all of the gap, whether one was past the filters, and
    how many bars came. *)
Fixpoint try_plugins (i : nat) (blocked : gmap (string * string) block) (coverage : list Coverage.row) (id : string)
    (ranges : list DateRange) (inst : subject) (plugins : list plugin) (reached : bool) (bars : nat) st
    : bool * bool * nat * fstate :=
  match plugins with
  | [] => (false, reached, bars, st)
  | pe :: rest =>
      if negb (eligible blocked id inst pe) then try_plugins i blocked coverage id ranges inst rest reached bars st else
      match SubtractRanges ranges (PriceCoverageByPlugin coverage id (pl_ID pe)) with
      | [] => try_plugins i blocked coverage id ranges inst rest true bars st
      | outstanding =>
          match fetch_ranges i id inst pe outstanding bars st with
          | (true, bars, st) => (true, true, bars, st)
          | (false, bars, st) => try_plugins i blocked coverage id ranges inst rest true bars st
          end
      end
  end.

Definition gapOutcome (fetched : bool) (bars : nat) (reached called : bool) : string :=
  if fetched && (0 <? bars)%nat then gap_filled
  else if fetched then gap_settled_empty
  else if negb reached then gap_no_eligible_plugin
  else if negb called then gap_settled_empty
  else gap_all_plugins_failed.

Definition process_gap (subjects : gmap string subject) (plugins : list plugin) (blocked : gmap (string * string) block)
    (coverage : list Coverage.row) (i : nat) (ig : Coverage.InstrumentDateRanges) st : fstate :=
  let id := Coverage.InstrumentID ig in
  match subjects !! id with
  | None => tel_end i gap_instrument_missing st
  | Some inst =>
      let '(fetched, reached, bars, st) := try_plugins i blocked coverage id (Coverage.Ranges ig) inst plugins false 0 st in
      tel_end i (gapOutcome fetched bars reached (called i st)) st
  end.

(** ** The cycle *)

(** The outer boolean is the run's success: a cancelled cycle fails. *)
Fixpoint processGaps (cancelled : nat → bool) (subjects : gmap string subject) (plugins : list plugin)
    (blocked : gmap (string * string) block) (coverage : list Coverage.row) (i : nat)
    (gaps : list Coverage.InstrumentDateRanges) st : bool * fstate :=
  match gaps with
  | [] => (true, st)
  | ig :: rest =>
      if cancelled i then (false, st)
      else processGaps cancelled subjects plugins blocked coverage (S i) rest (process_gap subjects plugins blocked coverage i ig st)
  end.

Definition rangesDays (ranges : list DateRange) : Z :=
  foldl (λ d r, if From r <? Before r then d + (Before r - From r) else d) 0 ranges.

Definition newPriceGaps (gaps : list Coverage.InstrumentDateRanges) (fxFrom : nat) (subjects : gmap string subject) st : fstate :=
  on_tel (λ g, {| pg_rows := imap (λ i ig,
    let attr f := default EmptyString (inst ← subjects !! Coverage.InstrumentID ig; f inst) in
    {| gp_InstrumentID := Coverage.InstrumentID ig; gp_IsFX := bool_decide (fxFrom ≤ i)%nat;
       gp_AssetClass := attr sj_AssetClass; gp_Currency := attr sj_Currency; gp_Exchange := attr sj_ExchangeMIC;
       gp_DaysOutstanding := rangesDays (Coverage.Ranges ig) |}) gaps; pg_calls := []; pg_ends := [] |}) st.

Definition endAll (n : nat) (outcome : string) st : fstate :=
  foldl (λ st i, tel_end i outcome st) st (seq 0 n).

(** The gaps of the holdings, then of the rates.  [plugins] are the enabled
    configurations whose plugin is registered. *)
Definition runCycle (cancelled : nat → bool) (gaps fxGaps : list Coverage.InstrumentDateRanges)
    (subjects : gmap string subject) (plugins : list plugin) st : bool * fstate :=
  let allGaps := gaps ++ fxGaps in
  match allGaps, plugins with
  | [], _ => (true, st)
  | _, [] => (true, endAll (length allGaps) gap_no_eligible_plugin (newPriceGaps allGaps (length gaps) ∅ st))
  | _, _ =>
      processGaps cancelled subjects plugins (fs_blocks st) (PriceStore.coverage (fs_store st)) 0 allGaps
        (newPriceGaps allGaps (length gaps) subjects st)
  end.
End fetch.

Arguments DailyBar D : clear implicits.
Arguments answer D : clear implicits.
Arguments plugin D : clear implicits.
Arguments ask D : clear implicits.
Arguments fstate D : clear implicits.

(** ** What a step of the cycle does *)

Section steps.
Context {D : Type}.
Context (parse_uuid : string → option string) (today now : Z).
Implicit Types (st : fstate D) (pe : plugin D) (gap : DateRange) (a : ask D).

Definition table st : list Coverage.row := PriceStore.coverage (fs_store st).

(** A plugin has answered for a day. *)
Definition answered st (id pl : string) (x : Z) : Prop := covers (Coverage.spans_of id pl (table st)) x.

(** A plugin keeps to the range it was asked for. *)
Definition in_range a : Prop :=
  match ak_Answer a with
  | Bars bars _ => ∀ b, b ∈ bars → From (ak_Range a) ≤ b_Date b < Before (ak_Range a)
  | _ => True
  end.

Definition refuses (k : string * string) a : Prop :=
  (ak_Instrument a, ak_Plugin a) = k ∧ ∃ reason, ak_Answer a = Permanent reason.

Definition add_calls (cs : list (nat * price_call)) (es : list (nat * string)) (g : priceGaps) : priceGaps :=
  {| pg_rows := pg_rows g; pg_calls := pg_calls g ++ cs; pg_ends := pg_ends g ++ es |}.

(** From [st] to [st'] the plugins were asked [new], which wrote the rows [cs] and [es],
    and days were answered for only as [allowed]. *)
Record did (allowed : string → string → Z → Prop) st (new : list (ask D)) cs es st' : Prop := {
  did_asked : fs_asked st' = fs_asked st ++ new;
  did_blocks k : is_Some (fs_blocks st' !! k) ↔ is_Some (fs_blocks st !! k) ∨ ∃ a, a ∈ new ∧ refuses k a;
  did_kept : Coverage.well_kept (table st) → Coverage.well_kept (table st');
  did_grows id pl x : answered st id pl x → answered st' id pl x;
  did_only id pl x : answered st' id pl x → answered st id pl x ∨ allowed id pl x;
  did_prices : (∀ a, a ∈ new → in_range a) → PriceStore.store_ok (fs_store st) → PriceStore.store_ok (fs_store st');
  did_tel : fs_tel st' = add_calls cs es <$> fs_tel st;
}.

Lemma add_calls_nil (t : option priceGaps) : add_calls [] [] <$> t = t.
Proof. destruct t as [[rows calls ends]|]; [|done]. unfold add_calls. cbn. by rewrite !app_nil_r. Qed.

Lemma did_refl allowed st : did allowed st [] [] [] st.
Proof.
  split; [by rewrite app_nil_r| |done|done|by left|done|by rewrite add_calls_nil].
  intros k. split; [by left|]. by intros [?|(a & ?%elem_of_nil & _)].
Qed.

Lemma did_trans allowed st new1 cs1 es1 st1 new2 cs2 es2 st2 :
  did allowed st new1 cs1 es1 st1 → did allowed st1 new2 cs2 es2 st2 → did allowed st (new1 ++ new2) (cs1 ++ cs2) (es1 ++ es2) st2.
Proof.
  intros [A1 B1 K1 G1 O1 P1 T1] [A2 B2 K2 G2 O2 P2 T2]. split.
  - by rewrite A2, A1, app_assoc.
  - intros k. rewrite B2, B1. setoid_rewrite elem_of_app. naive_solver.
  - auto.
  - auto.
  - intros id pl x [H1|?]%O2; [by apply O1|by right].
  - intros Hr H1. apply P2; [intros a Ha; apply Hr, elem_of_app; by right|]. apply P1; [intros a Ha; apply Hr, elem_of_app; by left|done].
  - rewrite T2, T1. destruct (fs_tel st); [|done]. unfold add_calls. cbn. by rewrite !app_assoc.
Qed.

Lemma did_weaken (allowed allowed' : string → string → Z → Prop) st new cs es st' :
  (∀ id pl x, allowed id pl x → allowed' id pl x) → did allowed st new cs es st' → did allowed' st new cs es st'.
Proof. intros Hw [A B K G O P T]. split; [done|done|done|done| |done|done]. intros id pl x [?|?]%O; auto. Qed.

(** Rows of telemetry alone. *)
Lemma did_call allowed st i c : did allowed st [] [(i, c)] [] (tel_call i c st).
Proof.
  destruct (did_refl allowed st) as [A B K G O P T]. split; [done..|]. cbn. unfold add_calls.
  destruct (fs_tel st); [|done]. cbn. by rewrite app_nil_r.
Qed.

Lemma did_end allowed st i o : did allowed st [] [] [(i, o)] (tel_end i o st).
Proof.
  destruct (did_refl allowed st) as [A B K G O P T]. split; [done..|]. cbn. unfold add_calls.
  destruct (fs_tel st); [|done]. cbn. by rewrite app_nil_r.
Qed.

(** An import blocks what it names and moves no first day forwards. *)
Lemma upsert_blocks_earlier exists_ l st st' : UpsertPriceFetchBlocks exists_ l st = Some st' →
  ∀ k b, fs_blocks st !! k = Some b → ∃ b', fs_blocks st' !! k = Some b' ∧ bl_FirstBlockedAt b' ≤ bl_FirstBlockedAt b.
Proof.
  unfold UpsertPriceFetchBlocks. destruct (_ || _); [done|]. intros [= <-] k b. cbn. set (f := λ (m : gmap (string * string) block) x, _).
  generalize (fs_blocks st). intros m Hb. assert (∃ b0, m !! k = Some b0 ∧ bl_FirstBlockedAt b0 ≤ bl_FirstBlockedAt b) as Hm by by exists b.
  clear Hb. revert m Hm. induction l as [|x l IH]; intros m (b0 & Hb0 & Hle); [by exists b0|]. apply IH. unfold f.
  destruct (decide (k = x.1)) as [->|Hne]; [|exists b0; by rewrite lookup_insert_ne]. rewrite Hb0. eexists. split; [apply lookup_insert_eq|]. cbn. lia.
Qed.

(** ** Writing a range *)

Definition within (id pl : string) gap : string → string → Z → Prop :=
  λ i p x, i = id ∧ p = pl ∧ From gap ≤ x < Before gap.

Lemma upsert_range_spec id pl bars gap (s s' : PriceStore.state D) : parse_uuid id = Some id →
  PriceStore.UpsertPricesForRange parse_uuid now id pl bars (From gap) (Before gap) None s = Some s' →
  (Coverage.well_kept (PriceStore.coverage s) → Coverage.well_kept (PriceStore.coverage s')) ∧
  ∀ i p x, covers (Coverage.spans_of i p (PriceStore.coverage s')) x ↔
    covers (Coverage.spans_of i p (PriceStore.coverage s)) x ∨ within id pl gap i p x.
Proof.
  intros Hid. unfold PriceStore.UpsertPricesForRange. destruct (match bars with [] => _ | _ => _ end) as [m|]; [|done].
  destruct (Coverage.upsertCoverageSpan _ _ _ _ _ _ _ _) as [e|t] eqn:E; [done|]. intros [= <-]. split.
  - intros Hk. by eapply Coverage.upsert_well_kept.
  - intros i p x. cbn. rewrite (Coverage.upsert_covers parse_uuid _ _ _ _ _ _ _ _ i p x E), Hid. unfold within. naive_solver.
Qed.

Lemma upsert_empty_total id pl gap (s : PriceStore.state D) : parse_uuid id = Some id → From gap < Before gap →
  is_Some (PriceStore.UpsertPricesForRange parse_uuid now id pl [] (From gap) (Before gap) None s).
Proof.
  intros Hid Hlt. unfold PriceStore.UpsertPricesForRange, Coverage.upsertCoverageSpan.
  rewrite (proj2 (Z.ltb_lt _ _) Hlt), Hid. by eexists.
Qed.

Lemma did_cover id pl gap st : parse_uuid id = Some id →
  did (within id pl gap) st [] [] [] (coverRange parse_uuid now id pl gap st) ∧
  ∀ x, From gap ≤ x < Before gap → answered (coverRange parse_uuid now id pl gap st) id pl x.
Proof.
  intros Hid. unfold coverRange. destruct (From gap <? Before gap) eqn:Hlt; cbn [negb].
  2: { apply Z.ltb_ge in Hlt. split; [apply did_refl|]. intros x Hx. lia. }
  apply Z.ltb_lt in Hlt. destruct (upsert_empty_total id pl gap (fs_store st) Hid Hlt) as [s E]. rewrite E.
  destruct (upsert_range_spec _ _ _ _ _ _ Hid E) as [Hk Hc]. destruct (did_refl (within id pl gap) st) as [A B K G O P T].
  split; [split; [done|done|done| | | |done]|].
  - intros i p x Hx. apply Hc. by left.
  - intros i p x Hx. by apply Hc.
  - intros _. eapply PriceStore.upsert_range_ok; [|exact E]. by intros b ?%elem_of_nil.
  - intros x Hx. apply Hc. right. split; [done|]. by split.
Qed.

(** ** One range put to one plugin *)

(** A row that says the plugin failed. *)
Definition failing (c : price_call) : Prop :=
  cl_Outcome c ∈ [call_permanent_block; call_timeout; call_error; call_upsert_failed].

(** What a range put to a plugin leaves: a failure is in a row, and where there was none
    the plugin has answered for the range. *)
Record fetched_range (i : nat) (id : string) pe (rs : list DateRange) (ok : bool) (n : nat)
    (cs : list (nat * price_call)) st' : Prop := {
  fr_rows c : c ∈ cs → c.1 = i ∧ cl_PluginID c.2 = pl_ID pe;
  fr_bars : n = sum_list (cl_Bars <$> cs.*2);
  fr_ok : ok = true → ∀ x, covers rs x → answered st' id (pl_ID pe) x;
  fr_failed : ok = false → ∃ c, c ∈ cs ∧ failing c.2;
}.

(** A request that is for the gap alone, and no further back than the plugin reaches. *)
Definition asks_for (id : string) pe (rs : list DateRange) a : Prop :=
  ak_Instrument a = id ∧ ak_Plugin a = pl_ID pe ∧ nonempty (ak_Range a) ∧
  ∀ x, From (ak_Range a) ≤ x < Before (ak_Range a) →
    covers rs x ∧ match cutoff today pe with Some c => c ≤ x | None => True end.

Definition days_of (id : string) pe (rs : list DateRange) : string → string → Z → Prop :=
  λ i p x, i = id ∧ p = pl_ID pe ∧ covers rs x.

Lemma did_answer id pe gap a st : parse_uuid id = Some id →
  ak_Instrument a = id → ak_Plugin a = pl_ID pe → ak_Range a = gap →
  ∀ s', fs_store s' = fs_store st → fs_tel s' = fs_tel st → fs_asked s' = fs_asked st ++ [a] →
  (∀ k, is_Some (fs_blocks s' !! k) ↔ is_Some (fs_blocks st !! k) ∨ refuses k a) →
  did (within id (pl_ID pe) gap) st [a] [] [] s'.
Proof.
  intros Hid Ei Ep Er s' Es Et Ea Hb. unfold answered. split; rewrite ?Es, ?Et, ?Ea; unfold answered, table; rewrite ?Es;
    [done| |done|done|by left|done|by rewrite add_calls_nil].
  intros k. rewrite Hb. setoid_rewrite list_elem_of_singleton. naive_solver.
Qed.

Lemma one_row i pe gap n o rs ok id st' : (ok = true → ∀ x, covers rs x → answered st' id (pl_ID pe) x) →
  (ok = false → failing (priceCall pe gap n o)) →
  fetched_range i id pe rs ok n [(i, priceCall pe gap n o)] st'.
Proof.
  intros Hok Hf. split; [|cbn; lia|done|].
  - intros c ->%list_elem_of_singleton. done.
  - intros E. eexists. split; [left|]. by apply Hf.
Qed.

Lemma did_seq allowed st new1 cs1 es1 st1 cs2 st2 :
  did allowed st new1 cs1 es1 st1 → did allowed st1 [] cs2 [] st2 → did allowed st new1 (cs1 ++ cs2) es1 st2.
Proof. intros H1 H2. pose proof (did_trans _ _ _ _ _ _ _ _ _ _ H1 H2) as H. by rewrite !app_nil_r in H. Qed.

Lemma ask_range_spec i id inst pe gap st ok n st' : parse_uuid id = Some id → nonempty gap →
  ask_range parse_uuid today now i id inst pe gap st = (ok, n, st') →
  ∃ a cs, did (within id (pl_ID pe) gap) st [a] cs [] st' ∧
    ak_Instrument a = id ∧ ak_Plugin a = pl_ID pe ∧ ak_Range a = gap ∧
    fetched_range i id pe [gap] ok n cs st'.
Proof.
  intros Hid Hne. unfold ask_range. set (ans := pl_FetchPrices _ _ _ _ _ _). set (a := {| ak_Instrument := id |}).
  intros E. exists a.
  assert (∀ s', fs_store s' = fs_store st → fs_tel s' = fs_tel st → fs_asked s' = fs_asked st ++ [a] →
    (∀ k, is_Some (fs_blocks s' !! k) ↔ is_Some (fs_blocks st !! k) ∨ refuses k a) →
    did (within id (pl_ID pe) gap) st [a] [] [] s') as Hans by (by eapply did_answer).
  assert ((∀ reason, ans ≠ Permanent reason) → did (within id (pl_ID pe) gap) st [a] [] [] (with_ask a st)) as Hquiet.
  { intros Hn. apply Hans; try done. intros k. split; [by left|]. intros [?|(_ & r & Hr)]; [done|]. by destruct (Hn r). }
  destruct ans as [bars basis| |reason| |] eqn:Ea.
  - destruct (PriceStore.UpsertPricesForRange _ _ _ _ _ _ _ _ _) as [s|] eqn:Eu; injection E as <- <- <-; eexists; split_and!; try done.
    + destruct (upsert_range_spec _ _ _ _ _ _ Hid Eu) as [Hk Hc]. eapply (did_seq _ _ _ [] []); [|apply did_call].
      specialize (Hquiet ltac:(done)). destruct Hquiet as [A B K G O P T]. split; cbn; [done|done| | | | |done].
      * intros Hw. by apply Hk.
      * intros j p x Hx. apply Hc. by left.
      * intros j p x Hx. by apply Hc.
      * intros Hr. eapply PriceStore.upsert_range_ok; [|exact Eu]. intros b (b' & -> & Hb)%list_elem_of_fmap.
        apply (Hr a); [left|done].
    + apply one_row; [|done]. intros _ x [r [->%list_elem_of_singleton Hx]]. 
      destruct (upsert_range_spec _ _ _ _ _ _ Hid Eu) as [Hk Hc]. apply Hc. right. split; [done|by split].
    + eapply (did_seq _ _ _ [] []); [|apply did_call]. by apply Hquiet.
    + apply one_row; [done|]. intros _. unfold failing. set_solver.
  - injection E as <- <- <-. eexists. split_and!; try done.
    + destruct (did_cover id (pl_ID pe) gap (with_ask a st) Hid) as [Hd _].
      eapply (did_seq _ _ _ [] []); [|apply did_call]. eapply (did_seq _ _ _ [] []); [by apply Hquiet|exact Hd].
    + apply one_row; [|done]. intros _ x [r [->%list_elem_of_singleton Hx]].
      by apply (proj2 (did_cover id (pl_ID pe) gap (with_ask a st) Hid)).
  - injection E as <- <- <-. eexists. split_and!; try done.
    + eapply (did_seq _ _ _ [] []); [|apply did_call]. apply Hans; try done. intros k. cbn.
      rewrite lookup_insert_is_Some'. split; [intros [<-|?]; [right|by left]|intros [?|[<- _]]; [by right|by left]].
      split; [done|]. by eexists.
    + apply one_row; [done|]. intros _. unfold failing. set_solver.
  - injection E as <- <- <-. eexists. split_and!; try done.
    + eapply (did_seq _ _ _ [] []); [|apply did_call]. by apply Hquiet.
    + apply one_row; [done|]. intros _. unfold failing. set_solver.
  - injection E as <- <- <-. eexists. split_and!; try done.
    + eapply (did_seq _ _ _ [] []); [|apply did_call]. by apply Hquiet.
    + apply one_row; [done|]. intros _. unfold failing. set_solver.
Qed.

Lemma within_days id pe gap i p x : within id (pl_ID pe) gap i p x → days_of id pe [gap] i p x.
Proof. intros (-> & -> & Hx). split_and!; [done..|]. exists gap. split; [left|done]. Qed.

Lemma fetched_range_app i id pe rs rs' ok n cs n' cs' st' : (∀ x, covers rs x → answered st' id (pl_ID pe) x) →
  (∀ c, c ∈ cs' → c.1 = i ∧ cl_PluginID c.2 = pl_ID pe) → n' = sum_list (cl_Bars <$> cs'.*2) →
  fetched_range i id pe rs' ok n cs st' → fetched_range i id pe (rs ++ rs') ok (n' + n) (cs' ++ cs) st'.
Proof.
  intros Hrs Hrows Hn [R B O F]. split.
  - intros c [?|?]%elem_of_app; auto.
  - rewrite !fmap_app. subst. clear. induction (cl_Bars <$> cs'.*2) as [|y l IH]; [done|]. cbn. unfold id in *. lia.
  - intros Eo x [?|?]%covers_app; auto.
  - intros Eo. destruct (F Eo) as (c & ? & ?). exists c. split; [apply elem_of_app; by right|done].
Qed.

Lemma part_covers gap r x : From gap ≤ From r → Before r ≤ Before gap → covers [r] x → covers [gap] x.
Proof. intros ?? (r' & ->%list_elem_of_singleton & ?). exists gap. split; [left|lia]. Qed.

Lemma within_part id pe gap r i p x : From gap ≤ From r → Before r ≤ Before gap →
  within id (pl_ID pe) r i p x → days_of id pe [gap] i p x.
Proof. intros ?? (-> & -> & Hx). split_and!; [done..|]. apply (part_covers gap r); [done..|]. exists r. by split; [left|]. Qed.

(** A part out of the plugin's reach is settled without asking. *)
Lemma out_of_reach_spec i id pe gap r st : parse_uuid id = Some id → From gap ≤ From r → Before r ≤ Before gap →
  let st1 := tel_call i (priceCall pe r 0 call_history_limit) (coverRange parse_uuid now id (pl_ID pe) r st) in
  did (days_of id pe [gap]) st [] [(i, priceCall pe r 0 call_history_limit)] [] st1 ∧
  ∀ x, covers [r] x → answered st1 id (pl_ID pe) x.
Proof.
  intros Hid ?? st1. destruct (did_cover id (pl_ID pe) r st Hid) as [Hd Hx]. split.
  - eapply (did_seq _ _ _ [] []); [|apply did_call]. eapply did_weaken; [|exact Hd]. intros j p x. by apply within_part.
  - intros x (r' & ->%list_elem_of_singleton & ?). by apply Hx.
Qed.

(** A part within it is asked for. *)
Lemma ask_part_spec i id inst pe gap r st ok n st' : parse_uuid id = Some id → nonempty r → From gap ≤ From r → Before r ≤ Before gap →
  (∀ c, cutoff today pe = Some c → c ≤ From r) → ask_range parse_uuid today now i id inst pe r st = (ok, n, st') →
  ∃ a cs, did (days_of id pe [gap]) st [a] cs [] st' ∧ asks_for id pe [gap] a ∧ fetched_range i id pe [r] ok n cs st'.
Proof.
  intros Hid Hr ?? Hcut E. destruct (ask_range_spec _ _ _ _ _ _ _ _ _ Hid Hr E) as (a & cs & Hd & Ei & Ep & Er & Hf).
  exists a, cs. split_and!; [|split_and!; [done|done|by rewrite Er|]|done].
  - eapply did_weaken; [|exact Hd]. intros j p x. by apply within_part.
  - rewrite Er. intros x Hx. split; [apply (part_covers gap r); [done..|]; exists r; by split; [left|]|].
    destruct (cutoff today pe) as [c|]; [|done]. specialize (Hcut c eq_refl). lia.
Qed.

Lemma covers_split gap c x : covers [gap] x →
  covers ([{| From := From gap; Before := c |}] ++ [{| From := c; Before := Before gap |}]) x.
Proof.
  intros (r & ->%list_elem_of_singleton & Hr). destruct (Z.lt_ge_cases x c).
  - exists {| From := From gap; Before := c |}. split; [left|cbn; lia].
  - exists {| From := c; Before := Before gap |}. split; [right; left|cbn; lia].
Qed.

Lemma fetch_range_spec i id inst pe gap st ok n st' : parse_uuid id = Some id → nonempty gap →
  fetch_range parse_uuid today now i id inst pe gap st = (ok, n, st') →
  ∃ new cs, did (days_of id pe [gap]) st new cs [] st' ∧ (∀ a, a ∈ new → asks_for id pe [gap] a) ∧
    fetched_range i id pe [gap] ok n cs st'.
Proof.
  intros Hid Hne. unfold fetch_range. destruct (cutoff today pe) as [c|] eqn:Ec.
  2: { intros E. destruct (ask_part_spec i id inst pe gap gap st ok n st' Hid Hne) as (a & cs & Hd & Ha & Hf); [done..|by rewrite Ec|done|].
       exists [a], cs. split_and!; [done|by intros a' ->%list_elem_of_singleton|done]. }
  destruct (Z.leb_spec (Before gap) c).
  { intros [= <- <- <-]. destruct (out_of_reach_spec i id pe gap gap st Hid) as [Hd Hx]; [done..|].
    eexists [], _. split_and!; [exact Hd|by intros a ?%elem_of_nil|]. by apply one_row. }
  destruct (Z.ltb_spec (From gap) c); intros E.
  2: { destruct (ask_part_spec i id inst pe gap gap st ok n st' Hid Hne) as (a & cs & Hd & Ha & Hf);
         [done|done|rewrite Ec; by intros ? [= <-]|done|].
       exists [a], cs. split_and!; [done|by intros a' ->%list_elem_of_singleton|done]. }
  set (head := {| From := From gap; Before := c |}) in *. set (tail := {| From := c; Before := Before gap |}) in *.
  destruct (out_of_reach_spec i id pe gap head st Hid) as [Hd1 Hx]; [cbn; lia..|].
  destruct (ask_part_spec i id inst pe gap tail _ ok n st' Hid ltac:(unfold nonempty; cbn; lia) ltac:(cbn; lia) ltac:(cbn; lia)
    ltac:(rewrite Ec; intros ? [= <-]; cbn; lia) E) as (a & cs & Hd2 & Ha & Hf).
  exists [a], ([(i, priceCall pe head 0 call_history_limit)] ++ cs). split_and!.
  - exact (did_trans _ _ [] _ [] _ [a] cs [] _ Hd1 Hd2).
  - by intros a' ->%list_elem_of_singleton.
  - destruct (fetched_range_app i id pe [head] [tail] ok n cs 0 [(i, priceCall pe head 0 call_history_limit)] st') as [R B O F];
      [intros x Hxx; by apply (did_grows _ _ _ _ _ _ Hd2), Hx|by intros c' ->%list_elem_of_singleton|done|done|].
    split; [exact R|exact B| |exact F]. intros Eo x Hg. apply O; [done|]. by apply covers_split.
Qed.

Lemma asks_for_mono id pe rs rs' a : (∀ x, covers rs x → covers rs' x) → asks_for id pe rs a → asks_for id pe rs' a.
Proof. intros Hr (? & ? & ? & Ha). split_and!; [done..|]. intros x Hx. destruct (Ha x Hx). auto. Qed.

Lemma days_of_mono id pe rs rs' i p x : (∀ x, covers rs x → covers rs' x) → days_of id pe rs i p x → days_of id pe rs' i p x.
Proof. intros Hr (? & ? & ?). split_and!; auto. Qed.

Lemma fetch_ranges_spec i id inst pe rs bars st ok bars' st' : parse_uuid id = Some id → (∀ r, r ∈ rs → nonempty r) →
  fetch_ranges parse_uuid today now i id inst pe rs bars st = (ok, bars', st') →
  ∃ new cs n, bars' = (bars + n)%nat ∧ did (days_of id pe rs) st new cs [] st' ∧ (∀ a, a ∈ new → asks_for id pe rs a) ∧
    fetched_range i id pe rs ok n cs st'.
Proof.
  intros Hid. revert bars st. induction rs as [|r rs IH]; intros bars st Hne; cbn [fetch_ranges].
  { intros [= <- <- <-]. exists [], [], 0%nat. split_and!; [lia|apply did_refl|by intros a ?%elem_of_nil|].
    split; [by intros c ?%elem_of_nil|done|by intros _ x ?%covers_nil|done]. }
  assert (∀ x, covers [r] x → covers (r :: rs) x) as H1 by (intros x Hx; apply (covers_app [r]); by left).
  assert (∀ x, covers rs x → covers (r :: rs) x) as H2 by (intros x Hx; apply (covers_app [r]); by right).
  destruct (fetch_range _ _ _ _ _ _ _ _ _) as [[ok1 n] st1] eqn:E1.
  destruct (fetch_range_spec _ _ _ _ _ _ _ _ _ Hid (Hne r ltac:(left)) E1) as (new1 & cs1 & Hd1 & Ha1 & Hf1).
  assert (did (days_of id pe (r :: rs)) st new1 cs1 [] st1) as Hd1' by (eapply did_weaken; [|exact Hd1]; intros j p x; by apply days_of_mono).
  assert (∀ a, a ∈ new1 → asks_for id pe (r :: rs) a) as Ha1' by (intros a ?; eapply asks_for_mono; [exact H1|auto]).
  destruct ok1.
  - intros E. destruct (IH _ _ (λ r' H, Hne r' ltac:(by right)) E) as (new2 & cs2 & n2 & -> & Hd2 & Ha2 & Hf2).
    exists (new1 ++ new2), (cs1 ++ cs2), (n + n2)%nat. split_and!; [lia| | |].
    + apply (did_trans _ _ _ _ [] _ _ _ [] _ Hd1'). eapply did_weaken; [|exact Hd2]. intros j p x. by apply days_of_mono.
    + intros a [?|?]%elem_of_app; [auto|]. eapply asks_for_mono; [exact H2|auto].
    + destruct Hf1 as [R1 B1 O1 _]. apply (fetched_range_app i id pe [r] rs); [|done|done|done].
      intros x Hx. apply (did_grows _ _ _ _ _ _ Hd2), O1; done.
  - intros [= <- <- <-]. exists new1, cs1, n. split_and!; [done|done|done|]. destruct Hf1 as [R1 B1 _ F1]. by split.
Qed.

(** ** One gap *)

(** What is known of a gap before the cycle: no plugin has answered for a day of it. *)
Record open_gap st (ig : Coverage.InstrumentDateRanges) : Prop := {
  og_id : parse_uuid (Coverage.InstrumentID ig) = Some (Coverage.InstrumentID ig);
  og_ranges : canonical (Coverage.Ranges ig) ∧ Coverage.Ranges ig ≠ [];
  og_open x pl : covers (Coverage.Ranges ig) x → ¬ answered st (Coverage.InstrumentID ig) pl x;
}.

Lemma ForallOrdPairs_perm {A} (R : A → A → Prop) (k k' : list A) : (∀ x y, R x y → R y x) →
  k ≡ₚ k' → ForallOrdPairs R k → ForallOrdPairs R k'.
Proof.
  intros Hsym. induction 1 as [|x k k' Hk IH|x y k|k k' k'' _ IH1 _ IH2]; intros Hp; [done| | |auto].
  - inversion Hp as [|? ? Hx Hr]; subst. constructor; [|auto]. by rewrite <- Hk.
  - inversion Hp as [|? ? Hx Hr]; subst. inversion Hr as [|? ? Hy Hrr]; subst. inversion Hx as [|? ? Hxy Hxx]; subst.
    constructor; [constructor; [by apply Hsym|done]|by constructor].
Qed.

Lemma sorted_apart_canonical l : StronglySorted (λ r r', From r ≤ From r') l → (∀ r, r ∈ l → nonempty r) →
  ForallOrdPairs Coverage.apart l → canonical l.
Proof.
  induction l as [|r l IH]; intros Hs Hn Ha; [constructor|].
  apply StronglySorted_inv in Hs as [Hs Hr]. inversion Ha as [|? ? Hra Hal]; subst.
  specialize (IH Hs ltac:(intros; apply Hn; by right) Hal). destruct l as [|r' l]; [apply can_one, Hn; left|].
  apply can_cons; [apply Hn; left| |done]. rewrite Forall_cons in Hr. rewrite Forall_cons in Hra. destruct Hr as [Hr _], Hra as [Hra _].
  pose proof (Hn r ltac:(left)) as N1. pose proof (Hn r' ltac:(right; left)) as N2. unfold nonempty in *. destruct Hra; lia.
Qed.

(** What a plugin covers is read in order, with a gap between any two spans. *)
Lemma spans_canonical t id pl : Coverage.well_kept t → canonical (PriceCoverageByPlugin t id pl).
Proof.
  intros [Hne Hp]. unfold PriceCoverageByPlugin. apply sorted_apart_canonical; [apply sorted_by_from| |].
  - intros r. rewrite go_sort_perm. intros (s & -> & [_ Hs]%list_elem_of_filter)%list_elem_of_fmap. by apply Hne.
  - eapply ForallOrdPairs_perm; [|symmetry; apply go_sort_perm|].
    { intros x y [?|?]; [by right|by left]. }
    unfold Coverage.spans_of. clear Hne. induction Hp as [|s l Hs Hl IH]; [constructor|]. rewrite filter_cons.
    case_decide as Hop; [|exact IH]. cbn. constructor; [|exact IH]. apply Forall_forall.
    intros r (s' & -> & [Hop' Hs']%list_elem_of_filter)%list_elem_of_fmap. rewrite Forall_forall in Hs.
    apply Coverage.of_pair_spec in Hop as [<- <-], Hop' as [E1 E2]. apply Hs; [done|]. by split.
Qed.

Lemma open_outstanding st ig pe : Coverage.well_kept (table st) → open_gap st ig →
  canonical (SubtractRanges (Coverage.Ranges ig) (PriceCoverageByPlugin (table st) (Coverage.InstrumentID ig) (pl_ID pe))) ∧
  ∀ x, covers (SubtractRanges (Coverage.Ranges ig) (PriceCoverageByPlugin (table st) (Coverage.InstrumentID ig) (pl_ID pe))) x ↔
    covers (Coverage.Ranges ig) x.
Proof.
  intros Hk [Hid [Hc _] Ho]. destruct (subtract_spec _ _ Hc (spans_canonical (table st) (Coverage.InstrumentID ig) (pl_ID pe) Hk)) as [Hs Hcan].
  split; [done|]. intros x. rewrite Hs. split; [by intros [??]|]. intros Hx. split; [done|].
  unfold PriceCoverageByPlugin. rewrite (covers_perm _ _ x (go_sort_perm _ _)). by apply Ho.
Qed.

(** Whether the plugins answered for a gap, and if not, that each one failed. *)
Record tried (i : nat) (blocked : gmap (string * string) block) (ig : Coverage.InstrumentDateRanges) (inst : subject)
    (plugins : list (plugin D)) (fetched : bool) (n : nat) (new : list (ask D)) (cs : list (nat * price_call)) st' : Prop := {
  td_asks a : a ∈ new → ∃ pe, pe ∈ plugins ∧ eligible blocked (Coverage.InstrumentID ig) inst pe = true ∧
    asks_for (Coverage.InstrumentID ig) pe (Coverage.Ranges ig) a;
  td_rows c : c ∈ cs → c.1 = i;
  td_bars : n = sum_list (cl_Bars <$> cs.*2);
  td_fetched : fetched = true → ∃ pe, pe ∈ plugins ∧ eligible blocked (Coverage.InstrumentID ig) inst pe = true ∧
    ∀ x, covers (Coverage.Ranges ig) x → answered st' (Coverage.InstrumentID ig) (pl_ID pe) x;
  td_failed : fetched = false → ∀ pe, pe ∈ plugins → eligible blocked (Coverage.InstrumentID ig) inst pe = true →
    ∃ c, c ∈ cs ∧ cl_PluginID c.2 = pl_ID pe ∧ failing c.2;
}.

(** The days of a gap, for the plugins there are. *)
Definition gap_days (plugins : list (plugin D)) (ig : Coverage.InstrumentDateRanges) : string → string → Z → Prop :=
  λ i p x, i = Coverage.InstrumentID ig ∧ covers (Coverage.Ranges ig) x ∧ ∃ pe, pe ∈ plugins ∧ pl_ID pe = p.

Lemma try_plugins_spec i blocked st0 ig inst plugins reached bars st f r b st' :
  Coverage.well_kept (table st0) → open_gap st0 ig →
  try_plugins parse_uuid today now i blocked (table st0) (Coverage.InstrumentID ig) (Coverage.Ranges ig) inst plugins reached bars st
    = (f, r, b, st') →
  ∃ new cs n, b = (bars + n)%nat ∧ did (gap_days plugins ig) st new cs [] st' ∧ tried i blocked ig inst plugins f n new cs st' ∧
    (f = false → r = reached || existsb (eligible blocked (Coverage.InstrumentID ig) inst) plugins).
Proof.
  intros Hk Hog.
  revert reached bars st. induction plugins as [|pe plugins IH]; intros reached bars st; cbn [try_plugins].
  { intros [= <- <- <- <-]. exists [], [], 0%nat. split_and!; [lia|apply did_refl| |intros _; by rewrite orb_false_r].
    split; [by intros a ?%elem_of_nil|by intros c ?%elem_of_nil|done|done|by intros _ pe ?%elem_of_nil]. }
  assert (∀ st new cs es st', did (gap_days plugins ig) st new cs es st' → did (gap_days (pe :: plugins) ig) st new cs es st') as Hmono.
  { intros ?????. apply did_weaken. intros j p x (? & ? & pe' & ? & ?). split_and!; [done..|]. exists pe'. split; [by right|done]. }
  destruct (eligible blocked (Coverage.InstrumentID ig) inst pe) eqn:Hel; cbn [negb].
  2: { intros (new & cs & n & -> & Hd & [A R B F G] & Hr)%IH. exists new, cs, n. split_and!; [done|by apply Hmono| |].
       - split; [|done|done| |].
         + intros a (pe' & ? & ?)%A. exists pe'. split; [by right|done].
         + intros E. destruct (F E) as (pe' & ? & ?). exists pe'. split; [by right|done].
         + intros E pe' [->|Hin]%elem_of_cons He; [by rewrite Hel in He|]. by apply G.
       - intros E. rewrite (Hr E). cbn. by rewrite Hel. }
  destruct (open_outstanding st0 ig pe Hk Hog) as [Hcan Hcov].
  destruct (SubtractRanges (Coverage.Ranges ig) _) as [|g gs] eqn:Eo.
  { exfalso. destruct (og_ranges _ _ Hog) as [Hc Hne]. destruct (Coverage.Ranges ig) as [|r0 rs0]; [done|].
    pose proof (canonical_head _ _ Hc) as N. unfold nonempty in N. apply (covers_nil (From r0)), Hcov. exists r0. split; [left|lia]. }
  set (out := g :: gs) in *. clearbody out.
  destruct (fetch_ranges _ _ _ _ _ _ _ _ _ _) as [[ok bars1] st1] eqn:E1.
  destruct (fetch_ranges_spec i (Coverage.InstrumentID ig) inst pe out bars st ok bars1 st1 (og_id _ _ Hog) (λ r H, canonical_nonempty _ _ Hcan H) E1)
    as (new1 & cs1 & n1 & -> & Hd1 & Ha1 & [R1 B1 O1 F1]).
  assert (did (gap_days (pe :: plugins) ig) st new1 cs1 [] st1) as Hd1'.
  { eapply did_weaken; [|exact Hd1]. intros j p x (-> & -> & Hx). split_and!; [done|by apply Hcov|]. exists pe. split; [left|done]. }
  assert (∀ a, a ∈ new1 → asks_for (Coverage.InstrumentID ig) pe (Coverage.Ranges ig) a) as Ha1' by (intros a Ha; eapply asks_for_mono; [|by apply Ha1]; intros x; apply Hcov).
  destruct ok.
  - intros [= <- <- <- <-]. exists new1, cs1, n1. split_and!; [done|done| |done]. split; [|by intros c [? _]%R1|done| |done].
    + intros a Ha. exists pe. split_and!; [left|done|by apply Ha1'].
    + intros _. exists pe. split_and!; [left|done|]. intros x Hx. by apply O1, Hcov.
  - intros (new & cs & n & -> & Hd & [A R B F G] & Hr)%IH. exists (new1 ++ new), (cs1 ++ cs), (n1 + n)%nat. split_and!; [lia| | |].
    + apply (did_trans _ _ _ _ [] _ _ _ [] _ Hd1'). by apply Hmono.
    + split.
      * intros a [Ha|(pe' & ? & ?)%A]%elem_of_app; [exists pe; split_and!; [left|done|by apply Ha1']|]. exists pe'. split; [by right|done].
      * intros c [(? & _)%R1|?%R]%elem_of_app; done.
      * rewrite !fmap_app, B, B1. clear. induction (cl_Bars <$> cs1.*2) as [|y l IH]; [done|]. cbn. unfold Datatypes.id in *. lia.
      * intros E. destruct (F E) as (pe' & ? & ?). exists pe'. split; [by right|done].
      * intros E pe' [->|Hin]%elem_of_cons He.
        -- destruct (F1 eq_refl) as (c & Hc & Hf). exists c. split_and!; [apply elem_of_app; by left|by apply R1|done].
        -- destruct (G E pe' Hin He) as (c & ? & ?). exists c. split; [apply elem_of_app; by right|done].
    + intros E. rewrite (Hr E). cbn. rewrite Hel. by rewrite orb_true_l, orb_true_r.
Qed.

(** What the outcome of a gap says, given the rows written under it and the state the
    cycle ends in. *)
Definition outcome_true (subjects : gmap string subject) (plugins : list (plugin D)) (blocked : gmap (string * string) block)
    (i : nat) (ig : Coverage.InstrumentDateRanges) (o : string) (cs : list (nat * price_call)) st' : Prop :=
  match subjects !! Coverage.InstrumentID ig with
  | None => o = gap_instrument_missing
  | Some inst =>
      let able pe := eligible blocked (Coverage.InstrumentID ig) inst pe = true in
      let settled := ∃ pe, pe ∈ plugins ∧ able pe ∧
        ∀ x, covers (Coverage.Ranges ig) x → answered st' (Coverage.InstrumentID ig) (pl_ID pe) x in
      let brought := ∃ c, (i, c) ∈ cs ∧ (0 < cl_Bars c)%nat in
      (o = gap_filled ∧ settled ∧ brought) ∨
      (o = gap_settled_empty ∧ settled ∧ ¬ brought) ∨
      (o = gap_no_eligible_plugin ∧ ∀ pe, pe ∈ plugins → ¬ able pe) ∨
      (o = gap_all_plugins_failed ∧ (∃ pe, pe ∈ plugins ∧ able pe) ∧
        ∀ pe, pe ∈ plugins → able pe → ∃ c, (i, c) ∈ cs ∧ cl_PluginID c = pl_ID pe ∧ failing c)
  end.

Lemma outcome_later subjects plugins blocked i ig o cs st1 cs' st2 :
  (∀ id pl x, answered st1 id pl x → answered st2 id pl x) → (∀ c, c ∈ cs' → c.1 ≠ i) →
  outcome_true subjects plugins blocked i ig o cs st1 → outcome_true subjects plugins blocked i ig o (cs ++ cs') st2.
Proof.
  intros Hg Hi. unfold outcome_true. destruct (subjects !! _) as [inst|]; [|done].
  assert (∀ c, (i, c) ∈ cs ++ cs' ↔ (i, c) ∈ cs) as Hc.
  { intros c. rewrite elem_of_app. split; [intros [?|H%Hi]; done|by left]. }
  setoid_rewrite Hc. cbv zeta. naive_solver.
Qed.

Lemma sum_positive (l : list nat) : (0 < sum_list l)%nat ↔ ∃ n, n ∈ l ∧ (0 < n)%nat.
Proof.
  induction l as [|n l IH]; cbn; [split; [lia|by intros (? & ?%elem_of_nil & _)]|]. unfold Datatypes.id. setoid_rewrite elem_of_cons. split.
  - intros H. destruct n as [|n]; [destruct (proj1 IH H) as (m & ? & ?); exists m; by split; [right|]|]. exists (S n). split; [by left|lia].
  - intros (m & [->|Hm] & ?); [lia|]. assert (0 < sum_list l)%nat by (apply IH; by exists m). unfold Datatypes.id in *. lia.
Qed.

Lemma row_under (i : nat) (cs : list (nat * price_call)) (P : price_call → Prop) : (∀ c, c ∈ cs → c.1 = i) →
  (∃ c, c ∈ cs ∧ P c.2) → ∃ c, (i, c) ∈ cs ∧ P c.
Proof. intros Hr ([j c] & Hin & Hp). pose proof (Hr _ Hin) as E. cbn in E. subst j. by exists c. Qed.

Lemma process_gap_spec subjects plugins blocked st0 i ig st : Coverage.well_kept (table st0) → open_gap st0 ig →
  let st' := process_gap parse_uuid today now subjects plugins blocked (table st0) i ig st in
  ∃ new cs o, did (gap_days plugins ig) st new cs [(i, o)] st' ∧ (∀ c, c ∈ cs → c.1 = i) ∧
    (∀ a, a ∈ new → ∃ inst pe, subjects !! Coverage.InstrumentID ig = Some inst ∧ pe ∈ plugins ∧
      eligible blocked (Coverage.InstrumentID ig) inst pe = true ∧ asks_for (Coverage.InstrumentID ig) pe (Coverage.Ranges ig) a) ∧
    (∀ g, fs_tel st = Some g → outcome_true subjects plugins blocked i ig o cs st').
Proof.
  intros Hk Hog. unfold process_gap, outcome_true. destruct (subjects !! _) as [inst|] eqn:Es.
  2: { exists [], [], gap_instrument_missing. split_and!; [apply did_end|by intros c ?%elem_of_nil|by intros a ?%elem_of_nil|done]. }
  destruct (try_plugins _ _ _ _ _ _ _ _ _ _ _ _ _) as [[[f r] b] st1] eqn:E. cbv zeta.
  destruct (try_plugins_spec _ _ _ _ _ _ _ _ _ _ _ _ _ Hk Hog E) as (new & cs & n & Hb & Hd & [A R B F G] & Hr).
  cbn in Hb. subst b. set (o := gapOutcome _ _ _ _). exists new, cs, o. split_and!; [|exact R| |].
  - pose proof (did_trans _ _ _ _ [] _ [] [] _ _ Hd (did_end _ st1 i o)) as H. by rewrite !app_nil_r in H.
  - intros a (pe & ? & ? & ?)%A. exists inst, pe. done.
  - intros g Eg. assert (∀ c, c ∈ cs → called i st1 = true) as Hcalled.
    { intros c Hc. unfold called. rewrite (did_tel _ _ _ _ _ _ Hd), Eg. cbn. apply existsb_exists. exists c.
      split; [apply list_elem_of_In, elem_of_app; by right|]. rewrite (R c Hc). apply Nat.eqb_refl. }
    assert ((0 < n)%nat ↔ ∃ c, (i, c) ∈ cs ∧ (0 < cl_Bars c)%nat) as Hbars.
    { rewrite B, sum_positive. setoid_rewrite list_elem_of_fmap. setoid_rewrite list_elem_of_fmap. split.
      - intros (m & (c & -> & ([j c'] & -> & Hin)) & ?). pose proof (R _ Hin) as Ej. cbn in Ej. subst j. by exists c'.
      - intros (c & Hin & ?). exists (cl_Bars c). split; [|done]. exists c. split; [done|]. by exists (i, c). }
    unfold o, gapOutcome. rewrite <- Hbars. destruct f.
    + destruct (F eq_refl) as (pe & ? & ? & ?). destruct (Nat.ltb_spec 0 n); cbn [andb]; [left|right; left]; split_and!; try done;
        [by exists pe|by exists pe|lia].
    + rewrite (Hr eq_refl). cbn [andb orb]. right; right. destruct (existsb _ plugins) eqn:Ee; cbn [negb].
      * apply existsb_exists in Ee as (pe & Hin%list_elem_of_In & Hel). destruct (G eq_refl pe Hin Hel) as (c & Hc & _).
        rewrite (Hcalled c Hc). cbn [negb]. right. split_and!; [done|by exists pe|]. intros pe' Hpe' Hel'.
        apply (row_under i cs (λ c, cl_PluginID c = pl_ID pe' ∧ failing c)); [done|]. destruct (G eq_refl pe' Hpe' Hel') as (c' & ? & ? & ?). by exists c'.
      * left. split; [done|]. intros pe Hin Hel. assert (existsb (eligible blocked (Coverage.InstrumentID ig) inst) plugins = true) as Hx; [|congruence].
        apply existsb_exists. exists pe. by rewrite <- list_elem_of_In.
Qed.

(** ** The cycle *)

(** A request is for days of a gap, to a plugin past every filter. *)
Definition asked_of (subjects : gmap string subject) (plugins : list (plugin D)) (blocked : gmap (string * string) block)
    (gaps : list Coverage.InstrumentDateRanges) a : Prop :=
  ∃ ig inst pe, ig ∈ gaps ∧ subjects !! Coverage.InstrumentID ig = Some inst ∧ pe ∈ plugins ∧
    eligible blocked (Coverage.InstrumentID ig) inst pe = true ∧ asks_for (Coverage.InstrumentID ig) pe (Coverage.Ranges ig) a.

Definition days_of_gaps (plugins : list (plugin D)) (gaps : list Coverage.InstrumentDateRanges) : string → string → Z → Prop :=
  λ j p x, ∃ ig, ig ∈ gaps ∧ gap_days plugins ig j p x.

(** What the rest of a cycle does: it stamps the gaps in order, each truthfully, and
    stops short only where it is cancelled. *)
Record stamped (cancelled : nat → bool) (subjects : gmap string subject) (plugins : list (plugin D))
    (blocked : gmap (string * string) block) (i : nat) (gaps : list Coverage.InstrumentDateRanges) (ok : bool)
    (cs : list (nat * price_call)) (es : list (nat * string)) st' : Prop := {
  sm_order : es.*1 = seq i (length es);
  sm_all : ok = true → length es = length gaps;
  sm_stopped : ok = false → (length es < length gaps)%nat ∧ cancelled (i + length es)%nat = true;
  sm_rows c : c ∈ cs → (i ≤ c.1)%nat;
  sm_true j o : (j, o) ∈ es → ∃ ig, gaps !! (j - i)%nat = Some ig ∧ (i ≤ j)%nat ∧
    outcome_true subjects plugins blocked j ig o cs st';
}.

Lemma process_gaps_spec cancelled subjects plugins blocked st0 i gaps st ok st' : Coverage.well_kept (table st0) →
  (∀ ig, ig ∈ gaps → open_gap st0 ig) →
  processGaps parse_uuid today now cancelled subjects plugins blocked (table st0) i gaps st = (ok, st') →
  ∃ new cs es, did (days_of_gaps plugins gaps) st new cs es st' ∧ (∀ a, a ∈ new → asked_of subjects plugins blocked gaps a) ∧
    (is_Some (fs_tel st) → stamped cancelled subjects plugins blocked i gaps ok cs es st').
Proof.
  intros Hk. revert i st. induction gaps as [|ig gaps IH]; intros i st Hog; cbn [processGaps].
  { intros [= <- <-]. exists [], [], []. split_and!; [apply did_refl|by intros a ?%elem_of_nil|]. intros _.
    split; [done|done|done|by intros c ?%elem_of_nil|by intros j o ?%elem_of_nil]. }
  destruct (cancelled i) eqn:Hcan.
  { intros [= <- <-]. exists [], [], []. split_and!; [apply did_refl|by intros a ?%elem_of_nil|]. intros _.
    split; [done|done| |by intros c ?%elem_of_nil|by intros j o ?%elem_of_nil]. intros _. cbn. rewrite Nat.add_0_r. split; [lia|done]. }
  destruct (process_gap_spec subjects plugins blocked st0 i ig st Hk (Hog ig ltac:(left))) as (new1 & cs1 & o1 & Hd1 & Hr1 & Ha1 & Ht1).
  intros E. destruct (IH (S i) _ (λ g H, Hog g ltac:(by right)) E) as (new2 & cs2 & es2 & Hd2 & Ha2 & Hst2).
  exists (new1 ++ new2), (cs1 ++ cs2), ([(i, o1)] ++ es2). split_and!.
  - eapply did_trans; (eapply did_weaken; [|eassumption]); unfold days_of_gaps.
    + intros j p x ?. exists ig. split; [left|done].
    + intros j p x (ig' & ? & ?). exists ig'. split; [by right|done].
  - intros a [(inst & pe & ? & ? & ? & ?)%Ha1|(ig' & inst & pe & ? & ? & ? & ? & ?)%Ha2]%elem_of_app.
    + exists ig, inst, pe. split_and!; [left|done..].
    + exists ig', inst, pe. split_and!; [by right|done..].
  - intros [g Eg]. destruct Hst2 as [O A P R T]; [rewrite (did_tel _ _ _ _ _ _ Hd1), Eg; by eexists|]. split.
    + cbn. by rewrite O.
    + intros Eo. cbn. by rewrite A.
    + intros Eo. destruct (P Eo) as [? Hc]. cbn. split; [lia|]. by rewrite <- Nat.add_succ_comm.
    + intros c [->%Hr1|?%R]%elem_of_app; lia.
    + intros j o [[= -> ->]%list_elem_of_singleton|Hin]%elem_of_app.
      * exists ig. rewrite Nat.sub_diag. split_and!; [done|done|]. eapply outcome_later; [by apply (did_grows _ _ _ _ _ _ Hd2)| |by eapply Ht1].
        intros c ?%R. lia.
      * destruct (T j o Hin) as (ig' & Hl & Hle & Ho). exists ig'. split_and!; [|lia|].
        -- replace (j - i)%nat with (S (j - S i)) by lia. exact Hl.
        -- revert Ho. unfold outcome_true. destruct (subjects !! Coverage.InstrumentID ig') as [inst|]; [|done].
           assert (∀ c, (j, c) ∈ cs1 ++ cs2 ↔ (j, c) ∈ cs2) as Hc.
           { intros c. rewrite elem_of_app. split; [intros [H%Hr1|?]; [cbn in H; lia|done]|by right]. }
           setoid_rewrite Hc. done.
Qed.

Lemma end_all_did allowed st n o : did allowed st [] [] ((λ i, (i, o)) <$> seq 0 n) (endAll n o st).
Proof.
  unfold endAll. generalize 0%nat. revert st. induction n as [|n IH]; intros st k; cbn [seq foldl fmap list_fmap]; [apply did_refl|].
  apply (did_trans _ _ [] [] [(k, o)] _ [] [] _ _ (did_end _ st k o)). apply IH.
Qed.

(** A run that has written nothing yet. *)
Definition new_run : priceGaps := {| pg_rows := []; pg_calls := []; pg_ends := [] |}.

Lemma cycle_spec cancelled gaps fxGaps subjects plugins st ok st' : Coverage.well_kept (table st) →
  (∀ ig, ig ∈ gaps ++ fxGaps → open_gap st ig) →
  runCycle parse_uuid today now cancelled gaps fxGaps subjects plugins st = (ok, st') →
  ∃ new cs es, (∀ a, a ∈ new → asked_of subjects plugins (fs_blocks st) (gaps ++ fxGaps) a) ∧
    (∃ rows, did (days_of_gaps plugins (gaps ++ fxGaps)) (on_tel (λ g, {| pg_rows := default (pg_rows g) rows;
        pg_calls := if rows then [] else pg_calls g; pg_ends := if rows then [] else pg_ends g |}) st) new cs es st') ∧
    (is_Some (fs_tel st) → match plugins with
      | [] => ok = true ∧ es = (λ i, (i, gap_no_eligible_plugin)) <$> seq 0 (length (gaps ++ fxGaps))
      | _ => stamped cancelled subjects plugins (fs_blocks st) 0 (gaps ++ fxGaps) ok cs es st'
      end).
Proof.
  intros Hk Hog. unfold runCycle. destruct (gaps ++ fxGaps) as [|ig igs] eqn:Eg.
  { intros [= <- <-]. exists [], [], []. split_and!; [by intros a ?%elem_of_nil| |].
    - exists None. assert (on_tel _ st = st) as ->; [|apply did_refl]. destruct st as [? ? ? [[]|]]; done.
    - intros _. destruct plugins; [done|]. split; [done|done|done|by intros c ?%elem_of_nil|by intros j o ?%elem_of_nil]. }
  destruct plugins as [|pe plugins].
  { intros [= <- <-]. eexists [], [], _. split_and!; [by intros a ?%elem_of_nil| |done].
    eexists (Some _). exact (end_all_did _ (newPriceGaps (ig :: igs) (length gaps) ∅ st) _ _). }
  intros E. pose proof (process_gaps_spec cancelled subjects (pe :: plugins) (fs_blocks st) st 0 (ig :: igs) _ ok st' Hk Hog E)
    as (new & cs & es & Hd & Ha & Hst).
  exists new, cs, es. split_and!; [done| |].
  - eexists (Some _). exact Hd.
  - intros [g Ht]. apply Hst. cbn. rewrite Ht. by eexists.
Qed.

(** C27: A cycle over gaps nobody has answered for asks a plugin only for days of a gap
    it is past every filter for, within the reach of its history, that no plugin had
    answered for; blocks exactly the pairs a plugin refused for good; and answers for no
    other day.  Nothing answered for before is lost, the spans of each pair stay apart,
    and every price stays covered if the plugins keep to the ranges they were asked. *)
Theorem cycle_asks_for_gaps cancelled gaps fxGaps subjects plugins st ok st' : Coverage.well_kept (table st) →
  (∀ ig, ig ∈ gaps ++ fxGaps → open_gap st ig) →
  runCycle parse_uuid today now cancelled gaps fxGaps subjects plugins st = (ok, st') →
  ∃ new, fs_asked st' = fs_asked st ++ new ∧
    (∀ a, a ∈ new → asked_of subjects plugins (fs_blocks st) (gaps ++ fxGaps) a ∧
      ∀ x pl, From (ak_Range a) ≤ x < Before (ak_Range a) → ¬ answered st (ak_Instrument a) pl x) ∧
    (∀ k, is_Some (fs_blocks st' !! k) ↔ is_Some (fs_blocks st !! k) ∨ ∃ a, a ∈ new ∧ refuses k a) ∧
    (∀ id pl x, answered st id pl x → answered st' id pl x) ∧
    (∀ id pl x, answered st' id pl x → answered st id pl x ∨ days_of_gaps plugins (gaps ++ fxGaps) id pl x) ∧
    Coverage.well_kept (table st') ∧
    ((∀ a, a ∈ new → in_range a) → PriceStore.store_ok (fs_store st) → PriceStore.store_ok (fs_store st')).
Proof.
  intros Hk Hog E. destruct (cycle_spec _ _ _ _ _ _ _ _ Hk Hog E) as (new & cs & es & Ha & [rows [A B K G O P _]] & _).
  exists new. split_and!; [exact A| |exact B|exact G|exact O|by apply K|exact P].
  intros a Hin. split; [by apply Ha|]. intros x pl Hx. destruct (Ha a Hin) as (ig & inst & pe & Hig & _ & _ & _ & -> & _ & _ & Hr).
  apply (og_open _ _ (Hog ig Hig)), Hr, Hx.
Qed.

(** C28: Every gap is given one outcome, in order, unless the cycle is cancelled before
    it, and the outcome is true: a gap called filled or settled is one some plugin now
    answers for on every day, filled when bars came; where no plugin was eligible none
    was; and where all failed, each eligible plugin has a row that says how. *)
Theorem gap_outcomes_true cancelled gaps fxGaps subjects plugins st ok st' : Coverage.well_kept (table st) →
  (∀ ig, ig ∈ gaps ++ fxGaps → open_gap st ig) → fs_tel st = Some new_run →
  runCycle parse_uuid today now cancelled gaps fxGaps subjects plugins st = (ok, st') →
  ∃ g, fs_tel st' = Some g ∧ let n := length (pg_ends g) in
    (pg_ends g).*1 = seq 0 n ∧ (if ok then n = length (gaps ++ fxGaps) else (n < length (gaps ++ fxGaps))%nat ∧ cancelled n = true) ∧
    ∀ j o, (j, o) ∈ pg_ends g → ∃ ig, (gaps ++ fxGaps) !! j = Some ig ∧
      match plugins with
      | [] => o = gap_no_eligible_plugin
      | _ => outcome_true subjects plugins (fs_blocks st) j ig o (pg_calls g) st'
      end.
Proof.
  intros Hk Hog Ht E. destruct (cycle_spec _ _ _ _ _ _ _ _ Hk Hog E) as (new & cs & es & _ & [rows Hd] & Hst).
  specialize (Hst ltac:(rewrite Ht; by eexists)). pose proof (did_tel _ _ _ _ _ _ Hd) as Et. cbn in Et. rewrite Ht in Et.
  assert (∃ rows', fs_tel st' = Some {| pg_rows := rows'; pg_calls := cs; pg_ends := es |}) as [rows' Eg].
  { rewrite Et. destruct rows; cbn; by eexists. }
  eexists. split; [exact Eg|]. cbn. destruct plugins as [|pe plugins].
  - destruct Hst as [-> ->]. rewrite length_fmap, length_seq. split_and!; [rewrite <- list_fmap_compose; apply list_fmap_id|done|].
    intros j o (i & [= -> ->] & Hi%elem_of_seq)%list_elem_of_fmap.
    destruct (lookup_lt_is_Some_2 (gaps ++ fxGaps) i) as [ig Hig]; [lia|]. by exists ig.
  - destruct Hst as [O A P R T]. split_and!; [done|destruct ok; auto|].
    intros j o Hin. destruct (T j o Hin) as (ig & Hl & _ & Ho). rewrite Nat.sub_0_r in Hl. by exists ig.
Qed.
End steps.

(** ** The gaps a cycle is given *)

Section gaps.
Context {D : Type} `{DecimalLaws D} {P : Type}.
Context (parse_uuid : string → option string) (today : Z) (txs : list (Coverage.tx D)).
Implicit Types st : fstate P.
Hypothesis dated : Coverage.dated_by today txs.

Lemma spans_sub t id pl x : covers (Coverage.spans_of id pl t) x → covers (Coverage.instrument_spans id t) x.
Proof.
  intros (s & Hs & [Hi _]%Coverage.of_pair_spec & Hx)%Coverage.covers_spans_of. exists (Coverage.cv_range s). split; [|done].
  apply list_elem_of_fmap. exists s. split; [done|]. by apply list_elem_of_filter.
Qed.

Lemma open_of gaps st ig : ig ∈ gaps → parse_uuid (Coverage.InstrumentID ig) = Some (Coverage.InstrumentID ig) →
  canonical (Coverage.Ranges ig) ∧ Coverage.Ranges ig ≠ [] →
  (∀ x, Coverage.ranges_for gaps (Coverage.InstrumentID ig) x → ¬ covers (Coverage.instrument_spans (Coverage.InstrumentID ig) (table st)) x) →
  open_gap parse_uuid st ig.
Proof. intros Hig Hid Hr Hn. split; [done|done|]. intros x pl Hx Ha%spans_sub. revert Ha. apply Hn. by exists ig. Qed.

(** Those of the holdings. *)
Lemma price_gaps_open st ig : Coverage.well_kept (table st) → ig ∈ Coverage.PriceGaps today true txs (table st) →
  parse_uuid (Coverage.InstrumentID ig) = Some (Coverage.InstrumentID ig) → open_gap parse_uuid st ig.
Proof.
  intros [Hne _] Hig Hid. eapply open_of; [exact Hig|done| |].
  - by apply (Coverage.price_gaps_spec today txs (table st) EmptyString 0 dated Hne).
  - intros x Hx. by apply (Coverage.price_gaps_spec today txs (table st) (Coverage.InstrumentID ig) x dated Hne) in Hx as [_ ?].
Qed.

(** Those of the rates the holdings are valued with. *)
Lemma fx_gaps_open instruments identifiers users st ig : Coverage.fx_keys instruments identifiers →
  Coverage.well_kept (table st) → ig ∈ Coverage.FXGaps today true txs instruments identifiers users (table st) →
  parse_uuid (Coverage.InstrumentID ig) = Some (Coverage.InstrumentID ig) → open_gap parse_uuid st ig.
Proof.
  intros Hkeys [Hne _] Hig Hid. unfold Coverage.FXGaps in Hig.
  set (needed := Coverage.needed_list (Coverage.fx_needed instruments identifiers users (Coverage.HeldRanges today true txs))).
  assert (ig ∈ Coverage.gaps_of needed (Coverage.coverageByInst (Coverage.PriceCoverage (table st) (Coverage.InstrumentID <$> needed)))) as Hin.
  { unfold needed, Coverage.needed_list. destruct (Coverage.HeldRanges today true txs); [by apply elem_of_nil in Hig|].
    destruct (map_to_list _); [by apply elem_of_nil in Hig|exact Hig]. }
  assert (∀ e, e ∈ needed → canonical (Coverage.Ranges e)) as Hc.
  { apply Coverage.needed_list_canonical. intros i r (h & Hh & Hr & _)%Coverage.fx_needed_spec; [|done].
    apply Coverage.held_ranges_canonical in Hh as [Hcan _]; [|done]. by eapply canonical_nonempty. }
  eapply open_of; [exact Hin|done| |].
  - by apply (Coverage.coverage_gaps_spec (table st) Hne needed EmptyString 0 Hc).
  - intros x Hx. by apply (Coverage.coverage_gaps_spec (table st) Hne needed (Coverage.InstrumentID ig) x Hc) in Hx as [_ ?].
Qed.
End gaps.

(** ** Cycles *)

Section witnesses.
#[local] Existing Instances QDecimal.q_decimal QDecimal.q_decimal_laws.

Definition share : subject := {|
  sj_AssetClass := Some "STOCK"; sj_ExchangeMIC := None; sj_Currency := Some "usd";
  sj_Identifiers := [ {| Instruments.ii_Ref := {| Instruments.ref_Type := "ISIN"; Instruments.ref_Value := "US0001"; Instruments.ref_Domain := EmptyString |};
                         Instruments.ii_Canonical := true; Instruments.ii_ValidFrom := None; Instruments.ii_ValidBefore := None |} ];
  sj_ProviderIdentifiers := [] |}.

Definition by_isin (name : string) (reach : option Z) (f : Z → Z → answer Q) : plugin Q := {|
  pl_ID := name; pl_Precedence := 1; pl_MaxHistoryDays := reach; pl_SupportedIdentifierTypes := ["ISIN"];
  pl_AcceptableAssetClasses := {["STOCK"]}; pl_AcceptableExchanges := {["XNAS"]}; pl_AcceptableCurrencies := {["USD"]};
  pl_FetchPrices := λ _ _ _, f |}.

Definition quote (day : Z) : DailyBar Q := {| b_Date := day; b_Open := None; b_High := None; b_Low := None; b_Close := 10%Q;
  b_Volume := None; b_AdjustedClose := None |}.

(** One bar, on the first day asked for; nothing; a refusal; a failure. *)
Definition quotes (from before : Z) : answer Q := Bars [quote from] AsTraded.
Definition knows_nothing (from before : Z) : answer Q := NoData.
Definition forbidden (from before : Z) : answer Q := Permanent "403".
Definition unwell (from before : Z) : answer Q := OtherError.

Definition at_rest : fstate Q := {|
  fs_store := PriceStore.empty_store; fs_blocks := ∅; fs_asked := []; fs_tel := Some new_run |}.

(** A cycle over what the sample's holdings leave open. *)
Definition cycle (plugins : list (plugin Q)) (st : fstate Q) : bool * fstate Q :=
  runCycle Some 9 100 (λ _, false) (Coverage.PriceGaps 9 true Coverage.sample_txs (table st)) [] (<["i" := share]> ∅) plugins st.

Lemma at_rest_kept : Coverage.well_kept (table at_rest).
Proof. split; [by intros s ?%elem_of_nil|constructor]. Qed.

Lemma at_rest_open ig : ig ∈ Coverage.PriceGaps 9 true Coverage.sample_txs (table at_rest) ++ [] → open_gap Some at_rest ig.
Proof.
  rewrite app_nil_r. intros Hig. eapply price_gaps_open; [apply Coverage.sample_dated|apply at_rest_kept|exact Hig|done].
Qed.

(** A plugin that refuses for good and one that reaches five days back: the first is
    blocked, the second is asked for the days it reaches, and nothing else. *)
Lemma cycle_asks_for_gaps_witness :
  let st' := (cycle [by_isin "no" None forbidden; by_isin "yes" (Some 2) quotes] at_rest).2 in
  (λ a, (ak_Plugin a, ak_Range a)) <$> fs_asked st' =
    [("no", {| From := 1; Before := 3 |}); ("yes", {| From := 7; Before := 10 |})] ∧
  is_Some (fs_blocks st' !! ("i", "no")) ∧ Coverage.well_kept (table st') ∧ PriceStore.store_ok (fs_store st').
Proof.
  intros st'.
  destruct (cycle_asks_for_gaps Some 9 100 _ _ _ _ _ at_rest _ st' at_rest_kept at_rest_open (surjective_pairing _))
    as (new & Ea & _ & Hb & _ & _ & Hk & Hp).
  assert (fs_asked st' = new) as Hnew by exact Ea. split; [by vm_compute|]. split; [|split; [exact Hk|]].
  - apply Hb. right. subst new. eexists. split; [left|]. by vm_compute; split; [|eexists].
  - apply Hp; [|split; [apply at_rest_kept|]; intros i d v Hv; cbn in Hv; by rewrite lookup_empty in Hv].
    assert (∃ a b, fs_asked st' = [a; b] ∧ in_range a ∧ in_range b) as (a & b & E & ? & ?).
    { eexists _, _. split; [by vm_compute|]. split; [done|]. intros b ->%list_elem_of_singleton. cbn. lia. }
    rewrite <- Hnew, E. intros x. rewrite !elem_of_cons, elem_of_nil. by intros [->|[->|[]]].
Defined.

(** The first plugin fails and the second answers. *)
Lemma gap_outcomes_true_witness :
  let st' := (cycle [by_isin "ill" None unwell; by_isin "yes" None quotes] at_rest).2 in
  match fs_tel st' with
  | Some g => pg_ends g = [(0%nat, gap_filled)] ∧
      (λ c, (cl_PluginID c.2, cl_Outcome c.2)) <$> pg_calls g =
        [("ill", call_error); ("yes", call_bars_returned); ("yes", call_bars_returned)] ∧
      ∃ pl, answered st' "i" pl 1 ∧ answered st' "i" pl 8
  | None => False
  end.
Proof.
  intros st'.
  destruct (gap_outcomes_true Some 9 100 _ _ _ _ _ at_rest _ st' at_rest_kept at_rest_open eq_refl (surjective_pairing _))
    as (g & Eg & _ & _ & Ho).
  assert (pg_ends <$> fs_tel st' = Some [(0%nat, gap_filled)]) as Ee by by vm_compute.
  assert ((λ g, (λ c, (cl_PluginID c.2, cl_Outcome c.2)) <$> pg_calls g) <$> fs_tel st' =
    Some [("ill", call_error); ("yes", call_bars_returned); ("yes", call_bars_returned)]) as Ec by by vm_compute.
  rewrite Eg in Ee, Ec |- *. injection Ee as Ee. injection Ec as Ec. split_and!; [done|done|].
  destruct (Ho 0%nat gap_filled) as (ig & Hig & Htrue); [rewrite Ee; left|].
  assert (ig = {| Coverage.InstrumentID := "i"; Coverage.Ranges := [ {| From := 1; Before := 3 |}; {| From := 6; Before := 10 |} ] |}) as ->.
  { vm_compute in Hig. by injection Hig as <-. }
  destruct Htrue as [(_ & (pe & _ & _ & Hx) & _)|[(? & _)|[(? & _)|(? & _)]]]; [|done..].
  exists (pl_ID pe). split; apply Hx.
  - exists {| From := 1; Before := 3 |}. split; [left|cbn; lia].
  - exists {| From := 6; Before := 10 |}. split; [right; left|cbn; lia].
Defined.

(** A plugin that knows nothing of a range settles it for every plugin: the next one is
    not asked, in this cycle or any later one, for no gap is left. *)
Lemma no_data_is_final :
  let st' := (cycle [by_isin "none" None knows_nothing; by_isin "yes" None quotes] at_rest).2 in
  ak_Plugin <$> fs_asked st' = ["none"; "none"] ∧
  Coverage.PriceGaps 9 true Coverage.sample_txs (table st') = [] ∧
  PriceCoverageByPlugin (table st') "i" "yes" = [].
Proof. by vm_compute. Qed.

(** So does one that does not reach back to it, which was not asked at all. *)
Lemma out_of_reach_is_final :
  let st' := (cycle [by_isin "short" (Some 2) quotes; by_isin "long" None quotes] at_rest).2 in
  (λ a, (ak_Plugin a, ak_Range a)) <$> fs_asked st' = [("short", {| From := 7; Before := 10 |})] ∧
  Coverage.PriceGaps 9 true Coverage.sample_txs (table st') = [].
Proof. by vm_compute. Qed.
End witnesses.
End PriceFetch.
