(* ===== verification/EventFetch.v ===== *)
(** * Fetching corporate events

    server/corporateevents/worker.go over db/postgres/corporate_events.go: one cycle of
    the worker.  The days an event-bearing instrument is not covered for are put to the
    enabled plugins, each interval to the first that answers; its splits and dividends
    are stored and the interval covered; the split adjustments are recomputed; and the
    options of every underlying are restated at the end.

    A plugin is a function of how many calls were made before it and of the request.
    [cancelled] says before which instrument the cycle finds itself cancelled, and
    [over] whether it is at the end.  An amount is read by the cast to numeric. *)

From Stdlib Require Import QArith.
From S2P Require Import Prelude GoStrings Decimal DateRange Posting Ledger Coverage Instruments Derivative Identity Splits PluginUtil PriceFetch.

Local Open Scope Z_scope.

Module EventFetch.
Import GoStrings DateRange Ledger Instruments Splits PluginUtil.

Definition DefaultLookaheadDays : Z := 30.

(** A plugin's split and dividend, with dates left out where the provider gives none. *)
Record Split := { sp_ExDate : Z; sp_SplitFrom : string; sp_SplitTo : string }.

Record Dividend := {
  dv_ExDate : Z;
  dv_PayDate : option Z;
  dv_RecordDate : option Z;
  dv_DeclarationDate : option Z;
  dv_Amount : string;
  dv_Currency : string;
  dv_Frequency : string;
  dv_Type : string;
}.

Record Events := { ev_Splits : list Split; ev_CashDividends : list Dividend }.

(** A result, which may be nil; an error that wraps [ErrPermanent]; one that wraps
    [ErrNoData]; or another. *)
Inductive answer :=
  | Answered (events : option Events)
  | Permanent (reason : string)
  | NoData
  | Failed.

Record plugin := {
  pl_ID : string;
  pl_SupportedIdentifierTypes : list string;
  pl_AcceptableAssetClasses : gset string;
  pl_AcceptableExchanges : gset string;
  pl_AcceptableCurrencies : gset string;
  pl_FetchEvents : nat → list Identity.Identifier → string → Z → Z → answer;
}.

(** A request, its answer, and whether its interval was claimed by it. *)
Record ask := { ak_Instrument : string; ak_Plugin : string; ak_Range : DateRange; ak_Answer : answer; ak_Filled : bool }.

(** [db.CashDividend], with its amount as text. *)
Record CashDividend := {
  di_InstrumentID : string;
  di_ExDate : Z;
  di_PayDate : option Z;
  di_RecordDate : option Z;
  di_DeclarationDate : option Z;
  di_Amount : string;
  di_Currency : string;
  di_Frequency : string;
  di_Type : string;
  di_DataProvider : string;
  di_FirstKnownAt : option Z;
}.

(** A row of cash_dividends, but for its key. *)
Record dividend {D : Type} := {
  cd_PayDate : option Z;
  cd_RecordDate : option Z;
  cd_DeclarationDate : option Z;
  cd_Amount : D;
  cd_Currency : string;
  cd_Frequency : option string;
  cd_Type : string;
  cd_DataProvider : string;
  cd_FirstKnownAt : Z;
}.
#[global] Arguments dividend : clear implicits.

Record estate {D : Type} := {
  es_market : market D;
  es_dividends : gmap (string * Z) (dividend D);
  es_coverage : list Coverage.row;
  es_blocks : gmap (string * string) PriceFetch.block;
  es_asked : list ask;
}.
#[global] Arguments estate : clear implicits.

Section fetch.
Context {D : Type} `{Decimal D}.
Context (uuid_ok : string → bool) (operating_mic : string → option string).
Context (parse_dec : string → option D) (pg_div : D → D → D) (first_row : list identifier → option identifier).
Context (parse_uuid : string → option string) (today now : Z).
Implicit Types (st : estate D) (m : market D) (pe : plugin).

Definition with_market m st : estate D := {|
  es_market := m; es_dividends := es_dividends st; es_coverage := es_coverage st; es_blocks := es_blocks st; es_asked := es_asked st |}.

Definition with_dividends (d : gmap (string * Z) (dividend D)) st : estate D := {|
  es_market := es_market st; es_dividends := d; es_coverage := es_coverage st; es_blocks := es_blocks st; es_asked := es_asked st |}.

Definition with_ask (a : ask) st : estate D := {|
  es_market := es_market st; es_dividends := es_dividends st; es_coverage := es_coverage st; es_blocks := es_blocks st;
  es_asked := es_asked st ++ [a] |}.

(** ** The store *)

(** [HeldEventBearingInstruments]: a share or fund that is held, and what a held option
    or future is written on, with the day of the first posting. *)
Definition bears_events m (t : row D) : option (string * Z) :=
  i ← r_instrument t; o ← instruments (shop m) !! i;
  if negb (String.eqb (r_account_type t) "USER") then None
  else if bool_decide (asset_class o ∈ [Some "STOCK"; Some "ETF"]) then Some (i, Posting.day_of (r_order_date t))
  else if bool_decide (asset_class o ∈ [Some "OPTION"; Some "FUTURE"]) then (λ u, (u, Posting.day_of (r_order_date t))) <$> underlying_id o
  else None.

Definition earliest_day (rows : list (string * Z)) : option Z :=
  foldr (λ x acc, Some (match acc with Some d => Z.min x.2 d | None => x.2 end)) None rows.

Definition HeldEventBearingInstruments m : list (string * Z) :=
  let rows := omap (bears_events m) (txs (book (shop m))) in
  omap (λ id, d ← earliest_day (filter (λ x, x.1 = id) rows); Some (id, d)) (sort_strings (remove_dups rows.*1)).

Definition div_key (d : CashDividend) : string * Z := (di_InstrumentID d, di_ExDate d).

(** The row a dividend is stored as; its amount may not be negative. *)
Definition dividend_row (d : CashDividend) : option (dividend D) :=
  amount ← parse_dec (di_Amount d);
  if dec_ltb amount dec_zero then None else
  Some {|
    cd_PayDate := di_PayDate d; cd_RecordDate := di_RecordDate d; cd_DeclarationDate := di_DeclarationDate d;
    cd_Amount := amount; cd_Currency := di_Currency d;
    cd_Frequency := if String.eqb (di_Frequency d) EmptyString then None else Some (di_Frequency d);
    cd_Type := if String.eqb (di_Type d) EmptyString then "CD" else di_Type d; cd_DataProvider := di_DataProvider d;
    cd_FirstKnownAt := default now (di_FirstKnownAt d) |}.

(** The first day something was known only moves back. *)
Definition over_dividend (old : option (dividend D)) (r : dividend D) : dividend D :=
  match old with
  | None => r
  | Some o => {| cd_PayDate := cd_PayDate r; cd_RecordDate := cd_RecordDate r; cd_DeclarationDate := cd_DeclarationDate r;
      cd_Amount := cd_Amount r; cd_Currency := cd_Currency r; cd_Frequency := cd_Frequency r; cd_Type := cd_Type r;
      cd_DataProvider := cd_DataProvider r; cd_FirstKnownAt := Z.min (cd_FirstKnownAt o) (cd_FirstKnownAt r) |}
  end.

Definition put_dividend (t : gmap (string * Z) (dividend D)) (x : (string * Z) * dividend D) : gmap (string * Z) (dividend D) :=
  <[x.1 := over_dividend (t !! x.1) x.2]> t.

(** One statement, which may not touch a row twice. *)
Definition UpsertCashDividends (l : list CashDividend) st : option (estate D) :=
  match l with [] => Some st | _ =>
  rows ← mapM dividend_row l;
  if negb (forallb (λ d, uuid_ok (di_InstrumentID d) && bool_decide (is_Some (instruments (shop (es_market st)) !! di_InstrumentID d))) l)
     || negb (bool_decide (NoDup (div_key <$> l))) then None else
  Some (with_dividends (foldl put_dividend (es_dividends st) (zip (div_key <$> l) rows)) st)
  end.

Definition DeleteCashDividend (id : string) (ex : Z) st : estate D := with_dividends (delete (id, ex) (es_dividends st)) st.

Definition UpsertCorporateEventCoverage (id pl : string) (r : DateRange) st : option (estate D) :=
  match Coverage.upsertCoverageSpan parse_uuid now (es_coverage st) id pl (From r) (Before r) None with
  | inl _ => None
  | inr t => Some {| es_market := es_market st; es_dividends := es_dividends st; es_coverage := t;
                     es_blocks := es_blocks st; es_asked := es_asked st |}
  end.

Definition CreateCorporateEventFetchBlock (id pl reason : string) st : estate D :=
  let first := match es_blocks st !! (id, pl) with Some b => PriceFetch.bl_FirstBlockedAt b | None => now end in
  {| es_market := es_market st; es_dividends := es_dividends st; es_coverage := es_coverage st;
     es_blocks := <[(id, pl) := {| PriceFetch.bl_Reason := reason; PriceFetch.bl_FirstBlockedAt := first |}]> (es_blocks st);
     es_asked := es_asked st |}.

Definition DeleteCorporateEventFetchBlock (id pl : string) st : estate D := {|
  es_market := es_market st; es_dividends := es_dividends st; es_coverage := es_coverage st;
  es_blocks := delete (id, pl) (es_blocks st); es_asked := es_asked st |}.

(** The resolution of an event, by what identifies it: [None] where there is no such row. *)
Definition ResolveUnhandledCorporateEvent (n : nat) m : option (market D) :=
  e ← unhandled m !! n;
  Some (with_unhandled (<[n := {| ev_InstrumentID := ev_InstrumentID e; ev_EventType := ev_EventType e; ev_ExDate := ev_ExDate e;
                                  ev_Resolved := true |}]> (unhandled m)) m).

(** ** Storing an answer *)

Definition to_split (id provider : string) (s : Split) : option (StockSplit D) :=
  from ← parse_dec (sp_SplitFrom s); to ← parse_dec (sp_SplitTo s);
  Some {| ss_InstrumentID := id; ss_ExDate := sp_ExDate s; ss_SplitFrom := from; ss_SplitTo := to;
          ss_DataProvider := provider; ss_FirstKnownAt := None |}.

Definition dividendsToDB (id provider : string) (l : list Dividend) : list CashDividend :=
  (λ d, {| di_InstrumentID := id; di_ExDate := dv_ExDate d; di_PayDate := dv_PayDate d; di_RecordDate := dv_RecordDate d;
           di_DeclarationDate := dv_DeclarationDate d; di_Amount := dv_Amount d; di_Currency := dv_Currency d;
           di_Frequency := dv_Frequency d; di_Type := if String.eqb (dv_Type d) EmptyString then "CD" else dv_Type d;
           di_DataProvider := provider; di_FirstKnownAt := None |}) <$> l.

(** A failure is logged and passed over. *)
Definition insertSpecialDividend (id : string) (d : Dividend) st : estate D :=
  match InsertUnhandledCorporateEvent uuid_ok id "SPECIAL_CASH_DIVIDEND" (Some (dv_ExDate d)) (es_market st) with
  | Some m => with_market m st
  | None => st
  end.

Definition store_splits (id provider : string) (l : list Split) st : option (estate D) :=
  splits ← mapM (to_split id provider) l; m ← UpsertStockSplits uuid_ok now splits (es_market st); Some (with_market m st).

(** Whether all of it was stored; what was stored before a failure stays. *)
Definition store_dividends (id provider : string) (l : list Dividend) st : bool * estate D :=
  let special := filter (λ d, dv_Type d = "SC") l in
  let regular := filter (λ d, dv_Type d ≠ "SC") l in
  let st := foldl (λ st d, insertSpecialDividend id d st) st special in
  match regular with
  | [] => (true, st)
  | _ => match UpsertCashDividends (dividendsToDB id provider regular) st with Some st => (true, st) | None => (false, st) end
  end.

(** Whether the interval is claimed, and whether splits landed. *)
Definition store_answer (id provider : string) (r : DateRange) (e : option Events) st : bool * bool * estate D :=
  let e := default {| ev_Splits := []; ev_CashDividends := [] |} e in
  let splits := match ev_Splits e with [] => Some (false, st) | l => pair true <$> store_splits id provider l st end in
  match splits with
  | None => (false, false, st)
  | Some (landed, st) =>
      match store_dividends id provider (ev_CashDividends e) st with
      | (false, st) => (false, landed, st)
      | (true, st) =>
          match UpsertCorporateEventCoverage id provider r st with
          | None => (false, landed, st)
          | Some st => (true, landed, st)
          end
      end
  end.

(** ** One instrument *)

Definition eligible (blocked : gmap (string * string) PriceFetch.block) (id : string) (inst : subject) pe : bool :=
  bool_decide (blocked !! (id, pl_ID pe) = None)
  && PluginAccepts (pl_AcceptableAssetClasses pe) (pl_AcceptableExchanges pe) (pl_AcceptableCurrencies pe) inst
  && negb (bool_decide (plugin_identifiers (pl_ID pe) (pl_SupportedIdentifierTypes pe) inst = [])).

Fixpoint offer (blocked : gmap (string * string) PriceFetch.block) (id : string) (inst : subject) (gap : DateRange)
    (plugins : list plugin) (landed : bool) st : bool * estate D :=
  match plugins with
  | [] => (landed, st)
  | pe :: rest =>
      if negb (eligible blocked id inst pe) then offer blocked id inst gap rest landed st else
      let ids := ToIdentifiers (plugin_identifiers (pl_ID pe) (pl_SupportedIdentifierTypes pe) inst) in
      let a := pl_FetchEvents pe (length (es_asked st)) ids (default EmptyString (sj_AssetClass inst)) (From gap) (Before gap) in
      let asked filled := {| ak_Instrument := id; ak_Plugin := pl_ID pe; ak_Range := gap; ak_Answer := a; ak_Filled := filled |} in
      match a with
      | Permanent reason =>
          offer blocked id inst gap rest landed (with_ask (asked false) (CreateCorporateEventFetchBlock id (pl_ID pe) reason st))
      | NoData | Failed => offer blocked id inst gap rest landed (with_ask (asked false) st)
      | Answered e =>
          match store_answer id (pl_ID pe) gap e st with
          | (true, l, st) => (landed || l, with_ask (asked true) st)
          | (false, l, st) => offer blocked id inst gap rest (landed || l) (with_ask (asked false) st)
          end
      end
  end.

Definition offer_all (blocked : gmap (string * string) PriceFetch.block) (id : string) (inst : subject) (plugins : list plugin)
    (gaps : list DateRange) st : bool * estate D :=
  foldl (λ acc gap, offer blocked id inst gap plugins acc.1 acc.2) (false, st) gaps.

Definition processInstrument (blocked : gmap (string * string) PriceFetch.block) (coverage : list Coverage.row) (plugins : list plugin)
    (id : string) (inst : subject) (earliest endBefore : Z) st : estate D :=
  let missing := Coverage.computeMissingIntervals earliest endBefore (filter (λ r, Coverage.cv_instrument r = id) coverage) in
  match offer_all blocked id inst plugins missing st with
  | (true, st) => with_market (default (es_market st) (RecomputeSplitAdjustments uuid_ok pg_div today id (es_market st))) st
  | (false, st) => st
  end.

(** ** The cycle *)

Definition endBefore : Z := today + (DefaultLookaheadDays + 1).

Fixpoint processHeld (cancelled : nat → bool) (subjects : gmap string subject) (blocked : gmap (string * string) PriceFetch.block)
    (coverage : list Coverage.row) (plugins : list plugin) (i : nat) (held : list (string * Z)) st : estate D :=
  match held with
  | [] => st
  | (id, earliest) :: rest =>
      if cancelled i then st else
      processHeld cancelled subjects blocked coverage plugins (S i) rest
        (match subjects !! id with
         | None => st
         | Some inst => processInstrument blocked coverage plugins id inst earliest endBefore st
         end)
  end.

Definition fetchHeld (cancelled : nat → bool) (subjects : gmap string subject) (plugins : list plugin) st : estate D :=
  match plugins with
  | [] => st
  | _ => processHeld cancelled subjects (es_blocks st) (es_coverage st) plugins 0 (HeldEventBearingInstruments (es_market st)) st
  end.

(** What an instrument of the table takes with it when it is deleted. *)
Definition cascade m st : estate D :=
  let stays id := is_Some (instruments (shop (es_market st)) !! id) → is_Some (instruments (shop m) !! id) in
  {| es_market := m;
     es_dividends := filter (λ x, stays x.1.1) (es_dividends st);
     es_coverage := filter (λ r, stays (Coverage.cv_instrument r)) (es_coverage st);
     es_blocks := filter (λ x, stays x.1.1) (es_blocks st);
     es_asked := es_asked st |}.

(** The options are restated whether or not there was anything to fetch. *)
Definition runCycle (cancelled : nat → bool) (over : bool) (subjects : gmap string subject) (plugins : list plugin) st : estate D :=
  let st := fetchHeld cancelled subjects plugins st in
  if over then st else
  cascade (ProcessPendingOptionSplits uuid_ok operating_mic parse_dec pg_div first_row today EmptyString (es_market st)).2 st.
End fetch.

(** ** What storing leaves in place *)

Section steps.
Context {D : Type} `{Decimal D}.
Context (uuid_ok : string → bool) (parse_dec : string → option D) (pg_div : D → D → D).
Context (parse_uuid : string → option string) (today now : Z).
Implicit Types (st : estate D) (m : market D) (pe : plugin) (a : ask).

(** Nothing is taken out of the tables of events, and the instruments are as they were. *)
Record richer st st' : Prop := {
  ri_splits k : k ∈ split_key <$> stock_splits (es_market st) → k ∈ split_key <$> stock_splits (es_market st');
  ri_dividends k : is_Some (es_dividends st !! k) → is_Some (es_dividends st' !! k);
  ri_unhandled e : e ∈ unhandled (es_market st) → e ∈ unhandled (es_market st');
  ri_shop : shop (es_market st') = shop (es_market st);
}.

#[export] Instance richer_preorder : PreOrder richer.
Proof. split; [by split|]. intros x y z [S1 D1 U1 E1] [S2 D2 U2 E2]. split; [auto..|by rewrite E2]. Qed.

Definition special_event (id : string) (d : Dividend) : UnhandledCorporateEvent := {|
  ev_InstrumentID := id; ev_EventType := "SPECIAL_CASH_DIVIDEND"; ev_ExDate := Some (dv_ExDate d); ev_Resolved := false |}.

(** Every event of an answer is in the table it belongs to. *)
Record stored (id : string) (e : option Events) st : Prop := {
  st_splits ev s : e = Some ev → s ∈ ev_Splits ev → (id, sp_ExDate s) ∈ split_key <$> stock_splits (es_market st);
  st_regular ev d : e = Some ev → d ∈ ev_CashDividends ev → dv_Type d ≠ "SC" → is_Some (es_dividends st !! (id, dv_ExDate d));
  st_special ev d : e = Some ev → d ∈ ev_CashDividends ev → dv_Type d = "SC" → uuid_ok id = true →
    is_Some (instruments (shop (es_market st)) !! id) → special_event id d ∈ unhandled (es_market st);
}.

(** The store has the instrument. *)
Definition known (s : store D) (id : string) : Prop := uuid_ok id = true ∧ is_Some (instruments s !! id).

(** Splits it can keep: of an instrument it has, each of two positive numbers, and no
    two on one day. *)
Definition splits_storable (s : store D) (id : string) (l : list Split) : Prop :=
  (l ≠ [] → known s id) ∧
  (∀ x, x ∈ l → ∃ from to, parse_dec (sp_SplitFrom x) = Some from ∧ parse_dec (sp_SplitTo x) = Some to ∧ is_pos from = true ∧ is_pos to = true) ∧
  NoDup (sp_ExDate <$> l).

(** And dividends: each a number and not negative, and no two on one day. *)
Definition dividends_storable (s : store D) (id : string) (l : list Dividend) : Prop :=
  (l ≠ [] → known s id) ∧
  (∀ x, x ∈ l → ∃ amount, parse_dec (dv_Amount x) = Some amount ∧ is_neg amount = false) ∧
  NoDup (dv_ExDate <$> l).

(** An answer whose every event can be kept.  One without events can, and a special
    dividend asks for nothing: that it could not be recorded is passed over. *)
Definition storable (s : store D) (id : string) (e : option Events) : Prop :=
  ∀ ev, e = Some ev →
    splits_storable s id (ev_Splits ev) ∧ dividends_storable s id (filter (λ d, dv_Type d ≠ "SC") (ev_CashDividends ev)).

Lemma stored_richer id e st st' : richer st st' → stored id e st → stored id e st'.
Proof. intros [S1 D1 U1 E1] [A B C]. split; [eauto..|]. intros ev d ???. rewrite E1. eauto. Qed.

(** A write that leaves the coverage, the blocks and the record of requests alone. *)
Record wrote st st' : Prop := {
  wr_richer : richer st st';
  wr_coverage : es_coverage st' = es_coverage st;
  wr_blocks : es_blocks st' = es_blocks st;
  wr_asked : es_asked st' = es_asked st;
}.

#[export] Instance wrote_preorder : PreOrder wrote.
Proof. split; [by split|]. intros x y z [R1 C1 B1 A1] [R2 C2 B2 A2]. split; [by etrans|by etrans..]. Qed.

Lemma upsert_split_keys (s : StockSplit D) l k : k ∈ split_key <$> upsert_split s l ↔ k = split_key s ∨ k ∈ split_key <$> l.
Proof.
  induction l as [|r l IH]; cbn; [set_solver|]. destruct (decide (split_key r = split_key s)) as [E|E]; cbn.
  - rewrite !elem_of_cons, E. unfold split_key at 1 3 4. cbn. tauto.
  - rewrite !elem_of_cons, IH. tauto.
Qed.

Lemma upsert_splits_keys l m m' : UpsertStockSplits uuid_ok now l m = Some m' →
  shop m' = shop m ∧ unhandled m' = unhandled m ∧
  ∀ k, k ∈ split_key <$> stock_splits m' ↔ k ∈ split_key <$> l ∨ k ∈ split_key <$> stock_splits m.
Proof.
  unfold UpsertStockSplits. destruct l as [|s0 l0]; [intros [= <-]; split_and!; [done..|]; set_solver|].
  destruct (_ || _); [done|]. generalize (s0 :: l0). intros l [= <-]. split_and!; [done..|]. cbn. generalize (stock_splits m).
  induction l as [|s l IH]; intros t k; cbn [foldl fmap list_fmap]; [set_solver|].
  rewrite IH, upsert_split_keys, elem_of_cons. unfold stamped, split_key at 2. cbn. tauto.
Qed.

Lemma upsert_splits_iff l m : is_Some (UpsertStockSplits uuid_ok now l m) ↔
  (∀ s, s ∈ l → known (shop m) (ss_InstrumentID s) ∧ is_pos (ss_SplitFrom s) = true ∧ is_pos (ss_SplitTo s) = true) ∧
  NoDup (split_key <$> l).
Proof.
  assert (is_Some (UpsertStockSplits uuid_ok now l m) ↔
    forallb (λ s, uuid_ok (ss_InstrumentID s) && bool_decide (is_Some (instruments (shop m) !! ss_InstrumentID s))
      && is_pos (ss_SplitFrom s) && is_pos (ss_SplitTo s)) l = true ∧ NoDup (split_key <$> l)) as ->.
  { unfold UpsertStockSplits. destruct l as [|s0 l0]; [split; [split; [done|constructor]|by eexists]|]. generalize (s0 :: l0). intros l.
    destruct (forallb _ l); cbn [negb orb]; [|split; [by intros [? [=]]|by intros [[=] _]]].
    case_bool_decide; cbn [negb]; [split; [done|by eexists]|]. split; [by intros [? [=]]|by intros [_ ?]]. }
  rewrite forallb_forall. setoid_rewrite <- list_elem_of_In. setoid_rewrite andb_true_iff. setoid_rewrite andb_true_iff.
  setoid_rewrite andb_true_iff. setoid_rewrite bool_decide_eq_true. unfold known. naive_solver.
Qed.

Lemma split_rows id provider l rows : mapM (to_split parse_dec id provider) l = Some rows →
  split_key <$> rows = pair id <$> (sp_ExDate <$> l) ∧
  ∀ r, r ∈ rows ↔ ∃ s, s ∈ l ∧ to_split parse_dec id provider s = Some r.
Proof.
  intros E%mapM_Some. induction E as [|s r l rows Er _ [IHk IH]]; [split; [done|]; setoid_rewrite elem_of_nil; naive_solver|].
  split.
  - cbn. rewrite IHk. unfold to_split in Er. by apply bind_Some in Er as (x & _ & (y & _ & [= <-])%bind_Some).
  - intros r'. setoid_rewrite elem_of_cons. rewrite IH. naive_solver.
Qed.

Lemma store_splits_iff id provider l st : l ≠ [] →
  is_Some (store_splits uuid_ok parse_dec now id provider l st) ↔ splits_storable (shop (es_market st)) id l.
Proof.
  intros Hne. unfold store_splits, splits_storable. split.
  - intros [st' (rows & Hrows & (m & Hm & _)%bind_Some)%bind_Some]. destruct (split_rows _ _ _ _ Hrows) as [Hk Hr].
    destruct (proj1 (upsert_splits_iff rows (es_market st))) as [Hall Hnd]; [by eexists|]. rewrite Hk, NoDup_fmap in Hnd by apply _.
    assert (∀ x, x ∈ l → ∃ r, to_split parse_dec id provider x = Some r ∧ r ∈ rows) as Hrow.
    { intros x Hx. apply mapM_Some in Hrows. apply list_elem_of_lookup in Hx as [n Hn]. eapply Forall2_lookup_l in Hrows as (r & Hn' & Er); [|exact Hn].
      exists r. split; [done|]. by eapply list_elem_of_lookup_2. }
    assert (∀ x, x ∈ l → known (shop (es_market st)) id ∧ ∃ from to, parse_dec (sp_SplitFrom x) = Some from ∧
      parse_dec (sp_SplitTo x) = Some to ∧ is_pos from = true ∧ is_pos to = true) as Hx.
    { intros x (r & Er & Hin)%Hrow. destruct (Hall r Hin) as (? & ? & ?). unfold to_split in Er.
      apply bind_Some in Er as (from & Ef & (to & Et & [= <-])%bind_Some). split; [done|]. by exists from, to. }
    split_and!; [|by intros x [_ ?]%Hx|done]. intros _. destruct l as [|x l]; [done|]. by apply (Hx x ltac:(left)).
  - intros (Hknown & Hall & Hnd). specialize (Hknown Hne).
    destruct (mapM (to_split parse_dec id provider) l) as [rows|] eqn:Erows.
    2: { exfalso. assert (is_Some (mapM (to_split parse_dec id provider) l)) as [? ?]; [|congruence].
         apply mapM_is_Some, Forall_forall. intros x (from & to & Ef & Et & _)%Hall. unfold compose, to_split. rewrite Ef, Et. by eexists. }
    cbn [mbind option_bind]. destruct (split_rows _ _ _ _ Erows) as [Hk Hr].
    destruct (proj2 (upsert_splits_iff rows (es_market st))) as [m ->]; [|by eexists]. rewrite Hk, NoDup_fmap by apply _. split; [|done].
    intros r (x & Hx & Er)%Hr. destruct (Hall x Hx) as (from & to & Ef & Et & ? & ?). unfold to_split in Er. rewrite Ef, Et in Er.
    cbn in Er. injection Er as <-. by split_and!.
Qed.

Lemma store_splits_spec id provider l st st' : store_splits uuid_ok parse_dec now id provider l st = Some st' →
  wrote st st' ∧ ∀ s, s ∈ l → (id, sp_ExDate s) ∈ split_key <$> stock_splits (es_market st').
Proof.
  unfold store_splits. intros (rows & Hrows & (m & Hm & [= <-])%bind_Some)%bind_Some.
  apply upsert_splits_keys in Hm as (Esh & Eun & Hk). split; [split; [split|done..]|]; cbn.
  - intros k Hin. apply Hk. by right.
  - done.
  - intros e. by rewrite Eun.
  - done.
  - intros s Hs. apply Hk. left. apply mapM_Some in Hrows. apply list_elem_of_lookup in Hs as [n Hn]. eapply Forall2_lookup_l in Hrows as (r & Hr & Er); [|exact Hn].
    unfold to_split in Er. apply bind_Some in Er as (x & _ & (y & _ & [= <-])%bind_Some).
    apply list_elem_of_fmap. eexists. split; [|by eapply list_elem_of_lookup_2]. done.
Qed.

Lemma put_dividends_keys (l : list ((string * Z) * dividend D)) (t : gmap (string * Z) (dividend D)) k :
  is_Some (foldl put_dividend t l !! k) ↔ k ∈ l.*1 ∨ is_Some (t !! k).
Proof.
  revert t. induction l as [|x l IH]; intros t; cbn [foldl fmap list_fmap]; [set_solver|].
  rewrite IH, elem_of_cons. unfold put_dividend. rewrite lookup_insert_is_Some'. naive_solver.
Qed.

Lemma upsert_dividends_spec l st st' : UpsertCashDividends uuid_ok parse_dec now l st = Some st' →
  wrote st st' ∧ ∀ d, d ∈ l → is_Some (es_dividends st' !! div_key d).
Proof.
  unfold UpsertCashDividends. destruct l as [|d0 l0]; [intros [= <-]; split; [done|by intros d ?%elem_of_nil]|].
  generalize (d0 :: l0). intros l (rows & Hrows & E)%bind_Some. destruct (_ || _); [done|]. injection E as <-.
  assert ((zip (div_key <$> l) rows).*1 = div_key <$> l) as Hz.
  { apply fst_zip. rewrite length_fmap. apply mapM_Some, Forall2_length in Hrows. lia. }
  split; [split; [split|done..]|]; cbn; [done| |done|done|].
  - intros k Hk. apply put_dividends_keys. by right.
  - intros d Hd. apply put_dividends_keys. left. rewrite Hz. by apply list_elem_of_fmap_2.
Qed.

Lemma upsert_dividends_iff l st : is_Some (UpsertCashDividends uuid_ok parse_dec now l st) ↔
  (∀ d, d ∈ l → known (shop (es_market st)) (di_InstrumentID d) ∧ ∃ amount, parse_dec (di_Amount d) = Some amount ∧ is_neg amount = false) ∧
  NoDup (div_key <$> l).
Proof.
  assert (∀ d, is_Some (dividend_row parse_dec now d) ↔ ∃ amount, parse_dec (di_Amount d) = Some amount ∧ is_neg amount = false) as Hrow.
  { intros d. unfold dividend_row, is_neg. destruct (parse_dec (di_Amount d)) as [x|]; cbn [mbind option_bind]; [|split; [by intros [? [=]]|naive_solver]].
    destruct (dec_ltb x dec_zero) eqn:Ex; (split; [intros [? [=]]|intros (? & [= <-] & Hx)]); [congruence|by exists x|by eexists]. }
  assert (is_Some (UpsertCashDividends uuid_ok parse_dec now l st) ↔
    Forall (λ d, is_Some (dividend_row parse_dec now d)) l ∧
    forallb (λ d, uuid_ok (di_InstrumentID d) && bool_decide (is_Some (instruments (shop (es_market st)) !! di_InstrumentID d))) l = true ∧
    NoDup (div_key <$> l)) as ->.
  { unfold UpsertCashDividends. destruct l as [|d0 l0]; [split; [intros _; split_and!; [constructor|done|constructor]|by eexists]|]. generalize (d0 :: l0). intros l.
    change (Forall _ l) with (Forall (is_Some ∘ dividend_row parse_dec now) l). rewrite <- mapM_is_Some. destruct (mapM _ l) as [rows|]; cbn [mbind option_bind]; [|split; [by intros [? [=]]|by intros [[? [=]] _]]].
    destruct (forallb _ l); cbn [negb orb]; [|split; [by intros [? [=]]|by intros (_ & [=] & _)]].
    case_bool_decide; cbn [negb]; [split; [intros _; split; [by eexists|by split]|by intros _; eexists]|]. split; [by intros [? [=]]|by intros (_ & _ & ?)]. }
  rewrite Forall_forall, forallb_forall. setoid_rewrite <- list_elem_of_In. setoid_rewrite Hrow.
  setoid_rewrite andb_true_iff. setoid_rewrite bool_decide_eq_true. unfold known. naive_solver.
Qed.

Lemma regular_storable id provider l st :
  is_Some (UpsertCashDividends uuid_ok parse_dec now (dividendsToDB id provider l) st) ↔ dividends_storable (shop (es_market st)) id l.
Proof.
  rewrite upsert_dividends_iff. unfold dividends_storable.
  assert (div_key <$> dividendsToDB id provider l = pair id <$> (dv_ExDate <$> l)) as ->.
  { unfold dividendsToDB. by rewrite <- !list_fmap_compose. }
  rewrite NoDup_fmap by apply _. unfold dividendsToDB. setoid_rewrite list_elem_of_fmap. split.
  - intros [Hall Hnd]. assert (∀ x, x ∈ l → known (shop (es_market st)) id ∧ ∃ amount, parse_dec (dv_Amount x) = Some amount ∧ is_neg amount = false) as Hx.
    { intros x Hx. eapply (Hall {| di_InstrumentID := id |}). by exists x. }
    split_and!; [|by intros x [_ ?]%Hx|done]. destruct l as [|x l]; [done|]. intros _. by apply (Hx x ltac:(left)).
  - intros (Hknown & Hall & Hnd). split; [|done]. intros d (x & -> & Hx). split; [|by apply Hall]. apply Hknown. intros ->. by apply elem_of_nil in Hx.
Qed.

Lemma insert_event_spec id d st : wrote st (insertSpecialDividend uuid_ok id d st) ∧
  (uuid_ok id = true → is_Some (instruments (shop (es_market st)) !! id) →
   special_event id d ∈ unhandled (es_market (insertSpecialDividend uuid_ok id d st))).
Proof.
  unfold insertSpecialDividend, InsertUnhandledCorporateEvent. fold (special_event id d).
  destruct (negb (uuid_ok id) || _) eqn:Eb.
  { split; [done|]. intros Hu Hi. rewrite Hu, bool_decide_true in Eb by done. done. }
  destruct (_ && _) eqn:E.
  - apply andb_true_iff in E as [_ Hin%bool_decide_eq_true]. cbn. split; [by split; [split|..]|done].
  - cbn. split; [split; [split|done..]|]; cbn; [done|done| |done|].
    + intros e He. apply elem_of_app. by left.
    + intros _ _. apply elem_of_app. right. by left.
Qed.

Lemma insert_events_spec id l st : let st' := foldl (λ st d, insertSpecialDividend uuid_ok id d st) st l in
  wrote st st' ∧ ∀ d, d ∈ l → uuid_ok id = true → is_Some (instruments (shop (es_market st)) !! id) →
    special_event id d ∈ unhandled (es_market st').
Proof.
  revert st. induction l as [|d l IH]; intros st; cbn [foldl]; [split; [done|by intros d ?%elem_of_nil]|].
  destruct (insert_event_spec id d st) as [Hw Hd]. destruct (IH (insertSpecialDividend uuid_ok id d st)) as [Hw' Hl].
  split; [by etrans|]. pose proof (ri_shop _ _ (wr_richer _ _ Hw)) as Esh. rewrite Esh in Hl.
  intros d' [->|Hin]%elem_of_cons Hu Hi; [|auto]. apply (ri_unhandled _ _ (wr_richer _ _ Hw')). auto.
Qed.

Lemma store_dividends_iff id provider l st ok st' : store_dividends uuid_ok parse_dec now id provider l st = (ok, st') →
  ok = true ↔ dividends_storable (shop (es_market st)) id (filter (λ d, dv_Type d ≠ "SC") l).
Proof.
  unfold store_dividends. destruct (insert_events_spec id (filter (λ d, dv_Type d = "SC") l) st) as [Hw _]. revert Hw. cbn zeta.
  generalize (foldl (λ st d, insertSpecialDividend uuid_ok id d st) st (filter (λ d, dv_Type d = "SC") l)). intros st1 Hw.
  rewrite <- (ri_shop _ _ (wr_richer _ _ Hw)), <- (regular_storable id provider). generalize (filter (λ d, dv_Type d ≠ "SC") l). intros regular.
  destruct regular as [|d0 l0]; [intros [= <- _]; by split; [eexists|]|]. generalize (d0 :: l0). intros regular.
  destruct (UpsertCashDividends _ _ _ _ _) as [st2|]; intros [= <- _]; [by split; [eexists|]|]. split; [done|by intros [? [=]]].
Qed.

Lemma store_dividends_spec id provider l st ok st' : store_dividends uuid_ok parse_dec now id provider l st = (ok, st') →
  wrote st st' ∧ (ok = true → stored id (Some {| ev_Splits := []; ev_CashDividends := l |}) st').
Proof.
  unfold store_dividends. destruct (insert_events_spec id (filter (λ d, dv_Type d = "SC") l) st) as [Hw Hs].
  revert Hw Hs. cbn zeta. generalize (foldl (λ st d, insertSpecialDividend uuid_ok id d st) st (filter (λ d, dv_Type d = "SC") l)).
  intros st1 Hw Hs E. assert (ok = true → wrote st1 st' ∧ ∀ d, d ∈ l → dv_Type d ≠ "SC" → is_Some (es_dividends st' !! (id, dv_ExDate d))) as Hok.
  { intros ->. destruct (filter (λ d, dv_Type d ≠ "SC") l) as [|d0 l0] eqn:El.
    - injection E as <-. split; [done|]. intros d Hd Ht. exfalso. assert (d ∈ []) as ?%elem_of_nil; [|done].
      rewrite <- El. by apply list_elem_of_filter.
    - destruct (UpsertCashDividends _ _ _ _ _) as [st2|] eqn:Eu; [|done]. injection E as <-.
      apply upsert_dividends_spec in Eu as [Hw2 Hd]. split; [done|]. intros d Hin Ht.
      assert (d ∈ d0 :: l0) as Hin' by (rewrite <- El; by apply list_elem_of_filter).
      eapply (Hd {| di_InstrumentID := id |}). unfold dividendsToDB. apply list_elem_of_fmap. by exists d. }
  assert (wrote st1 st') as Hw1.
  { destruct ok; [by apply Hok|]. destruct (filter (λ d, dv_Type d ≠ "SC") l); [done|].
    destruct (UpsertCashDividends _ _ _ _ _); [done|]. by injection E as <-. }
  split; [by etrans|]. intros Eo. destruct (Hok Eo) as [_ Hr]. split; intros ev x [= <-]; cbn; [by intros ?%elem_of_nil|auto|].
  intros Hx Ht Hu Hi. apply (ri_unhandled _ _ (wr_richer _ _ Hw1)). apply Hs; [by apply list_elem_of_filter|done|].
  by rewrite <- (ri_shop _ _ (wr_richer _ _ Hw)), <- (ri_shop _ _ (wr_richer _ _ Hw1)).
Qed.

(** ** What a step of the cycle does *)

(** A plugin has answered for a day. *)
Definition covered st (id pl : string) (x : Z) : Prop := covers (Coverage.spans_of id pl (es_coverage st)) x.

Definition asked_day (id pl : string) (x : Z) a : Prop :=
  ak_Instrument a = id ∧ ak_Plugin a = pl ∧ From (ak_Range a) ≤ x < Before (ak_Range a).

Definition refused (k : string * string) a : Prop :=
  (ak_Instrument a, ak_Plugin a) = k ∧ ∃ reason, ak_Answer a = Permanent reason.

(** From [st] to [st'] the plugins were asked [new]: what was claimed is what was
    answered and stored, and what was blocked is what was refused. *)
Record did st (new : list ask) st' : Prop := {
  did_asked : es_asked st' = es_asked st ++ new;
  did_richer : richer st st';
  did_blocks k : is_Some (es_blocks st' !! k) ↔ is_Some (es_blocks st !! k) ∨ ∃ a, a ∈ new ∧ refused k a;
  did_kept : Coverage.well_kept (es_coverage st) → Coverage.well_kept (es_coverage st');
  did_covered id pl x : covered st' id pl x ↔ covered st id pl x ∨ ∃ a, a ∈ new ∧ ak_Filled a = true ∧ asked_day id pl x a;
  did_stored a : a ∈ new → ak_Filled a = true → ∃ e, ak_Answer a = Answered e ∧ stored (ak_Instrument a) e st';
  did_claims a e : a ∈ new → ak_Answer a = Answered e → storable (shop (es_market st)) (ak_Instrument a) e → ak_Filled a = true;
  did_storable a e : a ∈ new → ak_Answer a = Answered e → ak_Filled a = true → storable (shop (es_market st)) (ak_Instrument a) e;
}.

Lemma did_wrote st st' : wrote st st' → did st [] st'.
Proof.
  intros [R C B A]. unfold covered. split; unfold covered; rewrite ?C, ?B, ?A, ?app_nil_r; [done|done| |done| |by intros a ?%elem_of_nil|by intros a e ?%elem_of_nil|by intros a e ?%elem_of_nil].
  - intros k. split; [by left|]. by intros [?|(a & ?%elem_of_nil & _)].
  - intros id pl x. split; [by left|]. by intros [?|(a & ?%elem_of_nil & _)].
Qed.

Lemma events_did_trans st new1 st1 new2 st2 : did st new1 st1 → did st1 new2 st2 → did st (new1 ++ new2) st2.
Proof.
  intros [A1 R1 B1 K1 C1 S1 F1 G1] [A2 R2 B2 K2 C2 S2 F2 G2]. pose proof (ri_shop _ _ R1) as Esh. rewrite Esh in F2, G2. split.
  - by rewrite A2, A1, app_assoc.
  - by etrans.
  - intros k. rewrite B2, B1. setoid_rewrite elem_of_app. naive_solver.
  - auto.
  - intros id pl x. rewrite C2, C1. setoid_rewrite elem_of_app. naive_solver.
  - intros a [Ha|Ha]%elem_of_app Hf; [|auto]. destruct (S1 a Ha Hf) as (e & ? & ?). exists e. split; [done|]. by eapply stored_richer.
  - intros a e [?|?]%elem_of_app; eauto.
  - intros a e [?|?]%elem_of_app; eauto.
Qed.

(** An answer that claims nothing. *)
Lemma did_unfilled a st : ak_Filled a = false → (∀ reason, ak_Answer a ≠ Permanent reason) →
  (∀ e, ak_Answer a = Answered e → ¬ storable (shop (es_market st)) (ak_Instrument a) e) → did st [a] (with_ask a st).
Proof.
  intros Hf Hp Hn. split; [done|by split| |done| | | |].
  - intros k. split; [by left|]. intros [?|(? & ->%list_elem_of_singleton & _ & r & Hr)]; [done|]. by destruct (Hp r).
  - intros id pl x. split; [by left|]. intros [?|(? & ->%list_elem_of_singleton & ? & _)]; [done|congruence].
  - intros ? ->%list_elem_of_singleton. congruence.
  - intros ? e ->%list_elem_of_singleton Ea Hs. by destruct (Hn e Ea).
  - intros ? e ->%list_elem_of_singleton. congruence.
Qed.

Lemma did_refused a reason st : ak_Filled a = false → ak_Answer a = Permanent reason →
  did st [a] (with_ask a (CreateCorporateEventFetchBlock now (ak_Instrument a) (ak_Plugin a) reason st)).
Proof.
  intros Hf Hp. split; [done|by split| |done| | | |].
  - intros k. cbn. rewrite lookup_insert_is_Some'. unfold refused. setoid_rewrite list_elem_of_singleton. naive_solver.
  - intros id pl x. split; [by left|]. intros [?|(? & ->%list_elem_of_singleton & ? & _)]; [done|congruence].
  - intros ? ->%list_elem_of_singleton. congruence.
  - intros ? e ->%list_elem_of_singleton. congruence.
  - intros ? e ->%list_elem_of_singleton. congruence.
Qed.

Lemma cover_total id pl gap st : parse_uuid id = Some id → nonempty gap →
  is_Some (UpsertCorporateEventCoverage parse_uuid now id pl gap st).
Proof.
  intros Hid Hne. unfold UpsertCorporateEventCoverage, Coverage.upsertCoverageSpan.
  rewrite (proj2 (Z.ltb_lt _ _) Hne), Hid. by eexists.
Qed.

(** An answer whose events and interval were both taken. *)
Lemma did_filled a e st1 st2 : parse_uuid (ak_Instrument a) = Some (ak_Instrument a) →
  ak_Filled a = true → ak_Answer a = Answered e → stored (ak_Instrument a) e st1 → storable (shop (es_market st1)) (ak_Instrument a) e →
  UpsertCorporateEventCoverage parse_uuid now (ak_Instrument a) (ak_Plugin a) (ak_Range a) st1 = Some st2 →
  did st1 [a] (with_ask a st2).
Proof.
  intros Hid Hf Ha Hs Hsb. unfold UpsertCorporateEventCoverage. destruct (Coverage.upsertCoverageSpan _ _ _ _ _ _ _ _) as [|t] eqn:E; [done|].
  intros [= <-]. split; [done|by split| | | | | |]; cbn.
  - intros k. split; [by left|]. intros [?|(? & ->%list_elem_of_singleton & _ & r & Hr)]; [done|congruence].
  - intros Hk. by eapply Coverage.upsert_well_kept.
  - intros id pl x. unfold covered. cbn. rewrite (Coverage.upsert_covers parse_uuid _ _ _ _ _ _ _ _ id pl x E), Hid.
    setoid_rewrite list_elem_of_singleton. unfold asked_day. naive_solver.
  - intros ? ->%list_elem_of_singleton _. exists e. split; [done|]. eapply stored_richer; [|exact Hs]. by split.
  - by intros ? e' ->%list_elem_of_singleton.
  - intros ? e' ->%list_elem_of_singleton Ea _. by rewrite Ha in Ea; injection Ea as <-.
Qed.

(** The splits of an answer, which may have none. *)
Lemma split_step id provider l st :
  let sp := match l with [] => Some (false, st) | l => pair true <$> store_splits uuid_ok parse_dec now id provider l st end in
  (∀ landed st1, sp = Some (landed, st1) → wrote st st1 ∧ ∀ s, s ∈ l → (id, sp_ExDate s) ∈ split_key <$> stock_splits (es_market st1)) ∧
  (is_Some sp ↔ splits_storable (shop (es_market st)) id l).
Proof.
  destruct l as [|s0 l0].
  { split; [intros ? ? [= <- <-]; split; [done|by intros s ?%elem_of_nil]|]. split; [|by eexists].
    intros _. split_and!; [done|by intros x ?%elem_of_nil|constructor]. }
  cbv zeta iota.
  rewrite fmap_is_Some, <- (store_splits_iff id provider) by done. split; [|done].
  intros landed st1 (st2 & E & [= -> ->])%fmap_Some. by eapply store_splits_spec.
Qed.

Lemma store_answer_spec id pl gap e st filled landed st' : parse_uuid id = Some id → nonempty gap →
  store_answer uuid_ok parse_dec parse_uuid now id pl gap e st = (filled, landed, st') →
  did st [ {| ak_Instrument := id; ak_Plugin := pl; ak_Range := gap; ak_Answer := Answered e; ak_Filled := filled |} ]
    (with_ask {| ak_Instrument := id; ak_Plugin := pl; ak_Range := gap; ak_Answer := Answered e; ak_Filled := filled |} st').
Proof.
  intros Hid Hne. set (a := {| ak_Instrument := id |}). unfold store_answer.
  set (ev := default _ e). set (sp := match ev_Splits ev with [] => _ | _ => _ end).
  assert (storable (shop (es_market st)) id e ↔ splits_storable (shop (es_market st)) id (ev_Splits ev) ∧
    dividends_storable (shop (es_market st)) id (filter (λ d, dv_Type d ≠ "SC") (ev_CashDividends ev))) as Hsb.
  { subst ev. unfold storable. destruct e as [ev|]; [naive_solver|]. split; [|done]. intros _.
    split; (split_and!; [done|by intros x ?%elem_of_nil|constructor]). }
  assert ((∀ landed st1, sp = Some (landed, st1) → wrote st st1 ∧
    ∀ s, s ∈ ev_Splits ev → (id, sp_ExDate s) ∈ split_key <$> stock_splits (es_market st1)) ∧
    (is_Some sp ↔ splits_storable (shop (es_market st)) id (ev_Splits ev))) as [Hsp Hno].
  { pose proof (split_step id pl (ev_Splits ev) st) as Hs. subst sp. by destruct (ev_Splits ev). }
  clearbody sp. destruct sp as [[l st1]|].
  2: { intros [= <- <- <-]. apply did_unfilled; [done|by intros r [=]|]. intros ? [= <-] [Hs _]%Hsb. apply Hno in Hs. by destruct Hs. }
  destruct (Hsp _ _ eq_refl) as [Hw1 Hs1]. assert (splits_storable (shop (es_market st)) id (ev_Splits ev)) as Hss by by apply Hno; eexists.
  destruct (store_dividends _ _ _ _ _ _ _) as [ok st2] eqn:Ed. destruct (store_dividends_spec _ _ _ _ _ _ Ed) as [Hw2 Hd].
  pose proof (store_dividends_iff _ _ _ _ _ _ Ed) as Hds. rewrite (ri_shop _ _ (wr_richer _ _ Hw1)) in Hds.
  assert (wrote st st2) as Hw by by etrans. pose proof (did_wrote _ _ Hw) as H02. pose proof (ri_shop _ _ (wr_richer _ _ Hw)) as Esh.
  destruct ok.
  2: { intros [= <- <- <-]. eapply (events_did_trans _ [] _ [a] _ H02). apply did_unfilled; [done|by intros r [=]|].
       rewrite Esh. intros ? [= <-] [_ Hs]%Hsb. by apply Hds in Hs. }
  destruct (cover_total id pl gap st2 Hid Hne) as [st3 Ec]. rewrite Ec. intros [= <- <- <-].
  eapply (events_did_trans _ [] _ [a] _ H02). eapply did_filled; [done|done|done| | |exact Ec].
  2: { rewrite Esh. apply Hsb. split; [done|]. by apply Hds. }
  destruct (Hd eq_refl) as [_ R P]. subst ev. split; intros v x ->; cbn in *; [|exact (R _ x eq_refl)|exact (P _ x eq_refl)].
  intros Hx. apply (ri_splits _ _ (wr_richer _ _ Hw2)). by apply Hs1.
Qed.

(** ** The walk *)

(** A request the plugin was past every filter for, and what the plugin answered it. *)
Definition asked_by (blocked : gmap (string * string) PriceFetch.block) (plugins : list plugin) (id : string) (inst : subject) a : Prop :=
  ak_Instrument a = id ∧ nonempty (ak_Range a) ∧ ∃ pe n, pe ∈ plugins ∧ ak_Plugin a = pl_ID pe ∧ eligible blocked id inst pe = true ∧
    ak_Answer a = pl_FetchEvents pe n (ToIdentifiers (plugin_identifiers (pl_ID pe) (pl_SupportedIdentifierTypes pe) inst))
                    (default EmptyString (sj_AssetClass inst)) (From (ak_Range a)) (Before (ak_Range a)).

(** Either one of the requests claims the interval, or every eligible plugin made one
    that did not. *)
Definition settled (blocked : gmap (string * string) PriceFetch.block) (plugins : list plugin) (id : string) (inst : subject)
    (gap : DateRange) (new : list ask) : Prop :=
  (∃ a, a ∈ new ∧ ak_Filled a = true ∧ ak_Instrument a = id ∧ ak_Range a = gap) ∨
  ∀ pe, pe ∈ plugins → eligible blocked id inst pe = true →
    ∃ a, a ∈ new ∧ ak_Filled a = false ∧ ak_Instrument a = id ∧ ak_Plugin a = pl_ID pe ∧ ak_Range a = gap.

Lemma settled_more blocked plugins id inst gap new new' : (∀ a, a ∈ new → a ∈ new') →
  settled blocked plugins id inst gap new → settled blocked plugins id inst gap new'.
Proof. intros Hs [(a & ? & ?)|Hn]; [left; eauto|right]. intros pe ??. edestruct Hn as (a & ? & ?); [done..|]. eauto. Qed.

Lemma offer_spec blocked id inst gap plugins landed st landed' st' : parse_uuid id = Some id → nonempty gap →
  offer uuid_ok parse_dec parse_uuid now blocked id inst gap plugins landed st = (landed', st') →
  ∃ new, did st new st' ∧ (∀ a, a ∈ new → ak_Range a = gap ∧ asked_by blocked plugins id inst a) ∧
    settled blocked plugins id inst gap new.
Proof.
  intros Hid Hne. revert landed st. induction plugins as [|pe rest IH]; intros landed st; cbn [offer].
  { intros [= <- <-]. exists []. split_and!; [by apply did_wrote|by intros a ?%elem_of_nil|right; by intros pe ?%elem_of_nil]. }
  assert (∀ a, asked_by blocked rest id inst a → asked_by blocked (pe :: rest) id inst a) as Hup.
  { intros a (? & ? & pe' & n & ? & ?). split_and!; [done..|]. exists pe', n. split; [by right|done]. }
  destruct (eligible blocked id inst pe) eqn:Ee; cbn [negb].
  2: { intros E. destruct (IH _ _ E) as (new & Hd & Ha & Hs). exists new. split_and!; [done| |].
       - intros a Hin. destruct (Ha a Hin). auto.
       - destruct Hs as [?|Hs]; [by left|right]. intros pe' [->|?]%elem_of_cons Hel; [congruence|auto]. }
  set (ans := pl_FetchEvents _ _ _ _ _ _). set (a0 := λ b, {| ak_Instrument := id; ak_Plugin := pl_ID pe; ak_Range := gap; ak_Answer := ans; ak_Filled := b |}).
  assert (∀ b, asked_by blocked (pe :: rest) id inst (a0 b)) as Ha0.
  { intros b. split_and!; [done..|]. exists pe, (length (es_asked st)). split; [left|]. by split_and!. }
  assert (∀ st1 l, did st [a0 false] st1 → offer uuid_ok parse_dec parse_uuid now blocked id inst gap rest l st1 = (landed', st') →
    ∃ new, did st new st' ∧ (∀ a, a ∈ new → ak_Range a = gap ∧ asked_by blocked (pe :: rest) id inst a) ∧
      settled blocked (pe :: rest) id inst gap new) as Hgo.
  { intros st1 l H1 E. destruct (IH _ _ E) as (new & Hd & Ha & Hs). exists ([a0 false] ++ new). split_and!.
    - by eapply events_did_trans.
    - intros a [->%list_elem_of_singleton|Hin]%elem_of_app; [by split|]. destruct (Ha a Hin). auto.
    - destruct Hs as [(a & ? & ?)|Hs]; [left; exists a; split; [apply elem_of_app; by right|done]|right].
      intros pe' [->|?]%elem_of_cons Hel; [exists (a0 false); split; [left|done]|].
      destruct (Hs pe') as (a & ? & ?); [done..|]. exists a. split; [apply elem_of_app; by right|done]. }
  intros E. destruct ans as [e|reason| |] eqn:Ea.
  - destruct (store_answer _ _ _ _ _ _ _ _ _) as [[filled l] st1] eqn:Es.
    pose proof (store_answer_spec _ _ _ _ _ _ _ _ Hid Hne Es) as Hd. destruct filled.
    + injection E as <- <-. exists [a0 true]. split_and!; [done| |].
      * intros a ->%list_elem_of_singleton. by split.
      * left. exists (a0 true). split; [left|done].
    + eapply Hgo; [|exact E]. done.
  - eapply Hgo; [|exact E]. by apply (did_refused (a0 false)).
  - eapply Hgo; [|exact E]. apply did_unfilled; [done|by intros r [=]|by intros e [=]].
  - eapply Hgo; [|exact E]. apply did_unfilled; [done|by intros r [=]|by intros e [=]].
Qed.

Lemma offer_all_spec blocked id inst plugins gaps st landed st' : parse_uuid id = Some id → (∀ g, g ∈ gaps → nonempty g) →
  offer_all uuid_ok parse_dec parse_uuid now blocked id inst plugins gaps st = (landed, st') →
  ∃ new, did st new st' ∧ (∀ a, a ∈ new → ak_Range a ∈ gaps ∧ asked_by blocked plugins id inst a) ∧
    ∀ g, g ∈ gaps → settled blocked plugins id inst g new.
Proof.
  intros Hid. unfold offer_all. generalize false. revert st. induction gaps as [|g gaps IH]; intros st b Hne; cbn [foldl].
  { intros [= <- <-]. exists []. split_and!; [by apply did_wrote|by intros a ?%elem_of_nil..]. }
  cbn [fst snd]. destruct (offer _ _ _ _ _ _ _ _ _ _ _) as [b1 st1] eqn:E1.
  destruct (offer_spec _ _ _ _ _ _ _ _ _ Hid (Hne g ltac:(left)) E1) as (new1 & Hd1 & Ha1 & Hs1).
  intros E. destruct (IH st1 b1 (λ r H, Hne r ltac:(by right)) E) as (new2 & Hd2 & Ha2 & Hs2).
  exists (new1 ++ new2). split_and!; [by eapply events_did_trans| |].
  - intros a [Ha|Ha]%elem_of_app; [destruct (Ha1 a Ha) as [-> ?]; split; [left|done]|].
    destruct (Ha2 a Ha). split; [by right|done].
  - intros g' [->|Hg]%elem_of_cons; (eapply settled_more; [|eauto]); intros a ?; apply elem_of_app; [by left|by right].
Qed.

Lemma recompute_wrote id st : wrote st
  (with_market (default (es_market st) (RecomputeSplitAdjustments uuid_ok pg_div today id (es_market st))) st).
Proof.
  unfold RecomputeSplitAdjustments. destruct (_ && _); cbn; [by split; [split|..]|]. split; [split|..]; done.
Qed.

Lemma did_then_wrote st new st1 st2 : did st new st1 → wrote st1 st2 → did st new st2.
Proof. intros Hd Hw%did_wrote. rewrite <- (app_nil_r new). by eapply events_did_trans. Qed.

(** The days a held instrument is not covered for, as the cycle found it. *)
Definition wanted (coverage : list Coverage.row) (id : string) (earliest x : Z) : Prop :=
  earliest ≤ x < endBefore today ∧ ∀ pl, ¬ covers (Coverage.spans_of id pl coverage) x.

Lemma missing_wanted coverage id earliest : Coverage.well_kept coverage →
  let missing := Coverage.computeMissingIntervals earliest (endBefore today) (filter (λ r, Coverage.cv_instrument r = id) coverage) in
  (∀ g, g ∈ missing → nonempty g) ∧ ∀ x, covers missing x ↔ wanted coverage id earliest x.
Proof.
  intros [Hne _] missing. destruct (Coverage.missing_intervals_correct earliest (endBefore today)
    (filter (λ r, Coverage.cv_instrument r = id) coverage)) as [Hc Hcan].
  { intros s [_ Hs]%list_elem_of_filter. by apply Hne. }
  split; [intros g; by apply canonical_nonempty|]. intros x. unfold missing. rewrite Hc. unfold wanted.
  setoid_rewrite Coverage.covers_spans_of. setoid_rewrite list_elem_of_filter. setoid_rewrite Coverage.of_pair_spec.
  split; intros [Hx Hn]; (split; [done|]).
  - intros pl (s & ? & [? ?] & ?). apply Hn. by exists s.
  - intros (s & [? ?] & ?). eapply (Hn (Coverage.cv_plugin s)). by exists s.
Qed.

(** Each missing day is claimed, or every eligible plugin was asked in vain for it. *)
Definition tried (blocked : gmap (string * string) PriceFetch.block) (plugins : list plugin) (id : string) (inst : subject)
    (new : list ask) (x : Z) : Prop :=
  (∃ a pl, a ∈ new ∧ ak_Filled a = true ∧ asked_day id pl x a) ∨
  ∀ pe, pe ∈ plugins → eligible blocked id inst pe = true → ∃ a, a ∈ new ∧ ak_Filled a = false ∧ asked_day id (pl_ID pe) x a.

Lemma process_spec blocked coverage plugins id inst earliest st : parse_uuid id = Some id → Coverage.well_kept coverage →
  ∃ new, did st new (processInstrument uuid_ok parse_dec pg_div parse_uuid today now blocked coverage plugins id inst earliest (endBefore today) st) ∧
    (∀ a, a ∈ new → asked_by blocked plugins id inst a ∧
      ∀ x, From (ak_Range a) ≤ x < Before (ak_Range a) → wanted coverage id earliest x) ∧
    ∀ x, wanted coverage id earliest x → tried blocked plugins id inst new x.
Proof.
  intros Hid Hk. unfold processInstrument. destruct (missing_wanted coverage id earliest Hk) as [Hne Hm].
  revert Hne Hm. cbn zeta. generalize (Coverage.computeMissingIntervals earliest (endBefore today) (filter (λ r, Coverage.cv_instrument r = id) coverage)).
  intros missing Hne Hm. destruct (offer_all _ _ _ _ _ _ _ _ _ _) as [landed st1] eqn:E.
  destruct (offer_all_spec _ _ _ _ _ _ _ _ Hid Hne E) as (new & Hd & Ha & Hs). exists new. split_and!.
  - destruct landed; [|done]. eapply did_then_wrote; [exact Hd|]. apply recompute_wrote.
  - intros a Hin. destruct (Ha a Hin) as [Hr ?]. split; [done|]. intros x Hx. apply Hm. by exists (ak_Range a).
  - intros x (g & Hg & Hx)%Hm. destruct (Hs g Hg) as [(a & ? & ? & ? & <-)|Hn]; [left; by exists a, (ak_Plugin a)|right].
    intros pe ??. destruct (Hn pe) as (a & ? & ? & ? & ? & <-); [done..|]. by exists a.
Qed.

(** A request for one of the held instruments. *)
Definition asked_of (subjects : gmap string subject) (plugins : list plugin) (blocked : gmap (string * string) PriceFetch.block)
    (coverage : list Coverage.row) (held : list (string * Z)) a : Prop :=
  ∃ inst earliest, (ak_Instrument a, earliest) ∈ held ∧ subjects !! ak_Instrument a = Some inst ∧
    asked_by blocked plugins (ak_Instrument a) inst a ∧
    ∀ x, From (ak_Range a) ≤ x < Before (ak_Range a) → wanted coverage (ak_Instrument a) earliest x.

Lemma asked_of_mono subjects plugins blocked coverage held held' a : (∀ h, h ∈ held → h ∈ held') →
  asked_of subjects plugins blocked coverage held a → asked_of subjects plugins blocked coverage held' a.
Proof. intros Hs (inst & e & ? & ?). exists inst, e. by split; [auto|]. Qed.

Lemma process_held_spec cancelled subjects blocked coverage plugins i held st : Coverage.well_kept coverage →
  (∀ h, h ∈ held → parse_uuid h.1 = Some h.1) →
  ∃ new, did st new (processHeld uuid_ok parse_dec pg_div parse_uuid today now cancelled subjects blocked coverage plugins i held st) ∧
    (∀ a, a ∈ new → asked_of subjects plugins blocked coverage held a) ∧
    ((∀ j, cancelled j = false) → ∀ id earliest inst x, (id, earliest) ∈ held → subjects !! id = Some inst →
      wanted coverage id earliest x → tried blocked plugins id inst new x).
Proof.
  intros Hk. revert i st. induction held as [|[id earliest] held IH]; intros i st Hid; cbn [processHeld].
  { exists []. split_and!; [by apply did_wrote|by intros a ?%elem_of_nil|by intros _ ???? ?%elem_of_nil]. }
  destruct (cancelled i) eqn:Ec.
  { exists []. split_and!; [by apply did_wrote|by intros a ?%elem_of_nil|intros Hc; by rewrite Hc in Ec]. }
  assert (∃ new, did st new (match subjects !! id with None => st
      | Some inst => processInstrument uuid_ok parse_dec pg_div parse_uuid today now blocked coverage plugins id inst earliest (endBefore today) st end) ∧
    (∀ a, a ∈ new → ak_Instrument a = id ∧ asked_of subjects plugins blocked coverage ((id, earliest) :: held) a) ∧
    (∀ inst x, subjects !! id = Some inst → wanted coverage id earliest x → tried blocked plugins id inst new x)) as (new1 & Hd1 & Ha1 & Ht1).
  { destruct (subjects !! id) as [inst|] eqn:Es.
    - destruct (process_spec blocked coverage plugins id inst earliest st (Hid (id, earliest) ltac:(left)) Hk) as (new & Hd & Ha & Ht).
      exists new. split_and!; [done| |intros ? x [= <-]; apply Ht]. intros a Hin. destruct (Ha a Hin) as [Hby Hw]. pose proof Hby as [E _].
      split; [done|]. exists inst, earliest. rewrite E. split; [left|]. split; [done|]. by split.
    - exists []. split_and!; [by apply did_wrote|by intros a ?%elem_of_nil|done]. }
  destruct (IH (S i) (match subjects !! id with None => st
      | Some inst => processInstrument uuid_ok parse_dec pg_div parse_uuid today now blocked coverage plugins id inst earliest (endBefore today) st end)
    (λ h H, Hid h ltac:(by right))) as (new2 & Hd2 & Ha2 & Ht2).
  assert (∀ new id inst x, (∀ a, a ∈ new → a ∈ new1 ++ new2) → tried blocked plugins id inst new x → tried blocked plugins id inst (new1 ++ new2) x) as Hmore.
  { intros new id' inst x Hs [(a & pl & ? & ?)|Hn]; [left; exists a, pl; split; [auto|done]|right].
    intros pe ??. destruct (Hn pe) as (a & ? & ?); [done..|]. exists a. split; [auto|done]. }
  exists (new1 ++ new2). split_and!; [by eapply events_did_trans| |].
  - intros a [Ha|Ha]%elem_of_app; [by apply Ha1|]. eapply asked_of_mono; [|by apply Ha2]. intros h. by right.
  - intros Hc id' e' inst x [[= -> ->]|Hin]%elem_of_cons Hs Hw.
    + eapply Hmore; [|by apply Ht1]. intros a ?. apply elem_of_app. by left.
    + eapply Hmore; [|by eapply Ht2]. intros a ?. apply elem_of_app. by right.
Qed.

Lemma fetch_held_spec cancelled subjects plugins st : Coverage.well_kept (es_coverage st) →
  (∀ h, h ∈ HeldEventBearingInstruments (es_market st) → parse_uuid h.1 = Some h.1) →
  ∃ new, did st new (fetchHeld uuid_ok parse_dec pg_div parse_uuid today now cancelled subjects plugins st) ∧
    (∀ a, a ∈ new → asked_of subjects plugins (es_blocks st) (es_coverage st) (HeldEventBearingInstruments (es_market st)) a) ∧
    ((∀ j, cancelled j = false) → ∀ id earliest inst x, (id, earliest) ∈ HeldEventBearingInstruments (es_market st) →
      subjects !! id = Some inst → wanted (es_coverage st) id earliest x → tried (es_blocks st) plugins id inst new x).
Proof.
  intros Hk Hid. unfold fetchHeld. destruct plugins as [|pe plugins]; [|by apply process_held_spec].
  exists []. split_and!; [by apply did_wrote|by intros a ?%elem_of_nil|]. intros _ ???? _ _ _. right. by intros pe ?%elem_of_nil.
Qed.

(** What an instrument of the walk is, and from which day. *)
Lemma elem_of_earliest rows id d : earliest_day (filter (λ x : string * Z, x.1 = id) rows) = Some d ↔
  (id, d) ∈ rows ∧ ∀ d', (id, d') ∈ rows → d ≤ d'.
Proof.
  assert (∀ l, match earliest_day l with
    | Some d => (∃ x, x ∈ l ∧ x.2 = d) ∧ ∀ x, x ∈ l → d ≤ x.2
    | None => l = []
    end) as Hmin.
  { clear. induction l as [|x l IH]; cbn; [done|]. fold (earliest_day l). destruct (earliest_day l) as [d|].
    - destruct IH as [(y & Hy & <-) Hl]. split.
      + destruct (Z.min_spec x.2 y.2) as [[? ->]|[? ->]]; [exists x; by split; [left|]|exists y; by split; [right|]].
      + intros z [->|Hz]%elem_of_cons; [lia|]. specialize (Hl z Hz). lia.
    - subst l. split; [exists x; by split; [left|]|]. by intros z ->%list_elem_of_singleton. }
  specialize (Hmin (filter (λ x : string * Z, x.1 = id) rows)). set (l := filter _ rows) in *.
  assert (∀ d', (id, d') ∈ rows ↔ ∃ x, x ∈ l ∧ x.2 = d') as Hl.
  { intros d'. subst l. setoid_rewrite list_elem_of_filter. split; [intros ?; exists (id, d'); by split_and!|].
    by intros ([i z] & [Hi Hz] & Hd); cbn in Hi, Hd; subst. }
  setoid_rewrite Hl. destruct (earliest_day l) as [d0|].
  - destruct Hmin as [(x & Hx & Ex) Hle]. split.
    + intros [= <-]. split; [by exists x|]. intros d' (y & Hy & <-). by apply Hle.
    + intros [(y & Hy & <-) Hd]. f_equal. apply Z.le_antisymm; [by apply Hle|]. apply Hd. by exists x.
  - split; [done|]. intros [(x & Hx & _) _]. rewrite Hmin in Hx. by apply elem_of_nil in Hx.
Qed.

Lemma elem_of_held m id d : (id, d) ∈ HeldEventBearingInstruments m ↔
  (∃ t, t ∈ txs (book (shop m)) ∧ bears_events m t = Some (id, d)) ∧
  ∀ t d', t ∈ txs (book (shop m)) → bears_events m t = Some (id, d') → d ≤ d'.
Proof.
  unfold HeldEventBearingInstruments. set (rows := omap (bears_events m) (txs (book (shop m)))).
  assert (∀ z, (id, z) ∈ rows ↔ ∃ t, t ∈ txs (book (shop m)) ∧ bears_events m t = Some (id, z)) as Hrows.
  { intros z. subst rows. by rewrite list_elem_of_omap. }
  rewrite list_elem_of_omap. split.
  - intros (i & _ & (z & Hz & [= -> ->])%bind_Some). apply elem_of_earliest in Hz as [Hin Hle]. split; [by apply Hrows|].
    intros t d' ??. apply Hle, Hrows. by exists t.
  - intros [Ht Hle]. exists id. assert ((id, d) ∈ rows) as Hin by by apply Hrows. split.
    + rewrite sort_strings_perm, elem_of_remove_dups. apply list_elem_of_fmap. by exists (id, d).
    + apply bind_Some. exists d. split; [|done]. apply elem_of_earliest. split; [done|]. intros d' (t & ? & ?)%Hrows. eauto.
Qed.

(** ** The last pass *)

Section last_pass.
Context (operating_mic : string → option string) (first_row : list identifier → option identifier).
Hypothesis first_row_elem : ∀ l r, first_row l = Some r → r ∈ l.

Definition listed m (id : string) : Prop := is_Some (instruments (shop m) !! id).

(** A market that may have lost instruments, each with its splits and its events. *)
Record pared m m' : Prop := {
  pa_listed id : listed m' id → listed m id;
  pa_splits s : s ∈ stock_splits m → listed m' (ss_InstrumentID s) → s ∈ stock_splits m';
  pa_unhandled e : e ∈ unhandled m → listed m' (ev_InstrumentID e) → e ∈ unhandled m';
}.

#[local] Instance pared_preorder : PreOrder pared.
Proof. split; [by split|]. intros x y z [L1 S1 U1] [L2 S2 U2]. split; auto. Qed.












(** ** The whole cycle *)



Let fetched := fetchHeld uuid_ok parse_dec pg_div parse_uuid today now.


End last_pass.

(** C30: After a cycle that is not cancelled, every day of a held instrument that no
    plugin had answered for is claimed by one, or each eligible plugin was asked for it
    in this cycle and refused, had nothing, failed, or gave events that could not be
    stored: no day is passed over. *)
Theorem event_days_settled subjects plugins st : Coverage.well_kept (es_coverage st) →
  (∀ h, h ∈ HeldEventBearingInstruments (es_market st) → parse_uuid h.1 = Some h.1) →
  let st' := fetchHeld uuid_ok parse_dec pg_div parse_uuid today now (λ _, false) subjects plugins st in
  ∀ id earliest inst x, (id, earliest) ∈ HeldEventBearingInstruments (es_market st) → subjects !! id = Some inst →
    earliest ≤ x < endBefore today →
    (∃ pl, covered st' id pl x) ∨
    ∀ pe, pe ∈ plugins → eligible (es_blocks st) id inst pe = true →
      ∃ a, a ∈ drop (length (es_asked st)) (es_asked st') ∧ ak_Filled a = false ∧ asked_day id (pl_ID pe) x a.
Proof.
  intros Hk Hid st' id earliest inst x Hh Hs Hx.
  destruct (fetch_held_spec (λ _, false) subjects plugins st Hk Hid) as (new & [A _ _ _ C _ _ _] & _ & Ht). fold st' in A, C.
  destruct (decide (Exists (λ s, Coverage.cv_instrument s = id ∧ From (Coverage.cv_range s) ≤ x < Before (Coverage.cv_range s)) (es_coverage st)))
    as [He|Hn].
  - apply Exists_exists in He as (s & Hin & Hi & Hr). left. exists (Coverage.cv_plugin s). apply C. left.
    apply Coverage.covers_spans_of. exists s. split; [done|]. split; [by apply Coverage.of_pair_spec|done].
  - destruct (Ht ltac:(done) id earliest inst x Hh Hs) as [(a & pl & ? & ? & ?)|Hv].
    + split; [done|]. intros pl (s & ? & [? _]%Coverage.of_pair_spec & ?)%Coverage.covers_spans_of.
      apply Hn, Exists_exists. by exists s.
    + left. exists pl. apply C. right. by exists a.
    + right. intros pe ??. rewrite A, drop_app_length. by apply Hv.
Qed.

(** Two dividends on one day are never stored together, whatever is in the tables. *)
Lemma one_dividend_a_day l st d d' l1 l2 l3 : l = l1 ++ d :: l2 ++ d' :: l3 → div_key d = div_key d' →
  UpsertCashDividends uuid_ok parse_dec now l st = None.
Proof.
  intros -> E. unfold UpsertCashDividends. destruct (l1 ++ _) as [|d0 l0] eqn:El; [by destruct l1|]. rewrite <- El. clear El d0 l0.
  destruct (mapM _ _); cbn; [|done]. rewrite bool_decide_false, orb_true_r; [done|].
  rewrite fmap_app, fmap_cons, fmap_app, fmap_cons, E. intros (_ & _ & [Hn _]%NoDup_cons)%NoDup_app. apply Hn.
  apply elem_of_app. right. left.
Qed.
End steps.

(** ** Cycles *)

Section witnesses.
#[local] Existing Instances QDecimal.q_decimal QDecimal.q_decimal_laws.

Definition share : subject := {|
  sj_AssetClass := Some "STOCK"; sj_ExchangeMIC := None; sj_Currency := None;
  sj_Identifiers := [isin "US0378331005"]; sj_ProviderIdentifiers := [] |}.

Definition by_isin (name : string) (f : Z → Z → answer) : plugin := {|
  pl_ID := name; pl_SupportedIdentifierTypes := ["ISIN"]; pl_AcceptableAssetClasses := {["STOCK"]};
  pl_AcceptableExchanges := ∅; pl_AcceptableCurrencies := ∅; pl_FetchEvents := λ _ _ _, f |}.

Definition digit (s : string) : option Q :=
  if String.eqb s "1" then Some 1%Q else if String.eqb s "2" then Some 2%Q else None.

Definition pays (day : Z) (type : string) : Dividend := {|
  dv_ExDate := day; dv_PayDate := None; dv_RecordDate := None; dv_DeclarationDate := None; dv_Amount := "1";
  dv_Currency := "USD"; dv_Frequency := EmptyString; dv_Type := type |}.

Definition refuses (from before : Z) : answer := Permanent "404".

(** A split and a special dividend on the first day, and a regular one on the next. *)
Definition knows (from before : Z) : answer := Answered (Some {|
  ev_Splits := [ {| sp_ExDate := from; sp_SplitFrom := "1"; sp_SplitTo := "2" |} ];
  ev_CashDividends := [pays from "SC"; pays (from + 1) "CD"] |}).

(** Two distributions of a fund on one day, which the provider plugins call regular. *)
Definition distributes (from before : Z) : answer :=
  Answered (Some {| ev_Splits := []; ev_CashDividends := [pays from "CD"; pays from "CD"] |}).

Definition at_rest (coverage : list Coverage.row) : estate Q := {|
  es_market := sample_market; es_dividends := ∅; es_coverage := coverage; es_blocks := ∅; es_asked := [] |}.

Definition fetched (plugins : list plugin) (st : estate Q) : estate Q :=
  fetchHeld (λ _, true) digit Qdiv Some 0 100 (λ _, false) (<["aapl" := share]> ∅) plugins st.

Definition asks (st : estate Q) : list (string * DateRange * bool) := (λ a, (ak_Plugin a, ak_Range a, ak_Filled a)) <$> es_asked st.

Lemma held_parse st : ∀ h, h ∈ HeldEventBearingInstruments (es_market (D:=Q) st) → Some h.1 = Some h.1.
Proof. done. Qed.

Definition earlier_fetch : list Coverage.row := [ {|
  Coverage.cv_instrument := "aapl"; Coverage.cv_plugin := "old"; Coverage.cv_range := {| From := 10; Before := 20 |}; Coverage.cv_fetched := 1 |} ].


Lemma earlier_kept : Coverage.well_kept earlier_fetch.
Proof. split; [intros s ->%list_elem_of_singleton; unfold nonempty; cbn; lia|repeat constructor]. Qed.

Definition cycled (plugins : list plugin) (st : estate Q) : estate Q :=
  runCycle (λ _, true) sample_mic digit Qdiv head Some 0 100 (λ _, false) false (<["aapl" := share]> ∅) plugins st.


(** An answer without an event is claimed too: its days are not asked for again. *)
Definition quiet_period (from before : Z) : answer := Answered None.

Lemma no_events_claimed :
  let st' := cycled [by_isin "p" quiet_period] (at_rest []) in
  asks st' = [("p", {| From := 0; Before := 31 |}, true)] ∧ asks (cycled [by_isin "p" quiet_period] st') = asks st'.
Proof. by vm_compute. Qed.

(** One plugin has nothing; the days it was asked for are put to the next. *)
Lemma event_days_settled_witness :
  let st' := fetched [by_isin "none" (λ _ _, NoData); by_isin "yes" knows] (at_rest earlier_fetch) in
  asks st' = [("none", {| From := 0; Before := 10 |}, false); ("yes", {| From := 0; Before := 10 |}, true);
              ("none", {| From := 20; Before := 31 |}, false); ("yes", {| From := 20; Before := 31 |}, true)] ∧
  ∀ x, 0 ≤ x < 31 → ∃ pl, covered st' "aapl" pl x.
Proof.
  intros st'. assert (asks st' = [("none", {| From := 0; Before := 10 |}, false); ("yes", {| From := 0; Before := 10 |}, true);
    ("none", {| From := 20; Before := 31 |}, false); ("yes", {| From := 20; Before := 31 |}, true)]) as E by by vm_compute.
  split; [exact E|]. intros x Hx.
  destruct (event_days_settled (λ _, true) digit Qdiv Some 0 100 (<["aapl" := share]> ∅)
    [by_isin "none" (λ _ _, NoData); by_isin "yes" knows] (at_rest earlier_fetch) earlier_kept (held_parse _)
    "aapl" 0 share x) as [?|Hn]; [by vm_compute; left|done|done|done|].
  fold (fetched [by_isin "none" (λ _ _, NoData); by_isin "yes" knows] (at_rest earlier_fetch)) in Hn. fold st' in Hn.
  destruct (Hn (by_isin "yes" knows)) as (a & Ha & Hf & _ & Hp & _); [right; left|by vm_compute|]. exfalso.
  assert ((ak_Plugin a, ak_Range a, ak_Filled a) ∈ asks st') as Hin by (apply list_elem_of_fmap; by exists a).
  rewrite E, Hp, Hf in Hin. rewrite !elem_of_cons, elem_of_nil in Hin. naive_solver.
Defined.

(** A fund that pays two distributions on one day is never covered: what a plugin
    answers cannot be stored, in this cycle or the next. *)
Lemma two_distributions_a_day :
  let st' := fetched [by_isin "p" distributes] (at_rest []) in
  asks st' = [("p", {| From := 0; Before := 31 |}, false)] ∧ es_coverage st' = [] ∧ es_dividends st' = ∅ ∧
  asks (fetched [by_isin "p" distributes] st') = [("p", {| From := 0; Before := 31 |}, false); ("p", {| From := 0; Before := 31 |}, false)].
Proof. by vm_compute. Qed.

(** A plugin that has refused an instrument for good is asked for its next interval. *)
Lemma refused_is_asked_again :
  let st' := fetched [by_isin "no" refuses] (at_rest earlier_fetch) in
  asks st' = [("no", {| From := 0; Before := 10 |}, false); ("no", {| From := 20; Before := 31 |}, false)].
Proof. by vm_compute. Qed.
End witnesses.
End EventFetch.
