(* ===== verification/Inflation.v ===== *)
(** * Fetching inflation

    server/inflationfetcher/worker.go over db/postgres/inflation.go: one cycle of the
    worker.  For each display currency the months from the first one missing to the
    current one are put to the enabled plugins that publish for it, and the first answer
    with months in it is stored.

    A time is a day with the location it is expressed in, all of offset zero: comparing
    instants looks at the day, comparing values with == (as the keys of a map do) at
    both.  [driver_loc] is the location the database driver gives a DATE; the conversion
    of a float to a decimal and the plugins are parameters too, a plugin a function of
    how many calls were made before it and of the request.  A plugin returns a result
    when it returns no error, as its interface says. *)

From S2P Require Import Prelude GoStrings Calendar.

Local Open Scope Z_scope.

Module Inflation.
Import GoStrings.

(** ** Months *)

Record Time := { t_Day : Z; t_Loc : string }.

#[export] Instance Time_eq_dec : EqDecision Time.
Proof. solve_decision. Defined.

Definition UTC : string := "UTC".

Definition of_month (y m : Z) : Time := {| t_Day := Calendar.Date y m 1; t_Loc := UTC |}.

Definition gapStart : Time := of_month 2000 1.

(** [t.AddDate(0, 1, 0)] *)
Definition next_month (t : Time) : Time := {|
  t_Day := Calendar.Date (Calendar.Year (t_Day t)) (Calendar.Month (t_Day t) + 1) (Calendar.Day (t_Day t)); t_Loc := t_Loc t |}.

Definition TBefore (t u : Time) : bool := t_Day t <? t_Day u.

(** The loop over the months, with the first one not covered so far. *)
Fixpoint scan_months (fuel : nat) (coverage : list Time) (endMonth m : Time) (firstMissing : option Time) : option (option Time) :=
  if negb (TBefore m endMonth) then Some firstMissing else
  match fuel with
  | O => None
  | S fuel => scan_months fuel coverage endMonth (next_month m)
      (match firstMissing with Some _ => firstMissing | None => if bool_decide (m ∈ coverage) then None else Some m end)
  end.

(** A day a step is more than enough. *)
Definition month_fuel (endMonth : Time) : nat := Z.to_nat (t_Day endMonth - t_Day gapStart).

Definition computeGapRange (coverage : list Time) (endMonth : Time) : option (Time * Time) :=
  match coverage with
  | [] => Some (gapStart, endMonth)
  | _ =>
      first ← scan_months (month_fuel endMonth) coverage endMonth gapStart None;
      Some (default endMonth first, endMonth)
  end.

(** ** The cycle *)

Record MonthlyIndex {F : Type} := { mi_Month : Z; mi_IndexValue : F; mi_BaseYear : Z }.
#[global] Arguments MonthlyIndex : clear implicits.

Inductive answer {F : Type} := Indices (l : list (MonthlyIndex F)) | NoData | Failed.
#[global] Arguments answer : clear implicits.

Record plugin {F : Type} := {
  pl_ID : string;
  pl_SupportedCurrencies : list string;
  pl_FetchInflation : nat → string → Time → Time → answer F;
}.
#[global] Arguments plugin : clear implicits.

(** A row of inflation_indices, but for its key. *)
Record index_row {D : Type} := { ir_IndexValue : D; ir_BaseYear : Z; ir_DataProvider : string; ir_LastFetchedAt : Z }.
#[global] Arguments index_row : clear implicits.

(** A request, its answer, and whether the answer was stored. *)
Record ask {F : Type} := { ak_Currency : string; ak_Plugin : string; ak_From : Time; ak_To : Time; ak_Answer : answer F; ak_Stored : bool }.
#[global] Arguments ask : clear implicits.

Record istate {D F : Type} := { is_rows : gmap (string * Z) (index_row D); is_asked : list (ask F) }.
#[global] Arguments istate : clear implicits.

Record InflationIndex {D : Type} := { ii_Currency : string; ii_Month : Z; ii_IndexValue : D; ii_BaseYear : Z; ii_DataProvider : string }.
#[global] Arguments InflationIndex : clear implicits.

Section cycle.
Context {D F : Type}.
Context (from_float : F → D) (driver_loc : string) (today now : Z).
Implicit Types (st : istate D F) (pe : plugin F).

Definition with_ask (a : ask F) st : istate D F := {| is_rows := is_rows st; is_asked := is_asked st ++ [a] |}.

(** The currencies users want their holdings shown in. *)
Definition DistinctDisplayCurrencies (users : list (option string)) : list string :=
  sort_strings (remove_dups (filter (λ c, c ≠ EmptyString) (omap id users))).

Definition InflationCoverage (currency : string) st : list Time :=
  (λ m, {| t_Day := m; t_Loc := driver_loc |}) <$>
    go_sort Z.ltb ((filter (λ k, k.1 = currency) (elements (dom (is_rows st)))).*2).

Definition index_key (i : InflationIndex D) : string * Z := (ii_Currency i, ii_Month i).

(** One statement, which may not touch a row twice. *)
Definition UpsertInflationIndices (l : list (InflationIndex D)) st : option (istate D F) :=
  match l with [] => Some st | _ =>
  if negb (bool_decide (NoDup (index_key <$> l))) then None else
  Some {| is_rows := foldl (λ t i, <[index_key i := {| ir_IndexValue := ii_IndexValue i; ir_BaseYear := ii_BaseYear i;
                       ir_DataProvider := ii_DataProvider i; ir_LastFetchedAt := now |}]> t) (is_rows st) l;
          is_asked := is_asked st |}
  end.

Definition toDBIndices (currency provider : string) (l : list (MonthlyIndex F)) : list (InflationIndex D) :=
  (λ i, {| ii_Currency := currency; ii_Month := mi_Month i; ii_IndexValue := from_float (mi_IndexValue i);
           ii_BaseYear := mi_BaseYear i; ii_DataProvider := provider |}) <$> l.

Definition pluginAcceptsCurrency pe (currency : string) : bool := existsb (λ c, EqualFold c currency) (pl_SupportedCurrencies pe).

Fixpoint processCurrency (currency : string) (endMonth : Time) (plugins : list (plugin F)) st : istate D F :=
  match plugins with
  | [] => st
  | pe :: rest =>
      if negb (pluginAcceptsCurrency pe currency) then processCurrency currency endMonth rest st else
      match computeGapRange (InflationCoverage currency st) endMonth with
      | None => st
      | Some (gapFrom, gapTo) =>
          if negb (TBefore gapFrom gapTo) then st else
          let a := pl_FetchInflation pe (length (is_asked st)) currency gapFrom gapTo in
          let asked stored := with_ask {| ak_Currency := currency; ak_Plugin := pl_ID pe; ak_From := gapFrom; ak_To := gapTo;
                                          ak_Answer := a; ak_Stored := stored |} in
          match a with
          | NoData | Failed | Indices [] => processCurrency currency endMonth rest (asked false st)
          | Indices l =>
              match UpsertInflationIndices (toDBIndices currency (pl_ID pe) l) st with
              | None => asked false st
              | Some st => asked true st
              end
          end
      end
  end.

Fixpoint processCurrencies (cancelled : nat → bool) (i : nat) (plugins : list (plugin F)) (currencies : list string) st : istate D F :=
  match currencies with
  | [] => st
  | c :: rest =>
      if cancelled i then st else
      processCurrencies cancelled (S i) plugins rest
        (processCurrency c (of_month (Calendar.Year today) (Calendar.Month today)) plugins st)
  end.

Definition runCycle (cancelled : nat → bool) (users : list (option string)) (plugins : list (plugin F)) st : istate D F :=
  match DistinctDisplayCurrencies users, plugins with
  | [], _ | _, [] => st
  | currencies, _ => processCurrencies cancelled 0 plugins currencies st
  end.
End cycle.

(** ** The calendar's months *)

(** The first of the [k]-th month since year 0. *)
Definition first_of (k : Z) : Z := Calendar.Date 0 (k + 1) 1.

(** The year of the era and the month counted from March are read back from the first
    day of a month: every case of an era. *)
Lemma era_firsts : forallb (λ yoe, forallb (λ mp,
    let doe := yoe * 365 + yoe `div` 4 - yoe `div` 100 + (153 * mp + 2) `div` 5 in
    (0 <=? doe) && (doe <? 146097) &&
    let yoe' := (doe - doe `div` 1460 + doe `div` 36524 - doe `div` 146096) `div` 365 in
    let doy := doe - (365 * yoe' + yoe' `div` 4 - yoe' `div` 100) in
    (yoe' =? yoe) && ((5 * doy + 2) `div` 153 =? mp) && (doy =? (153 * mp + 2) `div` 5)) (seqZ 0 12)) (seqZ 0 400) = true.
Proof. by vm_compute. Qed.

Lemma civil_first y m : 1 ≤ m ≤ 12 → Calendar.civil (Calendar.days_from_civil y m 1) = (y, m, 1).
Proof.
  intros Hm. unfold Calendar.days_from_civil. set (y' := if m <=? 2 then y - 1 else y).
  set (era := y' `div` 400). set (yoe := y' - era * 400). set (mp := (m + 9) `mod` 12).
  assert (0 ≤ yoe < 400 ∧ 0 ≤ mp < 12) as [Hy Hp] by (unfold yoe, era, mp; Calendar.div_lia).
  pose proof era_firsts as E. rewrite forallb_forall in E. specialize (E yoe ltac:(by apply list_elem_of_In, elem_of_seqZ; lia)).
  rewrite forallb_forall in E. specialize (E mp ltac:(by apply list_elem_of_In, elem_of_seqZ; lia)). cbv zeta in E.
  set (doe := yoe * 365 + yoe `div` 4 - yoe `div` 100 + (153 * mp + 2) `div` 5) in E. rewrite !andb_true_iff in E.
  destruct E as [[Hlo%Z.leb_le Hhi%Z.ltb_lt] [[Hye%Z.eqb_eq Hmp%Z.eqb_eq] Hdoy%Z.eqb_eq]].
  unfold Calendar.civil. cbv zeta.
  replace (era * 146097 + (yoe * 365 + yoe `div` 4 - yoe `div` 100 + ((153 * mp + 2) `div` 5 + 1 - 1)) - 719468 + 719468)
    with (doe + era * 146097) by (unfold doe; lia).
  rewrite Z.div_add, (Z.div_small doe) by lia. rewrite Z.add_0_l. replace (doe + era * 146097 - era * 146097) with doe by lia.
  rewrite Hye in *. rewrite Hmp. rewrite Hdoy. replace ((153 * mp + 2) `div` 5 - (153 * mp + 2) `div` 5 + 1) with 1 by lia.
  assert ((if mp <? 10 then mp + 3 else mp - 9) = m) as -> by (unfold mp; destruct (Z.ltb_spec ((m + 9) `mod` 12) 10); Calendar.div_lia).
  f_equal. f_equal. unfold yoe, y'. destruct (m <=? 2); lia.
Qed.

Lemma first_of_civil k : Calendar.civil (first_of k) = (k `div` 12, k `mod` 12 + 1, 1).
Proof.
  unfold first_of, Calendar.Date. replace (k + 1 - 1) with k by lia. rewrite Z.add_0_l. apply civil_first. Calendar.div_lia.
Qed.

Lemma of_month_first y m : t_Day (of_month y m) = first_of (12 * y + m - 1).
Proof.
  unfold of_month, first_of, Calendar.Date. cbn. replace (12 * y + m - 1 + 1 - 1) with (m - 1 + y * 12) by lia.
  rewrite Z.div_add, Z.mod_add by lia. f_equal. lia.
Qed.

Lemma next_first_of loc k : next_month {| t_Day := first_of k; t_Loc := loc |} = {| t_Day := first_of (k + 1); t_Loc := loc |}.
Proof.
  unfold next_month, Calendar.Year, Calendar.Month, Calendar.Day. cbn [t_Day t_Loc]. rewrite first_of_civil. cbn [fst snd]. f_equal.
  unfold first_of, Calendar.Date. replace (k `mod` 12 + 1 + 1 - 1) with (k + 1 + (- (k `div` 12)) * 12) by Calendar.div_lia.
  rewrite Z.div_add, Z.mod_add by lia. replace (k + 1 + 1 - 1) with (k + 1) by lia. f_equal. lia.
Qed.

Lemma first_of_step k : first_of k + 28 ≤ first_of (k + 1).
Proof.
  unfold first_of, Calendar.Date, Calendar.days_from_civil. replace (k + 1 - 1) with k by lia. replace (k + 1 + 1 - 1) with (k + 1) by lia.
  destruct (Z.leb_spec (k `mod` 12 + 1) 2), (Z.leb_spec ((k + 1) `mod` 12 + 1) 2); Calendar.div_lia.
Qed.

Lemma first_of_mono j k : first_of j < first_of k ↔ j < k.
Proof.
  assert (∀ n j, first_of j < first_of (j + Z.of_nat (S n))) as Hup.
  { induction n as [|n IH]; intros j'; [pose proof (first_of_step j'); change (Z.of_nat 1) with 1; lia|].
    rewrite (Nat2Z.inj_succ (S n)). pose proof (first_of_step (j' + Z.of_nat (S n))). specialize (IH j').
    replace (j' + Z.succ (Z.of_nat (S n))) with (j' + Z.of_nat (S n) + 1) by lia. lia. }
  assert (∀ j k, j < k → first_of j < first_of k) as Hlt.
  { intros j' k' ?. specialize (Hup (Z.to_nat (k' - j' - 1)) j'). replace (j' + Z.of_nat (S (Z.to_nat (k' - j' - 1)))) with k' in Hup by lia. done. }
  split; [|apply Hlt]. intros Hf. destruct (Z.lt_trichotomy j k) as [?|[->|Hgt]]; [done|lia|]. apply Hlt in Hgt. lia.
Qed.

(** ** The first missing month *)

Definition utc (k : Z) : Time := {| t_Day := first_of k; t_Loc := UTC |}.

Lemma next_utc k : next_month (utc k) = utc (k + 1).
Proof. apply next_first_of. Qed.

Section gap.
Context (coverage : list Time) (e : Z).
Hypothesis in_utc : ∀ t, t ∈ coverage → t_Loc t = UTC.

Definition missing_month (k : Z) : Prop := first_of k ∉ t_Day <$> coverage.

Lemma utc_covered k : utc k ∈ coverage ↔ ¬ missing_month k.
Proof.
  unfold missing_month. split.
  - intros Hin Hn. apply Hn. apply list_elem_of_fmap. by exists (utc k).
  - intros Hn. destruct (decide (first_of k ∈ t_Day <$> coverage)) as [(t & Et & Ht)%list_elem_of_fmap|]; [|done].
    assert (t = utc k) as <-; [|done]. pose proof (in_utc t Ht). destruct t as [z l]. cbn in *. by subst.
Qed.

(** Once a month is found the loop only runs to its end. *)
Lemma scan_found fuel k f : first_of e - first_of k ≤ Z.of_nat fuel →
  scan_months fuel coverage (utc e) (utc k) (Some f) = Some (Some f).
Proof using Type.
  revert k. induction fuel as [|fuel IH]; intros k Hf; cbn [scan_months]; unfold TBefore; cbn [t_Day utc];
    destruct (Z.ltb_spec (first_of k) (first_of e)); [lia|done| |done].
  cbn [negb]. rewrite next_utc. apply IH. pose proof (first_of_step k). lia.
Qed.

(** From month [k] on the loop finds the first month that is missing. *)
Lemma scan_months_spec fuel k : first_of e - first_of k ≤ Z.of_nat fuel →
  ∃ r, scan_months fuel coverage (utc e) (utc k) None = Some r ∧
    match r with
    | Some t => ∃ n, t = utc n ∧ k ≤ n < e ∧ missing_month n ∧ ∀ j, k ≤ j < n → ¬ missing_month j
    | None => ∀ j, k ≤ j < e → ¬ missing_month j
    end.
Proof.
  assert (∀ j, first_of e ≤ first_of k → ¬ k ≤ j < e) as Hdone.
  { intros j Hge Hj. assert (first_of k < first_of e) by (apply first_of_mono; lia). lia. }
  revert k Hdone. induction fuel as [|fuel IH]; intros k Hdone Hf; cbn [scan_months]; unfold TBefore; cbn [t_Day utc];
    destruct (Z.ltb_spec (first_of k) (first_of e)) as [Hlt|Hge]; [lia|exists None; naive_solver| |exists None; naive_solver].
  assert (k < e) as Hk by by apply first_of_mono. cbn [negb]. rewrite next_utc.
  pose proof (first_of_step k) as Hs.
  destruct (bool_decide_reflect (utc k ∈ coverage)) as [Hc|Hc]; rewrite utc_covered in Hc.
  - destruct (IH (k + 1)) as (r & E & Hr); [|lia|].
    { intros j Hge Hj. assert (first_of (k + 1) < first_of e) by (apply first_of_mono; lia). lia. }
    exists r. split; [done|].
    assert (∀ n, (∀ j, k + 1 ≤ j < n → ¬ missing_month j) → ∀ j, k ≤ j < n → ¬ missing_month j) as Hext.
    { intros n Hn j Hj. destruct (decide (j = k)) as [->|]; [done|]. apply Hn. lia. }
    destruct r as [t|]; [|by apply Hext]. destruct Hr as (n & -> & ? & ? & ?). exists n. split_and!; [done|lia..|done|]. by apply Hext.
  - exists (Some (utc k)). split; [by apply scan_found; lia|].
    exists k. split_and!; [done|lia..| |intros; lia]. unfold missing_month in *. intros Hin. apply Hc. intros Hn. by apply Hn.
Qed.
End gap.

Definition start_month : Z := 24000.

Lemma gap_start_month : gapStart = utc start_month.
Proof. by vm_compute. Qed.

Lemma fuel_enough e : first_of e - first_of start_month ≤ Z.of_nat (month_fuel (utc e)).
Proof. unfold month_fuel. rewrite gap_start_month. cbn [t_Day utc]. lia. Qed.

(** The range asked for runs from the first month missing. *)
Lemma gap_range_spec coverage e : (∀ t, t ∈ coverage → t_Loc t = UTC) →
  ∃ n, computeGapRange coverage (utc e) = Some (utc n, utc e) ∧ (∀ j, start_month ≤ j < n → ¬ missing_month coverage j) ∧
    (n < e → start_month ≤ n ∧ missing_month coverage n).
Proof.
  intros Hu. unfold computeGapRange. destruct coverage as [|t0 l0] eqn:El.
  { exists start_month. rewrite gap_start_month. split_and!; [done|intros; lia|]. intros _. split; [lia|]. by apply not_elem_of_nil. }
  rewrite <- El in *. clear El t0 l0. rewrite gap_start_month.
  destruct (scan_months_spec coverage e Hu _ start_month (fuel_enough e)) as (r & -> & Hr). cbn. destruct r as [t|].
  - destruct Hr as (n & -> & ? & ? & ?). exists n. split_and!; [done|done|]. intros _. split; [lia|done].
  - exists e. split_and!; [done|done|lia].
Qed.

(** Read in another location no month is ever found: the range is always all of it. *)
Lemma foreign_location_refetches coverage e : (∀ t, t ∈ coverage → t_Loc t ≠ UTC) → start_month < e →
  computeGapRange coverage (utc e) = Some (gapStart, utc e).
Proof.
  intros Hu He. unfold computeGapRange. destruct coverage as [|t0 l0] eqn:El; [done|]. rewrite <- El in *. clear El t0 l0.
  pose proof (fuel_enough e) as Hf. rewrite gap_start_month. apply first_of_mono in He. revert Hf.
  destruct (month_fuel (utc e)) as [|fuel]; intros Hf; [lia|]. cbn [scan_months]. unfold TBefore. cbn [t_Day utc].
  rewrite (proj2 (Z.ltb_lt _ _) He). cbn [negb]. rewrite next_utc.
  rewrite bool_decide_false by (intros Hin; by apply (Hu _ Hin)).
  pose proof (first_of_step start_month). rewrite scan_found by lia. done.
Qed.

(** ** What a cycle does *)

Section steps.
Context {D F : Type}.
Context (from_float : F → D) (driver_loc : string) (today now : Z).
Implicit Types (st : istate D F) (pe : plugin F) (a : ask F).

Definition published st (c : string) (k : Z) : Prop := is_Some (is_rows st !! (c, first_of k)).

(** The first month from 2000 on that a cycle finds no index for: the first that is not
    stored for the currency, where the driver gives a date in UTC, and otherwise January
    2000 itself, whatever is stored. *)
Definition first_missing st (c : string) (e n : Z) : Prop :=
  start_month ≤ n < e ∧
  if decide (driver_loc = UTC) then ¬ published st c n ∧ ∀ j, start_month ≤ j < n → published st c j else n = start_month.

Lemma coverage_missing st c loc k : missing_month (InflationCoverage loc c st) k ↔ ¬ published st c k.
Proof.
  unfold missing_month, published, InflationCoverage. rewrite <- list_fmap_compose.
  rewrite list_fmap_id, elem_of_go_sort, list_elem_of_fmap, <- elem_of_dom. setoid_rewrite list_elem_of_filter. setoid_rewrite elem_of_elements.
  split; intros Hn Hin; apply Hn.
  - by exists (c, first_of k).
  - destruct Hin as ([c' z] & E & Hc & Hin). cbn in E, Hc. by subst.
Qed.

Lemma coverage_loc st c loc t : t ∈ InflationCoverage loc c st → t_Loc t = loc.
Proof. by intros (m & -> & _)%list_elem_of_fmap. Qed.

(** An answer has a row for a key. *)
Definition gives a (k : string * Z) : Prop :=
  ak_Currency a = k.1 ∧ ∃ l i, ak_Answer a = Indices l ∧ i ∈ l ∧ mi_Month i = k.2.

Definition row_of a (i : MonthlyIndex F) : index_row D := {|
  ir_IndexValue := from_float (mi_IndexValue i); ir_BaseYear := mi_BaseYear i; ir_DataProvider := ak_Plugin a; ir_LastFetchedAt := now |}.

(** From [st] to [st'] the plugins were asked [new], and the rows are those of the
    answers that were stored over those there were. *)
Record did st (new : list (ask F)) st' : Prop := {
  did_asked : is_asked st' = is_asked st ++ new;
  did_kept k : (∀ a, a ∈ new → ak_Stored a = true → ¬ gives a k) → is_rows st' !! k = is_rows st !! k;
  did_rows a l i : a ∈ new → ak_Stored a = true → ak_Answer a = Indices l → i ∈ l →
    is_rows st' !! (ak_Currency a, mi_Month i) = Some (row_of a i);
}.

Lemma months_did_refl st : did st [] st.
Proof. split; [by rewrite app_nil_r|done|by intros a l i ?%elem_of_nil]. Qed.

Lemma months_did_trans st new1 st1 new2 st2 :
  (∀ a b, a ∈ new1 → b ∈ new2 → ak_Stored a = true → ak_Stored b = true → ak_Currency a ≠ ak_Currency b) →
  did st new1 st1 → did st1 new2 st2 → did st (new1 ++ new2) st2.
Proof.
  intros Hd [A1 K1 R1] [A2 K2 R2]. split.
  - by rewrite A2, A1, app_assoc.
  - intros k Hk. rewrite K2, K1; [done|..]; intros a Ha; apply Hk, elem_of_app; auto.
  - intros a l i [Ha|Ha]%elem_of_app Hs El Hi; [|by eapply R2]. rewrite K2; [by eapply R1|].
    intros b Hb Hsb [Hc _]. cbn in Hc. by apply (Hd a b).
Qed.

Lemma months_unstored a st : ak_Stored a = false → did st [a] (with_ask a st).
Proof. intros Hs. split; [done|done|]. intros ? l i ->%list_elem_of_singleton. congruence. Qed.

Lemma put_rows (l : list (InflationIndex D)) (t : gmap (string * Z) (index_row D)) k : NoDup (index_key <$> l) →
  let put := λ t i, <[index_key i := {| ir_IndexValue := ii_IndexValue i; ir_BaseYear := ii_BaseYear i;
                        ir_DataProvider := ii_DataProvider i; ir_LastFetchedAt := now |}]> t in
  (k ∉ index_key <$> l → foldl put t l !! k = t !! k) ∧
  ∀ i, i ∈ l → index_key i = k → foldl put t l !! k = Some {| ir_IndexValue := ii_IndexValue i; ir_BaseYear := ii_BaseYear i;
                        ir_DataProvider := ii_DataProvider i; ir_LastFetchedAt := now |}.
Proof.
  intros Hn put. revert t. induction l as [|x l IH]; intros t; cbn [foldl fmap list_fmap] in *; [split; [done|by intros i ?%elem_of_nil]|].
  apply NoDup_cons in Hn as [Hx Hn]. destruct (IH Hn (put t x)) as [Hk Hi]. split.
  - intros [Hne Hnot]%not_elem_of_cons. rewrite Hk by done. unfold put. by rewrite lookup_insert_ne.
  - intros i [->|Hin]%elem_of_cons Ek; [|by apply Hi]. subst k. rewrite Hk by done. unfold put. by rewrite lookup_insert_eq.
Qed.

Lemma months_stored a l st st' : ak_Stored a = true → ak_Answer a = Indices l → l ≠ [] →
  UpsertInflationIndices now (toDBIndices from_float (ak_Currency a) (ak_Plugin a) l) st = Some st' → did st [a] (with_ask a st').
Proof.
  intros Hs Ea Hl. unfold UpsertInflationIndices. destruct (toDBIndices _ _ _ l) as [|i0 l0] eqn:El; [by destruct l|]. rewrite <- El. clear El i0 l0.
  destruct (bool_decide_reflect (NoDup (index_key <$> toDBIndices from_float (ak_Currency a) (ak_Plugin a) l))) as [Hn|]; [|done].
  intros [= <-]. split; [done| |]; cbn.
  - intros k Hk. apply put_rows; [done|]. intros Hin. apply (Hk a); [left|done|].
    apply list_elem_of_fmap in Hin as (x & -> & (i & -> & Hi)%list_elem_of_fmap). split; [done|]. by exists l, i.
  - intros b l' i ->%list_elem_of_singleton _ El Hi. rewrite Ea in El. injection El as <-.
    destruct (put_rows _ (is_rows st) (ak_Currency a, mi_Month i) Hn) as [_ Hput].
    eapply (Hput {| ii_Currency := ak_Currency a |}); [|done]. apply list_elem_of_fmap. by exists i.
Qed.

(** ** One currency *)

(** A request to a plugin that publishes for the currency, from the first month missing
    to the current one. *)
Definition asked_for st (plugins : list (plugin F)) (c : string) (e : Z) a : Prop :=
  ak_Currency a = c ∧ ∃ pe n, pe ∈ plugins ∧ pluginAcceptsCurrency pe c = true ∧ ak_Plugin a = pl_ID pe ∧
    first_missing st c e n ∧ ak_From a = utc n ∧ ak_To a = utc e.

Definition no_months a : Prop := ak_Answer a = Indices [] ∨ ak_Answer a = NoData ∨ ak_Answer a = Failed.

(** One month twice, which no statement can store. *)
Definition month_twice a : Prop := ∃ l, ak_Answer a = Indices l ∧ ¬ NoDup (mi_Month <$> l).

(** What is left of a currency with a month missing: an answer is stored, or cannot be,
    or no plugin that publishes for it had a month. *)
Definition settled (plugins : list (plugin F)) (c : string) (new : list (ask F)) : Prop :=
  (∃ a, a ∈ new ∧ ak_Currency a = c ∧ (ak_Stored a = true ∨ month_twice a)) ∨
  ∀ pe, pe ∈ plugins → pluginAcceptsCurrency pe c = true → ∃ a, a ∈ new ∧ ak_Currency a = c ∧ ak_Plugin a = pl_ID pe ∧ no_months a.

Lemma index_keys_months (c p : string) (l : list (MonthlyIndex F)) :
  NoDup (index_key <$> toDBIndices from_float c p l) ↔ NoDup (mi_Month <$> l).
Proof.
  unfold toDBIndices. rewrite <- list_fmap_compose.
  assert (index_key ∘ (λ i : MonthlyIndex F, {| ii_Currency := c; ii_Month := mi_Month i; ii_IndexValue := from_float (mi_IndexValue i);
    ii_BaseYear := mi_BaseYear i; ii_DataProvider := p |}) <$> l = pair c <$> (mi_Month <$> l)) as ->.
  { rewrite <- list_fmap_compose. by apply list_fmap_ext. }
  split; [apply NoDup_fmap_1|apply NoDup_fmap_2; apply _].
Qed.

Lemma upsert_months (c p : string) (l : list (MonthlyIndex F)) st :
  NoDup (mi_Month <$> l) ↔ is_Some (UpsertInflationIndices now (toDBIndices from_float c p l) st).
Proof.
  rewrite <- (index_keys_months c p). unfold UpsertInflationIndices. destruct (toDBIndices from_float c p l) as [|i l0].
  - split; [by eexists|]. intros _. constructor.
  - destruct (bool_decide_reflect (NoDup (index_key <$> i :: l0))); cbn; [split; [by eexists|done]|]. split; [done|by intros []].
Qed.

(** What the walk over the plugins does for one currency. *)
Record walked st (plugins : list (plugin F)) (c : string) (e : Z) (new : list (ask F)) st' : Prop := {
  wk_did : did st new st';
  wk_asked a : a ∈ new → asked_for st plugins c e a;
  wk_once : ∃ l t, new = l ++ t ∧ (∀ a, a ∈ l → ak_Stored a = false) ∧ (length t ≤ 1)%nat;
  wk_settled : (∃ n, first_missing st c e n) → settled plugins c new;
}.

Lemma walked_none st plugins c e : ((∃ n, first_missing st c e n) → plugins = []) → walked st plugins c e [] st.
Proof.
  intros Hn. split; [apply months_did_refl|by intros a ?%elem_of_nil| |].
  - exists [], []. split_and!; [done|by intros a ?%elem_of_nil|cbn; lia].
  - intros ->%Hn. right. by intros pe ?%elem_of_nil.
Qed.

Lemma asked_for_more st pe rest c e a : asked_for st rest c e a → asked_for st (pe :: rest) c e a.
Proof. intros (? & pe' & n & ? & ?). split; [done|]. exists pe', n. split; [by right|done]. Qed.

Lemma walked_skip st pe rest c e new st' : pluginAcceptsCurrency pe c = false → walked st rest c e new st' → walked st (pe :: rest) c e new st'.
Proof.
  intros Ep [Hd Ha Hl Hs]. split; [done|intros a ?; by apply asked_for_more, Ha|done|].
  intros Hn. destruct (Hs Hn) as [?|Hr]; [by left|right]. intros pe' [->|?]%elem_of_cons Hacc; [congruence|auto].
Qed.

Lemma walked_next st pe rest c e a new st' : asked_for st (pe :: rest) c e a → ak_Plugin a = pl_ID pe → ak_Stored a = false → no_months a →
  walked (with_ask a st) rest c e new st' → walked st (pe :: rest) c e (a :: new) st'.
Proof.
  intros Ha0 Ep Hst Hno [Hd Ha (l & t & -> & Hl & Ht) Hs]. split.
  - apply (months_did_trans _ [a] (with_ask a st)); [|by apply months_unstored|exact Hd].
    intros ? b ->%list_elem_of_singleton _ Hst'. congruence.
  - intros b [->|Hin]%elem_of_cons; [done|]. by apply asked_for_more, Ha.
  - exists (a :: l), t. split_and!; [done| |done]. intros b [->|Hin]%elem_of_cons; [done|auto].
  - intros Hm. destruct (Hs Hm) as [(b & Hin & ?)|Hr]; [left; exists b; split; [by right|done]|right].
    intros pe' [->|Hpe]%elem_of_cons Hacc; [exists a; split_and!; [left|by apply Ha0|done|done]|].
    destruct (Hr pe' Hpe Hacc) as (b & Hin & ?). exists b. split; [by right|done].
Qed.

Lemma walked_end st plugins c e a st' : asked_for st plugins c e a → did st [a] st' → (ak_Stored a = true ∨ month_twice a) →
  walked st plugins c e [a] st'.
Proof.
  intros Ha Hd Hb. split; [done|by intros b ->%list_elem_of_singleton| |].
  - exists [], [a]. split_and!; [done|by intros b ?%elem_of_nil|cbn; lia].
  - intros _. left. exists a. split_and!; [left|by apply Ha|done].
Qed.

(** The range computed from the table: the first month missing, if there is one. *)
Lemma gap_range_missing st c e : ∃ n, computeGapRange (InflationCoverage driver_loc c st) (utc e) = Some (utc n, utc e) ∧
  if TBefore (utc n) (utc e) then first_missing st c e n else ¬ ∃ k, first_missing st c e k.
Proof.
  unfold first_missing. destruct (decide (driver_loc = UTC)) as [->|Hloc].
  - destruct (gap_range_spec (InflationCoverage UTC c st) e (coverage_loc st c UTC)) as (n & En & Hbefore & Hn). exists n. split; [done|].
    assert (∀ j, start_month ≤ j < n → published st c j) as Hpub.
    { intros j Hj. destruct (decide (published st c j)) as [|Hnp]; [done|]. exfalso. by apply (Hbefore j Hj), coverage_missing. }
    unfold TBefore. cbn [t_Day utc]. destruct (Z.ltb_spec (first_of n) (first_of e)) as [Hlt|Hge].
    + apply (proj1 (first_of_mono _ _)) in Hlt. destruct (Hn Hlt) as [Hs Hm]. split; [lia|]. split; [by apply coverage_missing in Hm|done].
    + intros (k & Hk & Hnk & _). apply Hnk, Hpub. split; [lia|].
      destruct (Z.lt_ge_cases k n); [done|]. assert (first_of n < first_of e) by (apply first_of_mono; lia). lia.
  - assert (∀ t, t ∈ InflationCoverage driver_loc c st → t_Loc t ≠ UTC) as Hl by by intros t ->%coverage_loc.
    destruct (Z.lt_ge_cases start_month e) as [Hlt|Hge].
    + exists start_month. rewrite (foreign_location_refetches _ e Hl Hlt), gap_start_month. split; [done|].
      unfold TBefore. cbn [t_Day utc]. rewrite (proj2 (Z.ltb_lt _ _)) by by apply first_of_mono. split; [lia|done].
    + assert (first_of e ≤ first_of start_month) as Hle.
      { destruct (decide (e = start_month)) as [->|]; [done|]. assert (first_of e < first_of start_month) by (apply first_of_mono; lia). lia. }
      assert (∃ n, computeGapRange (InflationCoverage driver_loc c st) (utc e) = Some (utc n, utc e) ∧ first_of e ≤ first_of n) as (n & -> & Hn).
      { unfold computeGapRange. destruct (InflationCoverage driver_loc c st); [exists start_month; by rewrite gap_start_month|].
        exists e. rewrite gap_start_month. destruct (month_fuel (utc e)); cbn [scan_months]; unfold TBefore; cbn [t_Day utc];
          by rewrite (proj2 (Z.ltb_ge _ _) Hle). }
      exists n. split; [done|]. unfold TBefore. cbn [t_Day utc]. rewrite (proj2 (Z.ltb_ge _ _) Hn). intros (k & ? & _). lia.
Qed.

Lemma process_currency_spec c e plugins st :
  ∃ new, walked st plugins c e new (processCurrency from_float driver_loc now c (utc e) plugins st).
Proof.
  revert st. induction plugins as [|pe rest IH]; intros st; cbn [processCurrency]; [exists []; by apply walked_none|].
  destruct (pluginAcceptsCurrency pe c) eqn:Ep; cbn [negb].
  2: { destruct (IH st) as [new Hw]. exists new. by apply walked_skip. }
  destruct (gap_range_missing st c e) as (n & -> & Hn). destruct (TBefore (utc n) (utc e)); cbn [negb].
  2: { exists []. by apply walked_none. }
  set (ans := pl_FetchInflation _ _ _ _ _).
  set (a0 := λ b, {| ak_Currency := c; ak_Plugin := pl_ID pe; ak_From := utc n; ak_To := utc e; ak_Answer := ans; ak_Stored := b |}).
  assert (∀ b, asked_for st (pe :: rest) c e (a0 b)) as Ha0.
  { intros b. split; [done|]. exists pe, n. split; [left|]. by split. }
  assert (no_months (a0 false) → ∃ new, walked st (pe :: rest) c e new
    (processCurrency from_float driver_loc now c (utc e) rest (with_ask (a0 false) st))) as Hgo.
  { intros Hno. destruct (IH (with_ask (a0 false) st)) as [new Hw]. exists (a0 false :: new). by apply walked_next. }
  assert (ak_Answer (a0 false) = ans ∧ ak_Answer (a0 true) = ans) as [Ef Et] by done. clearbody ans.
  destruct ans as [[|i l]| |]; [apply Hgo; by left| |apply Hgo; right; by left|apply Hgo; by right; right].
  destruct (UpsertInflationIndices now (toDBIndices from_float c (pl_ID pe) (i :: l)) st) as [st1|] eqn:Eu.
  - exists [a0 true]. apply walked_end; [done| |by left]. by eapply (months_stored (a0 true)).
  - exists [a0 false]. apply walked_end; [done|by apply months_unstored|]. right. exists (i :: l). split; [done|].
    intros Hnd. apply (upsert_months c (pl_ID pe) _ st) in Hnd as [? ?]. congruence.
Qed.

(** ** The currencies *)

Lemma did_elsewhere st new st' c : did st new st' → (∀ a, a ∈ new → ak_Currency a ≠ c) → ∀ k, published st' c k ↔ published st c k.
Proof. intros Hd Hn k. unfold published. rewrite (did_kept _ _ _ Hd); [done|]. intros a Ha _ [Hc _]. by apply (Hn a). Qed.

Lemma first_missing_same st st' c e n : (∀ k, published st' c k ↔ published st c k) → first_missing st' c e n ↔ first_missing st c e n.
Proof. intros Hp. unfold first_missing. destruct (decide _); [setoid_rewrite Hp|]; done. Qed.

Lemma asked_for_same st st' plugins c e a : (∀ k, published st' c k ↔ published st c k) → asked_for st' plugins c e a → asked_for st plugins c e a.
Proof. intros Hp (? & pe & n & ? & ? & ? & Hf & ?). split; [done|]. exists pe, n. by rewrite <- (first_missing_same _ _ _ _ _ Hp). Qed.

(** No currency has two answers stored. *)
Definition stored_once (new : list (ask F)) : Prop := NoDup (ak_Currency <$> filter (λ a, ak_Stored a = true) new).

Lemma walked_stored_once st plugins c e new st' : walked st plugins c e new st' → stored_once new.
Proof.
  intros Hw. destruct (wk_once _ _ _ _ _ _ Hw) as (l & t & -> & Hl & Ht). unfold stored_once. rewrite filter_app.
  assert (filter (λ a, ak_Stored a = true) l = []) as ->.
  { destruct (filter _ l) as [|a l'] eqn:El; [done|]. assert (a ∈ filter (λ a, ak_Stored a = true) l) as [Hs Hin]%list_elem_of_filter by (rewrite El; left).
    rewrite Hl in Hs by done. done. }
  cbn. destruct t as [|a [|b t]]; [constructor| |cbn in Ht; lia]. cbn. destruct (decide _); repeat constructor. by intros ?%elem_of_nil.
Qed.

Lemma settled_app plugins c l new r : settled plugins c new → settled plugins c (l ++ new ++ r).
Proof.
  intros [(a & ? & ?)|Hr]; [left; exists a|right; intros pe ??; destruct (Hr pe) as (a & ? & ?); [done..|]; exists a];
    (split; [rewrite !elem_of_app; auto|done]).
Qed.

Definition this_month : Z := 12 * Calendar.Year today + Calendar.Month today - 1.

Lemma of_today : of_month (Calendar.Year today) (Calendar.Month today) = utc this_month.
Proof. unfold utc, this_month. rewrite <- of_month_first. done. Qed.

Lemma process_currencies_spec cancelled i plugins currencies st : NoDup currencies →
  ∃ new, did st new (processCurrencies from_float driver_loc today now cancelled i plugins currencies st) ∧
    (∀ a, a ∈ new → ∃ c, c ∈ currencies ∧ asked_for st plugins c this_month a) ∧ stored_once new ∧
    ((∀ j, cancelled j = false) → ∀ c n, c ∈ currencies → first_missing st c this_month n → settled plugins c new).
Proof.
  revert i st. induction currencies as [|c rest IH]; intros i st Hnd; cbn [processCurrencies].
  { exists []. split_and!; [apply months_did_refl|by intros a ?%elem_of_nil|constructor|by intros _ c n ?%elem_of_nil]. }
  apply NoDup_cons in Hnd as [Hc Hnd]. destruct (cancelled i) eqn:Ec.
  { exists []. split_and!; [apply months_did_refl|by intros a ?%elem_of_nil|constructor|intros Hcan; by rewrite Hcan in Ec]. }
  rewrite of_today. destruct (process_currency_spec c this_month plugins st) as [new1 Hw]. pose proof Hw as [Hd1 Ha1 _ Hs1].
  set (st1 := processCurrency _ _ _ _ _ _ _) in *. destruct (IH (S i) st1 Hnd) as (new2 & Hd2 & Ha2 & Ho2 & Hs2).
  assert (∀ a, a ∈ new1 → ak_Currency a = c) as Hc1 by (intros a Ha; by apply Ha1).
  assert (∀ c', c' ∈ rest → ∀ k, published st1 c' k ↔ published st c' k) as Hsame.
  { intros c' Hc'. apply (did_elsewhere _ _ _ _ Hd1). intros a Ha E. rewrite (Hc1 a Ha) in E. by subst. }
  assert (∀ a, a ∈ new2 → ak_Currency a ∈ rest) as Hc2 by (intros a Ha; destruct (Ha2 a Ha) as (c' & ? & -> & _); done).
  exists (new1 ++ new2). split_and!.
  - eapply months_did_trans; [|exact Hd1|exact Hd2]. intros a b Ha Hb _ _ E. rewrite (Hc1 a Ha) in E. apply Hc. rewrite E. by apply Hc2.
  - intros a [Ha|Ha]%elem_of_app; [exists c; split; [left|by apply Ha1]|].
    destruct (Ha2 a Ha) as (c' & Hin & Hf). exists c'. split; [by right|]. by eapply asked_for_same; [apply Hsame|].
  - unfold stored_once. rewrite filter_app, fmap_app. apply NoDup_app. split_and!; [by eapply walked_stored_once| |done].
    intros x (a & -> & [_ Ha]%list_elem_of_filter)%list_elem_of_fmap (b & E & [_ Hb]%list_elem_of_filter)%list_elem_of_fmap.
    rewrite (Hc1 a Ha) in E. apply Hc. rewrite E. by apply Hc2.
  - intros Hcan c' n [->|Hin]%elem_of_cons Hm.
    + apply (settled_app _ _ [] new1). apply Hs1. by exists n.
    + specialize (Hs2 Hcan c' n Hin). rewrite first_missing_same in Hs2 by by apply Hsame.
      specialize (Hs2 Hm). apply (settled_app _ _ new1 new2 []) in Hs2. by rewrite app_nil_r in Hs2.
Qed.

(** C31: A cycle asks a plugin only for a currency it publishes and some user is shown
    amounts in, to the current month, and always from the first month since 2000 that is
    not stored where the driver gives dates in UTC itself, and from January 2000 where it
    gives them in another location: there the code never finds a month it has stored.  It
    stores at most one answer per currency, whole and exactly, and changes no other row;
    and unless it is cancelled each currency with a month missing has an answer stored,
    or one that names a month twice, or no plugin that publishes for it had a month. *)
Theorem inflation_cycle cancelled users plugins st :
  let st' := runCycle from_float driver_loc today now cancelled users plugins st in
  let currencies := DistinctDisplayCurrencies users in
  ∃ new, is_asked st' = is_asked st ++ new ∧
    (∀ a, a ∈ new → ak_Currency a ∈ currencies ∧ asked_for st plugins (ak_Currency a) this_month a) ∧
    stored_once new ∧
    (∀ a l i, a ∈ new → ak_Stored a = true → ak_Answer a = Indices l → i ∈ l →
      is_rows st' !! (ak_Currency a, mi_Month i) = Some (row_of a i)) ∧
    (∀ k, (∀ a, a ∈ new → ak_Stored a = true → ¬ gives a k) → is_rows st' !! k = is_rows st !! k) ∧
    ((∀ j, cancelled j = false) → ∀ c n, c ∈ currencies → first_missing st c this_month n → settled plugins c new).
Proof.
  intros st' currencies. assert (NoDup currencies) as Hnd.
  { unfold currencies, DistinctDisplayCurrencies. rewrite sort_strings_perm. apply NoDup_remove_dups. }
  assert (∃ new, did st new st' ∧ (∀ a, a ∈ new → ∃ c, c ∈ currencies ∧ asked_for st plugins c this_month a) ∧ stored_once new ∧
    ((∀ j, cancelled j = false) → ∀ c n, c ∈ currencies → first_missing st c this_month n → settled plugins c new)) as (new & [A K R] & Ha & Ho & Hs).
  { subst st'. unfold runCycle. fold currencies. destruct currencies as [|c rest] eqn:Ec, plugins as [|pe plugins];
      [| | |rewrite <- Ec in *; by apply process_currencies_spec].
    1, 2: exists []; split_and!; [apply months_did_refl|by intros a ?%elem_of_nil|constructor|by intros _ c n ?%elem_of_nil].
    exists []. split_and!; [apply months_did_refl|by intros a ?%elem_of_nil|constructor|]. intros _ ????. right. by intros pe ?%elem_of_nil. }
  exists new. split_and!; [done| |done|exact R|exact K|done].
  intros a Hin. destruct (Ha a Hin) as (c & Hc & Hf). pose proof Hf as [E _]. rewrite E. by split.
Qed.
End steps.

(** ** Cycles *)

Section samples.

Definition ons (l : list Z) : plugin Z := {| pl_ID := "ons"; pl_SupportedCurrencies := ["GBP"];
  pl_FetchInflation := λ _ _ _ _, Indices ((λ k, {| mi_Month := first_of k; mi_IndexValue := 100 + k; mi_BaseYear := 2015 |}) <$> l) |}.

Definition other (l : list Z) : plugin Z := {| pl_ID := "other"; pl_SupportedCurrencies := ["gbp"; "EUR"];
  pl_FetchInflation := λ _ _ _ _, Indices ((λ k, {| mi_Month := first_of k; mi_IndexValue := k; mi_BaseYear := 2020 |}) <$> l) |}.

Definition april_2000 : Z := Calendar.Date 2000 4 17.

Definition cycle (loc : string) (plugins : list (plugin Z)) (st : istate Z Z) : istate Z Z :=
  runCycle id loc april_2000 7 (λ _, false) [Some "GBP"; None; Some EmptyString; Some "EUR"; Some "GBP"] plugins st.

Definition asks (st : istate Z Z) : list (string * string * Z * Z * bool) :=
  (λ a, (ak_Currency a, ak_Plugin a, t_Day (ak_From a), t_Day (ak_To a), ak_Stored a)) <$> is_asked st.

Definition no_rows : istate Z Z := {| is_rows := ∅; is_asked := [] |}.

(** Two cycles: the second asks only for what the first left. *)
Example two_cycles :
  let st1 := cycle UTC [ons [24000; 24001]; other [24000; 24001; 24002]] no_rows in
  let st2 := cycle UTC [ons [24000; 24001]; other [24000; 24001; 24002]] {| is_rows := is_rows st1; is_asked := [] |} in
  asks st1 = [("EUR", "other", first_of 24000, first_of 24003, true); ("GBP", "ons", first_of 24000, first_of 24003, true)] ∧
  asks st2 = [("GBP", "ons", first_of 24002, first_of 24003, true)].
Proof. by vm_compute. Qed.

(** The first plugin with months in its answer is the last one asked, though it has not
    the month that is missing: here no cycle ever gets it from the other plugin. *)
Lemma first_answer_starves : 
  let st1 := cycle UTC [ons [24001; 24002]; other [24000; 24001; 24002]] no_rows in
  let st2 := cycle UTC [ons [24001; 24002]; other [24000; 24001; 24002]] {| is_rows := is_rows st1; is_asked := [] |} in
  asks st2 = [("GBP", "ons", first_of 24000, first_of 24003, true)] ∧ is_rows st2 = is_rows st1 ∧
  is_rows st2 !! ("GBP", first_of 24000) = None.
Proof. by vm_compute. Qed.
End samples.
End Inflation.
