(* ===== verification/Views.v ===== *)
(** * Reading the ledger

    db/postgres/holdings.go, external_flows.go and residual_balances.go, with the views
    portfolio_matched_txs and portfolio_in_flight_txs they read: what a user or a
    portfolio holds, which flows cross its boundary, and what residuals are outstanding.

    The name column of an instrument is a parameter, as is the greatest of a list of
    texts, which the collation of the database decides; a query without an order returns
    its rows in the order their groups are first seen in. *)

From Stdlib Require Import QArith Qabs Lqa.
From S2P Require Import Prelude Decimal Posting Ledger Instruments Splits.

Local Open Scope Z_scope.

Module Views.
Import Posting Ledger Instruments Splits.

(** [GROUP BY] *)
Definition group_by {A K : Type} `{EqDecision K} (key : A → K) (l : list A) : list (K * list A) :=
  (λ k, (k, filter (λ a, key a = k) l)) <$> remove_dups (key <$> l).

Lemma elem_of_group_by {A K : Type} `{EqDecision K} (key : A → K) (l : list A) k g :
  (k, g) ∈ group_by key l ↔ g = filter (λ a, key a = k) l ∧ ∃ a, a ∈ l ∧ key a = k.
Proof.
  unfold group_by. rewrite list_elem_of_fmap. setoid_rewrite elem_of_remove_dups. setoid_rewrite list_elem_of_fmap. naive_solver.
Qed.

Lemma group_by_keys {A K : Type} `{EqDecision K} (key : A → K) (l : list A) : NoDup (group_by key l).*1.
Proof. unfold group_by. rewrite <- list_fmap_compose, list_fmap_id. apply NoDup_remove_dups. Qed.

(** ** Scope *)

(** A portfolio with its filters, by type and value. *)
Record portfolio := { pf_User : string; pf_Filters : list (string * string) }.

Section views.
Context {D : Type} `{Decimal D}.
Context (name_of : string → option string) (max_text : list string → string).
Implicit Types (m : market D) (t c : row D) (p : portfolio).

(** A filter type with no value is no constraint. *)
Definition allows p (type : string) (v : option string) : bool :=
  negb (existsb (λ f, String.eqb f.1 type) (pf_Filters p))
  || match v with Some v => bool_decide ((type, v) ∈ pf_Filters p) | None => false end.

(** [portfolio_matched_txs]: a portfolio without filters matches nothing. *)
Definition matched p t : bool :=
  String.eqb (r_user t) (pf_User p) && negb (bool_decide (pf_Filters p = []))
  && allows p "broker" (Some (r_broker t)) && allows p "account" (Some (r_account t)) && allows p "instrument" (r_instrument t).

Definition is_clearing t : bool := String.eqb (r_account_type t) "TRANSFER_CLEARING".

(** A stored match names the side a posting is on. *)
Definition on_side t (tm : transfer_match) : bool :=
  bool_decide (r_instrument t = Some (tm_instrument tm)) && (String.eqb (tm_from tm) (r_group t) || String.eqb (tm_to tm) (r_group t)).

Definition other_side t (tm : transfer_match) : string := if String.eqb (tm_from tm) (r_group t) then tm_to tm else tm_from tm.

Definition counterpart t (tm : transfer_match) c : bool :=
  String.eqb (r_group c) (other_side t tm) && is_clearing c && bool_decide (r_instrument c = Some (tm_instrument tm)).

(** [portfolio_in_flight_txs] *)
Definition in_flight p m t : bool :=
  is_clearing t && matched p t &&
  existsb (λ tm, on_side t tm && existsb (λ c, counterpart t tm c && matched p c) (txs (book (shop m))))
    (transfer_matches (book (shop m))).

(** Whether some match names the posting's side. *)
Definition is_matched m t : bool := existsb (on_side t) (transfer_matches (book (shop m))).

(** ** Quantities *)

(** The split_adjusted_quantity column, which starts as the quantity itself. *)
Definition adjusted m t : D :=
  match adjusted_txs m !! r_id t with Some a => adj_quantity a | None => to_column (r_quantity t) end.

(** The column may have been rounded when it was converted. *)
Definition inexact m t : bool := negb (dec_eqb (adjusted m t) (r_quantity t)).

Definition total m (l : list (row D)) : D := dec_sum (adjusted m <$> l).
Definition count_inexact m (l : list (row D)) : Z := Z.of_nat (length (filter (λ t, inexact m t = true) l)).

Definition qty_is_zero (q : D) (inexact_postings : Z) : bool :=
  dec_leb (dec_abs q) (dec_mul (dec_of_int inexact_postings) (dec_new 1 (-12))).

Definition closed m (l : list (row D)) : bool := qty_is_zero (total m l) (count_inexact m l).

(** ** Holdings *)

Record Holding := {
  h_Broker : string; h_Account : string; h_InstrumentDescription : string;
  h_InstrumentID : option string; h_SplitAdjustedQuantity : D }.

Definition holding_key t : string * string * option string := (r_broker t, r_account t, r_instrument t).

Definition holding_of m (g : (string * string * option string) * list (row D)) : option Holding :=
  if closed m g.2 then None else
  Some {| h_Broker := g.1.1.1; h_Account := g.1.1.2; h_InstrumentID := g.1.2;
          h_InstrumentDescription := default (max_text (r_description <$> g.2)) (i ← g.1.2; name_of i);
          h_SplitAdjustedQuantity := total m g.2 |}.

Definition holdings_over m (scope : row D → bool) (asOf : Z) : list Holding :=
  omap (holding_of m) (group_by holding_key
    (filter (λ t, scope t = true ∧ r_account_type t = "USER" ∧ r_order_date t ≤ asOf) (txs (book (shop m))))).

Definition ComputeHoldings m (userID : string) (broker : option string) (account : string) (asOf : Z) : list Holding :=
  holdings_over m (λ t, String.eqb (r_user t) userID
    && match broker with Some b => String.eqb (r_broker t) b | None => true end
    && (String.eqb account EmptyString || String.eqb (r_account t) account)) asOf.

Definition ComputeHoldingsForPortfolio m p (asOf : Z) : list Holding := holdings_over m (matched p) asOf.

(** ** External flows *)

Record ExternalFlow := { ef_Date : Z; ef_InstrumentID : option string; ef_InstrumentDescription : option string; ef_Amount : D }.

Definition in_window (from before : Z) t : bool := (from <=? day_of (r_order_date t)) && (day_of (r_order_date t) <? before).

(** What a posting is of: an instrument, or a text no instrument was found for. *)
Definition commodity_key t : option string * option string :=
  (r_instrument t, match r_instrument t with Some _ => None | None => Some (r_description t) end).

Definition flow_key t : Z * (option string * option string) := (day_of (r_order_date t), commodity_key t).

(** The amount is what entered the scope, so the sign is inverted. *)
Definition flow_of m (g : (Z * (option string * option string)) * list (row D)) : option ExternalFlow :=
  let amount := dec_sum ((λ t, dec_neg (adjusted m t)) <$> g.2) in
  if qty_is_zero amount (count_inexact m g.2) then None
  else Some {| ef_Date := g.1.1; ef_InstrumentID := g.1.2.1; ef_InstrumentDescription := g.1.2.2; ef_Amount := amount |}.

Definition text_cmp (x y : string) : comparison := String.compare x y.

Definition opt_cmp (x y : option string) : comparison :=
  match x, y with Some x, Some y => String.compare x y | Some _, None => Lt | None, Some _ => Gt | None, None => Eq end.

(** By day, then instrument with none last, then text. *)
Definition flow_cmp : ExternalFlow → ExternalFlow → comparison :=
  cmp_on (λ f, (ef_Date f, (ef_InstrumentID f, ef_InstrumentDescription f))) (cmp_lex Z.compare (cmp_lex opt_cmp opt_cmp)).

Definition externalFlowTail m (legs : list (row D)) : list ExternalFlow :=
  go_sort (less_of flow_cmp) (omap (flow_of m) (group_by flow_key legs)).

(** A group a USER posting of the portfolio is in. *)
Definition touched p m (group : string) : bool :=
  existsb (λ t, matched p t && String.eqb (r_account_type t) "USER" && String.eqb (r_group t) group) (txs (book (shop m))).

Definition external_leg p m t : bool :=
  String.eqb (r_account_type t) "EQUITY"
  || String.eqb (r_account_type t) "USER" && negb (matched p t)
  || is_clearing t && negb (in_flight p m t).

Definition GetPortfolioExternalFlows m p (from before : Z) : list ExternalFlow :=
  externalFlowTail m (filter (λ t, touched p m (r_group t) = true ∧ in_window from before t = true ∧ external_leg p m t = true)
    (txs (book (shop m)))).

Definition user_external_leg m t : bool :=
  String.eqb (r_account_type t) "EQUITY" || is_clearing t && negb (is_matched m t).

Definition GetUserExternalFlows m (userID : string) (from before : Z) : list ExternalFlow :=
  externalFlowTail m (filter (λ t, r_user t = userID ∧ in_window from before t = true ∧ user_external_leg m t = true)
    (txs (book (shop m)))).

(** ** What is valued *)

(** The postings of valuation's txSource, but for their date. *)
Definition valued p m t : bool := matched p t && (String.eqb (r_account_type t) "USER" || in_flight p m t).

Definition user_valued (userID : string) m t : bool :=
  String.eqb (r_user t) userID && (String.eqb (r_account_type t) "USER" || is_clearing t && is_matched m t).

(** ** Residual balances *)

Record ResidualBalance := {
  rb_AccountType : string; rb_Broker : string; rb_Account : string; rb_InstrumentID : string;
  rb_Commodity : string; rb_AssetClass : string; rb_ResolvedTxType : string;
  rb_Balance : D; rb_PostingCount : nat; rb_Oldest : Z; rb_Newest : Z }.

Definition balance_key t : string * string * string * option string * string :=
  (r_account_type t, r_broker t, r_account t, r_instrument t, r_resolved t).

Definition residual_leg (from before : option Z) (accountType : string) m t : bool :=
  bool_decide (r_account_type t ∈ ["IMBALANCE"; "TRANSFER_CLEARING"; "SOURCE_ROUNDING"])
  && bool_decide (is_Some (r_instrument t))
  && match from with Some f => f <=? r_order_date t | None => true end
  && match before with Some b => r_order_date t <? b | None => true end
  && (String.eqb accountType EmptyString || String.eqb (r_account_type t) accountType)
  && (negb (is_clearing t) || negb (is_matched m t)).

Definition min_of (z : Z) (l : list Z) : Z := foldr Z.min z l.
Definition max_of (z : Z) (l : list Z) : Z := foldr Z.max z l.

Definition balance_of m (g : (string * string * string * option string * string) * list (row D)) : option ResidualBalance :=
  i ← g.1.1.2; t ← head g.2;
  if closed m g.2 then None else
  Some {| rb_AccountType := g.1.1.1.1.1; rb_Broker := g.1.1.1.1.2; rb_Account := g.1.1.1.2; rb_InstrumentID := i;
          rb_Commodity := default i (name_of i);
          rb_AssetClass := default EmptyString (o ← instruments (shop m) !! i; asset_class o);
          rb_ResolvedTxType := g.1.2; rb_Balance := total m g.2; rb_PostingCount := length g.2;
          rb_Oldest := min_of (r_order_date t) (r_order_date <$> g.2); rb_Newest := max_of (r_order_date t) (r_order_date <$> g.2) |}.

Definition residualBalanceAgg m (from before : option Z) (accountType : string) : list ResidualBalance :=
  omap (balance_of m) (group_by balance_key (filter (λ t, residual_leg from before accountType m t = true) (txs (book (shop m))))).

Definition balance_cmp : ResidualBalance → ResidualBalance → comparison :=
  cmp_on (λ b, (rb_Broker b, (rb_Account b, (rb_Commodity b, rb_ResolvedTxType b))))
    (cmp_lex text_cmp (cmp_lex text_cmp (cmp_lex text_cmp text_cmp))).

Definition ListResidualBalances m (from before : option Z) (accountType : string) : list ResidualBalance :=
  go_sort (less_of balance_cmp) (residualBalanceAgg m from before accountType).

(** The imbalances, and the unmatched sides older than a day. *)
Definition CountResidualBalances m (staleBefore : Z) : nat * nat :=
  let r := residualBalanceAgg m None None EmptyString in
  (length (filter (λ b, rb_AccountType b = "IMBALANCE") r),
   length (filter (λ b, rb_AccountType b = "TRANSFER_CLEARING" ∧ rb_Oldest b < staleBefore) r)).
End views.

Arguments Holding D : clear implicits.
Arguments ExternalFlow D : clear implicits.
Arguments ResidualBalance D : clear implicits.

(** ** What the readers agree on *)

Section laws.
Context {D : Type} `{DecimalLaws D}.
Implicit Types (m : market D) (t c : row D) (p : portfolio).

#[export] Instance qty_is_zero_proper : Proper ((≡@{D}) ==> eq ==> eq) qty_is_zero.
Proof. intros x y E n ? <-. unfold qty_is_zero. by rewrite E. Qed.

(** Without a tolerance the test is for zero. *)
Lemma qty_is_zero_exact (q : D) : qty_is_zero q 0 = true ↔ (dval q == 0)%Q.
Proof.
  unfold qty_is_zero. rewrite dec_leb_le, dval_abs, dval_mul, dval_of_int. split; intros Hq.
  - unfold inject_Z in Hq. rewrite Qmult_0_l in Hq. pose proof (Qabs.Qle_Qabs (dval q)).
    pose proof (Qabs.Qle_Qabs (- dval q)%Q) as Hn. rewrite Qabs.Qabs_opp in Hn. lra.
  - rewrite (Qabs_wd _ _ Hq). unfold inject_Z. rewrite Qmult_0_l. done.
Qed.

(** A match is between two groups. *)
Definition two_sided m : Prop := ∀ tm, tm ∈ transfer_matches (book (shop m)) → tm_from tm ≠ tm_to tm.

Lemma in_flight_true p m t : in_flight p m t = true ↔ is_clearing t = true ∧ matched p t = true ∧
  ∃ tm c, tm ∈ transfer_matches (book (shop m)) ∧ c ∈ txs (book (shop m)) ∧ on_side t tm = true ∧ counterpart t tm c = true ∧ matched p c = true.
Proof.
  unfold in_flight. rewrite !andb_true_iff, existsb_exists. split.
  - intros [[Hc Hm] (tm & Htm & [Hs (c & Hin & [Hcp Hmc]%andb_true_iff)%existsb_exists]%andb_true_iff)].
    split_and!; [done|done|]. exists tm, c. by rewrite !list_elem_of_In.
  - intros (Hc & Hm & tm & c & Htm & Hin & Hs & Hcp & Hmc). split; [done|]. exists tm. split; [by apply list_elem_of_In|].
    apply andb_true_iff. split; [done|]. apply existsb_exists. exists c. split; [by apply list_elem_of_In|]. by rewrite Hcp, Hmc.
Qed.

Lemma on_side_true t tm : on_side t tm = true ↔ r_instrument t = Some (tm_instrument tm) ∧ (tm_from tm = r_group t ∨ tm_to tm = r_group t).
Proof. unfold on_side. by rewrite andb_true_iff, bool_decide_eq_true, orb_true_iff, !String.eqb_eq. Qed.

Lemma counterpart_true t tm c : counterpart t tm c = true ↔ r_group c = other_side t tm ∧ is_clearing c = true ∧ r_instrument c = Some (tm_instrument tm).
Proof. unfold counterpart. rewrite !andb_true_iff, bool_decide_eq_true, String.eqb_eq. naive_solver. Qed.

(** Whichever side is asked, the other one answers. *)
Lemma counterpart_sym t tm c : tm_from tm ≠ tm_to tm → is_clearing t = true → on_side t tm = true → counterpart t tm c = true →
  on_side c tm = true ∧ counterpart c tm t = true.
Proof.
  rewrite !on_side_true, !counterpart_true. unfold other_side. intros Hne Hc [Hi Hg] (Hgc & Hcc & Hic).
  destruct (String.eqb_spec (tm_from tm) (r_group t)) as [E|E].
  - rewrite Hgc. split; [split; [done|by right]|]. destruct (String.eqb_spec (tm_from tm) (tm_to tm)); [done|]. by split_and!.
  - destruct Hg as [|Hg]; [done|]. rewrite Hgc. split; [split; [done|by left]|]. rewrite String.eqb_refl. by split_and!.
Qed.

Lemma in_flight_pair p m t : two_sided m → t ∈ txs (book (shop m)) → in_flight p m t = true →
  ∃ c tm, c ∈ txs (book (shop m)) ∧ tm ∈ transfer_matches (book (shop m)) ∧ on_side t tm = true ∧ counterpart t tm c = true ∧
    in_flight p m c = true.
Proof.
  intros Htwo Ht (Hc & Hm & tm & c & Htm & Hin & Hs & Hcp & Hmc)%in_flight_true. exists c, tm. split_and!; [done..|].
  destruct (counterpart_sym t tm c (Htwo tm Htm) Hc Hs Hcp) as [Hs' Hcp']. apply in_flight_true. split_and!; [|done|].
  - by apply counterpart_true in Hcp as (_ & ? & _).
  - by exists tm, t.
Qed.

(** What is neither valued nor a flow: income, charges, and residuals. *)
Definition other_leg p m t : bool := negb (valued p m t) && negb (external_leg p m t).

Lemma valued_not_external p m t : valued p m t = true → external_leg p m t = false.
Proof.
  unfold valued, external_leg, is_clearing. intros [Hm [->%String.eqb_eq|Hf]%orb_true_iff]%andb_true_iff; [by rewrite Hm|].
  apply in_flight_true in Hf as Hf'. destruct Hf' as (Hc & _). unfold is_clearing in Hc. apply String.eqb_eq in Hc. rewrite Hc, Hf. done.
Qed.

Lemma other_leg_types p m t : other_leg p m t = true ↔ r_account_type t ∉ ["USER"; "TRANSFER_CLEARING"; "EQUITY"].
Proof.
  unfold other_leg, valued, external_leg. rewrite !not_elem_of_cons.
  destruct (String.eqb_spec (r_account_type t) "USER") as [Eu|Eu].
  { rewrite Eu. cbn. destruct (matched p t); cbn; naive_solver. }
  destruct (String.eqb_spec (r_account_type t) "EQUITY") as [Ee|Ee]; [cbn; rewrite andb_false_r; naive_solver|]. cbn.
  destruct (is_clearing t) eqn:Ec.
  - unfold is_clearing in Ec. apply String.eqb_eq in Ec. destruct (in_flight p m t) eqn:Ef; cbn.
    + apply in_flight_true in Ef as (_ & -> & _). cbn. naive_solver.
    + rewrite andb_false_r. naive_solver.
  - assert (in_flight p m t = false) as ->.
    { destruct (in_flight p m t) eqn:Ef; [|done]. apply in_flight_true in Ef as (? & _). congruence. }
    unfold is_clearing in Ec. apply String.eqb_neq in Ec. rewrite andb_false_r. cbn. set_solver.
Qed.

Lemma dec_sum_cons (x : D) l : dec_sum (x :: l) = dec_add x (dec_sum l).
Proof. done. Qed.

Lemma neg_sum (l : list D) : dec_sum (dec_neg <$> l) ≡ dec_neg (dec_sum l).
Proof.
  unfold equiv, dec_equiv. induction l as [|x l IH]; [by rewrite dval_neg, !dec_sum_nil|].
  rewrite fmap_cons, !dec_sum_cons, dval_neg, !dval_add, IH, !dval_neg. ring.
Qed.

Lemma total_cons m t l : total m (t :: l) = dec_add (adjusted m t) (total m l).
Proof. done. Qed.

Lemma total_split m (f : row D → bool) l :
  total m l ≡ dec_add (total m (filter (λ t, f t = true) l)) (total m (filter (λ t, f t = false) l)).
Proof.
  unfold equiv, dec_equiv. rewrite dval_add. induction l as [|t l IH].
  { change (dval (dec_sum (D:=D) []) == dval (dec_sum (D:=D) []) + dval (dec_sum (D:=D) []))%Q. rewrite !dec_sum_nil. ring. }
  rewrite !filter_cons. destruct (f t) eqn:E; repeat case_decide; try congruence; rewrite !total_cons, !dval_add, IH; ring.
Qed.

(** The legs a reported flow sums. *)
Definition flow_legs p m (from before : Z) (k : Z * (option string * option string)) : list (row D) :=
  filter (λ t, flow_key t = k) (filter (λ t, touched p m (r_group t) = true ∧ in_window from before t = true ∧ external_leg p m t = true)
    (txs (book (shop m)))).

Definition key_of (f : ExternalFlow D) : Z * (option string * option string) := (ef_Date f, (ef_InstrumentID f, ef_InstrumentDescription f)).

Lemma elem_of_flows p m from before f : f ∈ GetPortfolioExternalFlows m p from before ↔
  flow_legs p m from before (key_of f) ≠ [] ∧ ef_Amount f = dec_sum ((λ t, dec_neg (adjusted m t)) <$> flow_legs p m from before (key_of f)) ∧
  qty_is_zero (ef_Amount f) (count_inexact m (flow_legs p m from before (key_of f))) = false.
Proof.
  unfold GetPortfolioExternalFlows, externalFlowTail, flow_legs. set (legs := filter _ (txs _)).
  rewrite elem_of_go_sort, list_elem_of_omap. split.
  - intros ([k g] & [Eg (a & Ha & Ek)]%elem_of_group_by & Ef). unfold flow_of in Ef. cbn [fst snd] in Ef.
    destruct (qty_is_zero _ _) eqn:Ez; [done|]. injection Ef as <-.
    assert (key_of {| ef_Date := k.1; ef_InstrumentID := k.2.1; ef_InstrumentDescription := k.2.2;
      ef_Amount := dec_sum ((λ t, dec_neg (adjusted m t)) <$> g) |} = k) as -> by (by destruct k as [? []]).
    rewrite <- Eg. cbn [ef_Amount]. split_and!; [|done|done]. intros En. assert (a ∈ g) as Hin by (rewrite Eg; by apply list_elem_of_filter).
    rewrite En in Hin. by apply elem_of_nil in Hin.
  - intros (Hne & Ea & Ez). exists (key_of f, filter (λ t, flow_key t = key_of f) legs). split.
    + apply elem_of_group_by. split; [done|]. destruct (filter (λ t, flow_key t = key_of f) legs) as [|a g] eqn:Eg; [done|].
      exists a. assert (a ∈ filter (λ t, flow_key t = key_of f) legs) as [? ?]%list_elem_of_filter by (rewrite Eg; left). done.
    + unfold flow_of. cbn [fst snd]. rewrite <- Ea, Ez. by destruct f.
Qed.

Lemma flows_and_rest p m l :
  total m l ≡ dec_sub (dec_add (total m (filter (λ t, valued p m t = true) l)) (total m (filter (λ t, other_leg p m t = true) l)))
    (dec_sum ((λ t, dec_neg (adjusted m t)) <$> filter (λ t, external_leg p m t = true) l)).
Proof.
  rewrite (total_split m (valued p m) l). rewrite (total_split m (external_leg p m) (filter (λ t, valued p m t = false) l)).
  rewrite !list_filter_filter.
  rewrite (list_filter_iff (λ t, external_leg p m t = true ∧ valued p m t = false) (λ t, external_leg p m t = true)).
  2: { intros t. split; [by intros []|]. intros He. split; [done|]. destruct (valued p m t) eqn:Ev; [|done]. apply valued_not_external in Ev. congruence. }
  rewrite (list_filter_iff (λ t, external_leg p m t = false ∧ valued p m t = false) (λ t, other_leg p m t = true)).
  2: { intros t. unfold other_leg. rewrite andb_true_iff, !negb_true_iff. tauto. }
  assert (∀ X : list (row D), (λ t, dec_neg (adjusted m t)) <$> X = dec_neg <$> (adjusted m <$> X)) as Hc by (intros X; by rewrite <- list_fmap_compose).
  rewrite Hc, neg_sum. unfold equiv, dec_equiv. rewrite !dval_add, dval_sub, dval_neg, dval_add.
  fold (total m (filter (λ t, external_leg p m t = true) l)). ring.
Qed.

(** C34: The flows of a portfolio and what it values account for the same postings: a
    USER, clearing or EQUITY posting is one or the other and never both, and nothing
    else is either; a matched pair in flight is valued on both its sides or on neither.
    A flow is reported for a day and commodity exactly when its legs do not cancel, with
    their sum.  So over postings that sum to zero, as those of a balanced set do, the
    flows are what the holdings gained and what income and charges took. *)
Theorem flows_complement_valuation p m l from before : two_sided m → total m l ≡ dec_zero →
  (∀ t, (if valued p m t then true else external_leg p m t) = bool_decide (r_account_type t ∈ ["USER"; "TRANSFER_CLEARING"; "EQUITY"]) ∧
        (valued p m t && external_leg p m t) = false) ∧
  (∀ t, t ∈ txs (book (shop m)) → in_flight p m t = true →
    ∃ c tm, c ∈ txs (book (shop m)) ∧ tm ∈ transfer_matches (book (shop m)) ∧ on_side t tm = true ∧ counterpart t tm c = true ∧ in_flight p m c = true) ∧
  (∀ f, f ∈ GetPortfolioExternalFlows m p from before ↔
    flow_legs p m from before (key_of f) ≠ [] ∧ ef_Amount f = dec_sum ((λ t, dec_neg (adjusted m t)) <$> flow_legs p m from before (key_of f)) ∧
    qty_is_zero (ef_Amount f) (count_inexact m (flow_legs p m from before (key_of f))) = false) ∧
  dec_sum ((λ t, dec_neg (adjusted m t)) <$> filter (λ t, external_leg p m t = true) l) ≡
    dec_add (total m (filter (λ t, valued p m t = true) l)) (total m (filter (λ t, other_leg p m t = true) l)).
Proof.
  intros Htwo Hz. split; [|split; [|split]].
  - intros t. pose proof (valued_not_external p m t) as Hx. pose proof (other_leg_types p m t) as Ho. unfold other_leg in Ho.
    destruct (valued p m t); [rewrite Hx by done|]; (split; [|done || by destruct (external_leg p m t)]).
    + symmetry. apply bool_decide_eq_true. destruct (decide (r_account_type t ∈ ["USER"; "TRANSFER_CLEARING"; "EQUITY"])) as [|Hn]; [done|].
      by apply Ho in Hn.
    + cbn in Ho. destruct (external_leg p m t); cbn in Ho; symmetry.
      * apply bool_decide_eq_true. destruct (decide (r_account_type t ∈ ["USER"; "TRANSFER_CLEARING"; "EQUITY"])) as [|Hn]; [done|]. by apply Ho in Hn.
      * apply bool_decide_eq_false. by apply Ho.
  - intros t Ht Hf. by apply in_flight_pair.
  - intros f. apply elem_of_flows.
  - pose proof (flows_and_rest p m l) as E. rewrite Hz in E. unfold equiv, dec_equiv in *. rewrite dval_sub, dval_zero in E. lra.
Qed.
End laws.

(** ** A transfer *)

Section witnesses.
#[local] Existing Instances QDecimal.q_decimal QDecimal.q_decimal_laws.

(** A posting on a day. *)
Definition posting (n : string) (account type : string) (instrument : option string) (q : Q) (group : string) (day : Z) : row Q := {|
  r_id := n; r_user := "u"; r_broker := "IBKR"; r_account := account; r_order_date := day_start day; r_trade_date := day_start day;
  r_description := n; r_broker_types := []; r_resolved := "TRADE"; r_asset_class := None;
  r_quantity := q; r_trading := None; r_settlement := None; r_unit_price := None; r_settlement_amount := None;
  r_instrument := instrument; r_share_basis := None; r_account_type := type; r_purpose := None;
  r_weight := q; r_commodity := EmptyString; r_group := group; r_correlations := [] |}.

(** Five shares leave account "a" on day 1 and arrive in account "b" on day 4. *)
Definition transfer : list (row Q) :=
  [posting "d" "a" "USER" (Some "aapl") (-5) "g1" 1; posting "dc" "a" "TRANSFER_CLEARING" (Some "aapl") 5 "g1" 1;
   posting "r" "b" "USER" (Some "aapl") 5 "g2" 4; posting "rc" "b" "TRANSFER_CLEARING" (Some "aapl") (-5) "g2" 4].

Definition market_of (l : list (row Q)) (matches : list transfer_match) : market Q := {|
  shop := {| instruments := <["aapl" := stock 1]> ∅; identifiers := []; declared := [];
             book := {| txs := l; tx_groups := ∅; transfer_matches := matches |} |};
  stock_splits := []; eod_prices := ∅; adjusted_txs := ∅; adjusted_prices := ∅; unhandled := [] |}.

Definition paired : list transfer_match :=
  [ {| tm_user := "u"; tm_from := "g1"; tm_to := "g2"; tm_instrument := "aapl"; tm_method := "POINTER" |} ].

Definition account_a : portfolio := {| pf_User := "u"; pf_Filters := [("account", "a")] |}.
Definition both_accounts : portfolio := {| pf_User := "u"; pf_Filters := [("account", "a"); ("account", "b")] |}.

Lemma paired_two_sided : two_sided (market_of transfer paired).
Proof. intros tm ->%list_elem_of_singleton. done. Qed.

(** With both accounts in the portfolio nothing crosses its boundary; with one of them
    the shares leave it. *)
Example transfer_flows :
  let m := market_of transfer paired in
  GetPortfolioExternalFlows m both_accounts 0 10 = [] ∧ (valued both_accounts m <$> transfer) = [true; true; true; true] ∧
  ((λ f, (ef_Date f, ef_InstrumentID f, Qred (ef_Amount f))) <$> GetPortfolioExternalFlows m account_a 0 10) = [(1, Some "aapl", (-5)%Q)] ∧
  GetUserExternalFlows m "u" 0 10 = [] ∧
  length (GetUserExternalFlows (market_of transfer []) "u" 0 10) = 2%nat.
Proof. by vm_compute. Qed.

Lemma flows_complement_valuation_witness :
  let m := market_of transfer paired in
  in_flight both_accounts m (posting "dc" "a" "TRANSFER_CLEARING" (Some "aapl") 5 "g1" 1) = true ∧
  (∃ c, c ∈ transfer ∧ r_account_type c = "TRANSFER_CLEARING" ∧ in_flight both_accounts m c = true) ∧
  (dval (dec_sum ((λ t, dec_neg (adjusted m t)) <$> filter (λ t, external_leg account_a m t = true) (take 2 transfer)))
    == dval (total m (filter (λ t, valued account_a m t = true) (take 2 transfer))))%Q ∧
  (dval (total m (filter (λ t, valued account_a m t = true) (take 2 transfer))) == -5)%Q.
Proof.
  intros m. split; [by vm_compute|]. split; [|split].
  - destruct (flows_complement_valuation both_accounts m [] 0 10 paired_two_sided (reflexivity _)) as (_ & Hp & _).
    destruct (Hp (posting "dc" "a" "TRANSFER_CLEARING" (Some "aapl") 5 "g1" 1)) as (c & tm & Hc & _ & _ & Hcp & Hf); [by right; left|by vm_compute|].
    exists c. split_and!; [done| |done]. apply counterpart_true in Hcp as (_ & Hcl & _). by apply String.eqb_eq in Hcl.
  - destruct (flows_complement_valuation account_a m (take 2 transfer) 0 10 paired_two_sided ltac:(by vm_compute)) as (_ & _ & _ & E).
    etransitivity; [exact E|]. by vm_compute.
  - by vm_compute.
Defined.

(** Two texts no instrument was found for are one holding, under the greater of them. *)
Lemma unidentified_are_one_holding :
  let m := market_of [posting "acme" "a" "USER" None 5 "g1" 1; posting "zeta" "a" "USER" None 7 "g2" 1] [] in
  let holdings := ComputeHoldings (λ _, None) (λ l, default EmptyString (last l)) m "u" None EmptyString (day_start 9) in
  ((λ h, (h_InstrumentDescription h, Qred (h_SplitAdjustedQuantity h))) <$> holdings) = [("zeta", 12%Q)].
Proof. by vm_compute. Qed.
End witnesses.
End Views.
