(* ===== verification/Valuation.v ===== *)
(** * Valuation

    The query of db/postgres/valuation.go, one definition for each of its common table
    expressions: running positions from the postings a scope values, spread over the
    days they hold; closes carried forward over the days without a bar, within a span
    of coverage; and each position converted to the display currency.

    [scope] says which postings are valued ([Views.valued] for a portfolio,
    [Views.user_valued] for a user).  Doubles are a type of their own with the cast, the
    two operations and the sum of the query as parameters, each of which may raise an
    error - a division by zero, an overflow - and so fail the query.  A window is computed
    from the rows of its partition; a list without an order is in the order its rows are
    made. *)

From Stdlib Require Import QArith Lqa.
From S2P Require Import Prelude Decimal DateRange Posting Coverage PriceStore Ledger Instruments Splits Views.

Local Open Scope Z_scope.

Module Valuation.
Import DateRange Posting Ledger Instruments Splits Views.

(** An instrument, or a text no instrument was found for. *)
Definition hkey : Type := option string * option string.

(** [LEFT JOIN] *)
Definition left_join {A B : Type} (on : A → B → bool) (l : list A) (r : list B) : list (A * option B) :=
  l ≫= λ a, match filter (λ b, on a b = true) r with [] => [(a, None)] | bs => (λ b, (a, Some b)) <$> bs end.

(** What a position is worth: nothing that can be said, an error, or an amount. *)
Inductive worth {F : Type} := Unvalued | Fault | Worth (x : F).
#[global] Arguments worth : clear implicits.

Definition raised {F} (o : option F) : worth F := match o with Some x => Worth x | None => Fault end.
Definition amount {F} (v : worth F) : option F := match v with Worth x => Some x | _ => None end.
Definition is_fault {F} (v : worth F) : bool := match v with Fault => true | _ => false end.

Section valuation.
Context {D F : Type} `{Decimal D}.
Context (of_dec : D → option F) (fone fzero : F) (fmul fdiv : F → F → option F) (fsum : list F → option F).
Context (name_of : string → option string).
Context (m : market D) (coverage : list Coverage.row) (scope : row D → bool).
Context (from before : Z) (display : string).

(** ** Positions *)

Definition tx_date (t : row D) : Z := day_of (r_order_date t).

(** [portfolio_txs]: by instrument, text and day. *)
Record tx_day := { td_Instrument : option string; td_Description : string; td_Date : Z; td_Qty : D; td_Inexact : Z }.

Definition scoped_txs : list (row D) := filter (λ t, scope t = true ∧ tx_date t < before) (txs (book (shop m))).

Definition portfolio_txs : list tx_day :=
  (λ g : (option string * string * Z) * list (row D),
    {| td_Instrument := g.1.1.1; td_Description := g.1.1.2; td_Date := g.1.2; td_Qty := total m g.2; td_Inexact := count_inexact m g.2 |})
  <$> group_by (λ t, (r_instrument t, r_description t, tx_date t)) scoped_txs.

(** The text only matters where there is no instrument. *)
Definition td_Key (r : tx_day) : hkey := (td_Instrument r, match td_Instrument r with Some _ => None | None => Some (td_Description r) end).

Record position_day := { pd_Key : hkey; pd_Date : Z; pd_Qty : D; pd_Inexact : Z }.

Definition z_sum (l : list Z) : Z := foldr Z.add 0 l.

Definition merged_txs : list position_day :=
  (λ g : (hkey * Z) * list tx_day,
    {| pd_Key := g.1.1; pd_Date := g.1.2; pd_Qty := dec_sum (td_Qty <$> g.2); pd_Inexact := z_sum (td_Inexact <$> g.2) |})
  <$> group_by (λ r, (td_Key r, td_Date r)) portfolio_txs.

(** The running sum over the rows of the key up to the row's own. *)
Definition cumulative : list position_day :=
  (λ r, let w := filter (λ r', pd_Key r' = pd_Key r ∧ pd_Date r' ≤ pd_Date r) merged_txs in
    {| pd_Key := pd_Key r; pd_Date := pd_Date r; pd_Qty := dec_sum (pd_Qty <$> w); pd_Inexact := z_sum (pd_Inexact <$> w) |})
  <$> merged_txs.

Definition date_series : list Z := seqZ from (before - from).

(** The next day of the key, if it has one. *)
Definition lead (r : position_day) : option Z :=
  head (go_sort Z.ltb (pd_Date <$> filter (λ r', pd_Key r' = pd_Key r ∧ pd_Date r < pd_Date r') cumulative)).

Record holding_span := { hs_Key : hkey; hs_Qty : D; hs_Inexact : Z; hs_From : Z; hs_Before : Z }.

Definition holding_spans : list holding_span :=
  (λ r, {| hs_Key := pd_Key r; hs_Qty := pd_Qty r; hs_Inexact := pd_Inexact r;
           hs_From := Z.max (pd_Date r) from; hs_Before := default before (lead r) |}) <$> cumulative.

Definition daily_holdings : list position_day :=
  holding_spans ≫= λ hs,
    (λ d, {| pd_Key := hs_Key hs; pd_Date := d; pd_Qty := hs_Qty hs; pd_Inexact := hs_Inexact hs |})
    <$> filter (λ d, hs_From hs ≤ d ∧ d < hs_Before hs) date_series.

(** ** Prices *)

Definition held_instruments : list string := remove_dups (omap (λ r, (pd_Key r).1) cumulative).

Definition names_pair (v : string) (r : identifier) : bool :=
  String.eqb (ref_Type (ii_Ref (naming r))) "FX_PAIR" && String.eqb (ref_Value (ii_Ref (naming r))) v
  && bool_decide (ii_ValidBefore (naming r) = None).

(** The instruments that name the rate of a currency against the dollar. *)
Definition pair_holders (currency : string) : list string :=
  holder <$> filter (λ r, names_pair (currency +:+ "USD") r = true) (identifiers (shop m)).

Definition currency_of (id : string) : option string := o ← instruments (shop m) !! id; i_currency o.

Definition fx_instruments : list (string * string) :=
  remove_dups (held_instruments ≫= λ id,
    match currency_of id with
    | Some c => if String.eqb c "USD" then [] else pair c <$> pair_holders c
    | None => []
    end).

Definition display_fx_instrument : list string := if String.eqb display "USD" then [] else pair_holders display.

Definition price_instruments : list string := remove_dups (held_instruments ++ fx_instruments.*2 ++ display_fx_instrument).

Definition spans (id : string) : list DateRange := Coverage.merged_price_coverage coverage id.

(** A day of the window within a span, which is known by its first day. *)
Record grid_day := { gd_Instrument : string; gd_Date : Z; gd_Span : Z }.

Definition covered_grid : list grid_day :=
  price_instruments ≫= λ id, spans id ≫= λ s,
    (λ d, {| gd_Instrument := id; gd_Date := d; gd_Span := From s |}) <$> filter (λ d, From s ≤ d ∧ d < Before s) date_series.

Definition close_on (id : string) (d : Z) : option D := PriceStore.Close <$> (PriceStore.st_bar <$> eod_prices m !! (id, d)).

(** The split_adjusted_close column, which starts as the close itself. *)
Definition adjusted_close_on (id : string) (d : Z) : option D :=
  c ← close_on id d; Some match adjusted_prices m !! (id, d) with Some b => adj_close b | None => to_column c end.

Definition bar_days (id : string) : list Z := (filter (λ k, k.1 = id) (elements (dom (eod_prices m)))).*2.

(** The last day with a bar in a range. *)
Definition last_bar (id : string) (lo hi : Z) : option Z :=
  head (go_sort (λ a b, b <? a) (filter (λ d, lo ≤ d ∧ d < hi) (bar_days id))).

Record price_point := { pp_Instrument : string; pp_Span : Z; pp_Date : Z; pp_Close : option D; pp_Adjusted : option D }.

(** One before the window for each span that has a bar there. *)
Definition span_seeds : list price_point :=
  omap (λ g : string * Z,
    d ← last_bar g.1 g.2 from;
    Some {| pp_Instrument := g.1; pp_Span := g.2; pp_Date := from - 1; pp_Close := close_on g.1 d; pp_Adjusted := adjusted_close_on g.1 d |})
  (remove_dups ((λ g, (gd_Instrument g, gd_Span g)) <$> covered_grid)).

Definition price_points : list price_point :=
  span_seeds ++ ((λ g, {| pp_Instrument := gd_Instrument g; pp_Span := gd_Span g; pp_Date := gd_Date g;
    pp_Close := close_on (gd_Instrument g) (gd_Date g); pp_Adjusted := adjusted_close_on (gd_Instrument g) (gd_Date g) |}) <$> covered_grid).

(** How many closes the partition has up to a point. *)
Definition island (p : price_point) : nat :=
  length (filter (λ q, pp_Instrument q = pp_Instrument p ∧ pp_Span q = pp_Span p ∧ pp_Date q ≤ pp_Date p ∧ is_Some (pp_Close q)) price_points).

Definition same_island (p q : price_point) : Prop :=
  pp_Instrument q = pp_Instrument p ∧ pp_Span q = pp_Span p ∧ island q = island p.

#[local] Instance same_island_dec p q : Decision (same_island p q).
Proof. apply _. Defined.

(** The closes of the first point of the island are spread over it. *)
Definition filled_prices : list price_point :=
  (λ p, let first := head (go_sort (λ a b, pp_Date a <? pp_Date b) (filter (λ q, same_island p q) price_points)) in
    {| pp_Instrument := pp_Instrument p; pp_Span := pp_Span p; pp_Date := pp_Date p;
       pp_Close := q ← first; pp_Close q; pp_Adjusted := q ← first; pp_Adjusted q |}) <$> price_points.

Definition prices : list (string * Z * D) :=
  omap (λ p, c ← pp_Adjusted p; if from <=? pp_Date p then Some (pp_Instrument p, pp_Date p, c) else None) filled_prices.

Definition rates_of (id : string) : list (Z * D) :=
  omap (λ p, c ← pp_Close p; if from <=? pp_Date p then Some (pp_Date p, c) else None) (filter (λ p, pp_Instrument p = id) filled_prices).

Definition fx_rates : list (string * Z * D) := fx_instruments ≫= λ fi, (λ r, (fi.1, r.1, r.2)) <$> rates_of fi.2.

Definition display_fx_rate : list (Z * D) := display_fx_instrument ≫= rates_of.

(** ** Values *)

Definition is_cash (o : option (instrument D)) : bool := bool_decide ((o ≫= asset_class) = Some "CASH").

(** [converted_value]; the casts and the operations of a branch are made when it is taken. *)
Definition converted (identified : bool) (o : option (instrument D)) (qty : D) (close fr dfr : option D) : worth F :=
  let currency := o ≫= i_currency in
  let at_home := String.eqb (default display currency) display in
  let by_rate (x : option F) : worth F :=
    if String.eqb display "USD" then
      match fr with Some r => raised (x ← x; r ← of_dec r; fmul x r) | None => Unvalued end
    else match dfr with
      | None => Unvalued
      | Some d =>
          if String.eqb (default "USD" currency) "USD" || bool_decide (is_Some fr) then
            raised (x ← x; f ← match fr with Some r => of_dec r | None => Some fone end; y ← fmul x f; d ← of_dec d; fdiv y d)
          else Unvalued
      end in
  if negb identified then Unvalued
  else if is_cash o && at_home then raised (of_dec qty)
  else if is_cash o then by_rate (of_dec qty)
  else match close with
       | None => Unvalued
       | Some c => let x := q ← of_dec qty; c ← of_dec c; fmul q c in if at_home then raised x else by_rate x
       end.

Definition fx_missing (identified : bool) (o : option (instrument D)) (close fr dfr : option D) : bool :=
  let currency := o ≫= i_currency in
  identified && (bool_decide (is_Some close) || is_cash o) && negb (String.eqb (default display currency) display)
  && (String.eqb display "USD" && bool_decide (fr = None)
      || negb (String.eqb display "USD")
         && (bool_decide (dfr = None) || bool_decide (fr = None) && negb (String.eqb (default "USD" currency) "USD"))).

Record valued_row := {
  vr_Date : Z; vr_Key : hkey; vr_Name : option string; vr_Cash : bool; vr_Qty : D; vr_Close : option D;
  vr_Value : worth F; vr_FxMissing : bool }.

(** The columns of a holding and what was joined to it. *)
Definition value_row (k : hkey) (d : Z) (qty : D) (close fr dfr : option D) : valued_row :=
  let identified := bool_decide (is_Some k.1) in
  let o := id ← k.1; instruments (shop m) !! id in
  {| vr_Date := d; vr_Key := k; vr_Name := id ← k.1; name_of id; vr_Cash := is_cash o; vr_Qty := qty; vr_Close := close;
     vr_Value := converted identified o qty close fr dfr; vr_FxMissing := fx_missing identified o close fr dfr |}.

Definition on_price (h : position_day) (p : string * Z * D) : bool := bool_decide ((pd_Key h).1 = Some p.1.1) && (p.1.2 =? pd_Date h).
Definition on_rate (h : position_day) (r : string * Z * D) : bool :=
  bool_decide (((pd_Key h).1 ≫= currency_of) = Some r.1.1) && (r.1.2 =? pd_Date h).
Definition on_display (h : position_day) (r : Z * D) : bool := r.1 =? pd_Date h.

(** The holdings that are not closed, with their prices and rates. *)
Definition valued_rows : list valued_row :=
  let open := filter (λ h, qty_is_zero (pd_Qty h) (pd_Inexact h) = false) daily_holdings in
  (λ x, value_row (pd_Key x.1.1.1) (pd_Date x.1.1.1) (pd_Qty x.1.1.1) (snd <$> x.1.1.2) (snd <$> x.1.2) (snd <$> x.2))
  <$> left_join (λ x, on_display x.1.1)
        (left_join (λ x, on_rate x.1) (left_join on_price open prices) fx_rates) display_fx_rate.

(** ** Points *)

Record ValuationPoint := { vp_Date : Z; vp_TotalValue : F; vp_UnpricedInstruments : list string }.

Definition row_text (r : valued_row) : option string := match vr_Name r with Some n => Some n | None => (vr_Key r).2 end.

(** The three aggregates of texts, one after the other. *)
Definition unpriced_texts (rows : list valued_row) : list (option string) :=
  let agg (P : valued_row → bool) := remove_dups (row_text <$> filter (λ r, P r = true) rows) in
  agg (λ r, bool_decide (is_Some (vr_Key r).1) && bool_decide (vr_Close r = None) && negb (vr_Cash r))
  ++ agg (λ r, bool_decide ((vr_Key r).1 = None)) ++ agg vr_FxMissing.

Definition filterEmpty (l : list string) : list string := filter (λ s, s ≠ EmptyString) l.

(** A text that is NULL cannot be scanned into a string. *)
Definition point_of (g : Z * list valued_row) : option ValuationPoint :=
  total ← (if existsb (is_fault ∘ vr_Value) g.2 then None
           else match omap (amount ∘ vr_Value) g.2 with [] => Some fzero | l => fsum l end);
  texts ← mapM id (unpriced_texts g.2);
  Some {| vp_Date := g.1; vp_UnpricedInstruments := filterEmpty texts; vp_TotalValue := total |}.

Definition queryValuation : option (list ValuationPoint) :=
  mapM point_of (go_sort (λ a b, a.1 <? b.1) (group_by vr_Date valued_rows)).
End valuation.

(** The valuation of a portfolio and of all of a user's postings; the ids are taken parsed. *)
Definition GetPortfolioValuation {D F : Type} `{Decimal D} (of_dec : D → option F) fone fzero fmul fdiv fsum name_of (m : market D) coverage (p : portfolio) :=
  queryValuation of_dec fone fzero fmul fdiv fsum name_of m coverage (valued p m).

Definition GetUserValuation {D F : Type} `{Decimal D} (of_dec : D → option F) fone fzero fmul fdiv fsum name_of (m : market D) coverage (userID : string) :=
  queryValuation of_dec fone fzero fmul fdiv fsum name_of m coverage (user_valued userID m).

Arguments position_day D : clear implicits.
Arguments price_point D : clear implicits.
Arguments valued_row D F : clear implicits.

(** ** Grouping again *)

Lemma filter_fmap_comm {A B : Type} (f : A → B) (P : B → Prop) `{∀ b, Decision (P b)} (l : list A) :
  filter P (f <$> l) = f <$> filter (λ a, P (f a)) l.
Proof. induction l as [|a l IH]; [done|]. rewrite fmap_cons, !filter_cons. destruct (decide (P (f a))); by rewrite IH. Qed.

Lemma filter_disjoint {A : Type} (P Q : A → Prop) `{∀ a, Decision (P a), ∀ a, Decision (Q a)} (l : list A) : (∀ a, P a → ¬ Q a) →
  filter P l ++ filter Q l ≡ₚ filter (λ a, P a ∨ Q a) l.
Proof.
  intros Hd. induction l as [|a l IH]; [done|]. rewrite !filter_cons.
  destruct (decide (P a)) as [Hp|Hp], (decide (Q a)) as [Hq|Hq], (decide (P a ∨ Q a)); try (exfalso; naive_solver).
  - cbn. by rewrite IH.
  - rewrite <- Permutation_middle. by rewrite IH.
  - exact IH.
Qed.

(** Rows taken cell by cell are the rows of the cells. *)
Lemma bind_cells {A K : Type} `{EqDecision K} (key : A → K) (l : list A) (ks : list K) : NoDup ks →
  (ks ≫= λ k, filter (λ a, key a = k) l) ≡ₚ filter (λ a, key a ∈ ks) l.
Proof.
  induction ks as [|k ks IH]; intros Hnd.
  - apply reflexive_eq. symmetry. apply elem_of_nil_inv. by intros a [?%elem_of_nil _]%list_elem_of_filter.
  - apply NoDup_cons in Hnd as [Hk Hnd]. rewrite bind_cons, IH by done. rewrite filter_disjoint by (intros a <-; done).
    apply reflexive_eq, list_filter_iff. intros a. by rewrite elem_of_cons.
Qed.

(** The least and the greatest of a list by a number. *)
Lemma head_least {A : Type} (f : A → Z) (l : list A) :
  match head (go_sort (λ a b, f a <? f b) l) with Some x => x ∈ l ∧ ∀ y, y ∈ l → f x ≤ f y | None => l = [] end.
Proof.
  assert (∀ x y : A, (f x <? f y) = less_of (cmp_on f Z.compare) x y) as Hc by done.
  destruct (head _) as [x|] eqn:Eh; [|by apply (head_go_sort_None _) in Eh].
  assert (∀ y, y ∈ l → x ∈ l ∧ f x ≤ f y) as Hl.
  { intros y Hy. destruct (head_go_sort_least _ _ Hc l x y Eh Hy) as [? Hle]. split; [done|]. unfold cmp_on in Hle. by apply Z.compare_le_iff. }
  split; [|intros y Hy; by apply Hl]. destruct l as [|y l]; [done|]. by apply (Hl y ltac:(left)).
Qed.

Lemma head_greatest (l : list Z) :
  match head (go_sort (λ a b, b <? a) l) with Some x => x ∈ l ∧ ∀ y, y ∈ l → y ≤ x | None => l = [] end.
Proof.
  assert (∀ x y : Z, (y <? x) = less_of (cmp_on Z.opp Z.compare) x y) as Hc.
  { intros x y. unfold less_of, cmp_on. rewrite Z.compare_opp. unfold Z.ltb. by destruct (y ?= x). }
  destruct (head _) as [x|] eqn:Eh; [|by apply (head_go_sort_None _) in Eh].
  assert (∀ y, y ∈ l → x ∈ l ∧ y ≤ x) as Hl.
  { intros y Hy. destruct (head_go_sort_least _ _ Hc l x y Eh Hy) as [? Hle]. split; [done|]. assert (- x ≤ - y) as Hle' by exact Hle. lia. }
  split; [|intros y Hy; by apply Hl]. destruct l as [|y l]; [done|]. by apply (Hl y ltac:(left)).
Qed.

Section positions.
Context {D : Type} `{DecimalLaws D}.
Context (m : market D) (scope : row D → bool) (from before : Z).

Lemma total_app l k : total m (l ++ k) ≡ dec_add (total m l) (total m k).
Proof. unfold total. rewrite fmap_app. unfold equiv, dec_equiv. by rewrite dval_add, dec_sum_app. Qed.

Lemma total_perm l k : l ≡ₚ k → total m l ≡ total m k.
Proof. intros E. unfold total. by apply dec_sum_perm, fmap_Permutation. Qed.

Lemma count_perm l k : l ≡ₚ k → count_inexact m l = count_inexact m k.
Proof. intros E. unfold count_inexact. by rewrite E. Qed.

(** Sums of sums. *)
Lemma total_bind {A : Type} (f : A → D) (L : A → list (row D)) l : (∀ a, a ∈ l → f a ≡ total m (L a)) → dec_sum (f <$> l) ≡ total m (l ≫= L).
Proof.
  induction l as [|a l IH]; intros Hf; [reflexivity|]. rewrite bind_cons, total_app, fmap_cons, dec_sum_cons.
  rewrite <- IH by (intros; apply Hf; by right). by rewrite (Hf a) by left.
Qed.

Lemma count_bind {A : Type} (f : A → Z) (L : A → list (row D)) l : (∀ a, a ∈ l → f a = count_inexact m (L a)) →
  z_sum (f <$> l) = count_inexact m (l ≫= L).
Proof.
  induction l as [|a l IH]; intros Hf; [done|]. rewrite bind_cons. unfold count_inexact in *. rewrite filter_app, length_app, Nat2Z.inj_add.
  cbn [fmap list_fmap z_sum foldr]. fold (z_sum (f <$> l)). rewrite IH by (intros; apply Hf; by right). by rewrite (Hf a) by left.
Qed.

Definition cell_key (t : row D) : hkey * Z := (commodity_key t, tx_date t).

(** The postings of one key and day. *)
Definition cell (k : hkey * Z) : list (row D) := filter (λ t, cell_key t = k) (scoped_txs m scope before).

Definition day_key (t : row D) : option string * string * Z := (r_instrument t, r_description t, tx_date t).

Definition fine_key (k : option string * string * Z) : hkey * Z :=
  ((k.1.1, match k.1.1 with Some _ => None | None => Some k.1.2 end), k.2).

Lemma fine_key_of t : fine_key (day_key t) = cell_key t.
Proof. done. Qed.

Lemma portfolio_cells k : let l := scoped_txs m scope before in
  filter (λ r, (td_Key r, td_Date r) = k) (portfolio_txs m scope before) =
  (λ k', {| td_Instrument := k'.1.1; td_Description := k'.1.2; td_Date := k'.2; td_Qty := total m (filter (λ t, day_key t = k') l);
            td_Inexact := count_inexact m (filter (λ t, day_key t = k') l) |}) <$> filter (λ k', fine_key k' = k) (remove_dups (day_key <$> l)).
Proof.
  intros l. unfold portfolio_txs, group_by. fold l. rewrite <- list_fmap_compose, filter_fmap_comm. by apply list_fmap_ext.
Qed.

Lemma fine_cells k : let l := scoped_txs m scope before in
  (filter (λ k', fine_key k' = k) (remove_dups (day_key <$> l)) ≫= λ k', filter (λ t, day_key t = k') l) ≡ₚ cell k.
Proof.
  intros l. rewrite bind_cells by (apply NoDup_filter, NoDup_remove_dups). unfold cell. fold l. apply reflexive_eq, filter_ext_in.
  intros t Ht. rewrite list_elem_of_filter, fine_key_of, elem_of_remove_dups. split; [by intros []|]. intros E. split; [done|]. by apply list_elem_of_fmap_2.
Qed.

(** One row for each key and day with a posting, with their sums. *)
Lemma elem_of_merged r : r ∈ merged_txs m scope before → pd_Qty r ≡ total m (cell (pd_Key r, pd_Date r)) ∧
  pd_Inexact r = count_inexact m (cell (pd_Key r, pd_Date r)) ∧ cell (pd_Key r, pd_Date r) ≠ [].
Proof.
  intros ([[k d] g] & -> & [Eg (r0 & Hr0 & Er0)]%elem_of_group_by)%list_elem_of_fmap. cbn [pd_Qty pd_Inexact pd_Key pd_Date fst snd].
  rewrite portfolio_cells in Eg. split_and!.
  - rewrite Eg, <- list_fmap_compose. etransitivity; [apply (total_bind _ (λ k', filter (λ t, day_key t = k') (scoped_txs m scope before)))|].
    { intros k' _. reflexivity. }
    apply total_perm, fine_cells.
  - rewrite Eg, <- list_fmap_compose. rewrite (count_bind _ (λ k', filter (λ t, day_key t = k') (scoped_txs m scope before))) by done.
    apply count_perm, fine_cells.
  - assert (r0 ∈ filter (λ r, (td_Key r, td_Date r) = (k, d)) (portfolio_txs m scope before)) as Hin by (by apply list_elem_of_filter).
    rewrite portfolio_cells in Hin. apply list_elem_of_fmap in Hin as (k' & _ & [Ek Hk]%list_elem_of_filter).
    rewrite elem_of_remove_dups in Hk. apply list_elem_of_fmap in Hk as (t & -> & Ht). intros En.
    assert (t ∈ cell (k, d)) as Hc by (by apply list_elem_of_filter). rewrite En in Hc. by apply elem_of_nil in Hc.
Qed.

Lemma merged_keys : NoDup ((λ r, (pd_Key r, pd_Date r)) <$> merged_txs m scope before) ∧
  ∀ t, t ∈ scoped_txs m scope before → cell_key t ∈ (λ r, (pd_Key r, pd_Date r)) <$> merged_txs m scope before.
Proof.
  assert ((λ r, (pd_Key r, pd_Date r)) <$> merged_txs m scope before = remove_dups ((λ r, (td_Key r, td_Date r)) <$> portfolio_txs m scope before)) as ->.
  { unfold merged_txs, group_by. rewrite <- !list_fmap_compose. rewrite <- (list_fmap_id (remove_dups _)) at 2. apply list_fmap_ext. by intros _ [k d] _. }
  split; [apply NoDup_remove_dups|]. intros t Ht. rewrite elem_of_remove_dups. unfold portfolio_txs, group_by. rewrite <- !list_fmap_compose.
  apply list_elem_of_fmap. exists (day_key t). split; [done|]. rewrite elem_of_remove_dups. by apply list_elem_of_fmap_2.
Qed.

Implicit Types (r h : position_day D).

(** The postings of a key up to a day. *)
Definition up_to (k : hkey) (d : Z) : list (row D) := filter (λ t, commodity_key t = k ∧ tx_date t ≤ d) (scoped_txs m scope before).

Lemma elem_of_up_to k d t : t ∈ up_to k d ↔ t ∈ scoped_txs m scope before ∧ commodity_key t = k ∧ tx_date t ≤ d.
Proof. unfold up_to. rewrite list_elem_of_filter. tauto. Qed.

Lemma running_cells r : let w := filter (λ r', pd_Key r' = pd_Key r ∧ pd_Date r' ≤ pd_Date r) (merged_txs m scope before) in
  (w ≫= λ r', cell (pd_Key r', pd_Date r')) ≡ₚ up_to (pd_Key r) (pd_Date r).
Proof.
  intros w. rewrite <- (bind_fmap (λ r', (pd_Key r', pd_Date r')) cell). unfold cell. rewrite bind_cells.
  - apply reflexive_eq, filter_ext_in. intros t Ht. rewrite list_elem_of_fmap. unfold cell_key. split.
    + intros (r' & [= -> ->] & [Hk _]%list_elem_of_filter). done.
    + intros [Hk Hd]. destruct merged_keys as [_ Hall]. specialize (Hall t Ht). apply list_elem_of_fmap in Hall as (r' & Er & Hr).
      exists r'. split; [done|]. apply list_elem_of_filter. unfold cell_key in Er. injection Er as E1 E2. split; [|done]. split; congruence.
  - destruct merged_keys as [Hnd _]. eapply sublist_NoDup; [exact Hnd|]. apply fmap_sublist, sublist_filter.
Qed.

Lemma cumulative_keys : (λ r, (pd_Key r, pd_Date r)) <$> cumulative m scope before = (λ r, (pd_Key r, pd_Date r)) <$> merged_txs m scope before.
Proof. unfold cumulative. by rewrite <- list_fmap_compose. Qed.

Lemma cumulative_days t : t ∈ scoped_txs m scope before → ∃ r, r ∈ cumulative m scope before ∧ pd_Key r = commodity_key t ∧ pd_Date r = tx_date t.
Proof.
  intros Ht. destruct merged_keys as [_ Hall]. specialize (Hall t Ht). rewrite <- cumulative_keys in Hall.
  apply list_elem_of_fmap in Hall as (r & [= -> ->] & Hr). by exists r.
Qed.

(** Each running position is the sum of the postings so far. *)
Lemma elem_of_cumulative r : r ∈ cumulative m scope before →
  pd_Qty r ≡ total m (up_to (pd_Key r) (pd_Date r)) ∧ pd_Inexact r = count_inexact m (up_to (pd_Key r) (pd_Date r)) ∧
  ∃ t, t ∈ scoped_txs m scope before ∧ commodity_key t = pd_Key r ∧ tx_date t = pd_Date r.
Proof.
  intros (r0 & -> & Hr0)%list_elem_of_fmap. cbn [pd_Key pd_Date pd_Qty pd_Inexact]. pose proof (running_cells r0) as Hp. cbn zeta in Hp.
  set (w := filter _ (merged_txs m scope before)) in *. assert (∀ r', r' ∈ w → r' ∈ merged_txs m scope before) as Hw by by intros r' [_ ?]%list_elem_of_filter.
  split_and!.
  - etransitivity; [apply (total_bind _ (λ r', cell (pd_Key r', pd_Date r')))|by apply total_perm].
    intros r' Hr'. by apply elem_of_merged, Hw.
  - rewrite (count_bind _ (λ r', cell (pd_Key r', pd_Date r'))); [by apply count_perm|]. intros r' Hr'. by apply elem_of_merged, Hw.
  - destruct (elem_of_merged r0 Hr0) as (_ & _ & Hne). destruct (cell (pd_Key r0, pd_Date r0)) as [|t l] eqn:Ec; [done|].
    assert (t ∈ cell (pd_Key r0, pd_Date r0)) as [Ek Ht]%list_elem_of_filter by (rewrite Ec; left). injection Ek as E1 E2. by exists t.
Qed.

(** ** The days a position holds *)

Lemma lead_spec r : match lead m scope before r with
  | Some z => pd_Date r < z ∧ (∃ r', r' ∈ cumulative m scope before ∧ pd_Key r' = pd_Key r ∧ pd_Date r' = z) ∧
      ∀ r', r' ∈ cumulative m scope before → pd_Key r' = pd_Key r → pd_Date r < pd_Date r' → z ≤ pd_Date r'
  | None => ∀ r', r' ∈ cumulative m scope before → pd_Key r' = pd_Key r → pd_Date r' ≤ pd_Date r
  end.
Proof.
  unfold lead. set (l := filter _ (cumulative m scope before)).
  assert (∀ r', r' ∈ cumulative m scope before → pd_Key r' = pd_Key r → pd_Date r < pd_Date r' → pd_Date r' ∈ pd_Date <$> l) as Hin.
  { intros r' ???. apply list_elem_of_fmap_2, list_elem_of_filter. by split. }
  pose proof (head_least id (pd_Date <$> l)) as Hh. cbn in Hh. change (go_sort (λ a b, a <? b) (pd_Date <$> l)) with (go_sort Z.ltb (pd_Date <$> l)) in Hh.
  destruct (head _) as [z|].
  - destruct Hh as [Hz Hle]. apply list_elem_of_fmap in Hz as (r' & -> & [[? ?] ?]%list_elem_of_filter).
    split_and!; [done|by exists r'|intros r1 ???; by apply Hle, Hin].
  - intros r' Hr' Hk. destruct (Z.le_gt_cases (pd_Date r') (pd_Date r)) as [|Hgt]; [done|].
    specialize (Hin r' Hr' Hk ltac:(lia)). rewrite Hh in Hin. by apply elem_of_nil in Hin.
Qed.

(** A running position covers a day exactly when it is the last one up to it. *)
Definition last_up_to (r : position_day D) (d : Z) : Prop :=
  pd_Date r ≤ d ∧ ∀ r', r' ∈ cumulative m scope before → pd_Key r' = pd_Key r → pd_Date r' ≤ d → pd_Date r' ≤ pd_Date r.

Lemma span_covers r d : from ≤ d < before → Z.max (pd_Date r) from ≤ d ∧ d < default before (lead m scope before r) ↔ last_up_to r d.
Proof.
  intros Hd. pose proof (lead_spec r) as Hl. unfold last_up_to. destruct (lead m scope before r) as [z|]; cbn [default from_option id].
  - destruct Hl as (Hz & (r1 & Hr1 & Hk1 & <-) & Hall). split.
    + intros [??]. split; [lia|]. intros r' Hr' Hk Hle. destruct (Z.le_gt_cases (pd_Date r') (pd_Date r)); [done|].
      specialize (Hall r' Hr' Hk ltac:(lia)). lia.
    + intros [? Hlast]. split; [lia|]. destruct (Z.lt_ge_cases d (pd_Date r1)); [done|]. specialize (Hlast r1 Hr1 Hk1 ltac:(lia)). lia.
  - split; [intros [? ?]; split; [lia|auto]|]. intros [? _]. lia.
Qed.

Lemma up_to_last r d : r ∈ cumulative m scope before → last_up_to r d → up_to (pd_Key r) d = up_to (pd_Key r) (pd_Date r).
Proof.
  intros Hr [Hle Hlast]. apply filter_ext_in. intros t Ht. split; intros [Hk Hd]; (split; [done|]); [|lia].
  destruct (cumulative_days t Ht) as (r' & Hr' & Hk' & Hd'). rewrite <- Hd'. apply Hlast; [done|congruence|lia].
Qed.

Lemma elem_of_daily h : h ∈ daily_holdings m scope from before ↔ ∃ r, r ∈ cumulative m scope before ∧
  h = {| pd_Key := pd_Key r; pd_Date := pd_Date h; pd_Qty := pd_Qty r; pd_Inexact := pd_Inexact r |} ∧
  from ≤ pd_Date h < before ∧ last_up_to r (pd_Date h).
Proof.
  unfold daily_holdings, holding_spans. rewrite bind_fmap, elem_of_bind. unfold compose. cbn [hs_Key hs_Qty hs_Inexact hs_From hs_Before].
  split.
  - intros (r & (d & -> & [Hd Hs%elem_of_seqZ]%list_elem_of_filter)%list_elem_of_fmap & Hr). exists r. cbn [pd_Date].
    split_and!; [done|done|lia|lia|]. apply span_covers; [lia|done].
  - intros (r & Hr & -> & Hd & Hl). exists r. cbn [pd_Date] in *. split; [|done]. apply list_elem_of_fmap. exists (pd_Date h). split; [done|].
    apply list_elem_of_filter. split; [by apply span_covers|]. apply elem_of_seqZ. lia.
Qed.

(** The day grid: the position at the end of each day, once anything was posted. *)
Lemma daily_sound h : h ∈ daily_holdings m scope from before →
  from ≤ pd_Date h < before ∧ up_to (pd_Key h) (pd_Date h) ≠ [] ∧
  pd_Qty h ≡ total m (up_to (pd_Key h) (pd_Date h)) ∧ pd_Inexact h = count_inexact m (up_to (pd_Key h) (pd_Date h)).
Proof.
  intros (r & Hr & Eh & Hd & Hl)%elem_of_daily. destruct (elem_of_cumulative r Hr) as (Hq & Hi & t & Ht & Hk & Htd).
  assert (pd_Key h = pd_Key r ∧ pd_Qty h = pd_Qty r ∧ pd_Inexact h = pd_Inexact r) as (-> & -> & ->) by by rewrite Eh.
  rewrite (up_to_last r (pd_Date h) Hr Hl). split_and!; [lia|lia| |done|done].
  intros En. assert (t ∈ up_to (pd_Key r) (pd_Date r)) as Hin by (apply elem_of_up_to; split_and!; [done|done|lia]).
  rewrite En in Hin. by apply elem_of_nil in Hin.
Qed.

Lemma daily_complete k d : from ≤ d < before → up_to k d ≠ [] → ∃ h, h ∈ daily_holdings m scope from before ∧ pd_Key h = k ∧ pd_Date h = d.
Proof.
  intros Hd Hne. set (days := filter (λ r, pd_Key r = k ∧ pd_Date r ≤ d) (cumulative m scope before)).
  pose proof (head_least (λ r, - pd_Date r) days) as Hh. destruct (head _) as [r|].
  - destruct Hh as [[[Hk Hle] Hr]%list_elem_of_filter Hmax]. exists {| pd_Key := k; pd_Date := d; pd_Qty := pd_Qty r; pd_Inexact := pd_Inexact r |}.
    split; [|done]. apply elem_of_daily. exists r. cbn [pd_Date]. rewrite Hk. split_and!; [done|done|lia|lia|split; [done|]].
    intros r' Hr' Hk' Hle'. assert (r' ∈ days) as Hin by (apply list_elem_of_filter; split; [split; [congruence|done]|done]). specialize (Hmax r' Hin). lia.
  - exfalso. destruct (up_to k d) as [|t l] eqn:E; [done|]. assert (t ∈ up_to k d) as Ht by (rewrite E; left).
    apply elem_of_up_to in Ht as (Ht & Hk & Htd). destruct (cumulative_days t Ht) as (r & Hr & Hkr & Hdr).
    assert (r ∈ days) as Hin by (apply list_elem_of_filter; split; [split; [congruence|lia]|done]). rewrite Hh in Hin. by apply elem_of_nil in Hin.
Qed.

Lemma last_unique r r' d : r ∈ cumulative m scope before → r' ∈ cumulative m scope before → pd_Key r = pd_Key r' →
  last_up_to r d → last_up_to r' d → r = r'.
Proof.
  intros Hr Hr' Hk [Hd Hl] [Hd' Hl']. assert (pd_Date r = pd_Date r') as Ed.
  { apply Z.le_antisymm; [by apply Hl'|by apply Hl]. }
  eapply (NoDup_fmap_inj_in (λ r, (pd_Key r, pd_Date r))); [rewrite cumulative_keys; apply merged_keys|done|done|]. by rewrite Hk, Ed.
Qed.

Lemma daily_unique : NoDup ((λ h, (pd_Key h, pd_Date h)) <$> daily_holdings m scope from before).
Proof.
  unfold daily_holdings, holding_spans. rewrite bind_fmap. unfold compose. cbn [hs_Key hs_Qty hs_Inexact hs_From hs_Before].
  assert (∀ l, l `sublist_of` cumulative m scope before → NoDup ((λ h, (pd_Key h, pd_Date h)) <$> (l ≫= λ r,
    (λ d, {| pd_Key := pd_Key r; pd_Date := d; pd_Qty := pd_Qty r; pd_Inexact := pd_Inexact r |})
    <$> filter (λ d, Z.max (pd_Date r) from ≤ d ∧ d < default before (lead m scope before r)) (date_series from before)))) as Hall; [|by apply Hall].
  induction l as [|r l IH]; intros Hsub; [constructor|]. rewrite bind_cons, fmap_app, <- list_fmap_compose.
  assert (NoDup ((λ r, (pd_Key r, pd_Date r)) <$> r :: l)) as Hnd.
  { eapply sublist_NoDup; [|by apply fmap_sublist]. rewrite cumulative_keys. apply merged_keys. }
  apply NoDup_app. split_and!; [| |apply IH; etransitivity; [|exact Hsub]; by apply sublist_cons].
  - apply NoDup_fmap_2_strong; [by intros x y _ _ [= ->]|]. apply NoDup_filter, NoDup_seqZ.
  - intros [k d] (d' & [= -> ->] & [Hd Hs%elem_of_seqZ]%list_elem_of_filter)%list_elem_of_fmap
      ([k' d3 q n] & [= E1 E2] & (r' & (d2 & [= -> -> -> ->] & [Hd2 _]%list_elem_of_filter)%list_elem_of_fmap & Hr')%elem_of_bind)%list_elem_of_fmap.
    cbn in *. subst. assert (r ∈ cumulative m scope before ∧ r' ∈ cumulative m scope before) as [Hr Hr2].
    { split; (eapply elem_of_sublist; [exact Hsub|]); [left|by right]. }
    rewrite span_covers in Hd, Hd2 by lia. assert (r = r') as <- by by eapply last_unique.
    apply NoDup_cons in Hnd as [Hn _]. apply Hn. by apply (list_elem_of_fmap_2 (λ r, (pd_Key r, pd_Date r))).
Qed.
End positions.

(** ** Carrying a close forward *)

Lemma length_filter_lt {A : Type} (P Q : A → Prop) `{∀ a, Decision (P a), ∀ a, Decision (Q a)} (l : list A) x :
  (∀ a, P a → Q a) → x ∈ l → Q x → ¬ P x → (length (filter P l) < length (filter Q l))%nat.
Proof.
  intros Hpq Hx Hq Hp. assert (filter P l = filter P (filter Q l)) as ->.
  { rewrite list_filter_filter. apply list_filter_iff. naive_solver. }
  assert (x ∈ filter Q l) as Hin by by apply list_elem_of_filter. revert Hin. generalize (filter Q l). clear -Hp. intros l Hin.
  induction l as [|a l IH]; [by apply elem_of_nil in Hin|]. rewrite filter_cons. apply elem_of_cons in Hin as [->|Hin].
  - rewrite decide_False by done. pose proof (length_filter P l). cbn. lia.
  - specialize (IH Hin). destruct (decide (P a)); cbn; lia.
Qed.

Lemma canonical_span l s s' d : canonical l → s ∈ l → s' ∈ l → From s ≤ d < Before s → From s' ≤ d < Before s' → s = s'.
Proof.
  induction l as [|r l IH]; intros Hc Hs Hs' Hd Hd'; [by apply elem_of_nil in Hs|].
  apply elem_of_cons in Hs as [->|Hs], Hs' as [->|Hs']; [done| | |].
  - pose proof (canonical_after _ _ _ Hc Hs'). lia.
  - pose proof (canonical_after _ _ _ Hc Hs). lia.
  - apply IH; [by eapply canonical_tail|done..].
Qed.

Lemma filter_omap {A B K : Type} `{EqDecision K} (f : A → option B) (ka : A → K) (kb : B → K) (l : list A) k :
  (∀ a b, f a = Some b → kb b = ka a) → filter (λ b, kb b = k) (omap f l) = omap f (filter (λ a, ka a = k) l).
Proof.
  intros Hf. induction l as [|a l IH]; [done|]. rewrite filter_cons. cbn [omap list_omap]. destruct (f a) as [b|] eqn:E.
  - rewrite filter_cons, (Hf a b E). destruct (decide (ka a = k)); [cbn [omap list_omap]; rewrite E; by f_equal|done].
  - destruct (decide (ka a = k)); [cbn [omap list_omap]; by rewrite E|done].
Qed.

(** With a key of its own an element is alone under it. *)
Lemma filter_key_alone {A K : Type} `{EqDecision K} (key : A → K) (l : list A) a : NoDup (key <$> l) → a ∈ l →
  filter (λ b, key b = key a) l = [a].
Proof.
  induction l as [|b l IH]; intros Hnd Hin; [by apply elem_of_nil in Hin|]. apply NoDup_cons in Hnd as [Hb Hnd]. rewrite filter_cons.
  apply elem_of_cons in Hin as [->|Hin].
  - rewrite decide_True by done. f_equal. apply elem_of_nil_inv. intros c [E Hc]%list_elem_of_filter. apply Hb. rewrite <- E. by apply list_elem_of_fmap_2.
  - rewrite decide_False; [by apply IH|]. intros E. apply Hb. rewrite E. by apply list_elem_of_fmap_2.
Qed.

Lemma canonical_NoDup l : canonical l → NoDup l.
Proof.
  induction l as [|r l IH]; intros Hc; [constructor|]. apply NoDup_cons. split; [|apply IH; by eapply canonical_tail].
  intros Hin. pose proof (canonical_after _ _ _ Hc Hin). pose proof (canonical_head _ _ Hc) as Hn. unfold nonempty in Hn. lia.
Qed.

Section fill.
Context {D : Type} `{Decimal D}.
Context (m : market D) (coverage : list Coverage.row) (scope : row D → bool) (from before : Z) (display : string).
Hypothesis nonempty_rows : ∀ r, r ∈ coverage → nonempty (Coverage.cv_range r).
Implicit Types (p q : price_point D) (id : string).

Lemma valuation_spans_canonical id : canonical (spans coverage id).
Proof. apply merge_canonical. intros r. by apply Coverage.instrument_spans_nonempty. Qed.

(** A span is known by its first day. *)
Lemma span_by_from id s s' : s ∈ spans coverage id → s' ∈ spans coverage id → From s = From s' → s = s'.
Proof.
  intros Hs Hs' E. pose proof (valuation_spans_canonical id) as Hc. pose proof (canonical_nonempty _ _ Hc Hs) as Hn.
  pose proof (canonical_nonempty _ _ Hc Hs') as Hn'. unfold nonempty in *. eapply (canonical_span _ s s' (From s)); [done..|lia|lia].
Qed.

Lemma elem_of_bar_days id d : d ∈ bar_days m id ↔ is_Some (close_on m id d).
Proof.
  unfold bar_days, close_on. rewrite list_elem_of_fmap. setoid_rewrite list_elem_of_filter. setoid_rewrite elem_of_elements. setoid_rewrite elem_of_dom.
  rewrite !fmap_is_Some. split; [by intros ([i z] & -> & <- & ?)|]. intros ?. by exists (id, d).
Qed.

Lemma last_bar_spec id lo hi : match last_bar m id lo hi with
  | Some b => lo ≤ b < hi ∧ is_Some (close_on m id b) ∧ ∀ d, lo ≤ d < hi → is_Some (close_on m id d) → d ≤ b
  | None => ∀ d, lo ≤ d < hi → ¬ is_Some (close_on m id d)
  end.
Proof.
  unfold last_bar. pose proof (head_greatest (filter (λ d, lo ≤ d ∧ d < hi) (bar_days m id))) as Hh. destruct (head _) as [b|].
  - destruct Hh as [[? ?%elem_of_bar_days]%list_elem_of_filter Hmax]. split_and!; [lia|lia|done|].
    intros d Hd Hc. apply Hmax, list_elem_of_filter. split; [lia|]. by apply elem_of_bar_days.
  - intros d Hd Hc. assert (d ∈ filter (λ d, lo ≤ d ∧ d < hi) (bar_days m id)) as Hin.
    { apply list_elem_of_filter. split; [lia|]. by apply elem_of_bar_days. }
    rewrite Hh in Hin. by apply elem_of_nil in Hin.
Qed.

(** The day whose close a day is valued at: the last with a bar in its span. *)
Definition carry id (d : Z) : option Z :=
  s ← head (filter (λ s, From s ≤ d ∧ d < Before s) (spans coverage id)); last_bar m id (From s) (d + 1).

Lemma carry_in id s d : s ∈ spans coverage id → From s ≤ d < Before s → carry id d = last_bar m id (From s) (d + 1).
Proof.
  intros Hs Hd. unfold carry. destruct (filter _ (spans coverage id)) as [|s' l] eqn:E.
  { assert (s ∈ filter (λ s, From s ≤ d ∧ d < Before s) (spans coverage id)) as Hin by by apply list_elem_of_filter. rewrite E in Hin. by apply elem_of_nil in Hin. }
  assert (s' ∈ filter (λ s, From s ≤ d ∧ d < Before s) (spans coverage id)) as [Hd' Hs']%list_elem_of_filter by (rewrite E; left).
  cbn. by rewrite (canonical_span _ s' s d (valuation_spans_canonical id)).
Qed.

Lemma carry_out id d : ¬ covers (spans coverage id) d → carry id d = None.
Proof.
  intros Hn. unfold carry. destruct (filter _ (spans coverage id)) as [|s' l] eqn:E; [done|]. exfalso. apply Hn.
  assert (s' ∈ filter (λ s, From s ≤ d ∧ d < Before s) (spans coverage id)) as [Hd' Hs']%list_elem_of_filter by (rewrite E; left). by exists s'.
Qed.

Let points := price_points m coverage scope from before display.
Let instruments := price_instruments m scope before display.

Definition grid_point id (span d : Z) : price_point D := {|
  pp_Instrument := id; pp_Span := span; pp_Date := d; pp_Close := close_on m id d; pp_Adjusted := adjusted_close_on m id d |}.

Definition seed_point id (span b : Z) : price_point D := {|
  pp_Instrument := id; pp_Span := span; pp_Date := from - 1; pp_Close := close_on m id b; pp_Adjusted := adjusted_close_on m id b |}.

Lemma elem_of_grid g : g ∈ covered_grid m coverage scope from before display ↔
  ∃ s, gd_Instrument g ∈ instruments ∧ s ∈ spans coverage (gd_Instrument g) ∧ gd_Span g = From s ∧
    From s ≤ gd_Date g < Before s ∧ from ≤ gd_Date g < before.
Proof.
  unfold covered_grid. rewrite elem_of_bind. split.
  - intros (id & (s & (d & -> & [? Hd%elem_of_seqZ]%list_elem_of_filter)%list_elem_of_fmap & Hs)%elem_of_bind & Hid). exists s. cbn. split_and!; try done; lia.
  - intros (s & Hid & Hs & E & ? & ?). exists (gd_Instrument g). split; [|done]. apply elem_of_bind. exists s. split; [|done].
    apply list_elem_of_fmap. exists (gd_Date g). split; [destruct g; cbn in *; by subst|]. apply list_elem_of_filter. split; [done|]. apply elem_of_seqZ. lia.
Qed.

(** A point is a day of the grid, or the seed of a span that has one. *)
Lemma elem_of_points q : q ∈ points ↔
  (∃ s d, pp_Instrument q ∈ instruments ∧ s ∈ spans coverage (pp_Instrument q) ∧ From s ≤ d < Before s ∧ from ≤ d < before ∧
    ((d = pp_Date q ∧ q = grid_point (pp_Instrument q) (From s) d) ∨
     ∃ b, last_bar m (pp_Instrument q) (From s) from = Some b ∧ q = seed_point (pp_Instrument q) (From s) b)).
Proof.
  unfold points, price_points. rewrite elem_of_app. unfold span_seeds. rewrite list_elem_of_omap, list_elem_of_fmap. split.
  - intros [([id sp] & Hin & (b & Hb & [= <-])%bind_Some)|(g & -> & (s & Hid & Hs & E & Hd & Hw)%elem_of_grid)].
    + rewrite elem_of_remove_dups in Hin. apply list_elem_of_fmap in Hin as (g & [= -> ->] & (s & Hid & Hs & E & Hd & Hw)%elem_of_grid).
      exists s, (gd_Date g). cbn in *. rewrite E in *. split_and!; [done|done|lia..|]. right. by exists b.
    + exists s, (gd_Date g). cbn. split_and!; [done|done|lia..|]. left. split; [done|]. unfold grid_point. by rewrite E.
  - intros (s & d & Hid & Hs & Hd & Hw & [[-> Eq]|(b & Hb & Eq)]).
    + right. exists {| gd_Instrument := pp_Instrument q; gd_Date := pp_Date q; gd_Span := From s |}. split; [exact Eq|].
      apply elem_of_grid. exists s. cbn. split_and!; [done|done|done|lia..].
    + left. exists (pp_Instrument q, From s). split.
      * rewrite elem_of_remove_dups. apply list_elem_of_fmap. exists {| gd_Instrument := pp_Instrument q; gd_Date := d; gd_Span := From s |}.
        split; [done|]. apply elem_of_grid. exists s. cbn. split_and!; [done|done|done|lia..].
      * cbn. rewrite Hb. cbn. f_equal. symmetry. exact Eq.
Qed.

(** A point is known by its partition and its date. *)
Lemma point_unique q q' : q ∈ points → q' ∈ points → pp_Instrument q = pp_Instrument q' → pp_Span q = pp_Span q' → pp_Date q = pp_Date q' → q = q'.
Proof.
  rewrite !elem_of_points. intros (s & d & _ & Hs & _ & Hw & Hq) (s' & d' & _ & Hs' & _ & Hw' & Hq') Ei Es Ed. rewrite <- Ei in *.
  assert (From s = pp_Span q ∧ From s' = pp_Span q') as [E1 E2].
  { split; [destruct Hq as [[_ Eq]|(? & _ & Eq)]|destruct Hq' as [[_ Eq]|(? & _ & Eq)]]; by rewrite Eq. }
  assert (s = s') as <- by (eapply span_by_from; [done|done|congruence]).
  destruct Hq as [[-> Eq]|(b & Hb & Eq)], Hq' as [[-> Eq']|(b' & Hb' & Eq')].
  - rewrite Eq, Eq'. by rewrite Ed.
  - exfalso. assert (pp_Date q' = from - 1) by (by rewrite Eq'). lia.
  - exfalso. assert (pp_Date q = from - 1) by (by rewrite Eq). lia.
  - rewrite Eq, Eq'. rewrite Hb in Hb'. by injection Hb' as ->.
Qed.

(** The latest point with a close, up to a day of the grid. *)
Definition carried_point id (span b : Z) : price_point D := if from <=? b then grid_point id span b else seed_point id span b.

Section island.
Context (id : string) (s : DateRange) (d : Z).
Hypothesis asked : id ∈ instruments.
Hypothesis in_spans : s ∈ spans coverage id.
Hypothesis in_span : From s ≤ d < Before s.
Hypothesis in_window : from ≤ d < before.

Let p := grid_point id (From s) d.

Lemma p_in : p ∈ points.
Proof using asked in_spans in_span in_window. apply elem_of_points. exists s, d. cbn. split_and!; [done|done|lia..|]. by left. Qed.

(** A point of the partition with a close has it from a bar of the span. *)
Lemma closes_are_bars q : q ∈ points → pp_Instrument q = id → pp_Span q = From s → is_Some (pp_Close q) → pp_Date q ≤ d →
  ∃ b, From s ≤ b ≤ d ∧ is_Some (close_on m id b) ∧ (from ≤ pp_Date q → b = pp_Date q) ∧ (pp_Date q < from → pp_Date q = from - 1 ∧ b < from).
Proof using in_spans in_span in_window nonempty_rows.
  intros (s' & d' & _ & Hs & Hd & Hw & Hq)%elem_of_points Ei Esp Hc Hle. rewrite Ei in *.
  destruct Hq as [[-> Eq]|(b & Hb & Eq)]; rewrite Eq in Hc, Esp; cbn in Hc, Esp; assert (s' = s) as -> by by eapply span_by_from.
  - exists (pp_Date q). split_and!; [lia|lia|done|done|lia].
  - pose proof (last_bar_spec id (From s) from) as Hl. rewrite Hb in Hl. destruct Hl as (Hb1 & Hb2 & _). rewrite Eq. cbn.
    exists b. split_and!; [lia|lia|done|lia|lia].
Qed.

Lemma island_none : last_bar m id (From s) (d + 1) = None → island m coverage scope from before display p = 0%nat.
Proof using in_spans in_span in_window nonempty_rows.
  intros Hn. pose proof (last_bar_spec id (From s) (d + 1)) as Hl. rewrite Hn in Hl. unfold island. fold points.
  destruct (filter _ points) as [|q l] eqn:E; [done|]. exfalso.
  match type of E with filter ?P _ = _ => assert (q ∈ filter P points) as [(Ei & Es & Hle & Hc) Hq]%list_elem_of_filter by (rewrite E; left) end.
  cbn in Ei, Es, Hle. destruct (closes_are_bars q) as (b & Hb & Hcb & _); [done..|]. by apply (Hl b ltac:(lia)).
Qed.

Section bar.
Context (b : Z).
Hypothesis last : last_bar m id (From s) (d + 1) = Some b.
Let q := carried_point id (From s) b.

Lemma q_facts : q ∈ points ∧ pp_Instrument q = id ∧ pp_Span q = From s ∧ pp_Date q = Z.max b (from - 1) ∧ pp_Date q ≤ d ∧ is_Some (pp_Close q).
Proof using asked in_spans in_span in_window last.
  pose proof (last_bar_spec id (From s) (d + 1)) as Hl. rewrite last in Hl. destruct Hl as (Hb & Hc & Hmax).
  unfold q, carried_point. destruct (Z.leb_spec from b); cbn; split_and!; try done; try lia.
  - apply elem_of_points. exists s, b. cbn. split_and!; [done|done|lia..|]. by left.
  - apply elem_of_points. exists s, d. cbn. split_and!; [done|done|lia..|]. right. exists b. split; [|done].
    pose proof (last_bar_spec id (From s) from) as Hl. destruct (last_bar m id (From s) from) as [b'|].
    + destruct Hl as (? & ? & Hm'). f_equal. apply Z.le_antisymm; [apply Hmax; [lia|done]|apply Hm'; [lia|done]].
    + exfalso. by apply (Hl b ltac:(lia)).
Qed.

(** No point with a close lies between. *)
Lemma no_close_between q' : q' ∈ points → pp_Instrument q' = id → pp_Span q' = From s → is_Some (pp_Close q') → pp_Date q' ≤ d → pp_Date q' ≤ pp_Date q.
Proof using asked in_spans in_span in_window last nonempty_rows.
  intros Hq' Ei Es Hc Hle. destruct q_facts as (_ & _ & _ & Eq & _). rewrite Eq.
  destruct (closes_are_bars q') as (b' & Hb' & Hcb & Hg & Hsd); [done..|].
  pose proof (last_bar_spec id (From s) (d + 1)) as Hl. rewrite last in Hl. destruct Hl as (_ & _ & Hmax).
  specialize (Hmax b' ltac:(lia) Hcb). destruct (Z.le_gt_cases from (pp_Date q')); [rewrite <- Hg by done; lia|]. destruct Hsd; lia.
Qed.

Lemma same_as_carried : same_island m coverage scope from before display p q.
Proof using asked in_spans in_span in_window last nonempty_rows.
  destruct q_facts as (Hq & Ei & Es & Ed & Hle & Hc). split; [done|split; [done|]]. unfold island. fold points. f_equal. apply filter_ext_in.
  intros q' Hq'. rewrite Ei, Es. cbn. split; intros (E1 & E2 & E3 & E4); (split_and!; [done|done| |done]); [lia|]. by apply no_close_between.
Qed.

Lemma carried_is_first q' : q' ∈ points → same_island m coverage scope from before display p q' → pp_Date q ≤ pp_Date q'.
Proof using asked in_spans in_span in_window last nonempty_rows.
  intros Hq' (Ei & Es & E). destruct same_as_carried as (Eiq & Esq & Eq). rewrite <- Eq in E. destruct (Z.le_gt_cases (pp_Date q) (pp_Date q')) as [|Hgt]; [done|].
  exfalso. destruct q_facts as (Hq & Ei0 & Es0 & _ & _ & Hc).
  assert (island m coverage scope from before display q' < island m coverage scope from before display q)%nat; [|lia].
  unfold island. fold points. apply (length_filter_lt _ _ points q); [|done|by split_and!|].
  - intros a (? & ? & ? & ?). split_and!; [congruence|congruence|lia|done].
  - intros (_ & _ & ? & _). lia.
Qed.
End bar.
End island.

(** ** The filled series *)

Definition fill p : price_point D :=
  let first := head (go_sort (λ a b, pp_Date a <? pp_Date b) (filter (λ q, same_island m coverage scope from before display p q) points)) in
  {| pp_Instrument := pp_Instrument p; pp_Span := pp_Span p; pp_Date := pp_Date p;
     pp_Close := q ← first; pp_Close q; pp_Adjusted := q ← first; pp_Adjusted q |}.

Lemma filled_is_fill : filled_prices m coverage scope from before display = fill <$> points.
Proof. done. Qed.

Lemma fill_grid id s d : id ∈ instruments → s ∈ spans coverage id → From s ≤ d < Before s → from ≤ d < before →
  let f := fill (grid_point id (From s) d) in
  pp_Close f = (b ← carry id d; close_on m id b) ∧ pp_Adjusted f = (b ← carry id d; adjusted_close_on m id b).
Proof.
  intros Hid Hs Hd Hw f. rewrite (carry_in id s d Hs Hd). unfold f, fill. cbn [pp_Close pp_Adjusted].
  set (p := grid_point id (From s) d). set (same := filter (λ q, same_island m coverage scope from before display p q) points).
  pose proof (head_least pp_Date same) as Hh. destruct (last_bar m id (From s) (d + 1)) as [b|] eqn:Eb; cbn [mbind option_bind].
  - assert (carried_point id (From s) b ∈ same) as Hin.
    { apply list_elem_of_filter. split; [by apply same_as_carried|]. by eapply q_facts. }
    destruct (head _) as [q|]; [|rewrite Hh in Hin; by apply elem_of_nil in Hin]. destruct Hh as [[Hsame Hq]%list_elem_of_filter Hle].
    assert (q = carried_point id (From s) b) as ->.
    { destruct Hsame as (Ei & Es & E). destruct (q_facts id s d Hid Hs Hd Hw b Eb) as (Hqc & Eic & Esc & _).
      apply point_unique; [done|done|by rewrite Ei, Eic|by rewrite Es, Esc|]. apply Z.le_antisymm; [by apply Hle|]. by eapply carried_is_first. }
    cbn. unfold carried_point. by destruct (from <=? b).
  - pose proof (island_none id s d Hs Hd Hw Eb) as E0. destruct (head _) as [q|]; [|done]. destruct Hh as [[(Ei & Es & E) Hq]%list_elem_of_filter _].
    fold p in E0. rewrite E0 in E. cbn. assert (pp_Close q = None) as Hc.
    { destruct (pp_Close q) as [c|] eqn:Ec; [|done]. exfalso. unfold island in E. fold points in E.
      apply nil_length_inv in E. assert (q ∈ filter (λ q', pp_Instrument q' = pp_Instrument q ∧ pp_Span q' = pp_Span q ∧ pp_Date q' ≤ pp_Date q ∧ is_Some (pp_Close q')) points) as Hin.
      { apply list_elem_of_filter. split; [|done]. split_and!; [done|done|lia|by rewrite Ec]. }
      rewrite E in Hin. by apply elem_of_nil in Hin. }
    split; [done|]. apply elem_of_points in Hq as (s' & d' & _ & _ & _ & _ & [[_ Eq]|(b & Hb & Eq)]).
    + rewrite Eq in Hc |- *. cbn in Hc |- *. unfold adjusted_close_on. by rewrite Hc.
    + exfalso. rewrite Eq in Hc. cbn in Hc. pose proof (last_bar_spec (pp_Instrument q) (From s') from) as Hl. rewrite Hb in Hl.
      destruct Hl as (_ & [? ?] & _). congruence.
Qed.

Lemma grid_keys : NoDup ((λ g, (gd_Instrument g, gd_Date g)) <$> covered_grid m coverage scope from before display).
Proof.
  apply NoDup_fmap_2_strong.
  - intros [i d sp] [i' d' sp'] (s & _ & Hs & E & Hd & _)%elem_of_grid (s' & _ & Hs' & E' & Hd' & _)%elem_of_grid [= -> ->]. cbn in *.
    f_equal. rewrite E, E'. f_equal. by eapply canonical_span; [apply valuation_spans_canonical|..].
  - unfold covered_grid. apply NoDup_bind.
    + intros id id' g _ _ (s & (? & -> & _)%list_elem_of_fmap & _)%elem_of_bind (s' & (? & [= ?] & _)%list_elem_of_fmap & _)%elem_of_bind. done.
    + intros id _. apply NoDup_bind.
      * intros s s' g Hs Hs' (d & -> & _)%list_elem_of_fmap (d' & [= _ E] & _)%list_elem_of_fmap. by eapply span_by_from.
      * intros s _. apply NoDup_fmap_2_strong; [by intros x y _ _ [= ->]|]. apply NoDup_filter, NoDup_seqZ.
      * apply canonical_NoDup, valuation_spans_canonical.
    + apply NoDup_remove_dups.
Qed.

Let grid := covered_grid m coverage scope from before display.

Lemma omap_ext_in {A B : Type} (f g : A → option B) (l : list A) : (∀ a, a ∈ l → f a = g a) → omap f l = omap g l.
Proof.
  induction l as [|a l IH]; intros Hf; [done|]. cbn [omap list_omap]. rewrite (Hf a) by left. rewrite IH by (intros; apply Hf; by right). done.
Qed.

Lemma omap_none {A B : Type} (f : A → option B) (l : list A) : (∀ a, a ∈ l → f a = None) → omap f l = [].
Proof. induction l as [|a l IH]; intros Hf; [done|]. cbn [omap list_omap]. rewrite (Hf a) by left. apply IH. intros b Hb. apply Hf. by right. Qed.

Lemma filter_every {A : Type} (l : list A) : filter (λ _, True) l = l.
Proof. induction l as [|a l IH]; [done|]. rewrite filter_cons, decide_True by done. by rewrite IH. Qed.

(** Read off the window, the filled series is the closes carried to the grid. *)
Definition point_on (g : grid_day) : price_point D := grid_point (gd_Instrument g) (gd_Span g) (gd_Date g).

Lemma windowed_fill {B : Type} (P : price_point D → Prop) (Q : grid_day → Prop) `{∀ p, Decision (P p), ∀ g, Decision (Q g)}
    (h : price_point D → option B) (k : grid_day → option B) :
  (∀ p, pp_Date p < from → h p = None) → (∀ g, g ∈ grid → P (fill (point_on g)) ↔ Q g) → (∀ g, g ∈ grid → h (fill (point_on g)) = k g) →
  omap h (filter P (filled_prices m coverage scope from before display)) = omap k (filter Q grid).
Proof.
  intros Hh HP Hk. rewrite filled_is_fill. unfold points, price_points. rewrite fmap_app, filter_app, omap_app.
  rewrite omap_none, app_nil_l.
  2: { intros p [_ Hp]%list_elem_of_filter. apply list_elem_of_fmap in Hp as (q & -> & Hq). apply Hh. unfold span_seeds in Hq.
       apply list_elem_of_omap in Hq as ([i sp] & _ & (b & _ & [= <-])%bind_Some). cbn. lia. }
  rewrite <- list_fmap_compose, filter_fmap_comm. fold grid. rewrite (filter_ext_in _ Q) by exact HP.
  assert (∀ l : list grid_day, (∀ g, g ∈ l → g ∈ grid) → omap h ((λ g, fill (point_on g)) <$> l) = omap k l) as Hl.
  { induction l as [|g l IH]; intros Hin; [done|]. cbn [fmap list_fmap omap list_omap]. rewrite Hk by (apply Hin; left).
    rewrite IH by (intros; apply Hin; by right). done. }
  apply Hl. by intros g [_ ?]%list_elem_of_filter.
Qed.

(** The column of the bar a day of the grid is valued at. *)
Lemma fill_on g : g ∈ grid → let f := fill (point_on g) in pp_Instrument f = gd_Instrument g ∧ pp_Date f = gd_Date g ∧ from ≤ gd_Date g ∧
  pp_Close f = (b ← carry (gd_Instrument g) (gd_Date g); close_on m (gd_Instrument g) b) ∧
  pp_Adjusted f = (b ← carry (gd_Instrument g) (gd_Date g); adjusted_close_on m (gd_Instrument g) b).
Proof.
  intros (s & Hid & Hs & E & Hd & Hw)%elem_of_grid f. split_and!; [done|done|lia|..]; unfold f, point_on; rewrite E; by apply fill_grid.
Qed.

(** The row of the grid for an instrument and day, if the day is covered. *)
Lemma grid_at id d : id ∈ instruments → from ≤ d < before →
  (∃ g, filter (λ g, (gd_Instrument g, gd_Date g) = (id, d)) grid = [g] ∧ gd_Instrument g = id ∧ gd_Date g = d ∧ g ∈ grid) ∨
  filter (λ g, (gd_Instrument g, gd_Date g) = (id, d)) grid = [] ∧ carry id d = None.
Proof.
  intros Hid Hw. destruct (decide (Exists (λ s, From s ≤ d < Before s) (spans coverage id))) as [He|Hn].
  - apply Exists_exists in He as (s & Hs & Hd). left. exists {| gd_Instrument := id; gd_Date := d; gd_Span := From s |}.
    assert ({| gd_Instrument := id; gd_Date := d; gd_Span := From s |} ∈ grid) as Hg.
    { apply elem_of_grid. exists s. cbn. split_and!; [done|done|done|lia..]. }
    split_and!; [|done|done|done]. exact (filter_key_alone (λ g, (gd_Instrument g, gd_Date g)) grid _ grid_keys Hg).
  - right. split.
    + apply elem_of_nil_inv. intros g [[= Ei Ed] (s & _ & Hs & _ & Hd & _)%elem_of_grid]%list_elem_of_filter. subst. apply Hn, Exists_exists. by exists s.
    + apply carry_out. intros (s & Hs & Hd). apply Hn, Exists_exists. by exists s.
Qed.

Lemma price_at id d : id ∈ instruments → from ≤ d < before →
  filter (λ x, x.1 = (id, d)) (prices m coverage scope from before display) =
  option_list ((λ c, (id, d, c)) <$> (b ← carry id d; adjusted_close_on m id b)).
Proof.
  intros Hid Hw. unfold prices.
  set (h := λ p : price_point D, c ← pp_Adjusted p; if from <=? pp_Date p then Some (pp_Instrument p, pp_Date p, c) else None).
  set (k := λ g, (λ c, (gd_Instrument g, gd_Date g, c)) <$> (b ← carry (gd_Instrument g) (gd_Date g); adjusted_close_on m (gd_Instrument g) b)).
  pose proof (windowed_fill (λ _, True) (λ _, True) h k) as Ew. rewrite !filter_every in Ew. rewrite Ew; [|..|done|].
  - rewrite (filter_omap _ (λ g, (gd_Instrument g, gd_Date g)) fst).
    + destruct (grid_at id d Hid Hw) as [(g & -> & <- & <- & _)|[-> ->]]; [|done]. cbn. unfold k. by destruct (b ← carry _ _; _).
    + intros g b. unfold k. by intros (c & _ & ->)%fmap_Some.
  - intros p Hp. unfold h. destruct (pp_Adjusted p); cbn; [|done]. by rewrite (proj2 (Z.leb_gt _ _)).
  - intros g Hg. destruct (fill_on g Hg) as (Ei & Ed & Hge & _ & Ea). unfold h, k. rewrite Ea, Ei, Ed.
    destruct (b ← carry _ _; _); cbn; [|done]. by rewrite (proj2 (Z.leb_le _ _)).
Qed.

Lemma rate_at id d : id ∈ instruments → from ≤ d < before →
  filter (λ x, x.1 = d) (rates_of m coverage scope from before display id) = option_list ((λ c, (d, c)) <$> (b ← carry id d; close_on m id b)).
Proof.
  intros Hid Hw. unfold rates_of.
  set (h := λ p : price_point D, c ← pp_Close p; if from <=? pp_Date p then Some (pp_Date p, c) else None).
  set (k := λ g, (λ c, (gd_Date g, c)) <$> (b ← carry (gd_Instrument g) (gd_Date g); close_on m (gd_Instrument g) b)).
  rewrite (windowed_fill (λ p, pp_Instrument p = id) (λ g, gd_Instrument g = id) h k).
  - rewrite (filter_omap _ gd_Date fst), list_filter_filter.
    + rewrite (list_filter_iff _ (λ g, (gd_Instrument g, gd_Date g) = (id, d))) by (intros g; naive_solver).
      destruct (grid_at id d Hid Hw) as [(g & -> & <- & <- & _)|[-> ->]]; [|done]. cbn. unfold k. by destruct (b ← carry _ _; _).
    + intros g b. unfold k. by intros (c & _ & ->)%fmap_Some.
  - intros p Hp. unfold h. destruct (pp_Close p); cbn; [|done]. by rewrite (proj2 (Z.leb_gt _ _)).
  - intros g Hg. by destruct (fill_on g Hg) as (-> & _).
  - intros g Hg. destruct (fill_on g Hg) as (Ei & Ed & Hge & Ec & _). unfold h, k. rewrite Ec, Ed.
    destruct (b ← carry _ _; _); cbn; [|done]. by rewrite (proj2 (Z.leb_le _ _)).
Qed.
End fill.

(** ** Joining what each holding is valued at *)

Lemma left_join_unique {A B : Type} (on : A → B → bool) (g : A → option B) (l : list A) (r : list B) :
  (∀ a, a ∈ l → filter (λ b, on a b = true) r = option_list (g a)) → left_join on l r = (λ a, (a, g a)) <$> l.
Proof.
  induction l as [|a l IH]; intros Hg; [done|]. unfold left_join. rewrite bind_cons. fold (left_join on l r).
  rewrite IH by (intros; apply Hg; by right). rewrite (Hg a) by left. rewrite fmap_cons. by destruct (g a).
Qed.

Lemma bind_alone {A B : Type} (f : A → list B) a : option_list (Some a) ≫= f = f a.
Proof. cbn. apply app_nil_r. Qed.

(** At most one element under a test, found by [head]. *)
Lemma option_list_head {A : Type} (l : list A) : (length l ≤ 1)%nat → l = option_list (head l).
Proof. destruct l as [|a [|]]; cbn; [done|done|lia]. Qed.

Section rows.
Context {D F : Type} `{DecimalLaws D}.
Context (of_dec : D → option F) (fone : F) (fmul fdiv : F → F → option F).
Context (name_of : string → option string).
Context (m : market D) (coverage : list Coverage.row) (scope : row D → bool).
Context (from before : Z) (display : string).
Hypothesis nonempty_rows : ∀ r, r ∈ coverage → nonempty (Coverage.cv_range r).
Hypothesis named_once : ∀ c, (length (pair_holders m c) ≤ 1)%nat.
Implicit Types (h : position_day D) (k : hkey).

(** The adjusted close and the rate an instrument has on a day. *)
Definition price_of (id : string) (d : Z) : option D := b ← carry m coverage id d; adjusted_close_on m id b.
Definition rate_of (id : string) (d : Z) : option D := b ← carry m coverage id d; close_on m id b.

(** The dollar rate of a currency, which the dollar itself has none of. *)
Definition dollar_rate (c : string) (d : Z) : option D :=
  if String.eqb c "USD" then None else i ← head (pair_holders m c); rate_of i d.

Definition price_for k d : option D := id ← k.1; price_of id d.
Definition rate_for k d : option D := id ← k.1; c ← currency_of m id; dollar_rate c d.

Lemma rate_list (id : string) d : id ∈ price_instruments m scope before display → from ≤ d < before →
  filter (λ x, x.1 = d) (rates_of m coverage scope from before display id) = option_list ((λ c, (d, c)) <$> rate_of id d).
Proof. intros. by apply rate_at. Qed.

Lemma held h : h ∈ daily_holdings m scope from before → ∀ id, (pd_Key h).1 = Some id → id ∈ held_instruments m scope before.
Proof.
  intros (r & Hr & Eh & _)%elem_of_daily id Hid. unfold held_instruments. rewrite elem_of_remove_dups, list_elem_of_omap.
  exists r. split; [done|]. by rewrite Eh in Hid.
Qed.

Lemma prices_needed id : id ∈ price_instruments m scope before display ↔
  id ∈ held_instruments m scope before ∨ id ∈ (fx_instruments m scope before).*2 ∨ id ∈ display_fx_instrument m display.
Proof. unfold price_instruments. by rewrite elem_of_remove_dups, !elem_of_app. Qed.

Lemma elem_of_fx c i : (c, i) ∈ fx_instruments m scope before ↔
  c ≠ "USD"%string ∧ i ∈ pair_holders m c ∧ ∃ id, id ∈ held_instruments m scope before ∧ currency_of m id = Some c.
Proof.
  unfold fx_instruments. rewrite elem_of_remove_dups, elem_of_bind. split.
  - intros (id & Hin & Hid). destruct (currency_of m id) as [c'|] eqn:Ec; [|by apply elem_of_nil in Hin].
    destruct (String.eqb_spec c' "USD"); [by apply elem_of_nil in Hin|]. apply list_elem_of_fmap in Hin as (i' & [= -> ->] & ?). eauto 6.
  - intros (Hne & Hi & id & Hid & Ec). exists id. rewrite Ec, (proj2 (String.eqb_neq c "USD") Hne). split; [|done]. by apply list_elem_of_fmap_2.
Qed.

(** The pairs found for a held currency. *)
Lemma fx_of_currency c : (∃ id, id ∈ held_instruments m scope before ∧ currency_of m id = Some c) →
  filter (λ x, x.1 = c) (fx_instruments m scope before) =
  if String.eqb c "USD" then [] else option_list ((λ i, (c, i)) <$> head (pair_holders m c)).
Proof.
  intros Hheld. destruct (String.eqb_spec c "USD") as [->|Hne].
  { apply elem_of_nil_inv. intros [c' i] [E Hin]%list_elem_of_filter. cbn in E. subst. by apply elem_of_fx in Hin as [? _]. }
  pose proof (named_once c) as Hone. destruct (pair_holders m c) as [|i [|]] eqn:Ep; cbn [head fmap option_fmap option_map option_list length] in *; [| |lia].
  - apply elem_of_nil_inv. intros [c' i] [E Hin]%list_elem_of_filter. cbn in E. subst.
    apply elem_of_fx in Hin as (_ & Hin & _). rewrite Ep in Hin. by apply elem_of_nil in Hin.
  - assert ((c, i) ∈ fx_instruments m scope before) as Hin by (apply elem_of_fx; rewrite Ep; set_solver).
    rewrite (filter_ext_in _ (λ x, id x = id (c, i))).
    + apply (filter_key_alone id); [|done]. rewrite list_fmap_id. apply NoDup_remove_dups.
    + intros [c' i'] Hx. cbn. split; [|by intros [= -> ->]]. intros ->. apply elem_of_fx in Hx as (_ & Hx & _). rewrite Ep in Hx. by apply list_elem_of_singleton in Hx as ->.
Qed.

Lemma rates_at c d : (∃ id, id ∈ held_instruments m scope before ∧ currency_of m id = Some c) → from ≤ d < before →
  filter (λ x, x.1 = (c, d)) (fx_rates m coverage scope from before display) = option_list ((λ r, (c, d, r)) <$> dollar_rate c d).
Proof.
  intros Hheld Hd. pose proof (fx_of_currency c Hheld) as Hfx. unfold dollar_rate.
  assert (∀ l : list (string * string), filter (λ x, x.1 = (c, d)) (l ≫= λ fi, (λ r, (fi.1, r.1, r.2)) <$> rates_of m coverage scope from before display fi.2) =
    filter (λ x, x.1 = c) l ≫= λ fi, (λ r, (c, d, r.2)) <$> filter (λ r, r.1 = d) (rates_of m coverage scope from before display fi.2)) as Hl.
  { induction l as [|[c' i] l IH]; [done|]. rewrite bind_cons, filter_app, IH, filter_cons, filter_fmap_comm. cbn [fst snd].
    destruct (decide (c' = c)) as [->|Hne].
    - rewrite bind_cons. cbn [fst snd]. f_equal. rewrite (list_filter_iff _ (λ r, r.1 = d)) by (intros [d' q]; cbn; split; congruence).
      apply list_fmap_ext. by intros j x [-> _]%list_elem_of_lookup_2%list_elem_of_filter.
    - rewrite (elem_of_nil_inv (filter _ (rates_of _ _ _ _ _ _ i))); [done|]. intros [d' q] [E _]%list_elem_of_filter. cbn in E. congruence. }
  unfold fx_rates. rewrite Hl, Hfx. destruct (String.eqb_spec c "USD") as [->|Hne]; [done|].
  destruct (head (pair_holders m c)) as [i|] eqn:Ei; [|done]. cbn [fmap option_fmap option_map option_list mbind list_bind option_bind snd].
  rewrite bind_alone. cbn [fst snd]. rewrite rate_list; [|apply prices_needed; right; left|done].
  - unfold rate_of. by destruct (b ← carry m coverage i d; _).
  - apply list_elem_of_fmap. exists (c, i). split; [done|]. apply elem_of_fx. split_and!; [done| |done]. by apply head_Some_elem_of.
Qed.

Lemma display_at d : from ≤ d < before →
  filter (λ x, x.1 = d) (display_fx_rate m coverage scope from before display) = option_list ((λ r, (d, r)) <$> dollar_rate display d).
Proof.
  intros Hd. unfold display_fx_rate, dollar_rate. pose proof (prices_needed) as Hneed. revert Hneed. unfold display_fx_instrument.
  destruct (String.eqb_spec display "USD") as [E|Hne]; [done|]. rewrite (option_list_head _ (named_once display)).
  destruct (head (pair_holders m display)) as [i|]; [|done]. intros Hneed. rewrite bind_alone. rewrite rate_list; [done| |done].
  apply Hneed. set_solver.
Qed.

Let value := value_row of_dec fone fmul fdiv name_of m display.
Let open_holdings := filter (λ h, qty_is_zero (pd_Qty h) (pd_Inexact h) = false) (daily_holdings m scope from before).
Let rows := valued_rows of_dec fone fmul fdiv name_of m coverage scope from before display.

(** The reference: a commodity on a day, from the postings up to it, the last close of
    its span and the rates of its currency and of the display currency. *)
Definition ref_row k d : option (valued_row D F) :=
  let l := up_to m scope before k d in
  match l with
  | [] => None
  | _ => if closed m l then None else Some (value k d (total m l) (price_for k d) (rate_for k d) (dollar_rate display d))
  end.

(** Rows that agree, their quantity up to the number it denotes. *)
Definition same_row (r v : valued_row D F) : Prop :=
  vr_Qty r ≡ vr_Qty v ∧
  r = {| vr_Date := vr_Date v; vr_Key := vr_Key v; vr_Name := vr_Name v; vr_Cash := vr_Cash v; vr_Qty := vr_Qty r;
         vr_Close := vr_Close v; vr_Value := vr_Value v; vr_FxMissing := vr_FxMissing v |}.

Lemma open_daily h : h ∈ open_holdings → h ∈ daily_holdings m scope from before ∧ from ≤ pd_Date h < before.
Proof. intros [_ Hh]%list_elem_of_filter. split; [done|]. by apply daily_sound in Hh as [? _]. Qed.

Lemma join_prices : left_join on_price open_holdings (prices m coverage scope from before display) =
  (λ h, (h, id ← (pd_Key h).1; (λ c, (id, pd_Date h, c)) <$> price_of id (pd_Date h))) <$> open_holdings.
Proof.
  apply left_join_unique. intros h [Hh Hd]%open_daily. unfold on_price. pose proof (held h Hh) as Hheld.
  destruct ((pd_Key h).1) as [id|]; cbn [mbind option_bind].
  - unfold price_of. rewrite <- (price_at m coverage scope from before display nonempty_rows) by (done || (apply prices_needed; left; by apply Hheld)).
    apply list_filter_iff. intros [[i d] c]. cbn. rewrite andb_true_iff, bool_decide_eq_true, Z.eqb_eq. naive_solver.
  - apply elem_of_nil_inv. by intros [[i d] c] [? _]%list_elem_of_filter.
Qed.

Lemma join_rates {A : Type} (hold : A → position_day D) (l : list A) : (∀ x, x ∈ l → hold x ∈ open_holdings) →
  left_join (λ x, on_rate m (hold x)) l (fx_rates m coverage scope from before display) =
  (λ x, (x, id ← (pd_Key (hold x)).1; c ← currency_of m id; (λ r, (c, pd_Date (hold x), r)) <$> dollar_rate c (pd_Date (hold x)))) <$> l.
Proof.
  intros Hl. apply left_join_unique. intros x [Hh Hd]%Hl%open_daily. unfold on_rate. pose proof (held _ Hh) as Hheld.
  destruct ((pd_Key (hold x)).1) as [id|]; cbn [mbind option_bind].
  - destruct (currency_of m id) as [c|] eqn:Ec; cbn.
    + rewrite <- rates_at by (done || (exists id; auto)). apply list_filter_iff. intros [[i d] r]. cbn.
      rewrite andb_true_iff, bool_decide_eq_true, Z.eqb_eq. naive_solver.
    + apply elem_of_nil_inv. by intros [[i d] r] [? _]%list_elem_of_filter.
  - apply elem_of_nil_inv. by intros [[i d] r] [? _]%list_elem_of_filter.
Qed.

Lemma join_display {A : Type} (hold : A → position_day D) (l : list A) : (∀ x, x ∈ l → hold x ∈ open_holdings) →
  left_join (λ x, on_display (hold x)) l (display_fx_rate m coverage scope from before display) =
  (λ x, (x, (λ r, (pd_Date (hold x), r)) <$> dollar_rate display (pd_Date (hold x)))) <$> l.
Proof.
  intros Hl. apply left_join_unique. intros x [_ Hd]%Hl%open_daily. unfold on_display. rewrite <- display_at by done.
  apply list_filter_iff. intros [d r]. cbn. by rewrite Z.eqb_eq.
Qed.

(** What is joined to a holding is the price and the rates of its day. *)
Lemma rows_joined : rows =
  (λ h, value (pd_Key h) (pd_Date h) (pd_Qty h) (price_for (pd_Key h) (pd_Date h)) (rate_for (pd_Key h) (pd_Date h))
          (dollar_rate display (pd_Date h))) <$> open_holdings.
Proof.
  unfold rows, valued_rows. fold open_holdings. rewrite join_prices.
  rewrite (join_rates fst) by (by intros ? (h & -> & ?)%list_elem_of_fmap).
  rewrite (join_display (λ x, x.1.1)) by (by intros ? (? & -> & (h & -> & ?)%list_elem_of_fmap)%list_elem_of_fmap).
  rewrite <- !list_fmap_compose. apply list_fmap_ext. intros _ h _. unfold compose. cbn [fst snd]. unfold value, price_for, rate_for. f_equal.
  - destruct ((pd_Key h).1) as [id|]; [|done]. cbn. by destruct (price_of id (pd_Date h)).
  - destruct ((pd_Key h).1) as [id|]; [|done]. cbn. destruct (currency_of m id) as [c|]; [|done]. cbn. by destruct (dollar_rate c (pd_Date h)).
  - by destruct (dollar_rate display (pd_Date h)).
Qed.

Lemma row_days r : r ∈ rows → from ≤ vr_Date r < before.
Proof. rewrite rows_joined. intros (h & -> & [_ Hd]%open_daily)%list_elem_of_fmap. exact Hd. Qed.

Hypothesis of_dec_proper : ∀ x y, x ≡ y → of_dec x = of_dec y.

#[local] Instance of_dec_equiv : Proper ((≡@{D}) ==> eq) of_dec := of_dec_proper.

Lemma value_same k d q q' close fr dfr : q ≡ q' → same_row (value k d q close fr dfr) (value k d q' close fr dfr).
Proof.
  intros E. split; [exact E|]. unfold value, value_row. cbn. f_equal. unfold converted. by rewrite (of_dec_proper q q' E).
Qed.

Lemma row_at k d : from ≤ d < before →
  match ref_row k d with
  | Some v => ∃ r, filter (λ r, (vr_Key r, vr_Date r) = (k, d)) rows = [r] ∧ same_row r v
  | None => filter (λ r, (vr_Key r, vr_Date r) = (k, d)) rows = []
  end.
Proof.
  intros Hd. rewrite rows_joined, filter_fmap_comm. cbn [vr_Key vr_Date value value_row]. unfold open_holdings. rewrite list_filter_filter.
  rewrite (list_filter_iff _ (λ h, qty_is_zero (pd_Qty h) (pd_Inexact h) = false ∧ (pd_Key h, pd_Date h) = (k, d))) by naive_solver.
  rewrite <- list_filter_filter. unfold ref_row.
  set (days := filter (λ h, (pd_Key h, pd_Date h) = (k, d)) (daily_holdings m scope from before)).
  destruct (up_to m scope before k d) as [|t l] eqn:El.
  - assert (days = []) as ->; [|done]. apply elem_of_nil_inv. intros h [[= <- <-] (_ & Hne & _)%daily_sound]%list_elem_of_filter. done.
  - rewrite <- El. destruct (daily_complete m scope from before k d Hd ltac:(by rewrite El)) as (h & Hh & <- & <-).
    assert (days = [h]) as -> by exact (filter_key_alone _ _ _ (daily_unique m scope from before) Hh).
    destruct (daily_sound m scope from before h Hh) as (_ & _ & Hq & Hi). unfold closed. rewrite filter_cons, filter_nil.
    rewrite <- (qty_is_zero_proper _ _ Hq _ _ Hi).
    destruct (qty_is_zero (pd_Qty h) (pd_Inexact h)); [by rewrite decide_False|]. rewrite decide_True by done.
    eexists. split; [done|]. by apply value_same.
Qed.

(** C32: On every day of the window the valuation query has one row for each commodity with
    an open position and none for the others.  The row is the one computed from the
    definition of a valuation: the sum of the postings up to the day, valued at the
    adjusted close of the last bar up to the day within the day's span of coverage, and
    converted at the rates carried the same way.  The running sums, the spans between
    postings, the seeds and islands of the carried closes and the four joins are a way
    of computing it. *)
Theorem valuation_rows :
  (∀ r, r ∈ rows → from ≤ vr_Date r < before) ∧
  ∀ k d, from ≤ d < before →
    match ref_row k d with
    | Some v => ∃ r, filter (λ r, (vr_Key r, vr_Date r) = (k, d)) rows = [r] ∧ same_row r v
    | None => filter (λ r, (vr_Key r, vr_Date r) = (k, d)) rows = []
    end.
Proof. split; [exact row_days|exact row_at]. Qed.

(** ** Points again *)

Context (fzero : F) (fsum : list F → option F).

(** The tests under which a row's text is listed. *)
Definition listed (r : valued_row D F) : bool :=
  bool_decide (is_Some (vr_Key r).1) && bool_decide (vr_Close r = None) && negb (vr_Cash r)
  || bool_decide ((vr_Key r).1 = None) || vr_FxMissing r.

(** A row has no value exactly when its text is listed. *)
Lemma listed_unvalued r : r ∈ rows → vr_Value r = Unvalued ↔ listed r = true.
Proof.
  rewrite rows_joined. intros (h & -> & _)%list_elem_of_fmap. unfold listed. cbn [vr_Value vr_Key vr_Close vr_Cash vr_FxMissing value value_row].
  generalize (price_for (pd_Key h) (pd_Date h)), (rate_for (pd_Key h) (pd_Date h)), (dollar_rate display (pd_Date h)). intros close fr dfr.
  destruct ((pd_Key h).1) as [id|]; [|done]. cbn [mbind option_bind].
  rewrite (bool_decide_eq_true_2 (is_Some (Some id))) by done. rewrite (bool_decide_eq_false_2 (Some id = None)) by done.
  unfold converted, fx_missing. cbn [negb andb orb].
  assert (∀ x : option F, raised x ≠ Unvalued) as Hr by by intros [].
  destruct (String.eqb (default display _) display), (is_cash _); destruct close; cbn; try (done || (by split; [intros ?%Hr|])).
  all: destruct (String.eqb display "USD"), fr, dfr; cbn; try (done || (by split; [intros ?%Hr|])).
  all: by destruct (String.eqb (default "USD"%string _) "USD"); split; try intros ?%Hr.
Qed.

(** What the values of a day come to, if none of it raises. *)
Definition day_total (l : list (valued_row D F)) : option F :=
  match omap (amount ∘ vr_Value) l with [] => Some fzero | v => fsum v end.

Lemma elem_of_texts (l : list (valued_row D F)) t : t ∈ unpriced_texts l ↔ ∃ r, r ∈ l ∧ listed r = true ∧ row_text r = t.
Proof.
  unfold unpriced_texts. rewrite !elem_of_app, !elem_of_remove_dups, !list_elem_of_fmap. setoid_rewrite list_elem_of_filter.
  unfold listed. setoid_rewrite orb_true_iff. setoid_rewrite orb_true_iff. naive_solver.
Qed.

Lemma key_known r : r ∈ rows → is_Some (vr_Key r).2 ∨ ∃ id, (vr_Key r).1 = Some id ∧ id ∈ held_instruments m scope before.
Proof.
  rewrite rows_joined. intros (h & -> & [Hh _]%open_daily)%list_elem_of_fmap. cbn. pose proof (held h Hh) as Hheld.
  destruct (proj1 (elem_of_daily m scope from before h) Hh) as (r & Hr & Eh & _).
  destruct (elem_of_cumulative m scope before r Hr) as (_ & _ & t & _ & Hk & _). rewrite Eh in Hheld |- *. cbn in Hheld |- *.
  rewrite <- Hk in Hheld |- *. unfold commodity_key in *. cbn in *. destruct (r_instrument t); eauto.
Qed.

Let query := queryValuation of_dec fone fzero fmul fdiv fsum name_of m coverage scope from before display.
Let groups := go_sort (λ a b : Z * list (valued_row D F), a.1 <? b.1) (group_by vr_Date rows).

Lemma days_sorted : StronglySorted Z.lt groups.*1.
Proof.
  assert (NoDup groups.*1) as Hnd.
  { unfold groups. rewrite (go_sort_perm _ (group_by vr_Date rows)). apply group_by_keys. }
  assert (∀ a b : Z * list (valued_row D F), (a.1 <? b.1) = less_of (cmp_on fst Z.compare) a b) as Hc by done.
  pose proof (go_sort_sorted _ _ Hc (group_by vr_Date rows)) as Hs. fold groups in Hs. revert Hs Hnd. generalize groups. intros l.
  induction 1 as [|a l _ IH Ha]; intros Hnd; [constructor|]. apply NoDup_cons in Hnd as [Hn Hnd]. constructor; [by apply IH|].
  apply Forall_fmap, Forall_forall. intros b Hb. rewrite Forall_forall in Ha. specialize (Ha b Hb). unfold cmp_on in Ha. cbn.
  destruct (Z.compare_spec a.1 b.1) as [E|?|?]; [|done|done]. exfalso. apply Hn. cbn. rewrite E. by apply list_elem_of_fmap_2.
Qed.

Lemma elem_of_day_groups d g : (d, g) ∈ groups ↔ g = filter (λ r, vr_Date r = d) rows ∧ ∃ r, r ∈ rows ∧ vr_Date r = d.
Proof. unfold groups. rewrite elem_of_go_sort. apply elem_of_group_by. Qed.

Hypothesis held_named : ∀ id, id ∈ held_instruments m scope before → is_Some (name_of id).

Lemma texts_known (l : list (valued_row D F)) : (∀ r, r ∈ l → r ∈ rows) → is_Some (mapM id (unpriced_texts l)).
Proof.
  intros Hl. apply mapM_is_Some, Forall_forall. intros t (r & Hr%Hl & _ & <-)%elem_of_texts. unfold compose, id, row_text.
  destruct (key_known r Hr) as [?|(i & Ei & Hi)]; [by destruct (vr_Name r)|].
  assert (vr_Name r = name_of i) as ->; [|by destruct (held_named i Hi) as [? ->]].
  revert Hr Ei. rewrite rows_joined. intros (h & -> & _)%list_elem_of_fmap. cbn. by intros ->.
Qed.

Definition point_for (d : Z) (p : ValuationPoint) : Prop :=
  let l := filter (λ r, vr_Date r = d) rows in
  vp_Date p = d ∧ day_total l = Some (vp_TotalValue p) ∧
  ∀ t, t ∈ vp_UnpricedInstruments p ↔ t ≠ EmptyString ∧ ∃ r, r ∈ l ∧ vr_Value r = Unvalued ∧ row_text r = Some t.

(** Something of a day that is valued raises. *)
Definition raises (d : Z) : Prop :=
  let l := filter (λ r, vr_Date r = d) rows in (∃ r, r ∈ l ∧ vr_Value r = Fault) ∨ day_total l = None.

Lemma point_of_group g : g ∈ groups →
  match point_of fzero fsum g with Some p => point_for g.1 p ∧ ¬ raises g.1 | None => raises g.1 end.
Proof.
  destruct g as [d l]. intros [-> _]%elem_of_day_groups. set (l := filter _ rows).
  assert (∀ r, r ∈ l → r ∈ rows) as Hl by by intros r [_ ?]%list_elem_of_filter.
  unfold point_of. cbn [fst snd]. destruct (existsb (is_fault ∘ vr_Value) l) eqn:Ef; cbn [mbind option_bind].
  { apply existsb_exists in Ef as (r & Hr%list_elem_of_In & Hf). left. exists r. split; [done|]. unfold compose in Hf. by destruct (vr_Value r). }
  fold (day_total l). destruct (day_total l) as [total|] eqn:Et; cbn [mbind option_bind]; [|by right].
  destruct (texts_known l Hl) as [texts Ex]. rewrite Ex. cbn [mbind option_bind]. split; [split_and!; [done|done|]|].
  2: { intros [(r & Hr & Hf)|Hnone]; [|change (day_total l = None) in Hnone; congruence]. rewrite existsb_False in Ef. apply (Ef r Hr). unfold compose. by rewrite Hf. }
  intros t. cbn [vp_UnpricedInstruments]. unfold filterEmpty. rewrite list_elem_of_filter.
  assert (t ∈ texts ↔ Some t ∈ unpriced_texts l) as ->.
  { apply mapM_Some in Ex. assert (unpriced_texts l = Some <$> texts) as ->; [|by rewrite (list_elem_of_fmap_inj Some)].
    clear -Ex. induction Ex as [|x y ?? E _ IH]; [done|]. cbn. rewrite <- IH. unfold id in E. by rewrite E. }
  rewrite elem_of_texts. split; intros [? (r & Hr & Hv & ?)]; (split; [done|]); exists r; (split_and!; [done| |done]).
  - apply listed_unvalued; auto.
  - apply listed_unvalued; auto.
Qed.

(** The days on which there is a position to value. *)
Definition valued_day (d : Z) : Prop := from ≤ d < before ∧ ∃ k, is_Some (ref_row k d).

Lemma elem_of_valued_days d : d ∈ groups.*1 ↔ valued_day d.
Proof.
  rewrite list_elem_of_fmap. split.
  - intros ([d' g] & -> & [_ (r & Hr & Er)]%elem_of_day_groups). cbn. subst d'. pose proof (row_days r Hr) as Hd. split; [done|].
    exists (vr_Key r). pose proof (row_at (vr_Key r) (vr_Date r) Hd) as Hrow. destruct (ref_row _ _); [done|].
    assert (r ∈ filter (λ r', (vr_Key r', vr_Date r') = (vr_Key r, vr_Date r)) rows) as Hin by (by apply list_elem_of_filter).
    rewrite Hrow in Hin. by apply elem_of_nil in Hin.
  - intros [Hd [k [v Ev]]]. pose proof (row_at k d Hd) as Hrow. rewrite Ev in Hrow. destruct Hrow as (r & Er & _).
    assert (r ∈ filter (λ r', (vr_Key r', vr_Date r') = (k, d)) rows) as [[= _ E] Hr]%list_elem_of_filter by (rewrite Er; left).
    exists (d, filter (λ r, vr_Date r = d) rows). split; [done|]. apply elem_of_day_groups. split; [done|]. by exists r.
Qed.

Lemma points_of_groups l : (∀ g, g ∈ l → g ∈ groups) →
  match mapM (point_of fzero fsum) l with
  | Some points => Forall2 (λ g p, point_for g.1 p ∧ ¬ raises g.1) l points
  | None => ∃ g, g ∈ l ∧ raises g.1
  end.
Proof.
  induction l as [|g l IH]; intros Hl; [constructor|]. cbn [mapM]. pose proof (point_of_group g (Hl g ltac:(left))) as Hp.
  destruct (point_of fzero fsum g) as [p|]; cbn [mbind option_bind]; [|by exists g; split; [left|]].
  specialize (IH (λ g' H, Hl g' ltac:(by right))). destruct (mapM _ l); cbn [mbind option_bind]; [by constructor|].
  destruct IH as (g' & ? & ?). exists g'. split; [by right|done].
Qed.

(** What can raise, of the arithmetic of a day. *)
Definition sums_raise_not : Prop := (∀ x, is_Some (of_dec x)) ∧ (∀ x y, is_Some (fmul x y)) ∧ ∀ l, is_Some (fsum l).
Definition divisible (d : Z) : Prop := ∀ q f x, dollar_rate display d = Some q → of_dec q = Some f → is_Some (fdiv x f).

Lemma quiet_row r : sums_raise_not → divisible (vr_Date r) → r ∈ rows → vr_Value r ≠ Fault.
Proof.
  intros (Hc & Hm & _) Hdiv. rewrite rows_joined. intros (h & -> & _)%list_elem_of_fmap. cbn [vr_Value vr_Date value value_row] in *.
  unfold divisible in Hdiv. revert Hdiv. generalize (dollar_rate display (pd_Date h)), (rate_for (pd_Key h) (pd_Date h)), (price_for (pd_Key h) (pd_Date h)).
  intros dfr fr close Hdiv.
  assert (∀ x : option F, is_Some x → raised x ≠ Fault) as Hr by by intros ? [? ->].
  assert (∀ (x : option F) (f : F → option F), is_Some x → (∀ y, is_Some (f y)) → is_Some (x ≫= f)) as Hb by (intros ? f [y ->] Hf; apply Hf).
  assert (∀ (q : D) (f : F → option F), (∀ y, of_dec q = Some y → is_Some (f y)) → is_Some (of_dec q ≫= f)) as Hq
    by (intros q f Hf; destruct (Hc q) as [y Ey]; rewrite Ey; by apply Hf).
  unfold converted. destruct (negb _); [done|]. destruct (_ && _); [by apply Hr|].
  assert (∀ x : option F, is_Some x →
    (if String.eqb display "USD" then match fr with Some r => raised (x ← x; r ← of_dec r; fmul x r) | None => Unvalued end
     else match dfr with None => Unvalued | Some d =>
       if String.eqb (default "USD"%string ((id ← (pd_Key h).1; instruments (shop m) !! id) ≫= i_currency)) "USD" || bool_decide (is_Some fr) then
         raised (x ← x; f ← match fr with Some r => of_dec r | None => Some fone end; y ← fmul x f; d ← of_dec d; fdiv y d)
       else Unvalued end) ≠ Fault) as Hby.
  { intros x Hx. destruct (String.eqb display "USD").
    - destruct fr; [|done]. apply Hr, Hb; [done|]. intros y. apply Hq. intros z _. apply Hm.
    - destruct dfr as [d|]; [|done]. destruct (_ || _); [|done]. apply Hr, Hb; [done|]. intros y. apply Hb; [destruct fr; [apply Hc|by eexists]|].
      intros z. apply Hb; [apply Hm|]. intros v. apply Hq. intros f Ef. by eapply Hdiv. }
  destruct (is_cash _); [by apply Hby|]. destruct close as [c|]; [|done].
  assert (is_Some (q ← of_dec (pd_Qty h); c ← of_dec c; fmul q c)) as Hx by (apply Hq; intros y _; apply Hq; intros z _; apply Hm).
  destruct (String.eqb (default display _) display); [by apply Hr|by apply Hby].
Qed.

(** C33: A valuation returns its series, one point for each day of the window on which a
    position is open, in the order of the days, unless the arithmetic of one of those days
    raises an error, in which case it fails as a whole.  Where no cast, product or sum
    overflows, nothing raises but the division by a display currency's rate that cannot
    be divided by, such as a stored close of zero.  The total of a day adds the values of
    its positions, and the texts listed as unpriced are those of the positions the total
    leaves out: no position is dropped without being named, and none is named that was
    counted. *)
Theorem valuation_points :
  match query with
  | Some points => StronglySorted Z.lt (vp_Date <$> points) ∧ (∀ d, d ∈ vp_Date <$> points ↔ valued_day d) ∧
      Forall (λ p, point_for (vp_Date p) p ∧ ¬ raises (vp_Date p)) points
  | None => ∃ d, valued_day d ∧ raises d
  end ∧
  (sums_raise_not → (∀ d, valued_day d → divisible d) → is_Some query).
Proof.
  assert (match query with
    | Some points => Forall2 (λ g p, point_for g.1 p ∧ ¬ raises g.1) groups points
    | None => ∃ d, valued_day d ∧ raises d end) as Hq.
  { unfold query, queryValuation. fold rows groups. pose proof (points_of_groups groups ltac:(done)) as Hp. destruct (mapM _ groups); [done|].
    destruct Hp as (g & Hg & Hr). exists g.1. split; [|done]. apply elem_of_valued_days. by apply list_elem_of_fmap_2. }
  split.
  - destruct query as [points|]; [|done].
    assert (vp_Date <$> points = groups.*1) as Ed.
    { clear -Hq. induction Hq as [|g p l ps [[E _] _] _ IH]; [done|]. cbn. by rewrite E, IH. }
    split_and!; [rewrite Ed; exact days_sorted|intros d; rewrite Ed; apply elem_of_valued_days|].
    clear -Hq. induction Hq as [|g p l ps Hg _ IH]; constructor; [|done]. pose proof Hg as [[E _] _]. by rewrite E.
  - intros Hops Hdiv. destruct query as [points|]; [by eexists|]. destruct Hq as (d & Hd & [(r & [<- Hr]%list_elem_of_filter & Hf)|Ht]).
    + exfalso. exact (quiet_row r Hops (Hdiv _ Hd) Hr Hf).
    + exfalso. revert Ht. unfold day_total. destruct Hops as (_ & _ & Hs). destruct (omap _ _) as [|v l]; [done|]. destruct (Hs (v :: l)). congruence.
Qed.
End rows.

(** ** A position in another currency *)

Section witnesses.
#[local] Existing Instances QDecimal.q_decimal QDecimal.q_decimal_laws.

Definition pound_pair : identifier := {| holder := "cable"; naming := {|
  ii_Ref := {| ref_Type := "FX_PAIR"; ref_Value := "GBPUSD"; ref_Domain := EmptyString |};
  ii_Canonical := true; ii_ValidFrom := None; ii_ValidBefore := None |} |}.

Definition stored_bar (i : string) (d : Z) (c : Q) : PriceStore.stored (D:=Q) :=
  {| PriceStore.st_bar := PriceStore.bar i d "eodhd" c; PriceStore.st_fetched := 0; PriceStore.st_basis := 0 |}.

(** Ten dollar shares bought on day 1 and sold on day 7; they close at 100 on day 1 and
    are covered until day 5, and the pound is 2 dollars from day 0. *)
Definition shares : list (row Q) :=
  [posting "buy" "a" "USER" (Some "aapl") 10 "g1" 1; posting "sell" "a" "USER" (Some "aapl") (-10) "g2" 7].

Definition pounds : market Q := {|
  shop := {| instruments := <["aapl" := stock 1]> ∅; identifiers := [pound_pair]; declared := [];
             book := {| txs := shares; tx_groups := ∅; transfer_matches := [] |} |};
  stock_splits := [];
  eod_prices := <[("aapl", 1) := stored_bar "aapl" 1 100]> (<[("cable", 0) := stored_bar "cable" 0 2]> ∅);
  adjusted_txs := ∅; adjusted_prices := ∅; unhandled := [] |}.

Definition spans_known : list Coverage.row :=
  [ {| Coverage.cv_instrument := "aapl"; Coverage.cv_plugin := "eodhd"; Coverage.cv_range := {| From := 0; Before := 5 |}; Coverage.cv_fetched := 0 |};
    {| Coverage.cv_instrument := "cable"; Coverage.cv_plugin := "eodhd"; Coverage.cv_range := {| From := 0; Before := 9 |}; Coverage.cv_fetched := 0 |} ].

Lemma known_nonempty r : r ∈ spans_known → nonempty (Coverage.cv_range r).
Proof. intros [-> | -> %list_elem_of_singleton]%elem_of_cons; done. Qed.

Lemma pound_named_once c : (length (pair_holders pounds c) ≤ 1)%nat.
Proof. unfold pair_holders. rewrite length_fmap. etransitivity; [apply length_filter|]. done. Qed.

Definition ticker_of (id : string) : option string := Some (id +:+ " shares").

(** Equal numbers have one reduced fraction. *)
Lemma red_proper (x y : Q) : x ≡ y → Qred x = Qred y.
Proof. intros E. by apply Qred_complete. Qed.

Definition q_sum (l : list Q) : option Q := Some (Qred (foldr Qplus 0%Q l)).
Definition q_cast (q : Q) : option Q := Some (Qred q).
Definition q_mul (x y : Q) : option Q := Some (Qmult x y).
Definition q_over (x y : Q) : option Q := if Qeq_bool y 0 then None else Some (Qdiv x y).

Definition pound_rows : list (valued_row Q Q) :=
  valued_rows q_cast 1%Q q_mul q_over ticker_of pounds spans_known (user_valued "u" pounds) 3 9 "GBP".

Definition pound_valuation : option (list ValuationPoint) :=
  queryValuation q_cast 1%Q 0%Q q_mul q_over q_sum ticker_of pounds spans_known (user_valued "u" pounds) 3 9 "GBP".

(** From day 3 to day 8 in pounds: the shares are worth 500 while they are covered and
    unpriced after that, and the position is gone on day 7. *)
Example pound_points :
  ((λ p, (vp_Date p, vp_TotalValue p, vp_UnpricedInstruments p)) <$> default [] pound_valuation) =
  [(3, 500%Q, []); (4, 500%Q, []); (5, 0%Q, ["aapl shares"%string]); (6, 0%Q, ["aapl shares"%string])].
Proof. by vm_compute. Qed.

Lemma cast_proper (x y : Q) : x ≡ y → q_cast x = q_cast y.
Proof. intros E. unfold q_cast. by rewrite (red_proper x y E). Qed.

Lemma valuation_rows_witness :
  ∃ r, filter (λ r, (vr_Key r, vr_Date r) = ((Some "aapl"%string, None), 4)) pound_rows = [r] ∧ Qred <$> amount (vr_Value r) = Some 500%Q.
Proof.
  destruct (valuation_rows q_cast 1%Q q_mul q_over ticker_of pounds spans_known (user_valued "u" pounds) 3 9 "GBP"
    known_nonempty pound_named_once cast_proper) as [_ Hrow].
  specialize (Hrow (Some "aapl"%string, None) 4 ltac:(lia)).
  destruct (ref_row _ _ _ _ _ _ _ _ _ _ _ _) as [v|] eqn:Ev.
  - destruct Hrow as (r & Er & _ & Es). exists r. split; [exact Er|]. rewrite Es. cbn. revert Ev. vm_compute. by intros [= <-].
  - exfalso. revert Ev. by vm_compute.
Defined.

Lemma valuation_points_witness : ∃ points, pound_valuation = Some points ∧
  StronglySorted Z.lt (vp_Date <$> points) ∧ (vp_Date <$> points) = [3; 4; 5; 6].
Proof.
  pose proof (valuation_points q_cast 1%Q q_mul q_over ticker_of pounds spans_known (user_valued "u" pounds) 3 9 "GBP"
    known_nonempty pound_named_once cast_proper 0%Q q_sum (λ id _, ltac:(by eexists))) as [Hq _].
  revert Hq. destruct (queryValuation q_cast 1%Q 0%Q q_mul q_over q_sum ticker_of pounds spans_known (user_valued "u" pounds) 3 9 "GBP")
    as [points|] eqn:E; intros Hq; [|exfalso; revert E; by vm_compute].
  destruct Hq as [Hs _]. exists points. split; [exact E|]. split; [exact Hs|]. revert E. vm_compute. by intros [= <-].
Defined.

(** A rate of zero for the display currency: nothing of the period is valued, of whatever
    instrument or day. *)
Lemma zero_rate_fails :
  queryValuation q_cast 1%Q 0%Q q_mul q_over q_sum ticker_of
    {| shop := shop pounds; stock_splits := []; eod_prices := <[("cable", 4) := stored_bar "cable" 4 0]> (eod_prices pounds);
       adjusted_txs := ∅; adjusted_prices := ∅; unhandled := [] |}
    spans_known (user_valued "u" pounds) 3 9 "GBP" = None.
Proof. by vm_compute. Qed.
End witnesses.
End Valuation.
