(* ===== verification/GroupCycle.v ===== *)
(** * The grouping worker

    server/grouping/worker.go ([runCycle], [cycleUser]) and server/grouping/shadow.go
    ([Compare]), with ListGroupingSeeds of db/postgres/grouping.go: a cycle over the
    groups a missing leg would explain, and what it reports.

    A read that fails, and [Diff] of a group without members, which would panic, are the
    error of the user's cycle; [cycle_seed_spec] shows that over the store neither happens.
    The loop on the trigger channel, the log and the worker registry are not modelled. *)

From stdpp Require Import relations pretty.
From Stdlib Require Import QArith.
From S2P Require Import Prelude GoStrings Decimal TxType Posting GroupState Grouping Engine Neighbourhood Diff Residual Ledger.

Local Open Scope nat_scope.

Module GroupCycle.
Import TxType Posting GroupState Grouping Engine Neighbourhood Diff Residual Ledger.

(** ** [Compare] *)

Record Divergence := { Groups : nat; Stored : nat; Agreed : nat; Joined : nat; Split : nat; Examples : list string }.

Definition Agrees (d : Divergence) : bool := (Groups d =? Stored d) && (Agreed d =? Groups d).

Definition maxExamples : nat := 5.

Definition note (s : string) (d : Divergence) : Divergence :=
  if length (Examples d) <? maxExamples then
    {| Groups := Groups d; Stored := Stored d; Agreed := Agreed d; Joined := Joined d; Split := Split d; Examples := Examples d ++ [s] |}
  else d.

Definition joined (d : Divergence) : Divergence :=
  {| Groups := Groups d; Stored := Stored d; Agreed := Agreed d; Joined := S (Joined d); Split := Split d; Examples := Examples d |}.
Definition agreed (d : Divergence) : Divergence :=
  {| Groups := Groups d; Stored := Stored d; Agreed := S (Agreed d); Joined := Joined d; Split := Split d; Examples := Examples d |}.

Definition memberList (g : Group) : string :=
  "[" +:+ String.concat " " (sort_strings (MemberID <$> Members g)) +:+ "]".

Section compare.
Context {D : Type}.
Implicit Types (ps : list (GroupingPosting D)) (g : Group).

Definition storedSize ps (s : string) : nat := length (filter (λ p, GroupID p = s) ps).

(** The stored groups a derived group drew from. *)
Definition seen ps g : list string := remove_dups ((λ m, storedOf ps (MemberID m)) <$> Members g).

Definition compare_group ps (d : Divergence) g : Divergence :=
  let only := default EmptyString (head (seen ps g)) in
  if 1 <? length (seen ps g) then
    note ("joined " +:+ pretty (length (seen ps g)) +:+ " stored groups into " +:+ memberList g) (joined d)
  else if (length (seen ps g) =? 1) && (storedSize ps only =? length (Members g)) then agreed d
  else note ("took " +:+ memberList g +:+ " out of a stored group of " +:+ pretty (storedSize ps only)) d.

(** How many derived groups drew from a stored one. *)
Definition derivedPerStored ps (gs : list Group) (s : string) : nat := length (filter (λ g, s ∈ seen ps g) gs).

Definition Compare ps (gs : list Group) : Divergence :=
  let d := foldl (compare_group ps)
    {| Groups := length gs; Stored := length (remove_dups (GroupID <$> ps)); Agreed := 0; Joined := 0; Split := 0; Examples := [] |} gs in
  {| Groups := Groups d; Stored := Stored d; Agreed := Agreed d; Joined := Joined d;
     Split := length (filter (λ s, 1 < derivedPerStored ps gs s) (remove_dups (gs ≫= seen ps))); Examples := Examples d |}.
End compare.

(** The totals of a cycle. *)
Definition add_to (total d : Divergence) : Divergence :=
  foldl (λ t e, note e t)
    {| Groups := Groups total + Groups d; Stored := Stored total + Stored d; Agreed := Agreed total + Agreed d;
       Joined := Joined total + Joined d; Split := Split total + Split d; Examples := Examples total |} (Examples d).

Definition no_divergence : Divergence := {| Groups := 0; Stored := 0; Agreed := 0; Joined := 0; Split := 0; Examples := [] |}.

(** ** The cycle *)

Section cycle.
Context {D : Type} `{Decimal D}.
Context (gen_uuid : gset string → string) (uuid_ok : string → bool).
Context (num_div : D → D → D) (num_scale : D → Z) (currency_instrument : string → option string) (opts : Opts D).
Implicit Types (l : ledger D) (s p : GroupingPosting D).

Record GroupingSeedOpts := { so_UserID : string; so_Residual : bool; so_JobID : string }.

(** [anyUsersPostings]: an empty user stands for all of them. *)
Definition any_users (userID : string) l : list (Ledger.row D) :=
  filter (λ t, (userID = EmptyString ∨ r_user t = userID) ∧ r_purpose t = None ∧
    padded (grouping_rows l) (r_group t) = false) (txs l).

(** The group holds something a missing leg would explain. *)
Definition wanting l (g : string) : bool :=
  existsb (λ r, String.eqb (r_group r) g && bool_decide (r_account_type r ∈ ["IMBALANCE"; "TRANSFER_CLEARING"])) (txs l).

Definition of_job l (g job : string) : bool := bool_decide ((tx_groups l !! g ≫= g_job) = Some job).

Definition seed_before (a b : GroupingPosting D) : bool :=
  String.ltb (UserID a) (UserID b) || String.eqb (UserID a) (UserID b) && String.ltb (ID a) (ID b).

Definition ListGroupingSeeds (o : GroupingSeedOpts) l : option (list (GroupingPosting D)) :=
  if negb (String.eqb (so_UserID o) EmptyString) && negb (uuid_ok (so_UserID o)) then None
  else if negb (String.eqb (so_JobID o) EmptyString) && negb (uuid_ok (so_JobID o)) then None
  else Some (go_sort seed_before (toDomain l <$> filter (λ t,
    (so_Residual o = true → wanting l (r_group t) = true) ∧
    (so_JobID o ≠ EmptyString → of_job l (r_group t) (so_JobID o) = true)) (any_users (so_UserID o) l))).

Definition apply_ := ApplyGrouping gen_uuid uuid_ok num_div num_scale currency_instrument.

(** One neighbourhood: what was grown and drawn, and the ledger it leaves. *)
Definition cycle_seed (userID : string) s l : option (list (GroupingPosting D) * Divergence * ledger D) :=
  ps ← mjoin (Neighbourhood (S (length (txs l))) userID [s] DefaultRules (store_reader uuid_ok (grouping_rows l)));
  let gs := Partition ps DefaultRules opts in
  changes ← Diff ps gs;
  l' ← match changes with [] => Some l | _ => fst <$> apply_ userID changes l end;
  Some (ps, Compare ps gs, l').

(** [cycleUser]: the ledger, and the totals unless a neighbourhood failed; what was
    written before that stays. *)
Fixpoint cycle_seeds (userID : string) (seeds : list (GroupingPosting D)) (done : gset string) (total : Divergence) l
    : ledger D * option Divergence :=
  match seeds with
  | [] => (l, Some total)
  | s :: seeds' =>
      if decide (ID s ∈ done) then cycle_seeds userID seeds' done total l
      else match cycle_seed userID s l with
           | None => (l, None)
           | Some (ps, d, l') => cycle_seeds userID seeds' (list_to_set (ID <$> ps) ∪ done) (add_to total d) l'
           end
  end.

Definition cycleUser (userID : string) (seeds : list (GroupingPosting D)) l : ledger D * option Divergence :=
  cycle_seeds userID seeds ∅ no_divergence l.

Fixpoint first_seen (l : list string) : list string :=
  match l with [] => [] | u :: l' => u :: filter (λ v, v ≠ u) (first_seen l') end.

Definition usersOf (seeds : list (GroupingPosting D)) : list string := first_seen (UserID <$> seeds).
Definition byUser (seeds : list (GroupingPosting D)) (userID : string) : list (GroupingPosting D) := filter (λ s, UserID s = userID) seeds.

Record cycle_report := { cr_ledger : ledger D; cr_total : Divergence; cr_failed : bool }.

(** A user whose derivation fails does not stop the others. *)
Definition cycle_user (seeds : list (GroupingPosting D)) (r : cycle_report) (userID : string) : cycle_report :=
  let '(l, d) := cycleUser userID (byUser seeds userID) (cr_ledger r) in
  match d with
  | None => {| cr_ledger := l; cr_total := cr_total r; cr_failed := true |}
  | Some d => {| cr_ledger := l; cr_total := add_to (cr_total r) d; cr_failed := cr_failed r |}
  end.

Definition runCycle l : cycle_report :=
  let start := {| cr_ledger := l; cr_total := no_divergence; cr_failed := false |} in
  match ListGroupingSeeds {| so_UserID := EmptyString; so_Residual := true; so_JobID := EmptyString |} l with
  | None => {| cr_ledger := l; cr_total := no_divergence; cr_failed := true |}
  | Some seeds => foldl (cycle_user seeds) start (usersOf seeds)
  end.
End cycle.
#[global] Arguments cycle_report : clear implicits.

(** ** What a comparison counts *)

Lemma note_counts e d : Groups (note e d) = Groups d ∧ Stored (note e d) = Stored d ∧ Agreed (note e d) = Agreed d ∧
  Joined (note e d) = Joined d ∧ Split (note e d) = Split d ∧ (length (Examples d) ≤ maxExamples → length (Examples (note e d)) ≤ maxExamples).
Proof.
  unfold note. destruct (Nat.ltb_spec (length (Examples d)) maxExamples); split_and!; try done. cbn. rewrite length_app. cbn. lia.
Qed.

Section compare_counts.
Context {D : Type} `{DecimalLaws D}.
Implicit Types (ps : list (GroupingPosting D)) (g : Group).

(** Drawn from more than one stored group. *)
Definition joins ps g : bool := 1 <? length (seen ps g).
Definition matches ps g : bool := (length (seen ps g) =? 1) && (storedSize ps (default EmptyString (head (seen ps g))) =? length (Members g)).

Lemma compare_loop ps gs d : let d' := foldl (compare_group ps) d gs in
  Groups d' = Groups d ∧ Stored d' = Stored d ∧
  Agreed d' = Agreed d + length (filter (λ g, matches ps g = true) gs) ∧
  Joined d' = Joined d + length (filter (λ g, joins ps g = true) gs) ∧
  (length (Examples d) ≤ maxExamples → length (Examples d') ≤ maxExamples).
Proof.
  revert d. induction gs as [|g gs IH]; intros d; [cbn; split_and!; done || lia|]. cbn [foldl]. cbn zeta in IH.
  destruct (IH (compare_group ps d g)) as (-> & -> & -> & -> & He). rewrite !filter_cons.
  assert (∀ b : bool, (if decide (b = true) then (1:nat) else 0) = if b then 1 else 0) as Hb by by intros [].
  unfold compare_group, joins, matches in *. destruct (Nat.ltb_spec 1 (length (seen ps g))) as [Hj|Hj].
  - destruct (note_counts ("joined " +:+ pretty (length (seen ps g)) +:+ " stored groups into " +:+ memberList g) (joined d))
      as (-> & -> & -> & -> & _ & Hn). rewrite (proj2 (Nat.eqb_neq _ 1)) by lia. cbn [andb]. rewrite decide_False by done.
    rewrite (decide_True (P := true = true)) by done. cbn. split_and!; [done|done|lia|lia|]. intros Hd. apply He, Hn, Hd.
  - destruct (_ && _) eqn:Em.
    + rewrite decide_True by done. rewrite decide_False by done. cbn. split_and!; [done|done|lia|lia|exact He].
    + rewrite decide_False by done. rewrite decide_False by done.
      destruct (note_counts ("took " +:+ memberList g +:+ " out of a stored group of " +:+ pretty (storedSize ps (default EmptyString (head (seen ps g))))) d)
        as (-> & -> & -> & -> & _ & Hn). split_and!; [done|done|lia|lia|]. intros Hd. apply He, Hn, Hd.
Qed.

Lemma all_filtered {A : Type} (P : A → Prop) `{∀ a, Decision (P a)} (l : list A) : length (filter P l) = length l ↔ ∀ a, a ∈ l → P a.
Proof.
  split.
  - induction l as [|b l IH]; intros E a Ha; [by apply elem_of_nil in Ha|]. rewrite filter_cons in E. pose proof (length_filter P l).
    destruct (decide (P b)); cbn in E; [|lia]. apply elem_of_cons in Ha as [->|Ha]; [done|]. apply IH; [lia|done].
  - intros Hall. f_equal. induction l as [|a l IH]; [done|]. rewrite filter_cons, decide_True by (apply Hall; left).
    f_equal. apply IH. intros b Hb. apply Hall. by right.
Qed.

(** The stored groups are the ones its members are in. *)
Lemma elem_of_seen ps gs g s : derived ps gs → g ∈ gs → s ∈ seen ps g ↔ ∃ p, p ∈ ps ∧ ID p ∈ MemberID <$> Members g ∧ GroupID p = s.
Proof.
  intros Hd Hg. unfold seen. rewrite elem_of_remove_dups, list_elem_of_fmap. split.
  - intros (m & -> & Hm). destruct (dv_members _ _ Hd g m Hg Hm) as (p & Hp & Ep). exists p. split_and!; [done| |].
    + rewrite Ep. by apply list_elem_of_fmap_2.
    + unfold storedOf. rewrite <- Ep, last_of_lookup; [done|apply (dv_distinct _ _ Hd)|done].
  - intros (p & Hp & (m & Em & Hm)%list_elem_of_fmap & <-). exists m. split; [|done]. unfold storedOf.
    rewrite <- Em, last_of_lookup; [done|apply (dv_distinct _ _ Hd)|done].
Qed.

Lemma seen_stored ps gs g s : derived ps gs → g ∈ gs → (∀ p, p ∈ ps → ID p ∈ MemberID <$> Members g ↔ GroupID p = s) → seen ps g = [s].
Proof.
  intros Hd Hg Hst. assert (∀ x, x ∈ seen ps g ↔ x = s) as Hx.
  { intros x. rewrite (elem_of_seen _ _ _ _ Hd Hg). split.
    - intros (p & Hp & Hin & <-). by apply Hst.
    - intros ->. destruct (Members g) as [|m ms] eqn:Em; [by destruct (dv_nonempty _ _ Hd g)|].
      destruct (dv_members _ _ Hd g m Hg) as (p & Hp & Ep); [rewrite Em; left|]. exists p. rewrite <- Em in *.
      assert (ID p ∈ MemberID <$> Members g) as Hin by (rewrite Ep, Em; left). split_and!; [done|done|by apply Hst]. }
  assert (seen ps g ≡ₚ [s]) as Hp%Permutation_singleton_r; [|done].
  apply NoDup_Permutation; [apply NoDup_remove_dups|apply NoDup_singleton|]. intros x. by rewrite Hx, list_elem_of_singleton.
Qed.

(** A derived group matches a stored one when it is stored as it was drawn. *)
Lemma matches_stored ps gs g : derived ps gs → g ∈ gs → matches ps g = true ↔ stored_as ps g.
Proof.
  intros Hd Hg. pose proof (dv_distinct _ _ Hd) as Hnd. pose proof (derived_group_nodup _ _ _ Hd Hg) as Hng.
  set (held s := ID <$> filter (λ p, GroupID p = s) ps).
  assert (∀ s, NoDup (held s)) as Hheld.
  { intros s. eapply sublist_NoDup; [exact Hnd|]. apply fmap_sublist, sublist_filter. }
  assert (∀ s, storedSize ps s = length (held s)) as Hsize by (intros s; unfold held; by rewrite length_fmap).
  unfold matches. rewrite andb_true_iff, !Nat.eqb_eq, Hsize. split.
  - intros [Hl Hs]. destruct (seen ps g) as [|s [|]] eqn:Es; cbn in Hl; [done| |lia]. cbn in Hs. exists s.
    assert (∀ x, x ∈ MemberID <$> Members g → x ∈ held s) as Hsub.
    { intros x (m & -> & Hm)%list_elem_of_fmap. destruct (dv_members _ _ Hd g m Hg Hm) as (p & Hp & Ep). rewrite <- Ep.
      apply list_elem_of_fmap_2, list_elem_of_filter. split; [|done].
      assert (GroupID p ∈ seen ps g) as Hin; [|rewrite Es in Hin; by apply list_elem_of_singleton in Hin].
      apply (elem_of_seen _ _ _ _ Hd Hg). exists p. split_and!; [done| |done]. rewrite Ep. by apply list_elem_of_fmap_2. }
    assert (MemberID <$> Members g ≡ₚ held s) as Hperm.
    { apply submseteq_length_Permutation; [by apply NoDup_submseteq|]. rewrite Hs, length_fmap. done. }
    intros p Hp. rewrite Hperm. unfold held. split.
    + intros (q & Eq & [Eg Hq]%list_elem_of_filter)%list_elem_of_fmap. rewrite <- Eg. f_equal.
      eapply (NoDup_fmap_inj_in ID); [exact Hnd|done..].
    + intros Eg. apply list_elem_of_fmap_2, list_elem_of_filter. done.
  - intros [s Hst].
    rewrite (seen_stored ps gs g s Hd Hg Hst).
    split; [done|]. cbn. rewrite <- (length_fmap MemberID). apply Permutation_length, NoDup_Permutation; [done|done|].
    intros x. unfold held. rewrite list_elem_of_fmap. split.
    + intros (p & -> & [Eg Hp]%list_elem_of_filter). by apply Hst.
    + intros Hin. pose proof Hin as (m' & -> & Hm')%list_elem_of_fmap. destruct (dv_members _ _ Hd g m' Hg Hm') as (p & Hp & Ep).
      exists p. split; [done|]. apply list_elem_of_filter. split; [|done]. apply Hst; [done|]. by rewrite Ep.
Qed.

Lemma NoDup_groups ps gs : derived ps gs → NoDup gs.
Proof.
  induction gs as [|g gs IH]; intros Hd; [constructor|]. apply NoDup_cons. split; [|by eapply IH, derived_cons].
  intros Hg. pose proof (dv_nodup _ _ Hd) as Hn. csimpl in Hn. rewrite fmap_app in Hn. apply NoDup_app in Hn as (_ & Hdis & _).
  destruct (Members g) as [|m ms] eqn:Em; [by apply (dv_nonempty _ _ Hd g ltac:(left))|]. apply (Hdis (MemberID m)); [left|].
  apply list_elem_of_fmap_2, elem_of_bind. exists g. rewrite Em. split; [left|done].
Qed.

Section partition.
Context (rules : list (Rule D)) (ps : list (GroupingPosting D)) (opts : Opts D).
Hypothesis shipped : ∀ r, r ∈ rules → r ∈ (DefaultRules : list (Rule D)).
Hypothesis distinct : distinct_ids ps.
Let gs := Partition ps rules opts.
Let d := Compare ps gs.

Lemma drawn : derived ps gs.
Proof. by apply partition_derived. Qed.

(** Every posting is in a derived group. *)
Lemma drawn_in p : p ∈ ps → ∃ g, g ∈ gs ∧ ID p ∈ MemberID <$> Members g.
Proof.
  intros Hp. assert (ID p ∈ MemberID <$> (gs ≫= Members)) as (m & Em & (g & Hm & Hg)%elem_of_bind)%list_elem_of_fmap.
  { unfold gs. rewrite (partition_ids rules ps opts (default_rules_sim rules shipped)). by apply list_elem_of_fmap_2. }
  exists g. split; [done|]. rewrite Em. by apply list_elem_of_fmap_2.
Qed.

Lemma drawn_once g g' x : g ∈ gs → g' ∈ gs → x ∈ MemberID <$> Members g → x ∈ MemberID <$> Members g' → g = g'.
Proof.
  intros Hg Hg' (m & -> & Hm)%list_elem_of_fmap (m' & E & Hm')%list_elem_of_fmap. pose proof (dv_nodup _ _ drawn) as Hnd.
  assert (m = m') as <-.
  { eapply (NoDup_fmap_inj_in MemberID); [exact Hnd|apply elem_of_bind; eauto..|done]. }
  eapply (NoDup_bind_inj Members gs); [eapply NoDup_fmap_1, Hnd|done..].
Qed.

Lemma stored_count : (∀ g, g ∈ gs → stored_as ps g) → length gs = length (remove_dups (GroupID <$> ps)).
Proof.
  intros Hall. set (f g := default EmptyString (head (seen ps g))). rewrite <- (length_fmap f).
  assert (∀ g, g ∈ gs → ∀ p, p ∈ ps → ID p ∈ MemberID <$> Members g ↔ GroupID p = f g) as Hf.
  { intros g Hg. destruct (Hall g Hg) as [s Hs]. unfold f. by rewrite (seen_stored ps gs g s drawn Hg Hs). }
  apply Permutation_length, NoDup_Permutation; [|apply NoDup_remove_dups|].
  - apply NoDup_fmap_2_strong; [|apply (NoDup_groups _ _ drawn)]. intros g g' Hg Hg' E.
    destruct (Members g) as [|m ms] eqn:Em; [by destruct (dv_nonempty _ _ drawn g)|].
    destruct (dv_members _ _ drawn g m Hg) as (p & Hp & Ep); [rewrite Em; left|].
    assert (ID p ∈ MemberID <$> Members g) as Hin by (rewrite Ep, Em; left).
    eapply (drawn_once g g' (ID p)); [done..|]. apply (Hf g' Hg' p Hp). rewrite <- E. by apply (Hf g Hg).
  - intros s. rewrite elem_of_remove_dups, !list_elem_of_fmap. split.
    + intros (g & -> & Hg). destruct (Members g) as [|m ms] eqn:Em; [by destruct (dv_nonempty _ _ drawn g)|].
      destruct (dv_members _ _ drawn g m Hg) as (p & Hp & Ep); [rewrite Em; left|]. exists p. split; [|done]. symmetry.
      apply (Hf g Hg p Hp). rewrite Ep, Em. left.
    + intros (p & -> & Hp). destruct (drawn_in p Hp) as (g & Hg & Hin). exists g. split; [|done]. by apply (Hf g Hg p Hp).
Qed.

Lemma compare_fields : Groups d = length gs ∧ Stored d = length (remove_dups (GroupID <$> ps)) ∧
  Agreed d = length (filter (λ g, matches ps g = true) gs) ∧ Joined d = length (filter (λ g, joins ps g = true) gs) ∧
  Split d = length (filter (λ s, 1 < derivedPerStored ps gs s) (remove_dups (gs ≫= seen ps))) ∧ length (Examples d) ≤ maxExamples.
Proof.
  unfold d, Compare. cbn. pose proof (compare_loop ps gs {| Groups := length gs; Stored := length (remove_dups (GroupID <$> ps));
    Agreed := 0; Joined := 0; Split := 0; Examples := [] |}) as (-> & -> & -> & -> & He). split_and!; [done..|]. apply He. cbn. unfold maxExamples. lia.
Qed.

Lemma agrees_stored : Agrees d = true ↔ ∀ g, g ∈ gs → stored_as ps g.
Proof.
  destruct compare_fields as (Eg & Es & Ea & _). unfold Agrees. rewrite andb_true_iff, !Nat.eqb_eq, Eg, Es, Ea, all_filtered. split.
  - intros [_ Hall] g Hg. by apply (matches_stored ps gs g drawn Hg), Hall.
  - intros Hall. split; [by apply stored_count|]. intros g Hg. by apply (matches_stored ps gs g drawn Hg), Hall.
Qed.

Lemma joined_none : Joined d = 0 ↔ ∀ g p q, g ∈ gs → p ∈ ps → q ∈ ps → ID p ∈ MemberID <$> Members g → ID q ∈ MemberID <$> Members g → GroupID p = GroupID q.
Proof.
  destruct compare_fields as (_ & _ & _ & -> & _). rewrite length_zero_iff_nil. split.
  - intros En g p q Hg Hp Hq Hpg Hqg. assert (joins ps g = false) as Hj.
    { destruct (joins ps g) eqn:Ej; [|done]. assert (g ∈ filter (λ g, joins ps g = true) gs) as Hin by by apply list_elem_of_filter.
      rewrite En in Hin. by apply elem_of_nil in Hin. }
    assert (∀ x, x ∈ ps → ID x ∈ MemberID <$> Members g → GroupID x ∈ seen ps g) as Hin.
    { intros x ??. apply (elem_of_seen _ _ _ _ drawn Hg). eauto. }
    pose proof (Hin p Hp Hpg) as H1. pose proof (Hin q Hq Hqg) as H2. unfold joins in Hj. apply Nat.ltb_ge in Hj.
    destruct (seen ps g) as [|s [|]]; cbn in Hj; [by apply elem_of_nil in H1| |lia].
    apply list_elem_of_singleton in H1, H2. congruence.
  - intros Hall. apply elem_of_nil_inv. intros g [Hj Hg]%list_elem_of_filter. unfold joins in Hj. apply Nat.ltb_lt in Hj.
    pose proof (NoDup_remove_dups ((λ m, storedOf ps (MemberID m)) <$> Members g)) as Hnd. fold (seen ps g) in Hnd.
    destruct (seen ps g) as [|s [|s' l]] eqn:Es; cbn in Hj; [lia|lia|].
    assert (s ∈ seen ps g ∧ s' ∈ seen ps g) as [(p & Hp & Hpg & <-)%(elem_of_seen _ _ _ _ drawn Hg) (q & Hq & Hqg & <-)%(elem_of_seen _ _ _ _ drawn Hg)].
    { rewrite Es. split; [left|right; left]. }
    apply NoDup_cons in Hnd as [Hn _]. apply Hn. rewrite (Hall g p q) by done. left.
Qed.

Lemma split_none : Split d = 0 ↔ ∀ g g' p q, g ∈ gs → g' ∈ gs → p ∈ ps → q ∈ ps → GroupID p = GroupID q →
  ID p ∈ MemberID <$> Members g → ID q ∈ MemberID <$> Members g' → g = g'.
Proof.
  destruct compare_fields as (_ & _ & _ & _ & -> & _). rewrite length_zero_iff_nil. split.
  - intros En g g' p q Hg Hg' Hp Hq E Hpg Hqg. apply dec_stable. intros Hne.
    assert (GroupID p ∈ seen ps g ∧ GroupID p ∈ seen ps g') as [Hs Hs'].
    { split; [apply (elem_of_seen _ _ _ _ drawn Hg)|apply (elem_of_seen _ _ _ _ drawn Hg'); rewrite E]; eauto. }
    assert (GroupID p ∈ filter (λ s, 1 < derivedPerStored ps gs s) (remove_dups (gs ≫= seen ps))) as Hin.
    { apply list_elem_of_filter. split; [|rewrite elem_of_remove_dups; apply elem_of_bind; eauto]. unfold derivedPerStored.
      assert (length [g; g'] ≤ length (filter (λ g, GroupID p ∈ seen ps g) gs)) as Hl; [|cbn in Hl; lia].
      apply submseteq_length, NoDup_submseteq.
      - apply NoDup_cons. split; [by rewrite list_elem_of_singleton|apply NoDup_singleton].
      - intros x [-> | -> %list_elem_of_singleton]%elem_of_cons; by apply list_elem_of_filter. }
    rewrite En in Hin. by apply elem_of_nil in Hin.
  - intros Hall. apply elem_of_nil_inv. intros s [Hl _]%list_elem_of_filter. unfold derivedPerStored in Hl.
    pose proof (NoDup_filter (λ g, s ∈ seen ps g) gs (NoDup_groups _ _ drawn)) as Hnd.
    assert (∀ g, g ∈ filter (λ g, s ∈ seen ps g) gs → g ∈ gs ∧ ∃ p, p ∈ ps ∧ ID p ∈ MemberID <$> Members g ∧ GroupID p = s) as Hin.
    { intros g [Hs Hg]%list_elem_of_filter. split; [done|]. by apply (elem_of_seen _ _ _ _ drawn Hg). }
    destruct (filter _ gs) as [|g [|g' l]]; cbn in Hl; [lia|lia|].
    destruct (Hin g ltac:(left)) as (Hg & p & Hp & Hpg & Ep). destruct (Hin g' ltac:(right; left)) as (Hg' & q & Hq & Hqg & Eq).
    apply NoDup_cons in Hnd as [Hn _]. apply Hn. rewrite (Hall g g' p q) by congruence. left.
Qed.

(** C36: What a shadow run reports is what it says.  It agrees exactly when every derived group
    is stored as it was drawn; that is when nothing was joined and nothing split, and
    when the changes the cycle would write move no posting.  The groups it counts as
    agreed are those stored as drawn, and it names at most five disagreements. *)
Theorem comparison_true :
  (Agrees d = true ↔ ∀ g, g ∈ gs → stored_as ps g) ∧
  (Agrees d = true ↔ Joined d = 0 ∧ Split d = 0) ∧
  (∃ changes, Diff ps gs = Some changes ∧
    (Agrees d = true ↔ ∀ c m, c ∈ changes → m ∈ gc_Members c → gmc_Moving m = false)) ∧
  (∃ same, same `sublist_of` gs ∧ length same = Agreed d ∧ ∀ g, g ∈ gs → g ∈ same ↔ stored_as ps g) ∧
  length (Examples d) ≤ maxExamples.
Proof.
  pose proof agrees_stored as Ha. destruct compare_fields as (_ & _ & Eagreed & _ & _ & He). split_and!; [exact Ha|..|done].
  - rewrite Ha, joined_none, split_none. split.
    + intros Hall. split.
      * intros g p q Hg Hp Hq Hpg Hqg. destruct (Hall g Hg) as [s Hs]. apply Hs in Hpg, Hqg; congruence.
      * intros g g' p q Hg Hg' Hp Hq E Hpg Hqg. destruct (Hall g Hg) as [s Hs]. eapply (drawn_once g g' (ID q)); [done..| |done].
        apply Hs; [done|]. apply Hs in Hpg; congruence.
    + intros [Hj Hsp] g Hg. destruct (Members g) as [|m ms] eqn:Em; [by destruct (dv_nonempty _ _ drawn g)|].
      destruct (dv_members _ _ drawn g m Hg) as (p & Hp & Ep); [rewrite Em; left|].
      assert (ID p ∈ MemberID <$> Members g) as Hin by (rewrite Ep, Em; left). exists (GroupID p). intros q Hq. split.
      * intros Hqg. by apply (Hj g q p).
      * intros E. destruct (drawn_in q Hq) as (g' & Hg' & Hqg). by rewrite (Hsp g g' p q).
  - destruct (diff_reports_disagreements rules ps opts shipped distinct) as (cs & E & _ & Hcs). fold gs in E, Hcs. exists cs. split; [exact E|].
    rewrite Ha. split.
    + intros Hall c m Hc Hm. destruct (gmc_Moving m) eqn:Emv; [|done]. exfalso.
      destruct (diff_spec ps gs drawn) as (cs' & E' & _ & Hrep). rewrite E in E'. injection E' as <-.
      destruct (proj1 (Hrep m) (ex_intro _ c (conj Hc Hm))) as (g & m0 & Hg & Hm0 & [[Hn _]|(_ & _ & ->)]); [|done].
      by apply Hn, Hall.
    + intros Hno g Hg. apply (matches_stored ps gs g drawn Hg). destruct (matches ps g) eqn:Emt; [done|exfalso].
      destruct (Members g) as [|m ms] eqn:Em; [by destruct (dv_nonempty _ _ drawn g)|].
      destruct (dv_members _ _ drawn g m Hg) as (p & Hp & Ep); [rewrite Em; left|].
      destruct (proj2 (Hcs p g m {| gmc_ID := ID p; gmc_FromGroupID := GroupID p; gmc_Resolved := resolvedStr (MemberResolved m); gmc_Moving := true |}
        Hp Hg ltac:(rewrite Em; left) (eq_sym Ep) eq_refl)) as (c & Hc & Hm).
      * left. split; [|done]. intros Hst. apply (matches_stored ps gs g drawn Hg) in Hst. congruence.
      * specialize (Hno c _ Hc Hm). done.
  - exists (filter (λ g, matches ps g = true) gs). split_and!; [apply sublist_filter|done|]. intros g Hg.
    rewrite list_elem_of_filter, (matches_stored ps gs g drawn Hg). tauto.
Qed.
End partition.
End compare_counts.

(** ** What a write of the cycle leaves alone *)

Section leaves.
Context {D : Type} `{DecimalLaws D}.
Context (gen_uuid : gset string → string) (uuid_ok : string → bool).
Context (num_div : D → D → D) (num_scale : D → Z) (currency_instrument : string → option string).
Hypothesis gen_fresh : ∀ X, gen_uuid X ∉ X.
Hypothesis gen_ok : ∀ X, uuid_ok (gen_uuid X) = true.
Hypothesis empty_not_ok : uuid_ok EmptyString = false.
Implicit Types (l : ledger D) (c : GroupChange).

Let no_parse : string → option D := λ _, None.

(** The postings a list of changes names. *)
Definition named (cs : list GroupChange) : list string := cs ≫= λ c, gmc_ID <$> gc_Members c.

Lemma elem_of_named cs c m : c ∈ cs → m ∈ gc_Members c → gmc_ID m ∈ named cs.
Proof. intros Hc Hm. apply elem_of_bind. exists c. split; [by apply list_elem_of_fmap_2|done]. Qed.

(** Every other posting stays, and every group there was. *)
Definition spared (ids : list string) l l' : Prop :=
  (∀ t, t ∈ txs l → r_id t ∉ ids → t ∈ txs l') ∧ ∀ g, g ∈ dom (tx_groups l) → tx_groups l' !! g = tx_groups l !! g.

Lemma spared_refl ids l : spared ids l l.
Proof. done. Qed.

Lemma spared_trans ids l1 l2 l3 : spared ids l1 l2 → spared ids l2 l3 → spared ids l1 l3.
Proof.
  intros [H1 G1] [H2 G2]. split; [auto|]. intros g Hg. rewrite G2, G1; [done|done|].
  apply elem_of_dom. rewrite G1 by done. by apply elem_of_dom.
Qed.

Lemma spared_map ids l (f : Ledger.row D → Ledger.row D) : (∀ t, r_id t ∉ ids → f t = t) → spared ids l (with_txs l (f <$> txs l)).
Proof. intros Hf. split; [|done]. intros t Ht Hid. apply list_elem_of_fmap. exists t. by rewrite Hf. Qed.

Lemma each_type_spared f moving c cs l : c ∈ cs → (∀ k ids l, spared ids l (f k ids l)) → spared (named cs) l (each_type f (by_type moving c) l).
Proof.
  intros Hc Hf. apply (each_type_inv (λ l', spared (named cs) l l')); [|apply spared_refl]. intros k l' Hl'.
  eapply spared_trans; [exact Hl'|]. destruct (Hf k (at_key (by_type moving c) k) l') as [Hr Hg]. split; [|done].
  intros t Ht Hid. apply Hr; [done|]. intros Hin. apply Hid. destruct (elem_of_by_type _ _ _ _ Hin) as (m & Hm & _ & <-). by eapply elem_of_named.
Qed.

Lemma apply_change_spared user cs c l s n l' s' n' : c ∈ cs →
  apply_change gen_uuid user (l, s, n) c = Some (l', s', n') → spared (named cs) l l'.
Proof.
  intros Hc. unfold apply_change. set (l1 := each_type resolve_only _ l).
  assert (spared (named cs) l l1) as H1.
  { apply each_type_spared; [done|]. intros k ids m. apply spared_map. intros t Hid. by rewrite decide_False. }
  clearbody l1. destruct (move_ids c); [by intros [= <- <- <-]|]. destruct (first_date _) as [date|]; [|done]. cbn [mbind option_bind].
  intros [= <- _ _]. eapply spared_trans; [exact H1|]. eapply spared_trans; [|apply each_type_spared; [done|]].
  - split; [done|]. intros g Hg. cbn. rewrite lookup_insert_ne; [done|]. intros <-. apply (gen_fresh (used l1)). unfold used. by apply elem_of_union_r.
  - intros k ids m. apply spared_map. intros t Hid. by rewrite decide_False.
Qed.

Lemma apply_loop_spared user cs changes l s n l' s' n' : (∀ c, c ∈ changes → c ∈ cs) →
  foldl (λ acc c, a ← acc; apply_change gen_uuid user a c) (Some (l, s, n)) changes = Some (l', s', n') → spared (named cs) l l'.
Proof.
  revert l s n. induction changes as [|c changes IH]; intros l s n Hc; cbn [foldl]; [by intros [= <- <- <-]|].
  cbn [mbind option_bind]. destruct (apply_change gen_uuid user (l, s, n) c) as [[[l1 s1] n1]|] eqn:E.
  - intros El. eapply spared_trans; [eapply (apply_change_spared user cs c); [apply Hc; left|exact E]|].
    eapply (IH l1 s1 n1); [|exact El]. intros; apply Hc; by right.
  - intros Hl. exfalso. clear -Hl. by induction changes.
Qed.

(** What a regrouping leaves of the ledger, by the postings it names. *)
Record leaves (ids : list string) l l' : Prop := {
  lv_rows t : t ∈ txs l → routed t = false → r_id t ∉ ids → t ∈ txs l';
  lv_jobs g t : g ∈ dom (tx_groups l) → t ∈ txs l' → routed t = false → r_group t = g →
    (tx_groups l' !! g ≫= g_job) = (tx_groups l !! g ≫= g_job);
}.

Lemma clean_up_leaves ids l0 l1 (touched : gset string) : spared ids l0 l1 → leaves ids l0 (clean_up touched l1).
Proof.
  intros [Hr Hg]. split.
  - intros t Ht Hn Hid. cbn. apply list_elem_of_filter. split; [|auto]. intros [_ ?]. congruence.
  - intros g t Hdom [Hn Ht]%list_elem_of_filter Hrt Eg. cbn [clean_up tx_groups deleteTouchedMatches repointGroupTimestamps].
    rewrite map_lookup_imap.
    assert (t ∈ rows_of (dropResiduals touched l1) g) as Hin.
    { unfold rows_of. apply list_elem_of_filter. split; [done|]. by apply list_elem_of_filter. }
    apply elem_of_dom in Hdom as [gr Egr]. assert (tx_groups (deleteEmptiedGroups touched (dropResiduals touched l1)) !! g = Some gr) as ->.
    2: { cbn. destruct (decide (g ∈ touched)); [|by rewrite Egr]. rewrite Egr. by destruct (first_date _). }
    unfold deleteEmptiedGroups. cbn [tx_groups]. apply map_lookup_filter_Some_2.
    + cbn [dropResiduals with_txs tx_groups]. rewrite Hg; [done|]. apply elem_of_dom. eauto.
    + right. cbn [fst]. intros En. rewrite En in Hin. by apply elem_of_nil in Hin.
Qed.

Lemma appended_leaves ids l0 l l' P : leaves ids l0 l → appended P l l' → (∀ t, P t → routed t = true) → leaves ids l0 l'.
Proof.
  intros [Hr Hj] (new & Et & Hf & Eg & _) HP. split.
  - intros t ???. rewrite Et. apply elem_of_app. left. auto.
  - intros g t Hg Ht Hn Er. rewrite Eg. rewrite Et in Ht. apply elem_of_app in Ht as [Ht|Ht]; [by eapply Hj|].
    rewrite Forall_forall in Hf. specialize (HP t (Hf t Ht)). congruence.
Qed.

Lemma apply_grouping_leaves user changes l l' n : ApplyGrouping gen_uuid uuid_ok num_div num_scale currency_instrument user changes l = Some (l', n) →
  leaves (named changes) l l'.
Proof.
  unfold ApplyGrouping. destruct (negb _); [done|]. destruct changes as [|c0 cs0]; [intros [= <- <-]; by split|].
  set (changes := c0 :: cs0). unfold applyChanges.
  destruct (foldl _ _ changes) as [[[l1 s1] n1]|] eqn:E; [|done]. cbn [mbind option_bind].
  destruct (settle_groups _ _ _ _ _ _ _ _) as [l2|] eqn:Es; [|done]. cbn. intros [= <- <-].
  destruct (settle_groups_spec gen_uuid uuid_ok no_parse num_div num_scale currency_instrument _ _ _ _ Es) as [Ha _].
  eapply appended_leaves; [|exact Ha|by intros t [_ ?]]. apply clean_up_leaves. by eapply (apply_loop_spared user changes).
Qed.

(** The postings of any user it does not name are read as before. *)
Lemma grouping_spares ids l l' user p : keyed uuid_ok l → keyed uuid_ok l' → restated (stated l) (stated l') → leaves ids l l' →
  (∀ t, t ∈ txs l → r_id t ∈ ids → r_purpose t = None) →
  p ∈ transcribed (grouping_rows l) user → ID p ∉ ids → p ∈ transcribed (grouping_rows l') user.
Proof.
  intros Hk Hk' Hrs [Hr Hj] Hids Hp Hid.
  assert (∃ t, t ∈ txs l ∧ p = toDomain l t ∧ r_user t = user ∧ r_purpose t = None ∧ padded (grouping_rows l) (r_group t) = false) as (t & Ht & -> & Hu & Hpu & Hpad).
  { unfold transcribed, grouping_rows in Hp. apply list_elem_of_fmap in Hp as (r & -> & [(Hu & Hpu & Hpad) Hrr]%list_elem_of_filter).
    apply list_elem_of_fmap in Hrr as (t & -> & Ht). exists t. by split_and!. }
  assert (∀ x : Ledger.row D, r_purpose x = None ∨ r_purpose x = Some InitializePurpose → routed x = false) as Hnr.
  { intros x Hx. unfold routed. by destruct Hx as [-> | ->]. }
  assert (t ∈ txs l') as Ht' by (apply Hr; [done|apply Hnr; by left|done]).
  assert (toDomain l t = toDomain l' t) as E.
  { unfold toDomain. f_equal. f_equal. symmetry. apply (Hj (r_group t) t); [by apply Hk|done|apply Hnr; by left|done]. }
  rewrite E. unfold transcribed, grouping_rows. apply list_elem_of_fmap. exists {| row_posting := toDomain l' t; row_purpose := r_purpose t |}.
  split; [done|]. apply list_elem_of_filter. split; [|by apply (list_elem_of_fmap_2 (λ t, {| row_posting := toDomain l' t; row_purpose := r_purpose t |}))].
  cbn [row_posting row_purpose UserID toDomain GroupID]. split_and!; [done|done|]. apply not_true_iff_false; intros Ep. unfold padded in Ep, Hpad.
  apply existsb_exists in Ep as (x & Hx & [Eg Epp]%andb_true_iff). apply list_elem_of_In in Hx.
  unfold grouping_rows in Hx. apply list_elem_of_fmap in Hx as (s' & -> & Hs'). cbn in Eg, Epp.
  apply bool_decide_eq_true in Eg, Epp.
  assert (s' ∈ stated l') as Hst by (unfold stated; apply list_elem_of_filter; split; [apply Hnr; by right|done]).
  apply list_elem_of_lookup in Hst as [i Hi]. destruct (Forall2_lookup_r _ _ _ _ _ Hrs Hi) as (s0 & Hi0 & gg & rr & Es).
  apply list_elem_of_lookup_2, list_elem_of_filter in Hi0 as [Hn0 Hs0].
  assert (r_id s0 = r_id s' ∧ r_purpose s0 = Some InitializePurpose) as [Eid Epu] by (rewrite Es in Epp; rewrite Es; split; [done|exact Epp]).
  assert (s0 ∈ txs l') as Hs0'. { apply Hr; [done|done|]. intros Hin. specialize (Hids s0 Hs0 Hin). congruence. }
  assert (s0 = s') as -> by (eapply (NoDup_fmap_inj_in r_id); [apply Hk'|done..]).
  assert (existsb (λ s, bool_decide (GroupID (row_posting s) = r_group t) && bool_decide (row_purpose s = Some InitializePurpose))
    (grouping_rows l) = true) as Et; [|congruence].
  apply existsb_exists. exists {| row_posting := toDomain l s'; row_purpose := r_purpose s' |}. split.
  - apply list_elem_of_In. unfold grouping_rows. by apply (list_elem_of_fmap_2 (λ t, {| row_posting := toDomain l t; row_purpose := r_purpose t |})).
  - cbn. by rewrite Eg, !bool_decide_eq_true_2.
Qed.

(** ** A write that is never refused *)

Hypothesis currencies_seeded : ∀ name code, CurrencyOf name = Some code → is_Some (currency_instrument code).

(** A change as [Diff] makes them: postings move from where they are, or are retyped. *)
Definition from_store l (m : GroupMemberChange) : Prop :=
  (gmc_Moving m = false ∧ gmc_FromGroupID m = EmptyString) ∨
  (gmc_Moving m = true ∧ ∃ t, t ∈ txs l ∧ r_id t = gmc_ID m ∧ r_group t = gmc_FromGroupID m).

Lemma each_type_ids f (m : gmap string (list string)) l : (∀ k ids l, r_id <$> txs (f k ids l) = r_id <$> txs l) →
  r_id <$> txs (each_type f m l) = r_id <$> txs l.
Proof. intros Hf. apply (each_type_inv (λ l', r_id <$> txs l' = r_id <$> txs l)); [|done]. intros k l' <-. apply Hf. Qed.

Lemma map_ids (ids : list string) l (f : Ledger.row D → Ledger.row D) : (∀ t, r_id (f t) = r_id t) →
  r_id <$> txs (with_txs l ((λ t, if decide (r_id t ∈ ids) then f t else t) <$> txs l)) = r_id <$> txs l.
Proof. intros Hf. cbn. rewrite <- list_fmap_compose. apply list_fmap_ext. intros i t _. cbn. by case_decide. Qed.

Definition all_uuids (s : settleSet) : Prop := set_Forall (λ id, uuid_ok id = true) (all s).

Lemma apply_loop_total user l0 changes l s n : all_uuids s → r_id <$> txs l = r_id <$> txs l0 →
  (∀ c m, c ∈ changes → m ∈ gc_Members c → from_store l0 m) →
  ∃ l' s' n', foldl (λ acc c, a ← acc; apply_change gen_uuid user a c) (Some (l, s, n)) changes = Some (l', s', n') ∧ all_uuids s'.
Proof.
  revert l s n. induction changes as [|c changes IH]; intros l s n Hs Hids Hc; cbn [foldl]; [eauto|]. cbn [mbind option_bind].
  assert (∃ l' s' n', apply_change gen_uuid user (l, s, n) c = Some (l', s', n') ∧ all_uuids s' ∧ r_id <$> txs l' = r_id <$> txs l0)
    as (l1 & s1 & n1 & -> & Hs1 & Hids1).
  { unfold apply_change. set (l1 := each_type resolve_only _ l).
    assert (r_id <$> txs l1 = r_id <$> txs l0) as H1.
    { rewrite <- Hids. apply each_type_ids. intros k ids m. by apply map_ids. }
    clearbody l1. destruct (move_ids c) as [|i rest] eqn:Em; [eauto 7|].
    assert (∃ t, t ∈ txs l1 ∧ r_id t = i) as (t & Ht & Ei).
    { assert (i ∈ move_ids c) as (m & -> & [Hmv Hm]%list_elem_of_filter)%list_elem_of_fmap by (rewrite Em; left).
      destruct (Hc c m ltac:(left) Hm) as [[? _]|(_ & t & Ht & <- & _)]; [congruence|].
      assert (r_id t ∈ r_id <$> txs l1) as (t1 & E1 & Ht1)%list_elem_of_fmap by (rewrite H1; by apply list_elem_of_fmap_2). eauto. }
    assert (∃ z, first_date (filter (λ t, r_id t ∈ i :: rest) (txs l1)) = Some z) as [z ->].
    { unfold first_date. assert (t ∈ filter (λ t, r_id t ∈ i :: rest) (txs l1)) as Hin.
      { apply list_elem_of_filter. split; [rewrite Ei; left|done]. }
      destruct (filter _ (txs l1)) as [|t1 ts]; [by apply elem_of_nil in Hin|]. cbn. eauto. }
    cbn [mbind option_bind]. eexists _, _, _. split; [done|]. split.
    - intros g. unfold settle_add. cbn. intros [->%elem_of_singleton|?]%elem_of_union; [apply gen_ok|by apply Hs].
    - rewrite <- H1. rewrite each_type_ids; [done|]. intros k ids m. by apply map_ids. }
  apply IH; [done|done|]. intros c' m Hc'. apply Hc. by right.
Qed.

Lemma touched_uuids l changes : keyed uuid_ok l → (∀ c m, c ∈ changes → m ∈ gc_Members c → from_store l m) →
  all_uuids (foldl touch_members no_groups changes).
Proof.
  intros Hk Hc. assert (all_uuids no_groups) as Hnone by by intros g ?%elem_of_empty. revert Hnone. generalize no_groups.
  induction changes as [|c changes IH]; intros s Hs; [done|]. cbn [foldl]. apply IH; [intros ????; apply (Hc c0); [by right|done]|].
  unfold touch_members. assert (∀ m, m ∈ gc_Members c → from_store l m) as Hm by (intros m; apply Hc; left). revert s Hs Hm. generalize (gc_Members c).
  intros ms. induction ms as [|m ms IHm]; intros s Hs Hm; [done|]. cbn [foldl]. apply IHm; [|intros; apply Hm; by right].
  destruct (String.eqb_spec (gmc_FromGroupID m) EmptyString); [done|]. intros g. cbn. intros [->%elem_of_singleton|?]%elem_of_union; [|by apply Hs].
  destruct (Hm m ltac:(left)) as [[_ ?]|(_ & t & Ht & _ & <-)]; [done|]. by apply Hk, Hk.
Qed.

Lemma apply_grouping_total user changes l : uuid_ok user = true → keyed uuid_ok l →
  (∀ c m, c ∈ changes → m ∈ gc_Members c → from_store l m) →
  is_Some (ApplyGrouping gen_uuid uuid_ok num_div num_scale currency_instrument user changes l).
Proof.
  intros Hu Hk Hc. unfold ApplyGrouping. rewrite Hu. cbn [negb]. destruct changes as [|c0 cs0]; [by eexists|]. set (changes := c0 :: cs0) in *.
  unfold applyChanges. destruct (apply_loop_total user l changes l (foldl touch_members no_groups changes) 0) as (l1 & s1 & n1 & -> & Hs1);
    [by eapply touched_uuids|done|done|]. cbn [mbind option_bind].
  assert (∀ rule ids l, names_accounts rule → is_Some (settle gen_uuid num_div num_scale currency_instrument user rule ids l)) as Hset.
  { intros rule ids l' Hr. apply settle_total; [exact _|exact Hr|]. intros t code _ _. apply currencies_seeded. }
  unfold settle_groups. rewrite decide_True by exact Hs1.
  destruct (Hset wholeSource (all s1 ∖ lost s1) (clean_up (all s1) l1)) as [l2 ->]; [intros ????; apply type_stored|]. cbn [mbind option_bind].
  destruct (Hset legsRemoved (all s1 ∩ lost s1) l2) as [l3 ->]; [intros ????; apply family_stored|]. by eexists.
Qed.
End leaves.

(** ** The cycle over the store *)

Lemma restated_trans {D : Type} (a b c : list (Ledger.row D)) : restated a b → restated b c → restated a c.
Proof.
  unfold restated. intros Hab. revert c. induction Hab as [|x y a b (g & r & ->) _ IH]; intros c Hbc; inversion Hbc as [|? z ? c' (g' & r' & ->) Hr]; subst; constructor.
  - by exists g', r'.
  - by apply IH.
Qed.

Section over_store.
Context {D : Type} `{DecimalLaws D}.
Context (gen_uuid : gset string → string) (uuid_ok : string → bool).
Context (num_div : D → D → D) (num_scale : D → Z) (currency_instrument : string → option string) (opts : Opts D) (strict : Prop).
Hypothesis gen_fresh : ∀ X, gen_uuid X ∉ X.
Hypothesis gen_ok : ∀ X, uuid_ok (gen_uuid X) = true.
Hypothesis empty_not_ok : uuid_ok EmptyString = false.
Implicit Types (l : ledger D) (s p : GroupingPosting D) (seeds : list (GroupingPosting D)).

Let no_parse : string → option D := λ _, None.
Let ok l : Prop := ledger_ok uuid_ok strict l.
Let reads l (user : string) : list (GroupingPosting D) := transcribed (grouping_rows l) user.
Let one_seed := cycle_seed gen_uuid uuid_ok num_div num_scale currency_instrument opts.
Let every_seed := cycle_seeds gen_uuid uuid_ok num_div num_scale currency_instrument opts.
Let cycle := runCycle gen_uuid uuid_ok num_div num_scale currency_instrument opts.

Lemma read_row l user p : p ∈ reads l user ↔ ∃ t, t ∈ txs l ∧ p = toDomain l t ∧ r_user t = user ∧ r_purpose t = None ∧
  padded (grouping_rows l) (r_group t) = false.
Proof.
  unfold reads, transcribed, grouping_rows. rewrite list_elem_of_fmap. setoid_rewrite list_elem_of_filter. setoid_rewrite list_elem_of_fmap. split.
  - intros (r & -> & (Hu & Hp & Hpad) & t & -> & Ht). by exists t.
  - intros (t & Ht & -> & Hu & Hp & Hpad). exists {| row_posting := toDomain l t; row_purpose := r_purpose t |}. split; [done|]. split; [done|eauto].
Qed.

(** What is drawn around a seed over the store. *)
Lemma neighbourhood_drawn l user s : keyed uuid_ok l → uuid_ok user = true → s ∈ reads l user →
  ∃ ps cs, Neighbourhood (S (length (txs l))) user [s] DefaultRules (store_reader uuid_ok (grouping_rows l)) = Some (Some ps) ∧
    Diff ps (Partition ps DefaultRules opts) = Some cs ∧ s ∈ ps ∧ distinct_ids ps ∧ (∀ p, p ∈ ps → p ∈ reads l user) ∧
    (∀ i, i ∈ named cs → i ∈ ID <$> ps) ∧ changes_ok l cs ∧ ∀ c m, c ∈ cs → m ∈ gc_Members c → from_store l m.
Proof.
  intros Hk Hu Hs. destruct Hk as (Hnd & Hfk & Huu).
  pose proof (transcribed_ids l user Hnd) as Hd. pose proof (transcribed_length l user) as Hlen.
  destruct (region_exists uuid_ok (grouping_rows l) user Hu Hd (S (length (txs l))) Hlen opts s Hs) as (ps & cs & Hreg).
  destruct (region_inside uuid_ok (grouping_rows l) user Hu Hd (S (length (txs l))) Hlen opts s ps cs Hs Hreg) as [Hdp Hin].
  destruct Hreg as (En & Hsp & Ed). exists ps, cs.
  pose proof (partition_derived DefaultRules ps opts (λ r Hr, Hr) Hdp) as Hder.
  destruct (diff_spec ps _ Hder) as (cs' & Ed' & _ & Hrep). rewrite Ed in Ed'. injection Ed' as <-.
  assert (∀ c m, c ∈ cs → m ∈ gc_Members c → ∃ p, p ∈ ps ∧ ID p = gmc_ID m ∧
    ((gmc_Moving m = false ∧ gmc_FromGroupID m = EmptyString) ∨ (gmc_Moving m = true ∧ gmc_FromGroupID m = GroupID p))) as Hm.
  { intros c m Hc Hm. destruct (proj1 (Hrep m) (ex_intro _ c (conj Hc Hm))) as (g & m0 & Hg & Hm0 & Hcase).
    destruct (dv_members _ _ Hder g m0 Hg Hm0) as (p & Hp & Ep). exists p. destruct Hcase as [[_ ->]|(_ & _ & ->)]; cbn.
    - split_and!; [done|done|]. right. split; [done|]. unfold storedOf. rewrite <- Ep. by rewrite last_of_lookup.
    - split_and!; [done|done|by left]. }
  assert (∀ c m, c ∈ cs → m ∈ gc_Members c → from_store l m) as Hfs.
  { intros c m Hc Hmm. destruct (Hm c m Hc Hmm) as (p & Hp & Ep & [Hn|[Hmv Ef]]); [by left|]. right. split; [done|].
    apply Hin, read_row in Hp as (t & Ht & -> & _). by exists t. }
  split_and!; [done..| |intros c m t Hc Hmm Hmv Ht Eid|done].
  - intros i (c & (m & -> & Hmm)%list_elem_of_fmap & Hc)%elem_of_bind. destruct (Hm c m Hc Hmm) as (p & Hp & <- & _). by apply list_elem_of_fmap_2.
  - destruct (Hfs c m Hc Hmm) as [[? _]|(_ & t' & Ht' & Eid' & <-)]; [congruence|]. f_equal.
    eapply (NoDup_fmap_inj_in r_id); [exact Hnd|done|done|congruence].
Qed.

Lemma reads_user l user p : p ∈ reads l user → UserID p = user.
Proof. by intros (t & _ & -> & <- & _)%read_row. Qed.

(** The id of a posting that is read is of a posting that is read. *)
Lemma reads_id l user user' p q : keyed uuid_ok l → p ∈ reads l user → q ∈ reads l user' → ID p = ID q → user = user'.
Proof.
  intros (Hnd & _) (t & Ht & -> & <- & _)%read_row (t' & Ht' & -> & <- & _)%read_row E. cbn in E.
  by rewrite (NoDup_fmap_inj_in r_id (txs l) t t' Hnd Ht Ht' E).
Qed.

(** The ledgers a cycle goes through. *)
Record follows l l' : Prop := {
  fw_ok : ok l';
  fw_stated : restated (stated l) (stated l');
}.

Lemma cycle_seed_spec l user s : ok l → uuid_ok user = true → s ∈ reads l user →
  match one_seed user s l with
  | Some (ps, _, l') => follows l l' ∧ ID s ∈ ID <$> ps ∧ (∀ p, p ∈ ps → p ∈ reads l user) ∧
      (∀ user' p, p ∈ reads l user' → ID p ∉ ID <$> ps → p ∈ reads l' user')
  | None => ¬ ∀ name code, CurrencyOf name = Some code → is_Some (currency_instrument code)
  end.
Proof.
  intros Hok Hu Hs. pose proof Hok as [Hk _]. destruct (neighbourhood_drawn l user s Hk Hu Hs) as (ps & cs & En & Ed & Hsp & Hdp & Hin & Hnm & Hco & Hfs).
  unfold one_seed, cycle_seed. rewrite En. cbn [mjoin option_join mbind option_bind]. rewrite Ed. cbn [mbind option_bind].
  assert (∀ l', ok l' → restated (stated l) (stated l') → leaves (named cs) l l' →
    follows l l' ∧ ID s ∈ ID <$> ps ∧ (∀ p, p ∈ ps → p ∈ reads l user) ∧ (∀ user' p, p ∈ reads l user' → ID p ∉ ID <$> ps → p ∈ reads l' user')) as Hdone.
  { intros l' Hok' Hrs Hlv. split_and!; [by split|by apply list_elem_of_fmap_2|done|]. intros user' p Hp Hid.
    eapply (grouping_spares uuid_ok (named cs) l l'); [done|by destruct Hok'|done|done| |done|by intros ?%Hnm].
    intros t Ht (p' & Ep & Hp'%Hin)%Hnm%list_elem_of_fmap. apply read_row in Hp' as (t' & Ht' & -> & _ & Hpu & _). cbn in Ep.
    destruct Hk as (Hnd & _). by rewrite (NoDup_fmap_inj_in r_id (txs l) t t' Hnd Ht Ht' Ep). }
  destruct cs as [|c0 cs0]; [apply Hdone; [done|apply restated_refl|by split]|]. set (cs := c0 :: cs0) in *.
  unfold apply_. destruct (ApplyGrouping _ _ _ _ _ user cs l) as [[l' n]|] eqn:Ea; cbn [fmap option_fmap option_map mbind option_bind fst].
  - destruct (apply_grouping_spec gen_uuid uuid_ok no_parse num_div num_scale currency_instrument strict gen_fresh gen_ok empty_not_ok
      user cs l l' n Hok Hco Ea) as [Hok' Hrs]. apply Hdone; [done|done|].
    by apply (apply_grouping_leaves gen_uuid uuid_ok num_div num_scale currency_instrument gen_fresh user cs l l' n).
  - intros Hc. destruct (apply_grouping_total gen_uuid uuid_ok num_div num_scale currency_instrument gen_ok Hc user cs l Hu Hk Hfs) as [x Ex].
    congruence.
Qed.

Lemma follows_refl l : ok l → follows l l.
Proof. intros Hok. split; [done|apply restated_refl]. Qed.

Lemma follows_trans l1 l2 l3 : follows l1 l2 → follows l2 l3 → follows l1 l3.
Proof. intros [_ H1] [? H2]. split; [done|by eapply restated_trans]. Qed.

(** One user's cycle leaves what is read of the others. *)
Lemma cycle_seeds_spec user seeds (skip : gset string) total l : ok l → uuid_ok user = true →
  (∀ s, s ∈ seeds → ID s ∈ skip ∨ s ∈ reads l user) →
  let '(l', d) := every_seed user seeds skip total l in
  follows l l' ∧ (∀ user' p, p ∈ reads l user' → user' ≠ user → p ∈ reads l' user') ∧
  (d = None → ¬ ∀ name code, CurrencyOf name = Some code → is_Some (currency_instrument code)).
Proof.
  revert skip total l. induction seeds as [|s seeds IH]; intros skip total l Hok Hu Hs.
  { cbn. split_and!; [by apply follows_refl|done|done]. }
  unfold every_seed in *. cbn [cycle_seeds]. destruct (decide (ID s ∈ skip)) as [Hin|Hnin].
  { apply IH; [done|done|]. intros x Hx. apply Hs. by right. }
  destruct (Hs s ltac:(left)) as [?|Hsr]; [done|]. pose proof (cycle_seed_spec l user s Hok Hu Hsr) as Hspec. unfold one_seed in Hspec.
  destruct (cycle_seed _ _ _ _ _ _ user s l) as [[[ps d] l1]|]; [|split_and!; [by apply follows_refl|done|done]].
  destruct Hspec as (Hf & _ & Hin & Hkeep). pose proof Hf as [Hok1 _].
  specialize (IH (list_to_set (ID <$> ps) ∪ skip) (add_to total d) l1 Hok1 Hu).
  destruct (cycle_seeds _ _ _ _ _ _ user seeds _ _ l1) as [l2 d2]. destruct IH as (Hf2 & Hkeep2 & Hd).
  - intros x Hx. destruct (decide (ID x ∈ ID <$> ps)) as [Hx'|Hx']; [left; set_solver|].
    destruct (Hs x ltac:(by right)) as [?|?]; [left; set_solver|]. right. by apply Hkeep.
  - split_and!; [by eapply follows_trans| |done]. intros user' p Hp Hne. apply Hkeep2; [|done]. apply Hkeep; [done|].
    intros (q & E & Hq%Hin)%list_elem_of_fmap. apply Hne. destruct Hok as [Hk _]. by eapply reads_id.
Qed.

(** A cycle whose neighbourhoods are all stored as drawn writes nothing. *)
Lemma cycle_seeds_agree user seeds skip total l :
  (∀ s ps, s ∈ seeds → Neighbourhood (S (length (txs l))) user [s] DefaultRules (store_reader uuid_ok (grouping_rows l)) = Some (Some ps) →
    Diff ps (Partition ps DefaultRules opts) = Some []) → (every_seed user seeds skip total l).1 = l.
Proof.
  revert skip total. induction seeds as [|s seeds IH]; intros skip total Hs; [done|]. unfold every_seed in *. cbn [cycle_seeds].
  case_decide; [apply IH; intros; eapply Hs; [by right|done]|]. destruct (cycle_seed _ _ _ _ _ _ user s l) as [[[ps d] l1]|] eqn:E; [|done].
  assert (l1 = l) as ->; [|apply IH; intros; eapply Hs; [by right|done]].
  unfold cycle_seed in E. destruct (Neighbourhood _ _ _ _ _) as [[ps'|]|] eqn:En; cbn [mjoin option_join mbind option_bind] in E; try done.
  rewrite (Hs s ps' ltac:(left) En) in E. cbn in E. by injection E as _ _ ->.
Qed.

Lemma elem_of_first_seen (x : string) xs : x ∈ first_seen xs ↔ x ∈ xs.
Proof.
  induction xs as [|u xs IH]; [done|]. cbn. rewrite !elem_of_cons, list_elem_of_filter, IH. destruct (decide (x = u)); tauto.
Qed.

Lemma NoDup_first_seen (xs : list string) : NoDup (first_seen xs).
Proof.
  induction xs as [|u xs IH]; cbn; [constructor|]. apply NoDup_cons. split; [|by apply NoDup_filter]. by intros [? _]%list_elem_of_filter.
Qed.

Lemma seed_read l o seeds s : ListGroupingSeeds uuid_ok o l = Some seeds → s ∈ seeds →
  s ∈ reads l (UserID s) ∧ (so_UserID o = EmptyString ∨ UserID s = so_UserID o) ∧
  (so_Residual o = true → wanting l (GroupID s) = true).
Proof.
  unfold ListGroupingSeeds. destruct (_ && _); [done|]. destruct (_ && _); [done|]. intros [= <-].
  rewrite elem_of_go_sort, list_elem_of_fmap. intros (t & -> & [[Hres _] [(Hu & Hpu & Hpad) Ht]%list_elem_of_filter]%list_elem_of_filter).
  split_and!; [|done|done]. apply read_row. by exists t.
Qed.

Lemma seed_found l o seeds p user : ListGroupingSeeds uuid_ok o l = Some seeds → p ∈ reads l user →
  (so_UserID o = EmptyString ∨ user = so_UserID o) → (so_Residual o = true → wanting l (GroupID p) = true) → so_JobID o = EmptyString → p ∈ seeds.
Proof.
  unfold ListGroupingSeeds. destruct (_ && _); [done|]. destruct (_ && _); [done|]. intros [= <-].
  intros (t & Ht & -> & Hu & Hpu & Hpad)%read_row Ho Hr Hj. rewrite elem_of_go_sort, list_elem_of_fmap. exists t. split; [done|].
  apply list_elem_of_filter. split; [split; [done|congruence]|]. apply list_elem_of_filter. split; [|done]. rewrite Hu. naive_solver.
Qed.

Lemma cycle_users_spec seeds users r : NoDup users → ok (cr_ledger r) → (∀ u, u ∈ users → uuid_ok u = true) →
  (∀ u s, u ∈ users → s ∈ byUser seeds u → s ∈ reads (cr_ledger r) u) →
  let r' := foldl (cycle_user gen_uuid uuid_ok num_div num_scale currency_instrument opts seeds) r users in
  follows (cr_ledger r) (cr_ledger r') ∧
  (∀ user p, p ∈ reads (cr_ledger r) user → user ∉ users → p ∈ reads (cr_ledger r') user) ∧
  ((∀ name code, CurrencyOf name = Some code → is_Some (currency_instrument code)) → cr_failed r' = cr_failed r).
Proof.
  revert r. induction users as [|u users IH]; intros r Hnd Hok Hu Hs; [cbn; split_and!; [by apply follows_refl|done|done]|].
  apply NoDup_cons in Hnd as [Hn Hnd]. cbn [foldl]. set (r1 := cycle_user _ _ _ _ _ _ seeds r u).
  pose proof (cycle_seeds_spec u (byUser seeds u) ∅ no_divergence (cr_ledger r) Hok (Hu u ltac:(left)) ltac:(intros; right; apply Hs; [left|done])) as Hspec.
  unfold every_seed in Hspec. subst r1. unfold cycle_user at 2 4 6. unfold cycleUser. destruct (cycle_seeds _ _ _ _ _ _ u _ _ _ _) as [l1 d].
  destruct Hspec as (Hf & Hkeep & Hd). pose proof Hf as [Hok1 _].
  assert (∀ r1, cr_ledger r1 = l1 → ((∀ name code, CurrencyOf name = Some code → is_Some (currency_instrument code)) → cr_failed r1 = cr_failed r) →
    let r' := foldl (cycle_user gen_uuid uuid_ok num_div num_scale currency_instrument opts seeds) r1 users in
    follows (cr_ledger r) (cr_ledger r') ∧
    (∀ user p, p ∈ reads (cr_ledger r) user → user ∉ u :: users → p ∈ reads (cr_ledger r') user) ∧
    ((∀ name code, CurrencyOf name = Some code → is_Some (currency_instrument code)) → cr_failed r' = cr_failed r)) as Hall.
  { intros r1 E Hfail r'. subst l1. destruct (IH r1) as (Hf' & Hkeep' & Hfail'); [done|done|intros; apply Hu; by right| |].
    - intros v s Hv Hsv. apply Hkeep; [apply Hs; [by right|done]|]. by intros ->.
    - split_and!; [by eapply follows_trans| |intros Hc; unfold r'; by rewrite Hfail', Hfail].
      intros user p Hp Hne. apply not_elem_of_cons in Hne as [??]. apply Hkeep'; [|done]. by apply Hkeep. }
  destruct d as [d|]; apply Hall; try done. intros Hc. by destruct (Hd eq_refl).
Qed.

(** C35: Whatever a grouping cycle finds, the books it leaves are balanced, and it only moves
    postings between groups and retypes them: it removes none, changes no amount, and
    nothing of a user none of whose groups waits for a missing leg.  It completes as
    long as the currencies are seeded, and writes nothing where every neighbourhood is
    stored as the engine draws it. *)
Theorem grouping_cycle l : ok l → (∀ t, t ∈ txs l → uuid_ok (r_user t) = true) →
  let r := cycle l in
  ok (cr_ledger r) ∧ restated (stated l) (stated (cr_ledger r)) ∧
  (∀ user p, p ∈ reads l user → (∀ q, q ∈ reads l user → wanting l (GroupID q) = false) → p ∈ reads (cr_ledger r) user) ∧
  ((∀ name code, CurrencyOf name = Some code → is_Some (currency_instrument code)) → cr_failed r = false) ∧
  ((∀ user s ps, s ∈ reads l user → wanting l (GroupID s) = true →
      Neighbourhood (S (length (txs l))) user [s] DefaultRules (store_reader uuid_ok (grouping_rows l)) = Some (Some ps) →
      Diff ps (Partition ps DefaultRules opts) = Some []) → cr_ledger r = l).
Proof.
  intros Hok Hus. unfold cycle, runCycle. set (o := {| so_UserID := EmptyString; so_Residual := true; so_JobID := EmptyString |}).
  destruct (ListGroupingSeeds uuid_ok o l) as [seeds|] eqn:Es; [|done].
  assert (∀ u s, s ∈ byUser seeds u → s ∈ reads l u ∧ wanting l (GroupID s) = true ∧ UserID s = u) as Hby.
  { intros u s [Eu Hs]%list_elem_of_filter. destruct (seed_read l o seeds s Es Hs) as (Hr & _ & Hw). rewrite Eu in Hr. auto. }
  assert (∀ u, u ∈ usersOf seeds → ∃ s, s ∈ seeds ∧ UserID s = u) as Husers.
  { intros u (s & -> & Hs)%elem_of_first_seen%list_elem_of_fmap. by exists s. }
  pose proof (cycle_users_spec seeds (usersOf seeds) {| cr_ledger := l; cr_total := no_divergence; cr_failed := false |}
    (NoDup_first_seen _) Hok) as Hspec. cbn [cr_ledger cr_failed] in Hspec. destruct Hspec as ([Hok' Hrs] & Hkeep & Hfail).
  - intros u (s & Hs & <-)%Husers. destruct (seed_read l o seeds s Es Hs) as ((t & Ht & -> & _)%read_row & _). by apply Hus.
  - intros u s _ Hs. by apply Hby.
  - split_and!; [done|done| |done|].
    + intros user p Hp Hw. apply Hkeep; [done|]. intros (s & Hs & <-)%Husers. destruct (seed_read l o seeds s Es Hs) as (Hr & _ & Hw').
      rewrite (Hw s Hr) in Hw'. by specialize (Hw' eq_refl).
    + intros Hag. generalize (usersOf seeds). intros users.
      assert (∀ r, cr_ledger r = l → cr_ledger (foldl (cycle_user gen_uuid uuid_ok num_div num_scale currency_instrument opts seeds) r users) = l) as Hl; [|by apply Hl].
      induction users as [|u users IH]; intros r Er; [done|]. cbn [foldl]. apply IH. unfold cycle_user, cycleUser. rewrite Er.
      pose proof (cycle_seeds_agree u (byUser seeds u) ∅ no_divergence l) as Ha. unfold every_seed in Ha.
      destruct (cycle_seeds _ _ _ _ _ _ u _ _ _ _) as [l1 d]. assert (l1 = l) as ->; [|by destruct d].
      apply Ha. intros s ps Hs. destruct (Hby u s Hs) as (Hr & Hw & _). by eapply Hag.
Qed.
End over_store.

(** ** A purchase stored in two pieces *)

Section witnesses.
#[local] Existing Instances QDecimal.q_decimal QDecimal.q_decimal_laws.

(** The postings of an upload stored one by one, as before there was an engine. *)
Definition apart : option (ledger Q) :=
  ReplaceTxsInPeriod sample_gen sample_ok sample_parse dec_div (λ _, 2%Z) Some None "user" "FIDELITY" "job"
    (Some (day_start 1)) (Some (day_start 9)) sample_upload ["acme"; "usd"; "usd"] sample_weights [] empty_ledger.

Definition sample_cycle : ledger Q → cycle_report Q := runCycle sample_gen sample_ok dec_div (λ _, 2%Z) Some DefaultOpts.

(** The cycle joins the purchase to its cash; a second one finds nothing to do. *)
Example purchase_joined :
  (λ l, (shape l, shape (cr_ledger (sample_cycle l)), Agrees (cr_total (sample_cycle l)),
         Agrees (cr_total (sample_cycle (cr_ledger (sample_cycle l)))))) <$> apart =
  Some ([ ("u", "USER", 100%Q); ("uuu", "USER", (-100)%Q); ("uuuuu", "USER", 7%Q); ("uuuuu", "INCOME", (-7)%Q);
          ("u", "IMBALANCE", (-100)%Q); ("uuu", "IMBALANCE", 100%Q) ],
        [ ("uuuuuuuuuu", "USER", 100%Q); ("uuuuuuuuuu", "USER", (-100)%Q); ("uuuuu", "USER", 7%Q); ("uuuuu", "INCOME", (-7)%Q) ],
        false, true).
Proof. vm_compute. reflexivity. Qed.

Lemma grouping_cycle_witness :
  match apart with
  | Some l => ledger_ok sample_ok True (cr_ledger (sample_cycle l)) ∧ cr_failed (sample_cycle l) = false ∧
      length (stated (cr_ledger (sample_cycle l))) = 3
  | None => False
  end.
Proof.
  destruct apart as [l|] eqn:E; [|vm_compute in E; discriminate E].
  assert (ledger_ok sample_ok True l) as Hok.
  { eapply (replace_spec sample_gen sample_ok sample_parse dec_div (λ _, 2%Z) Some None True sample_gen_fresh sample_gen_ok eq_refl
      (settler_lawful := I)); [apply empty_ledger_ok|apply sample_uploads|exact E]. apply _. }
  destruct (grouping_cycle sample_gen sample_ok dec_div (λ _, 2%Z) Some DefaultOpts True sample_gen_fresh sample_gen_ok eq_refl l Hok)
    as (Hok' & Hrs & _ & Hf & _).
  - vm_compute in E. injection E as <-. intros t Ht. simpl in Ht. rewrite !elem_of_cons, elem_of_nil in Ht.
    destruct Ht as [->|[->|[->|[->|[->|[->|[]]]]]]]; reflexivity.
  - split; [exact Hok'|]. split; [apply Hf; by eexists|]. apply Forall2_length in Hrs. etransitivity; [symmetry; exact Hrs|].
    vm_compute in E. injection E as <-. reflexivity.
Defined.

(** A day of four postings. *)
Lemma comparison_true_witness : let d := Compare sample_day (Partition sample_day DefaultRules DefaultOpts) in
  Agrees d = false ∧ ¬ (Joined d = 0 ∧ Split d = 0) ∧ length (Examples d) ≤ 5.
Proof.
  intros d. destruct (comparison_true DefaultRules sample_day DefaultOpts (λ r Hr, Hr) sample_day_distinct) as (_ & Ha & _ & _ & He).
  assert (Agrees d = false) as E by (vm_compute; reflexivity). split; [exact E|]. split; [|exact He].
  intros Hz. apply Ha in Hz. unfold d in E. congruence.
Defined.
End witnesses.
End GroupCycle.
