(* ===== verification/Jobs.v ===== *)
(** * The import jobs

    db/postgres/jobs.go: the rows of a job, of its parts and of its errors, and every
    statement on them; archiveimport/reporter.go: [PartReporter], which batches a part's
    progress and problems; [finishJob] and [failWholeJob] of service/ingestion; the queue
    of server/cmd/portfoliodb/main.go with its re-enqueueing at start-up.

    Statuses and parts are the text of their columns.  A statement that fails leaves the
    tables alone, and the code ignores the failures of most of them; [JobTables] is the
    interface of whatever holds the tables, so that the reporter and what ends a job are
    the same for the bare tables and for the state of an import.  Rows that tie in an
    order the query leaves open come in the order they were written.  [ListJobs], which is
    paged, is not modelled. *)

From stdpp Require Import relations.
From S2P Require Import Prelude GoStrings Identity Weigh Candidates.

Local Open Scope Z_scope.

Module Jobs.
Import GoStrings Identity Weigh Candidates.

(** ** Vocabularies *)

Inductive ArchivePart :=
  | ARCHIVE_PART_UNSPECIFIED | INSTRUMENTS | PRICES | CORPORATE_EVENTS | INFLATION_INDICES | FETCH_BLOCKS
  | UNHANDLED_EVENTS | PLUGIN_CONFIG | PREFERENCES | TXS | DECLARATIONS.

#[export] Instance ArchivePart_eq_dec : EqDecision ArchivePart.
Proof. solve_decision. Defined.

Definition all_parts : list ArchivePart :=
  [INSTRUMENTS; PRICES; CORPORATE_EVENTS; INFLATION_INDICES; FETCH_BLOCKS; UNHANDLED_EVENTS; PLUGIN_CONFIG; PREFERENCES; TXS; DECLARATIONS].

Definition archivePartToStr (p : ArchivePart) : string :=
  match p with
  | ARCHIVE_PART_UNSPECIFIED => "ARCHIVE_PART_UNSPECIFIED" | INSTRUMENTS => "INSTRUMENTS" | PRICES => "PRICES"
  | CORPORATE_EVENTS => "CORPORATE_EVENTS" | INFLATION_INDICES => "INFLATION_INDICES" | FETCH_BLOCKS => "FETCH_BLOCKS"
  | UNHANDLED_EVENTS => "UNHANDLED_EVENTS" | PLUGIN_CONFIG => "PLUGIN_CONFIG" | PREFERENCES => "PREFERENCES"
  | TXS => "TXS" | DECLARATIONS => "DECLARATIONS"
  end.

Definition strToArchivePart (s : string) : ArchivePart :=
  default ARCHIVE_PART_UNSPECIFIED (List.find (λ p, String.eqb (archivePartToStr p) s) all_parts).

(** The number of the enum, which is the restore order. *)
Definition part_number (p : ArchivePart) : nat :=
  match p with
  | ARCHIVE_PART_UNSPECIFIED => 0 | INSTRUMENTS => 1 | PRICES => 2 | CORPORATE_EVENTS => 3 | INFLATION_INDICES => 4
  | FETCH_BLOCKS => 5 | UNHANDLED_EVENTS => 6 | PLUGIN_CONFIG => 7 | PREFERENCES => 8 | TXS => 9 | DECLARATIONS => 10
  end.

Inductive JobStatus := JOB_STATUS_UNSPECIFIED | PENDING | RUNNING | SUCCESS | FAILED.

#[export] Instance JobStatus_eq_dec : EqDecision JobStatus.
Proof. solve_decision. Defined.

Definition jobStatusToStr (s : JobStatus) : string :=
  match s with
  | PENDING => "PENDING" | RUNNING => "RUNNING" | SUCCESS => "SUCCESS" | FAILED => "FAILED" | JOB_STATUS_UNSPECIFIED => "PENDING"
  end.

Definition strToJobStatus (s : string) : JobStatus :=
  if String.eqb s "PENDING" then PENDING else if String.eqb s "RUNNING" then RUNNING
  else if String.eqb s "SUCCESS" then SUCCESS else if String.eqb s "FAILED" then FAILED else JOB_STATUS_UNSPECIFIED.

Definition JobTypeTx : string := "tx".
Definition JobTypeSystemArchive : string := "system_archive".
Definition JobTypeUserArchive : string := "user_archive".

(** ** The tables *)

Record job := {
  j_ID : string;
  j_UserID : string;
  j_Type : string;
  j_Broker : option string;
  j_Source : option string;
  j_Filename : option string;
  j_PeriodFrom : option Z;
  j_PeriodBefore : option Z;
  j_Status : string;
  j_TotalCount : Z;
  j_ProcessedCount : Z;
  j_Payload : option string;
  j_CreatedAt : Z;
}.

Record part_row := { pt_JobID : string; pt_Part : string; pt_Status : string; pt_TotalCount : Z; pt_ProcessedCount : Z; pt_Message : option string }.

Record error_row := { er_JobID : string; er_Part : option string; er_Error : ValidationError }.

Record tables := {
  ingestion_jobs : list job;
  ingestion_job_parts : list part_row;
  validation_errors : list error_row;
  identification_errors : list (string * IdentificationError);
}.

Definition with_jobs (l : list job) (t : tables) : tables :=
  {| ingestion_jobs := l; ingestion_job_parts := ingestion_job_parts t;
     validation_errors := validation_errors t; identification_errors := identification_errors t |}.
Definition with_parts (l : list part_row) (t : tables) : tables :=
  {| ingestion_jobs := ingestion_jobs t; ingestion_job_parts := l;
     validation_errors := validation_errors t; identification_errors := identification_errors t |}.

Definition with_progress (status : string) (total processed : Z) (payload : option string) (j : job) : job := {|
  j_ID := j_ID j; j_UserID := j_UserID j; j_Type := j_Type j; j_Broker := j_Broker j; j_Source := j_Source j;
  j_Filename := j_Filename j; j_PeriodFrom := j_PeriodFrom j; j_PeriodBefore := j_PeriodBefore j;
  j_Status := status; j_TotalCount := total; j_ProcessedCount := processed; j_Payload := payload; j_CreatedAt := j_CreatedAt j |}.

Definition int4_max : Z := 2147483647.

Record CreateJobParams := {
  cj_UserID : string;
  cj_JobType : string;
  cj_Broker : string;
  cj_Source : string;
  cj_Filename : string;
  cj_PeriodFrom : option Z;
  cj_PeriodBefore : option Z;
  cj_Payload : string;
  cj_Parts : list ArchivePart;
}.

Definition text_or_null (s : string) : option string := if empty s then None else Some s.

Section statements.
Context (gen_uuid : gset string → string) (uuid_ok : string → bool).
Implicit Types (t : tables) (id : string).

Definition new_part id (p : ArchivePart) : part_row :=
  {| pt_JobID := id; pt_Part := archivePartToStr p; pt_Status := "PENDING"; pt_TotalCount := 0; pt_ProcessedCount := 0; pt_Message := None |}.

(** The job and its parts are written together, against the foreign key of users, the
    checks of both tables and the primary key of the parts. *)
Definition CreateJob (known_user : string → bool) (now : Z) (params : CreateJobParams) t : option (string * tables) :=
  if negb (uuid_ok (cj_UserID params)) then None else
  let type := if empty (cj_JobType params) then "tx" else cj_JobType params in
  if negb (known_user (cj_UserID params) && bool_decide (type ∈ [JobTypeTx; JobTypeSystemArchive; JobTypeUserArchive])
           && bool_decide (ARCHIVE_PART_UNSPECIFIED ∉ cj_Parts params) && bool_decide (NoDup (cj_Parts params))) then None else
  let id := gen_uuid (list_to_set (j_ID <$> ingestion_jobs t)) in
  Some (id, {|
    ingestion_jobs := ingestion_jobs t ++ [{|
      j_ID := id; j_UserID := cj_UserID params; j_Type := type; j_Broker := text_or_null (cj_Broker params);
      j_Source := text_or_null (cj_Source params); j_Filename := text_or_null (cj_Filename params);
      j_PeriodFrom := cj_PeriodFrom params; j_PeriodBefore := cj_PeriodBefore params; j_Status := "PENDING";
      j_TotalCount := 0; j_ProcessedCount := 0; j_Payload := text_or_null (cj_Payload params); j_CreatedAt := now |}];
    ingestion_job_parts := ingestion_job_parts t ++ (new_part id <$> cj_Parts params);
    validation_errors := validation_errors t; identification_errors := identification_errors t |}).

(** *** One row *)

Definition update_job id (f : job → job) t : option tables :=
  if uuid_ok id then Some (with_jobs ((λ j, if String.eqb (j_ID j) id then f j else j) <$> ingestion_jobs t) t) else None.

Definition SetJobStatus (id : string) (s : JobStatus) : tables → option tables :=
  update_job id (λ j, with_progress (jobStatusToStr s) (j_TotalCount j) (j_ProcessedCount j) (j_Payload j) j).

Definition SetJobTotalCount id (total : Z) : tables → option tables :=
  update_job id (λ j, with_progress (j_Status j) total (j_ProcessedCount j) (j_Payload j) j).

Definition SetJobProcessedCount id (processed : Z) : tables → option tables :=
  update_job id (λ j, with_progress (j_Status j) (j_TotalCount j) processed (j_Payload j) j).

(** The column is an INT: one past its end is an error. *)
Definition IncrJobProcessedCount id t : option tables :=
  if existsb (λ j, String.eqb (j_ID j) id && (int4_max <=? j_ProcessedCount j)) (ingestion_jobs t) then None
  else update_job id (λ j, with_progress (j_Status j) (j_TotalCount j) (j_ProcessedCount j + 1) (j_Payload j) j) t.

Definition ClearJobPayload id : tables → option tables :=
  update_job id (λ j, with_progress (j_Status j) (j_TotalCount j) (j_ProcessedCount j) None j).

Definition LoadJobPayload id t : option string :=
  if negb (uuid_ok id) then None
  else (λ j, default EmptyString (j_Payload j)) <$> head (filter (λ j, j_ID j = id) (ingestion_jobs t)).

Definition names_part id (p : ArchivePart) (r : part_row) : bool :=
  String.eqb (pt_JobID r) id && String.eqb (pt_Part r) (archivePartToStr p).

Definition execJobPart id (p : ArchivePart) (f : part_row → part_row) t : option tables :=
  if uuid_ok id then Some (with_parts ((λ r, if names_part id p r then f r else r) <$> ingestion_job_parts t) t) else None.

Definition with_part (status : string) (total processed : Z) (message : option string) (r : part_row) : part_row :=
  {| pt_JobID := pt_JobID r; pt_Part := pt_Part r; pt_Status := status; pt_TotalCount := total; pt_ProcessedCount := processed; pt_Message := message |}.

Definition SetJobPartStatus id p (s : JobStatus) : tables → option tables :=
  execJobPart id p (λ r, with_part (jobStatusToStr s) (pt_TotalCount r) (pt_ProcessedCount r) (pt_Message r) r).

Definition SetJobPartFailed id p (message : string) : tables → option tables :=
  execJobPart id p (λ r, with_part "FAILED" (pt_TotalCount r) (pt_ProcessedCount r) (Some message) r).

Definition SetJobPartTotalCount id p (total : Z) : tables → option tables :=
  execJobPart id p (λ r, with_part (pt_Status r) total (pt_ProcessedCount r) (pt_Message r) r).

Definition AddJobPartProcessedCount id p (n : Z) t : option tables :=
  if existsb (λ r, names_part id p r && negb ((- int4_max - 1 <=? pt_ProcessedCount r + n) && (pt_ProcessedCount r + n <=? int4_max)))
       (ingestion_job_parts t) then None
  else execJobPart id p (λ r, with_part (pt_Status r) (pt_TotalCount r) (pt_ProcessedCount r + n) (pt_Message r) r) t.

Definition ResetJobPartProgress id p : tables → option tables :=
  execJobPart id p (λ r, with_part (pt_Status r) (pt_TotalCount r) 0 None r).

Definition insert_error id (p : ArchivePart) (e : ValidationError) t : option tables :=
  if bool_decide (id ∈ j_ID <$> ingestion_jobs t) then
    Some {| ingestion_jobs := ingestion_jobs t; ingestion_job_parts := ingestion_job_parts t;
            validation_errors := validation_errors t ++
              [{| er_JobID := id; er_Part := if decide (p = ARCHIVE_PART_UNSPECIFIED) then None else Some (archivePartToStr p); er_Error := e |}];
            identification_errors := identification_errors t |}
  else None.

Definition insert_identification_error id (e : IdentificationError) t : option tables :=
  if bool_decide (id ∈ j_ID <$> ingestion_jobs t) then
    Some {| ingestion_jobs := ingestion_jobs t; ingestion_job_parts := ingestion_job_parts t;
            validation_errors := validation_errors t; identification_errors := identification_errors t ++ [(id, e)] |}
  else None.

(** *** Reads *)

Record JobPartResult := {
  pr_Part : ArchivePart;
  pr_Status : JobStatus;
  pr_TotalCount : Z;
  pr_ProcessedCount : Z;
  pr_Message : string;
  pr_ValidationErrors : list ValidationError;
}.

Record JobDetail := {
  jd_Status : JobStatus;
  jd_UserID : string;
  jd_Broker : string;
  jd_Source : string;
  jd_TotalCount : Z;
  jd_ProcessedCount : Z;
  jd_ValidationErrors : list ValidationError;
  jd_IdentificationErrors : list IdentificationError;
  jd_Parts : list JobPartResult;
}.

Definition no_detail : JobDetail := {|
  jd_Status := JOB_STATUS_UNSPECIFIED; jd_UserID := EmptyString; jd_Broker := EmptyString; jd_Source := EmptyString;
  jd_TotalCount := 0; jd_ProcessedCount := 0; jd_ValidationErrors := []; jd_IdentificationErrors := []; jd_Parts := [] |}.

Definition part_cmp (a b : JobPartResult) : comparison := Nat.compare (part_number (pr_Part a)) (part_number (pr_Part b)).

Definition part_of_error (e : error_row) : ArchivePart := strToArchivePart (default EmptyString (er_Part e)).

Definition part_result (errs : list error_row) (r : part_row) : JobPartResult := {|
  pr_Part := strToArchivePart (pt_Part r); pr_Status := strToJobStatus (pt_Status r); pr_TotalCount := pt_TotalCount r;
  pr_ProcessedCount := pt_ProcessedCount r; pr_Message := default EmptyString (pt_Message r);
  pr_ValidationErrors := er_Error <$> filter (λ e, part_of_error e = strToArchivePart (pt_Part r)) errs |}.

(** Errors go to the part they name, or else to the job. *)
Definition GetJob id t : option JobDetail :=
  if negb (uuid_ok id) then None else
  match filter (λ j, j_ID j = id) (ingestion_jobs t) with
  | [] => Some no_detail
  | j :: _ =>
      let errs := go_sort (λ a b, ve_RowIndex (er_Error a) <? ve_RowIndex (er_Error b))
                    (filter (λ e, er_JobID e = id) (validation_errors t)) in
      let rows := filter (λ r, pt_JobID r = id) (ingestion_job_parts t) in
      let results := part_result errs <$> rows in
      Some {|
        jd_Status := strToJobStatus (j_Status j); jd_UserID := j_UserID j; jd_Broker := default EmptyString (j_Broker j);
        jd_Source := default EmptyString (j_Source j); jd_TotalCount := j_TotalCount j; jd_ProcessedCount := j_ProcessedCount j;
        jd_ValidationErrors := er_Error <$> filter (λ e, part_of_error e ∉ pr_Part <$> results) errs;
        jd_IdentificationErrors := go_sort (λ a b, ie_RowIndex a <? ie_RowIndex b) (filter (λ x, x.1 = id) (identification_errors t)).*2;
        jd_Parts := go_sort (less_of part_cmp) results |}
  end.

Definition open_status (s : string) : bool := String.eqb s "PENDING" || String.eqb s "RUNNING".

Record JobRequest := { rq_JobID : string; rq_JobType : string }.

Definition ListPendingJobs t : list JobRequest :=
  (λ j, {| rq_JobID := j_ID j; rq_JobType := j_Type j |}) <$>
    go_sort (λ a b, j_CreatedAt a <? j_CreatedAt b) (filter (λ j, open_status (j_Status j) = true) (ingestion_jobs t)).
End statements.

(** ** Whatever holds the tables *)

(** The job tables as part of a larger state. *)
Class JobTables (C : Type) := {
  jt : C → tables;
  with_jt : tables → C → C;
  jt_with : ∀ t c, jt (with_jt t c) = t;
  with_with : ∀ t t' c, with_jt t' (with_jt t c) = with_jt t' c;
  with_same : ∀ c, with_jt (jt c) c = c;
}.

#[export] Instance bare_tables : JobTables tables :=
  {| jt := λ t, t; with_jt := λ t _, t; jt_with := λ t _, eq_refl; with_with := λ _ t _, eq_refl; with_same := λ _, eq_refl |}.

(** A run: the state as last committed, and every state before it. *)
Record trace {C : Type} := { latest : C; earlier : list C }.
#[global] Arguments trace : clear implicits.

Record PartReporter := {
  rp_db : bool;
  rp_JobID : string;
  rp_Part : ArchivePart;
  rp_Errs : list ValidationError;
  rp_Pending : Z;
}.

Definition progressFlushEvery : Z := 100.

Definition NewPartReporter (id : string) (p : ArchivePart) : PartReporter :=
  {| rp_db := true; rp_JobID := id; rp_Part := p; rp_Errs := []; rp_Pending := 0 |}.

Definition NewDetachedReporter : PartReporter :=
  {| rp_db := false; rp_JobID := EmptyString; rp_Part := ARCHIVE_PART_UNSPECIFIED; rp_Errs := []; rp_Pending := 0 |}.

Definition with_pending (n : Z) (r : PartReporter) : PartReporter :=
  {| rp_db := rp_db r; rp_JobID := rp_JobID r; rp_Part := rp_Part r; rp_Errs := rp_Errs r; rp_Pending := n |}.
Definition with_errs (l : list ValidationError) (r : PartReporter) : PartReporter :=
  {| rp_db := rp_db r; rp_JobID := rp_JobID r; rp_Part := rp_Part r; rp_Errs := l; rp_Pending := rp_Pending r |}.

Definition Errs (errs : list ValidationError) (r : PartReporter) : PartReporter := with_errs (rp_Errs r ++ errs) r.
Definition Errf (rowIndex : Z) (field message : string) (r : PartReporter) : PartReporter :=
  Errs [{| ve_RowIndex := int32 rowIndex; ve_Field := field; ve_Message := message |}] r.
Definition ErrCount (r : PartReporter) : nat := length (rp_Errs r).

Definition scoped (r : PartReporter) : bool := rp_db r && bool_decide (rp_Part r ≠ ARCHIVE_PART_UNSPECIFIED).

Section runs.
Context {C : Type} `{JobTables C}.
Context (uuid_ok : string → bool).
Implicit Types (w : trace C) (r : PartReporter).

Definition commit (c : C) w : trace C := {| latest := c; earlier := latest w :: earlier w |}.

(** A statement whose failure is ignored. *)
Definition write (f : tables → option tables) w : trace C :=
  match f (jt (latest w)) with Some t => commit (with_jt t (latest w)) w | None => w end.

(** One statement a row, up to the first that fails. *)
Fixpoint append_rows {A} (f : A → tables → option tables) (l : list A) w : trace C :=
  match l with
  | [] => w
  | x :: l => match f x (jt (latest w)) with Some t => append_rows f l (commit (with_jt t (latest w)) w) | None => w end
  end.

Definition AppendValidationErrors (id : string) (p : ArchivePart) (errs : list ValidationError) w : trace C :=
  if uuid_ok id then append_rows (insert_error id p) errs w else w.

Definition AppendIdentificationErrors (id : string) (errs : list IdentificationError) w : trace C :=
  if uuid_ok id then append_rows (insert_identification_error id) errs w else w.

Definition Total (r : PartReporter) (n : Z) w : trace C :=
  if negb (rp_db r) then w
  else if scoped r then write (SetJobPartTotalCount uuid_ok (rp_JobID r) (rp_Part r) (int32 n)) w
  else write (SetJobTotalCount uuid_ok (rp_JobID r) (int32 n)) w.

Definition flushProgress r w : PartReporter * trace C :=
  if (rp_Pending r =? 0) || negb (rp_db r) then (r, w)
  else (with_pending 0 r, write (AddJobPartProcessedCount uuid_ok (rp_JobID r) (rp_Part r) (rp_Pending r)) w).

Definition Advance r (n : nat) w : PartReporter * trace C :=
  if negb (rp_db r) then (r, w)
  else if negb (scoped r) then (r, Nat.iter n (write (IncrJobProcessedCount uuid_ok (rp_JobID r))) w)
  else let r := with_pending (int32 (rp_Pending r + int32 (Z.of_nat n))) r in
       if progressFlushEvery <=? rp_Pending r then flushProgress r w else (r, w).

Definition Flush r w : PartReporter * trace C :=
  let '(r, w) := flushProgress r w in
  match rp_Errs r with
  | [] => (r, w)
  | errs => if rp_db r then (with_errs [] r, AppendValidationErrors (rp_JobID r) (rp_Part r) errs w) else (r, w)
  end.

(** The payload goes only once the status is terminal. *)
Definition finishJob (id : string) (status : JobStatus) w : trace C :=
  write (ClearJobPayload uuid_ok id) (write (SetJobStatus uuid_ok id status) w).

Definition failWholeJob (id field message : string) w : trace C :=
  finishJob id FAILED
    (AppendValidationErrors id ARCHIVE_PART_UNSPECIFIED [{| ve_RowIndex := -1; ve_Field := field; ve_Message := message |}] w).
End runs.

(** ** The queue *)

(** A send that never blocks, on a channel of that capacity. *)
Definition enqueueJob (capacity : nat) (r : JobRequest) (q : list JobRequest) : option (list JobRequest) :=
  if decide (length q < capacity)%nat then Some (q ++ [r]) else None.

Definition re_enqueue (capacity : nat) (t : tables) (q : list JobRequest) : list JobRequest :=
  foldl (λ q r, default q (enqueueJob capacity r q)) q (ListPendingJobs t).

(** ** What statements keep *)

(** A job but for its progress. *)
Definition essence (j : job) : job := with_progress (j_Status j) 0 0 (j_Payload j) j.

Definition job_reported (id : string) (j j' : job) : Prop := j' = j ∨ j_ID j = id ∧ essence j' = essence j.

Definition part_reported (id : string) (ps : ArchivePart → Prop) (r r' : part_row) : Prop :=
  r' = r ∨ pt_JobID r = id ∧ pt_JobID r' = id ∧ pt_Part r' = pt_Part r ∧ ∃ p, ps p ∧ pt_Part r = archivePartToStr p.

#[export] Instance job_reported_preorder id : PreOrder (job_reported id).
Proof.
  split; [by left|]. intros x y z [->|[H1 H1']] [->|[H2 H2']]; try (by left); right; (split; [done|]); congruence.
Qed.

#[export] Instance part_reported_preorder id ps : PreOrder (part_reported id ps).
Proof.
  split; [by left|]. intros x y z [->|(H1 & H2 & H3 & p & Hp & E)] [->|(H4 & H5 & H6 & q & Hq & E')]; try (by left); right;
    split_and!; eauto; congruence.
Qed.

(** A write on a job, on those of its parts and its errors, and on nothing else. *)
Record written (R : relation job) (id : string) (ps : ArchivePart → Prop) (t t' : tables) : Prop := {
  wr_jobs : Forall2 R (ingestion_jobs t) (ingestion_jobs t');
  wr_parts : Forall2 (part_reported id ps) (ingestion_job_parts t) (ingestion_job_parts t');
  wr_errors : ∃ new, validation_errors t' = validation_errors t ++ new ∧ ∀ e, e ∈ new → er_JobID e = id;
  wr_identification : ∃ new, identification_errors t' = identification_errors t ++ new ∧ ∀ e, e ∈ new → e.1 = id;
}.

#[export] Instance written_preorder R id ps : PreOrder R → PreOrder (written R id ps).
Proof.
  intros HR. split.
  - intros t. split; [reflexivity|reflexivity| |]; exists []; rewrite app_nil_r; (split; [done|]); by intros e ?%elem_of_nil.
  - intros t1 t2 t3 [A1 A2 (n1 & A3 & A3') (m1 & A4 & A4')] [B1 B2 (n2 & B3 & B3') (m2 & B4 & B4')]. split.
    + by etrans.
    + by etrans.
    + exists (n1 ++ n2). rewrite B3, A3. split; [by rewrite <- app_assoc|]. set_solver.
    + exists (m1 ++ m2). rewrite B4, A4. split; [by rewrite <- app_assoc|]. set_solver.
Qed.

Lemma written_weaken (R R' : relation job) id (ps qs : ArchivePart → Prop) t t' : (∀ j j', R j j' → R' j j') → (∀ p, ps p → qs p) →
  written R id ps t t' → written R' id qs t t'.
Proof.
  intros HR Hpq [A1 A2 A3 A4]. split; [by eapply Forall2_impl| |done|done]. eapply Forall2_impl; [exact A2|].
  intros r r' [->|(H1 & H2 & H3 & p & Hp & E)]; [by left|]. right. eauto 10.
Qed.

(** What reporting does. *)
Notation reported id := (written (job_reported id) id).

Lemma reported_weaken id (ps qs : ArchivePart → Prop) t t' : (∀ p, ps p → qs p) → reported id ps t t' → reported id qs t t'.
Proof. intros Hpq. by apply written_weaken. Qed.

(** What processing a job does to it: it stays what it is, and while it is open it keeps
    its payload; it is not opened again. *)
Definition static (j : job) : job := with_progress EmptyString 0 0 None j.

Definition job_handled (id : string) (j j' : job) : Prop :=
  j' = j ∨ j_ID j = id ∧ static j' = static j ∧
    (open_status (j_Status j') = true → open_status (j_Status j) = true ∧ j_Payload j' = j_Payload j).

Notation handled id := (written (job_handled id) id).

#[export] Instance job_handled_preorder id : PreOrder (job_handled id).
Proof.
  split; [by left|]. intros x y z [->|(A1 & A2 & A3)] [->|(B1 & B2 & B3)]; [by left| |by right|]; right; [done|].
  split_and!; [done|congruence|]. intros Ho. destruct (B3 Ho) as [Hy ->]. auto.
Qed.

Lemma job_reported_handled id j j' : job_reported id j j' → job_handled id j j'.
Proof.
  intros [->|[Hj He]]; [by left|]. right. split; [done|]. unfold essence in He.
  pose proof (f_equal j_Status He) as Es. pose proof (f_equal j_Payload He) as Ep. cbn in Es, Ep. split; [|intros Ho; rewrite <- Es; done].
  pose proof (f_equal static He) as Ex. exact Ex.
Qed.

(** *** Statements *)

Lemma update_job_reported uuid_ok id f t t' : (∀ j, essence (f j) = essence j) → update_job uuid_ok id f t = Some t' →
  reported id (λ _, False) t t'.
Proof.
  unfold update_job. intros Hf E. destruct (uuid_ok id); [|done]. injection E as <-. split; cbn; [|reflexivity| |];
    [|by exists []; rewrite app_nil_r; split; [|intros e ?%elem_of_nil]..].
  induction (ingestion_jobs t) as [|j l IH]; [constructor|]. cbn. constructor; [|done].
  destruct (String.eqb (j_ID j) id) eqn:Ej; [|by left]. apply String.eqb_eq in Ej. right. by rewrite Hf.
Qed.

Lemma exec_part_reported uuid_ok id p f t t' : (∀ r, pt_JobID (f r) = pt_JobID r ∧ pt_Part (f r) = pt_Part r) →
  execJobPart uuid_ok id p f t = Some t' → reported id (eq p) t t'.
Proof.
  unfold execJobPart. intros Hf E. destruct (uuid_ok id); [|done]. injection E as <-. split; cbn; [reflexivity| | |];
    [|by exists []; rewrite app_nil_r; split; [|intros e ?%elem_of_nil]..].
  induction (ingestion_job_parts t) as [|r l IH]; [constructor|]. cbn. constructor; [|done].
  destruct (names_part id p r) eqn:En; [|by left]. unfold names_part in En.
  apply andb_true_iff in En as [E1%String.eqb_eq E2%String.eqb_eq]. destruct (Hf r) as [F1 F2].
  right. split_and!; [done|congruence|done|eauto].
Qed.

Lemma insert_error_reported id p e t t' : insert_error id p e t = Some t' → reported id (λ _, False) t t'.
Proof.
  unfold insert_error. intros E. destruct (bool_decide _); [|done]. injection E as <-. split; cbn; [reflexivity|reflexivity| |].
  - eexists. split; [done|]. by intros x ->%list_elem_of_singleton.
  - exists []. rewrite app_nil_r. split; [done|]. by intros x ?%elem_of_nil.
Qed.

Lemma insert_identification_reported id e t t' : insert_identification_error id e t = Some t' → reported id (λ _, False) t t'.
Proof.
  unfold insert_identification_error. intros E. destruct (bool_decide _); [|done]. injection E as <-.
  split; cbn; [reflexivity|reflexivity| |].
  - exists []. rewrite app_nil_r. split; [done|]. by intros x ?%elem_of_nil.
  - eexists. split; [done|]. by intros x ->%list_elem_of_singleton.
Qed.

(** *** Runs *)

(** Every state a run passed through, after those of the run it continues, stands in the
    relation to the state that one had reached. *)
Definition along {C} (R : relation C) (w w' : trace C) : Prop :=
  ∃ new, latest w' :: earlier w' = new ++ latest w :: earlier w ∧ ∀ c, c ∈ new → R (latest w) c.

Section along.
Context {C : Type} (R : relation C) `{!PreOrder R}.
Implicit Types (w : trace C).

Lemma along_now w w' : along R w w' → R (latest w) (latest w').
Proof. intros ([|c new] & E & Hn); injection E as -> _; [done|]. apply Hn. left. Qed.

Lemma along_visited w w' c : along R w w' → c ∈ latest w' :: earlier w' → c ∈ earlier w ∨ R (latest w) c.
Proof. intros (new & -> & Hn) [Hc|[->|Hc]%elem_of_cons]%elem_of_app; [auto|by right|by left]. Qed.

Lemma along_refl w : along R w w.
Proof. exists []. split; [done|]. by intros c ?%elem_of_nil. Qed.

Lemma along_trans w1 w2 w3 : along R w1 w2 → along R w2 w3 → along R w1 w3.
Proof.
  intros H12 (n2 & E2 & H2). pose proof (along_now _ _ H12) as Hnow. destruct H12 as (n1 & E1 & H1).
  exists (n2 ++ n1). rewrite E2, E1, <- app_assoc. split; [done|]. intros c [Hc|Hc]%elem_of_app; [|by apply H1].
  etrans; [exact Hnow|by apply H2].
Qed.

Lemma along_commit c w : R (latest w) c → along R w (commit c w).
Proof. intros Hc. exists [c]. split; [done|]. by intros c' ->%list_elem_of_singleton. Qed.

Lemma along_extend w w' c : along R w w' → R (latest w) c → along R w (commit c w').
Proof.
  intros (new & E & Hn) Hc. exists (c :: new). cbn. rewrite E. split; [done|]. by intros x [->|Hx]%elem_of_cons; [|apply Hn].
Qed.

Lemma along_weaken (R' : relation C) w w' : (∀ c c', R c c' → R' c c') → along R w w' → along R' w w'.
Proof. intros Hw (new & E & Hn). exists new. split; [done|]. auto. Qed.
End along.

Section reporting.
Context {C : Type} `{JobTables C}.
Context (uuid_ok : string → bool).
Implicit Types (w : trace C) (r : PartReporter) (c : C) (id : string).

(** Reporting on a job, as it shows in a state that holds the tables. *)
Definition reports (id : string) (ps : ArchivePart → Prop) c c' : Prop := ∃ t, c' = with_jt t c ∧ reported id ps (jt c) t.

#[export] Instance reports_preorder id ps : PreOrder (reports id ps).
Proof.
  split.
  - intros c. exists (jt c). rewrite with_same. split; [done|reflexivity].
  - intros c1 c2 c3 (t & -> & A) (t' & -> & B). exists t'. rewrite with_with. rewrite jt_with in B. split; [done|]. by etrans.
Qed.

Lemma reports_weaken id (ps qs : ArchivePart → Prop) c c' : (∀ p, ps p → qs p) → reports id ps c c' → reports id qs c c'.
Proof. intros Hw (t & -> & A). exists t. split; [done|]. by eapply reported_weaken. Qed.

Lemma write_reports id ps f w : (∀ t t', f t = Some t' → reported id ps t t') → along (reports id ps) w (write f w).
Proof.
  intros Hf. unfold write. destruct (f _) as [t|] eqn:E; [|apply along_refl]. apply along_commit. exists t. eauto.
Qed.

Lemma append_reports {A} id ps (f : A → tables → option tables) l w : (∀ x t t', f x t = Some t' → reported id ps t t') →
  along (reports id ps) w (append_rows f l w).
Proof.
  intros Hf. revert w. induction l as [|x l IH]; intros w; cbn [append_rows]; [apply along_refl|].
  destruct (f x _) as [t|] eqn:E; [|apply along_refl]. eapply along_trans; [apply _| |apply IH]. apply along_commit. exists t. eauto.
Qed.

Lemma errors_reports id p errs w ps : along (reports id ps) w (AppendValidationErrors uuid_ok id p errs w).
Proof.
  unfold AppendValidationErrors. destruct (uuid_ok id); [|apply along_refl]. apply append_reports. intros e t t' E.
  eapply reported_weaken; [|by eapply insert_error_reported]. done.
Qed.

Lemma identification_reports id errs w ps : along (reports id ps) w (AppendIdentificationErrors uuid_ok id errs w).
Proof.
  unfold AppendIdentificationErrors. destruct (uuid_ok id); [|apply along_refl]. apply append_reports. intros e t t' E.
  eapply reported_weaken; [|by eapply insert_identification_reported]. done.
Qed.

Lemma write_job_reports id (f : job → job) w ps : (∀ j, essence (f j) = essence j) →
  along (reports id ps) w (write (update_job uuid_ok id f) w).
Proof.
  intros Hf. apply write_reports. intros t t' E. eapply reported_weaken; [|by eapply update_job_reported]. done.
Qed.

Lemma write_part_reports id p f w (ps : ArchivePart → Prop) : ps p → (∀ x, pt_JobID (f x) = pt_JobID x ∧ pt_Part (f x) = pt_Part x) →
  along (reports id ps) w (write (execJobPart uuid_ok id p f) w).
Proof.
  intros Hp Hf. apply write_reports. intros t t' E. eapply reported_weaken; [|by eapply exec_part_reported]. by intros ? <-.
Qed.

Lemma add_part_reports id p n w (ps : ArchivePart → Prop) : ps p → along (reports id ps) w (write (AddJobPartProcessedCount uuid_ok id p n) w).
Proof.
  intros Hp. apply write_reports. intros t t' E. unfold AddJobPartProcessedCount in E. destruct (existsb _ _); [done|].
  eapply reported_weaken; [|eapply exec_part_reported; [|exact E]]; [by intros ? <-|done].
Qed.

Lemma incr_reports id w ps : along (reports id ps) w (write (IncrJobProcessedCount uuid_ok id) w).
Proof.
  apply write_reports. intros t t' E. unfold IncrJobProcessedCount in E. destruct (existsb _ _); [done|].
  eapply reported_weaken; [|eapply update_job_reported; [|exact E]]; done.
Qed.

(** The reporter keeps the job and the part it was made for. *)
Definition same_scope r r' : Prop := rp_db r' = rp_db r ∧ rp_JobID r' = rp_JobID r ∧ rp_Part r' = rp_Part r.

Lemma total_reports r n w (ps : ArchivePart → Prop) : ps (rp_Part r) → along (reports (rp_JobID r) ps) w (Total uuid_ok r n w).
Proof.
  intros Hp. unfold Total. destruct (rp_db r); [|apply along_refl]. cbn. destruct (scoped r); [by apply write_part_reports|by apply write_job_reports].
Qed.

Lemma flush_progress_reports r w (ps : ArchivePart → Prop) : ps (rp_Part r) → let '(r', w') := flushProgress uuid_ok r w in
  along (reports (rp_JobID r) ps) w w' ∧ same_scope r r' ∧ rp_Errs r' = rp_Errs r.
Proof.
  intros Hp. unfold flushProgress. destruct (_ || _); [by split; [apply along_refl|]|]. by split; [apply add_part_reports|].
Qed.

Lemma advance_reports r n w (ps : ArchivePart → Prop) : ps (rp_Part r) → let '(r', w') := Advance uuid_ok r n w in
  along (reports (rp_JobID r) ps) w w' ∧ same_scope r r' ∧ rp_Errs r' = rp_Errs r.
Proof.
  intros Hp. unfold Advance. destruct (negb _); [by split; [apply along_refl|]|]. destruct (negb (scoped r)).
  - split; [|done]. induction n as [|n IH]; [apply along_refl|]. rewrite Nat.iter_succ. eapply along_trans; [apply _|exact IH|].
    apply incr_reports.
  - destruct (_ <=? _); [|by split; [apply along_refl|]].
    apply (flush_progress_reports (with_pending (int32 (rp_Pending r + int32 (Z.of_nat n))) r) w ps Hp).
Qed.

Lemma flush_reports r w (ps : ArchivePart → Prop) : ps (rp_Part r) → let '(r', w') := Flush uuid_ok r w in
  along (reports (rp_JobID r) ps) w w' ∧ same_scope r r'.
Proof.
  intros Hp. unfold Flush. pose proof (flush_progress_reports r w ps Hp) as Hf. destruct (flushProgress _ r w) as [r1 w1].
  destruct Hf as (Hw & Hs & He). destruct (rp_Errs r1) as [|e es]; [by split|]. destruct (rp_db r1) eqn:Ed; [|by split].
  destruct Hs as (Hs1 & Hs2 & Hs3).
  split; [|unfold same_scope; cbn; split_and!; congruence]. eapply along_trans; [apply _|exact Hw|]. rewrite Hs2. apply errors_reports.
Qed.

(** *** Problems are told *)

(** An error was added. *)
Definition told t t' : Prop := ∃ new, new ≠ [] ∧ validation_errors t' = validation_errors t ++ new.

Lemma told_before R id ps t1 t2 t3 : written R id ps t1 t2 → told t2 t3 → told t1 t3.
Proof.
  intros [_ _ (n1 & E1 & _) _] (n2 & Hn & E2). exists (n1 ++ n2). rewrite E2, E1, app_assoc. split; [|done]. by intros [_ ?]%app_eq_nil.
Qed.

Lemma told_after R id ps t1 t2 t3 : told t1 t2 → written R id ps t2 t3 → told t1 t3.
Proof.
  intros (n1 & Hn & E1) [_ _ (n2 & E2 & _) _]. exists (n1 ++ n2). rewrite E2, E1, app_assoc. split; [|done]. by intros [? _]%app_eq_nil.
Qed.

Lemma reported_ids id ps t t' : reported id ps t t' → j_ID <$> ingestion_jobs t' = j_ID <$> ingestion_jobs t.
Proof.
  intros [Hj _ _ _]. induction Hj as [|j j' l l' Hr _ IH]; [done|]. cbn. rewrite IH. f_equal.
  destruct Hr as [->|[_ He]]; [done|]. apply (f_equal j_ID) in He. exact He.
Qed.

Lemma along_reported id ps w w' : along (reports id ps) w w' → reported id ps (jt (latest w)) (jt (latest w')).
Proof. intros (t & -> & Ht)%(along_now _). by rewrite jt_with. Qed.

Lemma append_tells id p errs w : uuid_ok id = true → id ∈ j_ID <$> ingestion_jobs (jt (latest w)) → errs ≠ [] →
  told (jt (latest w)) (jt (latest (AppendValidationErrors uuid_ok id p errs w))).
Proof.
  intros Hu Hid He. unfold AppendValidationErrors. rewrite Hu. destruct errs as [|e errs]; [done|]. cbn [append_rows]. unfold insert_error at 1.
  rewrite bool_decide_true by done. set (t := {| ingestion_jobs := _ |}).
  pose proof (append_reports id (λ _, False) (insert_error id p) errs (commit (with_jt t (latest w)) w) (insert_error_reported id p)) as Ha%along_reported.
  cbn [latest commit] in Ha. rewrite jt_with in Ha. eapply told_after; [|exact Ha]. eexists. split; [|reflexivity]. done.
Qed.

(** What a reporter has collected is written when it is flushed. *)
Lemma flush_tells r w : rp_db r = true → uuid_ok (rp_JobID r) = true → rp_JobID r ∈ j_ID <$> ingestion_jobs (jt (latest w)) → rp_Errs r ≠ [] →
  told (jt (latest w)) (jt (latest (Flush uuid_ok r w).2)).
Proof.
  intros Hdb Hu Hid He. unfold Flush. pose proof (flush_progress_reports r w (eq (rp_Part r)) eq_refl) as Hf.
  destruct (flushProgress _ r w) as [r1 w1]. destruct Hf as (Hw%along_reported & (Hs1 & Hs2 & Hs3) & Er).
  destruct (rp_Errs r1) as [|e es] eqn:Ee; [congruence|]. rewrite Hs1, Hdb. cbn [snd]. eapply told_before; [exact Hw|].
  rewrite Hs2. apply append_tells; [done| |done]. by rewrite (reported_ids _ _ _ _ Hw).
Qed.
End reporting.

(** ** Handling a job *)

(** A write on the row of a job. *)
Lemma update_handled uuid_ok id f ps t t' : (∀ j, j ∈ ingestion_jobs t → j_ID j = id → job_handled id j (f j)) →
  update_job uuid_ok id f t = Some t' → handled id ps t t'.
Proof.
  unfold update_job. intros Hf E. destruct (uuid_ok id); [|done]. injection E as <-. split; cbn; [|reflexivity| |];
    [|by exists []; rewrite app_nil_r; split; [|intros e ?%elem_of_nil]..].
  revert Hf. induction (ingestion_jobs t) as [|j l IH]; intros Hf; [constructor|]. cbn. constructor.
  - destruct (String.eqb (j_ID j) id) eqn:Ej; [|by left]. apply String.eqb_eq in Ej. apply Hf; [left|done].
  - apply IH. intros j' Hj'. apply Hf. by right.
Qed.

Definition terminal (s : JobStatus) : Prop := s = SUCCESS ∨ s = FAILED.

Lemma terminal_closed s : terminal s → open_status (jobStatusToStr s) = false.
Proof. by intros [->| ->]. Qed.

Section handling.
Context {C : Type} `{JobTables C}.
Context (uuid_ok : string → bool).
Implicit Types (w : trace C) (c : C) (id : string) (t : tables) (ps : ArchivePart → Prop).

Definition handles id ps c c' : Prop := ∃ t, c' = with_jt t c ∧ handled id ps (jt c) t.

#[export] Instance handles_preorder id ps : PreOrder (handles id ps).
Proof.
  split.
  - intros c. exists (jt c). rewrite with_same. split; [done|reflexivity].
  - intros c1 c2 c3 (t & -> & A) (t' & -> & B). exists t'. rewrite with_with. rewrite jt_with in B. split; [done|]. by etrans.
Qed.

Lemma write_handles id ps f w : (∀ t, f (jt (latest w)) = Some t → handled id ps (jt (latest w)) t) → along (handles id ps) w (write f w).
Proof.
  intros Hf. unfold write. destruct (f _) as [t|] eqn:E; [|apply along_refl]. apply along_commit. exists t. eauto.
Qed.

(** Every job of that id is over. *)
Definition closed id t : Prop := ∀ j, j ∈ ingestion_jobs t → j_ID j = id → open_status (j_Status j) = false.

(** Every job of that id is over and has no payload. *)
Definition finished id (s : JobStatus) t : Prop :=
  ∀ j, j ∈ ingestion_jobs t → j_ID j = id → j_Status j = jobStatusToStr s ∧ j_Payload j = None.

Lemma finish_handles id s ps w : uuid_ok id = true → terminal s →
  along (handles id ps) w (finishJob uuid_ok id s w) ∧ finished id s (jt (latest (finishJob uuid_ok id s w))).
Proof.
  intros Hu Hs. unfold finishJob. set (w1 := write (SetJobStatus uuid_ok id s) w).
  assert (along (handles id ps) w w1) as H1.
  { apply write_handles. intros t. apply update_handled. intros j _ Hj. right. split_and!; [done|done|]. cbn. by rewrite terminal_closed. }
  assert (∀ j, j ∈ ingestion_jobs (jt (latest w1)) → j_ID j = id → j_Status j = jobStatusToStr s) as Hc.
  { unfold w1, write, SetJobStatus, update_job. rewrite Hu. cbn. rewrite jt_with. cbn. intros j (x & -> & _)%list_elem_of_fmap.
    destruct (String.eqb (j_ID x) id) eqn:E; [done|]. apply String.eqb_neq in E. by intros. }
  split.
  - eapply along_trans; [apply _|exact H1|]. apply write_handles. intros t. apply update_handled. intros j Hj Ej. right.
    split_and!; [done|done|]. cbn. rewrite (Hc j Hj Ej). by rewrite terminal_closed.
  - unfold write, ClearJobPayload, update_job. rewrite Hu. cbn. rewrite jt_with. cbn. intros j (x & -> & Hx)%list_elem_of_fmap.
    destruct (String.eqb (j_ID x) id) eqn:E; [|apply String.eqb_neq in E; by intros]. apply String.eqb_eq in E. intros _. cbn.
    split; [by apply Hc|done].
Qed.

Lemma fail_whole_handles id field message ps w : uuid_ok id = true →
  along (handles id ps) w (failWholeJob uuid_ok id field message w) ∧ finished id FAILED (jt (latest (failWholeJob uuid_ok id field message w))).
Proof.
  intros Hu. unfold failWholeJob. destruct (finish_handles id FAILED ps (AppendValidationErrors uuid_ok id ARCHIVE_PART_UNSPECIFIED
    [{| ve_RowIndex := -1; ve_Field := field; ve_Message := message |}] w) Hu ltac:(by right)) as [Hf Hd]. split; [|done].
  eapply along_trans; [apply _| |exact Hf]. eapply along_weaken; [|apply (errors_reports _ _ _ _ _ ps)].
  intros c c' (t & -> & Hr). exists t. split; [done|]. eapply written_weaken; [apply job_reported_handled|done|done].
Qed.
End handling.
End Jobs.
