(* ===== verification/Imports.v ===== *)
(** * Imports

    server/service/ingestion: what a worker does with a job (worker.go, user_import.go,
    tx_import.go and the reports of ingest.go), the handlers that create one (server.go,
    and ImportUserArchive of service/api/user_archive.go), and the two parts of a user
    archive that are no postings (archiveimport/preferences.go, declarations.go).

    The server is its tables: the jobs, the display currencies of the users, the market
    with its ledger and its declarations, and what identification keeps.  A run is the
    list of the states it committed, so what a restart would find is any of them.  A batch
    commits twice here, when its postings are resolved and when they are stored; each of
    its resolutions is a transaction of its own in the code.  A recalculation commits once.

    Serialised requests are text that [unmarshal_upsert] and [unmarshal_archive] read; the
    texts of errors come from [error_text].  A worker that never comes back, for a batch
    that hangs or panics, has no answer.  The import of a system archive is not modelled,
    nor are telemetry and logging. *)

From stdpp Require Import relations.
From Stdlib Require Import QArith.
From S2P Require Import Prelude GoStrings Calendar Decimal TxType Posting Neighbourhood Diff Residual Ledger Instruments Weigh Splits Declarations Reconcile Identity Resolve Validate Books Candidates Ingest Jobs.

Local Open Scope nat_scope.

Module Imports.
Import GoStrings Calendar TxType Posting Neighbourhood Diff Residual Ledger Instruments Weigh Splits Declarations Reconcile Identity Resolve Validate Books Candidates Ingest Jobs.

(** ** Data *)

Record server {D : Type} := {
  sv_tables : tables;
  sv_users : gmap string string;
  sv_state : state D;
  sv_saved : list (string * list ProviderIdentifier);
  sv_attempts : list attempt;
}.
#[global] Arguments server : clear implicits.

Definition with_tables {D} (t : tables) (c : server D) : server D :=
  {| sv_tables := t; sv_users := sv_users c; sv_state := sv_state c; sv_saved := sv_saved c; sv_attempts := sv_attempts c |}.
Definition with_users {D} (u : gmap string string) (c : server D) : server D :=
  {| sv_tables := sv_tables c; sv_users := u; sv_state := sv_state c; sv_saved := sv_saved c; sv_attempts := sv_attempts c |}.
Definition with_state {D} (s : state D) (c : server D) : server D :=
  {| sv_tables := sv_tables c; sv_users := sv_users c; sv_state := s; sv_saved := sv_saved c; sv_attempts := sv_attempts c |}.

#[export] Instance server_tables {D} : JobTables (server D).
Proof. refine {| jt := sv_tables; with_jt := with_tables |}; try done. by intros []. Defined.

Inductive import_error :=
  | UnknownBroker (b : Posting.Broker)
  | NotADate (s : string)
  | BeforeStart (s : string) (startDay : Z)
  | NotADecimal (s : string)
  | NamesNoInstrument
  | UnknownInstrument (ref : Identifier)
  | BadCurrency (s : string)
  | NoTransactions
  | UnknownPart
  | ErrBatchRejected
  | NotLoaded
  | NotParsed
  | DatabaseError.

(** A window of postings, as it is on the wire. *)
Record TxWindow := {
  tw_Broker : Posting.Broker;
  tw_Source : string;
  tw_PeriodFrom : option Z;
  tw_PeriodBefore : option Z;
  tw_Postings : list ArchivePosting;
}.

Record UpsertTxsRequest := { ur_Window : TxWindow; ur_Filename : string; ur_ExportedAt : option Z }.

Record ArchiveDeclaration := { ad_Instrument : Identifier; ad_DeclaredQty : string; ad_ShareCountBasis : option string }.

Record Statement := {
  st_Broker : Posting.Broker;
  st_Account : string;
  st_AsOfDate : string;
  st_Declarations : list ArchiveDeclaration;
}.

Inductive ArchiveKind := ARCHIVE_KIND_UNSPECIFIED | SYSTEM | USER | ArchiveKind_unrecognized (n : Z).

#[export] Instance ArchiveKind_eq_dec : EqDecision ArchiveKind.
Proof. solve_decision. Defined.

Record Envelope := { env_FormatVersion : Z; env_ExportedAt : option Z; env_Kind : ArchiveKind }.

Definition FormatVersion : Z := 1.

Inductive refusal := NoEnvelope | NoFormatVersion | VersionError | KindError.

Definition CheckEnvelope (e : option Envelope) (want : ArchiveKind) : option refusal :=
  match e with
  | None => Some NoEnvelope
  | Some e =>
      if (env_FormatVersion e =? 0)%Z then Some NoFormatVersion
      else if (FormatVersion <? env_FormatVersion e)%Z then Some VersionError
      else if decide (env_Kind e = want) then None else Some KindError
  end.

(** The display currency is the only preference, and may be left unstated. *)
Record UserArchive := {
  ua_Envelope : option Envelope;
  ua_Preferences : option (option string);
  ua_Txs : option (list TxWindow);
  ua_Declarations : option (list Statement);
}.

Record userImportResult := { displayCurrencySet : bool; txsStored : bool; declarationsStored : bool; failed : bool }.

Inductive trigger := PriceTrigger | TransferMatchTrigger | GroupingTrigger.

Definition ValidCurrencyCode (s : string) : bool :=
  (String.length s =? 3) && forallb is_upper (String.list_ascii_of_string s).

Definition to_window (w : TxWindow) : window :=
  {| w_Broker := BrokerToStr (tw_Broker w); w_Source := tw_Source w; w_PeriodFrom := tw_PeriodFrom w;
     w_PeriodBefore := tw_PeriodBefore w; w_Postings := tw_Postings w |}.

Section imports.
Context {D : Type} `{Decimal D}.
Context (gen_uuid : gset string → string) (uuid_ok : string → bool) (operating_mic : string → option string).
Context (parse_dec : string → option D) (countryOf : string → string).
Context (num_div : D → D → D) (num_scale : D → Z).
Context (settler : option (string → list (GroupingPosting D) → ledger D → option (list GroupChange))).
Context (configs : list string) (registry : string → option plugin) (candidates : option (list candidate)).
Context (hash : string → string) (row_id : option (nat → string)) (today now : Z).
Context (parse_date : string → option Z) (dec_text : D → string) (numeric_text : string → option string).
Context (pg_div : D → D → D) (map_order : list holding → list holding).
Context (unmarshal_upsert : string → option UpsertTxsRequest) (unmarshal_archive : string → option UserArchive).
Context (error_text : import_error → string).
Implicit Types (w : trace (server D)) (rep : PartReporter) (c : server D).

(** ** A batch *)

Definition run_of c : rstate D := {| rs_store := shop (mkt (sv_state c)); saved := sv_saved c; attempts := sv_attempts c |}.

(** The trigger on txs seeds the adjusted columns of a posting that is new. *)
Definition recolumn (old new : list (row D)) (m : gmap string (adjusted_tx D)) : gmap string (adjusted_tx D) :=
  foldl (λ m t, if bool_decide (r_id t ∈ r_id <$> old) then m else seed_adjusted t m)
    (filter (λ x, x.1 ∈ r_id <$> new) m) new.

(** What a batch leaves, with what an instrument that was merged away takes with it. *)
Definition with_run (r : rstate D) c : server D :=
  let m := mkt (sv_state c) in
  let stays id := is_Some (instruments (shop m) !! id) → is_Some (instruments (rs_store r) !! id) in
  {| sv_tables := sv_tables c; sv_users := sv_users c; sv_saved := saved r; sv_attempts := attempts r;
     sv_state := {| decls := decls (sv_state c);
       mkt := {| shop := rs_store r;
                 stock_splits := filter (λ x, stays (ss_InstrumentID x)) (stock_splits m);
                 eod_prices := filter (λ x, stays x.1.1) (eod_prices m);
                 adjusted_txs := recolumn (txs (book (shop m))) (txs (book (rs_store r))) (adjusted_txs m);
                 adjusted_prices := filter (λ x, stays x.1.1) (adjusted_prices m);
                 unhandled := filter (λ e, stays (ev_InstrumentID e)) (unhandled m) |} |} |}.

Definition problem_at (row : Z) (field : string) (e : import_error) (rep : PartReporter) : PartReporter :=
  Errf row field (error_text e) rep.

(** How many postings were resolved before one could not be. *)
Fixpoint resolved_rows (source : string) (pre : prePass) (exportedAt : option Z) (rows : list (Z * Upload)) (st : istate D) : nat :=
  match rows with
  | [] => 0
  | (row, u) :: rows =>
      match Resolve gen_uuid uuid_ok operating_mic parse_dec countryOf configs registry today now source pre exportedAt row u st with
      | (None, _) => 0
      | (Some _, st) => S (resolved_rows source pre exportedAt rows st)
      end
  end.

(** The state when the postings of a batch are resolved, and how many were. *)
Definition resolution (cpi : bool) (p : ingestParams) (us : list Upload) (run : rstate D) : rstate D * nat :=
  let pre := (proposeCandidates cpi hash (proposal_filter operating_mic) row_id candidates (p_Source p) (p_Broker p) us (rs_store run)).1 in
  let rows := imap (λ i u, (int32 (row_index p i), u)) us in
  let st := {| i_run := run; i_cache := pre_resolved pre;
               i_keys := newResolutionKeys (bool_decide (is_Some row_id)) (p_Source p) rows.*2 pre |} in
  (i_run (resolveInstruments gen_uuid uuid_ok operating_mic parse_dec countryOf configs registry row_id today now
            (p_Source p) pre (p_ExportedAt p) rows run).2,
   resolved_rows (p_Source p) pre (p_ExportedAt p) rows st).

Definition stored_batch (res : batch_result) rep : option (nat * list string + import_error) * PartReporter :=
  match res with
  | Stored_ n ids => (Some (inl (n, ids)), rep)
  | BatchRejected errs => (Some (inr ErrBatchRejected), Errs errs rep)
  | BatchFailed row field => (Some (inr DatabaseError), problem_at row field DatabaseError rep)
  | Panics | Hangs => (None, rep)
  end.

(** [ingestBatch] with what it reports: the total unless the caller has declared it, a
    row for each posting resolved, the identification errors, and the problems. *)
Definition ingest_reporting (cpi totalDeclared : bool) (p : ingestParams) rep w
    : option (nat * list string + import_error) * PartReporter * trace (server D) :=
  let '(res, out) := ingestBatch gen_uuid uuid_ok operating_mic parse_dec countryOf num_div num_scale settler configs registry
    candidates hash row_id today now cpi p (run_of (latest w)) in
  match ValidateTxs (p_Txs p), resolved_types (omap id (p_Txs p)) with
  | [], Some [] =>
      if replacing p then
        let w := if totalDeclared then w else Total uuid_ok rep 0 w in
        (stored_batch res rep, commit (with_run (bo_run out) (latest w)) w)
      else (stored_batch res rep, w)
  | [], Some us =>
      let w := if totalDeclared then w else Total uuid_ok rep (Z.of_nat (length us)) w in
      let '(resolved, n) := resolution cpi p us (run_of (latest w)) in
      let w := commit (with_run resolved (latest w)) w in
      let '(rep, w) := Nat.iter n (λ x, Advance uuid_ok x.1 1 x.2) (rep, w) in
      let w := AppendIdentificationErrors uuid_ok (p_JobID p) (bo_identErrors out) w in
      (stored_batch res rep, commit (with_run (bo_run out) (latest w)) w)
  | _, _ => (stored_batch res rep, w)
  end.

(** ** Split adjustments *)

(** [InstrumentsWithSplits], an option having its underlying's. *)
Definition has_splits (m : market D) (id : string) : bool :=
  bool_decide (id ∈ ss_InstrumentID <$> stock_splits m) ||
  match instruments (shop m) !! id ≫= underlying_id with
  | Some u => bool_decide (u ∈ ss_InstrumentID <$> stock_splits m)
  | None => false
  end.

Definition InstrumentsWithSplits (ids : list string) (m : market D) : option (list string) :=
  if forallb uuid_ok ids then Some (filter (λ id, has_splits m id = true) ids) else None.

Definition recomputeSplitAdjustedTxs (ids : list string) w : trace (server D) :=
  let ids := remove_dups (filter (λ x, x ≠ EmptyString) ids) in
  foldl (λ w id, let s := sv_state (latest w) in
      match RecomputeSplitAdjustments uuid_ok pg_div today id (mkt s) with
      | Some m => commit (with_state {| mkt := m; decls := decls s |} (latest w)) w
      | None => w
      end)
    w (default [] (InstrumentsWithSplits ids (mkt (sv_state (latest w))))).

(** ** The transactions of an archive *)

Definition bad_basis (ps : list ArchivePosting) : nat * string :=
  match list_find (λ p, postingBasis parse_date (ap_ShareCountBasis p) = None) ps with
  | Some (i, p) => (i, ap_ShareCountBasis p)
  | None => (0, EmptyString)
  end.

Definition batch_params (user job broker : string) (x : TxWindow) (us : list Upload) (bases : list (option Z)) (rows : list Z)
    (exportedAt : option Z) : ingestParams := {|
  p_UserID := user; p_Broker := broker; p_Source := tw_Source x; p_JobID := job; p_Txs := Some <$> us; p_ShareCountBasis := bases;
  p_PeriodFrom := tw_PeriodFrom x; p_PeriodBefore := tw_PeriodBefore x; p_ExportedAt := exportedAt; p_RowIndices := Some rows |}.

(** Whether anything was stored, the error that ended the part, and the instruments touched. *)
Fixpoint tx_windows (user job : string) (asOf : option Z) (offset : nat) (stored : bool) (touched : list string) (ws : list TxWindow) rep w
    : option (bool * option import_error * list string) * PartReporter * trace (server D) :=
  match ws with
  | [] => (Some (stored, None, touched), rep, w)
  | x :: ws =>
      let broker := BrokerToStr (tw_Broker x) in
      if empty broker then
        (Some (stored, Some (UnknownBroker (tw_Broker x)), touched), problem_at (Z.of_nat offset) "broker" (UnknownBroker (tw_Broker x)) rep, w)
      else
        match windowTxs parse_date (to_window x) offset with
        | None =>
            let '(i, s) := bad_basis (tw_Postings x) in
            (Some (stored, Some (NotADate s), touched), problem_at (Z.of_nat (offset + i)) "share_count_basis" (NotADate s) rep, w)
        | Some (us, bases, rows) =>
            match ingest_reporting false true (batch_params user job broker x us bases rows asOf) rep w with
            | (None, rep, w) => (None, rep, w)
            | (Some (inr e), rep, w) => (Some (stored, Some e, touched), rep, w)
            | (Some (inl (n, ids)), rep, w) => tx_windows user job asOf (offset + length us) (stored || (0 <? n)) (touched ++ ids) ws rep w
            end
        end
  end.

Definition importTxPart (user job : string) (ws : list TxWindow) (asOf : option Z) rep w
    : option (bool * option import_error) * PartReporter * trace (server D) :=
  let w := Total uuid_ok rep (Z.of_nat (sum_list_with (λ x, length (tw_Postings x)) ws)) w in
  match tx_windows user job asOf 0 false [] ws rep w with
  | (None, rep, w) => (None, rep, w)
  | (Some (stored, Some e, _), rep, w) => (Some (stored, Some e), rep, w)
  | (Some (stored, None, touched), rep, w) => (Some (stored, None), rep, recomputeSplitAdjustedTxs touched w)
  end.

(** ** The preferences *)

Definition SetDisplayCurrency (user currency : string) c : option (server D) :=
  if uuid_ok user then Some (with_users (match sv_users c !! user with Some _ => <[user := currency]> (sv_users c) | None => sv_users c end) c)
  else None.

Definition settingRow : Z := -1.

Definition PreferencePart (user : string) (part : option string) rep w : bool * option import_error * PartReporter * trace (server D) :=
  let w := Total uuid_ok rep (match part with Some _ => 1 | None => 0 end) w in
  match part with
  | None => (false, None, rep, w)
  | Some cc =>
      if negb (ValidCurrencyCode cc) then
        let '(rep, w) := Advance uuid_ok (problem_at settingRow "display_currency" (BadCurrency cc) rep) 1 w in (false, None, rep, w)
      else
        match SetDisplayCurrency user cc (latest w) with
        | None => (false, Some DatabaseError, rep, w)
        | Some c => let '(rep, w) := Advance uuid_ok rep 1 (commit c w) in (true, None, rep, w)
        end
  end.

(** ** The declarations *)

(** [findDeclaredInstrument] *)
Definition findDeclaredInstrument (ref : Identifier) (s : store D) : string + import_error :=
  if empty (id_Value ref) then inr NamesNoInstrument else
  match ResolveIDsByHintsDBOnly [ref] s with
  | [] => inr (UnknownInstrument ref)
  | id :: _ => inl id
  end.

(** What a row declares, or its problem. *)
Definition declared_row (user : string) (startDay : Z) (st : Statement) (d : ArchiveDeclaration) (s : store D)
    : holding * string * Z * Z + string * import_error :=
  let broker := BrokerToStr (st_Broker st) in
  if empty broker then inr ("broker", UnknownBroker (st_Broker st)) else
  match parse_date (st_AsOfDate st) with
  | None => inr ("as_of_date", NotADate (st_AsOfDate st))
  | Some asOf =>
      if (asOf <? startDay)%Z then inr ("as_of_date", BeforeStart (st_AsOfDate st) startDay) else
      match parse_dec (ad_DeclaredQty d) with
      | None => inr ("declared_qty", NotADecimal (ad_DeclaredQty d))
      | Some qty =>
          match match ad_ShareCountBasis d with Some b => parse_date b | None => Some asOf end with
          | None => inr ("share_count_basis", NotADate (default EmptyString (ad_ShareCountBasis d)))
          | Some basis =>
              match findDeclaredInstrument (ad_Instrument d) s with
              | inr e => inr ("instrument", e)
              | inl id => inl ({| hk_user := user; hk_broker := broker; hk_account := st_Account st; hk_instrument := id |},
                               dec_text qty, asOf, basis)
              end
          end
      end
  end.

(** How many were written, and the error that ended the part. *)
Fixpoint declaration_rows (user : string) (startDay : Z) (row : nat) (written : nat) (rows : list (Statement * ArchiveDeclaration)) rep w
    : nat * option import_error * PartReporter * trace (server D) :=
  match rows with
  | [] => (written, None, rep, w)
  | (st, d) :: rows =>
      let '(rep, w) := Advance uuid_ok rep 1 w in
      match declared_row user startDay st d (shop (mkt (sv_state (latest w)))) with
      | inr (field, e) => declaration_rows user startDay (S row) written rows (problem_at (Z.of_nat row) field e rep) w
      | inl (h, qty, asOf, basis) =>
          match UpsertHoldingDeclaration gen_uuid uuid_ok numeric_text h qty asOf (or_null basis) (sv_state (latest w)) with
          | None => (written, Some DatabaseError, rep, w)
          | Some s => declaration_rows user startDay (S row) (S written) rows rep (commit (with_state s (latest w)) w)
          end
      end
  end.

Definition part_rows (statements : list Statement) : list (Statement * ArchiveDeclaration) :=
  statements ≫= λ st, (λ d, (st, d)) <$> st_Declarations st.

Definition DeclarationPart (user : string) (statements : list Statement) rep w : nat * option import_error * PartReporter * trace (server D) :=
  let rows := part_rows statements in
  let w := Total uuid_ok rep (Z.of_nat (length rows)) w in
  match rows with
  | [] => (0, None, rep, w)
  | _ =>
      match GetPortfolioStartDate uuid_ok user (sv_state (latest w)) with
      | None => (0, Some DatabaseError, rep, w)
      | Some None => (0, Some NoTransactions, rep, w)
      | Some (Some start) => declaration_rows user (day_of start) 0 0 rows rep w
      end
  end.

(** ** A user archive *)

Definition nothing_imported : userImportResult :=
  {| displayCurrencySet := false; txsStored := false; declarationsStored := false; failed := false |}.

(** One part.  The preferences are read through a pointer, which panics if the document
    has none. *)
Definition apply_part (user job : string) (a : UserArchive) (p : ArchivePart) (out : userImportResult) rep w
    : option (userImportResult * option import_error) * PartReporter * trace (server D) :=
  match p with
  | PREFERENCES =>
      match ua_Preferences a with
      | None => (None, rep, w)
      | Some part =>
          let '(set, err, rep, w) := PreferencePart user part rep w in
          (Some ({| displayCurrencySet := displayCurrencySet out || set; txsStored := txsStored out;
                    declarationsStored := declarationsStored out; failed := failed out |}, err), rep, w)
      end
  | TXS =>
      match importTxPart user job (default [] (ua_Txs a)) (ua_Envelope a ≫= env_ExportedAt) rep w with
      | (None, rep, w) => (None, rep, w)
      | (Some (stored, err), rep, w) =>
          (Some ({| displayCurrencySet := displayCurrencySet out; txsStored := txsStored out || stored;
                    declarationsStored := declarationsStored out; failed := failed out |}, err), rep, w)
      end
  | DECLARATIONS =>
      let '(written, err, rep, w) := DeclarationPart user (default [] (ua_Declarations a)) rep w in
      (Some ({| displayCurrencySet := displayCurrencySet out; txsStored := txsStored out;
                declarationsStored := declarationsStored out || (0 <? written); failed := failed out |}, err), rep, w)
  | _ => (Some (out, Some UnknownPart), rep, w)
  end.

Definition has_failed (out : userImportResult) : userImportResult :=
  {| displayCurrencySet := displayCurrencySet out; txsStored := txsStored out; declarationsStored := declarationsStored out; failed := true |}.

(** The parts in restore order, less those that an earlier run finished. *)
Fixpoint run_parts (user job : string) (a : UserArchive) (prs : list JobPartResult) (out : userImportResult) w
    : option userImportResult * trace (server D) :=
  match prs with
  | [] => (Some out, w)
  | pr :: prs =>
      if decide (pr_Status pr = SUCCESS) then run_parts user job a prs out w else
      let p := pr_Part pr in
      let w := if (0 <? pr_ProcessedCount pr)%Z || negb (empty (pr_Message pr)) then write (ResetJobPartProgress uuid_ok job p) w else w in
      let w := write (SetJobPartStatus uuid_ok job p RUNNING) w in
      match apply_part user job a p out (NewPartReporter job p) w with
      | (None, _, w) => (None, w)
      | (Some (out, err), rep, w) =>
          let '(_, w) := Flush uuid_ok rep w in
          match err with
          | Some e => run_parts user job a prs (has_failed out) (write (SetJobPartFailed uuid_ok job p (error_text e)) w)
          | None => run_parts user job a prs out (write (SetJobPartStatus uuid_ok job p SUCCESS) w)
          end
      end
  end.

(** The job's counters are the sums over its parts. *)
Definition sum_counters (job : string) w : trace (server D) :=
  match GetJob uuid_ok job (jt (latest w)) with
  | None => w
  | Some final =>
      let total := foldl (λ n pr, int32 (n + pr_TotalCount pr)) 0%Z (jd_Parts final) in
      let processed := foldl (λ n pr, int32 (n + pr_ProcessedCount pr)) 0%Z (jd_Parts final) in
      write (SetJobProcessedCount uuid_ok job processed) (write (SetJobTotalCount uuid_ok job total) w)
  end.

(** The result, and the user whose archive it was. *)
Definition processUserImport (job : string) w : option (userImportResult * string) * trace (server D) :=
  let whole_failure field e := (Some (has_failed nothing_imported, EmptyString), failWholeJob uuid_ok job field (error_text e) w) in
  match LoadJobPayload uuid_ok job (jt (latest w)) with
  | None => whole_failure "payload" NotLoaded
  | Some payload =>
      match unmarshal_archive payload with
      | None => whole_failure "payload" NotParsed
      | Some a =>
          match GetJob uuid_ok job (jt (latest w)) with
          | None => whole_failure "job" DatabaseError
          | Some detail =>
              let user := jd_UserID detail in
              match run_parts user job a (jd_Parts detail) nothing_imported w with
              | (None, w) => (None, w)
              | (Some out, w) =>
                  let w := sum_counters job w in
                  (Some (out, user), finishJob uuid_ok job (if failed out then FAILED else SUCCESS) w)
              end
          end
      end
  end.

(** ** A broker upload *)

Definition processTx (job user : string) w : option bool * trace (server D) :=
  match LoadJobPayload uuid_ok job (jt (latest w)) ≫= unmarshal_upsert with
  | None => (Some false, finishJob uuid_ok job FAILED w)
  | Some req =>
      let rep := NewPartReporter job ARCHIVE_PART_UNSPECIFIED in
      let x := ur_Window req in
      match windowTxs parse_date (to_window x) 0 with
      | None =>
          let '(i, s) := bad_basis (tw_Postings x) in
          let '(_, w) := Flush uuid_ok (problem_at (Z.of_nat i) "share_count_basis" (NotADate s) rep) w in
          (Some false, finishJob uuid_ok job FAILED w)
      | Some (us, bases, rows) =>
          match ingest_reporting true false (batch_params user job (BrokerToStr (tw_Broker x)) x us bases rows (ur_ExportedAt req)) rep w with
          | (None, _, w) => (None, w)
          | (Some (inr _), rep, w) => let '(_, w) := Flush uuid_ok rep w in (Some false, finishJob uuid_ok job FAILED w)
          | (Some (inl (_, ids)), rep, w) =>
              let '(_, w) := Flush uuid_ok rep w in
              (Some true, finishJob uuid_ok job SUCCESS (recomputeSplitAdjustedTxs ids w))
          end
      end
  end.

(** ** A job *)

Definition recalcAfterIngestion (user : string) w : trace (server D) :=
  commit (with_state (RecalcAllInitializeTxs gen_uuid uuid_ok parse_dec pg_div today map_order user (sv_state (latest w))).2 (latest w)) w.

(** Whether the run is recorded as a success, and which workers are nudged. *)
Inductive job_outcome :=
  | Processed (success : bool) (triggers : list trigger)
  | NeverReturns
  | SystemArchive.

Definition processJob (job type : string) w : job_outcome * trace (server D) :=
  let w := write (SetJobStatus uuid_ok job RUNNING) w in
  let detail := default no_detail (GetJob uuid_ok job (jt (latest w))) in
  if String.eqb type JobTypeTx then
    match processTx job (jd_UserID detail) w with
    | (None, w) => (NeverReturns, w)
    | (Some false, w) => (Processed false [], w)
    | (Some true, w) => (Processed true [PriceTrigger; TransferMatchTrigger; GroupingTrigger], recalcAfterIngestion (jd_UserID detail) w)
    end
  else if String.eqb type JobTypeSystemArchive then (SystemArchive, w)
  else if String.eqb type JobTypeUserArchive then
    match processUserImport job w with
    | (None, w) => (NeverReturns, w)
    | (Some (res, user), w) =>
        (Processed (negb (failed res))
           ((if txsStored res then [TransferMatchTrigger; GroupingTrigger] else [])
            ++ (if displayCurrencySet res || txsStored res || declarationsStored res then [PriceTrigger] else [])),
         if txsStored res || declarationsStored res then recalcAfterIngestion user w else w)
    end
  else (Processed false [], write (SetJobStatus uuid_ok job FAILED) w).

(** ** The handlers *)

Context (marshal_upsert : UpsertTxsRequest → option string) (marshal_archive : UserArchive → option string) (capacity : nat).

(** The server with the queue of its worker. *)
Record system := { sy_run : trace (server D); sy_queue : list JobRequest }.

Inductive grpc_code := InvalidArgument | FailedPrecondition | Internal | Unavailable.

(** The job is created before it is known whether the queue has room for it. *)
Definition create_and_enqueue (at_ : Z) (params : CreateJobParams) (sys : system) : (grpc_code + string) * system :=
  let c := latest (sy_run sys) in
  match CreateJob gen_uuid uuid_ok (λ u, bool_decide (is_Some (sv_users c !! u))) at_ params (sv_tables c) with
  | None => (inl Internal, sys)
  | Some (id, t) =>
      let run := commit (with_tables t c) (sy_run sys) in
      match enqueueJob capacity {| rq_JobID := id; rq_JobType := cj_JobType params |} (sy_queue sys) with
      | None => (inl Unavailable, {| sy_run := run; sy_queue := sy_queue sys |})
      | Some q => (inr id, {| sy_run := run; sy_queue := q |})
      end
  end.

Definition wire_broker (b : Posting.Broker) : Validate.Broker :=
  match b with
  | Posting.BROKER_UNSPECIFIED => Validate.BROKER_UNSPECIFIED
  | Posting.IBKR => Validate.IBKR
  | Posting.SCHB => Validate.SCHB
  | Posting.FIDELITY => Validate.FIDELITY
  | Posting.Broker_unrecognized n => Validate.Broker_unrecognized n
  end.

(** An upload that states no vintage is stamped with the clock. *)
Definition withUploadVintage (at_ : Z) (req : UpsertTxsRequest) : UpsertTxsRequest :=
  match ur_ExportedAt req with
  | Some _ => req
  | None => {| ur_Window := ur_Window req; ur_Filename := ur_Filename req; ur_ExportedAt := Some at_ |}
  end.

Definition tx_job (user : string) (req : UpsertTxsRequest) (payload : string) : CreateJobParams :=
  let x := ur_Window req in
  {| cj_UserID := user; cj_JobType := JobTypeTx; cj_Broker := BrokerToStr (tw_Broker x); cj_Source := tw_Source x;
     cj_Filename := ur_Filename req; cj_PeriodFrom := tw_PeriodFrom x; cj_PeriodBefore := tw_PeriodBefore x;
     cj_Payload := payload; cj_Parts := [] |}.

Definition UpsertTxs (at_ : Z) (user : string) (req : UpsertTxsRequest) (sys : system) : (grpc_code + string) * system :=
  let x := ur_Window req in
  match ValidateBroker (wire_broker (tw_Broker x)), ValidateSource (tw_Source x), ValidateBulkRequest (tw_PeriodFrom x) (tw_PeriodBefore x) with
  | None, None, [] =>
      let req := withUploadVintage at_ req in
      match marshal_upsert req with
      | None => (inl Internal, sys)
      | Some payload => create_and_enqueue at_ (tx_job user req payload) sys
      end
  | _, _, _ => (inl InvalidArgument, sys)
  end.

(** A single posting is a window without a period, which appends. *)
Definition CreateTx (at_ : Z) (user : string) (broker : Posting.Broker) (source : string) (posting : option ArchivePosting) (sys : system)
    : (grpc_code + string) * system :=
  match ValidateBroker (wire_broker broker), ValidateSource source, posting with
  | None, None, Some x =>
      let wrapped := {| ur_Window := {| tw_Broker := broker; tw_Source := source; tw_PeriodFrom := None; tw_PeriodBefore := None;
                                        tw_Postings := [x] |}; ur_Filename := EmptyString; ur_ExportedAt := None |} in
      match marshal_upsert (withUploadVintage at_ wrapped) with
      | None => (inl Internal, sys)
      | Some payload => create_and_enqueue at_ (tx_job user wrapped payload) sys
      end
  | _, _, _ => (inl InvalidArgument, sys)
  end.

(** Presence, not emptiness. *)
Definition presentUserParts (a : UserArchive) : list ArchivePart :=
  (if ua_Preferences a then [PREFERENCES] else []) ++ (if ua_Txs a then [TXS] else []) ++ (if ua_Declarations a then [DECLARATIONS] else []).

Definition ImportUserArchive (at_ : Z) (user filename : string) (a : UserArchive) (sys : system) : (grpc_code + string) * system :=
  match CheckEnvelope (ua_Envelope a) USER, presentUserParts a with
  | Some VersionError, _ => (inl FailedPrecondition, sys)
  | Some _, _ => (inl InvalidArgument, sys)
  | None, [] => (inl InvalidArgument, sys)
  | None, parts =>
      match marshal_archive a with
      | None => (inl Internal, sys)
      | Some payload =>
          create_and_enqueue at_ {| cj_UserID := user; cj_JobType := JobTypeUserArchive; cj_Broker := EmptyString; cj_Source := EmptyString;
            cj_Filename := filename; cj_PeriodFrom := None; cj_PeriodBefore := None; cj_Payload := payload; cj_Parts := parts |} sys
      end
  end.
End imports.
#[global] Arguments system : clear implicits.

(** ** What a part may change *)

Section effects.
Context {D : Type} `{DecimalLaws D}.
Context (gen_uuid : gset string → string) (uuid_ok : string → bool) (operating_mic : string → option string).
Context (parse_dec : string → option D) (countryOf : string → string).
Context (num_div : D → D → D) (num_scale : D → Z).
Context (settler : option (string → list (GroupingPosting D) → ledger D → option (list GroupChange))).
Context (configs : list string) (registry : string → option plugin) (candidates : option (list candidate)).
Context (hash : string → string) (row_id : option (nat → string)) (today now : Z).
Context (parse_date : string → option Z) (dec_text : D → string) (numeric_text : string → option string).
Context (pg_div : D → D → D).
Context (error_text : import_error → string).
Hypothesis gen_fresh : ∀ X, gen_uuid X ∉ X.
Hypothesis gen_ok : ∀ X, uuid_ok (gen_uuid X) = true.
Hypothesis empty_not_ok : uuid_ok EmptyString = false.
Context {settler_lawful : match settler with Some f => SettlerLaws uuid_ok f | None => True end}.
Implicit Types (w : trace (server D)) (rep : PartReporter) (c : server D) (ps : ArchivePart → Prop).

#[local] Notation ingest_reporting := (ingest_reporting gen_uuid uuid_ok operating_mic parse_dec countryOf num_div num_scale settler
  configs registry candidates hash row_id today now error_text).
#[local] Notation tx_windows := (tx_windows gen_uuid uuid_ok operating_mic parse_dec countryOf num_div num_scale settler
  configs registry candidates hash row_id today now parse_date error_text).
#[local] Notation importTxPart := (importTxPart gen_uuid uuid_ok operating_mic parse_dec countryOf num_div num_scale settler
  configs registry candidates hash row_id today now parse_date pg_div error_text).
#[local] Notation apply_part := (apply_part gen_uuid uuid_ok operating_mic parse_dec countryOf num_div num_scale settler
  configs registry candidates hash row_id today now parse_date dec_text numeric_text pg_div error_text).
#[local] Notation PreferencePart := (PreferencePart uuid_ok error_text).
#[local] Notation DeclarationPart := (DeclarationPart gen_uuid uuid_ok parse_dec parse_date dec_text numeric_text error_text).
#[local] Notation declaration_rows := (declaration_rows gen_uuid uuid_ok parse_dec parse_date dec_text numeric_text error_text).
#[local] Notation recompute := (recomputeSplitAdjustedTxs uuid_ok today pg_div).

Definition shop_of c : store D := shop (mkt (sv_state c)).

(** The books are whole. *)
Definition sound c : Prop := whole uuid_ok operating_mic (shop_of c).

(** What is stored of the market, but for which instruments are declared. *)
Definition market_view c :=
  let m := mkt (sv_state c) in
  (instruments (shop m), identifiers (shop m), book (shop m), (stock_splits m, eod_prices m, adjusted_txs m, adjusted_prices m, unhandled m),
   (sv_saved c, sv_attempts c)).

(** A step that keeps the books whole and, of the server, changes the given parts of a
    job and the data of those parts. *)
Record effect (R : relation job) (job : string) ps c c' : Prop := {
  ef_tables : written R job ps (sv_tables c) (sv_tables c');
  ef_sound : sound c → sound c';
  ef_users : ¬ ps PREFERENCES → sv_users c' = sv_users c;
  ef_market : ¬ ps TXS → market_view c' = market_view c;
  ef_decls : ¬ ps DECLARATIONS → decls (sv_state c') = decls (sv_state c);
}.

#[export] Instance effect_preorder R job ps : PreOrder R → PreOrder (effect R job ps).
Proof.
  intros HR. split; [by split|]. intros c1 c2 c3 [A1 A2 A3 A4 A5] [B1 B2 B3 B4 B5]. split; [by etrans|auto|..]; intros Hp.
  - rewrite B3, A3; done.
  - rewrite B4, A4; done.
  - rewrite B5, A5; done.
Qed.

Lemma effect_weaken (R R' : relation job) job ps (qs : ArchivePart → Prop) c c' : (∀ j j', R j j' → R' j j') → (∀ p, ps p → qs p) →
  effect R job ps c c' → effect R' job qs c c'.
Proof. intros HR Hpq [A1 A2 A3 A4 A5]. split; [by eapply written_weaken|done|..]; intros Hn; auto. Qed.

Notation reporting job := (effect (job_reported job) job).

Lemma reports_effect job ps c c' : reports job ps c c' → reporting job ps c c'.
Proof. intros (t & -> & Ht). by split. Qed.

Lemma reports_along job ps w w' : along (reports job ps) w w' → along (reporting job ps) w w'.
Proof. apply along_weaken. apply reports_effect. Qed.

(** Steps that write other tables than the jobs'. *)
Lemma commit_effect job ps c w : sv_tables c = sv_tables (latest w) →
  (sound (latest w) → sound c) → (¬ ps PREFERENCES → sv_users c = sv_users (latest w)) →
  (¬ ps TXS → market_view c = market_view (latest w)) → (¬ ps DECLARATIONS → decls (sv_state c) = decls (sv_state (latest w))) →
  along (reporting job ps) w (commit c w).
Proof. intros Ht. intros. apply along_commit. split; [|done..]. rewrite Ht. reflexivity. Qed.

Lemma sound_along job ps w w' : along (reporting job ps) w w' → sound (latest w) → sound (latest w').
Proof. intros Ha%along_now; [|apply _]. apply Ha. Qed.

(** *** A batch *)

Lemma with_run_along job ps r w w' : ps TXS → (sound (latest w) → whole uuid_ok operating_mic (rs_store r)) →
  along (reporting job ps) w w' → along (reporting job ps) w (commit (with_run r (latest w')) w').
Proof.
  intros Hp Hw Ha. apply along_extend; [done|]. apply along_now in Ha as [A1 A2 A3 A4 A5]; [|apply _]. by split.
Qed.

Lemma resolution_whole cpi p us run : whole uuid_ok operating_mic (rs_store run) →
  whole uuid_ok operating_mic (rs_store (resolution gen_uuid uuid_ok operating_mic parse_dec countryOf configs registry candidates hash row_id
    today now cpi p us run).1).
Proof.
  intros Hw. unfold resolution. cbn [fst]. destruct (resolveInstruments _ _ _ _ _ _ _ _ _ _ _ _ _ _ _) as [res st] eqn:E.
  destruct (resolved_batch _ _ _ _ _ _ _ _ _ gen_fresh _ _ _ _ _ _ _ _ E (wh_store _ _ _ Hw)) as [[Hs Hb] _]. by eapply whole_kept.
Qed.

(** What a batch answers, and what of it the reporter is left with. *)
Lemma ingest_effect cpi declared p rep w ps : ps TXS → ps (rp_Part rep) → p_JobID p = rp_JobID rep →
  let '(res, rep', w') := ingest_reporting cpi declared p rep w in
  along (reporting (rp_JobID rep) ps) w w' ∧ same_scope rep rep' ∧
  (sound (latest w) → res = None → ValidateTxs (p_Txs p) = [] ∧ resolved_types (omap id (p_Txs p)) = None).
Proof.
  intros Hp Hpart Hjob. unfold Imports.ingest_reporting.
  pose proof (batch_spec gen_uuid uuid_ok operating_mic parse_dec countryOf num_div num_scale settler configs registry candidates hash row_id
    today now gen_fresh gen_ok empty_not_ok (settler_lawful := settler_lawful) cpi p (run_of (latest w))) as Hb.
  destruct (ingestBatch _ _ _ _ _ _ _ _ _ _ _ _ _ _ _ cpi p (run_of (latest w))) as [res out] eqn:E.
  assert (Hout : ∀ w1, along (reporting (rp_JobID rep) ps) w w1 →
    along (reporting (rp_JobID rep) ps) w (commit (with_run (bo_run out) (latest w1)) w1)).
  { intros w1 H1. apply with_run_along; [done| |done]. intros Hs. by apply Hb. }
  assert (Hdecl : ∀ n, along (reporting (rp_JobID rep) ps) w (if declared then w else Total uuid_ok rep n w)).
  { intros n. destruct declared; [apply along_refl|]. apply reports_along. by apply total_reports. }
  assert (Hnone : ∀ rep1, sound (latest w) → (stored_batch error_text res rep1).1 = None →
    ValidateTxs (p_Txs p) = [] ∧ resolved_types (omap id (p_Txs p)) = None).
  { intros rep1 Hs. destruct (Hb Hs) as [_ Hl]. unfold Ingest.ingestBatch in E. destruct res; try done.
    intros _. destruct (ValidateTxs (p_Txs p)); [|done]. split; [done|]. destruct (resolved_types _) as [us|]; [|done].
    exfalso. destruct us as [|u us].
    - destruct (replacing p); [|done]. by destruct (store_postings _ _ _ _ _ _ _ _ _ _ _).
    - destruct (proposeCandidates _ _ _ _ _ _ _ _ _). destruct (resolveInstruments _ _ _ _ _ _ _ _ _ _ _ _ _ _ _) as [[[ids errs]|] st]; [|done].
      unfold Ingest.store_checked in E. repeat case_match; simplify_eq. }
  assert (Hfin : ∀ rep1 w1, along (reporting (rp_JobID rep) ps) w w1 → same_scope rep rep1 →
    let '(res, rep', w') := (stored_batch error_text res rep1, w1) in
    along (reporting (rp_JobID rep) ps) w w' ∧ same_scope rep rep' ∧
    (sound (latest w) → res = None → ValidateTxs (p_Txs p) = [] ∧ resolved_types (omap id (p_Txs p)) = None)).
  { intros rep1 w1 H1 Hr. specialize (Hnone rep1). assert (same_scope rep (stored_batch error_text res rep1).2) as Hr' by (by destruct res).
    destruct (stored_batch _ _ _) as [r rep']. by split_and!. }
  destruct (ValidateTxs (p_Txs p)) as [|e es]; [|by apply Hfin; [apply along_refl|]].
  destruct (resolved_types _) as [[|u us]|]; [| |by apply Hfin; [apply along_refl|]].
  - destruct (replacing p); apply Hfin; try done; [|apply along_refl]. apply Hout, Hdecl.
  - set (us' := u :: us) in *. set (w1 := if declared then w else _).
    assert (H1 : along (reporting (rp_JobID rep) ps) w w1) by apply Hdecl. clearbody w1.
    pose proof (resolution_whole cpi p us' (run_of (latest w1))) as Hr.
    destruct (resolution _ _ _ _ _ _ _ _ _ _ _ _ _ _ us' _) as [resolved n]. cbn [fst] in Hr.
    pose proof (with_run_along (rp_JobID rep) ps resolved w1 w1 Hp Hr (along_refl _ _)) as H2. set (w2 := commit _ w1) in *. clearbody w2.
    assert (H3 : let '(rep3, w3) := Nat.iter n (λ x, Advance uuid_ok x.1 1 x.2) (rep, w2) in
      along (reporting (rp_JobID rep) ps) w2 w3 ∧ same_scope rep rep3).
    { clear -Hpart. induction n as [|n IH]; [by split; [apply along_refl|]|]. rewrite Nat.iter_succ.
      destruct (Nat.iter n _ _) as [rep3 w3]. destruct IH as [Ha (Hs1 & Hs2 & Hs3)]. cbn [fst snd].
      pose proof (advance_reports uuid_ok rep3 1 w3 ps ltac:(by rewrite Hs3)) as Hadv. destruct (Advance _ rep3 1 w3) as [rep4 w4].
      destruct Hadv as (Ha' & (Hs4 & Hs5 & Hs6) & _). split; [|unfold same_scope; split_and!; congruence].
      eapply along_trans; [apply _|exact Ha|]. apply reports_along. by rewrite <- Hs2. }
    destruct (Nat.iter n _ _) as [rep3 w3]. destruct H3 as [H3 Hsc]. apply Hfin; [|done]. apply Hout.
    eapply along_trans; [apply _|exact H1|]. eapply along_trans; [apply _|exact H2|]. eapply along_trans; [apply _|exact H3|].
    rewrite Hjob. apply reports_along. apply identification_reports.
Qed.

(** *** The parts *)

Lemma same_scope_trans r1 r2 r3 : same_scope r1 r2 → same_scope r2 r3 → same_scope r1 r3.
Proof. unfold same_scope. intros (A1 & A2 & A3) (B1 & B2 & B3). split_and!; congruence. Qed.

Lemma windows_effect user job asOf ps ws : ps TXS → ∀ offset stored touched rep w, ps (rp_Part rep) → rp_JobID rep = job →
  let '(res, rep', w') := tx_windows user job asOf offset stored touched ws rep w in
  along (reporting job ps) w w' ∧ same_scope rep rep'.
Proof.
  intros Hp. induction ws as [|x ws IH]; intros offset stored touched rep w Hpart <-; cbn [Imports.tx_windows];
    [by split; [apply along_refl|]|].
  destruct (empty _); [by split; [apply along_refl|]|]. destruct (windowTxs _ _ _) as [[[us bases] rows]|].
  2: { destruct (bad_basis _ _). by split; [apply along_refl|]. }
  set (p := batch_params _ _ _ _ _ _ _ _). pose proof (ingest_effect false true p rep w ps Hp Hpart eq_refl) as Hi.
  destruct (ingest_reporting false true p rep w) as [[res rep1] w1]. destruct Hi as (H1 & Hsc & _).
  destruct res as [[[n ids]|e]|]; [|by split..]. pose proof Hsc as (_ & Hj & Hpt).
  specialize (IH (offset + length us) (stored || (0 <? n)) (touched ++ ids) rep1 w1 ltac:(by rewrite Hpt) Hj).
  destruct (tx_windows _ _ _ _ _ _ ws rep1 w1) as [[res rep2] w2]. destruct IH as [H2 Hsc2].
  split; [by eapply along_trans; [apply _|..]|by eapply same_scope_trans].
Qed.

Lemma recompute_effect job ps ids w : ps TXS → along (reporting job ps) w (recompute ids w).
Proof.
  intros Hp. unfold recomputeSplitAdjustedTxs. generalize (default [] (InstrumentsWithSplits uuid_ok
    (remove_dups (filter (λ x, x ≠ EmptyString) ids)) (mkt (sv_state (latest w))))). intros l. clear ids.
  revert w. induction l as [|id l IH]; intros w; cbn [foldl]; [apply along_refl|]. eapply along_trans; [apply _| |apply IH]. clear IH.
  unfold RecomputeSplitAdjustments. destruct (_ && _); [apply along_refl|]. by apply commit_effect.
Qed.

Lemma tx_part_effect user job ws asOf rep w ps : ps TXS → ps (rp_Part rep) → rp_JobID rep = job →
  let '(res, rep', w') := importTxPart user job ws asOf rep w in along (reporting job ps) w w' ∧ same_scope rep rep'.
Proof.
  intros Hp Hpart Hj. unfold Imports.importTxPart. set (w1 := Total _ _ _ w).
  assert (along (reporting job ps) w w1) as H1. { rewrite <- Hj. apply reports_along. by apply total_reports. }
  pose proof (windows_effect user job asOf ps ws Hp 0 false [] rep w1 Hpart Hj) as Hw.
  destruct (tx_windows _ _ _ _ _ _ ws rep w1) as [[res rep2] w2]. destruct Hw as [H2 Hsc].
  assert (along (reporting job ps) w w2) as H3 by (by eapply along_trans; [apply _|..]).
  destruct res as [[[stored [e|]] touched]|]; [by split..| |by split]. split; [|done].
  eapply along_trans; [apply _|exact H3|]. by apply recompute_effect.
Qed.

(** A row of progress. *)
Lemma advanced_effect job ps rep n w : ps (rp_Part rep) → rp_JobID rep = job → let '(rep', w') := Advance uuid_ok rep n w in
  along (reporting job ps) w w' ∧ same_scope rep rep'.
Proof.
  intros Hp <-. pose proof (advance_reports uuid_ok rep n w ps Hp) as Ha. destruct (Advance _ rep n w) as [rep' w'].
  destruct Ha as (Ha & Hs & _). split; [by apply reports_along|done].
Qed.

Lemma preference_effect user part job ps rep w : ps PREFERENCES → ps (rp_Part rep) → rp_JobID rep = job →
  let '(_, _, rep', w') := PreferencePart user part rep w in along (reporting job ps) w w' ∧ same_scope rep rep'.
Proof.
  intros Hp Hpart Hj. unfold Imports.PreferencePart. set (w1 := Total _ _ _ w).
  assert (along (reporting job ps) w w1) as H1. { rewrite <- Hj. apply reports_along. by apply total_reports. }
  destruct part as [cc|]; [|by split]. destruct (negb _).
  - pose proof (advanced_effect job ps (problem_at error_text settingRow "display_currency" (BadCurrency cc) rep) 1 w1 Hpart Hj) as Ha.
    destruct (Advance _ _ _ _) as [rep2 w2]. destruct Ha as [H2 Hsc]. split; [by eapply along_trans; [apply _|..]|done].
  - unfold SetDisplayCurrency. destruct (uuid_ok user); [|by split]. set (c := with_users _ _).
    pose proof (advanced_effect job ps rep 1 (commit c w1) Hpart Hj) as Ha. destruct (Advance _ _ _ _) as [rep2 w2].
    destruct Ha as [H2 Hsc]. split; [|done]. eapply along_trans; [apply _|exact H1|]. eapply along_trans; [apply _| |exact H2].
    by apply commit_effect.
Qed.

Lemma declaring_whole l (s : state D) : whole uuid_ok operating_mic (shop (mkt s)) → whole uuid_ok operating_mic (shop (mkt (with_decls l s))).
Proof. intros [[A1 A2 A3 A4] Hl Hc Hk]. by split. Qed.

(** A declaration changes the table, and which instruments are declared. *)
Lemma upsert_with_decls h qty asOf basis s s' : UpsertHoldingDeclaration gen_uuid uuid_ok numeric_text h qty asOf basis s = Some s' →
  ∃ l, s' = with_decls (D:=D) l s.
Proof.
  unfold UpsertHoldingDeclaration. intros E. destruct (negb _); [done|]. destruct (numeric_text qty) as [text|]; [|done]. cbn in E.
  destruct (negb _); [done|]. destruct (bool_decide _); injection E as <-; eauto.
Qed.

Lemma declaration_rows_effect user day job ps rows : ps DECLARATIONS → ∀ row written rep w, ps (rp_Part rep) → rp_JobID rep = job →
  let '(_, _, rep', w') := declaration_rows user day row written rows rep w in along (reporting job ps) w w' ∧ same_scope rep rep'.
Proof.
  intros Hp. induction rows as [|[st d] rows IH]; intros row written rep w Hpart Hj; cbn [Imports.declaration_rows];
    [by split; [apply along_refl|]|].
  pose proof (advanced_effect job ps rep 1 w Hpart Hj) as Ha. destruct (Advance _ _ _ _) as [rep1 w1]. destruct Ha as [H1 Hsc].
  pose proof Hsc as (_ & Hj1 & Hpt1).
  destruct (declared_row _ _ _ _ _ _ _ _) as [[[[h qty] asOf] basis]|[field e]].
  - destruct (UpsertHoldingDeclaration _ _ _ _ _ _ _ _) as [s|] eqn:Eu; [|by split]. apply upsert_with_decls in Eu as [l ->].
    specialize (IH (S row) (S written) rep1 (commit (with_state (with_decls l (sv_state (latest w1))) (latest w1)) w1)
      ltac:(by rewrite Hpt1) ltac:(congruence)).
    destruct (declaration_rows _ _ _ _ _ _ _) as [[[n err] rep2] w2]. destruct IH as [H2 Hsc2].
    split; [|by eapply same_scope_trans]. eapply along_trans; [apply _|exact H1|]. eapply along_trans; [apply _| |exact H2].
    apply commit_effect; [done|apply declaring_whole|done|done|done].
  - specialize (IH (S row) written (problem_at error_text (Z.of_nat row) field e rep1) w1 ltac:(cbn; by rewrite Hpt1) ltac:(cbn; congruence)).
    destruct (declaration_rows _ _ _ _ _ _ _) as [[[n err] rep2] w2]. destruct IH as [H2 Hsc2].
    split; [by eapply along_trans; [apply _|..]|]. by eapply same_scope_trans.
Qed.

Lemma declaration_effect user sts job ps rep w : ps DECLARATIONS → ps (rp_Part rep) → rp_JobID rep = job →
  let '(_, _, rep', w') := DeclarationPart user sts rep w in along (reporting job ps) w w' ∧ same_scope rep rep'.
Proof.
  intros Hp Hpart Hj. unfold Imports.DeclarationPart. set (w1 := Total _ _ _ w).
  assert (along (reporting job ps) w w1) as H1. { rewrite <- Hj. apply reports_along. by apply total_reports. }
  destruct (part_rows sts) as [|x rows]; [by split|]. destruct (GetPortfolioStartDate _ _ _) as [[start|]|]; [|by split..].
  pose proof (declaration_rows_effect user (day_of start) job ps (x :: rows) Hp 0 0 rep w1 Hpart Hj) as Hr.
  destruct (declaration_rows _ _ _ _ _ _ _) as [[[n err] rep2] w2]. destruct Hr as [H2 Hsc]. split; [by eapply along_trans; [apply _|..]|done].
Qed.

Lemma part_effect user job a p out rep w ps : ps p → rp_Part rep = p → rp_JobID rep = job →
  let '(_, rep', w') := apply_part user job a p out rep w in along (reporting job ps) w w' ∧ same_scope rep rep'.
Proof.
  intros Hp Hpart Hj. assert (ps (rp_Part rep)) as Hps by (by rewrite Hpart).
  destruct p; try (by split; [apply along_refl|]); cbn [Imports.apply_part].
  - destruct (ua_Preferences a) as [part|]; [|by split; [apply along_refl|]].
    pose proof (preference_effect user part job ps rep w Hp Hps Hj) as He. destruct (PreferencePart _ _ _ _) as [[[set err] rep'] w']. done.
  - pose proof (tx_part_effect user job (default [] (ua_Txs a)) (ua_Envelope a ≫= env_ExportedAt) rep w ps Hp Hps Hj) as He.
    destruct (importTxPart _ _ _ _ _ _) as [[[[stored err]|] rep'] w']; done.
  - pose proof (declaration_effect user (default [] (ua_Declarations a)) job ps rep w Hp Hps Hj) as He.
    destruct (DeclarationPart _ _ _ _) as [[[n err] rep'] w']. done.
Qed.

(** *** All parts *)

Notation pending prs := (λ p, ∃ pr, pr ∈ prs ∧ pr_Part pr = p ∧ pr_Status pr ≠ SUCCESS).

(** The part, if the job has it, has that status. *)
Definition part_is (job : string) (p : ArchivePart) (s : string) (t : tables) : Prop :=
  ∀ r, r ∈ ingestion_job_parts t → names_part job p r = true → pt_Status r = s ∧ (s = "FAILED" → is_Some (pt_Message r)).

Lemma archivePartToStr_inj p q : archivePartToStr p = archivePartToStr q → p = q.
Proof. by destruct p, q. Qed.

Lemma part_is_kept R job ps p s t t' : ¬ ps p → written R job ps t t' → part_is job p s t → part_is job p s t'.
Proof.
  intros Hn [_ Hp _ _] Hs r' [i Hi]%list_elem_of_lookup Hr'. destruct (Forall2_lookup_r _ _ _ _ _ Hp Hi) as (r & Hr%list_elem_of_lookup_2 & Hrr).
  destruct Hrr as [->|(_ & Hj & Ep & q & Hq & Eq)]; [by apply Hs|]. exfalso. unfold names_part in Hr'.
  apply andb_true_iff in Hr' as [_ Er%String.eqb_eq]. rewrite Ep, Eq in Er. apply archivePartToStr_inj in Er as ->. done.
Qed.

Lemma part_set job p f s w : uuid_ok job = true →
  (∀ r, (pt_Status (f r) = s ∧ (s = "FAILED" → is_Some (pt_Message (f r)))) ∧ pt_JobID (f r) = pt_JobID r ∧ pt_Part (f r) = pt_Part r) →
  part_is job p s (sv_tables (latest (write (execJobPart uuid_ok job p f) w : trace (server D)))).
Proof.
  intros Hu Hf. unfold write, execJobPart. rewrite Hu. cbn. intros r (x & -> & _)%list_elem_of_fmap.
  destruct (names_part job p x) eqn:E; [intros _; apply Hf|]. by rewrite E.
Qed.

Lemma part_keeps_failed user job a p out rep w out' err rep' w' :
  apply_part user job a p out rep w = (Some (out', err), rep', w') → failed out' = failed out.
Proof.
  destruct p; cbn [Imports.apply_part]; try (by intros [= <- <- <- <-]).
  - destruct (ua_Preferences a) as [part|]; [|done]. destruct (PreferencePart _ _ _ _) as [[[set err1] rep1] w1]. by intros [= <- <- <- <-].
  - destruct (importTxPart _ _ _ _ _ _) as [[[[stored err1]|] rep1] w1]; by intros [= <- <- <- <-].
  - destruct (DeclarationPart _ _ _ _) as [[[n err1] rep1] w1]. by intros [= <- <- <- <-].
Qed.

#[local] Notation run_parts := (run_parts gen_uuid uuid_ok operating_mic parse_dec countryOf num_div num_scale settler
  configs registry candidates hash row_id today now parse_date dec_text numeric_text pg_div error_text).

(** What one part that is run leaves, with its status. *)
Lemma one_part user job a pr out w : uuid_ok job = true →
  let p := pr_Part pr in
  let w1 := if (0 <? pr_ProcessedCount pr)%Z || negb (empty (pr_Message pr)) then write (ResetJobPartProgress uuid_ok job p) w else w in
  let w2 := write (SetJobPartStatus uuid_ok job p RUNNING) w1 in
  let '(res, rep, w3) := apply_part user job a p out (NewPartReporter job p) w2 in
  let w4 := (Flush uuid_ok rep w3).2 in
  along (reporting job (eq p)) w w4 ∧ along (reporting job (eq p)) w w3 ∧
  ∀ f, (∀ r, pt_JobID (f r) = pt_JobID r ∧ pt_Part (f r) = pt_Part r) → along (reporting job (eq p)) w (write (execJobPart uuid_ok job p f) w4).
Proof.
  intros Hu p w1 w2.
  assert (along (reporting job (eq p)) w w1) as H1.
  { unfold w1. destruct (_ || _); [|apply along_refl]. apply reports_along. by apply write_part_reports. }
  assert (along (reporting job (eq p)) w w2) as H2.
  { eapply along_trans; [apply _|exact H1|]. apply reports_along. by apply write_part_reports. }
  pose proof (part_effect user job a p out (NewPartReporter job p) w2 (eq p) eq_refl eq_refl eq_refl) as H3.
  destruct (apply_part _ _ _ _ _ _ _) as [[res rep] w3]. destruct H3 as [H3 (_ & Ej & Ep)]. cbn in Ej, Ep.
  assert (along (reporting job (eq p)) w w3) as H23 by (by eapply along_trans; [apply _|..]).
  pose proof (flush_reports uuid_ok rep w3 (eq p) ltac:(by rewrite Ep)) as Hf. destruct (Flush _ rep w3) as [rep4 w4]. destruct Hf as [Hf _].
  rewrite Ej in Hf. apply reports_along in Hf.
  assert (along (reporting job (eq p)) w w4) as H4 by (by eapply along_trans; [apply _|..]).
  split_and!; [done|done|]. intros f Hfr. eapply along_trans; [apply _|exact H4|]. apply reports_along. by apply write_part_reports.
Qed.

Lemma parts_effect user job a prs out w : uuid_ok job = true →
  along (reporting job (pending prs)) w (run_parts user job a prs out w).2.
Proof.
  intros Hu. revert out w. induction prs as [|pr prs IH]; intros out w; cbn [Imports.run_parts]; [apply along_refl|].
  assert (∀ c c', reporting job (pending prs) c c' → reporting job (pending (pr :: prs)) c c') as Hlater.
  { intros c c'. apply effect_weaken; [done|]. intros p (x & Hx & ?). exists x. split; [by right|done]. }
  destruct (decide _) as [|Hn]; [by eapply along_weaken; [exact Hlater|apply IH]|].
  pose proof (one_part user job a pr out w Hu) as H1. cbn zeta in H1 |- *.
  destruct (apply_part _ _ _ _ _ _ _) as [[res rep] w3]. destruct H1 as (_ & H3 & H5).
  assert (∀ c c', reporting job (eq (pr_Part pr)) c c' → reporting job (pending (pr :: prs)) c c') as Hthis.
  { intros c c'. apply effect_weaken; [done|]. intros p <-. exists pr. split; [by left|done]. }
  destruct res as [[out1 err]|]; [|by eapply along_weaken; [exact Hthis|]].
  destruct (Flush uuid_ok rep w3) as [rep4 w4]. cbn [snd] in H5.
  assert (∀ f out2, (∀ r, pt_JobID (f r) = pt_JobID r ∧ pt_Part (f r) = pt_Part r) →
    along (reporting job (pending (pr :: prs))) w (run_parts user job a prs out2 (write (execJobPart uuid_ok job (pr_Part pr) f) w4)).2) as Hgo.
  { intros f out2 Hf. specialize (H5 f Hf). eapply along_trans; [apply _|by eapply along_weaken; [exact Hthis|exact H5]|].
    eapply along_weaken; [exact Hlater|]. apply IH. }
  destruct err; by apply Hgo.
Qed.

(** Every part that was run has ended, and the import failed if one of them did. *)
Lemma parts_end user job a prs out w out' w' : uuid_ok job = true → NoDup (pr_Part <$> prs) →
  run_parts user job a prs out w = (Some out', w') →
  (∀ pr, pr ∈ prs → pr_Status pr ≠ SUCCESS → part_is job (pr_Part pr) "SUCCESS" (sv_tables (latest w')) ∨
     part_is job (pr_Part pr) "FAILED" (sv_tables (latest w')) ∧ failed out' = true) ∧
  (failed out = true → failed out' = true) ∧
  (failed out' = true → failed out = true ∨ ∃ pr, pr ∈ prs ∧ pr_Status pr ≠ SUCCESS ∧ part_is job (pr_Part pr) "FAILED" (sv_tables (latest w'))).
Proof.
  intros Hu. revert out w. induction prs as [|pr prs IH]; intros out w Hnd; cbn [Imports.run_parts].
  { intros [= <- <-]. split; [by intros pr ?%elem_of_nil|auto]. }
  cbn in Hnd. apply NoDup_cons in Hnd as [Hnew Hnd].
  destruct (decide _) as [Hd|Hn].
  { intros E. destruct (IH out w Hnd E) as (H1 & H2 & H3). split_and!; [|done|].
    - intros x [->|Hx]%elem_of_cons Hx'; [done|by apply H1].
    - intros Hf. destruct (H3 Hf) as [|(x & Hx & ?)]; [by left|]. right. exists x. split; [by right|done]. }
  pose proof (one_part user job a pr out w Hu) as H1. cbn zeta in H1 |- *.
  destruct (apply_part _ _ _ _ _ _ _) as [[res rep] w3] eqn:Ea. destruct H1 as (_ & H3 & H5).
  destruct res as [[out1 err]|]; [|done]. apply part_keeps_failed in Ea.
  destruct (Flush uuid_ok rep w3) as [rep4 w4]. cbn [snd] in H5.
  assert (∀ f out2 s, (∀ r, (pt_Status (f r) = s ∧ (s = "FAILED" → is_Some (pt_Message (f r)))) ∧ pt_JobID (f r) = pt_JobID r ∧ pt_Part (f r) = pt_Part r) →
    run_parts user job a prs out2 (write (execJobPart uuid_ok job (pr_Part pr) f) w4) = (Some out', w') →
    part_is job (pr_Part pr) s (sv_tables (latest w')) ∧
    (∀ x, x ∈ prs → pr_Status x ≠ SUCCESS → part_is job (pr_Part x) "SUCCESS" (sv_tables (latest w')) ∨
       part_is job (pr_Part x) "FAILED" (sv_tables (latest w')) ∧ failed out' = true) ∧
    (failed out2 = true → failed out' = true) ∧
    (failed out' = true → failed out2 = true ∨ ∃ x, x ∈ prs ∧ pr_Status x ≠ SUCCESS ∧ part_is job (pr_Part x) "FAILED" (sv_tables (latest w')))) as Hgo.
  { intros f out2 s Hf E. specialize (H5 f ltac:(intros r; split; apply Hf)). set (w5 := write _ w4) in *.
    destruct (IH out2 w5 Hnd E) as (I1 & I2 & I3). split_and!; [|done..].
    pose proof (parts_effect user job a prs out2 w5 Hu) as He%along_now; [|apply _]. rewrite E in He. cbn [snd] in He.
    eapply part_is_kept; [|apply (ef_tables _ _ _ _ _ He)|by apply part_set].
    intros (x & Hx & Ep & _). apply Hnew. rewrite <- Ep. by apply list_elem_of_fmap_2. }
  destruct err as [e|]; intros E.
  - eapply (Hgo _ _ "FAILED") in E as (G1 & G2 & G3 & G4); [|done]. split_and!.
    + intros x [->|Hx]%elem_of_cons Hx'; [right; split; [done|by apply G3]|by apply G2].
    + intros _. by apply G3.
    + intros _. right. exists pr. split_and!; [by left|done|done].
  - eapply (Hgo _ _ "SUCCESS") in E as (G1 & G2 & G3 & G4); [|done]. split_and!.
    + intros x [->|Hx]%elem_of_cons Hx'; [by left|by apply G2].
    + intros Hf. apply G3. by rewrite Ea.
    + intros Hf. destruct (G4 Hf) as [Ho|(x & Hx & ?)]; [left; by rewrite Ea in Ho|]. right. exists x. split; [by right|done].
Qed.

(** *** A batch that is refused says why *)

Lemma rejected_says cpi p run errs : (ingestBatch gen_uuid uuid_ok operating_mic parse_dec countryOf num_div num_scale settler configs registry
  candidates hash row_id today now cpi p run).1 = BatchRejected errs → errs ≠ [].
Proof.
  unfold ingestBatch. destruct (ValidateTxs _) as [|e es]; [|by intros [= <-]]. destruct (resolved_types _) as [[|u us]|]; [| |done].
  { destruct (replacing p); [|done]. by destruct (store_postings _ _ _ _ _ _ _ _ _). }
  destruct (proposeCandidates _ _ _ _ _ _ _ _ _) as [pre calls]. destruct (resolveInstruments _ _ _ _ _ _ _ _ _ _ _ _ _ _ _) as [[[ids es]|] st]; [|done].
  unfold store_checked. destruct (validateAssetClasses _ _ _ _) as [[|e1 es1]|]; [|by intros [= <-]|done].
  destruct (validateWeightNeutrality _ _ _ _ _) as [[|e2 es2]|]; [|by intros [= <-]|done].
  destruct (weights _ _ _ _) as [ws|]; [|done]. by destruct (store_postings _ _ _ _ _ _ _ _ _).
Qed.

Lemma ingest_tells cpi total p rep w e : (ingest_reporting cpi total p rep w).1.1 = Some (inr e) → rp_Errs (ingest_reporting cpi total p rep w).1.2 ≠ [].
Proof.
  unfold Imports.ingest_reporting. pose proof (rejected_says cpi p (run_of (latest w))) as Hr.
  destruct (ingestBatch _ _ _ _ _ _ _ _ _ _ _ _ _ _ _ _ _ _) as [res out]. cbn [fst] in Hr.
  assert (∀ rep, (stored_batch error_text res rep).1 = Some (inr e) → rp_Errs (stored_batch error_text res rep).2 ≠ []) as Hs.
  { intros rep1. destruct res as [n ids|errs|row field| |]; cbn; try done.
    - intros _ [_ E]%app_eq_nil. by eapply Hr.
    - by intros _ [_ ?]%app_eq_nil. }
  destruct (ValidateTxs _); [|apply Hs]. destruct (resolved_types _) as [[|u us]|]; [| |apply Hs].
  - destruct (replacing p); apply Hs.
  - destruct (resolution _ _ _ _ _ _ _ _ _ _ _ _ _ _ _ _) as [resolved n]. destruct (Nat.iter _ _ _) as [rep1 w1]. apply Hs.
Qed.

(** *** A run that comes back *)

Definition in_vocabulary (x : TxWindow) : Prop := ∀ p t, p ∈ tw_Postings x → t ∈ ap_BrokerTxType p → in_tree t = true.

Lemma window_uploads x offset us bases rows : windowTxs parse_date (to_window x) offset = Some (us, bases, rows) →
  us = archiveTx <$> tw_Postings x.
Proof. unfold windowTxs. cbn [w_Postings to_window]. destruct (mapM _ _); [|done]. by intros [= <- _ _]. Qed.

Lemma vocabulary_resolves x : in_vocabulary x → is_Some (resolved_types (omap id (Some <$> (archiveTx <$> tw_Postings x)))).
Proof.
  intros Hv. assert (omap id (Some <$> (archiveTx <$> tw_Postings x)) = archiveTx <$> tw_Postings x) as ->.
  { generalize (archiveTx <$> tw_Postings x). intros l. induction l as [|u l IH]; [done|]. cbn. by f_equal. }
  apply mapM_is_Some_2, Forall_forall. intros u (p & -> & Hp)%list_elem_of_fmap.
  assert (is_Some (resolve_loop 4 (ap_BrokerTxType p))) as [t Et].
  { destruct (decide (ap_BrokerTxType p = [])) as [->|Hne]; [by eexists|].
    destruct (resolve_lca (ap_BrokerTxType p)) as (t & -> & _); [|by eexists]. split; [done|]. apply Forall_forall. intros t Ht. by eapply Hv. }
  assert (resolve_loop 4 (tx_BrokerTxType (u_Tx (archiveTx p))) = Some t) as E by exact Et. unfold compose. rewrite E. by eexists.
Qed.

Lemma windows_return user job asOf ws : (∀ x, x ∈ ws → in_vocabulary x) → ∀ offset stored touched rep w, rp_JobID rep = job → sound (latest w) →
  (tx_windows user job asOf offset stored touched ws rep w).1.1 ≠ None.
Proof.
  induction ws as [|x ws IH]; intros Hv offset stored touched rep w Hj Hs; cbn [Imports.tx_windows]; [done|].
  destruct (empty _); [done|]. destruct (windowTxs _ _ _) as [[[us bases] rows]|] eqn:Ew; [|by destruct (bad_basis _ _)].
  apply window_uploads in Ew as ->.
  set (p := batch_params _ _ _ _ _ _ _ _). pose proof (ingest_effect false true p rep w (λ _, True) I I (eq_sym Hj)) as Hi.
  destruct (ingest_reporting false true p rep w) as [[res rep1] w1]. destruct Hi as (H1 & (_ & Hj1 & _) & Hnone).
  destruct res as [[[n ids]|e]|]; [|done|].
  - apply IH; [intros y Hy; apply Hv; by right|congruence|by eapply sound_along].
  - destruct (Hnone Hs eq_refl) as [_ Hr]. destruct (vocabulary_resolves x (Hv x ltac:(left))) as [us' Hus].
    change (p_Txs p) with (Some <$> (archiveTx <$> tw_Postings x)) in Hr. by rewrite Hr in Hus.
Qed.

(** What a document must hold for its parts to come back. *)
Record readable (a : UserArchive) (prs : list JobPartResult) : Prop := {
  rb_types : ∀ ws x, ua_Txs a = Some ws → x ∈ ws → in_vocabulary x;
  rb_preferences : ∀ pr, pr ∈ prs → pr_Part pr = PREFERENCES → ua_Preferences a ≠ None;
}.

Lemma part_returns user job a p out rep w : (∀ ws x, ua_Txs a = Some ws → x ∈ ws → in_vocabulary x) →
  (p = PREFERENCES → ua_Preferences a ≠ None) → rp_JobID rep = job → sound (latest w) →
  (apply_part user job a p out rep w).1.1 ≠ None.
Proof.
  intros Hv Hpref Hj Hs. destruct p; try done; cbn [Imports.apply_part].
  - destruct (ua_Preferences a) as [part|]; [|by destruct (Hpref eq_refl)]. by destruct (PreferencePart _ _ _ _) as [[[set err1] rep1] w1].
  - unfold Imports.importTxPart. set (w1 := Total _ _ _ w).
    assert (sound (latest w1)) as Hs1.
    { eapply (sound_along job (λ _, True)); [|exact Hs]. rewrite <- Hj. apply reports_along. by apply total_reports. }
    assert (∀ x, x ∈ default [] (ua_Txs a) → in_vocabulary x) as Hv'.
    { intros x Hx. destruct (ua_Txs a) as [ws|]; [by eapply Hv|by apply elem_of_nil in Hx]. }
    pose proof (windows_return user job (ua_Envelope a ≫= env_ExportedAt) (default [] (ua_Txs a)) Hv' 0 false [] rep w1 Hj Hs1) as Hr.
    destruct (tx_windows _ _ _ _ _ _ _ rep w1) as [[[[[stored [e|]] touched]|] rep2] w2]; done.
  - by destruct (DeclarationPart _ _ _ _) as [[[n err1] rep1] w1].
Qed.

Lemma parts_return user job a prs out w : uuid_ok job = true → sound (latest w) → readable a prs →
  (run_parts user job a prs out w).1 ≠ None.
Proof.
  intros Hu. revert out w. induction prs as [|pr prs IH]; intros out w Hs [Hv Hpref]; cbn [Imports.run_parts]; [done|].
  assert (readable a prs) as Hr. { split; [done|]. intros x Hx. apply Hpref. by right. }
  destruct (decide _) as [|Hn]; [by apply IH|].
  pose proof (one_part user job a pr out w Hu) as H1. cbn zeta in H1 |- *.
  set (w1 := if (0 <? pr_ProcessedCount pr)%Z || negb (empty (pr_Message pr)) then write (ResetJobPartProgress uuid_ok job (pr_Part pr)) w else w) in *.
  set (w2 := write (SetJobPartStatus uuid_ok job (pr_Part pr) RUNNING) w1) in *.
  assert (sound (latest w2)) as Hs2.
  { eapply (sound_along job (λ _, True)); [|exact Hs]. unfold w2. eapply along_trans; [apply _| |apply reports_along; by apply write_part_reports].
    unfold w1. destruct (_ || _); [|apply along_refl]. apply reports_along. by apply write_part_reports. }
  pose proof (part_returns user job a (pr_Part pr) out (NewPartReporter job (pr_Part pr)) w2 Hv (Hpref pr ltac:(left)) eq_refl Hs2) as Hret.
  destruct (apply_part _ _ _ _ _ _ _) as [[[[out1 err]|] rep] w3]; [|done]. destruct H1 as (_ & _ & H5).
  destruct (Flush uuid_ok rep w3) as [rep4 w4]. cbn [snd] in H5.
  assert (∀ f out2, (∀ r, pt_JobID (f r) = pt_JobID r ∧ pt_Part (f r) = pt_Part r) →
    (run_parts user job a prs out2 (write (execJobPart uuid_ok job (pr_Part pr) f) w4)).1 ≠ None) as Hgo.
  { intros f out2 Hf. apply IH; [|done]. eapply sound_along; [|exact Hs]. by apply H5. }
  destruct err; by apply Hgo.
Qed.
End effects.
End Imports.
