(* ===== verification/Recovery.v ===== *)
(** * Jobs that survive

    What [Imports] promises of a job: that processing it, whatever its document holds and
    wherever it is interrupted, keeps the books whole and leaves the data of finished parts
    alone; that it comes to an end; and that no job is lost, over any sequence of requests,
    of jobs processed, of crashes between two commits and of restarts (main.go, where the
    open jobs are put back on the queue).

    A job is processed as one step of the server, other than for a crash, which leaves any
    of the states the step had committed. *)

From stdpp Require Import relations.
From Stdlib Require Import QArith.
From S2P Require Import Prelude GoStrings Calendar Decimal TxType Posting Grouping Neighbourhood Diff Residual Ledger Instruments Weigh Splits Declarations Reconcile Identity Resolve Validate Books Candidates Ingest Jobs Imports.

Local Open Scope nat_scope.

Module Recovery.
Import GoStrings Calendar TxType Posting Grouping Neighbourhood Diff Residual Ledger Instruments Weigh Splits Declarations Reconcile Identity Resolve Validate Books Candidates Ingest Jobs Imports.

Notation pending prs := (λ p, ∃ pr, pr ∈ prs ∧ pr_Part pr = p ∧ pr_Status pr ≠ SUCCESS).

(** ** What a job's parts read as *)

(** The keys of the parts of a job, which the table holds once each. *)
Definition parts_ok (job : string) (t : tables) : Prop :=
  ∃ ps, ARCHIVE_PART_UNSPECIFIED ∉ ps ∧ NoDup ps ∧
    pt_Part <$> filter (λ r, pt_JobID r = job) (ingestion_job_parts t) = archivePartToStr <$> ps.

Lemma str_part p : p ≠ ARCHIVE_PART_UNSPECIFIED → strToArchivePart (archivePartToStr p) = p.
Proof. by destruct p. Qed.

(** The parts a job is read with are its rows. *)
Lemma read_parts uuid_ok job t d : parts_ok job t → job ∈ j_ID <$> ingestion_jobs t → GetJob uuid_ok job t = Some d →
  NoDup (pr_Part <$> jd_Parts d) ∧
  (∀ pr, pr ∈ jd_Parts d → ∃ r, r ∈ ingestion_job_parts t ∧ names_part job (pr_Part pr) r = true ∧ pr_Status pr = strToJobStatus (pt_Status r)) ∧
  (∀ r, r ∈ ingestion_job_parts t → pt_JobID r = job → ∃ pr, pr ∈ jd_Parts d ∧ names_part job (pr_Part pr) r = true ∧
     pr_Status pr = strToJobStatus (pt_Status r)).
Proof.
  intros (ps & Hu & Hnd & Hps) (j0 & Ej0 & Hj0)%list_elem_of_fmap. unfold GetJob. destruct (negb _); [done|].
  destruct (filter _ (ingestion_jobs t)) as [|j js] eqn:Ef; [exfalso; apply (not_elem_of_nil j0); rewrite <- Ef; by apply list_elem_of_filter|].
  clear j0 Ej0 Hj0 Ef. intros [= <-]. cbn [jd_Parts]. set (errs := go_sort (λ a b, (_ <? _)%Z) _). set (rows := filter (λ r, pt_JobID r = job) (ingestion_job_parts t)) in *.
  set (result := part_result errs).
  assert (∀ r, r ∈ rows → archivePartToStr (strToArchivePart (pt_Part r)) = pt_Part r) as Hname.
  { intros r Hr. assert (pt_Part r ∈ archivePartToStr <$> ps) as (p & -> & Hp)%list_elem_of_fmap by (rewrite <- Hps; by apply list_elem_of_fmap_2).
    rewrite str_part; [done|]. by intros ->. }
  assert (Forall2 (λ r p, strToArchivePart (pt_Part r) = p) rows ps) as Hsame.
  { clear -Hps Hu. clearbody rows. revert ps Hu Hps. induction rows as [|r rows IH]; intros [|p ps] Hu Hps; try done. cbn in Hps. injection Hps as E Hps.
    apply not_elem_of_cons in Hu as [Hp Hu]. constructor; [|by apply IH]. rewrite E. apply str_part. done. }
  split_and!.
  - rewrite go_sort_perm. assert (pr_Part <$> (result <$> rows) = ps) as ->; [|done].
    clear -Hsame. induction Hsame as [|r p rows ps E _ IH]; [done|]. cbn. f_equal; [exact E|exact IH].
  - intros pr (r & -> & Hr)%elem_of_go_sort%list_elem_of_fmap. pose proof (Hname r Hr) as En. apply list_elem_of_filter in Hr as [Hj Hr].
    exists r. split_and!; [done| |done]. unfold names_part. change (pr_Part (result r)) with (strToArchivePart (pt_Part r)). by rewrite En, Hj, !String.eqb_refl.
  - intros r Hr Hj. assert (r ∈ rows) as Hr' by (by apply list_elem_of_filter). exists (result r). split_and!; [| |done].
    + apply elem_of_go_sort, list_elem_of_fmap. by exists r.
    + unfold names_part. change (pr_Part (result r)) with (strToArchivePart (pt_Part r)). by rewrite Hname, Hj, !String.eqb_refl.
Qed.

Section processing.
Context {D : Type} `{DecimalLaws D}.
Context (gen_uuid : gset string → string) (uuid_ok : string → bool) (operating_mic : string → option string).
Context (parse_dec : string → option D) (countryOf : string → string).
Context (num_div : D → D → D) (num_scale : D → Z).
Context (settler : option (string → list (GroupingPosting D) → ledger D → option (list GroupChange))).
Context (configs : list string) (registry : string → option plugin) (candidates : option (list candidate)).
Context (hash : string → string) (row_id : option (nat → string)) (today now : Z).
Context (parse_date : string → option Z) (dec_text : D → string) (numeric_text : string → option string).
Context (pg_div : D → D → D) (map_order : list holding → list holding).
Context (unmarshal_upsert : string → option UpsertTxsRequest) (unmarshal_archive : string → option UserArchive).
Context (error_text : import_error → string).
Hypothesis gen_fresh : ∀ X, gen_uuid X ∉ X.
Hypothesis gen_ok : ∀ X, uuid_ok (gen_uuid X) = true.
Hypothesis empty_not_ok : uuid_ok EmptyString = false.
Context {settler_lawful : match settler with Some f => SettlerLaws uuid_ok f | None => True end}.
Implicit Types (w : trace (server D)) (c : server D) (ps : ArchivePart → Prop).

#[local] Notation sound := (sound uuid_ok operating_mic).
#[local] Notation effect := (effect uuid_ok operating_mic).
#[local] Notation processTx := (processTx gen_uuid uuid_ok operating_mic parse_dec countryOf num_div num_scale settler
  configs registry candidates hash row_id today now parse_date pg_div unmarshal_upsert error_text).
#[local] Notation processUserImport := (processUserImport gen_uuid uuid_ok operating_mic parse_dec countryOf num_div num_scale settler
  configs registry candidates hash row_id today now parse_date dec_text numeric_text pg_div unmarshal_archive error_text).
#[local] Notation processJob := (processJob gen_uuid uuid_ok operating_mic parse_dec countryOf num_div num_scale settler
  configs registry candidates hash row_id today now parse_date dec_text numeric_text pg_div map_order unmarshal_upsert unmarshal_archive error_text).
#[local] Notation ingest_reporting := (ingest_reporting gen_uuid uuid_ok operating_mic parse_dec countryOf num_div num_scale settler
  configs registry candidates hash row_id today now error_text).
#[local] Notation run_parts := (run_parts gen_uuid uuid_ok operating_mic parse_dec countryOf num_div num_scale settler
  configs registry candidates hash row_id today now parse_date dec_text numeric_text pg_div error_text).

Notation importing job := (effect (job_handled job) job).

Lemma reporting_importing job ps c c' : effect (job_reported job) job ps c c' → importing job ps c c'.
Proof. by apply effect_weaken; [apply job_reported_handled|]. Qed.

Lemma handles_importing job ps c c' : handles job ps c c' → importing job ps c c'.
Proof. intros (t & -> & Ht). by split. Qed.

Lemma finish_importing job s ps w : uuid_ok job = true → terminal s →
  along (importing job ps) w (finishJob uuid_ok job s w) ∧ finished job s (sv_tables (latest (finishJob uuid_ok job s w))).
Proof.
  intros Hu Hs. destruct (finish_handles uuid_ok job s ps w Hu Hs) as [Ha Hf]. split; [|done].
  eapply along_weaken; [apply handles_importing|done].
Qed.

(** The parts of a job that have not been applied. *)
Definition unfinished (job : string) c (p : ArchivePart) : Prop :=
  ∃ d, GetJob uuid_ok job (sv_tables c) = Some d ∧ ∃ pr, pr ∈ jd_Parts d ∧ pr_Part pr = p ∧ pr_Status pr ≠ SUCCESS.

Lemma counters_effect job ps w : along (effect (job_reported job) job ps) w (sum_counters uuid_ok job w).
Proof.
  unfold sum_counters. destruct (GetJob _ _ _) as [d|]; [|apply along_refl]. eapply along_trans; [apply _|..]; apply reports_along; by apply write_job_reports.
Qed.

Lemma user_import_effect job w : uuid_ok job = true → let '(res, w') := processUserImport job w in
  along (importing job (unfinished job (latest w))) w w' ∧
  ∀ out user, res = Some (out, user) → finished job (if failed out then FAILED else SUCCESS) (sv_tables (latest w')).
Proof.
  intros Hu. unfold Imports.processUserImport. set (ps := unfinished job (latest w)).
  assert (Hwhole : ∀ field e, let '(res, w') := (Some (has_failed nothing_imported, EmptyString), failWholeJob uuid_ok job field (error_text e) w) in
    along (importing job ps) w w' ∧
    ∀ out user, res = Some (out, user) → finished job (if failed out then FAILED else SUCCESS) (sv_tables (latest w'))).
  { intros field e. destruct (fail_whole_handles uuid_ok job field (error_text e) ps w Hu) as [Ha Hf].
    split; [by eapply along_weaken; [apply handles_importing|]|]. by intros out user [= <- <-]. }
  destruct (LoadJobPayload _ _ _) as [payload|]; [|apply Hwhole]. destruct (unmarshal_archive payload) as [a|]; [|apply Hwhole].
  destruct (GetJob uuid_ok job _) as [d|] eqn:Ed; [|apply Hwhole].
  pose proof (parts_effect gen_uuid uuid_ok operating_mic parse_dec countryOf num_div num_scale settler configs registry candidates hash row_id
    today now parse_date dec_text numeric_text pg_div error_text gen_fresh gen_ok empty_not_ok (settler_lawful := settler_lawful)
    (jd_UserID d) job a (jd_Parts d) nothing_imported w Hu) as Hp.
  destruct (run_parts _ _ _ _ _ _) as [[out|] w1]; cbn [snd] in Hp.
  all: assert (along (importing job ps) w w1) as H1 by
    (eapply along_weaken; [|exact Hp]; intros c c'; apply effect_weaken; [apply job_reported_handled|]; intros p Hpp; by exists d).
  - set (w2 := sum_counters _ _ _).
    destruct (finish_importing job (if failed out then FAILED else SUCCESS) ps w2 Hu ltac:(destruct (failed out); [by right|by left])) as [Ha Hf].
    split; [|by intros out' user [= <- <-]]. eapply along_trans; [apply _|exact H1|]. eapply along_trans; [apply _| |exact Ha].
    eapply along_weaken; [apply reporting_importing|apply counters_effect].
  - by split.
Qed.

(** An upload reports on its job, which has no parts. *)
Notation of_upload := (λ p, p = TXS ∨ p = ARCHIVE_PART_UNSPECIFIED).

Lemma upload_effect job user w : uuid_ok job = true → let '(res, w') := processTx job user w in
  along (importing job of_upload) w w' ∧
  (∀ ok, res = Some ok → finished job (if ok then SUCCESS else FAILED) (sv_tables (latest w'))) ∧
  (sound (latest w) → res = None → ∃ req, LoadJobPayload uuid_ok job (sv_tables (latest w)) ≫= unmarshal_upsert = Some req ∧ ¬ in_vocabulary (ur_Window req)).
Proof.
  intros Hu. unfold Imports.processTx. change (jt (latest w)) with (sv_tables (latest w)).
  assert (Hfail : ∀ w1 s, along (effect (job_reported job) job of_upload) w w1 → terminal s → let '(res, w') := (Some (bool_decide (s = SUCCESS)), finishJob uuid_ok job s w1) in
    along (importing job of_upload) w w' ∧
    (∀ ok, res = Some ok → finished job (if ok then SUCCESS else FAILED) (sv_tables (latest w'))) ∧
    (sound (latest w) → res = None → ∃ req, LoadJobPayload uuid_ok job (sv_tables (latest w)) ≫= unmarshal_upsert = Some req ∧ ¬ in_vocabulary (ur_Window req))).
  { intros w1 s H1 Ht. destruct (finish_importing job s of_upload w1 Hu Ht) as [Ha Hf]. split_and!; [|by intros ok [= <-]; destruct Ht as [->| ->]|done].
    eapply along_trans; [apply _| |exact Ha]. by eapply along_weaken; [apply reporting_importing|]. }
  destruct (_ ≫= _) as [req|] eqn:Er; [|apply (Hfail w FAILED); [apply along_refl|by right]].
  destruct (windowTxs _ _ _) as [[[us bases] rows]|] eqn:Ew.
  2: { destruct (bad_basis _ _) as [i s]. set (rep := problem_at _ _ _ _ _).
       pose proof (flush_reports uuid_ok rep w of_upload ltac:(by right)) as Hf. destruct (Flush _ rep w) as [rep1 w1]. destruct Hf as [Hf _].
       apply (Hfail w1 FAILED); [by apply reports_along|by right]. }
  set (p := batch_params _ _ _ _ _ _ _ _). set (rep := NewPartReporter _ _).
  pose proof (ingest_effect gen_uuid uuid_ok operating_mic parse_dec countryOf num_div num_scale settler configs registry candidates hash row_id
    today now error_text gen_fresh gen_ok empty_not_ok (settler_lawful := settler_lawful) true false p rep w of_upload
    ltac:(by left) ltac:(by right) eq_refl) as Hi.
  destruct (ingest_reporting true false p rep w) as [[res rep1] w1]. destruct Hi as (H1 & (_ & Hj & Hpt) & Hnone).
  pose proof (flush_reports uuid_ok rep1 w1 of_upload ltac:(rewrite Hpt; by right)) as Hf. destruct (Flush _ rep1 w1) as [rep2 w2]. destruct Hf as [Hf _].
  rewrite Hj in Hf. apply (reports_along uuid_ok operating_mic) in Hf.
  assert (along (effect (job_reported job) job of_upload) w w2) as H2 by (by eapply along_trans; [apply _|..]).
  destruct res as [[[n ids]|e]|].
  - apply (Hfail _ SUCCESS); [|by left]. eapply along_trans; [apply _|exact H2|]. apply recompute_effect. by left.
  - apply (Hfail _ FAILED); [done|by right].
  - split_and!; [by eapply along_weaken; [apply reporting_importing|]|done|]. intros Hs _. exists req. split; [done|]. intros Hv.
    destruct (Hnone Hs eq_refl) as [_ Hn]. apply window_uploads in Ew as ->. destruct (vocabulary_resolves _ Hv) as [us' Hus].
    change (p_Txs p) with (Some <$> (archiveTx <$> tw_Postings (ur_Window req))) in Hn. by rewrite Hn in Hus.
Qed.

Lemma status_read s : strToJobStatus s = SUCCESS ↔ s = "SUCCESS".
Proof.
  unfold strToJobStatus. destruct (String.eqb_spec s "PENDING") as [->|]; [done|]. destruct (String.eqb_spec s "RUNNING") as [->|]; [done|].
  destruct (String.eqb_spec s "SUCCESS") as [->|]; [done|]. destruct (String.eqb_spec s "FAILED") as [->|]; [done|]. done.
Qed.

(** A step that writes no part. *)
Lemma same_parts R job t t' : written R job (λ _, False) t t' → ingestion_job_parts t' = ingestion_job_parts t.
Proof.
  intros [_ Hp _ _]. induction Hp as [|r r' l l' Hr _ IH]; [done|]. destruct Hr as [->|(_ & _ & _ & p & [] & _)]. by rewrite IH.
Qed.

Lemma names_part_true job p r : names_part job p r = true ↔ pt_JobID r = job ∧ pt_Part r = archivePartToStr p.
Proof. unfold names_part. by rewrite andb_true_iff, !String.eqb_eq. Qed.

(** An import that can be read comes back, with every part ended. *)
Lemma user_import_ends job a w : uuid_ok job = true → sound (latest w) → job ∈ j_ID <$> ingestion_jobs (sv_tables (latest w)) →
  parts_ok job (sv_tables (latest w)) → LoadJobPayload uuid_ok job (sv_tables (latest w)) ≫= unmarshal_archive = Some a →
  (∀ ws x, ua_Txs a = Some ws → x ∈ ws → in_vocabulary x) →
  (∀ r, r ∈ ingestion_job_parts (sv_tables (latest w)) → names_part job PREFERENCES r = true → ua_Preferences a ≠ None) →
  ∃ out user w', processUserImport job w = (Some (out, user), w') ∧
    (∀ r, r ∈ ingestion_job_parts (sv_tables (latest w')) → pt_JobID r = job → pt_Status r = "SUCCESS" ∨ pt_Status r = "FAILED" ∧ is_Some (pt_Message r)) ∧
    (failed out = true ↔ ∃ r, r ∈ ingestion_job_parts (sv_tables (latest w')) ∧ pt_JobID r = job ∧ pt_Status r = "FAILED").
Proof.
  intros Hu Hs Hjob Hok Hpay Hv Hpref. unfold Imports.processUserImport. change (jt (latest w)) with (sv_tables (latest w)).
  destruct (LoadJobPayload _ _ _) as [payload|]; [|done]. cbn in Hpay. rewrite Hpay.
  assert (is_Some (GetJob uuid_ok job (sv_tables (latest w)))) as [d Ed].
  { unfold GetJob. rewrite Hu. cbn. destruct (filter _ _); by eexists. }
  rewrite Ed. destruct (read_parts uuid_ok job _ d Hok Hjob Ed) as (Hnd & Hto & Hfrom).
  assert (readable a (jd_Parts d)) as Hr.
  { split; [done|]. intros pr Hpr Ep. destruct (Hto pr Hpr) as (r & Hr & Hn & _). rewrite Ep in Hn. by eapply Hpref. }
  pose proof (parts_return gen_uuid uuid_ok operating_mic parse_dec countryOf num_div num_scale settler configs registry candidates hash row_id
    today now parse_date dec_text numeric_text pg_div error_text gen_fresh gen_ok empty_not_ok (settler_lawful := settler_lawful)
    (jd_UserID d) job a (jd_Parts d) nothing_imported w Hu Hs Hr) as Hret.
  pose proof (parts_effect gen_uuid uuid_ok operating_mic parse_dec countryOf num_div num_scale settler configs registry candidates hash row_id
    today now parse_date dec_text numeric_text pg_div error_text gen_fresh gen_ok empty_not_ok (settler_lawful := settler_lawful)
    (jd_UserID d) job a (jd_Parts d) nothing_imported w Hu) as Heff.
  destruct (run_parts _ _ _ _ _ _) as [[out|] w1] eqn:Er; [|done]. cbn [snd] in Heff.
  pose proof (parts_end gen_uuid uuid_ok operating_mic parse_dec countryOf num_div num_scale settler configs registry candidates hash row_id
    today now parse_date dec_text numeric_text pg_div error_text gen_fresh gen_ok empty_not_ok (settler_lawful := settler_lawful)
    (jd_UserID d) job a (jd_Parts d) nothing_imported w out w1 Hu Hnd Er) as (Hend & _ & Hfail).
  eexists out, (jd_UserID d), _. split; [reflexivity|].
  set (w2 := sum_counters _ _ _). set (w3 := finishJob _ _ _ w2).
  assert (ingestion_job_parts (sv_tables (latest w3)) = ingestion_job_parts (sv_tables (latest w1))) as Esame.
  { destruct (finish_importing job (if failed out then FAILED else SUCCESS) (λ _, False) w2 Hu ltac:(destruct (failed out); [by right|by left])) as [Hf%along_now _]; [|apply _].
    pose proof (counters_effect job (λ _, False) w1) as Hc%along_now; [|apply _].
    unfold w3. rewrite (same_parts _ _ _ _ (ef_tables _ _ _ _ _ _ _ Hf)). apply (same_parts _ _ _ _ (ef_tables _ _ _ _ _ _ _ Hc)). }
  rewrite Esame. clear w2 w3 Esame. apply along_now in Heff; [|apply _]. pose proof (wr_parts _ _ _ _ _ (ef_tables _ _ _ _ _ _ _ Heff)) as Hrows.
  assert (∀ r', r' ∈ ingestion_job_parts (sv_tables (latest w1)) → pt_JobID r' = job →
    pt_Status r' = "SUCCESS" ∨ (pt_Status r' = "FAILED" ∧ is_Some (pt_Message r')) ∧ failed out = true) as Hall.
  { intros r' Hr' Hj. pose proof Hr' as [i Hi]%list_elem_of_lookup. destruct (Forall2_lookup_r _ _ _ _ _ Hrows Hi) as (r & Hri%list_elem_of_lookup_2 & Hrr).
    assert (pt_JobID r = job ∧ pt_Part r' = pt_Part r) as [Hj' Ept] by (destruct Hrr as [->|(? & ? & ? & _)]; done).
    destruct (Hfrom r Hri Hj') as (pr & Hpr & Hn & Est). pose proof Hn as [_ Ep]%names_part_true.
    destruct (decide (pr_Status pr = SUCCESS)) as [Hd|Hd].
    - left. rewrite Est in Hd. apply status_read in Hd. destruct Hrr as [->|(_ & _ & _ & q & (x & Hx & Exq & Hxs) & Eq)]; [done|].
      exfalso. rewrite Ep in Eq. apply archivePartToStr_inj in Eq. subst q. apply Hxs. clear -Hnd Hpr Hx Eq Est Hd.
      assert (x = pr) as ->; [|by rewrite Est, Hd]. by eapply (NoDup_fmap_inj_in pr_Part).
    - assert (names_part job (pr_Part pr) r' = true) as Hn' by (apply names_part_true; split; congruence).
      destruct (Hend pr Hpr Hd) as [Hs'|[Hf' Ho]]; [left; by apply Hs'|right; split; [|done]]. destruct (Hf' r' Hr' Hn') as [Hst Hm]. auto. }
  split; [intros r Hr' Hj; destruct (Hall r Hr' Hj) as [?|[? _]]; auto|]. split.
  - intros Hf. destruct (Hfail Hf) as [?|(pr & Hpr & Hd & Hp)]; [done|]. destruct (Hto pr Hpr) as (r & Hr' & Hn & _).
    apply list_elem_of_lookup in Hr' as [i Hi]. destruct (Forall2_lookup_l _ _ _ _ _ Hrows Hi) as (r' & Hri%list_elem_of_lookup_2 & Hrr).
    exists r'. apply names_part_true in Hn as [Hj Ep]. assert (pt_JobID r' = job ∧ pt_Part r' = pt_Part r) as [Hj' Ept] by (destruct Hrr as [->|(? & ? & ? & _)]; done).
    split_and!; [done|done|]. apply Hp; [done|]. apply names_part_true. split; congruence.
  - intros (r & Hr' & Hj & Hf). destruct (Hall r Hr' Hj) as [E|[_ ?]]; [congruence|done].
Qed.

(** ** A job from end to end *)

(** What shows of a step in the tables of the jobs. *)
Definition touches (job : string) c c' : Prop := handled job (λ _, True) (sv_tables c) (sv_tables c').

#[export] Instance touches_preorder job : PreOrder (touches job).
Proof. unfold touches. split; [by intros c|intros c1 c2 c3 A B; by etrans]. Qed.

Lemma importing_touches job ps c c' : importing job ps c c' → touches job c c'.
Proof. intros [A _ _ _ _]. by eapply written_weaken; [| |exact A]. Qed.

Lemma set_status_touches job s w : (∀ j, j ∈ ingestion_jobs (sv_tables (latest w)) → j_ID j = job →
    open_status (jobStatusToStr s) = true → open_status (j_Status j) = true) →
  along (touches job) w (write (SetJobStatus uuid_ok job s) w).
Proof.
  intros Hs. eapply along_weaken; [|apply (write_handles job (λ _, True))].
  - intros c c' (t & -> & Ht). exact Ht.
  - intros t. apply update_handled. intros j Hj Ej. right. split_and!; [done|done|]. cbn. intros Ho. split; [by apply Hs|done].
Qed.

Lemma processing_touches job type w :
  (∀ j, j ∈ ingestion_jobs (sv_tables (latest w)) → j_ID j = job → open_status (j_Status j) = true) → uuid_ok job = true →
  let '(o, w') := processJob job type w in along (touches job) w w'.
Proof.
  intros Hopen Hu. unfold Imports.processJob. set (w1 := write _ w).
  assert (along (touches job) w w1) as H1 by (apply set_status_touches; intros; by apply Hopen).
  set (user := jd_UserID _). clearbody w1.
  assert (∀ c w2, along (touches job) w w2 → sv_tables c = sv_tables (latest w2) → along (touches job) w (commit c w2)) as Hcommit.
  { intros c w2 H2 Ec. eapply along_trans; [apply _|exact H2|]. apply along_commit. unfold touches. by rewrite Ec. }
  destruct (String.eqb type JobTypeTx).
  { pose proof (upload_effect job user w1 Hu) as Hup. destruct (processTx job user w1) as [res w2]. destruct Hup as [Ha _].
    assert (along (touches job) w w2) as H2.
    { eapply along_trans; [apply _|exact H1|]. eapply along_weaken; [apply importing_touches|exact Ha]. }
    destruct res as [[|]|]; [by apply Hcommit|done|done]. }
  destruct (String.eqb type JobTypeSystemArchive); [done|]. destruct (String.eqb type JobTypeUserArchive).
  { pose proof (user_import_effect job w1 Hu) as Hui. destruct (processUserImport job w1) as [res w2]. destruct Hui as [Ha _].
    assert (along (touches job) w w2) as H2.
    { eapply along_trans; [apply _|exact H1|]. eapply along_weaken; [apply importing_touches|exact Ha]. }
    destruct res as [[out u]|]; [|done]. destruct (_ || _); [by apply Hcommit|done]. }
  eapply along_trans; [apply _|exact H1|]. apply set_status_touches. done.
Qed.

Lemma job_by_id (l : list job) j j' : NoDup (j_ID <$> l) → j ∈ l → j' ∈ l → j_ID j' = j_ID j → j' = j.
Proof. intros. by eapply NoDup_fmap_inj_in. Qed.

Lemma payload_loaded j t : NoDup (j_ID <$> ingestion_jobs t) → j ∈ ingestion_jobs t → uuid_ok (j_ID j) = true →
  LoadJobPayload uuid_ok (j_ID j) t = Some (default EmptyString (j_Payload j)).
Proof.
  intros Hnd Hj Hu. unfold LoadJobPayload. rewrite Hu. cbn. destruct (filter _ _) as [|x l] eqn:E.
  - exfalso. apply (not_elem_of_nil j). rewrite <- E. by apply list_elem_of_filter.
  - assert (x ∈ x :: l) as Hx by left. rewrite <- E in Hx. apply list_elem_of_filter in Hx as [Ex Hx].
    cbn. by rewrite (job_by_id _ j x Hnd Hj Hx Ex).
Qed.

Lemma touched_row job t t' j : handled job (λ _, True) t t' → j ∈ ingestion_jobs t → ∃ j', j' ∈ ingestion_jobs t' ∧ static j' = static j.
Proof.
  intros [Hj _ _ _] [i Hi]%list_elem_of_lookup. destruct (Forall2_lookup_l _ _ _ _ _ Hj Hi) as (j' & Hj'%list_elem_of_lookup_2 & Hr).
  exists j'. split; [done|]. destruct Hr as [->|(_ & Hs & _)]; done.
Qed.

Lemma static_id j j' : static j' = static j → j_ID j' = j_ID j.
Proof. intros E. apply (f_equal j_ID) in E. exact E. Qed.

(** The document of a job names only types there are, and holds what its parts need. *)
Definition well_formed (j : job) (t : tables) : Prop :=
  let payload := default EmptyString (j_Payload j) in
  j_Type j = JobTypeTx ∧ (∀ req, unmarshal_upsert payload = Some req → in_vocabulary (ur_Window req)) ∨
  j_Type j = JobTypeUserArchive ∧ ∀ a, unmarshal_archive payload = Some a →
    (∀ ws x, ua_Txs a = Some ws → x ∈ ws → in_vocabulary x) ∧
    (∀ r, r ∈ ingestion_job_parts t → names_part (j_ID j) PREFERENCES r = true → ua_Preferences a ≠ None).

(** An open job of well-formed tables. *)
Record ready (j : job) c : Prop := {
  rd_id : uuid_ok (j_ID j) = true;
  rd_ids : NoDup (j_ID <$> ingestion_jobs (sv_tables c));
  rd_there : j ∈ ingestion_jobs (sv_tables c);
  rd_open : open_status (j_Status j) = true;
  rd_parts : parts_ok (j_ID j) (sv_tables c);
}.

(** The job as a worker takes it up. *)
Lemma taken_up j w : ready j (latest w) → let id := j_ID j in let c := latest (write (SetJobStatus uuid_ok id RUNNING) w) in
  (sound (latest w) → sound c) ∧ parts_ok id (sv_tables c) ∧ id ∈ j_ID <$> ingestion_jobs (sv_tables c) ∧
  LoadJobPayload uuid_ok id (sv_tables c) = Some (default EmptyString (j_Payload j)) ∧
  ingestion_job_parts (sv_tables c) = ingestion_job_parts (sv_tables (latest w)).
Proof.
  intros [Hu Hnd Hj Ho Hparts] id. fold id in Hu, Hparts. unfold write, SetJobStatus, update_job. rewrite Hu. cbn -[LoadJobPayload].
  set (f := λ x, if String.eqb (j_ID x) id then with_progress "RUNNING" (j_TotalCount x) (j_ProcessedCount x) (j_Payload x) x else x).
  set (t1 := with_jobs (f <$> ingestion_jobs (sv_tables (latest w))) (sv_tables (latest w))).
  assert (f j ∈ ingestion_jobs t1 ∧ j_ID (f j) = id ∧ j_Payload (f j) = j_Payload j) as (Hj1 & Eid & Epay).
  { split; [by apply list_elem_of_fmap_2|]. unfold f, id. by rewrite String.eqb_refl. }
  assert (NoDup (j_ID <$> ingestion_jobs t1)) as Hnd1.
  { cbn. rewrite <- list_fmap_compose. erewrite list_fmap_ext; [exact Hnd|]. intros _ x _. unfold compose, f. by destruct (String.eqb _ _). }
  split_and!; [done|done| | |done].
  - apply list_elem_of_fmap. by exists (f j).
  - pose proof (payload_loaded (f j) t1 Hnd1 Hj1) as Hl. rewrite Eid, Epay in Hl. by apply Hl.
Qed.

(** The row of a job that was processed to its end. *)
Lemma ended_row j w o w' s : ready j (latest w) → processJob (j_ID j) (j_Type j) w = (o, w') → finished (j_ID j) s (sv_tables (latest w')) →
  ∃ j', j' ∈ ingestion_jobs (sv_tables (latest w')) ∧ static j' = static j ∧ j_Payload j' = None ∧ j_Status j' = jobStatusToStr s.
Proof.
  intros [Hu Hnd Hj Ho _] E Hf. pose proof (processing_touches (j_ID j) (j_Type j) w) as Htouch. rewrite E in Htouch.
  assert (along (touches (j_ID j)) w w') as Ht by (apply Htouch; [|done]; intros x Hx Ex; by rewrite (job_by_id _ j x Hnd Hj Hx Ex)).
  apply along_now in Ht; [|apply _]. destruct (touched_row _ _ _ j Ht Hj) as (j' & Hj' & Es). exists j'.
  destruct (Hf j' Hj' (static_id _ _ Es)). by split_and!.
Qed.

(** C37: Processing a job comes to an end.  An open job, an upload or a user archive that
    names only types there are, is always brought to SUCCESS or FAILED, with its payload
    gone and the rest of its row as it was, whatever its document holds and the plugins
    answer.  An archive that can be read has each of its parts succeed, or fail with a
    message, and succeeds exactly when they all did. *)
Theorem job_comes_to_an_end j w : sound (latest w) → ready j (latest w) → well_formed j (sv_tables (latest w)) →
  ∃ ok triggers w', processJob (j_ID j) (j_Type j) w = (Processed ok triggers, w') ∧
    (∃ j', j' ∈ ingestion_jobs (sv_tables (latest w')) ∧ static j' = static j ∧ j_Payload j' = None ∧
       j_Status j' = if ok then "SUCCESS" else "FAILED") ∧
    (j_Type j = JobTypeUserArchive → is_Some (unmarshal_archive (default EmptyString (j_Payload j))) →
       let rows := filter (λ r, pt_JobID r = j_ID j) (ingestion_job_parts (sv_tables (latest w'))) in
       (∀ r, r ∈ rows → pt_Status r = "SUCCESS" ∨ pt_Status r = "FAILED" ∧ is_Some (pt_Message r)) ∧ (ok = true ↔ ∀ r, r ∈ rows → pt_Status r = "SUCCESS")).
Proof.
  intros Hs Hready Hwf. pose proof (rd_id _ _ Hready) as Hu. pose proof (λ o w' s, ended_row j w o w' s Hready) as Hrow.
  destruct (taken_up j w Hready) as (Hs1 & Hparts1 & Hj1 & Hpay & Erows). specialize (Hs1 Hs). set (id := j_ID j) in *.
  unfold Imports.processJob in Hrow |- *. set (w1 := write (SetJobStatus uuid_ok id RUNNING) w) in *.
  change (jt (latest w1)) with (sv_tables (latest w1)) in Hrow |- *.
  set (user := jd_UserID (default no_detail (GetJob uuid_ok id (sv_tables (latest w1))))) in *.
  destruct Hwf as [[Hty Hv]|[Hty Hv]]; rewrite Hty in Hrow |- *; cbn [String.eqb] in Hrow |- *.
  - pose proof (upload_effect id user w1 Hu) as Hup. destruct (processTx id user w1) as [[ok|] w2]; destruct Hup as (_ & Hfin & Hnone).
    2: { exfalso. destruct (Hnone Hs1 eq_refl) as (req & E & Hn). rewrite Hpay in E. by apply Hn, Hv. }
    specialize (Hfin ok eq_refl).
    destruct ok; (eexists _, _, _; split; [reflexivity|]; split; [|done]); [apply (Hrow _ _ SUCCESS eq_refl Hfin)|apply (Hrow _ _ FAILED eq_refl Hfin)].
  - pose proof (user_import_effect id w1 Hu) as Hui. destruct (unmarshal_archive (default EmptyString (j_Payload j))) as [a|] eqn:Ea.
    2: { unfold Imports.processUserImport in Hui, Hrow |- *. change (jt (latest w1)) with (sv_tables (latest w1)) in Hui, Hrow |- *.
      rewrite Hpay, Ea in Hui, Hrow |- *. destruct Hui as [_ Hfin]. eexists false, _, _. split; [reflexivity|]. split; [|by intros _ [? ?]].
      apply (Hrow _ _ FAILED eq_refl (Hfin _ _ eq_refl)). }
    destruct (Hv a eq_refl) as [Hv1 Hv2]. rewrite <- Erows in Hv2.
    destruct (user_import_ends id a w1) as (out & u & w2 & E & Hall & Hfail); [done|done|done|done|by rewrite Hpay|done|done|].
    rewrite E in Hui, Hrow |- *. destruct Hui as [_ Hfin]. specialize (Hfin out u eq_refl).
    eexists (negb (failed out)), _, _. split; [reflexivity|].
    set (w3 := if _ || _ then _ else w2) in *.
    assert (sv_tables (latest w3) = sv_tables (latest w2)) as E3 by (unfold w3; by destruct (_ || _)). rewrite <- E3 in Hfin.
    split; [pose proof (Hrow _ _ _ eq_refl Hfin) as Hr; by destruct (failed out)|]. intros _ _. rewrite E3. split.
    + intros r [Hr1 Hr2]%list_elem_of_filter. by apply Hall.
    + rewrite negb_true_iff, <- not_true_iff_false, Hfail. split.
      * intros Hn r [Hr1 Hr2]%list_elem_of_filter. destruct (Hall r Hr2 Hr1) as [|[Hst _]]; [done|]. destruct Hn. by exists r.
      * intros Hsucc (r & Hr & Hid & Hst). rewrite Hsucc in Hst; [done|]. by apply list_elem_of_filter.
Qed.

(** An upload that fails leaves an error, unless its document could not be read. *)
Lemma upload_tells job user w : uuid_ok job = true → job ∈ j_ID <$> ingestion_jobs (sv_tables (latest w)) →
  let '(res, w') := processTx job user w in res = Some false →
  match LoadJobPayload uuid_ok job (sv_tables (latest w)) ≫= unmarshal_upsert with
  | Some _ => told (sv_tables (latest w)) (sv_tables (latest w'))
  | None => w' = finishJob uuid_ok job FAILED w
  end.
Proof.
  intros Hu Hid. unfold Imports.processTx. change (jt (latest w)) with (sv_tables (latest w)).
  destruct (_ ≫= _) as [req|] eqn:Er; [|done].
  assert (∀ rep w1, rp_db rep = true → rp_JobID rep = job → rp_Errs rep ≠ [] → rp_Part rep = ARCHIVE_PART_UNSPECIFIED →
    along (effect (job_reported job) job of_upload) w w1 →
    told (sv_tables (latest w)) (sv_tables (latest (finishJob uuid_ok job FAILED (Flush uuid_ok rep w1).2)))) as Hend.
  { intros rep w1 Hdb Hj He Hp H1%(along_now _). pose proof (ef_tables _ _ _ _ _ _ _ H1) as Hw.
    eapply (told_after _ _ _ _ (sv_tables (latest (Flush uuid_ok rep w1).2))); [apply (told_before _ _ _ _ _ _ Hw)|].
    - pose proof (flush_tells uuid_ok rep w1 Hdb) as Hf. rewrite Hj in Hf. apply Hf; [done| |done]. change (jt (latest w1)) with (sv_tables (latest w1)).
      by rewrite (reported_ids _ _ _ _ Hw).
    - destruct (finish_importing job FAILED of_upload (Flush uuid_ok rep w1).2 Hu ltac:(by right)) as [Hf%(along_now _) _].
      apply (ef_tables _ _ _ _ _ _ _ Hf). }
  destruct (windowTxs _ _ _) as [[[us bases] rows]|] eqn:Ew.
  2: { destruct (bad_basis _ _) as [i s]. set (rep := problem_at _ _ _ _ _). specialize (Hend rep w eq_refl eq_refl ltac:(done) eq_refl (along_refl _ _)).
       by destruct (Flush _ rep w) as [rep1 w1]. }
  set (p := batch_params _ _ _ _ _ _ _ _). set (rep := NewPartReporter _ _).
  pose proof (ingest_effect gen_uuid uuid_ok operating_mic parse_dec countryOf num_div num_scale settler configs registry candidates hash row_id
    today now error_text gen_fresh gen_ok empty_not_ok (settler_lawful := settler_lawful) true false p rep w of_upload
    ltac:(by left) ltac:(by right) eq_refl) as Hi.
  pose proof (λ e, ingest_tells gen_uuid uuid_ok operating_mic parse_dec countryOf num_div num_scale settler configs registry candidates hash row_id
    today now error_text true false p rep w e) as Ht.
  destruct (ingest_reporting true false p rep w) as [[res rep1] w1]. destruct Hi as (H1 & (Hd & Hj & Hpt) & _). cbn [fst snd] in Ht.
  destruct res as [[[n ids]|e]|]; [by destruct (Flush _ _ _)| |done].
  specialize (Hend rep1 w1 Hd Hj (Ht e eq_refl) Hpt H1). by destruct (Flush _ rep1 w1) as [rep2 w2].
Qed.

(** A failed run of an archive that cannot be read. *)
Lemma unreadable_tells job w : uuid_ok job = true → job ∈ j_ID <$> ingestion_jobs (sv_tables (latest w)) →
  LoadJobPayload uuid_ok job (sv_tables (latest w)) ≫= unmarshal_archive = None →
  told (sv_tables (latest w)) (sv_tables (latest (processUserImport job w).2)).
Proof.
  intros Hu Hid Hn.
  assert (∀ field e, told (sv_tables (latest w)) (sv_tables (latest (failWholeJob uuid_ok job field (error_text e) w)))) as Hwhole.
  { intros field e. unfold failWholeJob. set (errs := [_]). set (w1 := AppendValidationErrors _ _ _ errs w).
    pose proof (append_tells uuid_ok job ARCHIVE_PART_UNSPECIFIED errs w Hu Hid ltac:(done)) as Ht.
    destruct (finish_importing job FAILED (λ _, False) w1 Hu ltac:(by right)) as [Hf%(along_now _) _].
    eapply told_after; [exact Ht|]. apply (ef_tables _ _ _ _ _ _ _ Hf). }
  unfold Imports.processUserImport. change (jt (latest w)) with (sv_tables (latest w)).
  destruct (LoadJobPayload _ _ _) as [payload|]; [|apply Hwhole]. cbn in Hn. rewrite Hn. apply Hwhole.
Qed.

(** C38: A job that fails says why.  Whatever is written of a failed job's problems is of
    that job; an upload whose document could be read leaves an error for a posting or for
    the batch, and so does an archive that could not be read; an archive that could be
    read has a part that failed, with a message.  Only an upload whose document could not
    be read says nothing. *)
Theorem failed_jobs_say_why j w triggers w' : sound (latest w) → ready j (latest w) → well_formed j (sv_tables (latest w)) →
  processJob (j_ID j) (j_Type j) w = (Processed false triggers, w') →
  let document := default EmptyString (j_Payload j) in let t := sv_tables (latest w) in let t' := sv_tables (latest w') in
  (∃ new, validation_errors t' = validation_errors t ++ new ∧ ∀ e, e ∈ new → er_JobID e = j_ID j) ∧
  (j_Type j = JobTypeTx → if unmarshal_upsert document then told t t' else validation_errors t' = validation_errors t) ∧
  (j_Type j = JobTypeUserArchive → if unmarshal_archive document
     then ∃ r, r ∈ ingestion_job_parts t' ∧ pt_JobID r = j_ID j ∧ pt_Status r = "FAILED" ∧ is_Some (pt_Message r) else told t t').
Proof.
  intros Hs Hready Hwf E document t t'. pose proof (rd_id _ _ Hready) as Hu. split.
  { pose proof (processing_touches (j_ID j) (j_Type j) w) as Hp. rewrite E in Hp. destruct Hready as [_ Hnd Hj Ho _].
    assert (along (touches (j_ID j)) w w') as [_ _ Ht _]%(along_now _); [|exact Ht].
    apply Hp; [|done]. intros x Hx Ex. by rewrite (job_by_id _ j x Hnd Hj Hx Ex). }
  destruct (taken_up j w Hready) as (Hs1 & Hparts1 & Hj1 & Hpay & Erows). specialize (Hs1 Hs).
  assert (validation_errors (sv_tables (latest (write (SetJobStatus uuid_ok (j_ID j) RUNNING) w))) = validation_errors t) as Eerr.
  { unfold write, SetJobStatus, update_job. by rewrite Hu. }
  unfold Imports.processJob in E. set (w1 := write (SetJobStatus uuid_ok (j_ID j) RUNNING) w) in *.
  set (user := jd_UserID _) in E.
  assert (∀ u, told (sv_tables (latest w1)) u → told t u) as Htold by (intros u (new & Hn & E1); exists new; by rewrite E1, Eerr).
  split; intros Hty; rewrite Hty in E; cbn [String.eqb] in E.
  - pose proof (upload_tells (j_ID j) user w1 Hu Hj1) as Hup. rewrite Hpay in Hup. cbn in Hup. fold document in Hup.
    destruct (processTx (j_ID j) user w1) as [[[|]|] w2]; [done| |done]. injection E as _ <-. specialize (Hup eq_refl).
    destruct (unmarshal_upsert document); [by apply Htold|]. subst w2. unfold t'. rewrite <- Eerr. unfold finishJob, write, SetJobStatus, ClearJobPayload, update_job.
    by rewrite Hu.
  - destruct (unmarshal_archive document) as [a|] eqn:Ea.
    + destruct Hwf as [[Hty' _]|[_ Hv]]; [by rewrite Hty in Hty'|]. destruct (Hv a Ea) as [Hv1 Hv2]. rewrite <- Erows in Hv2.
      destruct (user_import_ends (j_ID j) a w1) as (out & u & w2 & Ei & Hall & Hfail); [done|done|done|done|by rewrite Hpay|done|done|].
      rewrite Ei in E. assert (failed out = true ∧ t' = sv_tables (latest w2)) as [Hf ->].
      { injection E as Ef _ Ew. split; [by destruct (failed out)|]. unfold t'. rewrite <- Ew. by destruct (_ || _). }
      apply Hfail in Hf as (r & Hr & Hid & Hst). exists r. destruct (Hall r Hr Hid) as [|[_ ?]]; [congruence|]. by split_and!.
    + pose proof (unreadable_tells (j_ID j) w1 Hu Hj1 ltac:(by rewrite Hpay)) as Ht.
      unfold Imports.processUserImport in E, Ht. change (jt (latest w1)) with (sv_tables (latest w1)) in E, Ht. rewrite Hpay in E, Ht. fold document in E, Ht.
      rewrite Ea in E, Ht. injection E as _ <-. apply Htold, Ht.
Qed.

(** C11: However an import is interrupted, the books are whole.  Every state that
    processing an upload or a user archive commits keeps the store's constraints and
    balanced groups over instruments that exist; an upload changes neither the users nor
    the declarations; and an archive that is taken up again leaves the data of the parts
    an earlier run finished alone: the display currency, the market with its ledger, or
    the declarations. *)
Theorem imports_keep_the_books job user w : uuid_ok job = true → sound (latest w) →
  (let '(_, w') := processTx job user w in ∀ c, c ∈ latest w' :: earlier w' → c ∈ earlier w ∨
     sound c ∧ sv_users c = sv_users (latest w) ∧ decls (sv_state c) = decls (sv_state (latest w))) ∧
  (let '(_, w') := processUserImport job w in ∀ c, c ∈ latest w' :: earlier w' → c ∈ earlier w ∨
     sound c ∧ (¬ unfinished job (latest w) PREFERENCES → sv_users c = sv_users (latest w)) ∧
     (¬ unfinished job (latest w) TXS → market_view c = market_view (latest w)) ∧
     (¬ unfinished job (latest w) DECLARATIONS → decls (sv_state c) = decls (sv_state (latest w)))).
Proof.
  intros Hu Hs. split.
  - pose proof (upload_effect job user w Hu) as Hup. destruct (processTx job user w) as [res w']. destruct Hup as [Ha _].
    intros c Hc. destruct (along_visited _ _ _ _ Ha Hc) as [|[_ E2 E3 _ E5]]; [by left|]. right. split_and!; [by apply E2|apply E3|apply E5]; naive_solver.
  - pose proof (user_import_effect job w Hu) as Hup. destruct (processUserImport job w) as [res w']. destruct Hup as [Ha _].
    intros c Hc. destruct (along_visited _ _ _ _ Ha Hc) as [|[_ E2 E3 E4 E5]]; [by left|]. right. split_and!; [by apply E2|done..].
Qed.

(** ** The server over time *)

Context (marshal_upsert : UpsertTxsRequest → option string) (marshal_archive : UserArchive → option string) (capacity : nat).

#[local] Notation create_and_enqueue := (create_and_enqueue gen_uuid uuid_ok capacity).
#[local] Notation UpsertTxs := (UpsertTxs gen_uuid uuid_ok marshal_upsert capacity).
#[local] Notation CreateTx := (CreateTx gen_uuid uuid_ok marshal_upsert capacity).
#[local] Notation ImportUserArchive := (ImportUserArchive gen_uuid uuid_ok marshal_archive capacity).

(** The server starting on what a crash left. *)
Definition restart c : system D := {| sy_run := {| latest := c; earlier := [] |}; sy_queue := re_enqueue capacity (sv_tables c) [] |}.

(** A request, the worker taking a job, a crash at any state that job committed, a
    restart, or anything else that leaves the jobs alone. *)
Inductive step : system D → system D → Prop :=
  | step_upsert at_ user req ans sys sys' : UpsertTxs at_ user req sys = (ans, sys') → step sys sys'
  | step_create at_ user broker source posting ans sys sys' : CreateTx at_ user broker source posting sys = (ans, sys') → step sys sys'
  | step_import at_ user filename a ans sys sys' : ImportUserArchive at_ user filename a sys = (ans, sys') → step sys sys'
  | step_work r q o run' sys : sy_queue sys = r :: q → processJob (rq_JobID r) (rq_JobType r) (sy_run sys) = (o, run') → o ≠ SystemArchive →
      step sys {| sy_run := run'; sy_queue := q |}
  | step_crash r q o run' new c sys : sy_queue sys = r :: q → processJob (rq_JobID r) (rq_JobType r) (sy_run sys) = (o, run') → o ≠ SystemArchive →
      latest run' :: earlier run' = new ++ latest (sy_run sys) :: earlier (sy_run sys) → c ∈ new → step sys (restart c)
  | step_restart sys : step sys (restart (latest (sy_run sys)))
  | step_other c sys : sv_tables c = sv_tables (latest (sy_run sys)) → step sys {| sy_run := commit c (sy_run sys); sy_queue := sy_queue sys |}.

Definition jobs_of (sys : system D) : list job := ingestion_jobs (sv_tables (latest (sy_run sys))).

(** What is queued is an open job, once. *)
Record queue_ok (t : tables) (q : list JobRequest) : Prop := {
  qo_once : NoDup (rq_JobID <$> q);
  qo_open : ∀ r, r ∈ q → ∃ j, j ∈ ingestion_jobs t ∧ j_ID j = rq_JobID r ∧ j_Type j = rq_JobType r ∧ open_status (j_Status j) = true;
}.

Record system_ok (sys : system D) : Prop := {
  so_ids : NoDup (j_ID <$> jobs_of sys);
  so_uuids : ∀ j, j ∈ jobs_of sys → uuid_ok (j_ID j) = true;
  so_queue : queue_ok (sv_tables (latest (sy_run sys))) (sy_queue sys);
}.

(** What becomes of a job: while it is open it has the payload it had. *)
Definition evolves (j j' : job) : Prop :=
  static j' = static j ∧ (open_status (j_Status j') = true → open_status (j_Status j) = true ∧ j_Payload j' = j_Payload j).

#[export] Instance evolves_preorder : PreOrder evolves.
Proof.
  split; [by split|]. intros x y z [A1 A2] [B1 B2]. split; [congruence|]. intros Ho. destruct (B2 Ho) as [Hy ->]. auto.
Qed.

(** Jobs are added, and those there were evolve. *)
Definition grown (l l' : list job) : Prop := ∃ l1 l2, l' = l1 ++ l2 ∧ Forall2 evolves l l1.

#[export] Instance grown_preorder : PreOrder grown.
Proof.
  split; [intros l; exists l, []; by rewrite app_nil_r|]. intros a b c (b1 & b2 & -> & A) (c1 & c2 & -> & B).
  apply Forall2_app_inv_l in B as (d1 & d2 & B1 & _ & ->). exists d1, (d2 ++ c2). rewrite app_assoc. split; [done|]. by etrans.
Qed.

Lemma touched_grown job c c' : touches job c c' → grown (ingestion_jobs (sv_tables c)) (ingestion_jobs (sv_tables c')).
Proof.
  intros [Hj _ _ _]. eexists _, []. rewrite app_nil_r. split; [reflexivity|]. eapply Forall2_impl; [exact Hj|].
  intros j j' [->|(_ & Hs & Ho)]; [reflexivity|by split].
Qed.

Lemma touched_ids job c c' : touches job c c' → j_ID <$> ingestion_jobs (sv_tables c') = j_ID <$> ingestion_jobs (sv_tables c).
Proof.
  intros [Hj _ _ _]. induction Hj as [|j j' l l' Hr _ IH]; [done|]. cbn. rewrite IH. f_equal.
  destruct Hr as [->|(_ & Hs & _)]; [done|by apply static_id].
Qed.

(** Every row left a job of the same id. *)
Lemma touched_back job c c' j' : touches job c c' → j' ∈ ingestion_jobs (sv_tables c') → ∃ j, j ∈ ingestion_jobs (sv_tables c) ∧ j_ID j' = j_ID j.
Proof.
  intros Ht Hj'. assert (j_ID j' ∈ j_ID <$> ingestion_jobs (sv_tables c)) as (j & E & Hj)%list_elem_of_fmap; [|by exists j].
  rewrite <- (touched_ids _ _ _ Ht). by apply list_elem_of_fmap_2.
Qed.

Lemma queue_touched job c c' q : touches job c c' → job ∉ rq_JobID <$> q → queue_ok (sv_tables c) q → queue_ok (sv_tables c') q.
Proof.
  intros [Hj _ _ _] Hq [Q1 Q2]. split; [done|]. intros r Hr. destruct (Q2 r Hr) as (j & Hjj & E & ? & ?).
  apply list_elem_of_lookup in Hjj as [i Hi]. destruct (Forall2_lookup_l _ _ _ _ _ Hj Hi) as (j' & Hj'%list_elem_of_lookup_2 & [->|(Ej & _)]); [by exists j|].
  exfalso. apply Hq. rewrite <- Ej, E. by apply list_elem_of_fmap_2.
Qed.

(** What a restart puts on the queue is what fits of the open jobs. *)
Lemma re_enqueued t q : re_enqueue capacity t q = q ++ take (capacity - length q) (ListPendingJobs t).
Proof.
  unfold re_enqueue. generalize (ListPendingJobs t). intros l. revert q. induction l as [|r l IH]; intros q; cbn [foldl].
  - by rewrite take_nil, app_nil_r.
  - rewrite IH. unfold enqueueJob. destruct (decide _) as [Hlt|Hge].
    + change (default q (Some (q ++ [r]))) with (q ++ [r]). rewrite length_app. cbn. replace (capacity - length q) with (S (capacity - (length q + 1))) by lia. cbn. by rewrite <- app_assoc.
    + change (default q None) with q. replace (capacity - length q) with 0 by lia. done.
Qed.

Lemma pending_ok t : NoDup (j_ID <$> ingestion_jobs t) → queue_ok t (ListPendingJobs t).
Proof.
  intros Hnd. unfold ListPendingJobs. set (l := go_sort _ _).
  assert (∀ j, j ∈ l ↔ open_status (j_Status j) = true ∧ j ∈ ingestion_jobs t) as Hl by (intros j; unfold l; by rewrite elem_of_go_sort, list_elem_of_filter).
  split.
  - rewrite <- list_fmap_compose. change (NoDup (j_ID <$> l)). unfold l. rewrite go_sort_perm. eapply sublist_NoDup; [exact Hnd|].
    apply fmap_sublist, sublist_filter.
  - intros r (j & -> & [Ho Hj]%Hl)%list_elem_of_fmap. exists j. by split_and!.
Qed.

Lemma queue_prefix t n q : queue_ok t q → queue_ok t (take n q).
Proof.
  intros [Q1 Q2]. split.
  - eapply sublist_NoDup; [exact Q1|]. apply fmap_sublist, sublist_take.
  - intros r Hr. apply Q2. by eapply elem_of_sublist, Hr; apply sublist_take.
Qed.

Lemma restart_ok c : NoDup (j_ID <$> ingestion_jobs (sv_tables c)) → (∀ j, j ∈ ingestion_jobs (sv_tables c) → uuid_ok (j_ID j) = true) →
  system_ok (restart c).
Proof. intros Hnd Hu. split; [done|done|]. cbn. rewrite re_enqueued. cbn. by apply queue_prefix, pending_ok. Qed.

Lemma created at_ params ans sys sys' : create_and_enqueue at_ params sys = (ans, sys') → cj_JobType params ≠ EmptyString → system_ok sys →
  system_ok sys' ∧ grown (jobs_of sys) (jobs_of sys').
Proof.
  intros E Hty [O1 O2 [Q1 Q2]]. unfold Imports.create_and_enqueue in E.
  destruct (CreateJob _ _ _ _ _ _) as [[id t]|] eqn:Ec; [|injection E as _ <-; by split].
  unfold CreateJob in Ec. destruct (negb _); [done|]. destruct (negb _); [done|]. injection Ec as Eid Et.
  set (ids := list_to_set (j_ID <$> ingestion_jobs (sv_tables (latest (sy_run sys))))) in *.
  assert (empty (cj_JobType params) = false) as Hempty by (by apply String.eqb_neq). rewrite Hempty in Et.
  match type of Et with {| ingestion_jobs := _ ++ [?j] |} = _ => set (new := j) in Et end.
  assert (ingestion_jobs t = jobs_of sys ++ [new]) as Ejobs by (by rewrite <- Et). clear Et.
  assert (id ∉ j_ID <$> jobs_of sys) as Hfresh by (rewrite <- Eid; intros Hin; apply (gen_fresh ids), elem_of_list_to_set, Hin).
  assert (j_ID new = id) as Enew by exact Eid.
  assert (∀ run q, sv_tables (latest run) = t → queue_ok t q → system_ok {| sy_run := run; sy_queue := q |}) as Hok.
  { intros run q Er Hq. split; [..|cbn; by rewrite Er]; unfold jobs_of; cbn; rewrite Er, Ejobs.
    - rewrite fmap_app. cbn. apply NoDup_app. split_and!; [done| |apply NoDup_singleton].
      intros x Hx Ex%list_elem_of_singleton. assert (x = id) as -> by (rewrite Ex; exact Enew). done.
    - intros j [Hj| ->%list_elem_of_singleton]%elem_of_app; [by apply O2|]. rewrite Enew, <- Eid. apply gen_ok. }
  assert (queue_ok t (sy_queue sys)) as Hq.
  { split; [done|]. intros r Hr. destruct (Q2 r Hr) as (j & Hj & ?). exists j. rewrite Ejobs. split; [apply elem_of_app; by left|done]. }
  assert (∀ run q, sv_tables (latest run) = t → grown (jobs_of sys) (jobs_of {| sy_run := run; sy_queue := q |})) as Hgrown.
  { intros run q Er. exists (jobs_of sys), [new]. unfold jobs_of at 1. cbn. rewrite Er. split; [done|reflexivity]. }
  unfold enqueueJob in E. destruct (decide _); injection E as _ <-; (split; [apply Hok; [done|]|by apply Hgrown]); [|done].
  destruct Hq as [_ Hq2]. split.
  - rewrite fmap_app. cbn. apply NoDup_app. split_and!; [done| |apply NoDup_singleton]. intros x (r & -> & Hr)%list_elem_of_fmap Hx%list_elem_of_singleton.
    destruct (Q2 r Hr) as (j & Hj & Ej & _). apply Hfresh. rewrite <- Hx, <- Ej. by apply list_elem_of_fmap_2.
  - intros r [Hr| ->%list_elem_of_singleton]%elem_of_app; [by apply Hq2|]. exists new. rewrite Ejobs. split; [apply elem_of_app; right; left|done].
Qed.

(** A state that a job being processed committed. *)
Lemma worked r q o run' new c sys : sy_queue sys = r :: q → processJob (rq_JobID r) (rq_JobType r) (sy_run sys) = (o, run') → system_ok sys →
  latest run' :: earlier run' = new ++ latest (sy_run sys) :: earlier (sy_run sys) → c = latest run' ∨ c ∈ new →
  touches (rq_JobID r) (latest (sy_run sys)) c.
Proof.
  intros Eq E [O1 O2 [Q1 Q2]] Evis Hc. destruct (Q2 r ltac:(rewrite Eq; left)) as (j & Hj & Ej & _ & Ho).
  pose proof (processing_touches (rq_JobID r) (rq_JobType r) (sy_run sys)) as Hp. rewrite E in Hp.
  assert (along (touches (rq_JobID r)) (sy_run sys) run') as (new' & Evis' & Hn).
  { apply Hp; [|rewrite <- Ej; by apply O2]. intros x Hx Ex. by rewrite (job_by_id _ j x O1 Hj Hx ltac:(congruence)). }
  rewrite Evis in Evis'. apply app_inv_tail in Evis' as ->. destruct Hc as [->|Hc]; [|by apply Hn].
  apply along_now; [apply _|]. by exists new'.
Qed.

Lemma step_keeps sys sys' : step sys sys' → system_ok sys → system_ok sys' ∧ grown (jobs_of sys) (jobs_of sys').
Proof.
  intros Hstep Hok. destruct Hstep as [at_ user req ans sys sys' E|at_ user broker source posting ans sys sys' E|at_ user filename a ans sys sys' E
    |r q o run' sys Eq E _|r q o run' new c sys Eq E _ Evis Hc|sys|c sys Ec].
  - unfold Imports.UpsertTxs in E. repeat case_match; try (injection E as _ <-; by split); by eapply created.
  - unfold Imports.CreateTx in E. repeat case_match; try (injection E as _ <-; by split); by eapply created.
  - unfold Imports.ImportUserArchive in E. repeat case_match; try (injection E as _ <-; by split); by eapply created.
  - pose proof (processing_touches (rq_JobID r) (rq_JobType r) (sy_run sys)) as Hp. rewrite E in Hp.
    destruct Hok as [O1 O2 [Q1 Q2]]. destruct (Q2 r ltac:(rewrite Eq; left)) as (j & Hj & Ej & _ & Ho).
    assert (along (touches (rq_JobID r)) (sy_run sys) run') as Ht.
    { apply Hp; [|rewrite <- Ej; by apply O2]. intros x Hx Ex. by rewrite (job_by_id _ j x O1 Hj Hx ltac:(congruence)). }
    apply along_now in Ht; [|apply _]. split; [|by eapply touched_grown]. rewrite Eq in Q1. apply NoDup_cons in Q1 as [Hr Hq]. split.
    + unfold jobs_of. cbn. by rewrite (touched_ids _ _ _ Ht).
    + intros j' Hj'. destruct (touched_back _ _ _ _ Ht Hj') as (x & Hx & ->). by apply O2.
    + eapply queue_touched; [exact Ht|exact Hr|]. split; [done|]. intros x Hx. apply Q2. rewrite Eq. by right.
  - pose proof (worked r q o run' new c sys Eq E Hok Evis ltac:(by right)) as Ht. destruct Hok as [O1 O2 _]. split; [|by eapply touched_grown].
    apply restart_ok; [by rewrite (touched_ids _ _ _ Ht)|]. intros j' Hj'. destruct (touched_back _ _ _ _ Ht Hj') as (x & Hx & ->). by apply O2.
  - destruct Hok as [O1 O2 _]. split; [by apply restart_ok|reflexivity].
  - destruct Hok as [O1 O2 Q]. split; [|unfold jobs_of; cbn; by rewrite Ec]. split; unfold jobs_of; cbn; by rewrite Ec.
Qed.

(** C10: No job is lost.  Over any sequence of requests, jobs processed, crashes at any
    state a job commits, and restarts, every job stays in the table, and while it is open
    it has the payload it was created with, so that a restart can do it again; what is
    queued is an open job, and queued once; and if the open jobs fit on the queue, a
    restart queues every one of them. *)
Theorem no_job_is_lost sys sys' : rtc step sys sys' → system_ok sys →
  system_ok sys' ∧
  (∀ j, j ∈ jobs_of sys → ∃ j', j' ∈ jobs_of sys' ∧ static j' = static j ∧
     (open_status (j_Status j') = true → open_status (j_Status j) = true ∧ j_Payload j' = j_Payload j)) ∧
  (length (ListPendingJobs (sv_tables (latest (sy_run sys')))) ≤ capacity → ∀ j, j ∈ jobs_of sys' → open_status (j_Status j) = true →
     {| rq_JobID := j_ID j; rq_JobType := j_Type j |} ∈ sy_queue (restart (latest (sy_run sys')))).
Proof.
  intros Hsteps Hok. assert (system_ok sys' ∧ grown (jobs_of sys) (jobs_of sys')) as [Hok' Hgrown].
  { revert Hok. induction Hsteps as [sys|sys sys1 sys2 Hs _ IH]; intros Hok; [by split|]. destruct (step_keeps _ _ Hs Hok) as [Hok1 Hg1].
    destruct (IH Hok1) as [Hok2 Hg2]. split; [done|]. by etrans. }
  split_and!; [done| |].
  - intros j [i Hi]%list_elem_of_lookup. destruct Hgrown as (l1 & l2 & E & Hl). destruct (Forall2_lookup_l _ _ _ _ _ Hl Hi) as (j' & Hj'%list_elem_of_lookup_2 & Es & Ho).
    exists j'. split_and!; [rewrite E; apply elem_of_app; by left|done|done].
  - intros Hroom j Hj Ho. cbn. rewrite re_enqueued. cbn [app length]. rewrite Nat.sub_0_r, take_ge by done.
    apply list_elem_of_fmap. exists j. split; [done|]. by apply elem_of_go_sort, list_elem_of_filter.
Qed.
End processing.

Section witnesses.
#[local] Existing Instances QDecimal.q_decimal QDecimal.q_decimal_laws.

(** A purchase of ten, and a hundred of cash out for it. *)
Definition wire_posting (day : Z) (desc qty : string) (price amount : option string) (t : TxType) (hints : list WireIdentifier) : ArchivePosting := {|
  ap_OrderDate := Some (day_start day); ap_TradeDate := Some (day_start day); ap_InstrumentDescription := desc; ap_BrokerTxType := [t];
  ap_AssetClassHint := EmptyString; ap_Quantity := qty; ap_UnitPrice := price; ap_SettlementAmount := amount; ap_Account := "acc";
  ap_AccountType := ACCOUNT_TYPE_UNSPECIFIED; ap_TradingCurrency := "USD"; ap_SettlementCurrency := "USD"; ap_Correlations := [];
  ap_IdentifierHints := hints; ap_ShareCountBasis := EmptyString |}.

Definition bought : list ArchivePosting :=
  [ wire_posting 3 "ACME" "10" (Some "10") (Some "100") TRADE_ASSET [hint "ISIN" EmptyString "US0001"];
    wire_posting 3 "USD" "-100" None None TRADE_CASH [hint "CURRENCY" EmptyString "USD"] ].

Definition fortnight (broker : Posting.Broker) (ps : list ArchivePosting) : TxWindow := {|
  tw_Broker := broker; tw_Source := "FIDELITY:web:csv"; tw_PeriodFrom := Some (day_start 1); tw_PeriodBefore := Some (day_start 15); tw_Postings := ps |}.

Definition bulk : UpsertTxsRequest := {| ur_Window := fortnight Posting.FIDELITY bought; ur_Filename := "positions"; ur_ExportedAt := Some 30%Z |}.

(** Its second window names no broker, and the second declaration no decimal. *)
Definition backup : UserArchive := {|
  ua_Envelope := Some {| env_FormatVersion := 1; env_ExportedAt := None; env_Kind := USER |};
  ua_Preferences := Some (Some "GBP");
  ua_Txs := Some [fortnight Posting.FIDELITY bought; fortnight Posting.BROKER_UNSPECIFIED []];
  ua_Declarations := Some [{| st_Broker := Posting.FIDELITY; st_Account := "acc"; st_AsOfDate := "the fifth"; st_Declarations :=
    [{| ad_Instrument := named "ISIN" EmptyString "US0001"; ad_DeclaredQty := "7"; ad_ShareCountBasis := None |};
     {| ad_Instrument := named "ISIN" EmptyString "US0001"; ad_DeclaredQty := "seven"; ad_ShareCountBasis := None |}] |}] |}.

(** The single posting [CreateTx] wraps, as it is read back. *)
Definition single (x : ArchivePosting) : UpsertTxsRequest := {|
  ur_Window := {| tw_Broker := Posting.FIDELITY; tw_Source := "FIDELITY:web:csv"; tw_PeriodFrom := None; tw_PeriodBefore := None; tw_Postings := [x] |};
  ur_Filename := EmptyString; ur_ExportedAt := Some 30%Z |}.

Definition gift : ArchivePosting := wire_posting 3 "ACME" "10" None None TRANSFER [hint "ISIN" EmptyString "US0001"].

Definition read_request (s : string) : option UpsertTxsRequest :=
  if String.eqb s "bulk" then Some bulk else if String.eqb s "single" then Some (single gift) else None.
Definition write_request (req : UpsertTxsRequest) : option string :=
  Some (if bool_decide (is_Some (tw_PeriodFrom (ur_Window req))) then "bulk" else "single").
Definition read_archive (s : string) : option UserArchive := if String.eqb s "backup" then Some backup else None.
Definition the_fifth (s : string) : option Z := if String.eqb s "the fifth" then Some 5%Z else None.
Definition said (e : import_error) : string := match e with UnknownBroker _ => "unknown broker" | NotADecimal _ => "not a decimal" | _ => "error" end.

(** Room for one job at a time. *)
Definition run_job (job type : string) : trace (server Q) → job_outcome * trace (server Q) :=
  processJob sample_gen sample_ok sample_mic sample_parse sample_country dec_div (λ _, 2%Z) (Some (engine_settler sample_ok DefaultOpts))
    [] (λ _, None) None (λ x, x) (Some ticks) 20 9 the_fifth (λ _, "7") Some Qdiv id read_request read_archive said job type.

Definition sample_step : system Q → system Q → Prop :=
  step sample_gen sample_ok sample_mic sample_parse sample_country dec_div (λ _, 2%Z) (Some (engine_settler sample_ok DefaultOpts))
    [] (λ _, None) None (λ x, x) (Some ticks) 20 9 the_fifth (λ _, "7") Some Qdiv id read_request read_archive said
    write_request (λ _, Some "backup") 1.

Definition no_jobs : tables := {| ingestion_jobs := []; ingestion_job_parts := []; validation_errors := []; identification_errors := [] |}.

Definition fresh_server : server Q := {|
  sv_tables := no_jobs; sv_users := <["user" := "USD"]> ∅; sv_saved := []; sv_attempts := [];
  sv_state := {| mkt := {| shop := seeded; stock_splits := []; eod_prices := ∅; adjusted_txs := ∅; adjusted_prices := ∅; unhandled := [] |};
                 decls := [] |} |}.

Definition idle : system Q := {| sy_run := {| latest := fresh_server; earlier := [] |}; sy_queue := [] |}.

Definition uploading : system Q := (UpsertTxs sample_gen sample_ok write_request 1 30 "user" bulk idle).2.
Definition queue_full : system Q := (ImportUserArchive sample_gen sample_ok (λ _, Some "backup") 1 31 "user" "backup.json" backup uploading).2.

Definition quantities (c : server Q) : list Q := r_quantity <$> filter (λ t, r_account_type t = "USER") (txs (book (shop_of c))).
Definition parts_of (c : server Q) : list (string * string * Z * Z) :=
  (λ r, (pt_Part r, pt_Status r, pt_TotalCount r, pt_ProcessedCount r)) <$> ingestion_job_parts (sv_tables c).
Definition statuses (c : server Q) : list (string * bool) := (λ j, (j_Status j, bool_decide (is_Some (j_Payload j)))) <$> ingestion_jobs (sv_tables c).

(** The job of the archive, which was refused a place on the queue. *)
Definition archive_job : job := default {| j_ID := EmptyString; j_UserID := EmptyString; j_Type := EmptyString; j_Broker := None; j_Source := None;
  j_Filename := None; j_PeriodFrom := None; j_PeriodBefore := None; j_Status := EmptyString; j_TotalCount := 0; j_ProcessedCount := 0;
  j_Payload := None; j_CreatedAt := 0 |} (last (jobs_of queue_full)).

(** What a crash leaves of a run that had so many commits to come. *)
Definition crashed (n : nat) (w : trace (server Q)) : server Q := default fresh_server (earlier w !! n).

Lemma seeded_sound : sound sample_ok sample_mic fresh_server.
Proof. apply seeded_whole. Qed.

Lemma importing_sound : sound sample_ok sample_mic (latest (sy_run queue_full)).
Proof. change (sound sample_ok sample_mic fresh_server). apply seeded_sound. Qed.

Lemma backup_types x : x ∈ [fortnight Posting.FIDELITY bought; fortnight Posting.BROKER_UNSPECIFIED []] → in_vocabulary x.
Proof.
  intros Hx p t Hp Ht. apply list_elem_of_In in Hx, Hp, Ht. destruct Hx as [<-|[<-|[]]]; [|by destruct Hp].
  destruct Hp as [<-|[<-|[]]]; by destruct Ht as [<-|[]].
Qed.

Lemma archive_ready : ready sample_ok archive_job (latest (sy_run queue_full)).
Proof.
  split; [done| |by right; left|done|]; [apply (bool_decide_unpack _); by vm_compute|].
  exists [PREFERENCES; TXS; DECLARATIONS]. split_and!; [|apply (bool_decide_unpack _); by vm_compute|done]. apply (bool_decide_unpack _). by vm_compute.
Qed.

Lemma archive_well_formed : well_formed read_request read_archive archive_job (sv_tables (latest (sy_run queue_full))).
Proof.
  assert (read_archive (default EmptyString (j_Payload archive_job)) = Some backup) as Eb by (by vm_compute).
  right. split; [by vm_compute|]. cbv zeta. rewrite Eb. intros a [= <-]. split; [by intros ws x [= <-] Hx; apply backup_types|done].
Qed.

(** The part that names an unknown broker fails, and the job with it; what its other
    parts hold is imported, but for the row that is no decimal. *)
Lemma job_comes_to_an_end_witness :
  let r := run_job (j_ID archive_job) (j_Type archive_job) (sy_run queue_full) in
  (parts_of (latest r.2), quantities (latest r.2), sv_users (latest r.2) !! "user")
    = ([("PREFERENCES", "SUCCESS", 1, 1); ("TXS", "FAILED", 2, 2); ("DECLARATIONS", "SUCCESS", 2, 2)]%Z, [10; -100; -3]%Q, Some "GBP") ∧
  ∃ triggers j', r.1 = Processed false triggers ∧ j' ∈ ingestion_jobs (sv_tables (latest r.2)) ∧ static j' = static archive_job ∧
    j_Payload j' = None ∧ j_Status j' = "FAILED".
Proof.
  cbv zeta. split; [by vm_compute|].
  assert (match (run_job (j_ID archive_job) (j_Type archive_job) (sy_run queue_full)).1 with Processed ok _ => ok | _ => true end = false) as Eo by (by vm_compute).
  destruct (job_comes_to_an_end sample_gen sample_ok sample_mic sample_parse sample_country dec_div (λ _, 2%Z)
    (Some (engine_settler sample_ok DefaultOpts)) [] (λ _, None) None (λ x, x) (Some ticks) 20 9 the_fifth (λ _, "7") Some Qdiv id
    read_request read_archive said sample_gen_fresh sample_gen_ok eq_refl (settler_lawful := engine_settler_lawful sample_ok DefaultOpts)
    archive_job (sy_run queue_full)) as (ok & triggers & w & E & (j' & Hj') & _).
  - apply importing_sound.
  - apply archive_ready.
  - apply archive_well_formed.
  - change (run_job (j_ID archive_job) (j_Type archive_job) (sy_run queue_full) = (Processed ok triggers, w)) in E. rewrite E in Eo |- *.
    cbn in Eo. subst ok. exists triggers, j'. split; [reflexivity|exact Hj'].
Defined.

Lemma failed_jobs_say_why_witness :
  let r := run_job (j_ID archive_job) (j_Type archive_job) (sy_run queue_full) in
  r.1 = Processed false [TransferMatchTrigger; GroupingTrigger; PriceTrigger] ∧
  (∃ p, p ∈ ingestion_job_parts (sv_tables (latest r.2)) ∧ pt_JobID p = j_ID archive_job ∧ pt_Status p = "FAILED" ∧ is_Some (pt_Message p)) ∧
  (λ e, (er_Part e, ve_RowIndex (er_Error e), ve_Message (er_Error e))) <$> validation_errors (sv_tables (latest r.2))
    = [(Some "TXS", 2%Z, "unknown broker"); (Some "DECLARATIONS", 1%Z, "not a decimal")].
Proof.
  cbv zeta. assert ((run_job (j_ID archive_job) (j_Type archive_job) (sy_run queue_full)).1
    = Processed false [TransferMatchTrigger; GroupingTrigger; PriceTrigger]) as Eo by (by vm_compute).
  split_and!; [exact Eo| |by vm_compute].
  destruct (failed_jobs_say_why sample_gen sample_ok sample_mic sample_parse sample_country dec_div (λ _, 2%Z)
    (Some (engine_settler sample_ok DefaultOpts)) [] (λ _, None) None (λ x, x) (Some ticks) 20 9 the_fifth (λ _, "7") Some Qdiv id
    read_request read_archive said sample_gen_fresh sample_gen_ok eq_refl (settler_lawful := engine_settler_lawful sample_ok DefaultOpts)
    archive_job (sy_run queue_full) [TransferMatchTrigger; GroupingTrigger; PriceTrigger] (run_job (j_ID archive_job) (j_Type archive_job) (sy_run queue_full)).2
    importing_sound archive_ready archive_well_formed) as (_ & _ & Hwhy).
  - rewrite <- Eo. apply surjective_pairing.
  - assert (read_archive (default EmptyString (j_Payload archive_job)) = Some backup) as Eb by (by vm_compute).
    rewrite Eb in Hwhy. apply Hwhy. by vm_compute.
Defined.

(** The archive's import, as a worker and a restart run it. *)
Definition import_from (c : server Q) : option (userImportResult * string) * trace (server Q) :=
  processUserImport sample_gen sample_ok sample_mic sample_parse sample_country dec_div (λ _, 2%Z) (Some (engine_settler sample_ok DefaultOpts))
    [] (λ _, None) None (λ x, x) (Some ticks) 20 9 the_fifth (λ _, "7") Some Qdiv read_archive said (j_ID archive_job) {| latest := c; earlier := [] |}.

(** Interrupted between the preferences and the transactions. *)
Definition halfway : server Q := crashed 15 (import_from (latest (sy_run queue_full))).2.

Lemma parts_left (c : server Q) p :
  p ∉ pr_Part <$> filter (λ pr, pr_Status pr ≠ SUCCESS) (default [] (jd_Parts <$> GetJob sample_ok (j_ID archive_job) (sv_tables c))) →
  ¬ unfinished sample_ok (j_ID archive_job) c p.
Proof.
  intros Hp (d & E & pr & Hpr & <- & Hs). apply Hp. rewrite E. apply list_elem_of_fmap_2. by apply list_elem_of_filter.
Qed.

Lemma sound_users u (c : server Q) : sound sample_ok sample_mic c → sound sample_ok sample_mic (with_users u c).
Proof. done. Qed.

(** Taken up again, the import leaves the display currency to whoever has changed it. *)
Definition changed : server Q := with_users (<["user" := "CHF"]> (sv_users halfway)) halfway.

Lemma imports_keep_the_books_witness :
  sv_users halfway !! "user" = Some "GBP" ∧ quantities halfway = [] ∧ quantities (latest (import_from changed).2) = [10; -100]%Q ∧
  sv_users (latest (import_from changed).2) !! "user" = Some "CHF" ∧ sound sample_ok sample_mic (latest (import_from changed).2).
Proof.
  assert (∀ c, sound sample_ok sample_mic c → let w := (import_from c).2 in ∀ x, x ∈ latest w :: earlier w → sound sample_ok sample_mic x ∧
    (¬ unfinished sample_ok (j_ID archive_job) c PREFERENCES → sv_users x = sv_users c)) as Hk.
  { intros c Hs. destruct (imports_keep_the_books sample_gen sample_ok sample_mic sample_parse sample_country dec_div (λ _, 2%Z)
      (Some (engine_settler sample_ok DefaultOpts)) [] (λ _, None) None (λ x, x) (Some ticks) 20 9 the_fifth (λ _, "7") Some Qdiv
      read_request read_archive said sample_gen_fresh sample_gen_ok eq_refl (settler_lawful := engine_settler_lawful sample_ok DefaultOpts)
      (j_ID archive_job) "user" {| latest := c; earlier := [] |}) as [_ Hk]; [by vm_compute|done|].
    change (processUserImport _ _ _ _ _ _ _ _ _ _ _ _ _ _ _ _ _ _ _ _ _ _ _) with (import_from c) in Hk. destruct (import_from c) as [res w].
    intros w1 x Hx. destruct (Hk x Hx) as [[]%elem_of_nil|(A & B & _)]. by split. }
  assert (sound sample_ok sample_mic halfway) as Hh.
  { assert (bool_decide (is_Some (earlier (import_from (latest (sy_run queue_full))).2 !! 15)) = true) as [c Ec]%bool_decide_eq_true by (by vm_compute).
    unfold halfway, crashed. rewrite Ec. eapply (Hk (latest (sy_run queue_full)) importing_sound). right. by eapply list_elem_of_lookup_2. }
  destruct (Hk changed (sound_users _ halfway Hh) (latest (import_from changed).2) (list_elem_of_here _ _)) as [Hs Hu].
  split_and!; [by vm_compute..| |exact Hs]. rewrite Hu; [by vm_compute|]. apply parts_left, (bool_decide_unpack _). by vm_compute.
Defined.

(** The upload is interrupted once its postings are stored. *)
Definition upload_run : trace (server Q) := (run_job (ticks 1) JobTypeTx (sy_run queue_full)).2.
Definition interrupted : system Q := restart 1 (crashed 2 upload_run).

Lemma to_interrupted : rtc sample_step idle interrupted.
Proof.
  eapply (rtc_l _ _ uploading); [eapply step_upsert; exact (surjective_pairing (UpsertTxs sample_gen sample_ok write_request 1 30 "user" bulk idle))|].
  eapply (rtc_l _ _ queue_full);
    [eapply step_import; exact (surjective_pairing (ImportUserArchive sample_gen sample_ok (λ _, Some "backup") 1 31 "user" "backup.json" backup uploading))|].
  apply rtc_once. apply step_crash with (r := {| rq_JobID := ticks 1; rq_JobType := JobTypeTx |}) (q := [])
    (o := (run_job (ticks 1) JobTypeTx (sy_run queue_full)).1) (run' := upload_run) (new := take 9 (latest upload_run :: earlier upload_run)).
  - by vm_compute.
  - exact (surjective_pairing (run_job (ticks 1) JobTypeTx (sy_run queue_full))).
  - by vm_compute.
  - change (latest upload_run :: earlier upload_run = take 9 (latest upload_run :: earlier upload_run) ++ latest (sy_run queue_full) :: earlier (sy_run queue_full)).
    rewrite <- (take_drop 9 (latest upload_run :: earlier upload_run)) at 1. f_equal.
  - apply list_elem_of_lookup. exists 3. by vm_compute.
Qed.

(** Whatever happens next, both jobs are there, and open ones have their documents. *)
Lemma no_job_is_lost_witness :
  statuses (latest (sy_run interrupted)) = [("RUNNING", true); ("PENDING", true)] ∧ system_ok sample_ok interrupted ∧
  ListPendingJobs (sv_tables (latest (sy_run interrupted)))
    = [{| rq_JobID := ticks 1; rq_JobType := JobTypeTx |}; {| rq_JobID := ticks 2; rq_JobType := JobTypeUserArchive |}].
Proof.
  destruct (no_job_is_lost sample_gen sample_ok sample_mic sample_parse sample_country dec_div (λ _, 2%Z)
    (Some (engine_settler sample_ok DefaultOpts)) [] (λ _, None) None (λ x, x) (Some ticks) 20 9 the_fifth (λ _, "7") Some Qdiv id
    read_request read_archive said sample_gen_fresh sample_gen_ok eq_refl (settler_lawful := engine_settler_lawful sample_ok DefaultOpts)
    write_request (λ _, Some "backup") 1 idle interrupted to_interrupted) as (Hok & _ & _).
  - split; [by constructor|by intros j ?%elem_of_nil|]. split; [by constructor|by intros r ?%elem_of_nil].
  - split_and!; [by vm_compute|exact Hok|by vm_compute].
Defined.

(** A posting appended twice: the crash comes between its being stored and the job's end. *)
Lemma appends_are_redone :
  let sys := (CreateTx sample_gen sample_ok write_request 1 30 "user" Posting.FIDELITY "FIDELITY:web:csv" (Some gift) idle).2 in
  let c := crashed 2 (run_job (ticks 1) JobTypeTx (sy_run sys)).2 in
  let again := (run_job (ticks 1) JobTypeTx (sy_run (restart 1 c))).2 in
  sy_queue (restart 1 c) = [{| rq_JobID := ticks 1; rq_JobType := JobTypeTx |}] ∧ quantities c = [10]%Q ∧
  quantities (latest again) = [10; 10]%Q ∧ statuses (latest again) = [("SUCCESS", false)] ∧
  (λ j, (j_TotalCount j, j_ProcessedCount j)) <$> ingestion_jobs (sv_tables (latest again)) = [(1, 2)]%Z.
Proof. by vm_compute. Qed.

(** An archive answered with Unavailable is imported all the same, after a restart. *)
Lemma refused_is_imported :
  (ImportUserArchive sample_gen sample_ok (λ _, Some "backup") 1 31 "user" "backup.json" backup uploading).1 = inl Unavailable ∧
  sy_queue (restart 1 (latest (run_job (ticks 1) JobTypeTx (sy_run queue_full)).2)) = [{| rq_JobID := j_ID archive_job; rq_JobType := JobTypeUserArchive |}].
Proof. by vm_compute. Qed.

(** A problem found before anything is resolved is numbered within its window, not
    within the part: this one's posting is the third. *)
Lemma window_rows_restart :
  let nameless := wire_posting 3 EmptyString "10" None None TRANSFER [] in
  let part := Imports.importTxPart sample_gen sample_ok sample_mic sample_parse sample_country dec_div (λ _, 2%Z) (Some (engine_settler sample_ok DefaultOpts))
    [] (λ _, None) None (λ x, x) (Some ticks) 20 9 the_fifth Qdiv said in
  let rep := (part "user" "job" [fortnight Posting.FIDELITY bought; fortnight Posting.SCHB [nameless]] None (NewPartReporter "job" TXS) (sy_run idle)).1.2 in
  (λ e, (ve_RowIndex e, ve_Field e)) <$> rp_Errs rep = [(0%Z, "instrument_description")].
Proof. by vm_compute. Qed.
End witnesses.
End Recovery.
