(* ===== verification/Exports.v ===== *)
(** * The export of a user's archive

    service/api/user_archive.go and txs_export.go over the reads of db/postgres/txs.go and
    declarations.go: the preferences, the transactions cut into one window per broker, and
    the declarations cut into one statement per account and date; and the identifier an
    instrument is named by in a file, db/postgres/identifier_priority.go.

    An export is the list of what its stream carries.  [fmt_date] and [dec_text] write a
    date and a decimal; rows a query leaves tied come in the order they were written.  The
    selection of parts, the log lines of skipped rows and the stream are not modelled. *)

From Stdlib Require Import QArith.
From S2P Require Import Prelude GoStrings Calendar Decimal TxType Posting Neighbourhood Residual Derivative Ledger Instruments Weigh Splits Declarations Reconcile Identity Resolve Validate Ingest Jobs Imports.

Local Open Scope nat_scope.

Module Exports.
Import GoStrings Calendar TxType Posting Neighbourhood Residual Derivative Ledger Instruments Weigh Splits Declarations Reconcile Identity Resolve Validate Ingest Jobs Imports.

(** ** The name of an instrument in a file *)

Definition identifierPriorityOrder (t : string) : nat :=
  match list_find (λ x, x = t) ["MIC_TICKER"; "OPENFIGI_TICKER"; "OCC"; "ISIN"; "OPENFIGI_SHARE_CLASS"; "OPENFIGI_COMPOSITE"; "CUSIP"; "SEDOL";
      "OPRA"; "BROKER_DESCRIPTION"] with
  | Some (i, _) => S i
  | None => 99
  end.

Definition priority_cmp : identifier → identifier → comparison :=
  cmp_on (λ r, identifierPriorityOrder (ref_Type (ii_Ref (naming r)))) Nat.compare.

(** Only names still in force are candidates. *)
Definition bestIdentifierJoinOn (id : string) (ids : list identifier) : option InstrumentRef :=
  (λ r, ii_Ref (naming r)) <$>
    head (go_sort (less_of priority_cmp) (filter (λ r, holder r = id ∧ ii_ValidBefore (naming r) = None) ids)).

(** The names of the enum, but for the unspecified one. *)
Definition IdentifierType_names : list string :=
  ["ISIN"; "CUSIP"; "SEDOL"; "CINS"; "WERTPAPIER"; "OCC"; "OPRA"; "FUT_OPT"; "OPENFIGI_GLOBAL"; "OPENFIGI_SHARE_CLASS"; "OPENFIGI_COMPOSITE";
   "BROKER_DESCRIPTION"; "CURRENCY"; "FX_PAIR"; "MIC_TICKER"; "OPENFIGI_TICKER"].

Definition IDENTIFIER_TYPE_UNSPECIFIED : string := "IDENTIFIER_TYPE_UNSPECIFIED".

(** A value of the enum is its name. *)
Definition identifierTypeFromString (s : string) : string :=
  if bool_decide (s ∈ IdentifierType_names) then s else IDENTIFIER_TYPE_UNSPECIFIED.

Definition archiveRef (r : InstrumentRef) : Identifier :=
  {| id_Type := identifierTypeFromString (ref_Type r); id_Domain := ref_Domain r; id_Value := ref_Value r |}.

Section exports.
Context {D : Type} `{Decimal D}.
Context (uuid_ok : string → bool) (parse_dec : string → option D) (dec_text : D → string) (fmt_date : Z → string).
Implicit Types (s : state D) (t : row D) (c : server D).

(** ** The declarations *)

Record ExportDeclaration := {
  ed_Broker : string;
  ed_Account : string;
  ed_Ref : option InstrumentRef;
  ed_DeclaredQty : D;
  ed_AsOfDate : Z;
  ed_ShareCountBasis : option Z;
}.

(** [ORDER BY d.broker, d.account, d.as_of_date, d.instrument_id] *)
Definition export_cmp : declaration → declaration → comparison :=
  cmp_on (λ d, (hk_broker (d_holding d), (hk_account (d_holding d), (d_AsOfDate d, hk_instrument (d_holding d)))))
    (cmp_lex String.compare (cmp_lex String.compare (cmp_lex Z.compare String.compare))).

(** A quantity that is no decimal fails the scan. *)
Definition export_row s (d : declaration) : option ExportDeclaration :=
  q ← parse_dec (d_DeclaredQty d);
  Some {| ed_Broker := hk_broker (d_holding d); ed_Account := hk_account (d_holding d);
          ed_Ref := bestIdentifierJoinOn (hk_instrument (d_holding d)) (identifiers (shop (mkt s)));
          ed_DeclaredQty := q; ed_AsOfDate := d_AsOfDate d;
          ed_ShareCountBasis := if decide (d_ShareCountBasis d = d_AsOfDate d) then None else Some (d_ShareCountBasis d) |}.

Definition ListHoldingDeclarationsForExport (user : string) s : option (list ExportDeclaration) :=
  if negb (uuid_ok user) then None
  else mapM (export_row s) (go_sort (less_of export_cmp) (filter (λ d, hk_user (d_holding d) = user) (decls s))).

(** The declaration a row is written as, unless this build cannot name it. *)
Definition written_declaration (r : ExportDeclaration) : option ArchiveDeclaration :=
  if decide (StrToBroker (ed_Broker r) = Posting.BROKER_UNSPECIFIED) then None else
  match ed_Ref r with
  | None => None
  | Some ref =>
      if empty (ref_Value ref) || String.eqb (identifierTypeFromString (ref_Type ref)) IDENTIFIER_TYPE_UNSPECIFIED then None
      else Some {| ad_Instrument := archiveRef ref; ad_DeclaredQty := dec_text (ed_DeclaredQty r);
                   ad_ShareCountBasis := fmt_date <$> ed_ShareCountBasis r |}
  end.

Definition scope_of (r : ExportDeclaration) : string * string * Z := (ed_Broker r, ed_Account r, ed_AsOfDate r).

Definition new_statement (r : ExportDeclaration) : Statement :=
  {| st_Broker := StrToBroker (ed_Broker r); st_Account := ed_Account r; st_AsOfDate := fmt_date (ed_AsOfDate r); st_Declarations := [] |}.

Definition add_declaration (d : ArchiveDeclaration) (st : Statement) : Statement :=
  {| st_Broker := st_Broker st; st_Account := st_Account st; st_AsOfDate := st_AsOfDate st; st_Declarations := st_Declarations st ++ [d] |}.

(** A statement that is left empty is not sent. *)
Definition closeStatement (cur : option (Statement * (string * string * Z))) : list Statement :=
  match cur with
  | Some (st, _) => match st_Declarations st with [] => [] | _ => [st] end
  | None => []
  end.

(** The loop, with the statement being written and what it is of. *)
Fixpoint statements_from (cur : option (Statement * (string * string * Z))) (rows : list ExportDeclaration) : list Statement :=
  match rows with
  | [] => closeStatement cur
  | r :: rows =>
      match written_declaration r with
      | None => statements_from cur rows
      | Some d =>
          let fresh := Some (add_declaration d (new_statement r), scope_of r) in
          match cur with
          | Some (st, k) =>
              if decide (k = scope_of r) then statements_from (Some (add_declaration d st, k)) rows
              else closeStatement cur ++ statements_from fresh rows
          | None => statements_from fresh rows
          end
      end
  end.

Definition declarationStatements (rows : list ExportDeclaration) : list Statement := statements_from None rows.

(** ** The transactions *)

Record ExportPosting := {
  ep_Broker : string;
  ep_ID : string;
  ep_GroupID : string;
  ep_GroupTimestamp : Z;
  ep_OrderDate : Z;
  ep_TradeDate : Z;
  ep_Account : string;
  ep_AccountType : string;
  ep_BrokerTxTypes : list string;
  ep_AssetClassHint : string;
  ep_Description : string;
  ep_Ref : option InstrumentRef;
  ep_Quantity : D;
  ep_UnitPrice : option D;
  ep_SettlementAmount : option D;
  ep_TradingCurrency : string;
  ep_SettlementCurrency : string;
  ep_ShareCountBasis : option Z;
  ep_Correlations : list Correlation;
}.

(** What a source stated, in a group without a pad, in the period. *)
Definition exported_row (user : string) (from before : option Z) (l : ledger D) t : bool :=
  String.eqb (r_user t) user && bool_decide (r_purpose t = None)
  && negb (existsb (λ x, String.eqb (r_group x) (r_group t) && bool_decide (r_purpose x = Some Declarations.InitializePurpose)) (txs l))
  && match from with Some f => (f <=? r_order_date t)%Z | None => true end
  && match before with Some b => (r_order_date t <? b)%Z | None => true end.

Definition export_posting (ids : list identifier) (x : row D * group) : ExportPosting :=
  let t := x.1 in {|
  ep_Broker := r_broker t; ep_ID := r_id t; ep_GroupID := r_group t; ep_GroupTimestamp := g_timestamp x.2; ep_OrderDate := r_order_date t;
  ep_TradeDate := r_trade_date t; ep_Account := r_account t; ep_AccountType := r_account_type t; ep_BrokerTxTypes := r_broker_types t;
  ep_AssetClassHint := default EmptyString (r_asset_class t); ep_Description := r_description t;
  ep_Ref := r_instrument t ≫= λ id, bestIdentifierJoinOn id ids; ep_Quantity := r_quantity t; ep_UnitPrice := r_unit_price t;
  ep_SettlementAmount := r_settlement_amount t; ep_TradingCurrency := default EmptyString (r_trading t);
  ep_SettlementCurrency := default EmptyString (r_settlement t);
  ep_ShareCountBasis := b ← r_share_basis t; (if decide (b = day_of (r_trade_date t)) then None else Some b);
  ep_Correlations := r_correlations t |}.

(** [ORDER BY t.broker, g.timestamp, g.id, t.order_date, t.id] *)
Definition posting_cmp : ExportPosting → ExportPosting → comparison :=
  cmp_on (λ r, (ep_Broker r, (ep_GroupTimestamp r, (ep_GroupID r, (ep_OrderDate r, ep_ID r)))))
    (cmp_lex String.compare (cmp_lex Z.compare (cmp_lex String.compare (cmp_lex Z.compare String.compare)))).

Definition ListTxsForExport (user : string) (from before : option Z) (s : store D) : option (list ExportPosting) :=
  if negb (uuid_ok user) then None else
  let l := book s in
  let rows := omap (λ t, if exported_row user from before l t then (t,.) <$> tx_groups l !! r_group t else None) (txs l) in
  Some (go_sort (less_of posting_cmp) (export_posting (identifiers s) <$> rows)).

Definition StrToAccountType (s : string) : AccountType :=
  default ACCOUNT_TYPE_UNSPECIFIED (List.find (λ a, bool_decide (AccountTypeToStr a = Some s))
    [ACCOUNT_TYPE_USER; ACCOUNT_TYPE_EQUITY; ACCOUNT_TYPE_INCOME; ACCOUNT_TYPE_EXPENSE; ACCOUNT_TYPE_IMBALANCE; ACCOUNT_TYPE_TRANSFER_CLEARING;
     ACCOUNT_TYPE_SOURCE_ROUNDING]).

(** Enums without a type of their own are their names; the unspecified value is empty. *)
Definition StrToAssetClass (s : string) : string := if bool_decide (s ∈ ValidAssetClasses) then s else EmptyString.
Definition StrToScope (s : string) : option string := if bool_decide (s ∈ [Posting.ScopeFile; Posting.ScopeAccount; Posting.ScopeBroker]) then Some s else None.
Definition StrToMatch (s : string) : option string :=
  if bool_decide (s ∈ [Posting.MatchExact; Posting.MatchOrdinal; Posting.MatchAccount; Posting.MatchAttaches]) then Some s else None.

Definition correlation (c : Correlation) : WireCorrelation := {|
  wc_Label := Label c; wc_Token := Token c; wc_Ordinal := Ordinal c; wc_Scope := StrToScope (Posting.Scope c);
  wc_Match := StrToMatch <$> Posting.Match c; wc_OrdinalSpan := OrdinalSpan c |}.

Definition posting (r : ExportPosting) : ArchivePosting := {|
  ap_OrderDate := Some (ep_OrderDate r); ap_TradeDate := Some (ep_TradeDate r); ap_InstrumentDescription := ep_Description r;
  ap_BrokerTxType := StrsToTxTypes (ep_BrokerTxTypes r); ap_AssetClassHint := StrToAssetClass (ep_AssetClassHint r);
  ap_Quantity := dec_text (ep_Quantity r); ap_UnitPrice := dec_text <$> ep_UnitPrice r; ap_SettlementAmount := dec_text <$> ep_SettlementAmount r;
  ap_Account := ep_Account r; ap_AccountType := StrToAccountType (ep_AccountType r); ap_TradingCurrency := ep_TradingCurrency r;
  ap_SettlementCurrency := ep_SettlementCurrency r; ap_Correlations := correlation <$> ep_Correlations r;
  ap_IdentifierHints := match ep_Ref r with
    | Some ref => if empty (ref_Type ref) then [] else
        [{| wi_Type := if bool_decide (ref_Type ref ∈ IdentifierType_names) then Some (ref_Type ref) else None; wi_Value := ref_Value ref; wi_Domain := ref_Domain ref |}]
    | None => []
    end;
  ap_ShareCountBasis := default EmptyString (fmt_date <$> ep_ShareCountBasis r) |}.

(** The window of a broker that is being filled: its first order date, and its last so far. *)
Record open_window := { ow_Broker : string; ow_from : Z; ow_last : Z; ow_Postings : list ArchivePosting }.

Definition start_window (r : ExportPosting) : open_window :=
  {| ow_Broker := ep_Broker r; ow_from := ep_OrderDate r; ow_last := ep_OrderDate r; ow_Postings := [posting r] |}.

Definition extend_window (o : open_window) (r : ExportPosting) : open_window :=
  {| ow_Broker := ow_Broker o; ow_from := ow_from o; ow_last := ep_OrderDate r; ow_Postings := ow_Postings o ++ [posting r] |}.

Definition window_source (broker : string) : string := broker +:+ ":archive:export".

Definition closeWindow (from before : option Z) (o : open_window) : TxWindow := {|
  tw_Broker := StrToBroker (ow_Broker o); tw_Source := window_source (ow_Broker o);
  tw_PeriodFrom := Some (default (ow_from o) from); tw_PeriodBefore := Some (default (day_start (day_of (ow_last o) + 1)) before);
  tw_Postings := ow_Postings o |}.

Fixpoint windows_from (from before : option Z) (cur : option open_window) (rows : list ExportPosting) : list TxWindow :=
  match rows with
  | [] => closeWindow from before <$> option_list cur
  | r :: rows =>
      match cur with
      | Some o => if decide (ep_Broker r = ow_Broker o) then windows_from from before (Some (extend_window o r)) rows
                  else closeWindow from before o :: windows_from from before (Some (start_window r)) rows
      | None => windows_from from before (Some (start_window r)) rows
      end
  end.

Definition txWindows (rows : list ExportPosting) (from before : option Z) : list TxWindow := windows_from from before None rows.

(** ** The archive *)

(** The display currency is always stated. *)
Definition sendPreferencePart (user : string) c : option (option string) :=
  currency ← (if uuid_ok user then sv_users c !! user else None);
  Some (if empty currency then None else Some currency).

Definition sendTxPart (user : string) (from before : option Z) c : option (list TxWindow) :=
  rows ← ListTxsForExport user from before (shop (mkt (sv_state c)));
  Some (txWindows rows from before).

Definition sendDeclarationPart (user : string) c : option (list Statement) :=
  declarationStatements <$> ListHoldingDeclarationsForExport user (sv_state c).

(** Every part, as a reader of the stream puts them together. *)
Definition ExportUserArchive (user : string) (from before : option Z) (now : Z) c : option UserArchive :=
  if match from, before with Some f, Some b => (b <=? f)%Z | _, _ => false end then None else
  preferences ← sendPreferencePart user c;
  ws ← sendTxPart user from before c;
  statements ← sendDeclarationPart user c;
  Some {| ua_Envelope := Some {| env_FormatVersion := FormatVersion; env_ExportedAt := Some now; env_Kind := USER |};
          ua_Preferences := Some preferences; ua_Txs := Some ws; ua_Declarations := Some statements |}.
End exports.
#[global] Arguments ExportDeclaration : clear implicits.
#[global] Arguments ExportPosting : clear implicits.

(** ** The declarations come back *)

Section roundtrip.
Context {D : Type} `{DecimalLaws D}.
Context (gen_uuid : gset string → string) (uuid_ok : string → bool).
Context (parse_dec : string → option D) (parse_date : string → option Z) (dec_text : D → string) (fmt_date : Z → string).
Context (numeric_text : string → option string) (error_text : import_error → string).
Hypothesis date_read : ∀ d, parse_date (fmt_date d) = Some d.
Hypothesis decimal_read : ∀ q : D, ∃ q', parse_dec (dec_text q) = Some q' ∧ (dval q' == dval q)%Q.
Hypothesis decimal_stored : ∀ q : D, is_Some (numeric_text (dec_text q)).
Hypothesis numeric_faithful : ∀ qty text q, numeric_text qty = Some text → parse_dec qty = Some q →
  ∃ q', parse_dec text = Some q' ∧ (dval q' == dval q)%Q.
Implicit Types (s : state D) (w : trace (server D)) (rep : PartReporter).

#[local] Notation written_declaration := (written_declaration dec_text fmt_date).
#[local] Notation statements_from := (statements_from dec_text fmt_date).
#[local] Notation declarationStatements := (declarationStatements dec_text fmt_date).
#[local] Notation declared_row := (declared_row parse_dec parse_date dec_text).
#[local] Notation declaration_rows := (declaration_rows gen_uuid uuid_ok parse_dec parse_date dec_text numeric_text error_text).
#[local] Notation DeclarationPart := (DeclarationPart gen_uuid uuid_ok parse_dec parse_date dec_text numeric_text error_text).
#[local] Notation Upsert := (UpsertHoldingDeclaration gen_uuid uuid_ok numeric_text).
#[local] Notation ListForExport := (ListHoldingDeclarationsForExport uuid_ok parse_dec).

(** *** Names *)

Lemma best_held id ids ref : bestIdentifierJoinOn id ids = Some ref →
  ∃ r, r ∈ ids ∧ holder r = id ∧ ii_Ref (naming r) = ref ∧ ii_ValidBefore (naming r) = None.
Proof.
  unfold bestIdentifierJoinOn. intros (r & Hr & ->)%fmap_Some. set (l := filter _ ids) in *.
  assert (r ∈ go_sort (less_of priority_cmp) l) as Hin by (destruct (go_sort _ l); [done|]; injection Hr as ->; left).
  apply elem_of_go_sort, list_elem_of_filter in Hin as [[? ?] ?]. by exists r.
Qed.

(** The name an instrument is exported under finds it. *)
Lemma best_found ids id ref : names_ok ids → bestIdentifierJoinOn id ids = Some ref → FindInstrumentByIdentifier ref ids = Some id.
Proof.
  intros Hok (r & Hr & Hid & Href & Hb)%best_held. apply (find_Some _ _ _ Hok). exists r. split_and!; try done.
  intros r' _ _. unfold before_cmp. rewrite Hb. destruct (ii_ValidBefore (naming r')); discriminate.
Qed.

(** OCC symbols are stored as the lookup spells them. *)
Definition compact_names (ids : list identifier) : Prop :=
  ∀ r, r ∈ ids → ref_Type (ii_Ref (naming r)) = "OCC" → default (ref_Value (ii_Ref (naming r))) (OCCCompact (ref_Value (ii_Ref (naming r)))) = ref_Value (ii_Ref (naming r)).

Lemma type_known t : identifierTypeFromString t ≠ IDENTIFIER_TYPE_UNSPECIFIED → identifierTypeFromString t = t ∧ t ≠ EmptyString.
Proof. unfold identifierTypeFromString. destruct (bool_decide_reflect (t ∈ IdentifierType_names)) as [Ht|]; [|by intros []]. intros _. split; [done|]. intros ->. by apply (bool_decide_eq_false_1 (EmptyString ∈ IdentifierType_names)) in Ht. Qed.

Lemma exported_name_found (st : store D) id ref : names_ok (identifiers st) → compact_names (identifiers st) →
  bestIdentifierJoinOn id (identifiers st) = Some ref → ref_Value ref ≠ EmptyString →
  identifierTypeFromString (ref_Type ref) ≠ IDENTIFIER_TYPE_UNSPECIFIED → findDeclaredInstrument (archiveRef ref) st = inl id.
Proof.
  intros Hok Hc Hb Hv [Ht Hne]%type_known. pose proof (best_found _ _ _ Hok Hb) as Hf. destruct (best_held _ _ _ Hb) as (r & Hr & _ & Href & _).
  unfold findDeclaredInstrument, ResolveIDsByHintsDBOnly. cbn [foldl archiveRef id_Value].
  assert (empty (ref_Value ref) = false) as -> by by apply String.eqb_neq.
  unfold lookup_hint_id, archiveRef. cbn [id_Type id_Value id_Domain]. rewrite Ht.
  assert (empty (ref_Type ref) = false) as -> by by apply String.eqb_neq. assert (empty (ref_Value ref) = false) as -> by by apply String.eqb_neq.
  cbn [orb]. assert (stored_value {| id_Type := ref_Type ref; id_Domain := ref_Domain ref; id_Value := ref_Value ref |} = ref_Value ref) as ->.
  { unfold stored_value. cbn. destruct (String.eqb_spec (ref_Type ref) "OCC") as [E|]; [|done]. rewrite <- Href in E |- *. by apply Hc. }
  destruct ref as [t v d]. cbn in *. by rewrite Hf.
Qed.

(** *** Statements *)

(** What a row of a part reads as: the statement it is in counts by its scope alone. *)
Definition row_scope (x : Statement * ArchiveDeclaration) : Posting.Broker * string * string * ArchiveDeclaration :=
  (st_Broker x.1, st_Account x.1, st_AsOfDate x.1, x.2).

Definition written_row (r : ExportDeclaration D) : option (Posting.Broker * string * string * ArchiveDeclaration) :=
  (λ d, (StrToBroker (ed_Broker r), ed_Account r, fmt_date (ed_AsOfDate r), d)) <$> written_declaration r.

Definition rows_in (st : Statement) : list (Posting.Broker * string * string * ArchiveDeclaration) :=
  (λ d, (st_Broker st, st_Account st, st_AsOfDate st, d)) <$> st_Declarations st.

Lemma part_rows_app l l' : part_rows (l ++ l') = part_rows l ++ part_rows l'.
Proof. apply bind_app. Qed.

Lemma closed_rows cur : row_scope <$> part_rows (closeStatement cur) = match cur with Some (st, _) => rows_in st | None => [] end.
Proof.
  destruct cur as [[st k]|]; [|done]. unfold closeStatement, rows_in. destruct (st_Declarations st) as [|d ds] eqn:E; [done|].
  unfold part_rows. cbn [mbind list_bind]. rewrite app_nil_r, E, <- list_fmap_compose. done.
Qed.

(** The statement being written is of the scope it is kept with. *)
Definition of_scope (cur : option (Statement * (string * string * Z))) : Prop :=
  ∀ st b a d, cur = Some (st, (b, a, d)) → st_Broker st = StrToBroker b ∧ st_Account st = a ∧ st_AsOfDate st = fmt_date d.

(** Cutting rows into statements loses nothing and orders nothing anew. *)
Lemma statements_rows cur rows : of_scope cur →
  row_scope <$> part_rows (statements_from cur rows) = match cur with Some (st, _) => rows_in st | None => [] end ++ omap written_row rows.
Proof.
  revert cur. induction rows as [|r rows IH]; intros cur Hc; cbn [Exports.statements_from omap list_omap].
  { by rewrite closed_rows, app_nil_r. }
  destruct (written_declaration r) as [d|] eqn:Ed.
  2: { assert (written_row r = None) as -> by (unfold written_row; by rewrite Ed). by apply IH. }
  assert (written_row r = Some (StrToBroker (ed_Broker r), ed_Account r, fmt_date (ed_AsOfDate r), d)) as -> by (unfold written_row; by rewrite Ed).
  assert (of_scope (Some (add_declaration d (new_statement fmt_date r), scope_of r))) as Hfresh by (by intros st b a d' [= <- <- <- <-]).
  destruct cur as [[st [[b a] d0]]|].
  - destruct (Hc st b a d0 eq_refl) as (Eb & Ea & Edt). destruct (decide _) as [Ek|Hn].
    + injection Ek as -> -> ->. rewrite IH; [|by intros st' b' a' d' [= <- <- <- <-]]. unfold rows_in. cbn.
      rewrite fmap_app, <- app_assoc. cbn. by rewrite Eb, Ea, Edt.
    + rewrite part_rows_app, fmap_app, closed_rows, IH by done. done.
  - by rewrite IH.
Qed.

(** Only the names of the store matter to a row. *)
Lemma declared_row_names user start st d (s1 s2 : store D) : identifiers s1 = identifiers s2 →
  declared_row user start st d s1 = declared_row user start st d s2.
Proof.
  intros E. unfold Imports.declared_row, findDeclaredInstrument, ResolveIDsByHintsDBOnly, lookup_hint_id, find_any_domain,
    FindInstrumentByTickerIgnoringSeparators. by rewrite E.
Qed.

Lemma declared_row_scope user start x y st : row_scope x = row_scope y →
  declared_row user start x.1 x.2 st = declared_row user start y.1 y.2 st.
Proof. destruct x as [sx dx], y as [sy dy]. intros [= Eb Ea Ed ->]. unfold Imports.declared_row. cbn. by rewrite Eb, Ea, Ed. Qed.

(** *** The import of rows without a problem *)

Definition upserts (ys : list (holding * string * Z * Z)) s : option (state D) :=
  foldl (λ os y, let '(h, qty, asOf, basis) := y in os ≫= Upsert h qty asOf (or_null basis)) (Some s) ys.

Lemma upserts_None ys : foldl (λ os y, let '(h, qty, asOf, basis) := y in os ≫= Upsert h qty asOf (or_null basis)) (None : option (state D)) ys = None.
Proof. induction ys as [|[[[h qty] asOf] basis] ys IH]; done. Qed.

Lemma upsert_names h qty asOf basis s s' : Upsert h qty asOf basis s = Some s' →
  identifiers (shop (mkt s')) = identifiers (shop (mkt s)) ∧ instruments (shop (mkt s')) = instruments (shop (mkt s)).
Proof.
  unfold UpsertHoldingDeclaration. destruct (negb _); [done|]. destruct (numeric_text qty) as [text|]; [|done]. cbn.
  repeat case_match; try done; by intros [= <-].
Qed.

Lemma advance_state rep n w : let '(rep', w') := Advance uuid_ok rep n w in
  sv_state (latest w') = sv_state (latest w) ∧ rp_Errs rep' = rp_Errs rep.
Proof.
  pose proof (advance_reports uuid_ok rep n w (eq (rp_Part rep)) eq_refl) as Ha. destruct (Advance _ rep n w) as [rep' w'].
  destruct Ha as (Ha%(along_now _) & _ & He). destruct Ha as (t & E & _). split; [by rewrite E|done].
Qed.

Lemma rows_imported user start (st : store D) rows ys :
  Forall2 (λ x y, declared_row user start x.1 x.2 st = inl y) rows ys →
  ∀ row n rep w s', identifiers (shop (mkt (sv_state (latest w)))) = identifiers st → upserts ys (sv_state (latest w)) = Some s' →
  ∃ rep' w', declaration_rows user start row n rows rep w = (n + length rows, None, rep', w') ∧
    sv_state (latest w') = s' ∧ rp_Errs rep' = rp_Errs rep.
Proof.
  induction 1 as [|[x d] y rows ys Hy _ IH]; intros row n rep w s' Hst Hup; cbn [Imports.declaration_rows length].
  { injection Hup as <-. exists rep, w. by rewrite Nat.add_0_r. }
  pose proof (advance_state rep 1 w) as Ha. destruct (Advance uuid_ok rep 1 w) as [rep1 w1]. destruct Ha as [Es Ee].
  rewrite Es, (declared_row_names _ _ _ _ _ _ Hst). cbn in Hy. rewrite Hy. destruct y as [[[h qty] asOf] basis]. cbn in Hup.
  destruct (Upsert h qty asOf (or_null basis) (sv_state (latest w))) as [s1|] eqn:E1; [|by rewrite upserts_None in Hup].
  destruct (IH (S row) (S n) rep1 (commit (with_state s1 (latest w1)) w1) s') as (rep' & w' & Er & Es' & Ee'); [|exact Hup|].
  - cbn. destruct (upsert_names _ _ _ _ _ _ E1) as [-> _]. done.
  - exists rep', w'. rewrite Er. split_and!; [by rewrite Nat.add_succ_r|done|congruence].
Qed.

(** *** What the table holds afterwards *)

Definition item_key (y : holding * string * Z * Z) : holding * Z := (y.1.1.1, y.1.2).

Definition item_of (e : declaration) (y : holding * string * Z * Z) : Prop :=
  decl_key e = item_key y ∧ numeric_text y.1.1.2 = Some (d_DeclaredQty e) ∧ d_ShareCountBasis e = basis_or_date (or_null y.2) y.1.2.

Definition storable s (y : holding * string * Z * Z) : Prop :=
  uuid_ok (hk_user y.1.1.1) = true ∧ uuid_ok (hk_instrument y.1.1.1) = true ∧ is_Some (instruments (shop (mkt s)) !! hk_instrument y.1.1.1) ∧
  is_Some (numeric_text y.1.1.2).

Lemma upsert_puts y s : storable s y → NoDup (decl_key <$> decls s) →
  ∃ s' e, Upsert y.1.1.1 y.1.1.2 y.1.2 (or_null y.2) s = Some s' ∧ item_of e y ∧ NoDup (decl_key <$> decls s') ∧
    ∀ x, x ∈ decls s' ↔ x = e ∨ x ∈ decls s ∧ decl_key x ≠ item_key y.
Proof.
  destruct y as [[[h qty] asOf] basis]. intros (Hu & Hi & Hin & [text Ht]) Hnd. cbn in *. unfold UpsertHoldingDeclaration. rewrite Hu, Hi, Ht. cbn.
  rewrite bool_decide_true by done. cbn. destruct (bool_decide_reflect ((h, asOf) ∈ decl_key <$> decls s)) as [Hk|Hk].
  - apply list_elem_of_fmap in Hk as (old & Ek & Hold).
    set (put := λ x, {| d_ID := d_ID x; d_holding := h; d_DeclaredQty := text; d_AsOfDate := asOf; d_ShareCountBasis := basis_or_date (or_null basis) asOf |}).
    set (f := λ x, if decide (decl_key x = (h, asOf)) then put x else x).
    assert (∀ x, decl_key (f x) = decl_key x) as Hf by (intros x; unfold f; destruct (decide _) as [E|]; [by rewrite E|done]).
    eexists _, (put old). split; [reflexivity|]. split; [by unfold item_of|]. cbn [decls with_decls]. split.
    + rewrite <- list_fmap_compose. erewrite list_fmap_ext; [exact Hnd|]. intros _ x _. apply Hf.
    + intros x. rewrite list_elem_of_fmap. change (λ e, if decide (decl_key e = (h, asOf)) then _ else e) with f. split.
      * intros (x0 & -> & Hx0). unfold f. destruct (decide _) as [E|Hn]; [left|by right].
        f_equal. by rewrite (NoDup_fmap_inj_in decl_key (decls s) x0 old Hnd Hx0 Hold) by congruence.
      * intros [->|[Hx Hn]]; [exists old|exists x]; (split; [|done]); unfold f; by destruct (decide _).
  - eexists _, {| d_ID := gen_uuid (list_to_set (d_ID <$> decls s)); d_holding := h; d_DeclaredQty := text; d_AsOfDate := asOf;
      d_ShareCountBasis := basis_or_date (or_null basis) asOf |}.
    split; [reflexivity|]. split; [by unfold item_of|]. cbn [decls with_decls]. split.
    + rewrite fmap_app. apply NoDup_app. split_and!; [done| |apply NoDup_singleton]. intros k Hk1 Hk2%list_elem_of_singleton. apply Hk. rewrite Hk2 in Hk1. exact Hk1.
    + intros x. rewrite elem_of_app, list_elem_of_singleton. split; [|tauto]. intros [Hx|Hx]; [right|by left]. split; [done|]. intros E. apply Hk.
      unfold item_key in E. cbn in E. rewrite <- E. by apply list_elem_of_fmap_2.
Qed.

Lemma upserts_put ys s : (∀ y, y ∈ ys → storable s y) → NoDup (item_key <$> ys) → NoDup (decl_key <$> decls s) →
  ∃ s', upserts ys s = Some s' ∧ NoDup (decl_key <$> decls s') ∧
    (∀ y, y ∈ ys → ∃ e, e ∈ decls s' ∧ item_of e y) ∧
    (∀ e, e ∈ decls s' → e ∈ decls s ∨ ∃ y, y ∈ ys ∧ item_of e y) ∧
    (∀ e, e ∈ decls s → decl_key e ∉ item_key <$> ys → e ∈ decls s').
Proof.
  revert s. induction ys as [|y ys IH]; intros s Hst Hnd Hk.
  { exists s. split_and!; [done|done|by intros y ?%elem_of_nil|auto|auto]. }
  rewrite fmap_cons in Hnd. apply NoDup_cons in Hnd as [Hny Hnd].
  destruct (upsert_puts y s (Hst y ltac:(left)) Hk) as (s1 & e & E1 & He & Hk1 & Hel).
  destruct (IH s1) as (s' & E & Hk' & Hput & Hfrom & Hkept); [|done|done|].
  { intros z Hz. destruct (Hst z ltac:(by right)) as (A & B & C' & F). split_and!; try done. by destruct (upsert_names _ _ _ _ _ _ E1) as [_ ->]. }
  exists s'. split_and!; [|done|..].
  - unfold upserts. cbn [foldl]. destruct y as [[[h qty] asOf] basis]. cbn in E1 |- *. rewrite E1. exact E.
  - intros z [->|Hz]%elem_of_cons; [|by apply Hput]. exists e. split; [|done]. apply Hkept; [apply Hel; by left|]. by rewrite (proj1 He).
  - intros x [Hx|(z & Hz & ?)]%Hfrom; [|right; exists z; split; [by right|done]]. apply Hel in Hx as [->|[Hx _]]; [|by left].
    right. exists y. split; [by left|done].
  - intros x Hx Hn. rewrite fmap_cons, not_elem_of_cons in Hn. apply Hkept; [|tauto]. apply Hel. right. tauto.
Qed.

(** *** The round trip *)

(** Whether a file can name the holding. *)
Definition exportable s (d : declaration) : bool :=
  negb (bool_decide (StrToBroker (hk_broker (d_holding d)) = Posting.BROKER_UNSPECIFIED)) &&
  match bestIdentifierJoinOn (hk_instrument (d_holding d)) (identifiers (shop (mkt s))) with
  | Some ref => negb (empty (ref_Value ref) || String.eqb (identifierTypeFromString (ref_Type ref)) IDENTIFIER_TYPE_UNSPECIFIED)
  | None => false
  end.

(** The quantity as the file's text is read and written again. *)
Definition reread (d : declaration) : string :=
  match parse_dec (d_DeclaredQty d) ≫= λ q, parse_dec (dec_text q) with Some q => dec_text q | None => EmptyString end.

Definition item (d : declaration) : holding * string * Z * Z := (d_holding d, reread d, d_AsOfDate d, d_ShareCountBasis d).

Lemma broker_named b : StrToBroker b ≠ Posting.BROKER_UNSPECIFIED → BrokerToStr (StrToBroker b) = b ∧ empty b = false.
Proof.
  unfold StrToBroker. destruct (decide (b = "IBKR")) as [->|]; [done|]. destruct (decide (b = "SCHB")) as [->|]; [done|].
  by destruct (decide (b = "FIDELITY")) as [->|].
Qed.

Lemma export_rows user s : table_ok uuid_ok parse_dec s (decls s) → uuid_ok user = true →
  ∃ rows, ListForExport user s = Some rows ∧
    Forall2 (λ d r, export_row parse_dec s d = Some r) (go_sort (less_of export_cmp) (filter (λ d, hk_user (d_holding d) = user) (decls s))) rows.
Proof.
  intros Ht Hu. unfold ListHoldingDeclarationsForExport. rewrite Hu. cbn. set (L := go_sort _ _).
  assert (is_Some (mapM (export_row parse_dec s) L)) as [rows E].
  { apply mapM_is_Some_2, Forall_forall. intros d [_ Hd]%elem_of_go_sort%list_elem_of_filter. destruct (tb_parses _ _ _ _ Ht d Hd) as [q Hq].
    destruct (export_row parse_dec s d) as [r|] eqn:E; [by exists r|]. unfold export_row in E. by rewrite Hq in E. }
  exists rows. split; [done|]. by apply mapM_Some_1.
Qed.

(** What the row of a declaration is written as, and read as. *)
Lemma row_read user start s d r : names_ok (identifiers (shop (mkt s))) → compact_names (identifiers (shop (mkt s))) →
  hk_user (d_holding d) = user → (start <= d_AsOfDate d)%Z → export_row parse_dec s d = Some r →
  match written_row r with
  | Some x => exportable s d = true ∧ ∀ st a, row_scope (st, a) = x → declared_row user start st a (shop (mkt s)) = inl (item d)
  | None => exportable s d = false
  end.
Proof.
  intros Hok Hc Hu Hle Er. unfold export_row in Er. destruct (parse_dec (d_DeclaredQty d)) as [q|] eqn:Eq; [|done]. injection Er as <-.
  unfold written_row, Exports.written_declaration, exportable. cbn.
  destruct (decide _) as [Eb|Hb]; [by rewrite bool_decide_true|]. rewrite bool_decide_false by done. cbn.
  destruct (bestIdentifierJoinOn _ _) as [ref|] eqn:Ebest; [|done]. destruct (empty (ref_Value ref)) eqn:Ev; [done|]. cbn.
  destruct (String.eqb_spec (identifierTypeFromString (ref_Type ref)) IDENTIFIER_TYPE_UNSPECIFIED) as [|Ht]; [done|]. cbn. split; [done|].
  intros st a [= Est Eac Edt ->]. apply String.eqb_neq in Ev. destruct (broker_named _ Hb) as [Ebn Ene].
  unfold Imports.declared_row. rewrite Est, Eac, Edt, Ebn, Ene, date_read. destruct (Z.ltb_spec (d_AsOfDate d) start) as [|_]; [lia|]. cbn.
  unfold item, reread. rewrite Eq. cbn. destruct (decimal_read q) as (q' & -> & _).
  assert (match fmt_date <$> (if decide (d_ShareCountBasis d = d_AsOfDate d) then None else Some (d_ShareCountBasis d)) with
    | Some b => parse_date b | None => Some (d_AsOfDate d) end = Some (d_ShareCountBasis d)) as ->.
  { destruct (decide _) as [->|]; [done|]. cbn. apply date_read. }
  rewrite (exported_name_found _ _ _ Hok Hc Ebest Ev Ht). destruct (d_holding d) as [u b c i]. cbn in *. by rewrite <- Hu.
Qed.

Lemma rows_read user start s L rows : names_ok (identifiers (shop (mkt s))) → compact_names (identifiers (shop (mkt s))) →
  (∀ d, d ∈ L → hk_user (d_holding d) = user ∧ (start <= d_AsOfDate d)%Z) → Forall2 (λ d r, export_row parse_dec s d = Some r) L rows →
  ∀ xs, row_scope <$> xs = omap written_row rows →
  Forall2 (λ x y, declared_row user start x.1 x.2 (shop (mkt s)) = inl y) xs (item <$> filter (λ d, exportable s d = true) L).
Proof.
  intros Hok Hc HL Hr. induction Hr as [|d r L rows Er _ IH]; intros xs Ex; cbn [omap list_omap] in Ex.
  { apply fmap_nil_inv in Ex as ->. constructor. }
  destruct (HL d ltac:(left)) as [Hu Hle]. pose proof (row_read user start s d r Hok Hc Hu Hle Er) as Hread.
  specialize (IH (λ d' Hd', HL d' (list_elem_of_further _ _ _ Hd'))). rewrite filter_cons.
  destruct (written_row r) as [x|].
  - destruct Hread as [-> Hread]. destruct xs as [|[st a] xs]; [done|]. cbn in Ex. injection Ex as E1 Ex. rewrite decide_True by done.
    cbn. constructor; [by apply Hread|]. by apply IH.
  - rewrite Hread, decide_False by done. by apply IH.
Qed.

(** The same amount, however it is spelled. *)
Definition same_quantity (d d' : declaration) : Prop :=
  ∃ q q', parse_dec (d_DeclaredQty d) = Some q ∧ parse_dec (d_DeclaredQty d') = Some q' ∧ (dval q' == dval q)%Q.

Lemma item_same s d e : table_ok uuid_ok parse_dec s (decls s) → d ∈ decls s → d_ShareCountBasis d ≠ zero_time → item_of e (item d) →
  decl_key e = decl_key d ∧ d_ShareCountBasis e = d_ShareCountBasis d ∧ same_quantity d e.
Proof.
  intros Ht Hd Hz (Ek & En & Eb). cbn in Ek, En, Eb. split_and!; [done| |].
  - rewrite Eb. unfold or_null, basis_or_date. by destruct (Z.eqb_spec (d_ShareCountBasis d) zero_time).
  - destruct (tb_parses _ _ _ _ Ht d Hd) as [q Hq]. unfold reread in En. rewrite Hq in En. cbn in En.
    destruct (decimal_read q) as (q1 & H1 & E1). rewrite H1 in En. destruct (decimal_read q1) as (q2 & H2 & E2).
    destruct (numeric_faithful _ _ _ En H2) as (q3 & H3 & E3). exists q, q3. split_and!; [done|done|]. by rewrite E3, E2, E1.
Qed.

(** C39: The declarations of a user come back from their archive.  The export names every
    declaration a file can name, and importing it into a server that knows the same
    instruments and whose history begins no later reports no problem, and leaves exactly
    one declaration for each: of the same holding and date, in the same share count, and
    of the same amount.  Declarations of other holdings and dates are left as they were. *)
Theorem declarations_roundtrip user s w rep start : let t := sv_state (latest w) in
  table_ok uuid_ok parse_dec s (decls s) → names_ok (identifiers (shop (mkt s))) → compact_names (identifiers (shop (mkt s))) →
  (∀ d, d ∈ decls s → d_ShareCountBasis d ≠ zero_time) → uuid_ok user = true →
  identifiers (shop (mkt t)) = identifiers (shop (mkt s)) → instruments (shop (mkt t)) = instruments (shop (mkt s)) →
  NoDup (decl_key <$> decls t) → GetPortfolioStartDate uuid_ok user t = Some (Some start) →
  (∀ d, d ∈ decls s → hk_user (d_holding d) = user → (day_of start <= d_AsOfDate d)%Z) →
  ∃ rows n rep' w', ListForExport user s = Some rows ∧ DeclarationPart user (declarationStatements rows) rep w = (n, None, rep', w') ∧
    rp_Errs rep' = rp_Errs rep ∧
    let exported d := d ∈ decls s ∧ hk_user (d_holding d) = user ∧ exportable s d = true in
    let ds := decls (sv_state (latest w')) in
    NoDup (decl_key <$> ds) ∧
    (∀ d, exported d → ∃ d', d' ∈ ds ∧ decl_key d' = decl_key d ∧ d_ShareCountBasis d' = d_ShareCountBasis d ∧ same_quantity d d') ∧
    (∀ d', d' ∈ ds → d' ∈ decls t ∨ ∃ d, exported d ∧ decl_key d' = decl_key d) ∧
    (∀ d', d' ∈ decls t → (∀ d, exported d → decl_key d' ≠ decl_key d) → d' ∈ ds).
Proof using date_read decimal_read decimal_stored numeric_faithful H0.
  intros t Ht Hok Hc Hz Hu Eids Eins Hnd Hstart Hle. destruct (export_rows user s Ht Hu) as (rows & Er & Hrows). set (L := go_sort _ _) in Hrows.
  assert (∀ d, d ∈ L ↔ d ∈ decls s ∧ hk_user (d_holding d) = user) as HL by (intros d; unfold L; rewrite elem_of_go_sort, list_elem_of_filter; tauto).
  set (E := filter (λ d, exportable s d = true) L).
  assert (∀ d, d ∈ E ↔ d ∈ decls s ∧ hk_user (d_holding d) = user ∧ exportable s d = true) as HE
    by (intros d; unfold E; rewrite list_elem_of_filter, HL; tauto).
  pose proof (statements_rows None rows ltac:(done)) as Hxs. cbn in Hxs. set (xs := part_rows _) in Hxs.
  pose proof (rows_read user (day_of start) s L rows Hok Hc ltac:(by intros d [? ?]%HL; auto) Hrows xs Hxs) as Hread. fold E in Hread.
  destruct (upserts_put (item <$> E) t) as (s' & Eup & Hnd' & Hput & Hfrom & Hkept); [| |done|].
  { intros y (d & -> & (Hd & Hud & Hx)%HE)%list_elem_of_fmap. destruct (tb_uuids _ _ _ _ Ht d Hd) as (_ & A & B).
    split_and!; [done|done|rewrite Eins; by apply (tb_known _ _ _ _ Ht)|]. cbn. unfold reread.
    destruct (tb_parses _ _ _ _ Ht d Hd) as [q ->]. cbn. by destruct (decimal_read q) as (q' & -> & _). }
  { rewrite <- list_fmap_compose. change (NoDup (decl_key <$> E)). eapply sublist_NoDup; [|apply fmap_sublist, sublist_filter].
    unfold L. rewrite go_sort_perm. eapply sublist_NoDup; [apply (tb_keys _ _ _ _ Ht)|]. apply fmap_sublist, sublist_filter. }
  assert (∃ n rep' w', DeclarationPart user (declarationStatements rows) rep w = (n, None, rep', w') ∧ sv_state (latest w') = s' ∧ rp_Errs rep' = rp_Errs rep)
    as (n & rep' & w' & Ei & Es & Ee).
  { unfold Imports.DeclarationPart. change (part_rows (declarationStatements rows)) with xs. set (w1 := Total _ _ _ w).
    assert (sv_state (latest w1) = t) as Ew.
    { pose proof (total_reports uuid_ok rep (Z.of_nat (length xs)) w (eq (rp_Part rep)) eq_refl) as (u & Eu & _)%(along_now _).
      fold w1 in Eu. by rewrite Eu. }
    destruct xs as [|x xs'] eqn:Exs.
    - exists 0, rep, w1. split_and!; [done| |done]. apply Forall2_nil_inv_l in Hread. rewrite Hread in Eup. injection Eup as <-. done.
    - rewrite Ew, Hstart. destruct (rows_imported user (day_of start) (shop (mkt s)) _ _ Hread 0 0 rep w1 s') as (rep' & w' & Ed & Es & Ee);
        [by rewrite Ew|by rewrite Ew|]. by eexists _, rep', w'. }
  exists rows, n, rep', w'. split_and!; [done|done|done|]. cbv zeta. rewrite Es. split_and!; [done|..].
  - intros d Hd. destruct (Hput (item d)) as (e & He & Hi); [apply list_elem_of_fmap_2; by apply HE|].
    exists e. split; [done|]. destruct Hd as (Hd & _ & _). by apply (item_same s); [..|apply Hz|].
  - intros e [He|(y & (d & -> & Hd%HE)%list_elem_of_fmap & Hi)]%Hfrom; [by left|]. right. exists d. split; [done|]. apply Hi.
  - intros e He Hn. apply Hkept; [done|]. rewrite <- list_fmap_compose. intros (d & Ek & Hd%HE)%list_elem_of_fmap. by apply (Hn d Hd).
Qed.
End roundtrip.

(** ** The windows *)

Section windows.
Context {D : Type} `{Decimal D}.
Context (uuid_ok : string → bool) (parse_date : string → option Z) (dec_text : D → string) (fmt_date : Z → string).
Hypothesis date_read : ∀ d, parse_date (fmt_date d) = Some d.
Hypothesis date_text : ∀ d, fmt_date d ≠ EmptyString.
Implicit Types (r : ExportPosting D) (o : open_window).

#[local] Notation posting := (posting dec_text fmt_date).
#[local] Notation start_window := (start_window dec_text fmt_date).
#[local] Notation extend_window := (extend_window dec_text fmt_date).
#[local] Notation windows_from := (windows_from dec_text fmt_date).
#[local] Notation txWindows := (txWindows dec_text fmt_date).

(** The postings of the broker of the open window go into it. *)
Lemma window_run from before o mine rest : (∀ r, r ∈ mine → ep_Broker r = ow_Broker o) →
  windows_from from before (Some o) (mine ++ rest) = windows_from from before (Some (foldl extend_window o mine)) rest.
Proof.
  revert o. induction mine as [|r mine IH]; intros o Hm; [done|]. cbn [app Exports.windows_from foldl].
  rewrite decide_True by (apply Hm; left). apply IH. intros r' Hr'. cbn. apply Hm. by right.
Qed.

(** The window of the postings of one broker. *)
Definition window_of (from before : option Z) (r : ExportPosting D) (more : list (ExportPosting D)) : TxWindow := {|
  tw_Broker := StrToBroker (ep_Broker r); tw_Source := window_source (ep_Broker r);
  tw_PeriodFrom := Some (default (ep_OrderDate r) from);
  tw_PeriodBefore := Some (default (day_start (day_of (default (ep_OrderDate r) (ep_OrderDate <$> last more)) + 1)) before);
  tw_Postings := posting <$> r :: more |}.

Lemma extended_window from before r more : closeWindow from before (foldl extend_window (start_window r) more) = window_of from before r more.
Proof.
  assert (foldl extend_window (start_window r) more = {| ow_Broker := ep_Broker r; ow_from := ep_OrderDate r;
    ow_last := default (ep_OrderDate r) (ep_OrderDate <$> last more); ow_Postings := posting <$> r :: more |}) as ->; [|done].
  induction more as [|x more IH] using rev_ind; [done|]. rewrite foldl_app, IH, last_snoc. cbn. unfold Exports.extend_window. cbn. by rewrite fmap_app.
Qed.

(** Rows in order of their brokers fall into one run for each. *)
Definition by_broker (l : list (ExportPosting D)) : Prop := StronglySorted (λ x y, String.compare (ep_Broker x) (ep_Broker y) ≠ Gt) l.

Lemma listed_by_broker user from before s rows : ListTxsForExport uuid_ok user from before s = Some rows → by_broker rows.
Proof.
  unfold ListTxsForExport. destruct (negb _); [done|]. intros [= <-].
  match goal with |- by_broker (go_sort ?f ?l) => pose proof (go_sort_sorted f posting_cmp (λ _ _, eq_refl) l) as Hs end.
  induction Hs as [|x l _ IH Hx]; constructor; [done|].
  rewrite Forall_forall in Hx |- *. intros y Hy E. apply (Hx y Hy). unfold posting_cmp, cmp_on, cmp_lex. cbn. by rewrite E.
Qed.

Lemma runs_split r l : by_broker (r :: l) → l = filter (λ x, ep_Broker x = ep_Broker r) l ++ filter (λ x, ep_Broker x ≠ ep_Broker r) l.
Proof.
  intros [Hs Hr]%StronglySorted_inv. rewrite Forall_forall in Hr. induction l as [|x l IH]; [done|]. apply StronglySorted_inv in Hs as [Hs Hx].
  rewrite Forall_forall in Hx. rewrite !filter_cons. destruct (decide (ep_Broker x = ep_Broker r)) as [E|Hn].
  - rewrite decide_False by (by intros []). cbn. f_equal. apply IH; [done|]. intros y Hy. apply Hr. by right.
  - rewrite decide_True by done. assert (∀ y, y ∈ l → ep_Broker y ≠ ep_Broker r) as Hne.
    { intros y Hy Ey. specialize (Hx y Hy). specialize (Hr x ltac:(left)). rewrite Ey in Hx.
      destruct (String.compare (ep_Broker r) (ep_Broker x)) eqn:Ec; [by apply String.compare_eq_iff in Ec| |done].
      apply Hx. by apply (cmp_gt_lt String.compare). }
    rewrite filter_none by done. cbn. f_equal. symmetry. by apply filter_all.
Qed.

Lemma extended_broker o l : ow_Broker (foldl extend_window o l) = ow_Broker o.
Proof. revert o. induction l as [|x l IH]; intros o; [done|]. cbn. by rewrite IH. Qed.

Lemma windows_step from before r rows : by_broker (r :: rows) →
  txWindows (r :: rows) from before = window_of from before r (filter (λ x, ep_Broker x = ep_Broker r) rows)
    :: txWindows (filter (λ x, ep_Broker x ≠ ep_Broker r) rows) from before.
Proof.
  intros Hs. unfold Exports.txWindows at 1. cbn [Exports.windows_from]. rewrite (runs_split r rows Hs) at 1.
  rewrite window_run by (by intros x [? _]%list_elem_of_filter). set (o := foldl _ _ _).
  assert (ow_Broker o = ep_Broker r) as Ho by (unfold o; by rewrite extended_broker).
  assert (closeWindow from before o = window_of from before r (filter (λ x, ep_Broker x = ep_Broker r) rows)) as <- by apply extended_window.
  destruct (filter (λ x, ep_Broker x ≠ ep_Broker r) rows) as [|x rest] eqn:E; [done|]. cbn [Exports.windows_from].
  assert (x ∈ x :: rest) as Hx by left. rewrite <- E in Hx. apply list_elem_of_filter in Hx as [Hx _]. by rewrite decide_False by congruence.
Qed.

Lemma filtered_by_broker (P : ExportPosting D → Prop) `{∀ x, Decision (P x)} l : by_broker l → by_broker (filter P l).
Proof.
  intros Hs. induction Hs as [|x l _ IH Hx]; [constructor|]. rewrite filter_cons. destruct (decide _); [|done]. constructor; [done|].
  rewrite Forall_forall in Hx |- *. by intros y [_ Hy]%list_elem_of_filter; apply Hx.
Qed.

Lemma source_inj b b' : window_source b = window_source b' → b = b'.
Proof.
  unfold window_source. generalize ":archive:export". intros t. revert b'. induction b as [|c b IH]; intros [|c' b'] E; [done| | |].
  - apply (f_equal String.length) in E. rewrite !string_length_app in E. cbn in E. lia.
  - apply (f_equal String.length) in E. rewrite !string_length_app in E. cbn in E. lia.
  - injection E as -> E. f_equal. by apply IH.
Qed.

(** The windows, by the brokers of the rows. *)
Lemma windows_by_broker from before rows : by_broker rows →
  NoDup (tw_Source <$> txWindows rows from before) ∧
  (∀ x, x ∈ txWindows rows from before → ∃ r more, filter (λ y, ep_Broker y = ep_Broker r) rows = r :: more ∧ x = window_of from before r more) ∧
  (∀ r, r ∈ rows → ∃ x, x ∈ txWindows rows from before ∧ posting r ∈ tw_Postings x).
Proof.
  remember (length rows) as n eqn:En. revert rows En. induction (lt_wf n) as [n _ IH]. intros [|r rows] -> Hs.
  { split_and!; [constructor|by intros x ?%elem_of_nil..]. }
  rewrite windows_step by done. set (mine := filter (λ x, ep_Broker x = ep_Broker r) rows). set (rest := filter (λ x, ep_Broker x ≠ ep_Broker r) rows).
  assert (∀ b, b ≠ ep_Broker r → filter (λ y, ep_Broker y = b) rest = filter (λ y, ep_Broker y = b) (r :: rows)) as Hrest.
  { intros b Hb. rewrite filter_cons, decide_False by congruence. unfold rest. rewrite list_filter_filter. apply list_filter_iff. intros y. split; [tauto|].
    intros ->. by split. }
  destruct (IH (length rest) ltac:(unfold rest; cbn; pose proof (length_filter (λ x, ep_Broker x ≠ ep_Broker r) rows); lia) rest eq_refl)
    as (I1 & I2 & I3); [apply filtered_by_broker; by apply StronglySorted_inv in Hs as [? _]|].
  split_and!.
  - rewrite fmap_cons. apply NoDup_cons. split; [|done]. intros (x & Ex & Hx)%list_elem_of_fmap. destruct (I2 x Hx) as (y & more & Ef & ->).
    assert (y ∈ filter (λ z, ep_Broker z = ep_Broker y) rest) as [_ [Hn _]%list_elem_of_filter]%list_elem_of_filter by (rewrite Ef; left).
    apply Hn. symmetry. by apply source_inj.
  - intros x [->|Hx]%elem_of_cons.
    + exists r, mine. split; [|done]. by rewrite filter_cons, decide_True by done.
    + destruct (I2 x Hx) as (y & more & Ef & ->). exists y, more. split; [|done].
      assert (y ∈ filter (λ z, ep_Broker z = ep_Broker y) rest) as [_ [Hn _]%list_elem_of_filter]%list_elem_of_filter by (rewrite Ef; left).
      by rewrite <- Hrest.
  - intros x [->|Hx]%elem_of_cons; [exists (window_of from before r mine); split; [by left|by left]|].
    destruct (decide (ep_Broker x = ep_Broker r)) as [E|Hn].
    + exists (window_of from before r mine). split; [by left|]. cbn. right. apply list_elem_of_fmap_2. by apply list_elem_of_filter.
    + destruct (I3 x) as (w & Hw & Hp); [by apply list_elem_of_filter|]. exists w. split; [by right|done].
Qed.

Lemma rows_exported user from before s rows r : ListTxsForExport uuid_ok user from before s = Some rows →
  r ∈ rows ↔ ∃ t g, r = export_posting (identifiers s) (t, g) ∧ t ∈ txs (book s) ∧ tx_groups (book s) !! r_group t = Some g ∧
    exported_row user from before (book s) t = true.
Proof.
  unfold ListTxsForExport. destruct (negb _); [done|]. intros [= <-]. rewrite elem_of_go_sort, list_elem_of_fmap. split.
  - intros ([t g] & -> & Hx). apply list_elem_of_omap in Hx as (t0 & Ht & E). destruct (exported_row _ _ _ _ t0) eqn:Ex; [|done].
    apply fmap_Some in E as (g0 & Eg & [= -> ->]). by exists t0, g0.
  - intros (t & g & -> & Ht & Eg & Ex). exists (t, g). split; [done|]. apply list_elem_of_omap. exists t. by rewrite Ex, Eg.
Qed.

(** An export writes dates an import reads. *)
Lemma exported_bases (l : list (ExportPosting D)) :
  mapM (λ x, postingBasis parse_date (ap_ShareCountBasis x)) (posting <$> l) = Some (ep_ShareCountBasis <$> l).
Proof.
  induction l as [|r l IH]; [done|]. cbn [fmap list_fmap mapM]. assert (postingBasis parse_date (ap_ShareCountBasis (posting r)) = Some (ep_ShareCountBasis r)) as ->.
  { change (ap_ShareCountBasis (posting r)) with (default EmptyString (fmt_date <$> ep_ShareCountBasis r)). unfold postingBasis.
    destruct (ep_ShareCountBasis r) as [d|]; [|done]. change (default EmptyString (fmt_date <$> Some d)) with (fmt_date d). assert (empty (fmt_date d) = false) as -> by by apply String.eqb_neq.
    by rewrite date_read. }
  cbn. by rewrite IH.
Qed.

(** What an export of a period is to carry: a posting a source stated, of the user and of
    the period, whose group holds no pad. *)
Record stated_within (user : string) (from before : option Z) (l : ledger D) (t : row D) : Prop := {
  sw_posting : t ∈ txs l;
  sw_user : r_user t = user;
  sw_stated : r_purpose t = None;
  sw_no_pad x : x ∈ txs l → r_group x = r_group t → r_purpose x ≠ Some Declarations.InitializePurpose;
  sw_from f : from = Some f → (f <= r_order_date t)%Z;
  sw_before b : before = Some b → (r_order_date t < b)%Z;
}.

Lemma exported_stated user from before l t : t ∈ txs l ∧ exported_row user from before l t = true ↔ stated_within user from before l t.
Proof.
  unfold exported_row. rewrite !andb_true_iff, negb_true_iff, String.eqb_eq, bool_decide_eq_true, existsb_False. split.
  - intros (Ht & (((Hu & Hp) & Hn) & Hf) & Hb). split; [done..| | |].
    + intros x Hx Eg Ep. specialize (Hn x Hx). rewrite Eg, String.eqb_refl, bool_decide_true in Hn by done. by destruct Hn.
    + intros f ->. lia.
    + intros b ->. lia.
  - intros [Ht Hu Hp Hn Hf Hb]. split_and!; [done..| |destruct from; [specialize (Hf _ eq_refl); lia|done]|destruct before; [specialize (Hb _ eq_refl); lia|done]].
    intros x Hx [Eg%String.eqb_eq Ep%bool_decide_eq_true]%andb_true_iff. by apply (Hn x).
Qed.

(** The rows, in terms of the postings. *)
Lemma rows_stated user from before s rows r : ListTxsForExport uuid_ok user from before s = Some rows →
  r ∈ rows ↔ ∃ t g, r = export_posting (identifiers s) (t, g) ∧ stated_within user from before (book s) t ∧ tx_groups (book s) !! r_group t = Some g.
Proof. intros E. rewrite (rows_exported _ _ _ _ _ _ E). setoid_rewrite <- exported_stated. naive_solver. Qed.

Lemma rows_once user from before (s : store D) rows : ListTxsForExport uuid_ok user from before s = Some rows →
  NoDup (r_id <$> txs (book s)) → NoDup ((λ r, ep_ID r) <$> rows).
Proof.
  unfold ListTxsForExport. destruct (negb _); [done|]. intros [= <-]. rewrite go_sort_perm, <- list_fmap_compose. generalize (book s), (txs (book s)).
  intros l ts. assert (∀ A (b : bool) (t : row D) (o : option A) x, (if b then pair t <$> o else None) = Some x → x.1 = t) as Hfst.
  { intros A [] t [] x; by intros [= <-]. }
  induction ts as [|t ts IH]; [constructor|]. rewrite fmap_cons. intros [Hn Hnd]%NoDup_cons. cbn [omap list_omap].
  destruct (if exported_row _ _ _ _ _ then _ else _) as [[t' g]|] eqn:E; [|by apply IH]. cbn. apply NoDup_cons. split; [|by apply IH].
  apply Hfst in E as [= ->].
  intros ([y gy] & Ey & Hy)%list_elem_of_fmap. cbn in Ey. apply Hn. rewrite Ey. apply list_elem_of_omap in Hy as (z & Hz & Ez).
  apply Hfst in Ez as [= ->]. by apply list_elem_of_fmap_2.
Qed.

(** Cutting rows into windows loses none and adds none. *)
Lemma windows_concat from before cur rows :
  (windows_from from before cur rows ≫= tw_Postings) = match cur with Some o => ow_Postings o | None => [] end ++ (posting <$> rows).
Proof.
  revert cur. induction rows as [|r rows IH]; intros cur; cbn [Exports.windows_from fmap list_fmap].
  { destruct cur; cbn; by rewrite ?app_nil_r. }
  destruct cur as [o|]; [destruct (decide _)|]; rewrite ?bind_cons, ?IH; cbn; by rewrite <- ?app_assoc.
Qed.

(** C40: The windows of an export carry what was stated in the period, and nothing else.
    Their postings, one window after the other, are the rows the query returns: those of
    each stated posting of the user in the period whose group holds no pad, each once, and
    no others.  There is one window for each broker that has any, with that broker's
    postings in the order of the query; a bound that was asked for is the window's, and
    every posting lies within it; and an import reads each window back, with each
    posting's share count as it was stored. *)
Theorem windows_carry_the_period user from before s rows : ListTxsForExport uuid_ok user from before s = Some rows →
  let ws := txWindows rows from before in
  (ws ≫= tw_Postings) = posting <$> rows ∧
  (∀ r, r ∈ rows ↔ ∃ t g, r = export_posting (identifiers s) (t, g) ∧ stated_within user from before (book s) t ∧
     tx_groups (book s) !! r_group t = Some g) ∧
  (NoDup (r_id <$> txs (book s)) → NoDup (ep_ID <$> rows)) ∧
  NoDup (tw_Source <$> ws) ∧
  ∀ x, x ∈ ws → ∃ broker, let mine := filter (λ r, ep_Broker r = broker) rows in
    tw_Source x = window_source broker ∧ tw_Broker x = StrToBroker broker ∧ tw_Postings x = posting <$> mine ∧ mine ≠ [] ∧
    (∀ f, from = Some f → tw_PeriodFrom x = Some f ∧ ∀ r, r ∈ mine → (f <= ep_OrderDate r)%Z) ∧
    (∀ b, before = Some b → tw_PeriodBefore x = Some b ∧ ∀ r, r ∈ mine → (ep_OrderDate r < b)%Z) ∧
    ∀ offset, ∃ bases, windowTxs parse_date (to_window x) offset = Some (archiveTx <$> tw_Postings x, bases, Z.of_nat <$> seq offset (length mine)) ∧
      bases = if forallb (λ b, bool_decide (b = None)) (ep_ShareCountBasis <$> mine) then [] else ep_ShareCountBasis <$> mine.
Proof using date_read date_text.
  intros Er ws. destruct (windows_by_broker from before rows (listed_by_broker _ _ _ _ _ Er)) as (Hnd & Hws & _).
  split_and!; [apply windows_concat|intros r; by apply rows_stated|by eapply rows_once|done|].
  intros x (r & more & Em & ->)%Hws. exists (ep_Broker r). cbv zeta. rewrite Em.
  assert (∀ y, y ∈ r :: more → ∃ t, ep_OrderDate y = r_order_date t ∧ stated_within user from before (book s) t) as Hmine.
  { intros y Hy. rewrite <- Em in Hy. apply list_elem_of_filter in Hy as [_ Hy]. apply (rows_stated _ _ _ _ _ _ Er) in Hy as (t & g & -> & Ht & _).
    by exists t. }
  split_and!; [done|done|done|done|..].
  - intros f Ef. split; [by subst|]. intros y Hy. destruct (Hmine y Hy) as (t & -> & Ht). by apply (sw_from _ _ _ _ _ Ht).
  - intros b Eb. split; [by subst|]. intros y Hy. destruct (Hmine y Hy) as (t & -> & Ht). by apply (sw_before _ _ _ _ _ Ht).
  - intros offset. eexists. split; [|reflexivity]. unfold windowTxs. cbn [w_Postings to_window tw_Postings window_of]. rewrite exported_bases. cbn [mbind option_bind].
    by rewrite length_fmap.
Qed.
End windows.

Section witnesses.
#[local] Existing Instances QDecimal.q_decimal QDecimal.q_decimal_laws.

(** A text for every number, and the numbers the samples are written with. *)
Fixpoint pos_text (p : positive) : string :=
  match p with xH => EmptyString | xO p => String (Ascii.ascii_of_nat 97) (pos_text p) | xI p => String (Ascii.ascii_of_nat 98) (pos_text p) end.

Fixpoint pos_read (s : string) : option positive :=
  match s with
  | EmptyString => Some xH
  | String c s => if Ascii.eqb c (Ascii.ascii_of_nat 97) then xO <$> pos_read s else if Ascii.eqb c (Ascii.ascii_of_nat 98) then xI <$> pos_read s else None
  end.

Lemma pos_text_read p : pos_read (pos_text p) = Some p.
Proof. induction p as [p IH|p IH|]; cbn; [by rewrite IH..|done]. Qed.

Definition write_q (q : Q) : string := pos_text (encode (Qnum q, Qden q)).
Definition read_q (s : string) : option Q :=
  match sample_parse s with
  | Some q => Some q
  | None => p ← pos_read s; '(n, d) ← decode p; Some (Qmake n d)
  end.
Definition write_day (d : Z) : string := String (Ascii.ascii_of_nat 100) (pos_text (encode d)).
Definition read_day (s : string) : option Z := match s with String _ s => pos_read s ≫= decode | EmptyString => None end.

Lemma day_read d : read_day (write_day d) = Some d.
Proof. unfold write_day. cbn [read_day]. rewrite pos_text_read. cbn. apply decode_encode. Qed.

Lemma q_read (q : Q) : ∃ q' : Q, read_q (write_q q) = Some q' ∧ (dval q' == dval q)%Q.
Proof.
  exists q. split; [|reflexivity]. unfold read_q, write_q. assert (sample_parse (pos_text (encode (Qnum q, Qden q))) = None) as ->
    by (by destruct (encode _)). rewrite pos_text_read. cbn [mbind option_bind]. rewrite decode_encode. by destruct q.
Qed.

Lemma written_text (q : Q) : is_Some (Some (write_q q)).
Proof. by eexists. Qed.

Lemma stored_text qty text (q : Q) : Some qty = Some text → read_q qty = Some q → ∃ q' : Q, read_q text = Some q' ∧ (dval q' == dval q)%Q.
Proof. intros [= <-] E. by exists q. Qed.

Definition former_ticker : IdentifierInput :=
  {| ii_Ref := ii_Ref (ticker "AAPL" "XNAS"); ii_Canonical := true; ii_ValidFrom := None; ii_ValidBefore := Some (Calendar.Date 2019 1 1) |}.

(** Two declarations of a share known by its ISIN and, until a year ago, by a ticker. *)
Definition named_state : state Q := {|
  mkt := with_shop {| instruments := instruments (shop (mkt declared_twice));
      identifiers := [held_by "aapl" (isin "US0378331005");
        held_by "aapl" former_ticker];
      declared := declared (shop (mkt declared_twice)); book := book (shop (mkt declared_twice)) |} (mkt declared_twice);
  decls := decls declared_twice |}.

(** A server that has lost them. *)
Definition rebuilt : trace (server Q) := {| earlier := []; latest := {|
  sv_tables := {| ingestion_jobs := []; ingestion_job_parts := []; validation_errors := []; identification_errors := [] |};
  sv_users := ∅; sv_saved := []; sv_attempts := []; sv_state := {| mkt := mkt named_state; decls := [] |} |} |}.

Lemma named_table : table_ok sample_ok read_q named_state (decls named_state).
Proof.
  split; [by apply (bool_decide_unpack _); vm_compute..| | |]; apply Forall_forall, (bool_decide_unpack _); by vm_compute.
Qed.

Lemma declarations_roundtrip_witness :
  let rows := default [] (ListHoldingDeclarationsForExport sample_ok read_q "u" named_state) in
  let r := DeclarationPart sample_gen sample_ok read_q read_day write_q Some (λ _, "error") "u" (declarationStatements write_q write_day rows) NewDetachedReporter rebuilt in
  (λ d, (hk_instrument (d_holding d), d_AsOfDate d, read_q (d_DeclaredQty d))) <$> decls (sv_state (latest r.2))
    = [("aapl", Calendar.Date 2020 2 1, Some 7%Q); ("aapl", Calendar.Date 2020 3 1, Some 100%Q)] ∧
  rp_Errs r.1.2 = [] ∧ NoDup (decl_key <$> decls (sv_state (latest r.2))).
Proof.
  cbv zeta. split; [by vm_compute|].
  destruct (declarations_roundtrip sample_gen sample_ok read_q read_day write_q write_day Some (λ _, "error") day_read q_read
    written_text stored_text "u" named_state rebuilt NewDetachedReporter (day_start (Calendar.Date 2020 1 10))) as (rows & n & rep' & w' & E & Ei & Ee & Hnd & _).
  - exact named_table.
  - change (names_ok (([] ++ [held_by "aapl" (isin "US0378331005")]) ++ [held_by "aapl" former_ticker])). rewrite !names_ok_snoc. split_and!; try done; by repeat constructor.
  - intros r Hr. apply list_elem_of_In in Hr. by destruct Hr as [<-|[<-|[]]].
  - apply (proj1 (Forall_forall (λ d, d_ShareCountBasis d ≠ zero_time) (decls named_state))), (bool_decide_unpack _). by vm_compute.
  - done.
  - done.
  - done.
  - constructor.
  - by vm_compute.
  - apply (proj1 (Forall_forall (λ d, hk_user (d_holding d) = "u" → (day_of (day_start (Calendar.Date 2020 1 10)) <= d_AsOfDate d)%Z) (decls named_state))),
      (bool_decide_unpack _). by vm_compute.
  - rewrite E. change (default [] (Some rows)) with rows. rewrite Ei. split; [exact Ee|exact Hnd].
Defined.

(** An event of the second whose other leg came on the ninth, and one of the fourth. *)
Definition stated_row (n broker group : string) (day : Z) : row Q := {|
  r_id := n; r_user := "u"; r_broker := broker; r_account := "a"; r_order_date := day_start day; r_trade_date := day_start day;
  r_description := "AAPL"; r_broker_types := ["TRANSFER"]; r_resolved := "TRANSFER"; r_asset_class := None; r_quantity := 10%Q; r_trading := None;
  r_settlement := None; r_unit_price := None; r_settlement_amount := None; r_instrument := Some "aapl"; r_share_basis := Some 1%Z;
  r_account_type := "USER"; r_purpose := None; r_weight := 10%Q; r_commodity := InstrumentPrefix +:+ "aapl"; r_group := group; r_correlations := [] |}.

Definition exporting : store Q := {|
  instruments := instruments (shop (mkt named_state)); identifiers := identifiers (shop (mkt named_state)); declared := [];
  book := {| txs := [stated_row "t1" "IBKR" "g1" 2; stated_row "t2" "IBKR" "g1" 9; stated_row "t3" "IBKR" "g2" 4; stated_row "t4" "SCHB" "g3" 3];
             tx_groups := list_to_map ((λ x, (x.1, {| g_user := "u"; g_timestamp := day_start x.2; g_job := None |})) <$> [("g1", 2%Z); ("g2", 4%Z); ("g3", 3%Z)]);
             transfer_matches := [] |} |}.

Definition exported_windows (from before : option Z) : list TxWindow :=
  txWindows write_q write_day (default [] (ListTxsForExport sample_ok "u" from before exporting)) from before.

Definition windows_shown (ws : list TxWindow) : list (Posting.Broker * option Z * option Z * list (option Z)) :=
  (λ x, (tw_Broker x, day_of <$> tw_PeriodFrom x, day_of <$> tw_PeriodBefore x, (λ p, day_of <$> ap_OrderDate p) <$> tw_Postings x)) <$> ws.

Lemma windows_carry_the_period_witness :
  windows_shown (exported_windows (Some (day_start 1)) (Some (day_start 5)))
    = [(Posting.IBKR, Some 1, Some 5, [Some 2; Some 4]); (Posting.SCHB, Some 1, Some 5, [Some 3])]%Z ∧
  ∃ rows, ListTxsForExport sample_ok "u" (Some (day_start 1)) (Some (day_start 5)) exporting = Some rows ∧
    NoDup (tw_Source <$> exported_windows (Some (day_start 1)) (Some (day_start 5))) ∧ NoDup (ep_ID <$> rows) ∧
    ∀ r, r ∈ rows → ∃ t, stated_within "u" (Some (day_start 1)) (Some (day_start 5)) (book exporting) t ∧ ep_ID r = r_id t.
Proof.
  split; [by vm_compute|]. unfold exported_windows.
  destruct (ListTxsForExport sample_ok "u" (Some (day_start 1)) (Some (day_start 5)) exporting) as [rows|] eqn:E; [|exfalso; by vm_compute in E].
  destruct (windows_carry_the_period sample_ok read_day write_q write_day day_read ltac:(done) "u" _ _ exporting rows E) as (_ & Hr & Hone & Hnd & _).
  exists rows. split_and!; [done|done|apply Hone|].
  - apply (bool_decide_eq_true_1 _). by vm_compute.
  - intros r (t & g & -> & Ht & _)%Hr. by exists t.
Defined.

(** A bound that was not asked for is taken from the last posting in order of the groups,
    and one of an earlier group may come after it: that of the ninth is not within the
    window that carries it. *)
Lemma window_ends_early :
  windows_shown (exported_windows None None)
    = [(Posting.IBKR, Some 2, Some 5, [Some 2; Some 9; Some 4]); (Posting.SCHB, Some 3, Some 4, [Some 3])]%Z.
Proof. by vm_compute. Qed.
End witnesses.
End Exports.
